(* ===== verification/_CoqProject ===== *)
-Q . S2P
Prelude.v
Lru.v
RLP.v
RLPDecode.v
Types.v
HeaderRLP.v
Receipts.v
Config.v
Fees.v
Transactions.v
Signing.v
Heap.v
TxOrder.v
Clique.v
CliqueEngine.v
Adapter.v
Unconfirmed.v
Worker.v
Assemble.v
StateTransition.v
ApplySim.v
Fill.v
TxList.v
TxLookup.v
TxPriced.v
TxPool.v
TxPoolInv.v
State.v
StateJournal.v
StateSim.v
StateInstance.v
StateEffects.v
Jumpdest.v
Evm.v
Vm.v
VmSafe.v
StorageGas.v
Interpreter.v
InterpreterSafe.v
Execution.v
Fuel.v
