(* ===== verification/Prelude.v ===== *)
(** * Block production with Narwhal ordering in go-ethereum

    ** The program

    The repository joins a fork of go-ethereum ([src/go-ethereum]) to the
    Narwhal ordering layer.  A node that signs blocks of a Clique
    proof-of-authority chain does not publish a sealed block at once: it hands
    the block to a gateway, waits for a commit event that names the block's
    number, and only then announces and stores the block.

    A block is produced in this order.  The worker ([miner/worker.go]) prepares
    a header on the chain head ([prepareWork]), asks the engine to complete it
    ([Clique.Prepare]) and fills the block with the pending transactions of
    the pool ([core/txpool], [fillTransactions]), best tip first and by nonce
    within an account ([TransactionsByPriceAndNonce]); each of them is executed by the state
    transition ([core/state_transition.go]) and leaves a receipt.  The finished
    block becomes a task.  [taskLoop] asks the engine to seal it
    ([Clique.Seal]); the sealed block arrives at [resultLoop], which finds the
    task again by the seal hash, passes the block through the Narwhal adapter
    ([extadapter]) and writes it to the chain.  Other nodes check the header
    with [Clique.VerifyHeader] on the voting snapshot of its parent, and
    execute the block with [StateProcessor.Process].  All data travels in RLP
    and is identified by Keccak-256 of it.

    ** The files

    - [Prelude.v]: outcomes (value, error or panic), the state-and-error monad
      [stm] with pre- and postconditions of its code ([wp]), machine integers,
      big-endian bytes, Go slices; hint database [geth] and the tactics
      [zbool], [case_if], [inv_bind].
    - [Lru.v]: [common/lru/basiclru.go], the linked ring on a heap of pointers
      and the cache on it; the class [CacheLaws] is what the engine relies on.
    - [RLP.v]: [rlp/encode.go], [rlp/encbuffer.go], [rlp/raw.go].
    - [RLPDecode.v]: [rlp/decode.go], the stream and the decoders by type; the
      stream has a bound on the byte buffers it may make.
    - [Types.v], [HeaderRLP.v]: headers and blocks of [core/types/block.go],
      the generated header encoder, [DeriveSha]; decoding of headers.
    - [Receipts.v]: [core/types/receipt.go], [log.go], [bloom9.go].
    - [Config.v]: [params/config.go].  [Fees.v]: [consensus/misc].
    - [Transactions.v]: [core/types/transaction.go] and the [tx_*.go] files,
      the four types of transactions and their binary form.
    - [Signing.v]: [core/types/transaction_signing.go].
    - [Heap.v], [TxOrder.v]: Go's [container/heap], and the transaction order
      of [core/types/transaction.go] on it.
    - [Clique.v]: [consensus/clique/snapshot.go], seal hash and recovery.
    - [CliqueEngine.v]: [consensus/clique/clique.go] and [api.go].
    - [Adapter.v]: [extadapter/extadapter.go].
    - [Unconfirmed.v]: [miner/unconfirmed.go].
    - [Worker.v]: [taskLoop] and [resultLoop] of [miner/worker.go] with the
      background routines of [Clique.Seal], as interleaved steps; the class
      [Sealer] is the interface to the engine.
    - [Assemble.v]: [prepareWork], [makeEnv] and [commitUncle] of
      [miner/worker.go], [CalcGasLimit] of [core/block_validator.go].
    - [StateTransition.v]: [core/gaspool.go], [state_transition.go],
      [state_processor.go], the contexts of [evm.go] with the closure of
      [GetHashFn] and its cache; the classes [StateDB] and [EVM] with their laws
      are the interfaces to what it calls, the record [ChainContext] (laws
      [ChainLaws]) the one to the chain.
    - [ApplySim.v]: the state transition gives the same answer on states that
      read the same.  [Fill.v]: [commitTransaction], [commitTransactions] and
      [fillTransactions] of [miner/worker.go].
    - [TxList.v]: [core/txpool/list.go], the transactions of one account.
      [TxLookup.v]: the lookup of all transactions, the account set and the
      nonces of [txpool.go] and [noncer.go].  [TxPriced.v]: the price heaps of
      [list.go].  [TxPool.v]: the operations of [txpool.go] that run under the
      pool's lock, from validation and insertion to the reset on a new chain
      head and the truncations.  [TxPoolInv.v]: the pool's invariant
      [good], and that every operation keeps it.
    - [State.v]: [core/state]: state objects, the database with its journal,
      access list and transient storage; the class [Tries] is the interface to
      the tries, the snapshot layer and the code store.  [StateJournal.v]:
      views of a state, the journal and what a revert restores.  [StateSim.v]:
      states that read the same.  [StateInstance.v]: the database is an instance
      of the class [StateDB] of the state transition and obeys its laws.
      [StateEffects.v]: what each operation can change, as one relation
      [dbstep] that composes; the invariant of the refund counter.
    - [Jumpdest.v]: [core/vm/analysis.go] and the jump checks of [contract.go].
    - [Evm.v]: the frames of [core/vm/evm.go] ([Call] to [Create2]) over a
      program runner; [runs_ok] is what a frame needs of it.
    - [Vm.v]: [core/vm] below the instructions: memory, stack, gas and memory
      tables; the class [Uint256] stands for the arithmetic package.
      [VmSafe.v]: the rules of [wp] for machine code, the machine's
      invariant, and that gas functions pay for the memory they ask for.
      [StorageGas.v]: gas and refunds of storage writes.
    - [Interpreter.v]: [instructions.go], [eips.go], [jump_table.go] for every
      fork, and the loop of [interpreter.go].  [InterpreterSafe.v]: every entry
      of every table keeps the invariant and pays for what it does.
      [Execution.v]: programs, calls and creations on top of it.  [Fuel.v]:
      the loop's fuel does not matter.

    ** How code becomes definitions

    A Go function that returns an error has an [outcome]; a nil dereference,
    an index out of range and an explicit panic are [Panic].  Code that writes
    to an object it shares passes the object as the state of [stm], which keeps
    what was written before an error.  Unsigned integers of 64 bits are numbers
    reduced by [u64] at every operation that can leave the range; [*big.Int]
    is [Z], under an [option] where nil is possible.  Hashes and addresses are
    the numbers their bytes spell.  A Go map is a [gmap]; where the code
    ranges over a map, the order is an argument and the theorems hold for every
    order.  Goroutines are step relations over their shared state
    ([Worker.worker_step], [Adapter.adapter_step]).

    Parameters are what the repository takes from elsewhere or what this
    library does not model: Keccak-256, secp256k1 ([Ecrecover], [Sign], laws
    [SecpLaws]), the trie hasher, the database and its JSON codec, the clock,
    the gateway, the chain store, the tries under the state database, the
    256-bit arithmetic of the interpreter and the precompiled contracts.  The
    256-bit words of blob transactions are the numbers they hold, and
    [SetFromBig] keeps the low 256 bits.  The pool reads blocks and states of the chain through
    two functions ([chain_ok] is what a reorganisation needs of them), and takes
    the order in which Go visits its maps and the clock as arguments.  The state
    transition is proved against the classes [StateDB] and [EVM]; the first is
    discharged by [StateInstance.v].  Each theorem that uses such a hypothesis
    is followed by an application to concrete functions that satisfy it.

    ** The theorems

    - From block to block through Narwhal: [narwhal_roundtrip],
      [Notify_exactly_once], [adapter_invariant], [taskLoop_invariant],
      [narwhal_gate], [result_receipts_match], [sealed_block_committed];
      and what a duplicated commit does: [duplicate_commit_panics].
    - Building a block: [prepareWork_verifies] (what is prepared is accepted by
      the verification rules), [TransactionsByPriceAndNonce_refines] and
      [_drain], [fillTransactions_accounting], [fill_then_process] (a verifier
      that executes what was filled on the same parent gets the same receipts
      and gas), [Shift_correct].
    - Transaction pool: [pool_invariant] (lists, lookup, price heaps, nonces and
      slot counts agree after every operation), [runReorg_limits] (after a
      reset, promotion and truncation the pool is within its configured limits,
      local accounts apart), [runReorg_executable] (what is pending of an
      account starts at its nonce in the state of the new head, and is within
      its balance and the gas limit), [Pending_offers] (what the worker is
      given), [Status_sound]; [list_refines] and [strict_contiguous] of an
      account's list; and what a head that is no block of the chain does:
      [reset_missing_head].
    - Execution: [ApplyTransaction_accounting], [Process_accounting],
      [IntrinsicGas_exact], [message_price], [CalcBaseFee_bounds];
      [GetHashFn_correct] (programs see the hashes of the block's own
      ancestors); [revert_restores] of the journal.
    - Programs: [Run_total] (every program of every fork ends within its gas,
      never panics and leaves the snapshots before it usable), [Run_fuel], [call_reverts] and [create_reverts] (a
      failed call or creation leaves the state it found), [static_pure] (a
      static call writes nothing), [codeBitmap_exact] and
      [validJumpdest_exact].
    - Consensus: [apply_preserves], [apply_header_majority], [apply_spacing],
      [inturn_round_robin], [snapshot_correct], [verifyHeader_sound], and the
      gaps of verification, [VerifyHeader_gaps]; [CheckConfigForkOrder_exact].
    - Signatures: [SignTx_Sender], [SignTx_no_replay], [Sender_not_malleable],
      [Sender_cache_transparent].
    - Encodings: [EncodeToBytes_reference], [DecodeBytes_inverse],
      [DecodeBytes_total], [DecodeHeader_canonical],
      [Header_EncodeRLP_injective], [Transaction_roundtrip],
      [Transaction_canonical], [Receipt_roundtrip], [CreateBloom_complete];
      and what a blob transaction without recipient does: [BlobTx_nil_To].
    - Caches: [BasicLRU_refines].

    ** Fuel

    Loops that are not structural carry fuel, and each bound is proved enough
    where the result matters: the RLP stream consumes at least a byte per list
    element, so the input's length bounds it ([DecodeBytes_total]);
    the walk back of [Clique.snapshot] ends at block 0, so the block number
    bounds it ([snapshot_correct]); that of [GetHashFn] ends at the block it is
    asked for, so the distance bounds it ([GetHashFn_correct]); a reorganisation seen by the pool ends at the common
    ancestor, so the block numbers bound it ([TxPoolInv.reinjected_ok]); the
    pool's discard loop takes an entry off a heap per turn, and its equalizing
    loop a transaction off a list ([TxPriced.v], [TxPoolInv.v]); the loop of
    [commitTransactions] removes a transaction per turn ([fillTransactions_accounting]); the heap loops are
    bounded by the slice ([Heap.v]); the series of [fakeExponential] ends
    ([Fees.v]); the loop of [CheckCompatible] ends within the sum of head and
    time when no fork is at time zero ([Config.CheckCompatible_correct]), and
    runs forever on a configuration with one
    ([Config.CheckCompatible_diverges]).  The interpreter takes a unit of fuel
    for each instruction, of callees too, and each instruction that does not
    end its program costs gas, so one unit more than the gas is enough
    ([Run_total]) and more changes nothing ([Run_fuel]).

    ** Not modelled

    The tries and their database, the snapshot layer, precompiled contracts and
    chain storage and import are interfaces here; tracers and the extra EIPs of
    a configuration are left out of the interpreter.  Of the worker,
    [newWorkLoop], [mainLoop], [commitWork] and the recommit timer are left
    out; of the pool, its journal on disk, its events and the goroutines that
    collect requests before they take the lock.  Peer-to-peer protocols, RPC,
    accounts, command-line tools, other consensus engines, generated gRPC code,
    logging and metrics carry none of the logic above.  The gateway and Narwhal itself are Rust programs behind
    [Adapter.Gateway].

    Of the laws of the class [EVM] of the state transition, the one on gas
    follows from [Execution.v]; that programs behave the same on states that
    read the same, and that they create no funds, remain to be shown of the
    interpreter. *)

From stdpp Require Export base gmap sets list strings fin_maps option sorting list_numbers.
From Stdlib Require Export ZArith Lia.
From Stdlib Require Import Strings.Byte NArith Znat Znumtheory.

Open Scope Z_scope.

(** ** Automation shared by every file *)

Create HintDb geth.
Create Rewrite HintDb geth.

(** [zbool] turns boolean comparisons in the context into propositions. *)
Ltac zbool :=
  repeat match goal with
  | H : (_ <? _) = true |- _ => apply Z.ltb_lt in H
  | H : (_ <? _) = false |- _ => apply Z.ltb_ge in H
  | H : (_ <=? _) = true |- _ => apply Z.leb_le in H
  | H : (_ <=? _) = false |- _ => apply Z.leb_gt in H
  | H : (_ =? _) = true |- _ => apply Z.eqb_eq in H
  | H : (_ =? _) = false |- _ => apply Z.eqb_neq in H
  | H : (_ >? _) = true |- _ => rewrite Z.gtb_ltb in H; apply Z.ltb_lt in H
  | H : (_ >? _) = false |- _ => rewrite Z.gtb_ltb in H; apply Z.ltb_ge in H
  | H : (_ >=? _) = true |- _ => rewrite Z.geb_leb in H; apply Z.leb_le in H
  | H : (_ >=? _) = false |- _ => rewrite Z.geb_leb in H; apply Z.leb_gt in H
  | H : (_ && _) = true |- _ => apply andb_true_iff in H; destruct H
  | H : (_ || _) = false |- _ => apply orb_false_iff in H; destruct H
  | H : negb _ = true |- _ => apply negb_true_iff in H
  | H : negb _ = false |- _ => apply negb_false_iff in H
  | H : bool_decide _ = true |- _ => apply bool_decide_eq_true in H
  | H : bool_decide _ = false |- _ => apply bool_decide_eq_false in H
  end.

(** [case_if] splits the first [if] on a boolean in the goal, [case_if in H]
    the first one in [H], reflecting the comparison. *)
Tactic Notation "case_if" :=
  match goal with |- context [if ?b then _ else _] => destruct b eqn:?; zbool end.
Tactic Notation "case_if" "in" hyp(H) :=
  match type of H with context [if ?b then _ else _] => destruct b eqn:?; zbool end.

(** ** Outcomes: Go's result-or-error returns, with panics *)

Inductive outcome (E A : Type) : Type :=
| Ok (a : A)
| Err (e : E)
| Panic.
Arguments Ok {E A} _.
Arguments Err {E A} _.
Arguments Panic {E A}.

#[global] Instance outcome_ret {E} : MRet (outcome E) := fun A a => Ok a.
#[global] Instance outcome_bind {E} : MBind (outcome E) := fun A B f m =>
  match m with Ok a => f a | Err e => Err e | Panic => Panic end.
#[global] Instance outcome_fmap {E} : FMap (outcome E) := fun A B f m =>
  match m with Ok a => Ok (f a) | Err e => Err e | Panic => Panic end.

(** [guard_err b e] is Go's [if b { return e }]. *)
Definition guard_err {E} (b : bool) (e : E) : outcome E unit :=
  if b then Err e else Ok tt.

(** The value of a successful outcome, [d] otherwise. *)
Definition from_ok {E A} (d : A) (m : outcome E A) : A := match m with Ok a => a | _ => d end.
(** Reading through a pointer panics on [nil]. *)
Definition deref {E A} (o : option A) : outcome E A :=
  match o with Some a => Ok a | None => Panic end.

(** A computation without errors, where others can fail. *)
Definition never {E A} (m : outcome Empty_set A) : outcome E A := match m with Ok a => Ok a | Err e => match e with end | Panic => Panic end.

Lemma bind_ok {E A B} (m : outcome E A) (f : A → outcome E B) b :
  (m ≫= f) = Ok b ↔ ∃ a, m = Ok a ∧ f a = Ok b.
Proof. destruct m; cbn; naive_solver. Qed.

Lemma guard_err_ok {E} b (e : E) u : guard_err b e = Ok u ↔ b = false.
Proof. unfold guard_err. destruct b, u; naive_solver. Qed.

Lemma guard_err_err {E} b (e e' : E) : guard_err b e = Err e' ↔ b = true ∧ e = e'.
Proof. unfold guard_err. destruct b; naive_solver. Qed.

(** Unfold a successful monadic run into its steps. *)
Ltac inv_bind :=
  repeat match goal with
  | H : (_ ≫= _) = Ok _ |- _ => apply bind_ok in H; destruct H as (? & ? & ?)
  | H : guard_err _ _ = Ok _ |- _ => apply guard_err_ok in H
  end.

(** ** State and errors: code that mutates shared state and may fail

    The state is kept when an error is returned, as Go keeps what was written
    before a [return err]. *)

Definition stm (S E A : Type) : Type := S → outcome E A * S.
#[global] Instance stm_ret {S E} : MRet (stm S E) := fun A a s => (Ok a, s).
#[global] Instance stm_bind {S E} : MBind (stm S E) := fun A B f m s =>
  match m s with
  | (Ok a, s) => f a s
  | (Err e, s) => (Err e, s)
  | (Panic, s) => (Panic, s)
  end.

(** A computation that does not touch the state. *)
Definition pure_out {S E A} (m : outcome E A) : stm S E A := fun s => (m, s).

Lemma stm_bind_ok {S E A B} (m : stm S E A) (f : A → stm S E B) s b s' :
  (m ≫= f) s = (Ok b, s') ↔ ∃ a s1, m s = (Ok a, s1) ∧ f a s1 = (Ok b, s').
Proof. unfold mbind, stm_bind. destruct (m s) as [[a|e|] s1]; naive_solver. Qed.

Lemma pure_out_ok {S E A} (m : outcome E A) (s : S) a s' :
  pure_out m s = (Ok a, s') ↔ m = Ok a ∧ s = s'.
Proof. unfold pure_out. naive_solver. Qed.

(** *** Pre- and postconditions

    [wp i Q QE s]: from [s] the code does not panic; it ends with a value and a
    state in [Q], or with an error in [QE]. *)

Section Wp.
Context {M E : Type}.
Definition wp {A} (i : stm M E A) (Q : A → M → Prop) (QE : E → M → Prop) (m : M) : Prop :=
  match i m with (Ok a, m) => Q a m | (Err e, m) => QE e m | (Panic, _) => False end.

Lemma wp_ret {A} (a : A) Q QE m : Q a m → wp (mret a) Q QE m.
Proof. done. Qed.
Lemma wp_bind {A B} (i : stm M E A) (f : A → stm M E B) Q QE m : wp i (fun a => wp (f a) Q QE) QE m → wp (i ≫= f) Q QE m.
Proof. unfold wp, mbind, stm_bind. by destruct (i m) as [[a|e|] m']. Qed.
Lemma wp_mono {A} (i : stm M E A) (Q Q' : A → M → Prop) (QE QE' : E → M → Prop) m :
  wp i Q QE m → (∀ a m, Q a m → Q' a m) → (∀ e m, QE e m → QE' e m) → wp i Q' QE' m.
Proof. unfold wp. destruct (i m) as [[a|e|] m']; auto. Qed.
Lemma wp_pure_ok {A} (o : outcome E A) a Q QE m : o = Ok a → Q a m → wp (pure_out o) Q QE m.
Proof. by intros ->. Qed.
End Wp.

(** ** Machine integers *)

(** Integer remainder, which panics on a zero divisor. *)
Definition umod {E} (a b : Z) : outcome E Z := if b =? 0 then Panic else Ok (a mod b).

Definition u64 (z : Z) : Z := z mod 2 ^ 64.
Definition i64 (z : Z) : Z := (z + 2 ^ 63) mod 2 ^ 64 - 2 ^ 63.
Definition is_u64 (z : Z) : Prop := 0 ≤ z < 2 ^ 64.
Definition MaxUint64 : Z := 2 ^ 64 - 1.

Lemma u64_range z : is_u64 (u64 z).
Proof. unfold is_u64, u64. apply Z.mod_pos_bound. lia. Qed.

Lemma u64_small z : is_u64 z → u64 z = z.
Proof. unfold is_u64, u64. intros. apply Z.mod_small. lia. Qed.

Lemma u64_u64 z : u64 (u64 z) = u64 z.
Proof. apply u64_small, u64_range. Qed.

Lemma i64_small z : - 2 ^ 63 ≤ z < 2 ^ 63 → i64 z = z.
Proof. unfold i64. intros. rewrite Z.mod_small; lia. Qed.

#[export] Hint Resolve u64_range : geth.
#[export] Hint Rewrite u64_u64 : geth.

(** [big.Int.Uint64] returns the low 64 bits of the absolute value. *)
Definition big_Uint64 (x : Z) : Z := Z.abs x mod 2 ^ 64.
(** [big.Int.BitLen]. *)
Definition big_BitLen (x : Z) : Z :=
  if Z.abs x =? 0 then 0 else Z.log2 (Z.abs x) + 1.
(** [big.Int.IsUint64]. *)
Definition big_IsUint64 (x : Z) : bool := (0 <=? x) && (x <? 2 ^ 64).

Lemma big_Uint64_small x : is_u64 x → big_Uint64 x = x.
Proof. unfold is_u64, big_Uint64. intros. rewrite Z.abs_eq by lia. apply Z.mod_small. lia. Qed.

Lemma big_Uint64_range x : is_u64 (big_Uint64 x).
Proof. unfold is_u64, big_Uint64. apply Z.mod_pos_bound. lia. Qed.

#[export] Hint Resolve big_Uint64_range : geth.

(** ** Bytes *)

Abbreviation byte := Init.Byte.byte.
Abbreviation bytes := (list byte).

Definition b2z (b : byte) : Z := Z.of_N (Byte.to_N b).
Definition z2b (z : Z) : byte :=
  match Byte.of_N (Z.to_N (z mod 256)) with Some b => b | None => Byte.x00 end.

Lemma b2z_range b : 0 ≤ b2z b < 256.
Proof. unfold b2z. pose proof (Byte.to_N_bounded b). lia. Qed.

Lemma b2z_z2b z : b2z (z2b z) = z mod 256.
Proof.
  unfold b2z, z2b. pose proof (Z.mod_pos_bound z 256 ltac:(lia)) as Hb.
  destruct (Byte.of_N (Z.to_N (z mod 256))) as [b|] eqn:E.
  - apply Byte.to_of_N in E. rewrite E. lia.
  - apply Byte.of_N_None_iff in E. lia.
Qed.

Lemma z2b_b2z b : z2b (b2z b) = b.
Proof.
  unfold z2b. rewrite Z.mod_small by apply b2z_range.
  unfold b2z. rewrite N2Z.id, Byte.of_to_N. done.
Qed.

Lemma b2z_inj b1 b2 : b2z b1 = b2z b2 → b1 = b2.
Proof. intros H. rewrite <- (z2b_b2z b1), <- (z2b_b2z b2). by rewrite H. Qed.

#[global] Instance byte_eq_dec : EqDecision byte := Byte.byte_eq_dec.

(** Length of a slice as a Go [int]. *)
Definition zlen {A} (l : list A) : Z := Z.of_nat (length l).

Lemma zlen_nonneg {A} (l : list A) : 0 ≤ zlen l.
Proof. unfold zlen. lia. Qed.
Lemma zlen_app {A} (l k : list A) : zlen (l ++ k) = zlen l + zlen k.
Proof. unfold zlen. rewrite length_app. lia. Qed.
Lemma zlen_cons {A} (x : A) l : zlen (x :: l) = zlen l + 1.
Proof. unfold zlen. cbn. lia. Qed.
Lemma zlen_nil {A} : zlen (@nil A) = 0.
Proof. done. Qed.
#[export] Hint Resolve zlen_nonneg : geth.

(** Equality of non-empty lists, without reducing the elements. *)
Lemma cons_inv {A} (x y : A) l k : x :: l = y :: k → x = y ∧ l = k.
Proof. by intros [= -> ->]. Qed.

(** Go slicing [b[lo:hi]] of a slice whose capacity is its length. *)
Definition slice {E A} (b : list A) (lo hi : Z) : outcome E (list A) :=
  if (0 <=? lo) && (lo <=? hi) && (hi <=? zlen b)
  then Ok (take (Z.to_nat (hi - lo)) (drop (Z.to_nat lo) b))
  else Panic.

(** ** Big-endian numbers *)

(** The [n] low bytes of [z], most significant first: the bytes of an
    [\[n\]byte] array holding the number [z]. *)
Fixpoint be_bytes (n : nat) (z : Z) : bytes :=
  match n with
  | O => []
  | S n' => be_bytes n' (Z.shiftr z 8) ++ [z2b z]
  end.

(** The number a big-endian byte string spells ([big.Int.SetBytes]). *)
Definition be_value (l : bytes) : Z :=
  foldl (fun acc b => acc * 256 + b2z b) 0 l.

Lemma length_be_bytes n z : length (be_bytes n z) = n.
Proof. revert z. induction n as [|n IH]; intros z; cbn; [done|]. rewrite length_app, IH. cbn. lia. Qed.

Lemma zlen_be_bytes n z : zlen (be_bytes n z) = Z.of_nat n.
Proof. unfold zlen. by rewrite length_be_bytes. Qed.

Lemma be_value_app l b : be_value (l ++ [b]) = be_value l * 256 + b2z b.
Proof. unfold be_value. by rewrite foldl_app. Qed.

Lemma be_value_nonneg l : 0 ≤ be_value l.
Proof.
  induction l as [|b l IH] using rev_ind; [done|].
  rewrite be_value_app. pose proof (b2z_range b). lia.
Qed.

Lemma be_value_be_bytes n z : be_value (be_bytes n z) = z mod 2 ^ (8 * Z.of_nat n).
Proof.
  revert z. induction n as [|n IH]; intros z; [cbn; by rewrite Z.mod_1_r|].
  cbn [be_bytes]. rewrite be_value_app, IH, b2z_z2b, Z.shiftr_div_pow2 by lia.
  replace (8 * Z.of_nat (S n)) with (8 + 8 * Z.of_nat n) by lia.
  rewrite Z.pow_add_r, Z.rem_mul_r by (try apply Z.pow_pos_nonneg; lia).
  change (2 ^ 8) with 256. lia.
Qed.

Lemma be_bytes_be_value l : be_bytes (length l) (be_value l) = l.
Proof.
  induction l as [|b l IH] using rev_ind; [done|].
  rewrite length_app, Nat.add_comm. cbn [be_bytes length Nat.add].
  rewrite be_value_app. f_equal.
  - rewrite Z.shiftr_div_pow2, Z.div_add_l by lia. change (2 ^ 8) with 256.
    pose proof (b2z_range b). rewrite Z.div_small, Z.add_0_r by lia. done.
  - f_equal. rewrite <- (z2b_b2z b) at 2. apply b2z_inj. rewrite !b2z_z2b.
    rewrite Z.add_comm, Z.mod_add by lia. done.
Qed.

Lemma be_value_lt l : be_value l < 2 ^ (8 * zlen l).
Proof.
  rewrite <- (be_bytes_be_value l) at 1. rewrite be_value_be_bytes.
  apply Z.mod_pos_bound, Z.pow_pos_nonneg; unfold zlen; lia.
Qed.

Lemma be_bytes_inj n x y :
  0 ≤ x < 2 ^ (8 * Z.of_nat n) → 0 ≤ y < 2 ^ (8 * Z.of_nat n) →
  be_bytes n x = be_bytes n y → x = y.
Proof.
  intros Hx Hy H. apply (f_equal be_value) in H.
  rewrite !be_value_be_bytes, !Z.mod_small in H by lia. done.
Qed.

Lemma be_bytes_split a b z :
  be_bytes (a + b) z = be_bytes a (Z.shiftr z (8 * Z.of_nat b)) ++ be_bytes b z.
Proof.
  revert z. induction b as [|b IH]; intros z.
  - cbn [be_bytes]. rewrite Nat.add_0_r, app_nil_r. f_equal.
  - rewrite Nat.add_succ_r. cbn [be_bytes]. rewrite IH, app_assoc. do 2 f_equal.
    rewrite Z.shiftr_shiftr by lia. do 2 f_equal. lia.
Qed.

Lemma be_bytes_mod n z : be_bytes n (z mod 2 ^ (8 * Z.of_nat n)) = be_bytes n z.
Proof.
  rewrite <- (be_value_be_bytes n z).
  rewrite <- (be_bytes_be_value (be_bytes n z)) at 2. by rewrite length_be_bytes.
Qed.

Lemma be_bytes_mod_le n m z : (n ≤ m)%nat →
  be_bytes n (z mod 2 ^ (8 * Z.of_nat m)) = be_bytes n z.
Proof.
  intros. rewrite <- (be_bytes_mod n (z mod _)), <- (be_bytes_mod n z). f_equal.
  rewrite Z.mod_mod_divide; [done|].
  exists (2 ^ (8 * (Z.of_nat m - Z.of_nat n))). rewrite <- Z.pow_add_r by lia. f_equal. lia.
Qed.

(** ** [bytes.Compare] *)

Fixpoint bytes_Compare (a b : bytes) : comparison :=
  match a, b with
  | [], [] => Eq
  | [], _ => Lt
  | _, [] => Gt
  | x :: a', y :: b' =>
      match Z.compare (b2z x) (b2z y) with Eq => bytes_Compare a' b' | c => c end
  end.

Lemma bytes_Compare_refl a : bytes_Compare a a = Eq.
Proof. induction a as [|x a IH]; cbn; [done|]. by rewrite Z.compare_refl. Qed.

Lemma be_value_cons b l : be_value (b :: l) = b2z b * 2 ^ (8 * zlen l) + be_value l.
Proof.
  induction l as [|c l IH] using rev_ind.
  { unfold be_value. cbn [foldl]. change (2 ^ (8 * zlen [])) with 1. lia. }
  rewrite app_comm_cons, !be_value_app, IH, zlen_app. cbn [length]. change (zlen [c]) with 1.
  replace (8 * (zlen l + 1)) with (8 * zlen l + 8) by lia.
  rewrite Z.pow_add_r by (pose proof (zlen_nonneg l); lia). change (2 ^ 8) with 256. lia.
Qed.

(** On strings of equal length the byte order is the numeric order. *)
Lemma bytes_Compare_value a b : length a = length b →
  bytes_Compare a b = Z.compare (be_value a) (be_value b).
Proof.
  revert b. induction a as [|x a IH]; intros [|y b] Hl; try done.
  injection Hl as Hl. rewrite !be_value_cons. unfold zlen. rewrite <- Hl.
  pose proof (be_value_lt a) as Ha. pose proof (be_value_lt b) as Hb. unfold zlen in Ha, Hb. rewrite <- Hl in Hb.
  pose proof (be_value_nonneg a). pose proof (be_value_nonneg b).
  cbn [bytes_Compare]. destruct (Z.compare_spec (b2z x) (b2z y)) as [->|Hlt|Hlt].
  - rewrite IH by done. symmetry. destruct (Z.compare_spec (be_value a) (be_value b)) as [E|E|E].
    + rewrite E. apply Z.compare_refl.
    + apply Z.compare_lt_iff. lia.
    + apply Z.compare_gt_iff. lia.
  - symmetry. apply Z.compare_lt_iff. nia.
  - symmetry. apply Z.compare_gt_iff. nia.
Qed.
