(* ===== verification/Lru.v ===== *)
(** LRU caches of [src/go-ethereum/common/lru]: the pointer-based doubly linked
    list and [BasicLRU] of basiclru.go, and the locked wrapper [Cache] of
    lru.go, which adds only mutual exclusion.

    The list is modelled on its heap: pointers, [next] and [prev] fields, and
    nil.  [refines] relates a cache to the abstract list of its entries, most
    recently used first; [CacheLaws] is what clients rely on. *)

From S2P Require Import Prelude.

Section Lru.
Context {K V : Type} {EK : EqDecision K} {CK : Countable K} {IK : Inhabited K} {IV : Inhabited V}.

(** Nil dereferences are the only failures: there are no error values. *)
Abbreviation M := (outcome Empty_set).

(** ** The linked list *)

Abbreviation ptr := positive.

(** Go's zero value of a key is [inhabitant]. *)
Record listElem := mkElem { next : option ptr; prev : option ptr; v : K }.

(** [root] is the address of the list's sentinel. *)
Abbreviation heap := (gmap ptr listElem).
Definition root : ptr := 1%positive.

Definition load (p : option ptr) (h : heap) : M listElem := a ← deref p; deref (h !! a).
Definition store (p : option ptr) (f : listElem → listElem) (h : heap) : M heap :=
  a ← deref p; e ← deref (h !! a); Ok (<[a := f e]> h).
Definition set_next (p : option ptr) (x : option ptr) : heap → M heap :=
  store p (fun e => mkElem x (prev e) (v e)).
Definition set_prev (p : option ptr) (x : option ptr) : heap → M heap :=
  store p (fun e => mkElem (next e) x (v e)).
Definition set_v (p : option ptr) (x : K) : heap → M heap :=
  store p (fun e => mkElem (next e) (prev e) x).

(** [init] makes the sentinel point to itself. *)
Definition init (h : heap) : M heap :=
  h ← set_next (Some root) (Some root) h; set_prev (Some root) (Some root) h.

Definition newList : M heap := init {[root := mkElem None None inhabitant]}.

Definition pushElem (e : option ptr) (h : heap) : M heap :=
  h ← set_prev e (Some root) h;
  r ← load (Some root) h;
  h ← set_next e (next r) h;
  h ← set_next (Some root) e h;
  x ← load e h;
  set_prev (next x) e h.

(** The first two assignments of [moveToFront] and [remove]. *)
Definition unlink (e : option ptr) (h : heap) : M heap :=
  x ← load e h;
  h ← set_next (prev x) (next x) h;
  x ← load e h;
  set_prev (next x) (prev x) h.

Definition moveToFront (e : option ptr) (h : heap) : M heap :=
  h ← unlink e h; pushElem e h.

Definition remove (e : option ptr) (h : heap) : M heap :=
  h ← unlink e h; h ← set_next e None h; set_prev e None h.

Definition last (h : heap) : M (option ptr) :=
  r ← load (Some root) h;
  Ok (if bool_decide (prev r = Some root) then None else prev r).

Definition removeLast (h : heap) : M (option ptr * heap) :=
  e ← last h;
  match e with
  | Some _ => h ← remove e h; Ok (e, h)
  | None => Ok (e, h)
  end.

(** The walk of [appendTo] from the back; the fuel is the number of cells. *)
Fixpoint appendTo_loop (fuel : nat) (e : option ptr) (h : heap) (slice : list K) : M (list K) :=
  if bool_decide (e = Some root) then Ok slice else
  match fuel with
  | O => Panic
  | S f => x ← load e h; appendTo_loop f (prev x) h (slice ++ [v x])
  end.
Definition appendTo (h : heap) (slice : list K) : M (list K) :=
  r ← load (Some root) h; appendTo_loop (size h) (prev r) h slice.

(** [new(listElem)]: a fresh zero cell. *)
Definition new_elem (h : heap) : ptr * heap :=
  let p := fresh (dom h) in (p, <[p := mkElem None None inhabitant]> h).

(** ** BasicLRU *)

Record BasicLRU := mkLRU { lru_list : heap; items : gmap K (ptr * V); cap : Z }.

Definition NewBasicLRU (capacity : Z) : M BasicLRU :=
  let capacity := if capacity <=? 0 then 1 else capacity in
  l ← newList; Ok (mkLRU l ∅ capacity).

Definition Len (c : BasicLRU) : Z := Z.of_nat (size (items c)).

Definition Add (key : K) (value : V) (c : BasicLRU) : M (bool * BasicLRU) :=
  match items c !! key with
  | Some (elem, _) =>
      let its := <[key := (elem, value)]> (items c) in
      l ← moveToFront (Some elem) (lru_list c);
      Ok (false, mkLRU l its (cap c))
  | None =>
      '(elem, l, its, evicted) ←
        (if cap c <=? Len c then
           '(elem, l) ← removeLast (lru_list c);
           x ← load elem l;
           Ok (elem, l, delete (v x) (items c), true)
         else
           let '(p, l) := new_elem (lru_list c) in Ok (Some p, l, items c, false));
      l ← set_v elem key l;
      e ← deref elem;
      let its := <[key := (e, value)]> its in
      l ← pushElem elem l;
      Ok (evicted, mkLRU l its (cap c))
  end.

Definition Contains (key : K) (c : BasicLRU) : bool := bool_decide (is_Some (items c !! key)).

Definition Get (key : K) (c : BasicLRU) : M (option V * BasicLRU) :=
  match items c !! key with
  | None => Ok (None, c)
  | Some (elem, value) =>
      l ← moveToFront (Some elem) (lru_list c);
      Ok (Some value, mkLRU l (items c) (cap c))
  end.

(** The value of [items[key]]: Go's zero value when the key is missing. *)
Definition item_value (its : gmap K (ptr * V)) (key : K) : V := default inhabitant (snd <$> its !! key).

Definition GetOldest (c : BasicLRU) : M (option (K * V)) :=
  lastElem ← last (lru_list c);
  match lastElem with
  | None => Ok None
  | Some _ =>
      x ← load lastElem (lru_list c);
      Ok (Some (v x, item_value (items c) (v x)))
  end.

Definition Peek (key : K) (c : BasicLRU) : option V := snd <$> items c !! key.

Definition Purge (c : BasicLRU) : M BasicLRU :=
  l ← init (lru_list c); Ok (mkLRU l ∅ (cap c)).

Definition Remove (key : K) (c : BasicLRU) : M (bool * BasicLRU) :=
  match items c !! key with
  | None => Ok (false, c)
  | Some (elem, _) =>
      let its := delete key (items c) in
      l ← remove (Some elem) (lru_list c);
      Ok (true, mkLRU l its (cap c))
  end.

Definition RemoveOldest (c : BasicLRU) : M (option (K * V) * BasicLRU) :=
  lastElem ← last (lru_list c);
  match lastElem with
  | None => Ok (None, c)
  | Some _ =>
      x ← load lastElem (lru_list c);
      let value := item_value (items c) (v x) in
      let its := delete (v x) (items c) in
      l ← remove lastElem (lru_list c);
      Ok (Some (v x, value), mkLRU l its (cap c))
  end.

Definition Keys (c : BasicLRU) : M (list K) := appendTo (lru_list c) [].

(** ** Calls on a [Cache], one at a time under its lock *)

Inductive op :=
| OAdd (key : K) (value : V) | OContains (key : K) | OGet (key : K) | OGetOldest | OLen
| OPeek (key : K) | OPurge | ORemove (key : K) | ORemoveOldest | OKeys.

Inductive res :=
| RBool (b : bool) | RVal (o : option V) | REntry (o : option (K * V)) | RLen (n : Z)
| RKeys (l : list K) | RUnit.

Definition exec (o : op) (c : BasicLRU) : M (res * BasicLRU) :=
  match o with
  | OAdd k x => r ← Add k x c; Ok (RBool r.1, r.2)
  | OContains k => Ok (RBool (Contains k c), c)
  | OGet k => r ← Get k c; Ok (RVal r.1, r.2)
  | OGetOldest => r ← GetOldest c; Ok (REntry r, c)
  | OLen => Ok (RLen (Len c), c)
  | OPeek k => Ok (RVal (Peek k c), c)
  | OPurge => c ← Purge c; Ok (RUnit, c)
  | ORemove k => r ← Remove k c; Ok (RBool r.1, r.2)
  | ORemoveOldest => r ← RemoveOldest c; Ok (REntry r.1, r.2)
  | OKeys => r ← Keys c; Ok (RKeys r, c)
  end.

Fixpoint run (os : list op) (c : BasicLRU) : M (list res * BasicLRU) :=
  match os with
  | [] => Ok ([], c)
  | o :: os' => '(r, c) ← exec o c; '(rs, c) ← run os' c; Ok (r :: rs, c)
  end.

(** ** Specification: the entries, most recently used first *)

Abbreviation entries := (list (K * V)).

Fixpoint lookup_key (k : K) (l : entries) : option V :=
  match l with
  | [] => None
  | (k', x) :: l' => if decide (k' = k) then Some x else lookup_key k l'
  end.
Definition drop_key (k : K) (l : entries) : entries := filter (fun kv => kv.1 ≠ k) l.

Definition spec (capacity : Z) (o : op) (l : entries) : res * entries :=
  match o with
  | OAdd k x =>
      match lookup_key k l with
      | Some _ => (RBool false, (k, x) :: drop_key k l)
      | None =>
          if capacity <=? zlen l then (RBool true, (k, x) :: removelast l)
          else (RBool false, (k, x) :: l)
      end
  | OContains k => (RBool (bool_decide (is_Some (lookup_key k l))), l)
  | OGet k =>
      match lookup_key k l with
      | Some x => (RVal (Some x), (k, x) :: drop_key k l)
      | None => (RVal None, l)
      end
  | OGetOldest => (REntry (list.last l), l)
  | OLen => (RLen (zlen l), l)
  | OPeek k => (RVal (lookup_key k l), l)
  | OPurge => (RUnit, [])
  | ORemove k => (RBool (bool_decide (is_Some (lookup_key k l))), drop_key k l)
  | ORemoveOldest => (REntry (list.last l), removelast l)
  | OKeys => (RKeys (reverse l.*1), l)
  end.

Fixpoint spec_run (capacity : Z) (os : list op) (l : entries) : list res * entries :=
  match os with
  | [] => ([], l)
  | o :: os' => let '(r, l) := spec capacity o l in
                let '(rs, l) := spec_run capacity os' l in (r :: rs, l)
  end.

(** ** The heap as a chain of cells *)

Definition nxt (h : heap) (a : ptr) : option (option ptr) := next <$> h !! a.
Definition prv (h : heap) (a : ptr) : option (option ptr) := prev <$> h !! a.
Definition val (h : heap) (a : ptr) : option K := v <$> h !! a.

Definition upd_next (p : ptr) (x : option ptr) (h : heap) : heap :=
  alter (fun e => mkElem x (prev e) (v e)) p h.
Definition upd_prev (p : ptr) (x : option ptr) (h : heap) : heap :=
  alter (fun e => mkElem (next e) x (v e)) p h.

Lemma set_next_upd p x h : is_Some (val h p) → set_next (Some p) x h = Ok (upd_next p x h).
Proof.
  unfold val, set_next, store, upd_next. rewrite fmap_is_Some. intros [e He]. cbn. rewrite He. cbn.
  f_equal. apply map_eq. intros i. destruct (decide (i = p)) as [->|].
  - by rewrite lookup_insert_eq, lookup_alter_eq, He.
  - by rewrite lookup_insert_ne, lookup_alter_ne.
Qed.
Lemma set_prev_upd p x h : is_Some (val h p) → set_prev (Some p) x h = Ok (upd_prev p x h).
Proof.
  unfold val, set_prev, store, upd_prev. rewrite fmap_is_Some. intros [e He]. cbn. rewrite He. cbn.
  f_equal. apply map_eq. intros i. destruct (decide (i = p)) as [->|].
  - by rewrite lookup_insert_eq, lookup_alter_eq, He.
  - by rewrite lookup_insert_ne, lookup_alter_ne.
Qed.

Lemma val_upd_next p x h a : val (upd_next p x h) a = val h a.
Proof. unfold val, upd_next. destruct (decide (a = p)) as [->|]; [rewrite lookup_alter_eq; by destruct (h !! p)|by rewrite lookup_alter_ne]. Qed.
Lemma val_upd_prev p x h a : val (upd_prev p x h) a = val h a.
Proof. unfold val, upd_prev. destruct (decide (a = p)) as [->|]; [rewrite lookup_alter_eq; by destruct (h !! p)|by rewrite lookup_alter_ne]. Qed.
Lemma prv_upd_next p x h a : prv (upd_next p x h) a = prv h a.
Proof. unfold prv, upd_next. destruct (decide (a = p)) as [->|]; [rewrite lookup_alter_eq; by destruct (h !! p)|by rewrite lookup_alter_ne]. Qed.
Lemma nxt_upd_prev p x h a : nxt (upd_prev p x h) a = nxt h a.
Proof. unfold nxt, upd_prev. destruct (decide (a = p)) as [->|]; [rewrite lookup_alter_eq; by destruct (h !! p)|by rewrite lookup_alter_ne]. Qed.
Lemma nxt_upd_next p x h : is_Some (val h p) → nxt (upd_next p x h) p = Some x.
Proof. unfold val, nxt, upd_next. rewrite fmap_is_Some, lookup_alter_eq. by intros [e ->]. Qed.
Lemma prv_upd_prev p x h : is_Some (val h p) → prv (upd_prev p x h) p = Some x.
Proof. unfold val, prv, upd_prev. rewrite fmap_is_Some, lookup_alter_eq. by intros [e ->]. Qed.
Lemma nxt_upd_next_ne p x h a : a ≠ p → nxt (upd_next p x h) a = nxt h a.
Proof. intros. unfold nxt, upd_next. by rewrite lookup_alter_ne. Qed.
Lemma prv_upd_prev_ne p x h a : a ≠ p → prv (upd_prev p x h) a = prv h a.
Proof. intros. unfold prv, upd_prev. by rewrite lookup_alter_ne. Qed.

Lemma load_ok h a : is_Some (val h a) → ∃ e, load (Some a) h = Ok e ∧
  nxt h a = Some (next e) ∧ prv h a = Some (prev e) ∧ val h a = Some (v e).
Proof. unfold val, nxt, prv, load. rewrite fmap_is_Some. intros [e He]. exists e. cbn. by rewrite He. Qed.

Definition link (h : heap) (a b : ptr) : Prop := nxt h a = Some (Some b) ∧ prv h b = Some (Some a).

Fixpoint chain (h : heap) (l : list ptr) : Prop :=
  match l with
  | a :: ((b :: _) as t) => link h a b ∧ chain h t
  | _ => True
  end.

Lemma chain_app h l a k : chain h (l ++ a :: k) ↔ chain h (l ++ [a]) ∧ chain h (a :: k).
Proof. induction l as [|x [|y l] IH]; cbn in *; tauto. Qed.

Lemma chain_upd_next p x h l : p ∉ removelast l → chain h l → chain (upd_next p x h) l.
Proof.
  induction l as [|a [|b l] IH]; [done|done|]. intros Hp [[H1 H2] Hc].
  change (removelast (a :: b :: l)) with (a :: removelast (b :: l)) in Hp. apply not_elem_of_cons in Hp as [Hne Hp].
  split; [|by apply IH]. split; [by rewrite nxt_upd_next_ne by done|by rewrite prv_upd_next].
Qed.
Lemma chain_upd_prev p x h l : p ∉ tail l → chain h l → chain (upd_prev p x h) l.
Proof.
  induction l as [|a [|b l] IH]; [done|done|]. cbn. intros Hp [[H1 H2] Hc].
  apply not_elem_of_cons in Hp as [Hne Hp].
  split; [|by apply IH]. split; [by rewrite nxt_upd_prev|by rewrite prv_upd_prev_ne by done].
Qed.

Lemma link_val h a b : link h a b → is_Some (val h a) ∧ is_Some (val h b).
Proof. unfold link, val, nxt, prv. intros [H1 H2]. destruct (h !! a), (h !! b); naive_solver. Qed.

(** The cells [ps] form the list of [root], front first. *)
Record dll (h : heap) (ps : list ptr) : Prop := {
  dll_nodup : NoDup (root :: ps);
  dll_chain : chain h (root :: ps ++ [root])
}.

Lemma dll_val h ps a : dll h ps → a ∈ root :: ps → is_Some (val h a).
Proof.
  intros [_ Hc] Ha. apply list_elem_of_split in Ha as (l1 & l2 & E).
  assert (∃ b k, root :: ps ++ [root] = l1 ++ a :: b :: k) as (b & k & E2).
  { rewrite app_comm_cons, E. destruct l2 as [|b l2]; rewrite <- app_assoc; cbn; eauto. }
  rewrite E2, chain_app in Hc. destruct Hc as [_ [Hl _]]. by apply link_val in Hl as [? _].
Qed.

(** Around a cell: its predecessor and successor. *)
Lemma dll_around h ps1 e ps2 : dll h (ps1 ++ e :: ps2) →
  ∃ L a b R, root :: ps1 = L ++ [a] ∧ ps2 ++ [root] = b :: R ∧
    chain h (L ++ [a]) ∧ link h a e ∧ link h e b ∧ chain h (b :: R).
Proof.
  intros [_ Hc]. destruct (exists_last (l := root :: ps1)) as (L & a & EL); [done|].
  assert (∃ b R, ps2 ++ [root] = b :: R) as (b & R & ER) by (destruct ps2; cbn; eauto).
  exists L, a, b, R. rewrite app_comm_cons in Hc.
  replace ((root :: ps1 ++ e :: ps2) ++ [root]) with (L ++ a :: e :: b :: R) in Hc.
  2:{ rewrite app_comm_cons, EL, <- ER, <- !app_assoc. done. }
  rewrite chain_app in Hc. destruct Hc as [Hc1 [Hl1 Hc2]]. cbn [tail] in Hc2. destruct Hc2 as [Hl2 Hc2].
  done.
Qed.

Lemma unlink_spec h ps1 e ps2 : dll h (ps1 ++ e :: ps2) →
  ∃ h', unlink (Some e) h = Ok h' ∧ dll h' (ps1 ++ ps2) ∧ (∀ a, val h' a = val h a).
Proof.
  intros Hd. pose proof (dll_nodup _ _ Hd) as Hnd.
  destruct (dll_around _ _ _ _ Hd) as (L & a & b & R & EL & ER & HcL & Hae & Heb & HcR).
  rewrite NoDup_cons, NoDup_app, NoDup_cons in Hnd. destruct Hnd as (Hr & Hn1 & Hdis & He2 & Hn2).
  assert (Hae' : a ∈ root :: ps1) by (rewrite EL; set_solver).
  assert (Hbe : b = root ∧ ps2 = [] ∧ R = [] ∨ b ∈ ps2).
  { destruct ps2 as [|c ps2]; cbn in ER; [left; naive_solver|right]. injection ER as <- _. set_solver. }
  assert (e ≠ a) by set_solver. assert (e ≠ b) by set_solver.
  unfold unlink.
  destruct (load_ok h e) as (x & Hx & Hn & Hp & _); [by apply link_val in Hae as [_ ?]|].
  rewrite Hx. cbn [mbind outcome_bind].
  destruct Hae as [Hae1 Hae2], Heb as [Heb1 Heb2]. assert (prev x = Some a) as -> by congruence.
  assert (next x = Some b) as -> by congruence.
  rewrite set_next_upd by (apply (dll_val _ _ a Hd); set_solver). cbn [mbind outcome_bind].
  set (h1 := upd_next a (Some b) h).
  assert (Hv1 : ∀ c, val h1 c = val h c) by (intros; apply val_upd_next).
  destruct (load_ok h1 e) as (y & Hy & Hny & Hpy & _).
  { rewrite Hv1. apply (dll_val _ _ e Hd). set_solver. }
  rewrite Hy. cbn [mbind outcome_bind].
  assert (next y = Some b) as -> by (unfold h1 in Hny; rewrite nxt_upd_next_ne in Hny by done; congruence).
  assert (prev y = Some a) as -> by (unfold h1 in Hpy; rewrite prv_upd_next in Hpy; congruence).
  rewrite set_prev_upd.
  2:{ rewrite Hv1. apply (dll_val _ _ b Hd). set_solver. }
  eexists. split; [done|]. split; [|intros; by rewrite val_upd_prev].
  split.
  - rewrite NoDup_cons, NoDup_app. set_solver.
  - rewrite <- app_assoc, ER, app_comm_cons, EL, <- app_assoc. cbn [app]. rewrite chain_app.
    split; [|split].
    + apply chain_upd_prev.
      * rewrite <- EL. cbn. destruct Hbe as [(-> & _ & _)|]; set_solver.
      * apply chain_upd_next; [|done]. rewrite removelast_last.
        assert (NoDup (L ++ [a])) as HL by (rewrite <- EL; apply NoDup_cons; set_solver).
        apply NoDup_app in HL as (_ & HL & _). set_solver.
    + split; [rewrite nxt_upd_prev; apply nxt_upd_next; apply (dll_val _ _ a Hd); set_solver|].
      apply prv_upd_prev. rewrite Hv1. apply (dll_val _ _ b Hd). set_solver.
    + cbn [tail]. apply chain_upd_prev.
      * cbn. destruct Hbe as [(_ & _ & ->)|Hb]; [set_solver|].
        destruct ps2 as [|c ps2]; [set_solver|]. injection ER as <- <-. apply NoDup_cons in Hn2 as [? ?]. set_solver.
      * apply chain_upd_next; [|done]. rewrite <- ER, removelast_last. set_solver.
Qed.

Lemma pushElem_spec h ps e : dll h ps → e ∉ root :: ps → is_Some (val h e) →
  ∃ h', pushElem (Some e) h = Ok h' ∧ dll h' (e :: ps) ∧ (∀ a, val h' a = val h a).
Proof.
  intros Hd He Hve. pose proof (dll_nodup _ _ Hd) as Hnd. pose proof (dll_chain _ _ Hd) as Hc.
  assert (Hvr : is_Some (val h root)) by (apply (dll_val _ _ root Hd); set_solver).
  assert (∃ b R, ps ++ [root] = b :: R) as (b & R & ER) by (destruct ps; cbn; eauto).
  rewrite ER in Hc. destruct Hc as [[Hrb1 Hrb2] Hc]. cbn [tail] in Hc.
  unfold pushElem. rewrite set_prev_upd by done. cbn [mbind outcome_bind].
  set (h1 := upd_prev e (Some root) h).
  destruct (load_ok h1 root) as (r & Hr & Hn & _ & _); [unfold h1; by rewrite val_upd_prev|].
  rewrite Hr. cbn [mbind outcome_bind].
  assert (next r = Some b) as -> by (unfold h1 in Hn; rewrite nxt_upd_prev in Hn; congruence).
  rewrite set_next_upd by (unfold h1; by rewrite val_upd_prev). cbn [mbind outcome_bind].
  set (h2 := upd_next e (Some b) h1).
  rewrite set_next_upd by (unfold h2, h1; by rewrite val_upd_next, val_upd_prev). cbn [mbind outcome_bind].
  set (h3 := upd_next root (Some e) h2).
  assert (Hv3 : ∀ a, val h3 a = val h a) by (intros; unfold h3, h2, h1; by rewrite !val_upd_next, val_upd_prev).
  destruct (load_ok h3 e) as (x & Hx & Hnx & _ & _); [by rewrite Hv3|].
  rewrite Hx. cbn [mbind outcome_bind].
  assert (e ≠ root) by set_solver.
  assert (next x = Some b) as ->.
  { unfold h3 in Hnx. rewrite nxt_upd_next_ne in Hnx by done. unfold h2 in Hnx.
    rewrite nxt_upd_next in Hnx by (unfold h1; by rewrite val_upd_prev). congruence. }
  assert (Hb : b ∈ root :: ps) by (destruct ps; cbn in ER; [|]; injection ER as <- _; set_solver).
  rewrite set_prev_upd by (rewrite Hv3; by apply (dll_val _ _ b Hd)).
  eexists. split; [done|]. split; [|intros; by rewrite val_upd_prev].
  assert (e ≠ b) by set_solver.
  split; [rewrite NoDup_cons in Hnd |- *; rewrite NoDup_cons; set_solver|].
  cbn [app]. rewrite ER. split; [|split].
  - split; [rewrite nxt_upd_prev; apply nxt_upd_next; unfold h2, h1; by rewrite val_upd_next, val_upd_prev|].
    rewrite prv_upd_prev_ne by done. unfold h3, h2. rewrite !prv_upd_next. by apply prv_upd_prev.
  - split.
    + rewrite nxt_upd_prev. unfold h3. rewrite nxt_upd_next_ne by done.
      apply nxt_upd_next. unfold h1. by rewrite val_upd_prev.
    + apply prv_upd_prev. rewrite Hv3. by apply (dll_val _ _ b Hd).
  - cbn [tail]. apply NoDup_cons in Hnd as [Hnr Hnd].
    assert (HR : b ∉ R).
    { destruct ps as [|c ps]; cbn in ER; injection ER as <- <-; [set_solver|]. apply NoDup_cons in Hnd as [? ?]. set_solver. }
    apply chain_upd_prev; [done|]. unfold h3, h2, h1.
    apply chain_upd_next; [rewrite <- ER, removelast_last; set_solver|].
    apply chain_upd_next; [rewrite <- ER, removelast_last; set_solver|].
    apply chain_upd_prev; [|done]. cbn. intros Hin. assert (e ∈ ps ++ [root]) by (rewrite ER; set_solver). set_solver.
Qed.

Lemma chain_ext h h' l : (∀ a, a ∈ l → nxt h' a = nxt h a ∧ prv h' a = prv h a) → chain h l → chain h' l.
Proof.
  induction l as [|a [|b l] IH]; [done|done|]. intros He [[Hl1 Hl2] Hc].
  split; [|apply IH; [intros; apply He; set_solver|done]].
  unfold link. by rewrite (proj1 (He a ltac:(set_solver))), (proj2 (He b ltac:(set_solver))).
Qed.

Lemma dll_ext h h' ps : (∀ a, a ∈ root :: ps → nxt h' a = nxt h a ∧ prv h' a = prv h a) → dll h ps → dll h' ps.
Proof. intros He [Hn Hc]. split; [done|]. eapply chain_ext; [|done]. intros a Ha. apply He. set_solver. Qed.

Lemma remove_spec h ps1 e ps2 : dll h (ps1 ++ e :: ps2) →
  ∃ h', remove (Some e) h = Ok h' ∧ dll h' (ps1 ++ ps2) ∧ (∀ a, val h' a = val h a).
Proof.
  intros Hd. destruct (unlink_spec _ _ _ _ Hd) as (h1 & E1 & Hd1 & Hv1).
  assert (Hve : is_Some (val h e)) by (apply (dll_val _ _ e Hd); set_solver).
  unfold remove. rewrite E1. cbn [mbind outcome_bind].
  rewrite set_next_upd by by rewrite Hv1. cbn [mbind outcome_bind].
  rewrite set_prev_upd by by rewrite val_upd_next, Hv1.
  eexists. split; [done|]. split; [|intros; by rewrite val_upd_prev, val_upd_next].
  eapply dll_ext; [|done]. intros a Ha.
  assert (a ≠ e).
  { pose proof (dll_nodup _ _ Hd) as Hn. rewrite NoDup_cons, NoDup_app, NoDup_cons in Hn. set_solver. }
  by rewrite nxt_upd_prev, nxt_upd_next_ne, prv_upd_prev_ne, prv_upd_next by done.
Qed.

Lemma moveToFront_spec h ps1 e ps2 : dll h (ps1 ++ e :: ps2) →
  ∃ h', moveToFront (Some e) h = Ok h' ∧ dll h' (e :: ps1 ++ ps2) ∧ (∀ a, val h' a = val h a).
Proof.
  intros Hd. destruct (unlink_spec _ _ _ _ Hd) as (h1 & E1 & Hd1 & Hv1).
  unfold moveToFront. rewrite E1. cbn [mbind outcome_bind].
  destruct (pushElem_spec h1 (ps1 ++ ps2) e Hd1) as (h2 & E2 & Hd2 & Hv2).
  - pose proof (dll_nodup _ _ Hd) as Hn. rewrite NoDup_cons, NoDup_app, NoDup_cons in Hn. set_solver.
  - rewrite Hv1. apply (dll_val _ _ e Hd). set_solver.
  - exists h2. split_and!; [done|done|]. intros. by rewrite Hv2, Hv1.
Qed.

Lemma last_spec h ps : dll h ps → last h = Ok (list.last ps).
Proof.
  intros Hd. unfold last.
  destruct (load_ok h root) as (r & Hr & _ & Hp & _); [apply (dll_val _ _ root Hd); set_solver|].
  rewrite Hr. cbn [mbind outcome_bind]. destruct Hd as [Hn Hc].
  destruct ps as [|p ps _] using rev_ind.
  - destruct Hc as [[_ Hl] _]. assert (prev r = Some root) as -> by congruence. done.
  - replace (root :: (ps ++ [p]) ++ [root]) with ((root :: ps) ++ p :: [root]) in Hc
      by (cbn; by rewrite <- app_assoc). rewrite chain_app in Hc.
    destruct Hc as [_ [[_ Hl] _]]. assert (prev r = Some p) as -> by congruence.
    rewrite last_snoc, bool_decide_eq_false_2; [done|].
    apply NoDup_cons in Hn as [Hn _]. set_solver.
Qed.

Lemma set_v_spec h p k : is_Some (val h p) → ∃ h', set_v (Some p) k h = Ok h' ∧
  (∀ a, nxt h' a = nxt h a ∧ prv h' a = prv h a) ∧ val h' p = Some k ∧ (∀ a, a ≠ p → val h' a = val h a).
Proof.
  unfold val, nxt, prv, set_v, store. rewrite fmap_is_Some. intros [e He]. cbn. rewrite He. cbn.
  eexists. split; [done|]. split_and!.
  - intros a. destruct (decide (a = p)) as [->|]; [by rewrite lookup_insert_eq, He|by rewrite lookup_insert_ne].
  - by rewrite lookup_insert_eq.
  - intros. by rewrite lookup_insert_ne.
Qed.

Lemma new_elem_spec h p h' : new_elem h = (p, h') → val h p = None ∧ is_Some (val h' p) ∧
  (∀ a, a ≠ p → nxt h' a = nxt h a ∧ prv h' a = prv h a ∧ val h' a = val h a).
Proof.
  unfold new_elem, val, nxt, prv. intros [= <- <-].
  pose proof (is_fresh (dom h)) as Hf. apply not_elem_of_dom in Hf.
  split_and!; [by rewrite Hf|rewrite lookup_insert_eq; eauto|].
  intros. by rewrite lookup_insert_ne.
Qed.

(** ** Refinement *)

Abbreviation node := (ptr * (K * V))%type.
Definition binding (n : node) : K * (ptr * V) := (n.2.1, (n.1, n.2.2)).

(** The cells of the list with the entries they hold. *)
Record refines_at (c : BasicLRU) (ns : list node) : Prop := {
  rf_dll : dll (lru_list c) ns.*1;
  rf_val : ∀ n, n ∈ ns → val (lru_list c) n.1 = Some n.2.1;
  rf_keys : NoDup ns.*2.*1;
  rf_items : items c = list_to_map (binding <$> ns);
  rf_cap : 1 ≤ cap c;
  rf_len : zlen ns ≤ cap c
}.

Definition refines (c : BasicLRU) (l : entries) : Prop := ∃ ns, refines_at c ns ∧ ns.*2 = l.

Lemma binding_keys (ns : list node) : (binding <$> ns).*1 = ns.*2.*1.
Proof. induction ns as [|n ns IH]; [done|]. rewrite !fmap_cons. by f_equal. Qed.

Lemma items_elem (ns : list node) k p x : NoDup ns.*2.*1 →
  (list_to_map (binding <$> ns) : gmap K (ptr * V)) !! k = Some (p, x) ↔ (p, (k, x)) ∈ ns.
Proof.
  intros Hn. rewrite <- elem_of_list_to_map by by rewrite binding_keys.
  rewrite list_elem_of_fmap. split.
  - intros ([p' [k' x']] & [= -> -> ->] & Hin). done.
  - intros Hin. by exists (p, (k, x)).
Qed.

Lemma items_middle (n1 : list node) (n : node) (n2 : list node) : NoDup (n1 ++ n :: n2).*2.*1 →
  (list_to_map (binding <$> n1 ++ n :: n2) : gmap K (ptr * V)) =
    <[n.2.1 := (n.1, n.2.2)]> (list_to_map (binding <$> n1 ++ n2)) ∧
  (list_to_map (binding <$> n1 ++ n2) : gmap K (ptr * V)) !! n.2.1 = None ∧ NoDup (n1 ++ n2).*2.*1.
Proof.
  intros Hn. assert (HP : n1 ++ n :: n2 ≡ₚ n :: n1 ++ n2) by (symmetry; apply Permutation_middle).
  assert (Hn' : NoDup (n :: n1 ++ n2).*2.*1) by (by rewrite <- HP).
  split_and!.
  - rewrite (list_to_map_proper (binding <$> n1 ++ n :: n2) (binding <$> n :: n1 ++ n2)); [done| |by rewrite HP].
    by rewrite binding_keys.
  - apply not_elem_of_list_to_map_1. rewrite binding_keys. cbn in Hn'. by apply NoDup_cons in Hn' as [? _].
  - cbn in Hn'. by apply NoDup_cons in Hn' as [_ ?].
Qed.

Lemma drop_key_cons k k' x (l : entries) :
  drop_key k ((k', x) :: l) = if decide (k' = k) then drop_key k l else (k', x) :: drop_key k l.
Proof.
  unfold drop_key. destruct (decide (k' = k)) as [->|].
  - by rewrite filter_cons_False by (cbn; tauto).
  - by rewrite filter_cons_True.
Qed.

Lemma drop_key_none k (l : entries) : k ∉ l.*1 → drop_key k l = l.
Proof.
  induction l as [|[k' x] l IH]; [done|]. rewrite fmap_cons, not_elem_of_cons. cbn [fst]. intros [Hne Hin].
  rewrite drop_key_cons, decide_False by congruence. by rewrite IH.
Qed.

Lemma lookup_key_middle (n1 : list node) (n : node) (n2 : list node) : NoDup (n1 ++ n :: n2).*2.*1 →
  lookup_key n.2.1 (n1 ++ n :: n2).*2 = Some n.2.2 ∧
  drop_key n.2.1 (n1 ++ n :: n2).*2 = (n1 ++ n2).*2.
Proof.
  destruct n as [p [k x]]. induction n1 as [|[q [k1 x1]] n1 IH]; rewrite ?app_nil_l, <- ?app_comm_cons, !fmap_cons;
    cbn [fst snd lookup_key]; rewrite drop_key_cons; intros [Hk Hn]%NoDup_cons.
  - rewrite !decide_True by done. split; [done|]. by apply drop_key_none.
  - destruct (IH Hn) as [IH1 IH2].
    assert (k1 ≠ k). { intros ->. apply Hk. rewrite !fmap_app. set_solver. }
    rewrite !decide_False by done. split; [done|]. f_equal. apply IH2.
Qed.

Lemma lookup_key_none k (l : entries) : k ∉ l.*1 → lookup_key k l = None.
Proof.
  induction l as [|[k' x] l IH]; [done|]. cbn. rewrite not_elem_of_cons. intros [Hne Hin].
  rewrite decide_False by congruence. by apply IH.
Qed.

(** What the map says about the list. *)
Lemma refines_lookup c ns k : refines_at c ns →
  match items c !! k with
  | Some (p, x) => ∃ n1 n2, ns = n1 ++ (p, (k, x)) :: n2 ∧ lookup_key k ns.*2 = Some x ∧
                     drop_key k ns.*2 = (n1 ++ n2).*2
  | None => (k ∉ ns.*2.*1) ∧ lookup_key k ns.*2 = None
  end.
Proof.
  intros [_ _ Hk Hi _ _]. rewrite Hi. destruct ((list_to_map _ : gmap K (ptr * V)) !! k) as [[p x]|] eqn:E.
  - apply items_elem in E; [|done]. apply list_elem_of_split in E as (n1 & n2 & ->).
    exists n1, n2. split; [done|]. by apply (lookup_key_middle n1 (p, (k, x)) n2).
  - apply not_elem_of_list_to_map_2 in E. rewrite binding_keys in E. split; [done|]. by apply lookup_key_none.
Qed.

Lemma refines_len c ns : refines_at c ns → Len c = zlen ns.
Proof.
  intros [_ _ Hk Hi _ _]. unfold Len, zlen. rewrite Hi, map_size_list_to_map by by rewrite binding_keys.
  by rewrite length_fmap.
Qed.

(** ** Each operation refines its specification *)

Lemma refines_front c n1 p k x n2 x' : refines_at c (n1 ++ (p, (k, x)) :: n2) →
  ∃ h, moveToFront (Some p) (lru_list c) = Ok h ∧
    refines_at (mkLRU h (<[k := (p, x')]> (items c)) (cap c)) ((p, (k, x')) :: n1 ++ n2).
Proof.
  intros [Hd Hv Hk Hi Hc Hl]. rewrite fmap_app, fmap_cons in Hd.
  destruct (moveToFront_spec _ _ _ _ Hd) as (h & E & Hd' & Hv'). exists h. split; [done|].
  destruct (items_middle _ _ _ Hk) as (Hm1 & Hm2 & Hm3).
  split; cbn [lru_list items cap]; [|intros n Hn| | |done|].
  - by rewrite fmap_cons, fmap_app.
  - rewrite Hv'. apply elem_of_cons in Hn as [->|Hn]; [apply (Hv (p, (k, x))); set_solver|apply Hv; set_solver].
  - rewrite !fmap_cons. apply NoDup_cons. split; [|done].
    apply not_elem_of_list_to_map_2 in Hm2. by rewrite binding_keys in Hm2.
  - rewrite Hi, Hm1, insert_insert_eq. done.
  - rewrite zlen_app, zlen_cons in Hl. rewrite zlen_cons, zlen_app. lia.
Qed.

Lemma refines_remove c n1 p k x n2 : refines_at c (n1 ++ (p, (k, x)) :: n2) →
  ∃ h, remove (Some p) (lru_list c) = Ok h ∧ val h p = Some k ∧ (p ∉ root :: (n1 ++ n2).*1) ∧
    refines_at (mkLRU h (delete k (items c)) (cap c)) (n1 ++ n2).
Proof.
  intros [Hd Hv Hk Hi Hc Hl]. rewrite fmap_app, fmap_cons in Hd.
  destruct (remove_spec _ _ _ _ Hd) as (h & E & Hd' & Hv'). exists h.
  destruct (items_middle _ _ _ Hk) as (Hm1 & Hm2 & Hm3). split_and!; [done| | |].
  - rewrite Hv'. apply (Hv (p, (k, x))). set_solver.
  - pose proof (dll_nodup _ _ Hd) as Hn. rewrite NoDup_cons, NoDup_app, NoDup_cons in Hn. rewrite fmap_app. set_solver.
  - split; cbn [lru_list items cap]; [|intros n Hn|done| |done|].
    + by rewrite fmap_app.
    + rewrite Hv'. apply Hv. set_solver.
    + rewrite Hi, Hm1. by apply delete_insert_id.
    + rewrite zlen_app, zlen_cons in Hl. rewrite zlen_app. lia.
Qed.

(** Push an unused cell holding a new key. *)
Lemma refines_push c ns p k x : refines_at c ns → zlen ns < cap c → k ∉ ns.*2.*1 →
  p ∉ root :: ns.*1 → is_Some (val (lru_list c) p) →
  ∃ h h', set_v (Some p) k (lru_list c) = Ok h ∧ pushElem (Some p) h = Ok h' ∧
    refines_at (mkLRU h' (<[k := (p, x)]> (items c)) (cap c)) ((p, (k, x)) :: ns).
Proof.
  intros [Hd Hv Hk Hi Hc Hl] Hlt Hnk Hnp Hp.
  destruct (set_v_spec _ _ k Hp) as (h & E & Hs & Hvp & Hvo).
  assert (Hd1 : dll h ns.*1) by (eapply dll_ext; [|done]; auto).
  destruct (pushElem_spec h ns.*1 p Hd1 Hnp) as (h' & E' & Hd' & Hv'); [rewrite Hvp; eauto|].
  exists h, h'. split_and!; [done|done|].
  split; cbn [lru_list items cap]; [done|intros n Hn| | |done|].
  - rewrite Hv'. apply elem_of_cons in Hn as [->|Hn]; [done|]. rewrite Hvo; [by apply Hv|].
    intros Heq. apply Hnp. rewrite <- Heq. right. apply list_elem_of_fmap. by exists n.
  - rewrite !fmap_cons. by apply NoDup_cons.
  - by rewrite Hi.
  - rewrite zlen_cons. lia.
Qed.

Lemma refines_last c ns : refines_at c ns → last (lru_list c) = Ok (fst <$> list.last ns).
Proof. intros [Hd _ _ _ _ _]. by rewrite (last_spec _ _ Hd), fmap_last. Qed.

Lemma load_node c ns n : refines_at c ns → n ∈ ns → ∃ e, load (Some n.1) (lru_list c) = Ok e ∧ v e = n.2.1.
Proof.
  intros Hr Hn. pose proof (rf_val _ _ Hr n Hn) as Hv.
  destruct (load_ok (lru_list c) n.1) as (e & E & _ & _ & Hve); [by rewrite Hv|]. exists e. split; [done|congruence].
Qed.

Lemma removelast_entries (ns : list node) n : removelast (ns ++ [n]).*2 = ns.*2.
Proof. rewrite fmap_app. apply removelast_last. Qed.

Lemma Add_refines c l k x : refines c l →
  ∃ c', Add k x c = Ok ((match (spec (cap c) (OAdd k x) l).1 with RBool b => b | _ => false end), c') ∧
    refines c' (spec (cap c) (OAdd k x) l).2 ∧ cap c' = cap c.
Proof.
  intros (ns & Hr & <-). unfold Add, spec. pose proof (refines_lookup _ _ k Hr) as Hk.
  destruct (items c !! k) as [[p y]|] eqn:Ek.
  - destruct Hk as (n1 & n2 & -> & -> & ->).
    destruct (refines_front _ _ _ _ _ _ x Hr) as (h & E & Hr'). rewrite E. cbn [mbind outcome_bind].
    eexists. split_and!; [done| |done]. by exists ((p, (k, x)) :: n1 ++ n2).
  - destruct Hk as [Hk ->]. rewrite (refines_len _ _ Hr). replace (zlen ns.*2) with (zlen ns) by (unfold zlen; by rewrite length_fmap).
    destruct (cap c <=? zlen ns) eqn:Ec; zbool.
    + destruct ns as [|[q [k' y]] ns _] using rev_ind.
      { pose proof (rf_cap _ _ Hr). rewrite zlen_nil in Ec. lia. }
      unfold removeLast. rewrite (refines_last _ _ Hr), last_snoc. cbn [mbind outcome_bind fmap option_fmap option_map fst].
      destruct (refines_remove c ns q k' y [] Hr) as (h & E & Hvq & Hq & Hr'). rewrite E. cbn [mbind outcome_bind].
      destruct (load_ok h q) as (e & He & _ & _ & Hve); [by rewrite Hvq|]. rewrite He. cbn [mbind outcome_bind].
      assert (v e = k') as -> by congruence. rewrite app_nil_r in *.
      rewrite !fmap_app in Hk. rewrite zlen_app in Ec. change (zlen [(q, (k', y))]) with 1 in Ec.
      destruct (refines_push (mkLRU h (delete k' (items c)) (cap c)) ns q k x Hr')
        as (h1 & h2 & E1 & E2 & Hr2); cbn [lru_list items cap] in *.
      * pose proof (rf_len _ _ Hr) as Hl. rewrite zlen_app in Hl. change (zlen [(q, (k', y))]) with 1 in Hl. lia.
      * set_solver.
      * done.
      * rewrite Hvq. eauto.
      * rewrite E1. cbn [mbind outcome_bind deref]. rewrite E2. cbn [mbind outcome_bind].
        eexists. split_and!; [done| |done]. exists ((q, (k, x)) :: ns). split; [done|].
        cbn [snd]. by rewrite removelast_entries.
    + destruct (new_elem (lru_list c)) as [p h] eqn:En. destruct (new_elem_spec _ _ _ En) as (Hp0 & Hp & Ho).
      assert (Hne : ∀ a, a ∈ root :: ns.*1 → a ≠ p).
      { intros a Ha ->. pose proof (dll_val _ _ p (rf_dll _ _ Hr) Ha) as [? ?]. congruence. }
      assert (Hr' : refines_at (mkLRU h (items c) (cap c)) ns).
      { destruct Hr as [Hd Hv Hkk Hi Hc Hl]. split; cbn [lru_list items cap]; try done.
        - eapply dll_ext; [|done]. intros a Ha. destruct (Ho a (Hne a Ha)) as (? & ? & _). done.
        - intros n Hn. destruct (Ho n.1) as (_ & _ & ->); [|by apply Hv].
          apply Hne. right. apply list_elem_of_fmap. by exists n. }
      destruct (refines_push _ ns p k x Hr') as (h1 & h2 & E1 & E2 & Hr2); cbn [lru_list items cap] in *;
        [lia|done|by intros Ha; apply (Hne p Ha)|done|].
      cbn [mbind outcome_bind]. rewrite E1. cbn [mbind outcome_bind deref]. rewrite E2. cbn [mbind outcome_bind].
      eexists. split_and!; [done| |done]. by exists ((p, (k, x)) :: ns).
Qed.

Lemma Get_refines c l k : refines c l →
  ∃ c', Get k c = Ok (lookup_key k l, c') ∧ refines c' (spec (cap c) (OGet k) l).2 ∧ cap c' = cap c.
Proof.
  intros (ns & Hr & <-). unfold Get, spec. pose proof (refines_lookup _ _ k Hr) as Hk.
  destruct (items c !! k) as [[p y]|] eqn:Ek.
  - destruct Hk as (n1 & n2 & -> & -> & ->).
    destruct (refines_front _ _ _ _ _ _ y Hr) as (h & E & Hr'). rewrite E. cbn [mbind outcome_bind].
    rewrite insert_id in Hr' by done. eexists. split_and!; [done| |done]. by exists ((p, (k, y)) :: n1 ++ n2).
  - destruct Hk as [_ ->]. exists c. split_and!; [done| |done]. by exists ns.
Qed.

Lemma Remove_refines c l k : refines c l →
  ∃ c', Remove k c = Ok (bool_decide (is_Some (lookup_key k l)), c') ∧ refines c' (drop_key k l) ∧ cap c' = cap c.
Proof.
  intros (ns & Hr & <-). unfold Remove. pose proof (refines_lookup _ _ k Hr) as Hk.
  destruct (items c !! k) as [[p y]|] eqn:Ek.
  - destruct Hk as (n1 & n2 & -> & -> & ->).
    destruct (refines_remove _ _ _ _ _ _ Hr) as (h & E & _ & _ & Hr'). rewrite E. cbn [mbind outcome_bind].
    rewrite bool_decide_eq_true_2 by eauto. eexists. split_and!; [done| |done]. by exists (n1 ++ n2).
  - destruct Hk as [Hk ->]. exists c. rewrite drop_key_none by done. split_and!; [done|by exists ns|done].
Qed.

Lemma item_value_node c ns n : refines_at c ns → n ∈ ns → item_value (items c) n.2.1 = n.2.2.
Proof.
  intros [_ _ Hk Hi _ _] Hn. destruct n as [p [k x]]. unfold item_value. cbn [fst snd].
  rewrite Hi, (proj2 (items_elem ns k p x Hk)) by done. done.
Qed.

Lemma GetOldest_refines c l : refines c l → GetOldest c = Ok (list.last l).
Proof.
  intros (ns & Hr & <-). unfold GetOldest. rewrite (refines_last _ _ Hr), fmap_last. cbn [mbind outcome_bind].
  destruct (list.last ns) as [n|] eqn:E; [|done]. cbn [fmap option_fmap option_map].
  assert (Hn : n ∈ ns) by by apply last_Some_elem_of.
  destruct (load_node _ _ _ Hr Hn) as (e & -> & He). cbn [mbind outcome_bind].
  rewrite He, (item_value_node _ _ _ Hr Hn). by destruct n as [p [k x]].
Qed.

Lemma RemoveOldest_refines c l : refines c l →
  ∃ c', RemoveOldest c = Ok (list.last l, c') ∧ refines c' (removelast l) ∧ cap c' = cap c.
Proof.
  intros (ns & Hr & <-). unfold RemoveOldest. rewrite (refines_last _ _ Hr), fmap_last. cbn [mbind outcome_bind].
  destruct ns as [|[p [k x]] ns _] using rev_ind; [exists c; split_and!; [done|by exists []|done]|].
  rewrite last_snoc. cbn [fmap option_fmap option_map fst snd].
  destruct (load_node _ _ (p, (k, x)) Hr) as (e & He & Hv); [set_solver|]. cbn [fst snd] in *.
  rewrite He. cbn [mbind outcome_bind]. rewrite Hv.
  assert (item_value (items c) k = x) as -> by (apply (item_value_node _ _ (p, (k, x)) Hr); set_solver).
  destruct (refines_remove c ns p k x [] Hr) as (h & E & _ & _ & Hr'). rewrite E. cbn [mbind outcome_bind].
  rewrite app_nil_r in Hr'. eexists. split_and!; [done| |done]. exists ns. split; [done|].
  by rewrite removelast_entries.
Qed.

Lemma Purge_refines c l : refines c l → ∃ c', Purge c = Ok c' ∧ refines c' [] ∧ cap c' = cap c.
Proof.
  intros (ns & Hr & <-). unfold Purge, init.
  assert (Hv : is_Some (val (lru_list c) root)) by (apply (dll_val _ _ root (rf_dll _ _ Hr)); set_solver).
  rewrite set_next_upd by done. cbn [mbind outcome_bind].
  rewrite set_prev_upd by by rewrite val_upd_next. cbn [mbind outcome_bind].
  eexists. split_and!; [done| |done]. exists []. split; [|done].
  split; cbn [lru_list items cap]; [|set_solver|constructor|done|apply (rf_cap _ _ Hr)|].
  - split; [apply NoDup_singleton|]. split; [|done].
    split; [rewrite nxt_upd_prev; by apply nxt_upd_next|apply prv_upd_prev; by rewrite val_upd_next].
  - pose proof (rf_cap _ _ Hr). rewrite zlen_nil. lia.
Qed.

Lemma NewBasicLRU_refines capacity : ∃ c, NewBasicLRU capacity = Ok c ∧ refines c [] ∧ cap c = Z.max 1 capacity.
Proof.
  unfold NewBasicLRU, newList, init.
  assert (Hv : is_Some (val {[root := mkElem None None inhabitant]} root)) by (unfold val; rewrite lookup_singleton_eq; eauto).
  rewrite set_next_upd by done. cbn [mbind outcome_bind].
  rewrite set_prev_upd by by rewrite val_upd_next. cbn [mbind outcome_bind].
  eexists. split_and!; [done| |cbn; case_if; lia]. exists []. split; [|done].
  split; cbn [lru_list items cap]; [|set_solver|constructor|done|case_if; lia|].
  - split; [apply NoDup_singleton|]. split; [|done].
    split; [rewrite nxt_upd_prev; by apply nxt_upd_next|apply prv_upd_prev; by rewrite val_upd_next].
  - rewrite zlen_nil. case_if; lia.
Qed.

Lemma appendTo_loop_spec h (ns : list node) : ∀ fuel slice, (length ns ≤ fuel)%nat → NoDup (root :: ns.*1) →
  chain h (root :: ns.*1) → (∀ n, n ∈ ns → val h n.1 = Some n.2.1) →
  appendTo_loop fuel (list.last (root :: ns.*1)) h slice = Ok (slice ++ reverse ns.*2.*1).
Proof.
  induction ns as [|[p [k x]] ns IH] using rev_ind; intros fuel slice Hf Hn Hc Hv.
  - cbn. rewrite app_nil_r. by destruct fuel.
  - rewrite length_app in Hf. cbn in Hf. destruct fuel as [|fuel]; [lia|].
    rewrite fmap_app, app_comm_cons in *. cbn [fmap list_fmap fst] in *. rewrite last_snoc. cbn [appendTo_loop].
    apply NoDup_app in Hn as (Hn & Hd & _).
    rewrite bool_decide_eq_false_2 by set_solver.
    assert (Hvp : val h p = Some k) by (apply (Hv (p, (k, x))); set_solver).
    destruct (load_ok h p) as (e & -> & _ & Hp & Hve); [by rewrite Hvp|].
    cbn [mbind outcome_bind]. rewrite Hvp in Hve. injection Hve as <-.
    destruct (exists_last (l := root :: ns.*1)) as (L & a & EL); [done|].
    assert (prev e = Some a) as ->.
    { rewrite EL, <- app_assoc in Hc. cbn in Hc. rewrite chain_app in Hc. destruct Hc as [_ [[_ Hl] _]]. congruence. }
    assert (Some a = list.last (root :: ns.*1)) as -> by by rewrite EL, last_snoc.
    rewrite (IH fuel (slice ++ [k])); [|lia|done| |intros; apply Hv; set_solver].
    + rewrite !fmap_app, reverse_app, <- app_assoc. done.
    + rewrite EL in Hc |- *. rewrite <- app_assoc in Hc. cbn in Hc. by rewrite chain_app in Hc; destruct Hc.
Qed.

Lemma cells_le h ps : dll h ps → (length ps ≤ size h)%nat.
Proof.
  intros Hd. assert (Hs : list_to_set ps ⊆ (dom h : gset ptr)).
  { intros a Ha. apply elem_of_list_to_set in Ha. destruct (dll_val _ _ a Hd) as [k Hk]; [set_solver|].
    apply elem_of_dom. unfold val in Hk. destruct (h !! a); [eauto|done]. }
  apply subseteq_size in Hs. rewrite size_list_to_set, size_dom in Hs; [done|].
  pose proof (dll_nodup _ _ Hd) as Hn. by apply NoDup_cons in Hn as [_ Hn].
Qed.

Lemma Keys_refines c l : refines c l → Keys c = Ok (reverse l.*1).
Proof.
  intros (ns & Hr & <-). destruct Hr as [Hd Hv Hk Hi Hc Hl]. unfold Keys, appendTo.
  destruct (load_ok (lru_list c) root) as (r & -> & _ & Hp & _); [apply (dll_val _ _ root Hd); set_solver|].
  cbn [mbind outcome_bind]. destruct (exists_last (l := root :: ns.*1)) as (L & a & EL); [done|].
  pose proof (dll_chain _ _ Hd) as Hch. rewrite app_comm_cons, EL, <- app_assoc in Hch. cbn in Hch.
  rewrite chain_app in Hch. destruct Hch as [Hc1 [[_ Hl1] _]].
  assert (prev r = list.last (root :: ns.*1)) as -> by (rewrite EL, last_snoc; congruence).
  rewrite appendTo_loop_spec; [done| |apply (dll_nodup _ _ Hd)|by rewrite EL|done].
  pose proof (cells_le _ _ Hd). by rewrite length_fmap in *.
Qed.

Lemma Peek_refines c l k : refines c l → Peek k c = lookup_key k l.
Proof.
  intros (ns & Hr & <-). unfold Peek. pose proof (refines_lookup _ _ k Hr) as Hk.
  destruct (items c !! k) as [[p x]|]; [by destruct Hk as (? & ? & _ & -> & _)|by destruct Hk as [_ ->]].
Qed.

Lemma exec_refines o c l : refines c l →
  ∃ c', exec o c = Ok ((spec (cap c) o l).1, c') ∧ refines c' (spec (cap c) o l).2 ∧ cap c' = cap c.
Proof.
  intros Hr. destruct o as [k x|k|k| | |k| |k| |]; cbn [exec].
  - destruct (Add_refines _ _ k x Hr) as (c' & -> & Hr' & Hc). exists c'. split_and!; [|done|done].
    cbn. repeat case_match; done.
  - exists c. split_and!; [|done|done]. cbn. do 3 f_equal. destruct Hr as (ns & Hr & <-). unfold Contains.
    pose proof (refines_lookup _ _ k Hr) as Hk. apply bool_decide_ext.
    destruct (items c !! k) as [[p x]|]; [destruct Hk as (? & ? & _ & -> & _)|destruct Hk as [_ ->]]; split; (done || eauto || by intros [? [=]]).
  - destruct (Get_refines _ _ k Hr) as (c' & -> & Hr' & Hc). exists c'. split_and!; [|done|done].
    cbn. by destruct (lookup_key k l).
  - exists c. rewrite (GetOldest_refines _ _ Hr). done.
  - exists c. split_and!; [|done|done]. cbn. destruct Hr as (ns & Hr & <-). rewrite (refines_len _ _ Hr).
    unfold zlen. by rewrite length_fmap.
  - exists c. by rewrite (Peek_refines _ _ k Hr).
  - destruct (Purge_refines _ _ Hr) as (c' & -> & Hr' & Hc). by exists c'.
  - destruct (Remove_refines _ _ k Hr) as (c' & -> & Hr' & Hc). by exists c'.
  - destruct (RemoveOldest_refines _ _ Hr) as (c' & -> & Hr' & Hc). by exists c'.
  - exists c. rewrite (Keys_refines _ _ Hr). done.
Qed.

Lemma run_refines os : ∀ c l, refines c l →
  ∃ c', run os c = Ok ((spec_run (cap c) os l).1, c') ∧ refines c' (spec_run (cap c) os l).2 ∧ cap c' = cap c.
Proof.
  induction os as [|o os IH]; intros c l Hr; [by exists c|]. cbn [run spec_run].
  destruct (exec_refines o c l Hr) as (c1 & -> & Hr1 & Hc1). cbn [mbind outcome_bind].
  destruct (spec (cap c) o l) as [r l1]. cbn [fst snd] in *.
  destruct (IH c1 l1 Hr1) as (c2 & -> & Hr2 & Hc2). cbn [mbind outcome_bind]. rewrite Hc1 in *.
  destruct (spec_run (cap c) os l1) as [rs l2]. exists c2. done.
Qed.

Lemma refines_bound c l : refines c l → NoDup l.*1 ∧ zlen l ≤ cap c.
Proof.
  intros (ns & Hr & <-). split; [apply (rf_keys _ _ Hr)|]. pose proof (rf_len _ _ Hr).
  unfold zlen in *. by rewrite length_fmap.
Qed.

(** C21. Every sequence of calls on a new LRU cache runs without a nil
    dereference and returns what the abstract cache returns, a list of entries
    kept most recently used first: [Add] and [Get] move a key to the front,
    adding to a full cache drops the entry at the back, and [Keys] lists from
    the oldest.  The cache never holds more entries than its capacity, nor a
    key twice. *)
Theorem BasicLRU_refines capacity os :
  ∃ c0 c, NewBasicLRU capacity = Ok c0 ∧
    run os c0 = Ok ((spec_run (Z.max 1 capacity) os []).1, c) ∧
    refines c (spec_run (Z.max 1 capacity) os []).2 ∧
    zlen (spec_run (Z.max 1 capacity) os []).2 ≤ Z.max 1 capacity ∧
    NoDup (spec_run (Z.max 1 capacity) os []).2.*1.
Proof.
  destruct (NewBasicLRU_refines capacity) as (c0 & E0 & Hr0 & Hc0).
  destruct (run_refines os c0 [] Hr0) as (c & E & Hr & Hc). rewrite Hc0 in *.
  destruct (refines_bound c _ Hr) as [Hn Hl]. rewrite Hc in Hl. by exists c0, c.
Qed.

(** ** What clients rely on *)

(** The entries a cache holds. *)
Definition cached (c : BasicLRU) (k : K) (x : V) : Prop := Peek k c = Some x.
Definition valid (c : BasicLRU) : Prop := ∃ l, refines c l.

End Lru.

Arguments BasicLRU K V {_ _}.

(** A cache never invents entries: what [get] returns was there, and after a
    call it holds only what it held, or what was added.  [E] is the client's
    error type, which the cache never uses. *)
Class CacheLaws (C K V : Type) := {
  cache_valid : C → Prop;
  cache_holds : C → K → V → Prop;
  cache_get : ∀ {E}, K → C → outcome E (option V * C);
  cache_add : ∀ {E}, K → V → C → outcome E C;
  cache_get_ok E k c : cache_valid c → ∃ o c', @cache_get E k c = Ok (o, c') ∧ cache_valid c' ∧
    (∀ x, o = Some x → cache_holds c k x) ∧ (∀ k' x, cache_holds c' k' x → cache_holds c k' x);
  cache_add_ok E k x c : cache_valid c → ∃ c', @cache_add E k x c = Ok c' ∧ cache_valid c' ∧
    (∀ k' x', cache_holds c' k' x' → k' = k ∧ x' = x ∨ cache_holds c k' x')
}.

(** Calls into the cache from code with errors of its own. *)
Definition lift_outcome {E A} (m : outcome Empty_set A) : outcome E A :=
  match m with Ok a => Ok a | Err e => match e with end | Panic => Panic end.

Section LruLaws.
Context {K V : Type} {EK : EqDecision K} {CK : Countable K} {IK : Inhabited K} {IV : Inhabited V}.

Lemma lookup_key_elem k (l : list (K * V)) x : NoDup l.*1 → lookup_key k l = Some x ↔ (k, x) ∈ l.
Proof.
  induction l as [|[k' y] l IH]; [set_solver|]. rewrite fmap_cons, NoDup_cons. cbn. intros [Hk Hn].
  case_decide as E.
  - subst k'. split; [intros [= ->]; set_solver|]. intros [[= ->]|Hin]%elem_of_cons; [done|].
    destruct Hk. apply list_elem_of_fmap. by exists (k, x).
  - rewrite IH by done. split; [set_solver|]. intros [[= -> ->]|Hin]%elem_of_cons; done.
Qed.

Lemma removelast_sub {A} (l : list A) a : a ∈ removelast l → a ∈ l.
Proof. destruct l as [|b l _] using rev_ind; [done|]. rewrite removelast_last. set_solver. Qed.

Lemma drop_key_sub k (l : list (K * V)) kv : kv ∈ drop_key k l → kv ∈ l.
Proof. unfold drop_key. rewrite list_elem_of_filter. tauto. Qed.

Lemma cached_elem (c : BasicLRU K V) l k x : refines c l → cached c k x ↔ (k, x) ∈ l.
Proof.
  intros Hr. unfold cached. rewrite (Peek_refines _ _ k Hr). apply lookup_key_elem. by apply (refines_bound c).
Qed.

Lemma Lru_get_ok E k (c : BasicLRU K V) : valid c →
  ∃ o c', lift_outcome (E:=E) (Get k c) = Ok (o, c') ∧ valid c' ∧
    (∀ x, o = Some x → cached c k x) ∧ (∀ k' x, cached c' k' x → cached c k' x).
Proof.
  intros [l Hr]. destruct (Get_refines _ _ k Hr) as (c' & -> & Hr' & _).
  exists (lookup_key k l), c'. split_and!; [done|by eexists| |].
  - intros x Hx. unfold cached. by rewrite (Peek_refines _ _ k Hr).
  - intros k' x. rewrite (cached_elem _ _ _ _ Hr'), (cached_elem _ _ _ _ Hr). cbn.
    destruct (lookup_key k l) as [y|] eqn:E1; [|done]. cbn.
    apply lookup_key_elem in E1; [|by apply (refines_bound c)].
    intros [[= -> ->]|Hin]%elem_of_cons; [done|by apply drop_key_sub in Hin].
Qed.

Lemma Lru_add_ok E k x (c : BasicLRU K V) : valid c →
  ∃ c', snd <$> lift_outcome (E:=E) (Add k x c) = Ok c' ∧ valid c' ∧
    (∀ k' x', cached c' k' x' → k' = k ∧ x' = x ∨ cached c k' x').
Proof.
  intros [l Hr]. destruct (Add_refines _ _ k x Hr) as (c' & -> & Hr' & _).
  exists c'. split_and!; [done|by eexists|].
  intros k' x'. rewrite (cached_elem _ _ _ _ Hr'), (cached_elem _ _ _ _ Hr). cbn.
  destruct (lookup_key k l) as [y|]; cbn.
  - intros [[= -> ->]|Hin%drop_key_sub]%elem_of_cons; auto.
  - case_if; cbn; intros [[= -> ->]|Hin]%elem_of_cons; auto. right. by apply removelast_sub.
Qed.

#[global] Instance BasicLRU_laws : CacheLaws (BasicLRU K V) K V := {
  cache_valid := valid;
  cache_holds := cached;
  cache_get E k c := lift_outcome (Get k c);
  cache_add E k x c := snd <$> lift_outcome (Add k x c);
  cache_get_ok := Lru_get_ok;
  cache_add_ok := Lru_add_ok
}.

Lemma NewCache_empty capacity : ∃ c : BasicLRU K V, NewBasicLRU capacity = Ok c ∧
  cache_valid c ∧ ∀ k x, ¬ cache_holds c k x.
Proof.
  destruct (NewBasicLRU_refines (K:=K) (V:=V) capacity) as (c & E & Hr & _). exists c.
  split_and!; [done|by exists []|]. intros k x. cbn. rewrite (cached_elem _ _ _ _ Hr). set_solver.
Qed.
End LruLaws.
