(* ===== verification/RLP.v ===== *)
(** RLP serialisation: the encoder of [src/go-ethereum/rlp] (encode.go,
    encbuffer.go) and the slice-level decoder of raw.go.

    The encoder keeps string data and list headers apart ([encBuffer]) and
    merges them only when the output is produced.  [emits] is the interface
    every writer is proved against: it appends string data and headers whose
    merge is a known byte string.  The reference encoding ([rlp_str],
    [rlp_list], [ref_value]) is the recursive definition of the RLP format;
    the theorems show that the buffer produces it, and that [Split],
    [SplitUint64] and [CountValues] invert it and accept nothing else. *)

From S2P Require Import Prelude.

(** ** Errors and kinds *)

Inductive rlpError :=
| ErrNegativeBigInt
| ErrUnexpectedEOF
| ErrCanonSize
| ErrCanonInt
| ErrValueTooLarge
| ErrExpectedString
| ErrExpectedList
| errUintOverflow.

Inductive Kind := KByte | KString | KList.

#[global] Instance Kind_eq_dec : EqDecision Kind.
Proof. solve_decision. Defined.

(** ** Integer helpers of encode.go *)

(** [putint]: the bytes it stores at the start of its buffer. *)
Definition putint (i : Z) : bytes :=
  let sh n := z2b (Z.shiftr i n) in
  if i <? 2 ^ 8 then [z2b i]
  else if i <? 2 ^ 16 then [sh 8; z2b i]
  else if i <? 2 ^ 24 then [sh 16; sh 8; z2b i]
  else if i <? 2 ^ 32 then [sh 24; sh 16; sh 8; z2b i]
  else if i <? 2 ^ 40 then [sh 32; sh 24; sh 16; sh 8; z2b i]
  else if i <? 2 ^ 48 then [sh 40; sh 32; sh 24; sh 16; sh 8; z2b i]
  else if i <? 2 ^ 56 then [sh 48; sh 40; sh 32; sh 24; sh 16; sh 8; z2b i]
  else [sh 56; sh 48; sh 40; sh 32; sh 24; sh 16; sh 8; z2b i].

(** [intsize]: a 64-bit value is zero after eight shifts, so eight rounds of
    the loop are enough ([intsize_putint]). *)
Fixpoint intsize_loop (fuel : nat) (i size : Z) : Z :=
  match fuel with
  | O => size
  | S f => let i := Z.shiftr i 8 in
           if i =? 0 then size else intsize_loop f i (size + 1)
  end.
Definition intsize (i : Z) : Z := intsize_loop 8 i 1.

Definition headsize (size : Z) : Z :=
  if size <? 56 then 1 else 1 + intsize size.

Definition puthead (smalltag largetag size : Z) : bytes :=
  if size <? 56 then [z2b (smalltag + size)]
  else let p := putint size in z2b (largetag + zlen p) :: p.

(** ** The encoder buffer *)

Record listhead := Listhead { offset : Z; lsize : Z }.

Definition encode_head (h : listhead) : bytes := puthead 0xC0 0xF7 (u64 (lsize h)).

Record encBuffer := EncBuffer { str : bytes; lheads : list listhead; lhsize : Z }.

Definition getEncBuffer : encBuffer := EncBuffer [] [] 0.

Definition size (w : encBuffer) : Z := zlen (str w) + lhsize w.

(** [copy(dst[pos:], src)] and the number of bytes copied. *)
Definition copy_at {A} (dst : list A) (pos : Z) (src : list A) : list A * Z :=
  let n := Z.min (zlen dst - pos) (zlen src) in
  (take (Z.to_nat pos) dst ++ take (Z.to_nat n) src ++ drop (Z.to_nat (pos + n)) dst, n).

(** Writing a header into [dst[pos:]] indexes it byte by byte, so it panics
    when the header does not fit. *)
Definition put_at {E} (dst : bytes) (pos : Z) (src : bytes) : outcome E bytes :=
  if pos + zlen src <=? zlen dst then Ok (copy_at dst pos src).1 else Panic.

Fixpoint copyTo_loop {E} (s : bytes) (heads : list listhead)
    (dst : bytes) (strpos pos : Z) : outcome E bytes :=
  match heads with
  | [] => tl ← slice s strpos (zlen s); Ok (copy_at dst pos tl).1
  | head :: heads' =>
      before ← slice s strpos (offset head);
      let '(dst, n) := copy_at dst pos before in
      let pos := pos + n in
      let strpos := strpos + n in
      let enc := encode_head head in
      dst ← put_at dst pos enc;
      copyTo_loop s heads' dst strpos (pos + zlen enc)
  end.

Definition copyTo {E} (w : encBuffer) (dst : bytes) : outcome E bytes :=
  copyTo_loop (str w) (lheads w) dst 0 0.

Definition makeBytes {E} (w : encBuffer) : outcome E bytes :=
  copyTo w (replicate (Z.to_nat (size w)) Byte.x00).

Definition append_str (w : encBuffer) (b : bytes) : encBuffer :=
  EncBuffer (str w ++ b) (lheads w) (lhsize w).

Definition Write (w : encBuffer) (b : bytes) : encBuffer := append_str w b.

Definition writeBool (w : encBuffer) (b : bool) : encBuffer :=
  append_str w (if b then [z2b 0x01] else [z2b 0x80]).

Definition writeUint64 (w : encBuffer) (i : Z) : encBuffer :=
  if i =? 0 then append_str w [z2b 0x80]
  else if i <? 128 then append_str w [z2b i]
  else let p := putint i in append_str w (z2b (0x80 + zlen p) :: p).

Definition encodeStringHeader (w : encBuffer) (sz : Z) : encBuffer :=
  if sz <? 56 then append_str w [z2b (0x80 + sz)]
  else let p := putint (u64 sz) in append_str w (z2b (0xB7 + zlen p) :: p).

Definition writeBytes (w : encBuffer) (b : bytes) : encBuffer :=
  match b with
  | [c] => if b2z c <=? 0x7F then append_str w [c]
           else append_str (encodeStringHeader w (zlen b)) b
  | _ => append_str (encodeStringHeader w (zlen b)) b
  end.

(** [big.Int.Bits()]: the absolute value as little-endian 64-bit words. *)
Fixpoint big_words (fuel : nat) (z : Z) : list Z :=
  match fuel with
  | O => []
  | S f => if z =? 0 then [] else z mod 2 ^ 64 :: big_words f (z / 2 ^ 64)
  end.
Definition big_Bits (z : Z) : list Z :=
  big_words (Z.to_nat (big_BitLen z / 64 + 1)) (Z.abs z).

(** The double loop of [writeBigInt]: fills [buf] from its end with the bytes
    of the words, stopping at index 0. *)
Fixpoint fill_word (j : nat) (d : Z) (buf : bytes) (index : nat) : bytes * nat :=
  match j, index with
  | S j', S index' => fill_word j' (Z.shiftr d 8) (<[index' := z2b d]> buf) index'
  | _, _ => (buf, index)
  end.
Fixpoint fill_words (ws : list Z) (buf : bytes) (index : nat) : bytes :=
  match ws with
  | [] => buf
  | d :: ws' => let '(buf, index) := fill_word 8 d buf index in fill_words ws' buf index
  end.

Definition writeBigInt (w : encBuffer) (i : Z) : encBuffer :=
  let bitlen := big_BitLen i in
  if bitlen <=? 64 then writeUint64 w (big_Uint64 i)
  else
    let length := Z.shiftr (Z.land (bitlen + 7) (-8)) 3 in
    let w := encodeStringHeader w length in
    append_str w (fill_words (big_Bits i) (replicate (Z.to_nat length) Byte.x00) (Z.to_nat length)).

(** [writeUint256]: the four words of the number are put behind a free byte;
    the header goes in front of the first byte that counts. *)
Definition writeUint256 (w : encBuffer) (z : Z) : encBuffer :=
  let word i := u64 (Z.shiftr z (64 * i)) in
  let bitlen := big_BitLen z in
  if bitlen <=? 64 then writeUint64 w (word 0)
  else
    let nBytes := ((bitlen + 7) / 8) mod 2 ^ 8 in
    let b := Byte.x00 :: be_bytes 8 (word 3) ++ be_bytes 8 (word 2) ++ be_bytes 8 (word 1) ++ be_bytes 8 (word 0) in
    let start := Z.to_nat (32 - nBytes) in
    append_str w (drop start (<[start := z2b (0x80 + nBytes)]> b)).

(** [list] pushes a header and returns its index. *)
Definition list_ (w : encBuffer) : encBuffer * nat :=
  (EncBuffer (str w) (lheads w ++ [Listhead (zlen (str w)) (lhsize w)]) (lhsize w),
   length (lheads w)).

(** [listEnd] panics on an index that is out of range. *)
Definition listEnd {E} (w : encBuffer) (index : nat) : outcome E encBuffer :=
  lh ← deref (lheads w !! index);
  let sz := size w - offset lh - lsize lh in
  Ok (EncBuffer (str w) (<[index := Listhead (offset lh) sz]> (lheads w))
        (if sz <? 56 then lhsize w + 1 else lhsize w + (1 + intsize (u64 sz)))).

(** [writeTo] hands the pieces to an [io.Writer]; a writer is a state with a
    [Write] that reports how many bytes it took and whether it failed. *)
Section WriteTo.
Context {W E : Type} (wr : W → bytes → W * Z * option E).

Fixpoint writeTo_loop (s : bytes) (heads : list listhead) (strpos : Z) (w : W)
    : W * outcome E Z :=
  match heads with
  | [] => (w, Ok strpos)
  | head :: heads' =>
      let '(w, strpos, err) :=
        if 0 <? offset head - strpos then
          match slice (E:=E) s strpos (offset head) with
          | Ok piece => let '(w, n, err) := wr w piece in (w, strpos + n, Ok err)
          | _ => (w, strpos, Panic)
          end
        else (w, strpos, Ok None) in
      match err with
      | Ok None =>
          match wr w (encode_head head) with
          | (w, _, None) => writeTo_loop s heads' strpos w
          | (w, _, Some e) => (w, Err e)
          end
      | Ok (Some e) | Err e => (w, Err e)
      | Panic => (w, Panic)
      end
  end.

Definition writeTo (buf : encBuffer) (w : W) : W * outcome E unit :=
  match writeTo_loop (str buf) (lheads buf) 0 w with
  | (w, Ok strpos) =>
      if strpos <? zlen (str buf) then
        match slice (E:=E) (str buf) strpos (zlen (str buf)) with
        | Ok piece =>
            match wr w piece with
            | (w, _, None) => (w, Ok tt)
            | (w, _, Some e) => (w, Err e)
            end
        | _ => (w, Panic)
        end
      else (w, Ok tt)
  | (w, Err e) => (w, Err e)
  | (w, Panic) => (w, Panic)
  end.
End WriteTo.

(** ** Values and their writers (makeWriter and the writer functions)

    The reflection-driven choice of [makeWriter] is a choice by Go type; a
    [value] carries the type's case.  [None] in a slice, pointer or interface
    is Go's nil; a type with its own [EncodeRLP] carries that method and
    whether the value is the zero of its type. *)

#[local] Set Warnings "-register-all".
Inductive value :=
| VBigInt (p : option Z)
| VUint256 (p : option Z)
| VPtr (nilEncoding : byte) (p : option value)
| VEncoder (zero : bool) (enc : encBuffer → outcome rlpError encBuffer)
| VUint (i : Z)
| VBool (b : bool)
| VString (s : bytes)
| VBytes (b : option bytes)
| VByteArray (a : bytes)
| VSlice (l : option (list value))
| VStruct (required optional : list value)
| VInterface (p : option value).

(** [reflect.Value.IsZero] on the values that occur in optional fields. *)
Fixpoint is_zero (v : value) : bool :=
  match v with
  | VEncoder z _ => z
  | VBigInt p | VUint256 p => bool_decide (p = None)
  | VPtr _ p | VInterface p => match p with None => true | Some _ => false end
  | VUint i => i =? 0
  | VBool b => negb b
  | VString s => bool_decide (s = [])
  | VBytes b => bool_decide (b = None)
  | VByteArray a => forallb (fun b => b2z b =? 0) a
  | VSlice l => match l with None => true | Some _ => false end
  | VStruct r o => forallb is_zero r && forallb is_zero o
  end.

(** The optional fields a struct writer emits: the countdown over [lastField]
    drops zero fields from the end and stops at the first non-zero one. *)
Fixpoint drop_zero (fields : list value) : list value :=
  match fields with
  | v :: fields' => if is_zero v then drop_zero fields' else fields
  | [] => []
  end.
Definition lastField (optional : list value) : list value :=
  reverse (drop_zero (reverse optional)).

(** The writer of a byte array of static length 0, 1 or more. *)
Definition writeByteArray (w : encBuffer) (a : bytes) : encBuffer :=
  match a with
  | [] => append_str w [z2b 0x80]
  | [b] => if b2z b <=? 0x7f then append_str w [b] else append_str w [z2b 0x81; b]
  | _ => append_str (encodeStringHeader w (zlen a)) a
  end.

(** [writeString] of encode.go. *)
Definition writeString (w : encBuffer) (s : bytes) : encBuffer :=
  match s with
  | [c] => if b2z c <=? 0x7f then append_str w [c]
           else append_str (encodeStringHeader w (zlen s)) s
  | _ => append_str (encodeStringHeader w (zlen s)) s
  end.

Definition writeBigIntPtr (w : encBuffer) (p : option Z) : outcome rlpError encBuffer :=
  match p with
  | None => Ok (append_str w [z2b 0x80])
  | Some i => if i <? 0 then Err ErrNegativeBigInt else Ok (writeBigInt w i)
  end.

Definition writeU256IntPtr (w : encBuffer) (p : option Z) : outcome rlpError encBuffer :=
  match p with
  | None => Ok (append_str w [z2b 0x80])
  | Some i => Ok (writeUint256 w i)
  end.

(** The writer a type's case selects.  A struct writer computes [lastField]
    on the field values before it opens the list. *)
Fixpoint write (v : value) (w : encBuffer) {struct v} : outcome rlpError encBuffer :=
  let writes := fix writes (l : list value) (w : encBuffer) : outcome rlpError encBuffer :=
    match l with
    | [] => Ok w
    | x :: l' => w ← write x w; writes l' w
    end in
  (** Writes the first [n] fields of the list. *)
  let writesN := fix writesN (n : nat) (l : list value) (w : encBuffer)
      {struct l} : outcome rlpError encBuffer :=
    match l, n with
    | x :: l', S n' => w ← write x w; writesN n' l' w
    | _, _ => Ok w
    end in
  match v with
  | VBigInt p => writeBigIntPtr w p
  | VUint256 p => writeU256IntPtr w p
  | VPtr nilEncoding p =>
      match p with
      | Some v' => write v' w
      | None => Ok (append_str w [nilEncoding])
      end
  | VEncoder _ enc => enc w
  | VUint i => Ok (writeUint64 w i)
  | VBool b => Ok (writeBool w b)
  | VString s => Ok (writeString w s)
  | VBytes b => Ok (writeBytes w (default [] b))
  | VByteArray a => Ok (writeByteArray w a)
  | VSlice l =>
      match l with
      | None | Some [] => Ok (append_str w [z2b 0xC0])
      | Some l =>
          let '(w, listOffset) := list_ w in
          w ← writes l w;
          listEnd w listOffset
      end
  | VStruct required optional =>
      let '(w, lh) := list_ w in
      w ← writes required w;
      w ← writesN (length (lastField optional)) optional w;
      listEnd w lh
  | VInterface p =>
      match p with
      | None => Ok (append_str w [z2b 0xC0])
      | Some v' => write v' w
      end
  end.

Definition EncodeToBytes (v : value) : outcome rlpError bytes :=
  buf ← write v getEncBuffer;
  makeBytes buf.

(** [Encode] into a writer that is not an encoder buffer: nothing is written
    when the value cannot be encoded. *)
Definition Encode {W} (wr : W → bytes → W * Z * option rlpError) (w : W) (v : value)
    : W * outcome rlpError unit :=
  match write v getEncBuffer with
  | Ok buf => writeTo wr buf w
  | Err e => (w, Err e)
  | Panic => (w, Panic)
  end.

(** ** raw.go *)

Definition BytesSize (b : bytes) : Z :=
  match b with
  | [] => 1
  | [c] => if b2z c <=? 0x7f then 1 else 2
  | _ => u64 (headsize (zlen b) + zlen b)
  end.

Definition ListSize (contentSize : Z) : Z := u64 (headsize contentSize + contentSize).

Definition IntSize (x : Z) : Z := if x <? 0x80 then 1 else 1 + intsize x.

Definition AppendUint64 (b : bytes) (i : Z) : bytes :=
  let sh n := z2b (Z.shiftr i n) in
  if i =? 0 then b ++ [z2b 0x80]
  else if i <? 128 then b ++ [z2b i]
  else if i <? 2 ^ 8 then b ++ [z2b 0x81; z2b i]
  else if i <? 2 ^ 16 then b ++ [z2b 0x82; sh 8; z2b i]
  else if i <? 2 ^ 24 then b ++ [z2b 0x83; sh 16; sh 8; z2b i]
  else if i <? 2 ^ 32 then b ++ [z2b 0x84; sh 24; sh 16; sh 8; z2b i]
  else if i <? 2 ^ 40 then b ++ [z2b 0x85; sh 32; sh 24; sh 16; sh 8; z2b i]
  else if i <? 2 ^ 48 then b ++ [z2b 0x86; sh 40; sh 32; sh 24; sh 16; sh 8; z2b i]
  else if i <? 2 ^ 56 then b ++ [z2b 0x87; sh 48; sh 40; sh 32; sh 24; sh 16; sh 8; z2b i]
  else b ++ [z2b 0x88; sh 56; sh 48; sh 40; sh 32; sh 24; sh 16; sh 8; z2b i].

(** [readSize]: the switch on [slen] spells the big-endian shifts out for
    each length from 1 to 8 and leaves [s] at 0 otherwise. *)
Definition readSize (b : bytes) (slen : Z) : outcome rlpError Z :=
  _ ← guard_err (zlen b <? slen) ErrUnexpectedEOF;
  let s := if (1 <=? slen) && (slen <=? 8)
           then foldl (fun acc c => Z.lor (Z.shiftl acc 8) (b2z c)) 0 (take (Z.to_nat slen) b)
           else 0 in
  if s <? 56 then Err ErrCanonSize
  else b0 ← deref (b !! 0%nat);
       if b2z b0 =? 0 then Err ErrCanonSize else Ok s.

(** [readKind] returns the kind, the tag size and the content size. *)
Definition readKind (buf : bytes) : outcome rlpError (Kind * Z * Z) :=
  match buf with
  | [] => Err ErrUnexpectedEOF
  | b0 :: rest =>
      let b := b2z b0 in
      kts ← (if b <? 0x80 then Ok (KByte, 0, 1)
             else if b <? 0xB8 then
               let contentsize := b - 0x80 in
               let short := match rest with c :: _ => b2z c <? 128 | [] => false end in
               if (contentsize =? 1) && short then Err ErrCanonSize
               else Ok (KString, 1, contentsize)
             else if b <? 0xC0 then
               s ← readSize rest (b - 0xB7); Ok (KString, b - 0xB7 + 1, s)
             else if b <? 0xF8 then Ok (KList, 1, b - 0xC0)
             else s ← readSize rest (b - 0xF7); Ok (KList, b - 0xF7 + 1, s));
      let '(k, tagsize, contentsize) := kts in
      if u64 (zlen buf - tagsize) <? contentsize then Err ErrValueTooLarge
      else Ok (k, tagsize, contentsize)
  end.

Definition Split (b : bytes) : outcome rlpError (Kind * bytes * bytes) :=
  kts ← readKind b;
  let '(k, ts, cs) := kts in
  content ← slice b ts (u64 (ts + cs));
  rest ← slice b (u64 (ts + cs)) (zlen b);
  Ok (k, content, rest).

Definition SplitString (b : bytes) : outcome rlpError (bytes * bytes) :=
  kcr ← Split b;
  let '(k, content, rest) := kcr in
  if decide (k = KList) then Err ErrExpectedString else Ok (content, rest).

Definition SplitUint64 (b : bytes) : outcome rlpError (Z * bytes) :=
  cr ← SplitString b;
  let '(content, rest) := cr in
  match content with
  | [] => Ok (0, rest)
  | [c] => if b2z c =? 0 then Err ErrCanonInt else Ok (b2z c, rest)
  | _ => if 8 <? zlen content then Err errUintOverflow
         else match readSize content (zlen content) with
              | Ok x => Ok (x, rest)
              | Err _ => Err ErrCanonInt
              | Panic => Panic
              end
  end.

Definition SplitList (b : bytes) : outcome rlpError (bytes * bytes) :=
  kcr ← Split b;
  let '(k, content, rest) := kcr in
  if decide (k = KList) then Ok (content, rest) else Err ErrExpectedList.

(** [CountValues]: every round drops at least one byte, so the length of the
    input bounds the rounds ([CountValues_total]). *)
Fixpoint CountValues_loop (fuel : nat) (b : bytes) (i : Z) : outcome rlpError Z :=
  match b, fuel with
  | [], _ => Ok i
  | _, O => Panic
  | _, S f =>
      kts ← readKind b;
      let '(_, tagsize, sz) := kts in
      rest ← slice b (u64 (tagsize + sz)) (zlen b);
      CountValues_loop f rest (i + 1)
  end.
Definition CountValues (b : bytes) : outcome rlpError Z :=
  CountValues_loop (length b) b 0.

(** ** Reference encoding *)

(** Least number of bytes of a positive number, and its big-endian form. *)
Definition min_len (z : Z) : nat := if z =? 0 then 0 else Z.to_nat (Z.log2 z / 8 + 1).
Definition be_min (z : Z) : bytes := be_bytes (min_len z) z.

Definition rlp_head (small large : Z) (n : Z) : bytes :=
  if n <? 56 then [z2b (small + n)]
  else z2b (large + Z.of_nat (min_len n)) :: be_min n.

Definition rlp_str (b : bytes) : bytes :=
  match b with
  | [c] => if b2z c <? 0x80 then [c] else rlp_head 0x80 0xB7 1 ++ b
  | _ => rlp_head 0x80 0xB7 (zlen b) ++ b
  end.

Definition rlp_list (payload : bytes) : bytes := rlp_head 0xC0 0xF7 (zlen payload) ++ payload.

Definition rlp_uint (z : Z) : bytes := rlp_str (be_min z).

Arguments intsize : simpl never.
Arguments putint : simpl never.
Arguments min_len : simpl never.
Arguments be_min : simpl never.
Arguments rlp_head : simpl never.
Arguments encode_head : simpl never.
Arguments copy_at : simpl never.

(** ** Lemmas on minimal big-endian numbers *)

Lemma min_len_range (k : nat) z :
  2 ^ (8 * Z.of_nat k) ≤ z < 2 ^ (8 * Z.of_nat (S k)) → min_len z = S k.
Proof.
  intros [Hl Hu]. assert (0 < 2 ^ (8 * Z.of_nat k)) by (apply Z.pow_pos_nonneg; lia).
  assert (0 < z) by lia. unfold min_len. case_if; [lia|].
  apply Z.log2_le_pow2 in Hl; [|lia].
  apply Z.log2_lt_pow2 in Hu; [|lia].
  assert (Z.log2 z / 8 = Z.of_nat k); [|lia].
  symmetry. apply Z.div_unique with (Z.log2 z - 8 * Z.of_nat k); lia.
Qed.

Lemma min_len_bounds z : 0 < z →
  2 ^ (8 * (Z.of_nat (min_len z) - 1)) ≤ z < 2 ^ (8 * Z.of_nat (min_len z)).
Proof.
  intros Hz. unfold min_len. case_if; [lia|].
  pose proof (Z.log2_nonneg z). pose proof (Z.log2_spec z Hz) as [Hl Hu].
  pose proof (Z.div_mod (Z.log2 z) 8 ltac:(lia)).
  pose proof (Z.mod_pos_bound (Z.log2 z) 8 ltac:(lia)).
  assert (0 ≤ Z.log2 z / 8) by (apply Z.div_pos; lia).
  rewrite Z2Nat.id by lia. split.
  - etrans; [|exact Hl]. apply Z.pow_le_mono_r; lia.
  - eapply Z.lt_le_trans; [exact Hu|]. apply Z.pow_le_mono_r; lia.
Qed.

Lemma min_len_pos z : 0 < z → (0 < min_len z)%nat.
Proof. intros. unfold min_len. case_if; [lia|]. assert (0 ≤ Z.log2 z / 8) by (apply Z.div_pos; [apply Z.log2_nonneg|lia]). lia. Qed.

Lemma min_len_u64 z : is_u64 z → (min_len z ≤ 8)%nat.
Proof.
  intros [? ?]. unfold min_len. case_if; [lia|].
  assert (Z.log2 z < 64) by (apply Z.log2_lt_pow2; lia).
  assert (Z.log2 z / 8 < 8) by (apply Z.div_lt_upper_bound; lia). lia.
Qed.

Lemma zlen_be_min z : zlen (be_min z) = Z.of_nat (min_len z).
Proof. apply zlen_be_bytes. Qed.

Lemma be_value_be_min z : 0 ≤ z → be_value (be_min z) = z.
Proof.
  intros. unfold be_min. rewrite be_value_be_bytes.
  destruct (decide (z = 0)) as [->|]; [done|].
  apply Z.mod_small. pose proof (min_len_bounds z). lia.
Qed.

(** Evaluates [2 ^ (8 * k)] for a literal [k] and closes the range. *)
Ltac pow8_lia :=
  repeat match goal with
  | |- context [2 ^ (8 * Z.of_nat ?k)] =>
      let v := eval vm_compute in (2 ^ (8 * Z.of_nat k)) in
      change (2 ^ (8 * Z.of_nat k)) with v
  end; lia.

Lemma putint_be_min i : 0 < i → is_u64 i → putint i = be_min i.
Proof.
  intros Hi [_ Hu]. unfold putint, be_min.
  repeat (case_if; [
    first [ rewrite (min_len_range 0) by pow8_lia | rewrite (min_len_range 1) by pow8_lia
          | rewrite (min_len_range 2) by pow8_lia | rewrite (min_len_range 3) by pow8_lia
          | rewrite (min_len_range 4) by pow8_lia | rewrite (min_len_range 5) by pow8_lia
          | rewrite (min_len_range 6) by pow8_lia ];
    cbn [be_bytes app]; by rewrite ?Z.shiftr_shiftr by lia |]).
  rewrite (min_len_range 7) by pow8_lia.
  cbn [be_bytes app]. by rewrite !Z.shiftr_shiftr by lia.
Qed.

Lemma intsize_loop_spec (fuel : nat) i s :
  0 < i < 2 ^ (8 * Z.of_nat fuel) →
  intsize_loop fuel i s = s + Z.of_nat (min_len i) - 1.
Proof.
  revert i s. induction fuel as [|f IH]; intros i s Hi; [cbn in Hi; lia|].
  cbn [intsize_loop]. rewrite Z.shiftr_div_pow2 by lia. change (2 ^ 8) with 256.
  pose proof (min_len_bounds i ltac:(lia)) as Hb.
  pose proof (min_len_pos i ltac:(lia)) as Hp.
  assert (Hd : i / 256 * 256 ≤ i < i / 256 * 256 + 256).
  { pose proof (Z.div_mod i 256 ltac:(lia)). pose proof (Z.mod_pos_bound i 256). lia. }
  case_if.
  - destruct (min_len i) as [|[|k]] eqn:E; [lia..|].
    assert (2 ^ 8 ≤ 2 ^ (8 * (Z.of_nat (S (S k)) - 1))) by (apply Z.pow_le_mono_r; lia).
    change (2 ^ 8) with 256 in *. lia.
  - assert (0 < i / 256) by (apply Z.le_neq; split; [apply Z.div_pos; lia|lia]).
    rewrite IH.
    + enough (min_len i = S (min_len (i / 256))) by lia.
      pose proof (min_len_bounds (i / 256) ltac:(lia)) as Hb'.
      pose proof (min_len_pos (i / 256) ltac:(lia)).
      apply min_len_range.
      replace (8 * Z.of_nat (S (min_len (i / 256)))) with (8 + 8 * Z.of_nat (min_len (i / 256))) by lia.
      replace (8 * Z.of_nat (min_len (i / 256))) with (8 + 8 * (Z.of_nat (min_len (i / 256)) - 1)) at 1 by lia.
      rewrite !Z.pow_add_r by lia. change (2 ^ 8) with 256. lia.
    + split; [lia|]. apply Z.div_lt_upper_bound; [lia|].
      replace (256 * 2 ^ (8 * Z.of_nat f)) with (2 ^ (8 * Z.of_nat (S f))); [lia|].
      replace (8 * Z.of_nat (S f)) with (8 + 8 * Z.of_nat f) by lia.
      rewrite Z.pow_add_r by lia. done.
Qed.

Lemma intsize_min_len i : 0 < i → is_u64 i → intsize i = Z.of_nat (min_len i).
Proof. intros ? [? ?]. unfold intsize. rewrite intsize_loop_spec; [lia|cbn; lia]. Qed.

Lemma zlen_putint i : 0 < i → is_u64 i → zlen (putint i) = Z.of_nat (min_len i).
Proof. intros. by rewrite putint_be_min, zlen_be_min. Qed.

(** ** Writers append their reference encoding *)

Lemma rlp_head_small small large n : n < 56 → rlp_head small large n = [z2b (small + n)].
Proof. intros. unfold rlp_head. case_if; [done|lia]. Qed.

Lemma puthead_rlp_head small large n : is_u64 n → puthead small large n = rlp_head small large n.
Proof.
  intros Hn. unfold puthead, rlp_head. case_if; [done|].
  rewrite putint_be_min by (unfold is_u64 in *; lia). by rewrite zlen_be_min.
Qed.

Lemma append_str_app w a b : append_str (append_str w a) b = append_str w (a ++ b).
Proof. unfold append_str. cbn. by rewrite app_assoc. Qed.

Lemma encodeStringHeader_spec w n :
  is_u64 n → encodeStringHeader w n = append_str w (rlp_head 0x80 0xB7 n).
Proof.
  intros Hn. unfold encodeStringHeader, rlp_head. case_if; [done|].
  rewrite u64_small, putint_be_min by (unfold is_u64 in *; lia). by rewrite zlen_be_min.
Qed.

Lemma writeBytes_spec w b : is_u64 (zlen b) → writeBytes w b = append_str w (rlp_str b).
Proof.
  intros Hb. unfold writeBytes, rlp_str. rewrite encodeStringHeader_spec by done.
  destruct b as [|c [|d b]]; rewrite ?append_str_app; try done.
  case_if; case_if; try done; lia.
Qed.

Lemma writeString_spec w b : is_u64 (zlen b) → writeString w b = append_str w (rlp_str b).
Proof. exact (writeBytes_spec w b). Qed.

Lemma writeByteArray_spec w a : is_u64 (zlen a) → writeByteArray w a = append_str w (rlp_str a).
Proof.
  intros Hb. unfold writeByteArray, rlp_str. destruct a as [|c [|d b]]; [done| |].
  - case_if; case_if; try done; lia.
  - by rewrite encodeStringHeader_spec, append_str_app by done.
Qed.

Lemma be_min_single i : 0 < i < 256 → be_min i = [z2b i].
Proof. intros. unfold be_min. rewrite (min_len_range 0) by pow8_lia. done. Qed.

Lemma be_min_long i : 256 ≤ i → ∃ b c l, be_min i = b :: c :: l.
Proof.
  intros. pose proof (zlen_be_min i) as Hl. pose proof (min_len_bounds i ltac:(lia)) as Hb.
  destruct (min_len i) as [|[|k]].
  - cbn in Hb. lia.
  - change (2 ^ (8 * Z.of_nat 1)) with 256 in Hb. lia.
  - destruct (be_min i) as [|b [|c l]]; unfold zlen in Hl; cbn in Hl; [lia..|by eauto].
Qed.

Lemma writeUint64_spec w i : is_u64 i → writeUint64 w i = append_str w (rlp_uint i).
Proof.
  intros Hi. assert (0 ≤ i) by (unfold is_u64 in *; lia). unfold writeUint64, rlp_uint.
  case_if; [by subst|]. case_if.
  - rewrite be_min_single by lia. cbn. rewrite b2z_z2b, Z.mod_small by lia.
    case_if; [done|lia].
  - rewrite putint_be_min by (try done; lia). destruct (decide (i < 256)).
    + rewrite be_min_single by lia. cbn. rewrite b2z_z2b, Z.mod_small by lia.
      case_if; [lia|done].
    + pose proof (zlen_be_min i) as Hl. pose proof (min_len_u64 i Hi).
      destruct (be_min_long i ltac:(lia)) as (b & c & l & E). rewrite E in *. cbn [rlp_str].
      by rewrite rlp_head_small by lia.
Qed.

Lemma fill_word_spec j d buf index :
  (index ≤ length buf)%nat →
  fill_word j d buf index =
    (let m := Nat.min j index in
     (take (index - m) buf ++ be_bytes m d ++ drop index buf, (index - m)%nat)).
Proof.
  revert d buf index. induction j as [|j IH]; intros d buf index Hi.
  - cbn. rewrite Nat.sub_0_r, take_drop. done.
  - destruct index as [|index]; [done|]. cbn [fill_word].
    rewrite IH by (rewrite length_insert; lia). cbn zeta. cbn [Nat.min be_bytes]. f_equal.
    replace (S index - S (Nat.min j index))%nat with (index - Nat.min j index)%nat by lia.
    rewrite take_insert_ge by lia. f_equal.
    rewrite <- (take_drop_middle (<[index:=z2b d]> buf) index (z2b d)) at 1
      by (apply list_lookup_insert_eq; lia).
    rewrite drop_app_ge by (rewrite length_take, length_insert; lia).
    rewrite length_take, length_insert, (Nat.min_l index), Nat.sub_diag by lia. cbn [drop].
    rewrite drop_insert_lt by lia. by rewrite <- app_assoc.
Qed.

(** The number little-endian 64-bit words spell. *)
Fixpoint words_value (ws : list Z) : Z :=
  match ws with [] => 0 | d :: ws' => d + 2 ^ 64 * words_value ws' end.

Lemma fill_words_spec ws buf index :
  Forall is_u64 ws → (index ≤ length buf)%nat → (index ≤ 8 * length ws)%nat →
  fill_words ws buf index = be_bytes index (words_value ws) ++ drop index buf.
Proof.
  intros Hws. revert buf index. induction Hws as [|d ws Hd Hws IH]; intros buf index Hb Hi.
  - assert (index = 0)%nat as -> by (cbn in Hi; lia). done.
  - cbn [fill_words words_value]. rewrite fill_word_spec by done. cbn zeta.
    assert (Hlow : ∀ n, (n ≤ 8)%nat →
      be_bytes n (d + 2 ^ 64 * words_value ws) = be_bytes n d).
    { intros n Hn. rewrite <- (be_bytes_mod_le n 8) by done. change (2 ^ (8 * Z.of_nat 8)) with (2 ^ 64).
      rewrite Z.mul_comm, Z.mod_add by lia. apply (be_bytes_mod_le n 8). lia. }
    destruct (decide (index ≤ 8)%nat).
    + rewrite Nat.min_r, Nat.sub_diag, take_0 by lia. cbn [app].
      rewrite Hlow by done.
      rewrite IH by (rewrite ?length_app, ?length_be_bytes; lia). done.
    + rewrite Nat.min_l by lia. rewrite IH.
      * assert (Hsp : ∀ V, be_bytes index V =
            be_bytes (index - 8) (Z.shiftr V (8 * Z.of_nat 8)) ++ be_bytes 8 V).
        { intros V. rewrite <- be_bytes_split. f_equal. lia. }
        rewrite Hsp, <- app_assoc. f_equal.
        -- f_equal. rewrite Z.shiftr_div_pow2 by lia. change (2 ^ (8 * Z.of_nat 8)) with (2 ^ 64).
           rewrite Z.mul_comm, Z.div_add by lia. unfold is_u64 in Hd.
           rewrite Z.div_small by lia. lia.
        -- rewrite Hlow by done. rewrite drop_app_ge; rewrite length_take; [|lia].
           replace (index - 8 - (index - 8) `min` length buf)%nat with 0%nat by lia. done.
      * rewrite !length_app, length_take, length_be_bytes, length_drop. lia.
      * cbn in Hi. lia.
Qed.

Lemma big_words_spec (fuel : nat) z :
  0 ≤ z < 2 ^ (64 * Z.of_nat fuel) →
  Forall is_u64 (big_words fuel z) ∧ words_value (big_words fuel z) = z ∧
  (min_len z ≤ 8 * length (big_words fuel z))%nat.
Proof.
  revert z. induction fuel as [|f IH]; intros z Hz; cbn [big_words].
  - change (2 ^ (64 * Z.of_nat 0)) with 1 in Hz. assert (z = 0) as -> by lia. done.
  - case_if; [by subst|].
    assert (0 ≤ z / 2 ^ 64) by (apply Z.div_pos; lia).
    assert (Hlt : z / 2 ^ 64 < 2 ^ (64 * Z.of_nat f)).
    { apply Z.div_lt_upper_bound; [lia|].
      rewrite <- Z.pow_add_r by lia. replace (64 + 64 * Z.of_nat f) with (64 * Z.of_nat (S f)) by lia. lia. }
    destruct (IH (z / 2 ^ 64)) as (H1 & H2 & H3); [lia|]. split_and!.
    + constructor; [apply (u64_range z)|done].
    + cbn [words_value]. rewrite H2. pose proof (Z.div_mod z (2 ^ 64) ltac:(lia)). lia.
    + cbn [length]. enough (min_len z ≤ 8 + min_len (z / 2 ^ 64))%nat by lia.
      pose proof (min_len_bounds z ltac:(lia)) as [Hlo _].
      destruct (decide (z / 2 ^ 64 = 0)) as [Hq|Hq].
      * apply Z.div_small_iff in Hq; [|lia]. pose proof (min_len_u64 z ltac:(unfold is_u64; lia)). lia.
      * pose proof (min_len_bounds (z / 2 ^ 64) ltac:(lia)) as [_ Hhi].
        assert (Hz' : z < 2 ^ (8 * (8 + Z.of_nat (min_len (z / 2 ^ 64))))).
        { replace (8 * (8 + Z.of_nat (min_len (z / 2 ^ 64)))) with (64 + 8 * Z.of_nat (min_len (z / 2 ^ 64))) by lia.
          rewrite Z.pow_add_r by lia. pose proof (Z.div_mod z (2 ^ 64) ltac:(lia)).
          pose proof (Z.mod_pos_bound z (2 ^ 64)). nia. }
        assert (8 * (Z.of_nat (min_len z) - 1) < 8 * (8 + Z.of_nat (min_len (z / 2 ^ 64)))); [|lia].
        apply (Z.pow_lt_mono_r_iff 2); lia.
Qed.

Lemma big_BitLen_pos i : 0 < i → big_BitLen i = Z.log2 i + 1.
Proof. intros. unfold big_BitLen. rewrite Z.abs_eq by lia. case_if; lia. Qed.

Lemma big_Bits_spec i : 0 ≤ i →
  Forall is_u64 (big_Bits i) ∧ words_value (big_Bits i) = i ∧
  (min_len i ≤ 8 * length (big_Bits i))%nat.
Proof.
  intros Hi. unfold big_Bits. rewrite Z.abs_eq by done. apply big_words_spec. split; [done|].
  destruct (decide (i = 0)) as [->|]; [apply Z.pow_pos_nonneg; lia|].
  rewrite big_BitLen_pos by lia. pose proof (Z.log2_nonneg i).
  assert (0 ≤ (Z.log2 i + 1) / 64) by (apply Z.div_pos; lia).
  apply Z.log2_lt_pow2; [lia|]. pose proof (Z.div_mod (Z.log2 i + 1) 64 ltac:(lia)).
  pose proof (Z.mod_pos_bound (Z.log2 i + 1) 64). lia.
Qed.

(** [((bitlen + 7) & -8) >> 3] is the minimal byte length. *)
Lemma bigint_length i : 0 < i →
  Z.shiftr (Z.land (big_BitLen i + 7) (-8)) 3 = Z.of_nat (min_len i).
Proof.
  intros. rewrite big_BitLen_pos by done. rewrite Z.shiftr_land. change (Z.shiftr (-8) 3) with (-1).
  rewrite Z.land_m1_r, Z.shiftr_div_pow2 by lia. change (2 ^ 3) with 8.
  unfold min_len. case_if; [lia|]. pose proof (Z.log2_nonneg i).
  assert (0 ≤ Z.log2 i / 8) by (apply Z.div_pos; lia). rewrite Z2Nat.id by lia.
  replace (Z.log2 i + 1 + 7) with (Z.log2 i + 1 * 8) by lia. by rewrite Z.div_add.
Qed.

(** The bit length of a representable integer fits a Go [int]. *)
Lemma writeBigInt_spec w i :
  0 ≤ i → is_u64 (Z.of_nat (min_len i)) → writeBigInt w i = append_str w (rlp_uint i).
Proof.
  intros Hi Hlen. unfold writeBigInt. case_if.
  - assert (is_u64 i).
    { destruct (decide (i = 0)) as [->|]; [done|]. rewrite big_BitLen_pos in * by lia.
      split; [done|]. apply Z.log2_lt_pow2; lia. }
    by rewrite big_Uint64_small, writeUint64_spec.
  - assert (0 < i). { destruct (decide (i = 0)) as [->|]; [done|lia]. }
    rewrite bigint_length by done. rewrite encodeStringHeader_spec, append_str_app by done.
    unfold rlp_uint. destruct (big_Bits_spec i Hi) as (H1 & H2 & H3).
    rewrite fill_words_spec by (rewrite ?length_replicate; try done; lia).
    rewrite H2, Nat2Z.id, drop_ge, app_nil_r by (rewrite length_replicate; lia).
    assert (256 ≤ i).
    { rewrite big_BitLen_pos in * by done. transitivity (2 ^ 64); [done|].
      apply Z.log2_le_pow2; lia. }
    pose proof (zlen_be_min i) as Hz.
    destruct (be_min_long i ltac:(done)) as (b & c & l & E).
    change (be_bytes (min_len i) i) with (be_min i). rewrite E in *. cbn [rlp_str]. by rewrite Hz.
Qed.

Lemma insert_drop_head {A} (i : nat) (x : A) l : (i < length l)%nat → drop i (<[i := x]> l) = x :: drop (S i) l.
Proof.
  intros Hi. rewrite (drop_S _ x) by (by apply list_lookup_insert_eq). by rewrite drop_insert_lt by lia.
Qed.
Lemma words_256 z : be_bytes 8 (u64 (Z.shiftr z (64 * 3))) ++ be_bytes 8 (u64 (Z.shiftr z (64 * 2))) ++ be_bytes 8 (u64 (Z.shiftr z (64 * 1))) ++
  be_bytes 8 (u64 (Z.shiftr z (64 * 0))) = be_bytes 32 z.
Proof.
  assert (H : ∀ x, be_bytes 8 (u64 x) = be_bytes 8 x) by (intros x; exact (be_bytes_mod 8 x)). rewrite !H, Z.shiftr_0_r.
  change 32%nat with (8 + 24)%nat. rewrite be_bytes_split. change 24%nat with (8 + 16)%nat. rewrite be_bytes_split. change 16%nat with (8 + 8)%nat.
  by rewrite be_bytes_split.
Qed.
Lemma writeUint256_spec w z : 0 ≤ z < 2 ^ 256 → writeUint256 w z = append_str w (rlp_uint z).
Proof.
  intros Hz. unfold writeUint256. case_if.
  - rewrite Z.shiftr_0_r. assert (is_u64 z).
    { destruct (decide (z = 0)) as [->|]; [done|]. rewrite big_BitLen_pos in * by lia. split; [lia|]. apply Z.log2_lt_pow2; lia. }
    by rewrite u64_small, writeUint64_spec.
  - assert (Hz0 : 0 < z). { destruct (decide (z = 0)) as [->|]; [done|lia]. }
    pose proof (bigint_length z Hz0) as Hn. rewrite Z.shiftr_land in Hn. change (Z.shiftr (-8) 3) with (-1) in Hn.
    rewrite Z.land_m1_r, Z.shiftr_div_pow2 in Hn by lia. change (2 ^ 3) with 8 in Hn. rewrite Hn, words_256.
    rewrite big_BitLen_pos in * by done. assert (Hlo : 2 ^ 64 ≤ z) by (apply Z.log2_le_pow2; lia).
    assert (Hlog : Z.log2 z < 256) by (apply Z.log2_lt_pow2; lia).
    assert (Hn32 : (min_len z ≤ 32)%nat) by (assert ((Z.log2 z + 1 + 7) / 8 < 33) by (apply Z.div_lt_upper_bound; lia); lia).
    rewrite Z.mod_small by lia. set (n := min_len z) in *.
    replace (Z.to_nat (32 - Z.of_nat n)) with (32 - n)%nat by lia.
    rewrite insert_drop_head by (cbn [length]; rewrite length_be_bytes; lia). cbn [drop].
    assert (E : drop (32 - n) (be_bytes 32 z) = be_bytes n z).
    { replace 32%nat with ((32 - n) + n)%nat at 2 by lia. rewrite be_bytes_split, drop_app_length' by (by rewrite length_be_bytes). done. }
    rewrite E. unfold rlp_uint. destruct (be_min_long z ltac:(lia)) as (b & c & l & Em). pose proof (zlen_be_min z) as Hzl. fold n in Hzl.
    change (be_bytes n z) with (be_min z). rewrite Em in *. cbn [rlp_str]. by rewrite Hzl, rlp_head_small by lia.
Qed.

(** ** The buffer as a stream: merging string data and list headers *)

Fixpoint hsum (hs : list listhead) : Z :=
  match hs with [] => 0 | h :: hs' => zlen (encode_head h) + hsum hs' end.

Fixpoint merge (base : Z) (s : bytes) (hs : list listhead) : bytes :=
  match hs with
  | [] => s
  | h :: hs' =>
      let n := Z.to_nat (offset h - base) in
      take n s ++ encode_head h ++ merge (offset h) (drop n s) hs'
  end.

(** Header offsets do not decrease and stay within [lo, hi]. *)
Fixpoint heads_ok (lo hi : Z) (hs : list listhead) : Prop :=
  match hs with
  | [] => lo ≤ hi
  | h :: hs' => lo ≤ offset h ∧ heads_ok (offset h) hi hs'
  end.

Lemma heads_ok_le lo hi hs : heads_ok lo hi hs → lo ≤ hi.
Proof. revert lo. induction hs as [|h hs IH]; cbn; [done|]. intros lo [? H%IH]. lia. Qed.

Lemma heads_ok_app lo mid hi hs1 hs2 :
  heads_ok lo mid hs1 → heads_ok mid hi hs2 → heads_ok lo hi (hs1 ++ hs2).
Proof.
  revert lo. induction hs1 as [|h hs1 IH]; cbn; intros lo H1 H2; [|naive_solver].
  destruct hs2; cbn in *; [lia|]. destruct H2. split; [lia|done].
Qed.

Lemma hsum_app hs1 hs2 : hsum (hs1 ++ hs2) = hsum hs1 + hsum hs2.
Proof. induction hs1; cbn; lia. Qed.

Lemma hsum_nonneg hs : 0 ≤ hsum hs.
Proof. induction hs as [|h hs]; cbn; [done|]. pose proof (zlen_nonneg (encode_head h)). lia. Qed.

Lemma merge_nil_l base s1 s2 hs :
  heads_ok (base + zlen s1) (base + zlen s1 + zlen s2) hs →
  merge base (s1 ++ s2) hs = s1 ++ merge (base + zlen s1) s2 hs.
Proof.
  destruct hs as [|h hs]; cbn; [done|]. intros [Hle _]. unfold zlen in *.
  rewrite take_app_ge, drop_app_ge by lia. rewrite <- app_assoc. do 2 f_equal.
  - f_equal. lia.
  - do 3 f_equal. lia.
Qed.

Lemma merge_app base s1 s2 hs1 hs2 :
  heads_ok base (base + zlen s1) hs1 →
  heads_ok (base + zlen s1) (base + zlen s1 + zlen s2) hs2 →
  merge base (s1 ++ s2) (hs1 ++ hs2) = merge base s1 hs1 ++ merge (base + zlen s1) s2 hs2.
Proof.
  revert base s1. induction hs1 as [|h hs1 IH]; intros base s1 H1 H2.
  - by apply merge_nil_l.
  - cbn [merge app]. destruct H1 as [Hlo H1]. pose proof (heads_ok_le _ _ _ H1) as Hhi.
    unfold zlen in *.
    rewrite take_app_le, drop_app_le by lia.
    rewrite <- !app_assoc. do 2 f_equal.
    assert (Hd : offset h + Z.of_nat (length (drop (Z.to_nat (offset h - base)) s1)) = base + Z.of_nat (length s1)).
    { rewrite length_drop. lia. }
    rewrite IH; rewrite Hd; done.
Qed.

Lemma zlen_merge base s hs :
  heads_ok base (base + zlen s) hs → zlen (merge base s hs) = zlen s + hsum hs.
Proof.
  revert base s. induction hs as [|h hs IH]; intros base s Hok; cbn; [lia|].
  destruct Hok as [Hlo Hok]. pose proof (heads_ok_le _ _ _ Hok) as Hhi.
  rewrite !zlen_app, IH; unfold zlen in *; rewrite ?length_take, ?length_drop; [lia|].
  replace (offset h + Z.of_nat (length s - Z.to_nat (offset h - base))) with (base + Z.of_nat (length s)) by lia.
  done.
Qed.

(** ** The writer interface *)

(** [emits f out]: on every buffer, [f] succeeds and appends string data and
    headers whose merge is [out]. *)
Definition emits (f : encBuffer → outcome rlpError encBuffer) (out : bytes) : Prop :=
  ∀ w, ∃ s hs,
    f w = Ok (EncBuffer (str w ++ s) (lheads w ++ hs) (lhsize w + hsum hs)) ∧
    heads_ok (zlen (str w)) (zlen (str w) + zlen s) hs ∧
    merge (zlen (str w)) s hs = out.

Lemma emits_append b : emits (fun w => Ok (append_str w b)) b.
Proof.
  intros w. exists b, []. cbn. rewrite app_nil_r, Z.add_0_r.
  split_and!; [done|pose proof (zlen_nonneg b); lia|done].
Qed.

Lemma emits_ext f g out : (∀ w, f w = g w) → emits g out → emits f out.
Proof. intros Hfg Hg w. rewrite Hfg. apply Hg. Qed.

Lemma emits_ret : emits Ok [].
Proof.
  apply (emits_ext _ (fun w => Ok (append_str w []))); [|apply emits_append].
  intros [s hs n]. unfold append_str. cbn. by rewrite app_nil_r.
Qed.

Lemma emits_seq f g out1 out2 :
  emits f out1 → emits g out2 → emits (fun w => f w ≫= g) (out1 ++ out2).
Proof.
  intros Hf Hg w. destruct (Hf w) as (s1 & hs1 & E1 & Ok1 & M1). rewrite E1. cbn.
  destruct (Hg (EncBuffer (str w ++ s1) (lheads w ++ hs1) (lhsize w + hsum hs1)))
    as (s2 & hs2 & E2 & Ok2 & M2). cbn in *. rewrite zlen_app in Ok2, M2.
  exists (s1 ++ s2), (hs1 ++ hs2). rewrite E2, hsum_app, !app_assoc, zlen_app. split_and!.
  - do 2 f_equal. lia.
  - eapply heads_ok_app; [exact Ok1|]. rewrite Z.add_assoc. exact Ok2.
  - rewrite merge_app by done. congruence.
Qed.

Lemma encode_head_list out o :
  is_u64 (zlen out) → encode_head (Listhead o (zlen out)) ++ out = rlp_list out.
Proof.
  intros. unfold encode_head, rlp_list. cbn. by rewrite u64_small, puthead_rlp_head by done.
Qed.

Lemma zlen_encode_head o n : 0 ≤ n →
  zlen (encode_head (Listhead o n)) = (if n <? 56 then 1 else 1 + intsize (u64 n)) ∨ 2 ^ 64 ≤ n.
Proof.
  intros Hn. destruct (decide (2 ^ 64 ≤ n)); [by right|left].
  unfold encode_head, puthead. cbn. rewrite u64_small by (unfold is_u64; lia).
  case_if; [done|]. rewrite zlen_cons, zlen_putint, intsize_min_len by (unfold is_u64; lia). lia.
Qed.

Lemma emits_list f out :
  is_u64 (zlen out) → emits f out →
  emits (fun w => let '(w, i) := list_ w in w ← f w; listEnd w i) (rlp_list out).
Proof.
  intros Hu Hf w. cbn.
  edestruct (Hf (list_ w).1) as (s & hs & E & Hok & M). cbn in E, Hok, M. rewrite E. cbn.
  pose proof (zlen_merge _ _ _ Hok) as Hlen. rewrite M in Hlen.
  unfold listEnd. cbn. rewrite <- app_assoc. cbn.
  rewrite list_lookup_middle by done. cbn. unfold size. cbn.
  replace (zlen (str w ++ s) + (lhsize w + hsum hs) - zlen (str w) - lhsize w)
    with (zlen out) by (rewrite zlen_app; lia).
  exists s, (Listhead (zlen (str w)) (zlen out) :: hs).
  rewrite insert_app_r_alt, Nat.sub_diag by lia. cbn [hsum insert list_insert].
  destruct (zlen_encode_head (zlen (str w)) (zlen out) (zlen_nonneg _)) as [Hh|]; [|unfold is_u64 in Hu; lia].
  split_and!.
  - do 2 f_equal. rewrite Hh. case_if; lia.
  - cbn. split; [lia|done].
  - cbn. rewrite Z.sub_diag. cbn. rewrite take_0, drop_0, M. cbn. by apply encode_head_list.
Qed.

(** ** The reference encoding of values *)

(** A list of fields is the concatenation of their encodings. *)
Fixpoint ref_fields (rs : list (outcome rlpError bytes)) : outcome rlpError bytes :=
  match rs with
  | [] => Ok []
  | r :: rs' => a ← r; b ← ref_fields rs'; Ok (a ++ b)
  end.

(** A value with its own [EncodeRLP] is specified by the bytes it produces on
    an empty buffer. *)
Fixpoint ref_value (v : value) : outcome rlpError bytes :=
  match v with
  | VBigInt None => Ok (rlp_str [])
  | VBigInt (Some i) => if i <? 0 then Err ErrNegativeBigInt else Ok (rlp_uint i)
  | VUint256 p => Ok (match p with Some i => rlp_uint i | None => rlp_str [] end)
  | VPtr nilEncoding p =>
      match p with Some v' => ref_value v' | None => Ok [nilEncoding] end
  | VEncoder _ enc => buf ← enc getEncBuffer; makeBytes buf
  | VUint i => Ok (rlp_uint i)
  | VBool b => Ok (rlp_uint (if b then 1 else 0))
  | VString s => Ok (rlp_str s)
  | VBytes b => Ok (rlp_str (default [] b))
  | VByteArray a => Ok (rlp_str a)
  | VSlice l => rlp_list <$> ref_fields (match l with None => [] | Some l => map ref_value l end)
  | VStruct required optional =>
      rlp_list <$> ref_fields (map ref_value required ++
                               take (length (lastField optional)) (map ref_value optional))
  | VInterface p =>
      match p with Some v' => ref_value v' | None => Ok (rlp_list []) end
  end.

(** Unsigned integers have 64 or 256 bits, and custom encoders keep to the
    writer interface. *)
Fixpoint wf_value (v : value) : Prop :=
  match v with
  | VBigInt _ | VBool _ | VString _ | VBytes _ | VByteArray _ => True
  | VUint256 p => match p with Some i => 0 ≤ i < 2 ^ 256 | None => True end
  | VPtr _ p | VInterface p => match p with Some v' => wf_value v' | None => True end
  | VEncoder _ enc => ∀ out, (buf ← enc getEncBuffer; makeBytes buf) = Ok out → emits enc out
  | VUint i => is_u64 i
  | VSlice l => match l with None => True | Some l => foldr (fun v P => wf_value v ∧ P) True l end
  | VStruct r o => foldr (fun v P => wf_value v ∧ P) True r ∧ foldr (fun v P => wf_value v ∧ P) True o
  end.

Section ValueInd.
Context (P : value → Prop)
  (HBig : ∀ p, P (VBigInt p)) (HU256 : ∀ p, P (VUint256 p))
  (HPtrN : ∀ n, P (VPtr n None)) (HPtr : ∀ n v, P v → P (VPtr n (Some v)))
  (HEnc : ∀ z f, P (VEncoder z f)) (HUint : ∀ i, P (VUint i)) (HBool : ∀ b, P (VBool b))
  (HString : ∀ s, P (VString s)) (HBytes : ∀ b, P (VBytes b)) (HArr : ∀ a, P (VByteArray a))
  (HSliceN : P (VSlice None)) (HSlice : ∀ l, Forall P l → P (VSlice (Some l)))
  (HStruct : ∀ r o, Forall P r → Forall P o → P (VStruct r o))
  (HIfaceN : P (VInterface None)) (HIface : ∀ v, P v → P (VInterface (Some v))).

Fixpoint value_nested_ind (v : value) : P v :=
  let all := fix all (l : list value) : Forall P l :=
    match l with
    | [] => Forall_nil_2 P
    | x :: l' => Forall_cons_2 P x l' (value_nested_ind x) (all l')
    end in
  match v with
  | VBigInt p => HBig p
  | VUint256 p => HU256 p
  | VPtr n None => HPtrN n
  | VPtr n (Some v') => HPtr n v' (value_nested_ind v')
  | VEncoder z f => HEnc z f
  | VUint i => HUint i
  | VBool b => HBool b
  | VString s => HString s
  | VBytes b => HBytes b
  | VByteArray a => HArr a
  | VSlice None => HSliceN
  | VSlice (Some l) => HSlice l (all l)
  | VStruct r o => HStruct r o (all r) (all o)
  | VInterface None => HIfaceN
  | VInterface (Some v') => HIface v' (value_nested_ind v')
  end.
End ValueInd.

(** The fields loop of the slice and struct writers. *)
Fixpoint write_all (l : list value) (w : encBuffer) : outcome rlpError encBuffer :=
  match l with [] => Ok w | x :: l' => w ← write x w; write_all l' w end.

Definition faithful (v : value) : Prop :=
  ∀ out, wf_value v → ref_value v = Ok out → zlen out < 2 ^ 63 → emits (write v) out.

Lemma emits_write_all l out :
  Forall faithful l → foldr (fun v P => wf_value v ∧ P) True l →
  ref_fields (map ref_value l) = Ok out → zlen out < 2 ^ 63 → emits (write_all l) out.
Proof.
  intros HF. revert out. induction HF as [|v l Hv Hl IH]; intros out Hwf Hr Hlen; cbn in *.
  - simplify_eq. apply emits_ret.
  - destruct Hwf. inv_bind. simplify_eq. rewrite zlen_app in Hlen.
    pose proof (zlen_nonneg x). pose proof (zlen_nonneg x0).
    apply emits_seq; [apply Hv|apply IH]; try done; lia.
Qed.

Lemma zlen_rlp_list p : zlen p ≤ zlen (rlp_list p).
Proof. unfold rlp_list. rewrite zlen_app. pose proof (zlen_nonneg (rlp_head 192 247 (zlen p))). lia. Qed.

Lemma zlen_rlp_str b : zlen b ≤ zlen (rlp_str b).
Proof.
  unfold rlp_str. pose proof (zlen_nonneg (rlp_head 128 183 (zlen b))).
  pose proof (zlen_nonneg (rlp_head 128 183 1)).
  destruct b as [|c [|d b]]; [rewrite zlen_app; lia|case_if|]; rewrite ?zlen_app; lia.
Qed.

(** A writer that appends one known string. *)
Lemma emits_str (f : encBuffer → outcome rlpError encBuffer) b :
  (∀ w, f w = Ok (append_str w b)) → emits f b.
Proof. intros H. eapply emits_ext; [exact H|apply emits_append]. Qed.

Lemma drop_zero_suffix l : ∃ k, l = k ++ drop_zero l.
Proof.
  induction l as [|v l [k IH]]; cbn; [by exists []|]. destruct (is_zero v); [|by exists []].
  exists (v :: k). cbn. by f_equal.
Qed.

(** The optional fields written are a prefix of the declared ones. *)
Lemma lastField_take l : lastField l = take (length (lastField l)) l.
Proof.
  unfold lastField. destruct (drop_zero_suffix (reverse l)) as [k E].
  rewrite length_reverse. rewrite <- (reverse_involutive l) at 3. rewrite E at 3.
  rewrite reverse_app. rewrite <- length_reverse. by rewrite take_app_length.
Qed.

Lemma write_slice x l w :
  write (VSlice (Some (x :: l))) w =
    (let '(w, i) := list_ w in w ← write_all (x :: l) w; listEnd w i).
Proof. reflexivity. Qed.

Fixpoint write_n (n : nat) (l : list value) (w : encBuffer) {struct l} : outcome rlpError encBuffer :=
  match l, n with
  | x :: l', S n' => w ← write x w; write_n n' l' w
  | _, _ => Ok w
  end.

Lemma write_n_take n l w : write_n n l w = write_all (take n l) w.
Proof.
  revert n w. induction l as [|x l IH]; intros [|n] w; cbn; try done.
  destruct (write x w); cbn; [apply IH|done..].
Qed.

Lemma write_struct r o w :
  write (VStruct r o) w =
    (let '(w, i) := list_ w in
     w ← write_all r w; w ← write_n (length (lastField o)) o w; listEnd w i).
Proof. reflexivity. Qed.

Lemma ref_fields_app rs1 rs2 out :
  ref_fields (rs1 ++ rs2) = Ok out ↔
  ∃ a b, ref_fields rs1 = Ok a ∧ ref_fields rs2 = Ok b ∧ out = a ++ b.
Proof.
  revert out. induction rs1 as [|r rs1 IH]; intros out; cbn.
  - naive_solver.
  - split.
    + intros. inv_bind. simplify_eq.
      match goal with H : ref_fields (_ ++ _) = _ |- _ => apply IH in H as (a & b & Ha & Hb & ->) end.
      exists (x ++ a), b. rewrite Ha, <- app_assoc. done.
    + intros (a & b & Ha & Hb & ->). inv_bind. simplify_eq. cbn.
      rewrite (proj2 (IH (x0 ++ b))) by eauto. cbn. by rewrite <- app_assoc.
Qed.

Lemma foldr_wf_take n l :
  foldr (fun v P => wf_value v ∧ P) True l → foldr (fun v P => wf_value v ∧ P) True (take n l).
Proof. revert n. induction l as [|v l IH]; intros [|n]; cbn; naive_solver. Qed.

Lemma fmap_ok {E A B} (f : A → B) (m : outcome E A) b :
  f <$> m = Ok b ↔ ∃ a, m = Ok a ∧ b = f a.
Proof. destruct m; cbn; naive_solver. Qed.

(** Every writer of encode.go produces the reference encoding of its value. *)
Lemma write_faithful v : faithful v.
Proof.
  induction v using value_nested_ind; intros out Hwf Href Hlen; cbn [ref_value wf_value] in *; simplify_eq.
  - (* big.Int *) destruct p as [i|]; [|simplify_eq; by apply emits_str].
    case_if in Href; simplify_eq. apply emits_str. intros w. cbn.
    case_if; [lia|]. f_equal. apply writeBigInt_spec; [lia|].
    pose proof (zlen_rlp_str (be_min i)). rewrite zlen_be_min in *. unfold is_u64, rlp_uint in *. lia.
  - (* uint256.Int *) apply emits_str. intros w. destruct p as [i|]; [|done]. cbn [write writeU256IntPtr]. by rewrite writeUint256_spec.
  - by apply emits_str.
  - by apply IHv.
  - by apply Hwf.
  - apply emits_str. intros w. cbn. by rewrite writeUint64_spec.
  - apply emits_str. intros w. by destruct b.
  - pose proof (zlen_rlp_str s). pose proof (zlen_nonneg s). apply emits_str. intros w. cbn.
    rewrite writeString_spec; [done|unfold is_u64; lia].
  - pose proof (zlen_rlp_str (default [] b)). pose proof (zlen_nonneg (default [] b)).
    apply emits_str. intros w. cbn [write]. rewrite writeBytes_spec; [done|unfold is_u64; lia].
  - pose proof (zlen_rlp_str a). pose proof (zlen_nonneg a). apply emits_str. intros w. cbn.
    rewrite writeByteArray_spec; [done|unfold is_u64; lia].
  - cbn in Href. simplify_eq. by apply emits_str.
  - apply fmap_ok in Href as (p & Hp & ->). destruct l as [|x l].
    { cbn in Hp. simplify_eq. by apply emits_str. }
    pose proof (zlen_rlp_list p). pose proof (zlen_nonneg p).
    eapply emits_ext; [apply write_slice|]. apply emits_list; [unfold is_u64; lia|].
    apply emits_write_all; try done. lia.
  - apply fmap_ok in Href as (p & Hp & ->). destruct Hwf as [Hwr Hwo].
    pose proof (zlen_rlp_list p). pose proof (zlen_nonneg p).
    rewrite <- fmap_take in Hp. apply ref_fields_app in Hp as (a & b & Ha & Hb & ->).
    rewrite zlen_app in *. pose proof (zlen_nonneg a). pose proof (zlen_nonneg b).
    eapply emits_ext; [apply write_struct|].
    apply (emits_ext _ (fun w => let '(w, i) := list_ w in
      w ← (w ← write_all r w; write_all (take (length (lastField o)) o) w); listEnd w i)).
    { intros w. cbn. destruct (write_all r _); cbn; [|done..]. by rewrite write_n_take. }
    apply emits_list; [unfold is_u64; rewrite zlen_app; lia|].
    apply emits_seq; apply emits_write_all; try done; try lia.
    + by apply Forall_take.
    + by apply foldr_wf_take.
  - by apply emits_str.
  - by apply IHv.
Qed.

(** ** Producing the output *)

Lemma slice_ok {E A} (b : list A) lo hi :
  0 ≤ lo ≤ hi → hi ≤ zlen b →
  slice (E:=E) b lo hi = Ok (take (Z.to_nat (hi - lo)) (drop (Z.to_nat lo) b)).
Proof.
  intros. unfold slice. rewrite (proj2 (Z.leb_le 0 lo)), (proj2 (Z.leb_le lo hi)),
    (proj2 (Z.leb_le hi (zlen b))) by lia. done.
Qed.

(** [copy] into a destination with exactly [done_] filled and room for [src]. *)
Lemma copy_at_full {A} (done_ src rest : list A) :
  (length src ≤ length rest)%nat →
  copy_at (done_ ++ rest) (zlen done_) src = (done_ ++ src ++ drop (length src) rest, zlen src).
Proof.
  intros Hr. unfold copy_at, zlen. rewrite length_app.
  replace (Z.min (Z.of_nat (length done_ + length rest) - Z.of_nat (length done_))
    (Z.of_nat (length src))) with (Z.of_nat (length src)) by lia.
  rewrite !Nat2Z.id. rewrite take_app_length, (take_ge src) by lia. do 3 f_equal.
  replace (Z.to_nat (Z.of_nat (length done_) + Z.of_nat (length src)))
    with (length done_ + length src)%nat by lia.
  by rewrite drop_app_add.
Qed.

Lemma copyTo_loop_spec {E} s hs done_ rest strpos :
  0 ≤ strpos → heads_ok strpos (zlen s) hs →
  zlen rest = zlen (merge strpos (drop (Z.to_nat strpos) s) hs) →
  copyTo_loop (E:=E) s hs (done_ ++ rest) strpos (zlen done_) =
    Ok (done_ ++ merge strpos (drop (Z.to_nat strpos) s) hs).
Proof.
  revert done_ rest strpos. induction hs as [|h hs IH]; intros d rest strpos H0 Hok Hlen.
  - cbn in *. rewrite slice_ok by lia. cbn.
    rewrite (take_ge (drop _ s)) by (unfold zlen; rewrite length_drop; lia).
    unfold zlen in Hlen. rewrite copy_at_full, (drop_ge rest) by lia. cbn. by rewrite app_nil_r.
  - cbn [copyTo_loop merge] in *. destruct Hok as [Hlo Hok]. pose proof (heads_ok_le _ _ _ Hok) as Hhi.
    rewrite slice_ok by lia. cbn [mbind outcome_bind].
    set (before := take (Z.to_nat (offset h - strpos)) (drop (Z.to_nat strpos) s)) in *.
    rewrite drop_drop in *.
    replace (Z.to_nat strpos + Z.to_nat (offset h - strpos))%nat with (Z.to_nat (offset h)) in * by lia.
    assert (Hb : zlen before = offset h - strpos).
    { unfold before, zlen in *. rewrite length_take, length_drop. lia. }
    rewrite !zlen_app in Hlen.
    pose proof (zlen_nonneg (merge (offset h) (drop (Z.to_nat (offset h)) s) hs)).
    pose proof (zlen_nonneg (encode_head h)).
    rewrite copy_at_full by (unfold zlen in *; lia). cbn beta iota.
    unfold put_at. rewrite !zlen_app.
    assert (Hrest : zlen (drop (length before) rest) = zlen (encode_head h) +
      zlen (merge (offset h) (drop (Z.to_nat (offset h)) s) hs)).
    { unfold zlen in *. rewrite length_drop. lia. }
    case_if; [|lia]. cbn [mbind outcome_bind].
    rewrite app_assoc, <- zlen_app.
    rewrite copy_at_full by (unfold zlen in *; lia). cbn [fst].
    rewrite app_assoc, <- zlen_app. replace (strpos + zlen before) with (offset h) by lia.
    rewrite IH; [by rewrite <- !app_assoc|lia|done|].
    unfold zlen in *. rewrite length_drop. lia.
Qed.

Lemma makeBytes_spec {E} w :
  heads_ok 0 (zlen (str w)) (lheads w) → lhsize w = hsum (lheads w) →
  makeBytes (E:=E) w = Ok (merge 0 (str w) (lheads w)).
Proof.
  intros Hok Hh. unfold makeBytes, copyTo.
  etrans; [apply (copyTo_loop_spec (str w) (lheads w) [] _ 0)|]; [lia|done| |done].
  rewrite drop_0, zlen_merge by done. pose proof (hsum_nonneg (lheads w)).
  pose proof (zlen_nonneg (str w)). unfold size, zlen in *. rewrite length_replicate. lia.
Qed.

Lemma emits_makeBytes f out :
  emits f out → (buf ← f getEncBuffer; makeBytes buf) = Ok out.
Proof.
  intros Hf. destruct (Hf getEncBuffer) as (s & hs & E & Hok & M). rewrite E.
  cbn [mbind outcome_bind]. rewrite makeBytes_spec; cbn in *; [f_equal; exact M|done|lia].
Qed.

(** ** Splitting: lemmas on readSize and readKind *)

Lemma lor_shift_add a c : 0 ≤ a → 0 ≤ c < 256 → Z.lor (Z.shiftl a 8) c = a * 256 + c.
Proof.
  intros Ha Hc. rewrite Z.shiftl_mul_pow2 by lia. change (2 ^ 8) with 256.
  rewrite <- Z.add_lor_land. rewrite <- (Z.add_0_r (_ + _)) at 1.
  assert (Hl : Z.land (a * 256) c = 0); [|lia].
  apply Z.bits_inj'. intros n Hn. rewrite Z.land_spec, Z.bits_0.
  destruct (decide (n < 8)).
  - replace (a * 256) with (a * 2 ^ 8) by lia. by rewrite Z.mul_pow2_bits_low.
  - destruct (decide (c = 0)) as [->|]; [by rewrite Z.bits_0, andb_false_r|].
    rewrite (Z.bits_above_log2 c n), andb_false_r; [done|lia|].
    apply Z.lt_le_trans with 8; [|lia]. apply Z.log2_lt_pow2; lia.
Qed.

Lemma readSize_fold l acc : 0 ≤ acc →
  foldl (fun acc c => Z.lor (Z.shiftl acc 8) (b2z c)) acc l =
  foldl (fun acc c => acc * 256 + b2z c) acc l.
Proof.
  revert acc. induction l as [|b l IH]; intros acc Hacc; cbn; [done|].
  pose proof (b2z_range b). rewrite lor_shift_add, IH by lia. done.
Qed.

(** A byte string without leading zero is the minimal form of its value. *)
Lemma be_min_be_value b l : b2z b ≠ 0 → be_min (be_value (b :: l)) = b :: l.
Proof.
  intros Hb. pose proof (b2z_range b). unfold be_min.
  assert (E : min_len (be_value (b :: l)) = length (b :: l)).
  { cbn [length]. apply min_len_range. split.
    - rewrite be_value_cons. pose proof (be_value_nonneg l). unfold zlen.
      assert (0 < 2 ^ (8 * Z.of_nat (length l))) by (apply Z.pow_pos_nonneg; lia). nia.
    - exact (be_value_lt (b :: l)). }
  rewrite E. apply be_bytes_be_value.
Qed.

Lemma be_min_head z : 0 < z → ∃ b l, be_min z = b :: l ∧ b2z b ≠ 0.
Proof.
  intros Hz. pose proof (be_value_be_min z ltac:(lia)) as Hv. pose proof (zlen_be_min z) as Hl.
  pose proof (min_len_bounds z Hz) as [Hlo _]. pose proof (min_len_pos z Hz).
  destruct (be_min z) as [|b l]; [unfold zlen in Hl; cbn in Hl; lia|].
  exists b, l. split; [done|]. intros H0. rewrite be_value_cons, H0 in Hv.
  pose proof (be_value_lt l). rewrite zlen_cons in Hl.
  replace (8 * (Z.of_nat (min_len z) - 1)) with (8 * zlen l) in Hlo by lia. lia.
Qed.

(** [readSize] accepts exactly the minimal encodings of sizes from 56 on. *)
Lemma readSize_ok b slen s : 1 ≤ slen ≤ 8 →
  readSize b slen = Ok s ↔
    slen ≤ zlen b ∧ 56 ≤ s ∧ take (Z.to_nat slen) b = be_min s.
Proof.
  intros Hsl. unfold readSize.
  rewrite (proj2 (Z.leb_le 1 slen)), (proj2 (Z.leb_le slen 8)) by lia. cbn [andb].
  rewrite readSize_fold by lia. fold (be_value (take (Z.to_nat slen) b)).
  split.
  - intros H. inv_bind. zbool. case_if in H0; [done|].
    destruct b as [|b0 b]; [done|]. cbn in H0. case_if in H0; [done|]. simplify_eq.
    destruct (Z.to_nat slen) as [|n] eqn:En; [lia|]. cbn [take] in *.
    by rewrite be_min_be_value.
  - intros (Hle & Hs & Ht). unfold guard_err. rewrite (proj2 (Z.ltb_ge (zlen b) slen)) by lia.
    cbn [mbind outcome_bind].
    rewrite Ht, be_value_be_min by lia. case_if; [lia|].
    destruct (be_min_head s ltac:(lia)) as (b0 & l & E & Hb0).
    destruct b as [|b' b]; [rewrite zlen_nil in Hle; lia|].
    destruct (Z.to_nat slen) as [|n] eqn:En; [lia|]. cbn [take] in Ht. rewrite E in Ht. simplify_eq.
    cbn. case_if; [lia|done].
Qed.

(** The tag bytes [readKind] consumes for a value of kind [k] and size [n]. *)
Definition tag_of (k : Kind) (n : Z) : bytes :=
  match k with
  | KByte => []
  | KString => rlp_head 0x80 0xB7 n
  | KList => rlp_head 0xC0 0xF7 n
  end.

(** A content that may stand behind the tag of its kind. *)
Definition content_ok (k : Kind) (c : bytes) : Prop :=
  match k with
  | KByte => ∃ b, c = [b] ∧ b2z b < 0x80
  | KString => ∀ b, c = [b] → 0x80 ≤ b2z b
  | KList => True
  end.

Lemma rlp_head_large small large n : 56 ≤ n →
  rlp_head small large n = z2b (large + Z.of_nat (min_len n)) :: be_min n.
Proof. intros. unfold rlp_head. case_if; [lia|done]. Qed.

Lemma zlen_rlp_head small large n : is_u64 n → 1 ≤ zlen (rlp_head small large n) ≤ 9.
Proof.
  intros Hn. unfold rlp_head. case_if; [done|]. rewrite zlen_cons, zlen_be_min.
  pose proof (min_len_u64 n Hn). lia.
Qed.

Lemma u64_sub_len {A} (l : list A) n : zlen l < 2 ^ 64 → 0 ≤ n ≤ zlen l → u64 (zlen l - n) = zlen l - n.
Proof. intros. apply u64_small. unfold is_u64. lia. Qed.

Lemma z2b_b2z_sub b n : z2b (n + (b2z b - n)) = b.
Proof. replace (n + (b2z b - n)) with (b2z b) by lia. apply z2b_b2z. Qed.

(** Splits a slice of known length off the front. *)
Lemma take_zlen {A} (l : list A) n : 0 ≤ n ≤ zlen l →
  ∃ c rest, l = c ++ rest ∧ zlen c = n ∧ c = take (Z.to_nat n) l.
Proof.
  intros. exists (take (Z.to_nat n) l), (drop (Z.to_nat n) l). rewrite take_drop.
  split_and!; [done| |done]. unfold zlen in *. rewrite length_take. lia.
Qed.

Lemma readKind_sound buf k ts cs :
  zlen buf < 2 ^ 64 → readKind buf = Ok (k, ts, cs) →
  ∃ c rest, buf = tag_of k cs ++ c ++ rest ∧ zlen c = cs ∧ content_ok k c ∧ ts = zlen (tag_of k cs).
Proof.
  intros Hlen. destruct buf as [|b0 rest]; [done|]. cbn [readKind].
  rewrite zlen_cons in *. pose proof (zlen_nonneg rest) as Hr. pose proof (b2z_range b0) as Hb0.
  intros H. apply bind_ok in H as ([[k' ts'] cs'] & Hk & H). case_if in H; [done|]. simplify_eq.
  rewrite <- (zlen_cons b0) in Heqb.
  (* the two forms with an explicit size *)
  assert (Hlarge : ∀ small large, large ≤ b2z b0 - 1 → b2z b0 - large ≤ 8 → 
    readSize rest (b2z b0 - large) = Ok cs → ts = b2z b0 - large + 1 →
    ∃ c rest', b0 :: rest = rlp_head small large cs ++ c ++ rest' ∧ zlen c = cs ∧
      56 ≤ cs ∧ ts = zlen (rlp_head small large cs)).
  { intros small large H1 H2 Hs ->.
    apply readSize_ok in Hs as (Hle & Hcs & Ht); [|lia].
    assert (Hml : b2z b0 - large = Z.of_nat (min_len cs)).
    { rewrite <- zlen_be_min, <- Ht. unfold zlen in *. rewrite length_take. lia. }
    rewrite rlp_head_large by done. rewrite <- Hml, z2b_b2z_sub, zlen_cons, zlen_be_min.
    rewrite u64_sub_len in Heqb by (rewrite ?zlen_cons; lia). rewrite zlen_cons in Heqb.
    destruct (take_zlen (drop (Z.to_nat (b2z b0 - large)) rest) cs) as (c & r' & E & Hc & _).
    { unfold zlen in *. rewrite length_drop. lia. }
    exists c, r'. rewrite <- E, <- Ht. cbn. rewrite take_drop. split_and!; [done..|lia|lia]. }
  case_if in Hk; [|case_if in Hk; [|case_if in Hk; [|case_if in Hk]]].
  - simplify_eq. exists [b0], rest. cbn. split_and!; [done|done|by eauto|done].
  - case_if in Hk; [done|]. simplify_eq.
    rewrite u64_sub_len in Heqb by (rewrite ?zlen_cons; lia). rewrite zlen_cons in Heqb.
    cbn [tag_of]. rewrite rlp_head_small, z2b_b2z_sub by lia.
    destruct (take_zlen rest (b2z b0 - 128)) as (c & r' & E & Hc & _); [lia|].
    exists c, r'. split_and!; [cbn; by f_equal|done| |done].
    intros b ->. change (zlen [b]) with 1 in Hc. rewrite E in Heqb2. cbn in Heqb2.
    apply andb_false_iff in Heqb2 as [?|?]; zbool; lia.
  - inv_bind. simplify_eq.
    destruct (Hlarge 128 183) as (c & r' & E & Hc & H56 & Ht); [lia|lia|done|lia|].
    exists c, r'. cbn. split_and!; [done|done| |lia]. intros b ->. change (zlen [b]) with 1 in *. lia.
  - simplify_eq. rewrite u64_sub_len in Heqb by (rewrite ?zlen_cons; lia). rewrite zlen_cons in Heqb.
    cbn [tag_of]. rewrite rlp_head_small, z2b_b2z_sub by lia.
    destruct (take_zlen rest (b2z b0 - 192)) as (c & r' & E & Hc & _); [lia|].
    exists c, r'. split_and!; [cbn; by f_equal|done..].
  - inv_bind. simplify_eq.
    destruct (Hlarge 192 247) as (c & r' & E & Hc & H56 & Ht); [lia|lia|done|lia|].
    exists c, r'. split_and!; [done..|exact Ht].
Qed.

Lemma b2z_z2b_small z : 0 ≤ z < 256 → b2z (z2b z) = z.
Proof. intros. rewrite b2z_z2b. by apply Z.mod_small. Qed.

(** The explicit-size branches of [readKind] on an encoded size. *)
Lemma readSize_be_min n rest : 56 ≤ n → is_u64 n →
  readSize (be_min n ++ rest) (Z.of_nat (min_len n)) = Ok n.
Proof.
  intros Hn Hu. pose proof (min_len_u64 n Hu). pose proof (min_len_pos n ltac:(lia)).
  apply readSize_ok; [lia|]. rewrite zlen_app, zlen_be_min. pose proof (zlen_nonneg rest).
  split_and!; [lia|done|]. rewrite Nat2Z.id.
  assert (length (be_min n) = min_len n) as <- by (pose proof (zlen_be_min n); unfold zlen in *; lia).
  by rewrite take_app_length.
Qed.

Lemma readKind_complete k c rest :
  zlen (tag_of k (zlen c) ++ c ++ rest) < 2 ^ 64 → content_ok k c →
  readKind (tag_of k (zlen c) ++ c ++ rest) = Ok (k, zlen (tag_of k (zlen c)), zlen c).
Proof.
  intros Hlen Hc. rewrite !zlen_app in Hlen.
  pose proof (zlen_nonneg c). pose proof (zlen_nonneg rest). pose proof (zlen_nonneg (tag_of k (zlen c))).
  assert (Hu : is_u64 (zlen c)) by (unfold is_u64; lia).
  assert (Hfin : u64 (zlen (tag_of k (zlen c) ++ c ++ rest) - zlen (tag_of k (zlen c))) = zlen c + zlen rest).
  { rewrite !zlen_app, u64_small by (unfold is_u64; lia). lia. }
  pose proof (min_len_u64 _ Hu) as Hm8.
  destruct k; cbn [tag_of content_ok] in *.
  - destruct Hc as (b & -> & Hb). cbn [app readKind] in *. pose proof (b2z_range b).
    case_if; [|lia]. cbn [mbind outcome_bind]. rewrite zlen_nil in *.
    change (zlen [b]) with 1 in *. rewrite Hfin. case_if; [lia|done].
  - destruct (decide (zlen c < 56)).
    + rewrite rlp_head_small in * by done. cbn [app readKind].
      rewrite b2z_z2b_small by lia. case_if; [lia|]. case_if; [|lia].
      replace (128 + zlen c - 128) with (zlen c) by lia.
      assert (Hs : (zlen c =? 1) && match c ++ rest with c0 :: _ => b2z c0 <? 128 | [] => false end = false).
      { destruct (zlen c =? 1) eqn:E1; [zbool|done]. destruct c as [|b [|b' c]];
          rewrite ?zlen_cons, ?zlen_nil in E1; [lia| |pose proof (zlen_nonneg c); lia].
        cbn. specialize (Hc b eq_refl). apply Z.ltb_ge. lia. }
      rewrite Hs. cbn [mbind outcome_bind]. change (zlen [_]) with 1 in *.
      cbn [app] in Hfin. rewrite Hfin. case_if; [lia|done].
    + pose proof (min_len_pos (zlen c) ltac:(lia)).
      rewrite rlp_head_large in * by lia. cbn [app readKind].
      rewrite b2z_z2b_small by lia. case_if; [lia|]. case_if; [lia|]. case_if; [|lia].
      replace (183 + Z.of_nat (min_len (zlen c)) - 183) with (Z.of_nat (min_len (zlen c))) by lia.
      rewrite readSize_be_min by (done || lia). cbn [mbind outcome_bind app] in *.
      replace (Z.of_nat (min_len (zlen c)) + 1) with
        (zlen (z2b (183 + Z.of_nat (min_len (zlen c))) :: be_min (zlen c)))
        by (rewrite zlen_cons, zlen_be_min; lia).
      rewrite Hfin. case_if; [lia|done].
  - destruct (decide (zlen c < 56)).
    + rewrite rlp_head_small in * by done. cbn [app readKind].
      rewrite b2z_z2b_small by lia. case_if; [lia|]. case_if; [lia|]. case_if; [lia|]. case_if; [|lia].
      replace (192 + zlen c - 192) with (zlen c) by lia. cbn [mbind outcome_bind].
      change (zlen [_]) with 1 in *. cbn [app] in Hfin. rewrite Hfin. case_if; [lia|done].
    + pose proof (min_len_pos (zlen c) ltac:(lia)).
      rewrite rlp_head_large in * by lia. cbn [app readKind].
      rewrite b2z_z2b_small by lia. case_if; [lia|]. case_if; [lia|]. case_if; [lia|]. case_if; [lia|].
      replace (247 + Z.of_nat (min_len (zlen c)) - 247) with (Z.of_nat (min_len (zlen c))) by lia.
      rewrite readSize_be_min by (done || lia). cbn [mbind outcome_bind app] in *.
      replace (Z.of_nat (min_len (zlen c)) + 1) with
        (zlen (z2b (247 + Z.of_nat (min_len (zlen c))) :: be_min (zlen c)))
        by (rewrite zlen_cons, zlen_be_min; lia).
      rewrite Hfin. case_if; [lia|done].
Qed.

Lemma slice_mid {E A} (a b c : list A) :
  slice (E:=E) (a ++ b ++ c) (zlen a) (zlen a + zlen b) = Ok b.
Proof.
  pose proof (zlen_nonneg a). pose proof (zlen_nonneg b). pose proof (zlen_nonneg c).
  rewrite slice_ok by (rewrite ?zlen_app; lia). unfold zlen.
  rewrite Nat2Z.id, drop_app_length. do 2 f_equal.
  replace (Z.to_nat _) with (length b) by lia. by rewrite take_app_length.
Qed.

Lemma slice_tail {E A} (a b : list A) : slice (E:=E) (a ++ b) (zlen a) (zlen (a ++ b)) = Ok b.
Proof.
  pose proof (slice_mid (E:=E) a b []) as H. rewrite app_nil_r in H. by rewrite zlen_app.
Qed.

(** [Split] succeeds exactly on a canonical value followed by anything. *)
Lemma Split_ok b k c rest : zlen b < 2 ^ 64 →
  Split b = Ok (k, c, rest) ↔ b = tag_of k (zlen c) ++ c ++ rest ∧ content_ok k c.
Proof.
  intros Hlen.
  assert (Hsl : ∀ k c rest, b = tag_of k (zlen c) ++ c ++ rest →
    (content ← slice (E:=rlpError) b (zlen (tag_of k (zlen c))) (u64 (zlen (tag_of k (zlen c)) + zlen c));
     r ← slice b (u64 (zlen (tag_of k (zlen c)) + zlen c)) (zlen b); Ok (k, content, r)) = Ok (k, c, rest)).
  { intros k' c' rest' ->. rewrite !zlen_app in Hlen.
    pose proof (zlen_nonneg c'). pose proof (zlen_nonneg rest'). pose proof (zlen_nonneg (tag_of k' (zlen c'))).
    rewrite u64_small by (unfold is_u64; lia). rewrite slice_mid. cbn.
    rewrite app_assoc, <- zlen_app, slice_tail. done. }
  unfold Split. split.
  - intros H. apply bind_ok in H as ([[k' ts] cs] & Hk & H).
    apply readKind_sound in Hk as (c' & r' & E & Hc & Hok & ->); [|done]. subst cs.
    rewrite (Hsl _ _ _ E) in H. by simplify_eq.
  - intros [E Hok]. subst b. rewrite readKind_complete by done.
    cbn [mbind outcome_bind]. by apply Hsl.
Qed.

(** ** Encodings as split values *)

Definition str_kind (b : bytes) : Kind :=
  match b with [c] => if b2z c <? 0x80 then KByte else KString | _ => KString end.

Lemma rlp_str_tag b : rlp_str b = tag_of (str_kind b) (zlen b) ++ b ∧ content_ok (str_kind b) b.
Proof.
  unfold rlp_str, str_kind. destruct b as [|c [|d b]]; cbn; [done| |done].
  case_if; cbn; split; try done; [by eauto|]. intros b [= <-]. done.
Qed.

Lemma rlp_list_tag p : rlp_list p = tag_of KList (zlen p) ++ p.
Proof. done. Qed.

Lemma str_kind_not_list b : str_kind b ≠ KList.
Proof. unfold str_kind. repeat case_match; done. Qed.

Lemma Split_rlp_str b rest : zlen (rlp_str b ++ rest) < 2 ^ 64 →
  Split (rlp_str b ++ rest) = Ok (str_kind b, b, rest).
Proof.
  intros. apply Split_ok; [done|]. destruct (rlp_str_tag b) as [E ?]. split; [|done].
  by rewrite E, <- app_assoc.
Qed.

Lemma Split_rlp_list p rest : zlen (rlp_list p ++ rest) < 2 ^ 64 →
  Split (rlp_list p ++ rest) = Ok (KList, p, rest).
Proof. intros. apply Split_ok; [done|]. by rewrite rlp_list_tag, <- app_assoc. Qed.

Lemma SplitString_ok b c rest : zlen b < 2 ^ 64 →
  SplitString b = Ok (c, rest) ↔ b = rlp_str c ++ rest.
Proof.
  intros Hlen. unfold SplitString. rewrite bind_ok. split.
  - intros ([[k c'] r'] & Hs & H). case_decide; [done|]. simplify_eq.
    apply Split_ok in Hs as [-> Hc]; [|done]. destruct (rlp_str_tag c) as [E _].
    rewrite E, <- app_assoc. do 2 f_equal. unfold str_kind, content_ok in *.
    destruct k; [destruct Hc as (? & -> & ?)|destruct c as [|x [|y c]]; try done|done].
    + case_if; [done|lia].
    + specialize (Hc x eq_refl). case_if; [lia|done].
  - intros ->. eexists. split; [by apply Split_rlp_str|]. cbn.
    rewrite decide_False by apply str_kind_not_list. done.
Qed.

Lemma SplitList_ok b c rest : zlen b < 2 ^ 64 →
  SplitList b = Ok (c, rest) ↔ b = rlp_list c ++ rest.
Proof.
  intros Hlen. unfold SplitList. rewrite bind_ok. split.
  - intros ([[k c'] r'] & Hs & H). case_decide; [|done]. simplify_eq.
    apply Split_ok in Hs as [-> _]; [|done]. by rewrite rlp_list_tag, <- app_assoc.
  - intros ->. eexists. split; [by apply Split_rlp_list|]. done.
Qed.

Lemma SplitUint64_ok b x rest : zlen b < 2 ^ 64 →
  SplitUint64 b = Ok (x, rest) ↔ is_u64 x ∧ b = rlp_uint x ++ rest.
Proof.
  intros Hlen. unfold SplitUint64. rewrite bind_ok. split.
  - intros ([c r'] & Hs & H). apply SplitString_ok in Hs as ->; [|done]. unfold rlp_uint.
    destruct c as [|c0 [|c1 c]].
    + by simplify_eq.
    + pose proof (b2z_range c0). case_if in H; [done|]. simplify_eq. split; [unfold is_u64; lia|].
      rewrite be_min_single by lia. by rewrite z2b_b2z.
    + case_if in H; [done|]. destruct (readSize _ _) as [s| |] eqn:Er; [|done..]. simplify_eq.
      pose proof (zlen_nonneg c). rewrite !zlen_cons in Heqb.
      assert (Hz : zlen (c0 :: c1 :: c) = zlen c + 2) by (rewrite !zlen_cons; lia).
      apply readSize_ok in Er as (_ & H56 & Ht); [|lia].
      rewrite take_ge in Ht by (unfold zlen; lia). rewrite <- Ht. split; [|done].
      pose proof (be_value_be_min x ltac:(lia)) as Hv. rewrite <- Ht in Hv.
      pose proof (be_value_lt (c0 :: c1 :: c)). rewrite Hv, Hz in *. split; [lia|].
      eapply Z.lt_le_trans; [done|]. apply Z.pow_le_mono_r; lia.
  - intros [Hu ->]. unfold rlp_uint in *. eexists. split; [by apply SplitString_ok|]. cbn.
    assert (0 ≤ x) by (unfold is_u64 in *; lia). pose proof (min_len_u64 x Hu).
    destruct (decide (x = 0)) as [->|]; [done|]. destruct (decide (x < 256)).
    + rewrite be_min_single by lia. rewrite b2z_z2b_small by lia. case_if; [lia|done].
    + pose proof (zlen_be_min x) as Hl. destruct (be_min_long x ltac:(lia)) as (b0 & b1 & l & E).
      rewrite E in *. rewrite <- E in *.
      rewrite Hl. case_if; [lia|].
      rewrite <- (app_nil_r (be_min x)), readSize_be_min by (done || lia). done.
Qed.

(** ** CountValues *)

(** One canonical value as a byte string. *)
Definition one_value (v : bytes) : Prop :=
  ∃ k c, v = tag_of k (zlen c) ++ c ∧ content_ok k c.

Lemma one_value_nonempty v : one_value v → v ≠ [].
Proof.
  intros (k & c & -> & Hc). destruct k; cbn in *.
  - by destruct Hc as (b & -> & _).
  - unfold rlp_head. by case_if.
  - unfold rlp_head. by case_if.
Qed.

Lemma readKind_one_value v rest : one_value v → zlen (v ++ rest) < 2 ^ 64 →
  ∃ k ts cs, readKind (v ++ rest) = Ok (k, ts, cs) ∧
    slice (E:=rlpError) (v ++ rest) (u64 (ts + cs)) (zlen (v ++ rest)) = Ok rest.
Proof.
  intros (k & c & -> & Hc) Hlen. rewrite <- app_assoc in *.
  exists k, (zlen (tag_of k (zlen c))), (zlen c). split; [by apply readKind_complete|].
  rewrite !zlen_app in Hlen. pose proof (zlen_nonneg rest). pose proof (zlen_nonneg c).
  pose proof (zlen_nonneg (tag_of k (zlen c))).
  rewrite u64_small by (unfold is_u64; lia). rewrite app_assoc, <- zlen_app. apply slice_tail.
Qed.

Lemma CountValues_loop_count vs fuel i :
  Forall one_value vs → zlen (concat vs) < 2 ^ 64 → (length (concat vs) ≤ fuel)%nat →
  CountValues_loop fuel (concat vs) i = Ok (i + zlen vs).
Proof.
  intros Hvs. revert fuel i. induction Hvs as [|v vs Hv Hvs IH]; intros fuel i Hlen Hf; cbn [concat] in *.
  - destruct fuel; cbn; rewrite zlen_nil; f_equal; lia.
  - pose proof (one_value_nonempty v Hv) as Hne.
    destruct (readKind_one_value v (concat vs) Hv Hlen) as (k & ts & cs & Hk & Hs).
    rewrite zlen_app in Hlen. rewrite length_app in Hf. pose proof (zlen_nonneg v).
    destruct v as [|b v]; [done|]. destruct fuel as [|fuel]; [cbn in Hf; lia|].
    cbn [CountValues_loop app] in *. rewrite Hk. cbn [mbind outcome_bind]. rewrite Hs. cbn [mbind outcome_bind].
    rewrite IH by (cbn in Hf; lia). rewrite zlen_cons. f_equal. lia.
Qed.

Lemma CountValues_loop_total b fuel i :
  zlen b < 2 ^ 64 → (length b ≤ fuel)%nat → CountValues_loop fuel b i ≠ Panic.
Proof.
  revert b i. induction fuel as [|fuel IH]; intros b i Hlen Hf.
  - destruct b; [done|cbn in Hf; lia].
  - destruct b as [|b0 b]; [done|]. cbn [CountValues_loop]. remember (b0 :: b) as l eqn:El.
    destruct (readKind l) as [[[k ts] cs]|e|] eqn:Ek; cbn [mbind outcome_bind]; [|done|].
    + apply readKind_sound in Ek as (c & r & E & <- & Hc & ->); [|done].
      assert (Hv : one_value (tag_of k (zlen c) ++ c)) by (exists k, c; done).
      destruct (readKind_one_value _ r Hv) as (k' & ts' & cs' & Hk' & Hs); [by rewrite <- app_assoc, <- E|].
      rewrite <- app_assoc, <- E in Hk', Hs.
      rewrite E in Hk'. rewrite readKind_complete in Hk' by (by rewrite <- ?E). simplify_eq.
      rewrite Hs. cbn [mbind outcome_bind].
      apply one_value_nonempty in Hv. rewrite app_assoc in E. rewrite E in Hlen, Hf.
      rewrite zlen_app in Hlen. rewrite length_app in Hf. pose proof (zlen_nonneg (tag_of k' (zlen c) ++ c)).
      destruct (tag_of k' (zlen c) ++ c) as [|x y]; [done|]. cbn in Hf. apply IH; lia.
    + subst l. exfalso. clear -Ek. cbn [readKind] in Ek.
      assert (Hrs : ∀ s, readSize b s ≠ Panic).
      { intros s. unfold readSize, guard_err. repeat case_if; cbn; try done; repeat case_if; cbn; try done.
        all: destruct b; cbn in *; [|by case_if]. all: rewrite ?take_nil in *; cbn in *; lia. }
      destruct (readSize b (b2z b0 - 183)) eqn:E1; [| |by destruct (Hrs (b2z b0 - 183))].
      all: destruct (readSize b (b2z b0 - 247)) eqn:E2; [| |by destruct (Hrs (b2z b0 - 247))].
      all: repeat (case_if in Ek; cbn [mbind outcome_bind] in Ek; try done).
Qed.

Lemma AppendUint64_rlp b i : is_u64 i → AppendUint64 b i = b ++ rlp_uint i.
Proof.
  intros Hi. pose proof (writeUint64_spec getEncBuffer i Hi) as H.
  apply (f_equal str) in H. unfold append_str in H. cbn in H. rewrite <- H.
  unfold AppendUint64, writeUint64, putint. by repeat case_if.
Qed.

Lemma zlen_rlp_uint i : is_u64 i → zlen (rlp_uint i) = IntSize i.
Proof.
  intros Hi. assert (0 ≤ i) by (unfold is_u64 in *; lia). unfold IntSize, rlp_uint.
  destruct (decide (i = 0)) as [->|]; [done|]. case_if.
  - rewrite be_min_single by lia. cbn. rewrite b2z_z2b_small by lia. case_if; [done|lia].
  - rewrite intsize_min_len by (done || lia). destruct (decide (i < 256)).
    + unfold rlp_str. rewrite (be_min_single i) by lia.
      rewrite b2z_z2b_small by lia. case_if; [lia|]. by rewrite (min_len_range 0) by pow8_lia.
    + pose proof (zlen_be_min i) as Hl. pose proof (min_len_u64 i Hi).
      destruct (be_min_long i ltac:(lia)) as (b0 & b1 & l & E). rewrite E in *. cbn [rlp_str].
      rewrite zlen_app, Hl, rlp_head_small by lia. change (zlen [_]) with 1. lia.
Qed.

(** ** Writing to an [io.Writer] that takes everything *)

Definition append_writer (w b : bytes) : bytes * Z * option rlpError := (w ++ b, zlen b, None).

Lemma writeTo_loop_append s hs strpos w :
  0 ≤ strpos → heads_ok strpos (zlen s) hs →
  ∃ p, writeTo_loop append_writer s hs strpos w = (p.1, Ok p.2) ∧
       strpos ≤ p.2 ≤ zlen s ∧
       p.1 ++ drop (Z.to_nat p.2) s = w ++ merge strpos (drop (Z.to_nat strpos) s) hs.
Proof.
  revert strpos w. induction hs as [|h hs IH]; intros strpos w H0 Hok; cbn [writeTo_loop merge].
  - exists (w, strpos). cbn in *. split_and!; [done|lia|lia|done].
  - destruct Hok as [Hlo Hok]. pose proof (heads_ok_le _ _ _ Hok).
    rewrite drop_drop. replace (Z.to_nat strpos + Z.to_nat (offset h - strpos))%nat with (Z.to_nat (offset h)) by lia.
    case_if.
    + rewrite slice_ok by lia. cbn [append_writer].
      set (piece := take _ _). assert (Hp : strpos + zlen piece = offset h).
      { unfold piece, zlen in *. rewrite length_take, length_drop. lia. }
      destruct (IH (offset h) ((w ++ piece) ++ encode_head h)) as (p & E & Hb & Hm); [lia|done|].
      exists p. rewrite Hp. split_and!; [done|lia|lia|]. by rewrite Hm, <- !app_assoc.
    + assert (strpos = offset h) as -> by lia.
      destruct (IH (offset h) (w ++ encode_head h)) as (p & E & Hb & Hm); [lia|done|].
      exists p. rewrite Z.sub_diag. cbn. split_and!; [done|lia|lia|]. by rewrite Hm, <- !app_assoc.
Qed.

Lemma writeTo_append buf w :
  heads_ok 0 (zlen (str buf)) (lheads buf) →
  writeTo append_writer buf w = (w ++ merge 0 (str buf) (lheads buf), Ok tt).
Proof.
  intros Hok. unfold writeTo.
  destruct (writeTo_loop_append (str buf) (lheads buf) 0 w) as ([w' pos] & -> & Hb & Hm); [lia|done|].
  cbn in *. rewrite drop_0 in Hm. rewrite <- Hm. case_if.
  - rewrite slice_ok by lia. rewrite take_ge; [done|]. rewrite length_drop. unfold zlen. lia.
  - by rewrite drop_ge, app_nil_r by (unfold zlen in *; lia).
Qed.

Arguments rlp_str : simpl never.
Arguments append_str : simpl never.

(** Encoding into a byte slice appends the reference encoding. *)
Lemma Encode_writes v out w : wf_value v → ref_value v = Ok out → zlen out < 2 ^ 63 →
  Encode append_writer w v = (w ++ out, Ok tt).
Proof.
  intros Hwf Hr Hlen. destruct (write_faithful v out Hwf Hr Hlen getEncBuffer) as (s & hs & E & Hok & M).
  unfold Encode. rewrite E, writeTo_append by done. do 2 f_equal. exact M.
Qed.

(** ** Properties *)

(** C32. The encoder buffer, which keeps list headers apart from string data
    and merges them at the end, produces the recursive RLP encoding: for every
    value whose reference encoding fits a Go slice, [EncodeToBytes] returns it
    and [Encode] writes exactly it to the destination. *)
Theorem EncodeToBytes_reference (v : value) (out : bytes) :
  wf_value v → ref_value v = Ok out → zlen out < 2 ^ 63 →
  EncodeToBytes v = Ok out ∧ ∀ w, Encode append_writer w v = (w ++ out, Ok tt).
Proof.
  intros Hwf Hr Hlen. split; [|intros w; by apply Encode_writes].
  apply emits_makeBytes. by apply write_faithful.
Qed.

Definition example_value : value :=
  VStruct [VUint 1024; VSlice (Some [VBytes (Some [z2b 7]); VBigInt (Some (2 ^ 70))]); VInterface None]
          [VBigInt None; VBytes (Some (replicate 60 (z2b 1))); VPtr (z2b 0xC0) None].

Lemma EncodeToBytes_reference_witness :
  ∃ out, ref_value example_value = Ok out ∧ zlen out = 81 ∧ EncodeToBytes example_value = Ok out.
Proof.
  eexists. split; [vm_compute; reflexivity|]. split; [reflexivity|].
  apply (EncodeToBytes_reference example_value);
    [cbn; unfold is_u64; repeat split; lia | vm_compute; reflexivity | reflexivity].
Defined.

(** [Split] accepts exactly the canonical encodings: it returns kind,
    content and rest if and only if the input is the one tag for that kind and
    length, then the content, then the rest; so no second encoding of the same
    content is accepted and no slice expression goes out of range. *)
Theorem Split_canonical (b : bytes) (k : Kind) (c rest : bytes) :
  zlen b < 2 ^ 63 →
  Split b = Ok (k, c, rest) ↔
  match k with
  | KList => b = rlp_list c ++ rest
  | _ => b = rlp_str c ++ rest ∧ k = str_kind c
  end.
Proof.
  intros Hlen. rewrite Split_ok by lia. destruct (rlp_str_tag c) as [E Hc]. rewrite E.
  destruct k; [| |by rewrite rlp_list_tag, <- app_assoc; naive_solver].
  all: rewrite <- app_assoc; split; [intros [-> Hk]|by intros [-> ->]].
  all: assert (str_kind c = KByte ∨ str_kind c = KString) as Hs by
    (pose proof (str_kind_not_list c); destruct (str_kind c); naive_solver).
  - destruct Hk as (x & -> & Hx). unfold str_kind. case_if; [done|lia].
  - destruct (decide (str_kind c = KString)) as [->|Hn]; [done|]. exfalso. unfold str_kind in Hn.
    destruct c as [|x [|y c]]; try done. specialize (Hk x eq_refl). case_if in Hn; [lia|done].
Qed.

Lemma Split_canonical_witness :
  Split [z2b 0x82; z2b 0x61; z2b 0x62; z2b 0xC0] = Ok (KString, [z2b 0x61; z2b 0x62], [z2b 0xC0]).
Proof. apply (Split_canonical _ KString); [reflexivity|]. split; reflexivity. Defined.

(** Integers round trip: appending the RLP of a 64-bit integer adds
    [IntSize] bytes, [writeUint64] writes the same bytes, and [SplitUint64]
    reads the integer back, leaving what follows untouched. *)
Theorem AppendUint64_roundtrip (b rest : bytes) (i : Z) :
  is_u64 i → zlen rest < 2 ^ 63 →
  ∃ e, AppendUint64 b i = b ++ e ∧ zlen e = IntSize i ∧
       writeUint64 getEncBuffer i = append_str getEncBuffer e ∧
       SplitUint64 (e ++ rest) = Ok (i, rest).
Proof.
  intros Hi Hr. exists (rlp_uint i).
  pose proof (zlen_rlp_uint i Hi) as Hz. assert (IntSize i ≤ 9).
  { unfold IntSize. case_if; [lia|]. rewrite intsize_min_len by (done || lia).
    pose proof (min_len_u64 i Hi). lia. }
  split_and!; [by apply AppendUint64_rlp|done|by apply writeUint64_spec|].
  apply SplitUint64_ok; [rewrite zlen_app; lia|done].
Qed.

Lemma AppendUint64_roundtrip_witness :
  ∃ e, AppendUint64 [z2b 9] (2 ^ 63) = [z2b 9] ++ e ∧ zlen e = IntSize (2 ^ 63) ∧
       writeUint64 getEncBuffer (2 ^ 63) = append_str getEncBuffer e ∧
       SplitUint64 (e ++ [z2b 1]) = Ok (2 ^ 63, [z2b 1]).
Proof. apply (AppendUint64_roundtrip [z2b 9] [z2b 1] (2 ^ 63)); [unfold is_u64; lia|reflexivity]. Defined.

(** [CountValues] terminates without panicking on every input, and on a
    concatenation of canonical values it returns how many there are. *)
Theorem CountValues_correct (b : bytes) :
  zlen b < 2 ^ 63 →
  CountValues b ≠ Panic ∧
  ∀ vs, Forall one_value vs → b = concat vs → CountValues b = Ok (zlen vs).
Proof.
  intros Hlen. split.
  - apply CountValues_loop_total; lia.
  - intros vs Hvs ->. unfold CountValues. rewrite CountValues_loop_count by (try done; lia). done.
Qed.

Lemma CountValues_correct_witness :
  CountValues [z2b 0xC0; z2b 5; z2b 0x82; z2b 1; z2b 2] = Ok 3.
Proof.
  apply (CountValues_correct [z2b 0xC0; z2b 5; z2b 0x82; z2b 1; z2b 2]) with
    (vs := [[z2b 0xC0]; [z2b 5]; [z2b 0x82; z2b 1; z2b 2]]); [reflexivity| |reflexivity].
  repeat apply Forall_cons_2; [exists KList, []|exists KByte, [z2b 5]|exists KString, [z2b 1; z2b 2]|].
  - split; [reflexivity|exact I].
  - split; [reflexivity|]. exists (z2b 5). split; reflexivity.
  - split; [reflexivity|]. intros x Hx. discriminate Hx.
  - apply Forall_nil_2.
Defined.
