(* ===== verification/RLPDecode.v ===== *)
(** The streaming RLP decoder: [src/go-ethereum/rlp/decode.go], reading from a
    byte slice.

    A [Stream] is the decoder's state; every operation is a computation in
    the state-and-error monad of the prelude.  The decoder [makeDecoder] picks
    for a Go type is modelled by [decode] on a description of the type
    ([rtype]).  The theorems show that a decoded value is exactly one whose
    encoding is the input, so that decoding and encoding are inverse to each
    other, and that no input makes the decoder panic or run forever. *)

From S2P Require Import Prelude RLP.

(** ** Errors *)

(** The messages of a [decodeError]; its type and context text is left out. *)
Inductive decodeMsg :=
| NonCanonicalInteger | NonCanonicalSize | ExpectedInputList | ExpectedInputString
| InputStringTooLong | InputStringTooShort | TooManyElements | TooFewElements
| WrongKindOfEmptyValue.

Inductive streamError :=
| EOL
| io_EOF
| ErrElemTooLarge
| ErrMoreThanOneValue
| errNotInList
| errNotAtEOL
| errUint256Large
| invalidBoolean (num : Z)
| wrongSize (size want : Z)
| rlpErr (e : rlpError)
| decodeError (msg : decodeMsg).

Definition wrapStreamError (err : streamError) : streamError :=
  match err with
  | rlpErr ErrCanonInt => decodeError NonCanonicalInteger
  | rlpErr ErrCanonSize => decodeError NonCanonicalSize
  | rlpErr ErrExpectedList => decodeError ExpectedInputList
  | rlpErr ErrExpectedString => decodeError ExpectedInputString
  | rlpErr errUintOverflow => decodeError InputStringTooLong
  | errNotAtEOL => decodeError TooManyElements
  | _ => err
  end.

(** ** The stream

    [input] is what the [bytes.Reader] has left; [stack] has the innermost list
    first; [kind] is [None] for Go's -1.  [uintbuf] is scratch space whose
    bytes are written before they are read, and is left out.  [maxAlloc] is no
    field of the source: it is the length from which on [make] panics. *)
Record Stream := mkStream {
  input : bytes;
  remaining : Z;
  ssize : Z;
  kinderr : option streamError;
  stack : list Z;
  kind : option Kind;
  byteval : byte;
  limited : bool;
  maxAlloc : Z
}.

Definition set_input i s := mkStream i (remaining s) (ssize s) (kinderr s) (stack s) (kind s) (byteval s) (limited s) (maxAlloc s).
Definition set_remaining n s := mkStream (input s) n (ssize s) (kinderr s) (stack s) (kind s) (byteval s) (limited s) (maxAlloc s).
Definition set_stack l s := mkStream (input s) (remaining s) (ssize s) (kinderr s) l (kind s) (byteval s) (limited s) (maxAlloc s).
Definition set_kind k s := mkStream (input s) (remaining s) (ssize s) (kinderr s) (stack s) k (byteval s) (limited s) (maxAlloc s).
Definition set_size n s := mkStream (input s) (remaining s) n (kinderr s) (stack s) (kind s) (byteval s) (limited s) (maxAlloc s).
Definition set_byteval b s := mkStream (input s) (remaining s) (ssize s) (kinderr s) (stack s) (kind s) b (limited s) (maxAlloc s).
Definition set_head k n e s := mkStream (input s) (remaining s) n e (stack s) (Some k) (byteval s) (limited s) (maxAlloc s).

Definition set_maxAlloc h s := mkStream (input s) (remaining s) (ssize s) (kinderr s) (stack s) (kind s) (byteval s) (limited s) h.

Abbreviation sm := (stm Stream streamError).

(** A computation given by its effect on the stream. *)
Definition act {A} (f : Stream → outcome streamError A * Stream) : sm A := f.
(** [s.kind = -1]. *)
Definition rearm : sm unit := fun s => (Ok tt, set_kind None s).
Definition fail {A} (e : streamError) : sm A := fun s => (Err e, s).
Definition wrap {A} (m : sm A) : sm A := fun s =>
  match m s with (Err e, s') => (Err (wrapStreamError e), s') | r => r end.

(** [make(\[\]byte, size)]. *)
Definition make_bytes (size : Z) : sm unit := fun s => (if maxAlloc s <? size then Panic else Ok tt, s).
(** No slice is longer than an [int] can say. *)
Definition maxInt : Z := 2 ^ 63 - 1.

(** [Reset] on a [bytes.Reader]: without a limit the length of the data is one. *)
Definition Reset (b : bytes) (inputLimit : Z) : Stream :=
  mkStream b (if 0 <? inputLimit then inputLimit else zlen b) 0 None [] None (z2b 0) true maxInt.

Definition NewStream (b : bytes) (inputLimit : Z) : Stream := Reset b inputLimit.
Definition NewListStream (b : bytes) (len : Z) : Stream :=
  set_size len (set_kind (Some KList) (Reset b len)).

Definition listLimit (s : Stream) : bool * Z :=
  match stack s with [] => (false, 0) | limit :: _ => (true, limit) end.

(** [s.stack[len(s.stack)-1] = v]. *)
Definition set_top (v : Z) (s : Stream) : Stream :=
  match stack s with [] => s | _ :: st => set_stack (u64 v :: st) s end.

Definition willRead (n : Z) : sm unit := fun s =>
  let s := set_kind None s in
  let '(inList, limit) := listLimit s in
  if inList && (limit <? n) then (Err ErrElemTooLarge, s) else
  let s := if inList then set_top (limit - n) s else s in
  if limited s then
    if remaining s <? n then (Err (rlpErr ErrValueTooLarge), s)
    else (Ok tt, set_remaining (remaining s - n) s)
  else (Ok tt, s).

Definition readByte : sm byte :=
  _ ← willRead 1;
  act (fun s => match input s with
                | [] => (Err (rlpErr ErrUnexpectedEOF), s)
                | b :: i => (Ok b, set_input i s)
                end).

(** Fills a buffer of [n] bytes; a short read leaves the reader at its end. *)
Definition readFull (n : Z) : sm bytes :=
  _ ← willRead n;
  act (fun s =>
    if n <=? zlen (input s)
    then (Ok (take (Z.to_nat n) (input s)), set_input (drop (Z.to_nat n) (input s)) s)
    else (Err (rlpErr ErrUnexpectedEOF), set_input [] s)).

Definition readUint (size : Z) : sm Z :=
  if size =? 0 then (_ ← rearm; mret 0)
  else if size =? 1 then (b ← readByte; mret (b2z b))
  else if 8 <? size then pure_out Panic
  else buffer ← readFull size;
       match buffer with
       | b :: _ => if b2z b =? 0 then fail (rlpErr ErrCanonSize) else mret (be_value buffer)
       | [] => pure_out Panic
       end.

(** The size behind a tag that carries its length. *)
Definition readLongSize (k : Kind) (len : Z) : sm (Kind * Z * option streamError) := fun s =>
  match readUint len s with
  | (Ok size, s) => (Ok (k, size, if size <? 56 then Some (rlpErr ErrCanonSize) else None), s)
  | (Err e, s) => (Ok (k, 0, Some e), s)
  | (Panic, s) => (Panic, s)
  end.

(** [readKind] returns the kind, the size and an error together. *)
Definition Stream_readKind : sm (Kind * Z * option streamError) := fun s =>
  match readByte s with
  | (Err e, s) =>
      let e := match stack s, e with
               | [], rlpErr ErrUnexpectedEOF | [], rlpErr ErrValueTooLarge => io_EOF
               | _, _ => e
               end in
      (Ok (KByte, 0, Some e), s)
  | (Panic, s) => (Panic, s)
  | (Ok b, s) =>
      let s := set_byteval (z2b 0) s in
      let v := b2z b in
      if v <? 0x80 then (Ok (KByte, 0, None), set_byteval b s)
      else if v <? 0xB8 then (Ok (KString, v - 0x80, None), s)
      else if v <? 0xC0 then readLongSize KString (v - 0xB7) s
      else if v <? 0xF8 then (Ok (KList, v - 0xC0, None), s)
      else readLongSize KList (v - 0xF7) s
  end.

(** [Kind] as a computation: an error is the third component Go returns. *)
Definition Stream_Kind : sm (Kind * Z) := fun s =>
  let result k size e s :=
    match e with None => (Ok (k, size), s) | Some e => (Err e, s) end in
  match kind s with
  | Some k => result k (ssize s) (kinderr s) s
  | None =>
      let '(inList, limit) := listLimit s in
      if inList && (limit =? 0) then (Err EOL, s) else
      match Stream_readKind s with
      | (Ok (k, size, e), s) =>
          let e := match e with
                   | Some _ => e
                   | None =>
                       if inList && (limit <? size) then Some ErrElemTooLarge
                       else if limited s && (remaining s <? size) then Some (rlpErr ErrValueTooLarge)
                       else None
                   end in
          result k size e (set_head k size e s)
      | (Err e, s) => (Err e, s)
      | (Panic, s) => (Panic, s)
      end
  end.

(** ** Reading values *)

(** A string of one byte below 0x80 must be encoded as the byte itself. *)
Definition single_byte (size : Z) (b : bytes) : bool :=
  (size =? 1) && match b with c :: _ => b2z c <? 128 | [] => false end.

Definition get_byteval : sm byte := fun s => (Ok (byteval s), s).

Definition Stream_Bytes : sm bytes :=
  '(k, size) ← Stream_Kind;
  match k with
  | KByte => _ ← rearm; b ← get_byteval; mret [b]
  | KString =>
      _ ← make_bytes size;
      b ← readFull size;
      if single_byte size b then fail (rlpErr ErrCanonSize) else mret b
  | KList => fail (rlpErr ErrExpectedString)
  end.

(** [ReadBytes] into a buffer of [want] bytes. *)
Definition ReadBytes (want : Z) : sm bytes :=
  '(k, size) ← Stream_Kind;
  match k with
  | KByte => if negb (want =? 1) then fail (wrongSize 1 want)
             else b ← get_byteval; _ ← rearm; mret [b]
  | KString =>
      if negb (want =? size) then fail (wrongSize size want) else
      b ← readFull size;
      if single_byte size b then fail (rlpErr ErrCanonSize) else mret b
  | KList => fail (rlpErr ErrExpectedString)
  end.

Definition Raw : sm bytes :=
  '(k, size) ← Stream_Kind;
  match k with
  | KByte => _ ← rearm; b ← get_byteval; mret [b]
  | KString => _ ← make_bytes (u64 (headsize size + size)); b ← readFull size; mret (puthead 0x80 0xB7 size ++ b)
  | KList => _ ← make_bytes (u64 (headsize size + size)); b ← readFull size; mret (puthead 0xC0 0xF7 size ++ b)
  end.

(** [uint]: an integer of at most [maxbits] bits. *)
Definition Stream_uint (maxbits : Z) : sm Z :=
  '(k, size) ← Stream_Kind;
  match k with
  | KByte =>
      b ← get_byteval;
      if b2z b =? 0 then fail (rlpErr ErrCanonInt) else _ ← rearm; mret (b2z b)
  | KString =>
      if maxbits / 8 <? size then fail (rlpErr errUintOverflow) else
      act (fun s =>
        match readUint (size mod 256) s with
        | (Err (rlpErr ErrCanonSize), s) => (Err (rlpErr ErrCanonInt), s)
        | (Ok v, s) => if (0 <? size) && (v <? 128)
                       then (Err (rlpErr ErrCanonSize), s) else (Ok v, s)
        | r => r
        end)
  | KList => fail (rlpErr ErrExpectedString)
  end.

Definition Stream_Bool : sm bool :=
  num ← Stream_uint 8;
  if num =? 0 then mret false else if num =? 1 then mret true else fail (invalidBoolean num).

Definition Stream_List : sm Z :=
  '(k, size) ← Stream_Kind;
  match k with
  | KList => act (fun s =>
      let '(inList, limit) := listLimit s in
      let s := if inList then set_top (limit - size) s else s in
      (Ok size, set_size 0 (set_kind None (set_stack (size :: stack s) s))))
  | _ => fail (rlpErr ErrExpectedList)
  end.

Definition ListEnd : sm unit := fun s =>
  match stack s with
  | [] => (Err errNotInList, s)
  | limit :: st =>
      if 0 <? limit then (Err errNotAtEOL, s)
      else (Ok tt, set_size 0 (set_kind None (set_stack st s)))
  end.

Definition MoreDataInList (s : Stream) : bool := 0 <? snd (listLimit s).

(** The bytes of an integer: the common part of [decodeBigInt] and
    [ReadUint256], which differ on strings of more than 32 bytes. *)
Definition read_integer (large : Z → sm bytes) : sm Z :=
  '(k, size) ← Stream_Kind;
  buffer ← match k with
           | KList => fail (rlpErr ErrExpectedString)
           | KByte => b ← get_byteval; _ ← rearm; mret [b]
           | KString =>
               if size =? 0 then (_ ← rearm; mret [])
               else if size <=? 32 then
                 b ← readFull size;
                 if single_byte size b then fail (rlpErr ErrCanonSize) else mret b
               else large size
           end;
  match buffer with
  | b :: _ => if b2z b =? 0 then fail (rlpErr ErrCanonInt) else mret (be_value buffer)
  | [] => mret 0
  end.

Definition Stream_decodeBigInt : sm Z := read_integer (fun size => _ ← make_bytes size; readFull size).
Definition ReadUint256 : sm Z := read_integer (fun _ => fail errUint256Large).

(** ** Decoders by type *)

(** Go types as [makeDecoder] sees them.  A pointer type carries the byte its
    nil is encoded as; a [TNilPtr] is a pointer field with a nil tag. *)
#[local] Set Warnings "-register-all".
Inductive rtype :=
| TBigInt
| TUint256
| TUint (bits : Z)
| TBool
| TString
| TBytes
| TByteArray (n : Z)
| TPtr (nilEncoding : byte) (t : rtype)
| TNilPtr (nilKind : Kind) (t : rtype)
| TSlice (t : rtype)
| TStruct (required optional : list rtype).

Definition nil_byte (nilKind : Kind) : byte :=
  match nilKind with KList => z2b 0xC0 | _ => z2b 0x80 end.

(** [reflect.Zero]. *)
Fixpoint zero (t : rtype) : value :=
  match t with
  | TBigInt => VBigInt None
  | TUint256 => VUint256 None
  | TUint _ => VUint 0
  | TBool => VBool false
  | TString => VString []
  | TBytes => VBytes None
  | TByteArray n => VByteArray (replicate (Z.to_nat n) (z2b 0))
  | TPtr e _ => VPtr e None
  | TNilPtr k _ => VPtr (nil_byte k) None
  | TSlice _ => VSlice None
  | TStruct r o => VStruct (map zero r) (map zero o)
  end.

Definition decodeByteArray (n : Z) : sm bytes :=
  '(k, size) ← Stream_Kind;
  match k with
  | KByte =>
      if n =? 0 then fail (decodeError InputStringTooLong)
      else if 1 <? n then fail (decodeError InputStringTooShort)
      else b ← get_byteval; _ ← rearm; mret [b]
  | KString =>
      if n <? size then fail (decodeError InputStringTooLong)
      else if size <? n then fail (decodeError InputStringTooShort)
      else b ← readFull n;
           if single_byte size b then fail (wrapStreamError (rlpErr ErrCanonSize)) else mret b
  | KList => fail (wrapStreamError (rlpErr ErrExpectedString))
  end.

Section Lists.
Context (elemdec : sm value).

(** The elements up to the end of the list.  Every element takes a byte of
    input, so a bound of one more than the input's length is never reached. *)
Fixpoint decodeSliceElems (fuel : nat) : sm (list value) := fun s =>
  match fuel with
  | O => (Panic, s)
  | S fuel' =>
      match elemdec s with
      | (Ok v, s) => (vs ← decodeSliceElems fuel'; mret (v :: vs)) s
      | (Err EOL, s) => (Ok [], s)
      | (Err e, s) => (Err e, s)
      | (Panic, s) => (Panic, s)
      end
  end.

Definition decodeListSlice : sm (list value) :=
  size ← wrap Stream_List;
  if size =? 0 then (_ ← ListEnd; mret [])
  else l ← act (fun s => decodeSliceElems (S (length (input s))) s);
       _ ← ListEnd; mret l.
End Lists.

(** A struct field: its decoder, and its zero value when it is optional. *)
Definition field : Type := sm value * option value.

Definition zeroFields (fields : list field) : list value := omap snd fields.

Fixpoint decodeFields (fields : list field) : sm (list value) := fun s =>
  match fields with
  | [] => (Ok [], s)
  | f :: fields' =>
      match f.1 s with
      | (Ok v, s) => (vs ← decodeFields fields'; mret (v :: vs)) s
      | (Err EOL, s) =>
          match f.2 with
          | Some _ => (Ok (zeroFields fields), s)
          | None => (Err (decodeError TooFewElements), s)
          end
      | (Err e, s) => (Err e, s)
      | (Panic, s) => (Panic, s)
      end
  end.

Definition structDecoder (fields : list field) : sm (list value) :=
  _ ← wrap Stream_List;
  vs ← decodeFields fields;
  _ ← wrap ListEnd;
  mret vs.

(** [makeNilPtrDecoder]: an empty value of the right kind is a nil pointer. *)
Definition nilPtrDecoder (nilKind : Kind) (dec : sm value) : sm (option value) :=
  '(k, size) ← wrap Stream_Kind;
  if negb (bool_decide (k = KByte)) && (size =? 0) then
    if bool_decide (k = nilKind) then (_ ← rearm; mret None)
    else fail (decodeError WrongKindOfEmptyValue)
  else v ← dec; mret (Some v).

Fixpoint decode (t : rtype) : sm value :=
  match t with
  | TBigInt => i ← wrap Stream_decodeBigInt; mret (VBigInt (Some i))
  | TUint256 => i ← wrap ReadUint256; mret (VUint256 (Some i))
  | TUint bits => i ← wrap (Stream_uint bits); mret (VUint i)
  | TBool => b ← wrap Stream_Bool; mret (VBool b)
  | TString => b ← wrap Stream_Bytes; mret (VString b)
  | TBytes => b ← wrap Stream_Bytes; mret (VBytes (Some b))
  | TByteArray n => b ← decodeByteArray n; mret (VByteArray b)
  | TPtr e t' => v ← decode t'; mret (VPtr e (Some v))
  | TNilPtr k t' => p ← nilPtrDecoder k (decode t'); mret (VPtr (nil_byte k) p)
  | TSlice t' => l ← decodeListSlice (decode t'); mret (VSlice (Some l))
  | TStruct req opt =>
      vs ← structDecoder (map (fun t => (decode t, None)) req ++
                          map (fun t => (decode t, Some (zero t))) opt);
      mret (VStruct (take (length req) vs) (drop (length req) vs))
  end.

(** [DecodeBytes] where [make] panics on more than [h] bytes. *)
Definition DecodeWithin (h : Z) (b : bytes) (t : rtype) : outcome streamError value :=
  match decode t (set_maxAlloc h (Reset b (zlen b))) with
  | (Ok v, s) => if 0 <? zlen (input s) then Err ErrMoreThanOneValue else Ok v
  | (Err e, _) => Err e
  | (Panic, _) => Panic
  end.
Definition DecodeBytes (b : bytes) (t : rtype) : outcome streamError value := DecodeWithin maxInt b t.

(** ** Positions

    Between two values the stream is described by its input and list limits:
    [at_pos].  Limits are subtracted modulo 2^64, as the code does it. *)

Record based (s : Stream) (inp : bytes) (st : list Z) : Prop := Based {
  based_input : input s = inp;
  based_remaining : remaining s = zlen inp;
  based_stack : stack s = st;
  based_limited : limited s = true;
  based_alloc : zlen inp ≤ maxAlloc s
}.

Definition at_pos (s : Stream) (inp : bytes) (st : list Z) : Prop :=
  based s inp st ∧ kind s = None.

(** The head of a value has been read: what is left is its content. *)
Record at_value (s : Stream) (k : Kind) (n : Z) (tail : bytes) (st : list Z) : Prop := AtValue {
  value_based : based s tail st;
  value_kind : kind s = Some k;
  value_size : ssize s = n;
  value_err : kinderr s = None
}.

Definition sub_top (st : list Z) (n : Z) : list Z :=
  match st with [] => [] | a :: st' => u64 (a - n) :: st' end.

Definition fits (st : list Z) (n : Z) : Prop :=
  match st with [] => True | a :: _ => n ≤ a end.

Definition limits (st : list Z) : Prop := Forall is_u64 st.

Lemma limits_sub_top st n : limits st → limits (sub_top st n).
Proof. destruct 1; cbn; constructor; auto with geth. Qed.

Lemma sub_top_add st a b : sub_top (sub_top st a) b = sub_top st (a + b).
Proof.
  destruct st as [|l st]; cbn; [done|]. f_equal. unfold u64.
  rewrite Zminus_mod_idemp_l. f_equal. lia.
Qed.

Lemma sub_top_0 st : limits st → sub_top st 0 = st.
Proof. destruct 1 as [|a st Ha]; cbn; [done|]. by rewrite Z.sub_0_r, u64_small. Qed.

Lemma fits_sub_top st a b : limits st → 0 ≤ a → 0 ≤ b → fits st (a + b) → fits (sub_top st a) b.
Proof.
  destruct 1 as [|l st Hl]; cbn; [done|]. intros. unfold is_u64 in Hl.
  rewrite u64_small by (unfold is_u64; lia). lia.
Qed.

Lemma fits_le st a b : a ≤ b → fits st b → fits st a.
Proof. destruct st; cbn; lia. Qed.

#[export] Hint Resolve limits_sub_top : geth.

Lemma willRead_based s inp st n : based s inp st → 0 ≤ n →
  (∃ s', willRead n s = (Ok tt, s') ∧ fits st n ∧ n ≤ zlen inp ∧ input s' = inp ∧
         remaining s' = zlen inp - n ∧ stack s' = sub_top st n ∧ limited s' = true ∧
         kind s' = None ∧ maxAlloc s' = maxAlloc s) ∨
  (∃ e s', willRead n s = (Err e, s') ∧ e ≠ EOL ∧ ¬ (fits st n ∧ n ≤ zlen inp)).
Proof.
  intros [Hi Hr Hs Hl Ha] Hn. unfold willRead, listLimit, set_top. cbn. rewrite Hs.
  destruct st as [|a st]; cbn.
  - rewrite Hl, Hr. case_if; [right; eexists _, _; split; [done|]; split; [done|lia]|].
    left. eexists. split; [done|]. cbn. auto 9.
  - destruct (a <? n) eqn:Ea; zbool; cbn.
    { right. eexists _, _. split; [done|]. split; [done|lia]. }
    rewrite ?Hs, Hl. cbn. rewrite ?Hs, Hr. cbn.
    case_if; [right; eexists _, _; split; [done|]; split; [done|lia]|].
    left. eexists. split; [done|]. cbn. auto 9.
Qed.

Lemma readFull_ok s inp st n : based s inp st → 0 ≤ n →
  (∃ c rest s', readFull n s = (Ok c, s') ∧ inp = c ++ rest ∧ zlen c = n ∧ fits st n ∧
                at_pos s' rest (sub_top st n)) ∨
  (∃ e s', readFull n s = (Err e, s') ∧ e ≠ EOL ∧ ¬ (fits st n ∧ n ≤ zlen inp)).
Proof.
  intros Hb Hn. unfold readFull. unfold mbind, stm_bind.
  destruct (willRead_based s inp st n Hb Hn) as
    [(s' & -> & Hf & Hle & Hi & Hr & Hs & Hl & Hk & Ha)|(e & s' & -> & Hne & Hn')].
  - left. unfold act. rewrite Hi. rewrite (proj2 (Z.leb_le n (zlen inp))) by done.
    destruct (take_zlen inp n) as (c & rest & Einp & Hc & Ec); [lia|].
    exists c, rest. eexists. rewrite <- Ec. split; [done|]. split_and!; try done.
    replace (drop (Z.to_nat n) inp) with rest.
    + pose proof (based_alloc _ _ _ Hb) as Hal. rewrite Einp, zlen_app in Hal. pose proof (zlen_nonneg c).
      split; [|done]. split; cbn; try done; [rewrite Hr, Einp, zlen_app; lia|lia].
    + rewrite Einp. replace (Z.to_nat n) with (length c) by (unfold zlen in Hc; lia).
      by rewrite drop_app_length.
  - right. eexists _, _. done.
Qed.

Lemma readFull_complete s c rest st : based s (c ++ rest) st → fits st (zlen c) →
  ∃ s', readFull (zlen c) s = (Ok c, s') ∧ at_pos s' rest (sub_top st (zlen c)).
Proof.
  intros Hb Hf. pose proof (zlen_nonneg c). pose proof (zlen_nonneg rest).
  destruct (readFull_ok s _ st (zlen c) Hb) as [(c' & rest' & s' & E & Einp & Hl & _ & Hp)|H']; [done| |].
  - apply app_inj_1 in Einp as [<- <-]; [by eauto|]. unfold zlen in Hl. lia.
  - destruct H' as (e & s' & _ & _ & []). split; [done|]. rewrite zlen_app. lia.
Qed.

(** [readByte] is a full read of one byte. *)
Lemma readByte_ok s inp st : based s inp st →
  (∃ b rest s', readByte s = (Ok b, s') ∧ inp = b :: rest ∧ fits st 1 ∧ at_pos s' rest (sub_top st 1)) ∨
  (∃ e s', readByte s = (Err e, s') ∧ e ≠ EOL ∧ ¬ (fits st 1 ∧ 1 ≤ zlen inp)).
Proof.
  intros Hb. unfold readByte. unfold mbind, stm_bind.
  destruct (willRead_based s inp st 1 Hb) as
    [(s' & -> & Hf & Hle & Hi & Hr & Hs & Hl & Hk & Ha)|(e & s' & -> & Hne & Hn')]; [lia| |].
  - left. unfold act. rewrite Hi. destruct inp as [|b rest]; [rewrite zlen_nil in Hle; lia|].
    eexists b, rest, _. split; [done|]. split_and!; try done.
    pose proof (based_alloc _ _ _ Hb) as Hal. rewrite zlen_cons in Hal.
    split; [|done]. split; cbn; try done; [rewrite Hr, zlen_cons; lia|lia].
  - right. eauto.
Qed.

Lemma readByte_complete s b rest st : based s (b :: rest) st → fits st 1 →
  ∃ s', readByte s = (Ok b, s') ∧ at_pos s' rest (sub_top st 1).
Proof.
  intros Hb Hf. destruct (readByte_ok s _ st Hb) as [(b' & rest' & s' & E & [= <- <-] & _ & Hp)|H']; [by eauto|].
  destruct H' as (e & s' & _ & _ & []). split; [done|]. rewrite zlen_cons.
  pose proof (zlen_nonneg rest). lia.
Qed.

(** [readUint] reads [n] bytes without a leading zero. *)
Lemma readUint_ok s inp st n : based s inp st → 1 ≤ n ≤ 8 →
  (∃ c rest s', readUint n s = (Ok (be_value c), s') ∧ inp = c ++ rest ∧ zlen c = n ∧ fits st n ∧
                (1 < n → ∃ b l, c = b :: l ∧ b2z b ≠ 0) ∧ at_pos s' rest (sub_top st n)) ∨
  (∃ e s', readUint n s = (Err e, s') ∧ e ≠ EOL).
Proof.
  intros Hb Hn. unfold readUint.
  rewrite (proj2 (Z.eqb_neq n 0)), (proj2 (Z.ltb_ge 8 n)) by lia.
  destruct (n =? 1) eqn:E1; zbool.
  - subst n. unfold mbind, stm_bind.
    destruct (readByte_ok s inp st Hb) as [(b & rest & s' & -> & -> & Hf & Hp)|(e & s' & -> & Hne & _)]; [left|by eauto].
    exists [b], rest, s'. split_and!; try done.
  - unfold mbind, stm_bind.
    destruct (readFull_ok s inp st n Hb) as [(c & rest & s' & -> & -> & Hz & Hf & Hp)|(e & s' & -> & Hne & _)]; [lia| |by eauto].
    destruct c as [|b l]; [rewrite zlen_nil in Hz; lia|].
    case_if; [right; by eexists _, _|]. left. exists (b :: l), rest, s'. split_and!; try done. eauto.
Qed.

Lemma readUint_complete s b l rest st :
  based s ((b :: l) ++ rest) st → zlen (b :: l) ≤ 8 → (1 < zlen (b :: l) → b2z b ≠ 0) → fits st (zlen (b :: l)) →
  ∃ s', readUint (zlen (b :: l)) s = (Ok (be_value (b :: l)), s') ∧ at_pos s' rest (sub_top st (zlen (b :: l))).
Proof.
  intros Hb Hl Hnz Hf. pose proof (zlen_nonneg l). unfold readUint.
  rewrite (proj2 (Z.eqb_neq _ 0)), (proj2 (Z.ltb_ge 8 _)) by (rewrite ?zlen_cons in *; lia).
  unfold mbind, stm_bind. destruct (zlen (b :: l) =? 1) eqn:E1; zbool.
  - destruct l as [|? l]; [|rewrite !zlen_cons in E1; pose proof (zlen_nonneg l); lia].
    destruct (readByte_complete s b rest st Hb Hf) as (s' & -> & Hp). by exists s'.
  - destruct (readFull_complete s (b :: l) rest st Hb Hf) as (s' & -> & Hp). exists s'. split; [|done].
    rewrite (proj2 (Z.eqb_neq (b2z b) 0)); [done|]. apply Hnz. rewrite zlen_cons in *. lia.
Qed.

(** ** Heads *)

(** The bytes that announce a value of kind [k] and size [n]; a single byte is
    its own head. *)
Definition is_head (k : Kind) (n : Z) (tg : bytes) (b : byte) : Prop :=
  match k with
  | KByte => n = 0 ∧ tg = [b] ∧ b2z b < 128
  | _ => tg = tag_of k n ∧ is_u64 n
  end.

Definition long_tag (k : Kind) : Z := match k with KList => 0xF7 | _ => 0xB7 end.

Lemma tag_of_long k n : k ≠ KByte → 56 ≤ n →
  tag_of k n = z2b (long_tag k + Z.of_nat (min_len n)) :: be_min n.
Proof. destruct k; [done| |]; intros _ ?; cbn [tag_of long_tag]; by rewrite rlp_head_large. Qed.

Lemma tag_of_short k n : k ≠ KByte → n < 56 →
  tag_of k n = [z2b ((match k with KList => 0xC0 | _ => 0x80 end) + n)].
Proof. destruct k; [done| |]; intros _ ?; cbn [tag_of]; by rewrite rlp_head_small. Qed.

Lemma readLongSize_ok k b s inp st : k ≠ KByte → based s inp st → 1 ≤ b2z b - long_tag k ≤ 8 →
  (∃ n rest c s', readLongSize k (b2z b - long_tag k) s = (Ok (k, n, None), s') ∧ inp = c ++ rest ∧
     b :: c = tag_of k n ∧ is_u64 n ∧ fits st (zlen c) ∧ at_pos s' rest (sub_top st (zlen c))) ∨
  (∃ n e s', readLongSize k (b2z b - long_tag k) s = (Ok (k, n, Some e), s') ∧ e ≠ EOL).
Proof.
  intros Hk Hb Hn. unfold readLongSize.
  destruct (readUint_ok s inp st _ Hb Hn) as [(c & rest & s' & -> & -> & Hz & Hf & Hnz & Hp)|(e & s' & -> & ?)]; [|right; by eauto].
  case_if; [right; by eexists _, _, _|]. left. exists (be_value c), rest, c, s'.
  rewrite Hz. split_and!; try done.
  - destruct c as [|c0 c]; [rewrite zlen_nil in Hz; lia|].
    assert (Hc0 : b2z c0 ≠ 0).
    { destruct (decide (1 < b2z b - long_tag k)) as [Hl|Hl].
      - destruct (Hnz Hl) as (? & ? & [= -> ->] & ?). done.
      - rewrite zlen_cons in Hz. destruct c as [|? c]; [|rewrite zlen_cons in Hz; pose proof (zlen_nonneg c); lia].
        unfold be_value in *. cbn in *. lia. }
    rewrite tag_of_long by done. rewrite be_min_be_value by done. f_equal.
    pose proof (zlen_be_min (be_value (c0 :: c))) as E. rewrite be_min_be_value in E by done.
    rewrite <- E, Hz. replace (long_tag k + (b2z b - long_tag k)) with (b2z b) by lia. by rewrite z2b_b2z.
  - pose proof (be_value_nonneg c). pose proof (be_value_lt c) as Hlt. split; [done|].
    eapply Z.lt_le_trans; [exact Hlt|]. apply Z.pow_le_mono_r; lia.
Qed.

Lemma readLongSize_complete k n rest s st : k ≠ KByte → 56 ≤ n → is_u64 n →
  based s (be_min n ++ rest) st → fits st (zlen (be_min n)) →
  ∃ s', readLongSize k (zlen (be_min n)) s = (Ok (k, n, None), s') ∧ at_pos s' rest (sub_top st (zlen (be_min n))).
Proof.
  intros Hk Hn Hu Hb Hf. unfold readLongSize.
  assert (Hl : zlen (be_min n) ≤ 8) by (rewrite zlen_be_min; pose proof (min_len_u64 n Hu); lia).
  destruct (be_min_head n ltac:(lia)) as (b & l & E & Hb0). pose proof (be_value_be_min n ltac:(lia)) as Hv.
  rewrite E in *. destruct (readUint_complete s b l rest st Hb Hl) as (s' & -> & Hp); [done|done|].
  rewrite Hv, (proj2 (Z.ltb_ge n 56)) by lia. eauto.
Qed.

Lemma based_byteval s inp st b : based s inp st → based (set_byteval b s) inp st.
Proof. by intros [?????]. Qed.
Lemma at_pos_byteval s inp st b : at_pos s inp st → at_pos (set_byteval b s) inp st.
Proof. intros [? ?]. split; [by apply based_byteval|done]. Qed.
#[local] Hint Resolve based_byteval at_pos_byteval : core.

Lemma Stream_readKind_ok s inp st : based s inp st → limits st →
  (∃ k n tg tail s', Stream_readKind s = (Ok (k, n, None), s') ∧ inp = tg ++ tail ∧
     is_head k n tg (byteval s') ∧ at_pos s' tail (sub_top st (zlen tg))) ∨
  (∃ k n e s', Stream_readKind s = (Ok (k, n, Some e), s') ∧ e ≠ EOL).
Proof.
  intros Hb Hst. unfold Stream_readKind.
  destruct (readByte_ok s inp st Hb) as [(b & rest & s' & -> & -> & Hf & Hp)|(e & s' & -> & Hne & _)].
  2:{ right. eexists _, _, _, _. split; [done|]. destruct (stack s'); [|done]. by destruct e as [| | | | | | | | |[]|]. }
  pose proof (b2z_range b). pose proof (at_pos_byteval _ _ _ (z2b 0) Hp) as [Hb0 Hk0].
  assert (Hlong : ∀ k, k ≠ KByte → 1 ≤ b2z b - long_tag k ≤ 8 →
    (∃ k' n tg tail s'', readLongSize k (b2z b - long_tag k) (set_byteval (z2b 0) s') = (Ok (k', n, None), s'') ∧
       b :: rest = tg ++ tail ∧ is_head k' n tg (byteval s'') ∧ at_pos s'' tail (sub_top st (zlen tg))) ∨
    (∃ k' n e s'', readLongSize k (b2z b - long_tag k) (set_byteval (z2b 0) s') = (Ok (k', n, Some e), s'') ∧ e ≠ EOL)).
  { intros k Hk Hl. destruct (readLongSize_ok k b _ _ _ Hk Hb0 Hl) as
      [(n & rest' & c & s'' & -> & -> & Htg & Hu & _ & Hp')|(n & e & s'' & -> & ?)]; [left|right; by eexists _, _, _, _].
    exists k, n, (b :: c), rest', s''. split_and!; [done|done| |].
    - rewrite Htg. by destruct k.
    - rewrite sub_top_add in Hp'. by rewrite zlen_cons, (Z.add_comm (zlen c)). }
  case_if; [|case_if; [|case_if; [by apply (Hlong KString); cbn [long_tag]; [|lia]|
                         case_if; [|by apply (Hlong KList); cbn [long_tag]; [|lia]]]]];
    left; eexists _, _, [b], rest, _; (split; [done|]); (split; [done|]); (split; [|by auto]); cbn.
  - done.
  - rewrite rlp_head_small by lia. replace (128 + (b2z b - 128)) with (b2z b) by lia.
    rewrite z2b_b2z. split; [done|]. unfold is_u64; lia.
  - rewrite rlp_head_small by lia. replace (192 + (b2z b - 192)) with (b2z b) by lia.
    rewrite z2b_b2z. split; [done|]. unfold is_u64; lia.
Qed.

Lemma Stream_readKind_complete s k n tg b tail st :
  based s (tg ++ tail) st → limits st → is_head k n tg b → fits st (zlen tg) →
  ∃ s', Stream_readKind s = (Ok (k, n, None), s') ∧ at_pos s' tail (sub_top st (zlen tg)) ∧
        (k = KByte → byteval s' = b).
Proof.
  intros Hb Hst Hh Hf. unfold Stream_readKind.
  destruct (decide (k = KByte)) as [->|Hk].
  { destruct Hh as (-> & -> & Hlt). destruct (readByte_complete s b tail st Hb Hf) as (s' & -> & Hp).
    rewrite (proj2 (Z.ltb_lt _ _)) by done. eexists. split; [done|]. split; [by auto|done]. }
  assert (Htg : tg = tag_of k n ∧ is_u64 n) by (by destruct k). clear Hh. destruct Htg as [-> Hu].
  pose proof Hu as [Hu0 _].
  destruct (decide (n < 56)) as [Hn|Hn].
  - rewrite tag_of_short in * by done.
    destruct (readByte_complete s _ tail st Hb Hf) as (s' & -> & Hp).
    rewrite b2z_z2b_small by (destruct k; lia).
    destruct k; [done| |]; repeat (case_if; try lia);
      eexists; (split; [repeat f_equal; lia|]); (split; [by auto|done]).
  - pose proof (min_len_u64 n Hu). pose proof (min_len_pos n ltac:(lia)). pose proof (zlen_be_min n) as Hlen.
    rewrite tag_of_long, zlen_cons in * by (done || lia). cbn [app] in Hb.
    destruct (readByte_complete s _ (be_min n ++ tail) st Hb) as (s' & -> & Hp); [eapply fits_le; [|done]; lia|].
    rewrite b2z_z2b_small by (destruct k; cbn; lia).
    destruct (readLongSize_complete k n tail (set_byteval (z2b 0) s') (sub_top st 1)) as (s'' & E & Hp'); try done; [lia| | |].
    { apply based_byteval, Hp. }
    { apply fits_sub_top; [done|lia|lia|]. by rewrite Z.add_comm. }
    rewrite sub_top_add, Z.add_comm in Hp'.
    destruct k; [done| |]; cbn [long_tag]; repeat (case_if; try lia);
      rewrite Z.add_simpl_l, <- zlen_be_min; exists s''; (split; [done|]); (split; [done|]); done.
Qed.

(** [Kind] at the start of a value. *)
Lemma Stream_Kind_ok s inp st : at_pos s inp st → limits st → zlen inp < 2 ^ 64 →
  (∃ k n tg tail s', Stream_Kind s = (Ok (k, n), s') ∧ inp = tg ++ tail ∧ is_head k n tg (byteval s') ∧
     at_value s' k n tail (sub_top st (zlen tg)) ∧ 0 ≤ n ≤ zlen tail) ∨
  (∃ e s', Stream_Kind s = (Err e, s') ∧ e ≠ EOL) ∨
  (Stream_Kind s = (Err EOL, s) ∧ ∃ st', st = 0 :: st').
Proof.
  intros [Hb Hk] Hst Hlen. unfold Stream_Kind, listLimit. rewrite Hk, (based_stack _ _ _ Hb).
  destruct st as [|a st].
  - cbn [andb].
    destruct (Stream_readKind_ok s inp [] Hb Hst) as [(k & n & tg & tail & s' & -> & -> & Hh & [[Hi Hr Hs Hl Ha] Hk'])|(k & n & e & s' & -> & ?)];
      [|right; left; by eexists _, _].
    rewrite Hl, Hr. cbn [andb]. case_if; [right; left; by eexists _, _|].
    left. eexists k, n, tg, tail, _. split; [done|]. split; [done|]. split; [done|]. split; [by split; split|].
    split; [|done]. destruct k; cbn in Hh; [lia| |]; destruct Hh as [_ []]; done.
  - case_if; [right; right; cbn in *; subst; by eauto|]. cbn [andb] in *.
    destruct (Stream_readKind_ok s inp (a :: st) Hb Hst) as [(k & n & tg & tail & s' & -> & -> & Hh & [[Hi Hr Hs Hl Ha] Hk'])|(k & n & e & s' & -> & ?)];
      [|right; left; by eexists _, _].
    rewrite Hl, Hr. case_if; [right; left; by eexists _, _|]. cbn [andb] in *.
    case_if; [right; left; by eexists _, _|].
    left. eexists k, n, tg, tail, _. split; [done|]. split; [done|]. split; [done|]. split; [by split; split|].
    split; [|done]. destruct k; cbn in Hh; [lia| |]; destruct Hh as [_ []]; done.
Qed.

Lemma is_head_nonempty k n tg b : is_head k n tg b → 1 ≤ zlen tg.
Proof.
  destruct k; cbn; [by intros (_ & -> & _)| |]; intros [-> Hu]; by apply (zlen_rlp_head _ _ n).
Qed.

Lemma Stream_Kind_complete s k n tg b tail st :
  at_pos s (tg ++ tail) st → limits st → is_head k n tg b → n ≤ zlen tail → fits st (zlen tg + n) →
  ∃ s', Stream_Kind s = (Ok (k, n), s') ∧ at_value s' k n tail (sub_top st (zlen tg)) ∧
        (k = KByte → byteval s' = b).
Proof.
  intros [Hb Hk] Hst Hh Hn Hf. pose proof (is_head_nonempty _ _ _ _ Hh).
  assert (Hn0 : 0 ≤ n) by (destruct k; cbn in Hh; [lia| |]; destruct Hh as [_ []]; done).
  unfold Stream_Kind, listLimit. rewrite Hk, (based_stack _ _ _ Hb).
  destruct (Stream_readKind_complete s k n tg b tail st) as (s' & E & [[Hi Hr Hs Hl Ha] Hk'] & Hby); try done.
  { eapply fits_le; [|done]. lia. }
  assert (Hlim : (let '(inList, limit) := match st with [] => (false, 0) | limit :: _ => (true, limit) end in
                  inList && (limit =? 0) = false ∧ inList && (limit <? n) = false)).
  { destruct st as [|a st]; [done|]. cbn in Hf |- *. split; [apply Z.eqb_neq|apply Z.ltb_ge]; lia. }
  destruct (match st with [] => (false, 0) | limit :: _ => (true, limit) end) as [inList limit].
  destruct Hlim as [-> Hl2]. rewrite E, Hl2, Hl, Hr. cbn [andb]. case_if; [lia|].
  eexists. split; [done|]. split; [by split; split|done].
Qed.

Lemma Stream_Kind_EOL s inp st : at_pos s inp (0 :: st) → Stream_Kind s = (Err EOL, s).
Proof. intros [Hb Hk]. unfold Stream_Kind, listLimit. by rewrite Hk, (based_stack _ _ _ Hb). Qed.

(** A second call returns what the first one found. *)
Lemma Stream_Kind_cached s k n tail st : at_value s k n tail st → Stream_Kind s = (Ok (k, n), s).
Proof. intros [_ Hk Hn He]. unfold Stream_Kind. by rewrite Hk, Hn, He. Qed.

(** ** What a decoder promises

    [decodes m R]: on a stream positioned at a value, [m] returns [a] exactly
    when the input starts with an encoding [enc] of it ([R a enc]), and moves
    past it; it never panics, and reports [EOL] only at the end of a list. *)

Class decodes {A} (m : sm A) (R : A → bytes → Prop) : Prop := Decodes {
  d_sound s inp st : at_pos s inp st → limits st → zlen inp < 2 ^ 64 →
    (∃ a enc rest s', m s = (Ok a, s') ∧ R a enc ∧ inp = enc ++ rest ∧
       at_pos s' rest (sub_top st (zlen enc))) ∨
    (∃ e s', m s = (Err e, s') ∧ e ≠ EOL) ∨
    (m s = (Err EOL, s) ∧ ∃ st', st = 0 :: st');
  d_complete s a enc rest st : at_pos s (enc ++ rest) st → limits st → zlen (enc ++ rest) < 2 ^ 64 →
    R a enc → fits st (zlen enc) →
    ∃ s', m s = (Ok a, s') ∧ at_pos s' rest (sub_top st (zlen enc));
  d_EOL s inp st : at_pos s inp (0 :: st) → m s = (Err EOL, s);
  d_nonempty a enc : R a enc → 1 ≤ zlen enc;
  d_item a enc : R a enc → zlen enc < 2 ^ 64 →
    ∃ k n tg b c, enc = tg ++ c ∧ is_head k n tg b ∧ zlen c = n;
  d_cached s x s' : Stream_Kind s = (Ok x, s') → Stream_Kind s' = (Ok x, s') → m s = m s'
}.

Lemma decodes_iff {A} (m : sm A) R R' : (∀ a enc, R a enc ↔ R' a enc) → decodes m R → decodes m R'.
Proof.
  intros HR [S C E N I K]. split; [| |done|intros; by eapply N, HR|intros ? ? ?%HR; by eapply I|done].
  - intros s inp st Hp Hst Hl. destruct (S s inp st Hp Hst Hl) as [(a & enc & rest & s' & ? & HR' & ?)|H']; [left|by right].
    exists a, enc, rest, s'. split; [done|]. split; [by apply HR|done].
  - intros s a enc rest st Hp Hst Hl Ha. apply C; [done..|]. by apply HR.
Qed.

Lemma decodes_ext {A} (m m' : sm A) R : (∀ s, m' s = m s) → decodes m R → decodes m' R.
Proof.
  intros Hm [S C E N I K]. split; [| | |done|done|]; intros; rewrite ?Hm; [by apply S|by apply C|by eapply E|by eapply K].
Qed.

Lemma decodes_wrap {A} (m : sm A) R : decodes m R → decodes (wrap m) R.
Proof.
  intros [S C E N I K]. split; [| | |done|done|].
  - intros s inp st Hp Hst Hl. unfold wrap. destruct (S s inp st Hp Hst Hl) as [(a & enc & rest & s' & -> & ?)|[(e & s' & -> & He)|[-> ?]]].
    + left. exists a, enc, rest, s'. done.
    + right. left. eexists _, _. split; [done|]. by destruct e as [| | | | | | | | |[]|].
    + by right; right.
  - intros s a enc rest st Hp Hst Hl HR Hf. unfold wrap. destruct (C s a enc rest st Hp Hst Hl HR Hf) as (s' & -> & ?). eauto.
  - intros s inp st Hp. unfold wrap. by rewrite (E s inp st Hp).
  - intros s x s' H1 H2. unfold wrap. by rewrite (K s x s' H1 H2).
Qed.

(** Post-processing of a decoded value. *)
Lemma decodes_bind {A B} (m : sm A) (g : A → sm B) (f : A → outcome streamError B) R :
  (∀ a s, g a s = (f a, s)) → (∀ a, f a ≠ Panic ∧ f a ≠ Err EOL) → decodes m R →
  decodes (a ← m; g a) (fun b enc => ∃ a, f a = Ok b ∧ R a enc).
Proof.
  intros Hg Hf [S C E N I K]. split.
  - intros s inp st Hp Hst Hl. unfold mbind, stm_bind.
    destruct (S s inp st Hp Hst Hl) as [(a & enc & rest & s' & -> & HR & -> & Hp')|[(e & s' & -> & He)|[-> ?]]].
    + rewrite Hg. destruct (Hf a) as [Hp0 He0]. destruct (f a) as [b|e|] eqn:Ef; [| |done].
      * left. exists b, enc, rest, s'. split; [done|]. split; [by eauto|]. done.
      * right. left. eexists _, _. split; [done|]. congruence.
    + right. left. by eexists _, _.
    + by right; right.
  - intros s b enc rest st Hp Hst Hl (a & Ha & HR) Hfit. unfold mbind, stm_bind.
    destruct (C s a enc rest st Hp Hst Hl HR Hfit) as (s' & -> & ?). rewrite Hg, Ha. eauto.
  - intros s inp st Hp. unfold mbind, stm_bind. by rewrite (E s inp st Hp).
  - intros b enc (a & _ & HR). by eapply N.
  - intros b enc (a & _ & HR). by eapply I.
  - intros s x s' H1 H2. unfold mbind, stm_bind. by rewrite (K s x s' H1 H2).
Qed.

(** ** Strings *)

(** The content of a string value of [n] bytes is read and interpreted by [f]. *)
Definition string_case {A} (p : sm A) (f : bytes → outcome streamError A) (n : Z) : Prop :=
  ∀ s inp st, based s inp st → limits st → n ≤ zlen inp →
    (∃ a c rest s', p s = (Ok a, s') ∧ inp = c ++ rest ∧ zlen c = n ∧ content_ok KString c ∧
       f c = Ok a ∧ at_pos s' rest (sub_top st n)) ∨
    (∃ e s', p s = (Err e, s') ∧ e ≠ EOL ∧
       ∀ c rest a, inp = c ++ rest → zlen c = n → content_ok KString c → fits st n → f c ≠ Ok a).

Lemma single_byte_content n c : zlen c = n → single_byte n c = false ↔ content_ok KString c.
Proof.
  intros <-. unfold single_byte. cbn. destruct c as [|b [|b' c]].
  - done.
  - change (zlen [b] =? 1) with true. cbn. rewrite Z.ltb_ge. split; [by intros ? ? [= <-]|]. intros H. by apply H.
  - rewrite (proj2 (Z.eqb_neq _ _)); [done|]. rewrite !zlen_cons. pose proof (zlen_nonneg c). lia.
Qed.

Lemma string_case_readFull {A} (q : bytes → sm A) f n : 0 ≤ n →
  (∀ c, zlen c = n → content_ok KString c → (∀ s, q c s = (f c, s)) ∧ f c ≠ Panic ∧ f c ≠ Err EOL) →
  (∀ c, zlen c = n → ¬ content_ok KString c → ∀ s, ∃ e, q c s = (Err e, s) ∧ e ≠ EOL) →
  string_case (b ← readFull n; q b) f n.
Proof.
  intros Hn Hok Hbad s inp st Hb Hst Hle. unfold mbind, stm_bind.
  destruct (readFull_ok s inp st n Hb Hn) as [(c & rest & s' & -> & -> & Hz & Hf & Hp)|(e & s' & -> & Hne & Hno)].
  - destruct (single_byte n c) eqn:Es.
    + assert (Hc : ¬ content_ok KString c) by (intros Hc; apply (single_byte_content n c Hz) in Hc; congruence).
      destruct (Hbad c Hz Hc s') as (e & -> & He). right. exists e, s'. split; [done|]. split; [done|].
      intros c' rest' a Eq Hz' Hc'. apply app_inj_1 in Eq as [<- _]; [done|]. unfold zlen in *. lia.
    + pose proof (proj1 (single_byte_content n c Hz) Es) as Hc. destruct (Hok c Hz Hc) as (Hq & Hp1 & Hp2).
      rewrite Hq. destruct (f c) as [a|e|] eqn:Ef; [left|right|done].
      * exists a, c, rest, s'. done.
      * exists e, s'. split; [done|]. split; [congruence|].
        intros c' rest' a Eq Hz' _. apply app_inj_1 in Eq as [<- _]; [by rewrite Ef|]. unfold zlen in *. lia.
  - right. exists e, s'. split; [done|]. split; [done|]. intros c rest a _ _ _ Hf. by destruct Hno.
Qed.

Lemma string_case_ext {A} (p : sm A) f f' n : (∀ c, zlen c = n → f' c = f c) → string_case p f n → string_case p f' n.
Proof.
  intros Hf Hp s inp st Hb Hst Hle. destruct (Hp s inp st Hb Hst Hle) as [(a & c & rest & s' & E & Ei & Hz & Hc & Ha & Hs)|(e & s' & E & He & Hno)].
  - left. exists a, c, rest, s'. by rewrite Hf.
  - right. exists e, s'. split; [done|]. split; [done|]. intros c rest a Ei Hz. rewrite Hf by done. by apply (Hno c rest).
Qed.

(** Room for a string that the input has can be made. *)
Lemma string_case_make {A} (p : sm A) f n : string_case p f n → string_case (_ ← make_bytes n; p) f n.
Proof.
  intros Hp s inp st Hb Hst Hle. unfold mbind, stm_bind, make_bytes. pose proof (based_alloc _ _ _ Hb). rewrite (proj2 (Z.ltb_ge _ _)) by lia. by apply Hp.
Qed.

(** A case the code rejects before it reads. *)
Lemma string_case_reject {A} (e : streamError) (f : bytes → outcome streamError A) n :
  e ≠ EOL → (∀ c a, zlen c = n → f c ≠ Ok a) → string_case (fail e) f n.
Proof. intros He Hf s inp st _ _ _. right. exists e, s. split; [done|]. split; [done|]. intros; by apply Hf. Qed.

(** A reader of strings: [Kind], then a case on the kind. *)
Lemma decodes_string {A} (body : Kind * Z → sm A) (f : bytes → outcome streamError A) :
  (∀ s tail st, at_value s KByte 0 tail st → b2z (byteval s) < 128 →
     match f [byteval s] with
     | Ok a => ∃ s', body (KByte, 0) s = (Ok a, s') ∧ at_pos s' tail st
     | Err _ => ∃ e s', body (KByte, 0) s = (Err e, s') ∧ e ≠ EOL
     | Panic => False
     end) →
  (∀ n, is_u64 n → string_case (body (KString, n)) f n) →
  (∀ n s, ∃ e, body (KList, n) s = (Err e, s) ∧ e ≠ EOL) →
  decodes (x ← Stream_Kind; body x) (fun a enc => ∃ c, enc = rlp_str c ∧ f c = Ok a).
Proof.
  intros HB HS HL. split.
  - intros s inp st Hp Hst Hlen. unfold mbind, stm_bind.
    destruct (Stream_Kind_ok s inp st Hp Hst Hlen) as
      [(k & n & tg & tail & s1 & -> & -> & Hh & Hv & Hn)|[(e & s1 & -> & He)|[-> ?]]];
      [|right; left; by eexists _, _|by right; right].
    destruct k; cbn in Hh.
    + destruct Hh as (-> & -> & Hlt). specialize (HB s1 tail _ Hv Hlt).
      destruct (f [byteval s1]) as [a|e|] eqn:Ef; [|by right; left|done].
      destruct HB as (s' & -> & Hp'). left. exists a, [byteval s1], tail, s'. split; [done|]. split; [|done].
      exists [byteval s1]. split; [|done]. unfold rlp_str. case_if; [done|lia].
    + destruct Hh as [-> Hu].
      destruct (HS n Hu s1 tail _ (value_based _ _ _ _ _ Hv) (limits_sub_top _ _ Hst) ltac:(lia)) as
        [(a & c & rest & s' & -> & -> & Hz & Hc & Hf & Hp')|(e & s' & -> & He & _)]; [left|by right; left; eauto].
      rewrite sub_top_add in Hp'. exists a, (rlp_str c), rest, s'. split; [done|]. split; [by eauto|].
      assert (E : rlp_str c = tag_of KString (zlen c) ++ c).
      { destruct c as [|b [|b' c]]; try done. specialize (Hc b eq_refl). unfold rlp_str. case_if; [lia|done]. }
      rewrite E, zlen_app, Hz, <- app_assoc. done.
    + destruct (HL n s1) as (e & -> & He). right. left. by eexists _, _.
  - intros s a enc rest st Hp Hst Hlen (c & -> & Hf) Hfit. unfold mbind, stm_bind.
    destruct (rlp_str_tag c) as [E Hc]. pose proof (str_kind_not_list c) as Hnl.
    destruct (str_kind c) eqn:Ek; [| |done].
    + destruct Hc as (b & -> & Hb). rewrite E in *. cbn [tag_of app] in *.
      destruct (Stream_Kind_complete s KByte 0 [b] b rest st) as (s1 & -> & Hv & Hbv); try done.
      { apply zlen_nonneg. }
      specialize (Hbv eq_refl). rewrite <- Hbv in Hf, Hb.
      specialize (HB s1 rest _ Hv Hb). rewrite Hf in HB. exact HB.
    + rewrite E, <- app_assoc in *. rewrite zlen_app in Hfit.
      pose proof (zlen_nonneg c). pose proof (zlen_nonneg rest). pose proof (zlen_nonneg (tag_of KString (zlen c))).
      assert (Hu : is_u64 (zlen c)) by (rewrite !zlen_app in Hlen; unfold is_u64; lia).
      destruct (Stream_Kind_complete s KString (zlen c) (tag_of KString (zlen c)) (z2b 0) (c ++ rest) st)
        as (s1 & -> & Hv & _); try done; [rewrite zlen_app; lia|].
      destruct (HS (zlen c) Hu s1 _ _ (value_based _ _ _ _ _ Hv) (limits_sub_top _ _ Hst)) as
        [(a' & c' & rest' & s' & -> & Eq & Hz & _ & Hf' & Hp')|(e & s' & _ & _ & Hno)]; [rewrite zlen_app; lia| |].
      * apply app_inj_1 in Eq as [<- <-]; [|unfold zlen in *; lia]. rewrite sub_top_add in Hp'.
        rewrite zlen_app. exists s'. split; [congruence|done].
      * exfalso. apply (Hno c rest a); try done. by apply fits_sub_top.
  - intros s inp st Hp. unfold mbind, stm_bind. by rewrite (Stream_Kind_EOL s inp st Hp).
  - intros a enc (c & -> & _). destruct (rlp_str_tag c) as [E Hc]. rewrite E, zlen_app.
    pose proof (zlen_nonneg (tag_of (str_kind c) (zlen c))).
    destruct c as [|b c]; [by vm_compute|]. rewrite zlen_cons in *. pose proof (zlen_nonneg c). lia.
  - intros a enc (c & -> & _) Hlen. destruct (rlp_str_tag c) as [E Hc]. rewrite E in *.
    pose proof (str_kind_not_list c). destruct (str_kind c) eqn:Ek; [| |done].
    + destruct Hc as (b & -> & Hb). by exists KByte, 0, [b], b, [].
    + exists KString, (zlen c), (tag_of KString (zlen c)), (z2b 0), c. split; [done|]. split; [|done].
      split; [done|]. rewrite zlen_app in Hlen. pose proof (zlen_nonneg c).
      pose proof (zlen_nonneg (tag_of KString (zlen c))). unfold is_u64. lia.
  - intros s x s' H1 H2. unfold mbind, stm_bind. by rewrite H1, H2.
Qed.

(** The byte of a single-byte value is taken from the head. *)
Lemma take_byteval {A} (s : Stream) tail st (a : A) :
  at_value s KByte 0 tail st → at_pos (set_kind None s) tail st.
Proof. intros [[?????] ???]. by repeat split. Qed.

Ltac byte_case := intros s tail st Hv Hlt; try (eexists; split; [reflexivity|]; by eapply (take_byteval _ _ _ tt)).

Lemma Stream_Bytes_decodes : decodes Stream_Bytes (fun b enc => enc = rlp_str b).
Proof.
  eapply decodes_iff; [|apply (decodes_string _ Ok)].
  - intros b enc. split; [by intros (c & -> & [= <-])|by eauto].
  - byte_case.
  - intros n Hn. apply string_case_make, string_case_readFull; [by destruct Hn| |].
    + intros c Hz Hc. apply (single_byte_content n c Hz) in Hc. by rewrite Hc.
    + intros c Hz Hc s. destruct (single_byte n c) eqn:E; [by eexists|].
      by apply (single_byte_content n c Hz) in E.
  - intros n s. by eexists.
Qed.

Lemma decodeByteArray_decodes n : 0 ≤ n →
  decodes (decodeByteArray n) (fun a enc => enc = rlp_str a ∧ zlen a = n).
Proof.
  intros Hn0. eapply decodes_iff;
    [|apply (decodes_string _ (fun c => if zlen c =? n then Ok c else Err (decodeError InputStringTooLong)))].
  - intros a enc. split.
    + intros (c & -> & Hc). case_if in Hc; [|done]. by simplify_eq.
    + intros [-> <-]. exists a. by rewrite Z.eqb_refl.
  - intros s tail st Hv Hlt. change (zlen [byteval s]) with 1. cbv beta iota.
    destruct (1 =? n) eqn:E; zbool.
    + subst n. cbn. eexists. split; [reflexivity|]. by eapply (take_byteval _ _ _ tt).
    + repeat case_if; try (by eexists _, _); lia.
  - intros m Hm. cbv beta iota. repeat case_if.
    + apply string_case_reject; [done|]. intros c a Hz. case_if; [lia|done].
    + apply string_case_reject; [done|]. intros c a Hz. case_if; [lia|done].
    + assert (n = m) as -> by lia. apply string_case_readFull; [done| |].
      * intros c Hz Hc. apply (single_byte_content m c Hz) in Hc. rewrite Hc, Hz, Z.eqb_refl. done.
      * intros c Hz Hc s. destruct (single_byte m c) eqn:E; [by eexists|].
        by apply (single_byte_content m c Hz) in E.
  - intros m s. by eexists.
Qed.

(** An integer's bytes have no leading zero. *)
Definition int_of (c : bytes) : outcome streamError Z :=
  match c with
  | b :: _ => if b2z b =? 0 then Err (rlpErr ErrCanonInt) else Ok (be_value c)
  | [] => Ok 0
  end.

Lemma int_of_ok c i : int_of c = Ok i ↔ c = be_min i ∧ 0 ≤ i.
Proof.
  split.
  - unfold int_of. destruct c as [|b c]; [by intros [= <-]|]. case_if; [done|]. intros [= <-].
    rewrite be_min_be_value by done. split; [done|]. apply be_value_nonneg.
  - intros [-> Hi]. destruct (decide (i = 0)) as [->|]; [done|].
    destruct (be_min_head i ltac:(lia)) as (b & l & E & Hb). pose proof (be_value_be_min i Hi) as Hv.
    rewrite E in *. unfold int_of. case_if; [done|]. by rewrite Hv.
Qed.

Lemma int_of_total c : int_of c ≠ Panic ∧ int_of c ≠ Err EOL.
Proof. destruct c as [|b c]; cbn; [done|]. by case_if. Qed.

(** A zero-length integer leaves the position where it is. *)
Lemma string_case_empty {A} (a : A) f : f [] = Ok a → string_case (_ ← rearm; mret a) f 0.
Proof.
  intros Hf s inp st [Hi Hr Hs Hl Ha] Hst Hle. left. exists a, [], inp, (set_kind None s).
  split; [done|]. split_and!; try done. rewrite sub_top_0 by done. by repeat split.
Qed.

(** What [read_integer] does with the bytes. *)
Definition finish_int (buffer : bytes) : sm Z :=
  match buffer with
  | b :: _ => if b2z b =? 0 then fail (rlpErr ErrCanonInt) else mret (be_value buffer)
  | [] => mret 0
  end.
Lemma finish_int_of buffer s : finish_int buffer s = (int_of buffer, s).
Proof. destruct buffer as [|b c]; [done|]. cbn. by case_if. Qed.

(** Both readers of integers; [f] says what a string of more than 32 bytes is. *)
Lemma read_integer_decodes large f : (∀ c, zlen c ≤ 32 → f c = int_of c) →
  (∀ n, is_u64 n → 32 < n → string_case (b ← large n; finish_int b) f n) →
  decodes (read_integer large) (fun i enc => ∃ c, enc = rlp_str c ∧ f c = Ok i).
Proof.
  intros Hf Hlarge. apply (decodes_string _ f).
  - intros s tail st Hv Hlt. pose proof (take_byteval _ _ _ tt Hv). rewrite Hf by done.
    unfold int_of, mbind, stm_bind, get_byteval, rearm, mret, stm_ret. cbn.
    destruct (b2z (byteval s) =? 0); [by eexists _, _|eauto].
  - intros n Hn. pose proof Hn as [Hn0 _]. cbv beta iota. fold finish_int.
    destruct (n =? 0) eqn:E0; zbool; [subst n; apply (string_case_empty 0); by rewrite Hf|].
    destruct (n <=? 32) eqn:E32; zbool; [|apply Hlarge; [done|lia]].
    apply (string_case_ext _ int_of); [intros c Hz; apply Hf; lia|].
    assert (Hbind : ∀ s, ((b ← (b ← readFull n; if single_byte n b then fail (rlpErr ErrCanonSize) else mret b); finish_int b) : sm Z) s =
      (b ← readFull n; act (fun s => if single_byte n b then (Err (rlpErr ErrCanonSize), s) else (int_of b, s))) s).
    { intros s. unfold mbind, stm_bind. destruct (readFull n s) as [[b|e|] s']; try done.
      case_if; [done|]. unfold mret, stm_ret. by rewrite finish_int_of. }
    intros s inp st Hb Hst Hle. rewrite Hbind. revert s inp st Hb Hst Hle.
    apply string_case_readFull; [lia| |].
    + intros c Hz Hc. split; [|apply int_of_total]. intros s. unfold act.
      apply (single_byte_content n c Hz) in Hc. by rewrite Hc.
    + intros c Hz Hc s. unfold act. destruct (single_byte n c) eqn:E; [by eexists|].
      by apply (single_byte_content n c Hz) in E.
  - intros n s. by eexists.
Qed.

Lemma Stream_decodeBigInt_decodes :
  decodes Stream_decodeBigInt (fun i enc => enc = rlp_uint i ∧ 0 ≤ i).
Proof.
  eapply decodes_iff; [|apply (read_integer_decodes _ int_of); [done|]].
  - intros i enc. unfold rlp_uint. split.
    + intros (c & -> & [-> ?]%int_of_ok). done.
    + intros [-> ?]. eexists. split; [done|]. by apply int_of_ok.
  - intros n Hn H32. assert (Hs : string_case (_ ← make_bytes n; b ← readFull n; finish_int b) int_of n).
    { apply string_case_make, string_case_readFull; [lia| |].
      - intros c Hz Hc. split; [intros s; apply finish_int_of|apply int_of_total].
      - intros c Hz Hc. destruct Hc. cbn. intros b ->. change (zlen [b]) with 1 in Hz. lia. }
    intros s inp st Hb Hst Hle. destruct (Hs s inp st Hb Hst Hle) as [H|H]; [left|right];
      (unfold mbind, stm_bind in *; destruct (make_bytes n s) as [[]]; done).
Qed.

(** A 256-bit integer has at most 32 bytes. *)
Lemma be_min_256 i : 0 ≤ i → zlen (be_min i) ≤ 32 ↔ i < 2 ^ 256.
Proof.
  intros Hi. split.
  - intros Hl. pose proof (be_value_lt (be_min i)) as Hlt. rewrite be_value_be_min in Hlt by done.
    eapply Z.lt_le_trans; [exact Hlt|]. apply Z.pow_le_mono_r; lia.
  - intros Hlt. rewrite zlen_be_min. destruct (decide (i = 0)) as [->|Hi0]; [done|]. pose proof (min_len_bounds i ltac:(lia)) as [Hlo _].
    destruct (decide (Z.of_nat (min_len i) ≤ 32)); [done|]. assert (2 ^ 256 ≤ 2 ^ (8 * (Z.of_nat (min_len i) - 1))) by (apply Z.pow_le_mono_r; lia). lia.
Qed.
Lemma ReadUint256_decodes : decodes ReadUint256 (fun i enc => enc = rlp_uint i ∧ 0 ≤ i < 2 ^ 256).
Proof.
  eapply decodes_iff; [|apply (read_integer_decodes _ (fun c => if 32 <? zlen c then Err errUint256Large else int_of c))].
  - intros i enc. unfold rlp_uint. split.
    + intros (c & -> & Hc). case_if in Hc; [done|]. apply int_of_ok in Hc as [-> Hi]. split; [done|]. split; [done|]. by apply be_min_256.
    + intros [-> [Hi Hlt]]. eexists. split; [done|]. apply be_min_256 in Hlt; [|done]. rewrite (proj2 (Z.ltb_ge _ _)) by done. by apply int_of_ok.
  - intros c Hc. by rewrite (proj2 (Z.ltb_ge _ _)).
  - intros n Hn H32 s inp st Hb Hst Hle. right. exists errUint256Large, s. split; [done|]. split; [done|]. intros c rest a _ Hz. rewrite Hz, (proj2 (Z.ltb_lt _ _)) by done. done.
Qed.

(** [readUint] on a string of [n] bytes, as [uint] uses it. *)
Lemma string_case_uint n : is_u64 n → n ≤ 8 →
  string_case (act (fun s =>
        match readUint (n mod 256) s with
        | (Err (rlpErr ErrCanonSize), s) => (Err (rlpErr ErrCanonInt), s)
        | (Ok v, s) => if (0 <? n) && (v <? 128)
                       then (Err (rlpErr ErrCanonSize), s) else (Ok v, s)
        | r => r
        end)) int_of n.
Proof.
  intros [Hn0 _] Hn8 s inp st Hb Hst Hle. unfold act. rewrite Z.mod_small by lia.
  destruct (decide (n = 0)) as [->|Hn].
  { by apply (string_case_empty 0 int_of eq_refl). }
  destruct (readUint_ok s inp st n Hb) as [(c & rest & s' & -> & -> & Hz & Hf & Hnz & Hp)|(e & s' & E & He)]; [lia| |].
  - rewrite (proj2 (Z.ltb_lt 0 n)) by lia. cbn [andb].
    destruct c as [|b c]; [rewrite zlen_nil in Hz; lia|].
    destruct (decide (1 < n)) as [H1|H1].
    + destruct (Hnz H1) as (b' & c' & [= <- <-] & Hb0). left. exists (be_value (b :: c)), (b :: c), rest, s'.
      assert (128 ≤ be_value (b :: c)).
      { rewrite be_value_cons. rewrite zlen_cons in Hz. pose proof (be_value_nonneg c). pose proof (b2z_range b).
        assert (2 ^ 8 ≤ 2 ^ (8 * zlen c)) by (apply Z.pow_le_mono_r; lia). change (2 ^ 8) with 256 in *. nia. }
      case_if; [lia|]. split; [done|]. split; [done|]. split; [done|].
      split; [|split; [|done]]; cbn.
      * intros b' [= -> ->]. change (zlen [b']) with 1 in Hz. lia.
      * by case_if.
    + rewrite zlen_cons in Hz. destruct c as [|? c]; [|rewrite zlen_cons in Hz; pose proof (zlen_nonneg c); lia].
      change (zlen []) with 0 in Hz. assert (n = 1) as -> by lia.
      change (be_value [b]) with (b2z b). case_if.
      * right. eexists _, _. split; [done|]. split; [done|]. intros c' r' a Eq Hz' Hc' _.
        destruct c' as [|b' [|? c']]; [done| |rewrite !zlen_cons in Hz'; pose proof (zlen_nonneg c'); lia].
        injection Eq as -> _. specialize (Hc' b' eq_refl). lia.
      * left. exists (b2z b), [b], rest, s'. split; [done|]. split; [done|]. split; [done|].
        split; [by intros b' [= <-]|]. split; [|done]. cbn. case_if; [lia|done].
  - right. rewrite E. assert (Hno : ∀ c rest a, inp = c ++ rest → zlen c = n → content_ok KString c → fits st n → int_of c ≠ Ok a).
    { intros c rest a -> Hz Hc Hf Hi. destruct c as [|b c]; [rewrite zlen_nil in Hz; lia|].
      cbn in Hi. case_if in Hi; [done|].
      destruct (readUint_complete s b c rest st) as (s'' & E' & _); rewrite ?Hz in *; try done. congruence. }
    destruct e as [| | | | | | | | |[]|]; try done;
      (eexists _, _; split; [reflexivity|]; split; [done|exact Hno]).
Qed.

Lemma Stream_uint_decodes bits : 0 ≤ bits ≤ 64 → bits mod 8 = 0 → 8 ≤ bits →
  decodes (Stream_uint bits) (fun i enc => enc = rlp_uint i ∧ 0 ≤ i < 2 ^ bits).
Proof.
  intros Hbits Hm Hb8. pose proof (Z.div_mod bits 8 ltac:(lia)) as Hd.
  eapply decodes_iff;
    [|apply (decodes_string _ (fun c => if bits / 8 <? zlen c then Err (rlpErr errUintOverflow) else int_of c))].
  - intros i enc. unfold rlp_uint. split.
    + intros (c & -> & Hc). case_if in Hc; [done|]. pose proof Hc as [-> ?]%int_of_ok.
      split; [done|]. split; [done|]. pose proof (be_value_lt (be_min i)) as Hlt.
      rewrite be_value_be_min in Hlt by done. eapply Z.lt_le_trans; [exact Hlt|]. apply Z.pow_le_mono_r; lia.
    + intros [-> Hi]. eexists. split; [done|]. case_if; [|apply int_of_ok; split; [done|lia]].
      exfalso. rewrite zlen_be_min in Heqb.
      destruct (decide (i = 0)) as [->|Hi0]; [change (min_len 0) with 0%nat in Heqb; lia|].
      pose proof (min_len_bounds i ltac:(lia)) as [Hlo _].
      assert (2 ^ bits ≤ 2 ^ (8 * (Z.of_nat (min_len i) - 1))) by (apply Z.pow_le_mono_r; lia). lia.
  - intros s tail st Hv Hlt. pose proof (take_byteval _ _ _ tt Hv).
    change (zlen [byteval s]) with 1. rewrite (proj2 (Z.ltb_ge (bits / 8) 1)) by lia.
    unfold int_of, mbind, stm_bind, get_byteval, rearm, mret, stm_ret. cbn.
    destruct (b2z (byteval s) =? 0); [by eexists _, _|eauto].
  - intros n Hn. cbv beta iota. destruct (bits / 8 <? n) eqn:E; zbool.
    + apply string_case_reject; [done|]. intros c a Hz. rewrite Hz. case_if; [done|lia].
    + pose proof (string_case_uint n Hn ltac:(lia)) as Hsc. intros s inp st Hb Hst Hle.
      destruct (Hsc s inp st Hb Hst Hle) as [(a & c & rest & s' & E1 & -> & Hz & Hc & Hf & Hp)|(e & s' & E1 & He & Hno)].
      * left. exists a, c, rest, s'. rewrite Hz. case_if; [lia|]. done.
      * right. exists e, s'. split; [done|]. split; [done|]. intros c rest a -> Hz Hc Hf. rewrite Hz.
        case_if; [lia|]. by eapply Hno.
  - intros n s. by eexists.
Qed.

Lemma Stream_Bool_decodes :
  decodes Stream_Bool (fun b enc => enc = rlp_uint (if b then 1 else 0 : Z)).
Proof.
  eapply decodes_iff; [|apply (decodes_bind _ _ (fun num =>
    if num =? 0 then Ok false else if num =? 1 then Ok true else Err (invalidBoolean num))), (Stream_uint_decodes 8); try done].
  - intros b enc. split.
    + intros (i & Hi & -> & _). repeat case_if in Hi; simplify_eq; done.
    + intros ->. exists (if b then 1 else 0). by destruct b.
  - intros a s. by repeat case_if.
  - intros a. by repeat case_if.
Qed.

(** ** Lists *)

Lemma open_list s n tail st : at_value s KList n tail st →
  ∃ s', act (fun s =>
      let '(inList, limit) := listLimit s in
      let s := if inList then set_top (limit - n) s else s in
      (Ok n, set_size 0 (set_kind None (set_stack (n :: stack s) s)))) s = (Ok n, s') ∧
    at_pos s' tail (n :: sub_top st n).
Proof.
  intros [[Hi Hr Hs Hl Ha] Hk Hsz He]. unfold act, listLimit, set_top. rewrite Hs.
  destruct st as [|a st]; eexists; (split; [done|]); rewrite ?Hs; repeat split; cbn; rewrite ?Hs; done.
Qed.

Lemma Stream_List_ok s inp st : at_pos s inp st → limits st → zlen inp < 2 ^ 64 →
  (∃ n tail s', Stream_List s = (Ok n, s') ∧ inp = tag_of KList n ++ tail ∧ is_u64 n ∧ n ≤ zlen tail ∧
     at_pos s' tail (n :: sub_top st (zlen (tag_of KList n) + n))) ∨
  (∃ e s', Stream_List s = (Err e, s') ∧ e ≠ EOL) ∨
  (Stream_List s = (Err EOL, s) ∧ ∃ st', st = 0 :: st').
Proof.
  intros Hp Hst Hlen. unfold Stream_List, mbind, stm_bind.
  destruct (Stream_Kind_ok s inp st Hp Hst Hlen) as
    [(k & n & tg & tail & s1 & -> & -> & Hh & Hv & Hn)|[(e & s1 & -> & He)|[-> ?]]];
    [|right; left; by eexists _, _|by right; right].
  destruct k; [right; left; by eexists _, _..|]. destruct Hh as [-> Hu]. left.
  destruct (open_list s1 n tail _ Hv) as (s' & E & Hp'). rewrite sub_top_add in Hp'.
  exists n, tail, s'. split; [exact E|]. split; [done|]. split; [done|]. split; [lia|done].
Qed.

Lemma Stream_List_complete s n tail st : is_u64 n → n ≤ zlen tail →
  at_pos s (tag_of KList n ++ tail) st → limits st → fits st (zlen (tag_of KList n) + n) →
  ∃ s', Stream_List s = (Ok n, s') ∧ at_pos s' tail (n :: sub_top st (zlen (tag_of KList n) + n)).
Proof.
  intros Hu Hn Hp Hst Hf. unfold Stream_List, mbind, stm_bind.
  destruct (Stream_Kind_complete s KList n (tag_of KList n) (z2b 0) tail st) as (s1 & -> & Hv & _); try done.
  rewrite <- sub_top_add. by apply open_list.
Qed.

(** What is decoded between the head and the end of a list of [n] bytes. *)
Class decodes_payload {A} (p : Z → sm A) (RP : A → bytes → Prop) : Prop := DecodesPayload {
  p_sound s inp n st : at_pos s inp (n :: st) → is_u64 n → limits st → zlen inp < 2 ^ 64 →
    (∃ a pl rest s', p n s = (Ok a, s') ∧ RP a pl ∧ inp = pl ++ rest ∧
       at_pos s' rest (u64 (n - zlen pl) :: st)) ∨
    (∃ e s', p n s = (Err e, s') ∧ e ≠ EOL);
  p_complete s a pl rest st : at_pos s (pl ++ rest) (zlen pl :: st) → limits st →
    zlen (pl ++ rest) < 2 ^ 64 → RP a pl →
    ∃ s', p (zlen pl) s = (Ok a, s') ∧ at_pos s' rest (0 :: st)
}.

Lemma ListEnd_pos s inp l st : at_pos s inp (l :: st) →
  if 0 <? l then ListEnd s = (Err errNotAtEOL, s)
  else ∃ s', ListEnd s = (Ok tt, s') ∧ at_pos s' inp st.
Proof.
  intros [[Hi Hr Hs Hl Ha] Hk]. unfold ListEnd. rewrite Hs. case_if; [done|].
  eexists. split; [done|]. by repeat split.
Qed.

Lemma decodes_list {A} (p : Z → sm A) (le : sm unit) RP :
  (le = ListEnd ∨ le = wrap ListEnd) → decodes_payload p RP →
  decodes (size ← wrap Stream_List; a ← p size; _ ← le; mret a)
          (fun a enc => ∃ pl, enc = rlp_list pl ∧ RP a pl).
Proof.
  intros Hle [PS PC].
  assert (Hend : ∀ s inp l st, at_pos s inp (l :: st) →
    if 0 <? l then ∃ e, le s = (Err e, s) ∧ e ≠ EOL else ∃ s', le s = (Ok tt, s') ∧ at_pos s' inp st).
  { intros s inp l st Hp. pose proof (ListEnd_pos s inp l st Hp) as HE.
    destruct Hle as [-> | ->]; unfold wrap; case_if; [rewrite HE; by eexists|done|rewrite HE; by eexists|].
    destruct HE as (s' & -> & ?). eauto. }
  split.
  - intros s inp st Hp Hst Hlen. unfold mbind, stm_bind, wrap.
    destruct (Stream_List_ok s inp st Hp Hst Hlen) as
      [(n & tail & s1 & -> & -> & Hu & Hn & Hp1)|[(e & s1 & -> & He)|[-> ?]]];
      [|right; left; eexists _, _; split; [done|by destruct e as [| | | | | | | | |[]|]]|by right; right].
    pose proof (zlen_nonneg (tag_of KList n)) as Htg0. rewrite zlen_app in Hlen.
    destruct (PS s1 tail n _ Hp1 Hu (limits_sub_top _ _ Hst) ltac:(lia)) as
      [(a & pl & rest & s2 & -> & HP & -> & Hp2)|(e & s2 & -> & He)]; [|right; left; by eexists _, _].
    specialize (Hend s2 rest _ _ Hp2). rewrite zlen_app in Hlen.
    pose proof (zlen_nonneg pl). pose proof (zlen_nonneg rest). unfold is_u64 in Hu.
    case_if in Hend.
    + destruct Hend as (e & -> & He). right. left. by eexists _, _.
    + destruct Hend as (s3 & -> & Hp3). left.
      assert (n = zlen pl) as ->.
      { unfold u64 in Heqb. pose proof (Z.mod_pos_bound (n - zlen pl) (2 ^ 64) ltac:(lia)).
        assert ((n - zlen pl) mod 2 ^ 64 = 0) as Hz0 by lia. apply Z.mod_divide in Hz0 as [q Hq]; nia. }
      exists a, (rlp_list pl), rest, s3. split; [done|]. split; [by eauto|].
      rewrite rlp_list_tag, zlen_app, <- app_assoc. done.
  - intros s a enc rest st Hp Hst Hlen (pl & -> & HP) Hf. rewrite rlp_list_tag, <- app_assoc in Hp, Hlen.
    rewrite rlp_list_tag, zlen_app in Hf. rewrite !zlen_app in Hlen.
    pose proof (zlen_nonneg pl). pose proof (zlen_nonneg rest). pose proof (zlen_nonneg (tag_of KList (zlen pl))).
    unfold mbind, stm_bind, wrap.
    destruct (Stream_List_complete s (zlen pl) (pl ++ rest) st) as (s1 & -> & Hp1); try done;
      [unfold is_u64; lia|rewrite zlen_app; lia|].
    destruct (PC s1 a pl rest _ Hp1) as (s2 & -> & Hp2); [by apply limits_sub_top|rewrite zlen_app; lia|done|].
    destruct (Hend s2 rest 0 _ Hp2) as (s3 & -> & Hp3). exists s3. split; [done|].
    by rewrite rlp_list_tag, zlen_app.
  - intros s inp st Hp. unfold mbind, stm_bind, wrap, Stream_List. unfold mbind, stm_bind.
    by rewrite (Stream_Kind_EOL s inp st Hp).
  - intros a enc (pl & -> & _). rewrite rlp_list_tag, zlen_app. pose proof (zlen_nonneg pl).
    unfold tag_of, rlp_head. case_if; rewrite zlen_cons; [|pose proof (zlen_nonneg (be_min (zlen pl)))]; rewrite ?zlen_nil; lia.
  - intros a enc (pl & -> & _) Hlen. rewrite rlp_list_tag in *.
    exists KList, (zlen pl), (tag_of KList (zlen pl)), (z2b 0), pl. split; [done|]. split; [|done].
    split; [done|]. rewrite zlen_app in Hlen. pose proof (zlen_nonneg pl).
    pose proof (zlen_nonneg (tag_of KList (zlen pl))). unfold is_u64. lia.
  - intros s x s' H1 H2. unfold mbind, stm_bind, wrap, Stream_List. unfold mbind, stm_bind. by rewrite H1, H2.
Qed.

(** The elements of a list. *)
Definition elems_enc (R : value → bytes → Prop) (l : list value) (pl : bytes) : Prop :=
  ∃ encs, Forall2 R l encs ∧ pl = concat encs.

Section Elems.
Context (elemdec : sm value) (R : value → bytes → Prop) `{D : !decodes elemdec R}.

Lemma decodeSliceElems_ok fuel s inp n st :
  at_pos s inp (n :: st) → is_u64 n → limits st → zlen inp < 2 ^ 64 → (length inp < fuel)%nat →
  (∃ l pl rest s', decodeSliceElems elemdec fuel s = (Ok l, s') ∧ elems_enc R l pl ∧ inp = pl ++ rest ∧
     at_pos s' rest (u64 (n - zlen pl) :: st)) ∨
  (∃ e s', decodeSliceElems elemdec fuel s = (Err e, s') ∧ e ≠ EOL).
Proof.
  revert s inp n. induction fuel as [|fuel IH]; intros s inp n Hp Hu Hst Hlen Hfuel; [lia|].
  cbn [decodeSliceElems]. assert (Hst' : limits (n :: st)) by (by constructor).
  destruct (d_sound s inp (n :: st) Hp Hst' Hlen) as
    [(v & enc & rest & s1 & -> & HR & -> & Hp1)|[(e & s1 & -> & He)|[-> (st' & [= -> _])]]].
  - pose proof (d_nonempty v enc HR) as Hne. rewrite zlen_app in Hlen. rewrite length_app in Hfuel.
    unfold mbind, stm_bind. cbn [sub_top] in Hp1.
    destruct (IH s1 rest (u64 (n - zlen enc)) Hp1) as
      [(l & pl & rest' & s2 & -> & (encs & HF & ->) & -> & Hp2)|(e & s2 & -> & He)];
      try done; [by auto with geth|lia|unfold zlen in Hne; lia| |right; by eexists _, _].
    left. exists (v :: l), (enc ++ concat encs), rest', s2. split; [done|].
    split; [exists (enc :: encs); split; [by constructor|done]|]. split; [by rewrite app_assoc|].
    replace (u64 (n - zlen (enc ++ concat encs))) with (u64 (u64 (n - zlen enc) - zlen (concat encs))); [done|].
    unfold u64. rewrite Zminus_mod_idemp_l, zlen_app. f_equal. lia.
  - right. destruct e; first done; by eexists _, _.
  - left. exists [], [], inp, s. split; [done|]. split; [by exists []|]. done.
Qed.

Lemma decodeSliceElems_complete l encs fuel s rest st :
  at_pos s (concat encs ++ rest) (zlen (concat encs) :: st) → limits st →
  zlen (concat encs ++ rest) < 2 ^ 64 → Forall2 R l encs → (length l < fuel)%nat →
  ∃ s', decodeSliceElems elemdec fuel s = (Ok l, s') ∧ at_pos s' rest (0 :: st).
Proof.
  intros Hp Hst Hlen HF. revert fuel s Hp Hlen. induction HF as [|v enc l encs HR HF IH];
    intros fuel s Hp Hlen Hfuel; (destruct fuel as [|fuel]; [cbn in Hfuel; lia|]); cbn [decodeSliceElems].
  - rewrite (d_EOL s rest st Hp). eauto.
  - cbn [concat] in *. rewrite <- app_assoc in *. rewrite !zlen_app in *.
    pose proof (zlen_nonneg enc). pose proof (zlen_nonneg (concat encs)). pose proof (zlen_nonneg rest).
    assert (Hu : is_u64 (zlen enc + zlen (concat encs))) by (unfold is_u64; lia).
    destruct (d_complete s v enc (concat encs ++ rest) (zlen enc + zlen (concat encs) :: st)) as (s1 & -> & Hp1); try done.
    { by constructor. } { rewrite !zlen_app; lia. } { cbn; lia. }
    cbn [sub_top] in Hp1. rewrite Z.add_simpl_l, u64_small in Hp1 by (unfold is_u64 in *; lia).
    unfold mbind, stm_bind. destruct (IH fuel s1 Hp1) as (s2 & -> & Hp2); [lia|cbn in Hfuel; lia|].
    by exists s2.
Qed.

Lemma elems_enc_length l encs : Forall2 R l encs → (length l ≤ length (concat encs))%nat.
Proof.
  induction 1 as [|v enc l encs HR HF IH]; [done|]. cbn. rewrite length_app.
  pose proof (d_nonempty v enc HR) as H0. unfold zlen in H0. lia.
Qed.

Lemma decodeListSlice_decodes :
  decodes (decodeListSlice elemdec) (fun l enc => ∃ pl, enc = rlp_list pl ∧ elems_enc R l pl).
Proof.
  set (p := fun size : Z => if size =? 0 then mret [] : sm (list value)
            else act (fun s => decodeSliceElems elemdec (S (length (input s))) s)).
  assert (Hp : decodes_payload p (elems_enc R)).
  { split.
    - intros s inp n st Hp Hu Hst Hlen. unfold p. destruct (n =? 0) eqn:En; zbool.
      + left. exists [], [], inp, s. split; [done|]. split; [by exists []|]. subst n. done.
      + unfold act. destruct Hp as [Hb Hk]. rewrite (based_input _ _ _ Hb).
        eapply decodeSliceElems_ok; [by split|done..|lia].
    - intros s l pl rest st Hp Hst Hlen (encs & HF & ->). unfold p.
      pose proof (elems_enc_length l encs HF) as Hll. destruct (_ =? 0) eqn:En; zbool.
      + assert (l = []) as -> by (apply nil_length_inv; unfold zlen in En; lia).
        inversion HF; subst. by exists s.
      + unfold act. destruct Hp as [Hb Hk]. rewrite (based_input _ _ _ Hb).
        eapply decodeSliceElems_complete; try done. rewrite length_app. lia. }
  pose proof (decodes_list p ListEnd _ (or_introl eq_refl) Hp) as Hd.
  unfold decodeListSlice. eapply decodes_ext; [|exact Hd].
  intros s. unfold mbind, stm_bind. destruct (wrap Stream_List s) as [[n|e|] s1]; try done.
  unfold p. case_if; [|done]. unfold mret, stm_ret. destruct (ListEnd s1) as [[]]; done.
Qed.
End Elems.

(** ** Structs *)

(** The payload of a struct: its fields in order; when the list ends before an
    optional field, that field and the ones behind it are zero. *)
Inductive fields_enc : list ((value → bytes → Prop) * option value) → list value → bytes → Prop :=
| fe_nil : fields_enc [] [] []
| fe_cons (R : value → bytes → Prop) o rs v enc vs pl :
    R v enc → fields_enc rs vs pl → fields_enc ((R, o) :: rs) (v :: vs) (enc ++ pl)
| fe_zero R z rs : fields_enc ((R, Some z) :: rs) (z :: omap snd rs) [].

Definition field_decodes (f : field) (r : (value → bytes → Prop) * option value) : Prop :=
  decodes f.1 r.1 ∧ f.2 = r.2.

Lemma zeroFields_rel fs rs : Forall2 field_decodes fs rs → zeroFields fs = omap snd rs.
Proof. induction 1 as [|f r fs rs [_ Hz] HF IH]; [done|]. unfold zeroFields in *. cbn. by rewrite Hz, IH. Qed.

Lemma decodeFields_decodes fs rs : Forall2 field_decodes fs rs →
  decodes_payload (fun _ => decodeFields fs) (fields_enc rs).
Proof.
  intros HF. split.
  - induction HF as [|[dec o] [R o'] fs rs [D Ho] HF IH]; intros s inp n st Hp Hu Hst Hlen; cbn [decodeFields].
    { left. exists [], [], inp, s. split; [done|]. split; [constructor|]. split; [done|].
      change (zlen []) with 0. by rewrite Z.sub_0_r, u64_small. }
    cbn in D, Ho. subst o'. assert (Hst' : limits (n :: st)) by (by constructor). cbn [fst snd].
    destruct (d_sound s inp (n :: st) Hp Hst' Hlen) as
      [(v & enc & rest & s1 & -> & HR & -> & Hp1)|[(e & s1 & -> & He)|[-> (st' & [= -> _])]]].
    + rewrite zlen_app in Hlen. pose proof (zlen_nonneg enc). unfold mbind, stm_bind. cbn [sub_top] in Hp1.
      destruct (IH s1 rest (u64 (n - zlen enc)) st Hp1) as
        [(vs & pl & rest' & s2 & -> & Hfe & -> & Hp2)|(e & s2 & -> & He)];
        try done; [by auto with geth|lia| |right; by eexists _, _].
      left. exists (v :: vs), (enc ++ pl), rest', s2. split; [done|]. split; [by constructor|].
      split; [by rewrite app_assoc|].
      replace (u64 (n - zlen (enc ++ pl))) with (u64 (u64 (n - zlen enc) - zlen pl)); [done|].
      unfold u64. rewrite Zminus_mod_idemp_l, zlen_app. f_equal. lia.
    + right. destruct e; first done; by eexists _, _.
    + destruct o as [z|]; [left|right; by eexists _, _].
      exists (z :: omap snd rs), [], inp, s. split; [|split; [constructor|done]].
      do 2 f_equal. change (zeroFields ((dec, Some z) :: fs)) with (z :: zeroFields fs).
      by rewrite (zeroFields_rel fs rs).
  - induction HF as [|[dec o] [R o'] fs rs [D Ho] HF IH]; intros s vs pl rest st Hp Hst Hlen Hfe;
      inversion Hfe; subst; clear Hfe; cbn [decodeFields].
    + eauto.
    + cbn in D, Ho. subst o'. cbn [fst snd]. rewrite <- app_assoc in *. rewrite !zlen_app in *.
      pose proof (zlen_nonneg enc). pose proof (zlen_nonneg pl0). pose proof (zlen_nonneg rest).
      assert (Hu : is_u64 (zlen enc + zlen pl0)) by (unfold is_u64; lia).
      destruct (d_complete s v enc (pl0 ++ rest) (zlen enc + zlen pl0 :: st)) as (s1 & -> & Hp1); try done.
      { by constructor. } { rewrite !zlen_app; lia. } { cbn; lia. }
      cbn [sub_top] in Hp1. rewrite Z.add_simpl_l, u64_small in Hp1 by (unfold is_u64 in *; lia).
      unfold mbind, stm_bind. destruct (IH s1 vs0 pl0 rest st Hp1) as (s2 & -> & Hp2); try done; [rewrite zlen_app; lia|].
      by exists s2.
    + cbn in D, Ho. subst o. cbn [fst snd]. cbn [app] in Hp. rewrite (d_EOL s rest st Hp).
      exists s. split; [|done]. do 2 f_equal.
      change (zeroFields ((dec, Some z) :: fs)) with (z :: zeroFields fs). by rewrite (zeroFields_rel fs rs).
Qed.

Lemma structDecoder_decodes fs rs : Forall2 field_decodes fs rs →
  decodes (structDecoder fs) (fun vs enc => ∃ pl, enc = rlp_list pl ∧ fields_enc rs vs pl).
Proof.
  intros HF. apply (decodes_list (fun _ => decodeFields fs) (wrap ListEnd)); [by right|].
  by apply decodeFields_decodes.
Qed.

(** ** Nil pointers *)

Lemma is_head_empty k n tg b x tail rest : is_head k n tg b → tg ++ tail = x :: rest →
  b2z x = 0x80 ∨ b2z x = 0xC0 → k ≠ KByte ∧ n = 0.
Proof.
  intros Hh Eq Hx. destruct (decide (k = KByte)) as [->|Hk].
  { destruct Hh as (_ & -> & Hlt). injection Eq as -> _. lia. }
  assert (Htg : tg = tag_of k n ∧ is_u64 n) by (by destruct k). destruct Htg as [-> Hu]. split; [done|].
  unfold is_u64 in Hu. destruct (decide (n < 56)).
  - rewrite tag_of_short in Eq by done. cbn [app] in Eq. apply cons_inv in Eq as [<- _].
    rewrite b2z_z2b_small in Hx by (destruct k; lia). destruct k; [done| |]; lia.
  - rewrite tag_of_long in Eq by (done || lia). cbn [app] in Eq. apply cons_inv in Eq as [<- _].
    pose proof (min_len_u64 n Hu). pose proof (min_len_pos n ltac:(lia)).
    rewrite b2z_z2b_small in Hx by (destruct k; cbn; lia). destruct k; cbn in Hx; [done| |]; lia.
Qed.

(** The encoding of an empty string or list, which a nil tag reads as nil. *)
Definition empty_value (enc : bytes) : Prop := ∃ x, enc = [x] ∧ (b2z x = 0x80 ∨ b2z x = 0xC0).

Lemma nilPtrDecoder_decodes nk dec R : nk ≠ KByte → decodes dec R →
  decodes (nilPtrDecoder nk dec)
    (fun p enc => (p = None ∧ enc = [nil_byte nk]) ∨ (∃ v, p = Some v ∧ R v enc ∧ ¬ empty_value enc)).
Proof.
  intros Hnk D.
  assert (Hnil : [nil_byte nk] = tag_of nk 0) by (by destruct nk).
  split.
  - intros s inp st Hp Hst Hlen. unfold nilPtrDecoder, mbind, stm_bind, wrap.
    destruct (Stream_Kind_ok s inp st Hp Hst Hlen) as
      [(k & n & tg & tail & s1 & HK & -> & Hh & Hv & Hn)|[(e & s1 & -> & He)|[-> ?]]];
      [|right; left; eexists _, _; split; [done|by destruct e as [| | | | | | | | |[]|]]|by right; right].
    rewrite HK. case_if.
    + subst n. assert (tg = tag_of k 0) as -> by (destruct k; [done|by destruct Hh..]).
      case_if; [subst nk|right; left; by eexists _, _]. left.
      exists None, [nil_byte k], tail, (set_kind None s1). split; [done|]. split; [by left|]. rewrite Hnil. split; [done|].
      destruct Hv as [[?????] ???]. by repeat split.
    + pose proof (Stream_Kind_cached _ _ _ _ _ Hv) as HK1. rewrite <- (d_cached s (k, n) s1 HK HK1).
      destruct (d_sound s (tg ++ tail) st Hp Hst Hlen) as
        [(v & enc & rest & s' & -> & HR & Eq & Hp')|[(e & s' & -> & He)|[E (st' & ->)]]].
      * left. exists (Some v), enc, rest, s'. split; [done|]. split; [|done]. right. exists v. split; [done|].
        split; [done|]. intros (x & -> & Hx). apply (is_head_empty _ _ _ _ _ _ _ Hh) in Eq as [? ->]; [|done].
        apply andb_false_iff in Heqb as [?|?]; zbool; done.
      * right. left. by eexists _, _.
      * rewrite (Stream_Kind_EOL s _ st' Hp) in HK. done.
  - intros s p enc rest st Hp Hst Hlen HR Hf. unfold nilPtrDecoder, mbind, stm_bind, wrap.
    destruct HR as [[-> ->]|(v & -> & HR & Hne)].
    + rewrite Hnil in *. destruct (Stream_Kind_complete s nk 0 (tag_of nk 0) (z2b 0) rest st) as (s1 & -> & Hv & _); try done.
      { by destruct nk. } { apply zlen_nonneg. } { by rewrite Z.add_0_r. }
      rewrite bool_decide_eq_false_2 by done. cbn [negb andb]. rewrite Z.eqb_refl, bool_decide_eq_true_2 by done.
      eexists. split; [done|]. destruct Hv as [[?????] ???]. by repeat split.
    + rewrite zlen_app in Hlen. pose proof (zlen_nonneg rest).
      destruct (d_item v enc HR ltac:(lia)) as (k & n & tg & b & c & -> & Hh & Hz).
      rewrite <- app_assoc in Hp. rewrite zlen_app in Hlen, Hf.
      destruct (Stream_Kind_complete s k n tg b (c ++ rest) st) as (s1 & HK & Hv & _); try done;
        [rewrite zlen_app; lia|by rewrite <- Hz|].
      rewrite HK. case_if.
      { destruct Hne. assert (c = []) as -> by (destruct c; [done|rewrite zlen_cons in Hz; pose proof (zlen_nonneg c); lia]).
        subst n. destruct k; [done| |]; destruct Hh as [-> _]; eexists; (split; [reflexivity|]); [left|right]; by vm_compute. }
      pose proof (Stream_Kind_cached _ _ _ _ _ Hv) as HK1. rewrite <- (d_cached s (k, n) s1 HK HK1).
      rewrite app_assoc in Hp. rewrite zlen_app.
      destruct (d_complete s v (tg ++ c) rest st Hp Hst) as (s' & -> & Hp'); [rewrite !zlen_app; lia|done|by rewrite zlen_app|].
      rewrite zlen_app in Hp'. by exists s'.
  - intros s inp st Hp. unfold nilPtrDecoder, mbind, stm_bind, wrap. by rewrite (Stream_Kind_EOL s inp st Hp).
  - intros p enc [[_ ->]|(v & _ & HR & _)]; [done|]. by eapply d_nonempty.
  - intros p enc [[_ ->]|(v & _ & HR & _)] Hl; [|by eapply d_item].
    exists nk, 0, [nil_byte nk], (z2b 0), []. split; [done|]. split; [|done]. rewrite Hnil. by destruct nk.
  - intros s x s' H1 H2. unfold nilPtrDecoder, mbind, stm_bind, wrap. by rewrite H1, H2.
Qed.

(** ** The decoder of a type *)

(** [encodes t v enc]: the type-directed reading of RLP, value by value. *)
Fixpoint encodes (t : rtype) (v : value) (enc : bytes) : Prop :=
  match t with
  | TBigInt => ∃ i, v = VBigInt (Some i) ∧ enc = rlp_uint i ∧ 0 ≤ i
  | TUint256 => ∃ i, v = VUint256 (Some i) ∧ enc = rlp_uint i ∧ 0 ≤ i < 2 ^ 256
  | TUint bits => ∃ i, v = VUint i ∧ enc = rlp_uint i ∧ 0 ≤ i < 2 ^ bits
  | TBool => ∃ b, v = VBool b ∧ enc = rlp_uint (if b : bool then 1 else 0)
  | TString => ∃ b, v = VString b ∧ enc = rlp_str b
  | TBytes => ∃ b, v = VBytes (Some b) ∧ enc = rlp_str b
  | TByteArray n => ∃ a, v = VByteArray a ∧ enc = rlp_str a ∧ zlen a = n
  | TPtr e t' => ∃ v', v = VPtr e (Some v') ∧ encodes t' v' enc
  | TNilPtr k t' =>
      (v = VPtr (nil_byte k) None ∧ enc = [nil_byte k]) ∨
      (∃ v', v = VPtr (nil_byte k) (Some v') ∧ encodes t' v' enc ∧ ¬ empty_value enc)
  | TSlice t' => ∃ l pl, v = VSlice (Some l) ∧ enc = rlp_list pl ∧ elems_enc (encodes t') l pl
  | TStruct req opt =>
      ∃ vs pl, v = VStruct (take (length req) vs) (drop (length req) vs) ∧ enc = rlp_list pl ∧
        fields_enc (map (fun t => (encodes t, None)) req ++
                    map (fun t => (encodes t, Some (zero t))) opt) vs pl
  end.

(** Types [makeDecoder] accepts: integers of 8 to 64 bits, array lengths, and
    nil tags for empty strings or lists. *)
Fixpoint wf_type (t : rtype) : Prop :=
  match t with
  | TBigInt | TUint256 | TBool | TString | TBytes => True
  | TUint bits => bits = 8 ∨ bits = 16 ∨ bits = 32 ∨ bits = 64
  | TByteArray n => 0 ≤ n
  | TPtr _ t' | TSlice t' => wf_type t'
  | TNilPtr k t' => k ≠ KByte ∧ wf_type t'
  | TStruct req opt => foldr (fun t P => wf_type t ∧ P) True req ∧ foldr (fun t P => wf_type t ∧ P) True opt
  end.

Section TypeInd.
Context (P : rtype → Prop)
  (HBig : P TBigInt) (HU256 : P TUint256) (HUint : ∀ b, P (TUint b)) (HBool : P TBool) (HStr : P TString)
  (HBytes : P TBytes) (HArr : ∀ n, P (TByteArray n)) (HPtr : ∀ e t, P t → P (TPtr e t))
  (HNil : ∀ k t, P t → P (TNilPtr k t)) (HSlice : ∀ t, P t → P (TSlice t))
  (HStruct : ∀ r o, Forall P r → Forall P o → P (TStruct r o)).

Fixpoint rtype_nested_ind (t : rtype) : P t :=
  let all := fix all (l : list rtype) : Forall P l :=
    match l with
    | [] => Forall_nil_2 P
    | x :: l' => Forall_cons_2 P x l' (rtype_nested_ind x) (all l')
    end in
  match t with
  | TBigInt => HBig | TUint256 => HU256 | TUint b => HUint b | TBool => HBool | TString => HStr
  | TBytes => HBytes | TByteArray n => HArr n
  | TPtr e t' => HPtr e t' (rtype_nested_ind t')
  | TNilPtr k t' => HNil k t' (rtype_nested_ind t')
  | TSlice t' => HSlice t' (rtype_nested_ind t')
  | TStruct r o => HStruct r o (all r) (all o)
  end.
End TypeInd.

Lemma Forall_foldr {A} (P Q : A → Prop) l :
  Forall (fun x => P x → Q x) l → foldr (fun x R => P x ∧ R) True l → Forall Q l.
Proof. induction 1; cbn; [by constructor|]. intros []. constructor; auto. Qed.

(** A decoder followed by the construction of the value. *)
Lemma decodes_map {A} (m : sm A) (g : A → value) R (R' : value → bytes → Prop) :
  (∀ v enc, R' v enc ↔ ∃ a, v = g a ∧ R a enc) → decodes m R → decodes (a ← m; mret (g a)) R'.
Proof.
  intros HR HD. eapply decodes_iff; [|apply (decodes_bind m _ (fun a => Ok (g a)) R); [done|done|exact HD]].
  intros v enc. rewrite HR. split; [by intros (a & [= <-] & ?); eauto|intros (a & -> & ?); eauto].
Qed.

(** The decoder of every type returns exactly what its encodings stand for. *)
Lemma decode_decodes t : wf_type t → decodes (decode t) (encodes t).
Proof.
  induction t as [| |bits| | | |n|e t IH|k t IH|t IH|r o IHr IHo] using rtype_nested_ind; intros Hwf; cbn [decode].
  - eapply decodes_map; [|apply decodes_wrap, Stream_decodeBigInt_decodes]. done.
  - eapply decodes_map; [|apply decodes_wrap, ReadUint256_decodes]. done.
  - eapply decodes_map; [|apply decodes_wrap, (Stream_uint_decodes bits)]; [done|cbn in Hwf; lia| |cbn in Hwf; lia].
    destruct Hwf as [-> |[-> |[-> | ->]]]; done.
  - eapply decodes_map; [|apply decodes_wrap, Stream_Bool_decodes]. done.
  - eapply decodes_map; [|apply decodes_wrap, Stream_Bytes_decodes]. done.
  - eapply decodes_map; [|apply decodes_wrap, Stream_Bytes_decodes]. done.
  - eapply decodes_map; [|by apply (decodeByteArray_decodes n)]. done.
  - eapply decodes_map; [|by apply IH]. done.
  - destruct Hwf as [Hk Hwf]. eapply decodes_map; [|apply (nilPtrDecoder_decodes k (decode t) (encodes t)); auto].
    intros v enc. cbn. split.
    + intros [[-> ->]|(v' & -> & ? & ?)]; [exists None; auto|exists (Some v'); eauto 6].
    + intros (p & -> & [[-> ->]|(v' & -> & ? & ?)]); [by left|right; eauto].
  - pose proof (IH Hwf) as D. eapply decodes_map; [|apply (decodeListSlice_decodes (decode t) (encodes t))].
    intros v enc. cbn. split; [by intros (l & pl & -> & -> & ?); eauto|by intros (l & -> & pl & -> & ?); eauto].
  - destruct Hwf as [Hr Ho]. eapply decodes_map; [|eapply structDecoder_decodes].
    + intros v enc. cbn. split; [by intros (vs & pl & -> & -> & ?); eauto|by intros (vs & -> & pl & -> & ?); eauto].
    + apply Forall2_app; apply Forall2_fmap_2, Forall_Forall2_diag;
        [eapply Forall_impl; [exact (Forall_foldr _ _ _ IHr Hr)|]|eapply Forall_impl; [exact (Forall_foldr _ _ _ IHo Ho)|]];
        by split.
Qed.

Lemma Reset_pos h b : zlen b ≤ h → at_pos (set_maxAlloc h (Reset b (zlen b))) b [].
Proof.
  unfold Reset. intros Hh. repeat split; [|done]. cbn. case_if; [done|]. pose proof (zlen_nonneg b). lia.
Qed.

(** [DecodeBytes] returns a value exactly when the input is its encoding, and
    an error otherwise, also if there is only room for buffers of the size of
    the input. *)
Lemma DecodeWithin_ok h t b v : wf_type t → zlen b ≤ h → zlen b < 2 ^ 64 → DecodeWithin h b t = Ok v ↔ encodes t v b.
Proof.
  intros Hwf Hh Hlen. pose proof (decode_decodes t Hwf) as D. pose proof (Reset_pos h b Hh) as Hp. unfold DecodeWithin.
  split.
  - destruct (d_sound _ b [] Hp (Forall_nil_2 _) Hlen) as [(a & enc & rest & s' & -> & HR & -> & [Hb _])|[(e & s' & -> & He)|[-> ?]]]; [|done..].
    rewrite (based_input _ _ _ Hb). destruct (0 <? zlen rest) eqn:Heqb1; zbool; [done|]. intros [= <-].
    destruct rest; [by rewrite app_nil_r|]. rewrite zlen_cons in Heqb1. pose proof (zlen_nonneg rest). lia.
  - intros He. destruct (d_complete (set_maxAlloc h (Reset b (zlen b))) v b [] []) as (s' & -> & [Hb _]); [by rewrite app_nil_r|constructor|by rewrite app_nil_r|done|done|].
    by rewrite (based_input _ _ _ Hb).
Qed.
Lemma DecodeWithin_no_panic h t b : wf_type t → zlen b ≤ h → zlen b < 2 ^ 64 → DecodeWithin h b t ≠ Panic.
Proof.
  intros Hwf Hh Hlen. pose proof (decode_decodes t Hwf) as D. pose proof (Reset_pos h b Hh) as Hp. unfold DecodeWithin.
  destruct (d_sound _ b [] Hp (Forall_nil_2 _) Hlen) as [(a & enc & rest & s' & -> & _)|[(e & s' & -> & He)|[-> ?]]]; [|done..].
  by case_if.
Qed.
Lemma DecodeBytes_ok t b v : wf_type t → zlen b < 2 ^ 63 → DecodeBytes b t = Ok v ↔ encodes t v b.
Proof. intros Hwf Hlen. apply DecodeWithin_ok; [done|unfold maxInt; lia|lia]. Qed.
Lemma DecodeBytes_no_panic t b : wf_type t → zlen b < 2 ^ 63 → DecodeBytes b t ≠ Panic.
Proof. intros Hwf Hlen. apply DecodeWithin_no_panic; [done|unfold maxInt; lia|lia]. Qed.

(** ** Typed values *)

(** The values a decoder of type [t] can return: no nil where the encoding has
    none, and optional fields that are present up to some field and zero
    behind it. *)
Inductive has_type : rtype → value → Prop :=
| ht_bigint i : 0 ≤ i → has_type TBigInt (VBigInt (Some i))
| ht_uint256 i : 0 ≤ i < 2 ^ 256 → has_type TUint256 (VUint256 (Some i))
| ht_uint bits i : 0 ≤ i < 2 ^ bits → has_type (TUint bits) (VUint i)
| ht_bool b : has_type TBool (VBool b)
| ht_string s : has_type TString (VString s)
| ht_bytes b : has_type TBytes (VBytes (Some b))
| ht_array a n : zlen a = n → has_type (TByteArray n) (VByteArray a)
| ht_ptr e t v : has_type t v → has_type (TPtr e t) (VPtr e (Some v))
| ht_nil k t : has_type (TNilPtr k t) (VPtr (nil_byte k) None)
| ht_nilptr k t v : has_type t v → (∀ enc, ref_value v = Ok enc → ¬ empty_value enc) →
    has_type (TNilPtr k t) (VPtr (nil_byte k) (Some v))
| ht_slice t l : Forall (has_type t) l → has_type (TSlice t) (VSlice (Some l))
| ht_struct req opt1 opt2 r o : Forall2 has_type req r → Forall2 has_type opt1 o →
    has_type (TStruct req (opt1 ++ opt2)) (VStruct r (o ++ map zero opt2)).

(** Optional fields of pointer type, at every level: they are zero exactly
    when absent. *)
Definition ptr_type (t : rtype) : bool :=
  match t with TBigInt | TUint256 | TPtr _ _ => true | _ => false end.
Fixpoint strict (t : rtype) : Prop :=
  match t with
  | TPtr _ t' | TSlice t' | TNilPtr _ t' => strict t'
  | TStruct req opt =>
      foldr (fun t P => strict t ∧ P) True req ∧ foldr (fun t P => (strict t ∧ ptr_type t = true) ∧ P) True opt
  | _ => True
  end.

Definition exact_type (t : rtype) : Prop :=
  ∀ v enc, encodes t v enc ↔ has_type t v ∧ ref_value v = Ok enc.

Lemma ref_fields_cons r rs out : ref_fields (r :: rs) = Ok out ↔
  ∃ a b, r = Ok a ∧ ref_fields rs = Ok b ∧ out = a ++ b.
Proof.
  cbn. rewrite bind_ok. split.
  - intros (a & -> & H). apply bind_ok in H as (b & -> & [= <-]). eauto.
  - intros (a & b & -> & -> & ->). exists a. split; [done|]. done.
Qed.

Lemma elems_enc_exact t l pl : exact_type t →
  elems_enc (encodes t) l pl ↔ Forall (has_type t) l ∧ ref_fields (map ref_value l) = Ok pl.
Proof.
  intros Ht. unfold elems_enc. revert pl. induction l as [|v l IH]; intros pl.
  - cbn. split; [intros (encs & HF & ->); inversion HF; subst; by split; [constructor|]|].
    intros [_ [= <-]]. exists []. by split; [constructor|].
  - cbn [map]. rewrite ref_fields_cons. split.
    + intros (encs & HF & ->). inversion HF as [|? enc ? encs' Hv HF']; subst. apply Ht in Hv as [Hv Hr].
      destruct (proj1 (IH (concat encs'))) as [Hl Hrl]; [by eauto|].
      split; [by constructor|]. exists enc, (concat encs'). done.
    + intros [Hl (a & b & Ha & Hb & ->)]. inversion Hl; subst.
      destruct (proj2 (IH b)) as (encs & HF & ->); [done|]. exists (a :: encs).
      split; [|done]. constructor; [by apply Ht|done].
Qed.

Lemma fields_enc_req ts rs vs pl : Forall exact_type ts →
  fields_enc (map (fun t => (encodes t, None)) ts ++ rs) vs pl ↔
  ∃ vs1 vs2 pl1 pl2, vs = vs1 ++ vs2 ∧ pl = pl1 ++ pl2 ∧ Forall2 has_type ts vs1 ∧
    ref_fields (map ref_value vs1) = Ok pl1 ∧ fields_enc rs vs2 pl2.
Proof.
  intros HF. revert vs pl. induction HF as [|t ts Ht HF IH]; intros vs pl; cbn [map app].
  - split.
    + intros H. exists [], vs, [], pl. split_and!; done.
    + intros (vs1 & vs2 & pl1 & pl2 & -> & -> & H2 & Hr & H). inversion H2; subst. cbn in Hr. by simplify_eq.
  - split.
    + intros H. inversion H as [|R o rs' v enc vs' pl' Hv Hfe| ]; subst. apply Ht in Hv as [Hv Hr].
      apply IH in Hfe as (vs1 & vs2 & pl1 & pl2 & -> & -> & H2 & Hr1 & Hfe).
      exists (v :: vs1), vs2, (enc ++ pl1), pl2. split; [done|]. split; [by rewrite app_assoc|].
      split; [by constructor|]. split; [|done]. cbn [map]. apply ref_fields_cons. eauto.
    + intros (vs1 & vs2 & pl1 & pl2 & -> & -> & H2 & Hr & Hfe). inversion H2 as [|? v ? vs' Hv Hvs]; subst.
      cbn [map] in Hr. apply ref_fields_cons in Hr as (a & b & Ha & Hb & ->). rewrite <- app_assoc. cbn [app].
      constructor; [by apply Ht|]. apply IH. exists vs', vs2, b, pl2. done.
Qed.

Lemma omap_zero ts : omap snd (map (fun t => (encodes t, Some (zero t))) ts) = map zero ts.
Proof. induction ts as [|t ts IH]; [done|]. cbn. by rewrite IH. Qed.

Lemma fields_enc_opt ts vs pl : Forall exact_type ts →
  fields_enc (map (fun t => (encodes t, Some (zero t))) ts) vs pl ↔
  ∃ ts1 ts2 vs1, ts = ts1 ++ ts2 ∧ vs = vs1 ++ map zero ts2 ∧ Forall2 has_type ts1 vs1 ∧
    ref_fields (map ref_value vs1) = Ok pl.
Proof.
  intros HF. revert vs pl. induction HF as [|t ts Ht HF IH]; intros vs pl; cbn [map].
  - split.
    + intros H. inversion H; subst. exists [], [], []. by split_and!.
    + intros (ts1 & ts2 & vs1 & E & -> & H2 & Hr). symmetry in E. apply app_nil in E as [-> ->].
      inversion H2; subst. cbn in Hr. simplify_eq. constructor.
  - split.
    + intros H. inversion H as [|R o rs' v enc vs' pl' Hv Hfe|R z rs]; subst.
      * apply Ht in Hv as [Hv Hr]. apply IH in Hfe as (ts1 & ts2 & vs1 & -> & -> & H2 & Hr1).
        exists (t :: ts1), ts2, (v :: vs1). split; [done|]. split; [done|]. split; [by constructor|].
        cbn [map]. apply ref_fields_cons. eauto.
      * exists [], (t :: ts), []. rewrite omap_zero. by split_and!.
    + intros (ts1 & ts2 & vs1 & E & -> & H2 & Hr). destruct H2 as [|t' v ts1 vs1 Hv H2]; cbn [app] in E.
      * subst ts2. cbn in Hr. simplify_eq. cbn [map app]. rewrite <- omap_zero. constructor.
      * injection E as <- ->. cbn [map] in Hr. apply ref_fields_cons in Hr as (a & b & Ha & Hb & ->). cbn [app].
        constructor; [by apply Ht|]. apply IH. eauto 8.
Qed.

(** The encoder drops exactly the zero fields at the end. *)
Lemma lastField_split P Q : Forall (fun v => is_zero v = false) P → Forall (fun v => is_zero v = true) Q →
  lastField (P ++ Q) = P.
Proof.
  intros HP HQ. unfold lastField. rewrite reverse_app.
  assert (HQ' : Forall (fun v => is_zero v = true) (reverse Q)) by (by apply Forall_reverse).
  induction HQ' as [|v Q' Hv _ IH] in |- *; cbn.
  - rewrite <- (reverse_involutive P) at 2. f_equal.
    assert (HP' : Forall (fun v => is_zero v = false) (reverse P)) by (by apply Forall_reverse).
    destruct HP' as [|v P' Hv]; [done|]. cbn. by rewrite Hv.
  - rewrite Hv. exact IH.
Qed.

Lemma has_type_ptr ts vs : Forall (fun t => ptr_type t = true) ts → Forall2 has_type ts vs →
  Forall (fun v => is_zero v = false) vs.
Proof.
  intros Hp H2. induction H2 as [|t v ts vs Hv H2 IH]; [constructor|].
  inversion Hp; subst. constructor; [|auto]. destruct Hv; try done.
Qed.

Lemma zero_ptr ts : Forall (fun t => ptr_type t = true) ts → Forall (fun v => is_zero v = true) (map zero ts).
Proof. induction 1 as [|t ts Ht _ IH]; cbn; constructor; [|done]. by destruct t. Qed.

Lemma ref_struct_ok r o enc :
  ref_value (VStruct r o) = Ok enc ↔
  ∃ p1 p2, ref_fields (map ref_value r) = Ok p1 ∧ ref_fields (map ref_value (lastField o)) = Ok p2 ∧
    enc = rlp_list (p1 ++ p2).
Proof.
  cbn [ref_value]. rewrite fmap_ok. rewrite firstn_map, <- lastField_take. split.
  - intros (a & Ha & ->). apply ref_fields_app in Ha as (p1 & p2 & ? & ? & ->). eauto.
  - intros (p1 & p2 & ? & ? & ->). exists (p1 ++ p2). split; [|done]. apply ref_fields_app. eauto.
Qed.

Lemma Forall_exact ts (Q : rtype → Prop) : Forall (fun t => strict t → exact_type t) ts →
  foldr (fun t P => (strict t ∧ Q t) ∧ P) True ts → Forall exact_type ts ∧ Forall Q ts.
Proof. induction 1 as [|t ts Ht _ IH]; cbn; [done|]. intros [[? ?] ?]. destruct IH; [done|]. by split; constructor; auto. Qed.

(** A value is decoded from a byte string exactly when it has the type and the
    string is its reference encoding. *)
Lemma encodes_exact t : strict t → exact_type t.
Proof.
  induction t as [| |bits| | | |n|e t IH|k t IH|t IH|r o IHr IHo] using rtype_nested_ind; intros Hs v enc; cbn [encodes].
  - split; [intros (i & -> & -> & Hi); cbn; split; [by constructor|by rewrite (proj2 (Z.ltb_ge i 0))]|].
    intros [Ht Hr]. inversion Ht; subst. cbn in Hr. rewrite (proj2 (Z.ltb_ge i 0)) in Hr by done. simplify_eq. eauto.
  - split; [intros (i & -> & -> & Hi); by split; [constructor|]|].
    intros [Ht Hr]. inversion Ht; subst. injection Hr as <-. eauto.
  - split; [intros (i & -> & -> & Hi); by split; [constructor|]|].
    intros [Ht Hr]. inversion Ht; subst. injection Hr as <-. eauto.
  - split; [intros (i & -> & ->); by split; [constructor|]|].
    intros [Ht Hr]. inversion Ht; subst. injection Hr as <-. eauto.
  - split; [intros (i & -> & ->); by split; [constructor|]|].
    intros [Ht Hr]. inversion Ht; subst. injection Hr as <-. eauto.
  - split; [intros (i & -> & ->); by split; [constructor|]|].
    intros [Ht Hr]. inversion Ht; subst. injection Hr as <-. eauto.
  - split; [intros (i & -> & -> & Hi); by split; [constructor|]|].
    intros [Ht Hr]. inversion Ht; subst. injection Hr as <-. eauto.
  - split; [intros (v' & -> & Hv); apply (IH Hs) in Hv as [? ?]; by split; [constructor|]|].
    intros [Ht Hr]. inversion Ht; subst. eexists. split; [done|]. by apply (IH Hs).
  - split.
    + intros [[-> ->]|(v' & -> & Hv & Hne)]; [by split; [constructor|]|].
      apply (IH Hs) in Hv as [? Hr]. split; [|done]. constructor; [done|]. intros enc' ?. congruence.
    + intros [Ht Hr]. inversion Ht; subst; [left; by injection Hr as <-|right].
      eexists. split; [done|]. split; [by apply (IH Hs)|by auto].
  - split.
    + intros (l & pl & -> & -> & Hl). apply (elems_enc_exact t l pl (IH Hs)) in Hl as [? Hr].
      split; [by constructor|]. cbn. by rewrite Hr.
    + intros [Ht Hr]. inversion Ht; subst. cbn [ref_value] in Hr. apply fmap_ok in Hr as (pl & Hr & ->).
      exists l, pl. split_and!; try done. by apply (elems_enc_exact t l pl (IH Hs)).
  - destruct Hs as [Hr Ho].
    pose proof (Forall_foldr _ _ _ IHr Hr) as Hr'. destruct (Forall_exact o _ IHo Ho) as [Ho' Hp]. split.
    + intros (vs & pl & -> & -> & Hfe).
      apply (fields_enc_req _ _ _ _ Hr') in Hfe as (vs1 & vs2 & pl1 & pl2 & -> & -> & H2 & Hr1 & Hfe).
      apply (fields_enc_opt _ _ _ Ho') in Hfe as (ts1 & ts2 & vs3 & -> & -> & H3 & Hr2).
      pose proof (Forall2_length _ _ _ H2) as Hl. rewrite Hl, take_app_length, drop_app_length.
      split; [by constructor|]. apply ref_struct_ok. apply Forall_app in Hp as [Hp1 Hp2].
      rewrite lastField_split; [by eauto|exact (has_type_ptr _ _ Hp1 H3)|by apply zero_ptr].
    + intros [Ht Hrv]. inversion Ht as [| | | | | | | | | | |req opt1 opt2 r' o' H2 H3]; subst.
      apply ref_struct_ok in Hrv as (p1 & p2 & Hr1 & Hr2 & ->). apply Forall_app in Hp as [Hp1 Hp2].
      rewrite lastField_split in Hr2; [|exact (has_type_ptr _ _ Hp1 H3)|by apply zero_ptr].
      pose proof (Forall2_length _ _ _ H2) as Hl. exists (r' ++ o' ++ map zero opt2), (p1 ++ p2).
      rewrite Hl, take_app_length, drop_app_length. split; [done|]. split; [done|].
      apply (fields_enc_req _ _ _ _ Hr'). eexists _, _, _, _. split; [done|]. split; [done|].
      split; [done|]. split; [done|]. apply (fields_enc_opt _ _ _ Ho'). eauto 8.
Qed.

Lemma zero_wf ts : Forall (fun t => ptr_type t = true) ts →
  foldr (fun v P => wf_value v ∧ P) True (map zero ts).
Proof. induction 1 as [|t ts Ht _ IH]; cbn; [done|]. split; [by destruct t|done]. Qed.

Lemma fields_wf ts vs : Forall (fun t => ∀ v, has_type t v → wf_value v) ts → Forall2 has_type ts vs →
  foldr (fun v P => wf_value v ∧ P) True vs.
Proof. intros Ht H2. induction H2; cbn; [done|]. inversion Ht; subst. auto. Qed.

Lemma foldr_wf_app l k : foldr (fun v P => wf_value v ∧ P) True l → foldr (fun v P => wf_value v ∧ P) True k →
  foldr (fun v P => wf_value v ∧ P) True (l ++ k).
Proof. induction l; cbn; [done|]. intros [? ?] ?. auto. Qed.

Lemma Forall_foldr_and {A} (P Q R : A → Prop) l :
  foldr (fun x H => P x ∧ H) True l → foldr (fun x H => Q x ∧ H) True l →
  Forall (fun x => P x → Q x → R x) l → Forall R l.
Proof. intros HP HQ H. induction H; [constructor|]. cbn in HP, HQ. destruct HP, HQ. constructor; auto. Qed.

(** Typed values meet what the encoder asks of its values. *)
Lemma has_type_wf t : wf_type t → strict t → ∀ v, has_type t v → wf_value v.
Proof.
  induction t as [| |bits| | | |n|e t IH|k t IH|t IH|r o IHr IHo] using rtype_nested_ind; intros Hwf Hs v Ht;
    inversion Ht as [| | | | | | | | | |? l Hl|req opt1 opt2 r' o' H2 H3]; subst; cbn in *; auto.
  - unfold is_u64. destruct Hwf as [-> |[-> |[-> | ->]]]; lia.
  - apply IH; [by destruct Hwf|done|done].
  - clear Ht. induction Hl; cbn; [done|]. split; [by apply IH|done].
  - destruct Hwf as [Hwr Hwo], Hs as [Hsr Hso].
    assert (Hp : Forall (fun t => ptr_type t = true) (opt1 ++ opt2)).
    { eapply Forall_foldr; [|exact Hso]. apply Forall_true. by intros t [_ ?]. }
    split; [exact (fields_wf _ _ (Forall_foldr_and _ _ _ _ Hwr Hsr IHr) H2)|].
    assert (Ho : Forall (fun t => ∀ v, has_type t v → wf_value v) (opt1 ++ opt2)).
    { eapply Forall_foldr_and; [exact Hwo|exact Hso|]. eapply Forall_impl; [exact IHo|]. cbn. intros t H ? [? ?]. by apply H. }
    apply Forall_app in Ho as [Ho _], Hp as [_ Hp]. apply foldr_wf_app; [exact (fields_wf _ _ Ho H3)|by apply zero_wf].
Qed.

(** ** Properties *)

(** C19. Decoding inverts encoding, and only encodings are decoded: for a type
    whose optional fields are pointers, [DecodeBytes] returns a value exactly
    when it is of the type and the input is its reference encoding; the
    encoder then gives the input back byte for byte.  So every value survives
    a round trip, and no two inputs decode to the same value. *)
Theorem DecodeBytes_inverse (t : rtype) (b : bytes) (v : value) :
  wf_type t → strict t → zlen b < 2 ^ 63 →
  (DecodeBytes b t = Ok v ↔ has_type t v ∧ ref_value v = Ok b) ∧
  (DecodeBytes b t = Ok v → EncodeToBytes v = Ok b).
Proof.
  intros Hwf Hs Hlen.
  assert (Hiff : DecodeBytes b t = Ok v ↔ has_type t v ∧ ref_value v = Ok b).
  { rewrite DecodeBytes_ok by (done || lia). by apply encodes_exact. }
  split; [done|]. intros [Ht Hr]%Hiff. apply emits_makeBytes, write_faithful; try done.
  by eapply has_type_wf.
Qed.

Definition example_type : rtype :=
  TStruct [TUint 64; TSlice (TStruct [TBytes; TBigInt] []); TNilPtr KString (TByteArray 20)] [TBigInt; TPtr (z2b 0x80) (TUint 8)].
Definition example_typed : value :=
  VStruct [VUint 1024; VSlice (Some [VStruct [VBytes (Some [z2b 7]); VBigInt (Some (2 ^ 70))] []]); VPtr (z2b 0x80) None]
          [VBigInt (Some 0); VPtr (z2b 0x80) None].

Definition example_bytes : bytes :=
  map z2b [210; 130; 4; 0; 204; 203; 7; 137; 64; 0; 0; 0; 0; 0; 0; 0; 0; 128; 128].

Lemma DecodeBytes_inverse_witness :
  DecodeBytes example_bytes example_type = Ok example_typed ∧ EncodeToBytes example_typed = Ok example_bytes.
Proof.
  assert (H : DecodeBytes example_bytes example_type = Ok example_typed) by (vm_compute; reflexivity).
  split; [exact H|].
  apply (DecodeBytes_inverse example_type example_bytes example_typed);
    [cbn; split_and!; auto; try discriminate; lia | cbn; split_and!; auto | vm_compute; reflexivity | exact H].
Defined.

(** C31. Every input gets an answer: for every type built from integers of up
    to 64 bits, big integers, 256-bit integers, booleans, strings, byte slices
    and byte arrays by pointers (with or without a nil tag), slices and structs
    with optional fields, and for every byte string, the decoder returns the
    value that the string encodes, or an error if it encodes none.  It does not
    panic and does not loop on a list.  This holds for every bound [h] on the
    length of a byte buffer, above which [make] panics, as long as the input is
    no longer than [h]: the decoder never makes a byte buffer that is longer
    than its input, whatever sizes the input announces. *)
Theorem DecodeBytes_total (t : rtype) (b : bytes) (h : Z) :
  wf_type t → zlen b ≤ h → zlen b < 2 ^ 64 →
  (∃ v, DecodeWithin h b t = Ok v ∧ encodes t v b) ∨ (∃ e, DecodeWithin h b t = Err e ∧ ∀ v, ¬ encodes t v b).
Proof.
  intros Hwf Hh Hlen. pose proof (DecodeWithin_no_panic h t b Hwf Hh Hlen) as Hp.
  pose proof (fun v => DecodeWithin_ok h t b v Hwf Hh Hlen) as Hok.
  destruct (DecodeWithin h b t) as [v|e|] eqn:E; [left|right|done].
  - exists v. split; [done|]. by apply Hok.
  - exists e. split; [done|]. intros v Hv%Hok. done.
Qed.

(** A string that claims 2^56 bytes. *)
Lemma DecodeBytes_total_witness :
  (∃ e, DecodeWithin 9 (map z2b [0xBF; 1; 0; 0; 0; 0; 0; 0; 0]) TBytes = Err e).
Proof.
  destruct (DecodeBytes_total TBytes (map z2b [0xBF; 1; 0; 0; 0; 0; 0; 0; 0]) 9) as [(v & H & _)|(e & H & _)];
    [exact I | discriminate | reflexivity | vm_compute in H; discriminate | exists e; exact H].
Defined.

(** An inner list whose head says it is larger than what its enclosing list
    has left after that head, but not larger than what was left before, is
    opened: the remaining size of the enclosing list wraps around below zero
    instead of [ErrElemTooLarge] being returned. *)
Theorem List_limit_wraps (n : Z) (tail : bytes) (s : Stream) (st : list Z) :
  0 < n < 56 → n ≤ zlen tail → at_pos s (z2b (0xC0 + n) :: tail) (n :: st) → limits st →
  ∃ s', Stream_List s = (Ok n, s') ∧ stack s' = n :: MaxUint64 :: st ∧ MoreDataInList s' = true.
Proof.
  intros Hn Ht [Hb Hk] Hst. unfold Stream_List, mbind, stm_bind, Stream_Kind, listLimit.
  rewrite Hk, (based_stack _ _ _ Hb). cbn [andb]. rewrite (proj2 (Z.eqb_neq n 0)) by lia.
  unfold Stream_readKind.
  destruct (readByte_complete s _ tail (n :: st) Hb) as (s1 & -> & [Hb1 Hk1]); [cbn; lia|].
  rewrite b2z_z2b_small by lia. do 3 (case_if; [lia|]). case_if; [|lia].
  rewrite Z.add_simpl_l. destruct Hb1 as [Hi1 Hr1 Hs1 Hl1 Ha1]. cbn [limited remaining set_byteval andb].
  rewrite Hl1, Hr1, (proj2 (Z.ltb_ge n n)), (proj2 (Z.ltb_ge (zlen tail) n)) by lia. cbn [andb].
  unfold act, listLimit, set_top, set_head. cbn. rewrite Hs1. cbn. eexists. split; [done|]. split.
  - do 2 f_equal. replace (u64 (n - 1)) with (n - 1) by (rewrite u64_small; [done|unfold is_u64; lia]).
    replace (n - 1 - n) with (-1) by lia. done.
  - unfold MoreDataInList, listLimit. cbn. apply Z.ltb_lt. lia.
Qed.

Lemma List_limit_wraps_witness :
  ∃ s', Stream_List (set_stack [1] (Reset [z2b 0xC1; z2b 5] 2)) = (Ok 1, s') ∧ stack s' = [1; MaxUint64].
Proof.
  destruct (List_limit_wraps 1 [z2b 5] (set_stack [1] (Reset [z2b 0xC1; z2b 5] 2)) []) as (s' & H & Hs & _);
    [lia | vm_compute; discriminate | repeat split; vm_compute; discriminate | constructor | exists s'; split; assumption].
Defined.
