(* ===== verification/Types.v ===== *)
(** Core data types of [src/go-ethereum/core/types]: the block header and its
    generated RLP encoder, header copying, blocks, and the derivation of the
    list roots.

    Fixed-size arrays ([common.Hash], [common.Address], [BlockNonce], [Bloom])
    are the numbers their bytes spell, most significant first; [be_bytes n]
    gives the bytes back.  A [*big.Int] or [*common.Hash] field is an option,
    [None] standing for nil.  Keccak-256 comes from golang.org/x/crypto and is
    a parameter. *)

From S2P Require Import Prelude RLP.

(** ** Block nonces *)

Definition EncodeNonce (i : Z) : Z := be_value (be_bytes 8 i).
Definition BlockNonce_Uint64 (n : Z) : Z := be_value (be_bytes 8 n).

(** ** Header *)

Record Header := mkHeader {
  ParentHash : Z;
  UncleHash : Z;
  Coinbase : Z;
  Root : Z;
  TxHash : Z;
  ReceiptHash : Z;
  Bloom : Z;
  Difficulty : option Z;
  Number : option Z;
  GasLimit : Z;
  GasUsed : Z;
  Time : Z;
  Extra : bytes;
  MixDigest : Z;
  Nonce : Z;
  BaseFee : option Z;
  WithdrawalsHash : option Z;
  ExcessDataGas : option Z
}.

(** Field assignments [h.F = v] on a header value. *)
Definition set_Coinbase (v : Z) (h : Header) : Header :=
  let '(mkHeader a b _ d e f g i j k l m n o p q r s) := h in mkHeader a b v d e f g i j k l m n o p q r s.
Definition set_UncleHash (v : Z) (h : Header) : Header :=
  let '(mkHeader a _ c d e f g i j k l m n o p q r s) := h in mkHeader a v c d e f g i j k l m n o p q r s.
Definition set_Root (v : Z) (h : Header) : Header :=
  let '(mkHeader a b c _ e f g i j k l m n o p q r s) := h in mkHeader a b c v e f g i j k l m n o p q r s.
Definition set_TxHash (v : Z) (h : Header) : Header :=
  let '(mkHeader a b c d _ f g i j k l m n o p q r s) := h in mkHeader a b c d v f g i j k l m n o p q r s.
Definition set_ReceiptHash (v : Z) (h : Header) : Header :=
  let '(mkHeader a b c d e _ g i j k l m n o p q r s) := h in mkHeader a b c d e v g i j k l m n o p q r s.
Definition set_Bloom (v : Z) (h : Header) : Header :=
  let '(mkHeader a b c d e f _ i j k l m n o p q r s) := h in mkHeader a b c d e f v i j k l m n o p q r s.
Definition set_Difficulty (v : option Z) (h : Header) : Header :=
  let '(mkHeader a b c d e f g _ j k l m n o p q r s) := h in mkHeader a b c d e f g v j k l m n o p q r s.
Definition set_Number (v : option Z) (h : Header) : Header :=
  let '(mkHeader a b c d e f g i _ k l m n o p q r s) := h in mkHeader a b c d e f g i v k l m n o p q r s.
Definition set_Time (v : Z) (h : Header) : Header :=
  let '(mkHeader a b c d e f g i j k l _ n o p q r s) := h in mkHeader a b c d e f g i j k l v n o p q r s.
Definition set_Extra (v : bytes) (h : Header) : Header :=
  let '(mkHeader a b c d e f g i j k l m _ o p q r s) := h in mkHeader a b c d e f g i j k l m v o p q r s.
Definition set_MixDigest (v : Z) (h : Header) : Header :=
  let '(mkHeader a b c d e f g i j k l m n _ p q r s) := h in mkHeader a b c d e f g i j k l m n v p q r s.
Definition set_Nonce (v : Z) (h : Header) : Header :=
  let '(mkHeader a b c d e f g i j k l m n o _ q r s) := h in mkHeader a b c d e f g i j k l m n o v q r s.
Definition set_WithdrawalsHash (v : option Z) (h : Header) : Header :=
  let '(mkHeader a b c d e f g i j k l m n o p q _ s) := h in mkHeader a b c d e f g i j k l m n o p q v s.

#[global] Instance Header_eq_dec : EqDecision Header.
Proof. solve_decision. Defined.

(** [header.Number.Uint64()] dereferences the pointer. *)
Definition Number_Uint64 {E} (h : Header) : outcome E Z := big_Uint64 <$> deref (Number h).

(** The generated [EncodeRLP]; the encoder buffer is the one passed in, so the
    final [Flush] has nothing to write. *)
Definition EncodeRLP (h : Header) (w : encBuffer) : outcome rlpError encBuffer :=
  let '(w, tmp0) := list_ w in
  let w := writeBytes w (be_bytes 32 (ParentHash h)) in
  let w := writeBytes w (be_bytes 32 (UncleHash h)) in
  let w := writeBytes w (be_bytes 20 (Coinbase h)) in
  let w := writeBytes w (be_bytes 32 (Root h)) in
  let w := writeBytes w (be_bytes 32 (TxHash h)) in
  let w := writeBytes w (be_bytes 32 (ReceiptHash h)) in
  let w := writeBytes w (be_bytes 256 (Bloom h)) in
  w ← writeBigIntPtr w (Difficulty h);
  w ← writeBigIntPtr w (Number h);
  let w := writeUint64 w (GasLimit h) in
  let w := writeUint64 w (GasUsed h) in
  let w := writeUint64 w (Time h) in
  let w := writeBytes w (Extra h) in
  let w := writeBytes w (be_bytes 32 (MixDigest h)) in
  let w := writeBytes w (be_bytes 8 (Nonce h)) in
  let tmp1 := bool_decide (is_Some (BaseFee h)) in
  let tmp2 := bool_decide (is_Some (WithdrawalsHash h)) in
  let tmp3 := bool_decide (is_Some (ExcessDataGas h)) in
  w ← (if tmp1 || tmp2 || tmp3 then writeBigIntPtr w (BaseFee h) else Ok w);
  w ← (if tmp2 || tmp3
       then Ok (match WithdrawalsHash h with
                | None => Write w [z2b 0x80]
                | Some x => writeBytes w (be_bytes 32 x)
                end)
       else Ok w);
  w ← (if tmp3 then writeBigIntPtr w (ExcessDataGas h) else Ok w);
  listEnd w tmp0.

(** A non-nil [*Header] as an RLP value. *)
Definition header_value (h : Header) : value := VPtr (z2b 0xC0) (Some (VEncoder false (EncodeRLP h))).

(** [CopyHeader]: nil difficulty and number become zero. *)
Definition CopyHeader (h : Header) : Header :=
  set_Number (Some (default 0 (Number h)))
    (set_Difficulty (Some (default 0 (Difficulty h))) h).

Inductive sanityError := TooLargeNumber | TooLargeDifficulty | TooLargeExtra | TooLargeBaseFee.

Definition Header_SanityCheck (h : Header) : outcome sanityError unit :=
  _ ← guard_err (match Number h with Some n => negb (big_IsUint64 n) | None => false end) TooLargeNumber;
  _ ← guard_err (match Difficulty h with Some d => 80 <? big_BitLen d | None => false end) TooLargeDifficulty;
  _ ← guard_err (100 * 1024 <? zlen (Extra h)) TooLargeExtra;
  guard_err (match BaseFee h with Some f => 256 <? big_BitLen f | None => false end) TooLargeBaseFee.

(** [HeaderParentHashFromRLP]: the zero hash on malformed input. *)
Definition HeaderParentHashFromRLP (header : bytes) : Z :=
  match SplitList header with
  | Ok (listContent, _) =>
      match SplitString listContent with
      | Ok (parentHash, _) => if zlen parentHash =? 32 then be_value parentHash else 0
      | _ => 0
      end
  | _ => 0
  end.

(** Root of the empty trie, which is also the empty transaction, receipt and
    withdrawal root. *)
Definition EmptyRootHash : Z := 0x56e81f171bcc55a6ff8345e692c0f86e5b48e01b996cadc001622fb5e363b421.
Definition EmptyTxsHash : Z := EmptyRootHash.
Definition EmptyReceiptsHash : Z := EmptyRootHash.
Definition EmptyWithdrawalsHash : Z := EmptyRootHash.

(** ** Deriving list roots *)

(** The [TrieHasher] interface. *)
Record TrieHasher := mkTrieHasher {
  hasher_state : Type;
  hasher_Reset : hasher_state → hasher_state;
  hasher_Update : hasher_state → bytes → bytes → hasher_state;
  hasher_Hash : hasher_state → Z
}.

(** The indices [DeriveSha] visits, in order: its three loops. *)
Definition derive_order (n : Z) : list Z :=
  seqZ 1 (Z.min (n - 1) 0x7f) ++ (if 0 <? n then [0] else []) ++ seqZ 0x80 (n - 0x80).

Definition DeriveSha (t : TrieHasher) (s : hasher_state t) (n : Z) (EncodeIndex : Z → bytes) : Z :=
  hasher_Hash t
    (foldl (fun s i => hasher_Update t s (AppendUint64 [] i) (EncodeIndex i))
       (hasher_Reset t s) (derive_order n)).

(** ** Hashing and blocks *)

Section WithKeccak.
Context (keccak : bytes → Z).

(** [rlpHash] ignores the error of [rlp.Encode]: when encoding fails nothing
    reaches the hasher. *)
Definition rlpHash (v : value) : Z := keccak (Encode append_writer [] v).1.

Definition Header_Hash (h : Header) : Z := rlpHash (header_value h).

Definition EmptyUncleHash : Z := rlpHash (VSlice None).

Definition CalcUncleHash (uncles : list Header) : Z :=
  match uncles with
  | [] => EmptyUncleHash
  | _ => rlpHash (VSlice (Some (map header_value uncles)))
  end.

Definition EmptyBody (h : Header) : bool :=
  let txs := (TxHash h =? EmptyTxsHash) && (UncleHash h =? EmptyUncleHash) in
  match WithdrawalsHash h with
  | None => txs
  | Some x => txs && (x =? EmptyWithdrawalsHash)
  end.

Definition EmptyReceipts (h : Header) : bool := ReceiptHash h =? EmptyReceiptsHash.
End WithKeccak.

(** Blocks, over the types of transactions and withdrawals.  The hash and size
    caches hold the values of the functions they cache. *)
Record Block (Tx Wd : Type) := mkBlock {
  b_header : Header;
  b_uncles : list Header;
  b_transactions : list Tx;
  b_withdrawals : option (list Wd)
}.
Arguments mkBlock {Tx Wd} _ _ _ _.
Arguments b_header {Tx Wd} _.
Arguments b_uncles {Tx Wd} _.
Arguments b_transactions {Tx Wd} _.
Arguments b_withdrawals {Tx Wd} _.

Section Blocks.
Context {Tx Wd Rc : Type} (keccak : bytes → Z).
(** Encodings used for the list roots, the receipts' bloom, and the trie. *)
Context (tx_index : Tx → bytes) (rc_index : Rc → bytes) (wd_index : Wd → bytes).
Context (CreateBloom : list Rc → Z) (hasher : TrieHasher) (hs : hasher_state hasher).

Definition derive_list {A} (enc : A → bytes) (l : list A) : Z :=
  DeriveSha hasher hs (zlen l) (fun i => match l !! Z.to_nat i with Some x => enc x | None => [] end).

Definition NewBlock (header : Header) (txs : list Tx) (uncles : list Header) (receipts : list Rc)
    : Block Tx Wd :=
  let h := CopyHeader header in
  let h := match txs with
           | [] => set_TxHash EmptyTxsHash h
           | _ => set_TxHash (derive_list tx_index txs) h
           end in
  let h := match receipts with
           | [] => set_ReceiptHash EmptyReceiptsHash h
           | _ => set_Bloom (CreateBloom receipts) (set_ReceiptHash (derive_list rc_index receipts) h)
           end in
  match uncles with
  | [] => mkBlock (set_UncleHash (EmptyUncleHash keccak) h) [] txs None
  | _ => mkBlock (set_UncleHash (CalcUncleHash keccak uncles) h) (map CopyHeader uncles) txs None
  end.

Definition WithWithdrawals (b : Block Tx Wd) (withdrawals : option (list Wd)) : Block Tx Wd :=
  match withdrawals with
  | None => b
  | Some _ => mkBlock (b_header b) (b_uncles b) (b_transactions b) withdrawals
  end.

Definition NewBlockWithWithdrawals (header : Header) (txs : list Tx) (uncles : list Header)
    (receipts : list Rc) (withdrawals : option (list Wd)) : Block Tx Wd :=
  let b := NewBlock header txs uncles receipts in
  let wh := match withdrawals with
            | None => None
            | Some [] => Some EmptyWithdrawalsHash
            | Some l => Some (derive_list wd_index l)
            end in
  WithWithdrawals (mkBlock (set_WithdrawalsHash wh (b_header b)) (b_uncles b) (b_transactions b)
                     (b_withdrawals b)) withdrawals.

Definition NewBlockWithHeader (header : Header) : Block Tx Wd := mkBlock (CopyHeader header) [] [] None.

(** [WithBody] drops the withdrawals. *)
Definition WithBody (b : Block Tx Wd) (transactions : list Tx) (uncles : list Header) : Block Tx Wd :=
  mkBlock (CopyHeader (b_header b)) (map CopyHeader uncles) transactions None.

Definition WithSeal (b : Block Tx Wd) (header : Header) : Block Tx Wd :=
  mkBlock header (b_uncles b) (b_transactions b) (b_withdrawals b).

Definition Block_Header (b : Block Tx Wd) : Header := CopyHeader (b_header b).
Definition NumberU64 {E} (b : Block Tx Wd) : outcome E Z := Number_Uint64 (b_header b).
Definition Block_Hash (b : Block Tx Wd) : Z := Header_Hash keccak (b_header b).

(** [EncodeRLP] of a block, through the [extblock] struct. *)
Definition extblock (tx_value : Tx → value) (wd_value : Wd → value) (b : Block Tx Wd) : value :=
  VStruct [header_value (b_header b);
           VSlice (Some (map tx_value (b_transactions b)));
           VSlice (Some (map header_value (b_uncles b)))]
          [VSlice (map wd_value <$> b_withdrawals b)].
End Blocks.

(** ** Lemmas on the header encoding *)

Lemma rlp_str_app_inj a b r1 r2 :
  zlen (rlp_str a ++ r1) < 2 ^ 63 → rlp_str a ++ r1 = rlp_str b ++ r2 → a = b ∧ r1 = r2.
Proof.
  intros Hlen E. assert (H1 : SplitString (rlp_str a ++ r1) = Ok (a, r1)) by (apply SplitString_ok; [lia|done]).
  assert (H2 : SplitString (rlp_str a ++ r1) = Ok (b, r2)) by (apply SplitString_ok; [lia|done]).
  rewrite H1 in H2. by simplify_eq.
Qed.

Lemma rlp_str_nonempty b : rlp_str b ≠ [].
Proof. unfold rlp_str, rlp_head. repeat (case_match || case_if); done. Qed.

(** A sequence of encoded strings determines the strings. *)
Lemma rlp_strs_inj l1 l2 :
  zlen (concat (map rlp_str l1)) < 2 ^ 63 →
  concat (map rlp_str l1) = concat (map rlp_str l2) → l1 = l2.
Proof.
  revert l2. induction l1 as [|a l1 IH]; intros [|b l2] Hlen E; cbn in *; [done| | |].
  - symmetry in E. apply app_eq_nil in E as [E _]. by apply rlp_str_nonempty in E.
  - apply app_eq_nil in E as [E _]. by apply rlp_str_nonempty in E.
  - apply rlp_str_app_inj in E as [-> E]; [|done]. f_equal. apply IH; [|done].
    rewrite zlen_app in Hlen. pose proof (zlen_nonneg (rlp_str b)). lia.
Qed.

Lemma rlp_list_inj p q : zlen (rlp_list p) < 2 ^ 63 → rlp_list p = rlp_list q → p = q.
Proof.
  intros Hlen E. rewrite <- (app_nil_r (rlp_list p)) in Hlen, E. rewrite <- (app_nil_r (rlp_list q)) in E.
  assert (H1 : SplitList (rlp_list p ++ []) = Ok (p, [])) by (apply SplitList_ok; [lia|done]).
  assert (H2 : SplitList (rlp_list p ++ []) = Ok (q, [])) by (apply SplitList_ok; [lia|done]).
  rewrite H1 in H2. by simplify_eq.
Qed.

(** ** Well-formed headers *)

Definition big_ok (p : option Z) : Prop := match p with Some d => 0 ≤ d < 2 ^ 256 | None => False end.

(** The ranges of the field types; difficulty and number are present and fit
    256 bits, and an optional field is only present when the earlier ones are. *)
Record wf_header (h : Header) : Prop := {
  wf_ParentHash : 0 ≤ ParentHash h < 2 ^ 256;
  wf_UncleHash : 0 ≤ UncleHash h < 2 ^ 256;
  wf_Coinbase : 0 ≤ Coinbase h < 2 ^ 160;
  wf_Root : 0 ≤ Root h < 2 ^ 256;
  wf_TxHash : 0 ≤ TxHash h < 2 ^ 256;
  wf_ReceiptHash : 0 ≤ ReceiptHash h < 2 ^ 256;
  wf_Bloom : 0 ≤ Bloom h < 2 ^ 2048;
  wf_Difficulty : big_ok (Difficulty h);
  wf_Number : big_ok (Number h);
  wf_GasLimit : is_u64 (GasLimit h);
  wf_GasUsed : is_u64 (GasUsed h);
  wf_Time : is_u64 (Time h);
  wf_Extra : zlen (Extra h) < 2 ^ 32;
  wf_MixDigest : 0 ≤ MixDigest h < 2 ^ 256;
  wf_Nonce : 0 ≤ Nonce h < 2 ^ 64;
  wf_BaseFee : big_ok (BaseFee h) ∨ BaseFee h = None ∧ WithdrawalsHash h = None;
  wf_WithdrawalsHash : (∃ x, WithdrawalsHash h = Some x ∧ 0 ≤ x < 2 ^ 256)
                       ∨ WithdrawalsHash h = None ∧ ExcessDataGas h = None;
  wf_ExcessDataGas : big_ok (ExcessDataGas h) ∨ ExcessDataGas h = None
}.

Definition optional_fields (b w x : option Z) : list bytes :=
  match b with Some x => [be_min x] | None => [] end
    ++ match w with Some x => [be_bytes 32 x] | None => [] end
    ++ match x with Some x => [be_min x] | None => [] end.

(** The strings a header's list holds. *)
Definition header_fields (h : Header) : list bytes :=
  [be_bytes 32 (ParentHash h); be_bytes 32 (UncleHash h); be_bytes 20 (Coinbase h);
   be_bytes 32 (Root h); be_bytes 32 (TxHash h); be_bytes 32 (ReceiptHash h);
   be_bytes 256 (Bloom h); be_min (default 0 (Difficulty h)); be_min (default 0 (Number h));
   be_min (GasLimit h); be_min (GasUsed h); be_min (Time h); Extra h;
   be_bytes 32 (MixDigest h); be_bytes 8 (Nonce h)]
  ++ optional_fields (BaseFee h) (WithdrawalsHash h) (ExcessDataGas h).

Definition header_payload (h : Header) : bytes := concat (map rlp_str (header_fields h)).

Lemma min_len_256 d : 0 ≤ d < 2 ^ 256 → (min_len d ≤ 32)%nat.
Proof.
  intros. unfold min_len. case_if; [lia|].
  assert (Z.log2 d < 256) by (apply Z.log2_lt_pow2; lia).
  assert (Z.log2 d / 8 < 32) by (apply Z.div_lt_upper_bound; lia). lia.
Qed.

Lemma writeBigIntPtr_spec w p : big_ok p →
  writeBigIntPtr w p = Ok (append_str w (rlp_str (be_min (default 0 p)))).
Proof.
  intros Hp. destruct p as [d|]; cbn in *; [|done]. case_if; [lia|].
  rewrite writeBigInt_spec; [done|lia|]. pose proof (min_len_256 d Hp). unfold is_u64. lia.
Qed.

Lemma writeBytes_array w n z : (n ≤ 256)%nat →
  writeBytes w (be_bytes n z) = append_str w (rlp_str (be_bytes n z)).
Proof. intros. apply writeBytes_spec. rewrite zlen_be_bytes. unfold is_u64. lia. Qed.

Lemma bind_fun_ok {E A B} (a : A) (f : A → outcome E B) : (Ok a ≫= f) = f a.
Proof. done. Qed.

Lemma append_str_nil w : append_str w [] = w.
Proof. destruct w. unfold append_str. cbn. by rewrite app_nil_r. Qed.

(** [EncodeRLP] as one append between opening and closing the list. *)
Lemma EncodeRLP_append h w : wf_header h →
  EncodeRLP h w = (let '(w, i) := list_ w in w ← Ok (append_str w (header_payload h)); listEnd w i).
Proof.
  intros Hwf. destruct Hwf as [_ _ _ _ _ _ _ HD HN HGl HGu HT HE _ _ HB HW HX].
  unfold EncodeRLP. cbn [list_].
  match goal with |- context [EncBuffer ?a ?b ?c] => generalize (EncBuffer a b c) end. intros b.
  rewrite !writeBytes_array by (clear; lia).
  rewrite writeBigIntPtr_spec, bind_fun_ok by done. rewrite writeBigIntPtr_spec, bind_fun_ok by done.
  rewrite !writeUint64_spec by done.
  rewrite (writeBytes_spec _ (Extra h)) by (pose proof (zlen_nonneg (Extra h)); unfold is_u64; lia).
  rewrite !writeBytes_array by (clear; lia). unfold header_payload, header_fields, optional_fields, rlp_uint.
  rewrite map_app, concat_app, <- append_str_app.
  set (b1 := append_str b (concat (map rlp_str [_; _; _; _; _; _; _; _; _; _; _; _; _; _; _]))).
  match goal with |- context [writeBigIntPtr ?x (BaseFee h)] => replace x with b1 end.
  2: { unfold b1. cbn [map concat]. rewrite !append_str_app, app_nil_r. done. }
  clearbody b1. clear HD HN HGl HGu HT HE. 
  destruct HB as [HB|[-> Hw]].
  2: { rewrite Hw. destruct HW as [(x & Hx & _)|[_ ->]]; [congruence|].
       cbn. by rewrite append_str_nil. }
  destruct (BaseFee h) as [f|] eqn:Ef; [|done].
  rewrite (bool_decide_eq_true_2 (is_Some (Some f))) by eauto. cbn [orb].
  rewrite writeBigIntPtr_spec, bind_fun_ok by done. cbn [default].
  destruct HW as [(x & -> & _)|[-> ->]].
  2: { cbn. by rewrite app_nil_r. }
  rewrite (bool_decide_eq_true_2 (is_Some (Some x))) by eauto. cbn [orb].
  rewrite bind_fun_ok, writeBytes_array, append_str_app by (clear; lia).
  destruct HX as [He| ->].
  - destruct (ExcessDataGas h) as [e|]; [|done]. rewrite bool_decide_eq_true_2 by eauto.
    rewrite writeBigIntPtr_spec, !bind_fun_ok, append_str_app by done.
    cbn [map concat app default]. by rewrite app_nil_r, <- app_assoc.
  - cbn [map concat app]. rewrite !bind_fun_ok. by rewrite app_nil_r.
Qed.

Lemma header_field_len h f : wf_header h → f ∈ header_fields h → zlen (rlp_str f) ≤ zlen (Extra h) + 300.
Proof.
  intros Hwf Hf.
  assert (Hle : zlen f ≤ zlen (Extra h) + 256).
  { pose proof (zlen_nonneg (Extra h)) as H0.
    assert (Hm : ∀ p, big_ok p → zlen (be_min (default 0 p)) ≤ 32).
    { intros [d|] Hp; [|done]. rewrite zlen_be_min. pose proof (min_len_256 d Hp). cbn. lia. }
    assert (Hu : ∀ z, is_u64 z → zlen (be_min z) ≤ 32).
    { intros z Hz. rewrite zlen_be_min. pose proof (min_len_u64 z Hz). lia. }
    destruct Hwf as [_ _ _ _ _ _ _ HD HN HGl HGu HT _ _ _ HB HW HX].
    apply Hm in HD, HN. apply Hu in HGl, HGu, HT. unfold header_fields in Hf.
    assert (HfB : ∀ x, BaseFee h = Some x → zlen (be_min x) ≤ 32).
    { intros x Hx. destruct HB as [HB|[? _]]; [|congruence]. apply Hm in HB. by rewrite Hx in HB. }
    assert (HfX : ∀ x, ExcessDataGas h = Some x → zlen (be_min x) ≤ 32).
    { intros x Hx. destruct HX as [HB'|?]; [|congruence]. apply Hm in HB'. by rewrite Hx in HB'. }
    clear Hm Hu HB HW HX.
    unfold optional_fields in Hf. rewrite !elem_of_app, !elem_of_cons, elem_of_nil in Hf.
    destruct Hf as [Hf|[Hf|[Hf|Hf]]].
    - repeat (destruct Hf as [->|Hf]; [rewrite ?zlen_be_bytes; lia|]). done.
    - destruct (BaseFee h) as [x|]; [|by apply elem_of_nil in Hf].
      apply list_elem_of_singleton in Hf as ->. specialize (HfB x eq_refl). lia.
    - destruct (WithdrawalsHash h) as [x|]; [|by apply elem_of_nil in Hf].
      apply list_elem_of_singleton in Hf as ->. rewrite zlen_be_bytes. lia.
    - destruct (ExcessDataGas h) as [x|]; [|by apply elem_of_nil in Hf].
      apply list_elem_of_singleton in Hf as ->. specialize (HfX x eq_refl). lia. }
  pose proof (wf_Extra h Hwf). pose proof (zlen_nonneg f). pose proof (zlen_nonneg (Extra h)).
  destruct (rlp_str_tag f) as [-> _]. rewrite zlen_app.
  assert (zlen (tag_of (str_kind f) (zlen f)) ≤ 9); [|lia].
  destruct (str_kind f); cbn [tag_of]; [done|..]; apply zlen_rlp_head; unfold is_u64; lia.
Qed.

Lemma zlen_concat_bound (l : list bytes) n :
  (∀ x, x ∈ l → zlen x ≤ n) → zlen (concat l) ≤ zlen l * n.
Proof.
  induction l as [|x l IH]; intros H; [done|]. cbn [concat]. rewrite zlen_app, zlen_cons.
  pose proof (H x ltac:(set_solver)). specialize (IH ltac:(set_solver)). lia.
Qed.

(** At most 18 fields, each at most the extra data and a short tag long. *)
Lemma header_payload_len h : wf_header h → zlen (header_payload h) ≤ 18 * (zlen (Extra h) + 300).
Proof.
  intros Hwf. unfold header_payload. pose proof (zlen_nonneg (Extra h)).
  etrans; [apply (zlen_concat_bound _ (zlen (Extra h) + 300))|].
  - intros x Hx. apply list_elem_of_fmap in Hx as (f & -> & Hf). by apply header_field_len.
  - assert (zlen (map rlp_str (header_fields h)) ≤ 18); [|nia].
    unfold zlen. rewrite length_map. unfold header_fields, optional_fields.
    destruct (BaseFee h), (WithdrawalsHash h), (ExcessDataGas h); cbn; lia.
Qed.

Lemma zlen_header_list h : wf_header h → zlen (rlp_list (header_payload h)) < 2 ^ 40.
Proof.
  intros Hwf. pose proof (header_payload_len h Hwf). pose proof (wf_Extra h Hwf).
  pose proof (zlen_nonneg (header_payload h)). unfold rlp_list. rewrite zlen_app.
  pose proof (zlen_rlp_head 192 247 (zlen (header_payload h))). unfold is_u64 in *. lia.
Qed.

Lemma EncodeRLP_emits h : wf_header h → emits (EncodeRLP h) (rlp_list (header_payload h)).
Proof.
  intros Hwf. eapply emits_ext; [intros w; by apply EncodeRLP_append|].
  apply (emits_list (fun w => Ok (append_str w (header_payload h)))); [|apply emits_append].
  pose proof (zlen_header_list h Hwf). pose proof (zlen_rlp_list (header_payload h)).
  pose proof (zlen_nonneg (header_payload h)). unfold is_u64. lia.
Qed.

Lemma header_value_wf h : wf_header h → wf_value (header_value h).
Proof.
  intros Hwf out Hout. pose proof (EncodeRLP_emits h Hwf) as Hem.
  rewrite (emits_makeBytes _ _ Hem) in Hout. by simplify_eq.
Qed.

Lemma EncodeToBytes_header h : wf_header h →
  EncodeToBytes (header_value h) = Ok (rlp_list (header_payload h)).
Proof. intros Hwf. apply (emits_makeBytes (EncodeRLP h)). by apply EncodeRLP_emits. Qed.

Lemma be_min_inj x y : 0 ≤ x → 0 ≤ y → be_min x = be_min y → x = y.
Proof. intros Hx Hy E. rewrite <- (be_value_be_min x), <- (be_value_be_min y) by done. by rewrite E. Qed.

Lemma big_ok_default p q : big_ok p → big_ok q → be_min (default 0 p) = be_min (default 0 q) → p = q.
Proof. destruct p, q; cbn; try done. intros ? ? E. f_equal. apply be_min_inj; [lia..|done]. Qed.

Lemma header_ext h1 h2 :
  ParentHash h1 = ParentHash h2 → UncleHash h1 = UncleHash h2 → Coinbase h1 = Coinbase h2 →
  Root h1 = Root h2 → TxHash h1 = TxHash h2 → ReceiptHash h1 = ReceiptHash h2 →
  Bloom h1 = Bloom h2 → Difficulty h1 = Difficulty h2 → Number h1 = Number h2 →
  GasLimit h1 = GasLimit h2 → GasUsed h1 = GasUsed h2 → Time h1 = Time h2 →
  Extra h1 = Extra h2 → MixDigest h1 = MixDigest h2 → Nonce h1 = Nonce h2 →
  BaseFee h1 = BaseFee h2 → WithdrawalsHash h1 = WithdrawalsHash h2 →
  ExcessDataGas h1 = ExcessDataGas h2 → h1 = h2.
Proof. destruct h1, h2; cbn; intros; by subst. Qed.

(** Optional fields: a prefix of at most three, told apart by their number. *)
Definition optional_ok (b w x : option Z) : Prop :=
  (big_ok b ∨ b = None) ∧ (big_ok x ∨ x = None) ∧ (∀ y, w = Some y → 0 ≤ y < 2 ^ 256) ∧
  (b = None → w = None) ∧ (w = None → x = None).

Lemma wf_header_optional h :
  wf_header h → optional_ok (BaseFee h) (WithdrawalsHash h) (ExcessDataGas h).
Proof.
  intros [_ _ _ _ _ _ _ _ _ _ _ _ _ _ _ HB HW HX]. split_and!.
  - destruct HB as [?|[? ?]]; auto.
  - done.
  - intros y Hy. destruct HW as [(x & Hx & ?)|[? ?]]; [|congruence]. rewrite Hx in Hy. by simplify_eq.
  - intros Hn. destruct HB as [HB|[? ?]]; [by rewrite Hn in HB|done].
  - intros Hn. destruct HW as [(x & Hx & ?)|[? ?]]; [congruence|done].
Qed.

Lemma big_ok_min x y : (big_ok (Some x) ∨ Some x = None) → (big_ok (Some y) ∨ Some y = None) →
  be_min x = be_min y → x = y.
Proof. intros [[? _]|?] [[? _]|?]; [|done..]. by apply be_min_inj. Qed.

Lemma optional_fields_inj b1 b2 w1 w2 x1 x2 :
  optional_ok b1 w1 x1 → optional_ok b2 w2 x2 →
  optional_fields b1 w1 x1 = optional_fields b2 w2 x2 → b1 = b2 ∧ w1 = w2 ∧ x1 = x2.
Proof.
  intros (Hb1 & Hx1 & Hw1 & P1 & P2) (Hb2 & Hx2 & Hw2 & P3 & P4) E. unfold optional_fields in E.
  destruct b1 as [f1|], b2 as [f2|]; try specialize (P1 eq_refl); try specialize (P3 eq_refl); subst;
    try specialize (P2 eq_refl); try specialize (P4 eq_refl); subst; cbn [app] in E; try done.
  apply cons_inv in E as [Ef E]. apply big_ok_min in Ef as ->; [|done..].
  destruct w1 as [g1|], w2 as [g2|]; try specialize (P2 eq_refl); try specialize (P4 eq_refl);
    subst; cbn [app] in E; try done.
  apply cons_inv in E as [Eg E].
  apply (be_bytes_inj 32) in Eg as ->; [|exact (Hw1 _ eq_refl)|exact (Hw2 _ eq_refl)].
  destruct x1 as [k1|], x2 as [k2|]; cbn [app] in E; try done.
  apply cons_inv in E as [Ek _]. by apply big_ok_min in Ek as ->.
Qed.

(** The strings determine a well-formed header. *)
Lemma header_fields_inj h1 h2 :
  wf_header h1 → wf_header h2 → header_fields h1 = header_fields h2 → h1 = h2.
Proof.
  intros Hw1 Hw2 E. unfold header_fields in E. cbn [app] in E.
  apply cons_inv in E as [Ep E]. apply cons_inv in E as [Eu E]. apply cons_inv in E as [Ec E].
  apply cons_inv in E as [Er E]. apply cons_inv in E as [Et E]. apply cons_inv in E as [Erc E].
  apply cons_inv in E as [Ebl E]. apply cons_inv in E as [Ed E]. apply cons_inv in E as [En E].
  apply cons_inv in E as [Egl E]. apply cons_inv in E as [Egu E]. apply cons_inv in E as [Eti E].
  apply cons_inv in E as [Eex E]. apply cons_inv in E as [Emi E]. apply cons_inv in E as [Eno E].
  rename E into Eopt.
  apply optional_fields_inj in Eopt as (Eb & Ew & Ex); [|by apply wf_header_optional..].
  destruct Hw1 as [A1 A2 A3 A4 A5 A6 A7 A8 A9 A10 A11 A12 _ A14 A15 _ _ _].
  destruct Hw2 as [B1 B2 B3 B4 B5 B6 B7 B8 B9 B10 B11 B12 _ B14 B15 _ _ _].
  apply header_ext; try assumption.
  - by apply (be_bytes_inj 32). 
  - by apply (be_bytes_inj 32).
  - by apply (be_bytes_inj 20).
  - by apply (be_bytes_inj 32).
  - by apply (be_bytes_inj 32).
  - by apply (be_bytes_inj 32).
  - by apply (be_bytes_inj 256).
  - by apply big_ok_default.
  - by apply big_ok_default.
  - by apply be_min_inj; [apply A10|apply B10|].
  - by apply be_min_inj; [apply A11|apply B11|].
  - by apply be_min_inj; [apply A12|apply B12|].
  - by apply (be_bytes_inj 32).
  - by apply (be_bytes_inj 8).
Qed.

(** ** The insertion order of [DeriveSha] *)

Lemma rlp_uint_large i : 128 ≤ i → is_u64 i →
  rlp_uint i = z2b (0x80 + Z.of_nat (min_len i)) :: be_min i.
Proof.
  intros Hi Hu. pose proof (writeUint64_spec getEncBuffer i Hu) as H. apply (f_equal str) in H.
  change (str (append_str getEncBuffer (rlp_uint i))) with (rlp_uint i) in H. rewrite <- H. unfold writeUint64. case_if; [lia|]. case_if; [lia|].
  rewrite putint_be_min by (done || lia). unfold append_str. cbn [str getEncBuffer app].
  by rewrite zlen_be_min.
Qed.

Lemma min_len_mono i j : 0 < i ≤ j → (min_len i ≤ min_len j)%nat.
Proof.
  intros Hij. destruct (decide (min_len i ≤ min_len j)%nat) as [|Hn]; [done|exfalso].
  pose proof (min_len_bounds i ltac:(lia)) as [Hi _]. pose proof (min_len_bounds j ltac:(lia)) as [_ Hj].
  assert (2 ^ (8 * Z.of_nat (min_len j)) ≤ 2 ^ (8 * (Z.of_nat (min_len i) - 1))) by
    (apply Z.pow_le_mono_r; lia). lia.
Qed.

Lemma rlp_uint_lt i j : 128 ≤ i < j → is_u64 j →
  bytes_Compare (rlp_uint i) (rlp_uint j) = Lt.
Proof.
  intros Hij Hj. assert (Hi : is_u64 i) by (unfold is_u64 in *; lia).
  rewrite !rlp_uint_large by (done || lia). cbn [bytes_Compare].
  pose proof (min_len_mono i j ltac:(lia)). pose proof (min_len_u64 j Hj).
  rewrite !b2z_z2b_small by lia.
  destruct (Z.compare_spec (128 + Z.of_nat (min_len i)) (128 + Z.of_nat (min_len j))) as [E|E|E]; [|done|lia].
  rewrite bytes_Compare_value.
  - rewrite !be_value_be_min by lia. apply Z.compare_lt_iff. lia.
  - pose proof (zlen_be_min i). pose proof (zlen_be_min j). unfold zlen in *. lia.
Qed.

Lemma rlp_uint_small i : 0 < i < 128 → rlp_uint i = [z2b i].
Proof.
  intros Hi. unfold rlp_uint. rewrite be_min_single by lia. unfold rlp_str.
  rewrite b2z_z2b_small by lia. case_if; [done|lia].
Qed.

(** The order in which the three loops visit indices. *)
Definition before (i j : Z) : Prop :=
  0 < i < 128 ∧ (i < j ∨ j = 0) ∨ i = 0 ∧ 128 ≤ j ∨ 128 ≤ i < j.

Lemma before_key i j : before i j → is_u64 j →
  bytes_Compare (AppendUint64 [] i) (AppendUint64 [] j) = Lt.
Proof.
  intros Hb Hj. assert (Hi : is_u64 i) by (unfold before, is_u64 in *; lia).
  rewrite !AppendUint64_rlp by done. cbn [app].
  destruct Hb as [(Hr & Hj')|[(-> & Hj')|Hij]].
  - rewrite (rlp_uint_small i) by done. destruct (decide (j = 0)) as [->|].
    { change (rlp_uint 0) with [z2b 128]. cbn [bytes_Compare].
      rewrite !b2z_z2b_small by lia. by rewrite (proj2 (Z.compare_lt_iff _ _)) by lia. }
    destruct (decide (j < 128)).
    + rewrite rlp_uint_small by lia. cbn [bytes_Compare]. rewrite !b2z_z2b_small by lia.
      by rewrite (proj2 (Z.compare_lt_iff _ _)) by lia.
    + rewrite rlp_uint_large by (done || lia). cbn [bytes_Compare]. pose proof (min_len_u64 j Hj).
      rewrite !b2z_z2b_small by lia. by rewrite (proj2 (Z.compare_lt_iff _ _)) by lia.
  - change (rlp_uint 0) with [z2b 128]. rewrite rlp_uint_large by (done || lia). cbn [bytes_Compare].
    pose proof (min_len_u64 j Hj). pose proof (min_len_pos j ltac:(lia)).
    rewrite !b2z_z2b_small by lia. by rewrite (proj2 (Z.compare_lt_iff _ _)) by lia.
  - by apply rlp_uint_lt.
Qed.

Lemma elem_of_seqZ_iff m n k : k ∈ seqZ m n ↔ m ≤ k < m + n.
Proof. apply elem_of_seqZ. Qed.

Lemma StronglySorted_seqZ (R : Z → Z → Prop) m n :
  (∀ i j, m ≤ i < j → j < m + n → R i j) → StronglySorted R (seqZ m n).
Proof.
  intros HR. destruct (decide (0 ≤ n)) as [Hn|]; [|rewrite seqZ_nil by lia; constructor].
  revert m HR. pattern n. apply natlike_ind; [intros; rewrite seqZ_nil by lia; constructor| |done].
  intros k Hk IH m HR. rewrite seqZ_cons by lia. rewrite Z.pred_succ. constructor.
  - apply IH. intros i j ? ?. apply HR; lia.
  - apply Forall_forall. intros j Hj%elem_of_seqZ_iff. apply HR; lia.
Qed.

Lemma derive_order_before n : StronglySorted before (derive_order n).
Proof.
  unfold derive_order, before. apply StronglySorted_app_2; [|apply StronglySorted_seqZ; lia|].
  - intros i j Hi%elem_of_seqZ_iff. rewrite elem_of_app, elem_of_seqZ_iff. intros [Hj|Hj]; [|lia].
    case_if in Hj; [|by apply elem_of_nil in Hj]. apply list_elem_of_singleton in Hj as ->. lia.
  - apply StronglySorted_app_2; [|case_if; repeat constructor|apply StronglySorted_seqZ; lia].
    intros i j Hi Hj%elem_of_seqZ_iff. case_if in Hi; [|by apply elem_of_nil in Hi].
    apply list_elem_of_singleton in Hi as ->. lia.
Qed.

Lemma elem_of_derive_order n i : i ∈ derive_order n ↔ 0 ≤ i < n.
Proof.
  unfold derive_order. rewrite !elem_of_app, !elem_of_seqZ_iff. case_if.
  - rewrite list_elem_of_singleton. lia.
  - rewrite elem_of_nil. lia.
Qed.

Lemma StronglySorted_NoDup {A} (R : A → A → Prop) l :
  (∀ x, ¬ R x x) → StronglySorted R l → NoDup l.
Proof.
  intros HR. induction 1 as [|x l Hs IH Hf]; constructor; [|done].
  intros Hx. rewrite Forall_forall in Hf. by apply (HR x), Hf.
Qed.

Lemma StronglySorted_map {A B} (f : A → B) (R : A → A → Prop) (S : B → B → Prop) l :
  (∀ x y, x ∈ l → y ∈ l → R x y → S (f x) (f y)) → StronglySorted R l → StronglySorted S (map f l).
Proof.
  intros HRS Hs. induction Hs as [|x l Hs IH Hf]; cbn; constructor.
  - apply IH. intros a b Ha Hb. apply HRS; by right.
  - apply Forall_forall. intros y Hy. apply list_elem_of_fmap in Hy as (z & -> & Hz).
    apply HRS; [by left|by right|exact (proj1 (Forall_forall _ _) Hf z Hz)].
Qed.

(** ** Properties *)

(** C40. A well-formed header is determined by its RLP encoding: the generated
    encoder succeeds with the list of its fields, and two headers with the
    same bytes are equal, so equal header hashes can only come from hash
    collisions. *)
Theorem Header_EncodeRLP_injective (h1 h2 : Header) :
  wf_header h1 → wf_header h2 →
  EncodeToBytes (header_value h1) = Ok (rlp_list (concat (map rlp_str (header_fields h1)))) ∧
  (EncodeToBytes (header_value h1) = EncodeToBytes (header_value h2) → h1 = h2).
Proof.
  intros H1 H2. rewrite !EncodeToBytes_header by done. split; [done|].
  pose proof (zlen_header_list h1 H1) as Hl. intros [= E].
  assert (2 ^ 40 < 2 ^ 63) by lia. pose proof (zlen_rlp_list (header_payload h1)).
  apply rlp_list_inj in E; [|lia]. apply rlp_strs_inj in E; [|fold (header_payload h1); lia].
  by apply header_fields_inj.
Qed.

Definition example_header : Header :=
  mkHeader 1 2 3 4 5 6 7 (Some 2) (Some 1025) 8000000 21000 1690985220 (replicate 97 (z2b 1))
           0 (2 ^ 64 - 1) (Some 1000000000) None None.

Lemma example_header_wf : wf_header example_header.
Proof.
  split; try (split; [discriminate|reflexivity]); try reflexivity.
  - left. split; [discriminate|reflexivity].
  - right. done.
  - right. done.
Qed.

Lemma Header_EncodeRLP_injective_witness :
  EncodeToBytes (header_value example_header) =
    Ok (rlp_list (concat (map rlp_str (header_fields example_header)))).
Proof. apply (Header_EncodeRLP_injective example_header example_header); exact example_header_wf. Defined.

(** [HeaderParentHashFromRLP] reads the parent hash out of every encoded
    well-formed header without decoding it. *)
Theorem HeaderParentHashFromRLP_correct (h : Header) (b : bytes) :
  wf_header h → EncodeToBytes (header_value h) = Ok b → HeaderParentHashFromRLP b = ParentHash h.
Proof.
  intros Hwf. rewrite EncodeToBytes_header by done. intros [= <-].
  pose proof (zlen_header_list h Hwf). assert (2 ^ 40 < 2 ^ 64) by lia.
  pose proof (zlen_rlp_list (header_payload h)).
  unfold HeaderParentHashFromRLP.
  assert (SplitList (rlp_list (header_payload h)) = Ok (header_payload h, [])) as ->.
  { apply SplitList_ok; [lia|by rewrite app_nil_r]. }
  destruct (header_fields h) as [|f fs] eqn:Ef; [done|].
  assert (header_payload h = rlp_str f ++ concat (map rlp_str fs)) as Hp by (unfold header_payload; by rewrite Ef).
  assert (SplitString (header_payload h) = Ok (f, concat (map rlp_str fs))) as ->.
  { apply SplitString_ok; [lia|done]. }
  unfold header_fields in Ef. cbn [app] in Ef. apply cons_inv in Ef as [<- _].
  rewrite zlen_be_bytes. case_if; [|lia]. rewrite be_value_be_bytes.
  apply Z.mod_small. exact (wf_ParentHash h Hwf).
Qed.

Lemma HeaderParentHashFromRLP_correct_witness :
  ∃ b, EncodeToBytes (header_value example_header) = Ok b ∧ HeaderParentHashFromRLP b = 1.
Proof.
  eexists. split; [vm_compute; reflexivity|].
  apply (HeaderParentHashFromRLP_correct example_header); [exact example_header_wf|vm_compute; reflexivity].
Defined.

(** [DeriveSha] feeds every list index to the trie hasher exactly once and
    its three loops present the RLP keys in strictly increasing byte order,
    which is the order the stack trie needs. *)
Theorem DeriveSha_order (n : Z) :
  0 ≤ n < 2 ^ 63 →
  derive_order n ≡ₚ seqZ 0 n ∧
  StronglySorted (fun a b => bytes_Compare a b = Lt) (map (AppendUint64 []) (derive_order n)).
Proof.
  intros Hn. pose proof (derive_order_before n) as Hs. split.
  - apply NoDup_Permutation; [|apply NoDup_seqZ|].
    + eapply StronglySorted_NoDup; [|exact Hs]. unfold before. lia.
    + intros i. by rewrite elem_of_derive_order, elem_of_seqZ_iff.
  - eapply StronglySorted_map; [|exact Hs]. intros i j _ Hj Hb.
    apply elem_of_derive_order in Hj. apply before_key; [done|unfold is_u64; lia].
Qed.

Lemma DeriveSha_order_witness : derive_order 130 ≡ₚ seqZ 0 130.
Proof. apply (DeriveSha_order 130). split; reflexivity || discriminate. Defined.
