(* ===== verification/HeaderRLP.v ===== *)
(** Decoding block headers: [rlp.DecodeBytes] into a [types.Header].

    [Header] has a generated encoder ([gen_header_rlp.go]) but no decoder of
    its own, so the reflection-driven struct decoder reads it field by field.
    [header_type] is the struct's description and [header_of] the assignment
    of the decoded fields.  The theorems connect the two independent pieces of
    code: the generated encoder and the generic decoder are inverse. *)

From S2P Require Import Prelude RLP RLPDecode Types.

(** The fields of the struct, with the [optional] tags of block.go. *)
Definition header_type : rtype :=
  TStruct [TByteArray 32; TByteArray 32; TByteArray 20; TByteArray 32; TByteArray 32; TByteArray 32;
           TByteArray 256; TBigInt; TBigInt; TUint 64; TUint 64; TUint 64; TBytes; TByteArray 32; TByteArray 8]
          [TBigInt; TPtr (z2b 0x80) (TByteArray 32); TBigInt].

(** The fields of a header as the decoder delivers them. *)
Definition header_of (v : value) : option Header :=
  match v with
  | VStruct [VByteArray ph; VByteArray uh; VByteArray cb; VByteArray rt; VByteArray th; VByteArray rh;
             VByteArray bl; VBigInt d; VBigInt n; VUint gl; VUint gu; VUint tm; VBytes ex;
             VByteArray md; VByteArray no]
            [VBigInt bf; VPtr _ wh; VBigInt xg] =>
      Some (mkHeader (be_value ph) (be_value uh) (be_value cb) (be_value rt) (be_value th) (be_value rh)
              (be_value bl) d n gl gu tm (default [] ex) (be_value md) (be_value no) bf
              (match wh with Some (VByteArray a) => Some (be_value a) | _ => None end) xg)
  | _ => None
  end.

(** [rlp.DecodeBytes(b, new(types.Header))]. *)
Definition DecodeHeader (b : bytes) : outcome streamError Header :=
  v ← DecodeBytes b header_type;
  deref (header_of v).

(** ** The struct view of a header *)

Definition header_struct (h : Header) : value :=
  VStruct [VByteArray (be_bytes 32 (ParentHash h)); VByteArray (be_bytes 32 (UncleHash h));
           VByteArray (be_bytes 20 (Coinbase h)); VByteArray (be_bytes 32 (Root h));
           VByteArray (be_bytes 32 (TxHash h)); VByteArray (be_bytes 32 (ReceiptHash h));
           VByteArray (be_bytes 256 (Bloom h)); VBigInt (Difficulty h); VBigInt (Number h);
           VUint (GasLimit h); VUint (GasUsed h); VUint (Time h); VBytes (Some (Extra h));
           VByteArray (be_bytes 32 (MixDigest h)); VByteArray (be_bytes 8 (Nonce h))]
          [VBigInt (BaseFee h);
           VPtr (z2b 0x80) (match WithdrawalsHash h with Some x => Some (VByteArray (be_bytes 32 x)) | None => None end);
           VBigInt (ExcessDataGas h)].

Definition nat_ptr (p : option Z) : Prop := match p with Some i => 0 ≤ i | None => False end.
Definition array_ok (n : Z) (z : Z) : Prop := 0 ≤ z < 2 ^ (8 * n).

(** The headers a decoder can return. *)
Record decodable (h : Header) : Prop := Decodable {
  dec_ParentHash : array_ok 32 (ParentHash h);
  dec_UncleHash : array_ok 32 (UncleHash h);
  dec_Coinbase : array_ok 20 (Coinbase h);
  dec_Root : array_ok 32 (Root h);
  dec_TxHash : array_ok 32 (TxHash h);
  dec_ReceiptHash : array_ok 32 (ReceiptHash h);
  dec_Bloom : array_ok 256 (Bloom h);
  dec_Difficulty : nat_ptr (Difficulty h);
  dec_Number : nat_ptr (Number h);
  dec_GasLimit : is_u64 (GasLimit h);
  dec_GasUsed : is_u64 (GasUsed h);
  dec_Time : is_u64 (Time h);
  dec_MixDigest : array_ok 32 (MixDigest h);
  dec_Nonce : array_ok 8 (Nonce h);
  dec_BaseFee : nat_ptr (BaseFee h) ∨ BaseFee h = None ∧ WithdrawalsHash h = None ∧ ExcessDataGas h = None;
  dec_WithdrawalsHash : (∃ x, WithdrawalsHash h = Some x ∧ array_ok 32 x) ∨
                        WithdrawalsHash h = None ∧ ExcessDataGas h = None;
  dec_ExcessDataGas : nat_ptr (ExcessDataGas h) ∨ ExcessDataGas h = None
}.

#[local] Arguments be_bytes : simpl never.
#[local] Arguments be_value : simpl never.

Lemma header_type_wf : wf_type header_type.
Proof. cbn. split_and!; auto; lia. Qed.
Lemma header_type_strict : strict header_type.
Proof. cbn. split_and!; auto. Qed.

Lemma array_value n a : zlen a = Z.of_nat n → be_bytes n (be_value a) = a ∧ array_ok (Z.of_nat n) (be_value a).
Proof.
  intros Ha. split.
  - assert (n = length a) as -> by (unfold zlen in Ha; lia). apply be_bytes_be_value.
  - unfold array_ok. rewrite <- Ha. split; [apply be_value_nonneg|apply be_value_lt].
Qed.

Lemma array_of_bytes n z : array_ok (Z.of_nat n) z → be_value (be_bytes n z) = z.
Proof. intros. rewrite be_value_be_bytes. by apply Z.mod_small. Qed.

Lemma has_type_array n a : has_type (TByteArray n) a → ∃ b, a = VByteArray b ∧ zlen b = n.
Proof. intros H. inversion H; subst. eauto. Qed.
Lemma has_type_bigint v : has_type TBigInt v → ∃ i, v = VBigInt (Some i) ∧ 0 ≤ i.
Proof. intros H. inversion H; subst. eauto. Qed.
Lemma has_type_uint bits v : has_type (TUint bits) v → ∃ i, v = VUint i ∧ 0 ≤ i < 2 ^ bits.
Proof. intros H. inversion H; subst. eauto. Qed.
Lemma has_type_bytes v : has_type TBytes v → ∃ b, v = VBytes (Some b).
Proof. intros H. inversion H; subst. eauto. Qed.

Lemma Forall2_cons_l {A B} (R : A → B → Prop) x l k : Forall2 R (x :: l) k → ∃ y k', k = y :: k' ∧ R x y ∧ Forall2 R l k'.
Proof. intros H. inversion H; subst. eauto. Qed.

Ltac field H :=
  apply Forall2_cons_l in H as (?v & ?vs & -> & ?Hv & H).

Ltac array H := apply has_type_array in H as (?a & -> & H).

(** The three optional fields: a present prefix, then zero values. *)
Lemma optional_shape opt1 opt2 (o : list value) :
  opt1 ++ opt2 = [TBigInt; TPtr (z2b 0x80) (TByteArray 32); TBigInt] → Forall2 has_type opt1 o →
  ∃ bf wh xg, o ++ map zero opt2 =
      [VBigInt bf; VPtr (z2b 0x80) (match wh with Some x => Some (VByteArray (be_bytes 32 x)) | None => None end); VBigInt xg] ∧
    (nat_ptr bf ∨ bf = None ∧ wh = None ∧ xg = None) ∧
    ((∃ x, wh = Some x ∧ array_ok 32 x) ∨ wh = None ∧ xg = None) ∧ (nat_ptr xg ∨ xg = None).
Proof.
  intros E H.
  destruct opt1 as [|t1 [|t2 [|t3 [|t4 opt1]]]]; cbn in E; simplify_eq;
    try (destruct opt1; cbn in E; simplify_eq); repeat field H; inversion H; subst; clear H;
    repeat match goal with
    | H : has_type TBigInt _ |- _ => apply has_type_bigint in H as (? & -> & ?)
    | H : has_type (TPtr _ _) _ |- _ => inversion H; subst; clear H
    end;
    repeat match goal with H : has_type (TByteArray 32) _ |- _ => array H end.
  - exists None, None, None. cbn. split; [done|]. auto.
  - exists (Some x), None, None. cbn. split; [done|]. auto.
  - destruct (array_value 32 a ltac:(done)) as [Ea Ha]. exists (Some x), (Some (be_value a)), None. rewrite Ea. cbn.
    split; [done|]. eauto 8.
  - destruct (array_value 32 a ltac:(done)) as [Ea Ha]. exists (Some x0), (Some (be_value a)), (Some x). rewrite Ea. cbn.
    split; [done|]. eauto 8.
Qed.

Lemma has_type_struct req opt v : has_type (TStruct req opt) v →
  ∃ opt1 opt2 r o, opt1 ++ opt2 = opt ∧ v = VStruct r (o ++ map zero opt2) ∧
    Forall2 has_type req r ∧ Forall2 has_type opt1 o.
Proof. intros H. inversion H; subst. eauto 10. Qed.

(** The next field, an array of [n] bytes. *)
Tactic Notation "array_field" hyp(H) constr(n) ident(a) ident(E) ident(R) :=
  let v := fresh in let Hv := fresh in
  apply Forall2_cons_l in H as (v & ? & -> & Hv & H);
  apply has_type_array in Hv as (a & -> & Hv);
  destruct (array_value n a Hv) as [E R].

Lemma typed_header v : has_type header_type v → ∃ h, v = header_struct h ∧ decodable h.
Proof.
  intros H. apply has_type_struct in H as (opt1 & opt2 & r & o & E & -> & H & H3).
  destruct (optional_shape opt1 opt2 o E H3) as (bf & wh & xg & -> & Hbf & Hwh & Hxg).
  array_field H 32%nat ph E1 R1. array_field H 32%nat uh E2 R2. array_field H 20%nat cb E3 R3.
  array_field H 32%nat rt E4 R4. array_field H 32%nat th E5 R5. array_field H 32%nat rh E6 R6.
  array_field H 256%nat bl E7 R7.
  apply Forall2_cons_l in H as (? & ? & -> & (d & -> & Hd)%has_type_bigint & H).
  apply Forall2_cons_l in H as (? & ? & -> & (n & -> & Hn)%has_type_bigint & H).
  apply Forall2_cons_l in H as (? & ? & -> & (gl & -> & Hgl)%has_type_uint & H).
  apply Forall2_cons_l in H as (? & ? & -> & (gu & -> & Hgu)%has_type_uint & H).
  apply Forall2_cons_l in H as (? & ? & -> & (tm & -> & Htm)%has_type_uint & H).
  apply Forall2_cons_l in H as (? & ? & -> & (ex & ->)%has_type_bytes & H).
  array_field H 32%nat md E8 R8. array_field H 8%nat no E9 R9. apply Forall2_nil_inv_l in H as ->.
  exists (mkHeader (be_value ph) (be_value uh) (be_value cb) (be_value rt) (be_value th) (be_value rh)
            (be_value bl) (Some d) (Some n) gl gu tm ex (be_value md) (be_value no) bf wh xg).
  split; [|by split].
  unfold header_struct. cbn. by rewrite E1, E2, E3, E4, E5, E6, E7, E8, E9.
Qed.

Lemma header_of_struct h : decodable h → header_of (header_struct h) = Some h.
Proof.
  intros [? ? ? ? ? ? ? ? ? ? ? ? ? ? _ Hw _]. destruct h as [? ? ? ? ? ? ? ? ? ? ? ? ? ? ? ? wh ?].
  unfold header_struct, header_of. cbn in *.
  rewrite !array_of_bytes by done.
  destruct Hw as [(x & -> & Hx)|[-> _]]; [|done]. by rewrite array_of_bytes.
Qed.

Lemma header_struct_typed h : decodable h → has_type header_type (header_struct h).
Proof.
  intros [? ? ? ? ? ? ? Hd Hn ? ? ? ? ? Hb Hw Hx].
  assert (Hreq : ∀ o1 o2 o, Forall2 has_type o1 o →
    o1 ++ o2 = [TBigInt; TPtr (z2b 0x80) (TByteArray 32); TBigInt] →
    o ++ map zero o2 = [VBigInt (BaseFee h);
           VPtr (z2b 0x80) (match WithdrawalsHash h with Some x => Some (VByteArray (be_bytes 32 x)) | None => None end);
           VBigInt (ExcessDataGas h)] → has_type header_type (header_struct h)).
  { intros o1 o2 o H2 E1 E2. unfold header_type, header_struct. rewrite <- E1, <- E2. constructor; [|done].
    destruct (Difficulty h), (Number h); try done.
    repeat (constructor; [constructor; (done || apply zlen_be_bytes)|]). constructor. }
  destruct (ExcessDataGas h) as [x|], (WithdrawalsHash h) as [w|], (BaseFee h) as [b|]; cbn in *;
    try (exfalso; naive_solver);
    [apply (Hreq [TBigInt; TPtr (z2b 0x80) (TByteArray 32); TBigInt] []
       [VBigInt (Some b); VPtr (z2b 0x80) (Some (VByteArray (be_bytes 32 w))); VBigInt (Some x)])
    |apply (Hreq [TBigInt; TPtr (z2b 0x80) (TByteArray 32)] [TBigInt]
       [VBigInt (Some b); VPtr (z2b 0x80) (Some (VByteArray (be_bytes 32 w)))])
    |apply (Hreq [TBigInt] [TPtr (z2b 0x80) (TByteArray 32); TBigInt] [VBigInt (Some b)])
    |apply (Hreq [] [TBigInt; TPtr (z2b 0x80) (TByteArray 32); TBigInt] [])]; try done;
    repeat (constructor; [by repeat constructor; (naive_solver || apply zlen_be_bytes)|]); constructor.
Qed.

(** The struct view has the encoding the generated encoder produces. *)
Lemma header_struct_ref h : decodable h → ref_value (header_struct h) = Ok (rlp_list (header_payload h)).
Proof.
  intros [? ? ? ? ? ? ? Hd Hn ? ? ? ? ? Hb Hw Hx]. apply ref_struct_ok.
  exists (concat (map rlp_str (take 15 (header_fields h)))),
         (concat (map rlp_str (optional_fields (BaseFee h) (WithdrawalsHash h) (ExcessDataGas h)))).
  split_and!.
  - destruct (Difficulty h) as [d|] eqn:Ed, (Number h) as [n|] eqn:En; try done. cbn in Hd, Hn.
    unfold header_fields. rewrite Ed, En. cbn. rewrite !(proj2 (Z.ltb_ge _ 0)) by done. done.
  - destruct (ExcessDataGas h) as [x|], (WithdrawalsHash h) as [w|], (BaseFee h) as [b|]; cbn in *;
      try (exfalso; naive_solver); unfold lastField; cbn; rewrite ?(proj2 (Z.ltb_ge _ 0)) by naive_solver; done.
  - unfold header_payload. rewrite <- concat_app, <- map_app. done.
Qed.

Lemma DecodeHeader_ok b h : zlen b < 2 ^ 63 →
  DecodeHeader b = Ok h ↔ decodable h ∧ b = rlp_list (header_payload h).
Proof.
  intros Hlen. assert (Hlen' : zlen b < 2 ^ 64) by lia. unfold DecodeHeader. rewrite bind_ok.
  pose proof (fun v => DecodeBytes_ok header_type b v header_type_wf Hlen) as Hok.
  pose proof (encodes_exact header_type header_type_strict) as Hex. split.
  - intros (v & [Ht Hr]%Hok%Hex & Hh). destruct (typed_header v Ht) as (h' & -> & Hd).
    rewrite header_of_struct in Hh by done. cbn in Hh. simplify_eq.
    rewrite header_struct_ref in Hr by done. by simplify_eq.
  - intros [Hd ->]. exists (header_struct h). split; [|by rewrite header_of_struct].
    apply Hok, Hex. split; [by apply header_struct_typed|by apply header_struct_ref].
Qed.

Lemma wf_decodable h : wf_header h → decodable h.
Proof.
  intros [? ? ? ? ? ? ? Hd Hn ? ? ? _ ? ? Hb Hw Hx]. split; unfold array_ok; try done.
  - destruct (Difficulty h); cbn in *; lia.
  - destruct (Number h); cbn in *; lia.
  - destruct Hb as [Hb|[? ?]]; [left; destruct (BaseFee h); cbn in *; lia|right].
    destruct Hw as [(x & ? & _)|[? ?]]; [congruence|done].
  - destruct Hx as [Hx|?]; [left; destruct (ExcessDataGas h); cbn in *; lia|by right].
Qed.

Lemma big_BitLen_bound x n : 0 ≤ x → 0 < n → big_BitLen x ≤ n → x < 2 ^ n.
Proof.
  intros Hx Hn. unfold big_BitLen. rewrite Z.abs_eq by done. case_if; [intros; subst; apply Z.pow_pos_nonneg; lia|].
  intros Hb. eapply Z.lt_le_trans; [apply Z.log2_spec; lia|]. apply Z.pow_le_mono_r; lia.
Qed.

(** A decoded header that passes [SanityCheck] is well formed. *)
Lemma sane_wf h : decodable h → Header_SanityCheck h = Ok tt →
  (∀ x, ExcessDataGas h = Some x → x < 2 ^ 256) → wf_header h.
Proof.
  intros [? ? ? ? ? ? ? Hd Hn ? ? ? ? ? Hb Hw Hx] Hs Hxl. unfold Header_SanityCheck in Hs. inv_bind.
  destruct (Difficulty h) as [d|] eqn:Ed, (Number h) as [n|] eqn:En; try done. cbn in Hd, Hn. zbool.
  repeat match goal with H : guard_err _ _ = Ok _ |- _ => apply guard_err_ok in H end. zbool.
  split; try done.
  - rewrite Ed. cbn. split; [done|]. eapply Z.lt_le_trans; [apply (big_BitLen_bound d 80); lia|]. by apply Z.pow_le_mono_r.
  - rewrite En. cbn. unfold big_IsUint64 in *. zbool. lia.
  - lia.
  - destruct Hb as [Hb|(? & ? & ?)]; [left|by right]. destruct (BaseFee h) as [f|]; [|done]. cbn in *. split; [done|].
    zbool. apply big_BitLen_bound; lia.
  - destruct Hx as [Hx|?]; [left|by right]. destruct (ExcessDataGas h) as [xg|] eqn:Ex; [|done]. cbn in *. auto.
Qed.

(** ** Properties *)

(** A header survives the trip through RLP: what the generated encoder
    writes for a well-formed header, the reflection-driven decoder reads back
    as the same header, with every field and with the absent optional fields
    absent. *)
Theorem Header_roundtrip (h : Header) :
  wf_header h → ∃ b, EncodeToBytes (header_value h) = Ok b ∧ DecodeHeader b = Ok h.
Proof.
  intros Hwf. exists (rlp_list (header_payload h)). split; [by apply EncodeToBytes_header|].
  pose proof (zlen_header_list h Hwf). apply DecodeHeader_ok; [lia|]. split; [by apply wf_decodable|done].
Qed.

Lemma Header_roundtrip_witness :
  ∃ b, EncodeToBytes (header_value example_header) = Ok b ∧ DecodeHeader b = Ok example_header.
Proof. apply (Header_roundtrip example_header). exact example_header_wf. Defined.

(** The bytes of a header are canonical: a header that was decoded from a
    byte string and passes [SanityCheck] is encoded to exactly that string, so
    its hash is the hash of the received bytes and two byte strings never
    stand for the same header; any other input is an error, never a panic. *)
Theorem DecodeHeader_canonical (b : bytes) (h : Header) :
  zlen b < 2 ^ 63 →
  (DecodeHeader b = Ok h → Header_SanityCheck h = Ok tt → (∀ x, ExcessDataGas h = Some x → x < 2 ^ 256) →
     EncodeToBytes (header_value h) = Ok b) ∧
  (∀ b', zlen b' < 2 ^ 63 → DecodeHeader b = Ok h → DecodeHeader b' = Ok h → b = b') ∧
  DecodeHeader b ≠ Panic.
Proof.
  intros Hlen. split_and!.
  - intros [Hd ->]%DecodeHeader_ok Hs Hx; [|done]. by apply EncodeToBytes_header, sane_wf.
  - intros b' Hlen' [_ ->]%DecodeHeader_ok [_ ->]%DecodeHeader_ok; done.
  - unfold DecodeHeader. destruct (DecodeBytes b header_type) as [v|e|] eqn:E; [|done|].
    + apply (DecodeBytes_ok header_type b v header_type_wf) in E as [Ht _]%(encodes_exact _ header_type_strict); [|lia].
      destruct (typed_header v Ht) as (h' & -> & Hd). cbn [mbind outcome_bind]. by rewrite header_of_struct.
    + exfalso. by apply (DecodeBytes_no_panic header_type b header_type_wf); [lia|].
Qed.

Lemma DecodeHeader_canonical_witness :
  DecodeHeader (rlp_list (header_payload example_header)) = Ok example_header ∧
  EncodeToBytes (header_value example_header) = Ok (rlp_list (header_payload example_header)).
Proof.
  assert (H : DecodeHeader (rlp_list (header_payload example_header)) = Ok example_header)
    by (vm_compute; reflexivity).
  split; [exact H|].
  apply (DecodeHeader_canonical (rlp_list (header_payload example_header)) example_header);
    [vm_compute; reflexivity | exact H | vm_compute; reflexivity | discriminate].
Defined.
