(* ===== verification/Receipts.v ===== *)
(** Receipts, logs and the log bloom filter: [receipt.go], [log.go],
    [gen_log_rlp.go] and [bloom9.go] of [src/go-ethereum/core/types].

    Hashes and addresses are numbers, a [Bloom] is the list of its 256 bytes.
    Keccak-256 is the parameter [keccak]; [bloomValues] reads the first six
    bytes of its digest. *)

From S2P Require Import Prelude RLP RLPDecode Types HeaderRLP.

(** ** Data *)

Record Log := mkLog {
  l_Address : Z;
  l_Topics : list Z;
  l_Data : bytes;
  l_BlockNumber : Z;
  l_TxHash : Z;
  l_TxIndex : Z;
  l_BlockHash : Z;
  l_Index : Z;
  l_Removed : bool
}.
(** A log with the block it is in, as [StateDB.GetLogs] fills it. *)
Definition locate (blockNumber blockHash : Z) (l : Log) : Log :=
  mkLog (l_Address l) (l_Topics l) (l_Data l) blockNumber (l_TxHash l) (l_TxIndex l) blockHash (l_Index l) (l_Removed l).

Record Receipt := mkReceipt {
  r_Type : Z;
  r_PostState : bytes;
  r_Status : Z;
  r_CumulativeGasUsed : Z;
  r_Bloom : bytes;
  r_Logs : list Log;
  r_TxHash : Z;
  r_ContractAddress : Z;
  r_GasUsed : Z;
  r_EffectiveGasPrice : option Z;
  r_BlockHash : Z;
  r_BlockNumber : option Z;
  r_TransactionIndex : Z
}.

#[global] Instance Log_eq_dec : EqDecision Log.
Proof. solve_decision. Defined.
#[global] Instance Receipt_eq_dec : EqDecision Receipt.
Proof. solve_decision. Defined.

Definition ReceiptStatusFailed : Z := 0.
Definition ReceiptStatusSuccessful : Z := 1.
Definition LegacyTxType : Z := 0.
Definition AccessListTxType : Z := 1.
Definition DynamicFeeTxType : Z := 2.

(** ** The bloom filter *)

Definition BloomByteLength : Z := 256.
Definition empty_bloom : bytes := replicate 256 (z2b 0).

(** [uint16] of two bytes, big endian. *)
Definition be_uint16 (hi lo : byte) : Z := b2z hi * 256 + b2z lo.

Section Bloom.
Context (keccak : bytes → Z).

(** The pair of index and bit for one pair of digest bytes. *)
Definition bloom_bit (hi lo : byte) : Z * Z :=
  (BloomByteLength - Z.shiftr (Z.land (be_uint16 hi lo) 0x7ff) 3 - 1, Z.shiftl 1 (Z.land (b2z lo) 0x7)).

Definition bloomValues (data : bytes) : list (Z * Z) :=
  match be_bytes 32 (keccak data) with
  | h0 :: h1 :: h2 :: h3 :: h4 :: h5 :: _ => [bloom_bit h0 h1; bloom_bit h2 h3; bloom_bit h4 h5]
  | _ => []
  end.

(** [b[i] |= v] and the read of [b[i]]. *)
Definition set_bits (b : bytes) (iv : Z * Z) : bytes :=
  match b !! Z.to_nat iv.1 with
  | Some c => <[Z.to_nat iv.1 := z2b (Z.lor (b2z c) iv.2)]> b
  | None => b
  end.
Definition has_bits (b : bytes) (iv : Z * Z) : bool :=
  match b !! Z.to_nat iv.1 with
  | Some c => Z.land iv.2 (b2z c) =? iv.2
  | None => false
  end.

Definition Bloom_add (b d : bytes) : bytes := foldl set_bits b (bloomValues d).
Definition Bloom_Test (b topic : bytes) : bool := forallb (has_bits b) (bloomValues topic).

Definition add_log (bin : bytes) (log : Log) : bytes :=
  foldl (fun bin t => Bloom_add bin (be_bytes 32 t)) (Bloom_add bin (be_bytes 20 (l_Address log))) (l_Topics log).
Definition LogsBloom (logs : list Log) : bytes := foldl add_log empty_bloom logs.
Definition CreateBloom (receipts : list Receipt) : bytes :=
  foldl (fun bin r => foldl add_log bin (r_Logs r)) empty_bloom receipts.
Definition BloomLookup (bin : bytes) (topic : bytes) : bool := Bloom_Test bin topic.
End Bloom.

(** [SetBytes] right-aligns and panics on more than 256 bytes. *)
Definition BytesToBloom {E} (d : bytes) : outcome E bytes :=
  if BloomByteLength <? zlen d then Panic
  else Ok (replicate (Z.to_nat (BloomByteLength - zlen d)) (z2b 0) ++ d).

(** ** Encoding *)

(** The generated encoder of [rlpLog]. *)
Fixpoint write_topics (topics : list Z) (w : encBuffer) : outcome rlpError encBuffer :=
  match topics with
  | [] => Ok w
  | t :: topics' => write_topics topics' (writeBytes w (be_bytes 32 t))
  end.
Definition rlpLog_EncodeRLP (l : Log) (w : encBuffer) : outcome rlpError encBuffer :=
  let '(w, tmp0) := list_ w in
  let w := writeBytes w (be_bytes 20 (l_Address l)) in
  let '(w, tmp1) := list_ w in
  w ← write_topics (l_Topics l) w;
  w ← listEnd w tmp1;
  let w := writeBytes w (l_Data l) in
  listEnd w tmp0.

(** A non-nil [*Log]: [Log.EncodeRLP] encodes its consensus fields. *)
Definition log_value (l : Log) : value := VPtr (z2b 0xC0) (Some (VEncoder false (rlpLog_EncodeRLP l))).

Definition receiptStatusFailedRLP : bytes := [].
Definition receiptStatusSuccessfulRLP : bytes := [z2b 1].

Definition statusEncoding (r : Receipt) : bytes :=
  if zlen (r_PostState r) =? 0
  then if r_Status r =? ReceiptStatusFailed then receiptStatusFailedRLP else receiptStatusSuccessfulRLP
  else r_PostState r.

Definition receiptRLP (r : Receipt) : value :=
  VStruct [VBytes (Some (statusEncoding r)); VUint (r_CumulativeGasUsed r); VByteArray (r_Bloom r);
           VSlice (Some (map log_value (r_Logs r)))] [].

(** [EncodeToBytes] of a legacy receipt runs [Receipt.EncodeRLP], which
    encodes the struct. *)
Definition MarshalBinary (r : Receipt) : outcome rlpError bytes :=
  if r_Type r =? LegacyTxType then EncodeToBytes (receiptRLP r)
  else b ← EncodeToBytes (receiptRLP r); Ok (z2b (r_Type r) :: b).

(** [Receipts.EncodeIndex] ignores the encoder's error and writes nothing for
    an unknown type. *)
Definition EncodeIndex (rs : list Receipt) (i : Z) : outcome rlpError bytes :=
  r ← deref (rs !! Z.to_nat i);
  let out := (Encode append_writer [] (receiptRLP r)).1 in
  if r_Type r =? LegacyTxType then Ok out
  else if r_Type r =? AccessListTxType then Ok (z2b AccessListTxType :: out)
  else if r_Type r =? DynamicFeeTxType then Ok (z2b DynamicFeeTxType :: out)
  else Ok [].

(** ** Decoding *)

Inductive receiptError :=
| receiptDecode (e : streamError) | errShortTypedReceipt | ErrTxTypeNotSupported | InvalidReceiptStatus (s : bytes).

Definition log_type : rtype := TStruct [TByteArray 20; TSlice (TByteArray 32); TBytes] [].
Definition receipt_type : rtype :=
  TStruct [TBytes; TUint 64; TByteArray 256; TSlice (TPtr (z2b 0xC0) log_type)] [].

Definition array_num (v : value) : option Z := match v with VByteArray a => Some (be_value a) | _ => None end.

(** [Log.DecodeRLP] into a fresh log. *)
Definition log_of (v : value) : option Log :=
  match v with
  | VPtr _ (Some (VStruct [VByteArray a; VSlice ts; VBytes d] [])) =>
      topics ← mapM array_num (default [] ts);
      Some (mkLog (be_value a) topics (default [] d) 0 0 0 0 0 false)
  | _ => None
  end.

Definition setStatus (postStateOrStatus : bytes) (r : Receipt) : outcome receiptError Receipt :=
  let '(mkReceipt ty ps st cg bl lg th ca gu ep bh bn ti) := r in
  if bool_decide (postStateOrStatus = receiptStatusSuccessfulRLP)
  then Ok (mkReceipt ty ps ReceiptStatusSuccessful cg bl lg th ca gu ep bh bn ti)
  else if bool_decide (postStateOrStatus = receiptStatusFailedRLP)
  then Ok (mkReceipt ty ps ReceiptStatusFailed cg bl lg th ca gu ep bh bn ti)
  else if zlen postStateOrStatus =? 32
  then Ok (mkReceipt ty postStateOrStatus st cg bl lg th ca gu ep bh bn ti)
  else Err (InvalidReceiptStatus postStateOrStatus).

(** [setFromRLP] after the type was assigned. *)
Definition setFromRLP (ty : Z) (data : value) (r : Receipt) : outcome receiptError Receipt :=
  match data with
  | VStruct [VBytes st; VUint cg; VByteArray bl; VSlice ls] [] =>
      logs ← deref (mapM log_of (default [] ls));
      let '(mkReceipt _ ps s _ _ _ th ca gu ep bh bn ti) := r in
      setStatus (default [] st) (mkReceipt ty ps s cg bl logs th ca gu ep bh bn ti)
  | _ => Panic
  end.

Definition decodeTyped (b : bytes) (r : Receipt) : outcome receiptError Receipt :=
  match b with
  | ty :: rest =>
      if zlen b <=? 1 then Err errShortTypedReceipt
      else if (b2z ty =? DynamicFeeTxType) || (b2z ty =? AccessListTxType)
      then match DecodeBytes rest receipt_type with
           | Ok data => setFromRLP (b2z ty) data r
           | Err e => Err (receiptDecode e)
           | Panic => Panic
           end
      else Err ErrTxTypeNotSupported
  | [] => Err errShortTypedReceipt
  end.

Definition UnmarshalBinary (b : bytes) (r : Receipt) : outcome receiptError Receipt :=
  match b with
  | c :: _ =>
      if 0x7f <? b2z c
      then match DecodeBytes b receipt_type with
           | Ok data => setFromRLP LegacyTxType data r
           | Err e => Err (receiptDecode e)
           | Panic => Panic
           end
      else decodeTyped b r
  | [] => decodeTyped b r
  end.

(** [new(Receipt)]. *)
Definition zero_receipt : Receipt := mkReceipt 0 [] 0 0 empty_bloom [] 0 0 0 None 0 None 0.

(** ** Lemmas on the bloom filter *)

Section BloomLemmas.
Context (keccak : bytes → Z).

Lemma byte_lor c v : 0 ≤ v < 256 → b2z (z2b (Z.lor (b2z c) v)) = Z.lor (b2z c) v.
Proof.
  intros Hv. rewrite b2z_z2b. apply Z.mod_small. pose proof (b2z_range c). split; [apply Z.lor_nonneg; lia|].
  destruct (decide (Z.lor (b2z c) v = 0)) as [->|]; [lia|]. apply (Z.log2_lt_cancel _ (2 ^ 8)).
  change (Z.log2 (2 ^ 8)) with 8. rewrite Z.log2_lor by lia.
  assert (∀ x, 0 ≤ x < 256 → Z.log2 x < 8); [|apply Z.max_lub_lt; auto with lia].
  intros x Hx. destruct (decide (x = 0)) as [->|]; [done|]. apply Z.log2_lt_pow2; lia.
Qed.

Lemma land_lor_keep v c w : Z.land v c = v → Z.land v (Z.lor c w) = v.
Proof. intros H. rewrite Z.land_lor_distr_r, H. apply Z.bits_inj'. intros n _. rewrite Z.lor_spec, Z.land_spec. by destruct (Z.testbit v n). Qed.
Lemma land_lor_new v c : Z.land v (Z.lor c v) = v.
Proof. apply Z.bits_inj'. intros n _. rewrite Z.land_spec, Z.lor_spec. by destruct (Z.testbit v n), (Z.testbit c n). Qed.

Definition bit_ok (iv : Z * Z) : Prop := 0 ≤ iv.1 < BloomByteLength ∧ 0 ≤ iv.2 < 256.

Lemma bloom_bit_ok hi lo : bit_ok (bloom_bit hi lo).
Proof.
  unfold bit_ok, bloom_bit, BloomByteLength, be_uint16. cbn [fst snd].
  change 0x7ff with (Z.ones 11). change 0x7 with (Z.ones 3). rewrite !Z.land_ones by lia.
  rewrite Z.shiftr_div_pow2, Z.shiftl_mul_pow2 by (try apply Z.mod_pos_bound; lia).
  pose proof (Z.mod_pos_bound (b2z hi * 256 + b2z lo) (2 ^ 11) ltac:(lia)).
  pose proof (Z.mod_pos_bound (b2z lo) (2 ^ 3) ltac:(lia)).
  split; [split|].
  - assert ((b2z hi * 256 + b2z lo) mod 2 ^ 11 / 2 ^ 3 < 256) by (apply Z.div_lt_upper_bound; lia). lia.
  - assert (0 ≤ (b2z hi * 256 + b2z lo) mod 2 ^ 11 / 2 ^ 3) by (apply Z.div_pos; lia). lia.
  - split; [apply Z.mul_nonneg_nonneg; [lia|apply Z.pow_nonneg; lia]|].
    assert (2 ^ (b2z lo mod 2 ^ 3) ≤ 2 ^ 7) by (apply Z.pow_le_mono_r; lia). lia.
Qed.

Lemma bloomValues_ok d : Forall bit_ok (bloomValues keccak d).
Proof.
  unfold bloomValues. destruct (be_bytes 32 (keccak d)) as [|? [|? [|? [|? [|? [|? ?]]]]]]; repeat constructor;
    apply bloom_bit_ok.
Qed.

Lemma length_set_bits b iv : length (set_bits b iv) = length b.
Proof. unfold set_bits. destruct (b !! _); [apply length_insert|done]. Qed.

Lemma has_bits_set b iv : bit_ok iv → length b = 256%nat → has_bits (set_bits b iv) iv = true.
Proof.
  intros [Hi Hv] Hl. unfold has_bits, set_bits, BloomByteLength in *.
  destruct (lookup_lt_is_Some_2 b (Z.to_nat iv.1)) as [c Hc]; [lia|]. rewrite Hc.
  rewrite list_lookup_insert_eq by lia. rewrite byte_lor by done. rewrite land_lor_new. apply Z.eqb_refl.
Qed.

Lemma has_bits_mono b iv jv : bit_ok jv → has_bits b iv = true → has_bits (set_bits b jv) iv = true.
Proof.
  intros [_ Hv]. unfold has_bits, set_bits. destruct (b !! Z.to_nat jv.1) as [c'|] eqn:Ej; [|done].
  destruct (b !! Z.to_nat iv.1) as [c|] eqn:Ei; [|done]. intros H. zbool.
  rewrite list_lookup_insert. case_decide as Hd.
  - destruct Hd as [E _]. rewrite E in Ej. simplify_eq. rewrite byte_lor by done.
    rewrite land_lor_keep by done. apply Z.eqb_refl.
  - rewrite Ei. by apply Z.eqb_eq.
Qed.

Lemma foldl_set_mono l b iv : Forall bit_ok l → has_bits b iv = true → has_bits (foldl set_bits b l) iv = true.
Proof. intros Hl. revert b. induction Hl as [|jv l Hj _ IH]; intros b Hb; cbn; [done|]. apply IH. by apply has_bits_mono. Qed.

Lemma length_foldl_set l b : length (foldl set_bits b l) = length b.
Proof. revert b. induction l as [|iv l IH]; intros b; cbn; [done|]. by rewrite IH, length_set_bits. Qed.

Lemma foldl_set_all l b : Forall bit_ok l → length b = 256%nat → forallb (has_bits (foldl set_bits b l)) l = true.
Proof.
  intros Hl. revert b. induction Hl as [|iv l Hi Hl IH]; intros b Hb; cbn; [done|]. apply andb_true_iff. split.
  - apply foldl_set_mono; [done|]. by apply has_bits_set.
  - apply IH. by rewrite length_set_bits.
Qed.

Lemma length_Bloom_add b d : length (Bloom_add keccak b d) = length b.
Proof. apply length_foldl_set. Qed.
Lemma Bloom_add_Test b d : length b = 256%nat → Bloom_Test keccak (Bloom_add keccak b d) d = true.
Proof. intros. apply foldl_set_all; [apply bloomValues_ok|done]. Qed.
Lemma Bloom_add_mono b d t : Bloom_Test keccak b t = true → Bloom_Test keccak (Bloom_add keccak b d) t = true.
Proof.
  unfold Bloom_Test. rewrite !forallb_forall. intros H iv Hin. apply foldl_set_mono; [apply bloomValues_ok|auto].
Qed.

(** A filter built by steps that keep the length and what was added holds
    what any of the steps adds. *)
Lemma foldl_Test {A} (f : bytes → A → bytes) (l : list A) (x : A) t b :
  (∀ b y, length (f b y) = length b) → (∀ b y, Bloom_Test keccak b t = true → Bloom_Test keccak (f b y) t = true) →
  (∀ b, length b = 256%nat → Bloom_Test keccak (f b x) t = true) →
  length b = 256%nat → x ∈ l → Bloom_Test keccak (foldl f b l) t = true.
Proof.
  intros Hlen Hmono Hadd. revert b. induction l as [|y l IH]; intros b Hb Hx; [by apply elem_of_nil in Hx|]. cbn.
  apply elem_of_cons in Hx as [->|Hx]; [|apply IH; [by rewrite Hlen|done]].
  clear IH. specialize (Hadd b Hb). revert Hadd. generalize (f b y). induction l as [|z l IH]; intros b' H; cbn; auto.
Qed.

Lemma foldl_keep {A} (f : bytes → A → bytes) (P : bytes → Prop) (l : list A) b :
  (∀ b y, P b → P (f b y)) → P b → P (foldl f b l).
Proof. intros Hf. revert b. induction l as [|y l IH]; intros b Hb; cbn; auto. Qed.

Lemma length_add_log b lg : length (add_log keccak b lg) = length b.
Proof.
  unfold add_log. apply (foldl_keep _ (fun b' => length b' = length b)); [|apply length_Bloom_add].
  intros b' y <-. apply length_Bloom_add.
Qed.
Lemma add_log_mono b lg t : Bloom_Test keccak b t = true → Bloom_Test keccak (add_log keccak b lg) t = true.
Proof.
  intros H. unfold add_log. apply (foldl_keep _ (fun b' => Bloom_Test keccak b' t = true)); [|by apply Bloom_add_mono].
  intros b' y. apply Bloom_add_mono.
Qed.
Lemma add_log_Test b lg t : length b = 256%nat →
  t = be_bytes 20 (l_Address lg) ∨ (∃ x, x ∈ l_Topics lg ∧ t = be_bytes 32 x) →
  Bloom_Test keccak (add_log keccak b lg) t = true.
Proof.
  intros Hb [->|(x & Hx & ->)]; unfold add_log.
  - apply (foldl_keep _ (fun b' => Bloom_Test keccak b' _ = true)); [intros b' y; apply Bloom_add_mono|by apply Bloom_add_Test].
  - apply (foldl_Test (fun bin t => Bloom_add keccak bin (be_bytes 32 t)) (l_Topics lg) x); try done.
    + intros. apply length_Bloom_add.
    + intros. by apply Bloom_add_mono.
    + intros. by apply Bloom_add_Test.
    + by rewrite length_Bloom_add.
Qed.
End BloomLemmas.

(** ** Lemmas on the encodings *)

Definition log_payload (l : Log) : bytes :=
  rlp_str (be_bytes 20 (l_Address l)) ++ rlp_list (concat (map (fun t => rlp_str (be_bytes 32 t)) (l_Topics l))) ++
  rlp_str (l_Data l).
Definition receipt_payload (r : Receipt) : bytes :=
  rlp_str (statusEncoding r) ++ rlp_uint (r_CumulativeGasUsed r) ++ rlp_str (r_Bloom r) ++
  rlp_list (concat (map (fun l => rlp_list (log_payload l)) (r_Logs r))).

(** Hashes and addresses in range; the size of the encoding is that of a Go
    slice. *)
Definition wf_log (l : Log) : Prop :=
  array_ok 20 (l_Address l) ∧ Forall (array_ok 32) (l_Topics l).
Record wf_receipt (r : Receipt) : Prop := {
  wr_type : r_Type r = LegacyTxType ∨ r_Type r = AccessListTxType ∨ r_Type r = DynamicFeeTxType;
  wr_status : r_PostState r = [] ∧ (r_Status r = ReceiptStatusFailed ∨ r_Status r = ReceiptStatusSuccessful) ∨
              zlen (r_PostState r) = 32;
  wr_gas : is_u64 (r_CumulativeGasUsed r);
  wr_bloom : zlen (r_Bloom r) = BloomByteLength;
  wr_logs : Forall wf_log (r_Logs r);
  wr_size : zlen (receipt_payload r) < 2 ^ 62
}.

(** The structs the decoder fills. *)
Definition log_struct (l : Log) : value :=
  VPtr (z2b 0xC0) (Some (VStruct [VByteArray (be_bytes 20 (l_Address l));
    VSlice (Some (map (fun t => VByteArray (be_bytes 32 t)) (l_Topics l))); VBytes (Some (l_Data l))] [])).
Definition receipt_struct (r : Receipt) : value :=
  VStruct [VBytes (Some (statusEncoding r)); VUint (r_CumulativeGasUsed r); VByteArray (r_Bloom r);
           VSlice (Some (map log_struct (r_Logs r)))] [].

#[local] Arguments be_bytes : simpl never.
#[local] Arguments be_value : simpl never.

Lemma write_topics_spec ts w :
  write_topics ts w = Ok (append_str w (concat (map (fun t => rlp_str (be_bytes 32 t)) ts))).
Proof.
  revert w. induction ts as [|t ts IH]; intros w; cbn; [by rewrite append_str_nil|].
  rewrite IH, writeBytes_array by lia. by rewrite append_str_app.
Qed.

Lemma log_payload_topics l :
  zlen (concat (map (fun t => rlp_str (be_bytes 32 t)) (l_Topics l))) ≤ zlen (log_payload l) ∧
  zlen (l_Data l) ≤ zlen (log_payload l).
Proof.
  unfold log_payload. rewrite !zlen_app. pose proof (zlen_rlp_list (concat (map (fun t => rlp_str (be_bytes 32 t)) (l_Topics l)))).
  pose proof (zlen_rlp_str (l_Data l)). pose proof (zlen_nonneg (rlp_str (l_Data l))).
  pose proof (zlen_nonneg (rlp_str (be_bytes 20 (l_Address l)))).
  pose proof (zlen_nonneg (concat (map (fun t => rlp_str (be_bytes 32 t)) (l_Topics l)))). lia.
Qed.

Lemma log_emits l : zlen (log_payload l) < 2 ^ 62 → emits (rlpLog_EncodeRLP l) (rlp_list (log_payload l)).
Proof.
  intros Hs. destruct (log_payload_topics l) as [Ht Hd]. pose proof (zlen_nonneg (l_Data l)).
  pose proof (zlen_nonneg (concat (map (fun t => rlp_str (be_bytes 32 t)) (l_Topics l)))).
  pose proof (zlen_nonneg (log_payload l)).
  set (topics := fun w => Ok (append_str w (concat (map (fun t => rlp_str (be_bytes 32 t)) (l_Topics l)))) : outcome rlpError encBuffer).
  eapply (emits_ext _ (fun w => let '(w, i) := list_ w in
    w ← (w1 ← Ok (append_str w (rlp_str (be_bytes 20 (l_Address l))));
         w2 ← (let '(w, j) := list_ w1 in w ← topics w; listEnd w j);
         Ok (append_str w2 (rlp_str (l_Data l)))); listEnd w i)).
  - intros w. unfold rlpLog_EncodeRLP, topics. destruct (list_ w) as [w0 i].
    rewrite writeBytes_array by lia. cbn [mbind outcome_bind].
    destruct (list_ (append_str w0 (rlp_str (be_bytes 20 (l_Address l))))) as [w1 j].
    rewrite write_topics_spec. cbn [mbind outcome_bind]. destruct (listEnd _ j) as [w2| |]; cbn [mbind outcome_bind]; [|done|done].
    rewrite writeBytes_spec by (unfold is_u64; lia). done.
  - apply (emits_list _ (log_payload l)); [unfold is_u64; lia|]. unfold log_payload.
    apply (emits_seq (fun w => Ok (append_str w _))); [apply emits_append|].
    apply (emits_seq (fun w1 => let '(w, j) := list_ w1 in w ← topics w; listEnd w j)); [|apply emits_append].
    apply emits_list; [unfold is_u64; lia|apply emits_append].
Qed.

Lemma log_value_ref l : zlen (log_payload l) < 2 ^ 62 → ref_value (log_value l) = Ok (rlp_list (log_payload l)).
Proof. intros. cbn. apply (emits_makeBytes (rlpLog_EncodeRLP l)). by apply log_emits. Qed.
Lemma log_value_wf l : zlen (log_payload l) < 2 ^ 62 → wf_value (log_value l).
Proof.
  intros Hs out Hout. pose proof (log_emits l Hs) as He. rewrite (emits_makeBytes _ _ He) in Hout. by simplify_eq.
Qed.

Lemma ref_fields_map {A} (f : A → value) (g : A → bytes) l : (∀ x, x ∈ l → ref_value (f x) = Ok (g x)) →
  ref_fields (map ref_value (map f l)) = Ok (concat (map g l)).
Proof.
  induction l as [|x l IH]; intros H; [done|]. cbn [map ref_fields]. rewrite H by (by left).
  cbn [mbind outcome_bind]. rewrite IH by (intros; apply H; by right). done.
Qed.

Lemma log_struct_ref l : ref_value (log_struct l) = Ok (rlp_list (log_payload l)).
Proof.
  cbn [log_struct ref_value map app take length lastField drop_zero ref_fields].
  rewrite (ref_fields_map _ (fun t => rlp_str (be_bytes 32 t))) by done. cbn. unfold log_payload. by rewrite app_nil_r.
Qed.
Lemma log_struct_typed l : wf_log l → has_type (TPtr (z2b 0xC0) log_type) (log_struct l).
Proof.
  intros [Ha Ht]. constructor. apply (ht_struct _ [] [] _ []); [|constructor].
  repeat (constructor; [constructor|]); [apply zlen_be_bytes| |constructor].
  apply Forall_map, Forall_true. intros t. constructor. apply zlen_be_bytes.
Qed.

Lemma logs_bound r : zlen (receipt_payload r) < 2 ^ 62 → ∀ l, l ∈ r_Logs r → zlen (log_payload l) < 2 ^ 62.
Proof.
  intros Hs l Hl. unfold receipt_payload in Hs. rewrite !zlen_app in Hs.
  pose proof (zlen_rlp_list (concat (map (fun l => rlp_list (log_payload l)) (r_Logs r)))) as H1.
  assert (H2 : zlen (rlp_list (log_payload l)) ≤ zlen (concat (map (fun l => rlp_list (log_payload l)) (r_Logs r)))).
  { clear -Hl. induction (r_Logs r) as [|x ls IH]; [by apply elem_of_nil in Hl|]. cbn. rewrite zlen_app.
    apply elem_of_cons in Hl as [->|Hl].
    - pose proof (zlen_nonneg (concat (map (fun l => rlp_list (log_payload l)) ls))). lia.
    - specialize (IH Hl). pose proof (zlen_nonneg (rlp_list (log_payload x))). lia. }
  pose proof (zlen_rlp_list (log_payload l)). pose proof (zlen_nonneg (rlp_str (statusEncoding r))).
  pose proof (zlen_nonneg (rlp_uint (r_CumulativeGasUsed r))). pose proof (zlen_nonneg (rlp_str (r_Bloom r))). lia.
Qed.

(** Any struct of the receipt's shape whose logs encode as they should. *)
Lemma receipt_ref r (f : Log → value) : (∀ l, l ∈ r_Logs r → ref_value (f l) = Ok (rlp_list (log_payload l))) →
  ref_value (VStruct [VBytes (Some (statusEncoding r)); VUint (r_CumulativeGasUsed r); VByteArray (r_Bloom r);
                      VSlice (Some (map f (r_Logs r)))] []) = Ok (rlp_list (receipt_payload r)).
Proof.
  intros Hf. cbn [ref_value map app take length lastField drop_zero ref_fields].
  rewrite (ref_fields_map _ (fun l => rlp_list (log_payload l))) by done. cbn. unfold receipt_payload.
  by rewrite app_nil_r.
Qed.

Lemma rlp_list_bound p : zlen p < 2 ^ 62 → zlen (rlp_list p) < 2 ^ 63.
Proof.
  intros. unfold rlp_list. rewrite zlen_app. pose proof (zlen_nonneg p).
  pose proof (zlen_rlp_head 192 247 (zlen p)). unfold is_u64 in *. lia.
Qed.

Lemma receiptRLP_wf r : wf_receipt r → wf_value (receiptRLP r).
Proof.
  intros [_ _ Hg _ _ Hs]. pose proof (logs_bound r Hs) as Hl.
  cbn. split_and!; try done. clear -Hl. induction (r_Logs r) as [|l ls IH]; cbn; [done|].
  split; [apply log_value_wf, Hl; by left|]. apply IH. intros. apply Hl. by right.
Qed.
Lemma receiptRLP_ref r : wf_receipt r → ref_value (receiptRLP r) = Ok (rlp_list (receipt_payload r)).
Proof.
  intros [_ _ Hg _ _ Hs]. pose proof (logs_bound r Hs) as Hl.
  apply receipt_ref. intros l Hin. by apply log_value_ref, Hl.
Qed.
Lemma receipt_encode r : wf_receipt r →
  EncodeToBytes (receiptRLP r) = Ok (rlp_list (receipt_payload r)) ∧
  Encode append_writer [] (receiptRLP r) = (rlp_list (receipt_payload r), Ok tt).
Proof.
  intros Hwf. pose proof (receiptRLP_wf r Hwf). pose proof (receiptRLP_ref r Hwf) as Hr.
  pose proof (rlp_list_bound _ (wr_size r Hwf)). split.
  - by apply emits_makeBytes, write_faithful.
  - by apply (Encode_writes _ _ []).
Qed.

Lemma receipt_type_wf : wf_type receipt_type.
Proof. cbn. split_and!; auto; lia. Qed.
Lemma receipt_type_strict : strict receipt_type.
Proof. cbn. split_and!; auto. Qed.

Lemma receipt_decode r : wf_receipt r → DecodeBytes (rlp_list (receipt_payload r)) receipt_type = Ok (receipt_struct r).
Proof.
  intros [_ _ Hg Hb Hl Hs]. pose proof (rlp_list_bound _ Hs).
  apply DecodeBytes_ok; [apply receipt_type_wf|lia|]. apply (encodes_exact _ receipt_type_strict). split.
  - apply (ht_struct _ [] [] _ []); [|constructor]. repeat (constructor; [by constructor|]). constructor; [|constructor].
    constructor. apply Forall_map. eapply Forall_impl; [exact Hl|]. intros l. apply log_struct_typed.
  - apply receipt_ref. intros. apply log_struct_ref.
Qed.

(** What survives of a log: the consensus fields. *)
Definition consensus_log (l : Log) : Log := mkLog (l_Address l) (l_Topics l) (l_Data l) 0 0 0 0 0 false.
Definition consensus_receipt (r : Receipt) : Receipt :=
  mkReceipt (r_Type r) (r_PostState r) (if zlen (r_PostState r) =? 0 then r_Status r else 0)
    (r_CumulativeGasUsed r) (r_Bloom r) (map consensus_log (r_Logs r)) 0 0 0 None 0 None 0.

Lemma log_of_struct l : wf_log l → log_of (log_struct l) = Some (consensus_log l).
Proof.
  intros [Ha Ht]. cbn -[array_num].
  assert (E : mapM array_num (map (fun t => VByteArray (be_bytes 32 t)) (l_Topics l)) = Some (l_Topics l)).
  { induction Ht as [|t ts H _ IH]; [done|]. cbn. rewrite IH. cbn. by rewrite (array_of_bytes 32). }
  rewrite E. cbn. unfold consensus_log. by rewrite (array_of_bytes 20).
Qed.

Lemma logs_of_structs ls : Forall wf_log ls → mapM log_of (map log_struct ls) = Some (map consensus_log ls).
Proof. induction 1 as [|l ls H _ IH]; [done|]. cbn [map mapM]. rewrite (log_of_struct l H), IH. done. Qed.

Lemma setFromRLP_struct ty r : wf_receipt r → ty = r_Type r →
  setFromRLP ty (receipt_struct r) zero_receipt = Ok (consensus_receipt r).
Proof.
  intros [_ Hst _ _ Hl _] ->. unfold setFromRLP, receipt_struct. cbn [from_option id]. rewrite logs_of_structs by done.
  cbn [deref mbind outcome_bind zero_receipt]. unfold statusEncoding, consensus_receipt, setStatus.
  destruct Hst as [[-> Hs]|H32].
  - cbn [zlen length]. change (Z.of_nat 0 =? 0) with true. cbn [from_option id]. destruct Hs as [-> | ->]; reflexivity.
  - rewrite H32. change (32 =? 0) with false. cbn [from_option id].
    rewrite !bool_decide_false by (intros E; by rewrite E in H32). by rewrite H32.
Qed.

(** ** Properties *)

(** No false negatives: the address and every topic of every log of a list
    of receipts test positive in the filter [CreateBloom] builds for the
    receipts and in the one [LogsBloom] builds for the logs; both have the 256
    bytes of a [Bloom]. *)
Theorem CreateBloom_complete (keccak : bytes → Z) (receipts : list Receipt) (r : Receipt) (lg : Log) (t : bytes) :
  r ∈ receipts → lg ∈ r_Logs r →
  t = be_bytes 20 (l_Address lg) ∨ (∃ x, x ∈ l_Topics lg ∧ t = be_bytes 32 x) →
  BloomLookup keccak (CreateBloom keccak receipts) t = true ∧
  BloomLookup keccak (LogsBloom keccak (r_Logs r)) t = true ∧
  zlen (CreateBloom keccak receipts) = BloomByteLength ∧ zlen (LogsBloom keccak (r_Logs r)) = BloomByteLength.
Proof.
  intros Hr Hl Ht.
  assert (Hone : ∀ b, length b = 256%nat → Bloom_Test keccak (foldl (add_log keccak) b (r_Logs r)) t = true).
  { intros b Hb. apply (foldl_Test keccak (add_log keccak) (r_Logs r) lg); try done.
    - intros. apply length_add_log.
    - intros. by apply add_log_mono.
    - intros. by apply add_log_Test. }
  assert (Hkeep : ∀ b ls, length (foldl (add_log keccak) b ls) = length b).
  { intros b ls. apply (foldl_keep _ (fun b' => length b' = length b)); [|done]. intros b' y <-. apply length_add_log. }
  unfold BloomLookup, CreateBloom, LogsBloom, zlen, BloomByteLength. split_and!.
  - apply (foldl_Test keccak (fun bin r => foldl (add_log keccak) bin (r_Logs r)) receipts r); try done.
    intros b y Hb. apply (foldl_keep _ (fun b' => Bloom_Test keccak b' t = true)); [|done]. intros. by apply add_log_mono.
  - by apply Hone.
  - rewrite (foldl_keep _ (fun b' => length b' = 256%nat)); [done| |done]. intros b y Hb. by rewrite Hkeep.
  - by rewrite Hkeep.
Qed.

(** C33. Receipts survive their consensus encoding: for a receipt of a supported
    type with a status or a post state, [MarshalBinary] yields bytes that
    [UnmarshalBinary] turns back into the receipt's consensus fields (type,
    status or post state, cumulative gas, bloom, and address, topics and data
    of every log); and the bytes are the ones hashed into the receipt root. *)
Theorem Receipt_roundtrip (r : Receipt) : wf_receipt r →
  ∃ b, MarshalBinary r = Ok b ∧ UnmarshalBinary b zero_receipt = Ok (consensus_receipt r) ∧ EncodeIndex [r] 0 = Ok b.
Proof.
  intros Hwf. destruct (receipt_encode r Hwf) as [He Hw]. pose proof (receipt_decode r Hwf) as Hd.
  unfold MarshalBinary, EncodeIndex. change (deref ([r] !! Z.to_nat 0)) with (Ok r : outcome rlpError Receipt).
  cbn [mbind outcome_bind]. rewrite He, Hw. cbn [fst].
  pose proof (wr_size r Hwf) as Hs. pose proof (zlen_nonneg (receipt_payload r)).
  assert (Hhead : ∃ c rest, rlp_list (receipt_payload r) = c :: rest ∧ 192 ≤ b2z c).
  { unfold rlp_list, rlp_head. assert (Hm := min_len_u64 (zlen (receipt_payload r)) ltac:(unfold is_u64; lia)).
    case_if; eexists _, _; (split; [reflexivity|]); rewrite b2z_z2b, Z.mod_small by lia; lia. }
  destruct Hhead as (c & rest & Ec & Hc).
  destruct (wr_type r Hwf) as [E|E]; [|assert (Ht : r_Type r = 1 ∨ r_Type r = 2) by done; clear E].
  - rewrite E. cbn. eexists. split; [reflexivity|]. split; [|done]. unfold UnmarshalBinary. rewrite Ec, <- Ec.
    case_if; [|lia]. rewrite Hd. by apply setFromRLP_struct.
  - exists (z2b (r_Type r) :: rlp_list (receipt_payload r)).
    assert (Eb : b2z (z2b (r_Type r)) = r_Type r) by (rewrite b2z_z2b; destruct Ht as [-> | ->]; done).
    unfold LegacyTxType, AccessListTxType, DynamicFeeTxType in *.
    split; [destruct Ht as [-> | ->]; done|]. split; [|destruct Ht as [-> | ->]; done].
    unfold UnmarshalBinary, decodeTyped. rewrite Eb, Hd.
    rewrite (proj2 (Z.ltb_ge 127 (r_Type r))) by lia. rewrite zlen_cons, Ec, zlen_cons. pose proof (zlen_nonneg rest).
    rewrite (proj2 (Z.leb_gt _ 1)) by lia. unfold AccessListTxType, DynamicFeeTxType.
    replace ((r_Type r =? 2) || (r_Type r =? 1)) with true by (destruct Ht as [-> | ->]; done).
    by apply setFromRLP_struct.
Qed.

Definition example_log : Log := mkLog 0xabcdef [1; 2 ^ 200] [z2b 9; z2b 8] 7 5 0 3 0 false.
Definition example_receipt : Receipt :=
  mkReceipt 2 [] 1 21000 (LogsBloom (fun b => be_value b * 2 ^ 90) [example_log]) [example_log] 5 0 21000 (Some 10) 3 (Some 7) 0.

Lemma CreateBloom_complete_witness :
  BloomLookup (fun b => be_value b * 2 ^ 90) (CreateBloom (fun b => be_value b * 2 ^ 90) [example_receipt]) (be_bytes 32 (2 ^ 200)) = true.
Proof.
  apply (CreateBloom_complete (fun b => be_value b * 2 ^ 90) [example_receipt] example_receipt example_log (be_bytes 32 (2 ^ 200)));
    [left | left |]. right. exists (2 ^ 200). split; [right; left|reflexivity].
Defined.

Lemma example_receipt_wf : wf_receipt example_receipt.
Proof.
  split.
  - right; right; reflexivity.
  - left; split; [reflexivity|right; reflexivity].
  - vm_compute; split; [discriminate|reflexivity].
  - vm_compute; reflexivity.
  - repeat constructor; vm_compute; (discriminate || reflexivity).
  - vm_compute; reflexivity.
Qed.

Lemma Receipt_roundtrip_witness :
  ∃ b, MarshalBinary example_receipt = Ok b ∧ UnmarshalBinary b zero_receipt = Ok (consensus_receipt example_receipt) ∧
       zlen b = 363.
Proof.
  destruct (Receipt_roundtrip example_receipt example_receipt_wf) as (b & H1 & H2 & _).
  exists b. split; [exact H1|]. split; [exact H2|].
  assert (E : (match MarshalBinary example_receipt with Ok b => zlen b | _ => 0 end) = 363) by (vm_compute; reflexivity).
  rewrite H1 in E. exact E.
Defined.
