(* ===== verification/Config.v ===== *)
(** Chain configuration of [src/go-ethereum/params/config.go]: which forks are
    active at a block number or timestamp, the check that a configuration does
    not skip forks, and the check that a new configuration does not rewrite
    history.

    A [*big.Int] block number or [*uint64] timestamp is an option. *)

From S2P Require Import Prelude.

(** Clique parameters. *)
Record CliqueConfig := mkCliqueConfig { Period : Z; Epoch : Z }.

Record ChainConfig := mkChainConfig {
  ChainID : option Z;
  HomesteadBlock : option Z;
  DAOForkBlock : option Z;
  DAOForkSupport : bool;
  EIP150Block : option Z;
  EIP155Block : option Z;
  EIP158Block : option Z;
  ByzantiumBlock : option Z;
  ConstantinopleBlock : option Z;
  PetersburgBlock : option Z;
  IstanbulBlock : option Z;
  MuirGlacierBlock : option Z;
  BerlinBlock : option Z;
  LondonBlock : option Z;
  ArrowGlacierBlock : option Z;
  GrayGlacierBlock : option Z;
  MergeNetsplitBlock : option Z;
  ShanghaiTime : option Z;
  CancunTime : option Z;
  PragueTime : option Z;
  TerminalTotalDifficulty : option Z;
  TerminalTotalDifficultyPassed : bool;
  Clique : option CliqueConfig
}.

(** ** Fork activation *)

Definition isBlockForked (s head : option Z) : bool :=
  match s, head with Some s, Some head => s <=? head | _, _ => false end.

Definition isTimestampForked (s : option Z) (head : Z) : bool :=
  match s with Some s => s <=? head | None => false end.

Definition configBlockEqual (x y : option Z) : bool :=
  match x, y with
  | None, None => true
  | Some x, Some y => x =? y
  | _, _ => false
  end.

Definition configTimestampEqual (x y : option Z) : bool :=
  match x, y with
  | None, None => true
  | Some x, Some y => x =? y
  | _, _ => false
  end.

Definition isForkBlockIncompatible (s1 s2 head : option Z) : bool :=
  (isBlockForked s1 head || isBlockForked s2 head) && negb (configBlockEqual s1 s2).

Definition isForkTimestampIncompatible (s1 s2 : option Z) (head : Z) : bool :=
  (isTimestampForked s1 head || isTimestampForked s2 head) && negb (configTimestampEqual s1 s2).

Definition IsHomestead (c : ChainConfig) (num : option Z) : bool := isBlockForked (HomesteadBlock c) num.
Definition IsDAOFork (c : ChainConfig) (num : option Z) : bool := isBlockForked (DAOForkBlock c) num.
Definition IsEIP150 (c : ChainConfig) (num : option Z) : bool := isBlockForked (EIP150Block c) num.
Definition IsEIP155 (c : ChainConfig) (num : option Z) : bool := isBlockForked (EIP155Block c) num.
Definition IsEIP158 (c : ChainConfig) (num : option Z) : bool := isBlockForked (EIP158Block c) num.
Definition IsByzantium (c : ChainConfig) (num : option Z) : bool := isBlockForked (ByzantiumBlock c) num.
Definition IsConstantinople (c : ChainConfig) (num : option Z) : bool := isBlockForked (ConstantinopleBlock c) num.
Definition IsMuirGlacier (c : ChainConfig) (num : option Z) : bool := isBlockForked (MuirGlacierBlock c) num.
Definition IsPetersburg (c : ChainConfig) (num : option Z) : bool :=
  isBlockForked (PetersburgBlock c) num
  || match PetersburgBlock c with None => isBlockForked (ConstantinopleBlock c) num | Some _ => false end.
Definition IsIstanbul (c : ChainConfig) (num : option Z) : bool := isBlockForked (IstanbulBlock c) num.
Definition IsBerlin (c : ChainConfig) (num : option Z) : bool := isBlockForked (BerlinBlock c) num.
Definition IsLondon (c : ChainConfig) (num : option Z) : bool := isBlockForked (LondonBlock c) num.
Definition IsArrowGlacier (c : ChainConfig) (num : option Z) : bool := isBlockForked (ArrowGlacierBlock c) num.
Definition IsGrayGlacier (c : ChainConfig) (num : option Z) : bool := isBlockForked (GrayGlacierBlock c) num.
Definition IsTerminalPoWBlock (c : ChainConfig) (parentTotalDiff totalDiff : Z) : bool :=
  match TerminalTotalDifficulty c with
  | None => false
  | Some ttd => (parentTotalDiff <? ttd) && (ttd <=? totalDiff)
  end.
Definition IsShanghai (c : ChainConfig) (time : Z) : bool := isTimestampForked (ShanghaiTime c) time.
Definition IsCancun (c : ChainConfig) (time : Z) : bool := isTimestampForked (CancunTime c) time.
Definition IsPrague (c : ChainConfig) (time : Z) : bool := isTimestampForked (PragueTime c) time.

Definition BaseFeeChangeDenominator : Z := 8.
Definition ElasticityMultiplier : Z := 2.

(** [Rules]: the flags of one block. *)
Record RulesT := mkRules {
  r_ChainID : Z;
  r_IsHomestead : bool; r_IsEIP150 : bool; r_IsEIP155 : bool; r_IsEIP158 : bool;
  r_IsByzantium : bool; r_IsConstantinople : bool; r_IsPetersburg : bool; r_IsIstanbul : bool;
  r_IsBerlin : bool; r_IsLondon : bool;
  r_IsMerge : bool; r_IsShanghai : bool; r_IsCancun : bool; r_IsPrague : bool
}.

Definition Rules (c : ChainConfig) (num : option Z) (isMerge : bool) (timestamp : Z) : RulesT :=
  mkRules (default 0 (ChainID c))
    (IsHomestead c num) (IsEIP150 c num) (IsEIP155 c num) (IsEIP158 c num)
    (IsByzantium c num) (IsConstantinople c num) (IsPetersburg c num) (IsIstanbul c num)
    (IsBerlin c num) (IsLondon c num)
    isMerge (IsShanghai c timestamp) (IsCancun c timestamp) (IsPrague c timestamp).

(** ** Fork order *)

Record fork := mkFork { f_name : string; f_block : option Z; f_timestamp : option Z; f_optional : bool }.

(** The table [CheckConfigForkOrder] walks. *)
Definition forks (c : ChainConfig) : list fork :=
  [mkFork "homesteadBlock" (HomesteadBlock c) None false;
   mkFork "daoForkBlock" (DAOForkBlock c) None true;
   mkFork "eip150Block" (EIP150Block c) None false;
   mkFork "eip155Block" (EIP155Block c) None false;
   mkFork "eip158Block" (EIP158Block c) None false;
   mkFork "byzantiumBlock" (ByzantiumBlock c) None false;
   mkFork "constantinopleBlock" (ConstantinopleBlock c) None false;
   mkFork "petersburgBlock" (PetersburgBlock c) None false;
   mkFork "istanbulBlock" (IstanbulBlock c) None false;
   mkFork "muirGlacierBlock" (MuirGlacierBlock c) None true;
   mkFork "berlinBlock" (BerlinBlock c) None false;
   mkFork "londonBlock" (LondonBlock c) None false;
   mkFork "arrowGlacierBlock" (ArrowGlacierBlock c) None true;
   mkFork "grayGlacierBlock" (GrayGlacierBlock c) None true;
   mkFork "mergeNetsplitBlock" (MergeNetsplitBlock c) None true;
   mkFork "shanghaiTime" None (ShanghaiTime c) false;
   mkFork "cancunTime" None (CancunTime c) true;
   mkFork "pragueTime" None (PragueTime c) true].

Inductive orderError :=
| NotEnabled (last cur : string)
| BlockOrder (last cur : string)
| TimestampOrder (last cur : string)
| RevertedToBlock (last cur : string).

Definition is_set (f : fork) : bool :=
  bool_decide (is_Some (f_block f)) || bool_decide (is_Some (f_timestamp f)).

(** The switch of one iteration; comparing with a nil block or timestamp
    panics. *)
Definition fork_step (lastFork cur : fork) : outcome orderError unit :=
  let set {A} (o : option A) := bool_decide (is_Some o) in
  if negb (is_set lastFork) && is_set cur then Err (NotEnabled (f_name lastFork) (f_name cur))
  else if (set (f_block lastFork) && set (f_block cur))
          || (set (f_timestamp lastFork) && set (f_timestamp cur)) then
    later ← match f_block lastFork with
            | Some lb => cb ← deref (f_block cur); Ok (cb <? lb)
            | None => Ok false
            end;
    if (later : bool) then Err (BlockOrder (f_name lastFork) (f_name cur)) else
    later ← match f_timestamp lastFork with
            | Some lt => ct ← deref (f_timestamp cur); Ok (ct <? lt)
            | None => Ok false
            end;
    if (later : bool) then Err (TimestampOrder (f_name lastFork) (f_name cur)) else
    guard_err (set (f_timestamp lastFork) && set (f_block cur))
      (RevertedToBlock (f_name lastFork) (f_name cur))
  else Ok tt.

Fixpoint fork_loop (lastFork : option fork) (fs : list fork) : outcome orderError unit :=
  match fs with
  | [] => Ok tt
  | cur :: fs' =>
      _ ← match lastFork with Some l => fork_step l cur | None => Ok tt end;
      fork_loop (if negb (f_optional cur) || is_set cur then Some cur else lastFork) fs'
  end.

Definition CheckConfigForkOrder (c : ChainConfig) : outcome orderError unit := fork_loop None (forks c).

(** ** Compatibility of a new configuration *)

Record ConfigCompatError := mkCompatError {
  What : string;
  StoredBlock : option Z; NewBlock : option Z;
  StoredTime : option Z; NewTime : option Z;
  RewindToBlock : Z;
  RewindToTime : Z
}.

Definition newBlockCompatError (what : string) (storedblock newblock : option Z) : ConfigCompatError :=
  let rew := match storedblock, newblock with
             | None, _ => newblock
             | Some s, None => storedblock
             | Some s, Some n => if s <? n then storedblock else newblock
             end in
  mkCompatError what storedblock newblock None None
    (match rew with Some r => if 0 <? r then u64 (big_Uint64 r - 1) else 0 | None => 0 end) 0.

Definition newTimestampCompatError (what : string) (storedtime newtime : option Z) : ConfigCompatError :=
  let rew := match storedtime, newtime with
             | None, _ => newtime
             | Some s, None => storedtime
             | Some s, Some n => if s <? n then storedtime else newtime
             end in
  mkCompatError what None None storedtime newtime 0
    (match rew with Some r => u64 (r - 1) | None => 0 end).

(** The checks of [checkCompatible] in source order; the first that fails is
    the result. *)
Definition block_check (what : string) (s1 s2 head : option Z) : option ConfigCompatError :=
  if isForkBlockIncompatible s1 s2 head then Some (newBlockCompatError what s1 s2) else None.
Definition time_check (what : string) (s1 s2 : option Z) (head : Z) : option ConfigCompatError :=
  if isForkTimestampIncompatible s1 s2 head then Some (newTimestampCompatError what s1 s2) else None.

Fixpoint first_error (l : list (option ConfigCompatError)) : option ConfigCompatError :=
  match l with [] => None | Some e :: _ => Some e | None :: l' => first_error l' end.

Definition compat_checks (c newcfg : ChainConfig) (head : option Z) (time : Z) : list (option ConfigCompatError) :=
  [block_check "Homestead fork block" (HomesteadBlock c) (HomesteadBlock newcfg) head;
   block_check "DAO fork block" (DAOForkBlock c) (DAOForkBlock newcfg) head;
   (if IsDAOFork c head && negb (eqb (DAOForkSupport c) (DAOForkSupport newcfg))
    then Some (newBlockCompatError "DAO fork support flag" (DAOForkBlock c) (DAOForkBlock newcfg)) else None);
   block_check "EIP150 fork block" (EIP150Block c) (EIP150Block newcfg) head;
   block_check "EIP155 fork block" (EIP155Block c) (EIP155Block newcfg) head;
   block_check "EIP158 fork block" (EIP158Block c) (EIP158Block newcfg) head;
   (if IsEIP158 c head && negb (configBlockEqual (ChainID c) (ChainID newcfg))
    then Some (newBlockCompatError "EIP158 chain ID" (EIP158Block c) (EIP158Block newcfg)) else None);
   block_check "Byzantium fork block" (ByzantiumBlock c) (ByzantiumBlock newcfg) head;
   block_check "Constantinople fork block" (ConstantinopleBlock c) (ConstantinopleBlock newcfg) head;
   (if isForkBlockIncompatible (PetersburgBlock c) (PetersburgBlock newcfg) head
    then if isForkBlockIncompatible (ConstantinopleBlock c) (PetersburgBlock newcfg) head
         then Some (newBlockCompatError "Petersburg fork block" (PetersburgBlock c) (PetersburgBlock newcfg))
         else None
    else None);
   block_check "Istanbul fork block" (IstanbulBlock c) (IstanbulBlock newcfg) head;
   block_check "Muir Glacier fork block" (MuirGlacierBlock c) (MuirGlacierBlock newcfg) head;
   block_check "Berlin fork block" (BerlinBlock c) (BerlinBlock newcfg) head;
   block_check "London fork block" (LondonBlock c) (LondonBlock newcfg) head;
   block_check "Arrow Glacier fork block" (ArrowGlacierBlock c) (ArrowGlacierBlock newcfg) head;
   block_check "Gray Glacier fork block" (GrayGlacierBlock c) (GrayGlacierBlock newcfg) head;
   block_check "Merge netsplit fork block" (MergeNetsplitBlock c) (MergeNetsplitBlock newcfg) head;
   time_check "Shanghai fork timestamp" (ShanghaiTime c) (ShanghaiTime newcfg) time;
   time_check "Cancun fork timestamp" (CancunTime c) (CancunTime newcfg) time;
   time_check "Prague fork timestamp" (PragueTime c) (PragueTime newcfg) time].

Definition checkCompatible (c newcfg : ChainConfig) (headNumber : Z) (headTimestamp : Z) : option ConfigCompatError :=
  first_error (compat_checks c newcfg (Some headNumber) headTimestamp).

(** [CheckCompatible]'s loop, [None] when the fuel runs out. *)
Fixpoint compat_loop (fuel : nat) (c newcfg : ChainConfig) (bhead btime : Z)
    (lasterr : option ConfigCompatError) : option (option ConfigCompatError) :=
  match fuel with
  | O => None
  | S f =>
      match checkCompatible c newcfg bhead btime with
      | None => Some lasterr
      | Some err =>
          if match lasterr with
             | Some l => (RewindToBlock err =? RewindToBlock l) && (RewindToTime err =? RewindToTime l)
             | None => false
             end
          then Some lasterr
          else if 0 <? RewindToTime err
               then compat_loop f c newcfg bhead (RewindToTime err) (Some err)
               else compat_loop f c newcfg (RewindToBlock err) btime (Some err)
      end
  end.

Definition CheckCompatible (fuel : nat) (c newcfg : ChainConfig) (height time : Z)
    : option (option ConfigCompatError) :=
  compat_loop fuel c newcfg height time None.

(** ** Lemmas on the fork order *)

(** Each fork is scheduled one way, and timestamp forks come last. *)
Definition single_kind (f : fork) : Prop := f_block f = None ∨ f_timestamp f = None.
Definition kinds_ok (f g : fork) : Prop := is_Some (f_timestamp f) → f_block g = None.

(** [f] is not scheduled after [g], where both are scheduled the same way. *)
Definition not_after (f g : fork) : Prop :=
  (∀ a b, f_block f = Some a → f_block g = Some b → a ≤ b) ∧
  (∀ a b, f_timestamp f = Some a → f_timestamp g = Some b → a ≤ b).

Lemma fork_step_ok l cur : single_kind l → single_kind cur →
  fork_step l cur = Ok tt → is_set cur = true → is_set l = true ∧ not_after l cur.
Proof.
  destruct l as [ln [lb|] [lt|] lo], cur as [cn [cb|] [ct|] co];
    unfold single_kind, fork_step, is_set, not_after; cbn; intros [?|?] [?|?] Hstep Hs;
    simplify_eq; try (split; [done|split; intros; simplify_eq]).
  all: rewrite ?bool_decide_eq_true_2, ?bool_decide_eq_false_2 in Hstep by eauto; cbn in Hstep; simplify_eq.
  all: unfold guard_err in Hstep; repeat (case_if in Hstep; simplify_eq; try (progress cbn in Hstep)); try lia; done.
Qed.

Lemma not_after_trans f g h :
  single_kind f → single_kind g → single_kind h → kinds_ok f g → kinds_ok g h →
  is_set g = true → not_after f g → not_after g h → not_after f h.
Proof.
  destruct f as [? [fb|] [ft|] ?], g as [? [gb|] [gt|] ?], h as [? [hb|] [ht|] ?];
    unfold single_kind, kinds_ok, is_set, not_after; cbn; intros [?|?] [?|?] [?|?] K1 K2 Hs [N1 N2] [M1 M2];
    simplify_eq; split; intros; simplify_eq.
  all: try (specialize (K1 ltac:(eauto)); done); try (specialize (K2 ltac:(eauto)); done).
  all: try (specialize (N1 _ _ eq_refl eq_refl); specialize (M1 _ _ eq_refl eq_refl); lia).
  all: try (specialize (N2 _ _ eq_refl eq_refl); specialize (M2 _ _ eq_refl eq_refl); lia).
Qed.

Lemma fork_loop_last l fs :
  single_kind l → Forall single_kind fs → Forall (kinds_ok l) fs → StronglySorted kinds_ok fs →
  fork_loop (Some l) fs = Ok tt →
  ∀ f, f ∈ fs → is_set f = true → is_set l = true ∧ not_after l f.
Proof.
  revert l. induction fs as [|cur fs IH]; intros l Hl Hfs Hk Hs H f Hf Hset; [by apply elem_of_nil in Hf|].
  cbn in H. inv_bind. destruct x. apply Forall_cons in Hfs as [Hc Hfs]. apply Forall_cons in Hk as [Hkc Hk].
  apply StronglySorted_cons in Hs as [Hkk Hs].
  apply elem_of_cons in Hf as [->|Hf]; [by eapply fork_step_ok|].
  case_if in H0.
  - destruct (IH cur Hc Hfs Hkk Hs H0 f Hf Hset) as [Hsc Hn].
    destruct (fork_step_ok l cur Hl Hc ltac:(done) Hsc) as [Hsl Hn'].
    split; [done|]. eapply not_after_trans; try done.
    + by eapply Forall_forall in Hfs.
    + by eapply Forall_forall in Hkk.
  - by apply (IH l).
Qed.

Lemma fork_loop_app last pre f post :
  fork_loop last (pre ++ f :: post) = Ok tt → negb (f_optional f) || is_set f = true →
  fork_loop (Some f) post = Ok tt.
Proof.
  revert last. induction pre as [|g pre IH]; intros last H Hf; cbn in H; inv_bind.
  - by rewrite Hf in *.
  - by eapply IH.
Qed.

(** [f] may precede [g] in the schedule: [g] is scheduled only if [f] is, and
    not before it. *)
Definition may_precede (f g : fork) : Prop := is_set g = true → is_set f = true ∧ not_after f g.

(** A fork the order check compares later forks with: optional forks that are
    not scheduled are passed over. *)
Definition counted (f : fork) : Prop := negb (f_optional f) || is_set f = true.

Definition fork_order (fs : list fork) : Prop :=
  ∀ pre f post g, fs = pre ++ f :: post → g ∈ post → counted f → may_precede f g.

Lemma fork_step_complete l cur : single_kind l → single_kind cur →
  may_precede l cur → fork_step l cur = Ok tt.
Proof.
  destruct l as [ln [lb|] [lt|] lo], cur as [cn [cb|] [ct|] co];
    unfold single_kind, may_precede, fork_step, is_set, not_after; cbn; intros [?|?] [?|?] Hp; simplify_eq;
    rewrite ?bool_decide_eq_true_2, ?bool_decide_eq_false_2 by (eauto || by intros [? [=]]);
    cbn; try done.
  all: rewrite ?bool_decide_eq_true_2, ?bool_decide_eq_false_2 in Hp by (eauto || by intros [? [=]]).
  all: destruct (Hp eq_refl) as [Hp1 [Hp2 Hp3]]; try discriminate Hp1.
  all: repeat (case_if; cbn); try done.
  all: try (specialize (Hp2 _ _ eq_refl eq_refl); lia); try (specialize (Hp3 _ _ eq_refl eq_refl); lia).
Qed.

Lemma fork_loop_complete last fs : Forall single_kind fs →
  (∀ l, last = Some l → single_kind l ∧ Forall (may_precede l) fs) →
  fork_order fs → fork_loop last fs = Ok tt.
Proof.
  revert last. induction fs as [|cur fs IH]; intros last Hfs Hlast Ho; [done|]. cbn.
  apply Forall_cons in Hfs as [Hc Hfs].
  assert (fork_order fs) by (intros pre f post g -> ; by apply (Ho (cur :: pre) f post g)).
  assert (match last with Some l => fork_step l cur | None => Ok () end = Ok ()) as ->.
  { destruct last as [l|]; [|done]. destruct (Hlast l eq_refl) as [Hl Hp].
    apply Forall_cons in Hp as [Hp _]. by apply fork_step_complete. }
  cbn. apply IH; [done| |done]. intros l Hl. destruct (negb (f_optional cur) || is_set cur) eqn:Ec.
  - injection Hl as <-. split; [done|]. apply Forall_forall. intros g Hg. by apply (Ho [] cur fs g).
  - destruct (Hlast l Hl) as [? Hp]. by apply Forall_cons in Hp as [_ Hp].
Qed.

Lemma forks_single_kind c : Forall single_kind (forks c).
Proof. unfold forks, single_kind. repeat apply Forall_cons_2; cbn; auto. Qed.

Lemma forks_kinds c : StronglySorted kinds_ok (forks c).
Proof.
  unfold forks. repeat constructor; unfold kinds_ok; cbn; try done; by intros [? [=]].
Qed.

Lemma fork_loop_sound c : fork_loop None (forks c) = Ok tt → fork_order (forks c).
Proof.
  intros H pre f post g Hfs Hg Hf Hs.
  pose proof (forks_single_kind c) as H1. pose proof (forks_kinds c) as H2. rewrite Hfs in H, H1, H2.
  apply Forall_app in H1 as [_ H1]. apply Forall_cons in H1 as [Hk H1].
  apply StronglySorted_app in H2 as (_ & _ & H2). apply StronglySorted_cons in H2 as [Hk2 H2].
  eapply fork_loop_last; eauto using fork_loop_app.
Qed.

(** A fork at a later position of the table is active only where every earlier
    mandatory fork of the same kind is. *)
Lemma fork_order_active c i j f g num :
  fork_order (forks c) → forks c !! i = Some f → forks c !! j = Some g → (i < j)%nat →
  f_optional f = false → f_timestamp f = None →
  isBlockForked (f_block g) num = true → isBlockForked (f_block f) num = true.
Proof.
  intros Ho Hi Hj Hlt Hopt Hts Hg.
  assert (Hm : may_precede f g).
  { apply (Ho (take i (forks c)) f (drop (S i) (forks c)) g).
    - by rewrite take_drop_middle.
    - apply list_elem_of_lookup. exists (j - S i)%nat. rewrite lookup_drop. by replace (S i + (j - S i))%nat with j by lia.
    - unfold counted. by rewrite Hopt. }
  destruct g as [gn [gb|] gt go]; [|done]. destruct num as [n|]; [|done]. cbn in Hg. zbool.
  destruct Hm as [Hset [Hn _]]; [done|].
  unfold is_set in Hset. rewrite Hts, (bool_decide_eq_false_2 (is_Some None)), orb_false_r in Hset by by intros [? [=]].
  zbool. destruct Hset as [b Hb]. rewrite Hb. cbn. apply Z.leb_le. specialize (Hn b gb Hb eq_refl). lia.
Qed.

(** ** Lemmas on compatibility *)

(** Every fork timestamp that is set is positive. *)
Definition time_pos (o : option Z) : Prop := ∀ t, o = Some t → 0 < t.
Definition times_pos (c : ChainConfig) : Prop :=
  time_pos (ShanghaiTime c) ∧ time_pos (CancunTime c) ∧ time_pos (PragueTime c).

(** What an error found at head [(b, t)] asks for: to go back to an earlier
    block, or to an earlier time. *)
Definition rewinds (b t : Z) (e : ConfigCompatError) : Prop :=
  (RewindToTime e = 0 ∧ 0 ≤ RewindToBlock e ∧ (RewindToBlock e < b ∨ RewindToBlock e = 0)) ∨
  (RewindToBlock e = 0 ∧ 0 < RewindToTime e < t).

Lemma newBlockCompatError_rewinds what s1 s2 b t : is_u64 b →
  isBlockForked s1 (Some b) || isBlockForked s2 (Some b) = true →
  rewinds b t (newBlockCompatError what s1 s2).
Proof.
  intros Hb H. left. unfold newBlockCompatError, is_u64 in *. cbn.
  destruct (match s1, s2 with None, _ => s2 | Some s, None => s1 | Some s, Some n => if s <? n then s1 else s2 end)
    as [r|] eqn:Er; [|lia].
  assert (r ≤ b).
  { destruct s1 as [s|], s2 as [n|]; cbn in H; try case_if in Er; simplify_eq;
      rewrite ?orb_true_iff, ?Z.leb_le in H; lia. }
  destruct (0 <? r) eqn:E0; zbool; [|lia].
  rewrite big_Uint64_small, u64_small by (unfold is_u64; lia). lia.
Qed.

Lemma newTimestampCompatError_rewinds what s1 s2 b t : is_u64 t → 0 ≤ b → time_pos s1 → time_pos s2 →
  isTimestampForked s1 t || isTimestampForked s2 t = true →
  rewinds b t (newTimestampCompatError what s1 s2).
Proof.
  intros Ht Hb P1 P2 H. unfold rewinds, newTimestampCompatError, is_u64 in *. cbn.
  destruct (match s1, s2 with None, _ => s2 | Some s, None => s1 | Some s, Some n => if s <? n then s1 else s2 end)
    as [r|] eqn:Er; [|lia].
  assert (0 < r ≤ t).
  { destruct s1 as [s|], s2 as [n|]; cbn in H; try case_if in Er; simplify_eq;
      try specialize (P1 _ eq_refl); try specialize (P2 _ eq_refl);
      rewrite ?orb_true_iff, ?Z.leb_le in H; lia. }
  rewrite u64_small by (unfold is_u64; lia). lia.
Qed.

Lemma first_error_forall (P : ConfigCompatError → Prop) l e :
  Forall (fun o => ∀ e, o = Some e → P e) l → first_error l = Some e → P e.
Proof. induction 1 as [|[x|] l Hx _ IH]; cbn; [done| |done]. intros [= <-]. by apply Hx. Qed.

Lemma checkCompatible_rewinds c newcfg b t e : is_u64 b → is_u64 t → times_pos c → times_pos newcfg →
  checkCompatible c newcfg b t = Some e → rewinds b t e.
Proof.
  intros Hb Ht (P1 & P2 & P3) (Q1 & Q2 & Q3). apply first_error_forall. unfold compat_checks.
  repeat apply Forall_cons_2; [..|apply Forall_nil_2]; intros e';
    unfold block_check, time_check, isForkBlockIncompatible, isForkTimestampIncompatible, IsDAOFork, IsEIP158;
    repeat case_if; intros [= <-];
    first [apply newBlockCompatError_rewinds | apply newTimestampCompatError_rewinds];
    try done; try apply Hb; first [assumption | apply orb_true_iff; left; assumption].
Qed.

(** The loop stops within [b + t + 2] rounds, or one when the head does not
    move. *)
Lemma compat_loop_terminates c newcfg : times_pos c → times_pos newcfg →
  ∀ fuel b t last, is_u64 b → is_u64 t → b + t + 2 ≤ Z.of_nat fuel →
  ∃ r, compat_loop fuel c newcfg b t last = Some r.
Proof.
  intros Hc Hn. induction fuel as [|fuel IH]; intros b t last Hb Ht Hf; [unfold is_u64 in *; lia|].
  cbn [compat_loop]. destruct (checkCompatible c newcfg b t) as [e|] eqn:E; [|eauto].
  case_match; [eauto|].
  pose proof (checkCompatible_rewinds c newcfg b t e Hb Ht Hc Hn E) as Hr. unfold rewinds, is_u64 in *.
  destruct (0 <? RewindToTime e) eqn:E0; zbool; [apply IH; lia|].
  destruct (decide (RewindToBlock e < b)); [apply IH; lia|].
  replace (RewindToBlock e) with b by lia.
  destruct fuel as [|fuel]; [lia|]. cbn [compat_loop]. rewrite E, !Z.eqb_refl. cbn. eauto.
Qed.

Lemma compat_loop_last c newcfg fuel b t l r :
  compat_loop fuel c newcfg b t (Some l) = Some r → is_Some r.
Proof.
  revert b t l. induction fuel as [|fuel IH]; intros b t l; cbn [compat_loop]; [done|].
  destruct (checkCompatible c newcfg b t) as [e|]; [|by intros [= <-]; eauto].
  repeat case_if; [by intros [= <-]; eauto|apply IH|apply IH].
Qed.

(** Without timestamp forks only the block moves, to the place the last error
    names. *)
Lemma compat_loop_rewound c newcfg t :
  (∀ b e, checkCompatible c newcfg b t = Some e → RewindToTime e = 0) → 0 ≤ t < 2 ^ 64 →
  times_pos c → times_pos newcfg →
  ∀ fuel b last e, is_u64 b → (∀ l, last = Some l → b = RewindToBlock l) →
  compat_loop fuel c newcfg b t last = Some (Some e) →
  checkCompatible c newcfg (RewindToBlock e) t = None ∨ RewindToBlock e = 0.
Proof.
  intros Hz Ht Hc Hn. induction fuel as [|fuel IH]; intros b last e Hb Hl; cbn [compat_loop]; [done|].
  destruct (checkCompatible c newcfg b t) as [e'|] eqn:E.
  2:{ intros [= ->]. left. by rewrite <- (Hl e eq_refl). }
  pose proof (checkCompatible_rewinds c newcfg b t e' Hb Ht Hc Hn E) as Hr.
  case_match eqn:Em.
  - intros [= ->]. zbool. right. specialize (Hl e eq_refl). unfold rewinds in Hr. lia.
  - rewrite (Hz b e' E). cbn. apply IH; [|naive_solver]. unfold rewinds, is_u64 in *. lia.
Qed.

Lemma block_error_time what s1 s2 : RewindToTime (newBlockCompatError what s1 s2) = 0.
Proof. done. Qed.

Lemma checkCompatible_untimed c newcfg b t e :
  ShanghaiTime c = None → CancunTime c = None → PragueTime c = None →
  ShanghaiTime newcfg = None → CancunTime newcfg = None → PragueTime newcfg = None →
  checkCompatible c newcfg b t = Some e → RewindToTime e = 0.
Proof.
  intros H1 H2 H3 H4 H5 H6. apply (first_error_forall (fun e => RewindToTime e = 0)). unfold compat_checks.
  rewrite H1, H2, H3, H4, H5, H6.
  repeat apply Forall_cons_2; [..|apply Forall_nil_2]; intros e';
    unfold block_check, time_check; repeat case_if; try done; by intros [= <-].
Qed.

Lemma fork_step_no_panic l cur : single_kind l → single_kind cur → fork_step l cur ≠ Panic.
Proof.
  destruct l as [ln [lb|] [lt|] lo], cur as [cn [cb|] [ct|] co];
    intros [?|?] [?|?]; cbn in *; simplify_eq; unfold fork_step, is_set, guard_err; cbn;
    repeat case_if; cbn; try done; repeat case_if; done.
Qed.

Lemma fork_loop_no_panic last fs : Forall single_kind fs → (∀ l, last = Some l → single_kind l) →
  fork_loop last fs ≠ Panic.
Proof.
  revert last. induction fs as [|cur fs IH]; intros last Hfs Hl; [done|]. cbn.
  apply Forall_cons in Hfs as [Hc Hfs].
  assert (Hs : match last with Some l => fork_step l cur | None => Ok () end ≠ Panic)
    by (destruct last; [apply fork_step_no_panic; auto|done]).
  destruct (match last with Some l => fork_step l cur | None => Ok () end); [|done|done].
  cbn. apply IH; [done|]. case_if; naive_solver.
Qed.

(** A configuration with every block fork at 0, as a development chain has. *)
Definition AllForksAtZero (shanghai cancun : option Z) : ChainConfig :=
  mkChainConfig (Some 1337) (Some 0) None false (Some 0) (Some 0) (Some 0) (Some 0) (Some 0) (Some 0)
    (Some 0) (Some 0) (Some 0) (Some 0) (Some 0) (Some 0) None shanghai cancun None None false
    (Some (mkCliqueConfig 15 30000)).

Definition set_LondonBlock (c : ChainConfig) (b : option Z) : ChainConfig :=
  mkChainConfig (ChainID c) (HomesteadBlock c) (DAOForkBlock c) (DAOForkSupport c) (EIP150Block c)
    (EIP155Block c) (EIP158Block c) (ByzantiumBlock c) (ConstantinopleBlock c) (PetersburgBlock c)
    (IstanbulBlock c) (MuirGlacierBlock c) (BerlinBlock c) b None None (MergeNetsplitBlock c)
    (ShanghaiTime c) (CancunTime c) (PragueTime c) (TerminalTotalDifficulty c)
    (TerminalTotalDifficultyPassed c) (Clique c).

(** The three rounds of a run that never settles on a time. *)
Lemma diverging_checks height :
  let c := AllForksAtZero (Some 100) (Some 0) in
  let n := AllForksAtZero (Some 200) None in
  let e1 := newTimestampCompatError "Shanghai fork timestamp" (Some 100) (Some 200) in
  let e2 := newTimestampCompatError "Cancun fork timestamp" (Some 0) None in
  checkCompatible c n height 50 = Some e2 ∧
  checkCompatible c n height (RewindToTime e2) = Some e1 ∧
  checkCompatible c n height (RewindToTime e1) = Some e2.
Proof.
  cbv zeta. unfold checkCompatible, compat_checks, AllForksAtZero, block_check, isForkBlockIncompatible.
  cbn -[time_check newTimestampCompatError]. rewrite !andb_false_r. cbn -[time_check newTimestampCompatError].
  repeat split; vm_compute; reflexivity.
Qed.

Lemma compat_loop_alternates c n height t e1 e2 fuel :
  checkCompatible c n height t = Some e2 ∧
  checkCompatible c n height (RewindToTime e2) = Some e1 ∧
  checkCompatible c n height (RewindToTime e1) = Some e2 →
  0 < RewindToTime e1 → 0 < RewindToTime e2 → RewindToTime e1 ≠ RewindToTime e2 →
  compat_loop fuel c n height t None = None.
Proof.
  intros (H0 & H1 & H2) P1 P2 Hne. apply Z.ltb_lt in P1, P2.
  assert (L : ∀ f, compat_loop f c n height (RewindToTime e2) (Some e2) = None ∧
                   compat_loop f c n height (RewindToTime e1) (Some e1) = None).
  { induction f as [|f [IH1 IH2]]; [done|]. cbn [compat_loop]. rewrite H1, H2, P1, P2.
    rewrite (proj2 (Z.eqb_neq _ _) Hne), (proj2 (Z.eqb_neq _ _) (not_eq_sym Hne)), !andb_false_r. done. }
  destruct fuel as [|fuel]; [done|]. cbn [compat_loop]. rewrite H0, P2. apply L.
Qed.

(** ** Properties *)

(** [CheckConfigForkOrder] never panics, and it accepts a configuration
    exactly when no fork is scheduled although an earlier mandatory (or
    scheduled) fork of the table is missing or comes later; optional forks that
    are not scheduled do not count. *)
Theorem CheckConfigForkOrder_exact c :
  CheckConfigForkOrder c ≠ Panic ∧
  (CheckConfigForkOrder c = Ok tt ↔ fork_order (forks c)).
Proof.
  split; [by apply fork_loop_no_panic; [apply forks_single_kind|]|].
  split; [apply fork_loop_sound|]. intros. by apply fork_loop_complete; [apply forks_single_kind| |].
Qed.

(** In a configuration [CheckConfigForkOrder] accepts, the rule set
    [Rules] computes for any block is cumulative: each block-scheduled fork is
    active only where the mandatory forks before it are. *)
Theorem Rules_cumulative c num isMerge time :
  CheckConfigForkOrder c = Ok tt →
  let r := Rules c num isMerge time in
  (r_IsLondon r = true → r_IsBerlin r = true) ∧
  (r_IsBerlin r = true → r_IsIstanbul r = true) ∧
  (r_IsIstanbul r = true → r_IsPetersburg r = true) ∧
  (r_IsPetersburg r = true → r_IsConstantinople r = true) ∧
  (r_IsConstantinople r = true → r_IsByzantium r = true) ∧
  (r_IsByzantium r = true → r_IsEIP158 r = true) ∧
  (r_IsEIP158 r = true → r_IsEIP155 r = true) ∧
  (r_IsEIP155 r = true → r_IsEIP150 r = true) ∧
  (r_IsEIP150 r = true → r_IsHomestead r = true).
Proof.
  intros H. apply fork_loop_sound in H. cbn.
  assert (A : ∀ i j f g, forks c !! i = Some f → forks c !! j = Some g → (i < j)%nat →
    f_optional f = false → f_timestamp f = None →
    isBlockForked (f_block g) num = true → isBlockForked (f_block f) num = true)
    by (intros; by eapply (fork_order_active c i j)).
  repeat apply conj.
  - by apply (A 10%nat 11%nat _ _ eq_refl eq_refl); [lia| |].
  - by apply (A 8%nat 10%nat _ _ eq_refl eq_refl); [lia| |].
  - intros Hi. unfold IsPetersburg. apply orb_true_iff. left. revert Hi.
    by apply (A 7%nat 8%nat _ _ eq_refl eq_refl); [lia| |].
  - unfold IsPetersburg. intros [Hp|Hp]%orb_true_iff; [|by case_match].
    revert Hp. by apply (A 6%nat 7%nat _ _ eq_refl eq_refl); [lia| |].
  - by apply (A 5%nat 6%nat _ _ eq_refl eq_refl); [lia| |].
  - by apply (A 4%nat 5%nat _ _ eq_refl eq_refl); [lia| |].
  - by apply (A 3%nat 4%nat _ _ eq_refl eq_refl); [lia| |].
  - by apply (A 2%nat 3%nat _ _ eq_refl eq_refl); [lia| |].
  - by apply (A 0%nat 2%nat _ _ eq_refl eq_refl); [lia| |].
Qed.

Lemma Rules_cumulative_witness :
  CheckConfigForkOrder (set_LondonBlock (AllForksAtZero None None) (Some 7)) = Ok tt ∧
  r_IsBerlin (Rules (set_LondonBlock (AllForksAtZero None None) (Some 7)) (Some 8) false 0) = true.
Proof.
  split; [vm_compute; reflexivity|].
  destruct (Rules_cumulative (set_LondonBlock (AllForksAtZero None None) (Some 7)) (Some 8) false 0
    ltac:(vm_compute; reflexivity)) as [H _].
  apply H. vm_compute. reflexivity.
Defined.

(** When every fork timestamp is positive, [CheckCompatible] returns: at
    most [height + time + 2] rounds. It reports an error exactly when
    [checkCompatible] finds one at the current head; and if neither
    configuration has timestamp forks, then at the block the error says to
    rewind to, the configurations are compatible, unless it is the genesis. *)
Theorem CheckCompatible_correct c newcfg height time fuel :
  is_u64 height → is_u64 time → times_pos c → times_pos newcfg → height + time + 2 ≤ Z.of_nat fuel →
  ∃ r, CheckCompatible fuel c newcfg height time = Some r ∧
    (r = None ↔ checkCompatible c newcfg height time = None) ∧
    (ShanghaiTime c = None → CancunTime c = None → PragueTime c = None →
     ShanghaiTime newcfg = None → CancunTime newcfg = None → PragueTime newcfg = None →
     ∀ e, r = Some e → checkCompatible c newcfg (RewindToBlock e) time = None ∨ RewindToBlock e = 0).
Proof.
  intros Hh Ht Hc Hn Hf. unfold CheckCompatible.
  destruct (compat_loop_terminates c newcfg Hc Hn fuel height time None Hh Ht Hf) as [r Hr].
  exists r. split_and!; [done| |].
  - destruct fuel as [|fuel]; [done|]. cbn [compat_loop] in Hr.
    destruct (checkCompatible c newcfg height time) as [e|]; [|naive_solver].
    case_if in Hr; apply compat_loop_last in Hr as [? ->]; done.
  - intros ?????? e ->. apply (compat_loop_rewound c newcfg time) with fuel height None; try done.
    intros b e' He'. by eapply (checkCompatible_untimed c newcfg b time).
Qed.

Lemma CheckCompatible_correct_witness :
  CheckCompatible 30 (set_LondonBlock (AllForksAtZero None None) (Some 7))
    (set_LondonBlock (AllForksAtZero None None) (Some 9)) 20 5
  = Some (Some (newBlockCompatError "London fork block" (Some 7) (Some 9))) ∧
  (checkCompatible (set_LondonBlock (AllForksAtZero None None) (Some 7))
     (set_LondonBlock (AllForksAtZero None None) (Some 9)) 6 5 = None ∨ 6 = 0).
Proof.
  split; [vm_compute; reflexivity|].
  destruct (CheckCompatible_correct (set_LondonBlock (AllForksAtZero None None) (Some 7))
    (set_LondonBlock (AllForksAtZero None None) (Some 9)) 20 5 30%nat) as (r & Hr & _ & H).
  - unfold is_u64. lia.
  - unfold is_u64. lia.
  - by repeat split; intros ? [=].
  - by repeat split; intros ? [=].
  - lia.
  - vm_compute in Hr. injection Hr as <-. by apply (H eq_refl eq_refl eq_refl eq_refl eq_refl eq_refl _ eq_refl).
Defined.

(** With a stored fork timestamp of 0 the rewind time underflows to
    [2^64 - 1], and [CheckCompatible] never returns: here Shanghai moves from
    100 to 200, Cancun from 0 to unscheduled, and the head is at time 50. *)
Theorem CheckCompatible_diverges height fuel :
  RewindToTime (newTimestampCompatError "Cancun fork timestamp" (Some 0) None) = MaxUint64 ∧
  CheckCompatible fuel (AllForksAtZero (Some 100) (Some 0)) (AllForksAtZero (Some 200) None) height 50 = None.
Proof.
  split; [done|]. by eapply compat_loop_alternates; [apply diverging_checks| | |].
Qed.
