(* ===== verification/Fees.v ===== *)
(** Fee and gas-limit rules of [src/go-ethereum/consensus/misc]: the EIP-1559
    base fee and header check, the gas-limit bound, the EIP-4844 blob fee and
    the DAO extra-data rule; with [BigMax] and [BigMin] of [common/math]. *)

From S2P Require Import Prelude RLP Types Config.

(** ** Big integers *)

Definition BigMax (x y : Z) : Z := if x <? y then y else x.
Definition BigMin (x y : Z) : Z := if y <? x then y else x.

(** [big.Int.Div] is Euclidean division and panics on a zero divisor. *)
Definition big_Div {E} (x y : Z) : outcome E Z :=
  if y =? 0 then Panic else Ok (if 0 <? y then x / y else - (x / - y)).

Lemma big_Div_pos {E} x y : 0 < y → @big_Div E x y = Ok (x / y).
Proof.
  intros. unfold big_Div. rewrite (proj2 (Z.eqb_neq y 0)) by lia.
  by rewrite (proj2 (Z.ltb_lt 0 y)) by lia.
Qed.

(** ** Gas limit *)

Definition GasLimitBoundDivisor : Z := 1024.
Definition MinGasLimit : Z := 5000.
Definition MaxGasLimit : Z := 0x7fffffffffffffff.

Inductive feeError :=
| InvalidGasLimit (have want bound : Z)
| GasLimitBelow5000
| MissingBaseFee
| InvalidBaseFee (have want : Z).

(** The signed difference, its negation and the conversion back all wrap. *)
Definition VerifyGaslimit (parentGasLimit headerGasLimit : Z) : outcome feeError unit :=
  let diff := i64 (i64 parentGasLimit - i64 headerGasLimit) in
  let diff := if diff <? 0 then i64 (diff * -1) else diff in
  let limit := parentGasLimit / GasLimitBoundDivisor in
  _ ← guard_err (limit <=? u64 diff) (InvalidGasLimit headerGasLimit parentGasLimit (u64 (limit - 1)));
  guard_err (headerGasLimit <? MinGasLimit) GasLimitBelow5000.

(** ** Base fee *)

Definition InitialBaseFee : Z := 1000000000.

Definition CalcBaseFee (config : ChainConfig) (parent : Header) : outcome feeError Z :=
  if negb (IsLondon config (Number parent)) then Ok InitialBaseFee else
  let parentGasTarget := GasLimit parent / ElasticityMultiplier in
  if GasUsed parent =? parentGasTarget then deref (BaseFee parent) else
  if parentGasTarget <? GasUsed parent then
    baseFee ← deref (BaseFee parent);
    let num := u64 (GasUsed parent - parentGasTarget) * baseFee in
    num ← big_Div num parentGasTarget;
    num ← big_Div num BaseFeeChangeDenominator;
    let baseFeeDelta := BigMax num 1 in
    Ok (baseFee + baseFeeDelta)
  else
    baseFee ← deref (BaseFee parent);
    let num := u64 (parentGasTarget - GasUsed parent) * baseFee in
    num ← big_Div num parentGasTarget;
    num ← big_Div num BaseFeeChangeDenominator;
    Ok (BigMax (baseFee - num) 0).

Definition VerifyEip1559Header (config : ChainConfig) (parent header : Header) : outcome feeError unit :=
  let parentGasLimit :=
    if negb (IsLondon config (Number parent)) then u64 (GasLimit parent * ElasticityMultiplier)
    else GasLimit parent in
  _ ← VerifyGaslimit parentGasLimit (GasLimit header);
  match BaseFee header with
  | None => Err MissingBaseFee
  | Some fee =>
      expectedBaseFee ← CalcBaseFee config parent;
      guard_err (negb (fee =? expectedBaseFee)) (InvalidBaseFee fee expectedBaseFee)
  end.

(** ** Blob fee *)

Definition minDataGasPrice : Z := 1.
Definition dataGaspriceUpdateFraction : Z := 2225652.

(** The loop of [fakeExponential]; [None] when the fuel runs out. The counter
    [i] would need [2^63] rounds to leave the range of an [int]. *)
Fixpoint exp_loop (fuel : nat) (numerator denominator output accum i : Z) : option (outcome feeError Z) :=
  match fuel with
  | O => None
  | S f =>
      if 0 <? accum then
        match (a ← big_Div (accum * numerator) denominator; big_Div a i) with
        | Ok a => exp_loop f numerator denominator (output + accum) a (i + 1)
        | Err e => Some (Err e)
        | Panic => Some Panic
        end
      else Some (Ok output)
  end.

Definition fakeExponential (fuel : nat) (factor numerator denominator : Z) : option (outcome feeError Z) :=
  match exp_loop fuel numerator denominator 0 (factor * denominator) 1 with
  | None => None
  | Some r => Some (output ← r; big_Div output denominator)
  end.

Definition CalcBlobFee (fuel : nat) (excessDataGas : option Z) : option (outcome feeError Z) :=
  match excessDataGas with
  | None => Some (Ok minDataGasPrice)
  | Some excess => fakeExponential fuel minDataGasPrice excess dataGaspriceUpdateFraction
  end.

(** ** DAO extra data *)

Definition DAOForkBlockExtra : bytes := be_bytes 13 0x64616f2d686172642d666f726b.
Definition DAOForkExtraRange : Z := 10.

Inductive daoError := ErrBadProDAOExtra | ErrBadNoDAOExtra.

Definition VerifyDAOHeaderExtraData (config : ChainConfig) (header : Header) : outcome daoError unit :=
  match DAOForkBlock config with
  | None => Ok tt
  | Some dao =>
      let limit := dao + DAOForkExtraRange in
      num ← deref (Number header);
      if (num <? dao) || (limit <=? num) then Ok tt
      else if DAOForkSupport config
      then guard_err (negb (bool_decide (Extra header = DAOForkBlockExtra))) ErrBadProDAOExtra
      else guard_err (bool_decide (Extra header = DAOForkBlockExtra)) ErrBadNoDAOExtra
  end.

(** ** Lemmas *)

(** Distance of two [uint64] on the ring of 64-bit integers. *)
Definition ring_dist (p h : Z) : Z := Z.min (Z.abs (p - h)) (2 ^ 64 - Z.abs (p - h)).

Lemma i64_sub p h : is_u64 p → is_u64 h → i64 (i64 p - i64 h) = i64 (p - h).
Proof.
  unfold is_u64, i64. intros Hp Hh.
  pose proof (Z.mod_pos_bound (p + 2 ^ 63) (2 ^ 64) ltac:(lia)).
  pose proof (Z.mod_pos_bound (h + 2 ^ 63) (2 ^ 64) ltac:(lia)).
  pose proof (Z.div_mod (p + 2 ^ 63) (2 ^ 64) ltac:(lia)) as E1.
  pose proof (Z.div_mod (h + 2 ^ 63) (2 ^ 64) ltac:(lia)) as E2.
  f_equal.
  replace ((p + 2 ^ 63) mod 2 ^ 64 - 2 ^ 63 - ((h + 2 ^ 63) mod 2 ^ 64 - 2 ^ 63) + 2 ^ 63)
    with (p - h + 2 ^ 63 + ((h + 2 ^ 63) / 2 ^ 64 - (p + 2 ^ 63) / 2 ^ 64) * 2 ^ 64) by lia.
  by rewrite Z.mod_add by lia.
Qed.

Lemma i64_cases d : - 2 ^ 64 < d < 2 ^ 64 →
  i64 d = (if 2 ^ 63 <=? d then d - 2 ^ 64 else if d <? - 2 ^ 63 then d + 2 ^ 64 else d).
Proof.
  intros Hd. unfold i64. repeat case_if.
  - replace (d + 2 ^ 63) with (d - 2 ^ 63 + 1 * 2 ^ 64) by lia. rewrite Z.mod_add, Z.mod_small by lia. lia.
  - replace (d + 2 ^ 63) with (d + 2 ^ 63 + 2 ^ 64 + (-1) * 2 ^ 64) by lia. rewrite Z.mod_add, Z.mod_small by lia. lia.
  - rewrite Z.mod_small by lia. lia.
Qed.

(** What the wrapping arithmetic of [VerifyGaslimit] computes. *)
Lemma gaslimit_diff p h : is_u64 p → is_u64 h →
  let diff := i64 (i64 p - i64 h) in
  u64 (if diff <? 0 then i64 (diff * -1) else diff) = ring_dist p h.
Proof.
  cbv zeta. intros Hp Hh. rewrite i64_sub by done. unfold is_u64, ring_dist in *.
  rewrite (i64_cases (p - h)) by lia.
  assert (Hw : ∀ d, 0 ≤ d ≤ 2 ^ 63 → u64 (i64 d) = d).
  { intros d Hd. rewrite i64_cases by lia. unfold u64. case_if.
    - replace (d - 2 ^ 64) with (d + (-1) * 2 ^ 64) by lia. rewrite Z.mod_add, Z.mod_small by lia. lia.
    - rewrite (proj2 (Z.ltb_ge d (- 2 ^ 63))) by lia. rewrite Z.mod_small by lia. lia. }
  repeat case_if; rewrite ?Hw by lia; try lia; unfold u64; rewrite Z.mod_small by lia; lia.
Qed.

Lemma BigMax_max x y : BigMax x y = Z.max x y.
Proof. unfold BigMax. case_if; lia. Qed.

(** The change of the base fee: an eighth of the fee, scaled by how far the
    used gas is from the target. *)
Definition fee_delta (fee delta target : Z) : Z := delta * fee / target / 8.

Lemma fee_delta_bound fee delta target : 0 ≤ fee → 0 ≤ delta ≤ target → 0 < target →
  0 ≤ fee_delta fee delta target ≤ fee / 8.
Proof.
  intros Hf Hd Ht. unfold fee_delta. split.
  - apply Z.div_pos; [|lia]. apply Z.div_pos; nia.
  - apply Z.div_le_mono; [lia|]. apply Z.div_le_upper_bound; nia.
Qed.

(** The blob-fee loop from a state where the terms shrink. *)
Lemma exp_loop_shrinks num den : 0 ≤ num → 0 < den →
  ∀ n accum output i, accum ≤ Z.of_nat n → 0 < i → num < den * i →
  ∃ r, exp_loop (S n) num den output accum i = Some (Ok r).
Proof.
  intros Hn Hd. induction n as [|n IH]; intros accum output i Ha Hi Hlt; cbn [exp_loop].
  - rewrite (proj2 (Z.ltb_ge 0 accum)) by lia. eauto.
  - destruct (0 <? accum) eqn:E; zbool; [|eauto].
    rewrite big_Div_pos by done. cbn [mbind outcome_bind]. rewrite big_Div_pos by done.
    apply IH; [|lia|nia].
    rewrite Z.div_div by lia. assert (accum * num / (den * i) < accum); [|lia].
    apply Z.div_lt_upper_bound; nia.
Qed.

Lemma exp_loop_terminates num den : 0 ≤ num → 0 < den →
  ∀ (k : nat) accum output i, 0 < i → num < den * (i + Z.of_nat k) →
  ∃ fuel r, exp_loop fuel num den output accum i = Some (Ok r).
Proof.
  intros Hn Hd. induction k as [|k IH]; intros accum output i Hi Hlt.
  - exists (S (Z.to_nat accum)).
    destruct (decide (0 <= accum)).
    + apply exp_loop_shrinks; lia.
    + cbn. rewrite (proj2 (Z.ltb_ge 0 accum)) by lia. eauto.
  - destruct (decide (0 < accum)) as [Hp|Hp].
    + destruct (IH (accum * num / den / i) (output + accum) (i + 1)) as (f & r & Hr); [lia|lia|].
      exists (S f), r. cbn [exp_loop]. rewrite (proj2 (Z.ltb_lt 0 accum)) by lia.
      rewrite big_Div_pos by done. cbn [mbind outcome_bind]. by rewrite big_Div_pos by done.
    + exists 1%nat, output. cbn. by rewrite (proj2 (Z.ltb_ge 0 accum)) by lia.
Qed.

Lemma exp_loop_output num den f o a i r : 0 ≤ num → 0 < den → 0 < i →
  exp_loop f num den o a i = Some (Ok r) → o + Z.max 0 a ≤ r.
Proof.
  intros Hn Hd. revert o a i. induction f as [|f IH]; intros o a i Hi; cbn [exp_loop]; [done|].
  rewrite big_Div_pos by done. cbn [mbind outcome_bind]. rewrite big_Div_pos by done.
  case_if; [intros H; apply IH in H; lia|intros [= <-]; lia].
Qed.

(** A larger numerator gives a larger sum, whatever the fuels are. *)
Lemma exp_loop_mono n1 n2 den f1 f2 o1 o2 a1 a2 i r1 r2 :
  0 ≤ n1 ≤ n2 → 0 < den → 0 < i → o1 ≤ o2 → a1 ≤ a2 →
  exp_loop f1 n1 den o1 a1 i = Some (Ok r1) → exp_loop f2 n2 den o2 a2 i = Some (Ok r2) → r1 ≤ r2.
Proof.
  revert f1 o1 o2 a1 a2 i. induction f2 as [|f2 IH]; intros f1 o1 o2 a1 a2 i Hn Hd Hi Ho Ha; [done|].
  destruct f1 as [|f1]; [done|]. cbn [exp_loop].
  rewrite !big_Div_pos by done. cbn [mbind outcome_bind]. rewrite !big_Div_pos by done.
  destruct (0 <? a1) eqn:E1, (0 <? a2) eqn:E2; zbool; try lia.
  - intros H1 H2. apply (IH f1 (o1 + a1) (o2 + a2) (a1 * n1 / den / i) (a2 * n2 / den / i) (i + 1)); try done; try lia.
    apply Z.div_le_mono; [lia|]. apply Z.div_le_mono; [lia|]. nia.
  - intros [= <-] H2. apply exp_loop_output in H2; lia.
  - by intros [= <-] [= <-].
Qed.

Lemma exp_loop_fuel num den f g o a i r : (f ≤ g)%nat →
  exp_loop f num den o a i = Some r → exp_loop g num den o a i = Some r.
Proof.
  revert g o a i. induction f as [|f IH]; intros [|g] o a i Hg; cbn [exp_loop]; try done; [lia|].
  case_if; [|done]. case_match; [|done|done]. apply IH. lia.
Qed.

Lemma exp_run num factor : 0 ≤ num → 0 < dataGaspriceUpdateFraction →
  ∃ fuel r, ∀ g, (fuel ≤ g)%nat →
    exp_loop g num dataGaspriceUpdateFraction 0 (factor * dataGaspriceUpdateFraction) 1 = Some (Ok r).
Proof.
  intros Hn Hd.
  destruct (exp_loop_terminates num dataGaspriceUpdateFraction Hn Hd (Z.to_nat num)
    (factor * dataGaspriceUpdateFraction) 0 1) as (f & r & Hr); [lia|nia|].
  exists f, r. intros g Hg. by eapply exp_loop_fuel.
Qed.

(** ** Properties *)

(** On 64-bit gas limits [VerifyGaslimit] accepts exactly the limits of
    at least 5000 whose distance from the parent's, measured around the 64-bit
    ring, is below the parent's limit / 1024; when both limits are at most
    [MaxGasLimit] that is the ordinary distance.  A parent limit close to
    [2^64], which doubling at the London fork produces, therefore admits a
    limit of a few thousand. *)
Theorem VerifyGaslimit_exact p h : is_u64 p → is_u64 h →
  (VerifyGaslimit p h = Ok tt ↔ ring_dist p h < p / 1024 ∧ 5000 ≤ h) ∧
  (p ≤ MaxGasLimit → h ≤ MaxGasLimit → ring_dist p h = Z.abs (p - h)) ∧
  VerifyGaslimit (u64 (MaxGasLimit * ElasticityMultiplier)) 5000 = Ok tt.
Proof.
  intros Hp Hh. split_and!; [|unfold ring_dist, MaxGasLimit, is_u64 in *; lia|by vm_compute].
  unfold VerifyGaslimit. rewrite (gaslimit_diff p h Hp Hh).
  unfold guard_err, GasLimitBoundDivisor, MinGasLimit.
  destruct (p / 1024 <=? ring_dist p h) eqn:E1, (h <? 5000) eqn:E2; zbool; cbn; split; try done; lia.
Qed.

Lemma VerifyGaslimit_exact_witness :
  VerifyGaslimit 30000000 30029295 = Ok tt ∧ ¬ VerifyGaslimit 30000000 30029296 = Ok tt.
Proof.
  split.
  - apply (VerifyGaslimit_exact 30000000 30029295); vm_compute; split; congruence.
  - intros H. apply (VerifyGaslimit_exact 30000000 30029296) in H as [H _];
      [|vm_compute; split; congruence|vm_compute; split; congruence].
    vm_compute in H. discriminate.
Defined.

(** For a London parent with a gas limit of at least 2, gas used within
    the limit and a base fee [fee], [CalcBaseFee] succeeds; the fee is kept at
    the target, raised strictly above it and never raised below it, and it
    never falls by more than an eighth nor, for an even gas limit, rises by
    more than an eighth (or one wei).  In particular it never gets negative.
    With a gas limit below 2 and gas used, the division by the zero target
    panics. *)
Theorem CalcBaseFee_bounds config parent fee :
  IsLondon config (Number parent) = true → BaseFee parent = Some fee → 0 ≤ fee →
  0 ≤ GasUsed parent ≤ GasLimit parent → GasLimit parent < 2 ^ 64 →
  (2 ≤ GasLimit parent → ∃ r, CalcBaseFee config parent = Ok r ∧
    let target := GasLimit parent / 2 in
    (GasUsed parent = target → r = fee) ∧
    (target < GasUsed parent → fee < r) ∧
    (GasUsed parent < target → r ≤ fee) ∧
    fee - fee / 8 ≤ r ∧
    (GasLimit parent mod 2 = 0 → r ≤ fee + Z.max 1 (fee / 8))) ∧
  (GasLimit parent = 1 → GasUsed parent = 1 → CalcBaseFee config parent = Panic).
Proof.
  intros HL Hfee Hpos Hused Hlim. unfold CalcBaseFee. rewrite HL, Hfee. cbn [negb deref].
  unfold ElasticityMultiplier, BaseFeeChangeDenominator.
  split; [|by intros -> ->]. intros H2. set (target := GasLimit parent / 2).
  assert (Ht : 0 < target ∧ GasLimit parent = 2 * target + GasLimit parent mod 2).
  { unfold target. pose proof (Z.div_mod (GasLimit parent) 2). split; [|lia]. apply Z.div_str_pos. lia. }
  pose proof (Z.mod_pos_bound (GasLimit parent) 2 ltac:(lia)).
  pose proof (Z.div_pos fee 8 Hpos ltac:(lia)).
  destruct (GasUsed parent =? target) eqn:E1; zbool; [exists fee; split; [done|]; lia|].
  destruct (target <? GasUsed parent) eqn:E2; zbool; cbn [mbind outcome_bind];
    rewrite u64_small, !big_Div_pos by (unfold is_u64; lia); cbn [mbind outcome_bind];
    rewrite !big_Div_pos by lia; cbn [mbind outcome_bind]; rewrite BigMax_max; eexists; (split; [done|]); cbn zeta.
  - split_and!; try lia. intros He.
    pose proof (fee_delta_bound fee (GasUsed parent - target) target Hpos ltac:(lia) ltac:(lia)) as Hd.
    unfold fee_delta in Hd. lia.
  - pose proof (fee_delta_bound fee (target - GasUsed parent) target Hpos ltac:(lia) ltac:(lia)) as Hd.
    unfold fee_delta in Hd. pose proof (Z.div_le_upper_bound fee 8 fee ltac:(lia) ltac:(lia)). lia.
Qed.

Definition london_header (num limit used fee : Z) : Header :=
  mkHeader 0 0 0 0 0 0 0 (Some 0) (Some num) limit used 0 [] 0 0 (Some fee) None None.

Lemma CalcBaseFee_bounds_witness :
  CalcBaseFee (AllForksAtZero None None) (london_header 5 20000000 19000000 1000000000) = Ok 1112500000 ∧
  ∃ r, CalcBaseFee (AllForksAtZero None None) (london_header 5 20000000 19000000 1000000000) = Ok r ∧
    1000000000 < r ≤ 1000000000 + Z.max 1 (1000000000 / 8).
Proof.
  split; [vm_compute; reflexivity|].
  destruct (CalcBaseFee_bounds (AllForksAtZero None None) (london_header 5 20000000 19000000 1000000000) 1000000000
    eq_refl eq_refl ltac:(lia) ltac:(cbn; lia) ltac:(cbn; lia)) as [H _].
  destruct (H ltac:(cbn; lia)) as (r & Hr & _ & H1 & _ & _ & H2). exists r.
  split; [exact Hr|]. split; [apply H1; vm_compute; reflexivity|apply H2; vm_compute; reflexivity].
Defined.

(** The blob fee is defined for every non-negative excess data gas: the
    Taylor loop of [fakeExponential] runs out of terms. It is at least the
    minimum price, equal to it at zero excess, and grows with the excess. *)
Theorem CalcBlobFee_monotone x y : 0 ≤ x ≤ y →
  ∃ fuel rx ry, CalcBlobFee fuel (Some x) = Some (Ok rx) ∧ CalcBlobFee fuel (Some y) = Some (Ok ry) ∧
    minDataGasPrice ≤ rx ≤ ry ∧
    CalcBlobFee fuel (Some 0) = Some (Ok minDataGasPrice) ∧ CalcBlobFee fuel None = Some (Ok minDataGasPrice).
Proof.
  intros Hxy. assert (Hd : 0 < dataGaspriceUpdateFraction) by done.
  destruct (exp_run x minDataGasPrice ltac:(lia) Hd) as (f1 & ox & H1).
  destruct (exp_run y minDataGasPrice ltac:(lia) Hd) as (f2 & oy & H2).
  set (f := (S (S (Nat.max f1 f2)))%nat).
  specialize (H1 f ltac:(lia)). specialize (H2 f ltac:(lia)).
  pose proof (exp_loop_output _ _ _ _ _ _ _ (proj1 Hxy) Hd Z.lt_0_1 H1).
  assert (ox ≤ oy) by (refine (exp_loop_mono x y _ f f _ _ _ _ _ ox oy _ Hd _ _ _ H1 H2); lia).
  exists f, (ox / dataGaspriceUpdateFraction), (oy / dataGaspriceUpdateFraction).
  unfold CalcBlobFee, fakeExponential. rewrite H1, H2.
  cbn [mbind outcome_bind]. rewrite !big_Div_pos by done. unfold minDataGasPrice in *.
  split_and!; try done.
  - apply Z.div_le_lower_bound; lia.
  - by apply Z.div_le_mono.
Qed.

Lemma CalcBlobFee_monotone_witness :
  CalcBlobFee 100 (Some 10000000) = Some (Ok 89) ∧
  ∃ fuel rx ry, CalcBlobFee fuel (Some 1000000) = Some (Ok rx) ∧ CalcBlobFee fuel (Some 10000000) = Some (Ok ry) ∧
    minDataGasPrice ≤ rx ≤ ry ∧
    CalcBlobFee fuel (Some 0) = Some (Ok minDataGasPrice) ∧ CalcBlobFee fuel None = Some (Ok minDataGasPrice).
Proof.
  split; [vm_compute; reflexivity|]. apply (CalcBlobFee_monotone 1000000 10000000). lia.
Defined.
