(* ===== verification/Transactions.v ===== *)
(** Transactions: [transaction.go] and the transaction data types
    [tx_legacy.go], [tx_access_list.go], [tx_dynamic_fee.go] and [tx_blob.go]
    of [src/go-ethereum/core/types].

    The integers of a transaction are set by [NewTx], which copies the data
    and replaces nil by zero, or by the decoder, which leaves no nil; they are
    numbers here.  The caches of hash, size and sender hold the values of the
    functions they cache.  The 256-bit integers of blob transactions are numbers
    below 2^256: [SetFromBig] keeps the low 256 bits. *)

From S2P Require Import Prelude RLP RLPDecode Types HeaderRLP Receipts Fees.

(** ** Transaction data *)

Definition BlobTxType : Z := 3.
Definition BlobTxDataGasPerBlob : Z := 2 ^ 17.

Record AccessTuple := mkTuple { at_Address : Z; at_StorageKeys : list Z }.

(** [AccessList.StorageKeys]. *)
Definition StorageKeys (al : list AccessTuple) : Z :=
  foldl (fun sum t => sum + zlen (at_StorageKeys t)) 0 al.

Record Signature := mkSig { sig_V : Z; sig_R : Z; sig_S : Z }.

Inductive TxData :=
| LegacyTx (nonce gasPrice gas : Z) (to : option Z) (value : Z) (data : bytes) (sig : Signature)
| AccessListTx (chainID nonce gasPrice gas : Z) (to : option Z) (value : Z) (data : bytes)
    (accessList : list AccessTuple) (sig : Signature)
| DynamicFeeTx (chainID nonce gasTipCap gasFeeCap gas : Z) (to : option Z) (value : Z) (data : bytes)
    (accessList : list AccessTuple) (sig : Signature)
| BlobTx (chainID nonce gasTipCap gasFeeCap gas : Z) (to : option Z) (value : Z) (data : bytes)
    (accessList : list AccessTuple) (blobFeeCap : Z) (blobHashes : list Z) (sig : Signature).

Record Transaction := mkTransaction { inner : TxData; tx_time : Z }.

#[global] Instance AccessTuple_eq_dec : EqDecision AccessTuple.
Proof. solve_decision. Defined.
#[global] Instance Signature_eq_dec : EqDecision Signature.
Proof. solve_decision. Defined.
#[global] Instance TxData_eq_dec : EqDecision TxData.
Proof. solve_decision. Defined.
#[global] Instance Transaction_eq_dec : EqDecision Transaction.
Proof. solve_decision. Defined.

(** ** Accessors *)

Definition txType (d : TxData) : Z :=
  match d with LegacyTx _ _ _ _ _ _ _ => LegacyTxType | AccessListTx _ _ _ _ _ _ _ _ _ => AccessListTxType
  | DynamicFeeTx _ _ _ _ _ _ _ _ _ _ => DynamicFeeTxType | BlobTx _ _ _ _ _ _ _ _ _ _ _ _ => BlobTxType end.

(** [isProtectedV]: on eight bits, 27, 28, 1 and 0 are not protected. *)
Definition isProtectedV (v : Z) : bool :=
  if big_BitLen v <=? 8 then
    let v := big_Uint64 v in
    negb (v =? 27) && negb (v =? 28) && negb (v =? 1) && negb (v =? 0)
  else true.

(** [deriveChainId] of transaction_signing.go. *)
Definition deriveChainId (v : Z) : Z :=
  if big_BitLen v <=? 64 then
    let v := big_Uint64 v in
    if (v =? 27) || (v =? 28) then 0 else u64 (v - 35) / 2
  else Z.div (v - 35) 2.

Definition chainID (d : TxData) : Z :=
  match d with
  | LegacyTx _ _ _ _ _ _ sig => deriveChainId (sig_V sig)
  | AccessListTx c _ _ _ _ _ _ _ _ | DynamicFeeTx c _ _ _ _ _ _ _ _ _ | BlobTx c _ _ _ _ _ _ _ _ _ _ _ => c
  end.
Definition accessList (d : TxData) : list AccessTuple :=
  match d with
  | LegacyTx _ _ _ _ _ _ _ => []
  | AccessListTx _ _ _ _ _ _ _ al _ | DynamicFeeTx _ _ _ _ _ _ _ _ al _ | BlobTx _ _ _ _ _ _ _ _ al _ _ _ => al
  end.
Definition tx_data (d : TxData) : bytes :=
  match d with
  | LegacyTx _ _ _ _ _ x _ | AccessListTx _ _ _ _ _ _ x _ _ | DynamicFeeTx _ _ _ _ _ _ _ x _ _
  | BlobTx _ _ _ _ _ _ _ x _ _ _ _ => x
  end.
Definition gas (d : TxData) : Z :=
  match d with
  | LegacyTx _ _ g _ _ _ _ | AccessListTx _ _ _ g _ _ _ _ _ | DynamicFeeTx _ _ _ _ g _ _ _ _ _
  | BlobTx _ _ _ _ g _ _ _ _ _ _ _ => g
  end.
Definition gasPrice (d : TxData) : Z :=
  match d with
  | LegacyTx _ p _ _ _ _ _ | AccessListTx _ _ p _ _ _ _ _ _ | DynamicFeeTx _ _ _ p _ _ _ _ _ _
  | BlobTx _ _ _ p _ _ _ _ _ _ _ _ => p
  end.
Definition gasTipCap (d : TxData) : Z :=
  match d with
  | LegacyTx _ p _ _ _ _ _ | AccessListTx _ _ p _ _ _ _ _ _ | DynamicFeeTx _ _ p _ _ _ _ _ _ _
  | BlobTx _ _ p _ _ _ _ _ _ _ _ _ => p
  end.
Definition gasFeeCap (d : TxData) : Z := gasPrice d.
Definition tx_value (d : TxData) : Z :=
  match d with
  | LegacyTx _ _ _ _ v _ _ | AccessListTx _ _ _ _ _ v _ _ _ | DynamicFeeTx _ _ _ _ _ _ v _ _ _
  | BlobTx _ _ _ _ _ _ v _ _ _ _ _ => v
  end.
Definition nonce (d : TxData) : Z :=
  match d with
  | LegacyTx n _ _ _ _ _ _ | AccessListTx _ n _ _ _ _ _ _ _ | DynamicFeeTx _ n _ _ _ _ _ _ _ _
  | BlobTx _ n _ _ _ _ _ _ _ _ _ _ => n
  end.
Definition tx_to (d : TxData) : option Z :=
  match d with
  | LegacyTx _ _ _ t _ _ _ | AccessListTx _ _ _ _ t _ _ _ _ | DynamicFeeTx _ _ _ _ _ t _ _ _ _
  | BlobTx _ _ _ _ _ t _ _ _ _ _ _ => t
  end.
Definition rawSignatureValues (d : TxData) : Signature :=
  match d with
  | LegacyTx _ _ _ _ _ _ s | AccessListTx _ _ _ _ _ _ _ _ s | DynamicFeeTx _ _ _ _ _ _ _ _ _ s
  | BlobTx _ _ _ _ _ _ _ _ _ _ _ s => s
  end.
Definition blobGas (d : TxData) : Z :=
  match d with BlobTx _ _ _ _ _ _ _ _ _ _ hs _ => u64 (BlobTxDataGasPerBlob * zlen hs) | _ => 0 end.
Definition blobGasFeeCap (d : TxData) : option Z :=
  match d with BlobTx _ _ _ _ _ _ _ _ _ c _ _ => Some c | _ => None end.

Definition blobHashes (d : TxData) : list Z :=
  match d with BlobTx _ _ _ _ _ _ _ _ _ _ hs _ => hs | _ => [] end.

(** [uint256.Int.SetFromBig] without its report of an overflow. *)
Definition SetFromBig (z : Z) : Z := z mod 2 ^ 256.
Definition setSignatureValues (chain : Z) (s : Signature) (d : TxData) : TxData :=
  match d with
  | LegacyTx n p g t v x _ => LegacyTx n p g t v x s
  | AccessListTx _ n p g t v x al _ => AccessListTx chain n p g t v x al s
  | DynamicFeeTx _ n tip cap g t v x al _ => DynamicFeeTx chain n tip cap g t v x al s
  | BlobTx _ n tip cap g t v x al bc bh _ =>
      BlobTx (SetFromBig chain) n tip cap g t v x al bc bh (mkSig (SetFromBig (sig_V s)) (SetFromBig (sig_R s)) (SetFromBig (sig_S s)))
  end.

Definition Protected (tx : Transaction) : bool :=
  match inner tx with LegacyTx _ _ _ _ _ _ sig => isProtectedV (sig_V sig) | _ => true end.

(** ** Fees *)

(** [effectiveGasPrice]: the price paid in a block with the given base fee. *)
Definition effectiveGasPrice (d : TxData) (baseFee : option Z) : Z :=
  match d with
  | LegacyTx _ _ _ _ _ _ _ | AccessListTx _ _ _ _ _ _ _ _ _ => gasPrice d
  | _ =>
      match baseFee with
      | None => gasFeeCap d
      | Some baseFee =>
          let tip := gasFeeCap d - baseFee in
          let tip := if gasTipCap d <? tip then gasTipCap d else tip in
          tip + baseFee
      end
  end.

(** The tip and whether the fee cap is below the base fee. *)
Definition EffectiveGasTip (d : TxData) (baseFee : option Z) : Z * bool :=
  match baseFee with
  | None => (gasTipCap d, true)
  | Some baseFee => (BigMin (gasTipCap d) (gasFeeCap d - baseFee), negb (gasFeeCap d <? baseFee))
  end.
Definition EffectiveGasTipValue (d : TxData) (baseFee : option Z) : Z := (EffectiveGasTip d baseFee).1.
Definition EffectiveGasTipCmp (d other : TxData) (baseFee : option Z) : comparison :=
  match baseFee with
  | None => gasTipCap d ?= gasTipCap other
  | Some _ => EffectiveGasTipValue d baseFee ?= EffectiveGasTipValue other baseFee
  end.

Definition Cost (d : TxData) : Z :=
  let total := gasPrice d * gas d in
  let total := if txType d =? BlobTxType then total + default 0 (blobGasFeeCap d) * blobGas d else total in
  total + tx_value d.

(** ** Encoding *)

Definition addr_ptr (t : option Z) : value :=
  VPtr (nil_byte KString) (match t with Some a => Some (VByteArray (be_bytes 20 a)) | None => None end).
Definition tuple_value (t : AccessTuple) : value :=
  VStruct [VByteArray (be_bytes 20 (at_Address t)); VSlice (Some (map (fun k => VByteArray (be_bytes 32 k)) (at_StorageKeys t)))] [].
Definition accessList_value (al : list AccessTuple) : value := VSlice (Some (map tuple_value al)).
Definition sig_values (s : Signature) : list value := [VBigInt (Some (sig_V s)); VBigInt (Some (sig_R s)); VBigInt (Some (sig_S s))].

(** The field [To] of a blob transaction has no nil tag. *)
Definition plain_ptr (t : option Z) : value :=
  VPtr (z2b 0x80) (match t with Some a => Some (VByteArray (be_bytes 20 a)) | None => None end).
Definition hashes_value (hs : list Z) : value := VSlice (Some (map (fun h => VByteArray (be_bytes 32 h)) hs)).
Definition sig_values256 (s : Signature) : list value :=
  [VUint256 (Some (sig_V s)); VUint256 (Some (sig_R s)); VUint256 (Some (sig_S s))].

(** The struct behind [tx.inner], as the reflection-driven encoder sees it. *)
Definition inner_struct (d : TxData) : value :=
  match d with
  | LegacyTx n p g t v x s =>
      VStruct ([VUint n; VBigInt (Some p); VUint g; addr_ptr t; VBigInt (Some v); VBytes (Some x)] ++ sig_values s) []
  | AccessListTx c n p g t v x al s =>
      VStruct ([VBigInt (Some c); VUint n; VBigInt (Some p); VUint g; addr_ptr t; VBigInt (Some v); VBytes (Some x);
                accessList_value al] ++ sig_values s) []
  | DynamicFeeTx c n tip cap g t v x al s =>
      VStruct ([VBigInt (Some c); VUint n; VBigInt (Some tip); VBigInt (Some cap); VUint g; addr_ptr t; VBigInt (Some v);
                VBytes (Some x); accessList_value al] ++ sig_values s) []
  | BlobTx c n tip cap g t v x al bc bh s =>
      VStruct ([VUint256 (Some c); VUint n; VUint256 (Some tip); VUint256 (Some cap); VUint g; plain_ptr t; VUint256 (Some v);
                VBytes (Some x); accessList_value al; VUint256 (Some bc); hashes_value bh] ++ sig_values256 s) []
  end.
Definition inner_value (d : TxData) : value := VPtr (z2b 0xC0) (Some (inner_struct d)).

Definition tx_MarshalBinary (d : TxData) : outcome rlpError bytes :=
  if txType d =? LegacyTxType then EncodeToBytes (inner_value d)
  else b ← EncodeToBytes (inner_value d); Ok (z2b (txType d) :: b).

(** [prefixedRlpHash], like [rlpHash], ignores the encoder's error. *)
Definition prefixedRlpHash (keccak : bytes → Z) (prefix : Z) (v : value) : Z :=
  keccak (Encode append_writer [z2b prefix] v).1.
Definition tx_Hash (keccak : bytes → Z) (d : TxData) : Z :=
  if txType d =? LegacyTxType then rlpHash keccak (inner_value d) else prefixedRlpHash keccak (txType d) (inner_value d).

(** [writeCounter.Write] and [Size], which encodes a pointer to the interface
    [tx.inner] into the counter. *)
Definition writeCounter_Write (c : Z) (b : bytes) : Z * Z * option rlpError := (u64 (c + zlen b), zlen b, None).
Definition tx_Size (d : TxData) : Z :=
  let c := (Encode writeCounter_Write 0 (VPtr (z2b 0xC0) (Some (VInterface (Some (inner_value d)))))).1 in
  if txType d =? LegacyTxType then c else u64 (c + 1).

(** [Transactions.EncodeIndex] drops the encoder's error. *)
Definition tx_EncodeIndex (txs : list TxData) (i : Z) : outcome rlpError bytes :=
  d ← deref (txs !! Z.to_nat i);
  Ok (if txType d =? LegacyTxType then (Encode append_writer [] (inner_value d)).1
      else (Encode append_writer [z2b (txType d)] (inner_value d)).1).

(** [TxDifference] and [HashDifference]. *)
Definition HashDifference (a b : list Z) : list Z := filter (fun h => h ∉ b) a.
Definition TxDifference (keccak : bytes → Z) (a b : list TxData) : list TxData :=
  filter (fun tx => tx_Hash keccak tx ∉ map (tx_Hash keccak) b) a.

(** ** Decoding *)

Inductive txError := txDecode (e : streamError) | errShortTypedTx | TxTypeNotSupported.

Definition addr_type : rtype := TNilPtr KString (TByteArray 20).
Definition tuple_type : rtype := TStruct [TByteArray 20; TSlice (TByteArray 32)] [].
Definition legacy_type : rtype :=
  TStruct [TUint 64; TBigInt; TUint 64; addr_type; TBigInt; TBytes; TBigInt; TBigInt; TBigInt] [].
Definition accessList_type : rtype :=
  TStruct [TBigInt; TUint 64; TBigInt; TUint 64; addr_type; TBigInt; TBytes; TSlice tuple_type; TBigInt; TBigInt; TBigInt] [].
Definition dynamicFee_type : rtype :=
  TStruct [TBigInt; TUint 64; TBigInt; TBigInt; TUint 64; addr_type; TBigInt; TBytes; TSlice tuple_type; TBigInt; TBigInt; TBigInt] [].
Definition blob_type : rtype :=
  TStruct [TUint256; TUint 64; TUint256; TUint256; TUint 64; TPtr (z2b 0x80) (TByteArray 20); TUint256; TBytes; TSlice tuple_type;
           TUint256; TSlice (TByteArray 32); TUint256; TUint256; TUint256] [].

Definition addr_of (v : value) : option (option Z) :=
  match v with
  | VPtr _ None => Some None
  | VPtr _ (Some (VByteArray a)) => Some (Some (be_value a))
  | _ => None
  end.
Definition tuple_of (v : value) : option AccessTuple :=
  match v with
  | VStruct [VByteArray a; VSlice ks] [] => mkTuple (be_value a) <$> mapM array_num (default [] ks)
  | _ => None
  end.

(** The fields of the decoded structs. *)
Definition legacy_of (v : value) : option TxData :=
  match v with
  | VStruct [VUint n; VBigInt (Some p); VUint g; t; VBigInt (Some x); VBytes d; VBigInt (Some v); VBigInt (Some r); VBigInt (Some s)] [] =>
      t ← addr_of t; Some (LegacyTx n p g t x (default [] d) (mkSig v r s))
  | _ => None
  end.
Definition accessListTx_of (v : value) : option TxData :=
  match v with
  | VStruct [VBigInt (Some c); VUint n; VBigInt (Some p); VUint g; t; VBigInt (Some x); VBytes d; VSlice al;
             VBigInt (Some v); VBigInt (Some r); VBigInt (Some s)] [] =>
      t ← addr_of t; al ← mapM tuple_of (default [] al);
      Some (AccessListTx c n p g t x (default [] d) al (mkSig v r s))
  | _ => None
  end.
Definition dynamicFeeTx_of (v : value) : option TxData :=
  match v with
  | VStruct [VBigInt (Some c); VUint n; VBigInt (Some tip); VBigInt (Some cap); VUint g; t; VBigInt (Some x); VBytes d; VSlice al;
             VBigInt (Some v); VBigInt (Some r); VBigInt (Some s)] [] =>
      t ← addr_of t; al ← mapM tuple_of (default [] al);
      Some (DynamicFeeTx c n tip cap g t x (default [] d) al (mkSig v r s))
  | _ => None
  end.

Definition blobTx_of (v : value) : option TxData :=
  match v with
  | VStruct [VUint256 (Some c); VUint n; VUint256 (Some tip); VUint256 (Some cap); VUint g; t; VUint256 (Some x); VBytes d; VSlice al;
             VUint256 (Some bc); VSlice bh; VUint256 (Some v); VUint256 (Some r); VUint256 (Some s)] [] =>
      t ← addr_of t; al ← mapM tuple_of (default [] al); bh ← mapM array_num (default [] bh);
      Some (BlobTx c n tip cap g t x (default [] d) al bc bh (mkSig v r s))
  | _ => None
  end.

(** [rlp.DecodeBytes(b, &inner)] into the struct of one transaction type. *)
Definition decode_inner (t : rtype) (f : value → option TxData) (b : bytes) : outcome txError TxData :=
  match DecodeBytes b t with
  | Ok v => deref (f v)
  | Err e => Err (txDecode e)
  | Panic => Panic
  end.

Definition tx_decodeTyped (b : bytes) : outcome txError TxData :=
  match b with
  | ty :: rest =>
      if zlen b <=? 1 then Err errShortTypedTx
      else if b2z ty =? AccessListTxType then decode_inner accessList_type accessListTx_of rest
      else if b2z ty =? DynamicFeeTxType then decode_inner dynamicFee_type dynamicFeeTx_of rest
      else if b2z ty =? BlobTxType then decode_inner blob_type blobTx_of rest
      else Err TxTypeNotSupported
  | [] => Err errShortTypedTx
  end.

(** The decoded data with the size [setDecoded] caches. *)
Definition tx_UnmarshalBinary (b : bytes) : outcome txError (TxData * Z) :=
  if match b with c :: _ => 0x7f <? b2z c | [] => false end
  then inner ← decode_inner legacy_type legacy_of b; Ok (inner, zlen b)
  else inner ← tx_decodeTyped b; Ok (inner, zlen b).

(** ** Lemmas on the encodings *)

(** The fields in the range of their Go types. *)
Definition addr_ok (t : option Z) : Prop := match t with Some a => array_ok 20 a | None => True end.
Definition tuple_ok (t : AccessTuple) : Prop := array_ok 20 (at_Address t) ∧ Forall (array_ok 32) (at_StorageKeys t).
Definition sig_ok (s : Signature) : Prop := 0 ≤ sig_V s ∧ 0 ≤ sig_R s ∧ 0 ≤ sig_S s.
Definition u256_ok (z : Z) : Prop := 0 ≤ z < 2 ^ 256.
Definition blob_ok (d : TxData) : Prop :=
  match d with
  | BlobTx c _ tip cap _ t v _ _ bc bh s =>
      (u256_ok c ∧ u256_ok tip ∧ u256_ok cap ∧ u256_ok v ∧ u256_ok bc) ∧ is_Some t ∧ Forall (array_ok 32) bh ∧
      u256_ok (sig_V s) ∧ u256_ok (sig_R s) ∧ u256_ok (sig_S s)
  | _ => True
  end.
Record wf_tx (d : TxData) : Prop := {
  wt_nonce : is_u64 (nonce d);
  wt_gas : is_u64 (gas d);
  wt_tip : 0 ≤ gasTipCap d;
  wt_price : 0 ≤ gasPrice d;
  wt_value : 0 ≤ tx_value d;
  wt_to : addr_ok (tx_to d);
  wt_list : Forall tuple_ok (accessList d);
  wt_sig : sig_ok (rawSignatureValues d);
  wt_chain : txType d ≠ LegacyTxType → 0 ≤ chainID d;
  wt_blob : blob_ok d
}.

(** [codec ty to rd ok]: the values of type [ty] are the structs [to a] of the
    [a] that are [ok], and [rd] reads them back. *)
Record codec {A} (ty : rtype) (to : A → value) (rd : value → option A) (ok : A → Prop) : Prop := {
  co_typed v : has_type ty v → ∃ a, v = to a ∧ ok a;
  co_has a : ok a → has_type ty (to a);
  co_of a : ok a → rd (to a) = Some a
}.

#[local] Arguments be_bytes : simpl never.
#[local] Arguments be_value : simpl never.

Lemma has_type_plain req v : has_type (TStruct req []) v ↔ ∃ r, v = VStruct r [] ∧ Forall2 has_type req r.
Proof.
  split.
  - intros (o1 & o2 & r & o & E & -> & Hr & Ho)%has_type_struct. apply app_eq_nil in E as [-> ->].
    apply Forall2_nil_inv_l in Ho as ->. by exists r.
  - intros (r & -> & Hr). apply (ht_struct req [] [] r []); [done|constructor].
Qed.

Lemma array_codec n : codec (TByteArray (Z.of_nat n)) (fun z => VByteArray (be_bytes n z)) array_num (array_ok (Z.of_nat n)).
Proof.
  split.
  - intros v (a & -> & Ha)%has_type_array. destruct (array_value n a Ha) as [E R]. exists (be_value a). by rewrite E.
  - intros a _. constructor. apply zlen_be_bytes.
  - intros a Ha. cbn. by rewrite array_of_bytes.
Qed.

Lemma slice_codec {A} ty to rd (ok : A → Prop) : codec ty to rd ok →
  (∀ l, Forall (has_type ty) l → ∃ al, l = map to al ∧ Forall ok al) ∧
  (∀ al, Forall ok al → Forall (has_type ty) (map to al) ∧ mapM rd (map to al) = Some al).
Proof.
  intros [Ht Hh Ho]. split.
  - intros l. induction 1 as [|v l Hv _ (al & -> & Hal)]; [by exists []|]. destruct (Ht v Hv) as (a & -> & Ha).
    exists (a :: al). by split; [|constructor].
  - intros al Hal. induction Hal as [|a al Ha _ [IH1 IH2]]; [by split; [constructor|]|]. cbn.
    split; [constructor; auto|]. by rewrite Ho, IH2.
Qed.

Lemma addr_codec : codec addr_type addr_ptr addr_of addr_ok.
Proof.
  split.
  - intros v Hv. inversion Hv as [| | | | | | | |? ? E|? ? w Hw Hne E| |]; subst; [by exists None|].
    apply (co_typed _ _ _ _ (array_codec 20)) in Hw as (a & -> & Ha). by exists (Some a).
  - intros [a|] Ha; [|constructor]. apply ht_nilptr; [by apply (co_has _ _ _ _ (array_codec 20))|].
    intros enc [= <-] (x & E & Hx). apply (f_equal zlen) in E. pose proof (zlen_rlp_str (be_bytes 20 a)).
    rewrite zlen_be_bytes in *. change (zlen [x]) with 1 in E. lia.
  - intros [a|] Ha; [|done]. cbn. by rewrite (array_of_bytes 20).
Qed.

Lemma tuple_codec : codec tuple_type tuple_value tuple_of tuple_ok.
Proof.
  pose proof (array_codec 20) as C20. pose proof (slice_codec _ _ _ _ (array_codec 32)) as [T32 C32]. split.
  - intros v (r & -> & H)%has_type_plain.
    apply Forall2_cons_l in H as (a & r' & -> & (x & -> & Hx)%(co_typed _ _ _ _ C20) & H).
    apply Forall2_cons_l in H as (k & r'' & -> & Hk & ->%Forall2_nil_inv_l).
    inversion Hk as [| | | | | | | | | |? l Hl|]; subst. apply T32 in Hl as (ks & -> & Hks).
    by exists (mkTuple x ks).
  - intros t [Ha Hk]. apply has_type_plain. eexists. split; [reflexivity|].
    constructor; [by apply (co_has _ _ _ _ C20)|]. constructor; [|constructor]. constructor. by apply (C32 _ Hk).
  - intros [a ks] [Ha Hk]. cbn in *. rewrite (proj2 (C32 ks Hk)). cbn. by rewrite (array_of_bytes 20).
Qed.

Lemma accessList_codec : codec (TSlice tuple_type) accessList_value
  (fun v => match v with VSlice al => mapM tuple_of (default [] al) | _ => None end) (Forall tuple_ok).
Proof.
  destruct (slice_codec _ _ _ _ tuple_codec) as [T C]. split.
  - intros v Hv. inversion Hv as [| | | | | | | | | |? l Hl|]; subst. apply T in Hl as (al & -> & Hal). by exists al.
  - intros al Hal. constructor. by apply C.
  - intros al Hal. cbn. by apply C.
Qed.

Lemma hashes_codec : codec (TSlice (TByteArray 32)) hashes_value
  (fun v => match v with VSlice hs => mapM array_num (default [] hs) | _ => None end) (Forall (array_ok 32)).
Proof.
  destruct (slice_codec _ _ _ _ (array_codec 32)) as [T C]. split.
  - intros v Hv. inversion Hv as [| | | | | | | | | |? l Hl|]; subst. apply T in Hl as (hs & -> & Hhs). by exists hs.
  - intros hs Hhs. constructor. by apply C.
  - intros hs Hhs. cbn. by apply C.
Qed.
Lemma plain_codec : codec (TPtr (z2b 0x80) (TByteArray 20)) plain_ptr addr_of (fun t => is_Some t ∧ addr_ok t).
Proof.
  split.
  - intros v Hv. inversion Hv as [| | | | | | |? ? w Hw E| | | |]; subst.
    apply (co_typed _ _ _ _ (array_codec 20)) in Hw as (a & -> & Ha). exists (Some a). split; [done|]. split; [by eexists|done].
  - intros [a|] [Hs Ha]; [|by destruct Hs]. apply ht_ptr. by apply (co_has _ _ _ _ (array_codec 20)).
  - intros [a|] [Hs Ha]; [|done]. cbn. by rewrite (array_of_bytes 20).
Qed.

Lemma tuples_of al : Forall tuple_ok al → mapM tuple_of (map tuple_value al) = Some al.
Proof. exact (co_of _ _ _ _ accessList_codec al). Qed.

(** The fields of a decoded struct, one after the other. *)
Ltac tx_field H :=
  apply Forall2_cons_l in H as (? & ? & -> & ?Hv & H);
  lazymatch goal with
  | Hv : has_type TBigInt _ |- _ => apply has_type_bigint in Hv as (? & -> & ?)
  | Hv : has_type TUint256 _ |- _ => inversion Hv; subst; clear Hv
  | Hv : has_type (TPtr _ _) _ |- _ => apply (co_typed _ _ _ _ plain_codec) in Hv as (? & -> & ? & ?)
  | Hv : has_type (TSlice (TByteArray _)) _ |- _ => apply (co_typed _ _ _ _ hashes_codec) in Hv as (? & -> & ?)
  | Hv : has_type (TUint _) _ |- _ => apply has_type_uint in Hv as (? & -> & ?)
  | Hv : has_type TBytes _ |- _ => apply has_type_bytes in Hv as (? & ->)
  | Hv : has_type addr_type _ |- _ => apply (co_typed _ _ _ _ addr_codec) in Hv as (? & -> & ?)
  | Hv : has_type (TSlice tuple_type) _ |- _ => apply (co_typed _ _ _ _ accessList_codec) in Hv as (? & -> & ?)
  end.
Ltac tx_fields H := repeat tx_field H; apply Forall2_nil_inv_l in H as ->.
(** The other direction. *)
Ltac tx_typed :=
  apply has_type_plain; eexists; split; [reflexivity|];
  repeat first [ apply Forall2_nil_2
    | apply Forall2_cons_2; [first [constructor; done | by apply (co_has _ _ _ _ addr_codec) | by apply (co_has _ _ _ _ plain_codec)
                                   | by apply (co_has _ _ _ _ accessList_codec) | by apply (co_has _ _ _ _ hashes_codec)]|] ].

Definition wf_of (k : Z) (d : TxData) : Prop := wf_tx d ∧ txType d = k.

Lemma legacy_codec : codec legacy_type inner_struct legacy_of (wf_of LegacyTxType).
Proof.
  split.
  - intros v (r & -> & H)%has_type_plain. tx_fields H.
    eexists (LegacyTx _ _ _ _ _ _ (mkSig _ _ _)). split; [reflexivity|]. by split; [split|].
  - intros [] [[? ? ? ? ? ? ? (? & ? & ?) ? ?] E]; try done. cbn in *. tx_typed.
  - intros [? ? ? t ? ? []| | |] [[] E]; try done. cbn -[addr_of addr_ptr] in *.
    by rewrite (co_of _ _ _ _ addr_codec).
Qed.

Lemma accessListTx_codec : codec accessList_type inner_struct accessListTx_of (wf_of AccessListTxType).
Proof.
  split.
  - intros v (r & -> & H)%has_type_plain. tx_fields H.
    eexists (AccessListTx _ _ _ _ _ _ _ _ (mkSig _ _ _)). split; [reflexivity|]. by split; [split|].
  - intros [] [[? ? ? ? ? ? ? (? & ? & ?) Hc ?] E]; try done. cbn in *. specialize (Hc ltac:(done)). tx_typed.
  - intros [|? ? ? ? t ? ? al []| |] [[] E]; try done. cbn -[addr_of addr_ptr] in *.
    rewrite (co_of _ _ _ _ addr_codec) by done. cbn -[tuple_of]. by rewrite tuples_of.
Qed.

Lemma dynamicFeeTx_codec : codec dynamicFee_type inner_struct dynamicFeeTx_of (wf_of DynamicFeeTxType).
Proof.
  split.
  - intros v (r & -> & H)%has_type_plain. tx_fields H.
    eexists (DynamicFeeTx _ _ _ _ _ _ _ _ _ (mkSig _ _ _)). split; [reflexivity|]. by split; [split|].
  - intros [] [[? ? ? ? ? ? ? (? & ? & ?) Hc ?] E]; try done. cbn in *. specialize (Hc ltac:(done)). tx_typed.
  - intros [| |? ? ? ? ? t ? ? al []|] [[] E]; try done. cbn -[addr_of addr_ptr] in *.
    rewrite (co_of _ _ _ _ addr_codec) by done. cbn -[tuple_of]. by rewrite tuples_of.
Qed.

Lemma blobTx_codec : codec blob_type inner_struct blobTx_of (wf_of BlobTxType).
Proof.
  split.
  - intros v (r & -> & H)%has_type_plain. tx_fields H.
    eexists (BlobTx _ _ _ _ _ _ _ _ _ _ _ (mkSig _ _ _)). split; [reflexivity|]. split; [|done]. split; try done; cbn; unfold u256_ok, sig_ok; cbn; (try split_and!); try done; lia.
  - intros [] [[? ? ? ? ? ? ? ? ? Hb] E]; try done. cbn in Hb. destruct Hb as ((? & ? & ? & ? & ?) & ? & ? & ? & ? & ?). cbn in *. unfold u256_ok in *. tx_typed.
  - intros [| | |? ? ? ? ? t ? ? al ? blobHashes []] [[] E]; try done. destruct wt_blob0 as (_ & ? & ? & _). cbn -[addr_of plain_ptr] in *.
    rewrite (co_of _ _ _ _ plain_codec) by done. cbn -[tuple_of array_num]. rewrite tuples_of by done. cbn -[array_num].
    by rewrite (proj2 (proj2 (slice_codec _ _ _ _ (array_codec 32)) blobHashes ltac:(done))).
Qed.

(** A writer that simulates another one. *)
Lemma Encode_sim {W W'} (wr : W → bytes → W * Z * option rlpError) (wr' : W' → bytes → W' * Z * option rlpError)
    (f : W → W') v w :
  (∀ w b, wr' (f w) b = (f (wr w b).1.1, (wr w b).1.2, (wr w b).2)) →
  Encode wr' (f w) v = (f (Encode wr w v).1, (Encode wr w v).2).
Proof.
  intros Hf. unfold Encode. destruct (write v getEncBuffer) as [buf| |]; [|done|done]. unfold writeTo.
  assert (Hl : ∀ hs pos w, writeTo_loop wr' (str buf) hs pos (f w) =
    (f (writeTo_loop wr (str buf) hs pos w).1, (writeTo_loop wr (str buf) hs pos w).2)).
  { intros hs. induction hs as [|h hs IH]; intros pos w0; cbn; [done|].
    destruct (0 <? offset h - pos); [destruct (slice (str buf) pos (offset h)) as [piece| |]; [|done|done];
      rewrite Hf; destruct (wr w0 piece) as [[w1 n1] [e|]]; cbn; [done|]|];
      rewrite Hf; destruct (wr _ (encode_head h)) as [[w2 n2] [e|]]; cbn; done || apply IH. }
  rewrite Hl. destruct (writeTo_loop wr (str buf) (lheads buf) 0 w) as [w1 [pos| |]]; cbn; [|done|done].
  destruct (pos <? zlen (str buf)); [|done]. destruct (slice (str buf) pos _) as [piece| |]; [|done|done].
  rewrite Hf. by destruct (wr w1 piece) as [[w2 n2] [e|]].
Qed.

Lemma Encode_count v out : wf_value v → ref_value v = Ok out → zlen out < 2 ^ 63 →
  (Encode writeCounter_Write 0 v).1 = zlen out.
Proof.
  intros Hwf Hr Hl.
  pose proof (Encode_sim append_writer writeCounter_Write (fun w => u64 (zlen w)) v []) as Hs.
  cbv beta in Hs. change (u64 (zlen ([] : bytes))) with 0 in Hs. rewrite Hs.
  - rewrite (Encode_writes v out [] Hwf Hr Hl). cbn. pose proof (zlen_nonneg out). apply u64_small. unfold is_u64. lia.
  - intros w b. cbn. unfold writeCounter_Write. rewrite zlen_app. do 2 f_equal. unfold u64. by rewrite Zplus_mod_idemp_l.
Qed.


Lemma ref_fields_total l : Forall (fun v => ∃ e, ref_value v = Ok e) l → ∃ e, ref_fields (map ref_value l) = Ok e.
Proof. induction 1 as [|v l [e He] _ [es IH]]; [by exists []|]. cbn. rewrite He, IH. cbn. eauto. Qed.

Lemma ref_slice_total l : Forall (fun v => ∃ e, ref_value v = Ok e) l → ∃ e, ref_value (VSlice (Some l)) = Ok e.
Proof. intros (e & He)%ref_fields_total. exists (rlp_list e). apply fmap_ok. eauto. Qed.

Lemma ref_struct_total r : Forall (fun v => ∃ e, ref_value v = Ok e) r → ∃ pl, ref_value (VStruct r []) = Ok (rlp_list pl).
Proof. intros (p & Hp)%ref_fields_total. exists (p ++ []). apply ref_struct_ok. by exists p, []. Qed.

Lemma accessList_total al : ∃ e, ref_value (accessList_value al) = Ok e.
Proof.
  apply ref_slice_total, Forall_map, Forall_true. intros t. destruct (ref_struct_total
    [VByteArray (be_bytes 20 (at_Address t)); VSlice (Some (map (fun k => VByteArray (be_bytes 32 k)) (at_StorageKeys t)))])
    as [pl Hpl]; [|by exists (rlp_list pl)].
  repeat constructor; [by eexists|]. apply ref_slice_total, Forall_map, Forall_true. intros. by eexists.
Qed.
Lemma bigint_total i : 0 ≤ i → ∃ e, ref_value (VBigInt (Some i)) = Ok e.
Proof. intros. cbn. rewrite (proj2 (Z.ltb_ge i 0)) by done. eauto. Qed.
Lemma addr_total t : ∃ e, ref_value (addr_ptr t) = Ok e.
Proof. destruct t; by eexists. Qed.

Lemma plain_total t : ∃ e, ref_value (plain_ptr t) = Ok e.
Proof. destruct t; by eexists. Qed.
Lemma hashes_total hs : ∃ e, ref_value (hashes_value hs) = Ok e.
Proof. apply ref_slice_total, Forall_map, Forall_true. intros. by eexists. Qed.

Lemma inner_total d : wf_tx d → ∃ pl, ref_value (inner_struct d) = Ok (rlp_list pl).
Proof.
  intros [? ? ? ? ? ? ? (? & ? & ?) Hc _]. destruct d as [| | |]; cbn -[ref_value] in *;
    apply ref_struct_total; try specialize (Hc ltac:(done));
    repeat (constructor; [first [by apply bigint_total|apply addr_total|apply plain_total|apply accessList_total|apply hashes_total|by eexists]|]); constructor.
Qed.

Lemma wf_slice {A} (to : A → value) l : (∀ a, wf_value (to a)) → wf_value (VSlice (Some (map to l))).
Proof. intros Hto. cbn. induction l; cbn; auto. Qed.

Lemma accessList_wf al : wf_value (accessList_value al).
Proof. apply wf_slice. intros t. cbn -[be_bytes]. split_and!; try done. by apply (wf_slice (fun k => VByteArray (be_bytes 32 k))). Qed.

Lemma hashes_wf hs : wf_value (hashes_value hs).
Proof. by apply (wf_slice (fun h => VByteArray (be_bytes 32 h))). Qed.

Lemma inner_wf d : wf_tx d → wf_value (inner_struct d).
Proof.
  intros [? ? ? ? ? ? ? _ _ Hb]. pose proof (accessList_wf (accessList d)). pose proof (hashes_wf (blobHashes d)).
  destruct d as [? ? ? t|? ? ? ? t|? ? ? ? ? t|? ? ? ? ? t]; cbn -[accessList_value hashes_value] in *; try destruct Hb as ((? & ? & ? & ? & ?) & _ & _ & ? & ? & ?);
    destruct t; cbn -[accessList_value hashes_value]; unfold u256_ok in *; split_and!; done || lia.
Qed.

(** ** Properties *)

Section TxCodec.
Context (keccak : bytes → Z).

Lemma decode_inner_ok ty rd k b d : wf_type ty → strict ty → codec ty inner_struct rd (wf_of k) → zlen b < 2 ^ 63 →
  decode_inner ty rd b = Ok d ↔ wf_of k d ∧ ref_value (inner_struct d) = Ok b.
Proof.
  intros Hwf Hst C Hl. pose proof (fun v => DecodeBytes_ok ty b v Hwf Hl) as Hok.
  pose proof (encodes_exact ty Hst) as Hex. unfold decode_inner. split.
  - destruct (DecodeBytes b ty) as [v| |]; [|done|done]. destruct (proj1 (Hex _ _) (proj1 (Hok v) eq_refl)) as [Ht Hr].
    destruct (co_typed _ _ _ _ C v Ht) as (a & -> & Ha). rewrite (co_of _ _ _ _ C a Ha). cbn. intros [= <-]. done.
  - intros [Ha Hr]. rewrite (proj2 (Hok (inner_struct d))); [by rewrite (co_of _ _ _ _ C d Ha)|].
    apply Hex. split; [by apply (co_has _ _ _ _ C)|done].
Qed.

Lemma decode_inner_no_panic ty rd k b : wf_type ty → strict ty → codec ty inner_struct rd (wf_of k) → zlen b < 2 ^ 63 →
  decode_inner ty rd b ≠ Panic.
Proof.
  intros Hwf Hst C Hl. unfold decode_inner. destruct (DecodeBytes b ty) as [v| |] eqn:E; [|done|].
  - apply (DecodeBytes_ok ty b v Hwf Hl), (encodes_exact ty Hst) in E as [Ht _].
    destruct (co_typed _ _ _ _ C v Ht) as (a & -> & Ha). by rewrite (co_of _ _ _ _ C a Ha).
  - by apply DecodeBytes_no_panic in E.
Qed.

Lemma legacy_type_ok : wf_type legacy_type ∧ strict legacy_type.
Proof. cbn. split_and!; auto; lia. Qed.
Lemma accessList_type_ok : wf_type accessList_type ∧ strict accessList_type.
Proof. cbn. split_and!; auto; lia. Qed.
Lemma dynamicFee_type_ok : wf_type dynamicFee_type ∧ strict dynamicFee_type.
Proof. cbn. split_and!; auto; lia. Qed.

Lemma blob_type_ok : wf_type blob_type ∧ strict blob_type.
Proof. cbn. split_and!; auto; lia. Qed.

Lemma rlp_list_head p : zlen p < 2 ^ 64 → ∃ c rest, rlp_list p = c :: rest ∧ 192 ≤ b2z c.
Proof.
  intros Hl. pose proof (zlen_nonneg p). unfold rlp_list, rlp_head.
  assert (Hm := min_len_u64 (zlen p) ltac:(unfold is_u64; lia)).
  case_if; eexists _, _; (split; [reflexivity|]); rewrite b2z_z2b, Z.mod_small by lia; lia.
Qed.

(** The bytes of a transaction: the payload, behind the type byte unless it is
    a legacy transaction. *)
Definition tx_bytes (d : TxData) (enc : bytes) : bytes :=
  if txType d =? LegacyTxType then enc else z2b (txType d) :: enc.

Lemma tx_encode d enc : wf_tx d → ref_value (inner_struct d) = Ok enc → zlen enc < 2 ^ 62 →
  tx_MarshalBinary d = Ok (tx_bytes d enc) ∧ tx_Hash keccak d = keccak (tx_bytes d enc) ∧
  tx_Size d = zlen (tx_bytes d enc) ∧ tx_EncodeIndex [d] 0 = Ok (tx_bytes d enc).
Proof.
  intros Hwf Hr Hl. pose proof (inner_wf d Hwf) as Hv. assert (Hl' : zlen enc < 2 ^ 63) by lia.
  pose proof (zlen_nonneg enc).
  assert (Hm : EncodeToBytes (inner_value d) = Ok enc) by (apply emits_makeBytes, write_faithful; done).
  assert (He : ∀ w, Encode append_writer w (inner_value d) = (w ++ enc, Ok tt))
    by (intros; by apply Encode_writes).
  unfold tx_MarshalBinary, tx_Hash, tx_Size, tx_bytes, rlpHash, prefixedRlpHash, tx_EncodeIndex.
  rewrite (Encode_count _ enc) by done. change ([d] !! Z.to_nat 0) with (Some d). cbn [deref mbind outcome_bind].
  rewrite Hm, !He. destruct (txType d =? LegacyTxType); [done|]. split_and!; try done.
  rewrite zlen_cons. rewrite u64_small by (unfold is_u64; lia). lia.
Qed.

(** What the decoder accepts, by the first byte. *)
Lemma tx_decode b d n : zlen b < 2 ^ 63 →
  tx_UnmarshalBinary b = Ok (d, n) ↔
  n = zlen b ∧ wf_tx d ∧ ∃ enc, ref_value (inner_struct d) = Ok enc ∧ b = tx_bytes d enc.
Proof.
  intros Hl.
  destruct legacy_type_ok as [W0 S0], accessList_type_ok as [W1 S1], dynamicFee_type_ok as [W2 S2], blob_type_ok as [W3 S3].
  assert (Hhead : ∀ d enc, wf_tx d → ref_value (inner_struct d) = Ok enc → zlen enc < 2 ^ 63 → ∃ c rest, enc = c :: rest ∧ 192 ≤ b2z c).
  { intros d' enc Hd He Hle. destruct (inner_total d' Hd) as [pl Hpl]. rewrite Hpl in He. simplify_eq.
    apply rlp_list_head. pose proof (zlen_rlp_list pl). lia. }
  pose proof (fun b d => decode_inner_ok _ _ _ b d W0 S0 legacy_codec) as D0.
  pose proof (fun b d => decode_inner_ok _ _ _ b d W1 S1 accessListTx_codec) as D1.
  pose proof (fun b d => decode_inner_ok _ _ _ b d W2 S2 dynamicFeeTx_codec) as D2.
  pose proof (fun b d => decode_inner_ok _ _ _ b d W3 S3 blobTx_codec) as D3.
  unfold tx_UnmarshalBinary, tx_bytes. split.
  - case_if.
    + intros (d' & [[Hd Hk] Hr]%D0 & [= <- <-])%bind_ok; [|lia]. rewrite Hk. cbn. eauto.
    + intros (d' & Hd' & [= <- <-])%bind_ok. split; [done|]. destruct b as [|ty rest]; [done|]. unfold tx_decodeTyped in Hd'.
      rewrite zlen_cons in Hl. pose proof (z2b_b2z ty) as Ety.
      case_if in Hd'; [done|]. case_if in Hd'; [|case_if in Hd'; [|case_if in Hd'; [|done]]];
        [apply D1 in Hd' as [[Hd Hk] Hr]|apply D2 in Hd' as [[Hd Hk] Hr]|apply D3 in Hd' as [[Hd Hk] Hr]]; try lia;
        (split; [done|]); exists rest; (split; [done|]); rewrite Hk; cbn; congruence.
  - intros (-> & Hwf & enc & Hr & ->). destruct (Hhead d enc Hwf Hr) as (c & rest & E & Hc).
    { revert Hl. case_if; [done|]. rewrite zlen_cons. lia. }
    destruct (txType d =? LegacyTxType) eqn:E0; zbool.
    + rewrite E. rewrite (proj2 (Z.ltb_lt _ _)) by lia. rewrite <- E. rewrite (proj2 (D0 enc d ltac:(lia))); done.
    + rewrite zlen_cons in *. pose proof (zlen_nonneg rest) as Hrest. assert (Hlen : (zlen enc + 1 <=? 1) = false) by (apply Z.leb_gt; rewrite E, zlen_cons; lia).
      assert (Ht : txType d = 1 ∨ txType d = 2 ∨ txType d = 3) by (destruct d; auto; by destruct E0).
      assert (Hb : (127 <? b2z (z2b (txType d))) = false) by (by destruct Ht as [-> | [-> | ->]]). rewrite Hb. cbn [tx_decodeTyped]. rewrite zlen_cons, Hlen.
      destruct Ht as [Ek|[Ek|Ek]]; rewrite Ek; [change (b2z (z2b 1)) with 1|change (b2z (z2b 2)) with 2|change (b2z (z2b 3)) with 3];
        cbn [Z.eqb AccessListTxType DynamicFeeTxType BlobTxType Pos.eqb];
        [rewrite (proj2 (D1 enc d ltac:(lia)))|rewrite (proj2 (D2 enc d ltac:(lia)))|rewrite (proj2 (D3 enc d ltac:(lia)))]; done.
Qed.

Lemma tx_no_panic b : zlen b < 2 ^ 63 → tx_UnmarshalBinary b ≠ Panic.
Proof.
  intros Hl.
  destruct legacy_type_ok as [W0 S0], accessList_type_ok as [W1 S1], dynamicFee_type_ok as [W2 S2], blob_type_ok as [W3 S3].
  unfold tx_UnmarshalBinary. case_if.
  - pose proof (decode_inner_no_panic _ _ _ b W0 S0 legacy_codec ltac:(lia)). by destruct (decode_inner _ _ _).
  - assert (H : tx_decodeTyped b ≠ Panic); [|by destruct (tx_decodeTyped _)].
    destruct b as [|ty rest]; [done|]. rewrite zlen_cons in *. cbn -[blob_type blobTx_of accessListTx_of dynamicFeeTx_of]. repeat case_if; try done.
    + apply (decode_inner_no_panic _ _ _ rest W1 S1 accessListTx_codec). lia.
    + apply (decode_inner_no_panic _ _ _ rest W2 S2 dynamicFeeTx_codec). lia.
    + apply (decode_inner_no_panic _ _ _ rest W3 S3 blobTx_codec). lia.
Qed.

(** Transactions survive their canonical encoding: a transaction of any of the
    four types with fields in the range of their types (and a recipient, if it
    is a blob transaction) is marshalled to bytes that [UnmarshalBinary] reads
    back as the same transaction; the size it caches is the one [Size]
    computes, the hash is the hash of these bytes, and they are the bytes put
    in the transaction trie. *)
Theorem Transaction_roundtrip (d : TxData) :
  wf_tx d → (∀ enc, ref_value (inner_struct d) = Ok enc → zlen enc < 2 ^ 62) →
  ∃ b, tx_MarshalBinary d = Ok b ∧ tx_UnmarshalBinary b = Ok (d, tx_Size d) ∧
       tx_Hash keccak d = keccak b ∧ tx_EncodeIndex [d] 0 = Ok b.
Proof.
  intros Hwf Hs. destruct (inner_total d Hwf) as [pl Hr]. specialize (Hs _ Hr).
  destruct (tx_encode d _ Hwf Hr Hs) as (Hm & Hh & Hz & Hi). exists (tx_bytes d (rlp_list pl)).
  split; [done|]. split; [|done]. apply tx_decode; [|eauto].
  unfold tx_bytes. case_if; rewrite ?zlen_cons; lia.
Qed.

(** C25. The encoding is canonical: when [UnmarshalBinary] accepts a byte string
    (of less than 2^62 bytes) as a transaction of any of the four types, blob
    transactions with their 256-bit words included, marshalling the transaction gives
    that very string, its hash is the hash of the received bytes, the size that
    is cached is the one [Size] computes, and no other byte string decodes to
    it; a malformed string is an error, never a panic. *)
Theorem Transaction_canonical (b : bytes) (d : TxData) (n : Z) :
  zlen b < 2 ^ 62 →
  (tx_UnmarshalBinary b = Ok (d, n) →
     tx_MarshalBinary d = Ok b ∧ tx_Hash keccak d = keccak b ∧ n = tx_Size d ∧
     ∀ b' n', zlen b' < 2 ^ 62 → tx_UnmarshalBinary b' = Ok (d, n') → b' = b) ∧
  tx_UnmarshalBinary b ≠ Panic.
Proof.
  intros Hl. split.
  - intros H. apply tx_decode in H as (-> & Hwf & enc & Hr & ->); [|lia].
    assert (Hle : zlen enc < 2 ^ 62) by (revert Hl; unfold tx_bytes; case_if; rewrite ?zlen_cons; lia).
    destruct (tx_encode d enc Hwf Hr Hle) as (Hm & Hh & Hz & _). split_and!; try done.
    intros b' n' Hb' H. apply tx_decode in H as (_ & _ & enc' & Hr' & ->); [|lia]. congruence.
  - apply tx_no_panic. lia.
Qed.

(** The field [To] of a blob transaction has its nil tag in a comment only: a
    blob transaction without a recipient is marshalled, but what it is
    marshalled to is never decoded. *)
Theorem BlobTx_nil_To (d : TxData) (b : bytes) :
  zlen b < 2 ^ 62 → txType d = BlobTxType → tx_to d = None → tx_MarshalBinary d = Ok b →
  ∀ n, tx_UnmarshalBinary b ≠ Ok (d, n).
Proof.
  intros Hl Ht Hto _ n H. apply tx_decode in H as (_ & Hwf & _); [|lia]. destruct d; try done. destruct (wt_blob _ Hwf) as (_ & [? Hs] & _). cbn in Hto. congruence.
Qed.
End TxCodec.

Definition example_legacy : TxData :=
  LegacyTx 9 (20 * 10 ^ 9) 21000 (Some 0x3535353535353535353535353535353535353535) (10 ^ 18) []
    (mkSig 37 0x28ef61340bd939bc2195fe537567866003e1a15d3c71ff63e1590620aa636276 0x67cbe9d8997f761aecb703304b3800ccf555c9f3dc64214b297fb1966a3b6d83).
Definition example_dynamic : TxData :=
  DynamicFeeTx 1 3 (2 * 10 ^ 9) (30 * 10 ^ 9) 50000 None 0 [z2b 1; z2b 2] [mkTuple 7 [1; 2]; mkTuple 8 []] (mkSig 1 5 6).

Lemma example_dynamic_wf : wf_tx example_dynamic.
Proof.
  split; unfold is_u64, sig_ok; cbn -[Z.pow Z.mul]; try lia; try exact I.
  repeat constructor; cbn; lia.
Qed.

Definition example_blob : TxData :=
  BlobTx 1 3 (2 * 10 ^ 9) (30 * 10 ^ 9) 50000 (Some 77) (2 ^ 255) [z2b 1; z2b 2] [mkTuple 7 [1; 2]] (10 ^ 9) [2 ^ 248 + 5] (mkSig 1 (2 ^ 250) 6).

Lemma Transaction_roundtrip_witness :
  ∃ b, tx_MarshalBinary example_dynamic = Ok b ∧
       tx_UnmarshalBinary b = Ok (example_dynamic, tx_Size example_dynamic).
Proof.
  destruct (Transaction_roundtrip be_value example_dynamic example_dynamic_wf)
    as (b & H1 & H2 & _); [|exists b; split; [exact H1|exact H2]].
  intros enc H.
  assert (E : match ref_value (inner_struct example_dynamic) with Ok e => zlen e <? 2 ^ 62 | _ => false end = true)
    by (vm_compute; reflexivity).
  rewrite H in E. apply Z.ltb_lt. exact E.
Defined.

Definition example_bytes : bytes := from_ok [] (tx_MarshalBinary example_blob).

Lemma Transaction_canonical_witness :
  tx_UnmarshalBinary example_bytes = Ok (example_blob, 243) ∧ tx_MarshalBinary example_blob = Ok example_bytes.
Proof.
  assert (H : tx_UnmarshalBinary example_bytes = Ok (example_blob, 243)) by (vm_compute; reflexivity).
  split; [exact H|].
  refine (proj1 (proj1 (Transaction_canonical be_value example_bytes example_blob 243 _) H)).
  vm_compute. reflexivity.
Defined.
