(* ===== verification/Signing.v ===== *)
(** Transaction signatures: [src/go-ethereum/core/types/transaction_signing.go],
    [Transaction.WithSignature] and [sanityCheckSignature] of transaction.go,
    and [ValidateSignatureValues] of [src/go-ethereum/crypto/crypto.go].

    The secp256k1 package is a parameter: [Ecrecover] recovers the public key,
    [Sign] signs a digest.  A signer is one of the six implementations of the
    [Signer] interface; the nesting of the Go structs is the chain of calls
    [cancun -> london -> eip2930 -> EIP155 -> Homestead -> Frontier]. *)

From S2P Require Import Prelude RLP RLPDecode Types HeaderRLP Receipts Config Fees Transactions.

(** ** Signature values *)

Definition secp256k1N : Z := 0xfffffffffffffffffffffffffffffffebaaedce6af48a03bbfd25e8cd0364141.
Definition secp256k1halfN : Z := secp256k1N / 2.
Definition SignatureLength : Z := 65.

Definition ValidateSignatureValues (v r s : Z) (homestead : bool) : bool :=
  if (r <? 1) || (s <? 1) then false
  else if homestead && (secp256k1halfN <? s) then false
  else (r <? secp256k1N) && (s <? secp256k1N) && ((v =? 0) || (v =? 1)).

Inductive signError :=
| ErrInvalidSig | ErrUnexpectedProtection | SignerTxTypeNotSupported | ErrInvalidChainId (have want : Z)
| InvalidPublicKey | CryptoError.

(** A conversion to [byte]. *)
Definition u8 (z : Z) : Z := z mod 2 ^ 8.

Definition sanityCheckSignature (v r s : Z) (maybeProtected : bool) : outcome signError unit :=
  if isProtectedV v && negb maybeProtected then Err ErrUnexpectedProtection
  else
    let plainV :=
      if isProtectedV v then u8 (u64 (u64 (big_Uint64 v - 35) - u64 (2 * big_Uint64 (deriveChainId v))))
      else if maybeProtected then u8 (u64 (big_Uint64 v - 27))
      else u8 (big_Uint64 v) in
    guard_err (negb (ValidateSignatureValues plainV r s false)) ErrInvalidSig.

(** [decodeSignature]: R, S and V; a signature of another length panics. *)
Definition decodeSignature (sig : bytes) : outcome signError (Z * Z * Z) :=
  if negb (zlen sig =? SignatureLength) then Panic
  else v ← deref (sig !! 64%nat);
       Ok (be_value (take 32 sig), be_value (take 32 (drop 32 sig)), u8 (b2z v + 27)).

(** ** Signers *)

Inductive Signer :=
| FrontierSigner | HomesteadSigner | EIP155Signer (chainId : Z) | eip2930Signer (chainId : Z)
| londonSigner (chainId : Z) | cancunSigner (chainId : Z).

#[global] Instance Signer_eq_dec : EqDecision Signer.
Proof. solve_decision. Defined.

(** [NewEIP155Signer] and its derivatives replace a nil chain id by zero. *)
Definition NewEIP155Signer (chainId : option Z) : Signer := EIP155Signer (default 0 chainId).
Definition NewEIP2930Signer (chainId : option Z) : Signer := eip2930Signer (default 0 chainId).
Definition NewLondonSigner (chainId : option Z) : Signer := londonSigner (default 0 chainId).
Definition NewCancunSigner (chainId : option Z) : Signer := cancunSigner (default 0 chainId).

Definition Signer_ChainID (s : Signer) : option Z :=
  match s with
  | FrontierSigner | HomesteadSigner => None
  | EIP155Signer c | eip2930Signer c | londonSigner c | cancunSigner c => Some c
  end.

Definition Signer_Equal (s s2 : Signer) : bool :=
  match s, s2 with
  | FrontierSigner, FrontierSigner | HomesteadSigner, HomesteadSigner => true
  | EIP155Signer c, EIP155Signer c2 | eip2930Signer c, eip2930Signer c2
  | londonSigner c, londonSigner c2 | cancunSigner c, cancunSigner c2 => c2 =? c
  | _, _ => false
  end.

Definition MakeSigner (config : ChainConfig) (blockNumber : option Z) (blockTime : Z) : Signer :=
  if IsCancun config blockTime then NewCancunSigner (ChainID config)
  else if IsLondon config blockNumber then NewLondonSigner (ChainID config)
  else if IsBerlin config blockNumber then NewEIP2930Signer (ChainID config)
  else if IsEIP155 config blockNumber then NewEIP155Signer (ChainID config)
  else if IsHomestead config blockNumber then HomesteadSigner
  else FrontierSigner.

Definition LatestSigner (config : ChainConfig) : Signer :=
  match ChainID config with
  | Some _ =>
      if bool_decide (is_Some (CancunTime config)) then NewCancunSigner (ChainID config)
      else if bool_decide (is_Some (LondonBlock config)) then NewLondonSigner (ChainID config)
      else if bool_decide (is_Some (BerlinBlock config)) then NewEIP2930Signer (ChainID config)
      else if bool_decide (is_Some (EIP155Block config)) then NewEIP155Signer (ChainID config)
      else HomesteadSigner
  | None => HomesteadSigner
  end.

Definition LatestSignerForChainID (chainID : option Z) : Signer :=
  match chainID with None => HomesteadSigner | Some _ => NewCancunSigner chainID end.

Section Signing.
Context (keccak : bytes → Z).
Context (Ecrecover : bytes → bytes → outcome signError bytes).

(** ** The signed digest *)

(** [\[\]interface{}{...}]; a nil [*common.Address] encodes as the empty string. *)
Definition any_list (l : list value) : value := VSlice (Some (map (fun v => VInterface (Some v)) l)).

Definition frontier_values (d : TxData) : list value :=
  [VUint (nonce d); VBigInt (Some (gasPrice d)); VUint (gas d); addr_ptr (tx_to d); VBigInt (Some (tx_value d));
   VBytes (Some (tx_data d))].

Definition Frontier_Hash (d : TxData) : Z := rlpHash keccak (any_list (frontier_values d)).
Definition EIP155_Hash (c : Z) (d : TxData) : Z :=
  rlpHash keccak (any_list (frontier_values d ++ [VBigInt (Some c); VUint 0; VUint 0])).
Definition eip2930_Hash (c : Z) (d : TxData) : Z :=
  if txType d =? LegacyTxType then
    rlpHash keccak (any_list (frontier_values d ++ [VBigInt (Some c); VUint 0; VUint 0]))
  else if txType d =? AccessListTxType then
    prefixedRlpHash keccak (txType d)
      (any_list (VBigInt (Some c) :: frontier_values d ++ [accessList_value (accessList d)]))
  else 0.
Definition fee_values (c : Z) (d : TxData) : list value :=
  [VBigInt (Some c); VUint (nonce d); VBigInt (Some (gasTipCap d)); VBigInt (Some (gasFeeCap d)); VUint (gas d);
   addr_ptr (tx_to d); VBigInt (Some (tx_value d)); VBytes (Some (tx_data d)); accessList_value (accessList d)].
Definition london_Hash (c : Z) (d : TxData) : Z :=
  if negb (txType d =? DynamicFeeTxType) then eip2930_Hash c d
  else prefixedRlpHash keccak (txType d) (any_list (fee_values c d)).
Definition cancun_Hash (c : Z) (d : TxData) : Z :=
  if negb (txType d =? BlobTxType) then london_Hash c d
  else prefixedRlpHash keccak (txType d)
         (any_list (fee_values c d ++ [VBigInt (blobGasFeeCap d);
            VSlice (Some (map (fun h => VByteArray (be_bytes 32 h)) (blobHashes d)))])).

Definition Signer_Hash (s : Signer) (d : TxData) : Z :=
  match s with
  | FrontierSigner | HomesteadSigner => Frontier_Hash d
  | EIP155Signer c => EIP155_Hash c d
  | eip2930Signer c => eip2930_Hash c d
  | londonSigner c => london_Hash c d
  | cancunSigner c => cancun_Hash c d
  end.

(** ** Recovery *)

Definition recoverPlain (sighash R S Vb : Z) (homestead : bool) : outcome signError Z :=
  if 8 <? big_BitLen Vb then Err ErrInvalidSig
  else
    let V := u8 (u64 (big_Uint64 Vb - 27)) in
    if negb (ValidateSignatureValues V R S homestead) then Err ErrInvalidSig
    else
      let sig := be_bytes 32 R ++ be_bytes 32 S ++ [z2b V] in
      pub ← Ecrecover (be_bytes 32 sighash) sig;
      match pub with
      | p :: rest => if b2z p =? 4 then Ok (be_value (drop 12 (be_bytes 32 (keccak rest)))) else Err InvalidPublicKey
      | [] => Err InvalidPublicKey
      end.

Definition Frontier_Sender (d : TxData) : outcome signError Z :=
  if negb (txType d =? LegacyTxType) then Err SignerTxTypeNotSupported
  else let '(mkSig v r s) := rawSignatureValues d in recoverPlain (Frontier_Hash d) r s v false.
Definition Homestead_Sender (d : TxData) : outcome signError Z :=
  if negb (txType d =? LegacyTxType) then Err SignerTxTypeNotSupported
  else let '(mkSig v r s) := rawSignatureValues d in recoverPlain (Frontier_Hash d) r s v true.

Definition EIP155_Sender (c : Z) (d : TxData) : outcome signError Z :=
  if negb (txType d =? LegacyTxType) then Err SignerTxTypeNotSupported
  else if negb (Protected (mkTransaction d 0)) then Homestead_Sender d
  else if negb (chainID d =? c) then Err (ErrInvalidChainId (chainID d) c)
  else let '(mkSig v r s) := rawSignatureValues d in
       recoverPlain (EIP155_Hash c d) r s (v - c * 2 - 8) true.

Definition eip2930_Sender (c : Z) (d : TxData) : outcome signError Z :=
  let '(mkSig v r s) := rawSignatureValues d in
  let recover v :=
    if negb (chainID d =? c) then Err (ErrInvalidChainId (chainID d) c)
    else recoverPlain (eip2930_Hash c d) r s v true in
  if txType d =? LegacyTxType then
    if negb (Protected (mkTransaction d 0)) then Homestead_Sender d else recover (v - c * 2 - 8)
  else if txType d =? AccessListTxType then recover (v + 27)
  else Err SignerTxTypeNotSupported.

Definition london_Sender (c : Z) (d : TxData) : outcome signError Z :=
  if negb (txType d =? DynamicFeeTxType) then eip2930_Sender c d
  else let '(mkSig v r s) := rawSignatureValues d in
       if negb (chainID d =? c) then Err (ErrInvalidChainId (chainID d) c)
       else recoverPlain (london_Hash c d) r s (v + 27) true.

Definition cancun_Sender (c : Z) (d : TxData) : outcome signError Z :=
  if negb (txType d =? BlobTxType) then london_Sender c d
  else let '(mkSig v r s) := rawSignatureValues d in
       if negb (chainID d =? c) then Err (ErrInvalidChainId (chainID d) c)
       else recoverPlain (cancun_Hash c d) r s (v + 27) true.

Definition Signer_Sender (s : Signer) (d : TxData) : outcome signError Z :=
  match s with
  | FrontierSigner => Frontier_Sender d
  | HomesteadSigner => Homestead_Sender d
  | EIP155Signer c => EIP155_Sender c d
  | eip2930Signer c => eip2930_Sender c d
  | londonSigner c => london_Sender c d
  | cancunSigner c => cancun_Sender c d
  end.

(** [Sender] with the sender cache of the transaction. *)
Definition sigCache : Type := option (Signer * Z).
Definition Sender (signer : Signer) (d : TxData) (from : sigCache) : outcome signError Z * sigCache :=
  let derive :=
    match Signer_Sender signer d with
    | Ok addr => (Ok addr, Some (signer, addr))
    | Err e => (Err e, from)
    | Panic => (Panic, from)
    end in
  match from with
  | Some (s, addr) => if Signer_Equal s signer then (Ok addr, from) else derive
  | None => derive
  end.

(** ** Signing *)

Definition Frontier_SignatureValues (d : TxData) (sig : bytes) : outcome signError Signature :=
  if negb (txType d =? LegacyTxType) then Err SignerTxTypeNotSupported
  else x ← decodeSignature sig; Ok (mkSig x.2 x.1.1 x.1.2).
Definition EIP155_SignatureValues (c : Z) (d : TxData) (sig : bytes) : outcome signError Signature :=
  if negb (txType d =? LegacyTxType) then Err SignerTxTypeNotSupported
  else x ← decodeSignature sig;
       v ← deref (sig !! 64%nat);
       Ok (mkSig (if negb (c =? 0) then u8 (b2z v + 35) + c * 2 else x.2) x.1.1 x.1.2).
(** The typed transactions: chain id zero stands for an unspecified one. *)
Definition typed_SignatureValues (c : Z) (d : TxData) (sig : bytes) : outcome signError Signature :=
  if negb (chainID d =? 0) && negb (chainID d =? c) then Err (ErrInvalidChainId (chainID d) c)
  else x ← decodeSignature sig;
       v ← deref (sig !! 64%nat);
       Ok (mkSig (b2z v) x.1.1 x.1.2).
Definition eip2930_SignatureValues (c : Z) (d : TxData) (sig : bytes) : outcome signError Signature :=
  match d with
  | LegacyTx _ _ _ _ _ _ _ => EIP155_SignatureValues c d sig
  | AccessListTx _ _ _ _ _ _ _ _ _ => typed_SignatureValues c d sig
  | _ => Err SignerTxTypeNotSupported
  end.
Definition london_SignatureValues (c : Z) (d : TxData) (sig : bytes) : outcome signError Signature :=
  match d with
  | DynamicFeeTx _ _ _ _ _ _ _ _ _ _ => typed_SignatureValues c d sig
  | _ => eip2930_SignatureValues c d sig
  end.
Definition cancun_SignatureValues (c : Z) (d : TxData) (sig : bytes) : outcome signError Signature :=
  match d with
  | BlobTx _ _ _ _ _ _ _ _ _ _ _ _ => typed_SignatureValues c d sig
  | _ => london_SignatureValues c d sig
  end.
Definition SignatureValues (s : Signer) (d : TxData) (sig : bytes) : outcome signError Signature :=
  match s with
  | FrontierSigner | HomesteadSigner => Frontier_SignatureValues d sig
  | EIP155Signer c => EIP155_SignatureValues c d sig
  | eip2930Signer c => eip2930_SignatureValues c d sig
  | londonSigner c => london_SignatureValues c d sig
  | cancunSigner c => cancun_SignatureValues c d sig
  end.

Definition WithSignature (s : Signer) (d : TxData) (sig : bytes) : outcome signError TxData :=
  vrs ← SignatureValues s d sig;
  Ok (setSignatureValues (default 0 (Signer_ChainID s)) vrs d).

Context {Key : Type} (Sign : bytes → Key → outcome signError bytes).

Definition SignTx (d : TxData) (s : Signer) (prv : Key) : outcome signError TxData :=
  sig ← Sign (be_bytes 32 (Signer_Hash s d)) prv;
  WithSignature s d sig.
Definition MustSignNewTx (prv : Key) (s : Signer) (d : TxData) : outcome signError TxData :=
  match SignTx d s prv with Ok tx => Ok tx | _ => Panic end.
End Signing.

(** ** Lemmas *)

Lemma u8_small z : 0 ≤ z < 256 → u8 z = z.
Proof. apply Z.mod_small. Qed.

Lemma Validate_spec v r s homestead : ValidateSignatureValues v r s homestead = true ↔
  1 ≤ r < secp256k1N ∧ 1 ≤ s < secp256k1N ∧ (v = 0 ∨ v = 1) ∧ (homestead = true → s ≤ secp256k1halfN).
Proof.
  unfold ValidateSignatureValues. generalize secp256k1N secp256k1halfN. intros N hN.
  destruct (Z.ltb_spec r 1), (Z.ltb_spec s 1), (Z.ltb_spec hN s), (Z.ltb_spec r N),
    (Z.ltb_spec s N), (Z.eqb_spec v 0), (Z.eqb_spec v 1), homestead; cbn [andb orb];
    (split; [intros [=]|intros (? & ? & ? & Hh); try specialize (Hh eq_refl); try done; exfalso; lia]);
    split_and!; auto; lia.
Qed.

Lemma length_zlen (l : bytes) n : zlen l = n → length l = Z.to_nat n.
Proof. unfold zlen. lia. Qed.

(** A signature of 65 bytes is R, S and the recovery id. *)
Lemma decodeSignature_ok sig : zlen sig = SignatureLength →
  ∃ r s v, r = be_value (take 32 sig) ∧ s = be_value (take 32 (drop 32 sig)) ∧
    sig = be_bytes 32 r ++ be_bytes 32 s ++ [v] ∧ sig !! 64%nat = Some v ∧
    decodeSignature sig = Ok (r, s, u8 (b2z v + 27)).
Proof.
  intros Hl. pose proof (length_zlen _ _ Hl) as Hn. unfold SignatureLength in *. cbn in Hn.
  exists (be_value (take 32 sig)), (be_value (take 32 (drop 32 sig))).
  destruct (lookup_lt_is_Some_2 sig 64%nat) as [v Hv]; [lia|]. exists v.
  assert (H1 : be_bytes 32 (be_value (take 32 sig)) = take 32 sig)
    by (apply (array_value 32); unfold zlen; rewrite length_take; lia).
  assert (H2 : be_bytes 32 (be_value (take 32 (drop 32 sig))) = take 32 (drop 32 sig))
    by (apply (array_value 32); unfold zlen; rewrite length_take, length_drop; lia).
  split; [done|]. split; [done|]. split; [|split; [done|]].
  - rewrite H1, H2. assert (E : [v] = drop 64 sig).
    { rewrite (drop_S _ _ _ Hv). rewrite drop_ge by lia. done. }
    rewrite E. rewrite <- (take_drop 32 sig) at 1. f_equal. rewrite <- (take_drop 32 (drop 32 sig)) at 1.
    by rewrite drop_drop.
  - unfold decodeSignature. rewrite Hl, Hv. done.
Qed.

Lemma isProtectedV_spec v : isProtectedV v = false ↔ Z.abs v = 27 ∨ Z.abs v = 28 ∨ Z.abs v = 1 ∨ Z.abs v = 0.
Proof.
  unfold isProtectedV. split.
  - case_if; [|done]. pose proof (big_BitLen_bound (Z.abs v) 8 ltac:(lia) ltac:(lia)) as Hb.
    unfold big_BitLen in *. rewrite Z.abs_idemp in Hb. specialize (Hb ltac:(done)).
    unfold big_Uint64. rewrite Z.mod_small by lia. intros H.
    destruct (Z.eqb_spec (Z.abs v) 27), (Z.eqb_spec (Z.abs v) 28), (Z.eqb_spec (Z.abs v) 1), (Z.eqb_spec (Z.abs v) 0); done || lia.
  - intros H. unfold big_BitLen, big_Uint64. by destruct H as [-> | [-> | [-> | ->]]].
Qed.

Lemma protected_V c v : 0 < c → 0 ≤ v → isProtectedV (v + 35 + c * 2) = true.
Proof. intros. apply not_false_iff_true. rewrite isProtectedV_spec. lia. Qed.

Lemma deriveChainId_V c v : 0 ≤ c → v = 0 ∨ v = 1 → deriveChainId (v + 35 + c * 2) = c.
Proof.
  intros Hc Hv. unfold deriveChainId. set (x := v + 35 + c * 2). assert (Hx : 35 ≤ x) by (unfold x; lia).
  assert (Hd : (x - 35) / 2 = c) by (unfold x; symmetry; apply Z.div_unique with v; lia).
  case_if; [|done]. apply big_BitLen_bound in Heqb; [|lia|lia].
  rewrite big_Uint64_small by (unfold is_u64; lia). rewrite (proj2 (Z.eqb_neq x 27)), (proj2 (Z.eqb_neq x 28)) by lia.
  cbn. rewrite u64_small by (unfold is_u64; lia). done.
Qed.

(** The V the recovery accepts. *)
Lemma recover_V x : 0 ≤ x → big_BitLen x ≤ 8 → u8 (u64 (big_Uint64 x - 27)) = 0 ∨ u8 (u64 (big_Uint64 x - 27)) = 1 → x = 27 ∨ x = 28.
Proof.
  intros Hx Hb. apply big_BitLen_bound in Hb; [|lia|lia]. rewrite big_Uint64_small by (unfold is_u64; lia).
  unfold u8, u64. rewrite Z.mod_mod_divide by (by exists (2 ^ 56)).
  destruct (decide (27 ≤ x)); [rewrite Z.mod_small by lia; lia|].
  replace (x - 27) with (x - 27 + 256 + -1 * 2 ^ 8) by lia. rewrite Z.mod_add by lia. rewrite Z.mod_small by lia. lia.
Qed.

Lemma SetFromBig_small z : u256_ok z → SetFromBig z = z.
Proof. unfold u256_ok. apply Z.mod_small. Qed.

Lemma halfN_N : secp256k1N = 2 * secp256k1halfN + 1 ∧ secp256k1N < 2 ^ 256.
Proof. by split. Qed.

(** Valid signature values fit the words of a blob transaction. *)
Lemma Validate_words v r s : ValidateSignatureValues v r s true = true → u256_ok v ∧ u256_ok r ∧ u256_ok s.
Proof.
  intros (Hr & Hs & Hv & _)%Validate_spec. pose proof (proj2 halfN_N). unfold u256_ok.
  revert Hr Hs H. generalize secp256k1N. intros N Hr Hs H. split_and!; lia.
Qed.

(** The stored signature is the given one, up to the words of a blob
    transaction. *)
Lemma stored_signature c sg d :
  (txType d = BlobTxType → u256_ok (sig_V sg) ∧ u256_ok (sig_R sg) ∧ u256_ok (sig_S sg)) →
  rawSignatureValues (setSignatureValues c sg d) = sg.
Proof.
  intros H. destruct d; try done; [by destruct sg..|]. destruct (H eq_refl) as (Hv & Hr & Hs).
  cbn -[SetFromBig]. rewrite !SetFromBig_small by done. by destruct sg.
Qed.

Section SigningLemmas.
Context (keccak : bytes → Z).
Context (Ecrecover : bytes → bytes → outcome signError bytes).

(** The transactions a signer of chain [c] signs for that chain: the types it
    knows; the legacy rules with replay protection need a chain id above zero
    (with chain id zero the same signer signs without protection), the typed
    transactions carry no chain id or this one, and the chain id of a blob
    transaction is a 256-bit word. *)
Definition signs (s : Signer) (d : TxData) : Prop :=
  match s with
  | FrontierSigner | HomesteadSigner => txType d = LegacyTxType
  | EIP155Signer c => txType d = LegacyTxType ∧ 0 < c
  | eip2930Signer c =>
      txType d = LegacyTxType ∧ 0 < c ∨ txType d = AccessListTxType ∧ (chainID d = 0 ∨ chainID d = c)
  | londonSigner c =>
      txType d = LegacyTxType ∧ 0 < c ∨
      (txType d = AccessListTxType ∨ txType d = DynamicFeeTxType) ∧ (chainID d = 0 ∨ chainID d = c)
  | cancunSigner c =>
      txType d = LegacyTxType ∧ 0 < c ∨
      txType d ≠ LegacyTxType ∧ (chainID d = 0 ∨ chainID d = c) ∧ (txType d = BlobTxType → u256_ok c)
  end.

Lemma Hash_unsigned s c sg d : Signer_Hash keccak s (setSignatureValues c sg d) = Signer_Hash keccak s d.
Proof. destruct s, d; reflexivity. Qed.

(** Below the signer that knows the type, the hashes agree. *)
Lemma legacy_Hash c d : txType d = LegacyTxType →
  eip2930_Hash keccak c d = EIP155_Hash keccak c d ∧ london_Hash keccak c d = EIP155_Hash keccak c d ∧
  cancun_Hash keccak c d = EIP155_Hash keccak c d.
Proof. by destruct d. Qed.

Lemma recoverPlain_inv h r s v homestead a : recoverPlain keccak Ecrecover h r s v homestead = Ok a →
  1 ≤ r < secp256k1N ∧ 1 ≤ s < secp256k1N ∧ (0 ≤ v → v = 27 ∨ v = 28) ∧ (homestead = true → s ≤ secp256k1halfN).
Proof.
  unfold recoverPlain. case_if; [done|]. case_if; [done|]. intros _.
  apply Validate_spec in Heqb0 as (Hr & Hs & Hv & Hh). split; [exact Hr|]. split; [exact Hs|]. split; [|exact Hh]. intros. by apply recover_V.
Qed.

Lemma recoverPlain_sig h r s v homestead pub : ValidateSignatureValues (b2z v) r s true = true →
  Ecrecover (be_bytes 32 h) (be_bytes 32 r ++ be_bytes 32 s ++ [v]) = Ok (z2b 4 :: pub) →
  recoverPlain keccak Ecrecover h r s (b2z v + 27) homestead = Ok (be_value (drop 12 (be_bytes 32 (keccak pub)))).
Proof.
  intros Hval Hrec. pose proof (proj1 (Validate_spec _ _ _ _) Hval) as (Hr & Hs & Hv & Hh).
  assert (Hval' : ValidateSignatureValues (b2z v) r s homestead = true)
    by (apply Validate_spec; split; [exact Hr|]; split; [exact Hs|]; auto).
  assert (HV : u8 (u64 (big_Uint64 (b2z v + 27) - 27)) = b2z v) by (destruct Hv as [-> | ->]; reflexivity).
  assert (HB : (8 <? big_BitLen (b2z v + 27)) = false) by (destruct Hv as [-> | ->]; reflexivity).
  unfold recoverPlain. rewrite HB, HV, Hval', z2b_b2z. cbn [negb]. rewrite Hrec. cbn [mbind outcome_bind].
  change (b2z (z2b 4) =? 4) with true. done.
Qed.

(** A protected transaction: recovery goes through the chain id. *)
Lemma Sender_protected s d a : Protected (mkTransaction d 0) = true → sig_ok (rawSignatureValues d) →
  Signer_Sender keccak Ecrecover s d = Ok a → Signer_ChainID s = Some (chainID d).
Proof.
  intros Hp (Hv & _ & _).
  assert (Hf : ∀ b, txType d = LegacyTxType → recoverPlain keccak Ecrecover (Frontier_Hash keccak d) (sig_R (rawSignatureValues d))
      (sig_S (rawSignatureValues d)) (sig_V (rawSignatureValues d)) b ≠ Ok a).
  { intros b Ht H. destruct d; try done. cbn in Hp, Hv, H. apply recoverPlain_inv in H as (_ & _ & H & _).
    specialize (H Hv). assert (Hp' : isProtectedV (sig_V sig) = false); [|congruence]. apply isProtectedV_spec. lia. }
  destruct s as [| |c|c|c|c], d as [? ? ? ? ? ? []|? ? ? ? ? ? ? ? []|? ? ? ? ? ? ? ? ? []|? ? ? ? ? ? ? ? ? ? ? []];
    cbn -[recoverPlain] in *; rewrite ?Hp; cbn -[recoverPlain]; try done; try (intros H; by apply Hf in H);
    case_if; try done; intros _; congruence.
Qed.

End SigningLemmas.

(** ** Properties *)

Section SignedTransactions.
Context (keccak : bytes → Z) (Ecrecover : bytes → bytes → outcome signError bytes).
Context {Key : Type} (Sign : bytes → Key → outcome signError bytes) (pubkey : Key → bytes).

(** What the secp256k1 package documents: a signature is 65 bytes, R, S and a
    recovery id of 0 or 1, with S in the lower half of the group order, and
    the public key recovered from it is the signer's, uncompressed. *)
Class SecpLaws : Prop := {
  Sign_ok h prv : zlen h = 32 → ∃ sig v, Sign h prv = Ok sig ∧ zlen sig = SignatureLength ∧ sig !! 64%nat = Some v ∧
    ValidateSignatureValues (b2z v) (be_value (take 32 sig)) (be_value (take 32 (drop 32 sig))) true = true ∧
    Ecrecover h sig = Ok (z2b 4 :: pubkey prv)
}.
Context `{!SecpLaws}.

(** [crypto.PubkeyToAddress]. *)
Definition key_address (prv : Key) : Z := be_value (drop 12 (be_bytes 32 (keccak (pubkey prv)))).

(** The V of a signature with recovery id [v]. *)
Definition signed_V (s : Signer) (d : TxData) (v : Z) : Z :=
  if txType d =? LegacyTxType
  then match Signer_ChainID s with None => v + 27 | Some c => v + 35 + c * 2 end
  else v.

Lemma SignatureValues_ok s d sig r s0 v : signs s d → sig !! 64%nat = Some v → b2z v = 0 ∨ b2z v = 1 →
  decodeSignature sig = Ok (r, s0, u8 (b2z v + 27)) →
  SignatureValues s d sig = Ok (mkSig (signed_V s d (b2z v)) r s0).
Proof.
  intros Hs Hv Hv01 Hdec.
  assert (Hc : ∀ c, 0 < c → (c =? 0) = false) by (intros; apply Z.eqb_neq; lia).
  assert (H35 : u8 (b2z v + 35) = b2z v + 35) by (apply u8_small; lia).
  assert (H27 : u8 (b2z v + 27) = b2z v + 27) by (apply u8_small; lia).
  destruct s as [| |c|c|c|c], d; cbn in Hs |- *;
    unfold Frontier_SignatureValues, EIP155_SignatureValues, typed_SignatureValues; cbn;
    try (exfalso; naive_solver); rewrite ?Hdec, ?Hv, ?H27, ?H35; cbn; try done.
  all: lazymatch goal with
    | |- (if negb (?x =? 0) && negb (?x =? ?c) then _ else _) = _ =>
        destruct (Z.eqb_spec x 0), (Z.eqb_spec x c); cbn; try done; exfalso; naive_solver
    | |- _ => rewrite Hc by (naive_solver lia); cbn; by rewrite H35
    end.
Qed.

Lemma signs_blob s d : signs s d → txType d = BlobTxType → u256_ok (default 0 (Signer_ChainID s)).
Proof.
  intros Hs Ht. destruct s; cbn [signs Signer_ChainID default from_option id] in *; rewrite Ht in Hs; naive_solver.
Qed.

Lemma signed_V_typed s d v : txType d = BlobTxType → signed_V s d v = v.
Proof. intros Ht. unfold signed_V. by rewrite Ht. Qed.

Lemma Sender_signed s d r s0 v a : signs s d → ValidateSignatureValues v r s0 true = true →
  (∀ b, recoverPlain keccak Ecrecover (Signer_Hash keccak s d) r s0 (v + 27) b = Ok a) →
  Signer_Sender keccak Ecrecover s
    (setSignatureValues (default 0 (Signer_ChainID s)) (mkSig (signed_V s d v) r s0) d) = Ok a.
Proof.
  intros Hs Hval Hr. pose proof (Validate_words _ _ _ Hval) as (Hv256 & Hr256 & Hs256).
  pose proof (signs_blob s d Hs) as Hblob. pose proof (proj1 (Validate_spec _ _ _ _) Hval) as (_ & _ & Hv01 & _).
  rewrite <- (Hash_unsigned keccak s (default 0 (Signer_ChainID s)) (mkSig (signed_V s d v) r s0)) in Hr.
  destruct s as [| |c|c|c|c], d; cbn -[recoverPlain SetFromBig] in Hs, Hr, Hblob |- *; try (exfalso; naive_solver); try done;
    try (rewrite (SetFromBig_small c) by auto); try (rewrite Z.eqb_refl; cbn -[recoverPlain SetFromBig];
      rewrite ?SetFromBig_small by done; done).
  all: unfold EIP155_Sender, london_Sender, eip2930_Sender; cbn -[recoverPlain]; unfold Protected; cbn -[recoverPlain].
  all: change (signed_V _ _ v) with (v + 35 + c * 2).
  all: rewrite protected_V, deriveChainId_V by (naive_solver lia); rewrite Z.eqb_refl; cbn -[recoverPlain].
  all: replace (v + 35 + c * 2 - c * 2 - 8) with (v + 27) by lia; apply Hr.
Qed.

Lemma signs_legacy s d c : signs s d → txType d = LegacyTxType → Signer_ChainID s = Some c → 0 < c.
Proof.
  intros Hs Ht Hc. destruct s; cbn in *; simplify_eq; try tauto; destruct Hs as [[_ ?]|[Ht' _]]; try done;
    unfold LegacyTxType, AccessListTxType, DynamicFeeTxType in *; lia.
Qed.

Lemma signed_protected s d v c : signs s d → v = 0 ∨ v = 1 → Signer_ChainID s = Some c →
  ∀ sg, sig_V sg = signed_V s d v →
  Protected (mkTransaction (setSignatureValues c sg d) 0) = true ∧ chainID (setSignatureValues c sg d) = c.
Proof.
  intros Hs Hv Hc sg Esg. pose proof (signs_blob s d Hs) as Hblob. rewrite Hc in Hblob.
  destruct d as [| | |]; try done; [|split; [done|]; apply SetFromBig_small, Hblob; done].
  unfold Protected. cbn. rewrite Esg. unfold signed_V. rewrite Hc. cbn.
  pose proof (signs_legacy _ _ _ Hs eq_refl Hc).
  rewrite protected_V, deriveChainId_V by lia. done.
Qed.

Lemma signed_sane s d v r s0 : signs s d → ValidateSignatureValues v r s0 true = true →
  sanityCheckSignature (signed_V s d v) r s0 (txType d =? LegacyTxType) = Ok tt.
Proof.
  intros Hs Hval. pose proof (proj1 (Validate_spec _ _ _ _) Hval) as (Hr & Hs0 & Hv & Hh).
  assert (Hval' : ValidateSignatureValues v r s0 false = true)
    by (apply Validate_spec; split; [exact Hr|]; split; [exact Hs0|]; split; [exact Hv|done]).
  unfold sanityCheckSignature, signed_V. destruct (txType d =? LegacyTxType) eqn:Et; zbool.
  - rewrite andb_false_r. destruct (Signer_ChainID s) as [c|] eqn:Ec.
    + pose proof (signs_legacy _ _ _ Hs Et Ec).
      rewrite protected_V, deriveChainId_V by lia. cbv zeta.
      assert (E : u8 (u64 (u64 (big_Uint64 (v + 35 + c * 2) - 35) - u64 (2 * big_Uint64 c))) = v); [|by rewrite E, Hval'].
      unfold big_Uint64. rewrite !Z.abs_eq by lia. unfold u64. rewrite Zminus_mod_idemp_l, Zminus_mod_idemp_r.
      rewrite (Z.mod_eq (v + 35 + c * 2)), (Z.mod_eq c) by lia.
      set (k := (v + 35 + c * 2) / 2 ^ 64). set (j := c / 2 ^ 64).
      replace (v + 35 + c * 2 - 2 ^ 64 * k - 35 - 2 * (c - 2 ^ 64 * j)) with (v + (2 * j - k) * 2 ^ 64) by lia.
      rewrite Z.mod_add, (Z.mod_small v) by lia. apply u8_small. lia.
    + assert (E : isProtectedV (v + 27) = false ∧ u8 (u64 (big_Uint64 (v + 27) - 27)) = v)
        by (destruct Hv as [-> | ->]; split; reflexivity).
      destruct E as [-> ->]. by rewrite Hval'.
  - assert (E : isProtectedV v = false ∧ u8 (big_Uint64 v) = v) by (destruct Hv as [-> | ->]; split; reflexivity).
    destruct E as [-> ->]. cbn [andb negb]. by rewrite Hval'.
Qed.

Lemma signed_nonneg s d v : signs s d → 0 ≤ v → 0 ≤ signed_V s d v.
Proof.
  intros Hs Hv. unfold signed_V. case_if; [|done]. destruct (Signer_ChainID s) as [c|] eqn:Ec; [|lia].
  pose proof (signs_legacy _ _ _ Hs Heqb Ec). lia.
Qed.

Lemma SignTx_ok s d prv : signs s d →
  ∃ v r s0, let d' := setSignatureValues (default 0 (Signer_ChainID s)) (mkSig (signed_V s d v) r s0) d in
    SignTx keccak Sign d s prv = Ok d' ∧ (v = 0 ∨ v = 1) ∧ ValidateSignatureValues v r s0 true = true ∧
    Signer_Sender keccak Ecrecover s d' = Ok (key_address prv).
Proof.
  intros Hs. destruct (Sign_ok (be_bytes 32 (Signer_Hash keccak s d)) prv) as (sig & v & Esig & Hl & Hv & Hval & Hrec);
    [apply zlen_be_bytes|].
  destruct (decodeSignature_ok sig Hl) as (r & s0 & v' & Er & Es & Esplit & Hv' & Hdec).
  rewrite <- Er, <- Es in Hval. rewrite Hv in Hv'. injection Hv' as <-. clear Er Es.
  pose proof (proj1 (Validate_spec _ _ _ _) Hval) as (_ & _ & Hv01 & _).
  exists (b2z v), r, s0. cbv zeta. unfold SignTx, WithSignature. rewrite Esig. cbn [mbind outcome_bind].
  rewrite (SignatureValues_ok s d sig r s0 v) by done. cbn [mbind outcome_bind].
  split; [done|]. split; [done|]. split; [done|]. apply Sender_signed; [done|done|]. intros b.
  apply recoverPlain_sig; [done|]. by rewrite <- Esplit.
Qed.

(** C20. What is signed is recovered: for every transaction a signer knows
    ([signs]: a legacy transaction under a chain-id signer with a chain id above
    zero, a typed one that carries no chain id or the signer's, a blob
    transaction under a chain id below 2^256), [SignTx] succeeds, changes
    nothing but the signature (and sets the chain id of a typed transaction),
    the signature passes [sanityCheckSignature], and the signer's [Sender]
    returns the address of the key. *)
Theorem SignTx_Sender (s : Signer) (d : TxData) (prv : Key) : signs s d →
  ∃ d', SignTx keccak Sign d s prv = Ok d' ∧ Signer_Sender keccak Ecrecover s d' = Ok (key_address prv) ∧
    (∃ sg, d' = setSignatureValues (default 0 (Signer_ChainID s)) sg d ∧
       sanityCheckSignature (sig_V sg) (sig_R sg) (sig_S sg) (txType d =? LegacyTxType) = Ok tt).
Proof.
  intros Hs. destruct (SignTx_ok s d prv Hs) as (v & r & s0 & H1 & Hv & Hval & H2).
  eexists. split; [exact H1|]. split; [exact H2|]. eexists. split; [reflexivity|]. cbn [sig_V sig_R sig_S].
  by apply signed_sane.
Qed.

(** C26. Replay protection: a transaction signed for one chain by a signer that
    knows chain ids is refused by every signer of another chain and by the
    signers without chain ids.  [signs] excludes the cases where the code gives
    no protection: a legacy transaction signed with chain id zero (its V is
    27 or 28) and a blob transaction signed for a chain id that does not fit
    256 bits (the low bits are stored). *)
Theorem SignTx_no_replay (s s' : Signer) (d d' : TxData) (prv : Key) (c : Z) : signs s d →
  Signer_ChainID s = Some c → SignTx keccak Sign d s prv = Ok d' → Signer_ChainID s' ≠ Some c →
  ∀ a, Signer_Sender keccak Ecrecover s' d' ≠ Ok a.
Proof.
  intros Hs Hc Hd Hc' a Ha. destruct (SignTx_ok s d prv Hs) as (v & r & s0 & H1 & Hv & Hval & _).
  rewrite Hd in H1. simplify_eq. rewrite Hc in Ha. cbn [default] in Ha.
  destruct (signed_protected s d v c Hs Hv Hc (mkSig (signed_V s d v) r s0) eq_refl) as [Hp Hid].
  apply (Sender_protected keccak Ecrecover) in Ha; [|done|].
  - apply Hc'. rewrite Ha. f_equal. exact Hid.
  - pose proof (signed_nonneg s d v Hs ltac:(lia)). pose proof (proj1 (Validate_spec _ _ _ _) Hval) as (Hr & Hs0 & _).
    pose proof (Validate_words _ _ _ Hval) as (Hv256 & Hr256 & Hs256).
    cbn [from_option id] in *. rewrite stored_signature by (intros Hb; cbn [sig_V sig_R sig_S]; by rewrite signed_V_typed). unfold sig_ok. cbn [sig_V sig_R sig_S].
    split; [done|]. split; lia.
Qed.
End SignedTransactions.

Section SenderProperties.
Context (keccak : bytes → Z) (Ecrecover : bytes → bytes → outcome signError bytes).

Lemma Sender_inv s d a : s ≠ FrontierSigner → Signer_Sender keccak Ecrecover s d = Ok a →
  1 ≤ sig_R (rawSignatureValues d) < secp256k1N ∧ 1 ≤ sig_S (rawSignatureValues d) ≤ secp256k1halfN.
Proof.
  intros Hs H.
  assert (Hr : ∃ h v, recoverPlain keccak Ecrecover h (sig_R (rawSignatureValues d)) (sig_S (rawSignatureValues d)) v true = Ok a).
  { revert H. unfold Signer_Sender, cancun_Sender, london_Sender, eip2930_Sender, EIP155_Sender, Homestead_Sender.
    destruct (rawSignatureValues d) as [v r s0] eqn:E. cbn [sig_R sig_S]. destruct s; [done|..]; repeat case_if; try done; eauto. }
  destruct Hr as (h & v & (? & ? & _ & Hh)%recoverPlain_inv). specialize (Hh eq_refl). lia.
Qed.

(** Signatures are not malleable: a signature that [Sender] accepts has R
    and S in range with S in the lower half of the group order (all signers
    but Frontier's), and the mirrored signature with N - S in place of S is
    refused, whatever its V. *)
Theorem Sender_not_malleable (s : Signer) (d : TxData) (a : Z) :
  s ≠ FrontierSigner → Signer_Sender keccak Ecrecover s d = Ok a →
  1 ≤ sig_R (rawSignatureValues d) < secp256k1N ∧ 1 ≤ sig_S (rawSignatureValues d) ≤ secp256k1halfN ∧
  ∀ c sg a', sig_S sg = secp256k1N - sig_S (rawSignatureValues d) →
    Signer_Sender keccak Ecrecover s (setSignatureValues c sg d) ≠ Ok a'.
Proof.
  intros Hs H. destruct (Sender_inv s d a Hs H) as [Hr Hs0]. split; [exact Hr|]. split; [exact Hs0|].
  intros c sg a' Esg H'. apply Sender_inv in H' as [_ Hs']; [|done].
  assert (E : sig_S (rawSignatureValues (setSignatureValues c sg d)) = sig_S sg).
  { destruct d; try done. cbn -[SetFromBig]. apply SetFromBig_small. rewrite Esg. cbn in Hs0 |- *. pose proof halfN_N as HN.
    unfold u256_ok. revert HN Hs0. generalize secp256k1N secp256k1halfN. intros; lia. }
  rewrite E, Esg in Hs'. revert Hs' Hs0. rewrite (proj1 halfN_N). generalize secp256k1halfN. intros h ? ?. lia.
Qed.

(** What the sender cache of a transaction may hold. *)
Definition cache_ok (d : TxData) (from : sigCache) : Prop :=
  match from with Some (s, a) => Signer_Sender keccak Ecrecover s d = Ok a | None => True end.

Lemma Signer_Equal_eq s s2 : Signer_Equal s s2 = true ↔ s = s2.
Proof. destruct s, s2; cbn; rewrite ?Z.eqb_eq; split; intros H; try done; congruence. Qed.

(** The sender cache is transparent: starting from an empty cache, whatever
    sequence of signers asks for the sender, each gets exactly what recovery
    from the signature would give it. *)
Theorem Sender_cache_transparent (d : TxData) (signers : list Signer) :
  let step := fun '(out, from) s => let '(r, from) := Sender keccak Ecrecover s d from in (out ++ [r], from) in
  (foldl step ([], None) signers).1 = map (fun s => Signer_Sender keccak Ecrecover s d) signers.
Proof.
  cbv zeta. set (step := fun '(out, from) s => _).
  assert (H : ∀ ss out from, cache_ok d from →
    (foldl step (out, from) ss).1 = out ++ map (fun s => Signer_Sender keccak Ecrecover s d) ss); [|by apply (H signers [] None)].
  induction ss as [|s ss IH]; intros out from Hc; cbn [foldl map]; [by rewrite app_nil_r|].
  assert (Hs : ∃ from', step (out, from) s = (out ++ [Signer_Sender keccak Ecrecover s d], from') ∧ cache_ok d from').
  { unfold step, Sender.
    assert (Hd : ∃ from', (match Signer_Sender keccak Ecrecover s d with Ok addr => (Ok addr, Some (s, addr))
        | Err e => (Err e, from) | Panic => (Panic, from) end) = (Signer_Sender keccak Ecrecover s d, from') ∧ cache_ok d from').
    { destruct (Signer_Sender keccak Ecrecover s d) eqn:E; eexists; (split; [reflexivity|]); done. }
    destruct Hd as (from' & Ed & Hc'). destruct from as [[s1 a1]|]; [|rewrite Ed; eauto].
    destruct (Signer_Equal s1 s) eqn:Eq; [|rewrite Ed; eauto]. apply Signer_Equal_eq in Eq as ->.
    cbn in Hc. rewrite Hc. eauto. }
  destruct Hs as (from' & -> & Hc'). rewrite IH by done. by rewrite <- app_assoc.
Qed.

(** The transaction types a signer knows, and those active in a block. *)
Definition knows (s : Signer) (d : TxData) : bool :=
  match s with
  | FrontierSigner | HomesteadSigner | EIP155Signer _ => txType d =? LegacyTxType
  | eip2930Signer _ => (txType d =? LegacyTxType) || (txType d =? AccessListTxType)
  | londonSigner _ => negb (txType d =? BlobTxType)
  | cancunSigner _ => true
  end.
Definition type_active (config : ChainConfig) (num : option Z) (time : Z) (d : TxData) : bool :=
  match d with
  | LegacyTx _ _ _ _ _ _ _ => true
  | AccessListTx _ _ _ _ _ _ _ _ _ => IsCancun config time || IsLondon config num || IsBerlin config num
  | DynamicFeeTx _ _ _ _ _ _ _ _ _ _ => IsCancun config time || IsLondon config num
  | BlobTx _ _ _ _ _ _ _ _ _ _ _ _ => IsCancun config time
  end.

Lemma Sender_no_panic s d : (∀ h sig, Ecrecover h sig ≠ Panic) → Signer_Sender keccak Ecrecover s d ≠ Panic.
Proof.
  intros Hp.
  assert (Hr : ∀ h r s v b, recoverPlain keccak Ecrecover h r s v b ≠ Panic).
  { intros h r s0 v b. unfold recoverPlain. case_if; [done|]. case_if; [done|]. cbv zeta.
    specialize (Hp (be_bytes 32 h) (be_bytes 32 r ++ be_bytes 32 s0 ++ [z2b (u8 (u64 (big_Uint64 v - 27)))])).
    destruct (Ecrecover _ _) as [[|p rest]|e|]; cbn [mbind outcome_bind]; try done. by case_if. }
  unfold Signer_Sender, cancun_Sender, london_Sender, eip2930_Sender, EIP155_Sender, Homestead_Sender, Frontier_Sender.
  destruct (rawSignatureValues d) as [v r s0]. destruct s; repeat case_if; try done; apply Hr.
Qed.

Context (He : ∀ h sig, Ecrecover h sig ≠ Err SignerTxTypeNotSupported).

Lemma recoverPlain_type h r s v b : recoverPlain keccak Ecrecover h r s v b ≠ Err SignerTxTypeNotSupported.
Proof.
  unfold recoverPlain. case_if; [done|]. case_if; [done|]. cbv zeta.
  destruct (Ecrecover _ _) as [[|p rest]|e|] eqn:E; cbn [mbind outcome_bind]; try done; [by case_if|].
  intros [= ->]. by apply He in E.
Qed.

Lemma Sender_type s d : Signer_Sender keccak Ecrecover s d = Err SignerTxTypeNotSupported ↔ knows s d = false.
Proof.
  assert (Hh : Homestead_Sender keccak Ecrecover d = Err SignerTxTypeNotSupported ↔ (txType d =? LegacyTxType) = false).
  { unfold Homestead_Sender. destruct (txType d =? LegacyTxType); cbn [negb]; [|done].
    destruct (rawSignatureValues d). split; [|done]. intros H. by apply recoverPlain_type in H. }
  unfold Signer_Sender, knows, cancun_Sender, london_Sender, eip2930_Sender, EIP155_Sender, Frontier_Sender.
  assert (Ht : txType d = 0 ∨ txType d = 1 ∨ txType d = 2 ∨ txType d = 3) by (destruct d; auto).
  destruct (rawSignatureValues d) as [v r s0].
  destruct s; destruct Ht as [Ht|[Ht|[Ht|Ht]]]; rewrite Ht in *; cbn [negb Z.eqb LegacyTxType AccessListTxType DynamicFeeTxType BlobTxType Pos.eqb orb];
    try done; repeat case_if; try done; (split; [|done]); intros H; try done; by apply recoverPlain_type in H.
Qed.

(** The signer [MakeSigner] selects for a block refuses exactly the
    transaction types of forks that are not active: access lists before
    Berlin, dynamic fees before London, blobs before Cancun. *)
Theorem MakeSigner_gate (config : ChainConfig) (num : option Z) (time : Z) (d : TxData) :
  Signer_Sender keccak Ecrecover (MakeSigner config num time) d = Err SignerTxTypeNotSupported ↔
  type_active config num time d = false.
Proof.
  rewrite Sender_type. unfold MakeSigner, type_active.
  destruct (IsCancun config time), (IsLondon config num), (IsBerlin config num), (IsEIP155 config num), (IsHomestead config num),
    d; done.
Qed.
End SenderProperties.

(** ** Witnesses: a curve with two keys *)

Definition toy_Sign (h : bytes) (prv : bool) : outcome signError bytes :=
  Ok (be_bytes 32 (if prv then 1 else 2) ++ be_bytes 32 7 ++ [z2b 1]).
Definition toy_recover (h sig : bytes) : outcome signError bytes := Ok (z2b 4 :: be_bytes 64 (be_value (take 32 sig))).
Definition toy_pubkey (prv : bool) : bytes := be_bytes 64 (if prv then 1 else 2).
Definition toy_digest (b : bytes) : Z := be_value b mod 2 ^ 256.

#[global] Instance toy_secp : SecpLaws toy_recover toy_Sign toy_pubkey.
Proof.
  split. intros h prv _. eexists _, (z2b 1). split; [reflexivity|].
  destruct prv; (split; [reflexivity|]); (split; [reflexivity|]); (split; [vm_compute; reflexivity|]); vm_compute; reflexivity.
Qed.

Lemma SignTx_Sender_witness :
  ∃ d', SignTx toy_digest toy_Sign example_dynamic (londonSigner 1) true = Ok d' ∧
        Signer_Sender toy_digest toy_recover (londonSigner 1) d' = Ok (key_address toy_digest toy_pubkey true).
Proof.
  destruct (SignTx_Sender toy_digest toy_recover toy_Sign toy_pubkey (londonSigner 1) example_dynamic true)
    as (d' & H1 & H2 & _); [|exists d'; split; [exact H1|exact H2]].
  right. split; [right; reflexivity|right; reflexivity].
Defined.

Definition toy_signed : TxData :=
  setSignatureValues 1 (mkSig 38 1 7) example_legacy.

Lemma toy_signed_ok : SignTx toy_digest toy_Sign example_legacy (cancunSigner 1) true = Ok toy_signed.
Proof. vm_compute. reflexivity. Qed.

Lemma SignTx_no_replay_witness :
  SignTx toy_digest toy_Sign example_legacy (cancunSigner 1) true = Ok toy_signed ∧
  ∀ a, Signer_Sender toy_digest toy_recover (londonSigner 5) toy_signed ≠ Ok a.
Proof.
  split; [exact toy_signed_ok|].
  apply (SignTx_no_replay toy_digest toy_recover toy_Sign toy_pubkey (cancunSigner 1) (londonSigner 5) example_legacy toy_signed true 1).
  - left. split; reflexivity.
  - reflexivity.
  - exact toy_signed_ok.
  - discriminate.
Defined.

Lemma toy_sender : Signer_Sender toy_digest toy_recover (EIP155Signer 1) toy_signed = Ok 1.
Proof. vm_compute. reflexivity. Qed.

Lemma Sender_not_malleable_witness :
  Signer_Sender toy_digest toy_recover (EIP155Signer 1) toy_signed = Ok 1 ∧
  Signer_Sender toy_digest toy_recover (EIP155Signer 1) (setSignatureValues 1 (mkSig 37 1 (secp256k1N - 7)) toy_signed) ≠ Ok 1.
Proof.
  split; [exact toy_sender|].
  apply (Sender_not_malleable toy_digest toy_recover (EIP155Signer 1) toy_signed 1); [discriminate|exact toy_sender|reflexivity].
Defined.

Lemma MakeSigner_gate_witness :
  Signer_Sender toy_digest toy_recover (MakeSigner (AllForksAtZero None None) (Some 5) 0) example_dynamic ≠ Err SignerTxTypeNotSupported.
Proof.
  intros H. apply (MakeSigner_gate toy_digest toy_recover ltac:(discriminate) (AllForksAtZero None None) (Some 5) 0 example_dynamic) in H.
  discriminate H.
Defined.
