(* ===== verification/Heap.v ===== *)
(** Binary heaps as Go's [container/heap] keeps them: [Init], [Push], [Pop],
    [Fix] and [Remove] with their loops [up] and [down], on a slice and a
    [Less] function.  The transaction ordering of [core/types/transaction.go]
    and the pool's heaps in [core/txpool/list.go] instantiate it.

    The loops are written with fuel; [down] is given the length of the slice
    and [up] the index it starts from, which bound their steps. *)

From S2P Require Import Prelude.

(** [k] is a child of [i]. *)
Definition child (k i : nat) : Prop := k = (2 * i + 1)%nat ∨ k = (2 * i + 2)%nat.

Section Heap.
Context {A : Type} (Less : A → A → bool).

Definition Swap (h : list A) (i j : nat) : list A :=
  match h !! i, h !! j with
  | Some x, Some y => <[i := y]> (<[j := x]> h)
  | _, _ => h
  end.

Definition less_at (h : list A) (i j : nat) : bool :=
  match h !! i, h !! j with
  | Some x, Some y => Less x y
  | _, _ => false
  end.

Fixpoint up (fuel : nat) (h : list A) (j : nat) : list A :=
  match fuel with
  | O => h
  | S fuel =>
      let i := ((j - 1) / 2)%nat in
      if (i =? j)%nat || negb (less_at h j i) then h else up fuel (Swap h i j) i
  end.

(** The smaller child of [i] within the first [n] elements. *)
Definition pick_child (h : list A) (i n : nat) : nat :=
  let j1 := (2 * i + 1)%nat in
  let j2 := (j1 + 1)%nat in
  if (j2 <? n)%nat && less_at h j2 j1 then j2 else j1.

Fixpoint down (fuel : nat) (h : list A) (i n : nat) : list A * nat :=
  match fuel with
  | O => (h, i)
  | S fuel =>
      if (n <=? 2 * i + 1)%nat then (h, i) else
      let j := pick_child h i n in
      if negb (less_at h j i) then (h, i) else down fuel (Swap h i j) j n
  end.

Definition Down (h : list A) (i n : nat) : list A * bool :=
  let '(h', i') := down n h i n in (h', (i <? i')%nat).
Definition Up (h : list A) (j : nat) : list A := up (S j) h j.

Fixpoint init_loop (i : nat) (h : list A) : list A :=
  match i with
  | O => h
  | S i' => init_loop i' (Down h i' (length h)).1
  end.
Definition Init (h : list A) : list A := init_loop (length h / 2) h.

Definition Push (h : list A) (x : A) : list A := Up (h ++ [x]) (length h).

(** [heap.Pop] on a slice whose own [Pop] removes the last element; [None] is
    the out-of-range panic on an empty heap. *)
Definition Pop (h : list A) : option (A * list A) :=
  let n := (length h - 1)%nat in
  let h' := (Down (Swap h 0 n) 0 n).1 in
  match list.last h' with
  | Some x => Some (x, take n h')
  | None => None
  end.

Definition Fix (h : list A) (i : nat) : list A :=
  let '(h', moved) := Down h i (length h) in if moved : bool then h' else Up h' i.

Definition Remove (h : list A) (i : nat) : option (A * list A) :=
  let n := (length h - 1)%nat in
  let h' :=
    if (n =? i)%nat then h
    else let '(h1, moved) := Down (Swap h i n) i n in if moved : bool then h1 else Up h1 i in
  match list.last h' with
  | Some x => Some (x, take n h')
  | None => None
  end.

(** ** The order *)

Record order_ok : Prop := {
  less_asym x y : Less x y = true → Less y x = false;
  (** [¬ Less y x] is transitive. *)
  le_trans x y z : Less y x = false → Less z y = false → Less z x = false
}.

Definition le_at (h : list A) (i j : nat) : Prop := less_at h j i = false.

(** The first [n] elements form a heap, from index [lo] on. *)
Definition heap_from (lo n : nat) (h : list A) : Prop := ∀ i k, (lo ≤ i)%nat → child k i → (k < n)%nat → le_at h i k.
Definition heap_to (n : nat) (h : list A) : Prop := heap_from 0 n h.
Definition is_heap (h : list A) : Prop := heap_to (length h) h.

(** ** Swapping *)

Lemma length_Swap h i j : length (Swap h i j) = length h.
Proof. unfold Swap. destruct (h !! i), (h !! j); rewrite ?length_insert; done. Qed.

Lemma Swap_perm h i j : Swap h i j ≡ₚ h.
Proof.
  unfold Swap. destruct (h !! i) as [x|] eqn:Ei; [|done]. destruct (h !! j) as [y|] eqn:Ej; [|done].
  by apply Permutation_insert_swap.
Qed.

Lemma lookup_Swap h i j k : (i < length h)%nat → (j < length h)%nat →
  Swap h i j !! k = if decide (k = i) then h !! j else if decide (k = j) then h !! i else h !! k.
Proof.
  intros Hi Hj. unfold Swap. destruct (lookup_lt_is_Some_2 h i Hi) as [x Ex], (lookup_lt_is_Some_2 h j Hj) as [y Ey].
  rewrite Ex, Ey. destruct (decide (k = i)) as [->|Hk].
  - rewrite list_lookup_insert_eq; [done|]. by rewrite length_insert.
  - rewrite list_lookup_insert_ne by done. destruct (decide (k = j)) as [->|Hkj].
    + by rewrite list_lookup_insert_eq.
    + by rewrite list_lookup_insert_ne.
Qed.

Lemma less_at_Swap h i j a b : (i < length h)%nat → (j < length h)%nat →
  less_at (Swap h i j) a b =
  less_at h (if decide (a = i) then j else if decide (a = j) then i else a)
            (if decide (b = i) then j else if decide (b = j) then i else b).
Proof.
  intros Hi Hj. unfold less_at. rewrite !lookup_Swap by done.
  destruct (decide (a = i)), (decide (b = i)), (decide (a = j)), (decide (b = j)); done.
Qed.

(** ** Restoring the heap *)

Context (HO : order_ok).

Lemma le_at_trans h i j k : is_Some (h !! j) → le_at h i j → le_at h j k → le_at h i k.
Proof.
  unfold le_at, less_at. intros [y Ey]. rewrite Ey.
  destruct (h !! i) as [x|], (h !! k) as [z|]; try done. intros. by eapply (le_trans HO).
Qed.

Lemma less_le_at h i j : less_at h i j = true → le_at h i j.
Proof. unfold le_at, less_at. destruct (h !! i), (h !! j); try done. apply (less_asym HO). Qed.

Lemma le_at_refl h i : le_at h i i.
Proof.
  unfold le_at, less_at. destruct (h !! i) as [x|]; [|done]. destruct (Less x x) eqn:E; [|done].
  by rewrite (less_asym HO _ _ E) in E.
Qed.

Lemma pick_child_spec h i n : (2 * i + 1 < n)%nat →
  child (pick_child h i n) i ∧ (pick_child h i n < n)%nat ∧
  ∀ k, child k i → (k < n)%nat → le_at h (pick_child h i n) k.
Proof.
  intros Hn. unfold pick_child. destruct (_ && _) eqn:E.
  - apply andb_true_iff in E as [E1%Nat.ltb_lt E2]. split; [right; lia|]. split; [done|].
    intros k [->| ->] Hk; [by apply less_le_at|]. replace (2 * i + 1 + 1)%nat with (2 * i + 2)%nat by lia. apply le_at_refl.
  - split; [by left|]. split; [done|]. intros k [->| ->] Hk; [apply le_at_refl|].
    apply andb_false_iff in E as [E%Nat.ltb_ge|E]; [lia|]. unfold le_at.
    by replace (2 * i + 2)%nat with (2 * i + 1 + 1)%nat by lia.
Qed.

(** A heap but for the element at [i]: relations that do not involve it hold,
    also those across it. *)
Definition hole (lo n : nat) (h : list A) (i : nat) : Prop :=
  (∀ a k, (lo ≤ a)%nat → child k a → (k < n)%nat → a ≠ i → k ≠ i → le_at h a k) ∧
  (∀ a k, (lo ≤ a)%nat → child i a → child k i → (k < n)%nat → le_at h a k).
(** The element at [i] is not smaller than its parent. *)
Definition above (lo n : nat) (h : list A) (i : nat) : Prop :=
  ∀ a, (lo ≤ a)%nat → child i a → (i < n)%nat → le_at h a i.

Lemma child_inj k a b : child k a → child k b → a = b.
Proof. unfold child. lia. Qed.
Lemma child_lt k a : child k a → (a < k)%nat.
Proof. unfold child. lia. Qed.

(** Sinking one step. *)
Lemma hole_step lo n h i : (n ≤ length h)%nat → (2 * i + 1 < n)%nat → (lo ≤ i)%nat → hole lo n h i →
  less_at h (pick_child h i n) i = true →
  hole lo n (Swap h i (pick_child h i n)) (pick_child h i n) ∧ above lo n (Swap h i (pick_child h i n)) (pick_child h i n).
Proof.
  intros Hl Hi Hlo [H1 H2] Hless. destruct (pick_child_spec h i n Hi) as (Hc & Hjn & Hmin).
  set (j := pick_child h i n) in *. pose proof (child_lt _ _ Hc) as Hij. split; [split|].
  - intros a k Hla Hk Hkn Ha Hkj. pose proof (child_lt _ _ Hk). unfold le_at. rewrite less_at_Swap by lia.
    rewrite (decide_False (P:=a = j)), (decide_False (P:=k = j)) by done.
    destruct (decide (a = i)) as [->|Hai].
    + rewrite (decide_False (P:=k = i)) by lia. by apply Hmin.
    + destruct (decide (k = i)) as [->|Hki]; [by apply H2|]. by apply H1.
  - intros a k Hla Ha Hk Hkn. assert (a = i) as -> by (by eapply child_inj). pose proof (child_lt _ _ Hk).
    unfold le_at. rewrite less_at_Swap by lia. rewrite (decide_True (P:=i = i)) by done.
    rewrite (decide_False (P:=k = i)), (decide_False (P:=k = j)) by lia. apply H1; [lia|done|done|lia|lia].
  - intros a Hla Ha _. assert (a = i) as -> by (by eapply child_inj).
    unfold le_at. rewrite less_at_Swap by lia. rewrite (decide_True (P:=i = i)), (decide_False (P:=j = i)), decide_True by (done || lia).
    by apply less_le_at.
Qed.

Lemma heap_hole lo n h i : heap_from lo n h → hole lo n h i ∧ above lo n h i.
Proof.
  intros H. split; [split|].
  - intros a k ? ? ? _ _. by apply H.
  - intros a k Hla Hia Hki Hkn. pose proof (child_lt _ _ Hki). pose proof (child_lt _ _ Hia).
    destruct (h !! i) as [x|] eqn:E.
    + apply (le_at_trans h a i k); [eauto|apply H; (done || lia)..].
    + unfold le_at, less_at. apply lookup_ge_None in E. by rewrite (lookup_ge_None_2 h k) by lia.
  - intros a ? ? ?. by apply H.
Qed.

Lemma down_heap fuel : ∀ lo h i n, (n ≤ length h)%nat → (n ≤ fuel + i)%nat → (lo ≤ i)%nat → hole lo n h i → above lo n h i →
  heap_from lo n (down fuel h i n).1.
Proof.
  induction fuel as [|fuel IH]; intros lo h i n Hl Hf Hlo [H1 H2] H3; cbn [down].
  { intros a k Hla Hk Hkn. pose proof (child_lt _ _ Hk). apply H1; [done|done|done|lia|lia]. }
  destruct (n <=? 2 * i + 1)%nat eqn:En; [apply Nat.leb_le in En|apply Nat.leb_gt in En].
  { intros a k Hla Hk Hkn. assert (a ≠ i) by (intros ->; unfold child in Hk; lia).
    destruct (decide (k = i)) as [->|]; [by apply H3|by apply H1]. }
  destruct (less_at h (pick_child h i n) i) eqn:El; cbn [negb].
  - destruct (pick_child_spec h i n En) as (Hc & Hjn & _). pose proof (child_lt _ _ Hc).
    destruct (hole_step lo n h i) as [Hh Ha]; try done. apply IH; [by rewrite length_Swap|lia|lia|done|done].
  - intros a k Hla Hk Hkn. destruct (decide (a = i)) as [->|].
    + destruct (pick_child_spec h i n En) as (Hc & Hjn & Hmin).
      apply (le_at_trans h i (pick_child h i n) k); [apply lookup_lt_is_Some_2; lia|exact El|by apply Hmin].
    + destruct (decide (k = i)) as [->|]; [by apply H3|by apply H1].
Qed.

Lemma down_index fuel : ∀ h i n, (i ≤ (down fuel h i n).2)%nat.
Proof.
  induction fuel as [|fuel IH]; intros h i n; cbn [down]; [done|].
  destruct (n <=? 2 * i + 1)%nat eqn:En; [done|apply Nat.leb_gt in En]. destruct (negb _); [done|].
  destruct (pick_child_spec h i n En) as (Hc & _). pose proof (child_lt _ _ Hc).
  specialize (IH (Swap h i (pick_child h i n)) (pick_child h i n) n). lia.
Qed.

(** Without the relation to the parent: either the element sank and the rest
    is a heap, or it stayed and is not larger than its children. *)
Lemma Down_hole h i n : (n ≤ length h)%nat → (i < n)%nat → hole 0 n h i →
  let '(h', moved) := Down h i n in
  if moved then heap_to n h' else h' = h ∧ ∀ k, child k i → (k < n)%nat → le_at h i k.
Proof.
  intros Hl Hi Hh. unfold Down. destruct n as [|n']; [lia|]. set (n := S n') in *.
  change (down n h i n) with (down (S n') h i n). cbn [down].
  destruct (n <=? 2 * i + 1)%nat eqn:En; [apply Nat.leb_le in En|apply Nat.leb_gt in En].
  { rewrite (proj2 (Nat.ltb_ge i i)) by lia. split; [done|]. intros k Hk Hkn. unfold child in Hk. lia. }
  destruct (pick_child_spec h i n En) as (Hc & Hjn & Hmin). pose proof (child_lt _ _ Hc).
  destruct (less_at h (pick_child h i n) i) eqn:El; cbn [negb].
  - destruct (hole_step 0 n h i) as [Hh' Ha']; try done; [lia|].
    pose proof (down_heap n' 0 (Swap h i (pick_child h i n)) (pick_child h i n) n) as HD.
    pose proof (down_index n' (Swap h i (pick_child h i n)) (pick_child h i n) n) as HI.
    destruct (down n' _ _ n) as [h' i'] eqn:Ed. cbn [fst snd] in *.
    rewrite (proj2 (Nat.ltb_lt i i')) by lia. apply HD; try done; rewrite ?length_Swap; lia.
  - rewrite (proj2 (Nat.ltb_ge i i)) by lia. split; [done|]. intros k Hk Hkn.
    apply (le_at_trans h i (pick_child h i n) k); [apply lookup_lt_is_Some_2; lia|exact El|by apply Hmin].
Qed.

Lemma down_perm fuel : ∀ h i n, (down fuel h i n).1 ≡ₚ h ∧ length (down fuel h i n).1 = length h.
Proof.
  induction fuel as [|fuel IH]; intros h i n; cbn [down]; [done|].
  destruct (n <=? 2 * i + 1)%nat; [done|]. destruct (negb _); [done|].
  destruct (IH (Swap h i (pick_child h i n)) (pick_child h i n) n) as [HP HL].
  split; [by rewrite HP, Swap_perm|by rewrite HL, length_Swap].
Qed.

(** [down] leaves what is at [n] and behind. *)
Lemma down_beyond fuel : ∀ h i n k, (n ≤ length h)%nat → (i < n)%nat → (n ≤ k)%nat → (down fuel h i n).1 !! k = h !! k.
Proof.
  induction fuel as [|fuel IH]; intros h i n k Hl Hi Hk; cbn [down]; [done|].
  destruct (n <=? 2 * i + 1)%nat eqn:En; [done|apply Nat.leb_gt in En]. destruct (negb _); [done|].
  destruct (pick_child_spec h i n En) as (Hc & Hjn & _). rewrite IH by (rewrite ?length_Swap; lia).
  rewrite lookup_Swap by lia. by rewrite !decide_False by lia.
Qed.

Lemma parent_child j : (0 < j)%nat → child j ((j - 1) / 2).
Proof.
  intros Hj. unfold child. pose proof (Nat.div_mod_eq (j - 1) 2). pose proof (Nat.mod_upper_bound (j - 1) 2). lia.
Qed.

(** Rising: the element at [j] is not larger than its children. *)
Lemma up_heap fuel : ∀ h j n, (n ≤ length h)%nat → (j < n)%nat → (j < fuel)%nat → hole 0 n h j →
  (∀ k, child k j → (k < n)%nat → le_at h j k) → heap_to n (up fuel h j).
Proof.
  induction fuel as [|fuel IH]; intros h j n Hl Hj Hf [H1 H2] H3; [lia|]. cbn [up].
  assert (Hall : ∀ a k, child k a → (k < n)%nat → k ≠ j → le_at h a k).
  { intros a k Hk Hkn Hkj. destruct (decide (a = j)) as [->|]; [by apply H3|]. apply H1; auto with lia. }
  destruct (decide (j = 0%nat)) as [->|Hj0].
  { cbn. intros a k _ Hk Hkn. apply Hall; [done|done|]. pose proof (child_lt _ _ Hk). lia. }
  pose proof (parent_child j ltac:(lia)) as Hc. set (i := ((j - 1) / 2)%nat) in *. pose proof (child_lt _ _ Hc) as Hij.
  destruct (i =? j)%nat eqn:Eij; [apply Nat.eqb_eq in Eij; lia|]. cbn [orb].
  destruct (less_at h j i) eqn:El; cbn [negb].
  - apply IH; [by rewrite length_Swap|lia|lia| |].
    + split.
      * intros a k _ Hk Hkn Hai Hki. pose proof (child_lt _ _ Hk). unfold le_at. rewrite less_at_Swap by lia.
        rewrite (decide_False (P:=k = i)), (decide_False (P:=a = i)) by done.
        destruct (decide (a = j)) as [->|Haj].
        -- rewrite (decide_False (P:=k = j)) by lia. apply H2; auto with lia.
        -- destruct (decide (k = j)) as [->|Hkj]; [by destruct Hai, (child_inj j a i)|]. by apply Hall.
      * intros a k _ Ha Hk Hkn. pose proof (child_lt _ _ Ha). pose proof (child_lt _ _ Hk). unfold le_at. rewrite less_at_Swap by lia.
        rewrite (decide_False (P:=a = i)), (decide_False (P:=a = j)) by lia. rewrite (decide_False (P:=k = i)) by lia.
        assert (Hai : le_at h a i) by (apply Hall; [done|lia|lia]).
        destruct (decide (k = j)) as [->|Hkj]; [done|].
        apply (le_at_trans h a i k); [apply lookup_lt_is_Some_2; lia|done|by apply Hall].
    + intros k Hk Hkn. pose proof (child_lt _ _ Hk). unfold le_at. rewrite less_at_Swap by lia.
      rewrite (decide_True (P:=i = i)), (decide_False (P:=k = i)) by (done || lia).
      destruct (decide (k = j)) as [->|Hkj]; [by apply less_le_at|].
      apply (le_at_trans h j i k); [apply lookup_lt_is_Some_2; lia|by apply less_le_at|by apply Hall].
  - intros a k _ Hk Hkn. destruct (decide (k = j)) as [->|]; [|by apply Hall].
    assert (a = i) as -> by (by eapply child_inj). done.
Qed.

Lemma up_perm fuel : ∀ h j, up fuel h j ≡ₚ h ∧ length (up fuel h j) = length h.
Proof.
  induction fuel as [|fuel IH]; intros h j; cbn [up]; [done|]. destruct (_ || _); [done|].
  destruct (IH (Swap h ((j - 1) / 2) j) ((j - 1) / 2)%nat) as [HP HL].
  split; [by rewrite HP, Swap_perm|by rewrite HL, length_Swap].
Qed.

(** [up] leaves what is behind its start. *)
Lemma up_beyond fuel : ∀ h j k, (j < length h)%nat → (j < k)%nat → up fuel h j !! k = h !! k.
Proof.
  induction fuel as [|fuel IH]; intros h j k Hj Hk; cbn [up]; [done|]. destruct (_ || _) eqn:E; [done|].
  apply orb_false_iff in E as [E%Nat.eqb_neq _].
  destruct (decide (j = 0%nat)) as [->|]; [done|].
  pose proof (child_lt _ _ (parent_child j ltac:(lia))). rewrite IH by (rewrite ?length_Swap; lia).
  rewrite lookup_Swap by lia. by rewrite !decide_False by lia.
Qed.

(** ** The operations *)

Lemma Down_perm h i n : (Down h i n).1 ≡ₚ h ∧ length (Down h i n).1 = length h.
Proof. unfold Down. pose proof (down_perm n h i n). by destruct (down n h i n). Qed.

Lemma Down_heap lo h i n : (n ≤ length h)%nat → (lo ≤ i)%nat → hole lo n h i → above lo n h i → heap_from lo n (Down h i n).1.
Proof.
  intros Hl Hlo Hh Ha. pose proof (down_heap n lo h i n Hl ltac:(lia) Hlo Hh Ha) as H.
  unfold Down. by destruct (down n h i n).
Qed.

(** The first element is a least one. *)
Lemma heap_min n h k : heap_to n h → (k < n)%nat → (n ≤ length h)%nat → le_at h 0 k.
Proof.
  intros Hh. induction (lt_wf k) as [k _ IH]. intros Hk Hl. destruct (decide (k = 0%nat)) as [->|Hk0]; [apply le_at_refl|].
  pose proof (parent_child k ltac:(lia)) as Hc. pose proof (child_lt _ _ Hc).
  apply (le_at_trans h 0 ((k - 1) / 2)%nat k); [apply lookup_lt_is_Some_2; lia|apply IH; lia|by apply Hh; [lia|..]].
Qed.

Lemma heap_head h x : is_heap h → head h = Some x → ∀ y, y ∈ h → Less y x = false.
Proof.
  intros Hh Hx y [k Hk]%list_elem_of_lookup. pose proof (lookup_lt_Some _ _ _ Hk) as Hlt.
  pose proof (heap_min _ h k Hh Hlt ltac:(done)) as Hle. unfold le_at, less_at in Hle.
  destruct h as [|z h]; [done|]. injection Hx as ->. rewrite Hk in Hle. cbn in Hle. done.
Qed.

(** A heap on a part of the slice that does not change. *)
Lemma heap_from_ext lo n h h' : (∀ k, (k < n)%nat → h' !! k = h !! k) → heap_from lo n h → heap_from lo n h'.
Proof.
  intros He Hh i k Hi Hk Hkn. pose proof (child_lt _ _ Hk). unfold le_at, less_at. rewrite !He by lia. by apply Hh.
Qed.

Lemma init_loop_heap i : ∀ h, heap_from i (length h) h →
  is_heap (init_loop i h) ∧ init_loop i h ≡ₚ h.
Proof.
  induction i as [|i IH]; intros h Hh; cbn [init_loop]; [done|].
  destruct (Down_perm h i (length h)) as [HP HL].
  destruct (IH (Down h i (length h)).1) as [H1 H2]; [|split; [done|by rewrite H2]].
  rewrite HL. apply Down_heap; [done|done| |].
  - split.
    + intros a k Ha Hk Hkn Hai Hki. apply Hh; [lia|done|done].
    + intros a k Ha Hia _ _. pose proof (child_lt _ _ Hia). lia.
  - intros a Ha Hia _. pose proof (child_lt _ _ Hia). lia.
Qed.

(** [Init] makes any slice a heap of the same elements. *)
Lemma Init_ok h : is_heap (Init h) ∧ Init h ≡ₚ h.
Proof.
  apply init_loop_heap. intros i k Hi Hk Hkn.
  pose proof (Nat.div_mod_eq (length h) 2). pose proof (Nat.mod_upper_bound (length h) 2). unfold child in Hk. lia.
Qed.

Lemma Up_ok h j : (j < length h)%nat → hole 0 (length h) h j → (∀ k, child k j → (k < length h)%nat → le_at h j k) →
  is_heap (Up h j) ∧ Up h j ≡ₚ h.
Proof.
  intros Hj Hh Hc. destruct (up_perm (S j) h j) as [HP HL]. split; [|done].
  unfold is_heap, Up. rewrite HL. apply up_heap; try done; lia.
Qed.

Lemma Push_ok h x : is_heap h → is_heap (Push h x) ∧ Push h x ≡ₚ x :: h.
Proof.
  intros Hh. destruct (Up_ok (h ++ [x]) (length h)) as [H1 H2].
  - rewrite length_app. cbn. lia.
  - split.
    + intros a k _ Hk Hkn Ha Hk2. rewrite length_app in Hkn. cbn in Hkn. pose proof (child_lt _ _ Hk).
      unfold le_at, less_at. rewrite !lookup_app_l by lia. apply Hh; [lia|done|lia].
    + intros a k _ _ Hk Hkn. pose proof (child_lt _ _ Hk). rewrite length_app in Hkn. cbn in Hkn. lia.
  - intros k Hk Hkn. pose proof (child_lt _ _ Hk). rewrite length_app in Hkn. cbn in Hkn. lia.
  - split; [exact H1|]. unfold Push. rewrite H2. by rewrite Permutation_app_comm.
Qed.

(** Overwriting an element leaves a hole. *)
Lemma insert_hole h i x : is_heap h → hole 0 (length h) (<[i := x]> h) i.
Proof.
  intros Hh. destruct (heap_hole 0 (length h) h i Hh) as [[H1 H2] _]. split.
  - intros a k Ha Hk Hkn Hai Hki. unfold le_at, less_at. rewrite !list_lookup_insert_ne by done. by apply Hh.
  - intros a k Ha Hia Hki Hkn. pose proof (child_lt _ _ Hia). pose proof (child_lt _ _ Hki).
    unfold le_at, less_at. rewrite !list_lookup_insert_ne by lia. by apply H2.
Qed.

Lemma Fix_hole h i : (i < length h)%nat → hole 0 (length h) h i → is_heap (Fix h i) ∧ Fix h i ≡ₚ h.
Proof.
  intros Hi Hh. unfold Fix. pose proof (Down_hole h i (length h) ltac:(done) Hi Hh) as HD.
  destruct (Down_perm h i (length h)) as [HP HL]. destruct (Down h i (length h)) as [h' moved]. cbn [fst] in *.
  destruct moved; [|destruct HD as [-> Hc]; by apply Up_ok].
  split; [|done]. unfold is_heap. by rewrite HL.
Qed.

(** [Fix] after an element was overwritten. *)
Lemma Fix_ok h i x : is_heap h → (i < length h)%nat → is_heap (Fix (<[i := x]> h) i) ∧ Fix (<[i := x]> h) i ≡ₚ <[i := x]> h.
Proof.
  intros Hh Hi. apply Fix_hole; [by rewrite length_insert|]. rewrite length_insert. by apply insert_hole.
Qed.

(** The swap of [Pop] and [Remove]: the last element takes the place of the
    removed one. *)
Lemma Swap_last h i x : h !! i = Some x → let n := (length h - 1)%nat in
  Swap h i n !! n = Some x ∧ (is_heap h → hole 0 n (Swap h i n) i).
Proof.
  intros Hx n. pose proof (lookup_lt_Some _ _ _ Hx) as Hlt. split.
  - rewrite lookup_Swap by lia. destruct (decide (n = i)) as [->|]; [done|]. by rewrite decide_True.
  - intros Hh. destruct (heap_hole 0 (length h) h i Hh) as [[H1 H2] _]. split.
    + intros a k Ha Hk Hkn Hai Hki. pose proof (child_lt _ _ Hk). unfold le_at. rewrite less_at_Swap by lia.
      rewrite !decide_False by lia. apply Hh; [lia|done|lia].
    + intros a k Ha Hia Hki Hkn. pose proof (child_lt _ _ Hia). pose proof (child_lt _ _ Hki).
      unfold le_at. rewrite less_at_Swap by lia. rewrite !decide_False by lia. apply H2; [lia|done|done|lia].
Qed.

(** Cutting off the last element of a slice whose front is a heap. *)
Lemma cut_last h h' n x : h' ≡ₚ h → length h' = S n → heap_to n h' → h' !! n = Some x →
  list.last h' = Some x ∧ is_heap (take n h') ∧ h ≡ₚ x :: take n h'.
Proof.
  intros HP HL Hh Hx.
  assert (E : h' = take n h' ++ [x]).
  { rewrite <- (take_drop n h') at 1. f_equal. rewrite (drop_S _ _ _ Hx). f_equal. apply drop_ge. lia. }
  split; [rewrite E; by apply last_snoc|]. split.
  - unfold is_heap. rewrite length_take, Nat.min_l by lia. eapply heap_from_ext; [|exact Hh].
    intros k Hk. by rewrite lookup_take_lt.
  - rewrite <- HP, E at 1. by rewrite Permutation_app_comm.
Qed.

Lemma Pop_ok h x : is_heap h → head h = Some x →
  ∃ h', Pop h = Some (x, h') ∧ is_heap h' ∧ h ≡ₚ x :: h' ∧ ∀ y, y ∈ h' → Less y x = false.
Proof.
  intros Hh Hx. assert (H0 : h !! 0%nat = Some x) by (by destruct h).
  pose proof (lookup_lt_Some _ _ _ H0) as Hlt. destruct (Swap_last h 0 x H0) as [Hn Hhole]. specialize (Hhole Hh).
  set (n := (length h - 1)%nat) in *. unfold Pop. fold n.
  destruct (Down_perm (Swap h 0 n) 0 n) as [HP HL]. rewrite length_Swap in HL.
  assert (Hd : heap_to n (Down (Swap h 0 n) 0 n).1).
  { apply Down_heap; [rewrite length_Swap; lia|lia|done|]. intros a _ Ha. pose proof (child_lt _ _ Ha). lia. }
  assert (Hlast : (Down (Swap h 0 n) 0 n).1 !! n = Some x).
  { destruct (decide (n = 0%nat)) as [E0|].
    - unfold Down. rewrite E0 in *. cbn. exact Hn.
    - unfold Down. pose proof (down_beyond n (Swap h 0 n) 0 n n) as Hb. rewrite length_Swap in Hb.
      destruct (down n (Swap h 0 n) 0 n) as [h1 i1]. cbn in *. rewrite Hb by lia. done. }
  assert (HPh : (Down (Swap h 0 n) 0 n).1 ≡ₚ h) by (by rewrite HP, Swap_perm).
  destruct (cut_last h _ n x HPh ltac:(lia) Hd Hlast) as (-> & H1 & H2).
  eexists. split; [done|]. split; [done|]. split; [done|]. intros y Hy.
  apply (heap_head h x Hh Hx). rewrite H2. by right.
Qed.

Lemma Remove_ok h i x : is_heap h → h !! i = Some x →
  ∃ h', Remove h i = Some (x, h') ∧ is_heap h' ∧ h ≡ₚ x :: h'.
Proof.
  intros Hh Hx. pose proof (lookup_lt_Some _ _ _ Hx) as Hlt. destruct (Swap_last h i x Hx) as [Hn Hhole]. specialize (Hhole Hh).
  set (n := (length h - 1)%nat) in *. unfold Remove. fold n.
  destruct (n =? i)%nat eqn:En; [apply Nat.eqb_eq in En|apply Nat.eqb_neq in En].
  - destruct (cut_last h h n x ltac:(done) ltac:(lia)) as (-> & H1 & H2); [|congruence|eauto].
    intros a k Ha Hk Hkn. apply Hh; [lia|done|lia].
  - pose proof (Down_hole (Swap h i n) i n) as HD. rewrite length_Swap in HD. specialize (HD ltac:(lia) ltac:(lia) Hhole).
    destruct (Down_perm (Swap h i n) i n) as [HP HL]. rewrite length_Swap in HL.
    pose proof (down_beyond n (Swap h i n) i n n) as Hb. rewrite length_Swap in Hb. unfold Down in HD, HP, HL |- *.
    destruct (down n (Swap h i n) i n) as [h1 i1]. cbn [fst] in *. specialize (Hb ltac:(lia) ltac:(lia) ltac:(done)).
    destruct (i <? i1)%nat.
    + destruct (cut_last h h1 n x ltac:(by rewrite HP, Swap_perm) ltac:(lia) HD ltac:(by rewrite Hb)) as (-> & H1 & H2). eauto.
    + destruct HD as [-> Hc]. pose proof (up_heap (S i) (Swap h i n) i n) as HU. rewrite length_Swap in HU.
      specialize (HU ltac:(lia) ltac:(lia) ltac:(lia) Hhole Hc). destruct (up_perm (S i) (Swap h i n) i) as [UP UL].
      rewrite length_Swap in UL. pose proof (up_beyond (S i) (Swap h i n) i n) as UB. rewrite length_Swap in UB.
      specialize (UB ltac:(lia) ltac:(lia)).
      destruct (cut_last h (Up (Swap h i n) i) n x) as (-> & H1 & H2); unfold Up; try done; [by rewrite UP, Swap_perm|lia|by rewrite UB|].
      eauto.
Qed.
End Heap.
