(* ===== verification/TxOrder.v ===== *)
(** The transaction order of the block builder: [TxWithMinerFee],
    [TxByPriceAndTime] and [TransactionsByPriceAndNonce] of
    [src/go-ethereum/core/types/transaction.go], on Go's heap ([Heap.v]).

    Ranging over a Go map takes an unspecified order: the order is an argument
    of [NewTransactionsByPriceAndNonce].  [sender] is [Sender] with the signer
    of the set, the zero address when recovery fails; its cache is transparent
    ([Signing.v]).

    The abstract view is a map from accounts to queues of transactions; the
    heap and the map of tails implement it. *)

From S2P Require Import Prelude RLP RLPDecode Types HeaderRLP Receipts Fees Transactions Heap.

(** ** Data and operations *)

Record TxWithMinerFee := mkWrapped { w_tx : Transaction; w_minerFee : Z }.

Definition NewTxWithMinerFee (tx : Transaction) (baseFee : option Z) : option TxWithMinerFee :=
  let '(minerFee, ok) := EffectiveGasTip (inner tx) baseFee in
  if ok : bool then Some (mkWrapped tx minerFee) else None.

(** [TxByPriceAndTime.Less]. *)
Definition Less (a b : TxWithMinerFee) : bool :=
  match w_minerFee a ?= w_minerFee b with
  | Eq => tx_time (w_tx a) <? tx_time (w_tx b)
  | Gt => true
  | Lt => false
  end.

Record TransactionsByPriceAndNonce := mkSet {
  t_txs : gmap Z (list Transaction);
  t_heads : list TxWithMinerFee
}.

Section Ordering.
Context (sender : Transaction → Z) (baseFee : option Z).

Fixpoint new_loop (range : list (Z * list Transaction)) (t : TransactionsByPriceAndNonce)
    : outcome unit TransactionsByPriceAndNonce :=
  match range with
  | [] => Ok t
  | (from, accTxs) :: range' =>
      match accTxs with
      | [] => Panic
      | tx :: rest =>
          let acc := sender tx in
          match NewTxWithMinerFee tx baseFee with
          | Some wrapped =>
              if negb (acc =? from) then new_loop range' (mkSet (delete from (t_txs t)) (t_heads t))
              else new_loop range' (mkSet (<[from := rest]> (t_txs t)) (t_heads t ++ [wrapped]))
          | None => new_loop range' (mkSet (delete from (t_txs t)) (t_heads t))
          end
      end
  end.

Definition NewTransactionsByPriceAndNonce (txs : gmap Z (list Transaction)) (range : list (Z * list Transaction))
    : outcome unit TransactionsByPriceAndNonce :=
  t ← new_loop range (mkSet txs []);
  Ok (mkSet (t_txs t) (Init Less (t_heads t))).

Definition Peek (t : TransactionsByPriceAndNonce) : option Transaction := w_tx <$> head (t_heads t).

(** [heap.Pop]; panics when there is no head. *)
Definition Pop (t : TransactionsByPriceAndNonce) : outcome unit TransactionsByPriceAndNonce :=
  x ← deref (Heap.Pop Less (t_heads t));
  Ok (mkSet (t_txs t) x.2).

Definition Shift (t : TransactionsByPriceAndNonce) : outcome unit TransactionsByPriceAndNonce :=
  top ← deref (head (t_heads t));
  let acc := sender (w_tx top) in
  match t_txs t !! acc with
  | Some (tx :: rest) =>
      match NewTxWithMinerFee tx baseFee with
      | Some wrapped =>
          Ok (mkSet (<[acc := rest]> (t_txs t)) (Fix Less (<[0%nat := wrapped]> (t_heads t)) 0))
      | None => Pop t
      end
  | _ => Pop t
  end.

(** ** The abstract view: a queue per account *)

(** The accounts in play with their queues. *)
Definition queue (t : TransactionsByPriceAndNonce) (w : TxWithMinerFee) : Z * list Transaction :=
  (sender (w_tx w), w_tx w :: default [] (t_txs t !! sender (w_tx w))).
Definition queues (t : TransactionsByPriceAndNonce) : gmap Z (list Transaction) :=
  list_to_map (queue t <$> t_heads t).

Definition affordable (tx : Transaction) : bool :=
  match baseFee with None => true | Some b => b <=? gasFeeCap (inner tx) end.

(** What is left of a queue when its head was taken: nothing when the next
    transaction cannot pay the base fee. *)
Definition next_queue (q : list Transaction) : option (list Transaction) :=
  match q with
  | tx :: _ => if affordable tx then Some q else None
  | [] => None
  end.

(** The preference among the heads. *)
Definition fee (tx : Transaction) : Z := EffectiveGasTipValue (inner tx) baseFee.
Definition better (x y : Transaction) : Prop := fee y < fee x ∨ fee x = fee y ∧ tx_time x < tx_time y.

Record set_ok (t : TransactionsByPriceAndNonce) : Prop := {
  so_heap : is_heap Less (t_heads t);
  so_wrapped : Forall (fun w => NewTxWithMinerFee (w_tx w) baseFee = Some w) (t_heads t);
  so_distinct : NoDup ((fun w => sender (w_tx w)) <$> t_heads t);
  so_senders : ∀ w q, w ∈ t_heads t → t_txs t !! sender (w_tx w) = Some q → Forall (fun x => sender x = sender (w_tx w)) q
}.

(** ** Lemmas *)

Lemma Less_order : order_ok Less.
Proof.
  split.
  - intros x y. unfold Less. rewrite (Z.compare_antisym (w_minerFee x)).
    destruct (w_minerFee x ?= w_minerFee y); cbn; [|done|done]. intros H. zbool. apply Z.ltb_ge. lia.
  - intros x y z. unfold Less.
    destruct (Z.compare_spec (w_minerFee y) (w_minerFee x)), (Z.compare_spec (w_minerFee z) (w_minerFee y)),
      (Z.compare_spec (w_minerFee z) (w_minerFee x)); intros; try done; zbool; try (apply Z.ltb_ge); lia.
Qed.

Lemma wrapped_spec tx w : NewTxWithMinerFee tx baseFee = Some w ↔ affordable tx = true ∧ w = mkWrapped tx (fee tx).
Proof.
  unfold NewTxWithMinerFee, affordable, fee, EffectiveGasTipValue, EffectiveGasTip.
  destruct baseFee as [b|]; cbn; [|naive_solver]. rewrite Z.leb_antisym. destruct (gasFeeCap (inner tx) <? b); cbn; naive_solver.
Qed.
Lemma wrapped_none tx : NewTxWithMinerFee tx baseFee = None ↔ affordable tx = false.
Proof.
  destruct (NewTxWithMinerFee tx baseFee) as [w|] eqn:E; [apply wrapped_spec in E as [-> _]; done|].
  split; [|done]. intros _. destruct (affordable tx) eqn:Ea; [|done].
  by rewrite (proj2 (wrapped_spec tx (mkWrapped tx (fee tx))) (conj Ea eq_refl)) in E.
Qed.

Lemma queue_keys t hs : (queue t <$> hs).*1 = (fun w => sender (w_tx w)) <$> hs.
Proof. by rewrite <- list_fmap_compose. Qed.

Lemma queues_lookup t a q : set_ok t → queues t !! a = Some q ↔ ∃ w, w ∈ t_heads t ∧ queue t w = (a, q).
Proof.
  intros [_ _ Hd _]. unfold queues. rewrite <- elem_of_list_to_map by (by rewrite queue_keys).
  rewrite list_elem_of_fmap. naive_solver.
Qed.

(** Permuted heads and equal tails give the same queues. *)
Lemma queues_perm t hs : NoDup ((fun w => sender (w_tx w)) <$> t_heads t) → t_heads t ≡ₚ hs →
  queues t = list_to_map (queue t <$> hs).
Proof. intros Hd Hp. apply list_to_map_proper; [by rewrite queue_keys|by rewrite Hp]. Qed.

Lemma heads_head t x : Peek t = Some x → ∃ w hs, t_heads t = w :: hs ∧ w_tx w = x.
Proof. unfold Peek. destruct (t_heads t) as [|w hs]; [done|]. cbn. intros [= <-]. eauto. Qed.

Lemma so_NoDup_cons t w hs : set_ok t → t_heads t ≡ₚ (w :: hs) →
  (sender (w_tx w) ∉ ((fun v => sender (w_tx v)) <$> hs)) ∧ NoDup ((fun v => sender (w_tx v)) <$> hs).
Proof. intros [_ _ Hd _] Hp. rewrite Hp in Hd. cbn in Hd. by apply NoDup_cons in Hd. Qed.

Lemma Peek_ok t : set_ok t →
  match Peek t with
  | None => queues t = ∅
  | Some x => affordable x = true ∧ (∃ q, queues t !! sender x = Some (x :: q) ∧ Forall (fun y => sender y = sender x) q) ∧
      ∀ a y q, queues t !! a = Some (y :: q) → ¬ better y x
  end.
Proof.
  intros Hok. destruct (Peek t) as [x|] eqn:Ep.
  - apply heads_head in Ep as (w & hs & Eh & <-). pose proof Hok as [Hh Hw Hd Hs].
    assert (Hwe : ∀ v, v ∈ t_heads t → affordable (w_tx v) = true ∧ w_minerFee v = fee (w_tx v)).
    { intros v Hv. rewrite Forall_forall in Hw. specialize (Hw v Hv). apply wrapped_spec in Hw as [Ha Ev]. split; [done|].
      by rewrite Ev at 1. }
    assert (Hin : w ∈ t_heads t) by (rewrite Eh; by left). split; [by apply Hwe|]. split.
    + exists (default [] (t_txs t !! sender (w_tx w))). split.
      * apply queues_lookup; [done|]. by exists w.
      * destruct (t_txs t !! sender (w_tx w)) as [q|] eqn:Eq; [|constructor]. by apply (Hs w q).
    + intros a y q (v & Hv & [= <- <- _])%queues_lookup Hb; [|done].
      pose proof (heap_head Less Less_order (t_heads t) w Hh) as Hmin. rewrite Eh in Hmin at 1. specialize (Hmin eq_refl v Hv).
      destruct (Hwe w Hin) as [_ E1], (Hwe v Hv) as [_ E2]. unfold Less in Hmin. rewrite E1, E2 in Hmin.
      unfold better in Hb. destruct (Z.compare_spec (fee (w_tx v)) (fee (w_tx w))); try done; zbool; lia.
  - unfold Peek in Ep. destruct (t_heads t) as [|w hs] eqn:Eh; [|done]. unfold queues. by rewrite Eh.
Qed.

Lemma set_Pop_ok t x : set_ok t → Peek t = Some x →
  ∃ t', Pop t = Ok t' ∧ set_ok t' ∧ queues t' = delete (sender x) (queues t) ∧ t_txs t' = t_txs t.
Proof.
  intros Hok Hx. apply heads_head in Hx as (w & hs & Eh & <-). pose proof Hok as [Hh Hw Hd Hs].
  destruct (Pop_ok Less Less_order (t_heads t) w Hh) as (h' & Ep & Hh' & Hp & _); [by rewrite Eh|].
  destruct (so_NoDup_cons t w h' Hok Hp) as [Hn Hd'].
  exists (mkSet (t_txs t) h'). unfold Pop. rewrite Ep. cbn. split; [done|]. split; [|split; [|done]].
  - split; cbn; [done| |done|].
    + rewrite Hp in Hw. by apply Forall_cons in Hw as [_ Hw].
    + intros v q Hv. apply Hs. rewrite Hp. by right.
  - rewrite (queues_perm t (w :: h') Hd Hp). unfold queues. cbn. rewrite delete_insert_id; [done|].
    apply not_elem_of_list_to_map. by rewrite queue_keys.
Qed.

Lemma Shift_ok t x q : set_ok t → Peek t = Some x → queues t !! sender x = Some (x :: q) →
  ∃ t', Shift t = Ok t' ∧ set_ok t' ∧
    queues t' = match next_queue q with Some q' => <[sender x := q']> (queues t) | None => delete (sender x) (queues t) end.
Proof.
  intros Hok Hx Hq. pose proof (set_Pop_ok t x Hok Hx) as (tp & Epop & Hokp & Hqp & _).
  apply heads_head in Hx as (w & hs & Eh & <-). pose proof Hok as [Hh Hw Hd Hs].
  assert (Hq' : default [] (t_txs t !! sender (w_tx w)) = q).
  { apply queues_lookup in Hq as (v & Hv & [= E1 E2 <-]); [|done]. by rewrite E1. }
  unfold Shift. rewrite Eh. cbn [head deref mbind outcome_bind].
  destruct (t_txs t !! sender (w_tx w)) as [l|] eqn:El; cbn in Hq'; subst q; [|by exists tp].
  destruct l as [|tx rest]; [by exists tp|]. cbn [next_queue].
  destruct (NewTxWithMinerFee tx baseFee) as [w'|] eqn:Ew'.
  2: { apply wrapped_none in Ew' as ->. by exists tp. }
  pose proof Ew' as [-> Ewr]%wrapped_spec. assert (Etx : w_tx w' = tx) by (by rewrite Ewr). clear Ewr.
  assert (Hst : sender tx = sender (w_tx w) ∧ Forall (fun y => sender y = sender (w_tx w)) rest).
  { assert (Hin : w ∈ t_heads t) by (rewrite Eh; by left). specialize (Hs w _ Hin El). by apply Forall_cons in Hs. }
  destruct Hst as [Htx Hrest].
  destruct (so_NoDup_cons t w hs Hok ltac:(by rewrite Eh)) as [Hn Hd'].
  destruct (Fix_ok Less Less_order (t_heads t) 0 w' Hh) as [Hh' Hp']; [rewrite Eh; cbn; lia|].
  rewrite Eh in Hh', Hp'. change (<[0%nat := w']> (w :: hs)) with (w' :: hs) in *.
  eexists. split; [reflexivity|]. set (t' := mkSet _ _).
  assert (Hdn : NoDup ((fun v => sender (w_tx v)) <$> t_heads t')).
  { unfold t'. cbn [t_heads]. rewrite Hp'. cbn. rewrite Etx, Htx. by apply NoDup_cons. }
  assert (Hsame : ∀ v, v ∈ hs → t_txs t' !! sender (w_tx v) = t_txs t !! sender (w_tx v)).
  { intros v Hv. unfold t'. cbn. apply lookup_insert_ne. intros E. apply Hn. rewrite E. apply list_elem_of_fmap. eauto. }
  split.
  - split; [done| |done|].
    + unfold t'. cbn [t_heads]. rewrite Hp'. rewrite Eh in Hw. apply Forall_cons in Hw as [_ Hw].
      constructor; [|done]. by rewrite Etx.
    + intros v l Hv. unfold t' in Hv. cbn [t_heads] in Hv. rewrite Hp' in Hv. apply elem_of_cons in Hv as [->|Hv].
      * rewrite Etx, Htx. unfold t'. cbn. rewrite lookup_insert_eq. by intros [= <-].
      * rewrite Hsame by done. apply Hs. rewrite Eh. by right.
  - rewrite (queues_perm t' (w' :: hs) Hdn Hp'). rewrite (queues_perm t (w :: hs) Hd ltac:(by rewrite Eh)).
    cbn [fmap list_fmap list_to_map]. unfold queue at 1. cbn [fst snd]. rewrite Etx, Htx.
    change (t_txs t' !! sender (w_tx w)) with (<[sender (w_tx w) := rest]> (t_txs t) !! sender (w_tx w)).
    rewrite lookup_insert_eq. cbn. rewrite insert_insert_eq. f_equal. f_equal.
    apply list_fmap_ext. intros i v Hv%list_elem_of_lookup_2. unfold queue. by rewrite Hsame.
Qed.

(** *** The constructor *)

(** The head of an account's list, when the account is kept. *)
Definition selected (e : Z * list Transaction) : option TxWithMinerFee :=
  match e.2 with
  | tx :: _ => if sender tx =? e.1 then NewTxWithMinerFee tx baseFee else None
  | [] => None
  end.

Lemma selected_spec a l w : selected (a, l) = Some w →
  ∃ rest, l = w_tx w :: rest ∧ sender (w_tx w) = a ∧ NewTxWithMinerFee (w_tx w) baseFee = Some w.
Proof.
  unfold selected. cbn. destruct l as [|tx rest]; [done|]. case_if; [|done]. intros H. pose proof H as [_ E]%wrapped_spec.
  exists rest. rewrite E. cbn. split_and!; try done. by rewrite <- E.
Qed.

Lemma new_loop_ok range t : NoDup range.*1 → Forall (fun e => e.2 ≠ []) range →
  ∃ t', new_loop range t = Ok t' ∧ t_heads t' = t_heads t ++ omap selected range ∧
    (∀ a, a ∉ range.*1 → t_txs t' !! a = t_txs t !! a) ∧
    (∀ a x rest w, (a, x :: rest) ∈ range → selected (a, x :: rest) = Some w → t_txs t' !! a = Some rest).
Proof.
  revert t. induction range as [|[from l] range IH]; intros t Hd Hne.
  { exists t. rewrite app_nil_r. split_and!; try done. intros a x rest w H. by apply elem_of_nil in H. }
  cbn in Hd. apply NoDup_cons in Hd as [Hn Hd]. apply Forall_cons in Hne as [Hl Hne]. cbn in Hl.
  destruct l as [|tx rest]; [done|]. clear Hl.
  assert (Hstep : ∃ t1, new_loop ((from, tx :: rest) :: range) t = new_loop range t1 ∧
    t_heads t1 = t_heads t ++ option_list (selected (from, tx :: rest)) ∧
    (∀ a, a ≠ from → t_txs t1 !! a = t_txs t !! a) ∧
    (∀ w, selected (from, tx :: rest) = Some w → t_txs t1 !! from = Some rest)).
  { unfold selected. cbn. destruct (sender tx =? from), (NewTxWithMinerFee tx baseFee) as [w|]; cbn;
      eexists; (split; [reflexivity|]); cbn; rewrite ?app_nil_r; split_and!; try done; intros;
      rewrite ?lookup_insert_ne, ?lookup_delete_ne, ?lookup_insert_eq by done; done. }
  destruct Hstep as (t1 & -> & Hh1 & Hne1 & Heq1). destruct (IH t1 Hd Hne) as (t' & E & Hh & Hout & Hin).
  exists t'. split; [done|]. split; [|split].
  - rewrite Hh, Hh1, <- app_assoc. f_equal. cbn [omap list_omap]. by destruct (selected (from, tx :: rest)).
  - intros a Ha. cbn in Ha. apply not_elem_of_cons in Ha as [Ha1 Ha2]. by rewrite Hout, Hne1.
  - intros a x r w Hx Hw. apply elem_of_cons in Hx as [[= -> -> ->]|Hx]; [|by apply (Hin a x r w)].
    rewrite Hout by done. by apply (Heq1 w).
Qed.

(** Every list belongs to one sender. *)
Definition one_sender (l : list Transaction) : Prop := ∀ x y, x ∈ l → y ∈ l → sender x = sender y.
Record input_ok (txs : gmap Z (list Transaction)) (range : list (Z * list Transaction)) : Prop := {
  io_range : range ≡ₚ map_to_list txs;
  io_nonempty : ∀ a, txs !! a ≠ Some [];
  io_sender : ∀ a l, txs !! a = Some l → one_sender l
}.

(** The queues at the start: the accounts stored under their own address whose
    first transaction pays the base fee. *)
Definition start_queue (a : Z) (l : list Transaction) : option (list Transaction) :=
  match l with
  | tx :: _ => if (sender tx =? a) && affordable tx then Some l else None
  | [] => None
  end.

Lemma start_selected a l : start_queue a l = match selected (a, l) with Some _ => Some l | None => None end.
Proof.
  unfold start_queue, selected. cbn. destruct l as [|tx l]; [done|]. destruct (sender tx =? a); [|done]. cbn.
  destruct (NewTxWithMinerFee tx baseFee) as [w|] eqn:E; [apply wrapped_spec in E as [-> _]|apply wrapped_none in E as ->]; done.
Qed.

Lemma selected_senders range : ((fun w => sender (w_tx w)) <$> omap selected range) `sublist_of` range.*1.
Proof.
  induction range as [|[a l] range IH]; cbn; [done|]. destruct (selected (a, l)) as [w|] eqn:E; [|by apply sublist_cons].
  apply selected_spec in E as (rest & _ & <- & _). cbn. by apply sublist_skip.
Qed.

Lemma New_ok txs range : input_ok txs range →
  ∃ t, NewTransactionsByPriceAndNonce txs range = Ok t ∧ set_ok t ∧ queues t = map_imap start_queue txs.
Proof.
  intros [Hr Hne Hs].
  assert (Hd : NoDup range.*1) by (rewrite Hr; apply NoDup_fst_map_to_list).
  assert (Hmem : ∀ a l, (a, l) ∈ range ↔ txs !! a = Some l) by (intros; by rewrite Hr, elem_of_map_to_list).
  assert (Hnn : Forall (fun e => e.2 ≠ []) range).
  { apply Forall_forall. intros [a l] Ha%Hmem. cbn. intros ->. by apply (Hne a). }
  destruct (new_loop_ok range (mkSet txs []) Hd Hnn) as (t' & E & Hh & _ & Htl). cbn [t_heads app] in Hh.
  unfold NewTransactionsByPriceAndNonce. rewrite E. cbn [mbind outcome_bind]. eexists. split; [reflexivity|].
  set (t := mkSet (t_txs t') _). destruct (Init_ok Less Less_order (t_heads t')) as [Hheap Hperm].
  assert (Hin : ∀ w, w ∈ t_heads t ↔ ∃ rest, (sender (w_tx w), w_tx w :: rest) ∈ range ∧
      selected (sender (w_tx w), w_tx w :: rest) = Some w ∧ t_txs t !! sender (w_tx w) = Some rest).
  { intros w. unfold t. cbn [t_heads t_txs]. rewrite Hperm, Hh, list_elem_of_omap. split.
    - intros ([a l] & Hal & Hsel). pose proof Hsel as (rest & -> & <- & _)%selected_spec. exists rest.
      split_and!; try done. by apply (Htl _ (w_tx w) rest w).
    - intros (rest & H1 & H2 & _). eauto. }
  assert (Hok : set_ok t).
  { split; [exact Hheap| | |].
    - apply Forall_forall. intros w (rest & _ & (? & _ & _ & ?)%selected_spec & _)%Hin. done.
    - unfold t. cbn [t_heads]. rewrite Hperm, Hh. eapply sublist_NoDup; [exact Hd|apply selected_senders].
    - intros w q (rest & Hm%Hmem & _ & Et)%Hin Eq. rewrite Et in Eq. simplify_eq.
      apply Forall_forall. intros x Hx. apply (Hs _ _ Hm); [by right|by left]. }
  split; [done|]. apply map_eq. intros a. apply option_eq. intros q. rewrite queues_lookup by done.
  rewrite map_lookup_imap. split.
  - intros (w & (rest & Hm%Hmem & Hsel & Et)%Hin & Eq). unfold queue in Eq. rewrite Et in Eq. simplify_eq.
    rewrite Hm. cbn [mbind option_bind]. by rewrite start_selected, Hsel.
  - destruct (txs !! a) as [l|] eqn:El; [|done]. cbn. rewrite start_selected.
    destruct (selected (a, l)) as [w|] eqn:Esel; [|done]. intros [= <-].
    pose proof Esel as (rest & -> & Ha & _)%selected_spec. subst a. exists w.
    assert (Hw : w ∈ t_heads t). { unfold t. cbn [t_heads]. rewrite Hperm, Hh, list_elem_of_omap. exists (sender (w_tx w), w_tx w :: rest).
      split; [by apply Hmem|done]. }
    split; [done|]. apply Hin in Hw as (rest' & Hm'%Hmem & _ & Et). unfold queue. rewrite Et. rewrite Hm' in El. by simplify_eq.
Qed.

(** ** Sequences of operations *)

Inductive op := OShift | OPop.

Definition do_op (o : op) (t : TransactionsByPriceAndNonce) : outcome unit TransactionsByPriceAndNonce :=
  match o with OShift => Shift t | OPop => Pop t end.

(** A client: look at the head, then shift or pop. *)
Fixpoint run (ops : list op) (t : TransactionsByPriceAndNonce) : outcome unit (list Transaction * TransactionsByPriceAndNonce) :=
  match ops, Peek t with
  | o :: ops', Some x => t' ← do_op o t; r ← run ops' t'; Ok (x :: r.1, r.2)
  | _, _ => Ok ([], t)
  end.

(** The specification: from the queues, take the head of a queue that no other
    head is better than. *)
Definition abs_next (o : op) (x : Transaction) (q : list Transaction) (Q : gmap Z (list Transaction)) : gmap Z (list Transaction) :=
  match o, next_queue q with
  | OShift, Some q' => <[sender x := q']> Q
  | _, _ => delete (sender x) Q
  end.
Inductive picks : gmap Z (list Transaction) → list op → list Transaction → gmap Z (list Transaction) → Prop :=
| picks_nil Q : picks Q [] [] Q
| picks_empty ops : picks ∅ ops [] ∅
| picks_step Q o ops x q out Q' :
    Q !! sender x = Some (x :: q) → affordable x = true →
    (∀ a y q', Q !! a = Some (y :: q') → ¬ better y x) →
    picks (abs_next o x q Q) ops out Q' → picks Q (o :: ops) (x :: out) Q'.

Lemma do_op_ok o t x q : set_ok t → Peek t = Some x → queues t !! sender x = Some (x :: q) →
  ∃ t1, do_op o t = Ok t1 ∧ set_ok t1 ∧ queues t1 = abs_next o x q (queues t).
Proof.
  intros Hok Ex Hq. destruct o; cbn [do_op].
  - destruct (Shift_ok t x q Hok Ex Hq) as (t1 & E & Hok1 & Hq1). exists t1. split_and!; done.
  - destruct (set_Pop_ok t x Hok Ex) as (t1 & E & Hok1 & Hq1 & _). exists t1. split_and!; done.
Qed.

Lemma run_picks ops t : set_ok t → ∃ out t', run ops t = Ok (out, t') ∧ set_ok t' ∧ picks (queues t) ops out (queues t').
Proof.
  revert t. induction ops as [|o ops IH]; intros t Hok; [exists [], t; by split_and!; [..|constructor]|].
  cbn [run]. pose proof (Peek_ok t Hok) as Hp. destruct (Peek t) as [x|] eqn:Ex.
  2: { exists [], t. rewrite Hp. by split_and!; [..|constructor]. }
  destruct Hp as (Ha & (q & Hq & _) & Hbest).
  pose proof (do_op_ok o t x q Hok Ex Hq) as Hstep.
  destruct Hstep as (t1 & -> & Hok1 & Eq1). destruct (IH t1 Hok1) as (out & t' & E & Hok' & Hpk).
  exists (x :: out), t'. cbn [mbind outcome_bind]. rewrite E. split; [done|]. split; [done|].
  rewrite Eq1 in Hpk. by econstructor.
Qed.

(** Queues whose transactions belong to their account, with a head that pays. *)
Definition queues_ok (Q : gmap Z (list Transaction)) : Prop :=
  ∀ a q, Q !! a = Some q → Forall (fun y => sender y = a) q ∧ next_queue q = Some q.

Lemma abs_next_lookup o x q Q a : abs_next o x q Q !! a =
  if decide (a = sender x) then match o with OShift => next_queue q | OPop => None end else Q !! a.
Proof.
  unfold abs_next. case_decide as Ha.
  - subst a. destruct o, (next_queue q); by rewrite ?lookup_insert_eq, ?lookup_delete_eq.
  - destruct o, (next_queue q); rewrite ?lookup_insert_ne, ?lookup_delete_ne by done; done.
Qed.

Lemma next_queue_some q q' : next_queue q = Some q' → q' = q ∧ next_queue q = Some q.
Proof. destruct q as [|y q]; [done|]. cbn. case_if; [|done]. by intros [= <-]. Qed.

Lemma abs_next_ok o x q Q : queues_ok Q → Q !! sender x = Some (x :: q) → queues_ok (abs_next o x q Q).
Proof.
  intros Hok Hx a q'. rewrite abs_next_lookup. case_decide as Ha; [|apply Hok]. destruct o; [|done].
  intros Hn. destruct (next_queue_some _ _ Hn) as [-> Hn']. split; [|done]. subst a.
  destruct (Hok _ _ Hx) as [HF _]. by apply Forall_cons in HF as [_ ?].
Qed.

Lemma picks_prefix Q ops out Q' : picks Q ops out Q' → queues_ok Q →
  ∀ a, filter (fun x => sender x = a) out `prefix_of` default [] (Q !! a).
Proof.
  induction 1 as [Q|ops|Q o ops x q out Q' Hx Ha Hb Hp IH]; intros Hok a; [apply prefix_nil|apply prefix_nil|].
  specialize (IH (abs_next_ok o x q Q Hok Hx) a). rewrite abs_next_lookup in IH. rewrite filter_cons.
  destruct (decide (a = sender x)) as [->|Hne].
  - rewrite decide_True by done. rewrite Hx. cbn. apply prefix_cons. destruct o.
    + destruct (next_queue q) as [q'|] eqn:En; cbn in IH; [by apply next_queue_some in En as [-> _]|].
      by apply prefix_nil_inv in IH as ->; apply prefix_nil.
    + cbn in IH. by apply prefix_nil_inv in IH as ->; apply prefix_nil.
  - by rewrite decide_False by congruence.
Qed.

(** The transactions of a queue up to the first that cannot pay. *)
Fixpoint payable (q : list Transaction) : list Transaction :=
  match q with
  | x :: q' => if affordable x then x :: payable q' else []
  | [] => []
  end.

Definition total (Q : gmap Z (list Transaction)) : nat := sum_list_with (fun e => length e.2) (map_to_list Q).

Lemma total_delete Q a q : Q !! a = Some q → total Q = (length q + total (delete a Q))%nat.
Proof. intros Hq. unfold total. rewrite <- (map_to_list_delete Q a q Hq). done. Qed.

Lemma total_next o x q Q : Q !! sender x = Some (x :: q) → (total (abs_next o x q Q) < total Q)%nat.
Proof.
  intros Hx. rewrite (total_delete Q _ _ Hx). cbn. destruct o; cbn; [|lia].
  destruct (next_queue q) as [q'|] eqn:En; cbn; [|lia]. apply next_queue_some in En as [-> _].
  rewrite (total_delete (<[sender x := q]> Q) (sender x) q) by (by rewrite lookup_insert_eq).
  rewrite delete_insert_eq. lia.
Qed.

(** The queues hold no more than the set. *)
Lemma total_queues t : set_ok t → (total (queues t) ≤ length (t_heads t) + total (t_txs t))%nat.
Proof.
  intros [_ _ Hd _]. unfold total at 1, queues. rewrite map_to_list_to_map by (by rewrite queue_keys).
  unfold queue. generalize (t_txs t). induction (t_heads t) as [|w hs IH]; intros m; cbn; [lia|].
  cbn in Hd. apply NoDup_cons in Hd as [Hn Hd].
  assert (Hrest : sum_list_with (fun e : Z * list Transaction => length e.2)
      ((fun w => (sender (w_tx w), w_tx w :: default [] (m !! sender (w_tx w)))) <$> hs) =
    sum_list_with (fun e : Z * list Transaction => length e.2)
      ((fun v => (sender (w_tx v), w_tx v :: default [] (delete (sender (w_tx w)) m !! sender (w_tx v)))) <$> hs)).
  { f_equal. apply list_fmap_ext. intros i v Hv. rewrite lookup_delete_ne; [done|]. intros E. apply Hn. rewrite E.
    apply list_elem_of_fmap. exists v. split; [done|by eapply list_elem_of_lookup_2]. }
  rewrite Hrest. specialize (IH Hd (delete (sender (w_tx w)) m)).
  destruct (m !! sender (w_tx w)) as [q|] eqn:Eq; cbn in *.
  - rewrite (total_delete m _ _ Eq). lia.
  - rewrite delete_id in IH |- * by done. lia.
Qed.

Lemma drain Q ops out Q' : picks Q ops out Q' → queues_ok Q → Forall (.= OShift) ops → (total Q ≤ length ops)%nat →
  Q' = ∅ ∧ ∀ a, filter (fun x => sender x = a) out = payable (default [] (Q !! a)).
Proof.
  induction 1 as [Q|ops|Q o ops x q out Q' Hx Ha Hb Hp IH]; intros Hok Hops Hl.
  - assert (Q = ∅) as ->; [|by split; [|intros; rewrite lookup_empty]].
    apply map_empty. intros a. destruct (Q !! a) as [q|] eqn:Eq; [|done]. exfalso.
    destruct (Hok a q Eq) as [_ Hn]. destruct q; [done|]. rewrite (total_delete Q a _ Eq) in Hl. cbn in Hl. lia.
  - split; [done|]. intros a. by rewrite lookup_empty.
  - apply Forall_cons in Hops as [-> Hops]. pose proof (total_next OShift x q Q Hx). cbn in Hl.
    destruct (IH (abs_next_ok _ _ _ _ Hok Hx) Hops ltac:(lia)) as [HQ' Hout]. split; [done|]. intros a.
    specialize (Hout a). rewrite abs_next_lookup in Hout. rewrite filter_cons.
    destruct (decide (a = sender x)) as [->|Hne].
    + rewrite decide_True by done. rewrite Hx, Hout. cbn. rewrite Ha. f_equal.
      destruct q as [|y q]; [done|]. cbn. by destruct (affordable y) eqn:Ey; cbn; rewrite ?Ey.
    + by rewrite decide_False by congruence.
Qed.

Lemma start_ok txs range : input_ok txs range → queues_ok (map_imap start_queue txs).
Proof.
  intros [_ _ Hs] a q. rewrite map_lookup_imap. destruct (txs !! a) as [l|] eqn:El; [|done]. cbn.
  destruct l as [|x l]; [done|]. cbn. case_if; [|done]. zbool. intros [= <-]. split; [|cbn; by rewrite H0].
  apply Forall_forall. intros y Hy. rewrite <- H. apply (Hs _ _ El); [done|by left].
Qed.

Lemma start_lookup txs a : default [] (map_imap start_queue txs !! a) = default [] (txs !! a ≫= start_queue a).
Proof. by rewrite map_lookup_imap. Qed.

(** ** Properties *)

(** C8. The heap-based set implements the specification by queues: built from
    the pending transactions of the accounts, in whatever order the map is
    ranged over, it never panics; at every step it offers the head of a queue
    that pays the base fee and that no other head betters (by effective tip,
    then by arrival), whatever mix of [Shift] and [Pop] the client performs,
    and the transactions offered of one account are a prefix of its list, in
    the list's order. *)
Theorem TransactionsByPriceAndNonce_refines (txs : gmap Z (list Transaction)) (range : list (Z * list Transaction)) (ops : list op) :
  input_ok txs range →
  ∃ t out t', NewTransactionsByPriceAndNonce txs range = Ok t ∧ run ops t = Ok (out, t') ∧
    picks (map_imap start_queue txs) ops out (queues t') ∧
    ∀ a, filter (fun x => sender x = a) out `prefix_of` default [] (txs !! a).
Proof.
  intros Hin. destruct (New_ok txs range Hin) as (t & En & Hok & Eq). destruct (run_picks ops t Hok) as (out & t' & Er & _ & Hp).
  exists t, out, t'. rewrite Eq in Hp. split_and!; try done. intros a.
  etrans; [by eapply picks_prefix, start_ok|]. rewrite start_lookup. destruct (txs !! a) as [[|x l]|]; cbn; [done| |done].
  case_if; [done|apply prefix_nil].
Qed.

(** Draining the set with [Shift] terminates with the set empty after at
    most as many steps as there are transactions, and offers of every account
    stored under its own address exactly its transactions up to the first
    that cannot pay the base fee. *)
Theorem TransactionsByPriceAndNonce_drain (txs : gmap Z (list Transaction)) (range : list (Z * list Transaction)) (n : nat) :
  input_ok txs range → (total (map_imap start_queue txs) ≤ n)%nat →
  ∃ t out t', NewTransactionsByPriceAndNonce txs range = Ok t ∧ run (replicate n OShift) t = Ok (out, t') ∧ Peek t' = None ∧
    ∀ a, filter (fun x => sender x = a) out = payable (default [] (txs !! a ≫= start_queue a)).
Proof.
  intros Hin Hn. destruct (New_ok txs range Hin) as (t & En & Hok & Eq).
  destruct (run_picks (replicate n OShift) t Hok) as (out & t' & Er & Hok' & Hp). rewrite Eq in Hp.
  destruct (drain _ _ _ _ Hp (start_ok txs range Hin)) as [HQ Hout]; [by apply Forall_replicate|by rewrite length_replicate|].
  exists t, out, t'. split_and!; try done.
  - pose proof (Peek_ok t' Hok') as Hpk. destruct (Peek t') as [x|]; [|done]. destruct Hpk as (_ & (q & Hq & _) & _).
    by rewrite HQ in Hq.
  - intros a. by rewrite Hout, start_lookup.
Qed.
End Ordering.

(** ** Witnesses: two accounts, one of them with a transaction that cannot pay *)

Definition toy_tx (from n tip cap time : Z) : Transaction :=
  mkTransaction (DynamicFeeTx 1 n tip cap 21000 (Some 0) from [] [] (mkSig 0 1 1)) time.
Definition toy_from (tx : Transaction) : Z := tx_value (inner tx).
Definition toy_pending : gmap Z (list Transaction) :=
  {[ 7 := [toy_tx 7 0 2 100 5; toy_tx 7 1 9 100 6; toy_tx 7 2 9 3 7]; 8 := [toy_tx 8 4 5 100 1] ]}.

Lemma toy_input_ok : input_ok toy_from toy_pending (map_to_list toy_pending).
Proof.
  split; [done| |].
  - intros a. unfold toy_pending. rewrite lookup_insert_Some, lookup_singleton_Some. intros [[_ H]|[_ [_ H]]]; done.
  - intros a l. unfold toy_pending. rewrite lookup_insert_Some, lookup_singleton_Some. intros [[_ <-]|[_ [_ <-]]];
      intros x y; rewrite !elem_of_cons, !elem_of_nil; intros; naive_solver.
Qed.

Lemma TransactionsByPriceAndNonce_refines_witness :
  ∃ t out t', NewTransactionsByPriceAndNonce toy_from (Some 10) toy_pending (map_to_list toy_pending) = Ok t ∧
    run toy_from (Some 10) [OShift; OPop; OShift] t = Ok (out, t') ∧
    filter (fun x => toy_from x = 7) out `prefix_of` default [] (toy_pending !! 7).
Proof.
  destruct (TransactionsByPriceAndNonce_refines toy_from (Some 10) toy_pending (map_to_list toy_pending) [OShift; OPop; OShift] toy_input_ok)
    as (t & out & t' & H1 & H2 & _ & H3).
  exists t, out, t'. split; [exact H1|]. split; [exact H2|exact (H3 7)].
Defined.

Lemma TransactionsByPriceAndNonce_drain_witness :
  ∃ t out t', NewTransactionsByPriceAndNonce toy_from (Some 10) toy_pending (map_to_list toy_pending) = Ok t ∧
    run toy_from (Some 10) (replicate 4 OShift) t = Ok (out, t') ∧
    filter (fun x => toy_from x = 7) out = [toy_tx 7 0 2 100 5; toy_tx 7 1 9 100 6].
Proof.
  destruct (TransactionsByPriceAndNonce_drain toy_from (Some 10) toy_pending (map_to_list toy_pending) 4 toy_input_ok)
    as (t & out & t' & H1 & H2 & _ & H3); [vm_compute; lia|].
  exists t, out, t'. split; [exact H1|]. split; [exact H2|]. rewrite (H3 7). reflexivity.
Defined.
