(* ===== verification/Clique.v ===== *)
(** Authorization voting of the Clique proof-of-authority engine:
    [src/go-ethereum/consensus/clique/snapshot.go], and from clique.go in the
    same directory the protocol constants, the seal hash and signer recovery.

    Addresses and hashes are numbers.  The signature cache is shared by all
    snapshots and threaded as state; it is any implementation of [CacheLaws].
    Keccak-256 and [crypto.Ecrecover] (secp256k1) are parameters. *)

From S2P Require Import Prelude Lru RLP Types Config Fees.

(** ** Constants and errors *)

Definition checkpointInterval : Z := 1024.
Definition inmemorySnapshots : Z := 128.
Definition inmemorySignatures : Z := 4096.
Definition epochLength : Z := 30000.
Definition extraVanity : Z := 32.
Definition extraSeal : Z := 65.
Definition nonceAuthVote : bytes := be_bytes 8 0xffffffffffffffff.
Definition nonceDropVote : bytes := be_bytes 8 0.
Definition diffInTurn : Z := 2.
Definition diffNoTurn : Z := 1.
Definition AddressLength : Z := 20.

Inductive cliqueError :=
| errUnknownBlock | errInvalidCheckpointBeneficiary | errInvalidVote | errInvalidCheckpointVote
| errMissingVanity | errMissingSignature | errExtraSigners | errInvalidCheckpointSigners
| errMismatchingCheckpointSigners | errInvalidMixDigest | errInvalidUncleHash | errInvalidDifficulty
| errWrongDifficulty | errInvalidTimestamp | errInvalidVotingChain | errUnauthorizedSigner
| errRecentlySigned
(** Errors of other packages and unnamed errors of this one. *)
| ErrFutureBlock | ErrUnknownAncestor
| errGasLimitTooHigh | errShanghai | errCancun | errGasUsed | errBaseFeeBeforeFork
| errFee (e : feeError)
| errCrypto | errDatabase | errSigner
| errOutOfFuel
| errUncles | errWithdrawals | errSealingPaused | errSignedRecently.

Definition map_err {E E' A} (f : E → E') (m : outcome E A) : outcome E' A :=
  match m with Ok a => Ok a | Err e => Err (f e) | Panic => Panic end.

(** ** Seal hash *)

Section Seal.
Context (keccak : bytes → Z).
Context (Ecrecover : bytes → bytes → outcome cliqueError bytes).

(** The list [encodeSigHeader] encodes: the header without the last 65 bytes
    of its extra data. *)
Definition sigHeader (header : Header) : outcome cliqueError value :=
  extra ← slice (Extra header) 0 (zlen (Extra header) - extraSeal);
  let field v := VInterface (Some v) in
  let enc := [field (VByteArray (be_bytes 32 (ParentHash header)));
              field (VByteArray (be_bytes 32 (UncleHash header)));
              field (VByteArray (be_bytes 20 (Coinbase header)));
              field (VByteArray (be_bytes 32 (Root header)));
              field (VByteArray (be_bytes 32 (TxHash header)));
              field (VByteArray (be_bytes 32 (ReceiptHash header)));
              field (VByteArray (be_bytes 256 (Bloom header)));
              field (VBigInt (Difficulty header));
              field (VBigInt (Number header));
              field (VUint (GasLimit header));
              field (VUint (GasUsed header));
              field (VUint (Time header));
              field (VBytes (Some extra));
              field (VByteArray (be_bytes 32 (MixDigest header)));
              field (VByteArray (be_bytes 8 (Nonce header)))] in
  let enc := match BaseFee header with
             | Some fee => enc ++ [field (VBigInt (Some fee))]
             | None => enc
             end in
  match WithdrawalsHash header with
  | Some _ => Panic
  | None => Ok (VSlice (Some enc))
  end.

(** What [encodeSigHeader] writes; an encoding error panics. *)
Definition CliqueRLP (header : Header) : outcome cliqueError bytes :=
  v ← sigHeader header;
  match Encode append_writer [] v with
  | (b, Ok tt) => Ok b
  | _ => Panic
  end.

Definition SealHash (header : Header) : outcome cliqueError Z := keccak <$> CliqueRLP header.

(** The part of [ecrecover] after the cache lookup: the address is the last
    20 bytes of the hash of the public key without its first byte. *)
Definition recover (header : Header) : outcome cliqueError Z :=
  _ ← guard_err (zlen (Extra header) <? extraSeal) errMissingSignature;
  signature ← slice (Extra header) (zlen (Extra header) - extraSeal) (zlen (Extra header));
  h ← SealHash header;
  pubkey ← Ecrecover (be_bytes 32 h) signature;
  key ← slice pubkey 1 (zlen pubkey);
  Ok (be_value (drop 12 (be_bytes 32 (keccak key)))).

Context {SC : Type} `{!CacheLaws SC Z Z}.

Definition sig_get (k : Z) : stm SC cliqueError (option Z) := fun c =>
  match cache_get k c with Ok (o, c') => (Ok o, c') | Err e => (Err e, c) | Panic => (Panic, c) end.
Definition sig_add (k x : Z) : stm SC cliqueError unit := fun c =>
  match cache_add k x c with Ok c' => (Ok tt, c') | Err e => (Err e, c) | Panic => (Panic, c) end.

Definition ecrecover (header : Header) : stm SC cliqueError Z :=
  let hash := Header_Hash keccak header in
  known ← sig_get hash;
  match known with
  | Some address => mret address
  | None => signer ← pure_out (recover header); _ ← sig_add hash signer; mret signer
  end.
End Seal.

(** ** Snapshots *)

Record Vote := mkVote { v_Signer : Z; v_Block : Z; v_Address : Z; v_Authorize : bool }.
Record Tally := mkTally { t_Authorize : bool; t_Votes : Z }.

(** [sigcache] is the threaded state; [config] contributes [Epoch]. *)
Record Snapshot := mkSnapshot {
  sn_config : CliqueConfig;
  sn_Number : Z;
  sn_Hash : Z;
  Signers : gset Z;
  Recents : gmap Z Z;
  Votes : list Vote;
  Tallies : gmap Z Tally
}.

#[global] Instance Vote_eq_dec : EqDecision Vote.
Proof. solve_decision. Defined.
#[global] Instance Tally_eq_dec : EqDecision Tally.
Proof. solve_decision. Defined.
#[global] Instance CliqueConfig_eq_dec : EqDecision CliqueConfig.
Proof. solve_decision. Defined.
#[global] Instance Snapshot_eq_dec : EqDecision Snapshot.
Proof. solve_decision. Defined.

Definition set_Signers (x : gset Z) (s : Snapshot) : Snapshot :=
  mkSnapshot (sn_config s) (sn_Number s) (sn_Hash s) x (Recents s) (Votes s) (Tallies s).
Definition set_Recents (x : gmap Z Z) (s : Snapshot) : Snapshot :=
  mkSnapshot (sn_config s) (sn_Number s) (sn_Hash s) (Signers s) x (Votes s) (Tallies s).
Definition set_Votes (x : list Vote) (s : Snapshot) : Snapshot :=
  mkSnapshot (sn_config s) (sn_Number s) (sn_Hash s) (Signers s) (Recents s) x (Tallies s).
Definition set_Tally (x : gmap Z Tally) (s : Snapshot) : Snapshot :=
  mkSnapshot (sn_config s) (sn_Number s) (sn_Hash s) (Signers s) (Recents s) (Votes s) x.

Definition newSnapshot (config : CliqueConfig) (number hash : Z) (signers : list Z) : Snapshot :=
  mkSnapshot config number hash (foldl (fun m signer => {[signer]} ∪ m) ∅ signers) ∅ [] ∅.

(** [copy] rebuilds the maps entry by entry; votes are shared but never
    written to. *)
Definition copy (s : Snapshot) : Snapshot :=
  mkSnapshot (sn_config s) (sn_Number s) (sn_Hash s)
    (set_fold (fun signer m => {[signer]} ∪ m) ∅ (Signers s))
    (map_fold (fun block signer m => <[block := signer]> m) ∅ (Recents s))
    (Votes s)
    (map_fold (fun address tally m => <[address := tally]> m) ∅ (Tallies s)).

Definition validVote (s : Snapshot) (address : Z) (authorize : bool) : bool :=
  let signer := bool_decide (address ∈ Signers s) in
  (signer && negb authorize) || (negb signer && authorize).

Definition cast (s : Snapshot) (address : Z) (authorize : bool) : bool * Snapshot :=
  if negb (validVote s address authorize) then (false, s)
  else match Tallies s !! address with
       | Some old => (true, set_Tally (<[address := mkTally (t_Authorize old) (t_Votes old + 1)]> (Tallies s)) s)
       | None => (true, set_Tally (<[address := mkTally authorize 1]> (Tallies s)) s)
       end.

Definition uncast (s : Snapshot) (address : Z) (authorize : bool) : bool * Snapshot :=
  match Tallies s !! address with
  | None => (false, s)
  | Some tally =>
      if negb (eqb (t_Authorize tally) authorize) then (false, s)
      else if 1 <? t_Votes tally
           then (true, set_Tally (<[address := mkTally (t_Authorize tally) (t_Votes tally - 1)]> (Tallies s)) s)
           else (true, set_Tally (delete address (Tallies s)) s)
  end.

(** [uint64(len(snap.Signers)/2 + 1)]; a length is a non-negative [int], so the
    conversion is exact. *)
Definition signer_limit (s : Snapshot) : Z := Z.of_nat (base.size (Signers s)) / 2 + 1.

(** Remove the oldest signer from the recent list when the block number allows. *)
Definition expire_recent (number : Z) (s : Snapshot) : Snapshot :=
  let limit := signer_limit s in
  if limit <=? number then set_Recents (delete (number - limit) (Recents s)) s else s.

(** Remove the first vote of [signer] on [address], from the list and the
    tally. *)
Fixpoint first_vote (signer address : Z) (l : list Vote) : option (Vote * list Vote) :=
  match l with
  | [] => None
  | vote :: l' =>
      if (v_Signer vote =? signer) && (v_Address vote =? address) then Some (vote, l')
      else match first_vote signer address l' with
           | Some (x, r) => Some (x, vote :: r)
           | None => None
           end
  end.
Definition discard_vote (signer address : Z) (s : Snapshot) : Snapshot :=
  match first_vote signer address (Votes s) with
  | Some (vote, rest) => set_Votes rest (uncast s (v_Address vote) (v_Authorize vote)).2
  | None => s
  end.

(** The loop that discards the votes [who] cast: [i] runs over [todo], the
    votes before it are [kept]. *)
Fixpoint discard_cast_by (who : Z) (kept todo : list Vote) (s : Snapshot) : Snapshot :=
  match todo with
  | [] => set_Votes kept s
  | vote :: todo' =>
      if v_Signer vote =? who
      then discard_cast_by who kept todo' (uncast s (v_Address vote) (v_Authorize vote)).2
      else discard_cast_by who (kept ++ [vote]) todo' s
  end.

(** The loop that discards the votes on [address]. *)
Fixpoint votes_not_on (address : Z) (l : list Vote) : list Vote :=
  match l with
  | [] => []
  | vote :: l' => if v_Address vote =? address then votes_not_on address l' else vote :: votes_not_on address l'
  end.

(** The end of an iteration: if the vote passed, update the signers. *)
Definition pass_vote (number coinbase : Z) (s : Snapshot) : Snapshot :=
  let tally := default (mkTally false 0) (Tallies s !! coinbase) in
  if Z.of_nat (base.size (Signers s)) / 2 <? t_Votes tally then
    let s :=
      if t_Authorize tally then set_Signers ({[coinbase]} ∪ Signers s) s
      else
        let s := set_Signers (Signers s ∖ {[coinbase]}) s in
        let s := expire_recent number s in
        discard_cast_by coinbase [] (Votes s) s in
    let s := set_Votes (votes_not_on coinbase (Votes s)) s in
    set_Tally (delete coinbase (Tallies s)) s
  else s.

(** Drop all votes at a checkpoint. *)
Definition reset_votes (s : Snapshot) : Snapshot := set_Tally ∅ (set_Votes [] s).

(** Cast the header's vote and, if it counts, record it. *)
Definition record_vote (signer number coinbase : Z) (authorize : bool) (s : Snapshot) : Snapshot :=
  let '(counted, s) := cast s coinbase authorize in
  if counted then set_Votes (Votes s ++ [mkVote signer number coinbase authorize]) s else s.

(** The vote a nonce spells. *)
Definition nonce_vote (nonce : Z) : outcome cliqueError bool :=
  if bool_decide (be_bytes 8 nonce = nonceAuthVote) then Ok true
  else if bool_decide (be_bytes 8 nonce = nonceDropVote) then Ok false
  else Err errInvalidVote.

(** One iteration of [apply]'s loop, given the recovered signer. *)
Definition apply_header (snap : Snapshot) (header : Header) (rec : outcome cliqueError Z)
    : outcome cliqueError Snapshot :=
  number ← Number_Uint64 header;
  atEpoch ← umod number (Epoch (sn_config snap));
  let snap := if atEpoch =? 0 then reset_votes snap else snap in
  let snap := expire_recent number snap in
  signer ← rec;
  _ ← guard_err (negb (bool_decide (signer ∈ Signers snap))) errUnauthorizedSigner;
  _ ← guard_err (existsb (fun e => e.2 =? signer) (map_to_list (Recents snap))) errRecentlySigned;
  let snap := set_Recents (<[number := signer]> (Recents snap)) snap in
  let snap := discard_vote signer (Coinbase header) snap in
  authorize ← nonce_vote (Nonce header);
  let snap := record_vote signer number (Coinbase header) authorize snap in
  Ok (pass_vote number (Coinbase header) snap).

(** The contiguity check of [apply]. *)
Fixpoint contiguous (headers : list Header) : outcome cliqueError unit :=
  match headers with
  | a :: ((b :: _) as t) =>
      nb ← Number_Uint64 b;
      na ← Number_Uint64 a;
      _ ← guard_err (negb (nb =? u64 (na + 1))) errInvalidVotingChain;
      contiguous t
  | _ => Ok tt
  end.

Section Apply.
Context (keccak : bytes → Z).
Context (Ecrecover : bytes → bytes → outcome cliqueError bytes).
Context {SC : Type} `{!CacheLaws SC Z Z}.

Fixpoint apply_loop (snap : Snapshot) (headers : list Header) : stm SC cliqueError Snapshot :=
  match headers with
  | [] => mret snap
  | header :: headers' => fun c =>
      let '(rec, c) := ecrecover keccak Ecrecover header c in
      match apply_header snap header rec with
      | Ok snap => apply_loop snap headers' c
      | Err e => (Err e, c)
      | Panic => (Panic, c)
      end
  end.

Definition apply (s : Snapshot) (headers : list Header) : stm SC cliqueError Snapshot :=
  match headers with
  | [] => mret s
  | first :: _ =>
      _ ← pure_out (contiguous headers);
      n ← pure_out (Number_Uint64 first);
      _ ← pure_out (guard_err (negb (n =? u64 (sn_Number s + 1))) errInvalidVotingChain);
      snap ← apply_loop (copy s) headers;
      mret (mkSnapshot (sn_config snap) (u64 (sn_Number snap + zlen headers))
              (Header_Hash keccak (List.last headers first))
              (Signers snap) (Recents snap) (Votes snap) (Tallies snap))
  end.
End Apply.

(** [sort.Sort] with [signersAscending]: the order of the address bytes. *)
Definition addr_le (a b : Z) : Prop := bytes_Compare (be_bytes 20 a) (be_bytes 20 b) ≠ Gt.
#[global] Instance addr_le_dec : RelDecision addr_le.
Proof. intros a b. unfold addr_le. apply _. Defined.

Definition signers (s : Snapshot) : list Z := merge_sort addr_le (elements (Signers s)).

Fixpoint offset_of (signer : Z) (l : list Z) : Z :=
  match l with
  | [] => 0
  | a :: l' => if a =? signer then 0 else offset_of signer l' + 1
  end.

Definition inturn {E} (s : Snapshot) (number signer : Z) : outcome E bool :=
  let offset := offset_of signer (signers s) in
  m ← umod number (zlen (signers s));
  Ok (m =? offset).

(** ** Votes and tallies *)

(** Number of votes on an address. *)
Fixpoint count (a : Z) (l : list Vote) : Z :=
  match l with
  | [] => 0
  | vote :: l' => (if v_Address vote =? a then 1 else 0) + count a l'
  end.

(** The tally a vote list calls for, when votes on [x] all say [g x]. *)
Definition tally_of (g : Z → bool) (l : list Vote) (x : Z) : option Tally :=
  if count x l =? 0 then None else Some (mkTally (g x) (count x l)).

Definition tallies_ok (g : Z → bool) (l : list Vote) (T : gmap Z Tally) : Prop :=
  ∀ x, T !! x = tally_of g l x.

Lemma count_nonneg a l : 0 ≤ count a l.
Proof. induction l as [|v l IH]; cbn; [lia|]. case_if; lia. Qed.

Lemma count_app a l k : count a (l ++ k) = count a l + count a k.
Proof. induction l as [|v l IH]; cbn; lia. Qed.

#[global] Instance count_proper : Proper ((=) ==> (≡ₚ) ==> (=)) count.
Proof.
  intros a ? <- l k HP. induction HP; cbn; lia.
Qed.

Lemma tallies_ok_perm g l k T : l ≡ₚ k → tallies_ok g l T → tallies_ok g k T.
Proof. intros HP Ht x. rewrite (Ht x). unfold tally_of. by rewrite !HP. Qed.

Lemma validVote_iff s a b : validVote s a b = true ↔ b = negb (bool_decide (a ∈ Signers s)).
Proof. unfold validVote. destruct (bool_decide _), b; cbn; naive_solver. Qed.

(** [uncast] only touches the tally of one address. *)
Lemma uncast_frame s a b :
  let s' := (uncast s a b).2 in
  Signers s' = Signers s ∧ Recents s' = Recents s ∧ Votes s' = Votes s ∧ sn_Number s' = sn_Number s ∧
  sn_config s' = sn_config s.
Proof. cbn. unfold uncast. repeat (case_match || case_if); done. Qed.

Lemma uncast_ok g s l vote rest : tallies_ok g l (Tallies s) → l ≡ₚ vote :: rest →
  v_Authorize vote = g (v_Address vote) →
  tallies_ok g rest (Tallies (uncast s (v_Address vote) (v_Authorize vote)).2).
Proof.
  intros Ht HP Ha x. unfold uncast. rewrite (Ht (v_Address vote)). unfold tally_of.
  rewrite !HP. cbn [count]. rewrite Z.eqb_refl.
  pose proof (count_nonneg (v_Address vote) rest).
  rewrite (proj2 (Z.eqb_neq (1 + count (v_Address vote) rest) 0)) by lia. cbn [t_Authorize t_Votes].
  rewrite Ha, eqb_reflx. cbn [negb].
  assert (Hx : x ≠ v_Address vote → Tallies s !! x = tally_of g rest x).
  { intros Hne. rewrite (Ht x). unfold tally_of. rewrite !HP. cbn [count].
    by rewrite (proj2 (Z.eqb_neq (v_Address vote) x)) by congruence. }
  destruct (1 <? 1 + count (v_Address vote) rest) eqn:E1; zbool; cbn;
    destruct (decide (x = v_Address vote)) as [->|Hne].
  - rewrite lookup_insert_eq, (proj2 (Z.eqb_neq (count (v_Address vote) rest) 0)) by lia.
    do 2 f_equal. lia.
  - rewrite lookup_insert_ne by congruence. by apply Hx.
  - rewrite lookup_delete_eq. by rewrite (proj2 (Z.eqb_eq (count (v_Address vote) rest) 0)) by lia.
  - rewrite lookup_delete_ne by congruence. by apply Hx.
Qed.

Lemma cast_ok g s a b : tallies_ok g (Votes s) (Tallies s) → g a = negb (bool_decide (a ∈ Signers s)) →
  let '(counted, s') := cast s a b in
  counted = validVote s a b ∧
  Signers s' = Signers s ∧ Recents s' = Recents s ∧ Votes s' = Votes s ∧ sn_Number s' = sn_Number s ∧
  sn_config s' = sn_config s ∧
  (if counted then b = g a ∧ ∀ vote, v_Address vote = a → tallies_ok g (Votes s ++ [vote]) (Tallies s')
   else s' = s).
Proof.
  intros Ht Hg. unfold cast. destruct (validVote s a b) eqn:E; cbn [negb]; [|done].
  apply validVote_iff in E. rewrite <- Hg in E.
  assert (Hx : ∀ t, t = Some (mkTally (g a) (count a (Votes s) + 1)) →
    ∀ vote, v_Address vote = a → tallies_ok g (Votes s ++ [vote]) (<[a := mkTally (g a) (count a (Votes s) + 1)]> (Tallies s))).
  { intros _ _ vote <- x. unfold tally_of. rewrite count_app. cbn [count].
    pose proof (count_nonneg (v_Address vote) (Votes s)).
    destruct (decide (x = v_Address vote)) as [->|Hne].
    - rewrite lookup_insert_eq, Z.eqb_refl, (proj2 (Z.eqb_neq (count (v_Address vote) (Votes s) + (1 + 0)) 0)) by lia.
      do 2 f_equal.
    - rewrite lookup_insert_ne by congruence. rewrite (Ht x), (proj2 (Z.eqb_neq (v_Address vote) x)) by congruence.
      unfold tally_of. by rewrite !Z.add_0_r. }
  specialize (Hx _ eq_refl). pose proof (Ht a) as Ha. unfold tally_of in Ha.
  destruct (count a (Votes s) =? 0) eqn:E0; zbool; rewrite Ha; cbn; split_and!; try done.
  rewrite E0 in Hx. rewrite E. exact Hx.
Qed.

Lemma first_vote_some signer a l vote rest : first_vote signer a l = Some (vote, rest) →
  l ≡ₚ vote :: rest ∧ v_Signer vote = signer ∧ v_Address vote = a.
Proof.
  revert rest. induction l as [|x l IH]; cbn; [done|]. intros rest. case_if.
  - intros [= -> ->]. by zbool.
  - destruct (first_vote signer a l) as [[y r]|]; [|done]. intros [= <- <-].
    destruct (IH r eq_refl) as (HP & ? & ?). split; [|done]. rewrite HP. apply Permutation_swap.
Qed.

Lemma first_vote_none signer a l vote : first_vote signer a l = None → vote ∈ l →
  ¬ (v_Signer vote = signer ∧ v_Address vote = a).
Proof.
  induction l as [|x l IH]; cbn; [set_solver|]. case_if; [done|].
  destruct (first_vote signer a l) as [[]|]; [done|]. intros _ [->|Hin]%elem_of_cons [? ?]; [|by apply IH].
  apply andb_false_iff in Heqb as [?|?]; zbool; done.
Qed.

Lemma discard_cast_by_spec who g : ∀ todo kept s, tallies_ok g (kept ++ todo) (Tallies s) →
  (∀ vote, vote ∈ todo → v_Authorize vote = g (v_Address vote)) →
  let s' := discard_cast_by who kept todo s in
  tallies_ok g (Votes s') (Tallies s') ∧ Votes s' = kept ++ filter (fun x => v_Signer x ≠ who) todo ∧
  Signers s' = Signers s ∧ Recents s' = Recents s ∧ sn_Number s' = sn_Number s ∧ sn_config s' = sn_config s.
Proof.
  cbv zeta. induction todo as [|vote todo IH]; intros kept s Ht Ha; cbn [discard_cast_by].
  - rewrite app_nil_r in Ht. change (filter _ []) with (@nil Vote). rewrite app_nil_r. done.
  - destruct (v_Signer vote =? who) eqn:E; zbool.
    + rewrite filter_cons_False by (cbn; tauto).
      destruct (IH kept (uncast s (v_Address vote) (v_Authorize vote)).2) as (H1 & H2 & H3 & H4 & H5 & H6).
      * eapply uncast_ok; [done|by rewrite Permutation_middle|apply Ha; set_solver].
      * intros; apply Ha; set_solver.
      * destruct (uncast_frame s (v_Address vote) (v_Authorize vote)) as (E1 & E2 & _ & E3 & E4).
        rewrite E1 in H3. rewrite E2 in H4. rewrite E3 in H5. rewrite E4 in H6. done.
    + rewrite filter_cons_True by done.
      destruct (IH (kept ++ [vote]) s) as (H1 & H2 & H3 & H4 & H5 & H6).
      * by rewrite <- app_assoc.
      * intros; apply Ha; set_solver.
      * rewrite <- app_assoc in H2. done.
Qed.

Lemma votes_not_on_filter a l : votes_not_on a l = filter (fun x => v_Address x ≠ a) l.
Proof.
  induction l as [|x l IH]; [done|]. cbn [votes_not_on]. destruct (v_Address x =? a) eqn:E; zbool.
  - by rewrite filter_cons_False by (cbn; tauto).
  - rewrite filter_cons_True by done. by rewrite IH.
Qed.

Lemma count_not_on x a l : count x (votes_not_on a l) = if x =? a then 0 else count x l.
Proof.
  induction l as [|y l IH]; cbn [votes_not_on count]; [by case_if|].
  destruct (v_Address y =? a) eqn:E1; zbool.
  - rewrite IH. destruct (x =? a) eqn:E2; zbool; [done|].
    rewrite (proj2 (Z.eqb_neq (v_Address y) x)) by congruence. done.
  - cbn [count]. rewrite IH. destruct (x =? a) eqn:E2; zbool; [|done].
    by rewrite (proj2 (Z.eqb_neq (v_Address y) x)) by congruence.
Qed.

Lemma expire_recent_frame n s : let s' := expire_recent n s in
  Signers s' = Signers s ∧ Votes s' = Votes s ∧ Tallies s' = Tallies s ∧ sn_Number s' = sn_Number s ∧
  sn_config s' = sn_config s.
Proof. cbn. unfold expire_recent. case_if; done. Qed.

(** ** The voting invariant *)

(** What a vote on [a] must say to make sense: authorize exactly the accounts
    that are not signers. *)
Definition direction (S : gset Z) (a : Z) : bool := negb (bool_decide (a ∈ S)).

(** Every signer has at most one vote per account, only signers have votes,
    all votes make sense, and the tally counts them. *)
Record voting_ok (s : Snapshot) : Prop := {
  vo_nodup : NoDup ((fun x => (v_Signer x, v_Address x)) <$> Votes s);
  vo_signer : ∀ vote, vote ∈ Votes s → v_Signer vote ∈ Signers s;
  vo_valid : ∀ vote, vote ∈ Votes s → v_Authorize vote = direction (Signers s) (v_Address vote);
  vo_tally : tallies_ok (direction (Signers s)) (Votes s) (Tallies s)
}.

Lemma NoDup_fmap_filter {A B} (f : A → B) (P : A → Prop) `{!∀ x, Decision (P x)} (l : list A) :
  NoDup (f <$> l) → NoDup (f <$> filter P l).
Proof.
  intros Hn. eapply sublist_NoDup; [exact Hn|]. apply fmap_sublist, sublist_filter.
Qed.

(** Settling the account [a] either way keeps the invariant. *)
Lemma voting_ok_settle s a (S' : gset Z) l T :
  (∀ x, x ≠ a → (x ∈ S' ↔ x ∈ Signers s)) →
  NoDup ((fun x => (v_Signer x, v_Address x)) <$> l) →
  (∀ vote, vote ∈ l → v_Signer vote ∈ S') →
  (∀ vote, vote ∈ l → v_Authorize vote = direction (Signers s) (v_Address vote)) →
  tallies_ok (direction (Signers s)) l T →
  ∀ s', Signers s' = S' → Votes s' = votes_not_on a l → Tallies s' = delete a T → voting_ok s'.
Proof.
  intros HS Hn Hsg Hv Ht s' E1 E2 E3.
  assert (Hd : ∀ x, x ≠ a → direction S' x = direction (Signers s) x).
  { intros x Hx. unfold direction. f_equal. apply bool_decide_ext. by apply HS. }
  split; rewrite ?E1, ?E2, ?E3, ?votes_not_on_filter.
  - by apply NoDup_fmap_filter.
  - intros vote [_ Hin]%list_elem_of_filter. by apply Hsg.
  - intros vote [Hne Hin]%list_elem_of_filter. rewrite Hd by done. by apply Hv.
  - intros x. unfold tally_of. rewrite <- votes_not_on_filter, count_not_on. destruct (x =? a) eqn:E; zbool.
    + subst. by rewrite lookup_delete_eq.
    + rewrite lookup_delete_ne by congruence. rewrite (Ht x). unfold tally_of. by rewrite Hd.
Qed.

Lemma pass_vote_ok n a s : voting_ok s → voting_ok (pass_vote n a s).
Proof.
  intros Hok. destruct Hok as [Hn Hs Hv Ht]. unfold pass_vote. case_if; [|done].
  destruct (Tallies s !! a) as [t|] eqn:Et; cbn [default from_option id t_Votes t_Authorize] in *.
  2:{ pose proof (Z.div_pos (Z.of_nat (base.size (Signers s))) 2). lia. }
  destruct (t_Authorize t).
  - eapply (voting_ok_settle s a ({[a]} ∪ Signers s) (Votes s) (Tallies s)); try done; set_solver.
  - set (s1 := expire_recent n (set_Signers (Signers s ∖ {[a]}) s)).
    destruct (expire_recent_frame n (set_Signers (Signers s ∖ {[a]}) s)) as (F1 & F2 & F3 & _). fold s1 in F1, F2, F3.
    cbn [Signers Votes Tallies set_Signers] in F1, F2, F3.
    destruct (discard_cast_by_spec a (direction (Signers s)) (Votes s1) [] s1) as (D1 & D2 & D3 & _).
    { cbn. by rewrite F2, F3. }
    { rewrite F2. exact Hv. }
    rewrite app_nil_l in D2. rewrite F1 in D3.
    eapply (voting_ok_settle s a (Signers s ∖ {[a]}) (Votes (discard_cast_by a [] (Votes s1) s1))); try exact D1; try done.
    + set_solver.
    + rewrite D2, F2. by apply NoDup_fmap_filter.
    + intros vote. rewrite D2, F2. intros [? Hin]%list_elem_of_filter. specialize (Hs vote Hin). set_solver.
    + intros vote. rewrite D2, F2. intros [? Hin]%list_elem_of_filter. by apply Hv.
Qed.

Lemma discard_vote_ok signer a s : voting_ok s →
  let s' := discard_vote signer a s in
  voting_ok s' ∧ Signers s' = Signers s ∧ Recents s' = Recents s ∧ sn_Number s' = sn_Number s ∧
  sn_config s' = sn_config s ∧
  (∀ vote, vote ∈ Votes s' → vote ∈ Votes s ∧ ¬ (v_Signer vote = signer ∧ v_Address vote = a)).
Proof.
  cbv zeta. intros Hok. unfold discard_vote. destruct (first_vote signer a (Votes s)) as [[vote rest]|] eqn:E.
  2:{ split_and!; try done. intros vote Hin. split; [done|]. by eapply first_vote_none. }
  apply first_vote_some in E as (HP & Hsg & Ha).
  destruct Hok as [Hn Hs Hv Ht].
  destruct (uncast_frame s (v_Address vote) (v_Authorize vote)) as (F1 & F2 & _ & F4 & F5).
  cbn [set_Votes Signers Recents Votes Tallies sn_Number sn_config] in *.
  assert (Hn2 : NoDup ((fun x => (v_Signer x, v_Address x)) <$> vote :: rest)) by by rewrite <- HP.
  rewrite fmap_cons, NoDup_cons in Hn2. destruct Hn2 as [Hni Hn2].
  split_and!; try done.
  - split; cbn [set_Votes Signers Votes Tallies].
    + done.
    + intros x Hx. rewrite F1. apply Hs. rewrite HP. set_solver.
    + intros x Hx. rewrite F1. apply Hv. rewrite HP. set_solver.
    + rewrite F1. eapply uncast_ok; [exact Ht|exact HP|]. apply Hv. rewrite HP. set_solver.
  - intros x Hx. split; [rewrite HP; set_solver|]. intros [E1 E2]. apply Hni.
    apply list_elem_of_fmap. exists x. split; [congruence|done].
Qed.

Lemma reset_votes_ok s : voting_ok (reset_votes s).
Proof. split; cbn; [constructor|set_solver|set_solver|]. intros x. by rewrite lookup_empty. Qed.

Lemma voting_ok_ext s s' : Signers s' = Signers s → Votes s' = Votes s → Tallies s' = Tallies s →
  voting_ok s → voting_ok s'.
Proof. intros E1 E2 E3 [H1 H2 H3 H4]. split; rewrite ?E1, ?E2, ?E3; done. Qed.

Lemma record_vote_ok signer n a b s : voting_ok s → signer ∈ Signers s →
  (∀ vote, vote ∈ Votes s → ¬ (v_Signer vote = signer ∧ v_Address vote = a)) →
  let s' := record_vote signer n a b s in
  voting_ok s' ∧ Signers s' = Signers s ∧ Recents s' = Recents s ∧ sn_Number s' = sn_Number s ∧
  sn_config s' = sn_config s ∧
  (∀ vote, vote ∈ Votes s' → vote ∈ Votes s ∨ vote = mkVote signer n a b ∧ b = direction (Signers s) a).
Proof.
  cbv zeta. intros Hok Hs Hnew. destruct Hok as [Hn Hsg Hv Ht]. unfold record_vote.
  pose proof (cast_ok (direction (Signers s)) s a b Ht eq_refl) as Hc.
  destruct (cast s a b) as [counted s1]. destruct Hc as (_ & F1 & F2 & F3 & F4 & F5 & Hc).
  destruct counted; [destruct Hc as [Hb Hc]|subst s1; split_and!; [by split|..]; try done; auto].
  cbn [set_Votes Signers Recents Votes sn_Number sn_config Tallies]. rewrite F3.
  split_and!; try done.
  - split; cbn [set_Votes Signers Votes Tallies]; rewrite ?F1, ?F3.
    + rewrite fmap_app. apply NoDup_app. split_and!; [done| |apply NoDup_singleton].
      intros x [y [-> Hy]]%list_elem_of_fmap Hx. apply list_elem_of_singleton in Hx. cbn in Hx.
      apply (Hnew y Hy). by simplify_eq.
    + intros x [Hx|Hx]%elem_of_app; [by apply Hsg|]. apply list_elem_of_singleton in Hx as ->. done.
    + intros x [Hx|Hx]%elem_of_app; [by apply Hv|]. apply list_elem_of_singleton in Hx as ->. done.
    + by apply Hc.
  - intros x [Hx|Hx]%elem_of_app; [by left|]. apply list_elem_of_singleton in Hx as ->. by right.
Qed.

(** A successful iteration, step by step. *)
Lemma apply_header_steps snap header rec snap' : apply_header snap header rec = Ok snap' →
  ∃ number signer authorize,
    Number_Uint64 header = (Ok number : outcome cliqueError Z) ∧ rec = Ok signer ∧
    nonce_vote (Nonce header) = Ok authorize ∧ signer ∈ Signers snap ∧
    let s0 := expire_recent number (if number mod Epoch (sn_config snap) =? 0 then reset_votes snap else snap) in
    (∀ k, Recents s0 !! k ≠ Some signer) ∧
    snap' = pass_vote number (Coinbase header)
      (record_vote signer number (Coinbase header) authorize
        (discard_vote signer (Coinbase header) (set_Recents (<[number := signer]> (Recents s0)) s0))).
Proof.
  unfold apply_header. intros H. inv_bind. unfold umod in H0. case_if in H0; [done|]. simplify_eq.
  exists x, x1, x4. set (s0 := expire_recent x (if x mod _ =? 0 then reset_votes snap else snap)) in *.
  split_and!; try done.
  - destruct (expire_recent_frame x (if x mod Epoch (sn_config snap) =? 0 then reset_votes snap else snap)) as (F & _).
    fold s0 in F. rewrite F in H2. by case_if in H2.
  - intros k Hk. enough (existsb (λ e : Z * Z, e.2 =? x1) (map_to_list (Recents s0)) = true) by congruence.
    apply existsb_exists. exists (k, x1). split; [|apply Z.eqb_refl].
    by apply list_elem_of_In, elem_of_map_to_list.
Qed.

(** ** Preservation and majority *)

Lemma count_voters a l : NoDup ((fun x => (v_Signer x, v_Address x)) <$> l) →
  count a l = Z.of_nat (base.size (list_to_set (v_Signer <$> filter (fun x => v_Address x = a) l) : gset Z)).
Proof.
  intros Hn. rewrite size_list_to_set.
  - rewrite length_fmap. clear Hn. induction l as [|x l IH]; [done|]. cbn [count].
    destruct (v_Address x =? a) eqn:E; zbool.
    + rewrite filter_cons_True by done. cbn [length]. lia.
    + rewrite filter_cons_False by done. lia.
  - induction l as [|x l IH]; [constructor|]. rewrite fmap_cons, NoDup_cons in Hn. destruct Hn as [Hx Hn].
    destruct (decide (v_Address x = a)) as [E|E].
    + rewrite filter_cons_True by done. rewrite fmap_cons. apply NoDup_cons. split; [|by apply IH].
      intros (y & Ey & [Ha Hy]%list_elem_of_filter)%list_elem_of_fmap. apply Hx. apply list_elem_of_fmap.
      exists y. split; [congruence|done].
    + rewrite filter_cons_False by done. by apply IH.
Qed.

Lemma pass_vote_signers n a s : voting_ok s →
  Signers (pass_vote n a s) = Signers s ∨
  Z.of_nat (base.size (Signers s)) / 2 < count a (Votes s) ∧
  Signers (pass_vote n a s) =
    (if direction (Signers s) a then {[a]} ∪ Signers s else Signers s ∖ {[a]}).
Proof.
  intros [Hn Hs Hv Ht]. unfold pass_vote. case_if; [right|by left].
  rewrite (Ht a) in Heqb |- *. unfold tally_of in Heqb |- *.
  destruct (count a (Votes s) =? 0) eqn:E0; zbool; cbn [default from_option id t_Votes t_Authorize] in Heqb |- *.
  { pose proof (Z.div_pos (Z.of_nat (base.size (Signers s))) 2). lia. }
  split; [done|]. destruct (direction (Signers s) a); cbn [set_Tally set_Votes Signers]; [done|].
  set (s1 := expire_recent n (set_Signers (Signers s ∖ {[a]}) s)).
  destruct (expire_recent_frame n (set_Signers (Signers s ∖ {[a]}) s)) as (F1 & F2 & F3 & _). fold s1 in F1, F2, F3.
  cbn [Signers Votes Tallies set_Signers] in F1, F2, F3.
  destruct (discard_cast_by_spec a (direction (Signers s)) (Votes s1) [] s1) as (_ & _ & D3 & _); [|by rewrite F2|congruence].
  cbn. by rewrite F2, F3.
Qed.

Lemma apply_header_majority_aux snap header rec snap' :
  voting_ok snap → apply_header snap header rec = Ok snap' →
  voting_ok snap' ∧
  (Signers snap' = Signers snap ∨
   ∃ voters : gset Z, voters ⊆ Signers snap ∧
     Z.of_nat (base.size (Signers snap)) / 2 < Z.of_nat (base.size voters) ∧
     (∀ x, x ∈ voters → rec = Ok x ∨
        ∃ vote, vote ∈ Votes snap ∧ v_Signer vote = x ∧ v_Address vote = Coinbase header ∧
                v_Authorize vote = direction (Signers snap) (Coinbase header)) ∧
     Signers snap' = (if direction (Signers snap) (Coinbase header)
                      then {[Coinbase header]} ∪ Signers snap else Signers snap ∖ {[Coinbase header]})).
Proof.
  intros Hok (number & signer & authorize & _ & -> & _ & Hsg & _ & ->)%apply_header_steps.
  set (r := if number mod Epoch (sn_config snap) =? 0 then reset_votes snap else snap).
  assert (Hr : voting_ok r ∧ Signers r = Signers snap ∧ ∀ x, x ∈ Votes r → x ∈ Votes snap)
    by (unfold r; case_if; [split_and!; [apply reset_votes_ok|done|cbn; set_solver]|done]).
  destruct Hr as (Hr & Er & Vr).
  destruct (expire_recent_frame number r) as (F1 & F2 & F3 & _).
  set (s0 := expire_recent number r) in *.
  assert (H0 : voting_ok (set_Recents (<[number := signer]> (Recents s0)) s0)) by (by apply (voting_ok_ext r)).
  destruct (discard_vote_ok signer (Coinbase header) _ H0) as (H1 & G1 & _ & _ & _ & V1).
  set (s1 := discard_vote _ _ _) in *. cbn [Signers Votes set_Recents] in G1, V1.
  destruct (record_vote_ok signer number (Coinbase header) authorize s1 H1) as (H2 & G2 & _ & _ & _ & V2).
  { rewrite G1, F1, Er. done. }
  { intros x Hx. by apply V1. }
  set (s2 := record_vote _ _ _ _ _) in *.
  assert (ES : Signers s2 = Signers snap) by congruence.
  split; [by apply pass_vote_ok|]. destruct (pass_vote_signers number (Coinbase header) s2 H2) as [E|[Hc E]].
  { left. congruence. }
  right. rewrite ES in *. rewrite count_voters in Hc by apply (vo_nodup _ H2). eexists. split_and!; [|exact Hc| |exact E].
  - intros x (y & -> & [_ Hy]%list_elem_of_filter)%elem_of_list_to_set%list_elem_of_fmap.
    rewrite <- ES. by apply (vo_signer _ H2).
  - intros x (y & -> & [Ha Hy]%list_elem_of_filter)%elem_of_list_to_set%list_elem_of_fmap.
    destruct (V2 y Hy) as [Hy1|[-> _]]; [right|by left].
    exists y. split_and!; [|done|done|].
    + apply Vr. rewrite <- F2. by apply V1.
    + rewrite <- Ha, <- ES. by apply (vo_valid _ H2).
Qed.

(** ** Recent signers *)

(** After block [n]: the recent list holds blocks of the last
    [signer_limit - 1], each by a different signer. *)
Record recents_ok (n : Z) (s : Snapshot) : Prop := {
  ro_range : ∀ k a, Recents s !! k = Some a → 0 ≤ k ≤ n ∧ n < k + signer_limit s;
  ro_inj : ∀ k k' a, Recents s !! k = Some a → Recents s !! k' = Some a → k = k'
}.

Lemma signer_limit_pos s : 1 ≤ signer_limit s.
Proof. unfold signer_limit. pose proof (Z.div_pos (Z.of_nat (base.size (Signers s))) 2). lia. Qed.

Lemma discard_vote_frame signer a s : Signers (discard_vote signer a s) = Signers s ∧
  Recents (discard_vote signer a s) = Recents s.
Proof.
  unfold discard_vote. destruct (first_vote signer a (Votes s)) as [[vote rest]|]; [|done].
  destruct (uncast_frame s (v_Address vote) (v_Authorize vote)) as (? & ? & _). done.
Qed.

Lemma record_vote_frame signer n a b s : Signers (record_vote signer n a b s) = Signers s ∧
  Recents (record_vote signer n a b s) = Recents s.
Proof. unfold record_vote, cast. repeat (case_match || case_if); simplify_eq; done. Qed.

Lemma discard_cast_by_frame who todo : ∀ kept s,
  Signers (discard_cast_by who kept todo s) = Signers s ∧ Recents (discard_cast_by who kept todo s) = Recents s.
Proof.
  induction todo as [|vote todo IH]; intros kept s; cbn [discard_cast_by]; [done|]. case_if; [|apply IH].
  destruct (IH kept (uncast s (v_Address vote) (v_Authorize vote)).2) as [-> ->].
  destruct (uncast_frame s (v_Address vote) (v_Authorize vote)) as (-> & -> & _). done.
Qed.

Lemma signer_limit_ext s s' : Signers s' = Signers s → signer_limit s' = signer_limit s.
Proof. unfold signer_limit. by intros ->. Qed.

Lemma recents_ok_ext n s s' : Signers s' = Signers s → Recents s' = Recents s → recents_ok n s → recents_ok n s'.
Proof.
  intros E1 E2 [H1 H2]. split; rewrite E2; [|done]. intros. rewrite (signer_limit_ext s s') by done. by eapply H1.
Qed.

Lemma expire_recent_ok n s :
  (∀ k a, Recents s !! k = Some a → 0 ≤ k ≤ n ∧ n ≤ k + signer_limit s) →
  (∀ k k' a, Recents s !! k = Some a → Recents s !! k' = Some a → k = k') →
  recents_ok n (expire_recent n s).
Proof.
  intros H1 H2. unfold expire_recent. case_if.
  - split; cbn [set_Recents Recents].
    + intros k a [Hne Hk]%lookup_delete_Some. specialize (H1 k a Hk).
      change (signer_limit (set_Recents _ s)) with (signer_limit s). lia.
    + intros k k' a [_ Hk]%lookup_delete_Some [_ Hk']%lookup_delete_Some. by eapply H2.
  - split; [|done]. intros k a Hk. specialize (H1 k a Hk). lia.
Qed.

Lemma pass_vote_recents n a s : recents_ok n s → recents_ok n (pass_vote n a s).
Proof.
  intros [H1 H2]. unfold pass_vote. case_if; [|done].
  set (t := default (mkTally false 0) (Tallies s !! a)) in *.
  set (s' := if t_Authorize t then set_Signers ({[a]} ∪ Signers s) s else _).
  apply (recents_ok_ext n s'); [done|done|]. unfold s'. destruct (t_Authorize t).
  - split; cbn [set_Signers Recents]; [|done]. intros k x Hk. specialize (H1 k x Hk).
    enough (signer_limit s ≤ signer_limit (set_Signers ({[a]} ∪ Signers s) s)) by lia.
    unfold signer_limit. cbn [set_Signers Signers]. apply Z.add_le_mono_r, Z.div_le_mono; [lia|].
    apply Nat2Z.inj_le, subseteq_size. set_solver.
  - set (s1 := set_Signers (Signers s ∖ {[a]}) s).
    eapply (recents_ok_ext n (expire_recent n s1)); [apply discard_cast_by_frame|apply discard_cast_by_frame|].
    apply expire_recent_ok; [|done]. intros k x Hk. specialize (H1 k x Hk).
    enough (signer_limit s ≤ signer_limit s1 + 1) by lia. unfold signer_limit, s1. cbn [set_Signers Signers].
    enough (Z.of_nat (base.size (Signers s)) ≤ Z.of_nat (base.size (Signers s ∖ {[a]})) + 1) as Hle.
    { enough (Z.of_nat (base.size (Signers s)) / 2 ≤ (Z.of_nat (base.size (Signers s ∖ {[a]})) + 1 * 2) / 2)
        by (rewrite Z.div_add in *; lia).
      apply Z.div_le_mono; lia. }
    assert (Hu : Signers s ⊆ (Signers s ∖ {[a]}) ∪ {[a]}) by (intros x' ?; destruct (decide (x' = a)); set_solver).
    apply subseteq_size in Hu. rewrite size_union_alt in Hu.
    pose proof (subseteq_size ({[a]} ∖ (Signers s ∖ {[a]})) {[a]} ltac:(set_solver)) as Hl.
    rewrite size_singleton in Hl. lia.
Qed.

Lemma apply_header_recents n snap header rec snap' :
  recents_ok n snap → 0 ≤ n + 1 → Number_Uint64 header = (Ok (n + 1) : outcome cliqueError Z) →
  apply_header snap header rec = Ok snap' → recents_ok (n + 1) snap'.
Proof.
  intros [H1 H2] Hn Hnum (number & signer & authorize & Hnum' & -> & _ & Hsg & Hrec & ->)%apply_header_steps.
  assert (number = n + 1) as -> by congruence.
  set (r := if (n + 1) mod Epoch (sn_config snap) =? 0 then reset_votes snap else snap) in *.
  assert (Er : Signers r = Signers snap ∧ Recents r = Recents snap) by (unfold r; by case_if).
  destruct Er as [Er1 Er2].
  assert (H0 : recents_ok (n + 1) (expire_recent (n + 1) r)).
  { apply expire_recent_ok; rewrite Er2; [|done]. intros k a Hk. specialize (H1 k a Hk).
    rewrite (signer_limit_ext snap r) by done. lia. }
  set (s0 := expire_recent (n + 1) r) in *.
  apply pass_vote_recents. set (s1 := set_Recents _ s0).
  apply (recents_ok_ext _ s1).
  - by rewrite (proj1 (record_vote_frame _ _ _ _ _)), (proj1 (discard_vote_frame _ _ _)).
  - by rewrite (proj2 (record_vote_frame _ _ _ _ _)), (proj2 (discard_vote_frame _ _ _)).
  - destruct H0 as [G1 G2]. unfold s1. split; cbn [set_Recents Recents];
      change (signer_limit (set_Recents _ s0)) with (signer_limit s0).
    + intros k a [[<- <-]|[Hne Hk]]%lookup_insert_Some; [pose proof (signer_limit_pos s0); lia|by apply (G1 k a)].
    + intros k k' a [[<- <-]|[Hne Hk]]%lookup_insert_Some [[<- E]|[Hne' Hk']]%lookup_insert_Some; [done| | |].
      * by apply Hrec in Hk'.
      * subst. by apply Hrec in Hk.
      * by eapply G2.
Qed.

(** ** [apply] without its cache *)

Lemma copy_id s : copy s = s.
Proof.
  unfold copy. destruct s as [c n h sg rc vt tl]. cbn. f_equal.
  - apply (set_fold_ind_L (fun m X => m = X)); [done|]. intros x X m _ ->. done.
  - apply (map_fold_weak_ind (fun m X => m = X)); [done|]. intros i x X m _ ->. done.
  - apply (map_fold_weak_ind (fun m X => m = X)); [done|]. intros i x X m _ ->. done.
Qed.

(** Replay headers on a snapshot, recovering signers with [recf]. *)
Fixpoint replay (recf : Header → outcome cliqueError Z) (snap : Snapshot) (headers : list Header)
    : outcome cliqueError Snapshot :=
  match headers with
  | [] => Ok snap
  | h :: hs => s ← apply_header snap h (recf h); replay recf s hs
  end.

Lemma replay_app recf snap hs hs' : replay recf snap (hs ++ hs') = (s ← replay recf snap hs; replay recf s hs').
Proof.
  revert snap. induction hs as [|h hs IH]; intros snap; cbn; [done|].
  destruct (apply_header snap h (recf h)); cbn; [apply IH|done|done].
Qed.

(** The headers are numbered [n + 1], [n + 2], ... *)
Definition numbered (n : Z) (hs : list Header) : Prop :=
  ∀ i h, hs !! i = Some h → Number_Uint64 h = (Ok (n + 1 + Z.of_nat i) : outcome cliqueError Z).

Lemma numbered_cons n h hs : numbered n (h :: hs) ↔
  Number_Uint64 h = (Ok (n + 1) : outcome cliqueError Z) ∧ numbered (n + 1) hs.
Proof.
  split.
  - intros H. split; [rewrite (H 0%nat h eq_refl); f_equal; lia|].
    intros i h' Hi. rewrite (H (S i) h' Hi). f_equal. lia.
  - intros [H0 H] [|i] h' Hi; cbn in Hi; [injection Hi as <-; rewrite H0; f_equal; lia|].
    rewrite (H i h' Hi). f_equal. lia.
Qed.

Lemma contiguous_numbered n h hs : 0 ≤ n → n + zlen (h :: hs) < 2 ^ 64 →
  Number_Uint64 h = (Ok (n + 1) : outcome cliqueError Z) →
  contiguous (h :: hs) = Ok tt → numbered n (h :: hs).
Proof.
  revert n h. induction hs as [|h' hs IH]; intros n h Hn Hlen Hh Hc.
  - apply numbered_cons. split; [done|]. by intros i ?.
  - cbn [contiguous] in Hc. inv_bind. rewrite zlen_cons in Hlen. pose proof (zlen_nonneg (h' :: hs)).
    pose proof (zlen_nonneg hs). rewrite zlen_cons in *.
    apply numbered_cons. split; [done|]. apply IH; [lia|rewrite zlen_cons; lia| |done].
    zbool. rewrite Hh in H0. injection H0 as <-. rewrite u64_small in H1 by (unfold is_u64; lia).
    rewrite H. congruence.
Qed.

(** ** Spacing of a signer's blocks *)

Lemma apply_header_signed n snap h rec snap' a :
  Number_Uint64 h = (Ok n : outcome cliqueError Z) → rec = Ok a →
  apply_header snap h rec = Ok snap' → Recents snap' !! n = Some a.
Proof.
  intros Hn -> (number & signer & b & Hn' & [= <-] & _ & _ & _ & ->)%apply_header_steps.
  assert (number = n) as -> by congruence.
  set (s0 := expire_recent n _). set (s1 := record_vote _ _ _ _ _).
  assert (E : Recents s1 !! n = Some a).
  { unfold s1. rewrite (proj2 (record_vote_frame _ _ _ _ _)), (proj2 (discard_vote_frame _ _ _)).
    cbn. by rewrite lookup_insert_eq. }
  clearbody s1. unfold pass_vote. case_if; [|done]. cbn [set_Tally set_Votes Recents].
  case_if; [done|]. rewrite (proj2 (discard_cast_by_frame _ _ _ _)). unfold expire_recent. case_if; [|done].
  cbn [set_Recents Recents]. rewrite lookup_delete_ne; [done|].
  pose proof (signer_limit_pos (set_Signers (Signers s1 ∖ {[Coinbase h]}) s1)). lia.
Qed.

(** While a block is within both limits, it stays in the recent list and its
    signer cannot sign. *)
Lemma apply_header_keeps n k a snap h rec snap' :
  Number_Uint64 h = (Ok n : outcome cliqueError Z) → apply_header snap h rec = Ok snap' →
  Recents snap !! k = Some a → k < n → n < k + signer_limit snap → n < k + signer_limit snap' →
  rec ≠ Ok a ∧ Recents snap' !! k = Some a.
Proof.
  intros Hn (number & signer & b & Hn' & -> & _ & _ & Hrec & ->)%apply_header_steps Hk Hlt Hl Hl'.
  assert (number = n) as -> by congruence.
  set (r := if n mod Epoch (sn_config snap) =? 0 then reset_votes snap else snap) in *.
  assert (Er : Signers r = Signers snap ∧ Recents r = Recents snap) by (unfold r; by case_if).
  destruct Er as [Er1 Er2].
  assert (Hk0 : Recents (expire_recent n r) !! k = Some a).
  { unfold expire_recent. rewrite (signer_limit_ext snap r) by done. case_if; [|congruence].
    cbn. rewrite Er2, lookup_delete_ne by lia. done. }
  set (s0 := expire_recent n r) in *.
  set (s1 := record_vote _ _ _ _ _) in *.
  assert (E : Recents s1 !! k = Some a).
  { unfold s1. rewrite (proj2 (record_vote_frame _ _ _ _ _)), (proj2 (discard_vote_frame _ _ _)).
    cbn. rewrite lookup_insert_ne by lia. done. }
  clearbody s1. split; [intros [= ->]; by eapply Hrec|].
  unfold pass_vote in *. case_if; [|done]. cbn [set_Tally set_Votes Recents].
  destruct (t_Authorize _); [done|].
  set (s2 := set_Signers (Signers s1 ∖ {[Coinbase h]}) s1) in *.
  assert (n < k + signer_limit s2).
  { erewrite signer_limit_ext in Hl'; [exact Hl'|]. cbn [set_Tally set_Votes Signers].
    rewrite (proj1 (discard_cast_by_frame _ _ _ _)). apply expire_recent_frame. }
  rewrite (proj2 (discard_cast_by_frame _ _ _ _)).
  unfold expire_recent. case_if; [|done]. cbn [set_Recents Recents]. rewrite lookup_delete_ne by lia. done.
Qed.

Lemma replay_keeps recf m k a hs : ∀ n snap snap', numbered n hs → replay recf snap hs = Ok snap' →
  Recents snap !! k = Some a → k ≤ n → n + zlen hs < k + m →
  (∀ p s, p `prefix_of` hs → replay recf snap p = Ok s → m ≤ signer_limit s) →
  ∀ h, h ∈ hs → recf h ≠ Ok a.
Proof.
  induction hs as [|h hs IH]; intros n snap snap' Hn Hr Hk Hle Hlen Hm h' Hin; [by apply elem_of_nil in Hin|].
  apply numbered_cons in Hn as [Hh Hn]. cbn in Hr. apply bind_ok in Hr as (s1 & H1 & Hr).
  rewrite zlen_cons in Hlen. pose proof (zlen_nonneg hs).
  assert (m ≤ signer_limit snap) by (apply (Hm []); [apply prefix_nil|done]).
  assert (m ≤ signer_limit s1) by (apply (Hm [h]); [by exists hs|cbn; by rewrite H1]).
  destruct (apply_header_keeps (n + 1) k a snap h _ s1 Hh H1 Hk) as [Hne Hk1]; [lia|lia|lia|].
  apply elem_of_cons in Hin as [->|Hin]; [done|].
  apply (IH (n + 1) s1 snap'); try done; [lia|lia|]. intros p s Hp Hs.
  apply (Hm (h :: p)); [by apply prefix_cons|cbn; by rewrite H1].
Qed.

Lemma numbered_app n hs hs' : numbered n (hs ++ hs') → numbered n hs ∧ numbered (n + zlen hs) hs'.
Proof.
  revert n. induction hs as [|h hs IH]; intros n H; cbn in *.
  - split; [by intros i ?|]. by rewrite zlen_nil, Z.add_0_r.
  - apply numbered_cons in H as [Hh H]. apply IH in H as [H1 H2]. split; [by apply numbered_cons|].
    rewrite zlen_cons. by replace (n + (zlen hs + 1)) with (n + 1 + zlen hs) by lia.
Qed.

(** Two blocks of one signer are at least [m] apart when the signer limit never
    falls below [m]. *)
Lemma replay_spacing recf m n snap snap' pre h1 mid h2 post a :
  let hs := pre ++ h1 :: mid ++ h2 :: post in
  numbered n hs → replay recf snap hs = Ok snap' →
  (∀ p s, p `prefix_of` hs → replay recf snap p = Ok s → m ≤ signer_limit s) →
  recf h1 = Ok a → recf h2 = Ok a → m ≤ zlen mid + 1.
Proof.
  cbv zeta. intros Hn Hr Hm R1 R2. destruct (decide (m ≤ zlen mid + 1)) as [|Hlt]; [done|exfalso].
  set (k := n + zlen pre + 1).
  apply numbered_app in Hn as [_ Hn]. apply numbered_cons in Hn as [Hh1 Hn].
  replace (mid ++ h2 :: post) with ((mid ++ [h2]) ++ post) in Hn by by rewrite <- app_assoc.
  apply numbered_app in Hn as [Hn _].
  rewrite replay_app in Hr. apply bind_ok in Hr as (s0 & H0 & Hr). cbn in Hr.
  apply bind_ok in Hr as (s1 & H1 & Hr).
  replace (mid ++ h2 :: post) with ((mid ++ [h2]) ++ post) in Hr by by rewrite <- app_assoc.
  rewrite replay_app in Hr. apply bind_ok in Hr as (s2 & H2 & _).
  assert (Hk : Recents s1 !! k = Some a) by (eapply apply_header_signed; [exact Hh1|exact R1|exact H1]).
  refine (replay_keeps recf m k a (mid ++ [h2]) k s1 s2 Hn H2 Hk _ _ _ h2 _ R2); [lia| | |set_solver].
  - rewrite zlen_app, zlen_cons, zlen_nil. lia.
  - intros p s [q Hq] Hs. apply (Hm (pre ++ h1 :: p)).
    + exists (q ++ post). rewrite <- app_assoc. cbn. rewrite app_assoc, <- Hq, <- app_assoc. done.
    + rewrite replay_app, H0. cbn. by rewrite H1.
Qed.

(** ** The signature cache *)

Section Cached.
Context (keccak : bytes → Z).
Context (Ecrecover : bytes → bytes → outcome cliqueError bytes).
Context {SC : Type} `{!CacheLaws SC Z Z}.
(** The headers seen; no two of them with the same hash have different
    signers. *)
Context (known : Header → Prop).

Definition no_collision : Prop := ∀ h1 h2, known h1 → known h2 →
  Header_Hash keccak h1 = Header_Hash keccak h2 → recover keccak Ecrecover h1 = recover keccak Ecrecover h2.

(** Every cached signer is the one recovery yields. *)
Definition coherent (c : SC) : Prop := cache_valid c ∧
  ∀ h a, known h → cache_holds c (Header_Hash keccak h) a → recover keccak Ecrecover h = Ok a.

Lemma ecrecover_coherent h c : no_collision → known h → coherent c →
  ∃ c', ecrecover keccak Ecrecover h c = (recover keccak Ecrecover h, c') ∧ coherent c'.
Proof.
  intros Hnc Hh [Hv Hc]. unfold ecrecover, mbind, stm_bind, sig_get.
  destruct (cache_get_ok cliqueError (Header_Hash keccak h) c Hv) as (o & c1 & E & Hv1 & Ho & H1). rewrite E.
  destruct o as [a|].
  - exists c1. rewrite (Hc h a Hh (Ho a eq_refl)). split; [done|]. split; [done|]. eauto.
  - unfold pure_out. destruct (recover keccak Ecrecover h) as [a|e|] eqn:Er; cycle 1.
    { exists c1. split; [done|]. split; eauto. }
    { exists c1. split; [done|]. split; eauto. }
    unfold sig_add. destruct (cache_add_ok cliqueError (Header_Hash keccak h) a c1 Hv1) as (c2 & -> & Hv2 & H2).
    exists c2. split; [done|]. split; [done|]. intros h' a' Hk' Hh'.
    destruct (H2 _ _ Hh') as [[Eh ->]|Hold]; [|by eauto]. rewrite (Hnc h' h Hk' Hh Eh). done.
Qed.

Lemma apply_loop_coherent hs : no_collision → Forall known hs → ∀ snap c, coherent c →
  ∃ c', apply_loop keccak Ecrecover snap hs c = (replay (recover keccak Ecrecover) snap hs, c') ∧ coherent c'.
Proof.
  intros Hnc. induction 1 as [|h hs Hh Hhs IH]; intros snap c Hc; cbn; [by exists c|].
  destruct (ecrecover_coherent h c Hnc Hh Hc) as (c1 & -> & Hc1).
  destruct (apply_header snap h (recover keccak Ecrecover h)) as [s1|e|]; cbn; [by apply IH|by exists c1|by exists c1].
Qed.

(** [apply] as a function of the snapshot and the headers alone. *)
Definition apply_ref (s : Snapshot) (headers : list Header) : outcome cliqueError Snapshot :=
  match headers with
  | [] => Ok s
  | first :: _ =>
      _ ← contiguous headers;
      n ← Number_Uint64 first;
      _ ← guard_err (negb (n =? u64 (sn_Number s + 1))) errInvalidVotingChain;
      snap ← replay (recover keccak Ecrecover) s headers;
      Ok (mkSnapshot (sn_config snap) (u64 (sn_Number snap + zlen headers))
            (Header_Hash keccak (List.last headers first))
            (Signers snap) (Recents snap) (Votes snap) (Tallies snap))
  end.

Lemma apply_coherent s headers c : no_collision → Forall known headers → coherent c →
  ∃ c', apply keccak Ecrecover s headers c = (apply_ref s headers, c') ∧ coherent c'.
Proof.
  intros Hnc Hk Hc. destruct headers as [|first hs] eqn:Eh; [by exists c|]. rewrite <- Eh in *.
  unfold apply, apply_ref. rewrite Eh. rewrite <- Eh. unfold mbind, stm_bind, pure_out.
  destruct (contiguous headers) as [[]|e|]; cbn; [|by exists c|by exists c].
  destruct (Number_Uint64 first) as [n|e|]; cbn; [|by exists c|by exists c].
  destruct (guard_err (negb (n =? u64 (sn_Number s + 1))) errInvalidVotingChain) as [[]|e|]; cbn;
    [|by exists c|by exists c].
  rewrite copy_id. destruct (apply_loop_coherent headers Hnc Hk s c Hc) as (c' & -> & Hc').
  exists c'. split; [|done]. by destruct (replay (recover keccak Ecrecover) s headers).
Qed.
End Cached.

(** ** The seal hash *)

(** The header without its seal: what a signature covers. *)
Definition unsealed (h : Header) : Header :=
  let '(mkHeader a b c d e f g i j k l m n o p q r s) := h in
  mkHeader a b c d e f g i j k l m (take (length n - 65) n) o p q r None.

Lemma unsealed_wf h : wf_header h → WithdrawalsHash h = None → wf_header (unsealed h).
Proof.
  destruct h as [a b c d e f g i j k l m n o p q r s]. intros [] Hr. cbn in Hr. subst r.
  split; cbn [unsealed ParentHash UncleHash Coinbase Root TxHash ReceiptHash Bloom Difficulty Number GasLimit
              GasUsed Time Extra MixDigest Nonce BaseFee WithdrawalsHash ExcessDataGas] in *; try assumption.
  - unfold zlen in *. rewrite length_take. lia.
  - by right.
  - by right.
Qed.

Lemma sigHeader_ref h : wf_header h → WithdrawalsHash h = None → 65 ≤ zlen (Extra h) →
  ∃ v, sigHeader h = Ok v ∧ wf_value v ∧ ref_value v = Ok (rlp_list (header_payload (unsealed h))).
Proof.
  intros Hwf Hw He. unfold sigHeader, slice, extraSeal. rewrite Hw.
  pose proof (zlen_nonneg (Extra h)).
  rewrite (proj2 (Z.leb_le 0 0)), (proj2 (Z.leb_le 0 (zlen (Extra h) - 65))),
    (proj2 (Z.leb_le (zlen (Extra h) - 65) (zlen (Extra h)))) by lia.
  cbn [andb mbind outcome_bind]. eexists. split; [reflexivity|].
  replace (Z.to_nat (zlen (Extra h) - 65 - 0)) with (length (Extra h) - 65)%nat by (unfold zlen; lia).
  change (drop (Z.to_nat 0) (Extra h)) with (Extra h).
  destruct Hwf as [_ _ _ _ _ _ _ HD HN HGl HGu HT _ _ _ HB _ _].
  destruct h as [a b c d e f g [i|] [j|] k l m n o p q r s]; try done.
  cbn [Difficulty Number GasLimit GasUsed Time Extra BaseFee WithdrawalsHash big_ok] in *. subst r.
  unfold header_payload, header_fields, optional_fields, rlp_list.
  cbn [unsealed ParentHash UncleHash Coinbase Root TxHash ReceiptHash Bloom Difficulty Number GasLimit
       GasUsed Time Extra MixDigest Nonce BaseFee WithdrawalsHash ExcessDataGas default from_option].
  assert (Hneg : ∀ x, 0 ≤ x < 2 ^ 256 → (x <? 0) = false) by (intros; apply Z.ltb_ge; lia).
  pose proof (Hneg i HD) as Hi. pose proof (Hneg j HN) as Hj.
  destruct HB as [HB|[-> _]].
  - destruct q as [q|]; [|done]. pose proof (Hneg q HB) as Hq. split.
    + cbn [wf_value foldr app]. done.
    + cbn [ref_value map app ref_fields]. rewrite Hi, Hj, Hq.
      cbn [mbind outcome_bind fmap outcome_fmap]. reflexivity.
  - split.
    + cbn [wf_value foldr app]. done.
    + cbn [ref_value map app ref_fields]. rewrite Hi, Hj.
      cbn [mbind outcome_bind fmap outcome_fmap]. reflexivity.
Qed.

Lemma CliqueRLP_unsealed h : wf_header h → WithdrawalsHash h = None → 65 ≤ zlen (Extra h) →
  CliqueRLP h = Ok (rlp_list (header_payload (unsealed h))).
Proof.
  intros Hwf Hw He. destruct (sigHeader_ref h Hwf Hw He) as (v & Hs & Hwv & Hr). unfold CliqueRLP. rewrite Hs.
  cbn [mbind outcome_bind]. rewrite (Encode_writes v _ [] Hwv Hr); [done|].
  pose proof (zlen_header_list _ (unsealed_wf h Hwf Hw)). assert (2 ^ 40 < 2 ^ 63) by done. lia.
Qed.

Lemma Header_Hash_payload keccak h : wf_header h → Header_Hash keccak h = keccak (rlp_list (header_payload h)).
Proof.
  intros Hwf. unfold Header_Hash, rlpHash. f_equal.
  rewrite (Encode_writes _ (rlp_list (header_payload h))); [done|by apply header_value_wf|by apply EncodeToBytes_header|].
  pose proof (zlen_header_list _ Hwf). assert (2 ^ 40 < 2 ^ 63) by done. lia.
Qed.

Lemma header_payload_inj h1 h2 : wf_header h1 → wf_header h2 →
  rlp_list (header_payload h1) = rlp_list (header_payload h2) → h1 = h2.
Proof.
  intros H1 H2 E. pose proof (zlen_header_list h1 H1) as Hl. assert (2 ^ 40 < 2 ^ 63) by done.
  pose proof (zlen_rlp_list (header_payload h1)).
  apply rlp_list_inj in E; [|lia]. apply rlp_strs_inj in E; [|fold (header_payload h1); lia].
  by apply header_fields_inj.
Qed.

(** ** Turns *)

Lemma addr_le_iff a b : addr_le a b ↔ a mod 2 ^ 160 ≤ b mod 2 ^ 160.
Proof.
  unfold addr_le. rewrite bytes_Compare_value by by rewrite !length_be_bytes.
  rewrite !be_value_be_bytes. change (8 * Z.of_nat 20) with 160. unfold Z.le. done.
Qed.

#[global] Instance addr_le_total : Total addr_le.
Proof. intros a b. rewrite !addr_le_iff. lia. Qed.
#[global] Instance addr_le_trans : Transitive addr_le.
Proof. intros a b c. rewrite !addr_le_iff. lia. Qed.

Lemma signers_perm s : signers s ≡ₚ elements (Signers s).
Proof. apply merge_sort_Permutation. Qed.

Lemma signers_NoDup s : NoDup (signers s).
Proof. rewrite signers_perm. apply NoDup_elements. Qed.

Lemma signers_elem s a : a ∈ signers s ↔ a ∈ Signers s.
Proof. rewrite signers_perm. apply elem_of_elements. Qed.

Lemma zlen_signers s : zlen (signers s) = Z.of_nat (base.size (Signers s)).
Proof. unfold zlen. by rewrite (Permutation_length (signers_perm s)). Qed.

Lemma offset_of_range a l : 0 ≤ offset_of a l ≤ zlen l.
Proof. induction l as [|b l IH]; cbn [offset_of]; [done|]. rewrite zlen_cons. case_if; pose proof (zlen_nonneg l); lia. Qed.

Lemma offset_of_lookup a l i : NoDup l →
  (0 ≤ i < zlen l ∧ offset_of a l = i) ↔ (0 ≤ i ∧ l !! Z.to_nat i = Some a).
Proof.
  revert i. induction l as [|b l IH]; intros i Hn.
  - change (zlen []) with 0. split; [cbn; lia|]. by intros [_ ?].
  - apply NoDup_cons in Hn as [Hb Hn]. cbn [offset_of]. rewrite zlen_cons.
    pose proof (zlen_nonneg l). destruct (b =? a) eqn:E; zbool.
    + subst b. split.
      * intros [_ <-]. done.
      * intros [Hi Hl]. destruct (decide (i = 0)) as [->|]; [lia|].
        replace (Z.to_nat i) with (S (Z.to_nat (i - 1))) in Hl by lia. cbn in Hl.
        apply list_elem_of_lookup_2 in Hl. done.
    + destruct (decide (i = 0)) as [->|Hi0].
      * split; [pose proof (offset_of_range a l); lia|]. cbn. intros [_ [= ?]]. done.
      * specialize (IH (i - 1) Hn).
        split.
        -- intros [Hi Ho]. split; [lia|]. replace (Z.to_nat i) with (S (Z.to_nat (i - 1))) by lia. cbn.
           apply IH. lia.
        -- intros [Hi Hl]. replace (Z.to_nat i) with (S (Z.to_nat (i - 1))) in Hl by lia. cbn in Hl.
           destruct (proj2 IH) as [? ?]; [split; [lia|done]|]. lia.
Qed.

(** Who is in turn: the signer at position [number mod n] of the sorted list. *)
Lemma inturn_iff {E} s n a : Signers s ≠ ∅ → 0 ≤ n →
  @inturn E s n a = Ok true ↔ signers s !! Z.to_nat (n mod zlen (signers s)) = Some a.
Proof.
  intros Hne Hn. unfold inturn, umod.
  assert (Hpos : 0 < zlen (signers s)).
  { rewrite zlen_signers. destruct (decide (base.size (Signers s) = 0%nat)) as [H0|]; [|lia].
    apply size_empty_inv in H0. by apply leibniz_equiv in H0. }
  rewrite (proj2 (Z.eqb_neq _ _)) by lia. cbn [mbind outcome_bind].
  pose proof (Z.mod_pos_bound n (zlen (signers s)) Hpos) as Hr.
  pose proof (offset_of_lookup a (signers s) (n mod zlen (signers s)) (signers_NoDup s)) as Ho.
  split.
  - intros [= Heq]. zbool. apply Ho. lia.
  - intros Hl. f_equal. apply Z.eqb_eq. destruct (proj2 Ho) as [_ ?]; [split; [lia|done]|]. lia.
Qed.

(** ** Invariants along [apply] *)

Section Along.
Context (keccak : bytes → Z).
Context (Ecrecover : bytes → bytes → outcome cliqueError bytes).
Context {SC : Type} `{!CacheLaws SC Z Z}.

(** A successful [apply] is a chain of iterations. *)
Inductive iterated : Snapshot → list Header → Snapshot → Prop :=
| iterated_nil s : iterated s [] s
| iterated_cons s h rec s1 hs s2 : apply_header s h rec = Ok s1 → iterated s1 hs s2 → iterated s (h :: hs) s2.

Lemma apply_loop_iterated hs : ∀ s c s' c',
  apply_loop keccak Ecrecover s hs c = (Ok s', c') → iterated s hs s'.
Proof.
  induction hs as [|h hs IH]; intros s c s' c' H; cbn in H; [injection H as <- <-; constructor|].
  destruct (ecrecover keccak Ecrecover h c) as [rec c1].
  destruct (apply_header s h rec) as [s1|e|] eqn:E; [|done|done]. econstructor; [exact E|]. by eapply IH.
Qed.

Lemma iterated_voting s hs s' : iterated s hs s' → voting_ok s → voting_ok s'.
Proof. induction 1; [done|]. intros Hok. by eapply IHiterated, (apply_header_majority_aux s h rec). Qed.

Lemma iterated_recents s hs s' : iterated s hs s' → ∀ n, 0 ≤ n → numbered n hs → recents_ok n s →
  recents_ok (n + zlen hs) s'.
Proof.
  induction 1 as [s|s h rec s1 hs s2 H1 H2 IH]; intros n Hn Hnum Hok; [by rewrite zlen_nil, Z.add_0_r|].
  apply numbered_cons in Hnum as [Hh Hnum]. rewrite zlen_cons.
  replace (n + (zlen hs + 1)) with (n + 1 + zlen hs) by lia. apply IH; [lia|done|].
  eapply apply_header_recents; [exact Hok|lia|exact Hh|exact H1].
Qed.

(** No step of an iteration changes the number or the configuration. *)
Definition meta (s : Snapshot) : Z * CliqueConfig := (sn_Number s, sn_config s).

Lemma discard_cast_by_meta who todo : ∀ kept s, meta (discard_cast_by who kept todo s) = meta s.
Proof.
  induction todo as [|vote todo IH]; intros kept s; cbn [discard_cast_by]; [done|].
  case_if; rewrite IH; [|done].
  destruct (uncast_frame s (v_Address vote) (v_Authorize vote)) as (_ & _ & _ & E1 & E2).
  unfold meta. by rewrite E1, E2.
Qed.

Lemma expire_recent_meta n s : meta (expire_recent n s) = meta s.
Proof. unfold expire_recent. by case_if. Qed.

Lemma pass_vote_meta n a s : meta (pass_vote n a s) = meta s.
Proof.
  unfold pass_vote. case_if; [|done]. destruct (t_Authorize _); [done|].
  set (s1 := expire_recent _ _). change (meta (discard_cast_by a [] (Votes s1) s1) = meta s).
  unfold s1. by rewrite discard_cast_by_meta, expire_recent_meta.
Qed.

Lemma record_vote_meta signer n a b s : meta (record_vote signer n a b s) = meta s.
Proof. unfold record_vote, cast. destruct (validVote s a b); cbn; [|done]. by destruct (Tallies s !! a). Qed.

Lemma discard_vote_meta signer a s : meta (discard_vote signer a s) = meta s.
Proof.
  unfold discard_vote. destruct (first_vote signer a (Votes s)) as [[vote rest]|]; [|done].
  destruct (uncast_frame s (v_Address vote) (v_Authorize vote)) as (_ & _ & _ & E1 & E2).
  unfold meta. cbn [set_Votes sn_Number sn_config]. by rewrite E1, E2.
Qed.

Lemma apply_header_number s h rec s' : apply_header s h rec = Ok s' →
  sn_Number s' = sn_Number s ∧ sn_config s' = sn_config s.
Proof.
  intros (n & a & b & _ & _ & _ & _ & _ & ->)%apply_header_steps.
  set (r := if n mod Epoch (sn_config s) =? 0 then reset_votes s else s).
  assert (E : ∀ s', meta s' = meta s → sn_Number s' = sn_Number s ∧ sn_config s' = sn_config s)
    by (unfold meta; by intros ? [= -> ->]).
  apply E. rewrite pass_vote_meta, record_vote_meta, discard_vote_meta.
  change (meta (expire_recent n r) = meta s). rewrite expire_recent_meta. unfold r. by case_if.
Qed.

Lemma iterated_number s hs s' : iterated s hs s' → sn_Number s' = sn_Number s ∧ sn_config s' = sn_config s.
Proof.
  induction 1 as [|s h rec s1 hs s2 H1 H2 [IH1 IH2]]; [done|]. apply apply_header_number in H1 as [? ?].
  split; congruence.
Qed.

Lemma apply_inv s hs c s' c' : hs ≠ [] → 0 ≤ sn_Number s → sn_Number s + zlen hs < 2 ^ 64 →
  apply keccak Ecrecover s hs c = (Ok s', c') →
  ∃ s1, iterated s hs s1 ∧ numbered (sn_Number s) hs ∧ sn_Number s' = sn_Number s + zlen hs ∧
    sn_config s' = sn_config s ∧
    Signers s' = Signers s1 ∧ Recents s' = Recents s1 ∧ Votes s' = Votes s1 ∧ Tallies s' = Tallies s1.
Proof.
  intros Hne H0 Hlen. unfold apply. destruct hs as [|h hs]; [done|]. pose proof (zlen_nonneg hs) as Hz.
  rewrite zlen_cons in Hlen.
  intros H. apply stm_bind_ok in H as ([] & c1 & H1 & H). apply pure_out_ok in H1 as [H1 <-].
  apply stm_bind_ok in H as (n & c2 & H2 & H). apply pure_out_ok in H2 as [H2 <-].
  apply stm_bind_ok in H as ([] & c3 & H3 & H). apply pure_out_ok in H3 as [H3 <-].
  apply guard_err_ok in H3. zbool. rewrite u64_small in H3 by (unfold is_u64; lia). subst n.
  apply stm_bind_ok in H as (s1 & c4 & H4 & H). cbn in H. injection H as <- <-.
  rewrite copy_id in H4. apply apply_loop_iterated in H4.
  pose proof (iterated_number _ _ _ H4) as [En Ec]. exists s1. split_and!; try done.
  - apply contiguous_numbered; [done|rewrite zlen_cons; lia|done|done].
  - cbn [sn_Number]. rewrite En, zlen_cons, u64_small by (unfold is_u64; lia). done.
Qed.
End Along.

(** ** Properties *)

(** A toy hash and recovery for concrete runs: the key recovered from a
    signature is the signature. *)
Definition toy_keccak (b : bytes) : Z := be_value b mod (2 ^ 256 - 189).
Definition toy_Ecrecover (h sig : bytes) : outcome cliqueError bytes := Ok (z2b 4 :: sig).

(** A block by [signer] that votes on [coinbase]. *)
Definition toy_header (number signer coinbase nonce : Z) : Header :=
  mkHeader 0 0 coinbase 0 0 0 0 (Some 2) (Some number) 5000 0 0 (replicate 32 (z2b 0) ++ be_bytes 65 signer)
    0 nonce None None None.

Definition toy_config : CliqueConfig := mkCliqueConfig 15 30000.
Definition toy_genesis : Snapshot := newSnapshot toy_config 0 0 [11; 12; 13].
Definition toy_cache : BasicLRU Z Z :=
  match NewBasicLRU inmemorySignatures with Ok c => c | _ => mkLRU ∅ ∅ 0 end.

(** Signers 11 and 12 vote 14 in. *)
Definition toy_headers : list Header :=
  [toy_header 1 11 14 MaxUint64; toy_header 2 12 14 MaxUint64; toy_header 3 13 0 0].

Lemma newSnapshot_ok config n h l : voting_ok (newSnapshot config n h l) ∧ recents_ok n (newSnapshot config n h l).
Proof.
  split; split; cbn; try (by constructor); try set_solver; try (intros ?; by rewrite lookup_empty);
    intros *; by rewrite lookup_empty.
Qed.

(** [apply], which recovers signers through a shared LRU cache, returns
    exactly what the cache-free [apply_ref] returns (a snapshot, an error or a
    panic), as long as the cache only holds recovered signers and no two of the
    headers seen collide; and it leaves the cache that way. *)
Theorem apply_cache_transparent keccak Ecrecover (known : Header → Prop) (c : BasicLRU Z Z) s headers :
  no_collision keccak Ecrecover known → Forall known headers → coherent keccak Ecrecover known c →
  ∃ c', apply keccak Ecrecover s headers c = (apply_ref keccak Ecrecover s headers, c') ∧
        coherent keccak Ecrecover known c'.
Proof. apply apply_coherent. Qed.

Definition toy_result : Snapshot :=
  match apply_ref toy_keccak toy_Ecrecover toy_genesis toy_headers with Ok s => s | _ => toy_genesis end.

Lemma toy_apply_ref : apply_ref toy_keccak toy_Ecrecover toy_genesis toy_headers = Ok toy_result.
Proof. vm_compute. reflexivity. Qed.

(** Headers with pairwise distinct hashes do not collide. *)
Lemma distinct_no_collision keccak Ecrecover hs : bool_decide (NoDup (map (Header_Hash keccak) hs)) = true →
  no_collision keccak Ecrecover (fun h => h ∈ hs).
Proof.
  intros Hn%bool_decide_eq_true h1 h2 [i Hi]%list_elem_of_lookup [j Hj]%list_elem_of_lookup Hh.
  assert (i = j) as ->; [|congruence].
  eapply NoDup_lookup; [exact Hn| |]; rewrite list_lookup_fmap, ?Hi, ?Hj; cbn; by rewrite ?Hh.
Qed.

Lemma toy_no_collision : no_collision toy_keccak toy_Ecrecover (fun h => h ∈ toy_headers).
Proof. apply distinct_no_collision. vm_compute. reflexivity. Qed.

Lemma toy_cache_coherent known : coherent toy_keccak toy_Ecrecover known toy_cache.
Proof.
  destruct (NewCache_empty (K:=Z) (V:=Z) inmemorySignatures) as (c0 & E0 & Hv & Hn).
  unfold toy_cache. rewrite E0. split; [done|]. intros h a _ Hh. by apply Hn in Hh.
Qed.

Lemma apply_cache_transparent_witness :
  signers toy_result = [11; 12; 13; 14] ∧
  ∃ c', apply toy_keccak toy_Ecrecover toy_genesis toy_headers toy_cache = (Ok toy_result, c').
Proof.
  split; [vm_compute; reflexivity|].
  destruct (apply_cache_transparent toy_keccak toy_Ecrecover (fun h => h ∈ toy_headers) toy_cache toy_genesis toy_headers)
    as (c' & E & _).
  - exact toy_no_collision.
  - apply Forall_forall. done.
  - apply toy_cache_coherent.
  - exists c'. rewrite E, toy_apply_ref. reflexivity.
Defined.

(** C5. Voting. The well-formedness of snapshots (one vote per signer and
    account, cast by a current signer and in the only direction that makes
    sense, and a tally that counts exactly the votes) is preserved by [apply];
    so are the ranges of the recent signers; the genesis snapshot has both. *)
Theorem apply_preserves keccak Ecrecover (c : BasicLRU Z Z) s headers s' c' :
  voting_ok s → recents_ok (sn_Number s) s → 0 ≤ sn_Number s → sn_Number s + zlen headers < 2 ^ 64 →
  apply keccak Ecrecover s headers c = (Ok s', c') →
  voting_ok s' ∧ recents_ok (sn_Number s') s' ∧ sn_Number s' = sn_Number s + zlen headers ∧
  (∀ config n h l, voting_ok (newSnapshot config n h l) ∧ recents_ok n (newSnapshot config n h l)).
Proof.
  intros Hv Hr H0 Hl H. destruct (decide (headers = [])) as [->|Hne].
  { cbn in H. injection H as <- <-. rewrite zlen_nil, Z.add_0_r. split_and!; try done. intros. apply newSnapshot_ok. }
  destruct (apply_inv keccak Ecrecover s headers c s' c' Hne H0 Hl H)
    as (s1 & Hi & Hn & E1 & _ & E2 & E3 & E4 & E5). rewrite E1. split_and!; [| |done|intros; apply newSnapshot_ok].
  - apply (voting_ok_ext s1); try done. by eapply iterated_voting.
  - apply (recents_ok_ext _ s1); try done. by eapply iterated_recents.
Qed.

Lemma apply_preserves_witness :
  ∃ c', apply toy_keccak toy_Ecrecover toy_genesis toy_headers toy_cache = (Ok toy_result, c') ∧
    voting_ok toy_result ∧ recents_ok 3 toy_result.
Proof.
  destruct (apply_coherent toy_keccak toy_Ecrecover (fun h => h ∈ toy_headers) toy_genesis toy_headers toy_cache
    toy_no_collision ltac:(by apply Forall_forall) (toy_cache_coherent _)) as (c' & E & _).
  rewrite toy_apply_ref in E. exists c'. split; [exact E|].
  destruct (apply_preserves toy_keccak toy_Ecrecover toy_cache toy_genesis toy_headers toy_result c')
    as (H1 & H2 & H3 & _); [apply newSnapshot_ok|apply newSnapshot_ok|done|done|exact E|].
  rewrite H3 in H2. split; [exact H1|exact H2].
Defined.

(** C29. Majority. An iteration of [apply] changes the set of signers only by
    adding or removing the account the header votes on, and only when more than
    half of the current signers support it: each of them signed this header or
    has a recorded vote in that direction. *)
Theorem apply_header_majority snap header rec snap' :
  voting_ok snap → apply_header snap header rec = Ok snap' →
  Signers snap' = Signers snap ∨
  ∃ voters : gset Z, voters ⊆ Signers snap ∧
    Z.of_nat (base.size (Signers snap)) / 2 < Z.of_nat (base.size voters) ∧
    (∀ x, x ∈ voters → rec = Ok x ∨
       ∃ vote, vote ∈ Votes snap ∧ v_Signer vote = x ∧ v_Address vote = Coinbase header ∧
               v_Authorize vote = direction (Signers snap) (Coinbase header)) ∧
    Signers snap' = (if direction (Signers snap) (Coinbase header)
                     then {[Coinbase header]} ∪ Signers snap else Signers snap ∖ {[Coinbase header]}).
Proof. intros Hok H. by apply (apply_header_majority_aux snap header rec snap'). Qed.

(** One vote against 13 is recorded; the next one removes it. *)
Definition toy_voted : Snapshot :=
  match apply_header toy_genesis (toy_header 1 11 13 0) (Ok 11) with Ok s => s | _ => toy_genesis end.
Definition toy_dropped : Snapshot :=
  match apply_header toy_voted (toy_header 2 12 13 0) (Ok 12) with Ok s => s | _ => toy_genesis end.

Lemma apply_header_majority_witness :
  signers toy_dropped = [11; 12] ∧ voting_ok toy_voted ∧
  (Signers toy_dropped = Signers toy_voted ∨
   ∃ voters : gset Z, voters ⊆ Signers toy_voted ∧ 1 < Z.of_nat (base.size voters)).
Proof.
  assert (Hv : voting_ok toy_voted).
  { eapply (apply_header_majority_aux toy_genesis (toy_header 1 11 13 0) (Ok 11)); [apply newSnapshot_ok|].
    vm_compute. reflexivity. }
  split; [vm_compute; reflexivity|]. split; [exact Hv|].
  destruct (apply_header_majority toy_voted (toy_header 2 12 13 0) (Ok 12) toy_dropped Hv) as [H|(vs & H1 & H2 & _)];
    [vm_compute; reflexivity|left; exact H|right; exists vs; split; [exact H1|exact H2]].
Defined.

(** C30. Spacing. In a chain that [apply] accepts, two blocks of the same
    signer are at least [m] apart, where [m] bounds the signer limit (half the
    number of signers plus one) from below along the chain. *)
Theorem apply_spacing keccak Ecrecover known (c : BasicLRU Z Z) s pre h1 mid h2 post s' c' m a :
  no_collision keccak Ecrecover known → Forall known (pre ++ h1 :: mid ++ h2 :: post) →
  coherent keccak Ecrecover known c →
  0 ≤ sn_Number s → sn_Number s + zlen (pre ++ h1 :: mid ++ h2 :: post) < 2 ^ 64 →
  apply keccak Ecrecover s (pre ++ h1 :: mid ++ h2 :: post) c = (Ok s', c') →
  (∀ p s1, p `prefix_of` pre ++ h1 :: mid ++ h2 :: post →
     replay (recover keccak Ecrecover) s p = Ok s1 → m ≤ signer_limit s1) →
  recover keccak Ecrecover h1 = Ok a → recover keccak Ecrecover h2 = Ok a →
  m ≤ zlen mid + 1.
Proof.
  intros Hnc Hk Hc H0 Hl H Hm R1 R2.
  assert (Hne : pre ++ h1 :: mid ++ h2 :: post ≠ []) by by destruct pre.
  destruct (apply_inv keccak Ecrecover s _ c s' c' Hne H0 Hl H) as (s1 & _ & Hn & _).
  destruct (apply_coherent keccak Ecrecover known s _ c Hnc Hk Hc) as (c2 & E & _).
  rewrite H in E. injection E as E _. symmetry in E. unfold apply_ref in E.
  destruct (pre ++ h1 :: mid ++ h2 :: post) as [|f l] eqn:El; [done|]. rewrite <- El in *.
  apply bind_ok in E as ([] & _ & E). apply bind_ok in E as (n & _ & E). apply bind_ok in E as ([] & _ & E).
  apply bind_ok in E as (s2 & E & _).
  by eapply (replay_spacing (recover keccak Ecrecover) m (sn_Number s) s s2 pre h1 mid h2 post a).
Qed.

Definition toy_spaced : list Header :=
  [] ++ toy_header 1 11 0 0 :: [toy_header 2 12 0 0] ++ toy_header 3 11 0 0 :: [].

Definition toy_spaced_result : Snapshot :=
  match apply_ref toy_keccak toy_Ecrecover toy_genesis toy_spaced with Ok s => s | _ => toy_genesis end.

Lemma apply_spacing_witness :
  recover toy_keccak toy_Ecrecover (toy_header 1 11 0 0) = Ok 11 ∧ 2 ≤ zlen [toy_header 2 12 0 0] + 1.
Proof.
  split; [vm_compute; reflexivity|].
  assert (Hnc : no_collision toy_keccak toy_Ecrecover (fun h => h ∈ toy_spaced))
    by (apply distinct_no_collision; vm_compute; reflexivity).
  destruct (apply_coherent toy_keccak toy_Ecrecover (fun h => h ∈ toy_spaced) toy_genesis toy_spaced toy_cache
    Hnc ltac:(by apply Forall_forall) (toy_cache_coherent _)) as (c' & E & _).
  assert (Er : apply_ref toy_keccak toy_Ecrecover toy_genesis toy_spaced = Ok toy_spaced_result)
    by (vm_compute; reflexivity).
  rewrite Er in E.
  apply (apply_spacing toy_keccak toy_Ecrecover (fun h => h ∈ toy_spaced) toy_cache toy_genesis [] (toy_header 1 11 0 0)
    [toy_header 2 12 0 0] (toy_header 3 11 0 0) [] toy_spaced_result c' 2 11).
  - exact Hnc.
  - by apply Forall_forall.
  - apply toy_cache_coherent.
  - cbn. lia.
  - vm_compute. reflexivity.
  - exact E.
  - intros p s1 [q Hq] Hs.
    assert (Hp : p = take (length p) toy_spaced) by (unfold toy_spaced; rewrite Hq; symmetry; apply take_app_length).
    assert (Hlen : (length p ≤ 3)%nat).
    { assert (Hl : length toy_spaced = (length p + length q)%nat) by (unfold toy_spaced; rewrite Hq; apply length_app).
      change (length toy_spaced) with 3%nat in Hl. lia. }
    rewrite Hp in Hs. destruct (length p) as [|[|[|[|]]]]; [..|lia];
      vm_compute in Hs; injection Hs as <-; vm_compute; congruence.
  - vm_compute. reflexivity.
  - vm_compute. reflexivity.
Defined.

(** C36. Turns. With at least one signer, every block number has exactly one
    signer in turn, a current one; every signer has a turn within any [n]
    consecutive numbers ([n] signers); and the list they are taken from is
    sorted by address bytes.  Without signers [inturn] panics. *)
Theorem inturn_round_robin {E} s number : 0 ≤ number →
  Sorted addr_le (signers s) ∧
  (Signers s ≠ ∅ → ∃ a, a ∈ Signers s ∧ ∀ b, @inturn E s number b = Ok true ↔ b = a) ∧
  (∀ a, a ∈ Signers s → ∃ k, 0 ≤ k < Z.of_nat (base.size (Signers s)) ∧ @inturn E s (number + k) a = Ok true) ∧
  (Signers s = ∅ → ∀ a, @inturn E s number a = Panic).
Proof.
  intros Hn. split_and!.
  - apply Sorted_merge_sort. apply _.
  - intros Hne.
    assert (Hpos : 0 < zlen (signers s)).
    { rewrite zlen_signers. destruct (decide (base.size (Signers s) = 0%nat)) as [H0|]; [|lia].
      apply size_empty_inv in H0. by apply leibniz_equiv in H0. }
    pose proof (Z.mod_pos_bound number _ Hpos).
    destruct (lookup_lt_is_Some_2 (signers s) (Z.to_nat (number mod zlen (signers s)))) as [a Ha].
    { unfold zlen in *. lia. }
    exists a. split; [apply signers_elem; by eapply list_elem_of_lookup_2|].
    intros b. rewrite inturn_iff by done. rewrite Ha. naive_solver.
  - intros a Ha. assert (Hne : Signers s ≠ ∅) by set_solver.
    apply signers_elem, list_elem_of_lookup in Ha as [i Hi]. pose proof (lookup_lt_Some _ _ _ Hi) as Hlt.
    rewrite <- zlen_signers. set (n := zlen (signers s)) in *. assert (0 < n) by (unfold n, zlen; lia).
    exists ((Z.of_nat i - number) mod n). pose proof (Z.mod_pos_bound (Z.of_nat i - number) n ltac:(lia)).
    split; [done|]. rewrite inturn_iff by (done || lia). fold n.
    rewrite Z.add_mod_idemp_r by lia. replace (number + (Z.of_nat i - number)) with (Z.of_nat i) by lia.
    rewrite Z.mod_small by (unfold n, zlen; lia). by rewrite Nat2Z.id.
  - intros He a. unfold inturn, umod. rewrite zlen_signers, He. done.
Qed.

Lemma inturn_round_robin_witness :
  inturn (E:=cliqueError) toy_genesis 4 12 = Ok true ∧
  ∃ a, a ∈ Signers toy_genesis ∧ ∀ b, inturn (E:=cliqueError) toy_genesis 4 b = Ok true ↔ b = a.
Proof.
  split; [vm_compute; reflexivity|].
  apply (inturn_round_robin (E:=cliqueError) toy_genesis 4); [lia|]. intros H.
  assert (Hin : 11 ∈ Signers toy_genesis) by (vm_compute; reflexivity). rewrite H in Hin. set_solver.
Defined.

(** The seal. For a well-formed header without withdrawals hash whose
    extra data holds a seal, the seal hash is the hash of the header with the
    seal cut off (and without the excess data gas, which the seal does not
    cover); two such headers with the same bytes to sign agree on everything
    else.  A header with a withdrawals hash makes sealing, and so verification
    of its seal, panic. *)
Theorem SealHash_unsealed keccak h1 h2 :
  wf_header h1 → wf_header h2 → WithdrawalsHash h1 = None → WithdrawalsHash h2 = None →
  65 ≤ zlen (Extra h1) → 65 ≤ zlen (Extra h2) →
  SealHash keccak h1 = Ok (Header_Hash keccak (unsealed h1)) ∧
  (CliqueRLP h1 = CliqueRLP h2 → unsealed h1 = unsealed h2) ∧
  (∀ h w, WithdrawalsHash h = Some w → SealHash keccak h = Panic).
Proof.
  intros W1 W2 N1 N2 E1 E2. unfold SealHash. rewrite !CliqueRLP_unsealed by done. split_and!.
  - cbn. f_equal. symmetry. apply Header_Hash_payload. by apply unsealed_wf.
  - intros [= E]. apply header_payload_inj; [by apply unsealed_wf..|done].
  - intros h w Hw. unfold CliqueRLP, sigHeader. rewrite Hw. destruct (slice _ _ _) eqn:Es; [done| |done].
    unfold slice in Es. case_if in Es; done.
Qed.

Lemma SealHash_unsealed_witness :
  SealHash toy_keccak example_header = Ok (Header_Hash toy_keccak (unsealed example_header)) ∧
  zlen (Extra (unsealed example_header)) = 32.
Proof.
  split; [|vm_compute; reflexivity].
  apply (SealHash_unsealed toy_keccak example_header example_header); try exact example_header_wf; try reflexivity;
    vm_compute; congruence.
Defined.
