(* ===== verification/CliqueEngine.v ===== *)
(** The Clique engine, [src/go-ethereum/consensus/clique/clique.go]: retrieving
    and caching snapshots, verifying headers and seals, preparing and sealing
    blocks; the snapshot database functions of snapshot.go; and the calls of
    api.go that change or read the engine.

    The engine's fields are the state of a state-and-error monad.  Parameters:
    the chain reader (an interface in the source), the key-value database and
    JSON coding behind stored snapshots, the hash and key recovery, the clock
    and the random choices. *)

From S2P Require Import Prelude Lru RLP Types Config Fees Clique.

(** [consensus.ChainHeaderReader]. *)
Record ChainHeaderReader := mkChain {
  ch_Config : ChainConfig;
  CurrentHeader : option Header;
  GetHeader : Z → Z → option Header;
  GetHeaderByNumber : Z → option Header;
  GetHeaderByHash : Z → option Header
}.

Definition FullImmutabilityThreshold : Z := 90000.
Definition CliqueSnapshotPrefix : bytes := be_bytes 7 0x636c697175652d.

(** The key-value store and the coding of snapshots. *)
Record Storage (DB : Type) := mkStorage {
  db_Get : DB → bytes → option bytes;
  db_Put : DB → bytes → bytes → option DB;
  json_Marshal : Snapshot → option bytes;
  json_Unmarshal : bytes → option Snapshot
}.
Arguments db_Get {DB} _ _ _.
Arguments db_Put {DB} _ _ _ _.
Arguments json_Marshal {DB} _ _.
Arguments json_Unmarshal {DB} _ _.

Definition set_config (config : CliqueConfig) (s : Snapshot) : Snapshot :=
  mkSnapshot config (sn_Number s) (sn_Hash s) (Signers s) (Recents s) (Votes s) (Tallies s).

Definition snapshot_key (hash : Z) : bytes := CliqueSnapshotPrefix ++ be_bytes 32 hash.

Definition loadSnapshot {DB} (st : Storage DB) (config : CliqueConfig) (db : DB) (hash : Z) : option Snapshot :=
  blob ← db_Get st db (snapshot_key hash);
  snap ← json_Unmarshal st blob;
  Some (set_config config snap).

Definition store {DB} (st : Storage DB) (db : DB) (s : Snapshot) : option DB :=
  blob ← json_Marshal st s;
  db_Put st db (snapshot_key (sn_Hash s)) blob.

(** The engine's fields. *)
Record Engine (DB RC SC : Type) := mkEngine {
  e_config : CliqueConfig;
  e_db : DB;
  e_recents : RC;
  e_signatures : SC;
  proposals : gmap Z bool;
  e_signer : Z;
  signFn : Z → bytes → outcome cliqueError bytes;
  fakeDiff : bool
}.
Arguments mkEngine {DB RC SC} _ _ _ _ _ _ _ _.
Arguments e_config {DB RC SC} _.
Arguments e_db {DB RC SC} _.
Arguments e_recents {DB RC SC} _.
Arguments e_signatures {DB RC SC} _.
Arguments proposals {DB RC SC} _.
Arguments e_signer {DB RC SC} _.
Arguments signFn {DB RC SC} _.
Arguments fakeDiff {DB RC SC} _.

Section Engine.
Context (keccak : bytes → Z).
Context (Ecrecover : bytes → bytes → outcome cliqueError bytes).
Context {DB RC SC : Type} `{!CacheLaws RC Z Snapshot} `{!CacheLaws SC Z Z}.
Context (st : Storage DB) (chain : ChainHeaderReader).

Abbreviation E := (Engine DB RC SC).
Abbreviation M := (stm E cliqueError).
Abbreviation hash_of := (Header_Hash keccak).

(** ** Access to the fields *)

Definition get_config : M CliqueConfig := fun c => (Ok (e_config c), c).
Definition get_fakeDiff : M bool := fun c => (Ok (fakeDiff c), c).
Definition get_signer : M Z := fun c => (Ok (e_signer c), c).
Definition get_signFn : M (Z → bytes → outcome cliqueError bytes) := fun c => (Ok (signFn c), c).
Definition get_proposals : M (gmap Z bool) := fun c => (Ok (proposals c), c).

Definition with_sigs {A} (m : stm SC cliqueError A) : M A := fun c =>
  let '(r, s) := m (e_signatures c) in
  (r, mkEngine (e_config c) (e_db c) (e_recents c) s (proposals c) (e_signer c) (signFn c) (fakeDiff c)).

Definition set_recents (r : RC) (c : E) : E :=
  mkEngine (e_config c) (e_db c) r (e_signatures c) (proposals c) (e_signer c) (signFn c) (fakeDiff c).
Definition set_db (d : DB) (c : E) : E :=
  mkEngine (e_config c) d (e_recents c) (e_signatures c) (proposals c) (e_signer c) (signFn c) (fakeDiff c).
Definition set_proposals (p : gmap Z bool) (c : E) : E :=
  mkEngine (e_config c) (e_db c) (e_recents c) (e_signatures c) p (e_signer c) (signFn c) (fakeDiff c).

Definition recents_get (hash : Z) : M (option Snapshot) := fun c =>
  match cache_get hash (e_recents c) with
  | Ok (o, r) => (Ok o, set_recents r c)
  | Err e => (Err e, c)
  | Panic => (Panic, c)
  end.
Definition recents_add (hash : Z) (s : Snapshot) : M unit := fun c =>
  match cache_add hash s (e_recents c) with
  | Ok r => (Ok tt, set_recents r c)
  | Err e => (Err e, c)
  | Panic => (Panic, c)
  end.

Definition store_snapshot (s : Snapshot) : M unit := fun c =>
  match store st (e_db c) s with
  | Some d => (Ok tt, set_db d c)
  | None => (Err errDatabase, c)
  end.

(** ** New, Author, Authorize and the proposals *)

Definition New (config : CliqueConfig) (db : DB) (recents : RC) (signatures : SC) : E :=
  let conf := if Epoch config =? 0 then mkCliqueConfig (Period config) epochLength else config in
  mkEngine conf db recents signatures ∅ 0 (fun _ _ => Panic) false.

Definition Author (header : Header) : M Z := with_sigs (ecrecover keccak Ecrecover header).

Definition Authorize (signer : Z) (fn : Z → bytes → outcome cliqueError bytes) : M unit := fun c =>
  (Ok tt, mkEngine (e_config c) (e_db c) (e_recents c) (e_signatures c) (proposals c) signer fn (fakeDiff c)).

Definition Proposals : M (gmap Z bool) := get_proposals.
Definition Propose (address : Z) (auth : bool) : M unit := fun c =>
  (Ok tt, set_proposals (<[address := auth]> (proposals c)) c).
Definition Discard (address : Z) : M unit := fun c =>
  (Ok tt, set_proposals (delete address (proposals c)) c).

(** ** Snapshots *)

(** The addresses listed in a checkpoint's extra data; [make] panics on a
    negative length. *)
Definition checkpoint_signers (extra : bytes) : outcome cliqueError (list Z) :=
  let n := Z.quot (zlen extra - extraVanity - extraSeal) AddressLength in
  if n <? 0 then Panic
  else Ok (map (fun i => be_value (take 20 (drop (32 + 20 * i) extra))) (seq 0 (Z.to_nat n))).

(** The loop that looks for a snapshot to start from: in memory, on disk, or
    at a trusted checkpoint; otherwise it gathers the header and moves back.
    [headers] is in the order they are gathered, newest first; [parents] is a
    stack with the newest on top. Running out of fuel returns [errOutOfFuel],
    which the code does not have. *)
Definition at_checkpoint (c : CliqueConfig) (number len : Z) : outcome cliqueError bool :=
  if number =? 0 then Ok true else
  r ← umod number (Epoch c);
  Ok ((r =? 0) && ((FullImmutabilityThreshold <? len)
                   || bool_decide (GetHeaderByNumber chain (u64 (number - 1)) = None))).

Definition gather (number hash : Z) (parents : list Header) : outcome cliqueError (Header * list Header) :=
  match parents with
  | header :: parents' =>
      n ← (if hash_of header =? hash then Number_Uint64 header else Ok (number + 1));
      if negb (hash_of header =? hash) || negb (n =? number) then Err ErrUnknownAncestor
      else Ok (header, parents')
  | [] =>
      match GetHeader chain hash number with
      | None => Err ErrUnknownAncestor
      | Some header => Ok (header, [])
      end
  end.

Definition load_checkpointed (number hash : Z) : M (option Snapshot) := fun c =>
  (Ok (if number mod checkpointInterval =? 0 then loadSnapshot st (e_config c) (e_db c) hash else None), c).

(** [Some] snapshot found at this point of the walk, if any. *)
Definition find_base (number hash len : Z) : M (option Snapshot) :=
  s ← recents_get hash;
  match s with
  | Some s => mret (Some s)
  | None =>
      s ← load_checkpointed number hash;
      match s with
      | Some s => mret (Some s)
      | None =>
          config ← get_config;
          trusted ← pure_out (at_checkpoint config number len);
          match (if trusted : bool then GetHeaderByNumber chain number else None) with
          | None => mret None
          | Some checkpoint =>
              signers ← pure_out (checkpoint_signers (Extra checkpoint));
              let snap := newSnapshot config number (hash_of checkpoint) signers in
              _ ← store_snapshot snap;
              mret (Some snap)
          end
      end
  end.

Fixpoint walk (fuel : nat) (number hash : Z) (parents headers : list Header) : M (Snapshot * list Header) :=
  match fuel with
  | O => pure_out (Err errOutOfFuel)
  | S fuel =>
      base ← find_base number hash (zlen headers);
      match base with
      | Some snap => mret (snap, headers)
      | None =>
          '(header, parents) ← pure_out (gather number hash parents);
          walk fuel (u64 (number - 1)) (ParentHash header) parents (headers ++ [header])
      end
  end.

(** [snapshot]; a walk takes at most [number + 1] steps down to the genesis. *)
Definition snapshot (number hash : Z) (parents : list Header) : M Snapshot :=
  '(snap, headers) ← walk (S (Z.to_nat number)) number hash (reverse parents) [];
  snap ← with_sigs (apply keccak Ecrecover snap (reverse headers));
  _ ← recents_add (sn_Hash snap) snap;
  _ ← (if (sn_Number snap mod checkpointInterval =? 0) && (0 <? zlen headers)
       then store_snapshot snap else mret tt);
  mret snap.

(** ** Verification *)

Definition VerifyUncles {Tx Wd} (block : Block Tx Wd) : outcome cliqueError unit :=
  guard_err (0 <? zlen (b_uncles block)) errUncles.

(** The difficulty must match the turn of the signer. *)
Definition verify_turn (snap : Snapshot) (header : Header) (number signer : Z) : outcome cliqueError unit :=
  turn ← inturn snap number signer;
  difficulty ← deref (Difficulty header);
  _ ← guard_err (turn && negb (difficulty =? diffInTurn)) errWrongDifficulty;
  guard_err (negb turn && negb (difficulty =? diffNoTurn)) errWrongDifficulty.

Definition verifySeal (snap : Snapshot) (header : Header) : M unit :=
  number ← pure_out (Number_Uint64 header);
  _ ← pure_out (guard_err (number =? 0) errUnknownBlock);
  signer ← with_sigs (ecrecover keccak Ecrecover header);
  _ ← pure_out (guard_err (negb (bool_decide (signer ∈ Signers snap))) errUnauthorizedSigner);
  let limit := signer_limit snap in
  _ ← pure_out (guard_err (existsb (fun '(seen, recent) => (recent =? signer) && (u64 (number - limit) <? seen))
                                   (map_to_list (Recents snap))) errRecentlySigned);
  fake ← get_fakeDiff;
  if fake : bool then mret tt else pure_out (verify_turn snap header number signer).

(** The checks of [verifyHeader] on the header alone; [now] is the clock. *)
Definition verify_standalone (config : CliqueConfig) (now : Z) (header : Header) : outcome cliqueError unit :=
  num ← (match Number header with None => Err errUnknownBlock | Some n => Ok n end);
  let number := big_Uint64 num in
  _ ← guard_err (u64 now <? Time header) ErrFutureBlock;
  r ← umod number (Epoch config);
  let checkpoint := r =? 0 in
  _ ← guard_err (checkpoint && negb (Coinbase header =? 0)) errInvalidCheckpointBeneficiary;
  let nonce := be_bytes 8 (Nonce header) in
  _ ← guard_err (negb (bool_decide (nonce = nonceAuthVote)) && negb (bool_decide (nonce = nonceDropVote))) errInvalidVote;
  _ ← guard_err (checkpoint && negb (bool_decide (nonce = nonceDropVote))) errInvalidCheckpointVote;
  _ ← guard_err (zlen (Extra header) <? extraVanity) errMissingVanity;
  _ ← guard_err (zlen (Extra header) <? extraVanity + extraSeal) errMissingSignature;
  let signersBytes := zlen (Extra header) - extraVanity - extraSeal in
  _ ← guard_err (negb checkpoint && negb (signersBytes =? 0)) errExtraSigners;
  _ ← guard_err (checkpoint && negb (Z.rem signersBytes AddressLength =? 0)) errInvalidCheckpointSigners;
  _ ← guard_err (negb (MixDigest header =? 0)) errInvalidMixDigest;
  _ ← guard_err (negb (UncleHash header =? CalcUncleHash keccak [])) errInvalidUncleHash;
  _ ← guard_err ((0 <? number)
                 && match Difficulty header with
                    | None => true
                    | Some d => negb (d =? diffInTurn) && negb (d =? diffNoTurn)
                    end) errInvalidDifficulty;
  _ ← guard_err (MaxGasLimit <? GasLimit header) errGasLimitTooHigh;
  _ ← guard_err (IsShanghai (ch_Config chain) (Time header)) errShanghai;
  guard_err (IsCancun (ch_Config chain) (Time header)) errCancun.

(** The checks of [verifyCascadingFields] against the parent header. *)
Definition verify_parent (config : CliqueConfig) (parent : option Header) (header : Header) (number : Z)
    : outcome cliqueError unit :=
  parent ← (match parent with None => Err ErrUnknownAncestor | Some p => Ok p end);
  pn ← Number_Uint64 parent;
  _ ← guard_err (negb (pn =? u64 (number - 1)) || negb (hash_of parent =? ParentHash header)) ErrUnknownAncestor;
  _ ← guard_err (Time header <? u64 (Time parent + Period config)) errInvalidTimestamp;
  _ ← guard_err (GasLimit header <? GasUsed header) errGasUsed;
  if negb (IsLondon (ch_Config chain) (Number header)) then
    _ ← guard_err (bool_decide (is_Some (BaseFee header))) errBaseFeeBeforeFork;
    map_err errFee (VerifyGaslimit (GasLimit parent) (GasLimit header))
  else map_err errFee (VerifyEip1559Header (ch_Config chain) parent header).

(** The signer list a checkpoint must carry. *)
Definition signer_bytes (snap : Snapshot) : bytes := concat (map (be_bytes 20) (signers snap)).

Definition verify_checkpoint (config : CliqueConfig) (snap : Snapshot) (header : Header) (number : Z)
    : outcome cliqueError unit :=
  r ← umod number (Epoch config);
  if r =? 0 then
    listed ← slice (Extra header) extraVanity (zlen (Extra header) - extraSeal);
    guard_err (negb (bool_decide (listed = signer_bytes snap))) errMismatchingCheckpointSigners
  else Ok tt.

Definition verifyCascadingFields (header : Header) (parents : list Header) : M unit :=
  number ← pure_out (Number_Uint64 header);
  if number =? 0 then mret tt else
  let parent := match list.last parents with
                | Some p => Some p
                | None => GetHeader chain (ParentHash header) (u64 (number - 1))
                end in
  config ← get_config;
  _ ← pure_out (verify_parent config parent header number);
  snap ← snapshot (u64 (number - 1)) (ParentHash header) parents;
  _ ← pure_out (verify_checkpoint config snap header number);
  verifySeal snap header.

Definition verifyHeader (now : Z) (header : Header) (parents : list Header) : M unit :=
  config ← get_config;
  _ ← pure_out (verify_standalone config now header);
  verifyCascadingFields header parents.

Definition VerifyHeader (now : Z) (header : Header) : M unit := verifyHeader now header [].

(** [VerifyHeaders] without an abort: each header with the earlier ones as
    parents, one result each, in order. *)
Fixpoint verify_batch (now : Z) (done_ todo : list Header) (c : E) : list (outcome cliqueError unit) * E :=
  match todo with
  | [] => ([], c)
  | h :: todo' =>
      let '(r, c) := verifyHeader now h done_ c in
      let '(rs, c) := verify_batch now (done_ ++ [h]) todo' c in
      (r :: rs, c)
  end.
Definition VerifyHeaders (now : Z) (headers : list Header) (c : E) : list (outcome cliqueError unit) * E :=
  verify_batch now [] headers c.

(** ** Preparing and sealing *)

Definition calcDifficulty (snap : Snapshot) (signer : Z) : outcome cliqueError Z :=
  i ← inturn snap (u64 (sn_Number snap + 1)) signer;
  Ok (if i : bool then diffInTurn else diffNoTurn).

(** [CalcDifficulty] returns nil when there is no snapshot. *)
Definition CalcDifficulty (parent : Header) : M (option Z) := fun c =>
  match (number ← pure_out (Number_Uint64 parent); snapshot number (hash_of parent) []) c with
  | (Ok snap, c) => (Some <$> calcDifficulty snap (e_signer c), c)
  | (Err _, c) => (Ok None, c)
  | (Panic, c) => (Panic, c)
  end.

(** The vote [Prepare] casts: one of the pending proposals that make sense, at
    the random index [pick]. *)
Definition choose_vote (snap : Snapshot) (props : gmap Z bool) (pick : nat) : option (Z * bool) :=
  let sensible := filter (fun p => validVote snap p.1 p.2 = true) (map_to_list props) in
  sensible !! (pick mod length sensible)%nat.

(** Vanity, signer list at checkpoints, and room for the seal. *)
Definition prepare_extra (extra : bytes) (checkpoint : bool) (snap : Snapshot) : bytes :=
  let extra := extra ++ replicate (32 - length extra) (z2b 0) in
  let extra := take 32 extra in
  let extra := if checkpoint then extra ++ signer_bytes snap else extra in
  extra ++ replicate 65 (z2b 0).

Definition Prepare (now : Z) (pick : nat) (header : Header) : M Header :=
  let header := set_Nonce 0 (set_Coinbase 0 header) in
  number ← pure_out (Number_Uint64 header);
  snap ← snapshot (u64 (number - 1)) (ParentHash header) [];
  config ← get_config;
  r ← pure_out (umod number (Epoch config));
  props ← get_proposals;
  let header :=
    if negb (r =? 0) then
      match choose_vote snap props pick with
      | Some (address, auth) =>
          set_Nonce (be_value (if auth : bool then nonceAuthVote else nonceDropVote)) (set_Coinbase address header)
      | None => header
      end
    else header in
  signer ← get_signer;
  difficulty ← pure_out (calcDifficulty snap signer);
  let header := set_Difficulty (Some difficulty) header in
  let header := set_Extra (prepare_extra (Extra header) (r =? 0) snap) header in
  let header := set_MixDigest 0 header in
  match GetHeader chain (ParentHash header) (u64 (number - 1)) with
  | None => pure_out (Err ErrUnknownAncestor)
  | Some parent =>
      let time := u64 (Time parent + Period config) in
      mret (set_Time (if time <? u64 now then u64 now else time) header)
  end.

(** [copy(header.Extra[len-65:], sighash)]. *)
Definition put_seal (extra sighash : bytes) : outcome cliqueError bytes :=
  head ← slice extra 0 (zlen extra - extraSeal);
  tail ← slice extra (zlen extra - extraSeal) (zlen extra);
  let sig := take 65 sighash in
  Ok (head ++ sig ++ drop (length sig) tail).

(** [Seal] up to the background wait: the sealed block and the delay in
    nanoseconds after which it is sent; [now] is in nanoseconds and [jitter]
    the random part of an out-of-turn delay. *)
Definition wiggleTime : Z := 500 * 1000000.
(** [time.Time.Sub] saturates to the range of a [Duration]. *)
Definition saturate (d : Z) : Z := Z.max (- 2 ^ 63) (Z.min d (2 ^ 63 - 1)).

Definition Seal {Tx Wd} (now jitter : Z) (block : Block Tx Wd) : M (Block Tx Wd * Z) :=
  let header := Block_Header block in
  number ← pure_out (Number_Uint64 header);
  _ ← pure_out (guard_err (number =? 0) errUnknownBlock);
  config ← get_config;
  _ ← pure_out (guard_err ((Period config =? 0) && (zlen (b_transactions block) =? 0)) errSealingPaused);
  signer ← get_signer;
  fn ← get_signFn;
  snap ← snapshot (u64 (number - 1)) (ParentHash header) [];
  _ ← pure_out (guard_err (negb (bool_decide (signer ∈ Signers snap))) errUnauthorizedSigner);
  let limit := signer_limit snap in
  _ ← pure_out (guard_err (existsb (fun '(seen, recent) =>
                                      (recent =? signer) && ((number <? limit) || (u64 (number - limit) <? seen)))
                                   (map_to_list (Recents snap))) errSignedRecently);
  difficulty ← pure_out (deref (Difficulty header));
  let delay := saturate (i64 (Time header) * 1000000000 - now) in
  let delay := if difficulty =? diffNoTurn then i64 (delay + jitter mod (limit * wiggleTime)) else delay in
  msg ← pure_out (CliqueRLP header);
  sighash ← pure_out (fn signer msg);
  extra ← pure_out (put_seal (Extra header) sighash);
  mret (WithSeal block (set_Extra extra header), delay).

(** The background wait: nothing is sent when sealing was stopped first, or
    when nobody reads the result. *)
Definition Seal_deliver {Tx Wd} (stopped reader_ready : bool) (sealed : Block Tx Wd) : option (Block Tx Wd) :=
  if stopped then None else if reader_ready then Some sealed else None.

Definition FinalizeAndAssemble {Tx Wd Rc} (tx_index : Tx → bytes) (rc_index : Rc → bytes)
    (CreateBloom : list Rc → Z) (hasher : TrieHasher) (hs : hasher_state hasher) (root : Z) (header : Header)
    (txs : list Tx) (receipts : list Rc) (withdrawals : list Wd) : outcome cliqueError (Block Tx Wd) :=
  _ ← guard_err (0 <? zlen withdrawals) errWithdrawals;
  Ok (Types.NewBlock keccak tx_index rc_index CreateBloom hasher hs (set_Root root header) txs [] receipts).

(** ** The RPC calls on snapshots *)

(** [GetSnapshot]: [number] is [None] for the latest block. *)
Definition api_header (number : option Z) : option Header :=
  match number with None => CurrentHeader chain | Some n => GetHeaderByNumber chain (u64 n) end.
Definition snapshot_of (header : option Header) : M Snapshot :=
  match header with
  | None => pure_out (Err errUnknownBlock)
  | Some h => number ← pure_out (Number_Uint64 h); snapshot number (hash_of h) []
  end.
Definition GetSnapshot (number : option Z) : M Snapshot := snapshot_of (api_header number).
Definition GetSnapshotAtHash (hash : Z) : M Snapshot := snapshot_of (GetHeaderByHash chain hash).
Definition GetSigners (number : option Z) : M (list Z) := s ← snapshot_of (api_header number); mret (signers s).
Definition GetSignersAtHash (hash : Z) : M (list Z) :=
  s ← snapshot_of (GetHeaderByHash chain hash); mret (signers s).

End Engine.

(** ** Replaying headers in batches

    An iteration does not read the number and hash of the snapshot, so headers
    applied in one batch or one by one give the same result. *)

Definition with_meta (n h : Z) (s : Snapshot) : Snapshot :=
  mkSnapshot (sn_config s) n h (Signers s) (Recents s) (Votes s) (Tallies s).

Lemma uncast_with_meta n h s a b :
  uncast (with_meta n h s) a b = ((uncast s a b).1, with_meta n h (uncast s a b).2).
Proof.
  unfold uncast. cbn [with_meta Tallies]. destruct (Tallies s !! a); [|done].
  destruct (negb _); [done|]. by destruct (1 <? _).
Qed.

Lemma expire_recent_with_meta n h k s : expire_recent k (with_meta n h s) = with_meta n h (expire_recent k s).
Proof. unfold expire_recent. change (signer_limit (with_meta n h s)) with (signer_limit s). by destruct (_ <=? k). Qed.

Lemma discard_vote_with_meta n h a b s : discard_vote a b (with_meta n h s) = with_meta n h (discard_vote a b s).
Proof.
  unfold discard_vote. cbn [with_meta Votes]. destruct (first_vote a b (Votes s)) as [[v r]|]; [|done].
  by rewrite uncast_with_meta.
Qed.

Lemma record_vote_with_meta n h a k b x s :
  record_vote a k b x (with_meta n h s) = with_meta n h (record_vote a k b x s).
Proof.
  unfold record_vote, cast. change (validVote (with_meta n h s) b x) with (validVote s b x).
  cbn [with_meta Tallies]. destruct (validVote s b x); [|done]. by destruct (Tallies s !! b).
Qed.

Lemma discard_cast_by_with_meta n h who todo : ∀ kept s,
  discard_cast_by who kept todo (with_meta n h s) = with_meta n h (discard_cast_by who kept todo s).
Proof.
  induction todo as [|v todo IH]; intros kept s; cbn [discard_cast_by]; [done|].
  destruct (_ =? who); [|apply IH]. rewrite uncast_with_meta. apply IH.
Qed.

Lemma pass_vote_with_meta n h k a s : pass_vote k a (with_meta n h s) = with_meta n h (pass_vote k a s).
Proof.
  unfold pass_vote. cbn [with_meta Tallies Signers]. destruct (_ <? _); [|done].
  destruct (t_Authorize _); [done|].
  change (set_Signers (Signers s ∖ {[a]}) (with_meta n h s)) with (with_meta n h (set_Signers (Signers s ∖ {[a]}) s)).
  rewrite expire_recent_with_meta. cbn [with_meta Votes]. by rewrite discard_cast_by_with_meta.
Qed.

Lemma apply_header_with_meta n h s hd rec :
  apply_header (with_meta n h s) hd rec = with_meta n h <$> apply_header s hd rec.
Proof.
  unfold apply_header. destruct (Number_Uint64 hd) as [k| |]; cbn [mbind outcome_bind fmap outcome_fmap]; [|done|done].
  cbn [with_meta sn_config].
  destruct (umod k (Epoch (sn_config s))) as [r| |]; cbn [mbind outcome_bind]; [|done|done].
  assert (Er : (if r =? 0 then reset_votes (with_meta n h s) else with_meta n h s) =
               with_meta n h (if r =? 0 then reset_votes s else s)) by by destruct (r =? 0).
  change (mkSnapshot (sn_config s) n h (Signers s) (Recents s) (Votes s) (Tallies s)) with (with_meta n h s).
  rewrite Er, expire_recent_with_meta. set (s0 := expire_recent k _).
  destruct rec as [a| |]; cbn [mbind outcome_bind]; [|done|done].
  cbn [with_meta Signers Recents]. destruct (guard_err _ errUnauthorizedSigner); cbn [mbind outcome_bind]; [|done|done].
  destruct (guard_err _ errRecentlySigned); cbn [mbind outcome_bind]; [|done|done].
  change (set_Recents (<[k := a]> (Recents s0)) (with_meta n h s0))
    with (with_meta n h (set_Recents (<[k := a]> (Recents s0)) s0)).
  destruct (nonce_vote (Nonce hd)) as [b| |]; cbn [mbind outcome_bind]; [|done|done].
  by rewrite discard_vote_with_meta, record_vote_with_meta, pass_vote_with_meta.
Qed.

Lemma replay_with_meta recf n h hs : ∀ s, replay recf (with_meta n h s) hs = with_meta n h <$> replay recf s hs.
Proof.
  induction hs as [|x hs IH]; intros s; cbn [replay]; [done|]. rewrite apply_header_with_meta.
  destruct (apply_header s x (recf x)); cbn; [apply IH|done|done].
Qed.

Lemma numbered_contiguous n hs : 0 ≤ n → n + zlen hs < 2 ^ 64 → numbered n hs → contiguous hs = Ok tt.
Proof.
  revert n. induction hs as [|a [|b hs] IH]; intros n Hn Hl Hm; [done|done|].
  apply numbered_cons in Hm as [Ha Hm]. pose proof (proj1 (numbered_cons _ _ _) Hm) as [Hb _].
  rewrite !zlen_cons in Hl. pose proof (zlen_nonneg hs).
  assert (Hr : contiguous (b :: hs) = Ok tt) by (apply (IH (n + 1)); [lia|rewrite zlen_cons; lia|done]).
  change (contiguous (a :: b :: hs)) with
    (nb ← Number_Uint64 b; na ← Number_Uint64 a;
     _ ← guard_err (negb (nb =? u64 (na + 1))) errInvalidVotingChain; contiguous (b :: hs)).
  rewrite Hr, Ha, Hb. cbn [mbind outcome_bind].
  by rewrite (u64_small (n + 1 + 1)), Z.eqb_refl by (unfold is_u64; lia).
Qed.

Section Batches.
Context (keccak : bytes → Z) (Ecrecover : bytes → bytes → outcome cliqueError bytes).

Lemma apply_ref_numbered s f hs : numbered (sn_Number s) (f :: hs) → 0 ≤ sn_Number s →
  sn_Number s + zlen (f :: hs) < 2 ^ 64 →
  apply_ref keccak Ecrecover s (f :: hs) =
  with_meta (sn_Number s + zlen (f :: hs)) (Header_Hash keccak (List.last (f :: hs) f))
    <$> replay (recover keccak Ecrecover) s (f :: hs).
Proof.
  intros Hn H0 Hl. unfold apply_ref. rewrite (numbered_contiguous (sn_Number s)) by done.
  destruct (proj1 (numbered_cons _ _ _) Hn) as [Hf _]. rewrite Hf. cbn [mbind outcome_bind].
  pose proof (zlen_nonneg hs). rewrite zlen_cons in Hl.
  rewrite u64_small, Z.eqb_refl by (unfold is_u64; lia). cbn [negb guard_err mbind outcome_bind].
  destruct (replay (recover keccak Ecrecover) s (f :: hs)) as [s1| |] eqn:E; cbn [mbind outcome_bind fmap outcome_fmap]; [|done|done].
  assert (En : sn_Number s1 = sn_Number s).
  { clear -E. revert s E. generalize (f :: hs) as l. induction l as [|x l IH]; intros s E; cbn in E; [by simplify_eq|].
    apply bind_ok in E as (s2 & E1 & E2). apply apply_header_number in E1 as [<- _]. by apply IH. }
  unfold with_meta. rewrite En, u64_small; [done|]. unfold is_u64. rewrite zlen_cons. lia.
Qed.

(** One more header. *)
Lemma apply_ref_snoc s hs h s1 s2 : 0 ≤ sn_Number s → sn_Number s + zlen hs + 1 < 2 ^ 64 →
  numbered (sn_Number s) (hs ++ [h]) →
  apply_ref keccak Ecrecover s hs = Ok s1 → apply_ref keccak Ecrecover s1 [h] = Ok s2 →
  apply_ref keccak Ecrecover s (hs ++ [h]) = Ok s2.
Proof.
  intros H0 Hl Hn H1 H2. destruct hs as [|f hs]; [cbn in H1; by simplify_eq|].
  pose proof (numbered_app _ _ _ Hn) as [Hn1 Hn2].
  rewrite apply_ref_numbered in H1 by (done || lia). apply fmap_ok in H1 as (r1 & H1 & ->).
  change (apply_ref keccak Ecrecover s ((f :: hs) ++ [h])) with (apply_ref keccak Ecrecover s (f :: (hs ++ [h]))).
  rewrite apply_ref_numbered; [|done|done|rewrite zlen_cons in *; rewrite zlen_app; change (zlen [h]) with 1; lia].
  rewrite app_comm_cons, replay_app, H1. cbn [mbind outcome_bind].
  rewrite apply_ref_numbered in H2; [|done|cbn [with_meta sn_Number]; pose proof (zlen_nonneg (f :: hs)); lia|
    change (zlen [h]) with 1; cbn [with_meta sn_Number]; lia].
  rewrite replay_with_meta in H2.
  destruct (replay (recover keccak Ecrecover) r1 [h]) as [r2| |] eqn:E2; cbn [fmap outcome_fmap] in *; [|done|done].
  injection H2 as <-. f_equal. unfold with_meta. cbn [sn_config sn_Number Signers Recents Votes Tallies].
  rewrite zlen_app, (zlen_cons h []), zlen_nil, List.last_last. cbn [List.last]. f_equal. lia.
Qed.
End Batches.

(** ** Retrieving a snapshot

    [anc hash n h] says that [h] is the block number [n] with that hash on the
    chain in question, known to the chain reader or passed in as a parent. *)

Section Retrieve.
Context (keccak : bytes → Z) (Ecrecover : bytes → bytes → outcome cliqueError bytes).
Context {DB RC SC : Type} `{!CacheLaws RC Z Snapshot} `{!CacheLaws SC Z Z}.
Context (st : Storage DB) (chain : ChainHeaderReader) (cfg : CliqueConfig).
Context (anc : Z → Z → Header → Prop) (top : Z).

Abbreviation E := (Engine DB RC SC).
Abbreviation hash_of := (Header_Hash keccak).

(** The chain: hashes identify blocks, numbers count from a single genesis,
    and every number up to [top] has a canonical header. *)
Record ancestry : Prop := {
  an_unique : ∀ hash n n' h h', anc hash n h → anc hash n' h' → n = n' ∧ h = h';
  an_hash : ∀ hash n h, anc hash n h →
    hash_of h = hash ∧ Number_Uint64 h = (Ok n : outcome cliqueError Z) ∧ 0 ≤ n < 2 ^ 64 - 1 ∧ 0 ≤ hash < 2 ^ 256;
  an_parent : ∀ hash n h, anc hash n h → 0 < n → ∃ p, anc (ParentHash h) (n - 1) p;
  an_genesis : ∃ g, GetHeaderByNumber chain 0 = Some g ∧ ∀ hash h, anc hash 0 h → h = g;
  an_dense : ∀ k, 0 ≤ k ≤ top → GetHeaderByNumber chain k ≠ None;
  an_epoch : Epoch cfg ≠ 0;
  an_collision : no_collision keccak Ecrecover (fun h => ∃ hash n, anc hash n h)
}.

(** The database returns what was put, and JSON coding keeps all but the
    configuration. *)
Record storage_ok : Prop := {
  so_put : ∀ db k v db', db_Put st db k v = Some db' →
    db_Get st db' k = Some v ∧ ∀ k', k' ≠ k → db_Get st db' k' = db_Get st db k';
  so_json : ∀ s b, json_Marshal st s = Some b →
    ∃ s', json_Unmarshal st b = Some s' ∧ ∀ config, set_config config s' = set_config config s
}.

(** The snapshot of a block: the checkpoint snapshot of the genesis, with the
    headers up to the block applied one by one. *)
Inductive snap_at : Z → Z → Snapshot → Prop :=
| at_genesis hash g l : GetHeaderByNumber chain 0 = Some g → anc hash 0 g →
    checkpoint_signers (Extra g) = Ok l → snap_at 0 hash (newSnapshot cfg 0 hash l)
| at_step n hash h s s' : anc hash n h → 0 < n → snap_at (n - 1) (ParentHash h) s →
    apply_ref keccak Ecrecover s [h] = Ok s' → snap_at n hash s'.

(** Where the walk finds the headers: on the stack of parents, then in the
    chain reader. *)
Inductive stored : Z → Z → Prop :=
| stored_genesis hash h : GetHeader chain hash 0 = Some h → anc hash 0 h → stored hash 0
| stored_step hash n h : GetHeader chain hash n = Some h → anc hash n h →
    stored (ParentHash h) (n - 1) → stored hash n.
Fixpoint sourced (hash n : Z) (parents : list Header) : Prop :=
  match parents with
  | [] => stored hash n
  | p :: ps => anc hash n p ∧ (n = 0 ∨ sourced (ParentHash p) (n - 1) ps)
  end.

(** Caches and database only hold snapshots of the chain. *)
Record engine_ok (c : E) : Prop := {
  eo_config : e_config c = cfg;
  eo_sigs : coherent keccak Ecrecover (fun h => ∃ hash n, anc hash n h) (e_signatures c);
  eo_valid : cache_valid (e_recents c);
  eo_recents : ∀ hash n h s, anc hash n h → cache_holds (e_recents c) hash s → snap_at n hash s;
  eo_db : ∀ hash n h s, anc hash n h → loadSnapshot st cfg (e_db c) hash = Some s → snap_at n hash s
}.

Lemma snap_at_meta n hash s : ancestry → snap_at n hash s → sn_Number s = n ∧ sn_Hash s = hash ∧ sn_config s = cfg.
Proof.
  intros Ha. induction 1 as [hash g l Hg Han Hl|n hash h s s' Han Hn Hs [IH1 [IH2 IH3]] Happ]; [done|].
  destruct (an_hash Ha _ _ _ Han) as (Eh & En & Hr & _).
  rewrite apply_ref_numbered in Happ.
  - apply fmap_ok in Happ as (r & Hr' & ->). cbn. split_and!.
    + rewrite IH1. change (zlen [h]) with 1. lia.
    + done.
    + cbn in Hr'. apply bind_ok in Hr' as (s1 & H1 & [= ->]). apply apply_header_number in H1 as [_ ->]. done.
  - apply numbered_cons. split; [rewrite En; f_equal; lia|by intros i ?].
  - lia.
  - change (zlen [h]) with 1. lia.
Qed.

Lemma snap_at_anc n hash s : snap_at n hash s → ∃ h, anc hash n h.
Proof. destruct 1; eauto. Qed.

Lemma snap_at_unique : ancestry → ∀ n hash s s', snap_at n hash s → snap_at n hash s' → s = s'.
Proof.
  intros Ha n hash s s' H. revert s'. induction H as [hash g l Hg Han Hl|n hash h s s1 Han Hn Hs IH Happ]; intros s' H';
    inv H'; [congruence|lia|lia|].
  destruct (an_unique Ha hash n n h h0) as [_ <-]; [done|done|].
  assert (s = s0) as <- by by apply IH. congruence.
Qed.

Lemma snapshot_key_inj h1 h2 : 0 ≤ h1 < 2 ^ 256 → 0 ≤ h2 < 2 ^ 256 → snapshot_key h1 = snapshot_key h2 → h1 = h2.
Proof. unfold snapshot_key. intros H1 H2 E. apply app_inv_head in E. by apply (be_bytes_inj 32) in E. Qed.

(** Storing a snapshot of the chain keeps the database right. *)
Lemma store_ok c n hash s c' r : ancestry → storage_ok → engine_ok c → snap_at n hash s →
  store_snapshot st s c = (r, c') → engine_ok c' ∧ (r = Ok tt ∨ r = Err errDatabase).
Proof.
  intros Ha Hst Hc Hs. destruct (snap_at_meta n hash s Ha Hs) as (En & Eh & Ec).
  destruct (snap_at_anc _ _ _ Hs) as [h Hh]. unfold store_snapshot, store. rewrite Eh.
  destruct (json_Marshal st s) as [b|] eqn:Ej; cbn [mbind option_bind]; [|intros [= <- <-]; auto].
  destruct (db_Put st (e_db c) (snapshot_key hash) b) as [db'|] eqn:Ep; intros [= <- <-]; [|auto].
  split; [|auto]. destruct (so_put Hst _ _ _ _ Ep) as [Hp1 Hp2]. destruct (so_json Hst _ _ Ej) as (s1 & Hj1 & Hj2).
  destruct Hc as [C1 C2 C3 C4 C5]. split; try done. cbn [set_db e_db].
  intros hash' n' h' s' Han. unfold loadSnapshot. destruct (decide (hash' = hash)) as [->|Hne].
  - rewrite Hp1. cbn [mbind option_bind]. rewrite Hj1. cbn [mbind option_bind]. intros [= <-]. rewrite Hj2.
    replace (set_config cfg s) with s by (destruct s; cbn in *; by subst).
    by destruct (an_unique Ha hash n n' h h') as [<- _].
  - rewrite Hp2; [by apply C5 with h'|]. intros E. apply Hne.
    apply snapshot_key_inj in E; [done| |]; eapply an_hash; eauto.
Qed.

Lemma recents_get_ok c hash : engine_ok c → ∃ o c', recents_get hash c = (Ok o, c') ∧ engine_ok c' ∧
  ∀ s n h, o = Some s → anc hash n h → snap_at n hash s.
Proof.
  intros [C1 C2 C3 C4 C5]. unfold recents_get.
  destruct (cache_get_ok cliqueError hash (e_recents c) C3) as (o & r & -> & Hv & Ho & Hr).
  eexists _, _. split; [done|]. split.
  - split; cbn; try done. intros hash' n h s Han Hh. eapply C4; eauto.
  - intros s n h -> Han. eapply C4; eauto.
Qed.

Lemma recents_add_ok c n hash s : ancestry → engine_ok c → snap_at n hash s →
  ∃ c', recents_add hash s c = (Ok tt, c') ∧ engine_ok c'.
Proof.
  intros Ha [C1 C2 C3 C4 C5] Hs. unfold recents_add. destruct (snap_at_anc _ _ _ Hs) as [h Hh].
  destruct (cache_add_ok cliqueError hash s (e_recents c) C3) as (r & -> & Hv & Hr).
  eexists. split; [done|]. split; cbn; try done. intros hash' n' h' s' Han Hh'.
  destruct (Hr _ _ Hh') as [[-> ->]|Hold]; [|by eapply C4].
  by destruct (an_unique Ha hash n n' h h') as [<- _].
Qed.

(** One look for a base snapshot. *)
Lemma find_base_ok c n hash s len : ancestry → storage_ok → engine_ok c → snap_at n hash s →
  n ≤ top + 1 → len ≤ FullImmutabilityThreshold →
  ∃ r c', find_base keccak st chain n hash len c = (r, c') ∧ engine_ok c' ∧
    (r = Ok (Some s) ∨ (r = Ok None ∧ 0 < n) ∨ r = Err errDatabase).
Proof.
  intros Ha Hst Hc Hs Htop Hlen. destruct (snap_at_anc _ _ _ Hs) as [h Hh].
  destruct (an_hash Ha _ _ _ Hh) as (Eh & En & Hr & _).
  unfold find_base, mbind, stm_bind, pure_out, get_config, load_checkpointed.
  destruct (recents_get_ok c hash Hc) as (o & c1 & -> & Hc1 & Ho).
  destruct o as [s0|].
  { assert (s0 = s) as -> by (eapply snap_at_unique; eauto). eexists _, _. split; [done|]. auto. }
  destruct (if n mod checkpointInterval =? 0 then loadSnapshot st (e_config c1) (e_db c1) hash else None) as [s0|] eqn:El.
  { destruct (n mod checkpointInterval =? 0); [|done]. rewrite (eo_config _ Hc1) in El.
    assert (s0 = s) as -> by (eapply snap_at_unique; [done| |done]; by eapply eo_db).
    eexists _, _. split; [done|]. auto. }
  rewrite (eo_config _ Hc1). unfold at_checkpoint. destruct (n =? 0) eqn:E0; zbool.
  - subst n. inversion Hs as [hash0 g l Hg Hag Hl E1 E2 E3|]; [subst hash0 s|lia]. rewrite Hg, Hl.
    assert (hash_of g = hash) as -> by by eapply an_hash.
    destruct (store_snapshot st (newSnapshot cfg 0 hash l) c1) as [r c2] eqn:Est.
    edestruct (store_ok c1 0 hash (newSnapshot cfg 0 hash l)) as [Hc2 [-> | ->]]; eauto.
    + eexists _, _. split; [done|]. auto.
    + eexists _, _. split; [done|]. auto.
  - unfold umod. rewrite (proj2 (Z.eqb_neq _ _) (an_epoch Ha)). cbn [mbind outcome_bind].
    rewrite (proj2 (Z.ltb_ge FullImmutabilityThreshold len)) by done. cbn [orb].
    rewrite u64_small by (unfold is_u64; lia).
    rewrite bool_decide_eq_false_2 by (apply (an_dense Ha); lia). rewrite andb_false_r.
    eexists _, _. split; [done|]. split; [done|]. right. left. split; [done|lia].
Qed.
Lemma numbered_snoc n l h : numbered n l → Number_Uint64 h = (Ok (n + zlen l + 1) : outcome cliqueError Z) →
  numbered n (l ++ [h]).
Proof.
  intros Hl Hh i x [Hi|[Hi Hx]]%lookup_app_Some; [by apply Hl|].
  apply list_lookup_singleton_Some in Hx as [E <-]. rewrite Hh. f_equal. unfold zlen. lia.
Qed.

Lemma gather_ok n hash h parents : ancestry → anc hash n h → 0 < n → sourced hash n parents →
  ∃ parents', gather keccak chain n hash parents = Ok (h, parents') ∧ sourced (ParentHash h) (n - 1) parents'.
Proof.
  intros Ha Hh Hn Hs. destruct parents as [|p ps]; cbn [sourced gather] in *.
  - destruct Hs as [hash x Hx Hax|hash n x Hx Hax Hs]; [lia|].
    destruct (an_unique Ha hash n n h x) as [_ <-]; [done|done|]. rewrite Hx. by exists [].
  - destruct Hs as [Hp [Hs|Hs]]; [lia|].
    destruct (an_unique Ha hash n n h p) as [_ <-]; [done|done|].
    destruct (an_hash Ha _ _ _ Hh) as (Eh & En & _). rewrite Eh, Z.eqb_refl, En. cbn [mbind outcome_bind].
    rewrite Z.eqb_refl. by exists ps.
Qed.

Lemma walk_ok : ancestry → storage_ok → ∀ n hash s, snap_at n hash s → ∀ fuel parents headers c,
  engine_ok c → sourced hash n parents → (Z.to_nat n < fuel)%nat → n ≤ top + 1 →
  zlen headers + n ≤ FullImmutabilityThreshold →
  ∃ r c', walk keccak st chain fuel n hash parents headers c = (r, c') ∧ engine_ok c' ∧
    (r = Err errDatabase ∨ ∃ s0 hs, r = Ok (s0, headers ++ hs) ∧
       Forall (fun h => ∃ hash n, anc hash n h) hs ∧ numbered (sn_Number s0) (reverse hs) ∧
       0 ≤ sn_Number s0 ∧ sn_Number s0 + zlen hs = n ∧ apply_ref keccak Ecrecover s0 (reverse hs) = Ok s).
Proof.
  intros Ha Hst n hash s Hs. induction Hs as [hash g l Hg Han Hl|n hash h s s' Han Hn Hs IH Happ];
    intros [|fuel] parents headers c Hc Hp Hfuel Htop Hlen; try lia.
  - assert (H0 : snap_at 0 hash (newSnapshot cfg 0 hash l)) by by econstructor.
    destruct (find_base_ok c 0 hash _ (zlen headers) Ha Hst Hc H0) as (r & c1 & E & Hc1 & Hr); [lia|lia|].
    cbn [walk]. unfold mbind at 1, stm_bind at 1. rewrite E. destruct Hr as [->|[[_ ?]| ->]]; [|lia|].
    + eexists _, _. split; [done|]. split; [done|]. right. exists (newSnapshot cfg 0 hash l), [].
      rewrite app_nil_r. split_and!; done.
    + eexists _, _. split; [done|]. auto.
  - assert (H0 : snap_at n hash s') by by econstructor.
    destruct (an_hash Ha _ _ _ Han) as (Eh & En & Hr & _).
    destruct (find_base_ok c n hash s' (zlen headers) Ha Hst Hc H0) as (r & c1 & E & Hc1 & Hres); [lia|lia|].
    cbn [walk]. unfold mbind at 1, stm_bind at 1. rewrite E. destruct Hres as [->|[[-> _]| ->]].
    + destruct (snap_at_meta _ _ _ Ha H0) as (Ens & _ & _).
      eexists _, _. split; [done|]. split; [done|]. right. exists s', [].
      rewrite app_nil_r, Ens. split_and!; done || lia || (rewrite zlen_nil; lia).
    + destruct (gather_ok n hash h parents Ha Han Hn Hp) as (ps & -> & Hps).
      cbn [mbind stm_bind pure_out]. rewrite u64_small by (unfold is_u64; lia).
      destruct (IH fuel ps (headers ++ [h]) c1) as (r & c2 & E2 & Hc2 & Hr2); try done; [lia|lia| |].
      { rewrite zlen_app. change (zlen [h]) with 1. lia. }
      eexists _, _. split; [exact E2|]. split; [done|].
      destruct Hr2 as [->|(s0 & hs & -> & Hk & Hnum & Hs0 & Hlen0 & Hap)]; [by left|right].
      exists s0, (h :: hs). rewrite reverse_cons, zlen_cons.
      assert (zlen (reverse hs) = zlen hs) by (unfold zlen; by rewrite length_reverse).
      assert (numbered (sn_Number s0) (reverse hs ++ [h])).
      { apply numbered_snoc; [done|]. rewrite En. f_equal. lia. }
      split_and!; try done; [by rewrite <- app_assoc|constructor; [eauto|done]|lia|].
      eapply apply_ref_snoc; try done. lia.
    + eexists _, _. split; [done|]. auto.
Qed.

Lemma with_sigs_apply c s hs : ancestry → engine_ok c → Forall (fun h => ∃ hash n, anc hash n h) hs →
  ∃ c', with_sigs (apply keccak Ecrecover s hs) c = (apply_ref keccak Ecrecover s hs, c') ∧ engine_ok c'.
Proof.
  intros Ha [C1 C2 C3 C4 C5] Hk. unfold with_sigs.
  destruct (apply_coherent keccak Ecrecover _ s hs (e_signatures c) (an_collision Ha) Hk C2) as (sg & -> & Hsg).
  eexists. split; [done|]. by split.
Qed.

Lemma snapshot_ok c n hash s parents : ancestry → storage_ok → engine_ok c → snap_at n hash s →
  sourced hash n (reverse parents) → n ≤ top + 1 → n ≤ FullImmutabilityThreshold →
  ∃ r c', snapshot keccak Ecrecover st chain n hash parents c = (r, c') ∧ engine_ok c' ∧
    (r = Ok s ∨ r = Err errDatabase).
Proof.
  intros Ha Hst Hc Hs Hp Htop Hn. destruct (snap_at_meta n hash s Ha Hs) as (En & Eh & _).
  destruct (walk_ok Ha Hst n hash s Hs (S (Z.to_nat n)) (reverse parents) [] c Hc Hp) as (r & c1 & E & Hc1 & Hr);
    [lia|lia|rewrite zlen_nil; lia|].
  unfold snapshot. unfold mbind at 1, stm_bind at 1. rewrite E.
  destruct Hr as [->|(s0 & hs & -> & Hk & _ & _ & _ & Hap)]; [eexists _, _; auto|]. cbn [app].
  unfold mbind at 1, stm_bind at 1.
  destruct (with_sigs_apply c1 s0 (reverse hs) Ha Hc1) as (c2 & -> & Hc2); [by apply Forall_reverse|]. rewrite Hap.
  unfold mbind at 1, stm_bind at 1. rewrite Eh.
  destruct (recents_add_ok c2 n hash s Ha Hc2 Hs) as (c3 & -> & Hc3).
  unfold mbind at 1, stm_bind at 1. destruct (_ && _); [|eexists _, _; auto].
  destruct (store_snapshot st s c3) as [r c4] eqn:Est.
  destruct (store_ok c3 n hash s c4 r Ha Hst Hc3 Hs Est) as [Hc4 [->| ->]]; eexists _, _; auto.
Qed.

End Retrieve.

(** ** Prepared headers *)

Lemma zlen_signer_bytes snap : zlen (signer_bytes snap) = 20 * zlen (signers snap).
Proof.
  unfold signer_bytes. induction (signers snap) as [|a l IH]; [done|]. cbn [map concat].
  rewrite zlen_app, zlen_be_bytes, zlen_cons, IH. lia.
Qed.

(** Vanity, signer list and seal of a prepared extra-data section. *)
Lemma prepare_extra_split extra cp snap : ∃ vanity,
  prepare_extra extra cp snap = vanity ++ (if cp then signer_bytes snap else []) ++ replicate 65 (z2b 0) ∧
  zlen vanity = 32.
Proof.
  exists (take 32 (extra ++ replicate (32 - length extra) (z2b 0))). split.
  - unfold prepare_extra. destruct cp; [by rewrite <- app_assoc|done].
  - unfold zlen. rewrite length_take, length_app, length_replicate. lia.
Qed.

Lemma put_seal_ok body seal sig extra : zlen seal = 65 → put_seal (body ++ seal) sig = Ok extra →
  ∃ seal', extra = body ++ seal' ∧ zlen seal' = 65.
Proof.
  intros Hs. unfold put_seal, extraSeal.
  replace (zlen (body ++ seal) - 65) with (zlen body) by (rewrite zlen_app; lia).
  pose proof (zlen_nonneg body).
  assert (slice (E:=cliqueError) (body ++ seal) 0 (zlen body) = Ok body) as ->.
  { rewrite slice_ok; [|lia|rewrite zlen_app; lia]. change (drop (Z.to_nat 0) (body ++ seal)) with (body ++ seal). f_equal.
    replace (Z.to_nat (zlen body - 0)) with (length body) by (unfold zlen; lia). apply take_app_length. }
  cbn [mbind outcome_bind]. rewrite slice_tail. cbn [mbind outcome_bind]. intros [= <-].
  eexists. split; [done|]. unfold zlen in *. rewrite length_app, length_drop, length_take. lia.
Qed.

(** ** Accepted headers *)

Lemma verify_standalone_ok keccak chain config now header num :
  verify_standalone keccak chain config now header = Ok tt → Number header = Some num →
  let number := big_Uint64 num in
  Epoch config ≠ 0 ∧ Time header ≤ u64 now ∧ GasLimit header ≤ MaxGasLimit ∧ 97 ≤ zlen (Extra header) ∧
  (number mod Epoch config ≠ 0 → zlen (Extra header) = 97).
Proof.
  intros H Hn. unfold verify_standalone in H. rewrite Hn in H. cbn [mbind outcome_bind] in H. cbv zeta. inv_bind.
  unfold umod in *. case_if in H0; [done|]. zbool. injection H0 as <-.
  unfold extraVanity, extraSeal in *. split_and!; lia.
Qed.

Lemma verify_parent_ok keccak chain config parent header number :
  verify_parent keccak chain config parent header number = Ok tt →
  ∃ p, parent = Some p ∧ Header_Hash keccak p = ParentHash header ∧
    Number_Uint64 p = (Ok (u64 (number - 1)) : outcome cliqueError Z) ∧
    u64 (Time p + Period config) ≤ Time header ∧ GasUsed header ≤ GasLimit header.
Proof.
  unfold verify_parent. intros H. destruct parent as [p|]; [|done]. cbn [mbind outcome_bind] in H. inv_bind.
  zbool. exists p. split_and!; try done; try lia. rewrite H. f_equal. done.
Qed.

Lemma verifySeal_ok keccak Ecrecover {DB RC SC} {LS : CacheLaws SC Z Z} (c c' : Engine DB RC SC) snap header number :
  Number_Uint64 header = (Ok number : outcome cliqueError Z) →
  verifySeal keccak Ecrecover snap header c = (Ok tt, c') →
  ∃ signer, (ecrecover keccak Ecrecover header (e_signatures c)).1 = Ok signer ∧ signer ∈ Signers snap ∧
    existsb (fun '(seen, recent) => (recent =? signer) && (u64 (number - signer_limit snap) <? seen))
      (map_to_list (Recents snap)) = false ∧
    (fakeDiff c = false → ∃ turn, inturn snap number signer = (Ok turn : outcome cliqueError bool) ∧
       Difficulty header = Some (if turn then diffInTurn else diffNoTurn)).
Proof.
  intros Hnum H. unfold verifySeal in H.
  apply stm_bind_ok in H as (n & c1 & H1 & H). apply pure_out_ok in H1 as [H1 <-].
  assert (n = number) as -> by congruence.
  apply stm_bind_ok in H as ([] & c2 & H2 & H). apply pure_out_ok in H2 as [_ <-].
  apply stm_bind_ok in H as (signer & c3 & H3 & H). unfold with_sigs in H3.
  destruct (ecrecover keccak Ecrecover header (e_signatures c)) as [r sg]. injection H3 as -> <-.
  apply stm_bind_ok in H as ([] & c4 & H4 & H). apply pure_out_ok in H4 as [H4 <-].
  apply guard_err_ok, negb_false_iff, bool_decide_eq_true in H4.
  apply stm_bind_ok in H as ([] & c5 & H5 & H). apply pure_out_ok in H5 as [H5 <-].
  apply guard_err_ok in H5. exists signer. split_and!; try done.
  apply stm_bind_ok in H as (fk & c6 & H6 & H). cbn in H6. injection H6 as <- <-. intros Hf.
  rewrite Hf in H. apply pure_out_ok in H as [H _]. unfold verify_turn in H. inv_bind.
  destruct (Difficulty header) as [d|]; [|done]. cbn in H0. injection H0 as <-. exists x. split; [done|].
  destruct x; cbn in *; zbool; congruence.
Qed.

Lemma extra_split (extra listed : bytes) : 97 ≤ zlen extra →
  slice (E:=cliqueError) extra 32 (zlen extra - 65) = Ok listed →
  ∃ vanity seal, zlen vanity = 32 ∧ zlen seal = 65 ∧ extra = vanity ++ listed ++ seal.
Proof.
  intros Hl Hs. rewrite slice_ok in Hs by lia. injection Hs as <-.
  exists (take 32 extra), (drop (length extra - 65) extra). unfold zlen in *.
  split_and!; [rewrite length_take; lia|rewrite length_drop; lia|].
  rewrite <- (take_drop 32 extra) at 1. f_equal.
  replace (Z.to_nat (Z.of_nat (length extra) - 65 - 32)) with (length extra - 97)%nat by lia.
  change (Z.to_nat 32) with 32%nat. rewrite <- (take_drop (length extra - 97) (drop 32 extra)) at 1. f_equal.
  rewrite drop_drop. f_equal. lia.
Qed.

(** ** The configuration never changes *)

Section Config.
Context (keccak : bytes → Z) (Ecrecover : bytes → bytes → outcome cliqueError bytes).
Context {DB RC SC : Type} `{!CacheLaws RC Z Snapshot} `{!CacheLaws SC Z Z}.
Context (st : Storage DB) (chain : ChainHeaderReader).

Definition keeps_config {A} (m : stm (Engine DB RC SC) cliqueError A) : Prop :=
  ∀ c, e_config (m c).2 = e_config c.

Lemma keeps_bind {A B} (m : stm (Engine DB RC SC) cliqueError A) (f : A → stm (Engine DB RC SC) cliqueError B) :
  keeps_config m → (∀ a, keeps_config (f a)) → keeps_config (m ≫= f).
Proof.
  intros Hm Hf c. unfold mbind, stm_bind. specialize (Hm c). destruct (m c) as [[a|e|] c1]; cbn in *; [|done|done].
  rewrite <- Hm. apply Hf.
Qed.
Lemma keeps_pure {A} (o : outcome cliqueError A) : keeps_config (pure_out o).
Proof. done. Qed.
Lemma keeps_ret {A} (a : A) : keeps_config (mret a).
Proof. done. Qed.
Lemma keeps_sigs {A} (m : stm SC cliqueError A) : keeps_config (with_sigs m).
Proof. intros c. unfold with_sigs. by destruct (m (e_signatures c)). Qed.
Lemma keeps_recents_get h : keeps_config (recents_get h).
Proof. intros c. unfold recents_get. by destruct (cache_get h (e_recents c)) as [[]| |]. Qed.
Lemma keeps_recents_add h s : keeps_config (recents_add h s).
Proof. intros c. unfold recents_add. by destruct (cache_add h s (e_recents c)). Qed.
Lemma keeps_store s : keeps_config (store_snapshot st s).
Proof. intros c. unfold store_snapshot. by destruct (store st (e_db c) s). Qed.
Lemma keeps_get_config : keeps_config get_config.
Proof. done. Qed.
Lemma keeps_load n h : keeps_config (load_checkpointed st n h).
Proof. done. Qed.

Create HintDb keeps.
#[local] Hint Resolve keeps_pure keeps_ret keeps_sigs keeps_recents_get keeps_recents_add keeps_store
  keeps_get_config keeps_load : keeps.

Lemma keeps_find_base n h len : keeps_config (find_base keccak st chain n h len).
Proof.
  unfold find_base. apply keeps_bind; [auto with keeps|]. intros [s|]; [auto with keeps|].
  apply keeps_bind; [auto with keeps|]. intros [s|]; [auto with keeps|].
  apply keeps_bind; [auto with keeps|]. intros cfg. apply keeps_bind; [auto with keeps|]. intros trusted.
  destruct (if trusted then _ else None) as [cp|]; [|auto with keeps].
  apply keeps_bind; [auto with keeps|]. intros l. apply keeps_bind; [auto with keeps|]. auto with keeps.
Qed.
#[local] Hint Resolve keeps_find_base : keeps.

Lemma keeps_walk fuel : ∀ n h ps hs, keeps_config (walk keccak st chain fuel n h ps hs).
Proof.
  induction fuel as [|fuel IH]; intros n h ps hs; cbn [walk]; [auto with keeps|].
  apply keeps_bind; [auto with keeps|]. intros [s|]; [auto with keeps|].
  apply keeps_bind; [auto with keeps|]. intros [hd ps']. apply IH.
Qed.
#[local] Hint Resolve keeps_walk : keeps.

Lemma snapshot_config n h ps : keeps_config (snapshot keccak Ecrecover st chain n h ps).
Proof.
  unfold snapshot. apply keeps_bind; [auto with keeps|]. intros [s hs].
  apply keeps_bind; [auto with keeps|]. intros s'. apply keeps_bind; [auto with keeps|]. intros [].
  apply keeps_bind; [destruct (_ && _); auto with keeps|]. intros []. auto with keeps.
Qed.
End Config.

(** The header [Prepare] returns. *)
Lemma Prepare_ok keccak Ecrecover {DB RC SC} {LR : CacheLaws RC Z Snapshot} {LS : CacheLaws SC Z Z}
    (st : Storage DB) chain (c c' : Engine DB RC SC) now pick header h num :
  Prepare keccak Ecrecover st chain now pick header c = (Ok h, c') → Number header = Some num →
  let number := big_Uint64 num in
  let cp := number mod Epoch (e_config c) =? 0 in
  Epoch (e_config c) ≠ 0 ∧
  ∃ snap c1 d parent,
    snapshot keccak Ecrecover st chain (u64 (number - 1)) (ParentHash header) [] c = (Ok snap, c1) ∧
    calcDifficulty snap (e_signer c1) = Ok d ∧
    GetHeader chain (ParentHash header) (u64 (number - 1)) = Some parent ∧
    Number h = Number header ∧ ParentHash h = ParentHash header ∧ UncleHash h = UncleHash header ∧
    GasLimit h = GasLimit header ∧ MixDigest h = 0 ∧ Difficulty h = Some d ∧
    Extra h = prepare_extra (Extra header) cp snap ∧ u64 (Time parent + Period (e_config c)) ≤ Time h ∧
    (cp = true → Coinbase h = 0 ∧ Nonce h = 0) ∧
    (be_bytes 8 (Nonce h) = nonceAuthVote ∨ be_bytes 8 (Nonce h) = nonceDropVote).
Proof.
  intros H Hn. cbv zeta. unfold Prepare in H.
  apply stm_bind_ok in H as (n & c0 & H0 & H). apply pure_out_ok in H0 as [H0 <-].
  assert (n = big_Uint64 num) as ->.
  { destruct header. cbn in Hn. subst. cbn in H0. congruence. }
  apply stm_bind_ok in H as (snap & c1 & Hs & H).
  assert (Hp : ParentHash (set_Nonce 0 (set_Coinbase 0 header)) = ParentHash header) by by destruct header.
  rewrite Hp in Hs.
  pose proof (snapshot_config keccak Ecrecover st chain (u64 (big_Uint64 num - 1)) (ParentHash header) [] c) as Hc.
  rewrite Hs in Hc. cbn in Hc.
  apply stm_bind_ok in H as (cfg & c2 & H1 & H). cbn in H1. injection H1 as <- <-. rewrite Hc in H.
  apply stm_bind_ok in H as (r & c2 & H1 & H). apply pure_out_ok in H1 as [H1 <-]. unfold umod in H1.
  destruct (Epoch (e_config c) =? 0) eqn:E0; [done|]. zbool. injection H1 as <-. split; [done|].
  apply stm_bind_ok in H as (props & c2 & H1 & H). cbn in H1. injection H1 as <- <-.
  apply stm_bind_ok in H as (signer & c2 & H1 & H). cbn in H1. injection H1 as <- <-.
  apply stm_bind_ok in H as (d & c2 & H1 & H). apply pure_out_ok in H1 as [Hd <-].
  set (cp := big_Uint64 num mod Epoch (e_config c) =? 0) in *.
  set (h0 := if negb cp then _ else _) in H.
  assert (Hh0 : Number h0 = Number header ∧ ParentHash h0 = ParentHash header ∧ UncleHash h0 = UncleHash header ∧
    GasLimit h0 = GasLimit header ∧ Extra h0 = Extra header ∧ (cp = true → Coinbase h0 = 0 ∧ Nonce h0 = 0) ∧
    (be_bytes 8 (Nonce h0) = nonceAuthVote ∨ be_bytes 8 (Nonce h0) = nonceDropVote)).
  { unfold h0. destruct header. destruct cp; cbn -[be_bytes be_value nonceAuthVote nonceDropVote];
      [split_and!; try done; by right|].
    destruct (choose_vote snap (proposals c1) pick) as [[a b]|]; cbn -[be_bytes be_value nonceAuthVote nonceDropVote];
      split_and!; try done; [|by right].
    destruct b; [left|right]; vm_compute; reflexivity. }
  clearbody h0. destruct Hh0 as (P1 & P2 & P3 & P4 & P5 & P6 & P7).
  set (h1 := set_MixDigest 0 (set_Extra (prepare_extra _ cp snap) (set_Difficulty (Some d) h0))) in H.
  assert (Hh1 : Number h1 = Number header ∧ ParentHash h1 = ParentHash header ∧ UncleHash h1 = UncleHash header ∧
    GasLimit h1 = GasLimit header ∧ Extra h1 = prepare_extra (Extra header) cp snap ∧ MixDigest h1 = 0 ∧
    Difficulty h1 = Some d ∧ Coinbase h1 = Coinbase h0 ∧ Nonce h1 = Nonce h0).
  { unfold h1. destruct h0. cbn -[prepare_extra] in *. subst. done. }
  clearbody h1. destruct Hh1 as (Q1 & Q2 & Q3 & Q4 & Q5 & Q6 & Q7 & Q8 & Q9). rewrite Q2 in H.
  destruct (GetHeader chain (ParentHash header) (u64 (big_Uint64 num - 1))) as [parent|] eqn:Eg; [|done].
  cbn in H. injection H as <- <-. exists snap, c1, d, parent.
  set (t := if _ <? _ then _ else _). assert (Ht : u64 (Time parent + Period (e_config c)) ≤ t) by (unfold t; case_if; lia).
  clearbody t. destruct h1. cbn -[prepare_extra] in *. subst. split_and!; done.
Qed.

(** ** Properties *)

(** A lossless coding of snapshots, and an association list as database. *)
#[global] Instance Vote_countable : Countable Vote.
Proof.
  refine (inj_countable' (fun v => (v_Signer v, v_Block v, v_Address v, v_Authorize v))
    (fun '(a, b, c, d) => mkVote a b c d) _). by intros [].
Defined.
#[global] Instance Tally_countable : Countable Tally.
Proof. refine (inj_countable' (fun t => (t_Authorize t, t_Votes t)) (fun '(a, b) => mkTally a b) _). by intros []. Defined.
#[global] Instance Snapshot_countable : Countable Snapshot.
Proof.
  refine (inj_countable'
    (fun s => (Period (sn_config s), Epoch (sn_config s), sn_Number s, sn_Hash s, Signers s, Recents s, Votes s, Tallies s))
    (fun '(p, e, n, h, sg, rc, vt, tl) => mkSnapshot (mkCliqueConfig p e) n h sg rc vt tl) _). by intros [[] ? ? ? ? ? ?].
Defined.
#[global] Instance Snapshot_inhabited : Inhabited Snapshot := populate (newSnapshot (mkCliqueConfig 0 0) 0 0 []).

Fixpoint assoc (k : bytes) (db : list (bytes * bytes)) : option bytes :=
  match db with
  | [] => None
  | (k', b) :: db' => if decide (k' = k) then Some b else assoc k db'
  end.

Definition toy_storage : Storage (list (bytes * bytes)) :=
  mkStorage _ (fun db k => assoc k db) (fun db k b => Some ((k, b) :: db))
    (fun s => Some (be_min (Z.pos (encode s)))) (fun b => decode (Z.to_pos (be_value b))).

Lemma toy_storage_ok : storage_ok toy_storage.
Proof.
  split.
  - intros db k b db' [= <-]. cbn. split; [by rewrite decide_True|]. intros k' Hk. by rewrite decide_False.
  - intros s b [= <-]. exists s. split; [|done]. cbn. rewrite be_value_be_min by lia. apply decode_encode.
Qed.

(** A chain of five signers and 15-second blocks, before London. *)
Definition no_forks : ChainConfig :=
  mkChainConfig (Some 1) None None false None None None None None None None None None None None None None
    None None None None false (Some (mkCliqueConfig 15 30000)).

Definition chain_header (parent number time : Z) (listed : bytes) (signer difficulty : Z) (wd : option Z) : Header :=
  mkHeader parent (CalcUncleHash toy_keccak []) 0 0 0 0 0 (Some difficulty) (Some number) 5000 0 time
    (replicate 32 (z2b 0) ++ listed ++ be_bytes 65 signer) 0 0 None wd None.

Definition toy_g : Header :=
  chain_header 0 0 0 (concat (map (be_bytes 20) [11; 12; 13; 14; 15])) 0 1 None.
Definition toy_b1 : Header := chain_header (Header_Hash toy_keccak toy_g) 1 15 [] 11 1 None.
(** Signer 11 again. *)
Definition toy_b2 : Header := chain_header (Header_Hash toy_keccak toy_b1) 2 30 [] 11 1 None.
Definition toy_b3 : Header := chain_header (Header_Hash toy_keccak toy_b2) 3 45 [] 14 2 None.

Definition toy_chain (hs : list Header) : ChainHeaderReader :=
  let get n := if n <? 0 then None else hs !! Z.to_nat n in
  mkChain no_forks (list.last hs)
    (fun hash n => match get n with
                   | Some h => if Header_Hash toy_keccak h =? hash then Some h else None
                   | None => None
                   end)
    get (fun hash => List.find (fun h => Header_Hash toy_keccak h =? hash) hs).

Definition new_cache {V} `{Inhabited V} (capacity : Z) : BasicLRU Z V :=
  match NewBasicLRU capacity with Ok c => c | _ => mkLRU ∅ ∅ 0 end.

Definition toy_engine : Engine (list (bytes * bytes)) (BasicLRU Z Snapshot) (BasicLRU Z Z) :=
  New (mkCliqueConfig 15 30000) [] (new_cache inmemorySnapshots) (new_cache inmemorySignatures).

Definition toy_verify (hs : list Header) (h : Header) : outcome cliqueError unit :=
  (VerifyHeader toy_keccak toy_Ecrecover toy_storage (toy_chain hs) 1000 h toy_engine).1.

Lemma new_cache_ok {V} `{Inhabited V} capacity :
  cache_valid (new_cache capacity : BasicLRU Z V) ∧ ∀ k x, ¬ cache_holds (new_cache capacity : BasicLRU Z V) k x.
Proof. destruct (NewCache_empty (K:=Z) (V:=V) capacity) as (c & E & Hv & Hn). unfold new_cache. by rewrite E. Qed.

(** Blocks of a list, by position. *)
Definition list_anc (hs : list Header) (hash n : Z) (h : Header) : Prop :=
  0 ≤ n ∧ hs !! Z.to_nat n = Some h ∧ Header_Hash toy_keccak h = hash.

Lemma list_anc_cases g b hash n h : list_anc [g; b] hash n h →
  n = 0 ∧ h = g ∧ hash = Header_Hash toy_keccak g ∨ n = 1 ∧ h = b ∧ hash = Header_Hash toy_keccak b.
Proof.
  intros (Hn & Hl & Hh). destruct (Z.to_nat n) as [|[|k]] eqn:E; cbn in Hl; [left|right|done];
    injection Hl as <-; (split; [lia|done]).
Qed.

Lemma two_block_ancestry g b cfg : Header_Hash toy_keccak g ≠ Header_Hash toy_keccak b →
  Number g = Some 0 → Number b = Some 1 → ParentHash b = Header_Hash toy_keccak g → Epoch cfg ≠ 0 →
  ancestry toy_keccak toy_Ecrecover (toy_chain [g; b]) cfg (list_anc [g; b]) 1.
Proof.
  intros Hne Hg Hb Hp He. split.
  - intros hash n n' h h' [(-> & -> & ->)|(-> & -> & ->)]%list_anc_cases [(-> & -> & E)|(-> & -> & E)]%list_anc_cases;
      done || congruence.
  - intros hash n h Hh. assert (Header_Hash toy_keccak h = hash) as <- by apply Hh. split; [done|].
    assert (0 ≤ Header_Hash toy_keccak h < 2 ^ 256).
    { unfold Header_Hash, rlpHash, toy_keccak.
      match goal with |- 0 ≤ ?x mod ?m < _ => pose proof (Z.mod_pos_bound x m ltac:(lia)) end. lia. }
    apply list_anc_cases in Hh as [(-> & -> & _)|(-> & -> & _)]; unfold Number_Uint64; rewrite ?Hg, ?Hb; split_and!;
      done || lia.
  - intros hash n h [(-> & -> & _)|(-> & -> & _)]%list_anc_cases Hpos; [lia|]. exists g. done.
  - exists g. split; [done|]. by intros hash h [(_ & -> & _)|(? & _)]%list_anc_cases.
  - intros k Hk. assert (k = 0 ∨ k = 1) as [->| ->] by lia; done.
  - done.
  - intros h1 h2 (? & ? & H1) (? & ? & H2) E.
    apply list_anc_cases in H1 as [(_ & -> & _)|(_ & -> & _)], H2 as [(_ & -> & _)|(_ & -> & _)]; done || congruence.
Qed.

Lemma toy_ancestry : ancestry toy_keccak toy_Ecrecover (toy_chain [toy_g; toy_b1]) (mkCliqueConfig 15 30000)
  (list_anc [toy_g; toy_b1]) 1.
Proof.
  apply two_block_ancestry; [|reflexivity|reflexivity|reflexivity|discriminate].
  apply Z.eqb_neq. vm_compute. reflexivity.
Qed.

Lemma two_block_sourced g b : ParentHash b = Header_Hash toy_keccak g →
  sourced (toy_chain [g; b]) (list_anc [g; b]) (Header_Hash toy_keccak b) 1 (reverse [b]).
Proof.
  intros Hp. change (reverse [b]) with [b]. split; [done|]. right. rewrite Hp.
  apply (stored_genesis _ _ _ g); [|done].
  change (GetHeader (toy_chain [g; b]) (Header_Hash toy_keccak g) 0)
    with (if Header_Hash toy_keccak g =? Header_Hash toy_keccak g then Some g else None). by rewrite Z.eqb_refl.
Qed.

Lemma two_block_snap g b l s : ParentHash b = Header_Hash toy_keccak g → checkpoint_signers (Extra g) = Ok l →
  apply_ref toy_keccak toy_Ecrecover (newSnapshot (mkCliqueConfig 15 30000) 0 (Header_Hash toy_keccak g) l) [b] = Ok s →
  snap_at toy_keccak toy_Ecrecover (toy_chain [g; b]) (mkCliqueConfig 15 30000) (list_anc [g; b]) 1
    (Header_Hash toy_keccak b) s.
Proof.
  intros Hp Hl Ha. eapply (at_step _ _ _ _ _ 1 _ b); [done|lia| |exact Ha].
  rewrite Hp. by apply (at_genesis _ _ _ _ _ (Header_Hash toy_keccak g) g).
Qed.

Lemma toy_engine_ok cfg anc keccak chain : Epoch cfg ≠ 0 →
  engine_ok keccak toy_Ecrecover toy_storage chain cfg anc
    (New cfg [] (new_cache inmemorySnapshots) (new_cache inmemorySignatures)).
Proof.
  intros He. destruct (new_cache_ok (V:=Snapshot) inmemorySnapshots) as [V1 N1].
  destruct (new_cache_ok (V:=Z) inmemorySignatures) as [V2 N2].
  split; cbn [New e_config e_signatures e_recents e_db].
  - by rewrite (proj2 (Z.eqb_neq _ _) He).
  - split; [done|]. intros h a _ Hh. by apply N2 in Hh.
  - done.
  - intros hash n h s _ Hh. by apply N1 in Hh.
  - done.
Qed.

(** C23. Retrieving a snapshot. On a chain with a snapshot for the block
    (number, hash), that is whose headers apply one by one from the genesis
    checkpoint, and with caches and a database that only hold such snapshots,
    [snapshot] returns it, wherever it starts from and whichever headers come
    from the batch of parents or the chain; only a failing database write makes
    it return an error instead.  The caches and the database stay as required,
    and the walk never runs out of its [number + 1] steps.  The block is at most
    one above the highest canonical one ([top]) and its number is at most
    [FullImmutabilityThreshold], so that the walk back never collects more
    headers than that: a longer walk may stop at an epoch block and trust its
    checkpoint, a snapshot without the recent signers. *)
Theorem snapshot_correct keccak Ecrecover {DB RC SC} {LR : CacheLaws RC Z Snapshot} {LS : CacheLaws SC Z Z}
    (st : Storage DB) chain cfg anc top (c : Engine DB RC SC) n hash s parents :
  ancestry keccak Ecrecover chain cfg anc top → storage_ok st →
  engine_ok keccak Ecrecover st chain cfg anc c →
  snap_at keccak Ecrecover chain cfg anc n hash s → sourced chain anc hash n (reverse parents) →
  n ≤ top + 1 → n ≤ FullImmutabilityThreshold →
  ∃ r c', snapshot keccak Ecrecover st chain n hash parents c = (r, c') ∧
    engine_ok keccak Ecrecover st chain cfg anc c' ∧ (r = Ok s ∨ r = Err errDatabase).
Proof. intros. by apply (snapshot_ok keccak Ecrecover st chain cfg anc top). Qed.

Definition toy_s0 : Snapshot :=
  newSnapshot (mkCliqueConfig 15 30000) 0 (Header_Hash toy_keccak toy_g) [11; 12; 13; 14; 15].
Definition toy_s1 : Snapshot :=
  match apply_ref toy_keccak toy_Ecrecover toy_s0 [toy_b1] with Ok s => s | _ => toy_s0 end.

Lemma snapshot_correct_witness :
  Recents toy_s1 !! 1 = Some 11 ∧
  ∃ r c', snapshot toy_keccak toy_Ecrecover toy_storage (toy_chain [toy_g; toy_b1]) 1
            (Header_Hash toy_keccak toy_b1) [toy_b1] toy_engine = (r, c') ∧ (r = Ok toy_s1 ∨ r = Err errDatabase).
Proof.
  split; [vm_compute; reflexivity|].
  destruct (snapshot_correct toy_keccak toy_Ecrecover toy_storage (toy_chain [toy_g; toy_b1]) (mkCliqueConfig 15 30000)
    (list_anc [toy_g; toy_b1]) 1 toy_engine 1 (Header_Hash toy_keccak toy_b1) toy_s1 [toy_b1]) as (r & c' & E & _ & Hr).
  - exact toy_ancestry.
  - exact toy_storage_ok.
  - apply (toy_engine_ok (mkCliqueConfig 15 30000)). discriminate.
  - apply (two_block_snap toy_g toy_b1 [11; 12; 13; 14; 15]); [reflexivity| |]; vm_compute; reflexivity.
  - apply two_block_sourced. reflexivity.
  - lia.
  - vm_compute. congruence.
  - exists r, c'. split; [exact E|exact Hr].
Defined.

(** A header whose seal verifies can be applied. If the block number has
    reached the signer limit, the snapshot's recent list is in range, and the
    nonce is one of the two votes, then after [verifySeal] accepts the header
    the iteration of [apply] on it succeeds: the two checks on recent signers
    agree. *)
Theorem verifySeal_applies keccak Ecrecover {DB RC SC} {LS : CacheLaws SC Z Z} (c c' : Engine DB RC SC)
    snap header number b :
  recents_ok (number - 1) snap → Number_Uint64 header = (Ok number : outcome cliqueError Z) →
  signer_limit snap ≤ number < 2 ^ 64 → Epoch (sn_config snap) ≠ 0 → nonce_vote (Nonce header) = Ok b →
  verifySeal keccak Ecrecover snap header c = (Ok tt, c') →
  ∃ signer snap', (ecrecover keccak Ecrecover header (e_signatures c)).1 = Ok signer ∧
    apply_header snap header (Ok signer) = Ok snap'.
Proof.
  intros [Hr1 Hr2] Hnum Hlim He Hb H.
  destruct (verifySeal_ok _ _ _ _ _ _ _ Hnum H) as (signer & Hrec & H4 & H5 & _). exists signer. rewrite Hrec.
  unfold apply_header. rewrite Hnum. cbn [mbind outcome_bind]. unfold umod.
  rewrite (proj2 (Z.eqb_neq _ _) He). cbn [mbind outcome_bind].
  set (r0 := if number mod Epoch (sn_config snap) =? 0 then reset_votes snap else snap).
  assert (Er : Signers r0 = Signers snap ∧ Recents r0 = Recents snap) by (unfold r0; by case_if).
  destruct Er as [Er1 Er2].
  rewrite (proj1 (expire_recent_frame number r0)), Er1, bool_decide_eq_true_2 by done.
  cbn [negb guard_err mbind outcome_bind].
  assert (Hno : existsb (fun e : Z * Z => e.2 =? signer) (map_to_list (Recents (expire_recent number r0))) = false).
  { apply not_true_is_false. intros (e & Hin & Heq)%existsb_exists. destruct e as [k a]. cbn in Heq. zbool. subst a.
    apply list_elem_of_In, elem_of_map_to_list in Hin. unfold expire_recent in Hin.
    rewrite (signer_limit_ext snap r0) in Hin by done.
    rewrite (proj2 (Z.leb_le _ _)) in Hin by lia. cbn in Hin. rewrite Er2 in Hin.
    apply lookup_delete_Some in Hin as [Hk Hin]. pose proof (Hr1 k signer Hin).
    enough (existsb (fun '(seen, recent) => (recent =? signer) && (u64 (number - signer_limit snap) <? seen))
              (map_to_list (Recents snap)) = true) by congruence.
    apply existsb_exists. exists (k, signer). split; [by apply list_elem_of_In, elem_of_map_to_list|].
    pose proof (signer_limit_pos snap).
    rewrite Z.eqb_refl, u64_small by (unfold is_u64; lia). apply Z.ltb_lt. lia. }
  rewrite Hno. cbn [guard_err mbind outcome_bind]. rewrite Hb. cbn [mbind outcome_bind]. eauto.
Qed.

(** Four signers 11 to 14 after block 3; 14 has not signed. *)
Definition toy_recent : Snapshot :=
  mkSnapshot toy_config 3 0 (list_to_set [11; 12; 13; 14]) (list_to_map [(2, 12); (3, 13)]) [] ∅.

Lemma toy_recent_cases k a : Recents toy_recent !! k = Some a → k = 2 ∧ a = 12 ∨ k = 3 ∧ a = 13.
Proof.
  change (Recents toy_recent) with (<[2 := 12]> (<[3 := 13]> (∅ : gmap Z Z))).
  rewrite !lookup_insert_Some, lookup_empty. naive_solver.
Qed.

Lemma verifySeal_applies_witness :
  ∃ signer snap', (ecrecover toy_keccak toy_Ecrecover (toy_header 4 11 0 0) (e_signatures toy_engine)).1 = Ok signer ∧
    apply_header toy_recent (toy_header 4 11 0 0) (Ok signer) = Ok snap'.
Proof.
  destruct (verifySeal toy_keccak toy_Ecrecover toy_recent (toy_header 4 11 0 0) toy_engine) as [r c'] eqn:E.
  assert (Hr : r = Ok tt) by (change r with (r, c').1; rewrite <- E; vm_compute; reflexivity). subst r.
  apply (verifySeal_applies toy_keccak toy_Ecrecover toy_engine c' toy_recent (toy_header 4 11 0 0) 4 false).
  - split.
    + intros k a [[-> ->]|[-> ->]]%toy_recent_cases; vm_compute; intuition congruence.
    + intros k k' a [[-> ->]|[-> ->]]%toy_recent_cases [[-> ?]|[-> ?]]%toy_recent_cases; congruence.
  - vm_compute. reflexivity.
  - split; vm_compute; congruence.
  - vm_compute. congruence.
  - vm_compute. reflexivity.
  - exact E.
Defined.

(** Below the signer limit the two checks differ. On a chain of five
    signers, [VerifyHeader] accepts block 2 although signer 11 also signed
    block 1 (the subtraction [number - limit] wraps), while [apply] rejects
    it: no block 3 can be verified on top. A header with a withdrawals hash,
    which no check looks at, makes [VerifyHeader] panic. *)
Theorem VerifyHeader_gaps :
  toy_verify [toy_g] toy_b1 = Ok tt ∧
  toy_verify [toy_g; toy_b1] toy_b2 = Ok tt ∧
  toy_verify [toy_g; toy_b1; toy_b2] toy_b3 = Err errRecentlySigned ∧
  toy_verify [toy_g] (chain_header (Header_Hash toy_keccak toy_g) 1 15 [] 11 1 (Some 7)) = Panic.
Proof. split_and!; vm_compute; reflexivity. Qed.

(** C14. Soundness of header verification. An accepted header that is not a
    genesis links to its parent, is neither early nor in the future, keeps the
    gas bounds, is sealed by an authorized signer of the snapshot of its
    parent with the difficulty of the signer's turn, and carries vanity, seal
    and, exactly at checkpoints, the sorted list of signers. *)
Theorem verifyHeader_sound keccak Ecrecover {DB RC SC} {LR : CacheLaws RC Z Snapshot} {LS : CacheLaws SC Z Z}
    (st : Storage DB) chain (c c' : Engine DB RC SC) now header parents num :
  verifyHeader keccak Ecrecover st chain now header parents c = (Ok tt, c') →
  Number header = Some num → big_Uint64 num ≠ 0 →
  let number := big_Uint64 num in
  let config := e_config c in
  ∃ parent snap c1 signer,
    (list.last parents = Some parent ∨
     list.last parents = None ∧ GetHeader chain (ParentHash header) (u64 (number - 1)) = Some parent) ∧
    Header_Hash keccak parent = ParentHash header ∧
    Number_Uint64 parent = (Ok (u64 (number - 1)) : outcome cliqueError Z) ∧
    u64 (Time parent + Period config) ≤ Time header ≤ u64 now ∧
    GasUsed header ≤ GasLimit header ≤ MaxGasLimit ∧
    snapshot keccak Ecrecover st chain (u64 (number - 1)) (ParentHash header) parents c = (Ok snap, c1) ∧
    (ecrecover keccak Ecrecover header (e_signatures c1)).1 = Ok signer ∧ signer ∈ Signers snap ∧
    (fakeDiff c1 = false →
       ∃ turn, inturn snap number signer = (Ok turn : outcome cliqueError bool) ∧
         Difficulty header = Some (if turn then diffInTurn else diffNoTurn)) ∧
    ∃ vanity seal, zlen vanity = 32 ∧ zlen seal = 65 ∧
      Extra header = vanity ++ (if number mod Epoch config =? 0 then signer_bytes snap else []) ++ seal.
Proof.
  intros H Hn Hnz. cbv zeta. unfold verifyHeader in H.
  apply stm_bind_ok in H as (cfg & c0 & H0 & H). cbn in H0. injection H0 as <- <-.
  apply stm_bind_ok in H as ([] & c0 & H0 & H). apply pure_out_ok in H0 as [Hs <-].
  destruct (verify_standalone_ok _ _ _ _ _ _ Hs Hn) as (He & Ht & Hg & Hx & Hx2).
  assert (Hnum : Number_Uint64 header = (Ok (big_Uint64 num) : outcome cliqueError Z)) by (unfold Number_Uint64; by rewrite Hn).
  unfold verifyCascadingFields in H.
  apply stm_bind_ok in H as (n & c0 & H0 & H). apply pure_out_ok in H0 as [H0 <-].
  assert (n = big_Uint64 num) as -> by congruence. rewrite (proj2 (Z.eqb_neq _ _) Hnz) in H.
  apply stm_bind_ok in H as (cfg & c0 & H1 & H). cbn in H1. injection H1 as <- <-.
  apply stm_bind_ok in H as ([] & c0 & H1 & H). apply pure_out_ok in H1 as [Hp <-].
  apply stm_bind_ok in H as (snap & c1 & Hsnap & H).
  apply stm_bind_ok in H as ([] & c2 & H2 & H). apply pure_out_ok in H2 as [Hcp <-].
  apply verify_parent_ok in Hp as (p & Ep & Hh & Hpn & Hpt & Hgu).
  destruct (verifySeal_ok _ _ _ _ _ _ _ Hnum H) as (signer & Hrec & Hin & _ & Hd).
  exists p, snap, c1, signer. split_and!; try done.
  - destruct (list.last parents); [left; congruence|by right].
  - unfold verify_checkpoint, umod in Hcp. rewrite (proj2 (Z.eqb_neq _ _) He) in Hcp. cbn [mbind outcome_bind] in Hcp.
    destruct (big_Uint64 num mod Epoch (e_config c) =? 0) eqn:E0; zbool.
    + inv_bind. zbool. subst x. by apply (extra_split (Extra header)).
    + apply extra_split; [done|]. rewrite (Hx2 E0). rewrite slice_ok by lia.
      by replace (Z.to_nat (97 - 65 - 32)) with 0%nat by lia.
Qed.

Lemma verifyHeader_sound_witness :
  ∃ parent snap c1 signer, list.last (@nil Header) = Some parent ∨
    GetHeader (toy_chain [toy_g]) (ParentHash toy_b1) (u64 (big_Uint64 1 - 1)) = Some parent ∧
    snapshot toy_keccak toy_Ecrecover toy_storage (toy_chain [toy_g]) (u64 (big_Uint64 1 - 1)) (ParentHash toy_b1) []
      toy_engine = (Ok snap, c1) ∧ signer ∈ Signers snap.
Proof.
  destruct (verifyHeader toy_keccak toy_Ecrecover toy_storage (toy_chain [toy_g]) 1000 toy_b1 [] toy_engine) as [r c'] eqn:E.
  assert (Hr : r = Ok tt) by (change r with (r, c').1; rewrite <- E; vm_compute; reflexivity). subst r.
  destruct (verifyHeader_sound toy_keccak toy_Ecrecover toy_storage (toy_chain [toy_g]) toy_engine c' 1000 toy_b1 [] 1 E
    eq_refl ltac:(vm_compute; congruence)) as (p & snap & c1 & a & H1 & _ & _ & _ & _ & H2 & _ & H3 & _).
  exists p, snap, c1, a. destruct H1 as [H1|[_ H1]]; [left; exact H1|right]. split; [exact H1|]. split; [exact H2|exact H3].
Defined.

(** What [Prepare] builds, [verifyHeader] accepts. The header it returns,
    once sealed with any signature and with the uncle hash, gas limit and time
    its caller is responsible for, passes the standalone checks, carries the
    signer list a checkpoint needs, keeps the minimum distance to its parent,
    and has the difficulty of the signer's turn. *)
Theorem Prepare_verifies keccak Ecrecover {DB RC SC} {LR : CacheLaws RC Z Snapshot} {LS : CacheLaws SC Z Z}
    (st : Storage DB) chain (c c' : Engine DB RC SC) now now' pick header h num sig extra :
  Prepare keccak Ecrecover st chain now pick header c = (Ok h, c') →
  Number header = Some num → put_seal (Extra h) sig = Ok extra →
  UncleHash header = CalcUncleHash keccak [] → GasLimit header ≤ MaxGasLimit → Time h ≤ u64 now' →
  IsShanghai (ch_Config chain) (Time h) = false → IsCancun (ch_Config chain) (Time h) = false →
  let number := big_Uint64 num in
  let config := e_config c in
  let sealed := set_Extra extra h in
  verify_standalone keccak chain config now' sealed = Ok tt ∧
  (∃ parent, GetHeader chain (ParentHash sealed) (u64 (number - 1)) = Some parent ∧
     u64 (Time parent + Period config) ≤ Time sealed) ∧
  ∃ snap c1, snapshot keccak Ecrecover st chain (u64 (number - 1)) (ParentHash header) [] c = (Ok snap, c1) ∧
    verify_checkpoint config snap sealed number = Ok tt ∧
    (u64 (sn_Number snap + 1) = number → verify_turn snap sealed number (e_signer c1) = Ok tt).
Proof.
  intros H Hn Hseal Hu Hg Ht Hsh Hca. cbv zeta.
  destruct (Prepare_ok _ _ _ _ _ _ _ _ _ _ _ H Hn)
    as (He & snap & c1 & d & parent & Hs & Hd & Hp & P1 & P2 & P3 & P4 & P5 & P6 & P7 & P8 & P9 & P10).
  set (cp := big_Uint64 num mod Epoch (e_config c) =? 0) in *.
  destruct (prepare_extra_split (Extra header) cp snap) as (vanity & Ex & Hv). rewrite P7, Ex, app_assoc in Hseal.
  apply put_seal_ok in Hseal as (seal & -> & Hsl); [|done].
  assert (Hsealed : ∀ e, Number (set_Extra e h) = Some num ∧ ParentHash (set_Extra e h) = ParentHash header ∧
    UncleHash (set_Extra e h) = UncleHash header ∧ GasLimit (set_Extra e h) = GasLimit header ∧
    MixDigest (set_Extra e h) = 0 ∧ Difficulty (set_Extra e h) = Some d ∧ Extra (set_Extra e h) = e ∧
    Time (set_Extra e h) = Time h ∧ Coinbase (set_Extra e h) = Coinbase h ∧ Nonce (set_Extra e h) = Nonce h)
    by (intros e; destruct h; cbn in *; subst; split_and!; done).
  destruct (Hsealed ((vanity ++ (if cp then signer_bytes snap else [])) ++ seal))
    as (S1 & S2 & S3 & S4 & S5 & S6 & S7 & S8 & S9 & S10).
  set (sealed := set_Extra _ h) in *. clearbody sealed.
  assert (Hlen : zlen (Extra sealed) = 97 + (if cp then 20 * zlen (signers snap) else 0)).
  { rewrite S7, !zlen_app, Hv, Hsl. destruct cp; [rewrite zlen_signer_bytes|rewrite zlen_nil]; lia. }
  assert (Hdiff : d = diffInTurn ∨ d = diffNoTurn).
  { unfold calcDifficulty in Hd. apply bind_ok in Hd as (b & _ & [= <-]). destruct b; auto. }
  pose proof (zlen_nonneg (signers snap)) as Hz.
  split; [|split].
  - unfold verify_standalone, umod. rewrite S1, S3, S4, S5, S6, S8, S9, S10, Hlen, Hsh, Hca, Hu.
    cbn [mbind outcome_bind]. rewrite (proj2 (Z.eqb_neq _ _) He). cbn [mbind outcome_bind]. fold cp.
    unfold extraVanity, extraSeal, AddressLength.
    repeat match goal with
    | |- (guard_err ?b ?e ≫= ?k) = _ =>
        assert (Hb : b = false); [|rewrite Hb; cbn [guard_err mbind outcome_bind]; clear Hb]
    end.
    + by apply Z.ltb_ge.
    + destruct cp; [|done]. by rewrite (proj1 (P9 eq_refl)).
    + destruct P10 as [-> | ->]; done.
    + destruct cp; [|done]. by rewrite (proj2 (P9 eq_refl)).
    + apply Z.ltb_ge. destruct cp; lia.
    + apply Z.ltb_ge. destruct cp; lia.
    + by destruct cp.
    + destruct cp; [|done]. cbn [andb]. apply negb_false_iff, Z.eqb_eq.
      replace (97 + 20 * zlen (signers snap) - 32 - 65) with (zlen (signers snap) * 20) by lia. by apply Z.rem_mul.
    + done.
    + by rewrite Z.eqb_refl.
    + destruct Hdiff as [-> | ->]; by rewrite andb_false_r.
    + by apply Z.ltb_ge.
    + done.
  - exists parent. rewrite S2, S8. done.
  - exists snap, c1. split_and!; [done| |].
    + unfold verify_checkpoint, umod. rewrite (proj2 (Z.eqb_neq _ _) He). cbn [mbind outcome_bind]. fold cp.
      destruct cp; [|done]. rewrite S7. unfold extraVanity, extraSeal.
      rewrite <- app_assoc.
      replace (slice _ 32 _) with (Ok (signer_bytes snap) : outcome cliqueError bytes).
      2:{ symmetry. rewrite <- Hv. rewrite !zlen_app, Hsl.
          replace (zlen vanity + (zlen (signer_bytes snap) + 65) - 65) with (zlen vanity + zlen (signer_bytes snap)) by lia.
          apply slice_mid. }
      cbn [mbind outcome_bind]. by rewrite bool_decide_eq_true_2.
    + intros En. unfold calcDifficulty in Hd. rewrite En in Hd. apply bind_ok in Hd as (b & Hb & [= <-]).
      unfold verify_turn. rewrite Hb, S6. cbn [mbind outcome_bind deref]. by destruct b.
Qed.

(** Prepare block 1 on the toy chain. *)
Definition toy_draft : Header :=
  mkHeader (Header_Hash toy_keccak toy_g) (CalcUncleHash toy_keccak []) 7 0 0 0 0 None (Some 1) 5000 0 0 [z2b 1] 5 9
    None None None.
Definition toy_prepared : Header :=
  match (Prepare toy_keccak toy_Ecrecover toy_storage (toy_chain [toy_g]) 100 0 toy_draft toy_engine).1 with
  | Ok h => h | _ => toy_draft end.

Lemma Prepare_verifies_witness :
  Difficulty toy_prepared = Some 1 ∧ zlen (Extra toy_prepared) = 97 ∧
  ∃ extra, put_seal (Extra toy_prepared) (be_bytes 65 12) = Ok extra ∧
    verify_standalone toy_keccak (toy_chain [toy_g]) (mkCliqueConfig 15 30000) 100 (set_Extra extra toy_prepared) = Ok tt.
Proof.
  destruct (Prepare toy_keccak toy_Ecrecover toy_storage (toy_chain [toy_g]) 100 0 toy_draft toy_engine) as [r c'] eqn:E.
  assert (Hr : r = Ok toy_prepared) by (change r with (r, c').1; rewrite <- E; vm_compute; reflexivity). subst r.
  split; [vm_compute; reflexivity|]. split; [vm_compute; reflexivity|].
  eexists. split; [vm_compute; reflexivity|].
  apply (Prepare_verifies toy_keccak toy_Ecrecover toy_storage (toy_chain [toy_g]) toy_engine c' 100 100 0 toy_draft
    toy_prepared 1 (be_bytes 65 12)); try exact E; vm_compute; (reflexivity || congruence).
Defined.
