(* ===== verification/Adapter.v ===== *)
(** The Narwhal adapter: [src/go-ethereum/extadapter/extadapter.go].

    A signer submits every sealed block to the Narwhal gateway ([Broadcast])
    and waits for a commit event that names the block's number
    ([WaitForCommit], [RebuildHeaderWithNarwhalSig]).  Commit events arrive
    through [Notify], a gRPC handler that drops sequence numbers it has seen
    and queues the decoded headers.  The gateway, its connections and the
    health service are parameters ([Gateway]); the transaction encodings of a
    block are too.  [Notify] is modelled twice: as one call that runs alone,
    and as the steps of handlers that run concurrently ([handler_step]). *)

From S2P Require Import Prelude RLP RLPDecode Types HeaderRLP.

(** ** Data *)

Definition ExtraAuditorSignature : Z := 65.
Definition ExtraAuditorStartPos : Z := 120.
Definition PaddingBitsLength : Z := 4.

(** Messages of the gateway protocol. *)
Record NarwhalCommitEvent := mkEvent {
  NarwhalSequenceNumber : Z;
  EthSequenceNumbers : list Z;
  EthBlockDigest : list bytes;
  LeaderHeaderDigest : bytes
}.
Record Proposal := mkProposal { EthereumBlock : bytes; EthereumHeader : bytes }.

Record NarwhalOutput := mkOutput { Headers : list Header; Evt : NarwhalCommitEvent }.

#[global] Instance NarwhalCommitEvent_eq_dec : EqDecision NarwhalCommitEvent.
Proof. solve_decision. Defined.
#[global] Instance NarwhalOutput_eq_dec : EqDecision NarwhalOutput.
Proof. solve_decision. Defined.

Inductive ServingStatus := UNKNOWN | SERVING | NOT_SERVING | SERVICE_UNKNOWN.
Inductive ConnState := Idle | Connecting | Ready | TransientFailure | Shutdown.

#[global] Instance ServingStatus_eq_dec : EqDecision ServingStatus.
Proof. solve_decision. Defined.

Inductive adapterError :=
| DialFailed | ConnectionLost | RequestFailed | SubmitFailed | NoMatchingNumber (number : option Z).

(** The adapter's fields; [outc] is the buffered channel. *)
Record NarwhalAdapter (Conn : Type) := mkAdapter {
  hostAddress : string;
  gatewayAddress : string;
  gatewayConn : option Conn;
  outc : list NarwhalOutput;
  committedSeqs : gmap Z bool
}.
Arguments mkAdapter {Conn} _ _ _ _ _.
Arguments hostAddress {Conn} _.
Arguments gatewayAddress {Conn} _.
Arguments gatewayConn {Conn} _.
Arguments outc {Conn} _.
Arguments committedSeqs {Conn} _.

Definition set_conn {Conn} (c : option Conn) (na : NarwhalAdapter Conn) :=
  mkAdapter (hostAddress na) (gatewayAddress na) c (outc na) (committedSeqs na).
Definition set_outc {Conn} (q : list NarwhalOutput) (na : NarwhalAdapter Conn) :=
  mkAdapter (hostAddress na) (gatewayAddress na) (gatewayConn na) q (committedSeqs na).
Definition set_committed {Conn} (m : gmap Z bool) (na : NarwhalAdapter Conn) :=
  mkAdapter (hostAddress na) (gatewayAddress na) (gatewayConn na) (outc na) m.

(** Capacity of the channel [outc]. *)
Definition outc_cap : Z := 100.

(** The gateway as its client sees it: dialling, the health service, the state
    of a connection and the submission call, which may change the gateway. *)
Record Gateway (Conn : Type) := mkGateway {
  gw_state : Type;
  Dial : gw_state → string → option Conn;
  Health : gw_state → Conn → option ServingStatus;
  GetState : gw_state → Conn → ConnState;
  SubmitTransaction : gw_state → Conn → Proposal → gw_state * option string
}.
Arguments gw_state {Conn} _.
Arguments Dial {Conn} _ _ _.
Arguments Health {Conn} _ _ _.
Arguments GetState {Conn} _ _ _.
Arguments SubmitTransaction {Conn} _ _ _ _.

(** ** Creation *)

(** [GetNarwhalAdapter] panics when it cannot listen on its own address. *)
Definition GetNarwhalAdapter {Conn} (Listen : string → bool) (hostAddr gatewayAddr : string)
    : outcome adapterError (NarwhalAdapter Conn) :=
  if Listen hostAddr then Ok (mkAdapter hostAddr gatewayAddr None [] ∅) else Panic.

(** [CheckSignerFlag]: the value of the environment variable SIGNER. *)
Definition CheckSignerFlag (SIGNER : string) : bool := bool_decide (SIGNER = "true"%string).

(** ** Submitting blocks *)

Section Submit.
Context {Tx Wd Conn : Type} (tx_value : Tx → value) (wd_value : Wd → value) (G : Gateway Conn).

(** The adapter together with the gateway it talks to. *)
Definition world : Type := NarwhalAdapter Conn * gw_state G.

(** The switch on the connection's state has empty cases for [Idle] and
    [Shutdown], which in Go end the switch. *)
Definition CheckConnection (w : world) : bool :=
  match gatewayConn w.1 with
  | None => false
  | Some conn =>
      match Health G w.2 conn with
      | None => false
      | Some status =>
          if negb (bool_decide (status = SERVING)) then false else
          match GetState G w.2 conn with
          | Idle => true
          | Shutdown => true
          | TransientFailure => false
          | _ => true
          end
      end
  end.

Definition encodeBlock (block : Block Tx Wd) : outcome adapterError (bytes * bytes) :=
  match EncodeToBytes (extblock tx_value wd_value block) with
  | Ok blockBytes =>
      match EncodeToBytes (header_value (Block_Header block)) with
      | Ok headerBytes => Ok (blockBytes, headerBytes)
      | _ => Panic
      end
  | _ => Panic
  end.

Definition getGatewayClient : stm world adapterError unit := fun w =>
  match Dial G w.2 (gatewayAddress w.1) with
  | None => (Err DialFailed, w)
  | Some conn => (Ok tt, (set_conn (Some conn) w.1, w.2))
  end.

(** The submission itself: a transport error, or a response that may say "fail". *)
Definition submit (conn : Conn) (p : Proposal) : stm world adapterError unit := fun w =>
  let '(g, resp) := SubmitTransaction G w.2 conn p in
  match resp with
  | None => (Err RequestFailed, (w.1, g))
  | Some r => if bool_decide (r = "fail"%string) then (Err SubmitFailed, (w.1, g)) else (Ok tt, (w.1, g))
  end.

(** The first half of [Broadcast]: dial when there is no connection yet. *)
Definition connect : stm world adapterError unit := fun w =>
  match gatewayConn w.1 with None => getGatewayClient w | Some _ => (Ok tt, w) end.

(** The second half: check the connection, encode and submit. *)
Definition propose (block : Block Tx Wd) : stm world adapterError unit := fun w =>
  if negb (CheckConnection w) then (Err ConnectionLost, w) else
  match gatewayConn w.1, encodeBlock block with
  | Some conn, Ok (blockBytes, headerBytes) => submit conn (mkProposal blockBytes headerBytes) w
  | _, Err e => (Err e, w)
  | _, _ => (Panic, w)
  end.

Definition Broadcast (block : Block Tx Wd) : stm world adapterError unit :=
  _ ← connect; propose block.

(** The first header of the output with the block's number releases the
    block, with its header unchanged. *)
Fixpoint rebuild_loop (block : Block Tx Wd) (rebuildHeader : Header) (headers : list Header)
    : outcome adapterError (Block Tx Wd) :=
  match headers with
  | [] => Err (NoMatchingNumber (Number rebuildHeader))
  | header :: headers' =>
      ethNumber ← deref (Number rebuildHeader);
      number ← deref (Number header);
      if ethNumber =? number then Ok (WithSeal block rebuildHeader)
      else rebuild_loop block rebuildHeader headers'
  end.
Definition RebuildHeaderWithNarwhalSig (block : Block Tx Wd) (co : NarwhalOutput)
    : outcome adapterError (Block Tx Wd) :=
  rebuild_loop block (Block_Header block) (Headers co).
End Submit.

(** ** Commit events *)

(** The headers of an event; [Notify] panics on one it cannot decode. *)
Fixpoint decode_headers (digests : list bytes) : outcome adapterError (list Header) :=
  match digests with
  | [] => Ok []
  | headerBytes :: digests' =>
      match DecodeHeader headerBytes with
      | Ok h => hs ← decode_headers digests'; Ok (h :: hs)
      | _ => Panic
      end
  end.

Inductive notifyResp := Thanks | AlreadyGotIt.

(** How a call of [Notify] that runs alone ends: with a response, waiting for
    room in the channel, or in a panic. *)
Inductive notifyEnd := Responded (r : notifyResp) | WaitingToSend (out : NarwhalOutput) | Crashed.

Section Notify.
Context {Conn : Type}.

Definition Notify (req : NarwhalCommitEvent) (na : NarwhalAdapter Conn) : notifyEnd * NarwhalAdapter Conn :=
  match committedSeqs na !! NarwhalSequenceNumber req with
  | Some _ => (Responded AlreadyGotIt, na)
  | None =>
      let na := set_committed (<[NarwhalSequenceNumber req := true]> (committedSeqs na)) na in
      match decode_headers (EthBlockDigest req) with
      | Ok headers =>
          let narwhalOut := mkOutput headers req in
          if zlen (outc na) <? outc_cap
          then (Responded Thanks, set_outc (outc na ++ [narwhalOut]) na)
          else (WaitingToSend narwhalOut, na)
      | _ => (Crashed, na)
      end
  end.

(** [WaitForCommit] takes the oldest output; on an empty channel it waits. *)
Definition WaitForCommit (na : NarwhalAdapter Conn) : option (NarwhalOutput * NarwhalAdapter Conn) :=
  match outc na with
  | [] => None
  | evt :: q => Some (evt, set_outc q na)
  end.

(** ** Concurrent handlers

    gRPC runs every call of [Notify] in a goroutine of its own, and the map
    is read and written without a lock.  A handler is at one of these
    points. *)
Inductive handler :=
| HCheck (req : NarwhalCommitEvent)
| HMark (req : NarwhalCommitEvent)
| HSend (out : NarwhalOutput)
| HDone (r : notifyResp)
| HCrashed.

Definition handler_step (h : handler) (na : NarwhalAdapter Conn) : option (handler * NarwhalAdapter Conn) :=
  match h with
  | HCheck req =>
      match committedSeqs na !! NarwhalSequenceNumber req with
      | Some _ => Some (HDone AlreadyGotIt, na)
      | None => Some (HMark req, na)
      end
  | HMark req =>
      let na := set_committed (<[NarwhalSequenceNumber req := true]> (committedSeqs na)) na in
      match decode_headers (EthBlockDigest req) with
      | Ok headers => Some (HSend (mkOutput headers req), na)
      | _ => Some (HCrashed, na)
      end
  | HSend out =>
      if zlen (outc na) <? outc_cap then Some (HDone Thanks, set_outc (outc na ++ [out]) na) else None
  | HDone _ | HCrashed => None
  end.

(** One step of the adapter: a handler moves, or the worker takes an output. *)
Record adapter_state := mkState {
  handlers : list handler;
  adapter : NarwhalAdapter Conn;
  taken : list NarwhalOutput
}.

Inductive adapter_step : adapter_state → adapter_state → Prop :=
| step_arrive s req :
    adapter_step s (mkState (handlers s ++ [HCheck req]) (adapter s) (taken s))
| step_handler s i h h' na' :
    handlers s !! i = Some h → handler_step h (adapter s) = Some (h', na') →
    adapter_step s (mkState (<[i:=h']> (handlers s)) na' (taken s))
| step_take s out na' :
    WaitForCommit (adapter s) = Some (out, na') →
    adapter_step s (mkState (handlers s) na' (taken s ++ [out])).
End Notify.

(** ** The extra-data layout of auditor signatures *)

(** [binary.LittleEndian] on 32 bits. *)
Definition le32 (z : Z) : bytes := reverse (be_bytes 4 z).
Definition le32_value (b : bytes) : Z := be_value (reverse b).
Definition u32 (z : Z) : Z := z mod 2 ^ 32.

(** [EncodeExtraWithPaddings]: the extra data padded to 120 bytes, the size of
    the padding, then the signatures. *)
Definition EncodeExtraWithPaddings (extra : bytes) (AuditorSignatures : list bytes) : outcome adapterError bytes :=
  if ExtraAuditorStartPos <=? zlen extra then Panic else
  let paddingSize := u32 (ExtraAuditorStartPos - zlen extra) in
  let bs := le32 paddingSize in
  let extra := extra ++ replicate (Z.to_nat paddingSize) (z2b 0) in
  let extra := extra ++ bs in
  Ok (foldl (fun extra sig => extra ++ sig) extra AuditorSignatures).

Definition GetOriginalExtra (extra : bytes) : outcome adapterError bytes :=
  if zlen extra <? ExtraAuditorStartPos then Panic else
  paddingBytes ← slice extra ExtraAuditorStartPos (ExtraAuditorStartPos + 4);
  let paddingSize := le32_value paddingBytes in
  slice extra 0 (u32 (ExtraAuditorStartPos - paddingSize)).

(** Signature [i] of [GetAuditorSignatures], with the slice bounds of the code. *)
Definition auditor_signature (extra : bytes) (i : Z) : outcome adapterError bytes :=
  let startPos := ExtraAuditorStartPos + PaddingBitsLength in
  slice extra (startPos + i * ExtraAuditorSignature)
              (startPos + ((i + 1) * ExtraAuditorSignature + ExtraAuditorSignature)).

Fixpoint auditor_signatures (extra : bytes) (i : Z) (n : nat) : outcome adapterError (list bytes) :=
  match n with
  | O => Ok []
  | S n' => s ← auditor_signature extra i; ss ← auditor_signatures extra (i + 1) n'; Ok (s :: ss)
  end.

(** [make] with a negative length panics. *)
Definition GetAuditorSignatures (extra : bytes) : outcome adapterError (list bytes) :=
  let numSigs := Z.quot (zlen extra - ExtraAuditorStartPos) ExtraAuditorSignature in
  if numSigs <? 0 then Panic else auditor_signatures extra 0 (Z.to_nat numSigs).

(** ** Lemmas on the submission path *)

Section SubmitLemmas.
Context {Tx Wd Conn : Type} (tx_value : Tx → value) (wd_value : Wd → value) (G : Gateway Conn).

Lemma CheckConnection_true (w : world G) :
  CheckConnection G w = true ↔
  ∃ conn, gatewayConn w.1 = Some conn ∧ Health G w.2 conn = Some SERVING ∧
          GetState G w.2 conn ≠ TransientFailure.
Proof.
  unfold CheckConnection. destruct (gatewayConn w.1) as [conn|]; [|naive_solver].
  destruct (Health G w.2 conn) as [[]|] eqn:EH; cbn; try (split; [done|]; naive_solver).
  destruct (GetState G w.2 conn) eqn:ES;
    (split; [intros Htrue; exists conn; split_and!; try done; by rewrite ES|intros (c & [= <-] & _ & Hne); by rewrite ES in Hne]).
Qed.

(** A successful [Broadcast] has submitted the block and its header. *)
Lemma Broadcast_ok block (w w' : world G) :
  Broadcast tx_value wd_value G block w = (Ok tt, w') →
  ∃ conn bb hb r, w' = (set_conn (Some conn) w.1, (SubmitTransaction G w.2 conn (mkProposal bb hb)).1) ∧
    (SubmitTransaction G w.2 conn (mkProposal bb hb)).2 = Some r ∧ r ≠ "fail"%string ∧
    EncodeToBytes (extblock tx_value wd_value block) = Ok bb ∧
    EncodeToBytes (header_value (Block_Header block)) = Ok hb.
Proof.
  unfold Broadcast. intros ([] & w1 & Hc & Hp)%stm_bind_ok.
  assert (Hw1 : ∃ conn, w1 = (set_conn (Some conn) w.1, w.2)).
  { unfold connect, getGatewayClient in Hc. destruct (gatewayConn w.1) as [conn|] eqn:E.
    - simplify_eq. exists conn. destruct w1 as [[] ?]; cbn in *; by subst.
    - destruct (Dial G w.2 _) as [conn|]; simplify_eq. by exists conn. }
  destruct Hw1 as [conn ->]. unfold propose in Hp.
  destruct (CheckConnection G _); [|done]. cbn in Hp. unfold encodeBlock in Hp.
  destruct (EncodeToBytes (extblock _ _ _)) as [bb| |] eqn:Eb; [|done..].
  destruct (EncodeToBytes (header_value _)) as [hb| |] eqn:Eh; [|done..].
  unfold submit in Hp. cbn in Hp.
  destruct (SubmitTransaction G w.2 conn (mkProposal bb hb)) as [g [r|]] eqn:Es; [|done].
  case_bool_decide; simplify_eq. exists conn, bb, hb, r. rewrite Es. done.
Qed.

(** The loop over the committed headers. *)
Lemma Rebuild_ok (block : Block Tx Wd) co n :
  Number (Block_Header block) = Some n → Forall (fun h => is_Some (Number h)) (Headers co) →
  RebuildHeaderWithNarwhalSig block co =
    (if bool_decide (Exists (fun h => Number h = Some n) (Headers co))
     then Ok (WithSeal block (Block_Header block)) else Err (NoMatchingNumber (Some n))).
Proof.
  intros Hn HF. unfold RebuildHeaderWithNarwhalSig.
  induction HF as [|h hs [m Hm] HF IH]; cbn [rebuild_loop]; rewrite Hn; [done|]. rewrite Hm. cbn [deref mbind outcome_bind].
  destruct (n =? m) eqn:E; zbool.
  - subst m. by rewrite bool_decide_true by (by left).
  - rewrite IH. rewrite (bool_decide_ext (Exists _ (h :: hs)) (Exists (fun h => Number h = Some n) hs)); [done|].
    rewrite Exists_cons. split; [|auto]. intros [?|?]; [congruence|done].
Qed.
End SubmitLemmas.

Lemma decode_headers_ok ds hs : decode_headers ds = Ok hs ↔ Forall2 (fun d h => DecodeHeader d = Ok h) ds hs.
Proof.
  revert hs. induction ds as [|d ds IH]; intros hs; cbn.
  - split; [intros [= <-]; constructor|intros H; by inversion H].
  - split.
    + destruct (DecodeHeader d) as [h| |] eqn:E; [|done..]. intros (hs' & H & [= <-])%bind_ok.
      constructor; [done|]. by apply IH.
    + intros H. inversion H as [|? h ? hs' E H']; subst. rewrite E. by rewrite (proj2 (IH hs') H').
Qed.

(** Decoded headers have a number. *)
Lemma decoded_Number ds hs : Forall (fun d => zlen d < 2 ^ 63) ds → decode_headers ds = Ok hs →
  Forall (fun h => is_Some (Number h)) hs.
Proof.
  intros Hd H2%decode_headers_ok. induction H2 as [|d h ds hs E H2 IH]; [constructor|].
  inversion Hd; subst. constructor; [|auto]. apply DecodeHeader_ok in E as [[] _]; [|done].
  by destruct (Number h).
Qed.

(** A header decodes from its own bytes. *)
Lemma DecodeHeader_own h : wf_header h → DecodeHeader (rlp_list (header_payload h)) = Ok h.
Proof.
  intros Hwf. pose proof (zlen_header_list _ Hwf).
  apply DecodeHeader_ok; [lia|]. split; [by apply wf_decodable|done].
Qed.

(** A fresh commit event with the block's header releases the block. *)
Lemma commit_releases {Tx Wd Conn} (block : Block Tx Wd) (req : NarwhalCommitEvent) (na : NarwhalAdapter Conn) hs :
  wf_header (Block_Header block) →
  rlp_list (header_payload (Block_Header block)) ∈ EthBlockDigest req →
  Forall (fun d => zlen d < 2 ^ 63) (EthBlockDigest req) → decode_headers (EthBlockDigest req) = Ok hs →
  committedSeqs na !! NarwhalSequenceNumber req = None → outc na = [] →
  ∃ na' na'' out, Notify req na = (Responded Thanks, na') ∧ WaitForCommit na' = Some (out, na'') ∧
    Evt out = req ∧ RebuildHeaderWithNarwhalSig block out = Ok (WithSeal block (Block_Header block)).
Proof.
  intros Hwf Hin Hlen Hds Hfresh Hq. pose proof (DecodeHeader_own _ Hwf) as Hdec.
  unfold Notify. rewrite Hfresh, Hds. cbn [outc set_committed]. rewrite Hq.
  eexists _, _, (mkOutput hs req). split; [reflexivity|]. split; [reflexivity|]. split; [done|].
  pose proof (wf_Number _ Hwf) as Hbig. destruct (Number (Block_Header block)) as [n|] eqn:Hn; [|done].
  rewrite (Rebuild_ok block _ n Hn); [|by eapply decoded_Number]. cbn [Headers].
  rewrite bool_decide_true; [done|]. apply Exists_exists. exists (Block_Header block). split; [|done].
  apply decode_headers_ok in Hds. apply list_elem_of_lookup in Hin as [i Hi].
  destruct (Forall2_lookup_l _ _ _ _ _ Hds Hi) as (h & Hhi & Eh). rewrite Hdec in Eh. simplify_eq.
  apply list_elem_of_lookup. eauto.
Qed.

(** ** Lemmas on the commit queue *)

(** The calls of one client after another. *)
Inductive adapter_op := ONotify (req : NarwhalCommitEvent) | OWait.

Section Queue.
Context {Conn : Type}.

(** A run in which every call returns; the outputs the worker took are
    collected. *)
Fixpoint run_ops (ops : list adapter_op) (na : NarwhalAdapter Conn) (taken : list NarwhalOutput)
    : option (NarwhalAdapter Conn * list NarwhalOutput) :=
  match ops with
  | [] => Some (na, taken)
  | ONotify req :: ops' =>
      match Notify req na with
      | (Responded _, na') => run_ops ops' na' taken
      | _ => None
      end
  | OWait :: ops' => '(out, na') ← WaitForCommit na; run_ops ops' na' (taken ++ [out])
  end.

(** The events of a run, without the ones whose number was seen before. *)
Fixpoint first_events (seen : gset Z) (ops : list adapter_op) : list NarwhalCommitEvent :=
  match ops with
  | [] => []
  | ONotify req :: ops' =>
      if bool_decide (NarwhalSequenceNumber req ∈ seen) then first_events seen ops'
      else req :: first_events ({[NarwhalSequenceNumber req]} ∪ seen) ops'
  | OWait :: ops' => first_events seen ops'
  end.

Definition decoded (o : NarwhalOutput) : Prop := decode_headers (EthBlockDigest (Evt o)) = Ok (Headers o).

Lemma run_ops_first ops na tk na' tk' :
  run_ops ops na tk = Some (na', tk') →
  map Evt (tk' ++ outc na') = map Evt (tk ++ outc na) ++ first_events (dom (committedSeqs na)) ops ∧
  (Forall decoded (tk ++ outc na) → Forall decoded (tk' ++ outc na')).
Proof.
  revert na tk. induction ops as [|[req|] ops IH]; intros na tk; cbn.
  - intros [= -> ->]. by rewrite app_nil_r.
  - unfold Notify. destruct (committedSeqs na !! NarwhalSequenceNumber req) eqn:E.
    + rewrite bool_decide_true by (apply elem_of_dom; eauto). apply IH.
    + rewrite bool_decide_false by (by apply not_elem_of_dom).
      destruct (decode_headers _) as [hs| |] eqn:Ed; try done.
      case_if; [|done]. intros H. apply IH in H as [H1 H2]. cbn in *. rewrite dom_insert_L in H1.
      rewrite H1. rewrite !map_app. cbn. rewrite <- !app_assoc. split; [done|].
      intros Hd. apply H2. rewrite app_assoc. apply Forall_app. split; [done|]. by repeat constructor.
  - unfold WaitForCommit. destruct (outc na) as [|o q] eqn:Eq; [done|]. cbn.
    intros H. apply IH in H as [H1 H2]. cbn in *. rewrite H1, <- app_assoc. split; [done|].
    intros Hd. apply H2. by rewrite <- app_assoc.
Qed.

Lemma first_events_fresh seen ops e : e ∈ first_events seen ops →
  (NarwhalSequenceNumber e ∉ seen) ∧ ONotify e ∈ ops.
Proof.
  revert seen. induction ops as [|[req|] ops IH]; intros seen; cbn; [by intros ?%elem_of_nil| |].
  - case_bool_decide.
    + intros [? ?]%IH. split; [done|by right].
    + rewrite elem_of_cons. intros [->|[Hn ?]%IH]; [split; [done|by left]|]. split; [set_solver|by right].
  - intros [? ?]%IH. split; [done|by right].
Qed.

Lemma first_events_NoDup seen ops : NoDup (map NarwhalSequenceNumber (first_events seen ops)).
Proof.
  revert seen. induction ops as [|[req|] ops IH]; intros seen; cbn; [constructor| |done].
  case_bool_decide; [done|]. cbn. constructor; [|done].
  intros (e & E & [Hn _]%first_events_fresh)%list_elem_of_fmap. set_solver.
Qed.

Lemma first_events_complete seen ops req : ONotify req ∈ ops → NarwhalSequenceNumber req ∉ seen →
  NarwhalSequenceNumber req ∈ map NarwhalSequenceNumber (first_events seen ops).
Proof.
  revert seen. induction ops as [|[r|] ops IH]; intros seen Hin Hn; [by apply elem_of_nil in Hin| |]; cbn.
  - case_bool_decide as Hs.
    + apply IH; [|done]. apply elem_of_cons in Hin as [[= ->]|?]; done.
    + cbn. destruct (decide (NarwhalSequenceNumber req = NarwhalSequenceNumber r)) as [->|Hne]; [by left|right].
      apply IH; [|set_solver]. apply elem_of_cons in Hin as [[= ->]|?]; done.
  - apply IH; [|done]. apply elem_of_cons in Hin as [?|?]; done.
Qed.

(** ** Invariant of concurrent handlers *)






End Queue.

(** Two handlers of one event, both past the check before either marks. *)
Lemma race_run {Conn} (req : NarwhalCommitEvent) (hs : list Header) (na : NarwhalAdapter Conn) :
  decode_headers (EthBlockDigest req) = Ok hs → committedSeqs na !! NarwhalSequenceNumber req = None →
  zlen (outc na) + 2 ≤ outc_cap →
  ∃ s, rtc adapter_step (mkState [] na []) s ∧
       outc (adapter s) = outc na ++ [mkOutput hs req; mkOutput hs req].
Proof.
  intros Hd Hf Hc. set (m := <[NarwhalSequenceNumber req := true]> (committedSeqs na)).
  set (m2 := <[NarwhalSequenceNumber req := true]> m). set (o := mkOutput hs req).
  eexists. split.
  { eapply rtc_l; [apply (step_arrive _ req)|]. cbn.
    eapply rtc_l; [apply (step_arrive _ req)|]. cbn.
    eapply rtc_l; [apply (step_handler _ 0 (HCheck req) (HMark req) na); [done|cbn; by rewrite Hf]|]. cbn.
    eapply rtc_l; [apply (step_handler _ 1 (HCheck req) (HMark req) na); [done|cbn; by rewrite Hf]|]. cbn.
    eapply rtc_l; [apply (step_handler _ 0 (HMark req) (HSend o) (set_committed m na)); [done|cbn; by rewrite Hd]|]. cbn.
    eapply rtc_l; [apply (step_handler _ 1 (HMark req) (HSend o) (set_committed m2 na)); [done|cbn; by rewrite Hd]|]. cbn.
    eapply rtc_l; [apply (step_handler _ 0 (HSend o) (HDone Thanks) (set_outc (outc na ++ [o]) (set_committed m2 na)));
                   [done|cbn; case_if; [done|lia]]|]. cbn.
    eapply rtc_l; [apply (step_handler _ 1 (HSend o) (HDone Thanks) (set_outc ((outc na ++ [o]) ++ [o]) (set_committed m2 na)));
                   [done|cbn; rewrite zlen_app; change (zlen [o]) with 1; case_if; [done|lia]]|].
    apply rtc_refl. }
  cbn. by rewrite <- app_assoc.
Qed.
(** ** Lemmas on the extra-data layout *)

Lemma le32_value_le32 z : 0 ≤ z < 2 ^ 32 → le32_value (le32 z) = z.
Proof.
  intros. unfold le32_value, le32. rewrite reverse_involutive, be_value_be_bytes. by apply Z.mod_small.
Qed.
Lemma zlen_le32 z : zlen (le32 z) = 4.
Proof. unfold le32, zlen. by rewrite length_reverse, length_be_bytes. Qed.

Lemma foldl_append {A} (l : list (list A)) acc : foldl (fun e s => e ++ s) acc l = acc ++ concat l.
Proof.
  revert acc. induction l as [|x l IH]; intros acc; cbn; [by rewrite app_nil_r|]. by rewrite IH, <- app_assoc.
Qed.

Lemma EncodeExtra_layout extra sigs : zlen extra < ExtraAuditorStartPos →
  EncodeExtraWithPaddings extra sigs =
    Ok ((extra ++ replicate (Z.to_nat (ExtraAuditorStartPos - zlen extra)) (z2b 0)) ++
        le32 (ExtraAuditorStartPos - zlen extra) ++ concat sigs).
Proof.
  intros Hl. unfold EncodeExtraWithPaddings, ExtraAuditorStartPos in *. pose proof (zlen_nonneg extra).
  case_if; [lia|]. rewrite foldl_append. unfold u32. rewrite Z.mod_small by lia.
  by rewrite <- app_assoc.
Qed.

Lemma zlen_padded extra : zlen extra < ExtraAuditorStartPos →
  zlen (extra ++ replicate (Z.to_nat (ExtraAuditorStartPos - zlen extra)) (z2b 0)) = ExtraAuditorStartPos.
Proof. intros. rewrite zlen_app. unfold zlen at 2. rewrite length_replicate. lia. Qed.

Lemma concat_sigs (sigs : list bytes) : Forall (fun s => zlen s = ExtraAuditorSignature) sigs →
  zlen (concat sigs) = ExtraAuditorSignature * zlen sigs.
Proof.
  induction 1 as [|s sigs Hs _ IH]; [done|]. cbn. rewrite zlen_app, zlen_cons, Hs, IH. lia.
Qed.

(** The last of [n] signatures ends behind the data. *)
Lemma auditor_signatures_panic extra n i : (0 < n)%nat → 0 ≤ i →
  zlen extra = ExtraAuditorStartPos + PaddingBitsLength + (i + Z.of_nat n) * ExtraAuditorSignature →
  auditor_signatures extra i n = Panic.
Proof.
  revert i. induction n as [|n IH]; intros i Hn Hi Hlen; [lia|]. cbn [auditor_signatures].
  unfold auditor_signature, slice, ExtraAuditorStartPos, PaddingBitsLength, ExtraAuditorSignature in *.
  destruct n as [|n].
  - case_if; [lia|done].
  - case_if; [|done]. cbn [mbind outcome_bind]. rewrite IH; [done|lia|lia|lia].
Qed.

(** ** Properties *)

Section Properties.
Context {Tx Wd Conn : Type} (tx_value : Tx → value) (wd_value : Wd → value) (G : Gateway Conn).

(** C1. A sealed block comes back from Narwhal: when [Broadcast] succeeds,
    the gateway was given a proposal whose header bytes [hb] decode to the
    block's header; and when a fresh commit event carrying [hb] among
    decodable headers reaches [Notify] while the queue is empty, the next
    [WaitForCommit] returns an output for which
    [RebuildHeaderWithNarwhalSig] releases the block with its own header and
    body. *)
Theorem narwhal_roundtrip (block : Block Tx Wd) (w w' : world G) :
  wf_header (Block_Header block) → Broadcast tx_value wd_value G block w = (Ok tt, w') →
  ∃ conn bb hb,
    w' = (set_conn (Some conn) w.1, (SubmitTransaction G w.2 conn (mkProposal bb hb)).1) ∧
    DecodeHeader hb = Ok (Block_Header block) ∧
    ∀ (req : NarwhalCommitEvent) (na : NarwhalAdapter Conn) hs,
      hb ∈ EthBlockDigest req → Forall (fun d => zlen d < 2 ^ 63) (EthBlockDigest req) →
      decode_headers (EthBlockDigest req) = Ok hs →
      committedSeqs na !! NarwhalSequenceNumber req = None → outc na = [] →
      ∃ na' na'' out, Notify req na = (Responded Thanks, na') ∧ WaitForCommit na' = Some (out, na'') ∧
        Evt out = req ∧ RebuildHeaderWithNarwhalSig block out = Ok (WithSeal block (Block_Header block)).
Proof.
  intros Hwf (conn & bb & hb & r & -> & Hr & _ & _ & Hh)%Broadcast_ok. exists conn, bb, hb.
  pose proof (EncodeToBytes_header _ Hwf) as Hh'. rewrite Hh in Hh'. simplify_eq.
  split; [done|]. split; [by apply DecodeHeader_own|]. intros req na hs Hin Hlen Hds Hfresh Hq.
  by apply (commit_releases block req na hs).
Qed.

(** A block is released exactly when some committed header has its
    number; what is released is the block with its own header, whose hash
    is unchanged when the header has a difficulty and a number, and whatever
    else the committed header says is not looked at. *)
Theorem Rebuild_exact (keccak : bytes → Z) (block b' : Block Tx Wd) (co : NarwhalOutput) :
  is_Some (Difficulty (b_header block)) → is_Some (Number (b_header block)) →
  Forall (fun h => is_Some (Number h)) (Headers co) →
  (RebuildHeaderWithNarwhalSig block co = Ok b' ↔
     b' = block ∧ Exists (fun h => Number h = Number (b_header block)) (Headers co)) ∧
  Block_Hash keccak (WithSeal block (Block_Header block)) = Block_Hash keccak block.
Proof.
  intros [d Hd] [n Hn] HF.
  assert (Hcopy : Block_Header block = b_header block).
  { unfold Block_Header, CopyHeader. destruct (b_header block). cbn in *. by subst. }
  assert (Hseal : WithSeal block (Block_Header block) = block) by (rewrite Hcopy; by destruct block).
  rewrite Hseal. split; [|done]. rewrite (Rebuild_ok block co n) by (by rewrite ?Hcopy). rewrite Hseal, Hn.
  case_bool_decide; naive_solver.
Qed.

(** [CheckConnection] accepts a connection that is serving and not in
    transient failure; a connection that was shut down or is idle passes,
    because the empty cases of the switch do not fall through. *)
Theorem CheckConnection_exact (w : world G) :
  (CheckConnection G w = true ↔
     ∃ conn, gatewayConn w.1 = Some conn ∧ Health G w.2 conn = Some SERVING ∧
             GetState G w.2 conn ≠ TransientFailure) ∧
  ∀ conn, gatewayConn w.1 = Some conn → Health G w.2 conn = Some SERVING →
    GetState G w.2 conn = Shutdown ∨ GetState G w.2 conn = Idle → CheckConnection G w = true.
Proof.
  split; [apply CheckConnection_true|]. intros conn Hc Hh Hs. apply CheckConnection_true.
  exists conn. split; [done|]. split; [done|]. destruct Hs as [-> | ->]; done.
Qed.

(** C16. Handled one after another, commit events reach the worker once
    each and in order: after any sequence of calls that return, the outputs
    taken followed by those queued are the events with a new sequence
    number, in the order of their first arrival, with their decoded headers;
    no sequence number occurs twice and none is lost. *)
Theorem Notify_exactly_once (hostAddr gatewayAddr : string) (ops : list adapter_op)
    (na : NarwhalAdapter Conn) (tk : list NarwhalOutput) :
  run_ops ops (mkAdapter hostAddr gatewayAddr None [] ∅) [] = Some (na, tk) →
  map Evt (tk ++ outc na) = first_events ∅ ops ∧
  Forall decoded (tk ++ outc na) ∧
  NoDup (map (fun o => NarwhalSequenceNumber (Evt o)) (tk ++ outc na)) ∧
  ∀ req, ONotify req ∈ ops →
    NarwhalSequenceNumber req ∈ map (fun o => NarwhalSequenceNumber (Evt o)) (tk ++ outc na).
Proof.
  intros H. apply run_ops_first in H as [H1 H2]. cbn in H1. rewrite dom_empty_L in H1.
  assert (E : map (fun o => NarwhalSequenceNumber (Evt o)) (tk ++ outc na) =
              map NarwhalSequenceNumber (first_events ∅ ops)) by (by rewrite <- H1, map_map).
  split; [done|]. split; [apply H2; constructor|]. rewrite E. split; [apply first_events_NoDup|].
  intros req Hr. by apply first_events_complete.
Qed.


(** The duplicate check of concurrent handlers is not atomic: two calls
    with the same new event can both pass it and both deliver, so the worker
    receives the commit twice. *)
Theorem Notify_race (req : NarwhalCommitEvent) (hs : list Header) (na : NarwhalAdapter Conn) :
  decode_headers (EthBlockDigest req) = Ok hs → committedSeqs na !! NarwhalSequenceNumber req = None →
  zlen (outc na) + 2 ≤ outc_cap →
  ∃ s, rtc adapter_step (mkState [] na []) s ∧
       outc (adapter s) = outc na ++ [mkOutput hs req; mkOutput hs req].
Proof.
  apply race_run.
Qed.
End Properties.

(** The padded layout keeps the original extra data: extra data shorter
    than 120 bytes, padded and extended by any signatures, is recovered by
    [GetOriginalExtra]; longer extra data makes the encoder panic. *)
Theorem GetOriginalExtra_roundtrip (extra : bytes) (sigs : list bytes) :
  (zlen extra < ExtraAuditorStartPos →
     ∃ e, EncodeExtraWithPaddings extra sigs = Ok e ∧ GetOriginalExtra e = Ok extra ∧
          drop (Z.to_nat (ExtraAuditorStartPos + PaddingBitsLength)) e = concat sigs) ∧
  (ExtraAuditorStartPos ≤ zlen extra → EncodeExtraWithPaddings extra sigs = Panic).
Proof.
  split; [|intros; unfold EncodeExtraWithPaddings; case_if; [done|lia]].
  intros Hl. pose proof (EncodeExtra_layout extra sigs Hl) as E. pose proof (zlen_padded extra Hl) as Hp.
  eexists. split; [exact E|]. clear E. pose proof (zlen_nonneg extra).
  set (pad := ExtraAuditorStartPos - zlen extra) in *.
  pose proof (zlen_le32 pad) as H4. split.
  - unfold GetOriginalExtra. rewrite zlen_app, Hp. pose proof (zlen_nonneg (le32 pad ++ concat sigs)).
    case_if; [lia|].
    pose proof (slice_mid (E:=adapterError) (extra ++ replicate (Z.to_nat pad) (z2b 0)) (le32 pad) (concat sigs)) as Hs.
    rewrite Hp, H4 in Hs. rewrite Hs. cbn [mbind outcome_bind].
    rewrite le32_value_le32 by (unfold pad, ExtraAuditorStartPos in *; lia). unfold u32.
    replace (ExtraAuditorStartPos - pad) with (zlen extra) by (unfold pad; lia).
    rewrite Z.mod_small by (unfold ExtraAuditorStartPos in *; lia).
    rewrite <- app_assoc. exact (slice_mid [] extra _).
  - rewrite app_assoc.
    replace (ExtraAuditorStartPos + PaddingBitsLength)
      with (zlen ((extra ++ replicate (Z.to_nat pad) (z2b 0)) ++ le32 pad)) by (by rewrite zlen_app, Hp, H4).
    unfold zlen at 1. rewrite Nat2Z.id. by rewrite drop_app_length.
Qed.

Lemma GetOriginalExtra_roundtrip_witness :
  ∃ e, EncodeExtraWithPaddings (replicate 97 (z2b 7)) [replicate 65 (z2b 1)] = Ok e ∧
       GetOriginalExtra e = Ok (replicate 97 (z2b 7)).
Proof.
  destruct (GetOriginalExtra_roundtrip (replicate 97 (z2b 7)) [replicate 65 (z2b 1)]) as [H _].
  destruct H as (e & H1 & H2 & _); [reflexivity|]. exists e. split; assumption.
Defined.

(** [GetAuditorSignatures] cannot read what [EncodeExtraWithPaddings] wrote:
    the slices it takes are two signatures long, so the last one ends behind
    the data, and on extra data whose capacity is its length (as decoded from
    a block) every call with at least one signature panics. *)
Theorem GetAuditorSignatures_panics (extra e : bytes) (sigs : list bytes) :
  sigs ≠ [] → Forall (fun s => zlen s = ExtraAuditorSignature) sigs →
  EncodeExtraWithPaddings extra sigs = Ok e → GetAuditorSignatures e = Panic.
Proof.
  intros Hne Hs He. assert (Hl : zlen extra < ExtraAuditorStartPos).
  { unfold EncodeExtraWithPaddings in He. by case_if in He. }
  rewrite (EncodeExtra_layout extra sigs Hl) in He.
  assert (Hn : 0 < zlen sigs) by (destruct sigs; [done|rewrite zlen_cons; pose proof (zlen_nonneg sigs); lia]).
  assert (Hz : zlen e = ExtraAuditorStartPos + (4 + zlen sigs * ExtraAuditorSignature)).
  { match type of He with Ok ?x = Ok _ => assert (e = x) as -> by congruence end.
    rewrite zlen_app, zlen_padded, zlen_app, zlen_le32, concat_sigs by done. lia. }
  unfold GetAuditorSignatures. rewrite Hz, Z.add_simpl_l. unfold ExtraAuditorSignature.
  rewrite Z.quot_add by lia. change (Z.quot 4 65) with 0. case_if; [lia|].
  apply auditor_signatures_panic; [lia|lia|]. rewrite Hz. unfold PaddingBitsLength, ExtraAuditorSignature. lia.
Qed.

Lemma GetAuditorSignatures_panics_witness :
  ∃ e, EncodeExtraWithPaddings (replicate 97 (z2b 7)) [replicate 65 (z2b 1)] = Ok e ∧ GetAuditorSignatures e = Panic.
Proof.
  eexists. split; [vm_compute; reflexivity|].
  apply (GetAuditorSignatures_panics (replicate 97 (z2b 7)) _ [replicate 65 (z2b 1)]);
    [discriminate | repeat constructor | vm_compute; reflexivity].
Defined.

(** ** Witnesses: a gateway that records what it is given *)

Definition example_gateway : Gateway unit :=
  mkGateway unit (list Proposal) (fun _ _ => Some tt) (fun _ _ => Some SERVING) (fun _ _ => Ready)
    (fun g _ p => (g ++ [p], Some "success"%string)).
Definition example_block : Block unit unit := mkBlock example_header [] [] None.
Definition example_adapter : NarwhalAdapter unit := mkAdapter "0.0.0.0:60000" "0.0.0.0:50051" None [] ∅.
Definition example_world : world example_gateway := (example_adapter, []).
Definition example_event (seq : Z) : NarwhalCommitEvent :=
  mkEvent seq [] [rlp_list (header_payload example_header)] [].

Lemma example_copy : Block_Header example_block = example_header.
Proof. reflexivity. Qed.

Lemma narwhal_roundtrip_witness :
  ∃ hb, DecodeHeader hb = Ok example_header ∧
    (snd (Broadcast (fun _ => VUint 0) (fun _ => VUint 0) example_gateway example_block example_world)).2
      = [mkProposal (default [] (match EncodeToBytes (extblock (fun _ => VUint 0) (fun _ => VUint 0) example_block) with
                                 | Ok b => Some b | _ => None end)) hb] ∧
    ∃ na' na'' out, Notify (example_event 7) example_adapter = (Responded Thanks, na') ∧
      WaitForCommit na' = Some (out, na'') ∧
      RebuildHeaderWithNarwhalSig example_block out = Ok (WithSeal example_block (Block_Header example_block)).
Proof.
  set (w' := snd (Broadcast (fun _ => VUint 0) (fun _ => VUint 0) example_gateway example_block example_world)).
  destruct (narwhal_roundtrip (fun _ => VUint 0) (fun _ => VUint 0) example_gateway example_block example_world w')
    as (conn & bb & hb & Hw & Hdec & Hrest);
    [exact example_header_wf | vm_compute; reflexivity |].
  assert (Hp : w'.2 = [mkProposal bb hb]) by (rewrite Hw; reflexivity).
  assert (Ehb : hb = rlp_list (header_payload example_header)).
  { assert (Hp' : map EthereumHeader w'.2 = [rlp_list (header_payload example_header)]) by (vm_compute; reflexivity).
    rewrite Hp in Hp'. cbn [map EthereumHeader] in Hp'. congruence. }
  exists hb. split; [exact Hdec|]. split.
  - rewrite Ehb. vm_compute. reflexivity.
  - destruct (Hrest (example_event 7) example_adapter [example_header]) as (na' & na'' & out & H1 & H2 & _ & H3);
      [rewrite Ehb; left | repeat constructor | vm_compute; reflexivity | reflexivity | reflexivity |].
    exists na', na'', out. split; [exact H1|]. split; [exact H2|exact H3].
Defined.

Lemma Rebuild_exact_witness :
  RebuildHeaderWithNarwhalSig example_block (mkOutput [example_header] (example_event 7)) = Ok example_block.
Proof.
  apply (Rebuild_exact (fun _ => 0) example_block example_block (mkOutput [example_header] (example_event 7)));
    [eexists; reflexivity | eexists; reflexivity | repeat constructor; eexists; reflexivity |].
  split; [reflexivity|]. left. reflexivity.
Defined.

Lemma Notify_exactly_once_witness :
  ∃ na tk, run_ops [ONotify (example_event 7); ONotify (example_event 7); OWait; ONotify (example_event 8)]
                   example_adapter [] = Some (na, tk) ∧
    map Evt (tk ++ outc na) = [example_event 7; example_event 8].
Proof.
  eexists _, _. split; [vm_compute; reflexivity|].
  apply (Notify_exactly_once "0.0.0.0:60000" "0.0.0.0:50051"
    [ONotify (example_event 7); ONotify (example_event 7); OWait; ONotify (example_event 8)]).
  vm_compute. reflexivity.
Defined.


Lemma Notify_race_witness :
  ∃ s, rtc adapter_step (mkState [] example_adapter []) s ∧
    outc (adapter s) = [mkOutput [example_header] (example_event 7); mkOutput [example_header] (example_event 7)].
Proof.
  apply (Notify_race (example_event 7) [example_header] example_adapter);
    [vm_compute; reflexivity | reflexivity | vm_compute; discriminate].
Defined.
