(* ===== verification/Unconfirmed.v ===== *)
(** Locally mined blocks that are not yet deep enough in the chain:
    [src/go-ethereum/miner/unconfirmed.go].

    The set keeps its blocks in a [container/ring]; a ring is the list of its
    values from the element the pointer refers to, and a nil ring is the empty
    list.  Every element is a fresh pointer, so the comparison of two
    neighbouring values in [Shift] holds only in a ring of one.  What [Shift]
    logs about a block it drops is its [fate]. *)

From S2P Require Import Prelude RLP Types.

(** ** Rings *)

(** [r.Move(1)] and [r.Move(-1)]. *)
Definition ring_forward {A} (r : list A) : list A :=
  match r with [] => [] | x :: r' => r' ++ [x] end.
Definition ring_back {A} (r : list A) : list A :=
  match list.last r with None => [] | Some x => x :: take (length r - 1) r end.
(** [r.Link(s)] for a ring [s] of its own: [s] goes behind the first element. *)
Definition ring_Link {A} (r s : list A) : list A :=
  match r with [] => s | x :: r' => x :: s ++ r' end.
(** [r.Unlink(1)]: the element behind the first one goes. *)
Definition ring_Unlink1 {A} (r : list A) : list A :=
  match r with x :: _ :: r' => x :: r' | _ => r end.

(** ** The set *)

Record unconfirmedBlock := mkUnconfirmed { index : Z; hash : Z }.
#[global] Instance unconfirmedBlock_eq_dec : EqDecision unconfirmedBlock.
Proof. solve_decision. Defined.

(** The [chainRetriever] interface. *)
Record chainRetriever (Tx Wd : Type) := mkRetriever {
  cr_GetHeaderByNumber : Z → option Header;
  cr_GetBlockByNumber : Z → option (Block Tx Wd)
}.
Arguments cr_GetHeaderByNumber {Tx Wd} _ _.
Arguments cr_GetBlockByNumber {Tx Wd} _ _.
Arguments mkRetriever {Tx Wd} _ _.

Record unconfirmedBlocks := mkSet { depth : Z; blocks : list unconfirmedBlock }.

Definition newUnconfirmedBlocks (depth : Z) : unconfirmedBlocks := mkSet depth [].

Inductive fate := HeaderMissing | Canonical | BecameUncle | Lost.
#[global] Instance fate_eq_dec : EqDecision fate.
Proof. solve_decision. Defined.

Section Unconfirmed.
Context {Tx Wd : Type} (keccak : bytes → Z) (chain : chainRetriever Tx Wd).

(** Is [h] among the uncles of the canonical block at [number]? *)
Definition has_uncle (number h : Z) : bool :=
  match cr_GetBlockByNumber chain number with
  | None => false
  | Some block => existsb (fun uncle => Header_Hash keccak uncle =? h) (b_uncles block)
  end.

(** The loop over the canonical blocks that could include the uncle; it runs
    at most [depth] times. *)
Fixpoint find_uncle (fuel : nat) (number limit height h : Z) : bool :=
  match fuel with
  | O => false
  | S fuel =>
      if (number <? limit) && (number <=? height)
      then if has_uncle number h then true else find_uncle fuel (u64 (number + 1)) limit height h
      else false
  end.

Definition classify (depth height : Z) (next : unconfirmedBlock) : fate :=
  match cr_GetHeaderByNumber chain (index next) with
  | None => HeaderMissing
  | Some header =>
      if Header_Hash keccak header =? hash next then Canonical
      else if find_uncle (Z.to_nat depth) (index next) (u64 (index next + depth)) height (hash next)
           then BecameUncle else Lost
  end.

(** One turn of the loop of [Shift] drops the first element of the ring. *)
Fixpoint shift_loop (fuel : nat) (depth height : Z) (ring : list unconfirmedBlock)
    (log : list (unconfirmedBlock * fate)) : option (list unconfirmedBlock * list (unconfirmedBlock * fate)) :=
  match ring with
  | [] => Some ([], log)
  | next :: _ =>
      if height <? u64 (index next + depth) then Some (ring, log) else
      match fuel with
      | O => None
      | S fuel =>
          let log := log ++ [(next, classify depth height next)] in
          let ring :=
            if (length ring =? 1)%nat then []
            else ring_forward (ring_Unlink1 (ring_back ring)) in
          shift_loop fuel depth height ring log
      end
  end.

(** A turn removes one block, so there are at most as many as blocks. *)
Definition Shift (height : Z) (set : unconfirmedBlocks)
    : option (list (unconfirmedBlock * fate) * unconfirmedBlocks) :=
  '(ring, log) ← shift_loop (length (blocks set)) (depth set) height (blocks set) [];
  Some (log, mkSet (depth set) ring).

(** [set.blocks] stays at the first element, which after the [Link] is two
    steps behind the element before it. *)
Definition Insert (idx h : Z) (set : unconfirmedBlocks)
    : option (list (unconfirmedBlock * fate) * unconfirmedBlocks) :=
  '(log, set) ← Shift idx set;
  let item := [mkUnconfirmed idx h] in
  let ring :=
    match blocks set with
    | [] => item
    | _ => ring_forward (ring_forward (ring_Link (ring_back (blocks set)) item))
    end in
  Some (log, mkSet (depth set) ring).

(** ** Lemmas *)

Lemma ring_back_snoc {A} (r : list A) x : ring_back (r ++ [x]) = x :: r.
Proof.
  unfold ring_back. rewrite last_snoc, length_app. cbn [length]. replace (length r + 1 - 1)%nat with (length r) by lia.
  by rewrite take_app_length.
Qed.

Lemma ring_append {A} (r : list A) x y :
  ring_forward (ring_forward (ring_Link (ring_back (r ++ [x])) [y])) = r ++ [x; y].
Proof. rewrite ring_back_snoc. cbn. by rewrite <- app_assoc. Qed.

Lemma ring_drop {A} (x y : A) r : ring_forward (ring_Unlink1 (ring_back (x :: y :: r))) = y :: r.
Proof.
  destruct (List.exists_last (l:=y :: r) ltac:(done)) as (r' & z & E). rewrite E.
  change (x :: r' ++ [z]) with ((x :: r') ++ [z]). by rewrite ring_back_snoc.
Qed.

(** Old enough to leave the set. *)
Definition mature (depth height : Z) (b : unconfirmedBlock) : bool := u64 (index b + depth) <=? height.

Fixpoint span {A} (p : A → bool) (l : list A) : list A * list A :=
  match l with
  | [] => ([], [])
  | x :: l' => if p x then let '(a, b) := span p l' in (x :: a, b) else ([], l)
  end.

Lemma span_spec {A} (p : A → bool) l :
  let '(a, b) := span p l in
  l = a ++ b ∧ Forall (fun x => p x = true) a ∧ (∀ x, head b = Some x → p x = false).
Proof.
  induction l as [|x l IH]; cbn; [done|]. destruct (p x) eqn:E.
  - destruct (span p l) as [a b]. destruct IH as (-> & Ha & Hb). split_and!; auto.
  - split_and!; [done|constructor|]. by intros ? [= <-].
Qed.

Lemma shift_loop_span d height ring log fuel : (length ring ≤ fuel)%nat →
  shift_loop fuel d height ring log =
  Some ((span (mature d height) ring).2,
        log ++ map (fun b => (b, classify d height b)) (span (mature d height) ring).1).
Proof.
  revert fuel log. induction ring as [|x ring IH]; intros fuel log Hf.
  { destruct fuel; cbn; by rewrite app_nil_r. }
  destruct fuel as [|fuel]; cbn in Hf; [lia|]. cbn [shift_loop span]. unfold mature at 1 3.
  rewrite Z.ltb_antisym. destruct (u64 (index x + d) <=? height) eqn:E; cbn [negb fst snd]; [|by rewrite app_nil_r].
  assert (Er : (if (length (x :: ring) =? 1)%nat then [] else ring_forward (ring_Unlink1 (ring_back (x :: ring)))) = ring).
  { destruct ring as [|y ring]; [done|]. apply ring_drop. }
  rewrite Er, IH by lia. destruct (span (mature d height) ring) as [a b] eqn:Es. cbn. by rewrite <- app_assoc.
Qed.

Lemma find_uncle_spec n number height h : 0 ≤ number → number + Z.of_nat n < 2 ^ 64 →
  find_uncle n number (number + Z.of_nat n) height h = true ↔
  ∃ k, number ≤ k < number + Z.of_nat n ∧ k ≤ height ∧ has_uncle k h = true.
Proof.
  revert number. induction n as [|n IH]; intros number H0 Hl.
  { cbn. split; [done|]. intros (k & ? & _). lia. }
  cbn [find_uncle]. case_if.
  - destruct (has_uncle number h) eqn:Eu.
    + split; [|done]. intros _. exists number. split; [lia|done].
    + rewrite u64_small by (unfold is_u64; lia).
      replace (number + Z.of_nat (S n)) with (number + 1 + Z.of_nat n) by lia.
      rewrite IH by lia. split; intros (k & Hk & Hh & Hu); exists k; split_and!; try done; try lia.
      destruct (decide (k = number)) as [->|]; [congruence|lia].
  - split; [done|]. intros (k & Hk & Hh & Hu).
    match goal with H : (_ && _) = false |- _ => apply andb_false_iff in H as [H|H]; zbool; lia end.
Qed.

Lemma has_uncle_iff number h : has_uncle number h = true ↔
  ∃ block uncle, cr_GetBlockByNumber chain number = Some block ∧ uncle ∈ b_uncles block ∧ Header_Hash keccak uncle = h.
Proof.
  unfold has_uncle. destruct (cr_GetBlockByNumber chain number) as [block|]; [|naive_solver].
  rewrite existsb_exists. setoid_rewrite Z.eqb_eq. setoid_rewrite <- list_elem_of_In. naive_solver.
Qed.
End Unconfirmed.

(** ** Properties *)

Section Properties.
Context {Tx Wd : Type} (keccak : bytes → Z) (chain : chainRetriever Tx Wd).

(** The fate of a block, as a relation on the chain. *)
Definition fated (d height : Z) (b : unconfirmedBlock) (f : fate) : Prop :=
  match f with
  | HeaderMissing => cr_GetHeaderByNumber chain (index b) = None
  | Canonical => ∃ h, cr_GetHeaderByNumber chain (index b) = Some h ∧ Header_Hash keccak h = hash b
  | _ => ∃ h, cr_GetHeaderByNumber chain (index b) = Some h ∧ Header_Hash keccak h ≠ hash b ∧
      (f = BecameUncle ↔ ∃ k block uncle, index b ≤ k < index b + d ∧ k ≤ height ∧
         cr_GetBlockByNumber chain k = Some block ∧ uncle ∈ b_uncles block ∧ Header_Hash keccak uncle = hash b)
  end.

Lemma classify_fated d height b : 0 ≤ d → 0 ≤ index b → index b + d < 2 ^ 64 →
  fated d height b (classify keccak chain d height b).
Proof.
  intros Hd Hi Hl. unfold classify. destruct (cr_GetHeaderByNumber chain (index b)) as [h|] eqn:Eh; [|done].
  case_if; [by exists h|]. rewrite u64_small by (unfold is_u64; lia).
  replace d with (Z.of_nat (Z.to_nat d)) at 2 by lia.
  pose proof (find_uncle_spec keccak chain (Z.to_nat d) (index b) height (hash b) Hi ltac:(lia)) as Hf.
  rewrite Z2Nat.id in Hf by done. setoid_rewrite has_uncle_iff in Hf. rewrite Z2Nat.id by done.
  destruct (find_uncle _ _ _ _ _ _ _); exists h; (split; [done|]; split; [done|]); naive_solver.
Qed.

(** The set of unconfirmed blocks. [Shift] always terminates: it drops
    the longest run of blocks at the front that lie [depth] below the height,
    keeps the rest in order, and reports for every dropped block whether its
    number is unknown, it is canonical, it is an uncle of one of the [depth]
    canonical blocks from its number on, or it is lost.  [Insert] shifts and
    then appends the block. *)
Theorem Shift_correct (height h : Z) (set : unconfirmedBlocks) : 0 ≤ depth set →
  ∃ log set',
    Shift keccak chain height set = Some (log, set') ∧
    depth set' = depth set ∧ blocks set = map fst log ++ blocks set' ∧
    (∀ b, b ∈ map fst log → u64 (index b + depth set) ≤ height) ∧
    (∀ b, head (blocks set') = Some b → height < u64 (index b + depth set)) ∧
    (∀ b f, (b, f) ∈ log → 0 ≤ index b → index b + depth set < 2 ^ 64 → fated (depth set) height b f) ∧
    Insert keccak chain height h set = Some (log, mkSet (depth set) (blocks set' ++ [mkUnconfirmed height h])).
Proof.
  intros Hd. unfold Insert, Shift. rewrite shift_loop_span by done.
  pose proof (span_spec (mature (depth set) height) (blocks set)) as Hs.
  destruct (span (mature (depth set) height) (blocks set)) as [a b]. destruct Hs as (Eb & Ha & Hb). cbn.
  eexists _, _. split; [reflexivity|]. cbn [depth blocks]. rewrite map_map. cbn [fst].
  rewrite map_id. split_and!; try done.
  - intros x Hx. rewrite Forall_forall in Ha. specialize (Ha x Hx). unfold mature in Ha. by zbool.
  - intros x Hx%Hb. unfold mature in Hx. by zbool.
  - intros x f (y & [= -> ->] & _)%list_elem_of_fmap Hi Hl. by apply classify_fated.
  - do 2 f_equal. destruct b as [|y b]; [done|].
    destruct (List.exists_last (l:=y :: b) ltac:(done)) as (r & z & ->). by rewrite ring_append, <- app_assoc.
Qed.
End Properties.

(** With the depth the worker uses, an uncle is reported as lost. *)
Lemma depth_zero_no_uncle {Tx Wd} keccak (chain : chainRetriever Tx Wd) height b :
  classify keccak chain 0 height b ≠ BecameUncle.
Proof. unfold classify. destruct (cr_GetHeaderByNumber chain (index b)); [|done]. cbn. by case_if. Qed.

(** Three blocks at depth 2: the first is canonical, the second became an
    uncle of block 3, the third is too fresh. *)
Definition example_retriever : chainRetriever unit unit :=
  mkRetriever (fun n => if n <? 10 then Some (set_Number (Some n) example_header) else None)
    (fun n => if n =? 3 then Some (mkBlock (set_Number (Some 3) example_header) [set_Time 77 example_header] [] None) else None).
Definition example_hash (b : bytes) : Z := be_value b mod (2 ^ 256 - 189).
Definition example_set : unconfirmedBlocks :=
  mkSet 2 [mkUnconfirmed 1 (Header_Hash example_hash (set_Number (Some 1) example_header));
           mkUnconfirmed 2 (Header_Hash example_hash (set_Time 77 example_header)); mkUnconfirmed 3 5].

Lemma Shift_correct_witness :
  ∃ log set', Shift example_hash example_retriever 4 example_set = Some (log, set') ∧
    map snd log = [Canonical; BecameUncle] ∧ blocks example_set = map fst log ++ blocks set'.
Proof.
  destruct (Shift_correct example_hash example_retriever 4 0 example_set ltac:(vm_compute; discriminate))
    as (log & set' & H1 & _ & H2 & _).
  exists log, set'. split; [exact H1|]. split; [|exact H2].
  assert (E : map snd <$> (fst <$> Shift example_hash example_retriever 4 example_set) = Some [Canonical; BecameUncle])
    by (vm_compute; reflexivity).
  rewrite H1 in E. cbn in E. congruence.
Defined.
