(* ===== verification/Worker.v ===== *)
(** The sealing pipeline of the worker: [taskLoop], [resultLoop] and the
    clean-up of pending tasks in [src/go-ethereum/miner/worker.go].

    [taskLoop] takes the blocks the worker assembles, interrupts the sealing
    of the previous one and asks the consensus engine for a seal; the engine's
    background routines deliver sealed blocks to [resultCh]; [resultLoop]
    looks up the task of a sealed block, passes the block through Narwhal when
    the node is a signer, and writes it to the chain.

    The loops are goroutines that share [pendingTasks] and two channels.  The
    bodies of their [select] cases are functions ([on_task], [on_result],
    [on_commit]), and [worker_step] interleaves them.  A channel made for
    interrupting is a number; [closed] holds the ones that were closed.  The
    consensus engine is any instance of [Sealer]; the chain is [ChainBackend].
    The test hooks are left out but for [skipSealHook], whose answer is the
    argument [skip]; logging and the creation time kept for it are too. *)

From S2P Require Import Prelude Lru RLP RLPDecode Types HeaderRLP Receipts Config Fees Clique CliqueEngine Adapter Unconfirmed.

(** ** Interfaces *)

(** What the worker needs of a consensus engine: the hash that identifies a
    sealing task, and the seal.  [seal] stands for the synchronous part of
    [Seal] and the block its background routine will deliver. *)
Class Sealer (Eng Tx Wd : Type) := {
  sealHash : Header → outcome cliqueError Z;
  seal : Z → Z → Block Tx Wd → stm Eng cliqueError (Block Tx Wd * Z)
}.

(** What it relies on: a seal changes neither the hash of the task nor the
    block's number and body. *)
Class SealerLaws (Eng Tx Wd : Type) `{Sealer Eng Tx Wd} := {
  seal_sealHash now jitter block e sealed delay e' :
    seal now jitter block e = (Ok (sealed, delay), e') →
    sealHash (Block_Header sealed) = sealHash (Block_Header block);
  seal_body now jitter block e sealed delay e' :
    seal now jitter block e = (Ok (sealed, delay), e') →
    Number (b_header sealed) = Some (default 0 (Number (b_header block))) ∧ b_uncles sealed = b_uncles block ∧
    b_transactions sealed = b_transactions block ∧ b_withdrawals sealed = b_withdrawals block
}.

(** The chain the worker writes to. [None] is a failed write. *)
Record ChainBackend (Tx Wd St : Type) := mkBackend {
  cb_state : Type;
  HasBlock : cb_state → Z → Z → bool;
  WriteBlockAndSetHead : cb_state → Block Tx Wd → list Receipt → list Log → St → option cb_state;
  cb_retriever : cb_state → chainRetriever Tx Wd
}.
Arguments cb_state {Tx Wd St} _.
Arguments HasBlock {Tx Wd St} _ _ _ _.
Arguments WriteBlockAndSetHead {Tx Wd St} _ _ _ _ _ _.
Arguments cb_retriever {Tx Wd St} _ _.

(** ** State *)

Definition resultQueueSize : Z := 10.
Definition staleThreshold : Z := 7.
Definition sealingLogAtDepth : Z := 0.

Record task (Tx Wd St : Type) := mkTask {
  t_receipts : list Receipt;
  t_state : St;
  t_block : Block Tx Wd
}.
Arguments mkTask {Tx Wd St} _ _ _.
Arguments t_receipts {Tx Wd St} _.
Arguments t_state {Tx Wd St} _.
Arguments t_block {Tx Wd St} _.

(** The worker and the locals of [taskLoop]; [sealing] are the background
    routines of the engine, with the channel that stops each of them. *)
Record sealer_state (Eng Tx Wd St : Type) := mkSealer {
  engine : Eng;
  pendingTasks : gmap Z (task Tx Wd St);
  stopCh : option nat;
  prev : Z;
  closed : gset nat;
  next_ch : nat;
  sealing : list (nat * Block Tx Wd);
  resultCh : list (Block Tx Wd)
}.
Arguments mkSealer {Eng Tx Wd St} _ _ _ _ _ _ _ _.
Arguments engine {Eng Tx Wd St} _.
Arguments pendingTasks {Eng Tx Wd St} _.
Arguments stopCh {Eng Tx Wd St} _.
Arguments prev {Eng Tx Wd St} _.
Arguments closed {Eng Tx Wd St} _.
Arguments next_ch {Eng Tx Wd St} _.
Arguments sealing {Eng Tx Wd St} _.
Arguments resultCh {Eng Tx Wd St} _.

(** ** The task loop *)

Section TaskLoop.
Context {Eng Tx Wd St : Type} `{!Sealer Eng Tx Wd}.

Abbreviation W := (sealer_state Eng Tx Wd St).
Abbreviation M := (stm W cliqueError).

Definition set_pending (p : gmap Z (task Tx Wd St)) (w : W) : W :=
  mkSealer (engine w) p (stopCh w) (prev w) (closed w) (next_ch w) (sealing w) (resultCh w).
Definition set_resultCh (q : list (Block Tx Wd)) (w : W) : W :=
  mkSealer (engine w) (pendingTasks w) (stopCh w) (prev w) (closed w) (next_ch w) (sealing w) q.
Definition set_sealing (l : list (nat * Block Tx Wd)) (w : W) : W :=
  mkSealer (engine w) (pendingTasks w) (stopCh w) (prev w) (closed w) (next_ch w) l (resultCh w).
Definition set_engine (e : Eng) (w : W) : W :=
  mkSealer e (pendingTasks w) (stopCh w) (prev w) (closed w) (next_ch w) (sealing w) (resultCh w).

(** [interrupt]: closing a channel twice would panic. *)
Definition interrupt : M unit := fun w =>
  match stopCh w with
  | None => (Ok tt, w)
  | Some c =>
      if bool_decide (c ∈ closed w) then (Panic, w)
      else (Ok tt, mkSealer (engine w) (pendingTasks w) None (prev w) ({[c]} ∪ closed w) (next_ch w)
                            (sealing w) (resultCh w))
  end.

(** [stopCh, prev = make(chan struct{}), sealHash]. *)
Definition new_stopCh (h : Z) : M nat := fun w =>
  (Ok (next_ch w), mkSealer (engine w) (pendingTasks w) (Some (next_ch w)) h (closed w) (S (next_ch w))
                            (sealing w) (resultCh w)).

(** The engine starts a background routine when sealing can begin. *)
Definition start_seal (now jitter : Z) (block : Block Tx Wd) (stop : nat) : stm W Empty_set (option cliqueError) := fun w =>
  match seal now jitter block (engine w) with
  | (Ok (sealed, _), e) => (Ok None, set_sealing (sealing w ++ [(stop, sealed)]) (set_engine e w))
  | (Err err, e) => (Ok (Some err), set_engine e w)
  | (Panic, e) => (Panic, set_engine e w)
  end.

(** The case [task := <-w.taskCh]. *)
Definition on_task (skip : bool) (now jitter : Z) (t : task Tx Wd St) : M unit := fun w =>
  match sealHash (Block_Header (t_block t)) with
  | Ok h =>
      if h =? prev w then (Ok tt, w) else
      match interrupt w with
      | (Ok _, w) =>
          match new_stopCh h w with
          | (Ok stop, w) =>
              if skip then (Ok tt, w) else
              let w := set_pending (<[h := t]> (pendingTasks w)) w in
              match start_seal now jitter (t_block t) stop w with
              | (Ok None, w) => (Ok tt, w)
              | (Ok (Some _), w) => (Ok tt, set_pending (delete h (pendingTasks w)) w)
              | (Err _, w) | (Panic, w) => (Panic, w)
              end
          | (_, w) => (Panic, w)
          end
      | (_, w) => (Panic, w)
      end
  | _ => (Panic, w)
  end.

(** [clearPending] of the work loop. A block of a task has a number. *)
Definition stale (number : Z) (t : task Tx Wd St) : bool :=
  u64 (big_Uint64 (default 0 (Number (b_header (t_block t)))) + staleThreshold) <=? number.
Definition clearPending (number : Z) (w : W) : W :=
  set_pending (filter (fun kt => stale number kt.2 = false) (pendingTasks w)) w.

(** The end of a background routine of [Seal]: the block goes to the result
    channel if it has room. *)
Definition finish_seal (i : nat) (b : Block Tx Wd) (w : W) : W :=
  let w := set_sealing (delete i (sealing w)) w in
  match Seal_deliver false (zlen (resultCh w) <? resultQueueSize) b with
  | Some b => set_resultCh (resultCh w ++ [b]) w
  | None => w
  end.

(** The interleavings: a task arrives, a routine is stopped or its timer
    fires (when both are possible either may happen), stale tasks are cleared,
    the result loop takes a block, and other users of the engine change its
    state.  The label is the task that arrived. *)
Inductive worker_step : option (task Tx Wd St) → W → W → Prop :=
| step_task skip now jitter t w w' : on_task skip now jitter t w = (Ok tt, w') → worker_step (Some t) w w'
| step_stopped i c b w : sealing w !! i = Some (c, b) → c ∈ closed w →
    worker_step None w (set_sealing (delete i (sealing w)) w)
| step_timer i c b w : sealing w !! i = Some (c, b) → worker_step None w (finish_seal i b w)
| step_clear number w : worker_step None w (clearPending number w)
| step_result b q w : resultCh w = b :: q → worker_step None w (set_resultCh q w)
| step_engine e w : worker_step None w (set_engine e w).

Definition new_worker (e : Eng) : W := mkSealer e ∅ None 0 ∅ 0 [] [].

(** A worker after a run in which the listed tasks arrived. *)
Inductive reachable (e : Eng) : list (task Tx Wd St) → W → Prop :=
| reach_new : reachable e [] (new_worker e)
| reach_step ts l w w' : reachable e ts w → worker_step l w w' →
    reachable e (ts ++ match l with Some t => [t] | None => [] end) w'.
End TaskLoop.

(** ** The result loop *)

Section ResultLoop.
Context {Eng Tx Wd St Conn : Type} `{!Sealer Eng Tx Wd}.
Context (keccak : bytes → Z) (tx_value : Tx → value) (wd_value : Wd → value).
Context (G : Gateway Conn) (B : ChainBackend Tx Wd St).

(** The state [resultLoop] changes. [posted] are the events given to the mux,
    [fates] what the set of unconfirmed blocks reported. *)
Record result_state := mkResults {
  narwhalAdapter : option (NarwhalAdapter Conn);
  gateway : gw_state G;
  chain : cb_state B;
  posted : list (Block Tx Wd);
  unconfirmed : unconfirmedBlocks;
  fates : list (unconfirmedBlock * fate)
}.

Definition set_narwhal (na : NarwhalAdapter Conn) (g : gw_state G) (s : result_state) : result_state :=
  mkResults (Some na) g (chain s) (posted s) (unconfirmed s) (fates s).

(** The copy of a receipt with its block location fields. *)
Definition locate_log (hash : Z) (l : Log) : Log :=
  mkLog (l_Address l) (l_Topics l) (l_Data l) (l_BlockNumber l) (l_TxHash l) (l_TxIndex l) hash (l_Index l) (l_Removed l).
Definition locate_receipt (hash : Z) (number : option Z) (i : nat) (r : Receipt) : Receipt :=
  mkReceipt (r_Type r) (r_PostState r) (r_Status r) (r_CumulativeGasUsed r) (r_Bloom r)
    (map (locate_log hash) (r_Logs r)) (r_TxHash r) (r_ContractAddress r) (r_GasUsed r) (r_EffectiveGasPrice r)
    hash number (Z.of_nat i).
Definition locate_receipts (hash : Z) (number : option Z) (rs : list Receipt) : list Receipt :=
  imap (locate_receipt hash number) rs.

(** What the loop holds while it waits for Narwhal. *)
Record sealed_result := mkSealed {
  sr_block : Block Tx Wd;
  sr_receipts : list Receipt;
  sr_logs : list Log;
  sr_task : task Tx Wd St
}.

Inductive result_end :=
| SkippedEmpty | SkippedKnown | SkippedNoTask | WriteFailed | Written
| Waiting (r : sealed_result)
| ResultPanic.

(** The tail of the loop body: announce the block, write it, track it. *)
Definition write_result (block : Block Tx Wd) (r : sealed_result) (s : result_state) : result_end * result_state :=
  let s := mkResults (narwhalAdapter s) (gateway s) (chain s) (posted s ++ [block]) (unconfirmed s) (fates s) in
  match WriteBlockAndSetHead B (chain s) block (sr_receipts r) (sr_logs r) (t_state (sr_task r)) with
  | None => (WriteFailed, s)
  | Some c =>
      let s := mkResults (narwhalAdapter s) (gateway s) c (posted s) (unconfirmed s) (fates s) in
      match NumberU64 (E:=cliqueError) block with
      | Ok number =>
          match Insert keccak (cb_retriever B c) number (Block_Hash keccak block) (unconfirmed s) with
          | Some (log, u) => (Written, mkResults (narwhalAdapter s) (gateway s) c (posted s) u (fates s ++ log))
          | None => (ResultPanic, s)
          end
      | _ => (ResultPanic, s)
      end
  end.

(** The case [block := <-w.resultCh], up to the wait. A signer whose adapter
    was not created when the loop started calls a method on nil. *)
Definition on_result (SIGNER : string) (block : option (Block Tx Wd)) (pending : gmap Z (task Tx Wd St)) (s : result_state)
    : result_end * result_state :=
  match block with
  | None => (SkippedEmpty, s)
  | Some block =>
      match NumberU64 (E:=cliqueError) block with
      | Ok number =>
          if HasBlock B (chain s) (Block_Hash keccak block) number then (SkippedKnown, s) else
          match sealHash (Block_Header block) with
          | Ok sealhash =>
              match pending !! sealhash with
              | None => (SkippedNoTask, s)
              | Some t =>
                  let hash := Block_Hash keccak block in
                  let receipts := locate_receipts hash (Number (b_header block)) (t_receipts t) in
                  let r := mkSealed block receipts (concat (map r_Logs receipts)) t in
                  if CheckSignerFlag SIGNER then
                    match narwhalAdapter s with
                    | None => (ResultPanic, s)
                    | Some na =>
                        match Broadcast tx_value wd_value G block (na, gateway s) with
                        | (Ok _, (na, g)) => (Waiting r, set_narwhal na g s)
                        | (Err _, (na, g)) => write_result block r (set_narwhal na g s)
                        | (Panic, (na, g)) => (ResultPanic, set_narwhal na g s)
                        end
                    end
                  else write_result block r s
              end
          | _ => (ResultPanic, s)
          end
      | _ => (ResultPanic, s)
      end
  end.

(** After the wait: a committed output releases the block, or the loop
    panics. Without an output it goes on waiting. *)
Definition on_commit (r : sealed_result) (s : result_state) : result_end * result_state :=
  match narwhalAdapter s with
  | None => (ResultPanic, s)
  | Some na =>
      match WaitForCommit na with
      | None => (Waiting r, s)
      | Some (consensusOutput, na) =>
          let s := set_narwhal na (gateway s) s in
          match RebuildHeaderWithNarwhalSig (sr_block r) consensusOutput with
          | Ok block => write_result block r s
          | _ => (ResultPanic, s)
          end
      end
  end.
End ResultLoop.

(** ** Clique as a sealer *)

Lemma slice_body {E} (body seal : bytes) : zlen seal = 65 →
  slice (E:=E) (body ++ seal) 0 (zlen (body ++ seal) - extraSeal) = Ok body.
Proof.
  intros Hs. pose proof (slice_mid (E:=E) [] body seal) as H. cbn [app] in H. rewrite zlen_nil in H.
  rewrite <- H. f_equal. rewrite zlen_app. unfold extraSeal. lia.
Qed.

Lemma split_seal (extra : bytes) : 65 ≤ zlen extra → ∃ body seal, extra = body ++ seal ∧ zlen seal = 65.
Proof.
  intros Hl. exists (take (length extra - 65) extra), (drop (length extra - 65) extra).
  rewrite take_drop. split; [done|]. unfold zlen in *. rewrite length_drop. lia.
Qed.

Lemma put_seal_len extra sig extra' : put_seal extra sig = Ok extra' → 65 ≤ zlen extra.
Proof.
  unfold put_seal. intros (head & H & _)%bind_ok. unfold slice, extraSeal in H. case_if in H; [lia|done].
Qed.

(** The seal is not part of what is signed. *)
Lemma CliqueRLP_put_seal header sig extra :
  put_seal (Extra header) sig = Ok extra → CliqueRLP (set_Extra extra header) = CliqueRLP header.
Proof.
  intros H. destruct (split_seal (Extra header) (put_seal_len _ _ _ H)) as (body & sl & E & Hl).
  rewrite E in H. apply put_seal_ok in H as (sl' & -> & Hl'); [|done].
  unfold CliqueRLP, sigHeader. destruct header; cbn [Types.Extra Types.set_Extra] in *. subst. by rewrite !slice_body.
Qed.

Section CliqueSealer.
Context (keccak : bytes → Z) (Ecrecover : bytes → bytes → outcome cliqueError bytes).
Context {DB RC SC : Type} {LR : CacheLaws RC Z Snapshot} {LS : CacheLaws SC Z Z} (st : Storage DB) (chain : ChainHeaderReader).
Context {Tx Wd : Type}.

#[global] Instance clique_sealer : Sealer (Engine DB RC SC) Tx Wd := {|
  sealHash := SealHash keccak;
  seal now jitter block := Seal keccak Ecrecover st chain now jitter block
|}.

Lemma Seal_ok now jitter (block : Block Tx Wd) (e e' : Engine DB RC SC) sealed delay :
  Seal keccak Ecrecover st chain now jitter block e = (Ok (sealed, delay), e') →
  ∃ sighash extra, put_seal (Extra (Block_Header block)) sighash = Ok extra ∧
    sealed = WithSeal block (set_Extra extra (Block_Header block)).
Proof.
  unfold Seal. cbv zeta. intros H.
  do 12 (apply stm_bind_ok in H as (? & ? & _ & H)).
  apply stm_bind_ok in H as (extra & e2 & [Hp <-]%pure_out_ok & H). unfold mret, stm_ret in H. assert (sealed = WithSeal block (set_Extra extra (Block_Header block))) by congruence. eauto.
Qed.

#[global] Instance clique_sealer_laws : SealerLaws (Engine DB RC SC) Tx Wd.
Proof.
  split; intros now jitter block e sealed delay e' (sg & extra & Hp & ->)%Seal_ok.
  - cbn [sealHash clique_sealer]. unfold SealHash. f_equal.
    transitivity (CliqueRLP (set_Extra extra (Block_Header block))); [|by eapply CliqueRLP_put_seal].
    f_equal. unfold Block_Header. cbn. by destruct (b_header block).
  - cbn. split; [|done]. unfold Block_Header. by destruct (b_header block).
Qed.
End CliqueSealer.

(** ** Invariant of the task loop *)

Section TaskInvariant.
Context {Eng Tx Wd St : Type} `{SealerLaws Eng Tx Wd}.

Abbreviation W := (sealer_state Eng Tx Wd St).

(** [b] is a sealed version of the block of [t]. *)
Definition seals (t : task Tx Wd St) (b : Block Tx Wd) : Prop :=
  sealHash (Block_Header b) = sealHash (Block_Header (t_block t)) ∧
  Number (b_header b) = Some (default 0 (Number (b_header (t_block t)))) ∧
  b_uncles b = b_uncles (t_block t) ∧ b_transactions b = b_transactions (t_block t) ∧
  b_withdrawals b = b_withdrawals (t_block t).

Record worker_inv (ts : list (task Tx Wd St)) (w : W) : Prop := WorkerInv {
  wi_pending k t : pendingTasks w !! k = Some t → t ∈ ts ∧ sealHash (Block_Header (t_block t)) = Ok k;
  wi_origin b : b ∈ resultCh w ∨ b ∈ (sealing w).*2 → ∃ t, t ∈ ts ∧ seals t b;
  wi_live c : c ∈ (sealing w).*1 → c ∉ closed w → stopCh w = Some c;
  wi_nodup : NoDup (sealing w).*1;
  wi_fresh c : c ∈ (sealing w).*1 ∨ c ∈ closed w ∨ stopCh w = Some c → (c < next_ch w)%nat;
  wi_open c : stopCh w = Some c → c ∉ closed w;
  wi_cap : zlen (resultCh w) ≤ resultQueueSize
}.

Lemma inv_more ts ts' w : worker_inv ts w → worker_inv (ts ++ ts') w.
Proof.
  intros [P O L N F C K]. split; try done.
  - intros k t Hk%P. rewrite elem_of_app. tauto.
  - intros b (t & Ht & Hs)%O. exists t. rewrite elem_of_app. tauto.
Qed.

Lemma inv_new e : worker_inv [] (new_worker e : W).
Proof.
  assert (Hn : ∀ A (x : A), x ∈ @nil A → False) by (intros A x Hx; by apply elem_of_nil in Hx).
  split; cbn.
  - intros k t Hk. by rewrite lookup_empty in Hk.
  - intros b [[]%Hn|[]%Hn].
  - intros c []%Hn.
  - constructor.
  - intros c [[]%Hn|[Hc|?]]; [set_solver|done].
  - done.
  - done.
Qed.

(** Losing pending tasks or background routines, or changing the engine,
    keeps the invariant. *)
Lemma inv_pending ts (w : W) p : (∀ k t, p !! k = Some t → pendingTasks w !! k = Some t) →
  worker_inv ts w → worker_inv ts (set_pending p w).
Proof. intros Hp [P O L N F C K]. split; cbn; try done. intros k t Hk. by apply P, Hp. Qed.
Lemma inv_engine ts (w : W) e : worker_inv ts w → worker_inv ts (set_engine e w).
Proof. intros [P O L N F C K]. by split. Qed.

Lemma inv_cut ts (w : W) i : worker_inv ts w → worker_inv ts (set_sealing (delete i (sealing w)) w).
Proof.
  intros [P O L N F C K]. pose proof (sublist_delete (sealing w) i) as Hs.
  assert (H1 : ∀ c, c ∈ (delete i (sealing w)).*1 → c ∈ (sealing w).*1).
  { intros c (x & -> & Hx)%list_elem_of_fmap. apply list_elem_of_fmap_2. by eapply elem_of_sublist. }
  split; cbn; try done; eauto.
  - intros b [Hb|(x & -> & Hx)%list_elem_of_fmap]; [auto|]. apply O. right. apply list_elem_of_fmap_2. by eapply elem_of_sublist.
  - eapply sublist_NoDup; [exact N|]. by apply fmap_sublist.
  - intros c Hc. apply F. destruct Hc as [Hc|Hc]; auto.
Qed.

Lemma inv_deliver ts (w : W) b : worker_inv ts w → (∃ t, t ∈ ts ∧ seals t b) → zlen (resultCh w) < resultQueueSize →
  worker_inv ts (set_resultCh (resultCh w ++ [b]) w).
Proof.
  intros [P O L N F C K] Hb Hl. split; cbn; try done.
  - intros x [[Hx|Hx]%elem_of_app|Hx]; auto. apply list_elem_of_singleton in Hx as ->. done.
  - rewrite zlen_app. change (zlen [b]) with 1. lia.
Qed.

Lemma interrupt_inv ts (w : W) : worker_inv ts w →
  ∃ w', interrupt w = (Ok tt, w') ∧ worker_inv ts w' ∧ stopCh w' = None ∧ pendingTasks w' = pendingTasks w ∧
    sealing w' = sealing w ∧ engine w' = engine w ∧ next_ch w' = next_ch w.
Proof.
  intros HI. unfold interrupt. destruct (stopCh w) as [c|] eqn:E; [|by exists w]. destruct HI as [P O L N F C K].
  rewrite bool_decide_false by auto. eexists. split; [done|]. split; [|done]. split; cbn; try done.
  - intros c' Hc' Hn. assert (Hc : stopCh w = Some c') by (apply L; set_solver). rewrite E in Hc. simplify_eq. set_solver.
  - intros c' [Hc'|[Hc'|?]]; [auto| |done]. destruct (decide (c' = c)) as [->|]; auto. apply F. set_solver.
Qed.

(** An accepted task: a new channel, and a routine for the sealed block. *)
Lemma inv_start ts (w : W) t h sealed e :
  worker_inv ts w → t ∈ ts → stopCh w = None → sealHash (Block_Header (t_block t)) = Ok h → seals t sealed →
  worker_inv ts (mkSealer e (<[h := t]> (pendingTasks w)) (Some (next_ch w)) h (closed w) (S (next_ch w))
                          (sealing w ++ [(next_ch w, sealed)]) (resultCh w)).
Proof.
  intros [P O L N F C K] Ht Hs Hh Hseal. split; cbn; rewrite ?fmap_app; cbn; try done.
  - intros k t' [[<- <-]|[_ Hk]]%lookup_insert_Some; auto.
  - intros b Hb. rewrite elem_of_app, list_elem_of_singleton in Hb. destruct Hb as [Hb|[Hb| ->]]; eauto.
  - intros c Hc Hn. apply elem_of_app in Hc as [Hc| ->%list_elem_of_singleton]; [|done].
    specialize (L c Hc Hn). congruence.
  - apply NoDup_app. split; [done|]. split; [|apply NoDup_singleton]. intros c Hc ->%list_elem_of_singleton.
    specialize (F (next_ch w)). lia || (assert (next_ch w < next_ch w)%nat by auto; lia).
  - intros c Hc. rewrite elem_of_app, list_elem_of_singleton in Hc.
    destruct Hc as [[Hc| ->]|[Hc|[= <-]]]; [|lia| |lia]; (assert (c < next_ch w)%nat by (apply F; auto); lia).
  - intros c [= <-] Hc. assert (next_ch w < next_ch w)%nat by auto. lia.
Qed.

(** A task whose sealing is skipped, or refused by the engine. *)
Lemma inv_open ts (w : W) h p e :
  worker_inv ts w → stopCh w = None → (∀ k t, p !! k = Some t → pendingTasks w !! k = Some t) →
  worker_inv ts (mkSealer e p (Some (next_ch w)) h (closed w) (S (next_ch w)) (sealing w) (resultCh w)).
Proof.
  intros [P O L N F C K] Hs Hp. split; cbn; try done.
  - intros k t Hk. by apply P, Hp.
  - intros c Hc Hn. specialize (L c Hc Hn). congruence.
  - intros c [Hc|[Hc|[= <-]]]; [| |lia]; (assert (c < next_ch w)%nat by (apply F; auto); lia).
  - intros c [= <-] Hc. assert (next_ch w < next_ch w)%nat by auto. lia.
Qed.

Lemma on_task_inv ts skip now jitter t (w w' : W) r :
  worker_inv ts w → on_task skip now jitter t w = (r, w') →
  (r = Ok tt → worker_inv (ts ++ [t]) w') ∧
  (r ≠ Ok tt → (∀ h, sealHash (Block_Header (t_block t)) ≠ Ok h) ∨ ∃ e, (seal now jitter (t_block t) e).1 = Panic).
Proof.
  intros HI. unfold on_task. destruct (sealHash (Block_Header (t_block t))) as [h| |] eqn:Eh;
    [|intros [= <- <-]; split; [done|by left]..].
  destruct (h =? prev w); [intros [= <- <-]; split; [intros _; by apply inv_more|done]|].
  destruct (interrupt_inv ts w HI) as (w1 & -> & HI1 & Hs & Ep & Es & Ee & En). cbn [new_stopCh].
  apply (inv_more _ [t]) in HI1. assert (Ht : t ∈ ts ++ [t]) by (apply elem_of_app; right; by left).
  destruct skip.
  { intros [= <- <-]. split; [|done]. intros _. by apply inv_open. }
  unfold start_seal. cbn [engine set_pending].
  destruct (seal now jitter (t_block t) (engine w1)) as [[[sealed d]|err|] e] eqn:Ese; intros [= <- <-].
  - split; [|done]. intros _. unfold set_sealing, set_engine, set_pending. cbn. apply inv_start; try done. split; [by eapply seal_sealHash|by eapply seal_body].
  - split; [|done]. intros _. unfold set_engine, set_pending. cbn. apply inv_open; try done. intros k t'.
    rewrite delete_insert_eq. intros [_ ?]%lookup_delete_Some. done.
  - split; [done|]. intros _. right. exists (engine w1). by rewrite Ese.
Qed.

Lemma step_inv ts l (w w' : W) : worker_step l w w' → worker_inv ts w →
  worker_inv (ts ++ match l with Some t => [t] | None => [] end) w'.
Proof.
  destruct 1 as [skip now jitter t w w' Ht|i c b w Hi Hc|i c b w Hi|number w|b q w Hq|e w]; intros HI; rewrite ?app_nil_r.
  - by apply (on_task_inv _ _ _ _ _ _ _ _ HI Ht).
  - by apply inv_cut.
  - assert (Hb : ∃ t, t ∈ ts ∧ seals t b).
    { apply (wi_origin _ _ HI). right. apply list_elem_of_fmap. exists (c, b). split; [done|]. by eapply list_elem_of_lookup_2. }
    unfold finish_seal, Seal_deliver. apply (inv_cut _ _ i) in HI. case_if; [by apply inv_deliver|done].
  - apply inv_pending; [|done]. intros k t [Hk _]%map_lookup_filter_Some. done.
  - destruct HI as [P O L N F C K]. split; cbn; try done.
    + intros x Hx. apply O. rewrite Hq. destruct Hx; [left; by right|by right].
    + rewrite Hq, zlen_cons in K. lia.
  - by apply inv_engine.
Qed.

Lemma reachable_inv e ts w : reachable e ts w → worker_inv ts w.
Proof. induction 1 as [|ts l w w' _ IH Hs]; [apply inv_new|]. by eapply step_inv. Qed.
End TaskInvariant.

(** ** Lemmas on the result loop *)

Lemma CopyHeader_full h : is_Some (Difficulty h) → is_Some (Number h) → CopyHeader h = h.
Proof. unfold CopyHeader. intros [d Hd] [n Hn]. destruct h; cbn in *. by subst. Qed.

Section ResultLemmas.
Context {Eng Tx Wd St Conn : Type} `{!Sealer Eng Tx Wd}.
Context (keccak : bytes → Z) (tx_value : Tx → value) (wd_value : Wd → value).
Context (G : Gateway Conn) (B : ChainBackend Tx Wd St).

Abbreviation RS := (result_state (Conn:=Conn) G B).

(** Adding to the set of unconfirmed blocks never fails. *)
Lemma Insert_total {Tx' Wd'} (c : chainRetriever Tx' Wd') idx h u :
  ∃ log u', Insert keccak c idx h u = Some (log, u').
Proof. unfold Insert, Shift. rewrite shift_loop_span by done. cbn. eauto. Qed.

(** The tail of the loop announces the block and writes it. *)
Lemma write_result_ok block r (s : RS) n : Number (b_header block) = Some n →
  ∃ u log,
    write_result keccak G B block r s =
    match WriteBlockAndSetHead B (chain G B s) block (sr_receipts r) (sr_logs r) (t_state (sr_task r)) with
    | None => (WriteFailed, mkResults G B (narwhalAdapter G B s) (gateway G B s) (chain G B s) (posted G B s ++ [block])
                              (unconfirmed G B s) (fates G B s))
    | Some c => (Written, mkResults G B (narwhalAdapter G B s) (gateway G B s) c (posted G B s ++ [block]) u (fates G B s ++ log))
    end.
Proof.
  intros Hn. unfold write_result, NumberU64, Number_Uint64. rewrite Hn. cbn [chain].
  destruct (WriteBlockAndSetHead _ _ _ _ _ _) as [c|]; [|by eexists (unconfirmed G B s), []].
  cbn [deref fmap outcome_fmap unconfirmed].
  destruct (Insert_total (cb_retriever B c) (big_Uint64 n) (Block_Hash keccak block) (unconfirmed G B s)) as (log & u & ->).
  by exists u, log.
Qed.

Lemma write_result_adapter block r (s : RS) n : Number (b_header block) = Some n →
  ∃ en s', write_result keccak G B block r s = (en, s') ∧ en ≠ ResultPanic ∧ narwhalAdapter G B s' = narwhalAdapter G B s.
Proof.
  intros Hn. destruct (write_result_ok block r s n Hn) as (u & log & ->).
  destruct (WriteBlockAndSetHead _ _ _ _ _ _); by eexists _, _.
Qed.

(** The block the loop waits for is released exactly by an output with its
    number; the header it is written with is its own. *)
Lemma on_commit_exact r (s : RS) na out na' n :
  narwhalAdapter G B s = Some na → WaitForCommit na = Some (out, na') →
  is_Some (Difficulty (b_header (sr_block r))) → Number (b_header (sr_block r)) = Some n →
  Forall (fun h => is_Some (Number h)) (Headers out) →
  on_commit keccak G B r s =
    (if bool_decide (Exists (fun h => Number h = Some n) (Headers out))
     then write_result keccak G B (sr_block r) r (set_narwhal G B na' (gateway G B s) s)
     else (ResultPanic, set_narwhal G B na' (gateway G B s) s)).
Proof.
  intros Hna Hw Hd Hn HF. unfold on_commit. rewrite Hna, Hw.
  assert (Hc : Block_Header (sr_block r) = b_header (sr_block r)) by (apply CopyHeader_full; [done|by eexists]).
  rewrite (Rebuild_ok (sr_block r) out n) by (by rewrite ?Hc). rewrite Hc.
  case_bool_decide; [|done]. f_equal. by destruct (sr_block r).
Qed.

Lemma located_logs hash n rs : Forall (fun l => l_BlockHash l = hash) (concat (map r_Logs (locate_receipts hash n rs))).
Proof.
  apply Forall_concat, Forall_map, Forall_lookup. intros i x. unfold locate_receipts. rewrite list_lookup_imap.
  intros (y & _ & ->)%fmap_Some. cbn. apply Forall_map, Forall_true. done.
Qed.

(** What the loop holds once it has found a task. *)
Definition located (b : Block Tx Wd) (t : task Tx Wd St) : sealed_result :=
  let receipts := locate_receipts (Block_Hash keccak b) (Number (b_header b)) (t_receipts t) in
  mkSealed b receipts (concat (map r_Logs receipts)) t.

Lemma on_result_found SIGNER b pending (s : RS) k t n :
  Number (b_header b) = Some n → HasBlock B (chain G B s) (Block_Hash keccak b) (big_Uint64 n) = false →
  sealHash (Block_Header b) = Ok k → pending !! k = Some t →
  on_result keccak tx_value wd_value G B SIGNER (Some b) pending s =
    if CheckSignerFlag SIGNER then
      match narwhalAdapter G B s with
      | None => (ResultPanic, s)
      | Some na =>
          match Broadcast tx_value wd_value G b (na, gateway G B s) with
          | (Ok _, (na, g)) => (Waiting (located b t), set_narwhal G B na g s)
          | (Err _, (na, g)) => write_result keccak G B b (located b t) (set_narwhal G B na g s)
          | (Panic, (na, g)) => (ResultPanic, set_narwhal G B na g s)
          end
      end
    else write_result keccak G B b (located b t) s.
Proof.
  intros Hn Hh Hk Ht. unfold on_result, NumberU64, Number_Uint64. rewrite Hn. cbn [deref fmap outcome_fmap].
  rewrite Hh, Hk, Ht. unfold located. by rewrite Hn.
Qed.

Lemma on_result_waits SIGNER b pending (s : RS) k t n na na' g' :
  Number (b_header b) = Some n → HasBlock B (chain G B s) (Block_Hash keccak b) (big_Uint64 n) = false →
  sealHash (Block_Header b) = Ok k → pending !! k = Some t →
  CheckSignerFlag SIGNER = true → narwhalAdapter G B s = Some na →
  Broadcast tx_value wd_value G b (na, gateway G B s) = (Ok tt, (na', g')) →
  on_result keccak tx_value wd_value G B SIGNER (Some b) pending s = (Waiting (located b t), set_narwhal G B na' g' s).
Proof. intros Hn Hh Hk Ht Hf Hna Hb. rewrite (on_result_found _ _ _ _ k t n) by done. by rewrite Hf, Hna, Hb. Qed.

(** A block that is neither skipped nor crashes the loop has a task. *)
Lemma on_result_task SIGNER b pending (s s' : RS) e :
  on_result keccak tx_value wd_value G B SIGNER (Some b) pending s = (e, s') →
  e = WriteFailed ∨ e = Written ∨ (∃ r, e = Waiting r) →
  ∃ k t, sealHash (Block_Header b) = Ok k ∧ pending !! k = Some t ∧ (∀ r, e = Waiting r → r = located b t) ∧
    (∀ x, x ∈ posted G B s' → x ∈ posted G B s ∨ x = b).
Proof.
  unfold on_result. intros H He.
  destruct (NumberU64 b) as [number| |]; [|by destruct He as [->|[->|[? ->]]]..].
  destruct (HasBlock B _ _ _); [by destruct He as [->|[->|[? ->]]]|].
  destruct (sealHash (Block_Header b)) as [k| |]; [|by destruct He as [->|[->|[? ->]]]..].
  destruct (pending !! k) as [t|] eqn:Et; [|by destruct He as [->|[->|[? ->]]]].
  exists k, t. split; [done|]. split; [done|].
  assert (Hw : ∀ s0, posted G B s0 = posted G B s → write_result keccak G B b (located b t) s0 = (e, s') →
    (∀ r, e = Waiting r → r = located b t) ∧ ∀ x, x ∈ posted G B s' → x ∈ posted G B s ∨ x = b).
  { intros s0 <- Hw. unfold write_result in Hw.
    destruct (WriteBlockAndSetHead _ _ _ _ _ _) as [c|]; [|simplify_eq; split; [done|]; cbn; intros x; rewrite elem_of_app, list_elem_of_singleton; tauto].
    destruct (NumberU64 b) as [m| |]; [|by destruct He as [->|[->|[? ->]]]..].
    destruct (Insert _ _ _ _ _) as [[log u]|]; simplify_eq; (split; [done|]); cbn; intros x; rewrite elem_of_app, list_elem_of_singleton; tauto. }
  destruct (CheckSignerFlag SIGNER); [|by apply (Hw s)].
  destruct (narwhalAdapter G B s) as [na|]; [|by destruct He as [->|[->|[? ->]]]].
  destruct (Broadcast _ _ _ _ _) as [[[]|err|] [na' g]].
  - simplify_eq. cbn. split; [by intros r [= <-]|tauto].
  - apply (Hw (set_narwhal G B na' g s)); [done|exact H].
  - by destruct He as [->|[->|[? ->]]].
Qed.
End ResultLemmas.

(** ** Properties *)

(** C15. The task loop under any interleaving with the engine's routines, the
    result loop and the clean-up: every pending task is stored under its seal
    hash; every block on its way to the result loop is a sealed version of the
    block of a task that arrived; at most one background routine can still be
    interrupted, the one of the latest task; no channel is closed twice, so
    that a task makes the loop panic only if the engine panics; and the result
    channel keeps its capacity. *)
Theorem taskLoop_invariant {Eng Tx Wd St} `{SealerLaws Eng Tx Wd} (e : Eng) (ts : list (task Tx Wd St)) w :
  reachable e ts w →
  (∀ k t, pendingTasks w !! k = Some t → t ∈ ts ∧ sealHash (Block_Header (t_block t)) = Ok k) ∧
  (∀ b, b ∈ resultCh w ∨ b ∈ (sealing w).*2 → ∃ t, t ∈ ts ∧ seals t b) ∧
  (∀ i j c c' b b', sealing w !! i = Some (c, b) → sealing w !! j = Some (c', b') →
     c ∉ closed w → c' ∉ closed w → i = j ∧ stopCh w = Some c) ∧
  (∀ skip now jitter t, (on_task skip now jitter t w).1 ≠ Ok tt →
     (∀ h, sealHash (Block_Header (t_block t)) ≠ Ok h) ∨ ∃ e, (seal now jitter (t_block t) e).1 = Panic) ∧
  zlen (resultCh w) ≤ resultQueueSize.
Proof.
  intros HI%reachable_inv. pose proof HI as [P O L N F C K]. split_and!; try done.
  - intros i j c c' b b' Hi Hj Hc Hc'.
    assert (Hin : ∀ i c b, sealing w !! i = Some (c, b) → (sealing w).*1 !! i = Some c)
      by (intros ? ? ? Hx; by rewrite list_lookup_fmap, Hx).
    pose proof (L c (list_elem_of_lookup_2 _ _ _ (Hin _ _ _ Hi)) Hc) as L1.
    pose proof (L c' (list_elem_of_lookup_2 _ _ _ (Hin _ _ _ Hj)) Hc') as L2.
    rewrite L1 in L2. injection L2 as <-. split; [|done]. by eapply NoDup_lookup; [exact N|eapply Hin..].
  - intros skip now jitter t. destruct (on_task skip now jitter t w) as [r w'] eqn:E. cbn.
    by apply (on_task_inv _ _ _ _ _ _ _ _ HI E).
Qed.


Section Clique.
Context (keccak : bytes → Z) (Ecrecover : bytes → bytes → outcome cliqueError bytes).
Context {DB RC SC : Type} {LR : CacheLaws RC Z Snapshot} {LS : CacheLaws SC Z Z} (st : Storage DB) (hc : ChainHeaderReader).
Context {Tx Wd St Conn : Type} (tx_value : Tx → value) (wd_value : Wd → value).
Context (G : Gateway Conn) (B : ChainBackend Tx Wd St).

#[local] Existing Instance clique_sealer.
Abbreviation clique := (clique_sealer keccak Ecrecover st hc (Tx:=Tx) (Wd:=Wd)).
Abbreviation on_result := (@on_result (Engine DB RC SC) Tx Wd St Conn clique keccak tx_value wd_value G B).
Abbreviation on_commit := (on_commit keccak G B).

(** A header the seal can be computed for. *)
Definition sealable (h : Header) : Prop := wf_header h ∧ WithdrawalsHash h = None ∧ 65 ≤ zlen (Extra h).

Lemma sealable_unsealed h1 h2 : sealable h1 → sealable h2 → CliqueRLP h1 = CliqueRLP h2 → unsealed h1 = unsealed h2.
Proof.
  intros (W1 & N1 & E1) (W2 & N2 & E2). rewrite !CliqueRLP_unsealed by done. intros H.
  apply header_payload_inj; [by apply unsealed_wf..|congruence].
Qed.

(** A block gets the receipts of its own execution: when the result loop
    waits for Narwhal with a block, the task it found
    was submitted earlier, and the task's header differs from the sealed one in
    the seal at most (unless their seal hashes collide); the receipts it will
    write are those of the task with the hash, number and index of the sealed
    block. *)
Theorem result_receipts_match (e0 : Engine DB RC SC) (ts : list (task Tx Wd St)) w b SIGNER s r s' :
  @reachable (Engine DB RC SC) Tx Wd St clique e0 ts w →
  (∀ t, t ∈ ts → sealable (Block_Header (t_block t))) → sealable (Block_Header b) →
  (∀ t, t ∈ ts → SealHash keccak (Block_Header b) = SealHash keccak (Block_Header (t_block t)) →
     CliqueRLP (Block_Header b) = CliqueRLP (Block_Header (t_block t))) →
  on_result SIGNER (Some b) (pendingTasks w) s = (Waiting r, s') →
  ∃ t, t ∈ ts ∧ sr_task r = t ∧ sr_block r = b ∧
    unsealed (Block_Header b) = unsealed (Block_Header (t_block t)) ∧
    sr_receipts r = locate_receipts (Block_Hash keccak b) (Number (b_header b)) (t_receipts t) ∧
    Forall (fun l => l_BlockHash l = Block_Hash keccak b) (sr_logs r).
Proof.
  intros Hr Hts Hb Hcol Ho. apply (reachable_inv (H0:=clique_sealer_laws keccak Ecrecover st hc)) in Hr.
  apply on_result_task in Ho as (k & t & Hk & Ht & Hw & _); [|eauto].
  apply (wi_pending _ _ Hr) in Ht as [Hin Hh]. exists t. rewrite (Hw r eq_refl). split_and!; try done.
  - apply sealable_unsealed; auto. apply Hcol; [done|]. cbn in Hk, Hh. congruence.
  - apply located_logs.
Qed.

(** C27. The Narwhal gate. On a signer, a block for which [Broadcast] succeeds is
    neither announced nor written before a commit: [on_result] leaves chain and
    announcements alone and waits.  The wait ends with the oldest committed
    output: if one of its headers has the block's number, exactly this block,
    header unchanged, is announced and written with its receipts; if none has,
    the loop panics. *)
Theorem narwhal_gate SIGNER b pending s na g na1 g1 k t n :
  CheckSignerFlag SIGNER = true → narwhalAdapter G B s = Some na → gateway G B s = g →
  is_Some (Difficulty (b_header b)) → Number (b_header b) = Some n →
  HasBlock B (chain G B s) (Block_Hash keccak b) (big_Uint64 n) = false →
  SealHash keccak (Block_Header b) = Ok k → pending !! k = Some t →
  Broadcast tx_value wd_value G b (na, g) = (Ok tt, (na1, g1)) →
  ∃ r s1, on_result SIGNER (Some b) pending s = (Waiting r, s1) ∧ sr_block r = b ∧ sr_task r = t ∧
    chain G B s1 = chain G B s ∧ posted G B s1 = posted G B s ∧
    ∀ s2 na2,
      narwhalAdapter G B s2 = Some na2 →
      match outc na2 with
      | [] => on_commit r s2 = (Waiting r, s2)
      | out :: q =>
          Forall (fun h => is_Some (Number h)) (Headers out) →
          ∃ en s3, on_commit r s2 = (en, s3) ∧ option_map outc (narwhalAdapter G B s3) = Some q ∧
            if bool_decide (Exists (fun h => Number h = Some n) (Headers out))
            then posted G B s3 = posted G B s2 ++ [b] ∧
                 match WriteBlockAndSetHead B (chain G B s2) b (sr_receipts r) (sr_logs r) (t_state t) with
                 | Some c => en = Written ∧ chain G B s3 = c
                 | None => en = WriteFailed ∧ chain G B s3 = chain G B s2
                 end
            else en = ResultPanic ∧ posted G B s3 = posted G B s2 ∧ chain G B s3 = chain G B s2
      end.
Proof.
  intros Hf Hna Hg Hd Hn Hh Hk Ht Hb. exists (located keccak b t), (set_narwhal G B na1 g1 s).
  subst g. rewrite (@on_result_waits (Engine DB RC SC) Tx Wd St Conn clique keccak tx_value wd_value G B SIGNER b pending s k t n
    na na1 g1 Hn Hh Hk Ht Hf Hna Hb). split_and!; try done. intros s2 na2 Hna2.
  destruct (outc na2) as [|out q] eqn:Eq.
  { unfold Worker.on_commit, WaitForCommit. by rewrite Hna2, Eq. }
  intros HF. rewrite (on_commit_exact keccak G B _ s2 na2 out (set_outc q na2) n); try done;
    [|unfold WaitForCommit; by rewrite Eq].
  case_bool_decide; [|by eexists _, _].
  destruct (write_result_ok keccak G B b (located keccak b t) (set_narwhal G B (set_outc q na2) (gateway G B s2) s2) n Hn)
    as (u & log & Hw). change (sr_block (located keccak b t)) with b. rewrite Hw. cbn [chain set_narwhal].
  change (t_state (sr_task (located keccak b t))) with (t_state t).
  destruct (WriteBlockAndSetHead _ _ _ _ _ _); by eexists _, _.
Qed.

(** A commit delivered twice stops the node. After the race of two
    [Notify] handlers with the same event, the result loop releases the block
    the event commits, and panics on the next block, whose number the second
    copy does not have. *)
Theorem duplicate_commit_panics (req : NarwhalCommitEvent) hs (na : NarwhalAdapter Conn) (r1 r2 : sealed_result) s n m :
  decode_headers (EthBlockDigest req) = Ok hs → committedSeqs na !! NarwhalSequenceNumber req = None → outc na = [] →
  hs ≠ [] → Forall (fun h => Number h = Some n) hs → n ≠ m →
  is_Some (Difficulty (b_header (sr_block r1))) → Number (b_header (sr_block r1)) = Some n →
  is_Some (Difficulty (b_header (sr_block r2))) → Number (b_header (sr_block r2)) = Some m →
  ∃ a, rtc adapter_step (mkState [] na []) a ∧
    let s0 := set_narwhal G B (adapter a) (gateway G B s) s in
    (on_commit r1 s0).1 ≠ ResultPanic ∧ (on_commit r2 (on_commit r1 s0).2).1 = ResultPanic.
Proof.
  intros Hd Hf Hq Hne Hall Hnm D1 N1 D2 N2.
  destruct (race_run req hs na Hd Hf) as (a & Ha & Eq); [rewrite Hq; done|]. rewrite Hq in Eq. cbn in Eq.
  exists a. split; [done|]. cbv zeta.
  assert (HF : Forall (fun h => is_Some (Number h)) hs) by (eapply Forall_impl; [exact Hall|]; intros ? ->; eauto).
  set (o := mkOutput hs req) in Eq.
  rewrite (on_commit_exact keccak G B r1 _ (adapter a) o (set_outc [o] (adapter a)) n); try done;
    [|unfold WaitForCommit; by rewrite Eq].
  rewrite bool_decide_true by (destruct hs; [done|]; inversion Hall; subst; by left).
  edestruct (write_result_adapter keccak G B (sr_block r1) r1) as (en & s1 & -> & Hen & Hna1); [exact N1|].
  cbn [fst snd]. split; [done|].
  rewrite (on_commit_exact keccak G B r2 s1 (set_outc [o] (adapter a)) o (set_outc [] (set_outc [o] (adapter a))) m); try done.
  rewrite bool_decide_false; [done|]. intros (h & Hh & Hm)%Exists_exists. rewrite Forall_forall in Hall.
  specialize (Hall h Hh). congruence.
Qed.

(** A task the engine seals is pending, and its sealed block on its way. *)
Lemma on_task_sealed (w w' : sealer_state (Engine DB RC SC) Tx Wd St) now jitter t h sealed d e' :
  @on_task _ _ _ _ clique false now jitter t w = (Ok tt, w') →
  SealHash keccak (Block_Header (t_block t)) = Ok h → h ≠ prev w →
  Seal keccak Ecrecover st hc now jitter (t_block t) (engine w) = (Ok (sealed, d), e') →
  pendingTasks w' !! h = Some t ∧ (next_ch w, sealed) ∈ sealing w'.
Proof.
  intros Ht Hh Hp Hs. unfold on_task in Ht. cbn [sealHash clique_sealer] in Ht. rewrite Hh in Ht.
  rewrite (proj2 (Z.eqb_neq _ _) Hp) in Ht.
  destruct (interrupt w) as [[[]| |] w1] eqn:Ei; [|done|done].
  assert (E1 : engine w1 = engine w ∧ next_ch w1 = next_ch w).
  { unfold interrupt in Ei. destruct (stopCh w); [case_bool_decide|]; simplify_eq; done. }
  destruct E1 as [E1 E2]. cbn [new_stopCh] in Ht. unfold start_seal in Ht. cbn [engine set_pending seal clique_sealer] in Ht.
  rewrite E1, Hs in Ht. injection Ht as <-. cbn. rewrite lookup_insert_eq, E2. split; [done|].
  apply elem_of_app. right. by left.
Qed.

(** C22. From task to chain: a new task that the engine seals is found by the
    result loop when the sealed block arrives, since the seal does not change
    the seal hash; on a signer whose [Broadcast] succeeds the loop waits; and
    a fresh commit event that carries the block's header, handed to [Notify]
    while the queue is empty, makes it announce and write exactly this block. *)
Theorem sealed_block_committed (w w' : sealer_state (Engine DB RC SC) Tx Wd St) now jitter t h sealed d e' SIGNER s na na1 g1 n :
  @on_task _ _ _ _ clique false now jitter t w = (Ok tt, w') →
  SealHash keccak (Block_Header (t_block t)) = Ok h → h ≠ prev w →
  Seal keccak Ecrecover st hc now jitter (t_block t) (engine w) = (Ok (sealed, d), e') →
  wf_header (b_header sealed) → Number (b_header sealed) = Some n →
  CheckSignerFlag SIGNER = true → narwhalAdapter G B s = Some na → outc na = [] →
  HasBlock B (chain G B s) (Block_Hash keccak sealed) (big_Uint64 n) = false →
  Broadcast tx_value wd_value G sealed (na, gateway G B s) = (Ok tt, (na1, g1)) →
  (next_ch w, sealed) ∈ sealing w' ∧
  ∃ r s1, on_result SIGNER (Some sealed) (pendingTasks w') s = (Waiting r, s1) ∧ sr_task r = t ∧
    ∀ req hs, rlp_list (header_payload (b_header sealed)) ∈ EthBlockDigest req →
      Forall (fun d => zlen d < 2 ^ 63) (EthBlockDigest req) → decode_headers (EthBlockDigest req) = Ok hs →
      committedSeqs na1 !! NarwhalSequenceNumber req = None →
      ∃ na2, Notify req na1 = (Responded Thanks, na2) ∧
        let '(en, s2) := on_commit r (set_narwhal G B na2 g1 s1) in
        posted G B s2 = posted G B s ++ [sealed] ∧
        match WriteBlockAndSetHead B (chain G B s) sealed (sr_receipts r) (sr_logs r) (t_state t) with
        | Some c => en = Written ∧ chain G B s2 = c
        | None => en = WriteFailed
        end.
Proof.
  intros Ht Hh Hp Hs Hwf Hn Hf Hna Hq Hhas Hb.
  destruct (on_task_sealed w w' now jitter t h sealed d e' Ht Hh Hp Hs) as [Hpend Hin]. split; [done|].
  assert (Hk : SealHash keccak (Block_Header sealed) = Ok h).
  { rewrite <- Hh. exact (@seal_sealHash _ _ _ clique (clique_sealer_laws keccak Ecrecover st hc) _ _ _ _ _ _ _ Hs). }
  assert (Hd : is_Some (Difficulty (b_header sealed))).
  { pose proof (wf_Difficulty _ Hwf) as H. destruct (Difficulty (b_header sealed)); [eauto|done]. }
  exists (located keccak sealed t), (set_narwhal G B na1 g1 s).
  rewrite (@on_result_waits (Engine DB RC SC) Tx Wd St Conn clique keccak tx_value wd_value G B SIGNER sealed _ s h t n
    na na1 g1 Hn Hhas Hk Hpend Hf Hna Hb). split; [done|]. split; [done|]. intros req hs Hreq Hlen Hds Hfresh.
  assert (Hq1 : outc na1 = []).
  { apply Broadcast_ok in Hb as (conn & bb & hb & rr & E & _). cbn in E. by simplify_eq. }
  assert (Hc : Block_Header sealed = b_header sealed) by (apply CopyHeader_full; [done|eauto]).
  destruct (commit_releases sealed req na1 hs) as (na2 & na3 & out & HN & HW & _ & HR); rewrite ?Hc; try done.
  exists na2. split; [done|]. unfold Worker.on_commit. cbn [narwhalAdapter set_narwhal]. rewrite HW.
  change (sr_block (located keccak sealed t)) with sealed. rewrite HR, Hc.
  replace (WithSeal sealed (b_header sealed)) with sealed by (by destruct sealed).
  edestruct (write_result_ok keccak G B sealed (located keccak sealed t)) as (u & log & ->); [exact Hn|].
  cbn [chain set_narwhal]. change (t_state (sr_task (located keccak sealed t))) with (t_state t).
  destruct (WriteBlockAndSetHead _ _ _ _ _ _); done.
Qed.
End Clique.

(** ** Witnesses: a signer of the toy chain seals block 1 *)

Definition toy_signer : Engine (list (bytes * bytes)) (BasicLRU Z Snapshot) (BasicLRU Z Z) :=
  (Authorize 11 (fun a _ => Ok (be_bytes 65 a)) toy_engine).2.
Abbreviation toy_sealer :=
  (clique_sealer (DB:=list (bytes * bytes)) (RC:=BasicLRU Z Snapshot) (SC:=BasicLRU Z Z) (Tx:=unit) (Wd:=unit)
     toy_keccak toy_Ecrecover toy_storage (toy_chain [toy_g])).
Definition toy_task : task unit unit unit := mkTask [example_receipt] tt (mkBlock toy_prepared [] [] None).
Definition toy_worker : sealer_state (Engine (list (bytes * bytes)) (BasicLRU Z Snapshot) (BasicLRU Z Z)) unit unit unit :=
  new_worker toy_signer.
Definition toy_sealed : Block unit unit :=
  fst (from_ok (t_block toy_task, 0)
    (fst (Seal toy_keccak toy_Ecrecover toy_storage (toy_chain [toy_g]) 0 0 (t_block toy_task) toy_signer))).
Definition toy_working : sealer_state (Engine (list (bytes * bytes)) (BasicLRU Z Snapshot) (BasicLRU Z Z)) unit unit unit :=
  (@on_task _ _ _ _ toy_sealer false 0 0 toy_task toy_worker).2.

Definition toy_backend : ChainBackend unit unit unit :=
  mkBackend _ _ _ (list (Block unit unit))
    (fun c hash n => existsb (fun b => Block_Hash toy_keccak b =? hash) c)
    (fun c b _ _ _ => Some (c ++ [b])) (fun _ => example_retriever).
Definition toy_results : result_state example_gateway toy_backend :=
  mkResults example_gateway toy_backend (Some example_adapter) [] [] [] (newUnconfirmedBlocks sealingLogAtDepth) [].
Definition toy_key : Z := from_ok 0 (SealHash toy_keccak toy_prepared).
Definition toy_event : NarwhalCommitEvent := mkEvent 1 [] [rlp_list (header_payload (b_header toy_sealed))] [].

Lemma toy_on_task : @on_task _ _ _ _ toy_sealer false 0 0 toy_task toy_worker = (Ok tt, toy_working).
Proof.
  unfold toy_working. destruct (@on_task _ _ _ _ toy_sealer false 0 0 toy_task toy_worker) as [r w] eqn:E.
  assert (Hr : r = Ok tt) by (change r with (r, w).1; rewrite <- E; vm_compute; reflexivity). subst r. reflexivity.
Qed.

#[local] Opaque toy_sealed toy_working toy_key toy_signer toy_prepared.

Lemma toy_reachable : @reachable _ _ _ _ toy_sealer toy_signer [toy_task] toy_working.
Proof.
  apply (@reach_step _ _ _ _ toy_sealer toy_signer [] (Some toy_task) toy_worker); [constructor|].
  apply (@step_task _ _ _ _ toy_sealer false 0 0). apply toy_on_task.
Qed.

Lemma taskLoop_invariant_witness :
  zlen (resultCh toy_working) ≤ resultQueueSize ∧
  ∀ k t, pendingTasks toy_working !! k = Some t → t ∈ [toy_task] ∧ SealHash toy_keccak (Block_Header (t_block t)) = Ok k.
Proof.
  destruct (@taskLoop_invariant _ _ _ _ toy_sealer (clique_sealer_laws _ _ _ _) toy_signer [toy_task] toy_working toy_reachable)
    as (P & _ & _ & _ & K).
  split; [exact K|exact P].
Defined.


Lemma toy_sealed_wf : wf_header (b_header toy_sealed).
Proof.
  assert (E : ∃ h, b_header toy_sealed = h ∧ wf_header h); [|by destruct E as (h & -> & ?)].
  eexists. split; [vm_compute; reflexivity|].
  split; try (split; [discriminate|reflexivity]); try reflexivity.
  - right. split; reflexivity.
  - right. split; reflexivity.
  - right. reflexivity.
Qed.

Lemma toy_Seal : ∃ d e, Seal toy_keccak toy_Ecrecover toy_storage (toy_chain [toy_g]) 0 0 (t_block toy_task) (engine toy_worker)
                        = (Ok (toy_sealed, d), e).
Proof.
  destruct (Seal toy_keccak toy_Ecrecover toy_storage (toy_chain [toy_g]) 0 0 (t_block toy_task) (engine toy_worker))
    as [r e] eqn:E.
  assert (Hr : fst <$> r = Ok toy_sealed) by (change r with (r, e).1; rewrite <- E; vm_compute; reflexivity).
  destruct r as [[b d]| |]; [|discriminate..]. exists d, e.
  assert (Hb : b = toy_sealed) by exact (f_equal (from_ok b) Hr). rewrite Hb. reflexivity.
Qed.

Lemma toy_key_task : SealHash toy_keccak (Block_Header (t_block toy_task)) = Ok toy_key.
Proof. vm_compute. reflexivity. Qed.
Lemma toy_key_sealed : SealHash toy_keccak (Block_Header toy_sealed) = Ok toy_key.
Proof. vm_compute. reflexivity. Qed.
Lemma toy_pending : pendingTasks toy_working !! toy_key = Some toy_task.
Proof. vm_compute. reflexivity. Qed.
Lemma toy_number : Number (b_header toy_sealed) = Some 1.
Proof. vm_compute. reflexivity. Qed.
Lemma toy_difficulty : Difficulty (b_header toy_sealed) = Some 1.
Proof. vm_compute. reflexivity. Qed.
Lemma toy_new : HasBlock toy_backend (chain _ _ toy_results) (Block_Hash toy_keccak toy_sealed) (big_Uint64 1) = false.
Proof. reflexivity. Qed.
Lemma toy_headers_sealable : sealable (Block_Header (t_block toy_task)) ∧ sealable (Block_Header toy_sealed).
Proof.
  assert (E : ∃ h1 h2, Block_Header (t_block toy_task) = h1 ∧ Block_Header toy_sealed = h2 ∧ sealable h1 ∧ sealable h2);
    [|by destruct E as (h1 & h2 & -> & -> & ?)].
  eexists _, _. split; [vm_compute; reflexivity|]. split; [vm_compute; reflexivity|].
  split; (split; [|split; [reflexivity|vm_compute; discriminate]]);
    (split; try (split; [discriminate|reflexivity]); try reflexivity;
     [right; split; reflexivity | right; split; reflexivity | right; reflexivity]).
Qed.
Lemma toy_broadcast : ∃ na g, Broadcast (fun _ : unit => VUint 0) (fun _ : unit => VUint 0) example_gateway toy_sealed
    (example_adapter, gateway _ _ toy_results) = (Ok tt, (na, g)) ∧ committedSeqs na = ∅.
Proof.
  assert (Hr : fst (Broadcast (fun _ : unit => VUint 0) (fun _ : unit => VUint 0) example_gateway toy_sealed
    (example_adapter, gateway _ _ toy_results)) = Ok tt) by (vm_compute; reflexivity).
  destruct (Broadcast (fun _ : unit => VUint 0) (fun _ : unit => VUint 0) example_gateway toy_sealed
    (example_adapter, gateway _ _ toy_results)) as [r [na g]] eqn:E. cbn [fst] in Hr. subst r.
  pose proof (Broadcast_ok _ _ _ _ _ _ E) as (conn & bb & hb & rr & Hw & _). injection Hw as -> ->.
  eexists _, _. split; reflexivity.
Qed.

Lemma result_receipts_match_witness :
  ∃ (r : sealed_result) (t : task unit unit unit), sr_task r = t ∧ sr_block r = toy_sealed ∧ map r_BlockNumber (sr_receipts r) = [Some 1] ∧
    unsealed (Block_Header toy_sealed) = unsealed (Block_Header (t_block t)).
Proof.
  destruct toy_broadcast as (na & g & Hb & _).
  destruct (result_receipts_match toy_keccak toy_Ecrecover toy_storage (toy_chain [toy_g]) (fun _ => VUint 0) (fun _ => VUint 0)
    example_gateway toy_backend toy_signer [toy_task] toy_working toy_sealed "true" toy_results
    (located toy_keccak toy_sealed toy_task) (set_narwhal _ _ na g toy_results)) as (t & _ & H1 & H2 & H3 & _).
  - exact toy_reachable.
  - intros t ->%list_elem_of_singleton. exact (proj1 toy_headers_sealable).
  - exact (proj2 toy_headers_sealable).
  - intros t ->%list_elem_of_singleton _. vm_compute. reflexivity.
  - exact (@on_result_waits _ _ _ _ _ toy_sealer toy_keccak (fun _ => VUint 0) (fun _ => VUint 0) example_gateway toy_backend
      "true" toy_sealed (pendingTasks toy_working) toy_results toy_key toy_task 1 example_adapter na g
      toy_number toy_new toy_key_sealed toy_pending eq_refl eq_refl Hb).
  - exists (located toy_keccak toy_sealed toy_task), t. split; [exact H1|]. split; [exact H2|]. split; [|exact H3].
    cbn [located sr_receipts locate_receipts imap toy_task t_receipts map r_BlockNumber locate_receipt]. rewrite toy_number. reflexivity.
Defined.

Lemma narwhal_gate_witness :
  ∃ (r : sealed_result) s1, posted _ _ s1 = [] ∧
    (on_commit toy_keccak example_gateway toy_backend r s1).1 = Waiting r ∧ sr_block r = toy_sealed.
Proof.
  destruct toy_broadcast as (na & g & Hb & _).
  destruct (narwhal_gate toy_keccak toy_Ecrecover (RC:=BasicLRU Z Snapshot) (SC:=BasicLRU Z Z) toy_storage (toy_chain [toy_g])
    (fun _ => VUint 0) (fun _ => VUint 0) example_gateway toy_backend "true" toy_sealed (pendingTasks toy_working) toy_results
    example_adapter [] na g toy_key toy_task 1 eq_refl eq_refl eq_refl (mk_is_Some _ _ toy_difficulty) toy_number toy_new
    toy_key_sealed toy_pending Hb) as (r & s1 & _ & Hr & _ & Hc & Hp & Hw).
  exists r, (set_narwhal example_gateway toy_backend example_adapter [] s1).
  split; [exact Hp|]. split; [|exact Hr]. rewrite (Hw (set_narwhal example_gateway toy_backend example_adapter [] s1) example_adapter eq_refl). reflexivity.
Defined.

Definition waiting_for (n : Z) : sealed_result (Tx:=unit) (Wd:=unit) (St:=unit) :=
  mkSealed (mkBlock (set_Number (Some n) example_header) [] [] None) [] [] toy_task.

Lemma duplicate_commit_panics_witness :
  ∃ a, rtc adapter_step (mkState [] example_adapter []) a ∧
    let s0 := set_narwhal example_gateway toy_backend (adapter a) [] toy_results in
    (on_commit toy_keccak _ _ (waiting_for 1) s0).1 ≠ ResultPanic ∧
    (on_commit toy_keccak _ _ (waiting_for 2) (on_commit toy_keccak _ _ (waiting_for 1) s0).2).1 = ResultPanic.
Proof.
  apply (duplicate_commit_panics toy_keccak example_gateway toy_backend toy_event [b_header toy_sealed] example_adapter
    (waiting_for 1) (waiting_for 2) toy_results 1 2).
  - vm_compute. reflexivity.
  - reflexivity.
  - reflexivity.
  - discriminate.
  - constructor; [exact toy_number|constructor].
  - discriminate.
  - eexists. reflexivity.
  - reflexivity.
  - eexists. reflexivity.
  - reflexivity.
Defined.

Lemma sealed_block_committed_witness :
  ∃ (r : sealed_result) s1 na g na2,
    Notify toy_event na = (Responded Thanks, na2) ∧
    posted _ _ (on_commit toy_keccak example_gateway toy_backend r (set_narwhal _ _ na2 g s1)).2 = [toy_sealed].
Proof.
  destruct toy_broadcast as (na & g & Hb & Hm). destruct toy_Seal as (d & e & Hs).
  assert (Hp : toy_key ≠ 0) by (vm_compute; discriminate).
  destruct (sealed_block_committed toy_keccak toy_Ecrecover toy_storage (toy_chain [toy_g])
    (fun _ => VUint 0) (fun _ => VUint 0) example_gateway toy_backend toy_worker toy_working 0 0 toy_task toy_key toy_sealed d e
    "true" toy_results example_adapter na g 1 toy_on_task toy_key_task Hp Hs toy_sealed_wf toy_number eq_refl eq_refl eq_refl
    toy_new Hb) as (_ & r & s1 & _ & _ & Hc).
  destruct (Hc toy_event [b_header toy_sealed]) as (na2 & HN & HP).
  - left.
  - constructor; [vm_compute; reflexivity|constructor].
  - vm_compute. reflexivity.
  - rewrite Hm. reflexivity.
  - exists r, s1, na, g, na2. split; [exact HN|].
    destruct (on_commit toy_keccak example_gateway toy_backend r (set_narwhal _ _ na2 g s1)) as [en s2]. exact (proj1 HP).
Defined.
