(* ===== verification/Assemble.v ===== *)
(** Assembling a block to seal: [prepareWork], [makeEnv] and [commitUncle] of
    [src/go-ethereum/miner/worker.go], and [CalcGasLimit] of
    [core/block_validator.go].

    The chain is the record [MinerChain]; the state database, the transaction
    signer and the engine's [Prepare] are parameters.  Go visits the maps of
    possible uncles in an unspecified order, here the parameter [order]. *)

From S2P Require Import Prelude Lru RLP RLPDecode Types HeaderRLP Receipts Config Fees Clique CliqueEngine.

(** ** The gas limit *)

Definition CalcGasLimit (parentGasLimit desiredLimit : Z) : Z :=
  let delta := u64 (parentGasLimit / GasLimitBoundDivisor - 1) in
  let limit := parentGasLimit in
  let desiredLimit := if desiredLimit <? MinGasLimit then MinGasLimit else desiredLimit in
  if limit <? desiredLimit then
    let limit := u64 (parentGasLimit + delta) in
    if desiredLimit <? limit then desiredLimit else limit
  else if desiredLimit <? limit then
    let limit := u64 (parentGasLimit - delta) in
    if limit <? desiredLimit then desiredLimit else limit
  else limit.

(** ** Data *)

Record generateParams (Wd : Type) := mkParams {
  timestamp : Z;
  forceTime : bool;
  parentHash : Z;
  gp_coinbase : Z;
  random : Z;
  withdrawals : option (list Wd);
  noUncle : bool;
  noTxs : bool
}.
Arguments timestamp {Wd} _.
Arguments forceTime {Wd} _.
Arguments parentHash {Wd} _.
Arguments gp_coinbase {Wd} _.
Arguments random {Wd} _.
Arguments noUncle {Wd} _.
Arguments mkParams {Wd} _ _ _ _ _ _ _ _.

(** The worker's current environment. *)
Record environment (Tx St Sg : Type) := mkEnv {
  env_signer : Sg;
  env_state : St;
  ancestors : gset Z;
  family : gset Z;
  tcount : Z;
  gasPool : option Z;
  env_coinbase : Z;
  env_header : Header;
  env_txs : list Tx;
  env_receipts : list Receipt;
  env_uncles : gmap Z Header
}.
Arguments mkEnv {Tx St Sg} _ _ _ _ _ _ _ _ _ _ _.
Arguments env_signer {Tx St Sg} _.
Arguments env_state {Tx St Sg} _.
Arguments ancestors {Tx St Sg} _.
Arguments family {Tx St Sg} _.
Arguments tcount {Tx St Sg} _.
Arguments gasPool {Tx St Sg} _.
Arguments env_coinbase {Tx St Sg} _.
Arguments env_header {Tx St Sg} _.
Arguments env_txs {Tx St Sg} _.
Arguments env_receipts {Tx St Sg} _.
Arguments env_uncles {Tx St Sg} _.

Record MinerChain (Tx Wd St : Type) := mkMinerChain {
  mc_config : ChainConfig;
  mc_CurrentBlock : Header;
  mc_GetBlockByHash : Z → option (Block Tx Wd);
  mc_GetBlocksFromHash : Z → Z → list (Block Tx Wd);
  mc_StateAt : Z → option St;
  mc_GetTd : Z → Z → option Z
}.
Arguments mc_config {Tx Wd St} _.
Arguments mc_CurrentBlock {Tx Wd St} _.
Arguments mc_GetBlockByHash {Tx Wd St} _ _.
Arguments mc_GetBlocksFromHash {Tx Wd St} _ _ _.
Arguments mc_StateAt {Tx Wd St} _ _.
Arguments mc_GetTd {Tx Wd St} _ _ _.

Inductive workError :=
| MissingParent | InvalidTimestamp (parent given : Z) | PrepareFailed (e : cliqueError) | NoState
| IgnoreUncle | UncleNotUnique | UncleIsSibling | UncleParentUnknown | UncleAlreadyIncluded.

Definition set_uncles {Tx St Sg} (u : gmap Z Header) (env : environment Tx St Sg) : environment Tx St Sg :=
  mkEnv (env_signer env) (env_state env) (ancestors env) (family env) (tcount env) (gasPool env) (env_coinbase env)
    (env_header env) (env_txs env) (env_receipts env) u.

Section Assemble.
Context {Tx Wd St Sg Eng : Type}.
Context (keccak : bytes → Z) (chain : MinerChain Tx Wd St).
Context (MakeSigner : ChainConfig → option Z → Z → Sg).
(** The engine's [Prepare], which may change the engine's caches. *)
Context (prepare : Header → stm Eng cliqueError Header).
Context (order : list (Z * Block Tx Wd) → list (Z * Block Tx Wd)).

Abbreviation Env := (environment Tx St Sg).

(** ** Uncles *)

Definition isTTDReached (header : Header) : outcome workError bool :=
  number ← Number_Uint64 header;
  Ok (match mc_GetTd chain (ParentHash header) (u64 (number - 1)), TerminalTotalDifficulty (mc_config chain) with
      | Some td, Some ttd => ttd <=? td
      | _, _ => false
      end).

Definition commitUncle (env : Env) (uncle : Header) : outcome workError Env :=
  ttd ← isTTDReached (env_header env);
  _ ← guard_err ttd IgnoreUncle;
  let hash := Header_Hash keccak uncle in
  _ ← guard_err (bool_decide (is_Some (env_uncles env !! hash))) UncleNotUnique;
  _ ← guard_err (ParentHash (env_header env) =? ParentHash uncle) UncleIsSibling;
  _ ← guard_err (negb (bool_decide (ParentHash uncle ∈ ancestors env))) UncleParentUnknown;
  _ ← guard_err (bool_decide (hash ∈ family env)) UncleAlreadyIncluded;
  Ok (set_uncles (<[hash := uncle]> (env_uncles env)) env).

(** The closure [commitUncles]: at most two uncles, rejected ones skipped. *)
Fixpoint commitUncles (blocks : list (Z * Block Tx Wd)) (env : Env) : outcome workError Env :=
  match blocks with
  | [] => Ok env
  | (_, uncle) :: blocks' =>
      if (base.size (env_uncles env) =? 2)%nat then Ok env else
      match commitUncle env (Block_Header uncle) with
      | Ok env => commitUncles blocks' env
      | Err _ => commitUncles blocks' env
      | Panic => Panic
      end
  end.

Definition unclelist (env : Env) : list Header := (map_to_list (env_uncles env)).*2.

(** ** The environment *)

Definition add_ancestor (af : gset Z * gset Z) (ancestor : Block Tx Wd) : gset Z * gset Z :=
  let h := Block_Hash keccak ancestor in
  ({[h]} ∪ af.1, {[h]} ∪ (list_to_set (map (Header_Hash keccak) (b_uncles ancestor)) ∪ af.2)).

Definition makeEnv (parent header : Header) (coinbase : Z) : outcome workError Env :=
  match mc_StateAt chain (Root parent) with
  | None => Err NoState
  | Some state =>
      let '(anc, fam) := foldl add_ancestor (∅, ∅) (mc_GetBlocksFromHash chain (Header_Hash keccak parent) 7) in
      Ok (mkEnv (MakeSigner (mc_config chain) (Number header) (Time header)) state anc fam 0 None coinbase header [] [] ∅)
  end.

(** ** prepareWork *)

Definition find_parent (genParams : generateParams Wd) : outcome workError Header :=
  if parentHash genParams =? 0 then Ok (mc_CurrentBlock chain) else
  match mc_GetBlockByHash chain (parentHash genParams) with
  | None => Err MissingParent
  | Some block => Ok (Block_Header block)
  end.

Definition choose_time (genParams : generateParams Wd) (parent : Header) : outcome workError Z :=
  if timestamp genParams <=? Time parent then
    if forceTime genParams then Err (InvalidTimestamp (Time parent) (timestamp genParams))
    else Ok (u64 (Time parent + 1))
  else Ok (timestamp genParams).

(** The header before the engine's preparation; [extra] and [gasCeil] are the
    worker's settings. *)
Definition draft_header (extra : bytes) (gasCeil : Z) (genParams : generateParams Wd) (parent : Header) (time : Z)
    : outcome workError Header :=
  pn ← deref (Number parent);
  let num := Some (pn + 1) in
  let mix := if random genParams =? 0 then 0 else random genParams in
  if IsLondon (mc_config chain) num then
    match CalcBaseFee (mc_config chain) parent with
    | Ok fee =>
        let limit :=
          if negb (IsLondon (mc_config chain) (Number parent))
          then CalcGasLimit (u64 (GasLimit parent * ElasticityMultiplier)) gasCeil
          else CalcGasLimit (GasLimit parent) gasCeil in
        Ok (mkHeader (Header_Hash keccak parent) 0 (gp_coinbase genParams) 0 0 0 0 None num limit 0 time extra mix 0
              (Some fee) None None)
    | _ => Panic
    end
  else
    Ok (mkHeader (Header_Hash keccak parent) 0 (gp_coinbase genParams) 0 0 0 0 None num
          (CalcGasLimit (GasLimit parent) gasCeil) 0 time extra mix 0 None None None).

Definition prepareWork (extra : bytes) (gasCeil : Z) (localUncles remoteUncles : gmap Z (Block Tx Wd))
    (genParams : generateParams Wd) : stm Eng workError Env := fun e =>
  match (parent ← find_parent genParams;
         time ← choose_time genParams parent;
         header ← draft_header extra gasCeil genParams parent time;
         Ok (parent, header)) with
  | Err err => (Err err, e)
  | Panic => (Panic, e)
  | Ok (parent, header) =>
      match prepare header e with
      | (Err err, e) => (Err (PrepareFailed err), e)
      | (Panic, e) => (Panic, e)
      | (Ok header, e) =>
          (env ← makeEnv parent header (gp_coinbase genParams);
           if noUncle genParams then Ok env else
           env ← commitUncles (order (map_to_list localUncles)) env;
           commitUncles (order (map_to_list remoteUncles)) env, e)
      end
  end.
End Assemble.

(** ** Lemmas *)

Lemma CalcGasLimit_bounds p d : MinGasLimit ≤ p ≤ MaxGasLimit → 0 ≤ d ≤ MaxGasLimit →
  let d' := Z.max d MinGasLimit in
  let l := CalcGasLimit p d in
  Z.abs (l - p) < p / GasLimitBoundDivisor ∧ MinGasLimit ≤ l ≤ MaxGasLimit ∧
  (p ≤ d' → p ≤ l ≤ d') ∧ (d' ≤ p → d' ≤ l ≤ p) ∧
  (Z.abs (d' - p) < p / GasLimitBoundDivisor → l = d').
Proof.
  unfold MinGasLimit, MaxGasLimit, GasLimitBoundDivisor. intros Hp Hd.
  assert (H4 : 4 ≤ p / 1024) by (apply Z.div_le_lower_bound; lia).
  assert (p / 1024 ≤ p) by (apply Z.div_le_upper_bound; lia).
  unfold CalcGasLimit, GasLimitBoundDivisor, MinGasLimit. rewrite (u64_small (p / 1024 - 1)) by (unfold is_u64; lia).
  rewrite !u64_small by (unfold is_u64; lia).
  destruct (d <? 5000) eqn:E5; zbool; destruct (p <? _) eqn:E1; zbool;
    [case_if|case_if; [case_if|]|case_if|case_if; [case_if|]]; lia.
Qed.

Lemma VerifyGaslimit_near p h : 0 ≤ p ≤ MaxGasLimit → MinGasLimit ≤ h ≤ MaxGasLimit →
  Z.abs (h - p) < p / GasLimitBoundDivisor → VerifyGaslimit p h = Ok tt.
Proof.
  unfold MinGasLimit, MaxGasLimit. intros Hp Hh Ha. unfold VerifyGaslimit, MinGasLimit.
  rewrite !(i64_small p), !(i64_small h), (i64_small (p - h)) by lia.
  assert (E : (if p - h <? 0 then i64 ((p - h) * -1) else p - h) = Z.abs (p - h)).
  { case_if; [rewrite i64_small by lia|]; lia. }
  rewrite E, u64_small by (unfold is_u64; lia). unfold guard_err. rewrite (proj2 (Z.leb_gt _ _)) by lia.
  cbn [mbind outcome_bind]. by rewrite (proj2 (Z.ltb_ge _ _)) by lia.
Qed.

Section AssembleLemmas.
Context {Tx Wd St Sg Eng : Type}.
Context (keccak : bytes → Z) (chain : MinerChain Tx Wd St) (MakeSigner : ChainConfig → option Z → Z → Sg).

Abbreviation Env := (environment Tx St Sg).

(** What makes a header a valid uncle of the block under construction. *)
Definition valid_uncle (env : Env) (hash : Z) (uncle : Header) : Prop :=
  hash = Header_Hash keccak uncle ∧ ParentHash uncle ≠ ParentHash (env_header env) ∧
  ParentHash uncle ∈ ancestors env ∧ hash ∉ family env.
Definition uncles_ok (env : Env) : Prop :=
  (base.size (env_uncles env) ≤ 2)%nat ∧ ∀ hash u, env_uncles env !! hash = Some u → valid_uncle env hash u.

(** Everything but the uncles stays. *)
Definition same_frame (env env' : Env) : Prop := env' = set_uncles (env_uncles env') env.

Lemma commitUncle_ok env uncle env' : commitUncle keccak chain env uncle = Ok env' →
  env' = set_uncles (<[Header_Hash keccak uncle := uncle]> (env_uncles env)) env ∧
  env_uncles env !! Header_Hash keccak uncle = None ∧ valid_uncle env (Header_Hash keccak uncle) uncle ∧
  isTTDReached chain (env_header env) = Ok false.
Proof.
  unfold commitUncle. intros H. inv_bind. zbool. simplify_eq. split; [done|]. split.
  - destruct (env_uncles env !! _) eqn:E; [|done]. exfalso. eauto.
  - unfold valid_uncle. naive_solver congruence.
Qed.

Lemma commitUncles_ok bs : ∀ env env', commitUncles keccak chain bs env = Ok env' → uncles_ok env →
  same_frame env env' ∧ uncles_ok env' ∧ env_uncles env ⊆ env_uncles env'.
Proof.
  induction bs as [|[h b] bs IH]; intros env env'; cbn.
  { intros [= <-] Ho. split; [by destruct env|]. done. }
  case_if; [intros [= <-] Ho; split; [by destruct env|]; done|].
  destruct (commitUncle keccak chain env (Block_Header b)) as [env1| |] eqn:E; [|by apply IH|done].
  intros H [Hs Ho]. apply commitUncle_ok in E as (-> & Hnew & Hv & _).
  destruct (IH _ _ H) as (Hf & Ho' & Hsub).
  { split; cbn.
    - rewrite map_size_insert_None by done. apply Nat.eqb_neq in Heqb0. lia.
    - intros hash u [[<- <-]|[_ Hl]]%lookup_insert_Some; [done|]. by apply Ho. }
  split; [by rewrite Hf|]. split; [done|]. cbn in Hsub. etrans; [|exact Hsub]. by apply insert_subseteq.
Qed.

Lemma foldl_ancestors (bs : list (Block Tx Wd)) : ∀ a f,
  (foldl (add_ancestor keccak) (a, f) bs).1 = list_to_set (map (Block_Hash keccak) bs) ∪ a ∧
  (foldl (add_ancestor keccak) (a, f) bs).2 =
    list_to_set (concat (map (fun b => Block_Hash keccak b :: map (Header_Hash keccak) (b_uncles b)) bs)) ∪ f.
Proof.
  induction bs as [|b bs IH]; intros a f; cbn [foldl map concat list_to_set]; [set_solver|].
  unfold add_ancestor at 2 4. cbn [fst snd].
  destruct (IH ({[Block_Hash keccak b]} ∪ a)
              ({[Block_Hash keccak b]} ∪ (list_to_set (map (Header_Hash keccak) (b_uncles b)) ∪ f))) as [-> ->].
  rewrite list_to_set_app_L. cbn [list_to_set]. set_solver.
Qed.
End AssembleLemmas.

(** Assigning other fields leaves the base fee. *)
Lemma BaseFee_set h : (∀ v, BaseFee (set_Time v h) = BaseFee h) ∧ (∀ v, BaseFee (set_MixDigest v h) = BaseFee h) ∧
  (∀ v, BaseFee (set_Extra v h) = BaseFee h) ∧ (∀ v, BaseFee (set_Difficulty v h) = BaseFee h) ∧
  (∀ v, BaseFee (set_Nonce v h) = BaseFee h) ∧ (∀ v, BaseFee (set_Coinbase v h) = BaseFee h).
Proof. by destruct h. Qed.

(** The stages of [prepareWork]. *)
Lemma prepareWork_ok {Tx Wd St Sg Eng} keccak (mc : MinerChain Tx Wd St) (MakeSigner : ChainConfig → option Z → Z → Sg)
    (prepare : Header → stm Eng cliqueError Header) order extra gasCeil local remote gp e env e' :
  prepareWork keccak mc MakeSigner prepare order extra gasCeil local remote gp e = (Ok env, e') →
  ∃ parent time draft env0,
    find_parent mc gp = Ok parent ∧ choose_time gp parent = Ok time ∧
    draft_header keccak mc extra gasCeil gp parent time = Ok draft ∧
    prepare draft e = (Ok (env_header env), e') ∧
    makeEnv keccak mc MakeSigner parent (env_header env) (gp_coinbase gp) = Ok env0 ∧ same_frame env0 env ∧
    uncles_ok keccak env ∧ (noUncle gp = true → env = env0).
Proof.
  unfold prepareWork. intros H.
  destruct (find_parent mc gp) as [parent| |] eqn:E1; [|done..]. cbn [mbind outcome_bind] in H.
  destruct (choose_time gp parent) as [time| |] eqn:E2; [|done..]. cbn [mbind outcome_bind] in H.
  destruct (draft_header keccak mc extra gasCeil gp parent time) as [draft| |] eqn:E3; [|done..]. cbn [mbind outcome_bind] in H.
  destruct (prepare draft e) as [[header| |] e1] eqn:E4; [|done..]. injection H as H <-.
  apply bind_ok in H as (env0 & E5 & H).
  assert (H0 : env_header env0 = header ∧ env_uncles env0 = ∅).
  { unfold makeEnv in E5. destruct (mc_StateAt mc _); [|done]. destruct (foldl _ _ _). by simplify_eq. }
  destruct H0 as [Hh Hu].
  assert (Hok : uncles_ok keccak env0).
  { split; rewrite Hu; [rewrite map_size_empty; lia|]. intros ? ? Hl. by rewrite lookup_empty in Hl. }
  assert (Hfr : same_frame env0 env ∧ uncles_ok keccak env ∧ (noUncle gp = true → env = env0)).
  { destruct (noUncle gp); [simplify_eq; split; [by destruct env|done]|].
    apply bind_ok in H as (env1 & H1 & H2).
    destruct (commitUncles_ok keccak mc _ _ _ H1 Hok) as (F1 & O1 & _).
    destruct (commitUncles_ok keccak mc _ _ _ H2 O1) as (F2 & O2 & _).
    split; [|done]. unfold same_frame in *. rewrite F2, F1. by destruct env0. }
  destruct Hfr as (F & O & HnU).
  assert (env_header env = header) as Eh by (rewrite F; destruct env0; exact Hh).
  exists parent, time, draft, env0. rewrite Eh. done.
Qed.

Lemma draft_header_ok {Tx Wd St} keccak (mc : MinerChain Tx Wd St) extra gasCeil gp parent time d n :
  draft_header keccak mc extra gasCeil gp parent time = Ok d → Number parent = Some n →
  let london := IsLondon (mc_config mc) (Some (n + 1)) in
  let base := if london && negb (IsLondon (mc_config mc) (Number parent))
              then u64 (GasLimit parent * ElasticityMultiplier) else GasLimit parent in
  Number d = Some (n + 1) ∧ ParentHash d = Header_Hash keccak parent ∧ Time d = time ∧
  GasLimit d = CalcGasLimit base gasCeil ∧
  if london then ∃ fee, CalcBaseFee (mc_config mc) parent = Ok fee ∧ BaseFee d = Some fee else BaseFee d = None.
Proof.
  unfold draft_header. intros H Hn. rewrite Hn in *. cbn [deref mbind outcome_bind] in H.
  destruct (IsLondon (mc_config mc) (Some (n + 1))); [|by simplify_eq].
  destruct (CalcBaseFee (mc_config mc) parent) as [fee| |]; [|done..].
  destruct (IsLondon (mc_config mc) (Some n)); simplify_eq; cbn; eauto 8.
Qed.

(** Preparing a header leaves its base fee. *)
Lemma Prepare_BaseFee keccak Ecrecover {DB RC SC} {LR : CacheLaws RC Z Snapshot} {LS : CacheLaws SC Z Z}
    (st : Storage DB) chain (c c' : Engine DB RC SC) now pick header h :
  Prepare keccak Ecrecover st chain now pick header c = (Ok h, c') → BaseFee h = BaseFee header.
Proof.
  unfold Prepare. cbv zeta. intros H. do 7 (apply stm_bind_ok in H as (? & ? & _ & H)).
  destruct (GetHeader chain _ _) as [parent|]; [|done]. unfold mret, stm_ret in H.
  match type of H with (Ok ?x, _) = _ => assert (h = x) as -> by congruence end. clear H.
  rewrite (proj1 (BaseFee_set _)), (proj1 (proj2 (BaseFee_set _))), (proj1 (proj2 (proj2 (BaseFee_set _)))),
    (proj1 (proj2 (proj2 (proj2 (BaseFee_set _))))).
  destruct header. destruct (negb _); [|done]. by destruct (choose_vote _ _ _) as [[? ?]|].
Qed.

(** ** Properties *)

(** C28. What [prepareWork] prepares, the engine's verification accepts. On a
    chain whose parent block has a gas limit in the protocol's range (at most
    half of the maximum for the first London block, which doubles it) and with a
    gas ceiling of at most the maximum, the header built on the parent for the Clique engine follows it by one,
    and every header with its parent, number, time, gas limit and base fee
    and with gas used within the limit passes the checks of
    [verifyCascadingFields] against the parent: time, gas limit and base fee
    included. *)
Theorem prepareWork_verifies keccak Ecrecover {DB RC SC Tx Wd St Sg} {LR : CacheLaws RC Z Snapshot} {LS : CacheLaws SC Z Z}
    (st : Storage DB) (hc : ChainHeaderReader) (mc : MinerChain Tx Wd St) (MakeSigner : ChainConfig → option Z → Z → Sg)
    order now pick extra gasCeil local remote gp (c c' : Engine DB RC SC) env parent n :
  prepareWork keccak mc MakeSigner (Prepare keccak Ecrecover st hc now pick) order extra gasCeil local remote gp c = (Ok env, c') →
  find_parent mc gp = Ok parent → mc_config mc = ch_Config hc →
  Number parent = Some n → 0 ≤ n < 2 ^ 64 - 1 → GetHeader hc (Header_Hash keccak parent) n = Some parent →
  (let doubled := IsLondon (mc_config mc) (Some (n + 1)) && negb (IsLondon (mc_config mc) (Number parent)) in
   MinGasLimit ≤ GasLimit parent ≤ if doubled then MaxGasLimit / 2 else MaxGasLimit) → 0 ≤ gasCeil ≤ MaxGasLimit →
  let header := env_header env in
  Number header = Some (n + 1) ∧ MinGasLimit ≤ GasLimit header ≤ MaxGasLimit ∧
  ∀ h, ParentHash h = ParentHash header → Number h = Number header → Time h = Time header →
    GasLimit h = GasLimit header → BaseFee h = BaseFee header → GasUsed h ≤ GasLimit h →
    verify_parent keccak hc (e_config c) (Some parent) h (n + 1) = Ok tt.
Proof.
  intros H Hfp Hcfg Hn Hnr Hget Hgl Hgc. cbv zeta.
  destruct (prepareWork_ok _ _ _ _ _ _ _ _ _ _ _ _ _ H) as (p & time & draft & env0 & Hp & _ & Hd & Hprep & _).
  rewrite Hfp in Hp. injection Hp as <-.
  destruct (draft_header_ok _ _ _ _ _ _ _ _ n Hd Hn) as (D1 & D2 & _ & D4 & D5).
  destruct (Prepare_ok _ _ _ _ _ _ _ _ _ _ _ Hprep D1) as (_ & snap & c1 & dif & p2 & _ & _ & Hg & P1 & P2 & _ & P4 & _ & _ & _ & P8 & _).
  pose proof (Prepare_BaseFee _ _ _ _ _ _ _ _ _ _ Hprep) as P9.
  assert (En : u64 (big_Uint64 (n + 1) - 1) = n).
  { rewrite big_Uint64_small by (unfold is_u64; lia). rewrite u64_small by (unfold is_u64; lia). lia. }
  rewrite D2, En, Hget in Hg. injection Hg as <-. rewrite D1 in P1. rewrite D2 in P2.
  set (london := IsLondon (mc_config mc) (Some (n + 1))) in *.
  set (base := if london && _ then _ else _) in D4.
  assert (Hbase : MinGasLimit ≤ base ≤ MaxGasLimit).
  { cbv zeta in Hgl. fold london in Hgl. unfold base, ElasticityMultiplier, MinGasLimit, MaxGasLimit in *.
    change (0x7fffffffffffffff / 2) with (2 ^ 62 - 1) in Hgl. case_if; [rewrite u64_small by (unfold is_u64; lia)|]; lia. }
  destruct (CalcGasLimit_bounds base gasCeil Hbase Hgc) as (B1 & B2 & _). rewrite <- D4, <- P4 in B1, B2.
  split_and!; [done|lia|lia|]. intros h E1 E2 E3 E4 E5 Hgu.
  assert (Hnear : VerifyGaslimit base (GasLimit h) = Ok tt) by (rewrite E4; apply VerifyGaslimit_near; unfold MinGasLimit in *; lia).
  unfold verify_parent. cbn [mbind outcome_bind]. unfold Number_Uint64. rewrite Hn. cbn [deref fmap outcome_fmap].
  rewrite E1, E2, E3, P1, P2, Z.eqb_refl, (big_Uint64_small n) by (unfold is_u64; lia).
  replace (u64 (n + 1 - 1)) with n by (rewrite u64_small; [lia|unfold is_u64; lia]). cbn [mbind outcome_bind]. rewrite Z.eqb_refl. cbn [negb orb guard_err mbind outcome_bind].
  rewrite (proj2 (Z.ltb_ge _ _) P8), (proj2 (Z.ltb_ge _ _) Hgu). cbn [guard_err mbind outcome_bind].
  rewrite <- Hcfg. fold london. rewrite E5, P9. unfold base in Hnear. destruct london; cbn [negb].
  - destruct D5 as (fee & Hfee & Hbf). unfold VerifyEip1559Header. cbn [andb] in Hnear. rewrite Hnear, E5, P9, Hbf, Hfee.
    cbn [mbind outcome_bind]. by rewrite Z.eqb_refl.
  - rewrite D5. cbn [andb] in Hnear. by rewrite Hnear.
Qed.

(** The environment [prepareWork] returns, for any engine and any order in
    which the possible uncles are visited: the header is the one the engine
    prepared; ancestors are the blocks of the parent's line the chain returned,
    family those and their uncles; there are at most two uncles, none when
    they are not allowed, each under its own hash, child of an ancestor other
    than the parent and neither ancestor nor already included. *)
Theorem prepareWork_uncles {Tx Wd St Sg Eng} keccak (mc : MinerChain Tx Wd St) (MakeSigner : ChainConfig → option Z → Z → Sg)
    (prepare : Header → stm Eng cliqueError Header) order extra gasCeil local remote gp e env e' parent :
  prepareWork keccak mc MakeSigner prepare order extra gasCeil local remote gp e = (Ok env, e') →
  find_parent mc gp = Ok parent →
  let line := mc_GetBlocksFromHash mc (Header_Hash keccak parent) 7 in
  ancestors env = list_to_set (map (Block_Hash keccak) line) ∧
  family env = list_to_set (concat (map (fun b => Block_Hash keccak b :: map (Header_Hash keccak) (b_uncles b)) line)) ∧
  (length (unclelist env) ≤ 2)%nat ∧ (noUncle gp = true → unclelist env = []) ∧
  ∀ u, u ∈ unclelist env →
    ParentHash u ∈ ancestors env ∧ ParentHash u ≠ ParentHash (env_header env) ∧ Header_Hash keccak u ∉ family env.
Proof.
  intros H Hfp. cbv zeta.
  destruct (prepareWork_ok _ _ _ _ _ _ _ _ _ _ _ _ _ H) as (p & time & draft & env0 & Hp & _ & _ & _ & Hm & Hf & [Hs Ho] & Hnu).
  rewrite Hfp in Hp. injection Hp as <-.
  set (line := mc_GetBlocksFromHash mc (Header_Hash keccak parent) 7) in *.
  assert (Ha : ancestors env0 = list_to_set (map (Block_Hash keccak) line) ∧ env_uncles env0 = ∅ ∧
    family env0 = list_to_set (concat (map (fun b => Block_Hash keccak b :: map (Header_Hash keccak) (b_uncles b)) line))).
  { unfold makeEnv in Hm. destruct (mc_StateAt mc _); [|done]. fold line in Hm.
    pose proof (foldl_ancestors keccak line ∅ ∅) as [F1 F2]. destruct (foldl _ _ line) as [a f]. cbn in F1, F2.
    simplify_eq. cbn. split_and!; set_solver. }
  destruct Ha as (Ha & Hu & Hfa). unfold unclelist. rewrite length_fmap, length_map_to_list.
  split_and!; try done.
  - rewrite Hf. by destruct env0.
  - rewrite Hf. by destruct env0.
  - intros Hn. rewrite (Hnu Hn), Hu. by rewrite map_to_list_empty.
  - intros u ([h u'] & -> & Hin%elem_of_map_to_list)%list_elem_of_fmap. cbn.
    destruct (Ho _ _ Hin) as (-> & ? & ? & ?). done.
Qed.

(** ** Witnesses on the toy chain *)

Definition toy_miner (current : Header) (line : list Header) : MinerChain unit unit unit :=
  mkMinerChain _ _ _ no_forks current (fun _ => None) (fun _ _ => map (fun h => mkBlock h [] [] None) line)
    (fun _ => Some tt) (fun _ _ => None).
Definition toy_params : generateParams unit := mkParams 100 false 0 7 0 None false false.
Definition toy_uncle : Block unit unit := mkBlock (chain_header (Header_Hash toy_keccak toy_g) 1 16 [] 12 1 None) [] [] None.
Definition toy_uncles : gmap Z (Block unit unit) :=
  {[Block_Hash toy_keccak toy_uncle := toy_uncle; 5 := mkBlock toy_b3 [] [] None]}.

Lemma prepareWork_verifies_witness :
  ∃ h, verify_parent toy_keccak (toy_chain [toy_g]) (e_config toy_engine) (Some toy_g) h 1 = Ok tt ∧
       GasLimit h = 5003 ∧ Number h = Some 1.
Proof.
  destruct (prepareWork toy_keccak (toy_miner toy_g [toy_g]) (fun _ _ _ => tt)
    (Prepare toy_keccak toy_Ecrecover toy_storage (toy_chain [toy_g]) 100 0) (fun l => l) [z2b 1] 30000000 ∅ ∅ toy_params toy_engine)
    as [r c'] eqn:E.
  assert (Hr : (env_header <$> r) = Ok (mkHeader (Header_Hash toy_keccak toy_g) 0 0 0 0 0 0 (Some 1) (Some 1) 5003 0 100
    (z2b 1 :: replicate 96 (z2b 0)) 0 0 None None None)) by (change r with (r, c').1; rewrite <- E; vm_compute; reflexivity).
  destruct r as [env| |]; [|discriminate..].
  destruct (prepareWork_verifies toy_keccak toy_Ecrecover toy_storage (toy_chain [toy_g]) (toy_miner toy_g [toy_g])
    (fun _ _ _ => tt) (fun l => l) 100 0 [z2b 1] 30000000 ∅ ∅ toy_params toy_engine c' env toy_g 0 E) as (Hn & _ & Hv);
    [reflexivity | reflexivity | reflexivity | lia | vm_compute; reflexivity | vm_compute; split; discriminate
    | vm_compute; split; discriminate |].
  cbn [fmap outcome_fmap] in Hr. injection Hr as Hh.
  exists (env_header env). split; [apply Hv; try reflexivity|]; rewrite Hh; [vm_compute; discriminate|split; reflexivity].
Defined.

Lemma prepareWork_uncles_witness :
  ∃ env e', prepareWork toy_keccak (toy_miner toy_b1 [toy_b1; toy_g]) (fun _ _ _ => tt) (fun h (e : unit) => (Ok h, e))
      (fun l => l) [] 30000000 ∅ toy_uncles toy_params tt = (Ok env, e') ∧
    unclelist env = [b_header toy_uncle] ∧ ∀ u, u ∈ unclelist env → ParentHash u ∈ ancestors env.
Proof.
  destruct (prepareWork toy_keccak (toy_miner toy_b1 [toy_b1; toy_g]) (fun _ _ _ => tt) (fun h (e : unit) => (Ok h, e))
      (fun l => l) [] 30000000 ∅ toy_uncles toy_params tt) as [r e'] eqn:E.
  assert (Hr : (unclelist <$> r) = Ok [b_header toy_uncle]) by (change r with (r, e').1; rewrite <- E; vm_compute; reflexivity).
  destruct r as [env| |]; [|discriminate..]. exists env, e'. split; [reflexivity|].
  split; [cbn [fmap outcome_fmap] in Hr; congruence|].
  destruct (prepareWork_uncles toy_keccak (toy_miner toy_b1 [toy_b1; toy_g]) (fun _ _ _ => tt) (fun h (e : unit) => (Ok h, e))
    (fun l => l) [] 30000000 ∅ toy_uncles toy_params tt env e' toy_b1 E eq_refl) as (_ & _ & _ & _ & H).
  intros u Hu. exact (proj1 (H u Hu)).
Defined.
