(* ===== verification/StateTransition.v ===== *)
(** Applying transactions: [gaspool.go], [state_transition.go],
    [state_processor.go] and the contexts of [evm.go] of
    [src/go-ethereum/core].

    The state database and the interpreter are used through the interfaces
    [StateDB] and [EVM]: what the state transition calls of them, and the
    promises its correctness rests on ([StateDBLaws], [EVMLaws]).  The state
    is passed explicitly and survives an error, as the Go objects do: a caller
    that wants the old state back has to revert. *)

From S2P Require Import Prelude RLP RLPDecode Types HeaderRLP Receipts Config Fees Transactions Signing.

(** ** The gas pool *)

Inductive coreError :=
| ErrGasLimitReached | ErrGasUintOverflow | ErrIntrinsicGas (have want : Z)
| ErrNonceTooHigh | ErrNonceTooLow | ErrNonceMax | ErrSenderNoEOA
| ErrFeeCapVeryHigh | ErrTipVeryHigh | ErrTipAboveFeeCap | ErrFeeCapTooLow
| ErrInsufficientFunds (have want : Z) | ErrInsufficientFundsForTransfer | ErrMaxInitCodeSizeExceeded
| signatureError (e : signError) | withdrawalsBeforeShanghai.

#[global] Instance signError_eq_dec : EqDecision signError.
Proof. solve_decision. Defined.
#[global] Instance coreError_eq_dec : EqDecision coreError.
Proof. solve_decision. Defined.

Definition AddGas (gp amount : Z) : outcome coreError Z :=
  if MaxUint64 - amount <? gp then Panic else Ok (u64 (gp + amount)).
Definition SubGas (gp amount : Z) : outcome coreError Z :=
  if gp <? amount then Err ErrGasLimitReached else Ok (u64 (gp - amount)).

(** ** Intrinsic gas *)

Definition TxGas : Z := 21000.
Definition TxGasContractCreation : Z := 53000.
Definition TxDataZeroGas : Z := 4.
Definition TxDataNonZeroGasFrontier : Z := 68.
Definition TxDataNonZeroGasEIP2028 : Z := 16.
Definition InitCodeWordGas : Z := 2.
Definition TxAccessListAddressGas : Z := 2400.
Definition TxAccessListStorageKeyGas : Z := 1900.
Definition RefundQuotient : Z := 2.
Definition RefundQuotientEIP3529 : Z := 5.
Definition MaxInitCodeSize : Z := 2 * 24576.

Definition toWordSize (size : Z) : Z :=
  if MaxUint64 - 31 <? size then MaxUint64 / 32 + 1 else (size + 31) / 32.

(** The loop that counts the non-zero bytes. *)
Definition count_nz (data : bytes) : Z := foldl (fun nz b => if negb (b2z b =? 0) then u64 (nz + 1) else nz) 0 data.

(** [gas += n * price], guarded against overflow. *)
Definition add_guarded (gas n price : Z) : outcome coreError Z :=
  _ ← guard_err ((MaxUint64 - gas) / price <? n) ErrGasUintOverflow;
  Ok (u64 (gas + u64 (n * price))).

(** The price of the data and of the init code on top of the base. *)
Definition data_gas (data : bytes) (isContractCreation isEIP2028 isEIP3860 : bool) (gas : Z) : outcome coreError Z :=
  let dataLen := zlen data in
  if 0 <? dataLen then
    let nz := count_nz data in
    let nonZeroGas := if isEIP2028 then TxDataNonZeroGasEIP2028 else TxDataNonZeroGasFrontier in
    gas ← add_guarded gas nz nonZeroGas;
    let z := u64 (dataLen - nz) in
    gas ← add_guarded gas z TxDataZeroGas;
    if isContractCreation && isEIP3860 then add_guarded gas (toWordSize dataLen) InitCodeWordGas else Ok gas
  else Ok gas.

Definition IntrinsicGas (data : bytes) (accessList : list AccessTuple) (isContractCreation isHomestead isEIP2028 isEIP3860 : bool)
    : outcome coreError Z :=
  let gas := if isContractCreation && isHomestead then TxGasContractCreation else TxGas in
  gas ← data_gas data isContractCreation isEIP2028 isEIP3860 gas;
  let gas := u64 (gas + u64 (zlen accessList * TxAccessListAddressGas)) in
  Ok (u64 (gas + u64 (StorageKeys accessList * TxAccessListStorageKeyGas))).

(** ** Messages *)

Record Message := mkMessage {
  m_To : option Z;
  m_From : Z;
  m_Nonce : Z;
  m_Value : Z;
  m_GasLimit : Z;
  m_GasPrice : Z;
  m_GasFeeCap : Z;
  m_GasTipCap : Z;
  m_Data : bytes;
  m_AccessList : list AccessTuple;
  m_SkipAccountChecks : bool
}.

Definition TransactionToMessage (sender : TxData → outcome signError Z) (tx : TxData) (baseFee : option Z) : outcome coreError Message :=
  let price := match baseFee with
               | Some baseFee => BigMin (gasTipCap tx + baseFee) (gasFeeCap tx)
               | None => gasPrice tx
               end in
  match sender tx with
  | Ok from => Ok (mkMessage (tx_to tx) from (nonce tx) (tx_value tx) (gas tx) price (gasFeeCap tx) (gasTipCap tx)
                     (tx_data tx) (accessList tx) false)
  | Err e => Err (signatureError e)
  | Panic => Panic
  end.

(** ** Contexts *)

(** [ChainContext]: the engine's [Author], and the headers of the chain. *)
Record ChainContext (E : Type) := mkChainContext {
  Engine_Author : Header → outcome E Z;
  chain_GetHeader : Z → Z → option Header
}.
Arguments mkChainContext {E}.
Arguments Engine_Author {E}.
Arguments chain_GetHeader {E}.

(** The loop of the closure [GetHashFn] returns; [None] when the fuel runs
    out, [Panic] for a header without number. *)
Fixpoint GetHash_loop {E} (chain : ChainContext E) (fuel : nat) (n lastKnownHash lastKnownNumber : Z) (cache : list Z)
    : option (outcome Empty_set (Z * list Z)) :=
  match fuel with
  | O => None
  | S fuel =>
      match chain_GetHeader chain lastKnownHash lastKnownNumber with
      | None => Some (Ok (0, cache))
      | Some header =>
          match Number header with
          | None => Some Panic
          | Some number =>
              let cache := cache ++ [ParentHash header] in
              let lastKnownHash := ParentHash header in
              let lastKnownNumber := u64 (big_Uint64 number - 1) in
              if n =? lastKnownNumber then Some (Ok (lastKnownHash, cache))
              else GetHash_loop chain fuel n lastKnownHash lastKnownNumber cache
          end
      end
  end.

(** One call of the closure: [cache] is the variable it captures. *)
Definition GetHash_call {E} (ref : Header) (chain : ChainContext E) (n : Z) (cache : list Z)
    : option (outcome Empty_set (Z * list Z)) :=
  match Number ref with
  | None => Some Panic
  | Some number =>
      let number := big_Uint64 number in
      if number <=? n then Some (Ok (0, cache))
      else
        let cache := match cache with [] => [ParentHash ref] | _ => cache end in
        let idx := u64 (u64 (number - n) - 1) in
        if idx <? zlen cache then Some (h ← deref (cache !! Z.to_nat idx); Ok (h, cache))
        else GetHash_loop chain (Z.to_nat (number - n)) n (default 0 (list.last cache)) (u64 (number - zlen cache)) cache
  end.

(** [GetHashFn] as the function it computes, the answer of a call with no
    cache; [GetHashFn_correct] below shows that on a chain that returns the
    header of the number it is asked for, every call returns and the cache is
    not observable. *)
Definition GetHashFn {E} (ref : Header) (chain : ChainContext E) (n : Z) : Z :=
  match GetHash_call ref chain n [] with Some (Ok (h, _)) => h | _ => 0 end.

Record BlockContext := mkBlockContext {
  bc_GetHash : Z → Z;
  bc_Coinbase : Z;
  bc_BlockNumber : Z;
  bc_Time : Z;
  bc_Difficulty : Z;
  bc_BaseFee : option Z;
  bc_GasLimit : Z;
  bc_Random : option Z
}.

(** [CanTransfer] and [Transfer] are not fields: the context always holds the
    two functions of core/evm.go, which the model of the EVM calls directly. *)
Definition NewEVMBlockContext {E} (header : Header) (chain : ChainContext E) (author : option Z)
    : outcome coreError BlockContext :=
  let beneficiary := match author with Some a => a | None => from_ok 0 (Engine_Author chain header) end in
  difficulty ← deref (Difficulty header);
  number ← deref (Number header);
  Ok (mkBlockContext (GetHashFn header chain) beneficiary number (Time header) difficulty (BaseFee header) (GasLimit header)
        (if difficulty =? 0 then Some (MixDigest header) else None)).

Record evmEnv := mkEvmEnv {
  e_config : ChainConfig;
  e_block : BlockContext;
  e_Origin : Z;
  e_GasPrice : Z;
  e_NoBaseFee : bool
}.

(** ** The state database and the interpreter *)

Class StateDB (DB : Type) := {
  GetBalance : DB → Z → Z;
  AddBalance : Z → Z → DB → DB;
  SubBalance : Z → Z → DB → DB;
  GetNonce : DB → Z → Z;
  SetNonce : Z → Z → DB → DB;
  GetCodeHash : DB → Z → Z;
  GetRefund : DB → Z;
  Prepare : RulesT → Z → Z → option Z → list AccessTuple → DB → DB;
  SetTxContext : Z → Z → DB → DB;
  TxIndex : DB → Z;
  GetLogs : DB → Z → Z → Z → list Log * DB;
  Finalise : bool → DB → DB;
  IntermediateRoot : bool → DB → Z * DB;
  Snapshot : DB → Z * DB;
  RevertToSnapshot : Z → DB → DB
}.

(** Returned data, gas left and whether there was an error. *)
Record vmResult := mkVm { v_ret : bytes; v_gas : Z; v_failed : bool }.
Class EVM (DB : Type) := {
  evm_Create : evmEnv → Z → bytes → Z → Z → DB → vmResult * DB;
  evm_Call : evmEnv → Z → Z → bytes → Z → Z → DB → vmResult * DB
}.

(** No account is in debt. *)
Definition solvent {DB} `{!StateDB DB} (db : DB) : Prop := ∀ a, 0 ≤ GetBalance db a.

(** What the state database promises.  [sim] relates databases nobody can tell
    apart by reading and that will go on alike; a database is in order when it
    is related to itself.  The block that logs carry does not count: it is
    written by whoever reads them.  [supply] is the sum of the balances;
    finalising a transaction deletes destructed accounts with what they
    hold. *)
Class StateDBLaws (DB : Type) `{!StateDB DB} := {
  sim : relation DB;
  sim_sym db db' : sim db db' → sim db' db;
  sim_trans db1 db2 db3 : sim db1 db2 → sim db2 db3 → sim db1 db3;
  sim_GetBalance db db' a : sim db db' → GetBalance db a = GetBalance db' a;
  sim_GetNonce db db' a : sim db db' → GetNonce db a = GetNonce db' a;
  sim_GetCodeHash db db' a : sim db db' → GetCodeHash db a = GetCodeHash db' a;
  sim_GetRefund db db' : sim db db' → GetRefund db = GetRefund db';
  sim_TxIndex db db' : sim db db' → TxIndex db = TxIndex db';
  sim_GetLogs db db' h n bh : sim db db' → (GetLogs db h n bh).1 = (GetLogs db' h n bh).1;
  sim_AddBalance a n db db' : sim db db' → sim (AddBalance a n db) (AddBalance a n db');
  sim_SubBalance a n db db' : sim db db' → sim (SubBalance a n db) (SubBalance a n db');
  sim_SetNonce a n db db' : sim db db' → sim (SetNonce a n db) (SetNonce a n db');
  sim_Prepare r f c t al db db' : sim db db' → sim (Prepare r f c t al db) (Prepare r f c t al db');
  sim_SetTxContext h i db db' : sim db db' → sim (SetTxContext h i db) (SetTxContext h i db');
  sim_Finalise b db db' : sim db db' → sim (Finalise b db) (Finalise b db');
  IntermediateRoot_ok b db : sim db db → sim (IntermediateRoot b db).2 (IntermediateRoot b db).2;
  SetTxContext_twice h i h' i' db : sim db db → sim (SetTxContext h i (SetTxContext h' i' db)) (SetTxContext h i db);
  GetLogs_keeps db h n bh : sim db db → sim (GetLogs db h n bh).2 db;
  GetLogs_located db h n bh n' bh' : sim db db → map (locate n' bh') (GetLogs db h n bh).1 = (GetLogs db h n' bh').1;
  Snapshot_keeps db : sim db db → sim (Snapshot db).2 db;
  Revert_nothing db : sim db db → sim (RevertToSnapshot (Snapshot db).1 (Snapshot db).2) db;
  Revert_SubBalance a n db : sim db db → sim (RevertToSnapshot (Snapshot db).1 (SubBalance a n (Snapshot db).2)) db;
  GetRefund_u64 db : sim db db → is_u64 (GetRefund db);
  balance_Add a n db b : sim db db → GetBalance (AddBalance a n db) b = GetBalance db b + (if b =? a then n else 0);
  balance_Sub a n db b : sim db db → GetBalance (SubBalance a n db) b = GetBalance db b - (if b =? a then n else 0);
  balance_SetNonce a n db b : sim db db → GetBalance (SetNonce a n db) b = GetBalance db b;
  balance_Prepare r f c t al db b : sim db db → GetBalance (Prepare r f c t al db) b = GetBalance db b;
  balance_SetTxContext h i db b : sim db db → GetBalance (SetTxContext h i db) b = GetBalance db b;
  balance_Finalise d db b : sim db db → GetBalance (Finalise d db) b = GetBalance db b ∨ GetBalance (Finalise d db) b = 0;
  balance_IntermediateRoot d db b : sim db db →
    GetBalance (IntermediateRoot d db).2 b = GetBalance db b ∨ GetBalance (IntermediateRoot d db).2 b = 0;
  supply : DB → Z;
  supply_sim db db' : sim db db' → supply db = supply db';
  supply_Add a n db : sim db db → supply (AddBalance a n db) = supply db + n;
  supply_Sub a n db : sim db db → supply (SubBalance a n db) = supply db - n;
  supply_SetNonce a n db : sim db db → supply (SetNonce a n db) = supply db;
  supply_Prepare r f c t al db : sim db db → supply (Prepare r f c t al db) = supply db;
  supply_SetTxContext h i db : sim db db → supply (SetTxContext h i db) = supply db;
  supply_Finalise b db : sim db db → solvent db → supply (Finalise b db) ≤ supply db;
  supply_IntermediateRoot b db : sim db db → solvent db → supply (IntermediateRoot b db).2 ≤ supply db
}.

(** In order and solvent. *)
Definition good {DB} `{!StateDB DB} `{!StateDBLaws DB} (db : DB) : Prop := sim db db ∧ solvent db.

(** The interpreter never returns more gas than it was given, never creates
    ether (it may destroy some), leaves no account in debt, and depends only
    on what it reads. *)
Class EVMLaws (DB : Type) `{!StateDB DB} `{!StateDBLaws DB} `{!EVM DB} : Prop := {
  Create_gas env f d g v db : sim db db → 0 ≤ g → 0 ≤ v_gas (evm_Create env f d g v db).1 ≤ g;
  Call_gas env f t d g v db : sim db db → 0 ≤ g → 0 ≤ v_gas (evm_Call env f t d g v db).1 ≤ g;
  Create_sim env f d g v db db' : sim db db' →
    (evm_Create env f d g v db).1 = (evm_Create env f d g v db').1 ∧ sim (evm_Create env f d g v db).2 (evm_Create env f d g v db').2;
  Call_sim env f t d g v db db' : sim db db' →
    (evm_Call env f t d g v db).1 = (evm_Call env f t d g v db').1 ∧ sim (evm_Call env f t d g v db).2 (evm_Call env f t d g v db').2;
  Create_supply env f d g v db : good db → 0 ≤ v → solvent (evm_Create env f d g v db).2 ∧ supply (evm_Create env f d g v db).2 ≤ supply db;
  Call_supply env f t d g v db : good db → 0 ≤ v → solvent (evm_Call env f t d g v db).2 ∧ supply (evm_Call env f t d g v db).2 ≤ supply db
}.

(** ** The state transition *)

Section Transition.
Context {DB : Type} `{!StateDB DB} `{!EVM DB}.
Context (EmptyCodeHash : Z).

Record ST := mkST {
  st_gp : Z;
  gasRemaining : Z;
  initialGas : Z;
  st_state : DB
}.

(** State passing with errors; the state survives the error. *)
Definition trans (A : Type) : Type := ST → outcome coreError A * ST.
#[global] Instance trans_ret : MRet trans := fun A a st => (Ok a, st).
#[global] Instance trans_bind : MBind trans := fun A B f m st =>
  match m st with
  | (Ok a, st) => f a st
  | (Err e, st) => (Err e, st)
  | (Panic, st) => (Panic, st)
  end.
Definition lift {A} (o : outcome coreError A) : trans A := fun st => (o, st).
Definition gets {A} (f : ST → A) : trans A := fun st => (Ok (f st), st).
Definition modify (f : ST → ST) : trans unit := fun st => (Ok tt, f st).
Definition with_db (f : DB → DB) (st : ST) : ST := mkST (st_gp st) (gasRemaining st) (initialGas st) (f (st_state st)).
Definition with_gp (gp : Z) (st : ST) : ST := mkST gp (gasRemaining st) (initialGas st) (st_state st).
Definition with_gas (g : Z) (st : ST) : ST := mkST (st_gp st) g (initialGas st) (st_state st).
Definition with_initial (g : Z) (st : ST) : ST := mkST (st_gp st) (gasRemaining st) g (st_state st).

Definition gasUsed (st : ST) : Z := u64 (initialGas st - gasRemaining st).

Context (env : evmEnv) (msg : Message).

Definition buyGas : trans unit :=
  let mgval := m_GasLimit msg * m_GasPrice msg in
  let balanceCheck := m_GasLimit msg * m_GasFeeCap msg + m_Value msg in
  have ← gets (fun st => GetBalance (st_state st) (m_From msg));
  _ ← lift (guard_err (have <? balanceCheck) (ErrInsufficientFunds have balanceCheck));
  gp ← gets st_gp;
  gp ← lift (SubGas gp (m_GasLimit msg));
  _ ← modify (with_gp gp);
  remaining ← gets gasRemaining;
  _ ← modify (with_gas (u64 (remaining + m_GasLimit msg)));
  _ ← modify (with_initial (m_GasLimit msg));
  modify (with_db (SubBalance (m_From msg) mgval)).

Definition preCheck : trans unit :=
  _ ← (if negb (m_SkipAccountChecks msg) then
         stNonce ← gets (fun st => GetNonce (st_state st) (m_From msg));
         _ ← lift (if stNonce <? m_Nonce msg then Err ErrNonceTooHigh
                   else if m_Nonce msg <? stNonce then Err ErrNonceTooLow
                   else guard_err (u64 (stNonce + 1) <? stNonce) ErrNonceMax);
         codeHash ← gets (fun st => GetCodeHash (st_state st) (m_From msg));
         lift (guard_err (negb (codeHash =? 0) && negb (codeHash =? EmptyCodeHash)) ErrSenderNoEOA)
       else mret tt);
  _ ← (if IsLondon (e_config env) (Some (bc_BlockNumber (e_block env)))
          && (negb (e_NoBaseFee env) || (0 <? big_BitLen (m_GasFeeCap msg)) || (0 <? big_BitLen (m_GasTipCap msg))) then
         _ ← lift (guard_err (256 <? big_BitLen (m_GasFeeCap msg)) ErrFeeCapVeryHigh);
         _ ← lift (guard_err (256 <? big_BitLen (m_GasTipCap msg)) ErrTipVeryHigh);
         _ ← lift (guard_err (m_GasFeeCap msg <? m_GasTipCap msg) ErrTipAboveFeeCap);
         baseFee ← lift (deref (bc_BaseFee (e_block env)));
         lift (guard_err (m_GasFeeCap msg <? baseFee) ErrFeeCapTooLow)
       else mret tt);
  buyGas.

Definition refundGas (refundQuotient : Z) : trans unit :=
  used ← gets gasUsed;
  counter ← gets (fun st => GetRefund (st_state st));
  let refund := used / refundQuotient in
  let refund := if counter <? refund then counter else refund in
  remaining ← gets gasRemaining;
  _ ← modify (with_gas (u64 (remaining + refund)));
  remaining ← gets gasRemaining;
  _ ← modify (with_db (AddBalance (m_From msg) (remaining * m_GasPrice msg)));
  gp ← gets st_gp;
  gp ← lift (AddGas gp remaining);
  modify (with_gp gp).

Record ExecutionResult := mkExec { UsedGas : Z; x_Failed : bool; ReturnData : bytes }.

(** [evm.Create] and [evm.Call] on the state of the transition. *)
Definition run_evm (f : Z → DB → vmResult * DB) : trans vmResult := fun st =>
  let '(r, db) := f (gasRemaining st) (st_state st) in
  (Ok r, with_gas (v_gas r) (with_db (fun _ => db) st)).

Definition execute : trans vmResult :=
  match m_To msg with
  | None => run_evm (fun g => evm_Create env (m_From msg) (m_Data msg) g (m_Value msg))
  | Some to =>
      _ ← modify (with_db (fun db => SetNonce (m_From msg) (u64 (GetNonce db (m_From msg) + 1)) db));
      run_evm (fun g => evm_Call env (m_From msg) to (m_Data msg) g (m_Value msg))
  end.

Definition CanTransfer (db : DB) (addr amount : Z) : bool := amount <=? GetBalance db addr.

Definition TransitionDb : trans ExecutionResult :=
  _ ← preCheck;
  let rules := Rules (e_config env) (Some (bc_BlockNumber (e_block env))) (bool_decide (is_Some (bc_Random (e_block env))))
                 (bc_Time (e_block env)) in
  let contractCreation := match m_To msg with None => true | Some _ => false end in
  gas ← lift (IntrinsicGas (m_Data msg) (m_AccessList msg) contractCreation (r_IsHomestead rules) (r_IsIstanbul rules)
                (r_IsShanghai rules));
  remaining ← gets gasRemaining;
  _ ← lift (guard_err (remaining <? gas) (ErrIntrinsicGas remaining gas));
  _ ← modify (with_gas (u64 (remaining - gas)));
  can ← gets (fun st => CanTransfer (st_state st) (m_From msg) (m_Value msg));
  _ ← lift (guard_err ((0 <? m_Value msg) && negb can) ErrInsufficientFundsForTransfer);
  _ ← lift (guard_err (r_IsShanghai rules && contractCreation && (MaxInitCodeSize <? zlen (m_Data msg))) ErrMaxInitCodeSizeExceeded);
  _ ← modify (with_db (Prepare rules (m_From msg) (bc_Coinbase (e_block env)) (m_To msg) (m_AccessList msg)));
  r ← execute;
  _ ← refundGas (if negb (r_IsLondon rules) then RefundQuotient else RefundQuotientEIP3529);
  effectiveTip ← lift (if r_IsLondon rules
                       then baseFee ← deref (bc_BaseFee (e_block env));
                            Ok (BigMin (m_GasTipCap msg) (m_GasFeeCap msg - baseFee))
                       else Ok (m_GasPrice msg));
  used ← gets gasUsed;
  _ ← (if e_NoBaseFee env && (m_GasFeeCap msg =? 0) && (m_GasTipCap msg =? 0) then mret tt
       else modify (with_db (AddBalance (bc_Coinbase (e_block env)) (used * effectiveTip))));
  used ← gets gasUsed;
  mret (mkExec used (v_failed r) (v_ret r)).
End Transition.
Arguments ST : clear implicits.
Arguments trans : clear implicits.

(** [ApplyMessage]: the gas pool and the state after, and the result. *)
Definition ApplyMessage {DB} `{!StateDB DB} `{!EVM DB} (EmptyCodeHash : Z) (env : evmEnv) (msg : Message) (gp : Z) (db : DB)
    : outcome coreError ExecutionResult * Z * DB :=
  let '(r, st) := TransitionDb EmptyCodeHash env msg (mkST gp 0 0 db) in (r, st_gp st, st_state st).

(** ** Transactions and blocks *)

(** [crypto.CreateAddress]. *)
Definition CreateAddress (keccak : bytes → Z) (b nonce : Z) : Z :=
  let data := from_ok [] (EncodeToBytes (any_list [VByteArray (be_bytes 20 b); VUint nonce])) in
  be_value (drop 12 (be_bytes 32 (keccak data))).

Section Apply.
Context {DB : Type} `{!StateDB DB} `{!EVM DB}.
Context (keccak : bytes → Z) (Ecrecover : bytes → bytes → outcome signError bytes).
Context (EmptyCodeHash : Z).

(** What the pointers [gp], [usedGas] and [statedb] hold. *)
Record apply_state := mkApply { a_gp : Z; a_usedGas : Z; a_db : DB }.

Definition applyTransaction (msg : Message) (config : ChainConfig) (blockNumber blockHash : Z) (tx : TxData)
    (block : BlockContext) (noBaseFee : bool) (s : apply_state) : outcome coreError Receipt * apply_state :=
  let env := mkEvmEnv config block (m_From msg) (m_GasPrice msg) noBaseFee in
  let '(result, gp, db) := ApplyMessage EmptyCodeHash env msg (a_gp s) (a_db s) in
  match result with
  | Ok result =>
      let '(root, db) :=
        if IsByzantium config (Some blockNumber) then ([], Finalise true db)
        else let '(root, db) := IntermediateRoot (IsEIP158 config (Some blockNumber)) db in (be_bytes 32 root, db) in
      let usedGas := u64 (a_usedGas s + UsedGas result) in
      let status := if x_Failed result then ReceiptStatusFailed else ReceiptStatusSuccessful in
      let contract := match m_To msg with None => CreateAddress keccak (e_Origin env) (nonce tx) | Some _ => 0 end in
      let hash := tx_Hash keccak tx in
      let '(logs, db) := GetLogs db hash (big_Uint64 blockNumber) blockHash in
      let receipt bloom := mkReceipt (txType tx) root status usedGas bloom logs hash contract (UsedGas result) None
                             blockHash (Some blockNumber) (TxIndex db) in
      (Ok (receipt (CreateBloom keccak [receipt empty_bloom])), mkApply gp usedGas db)
  | Err e => (Err e, mkApply gp (a_usedGas s) db)
  | Panic => (Panic, mkApply gp (a_usedGas s) db)
  end.

Context {E : Type} (chain : ChainContext E).

Definition sender_of (config : ChainConfig) (header : Header) : TxData → outcome signError Z :=
  Signer_Sender keccak Ecrecover (MakeSigner config (Number header) (Time header)).

Definition ApplyTransaction (config : ChainConfig) (author : option Z) (header : Header) (tx : TxData) (noBaseFee : bool)
    (s : apply_state) : outcome coreError Receipt * apply_state :=
  match (msg ← TransactionToMessage (sender_of config header) tx (BaseFee header);
         block ← NewEVMBlockContext header chain author;
         Ok (msg, block)) with
  | Ok (msg, block) => applyTransaction msg config (bc_BlockNumber block) (Header_Hash keccak header) tx block noBaseFee s
  | Err e => (Err e, s)
  | Panic => (Panic, s)
  end.

(** The loop of [Process] over the transactions. *)
Fixpoint process_loop (config : ChainConfig) (header : Header) (block : BlockContext) (noBaseFee : bool) (i : Z)
    (txs : list TxData) (s : apply_state) : outcome coreError (list Receipt) * apply_state :=
  match txs with
  | [] => (Ok [], s)
  | tx :: txs' =>
      match TransactionToMessage (sender_of config header) tx (BaseFee header) with
      | Ok msg =>
          let s := mkApply (a_gp s) (a_usedGas s) (SetTxContext (tx_Hash keccak tx) i (a_db s)) in
          match applyTransaction msg config (bc_BlockNumber block) (Header_Hash keccak header) tx block noBaseFee s with
          | (Ok receipt, s) =>
              match process_loop config header block noBaseFee (i + 1) txs' s with
              | (Ok receipts, s) => (Ok (receipt :: receipts), s)
              | (Err e, s) => (Err e, s)
              | (Panic, s) => (Panic, s)
              end
          | (Err e, s) => (Err e, s)
          | (Panic, s) => (Panic, s)
          end
      | Err e => (Err e, s)
      | Panic => (Panic, s)
      end
  end.

Context {Wd : Type} (ApplyDAOHardFork : DB → DB).
Context (Finalize : Header → list TxData → list Header → list Wd → DB → DB).

(** Receipts, logs, gas used and the new state. *)
Definition Process (config : ChainConfig) (block : Block TxData Wd) (noBaseFee : bool) (db : DB)
    : outcome coreError (list Receipt * list Log * Z) * DB :=
  let header := Block_Header block in
  match (gp ← AddGas 0 (GasLimit header);
         ctx ← NewEVMBlockContext header chain None;
         Ok (gp, ctx)) with
  | Ok (gp, ctx) =>
      let db := if DAOForkSupport config && bool_decide (DAOForkBlock config = Some (bc_BlockNumber ctx)) then ApplyDAOHardFork db else db in
      match process_loop config header ctx noBaseFee 0 (b_transactions block) (mkApply gp 0 db) with
      | (Ok receipts, s) =>
          let withdrawals := default [] (b_withdrawals block) in
          if (0 <? zlen withdrawals) && negb (IsShanghai config (Time header)) then (Err withdrawalsBeforeShanghai, a_db s)
          else (Ok (receipts, concat (map r_Logs receipts), a_usedGas s),
                Finalize header (b_transactions block) (b_uncles block) withdrawals (a_db s))
      | (Err e, s) => (Err e, a_db s)
      | (Panic, s) => (Panic, a_db s)
      end
  | Err e => (Err e, db)
  | Panic => (Panic, db)
  end.
End Apply.
Arguments apply_state : clear implicits.

(** ** Lemmas: intrinsic gas *)

Lemma add_guarded_spec gas n price : is_u64 gas → 0 ≤ n → 0 < price →
  add_guarded gas n price = if MaxUint64 <? gas + n * price then Err ErrGasUintOverflow else Ok (gas + n * price).
Proof.
  intros Hg Hn Hp. unfold add_guarded, guard_err, MaxUint64, is_u64 in *. assert (0 ≤ n * price) by nia.
  destruct (Z.ltb_spec ((2 ^ 64 - 1 - gas) / price) n) as [Hlt|Hge], (Z.ltb_spec (2 ^ 64 - 1) (gas + n * price)) as [Hlt'|Hge'];
    cbn; try done.
  - exfalso. assert (n ≤ (2 ^ 64 - 1 - gas) / price); [|lia]. apply Z.div_le_lower_bound; lia.
  - exfalso. pose proof (Z.mul_div_le (2 ^ 64 - 1 - gas) price Hp). nia.
  - f_equal. rewrite (u64_small (n * price)) by (unfold is_u64; lia). apply u64_small. unfold is_u64. lia.
Qed.

Lemma count_nz_spec data : zlen data < 2 ^ 64 →
  count_nz data = zlen (filter (fun b => b2z b ≠ 0) data) ∧ 0 ≤ count_nz data ≤ zlen data.
Proof.
  intros Hl. unfold count_nz.
  assert (H : ∀ n, 0 ≤ n → n + zlen data < 2 ^ 64 →
    foldl (fun nz b => if negb (b2z b =? 0) then u64 (nz + 1) else nz) n data = n + zlen (filter (fun b => b2z b ≠ 0) data)).
  { clear Hl. induction data as [|b data IH]; intros n Hn Hl; cbn [foldl]; [unfold zlen; cbn; lia|].
    rewrite zlen_cons in Hl. pose proof (zlen_nonneg data). rewrite filter_cons. destruct (Z.eqb_spec (b2z b) 0) as [E|E]; cbn.
    - rewrite decide_False by (by intros []). apply IH; lia.
    - rewrite decide_True by done. rewrite u64_small by (unfold is_u64; lia). rewrite IH by lia. rewrite zlen_cons. lia. }
  rewrite H by lia. split; [lia|]. pose proof (zlen_nonneg (filter (fun b => b2z b ≠ 0) data)).
  pose proof (length_filter (fun b => b2z b ≠ 0) data). unfold zlen in *. lia.
Qed.

(** The intrinsic gas on unbounded integers: data and init code, and the
    access list. *)
Definition ref_data_gas (data : bytes) (creation homestead eip2028 eip3860 : bool) : Z :=
  let nz := zlen (filter (fun b => b2z b ≠ 0) data) in
  (if creation && homestead then TxGasContractCreation else TxGas) +
  nz * (if eip2028 then TxDataNonZeroGasEIP2028 else TxDataNonZeroGasFrontier) + (zlen data - nz) * TxDataZeroGas +
  (if creation && eip3860 then (zlen data + 31) / 32 * InitCodeWordGas else 0).
Definition ref_list_gas (al : list AccessTuple) : Z :=
  zlen al * TxAccessListAddressGas + StorageKeys al * TxAccessListStorageKeyGas.

(** C35. The intrinsic gas is exact: for data of any length a Go slice can
    have, the guarded 64-bit computation returns the overflow error exactly
    when the price of the data exceeds 64 bits, and otherwise that price plus
    the price of the access list (the only step that is not guarded, so it is
    exact modulo 2^64). *)
Theorem IntrinsicGas_exact (data : bytes) (al : list AccessTuple) (creation homestead eip2028 eip3860 : bool) : zlen data < 2 ^ 63 →
  IntrinsicGas data al creation homestead eip2028 eip3860 =
  let g := ref_data_gas data creation homestead eip2028 eip3860 in
  if MaxUint64 <? g then Err ErrGasUintOverflow else Ok (u64 (g + ref_list_gas al)).
Proof.
  intros Hl. pose proof (zlen_nonneg data) as H0. destruct (count_nz_spec data ltac:(lia)) as [Enz Hnz].
  unfold ref_data_gas, ref_list_gas. rewrite <- Enz. cbv zeta. set (nz := count_nz data) in *.
  set (base := if creation && homestead then TxGasContractCreation else TxGas).
  set (price := if eip2028 then TxDataNonZeroGasEIP2028 else TxDataNonZeroGasFrontier).
  set (init := if creation && eip3860 then (zlen data + 31) / 32 * InitCodeWordGas else 0).
  assert (Hb : 0 ≤ base < 2 ^ 16) by (unfold base, TxGasContractCreation, TxGas; case_if; lia).
  assert (Hp : 0 < price < 100) by (unfold price, TxDataNonZeroGasEIP2028, TxDataNonZeroGasFrontier; case_if; lia).
  assert (Hw : 0 ≤ (zlen data + 31) / 32) by (apply Z.div_pos; lia).
  assert (Hi : 0 ≤ init) by (unfold init, InitCodeWordGas; case_if; lia).
  assert (Hz : 0 ≤ nz * price) by (apply Z.mul_nonneg_nonneg; lia).
  assert (Hdata : data_gas data creation eip2028 eip3860 base =
    if MaxUint64 <? base + nz * price + (zlen data - nz) * TxDataZeroGas + init then Err ErrGasUintOverflow
    else Ok (base + nz * price + (zlen data - nz) * TxDataZeroGas + init)).
  { unfold data_gas. fold nz price. unfold TxDataZeroGas, MaxUint64. destruct (Z.ltb_spec 0 (zlen data)).
    - rewrite add_guarded_spec by (unfold is_u64; lia). unfold MaxUint64.
      destruct (Z.ltb_spec (2 ^ 64 - 1) (base + nz * price)); cbn [mbind outcome_bind].
      { rewrite (proj2 (Z.ltb_lt _ _)) by lia. done. }
      rewrite u64_small by (unfold is_u64; lia). rewrite add_guarded_spec by (unfold is_u64; lia). unfold MaxUint64.
      destruct (Z.ltb_spec (2 ^ 64 - 1) (base + nz * price + (zlen data - nz) * 4)); cbn [mbind outcome_bind].
      { rewrite (proj2 (Z.ltb_lt _ _)) by lia. done. }
      unfold init in *. destruct (creation && eip3860).
      + unfold toWordSize, MaxUint64. rewrite (proj2 (Z.ltb_ge _ (zlen data))) by lia.
        by rewrite add_guarded_spec by (unfold is_u64, InitCodeWordGas; lia).
      + rewrite Z.add_0_r. rewrite (proj2 (Z.ltb_ge _ _)) by lia. done.
    - assert (E : zlen data = 0) by lia. assert (E' : nz = 0) by lia. assert (Ei : init = 0) by (unfold init; rewrite E; by case_if).
      rewrite E, E', Ei. cbn -[Z.pow Z.add Z.sub]. rewrite (proj2 (Z.ltb_ge _ _)) by lia. f_equal. lia. }
  unfold IntrinsicGas. fold base. rewrite Hdata. destruct (MaxUint64 <? _); [done|]. cbn [mbind outcome_bind]. f_equal. unfold u64.
  rewrite <- Zplus_mod, <- (Z.add_assoc _ (_ mod _)), (Z.add_comm (_ mod _)), Z.add_assoc, Zplus_mod_idemp_r. f_equal. lia.
Qed.

Lemma IntrinsicGas_no_panic data al c h e2 e3 : IntrinsicGas data al c h e2 e3 ≠ Panic.
Proof.
  assert (Hg : ∀ g n p, add_guarded g n p ≠ Panic) by (intros; unfold add_guarded, guard_err; by case_if).
  assert (Hb : ∀ A B (m : outcome coreError A) (f : A → outcome coreError B), m ≠ Panic → (∀ a, f a ≠ Panic) → (m ≫= f) ≠ Panic)
    by (intros A B [] f; cbn; auto; done).
  unfold IntrinsicGas. apply Hb; [|done]. unfold data_gas. case_if; [|done].
  apply Hb; [done|]. intros. apply Hb; [done|]. intros. by case_if.
Qed.
Lemma IntrinsicGas_u64 data al c h e2 e3 g : IntrinsicGas data al c h e2 e3 = Ok g → is_u64 g.
Proof. intros (x & _ & [= <-])%bind_ok. apply u64_range. Qed.

(** ** Lemmas: the state transition *)

(** A message made of a transaction. *)
Record msg_ok (msg : Message) : Prop := {
  mo_gas : is_u64 (m_GasLimit msg);
  mo_value : 0 ≤ m_Value msg;
  mo_price : 0 ≤ m_GasPrice msg ≤ m_GasFeeCap msg;
  mo_tip : 0 ≤ m_GasTipCap msg
}.

Section Good.
Context {DB : Type} `{SDB : !StateDB DB} `{SL : !StateDBLaws DB}.

Lemma sim_left (db db' : DB) : sim db db' → sim db db.
Proof. intros H. eapply sim_trans; [exact H|by apply sim_sym]. Qed.
Lemma good_sim (db db' : DB) : good db → sim db' db → good db'.
Proof. intros [_ Hs] H. split; [by eapply sim_left|]. intros a. rewrite (sim_GetBalance _ _ a H). apply Hs. Qed.

Lemma good_Add a n (db : DB) : 0 ≤ n → good db → good (AddBalance a n db).
Proof. intros Hn [H Hs]. split; [by apply sim_AddBalance|]. intros b. rewrite balance_Add by done. specialize (Hs b). case_if; lia. Qed.
Lemma good_Sub a n (db : DB) : n ≤ GetBalance db a → good db → good (SubBalance a n db).
Proof.
  intros Hn [H Hs]. split; [by apply sim_SubBalance|]. intros b. rewrite balance_Sub by done. specialize (Hs b). case_if; [subst|]; lia.
Qed.
Lemma good_SetNonce a n (db : DB) : good db → good (SetNonce a n db).
Proof. intros [H Hs]. split; [by apply sim_SetNonce|]. intros b. by rewrite balance_SetNonce. Qed.
Lemma good_Prepare r f c t al (db : DB) : good db → good (Prepare r f c t al db).
Proof. intros [H Hs]. split; [by apply sim_Prepare|]. intros b. by rewrite balance_Prepare. Qed.
Lemma good_SetTxContext h i (db : DB) : good db → good (SetTxContext h i db).
Proof. intros [H Hs]. split; [by apply sim_SetTxContext|]. intros b. by rewrite balance_SetTxContext. Qed.
Lemma good_Finalise d (db : DB) : good db → good (Finalise d db).
Proof.
  intros [H Hs]. split; [by apply sim_Finalise|]. intros b. destruct (balance_Finalise d db b H) as [E|E]; rewrite E; [apply Hs|done].
Qed.
Lemma good_IntermediateRoot d (db : DB) : good db → good (IntermediateRoot d db).2.
Proof.
  intros [H Hs]. split; [by apply IntermediateRoot_ok|]. intros b.
  destruct (balance_IntermediateRoot d db b H) as [E|E]; rewrite E; [apply Hs|done].
Qed.
End Good.

Section TransitionLemmas.
Context {DB : Type} `{SDB : !StateDB DB} `{VM : !EVM DB} `{SL : !StateDBLaws DB} `{VL : !EVMLaws DB}.
Context (EmptyCodeHash : Z) (env : evmEnv) (msg : Message) (Hmsg : msg_ok msg).

#[local] Abbreviation london := (IsLondon (e_config env) (Some (bc_BlockNumber (e_block env)))).

Lemma buyGas_spec gp db : is_u64 gp →
  (∃ e, buyGas msg (mkST gp 0 0 db) = (Err e, mkST gp 0 0 db)) ∨
  (m_GasLimit msg ≤ gp ∧ m_GasLimit msg * m_GasFeeCap msg + m_Value msg ≤ GetBalance db (m_From msg) ∧
   buyGas msg (mkST gp 0 0 db) =
     (Ok tt, mkST (gp - m_GasLimit msg) (m_GasLimit msg) (m_GasLimit msg)
               (SubBalance (m_From msg) (m_GasLimit msg * m_GasPrice msg) db))).
Proof.
  intros Hgp. pose proof (mo_gas _ Hmsg) as Hlimit. unfold buyGas, mbind, trans_bind, gets, lift, guard_err, SubGas. cbn.
  destruct (Z.ltb_spec (GetBalance db (m_From msg)) (m_GasLimit msg * m_GasFeeCap msg + m_Value msg)); [eauto|].
  destruct (Z.ltb_spec gp (m_GasLimit msg)); [eauto|]. right. cbn. unfold with_db, with_gp, with_gas, with_initial. cbn.
  unfold is_u64 in *. rewrite !u64_small by (unfold is_u64; lia). done.
Qed.

(** Past the checks of London the fee cap covers the base fee. *)
Definition fee_covered : Prop := london = true → e_NoBaseFee env = false → default 0 (bc_BaseFee (e_block env)) ≤ m_GasFeeCap msg.

Lemma preCheck_spec st : (london = true → bc_BaseFee (e_block env) ≠ None) →
  (∃ e, preCheck EmptyCodeHash env msg st = (Err e, st)) ∨ (preCheck EmptyCodeHash env msg st = buyGas msg st ∧ fee_covered).
Proof.
  intros Hbf. unfold preCheck.
  assert (Hchain : ∀ (m k k' : trans DB unit) (P Q : Prop), (∃ e, m st = (Err e, st)) ∨ (m st = (Ok tt, st) ∧ P) →
    (P → (∃ e, k st = (Err e, st)) ∨ (k st = k' st ∧ Q)) → (∃ e, (_ ← m; k) st = (Err e, st)) ∨ ((_ ← m; k) st = k' st ∧ Q)).
  { intros m k k' P Q [[e E]|[E HP]] Hk; unfold mbind, trans_bind; rewrite E; [eauto|]. apply Hk in HP as [[e E']|[E' HQ]]; rewrite E'; eauto. }
  apply (Hchain _ _ _ True); [|intros _; apply (Hchain _ _ _ fee_covered); [|auto]].
  - unfold mbind, trans_bind, gets, lift, guard_err. repeat (case_match; cbn; eauto); simplify_eq; eauto.
  - unfold fee_covered. destruct london eqn:El; cbn [andb]; [|right; by split].
    specialize (Hbf eq_refl). destruct (bc_BaseFee (e_block env)) as [bf|]; [|done]. cbn [from_option]. unfold id.
    destruct (negb (e_NoBaseFee env) || _ || _) eqn:Ec; [|right; split; [done|]; intros _ Hn; rewrite Hn in Ec; cbn in Ec; done].
    unfold mbind, trans_bind, lift, guard_err, deref.
    destruct (256 <? big_BitLen (m_GasFeeCap msg)); [cbn; eauto|]. destruct (256 <? big_BitLen (m_GasTipCap msg)); [cbn; eauto|].
    destruct (m_GasFeeCap msg <? m_GasTipCap msg); [cbn; eauto|]. destruct (Z.ltb_spec (m_GasFeeCap msg) bf); [cbn; eauto|].
    cbn. right. split; [done|]. intros. lia.
Qed.

Lemma refundGas_spec q gp rem init db : sim db db → 0 < q → 0 ≤ rem ≤ init → 0 ≤ gp → gp + init ≤ MaxUint64 →
  ∃ rem', rem ≤ rem' ≤ init ∧
    refundGas msg q (mkST gp rem init db) =
      (Ok tt, mkST (gp + rem') rem' init (AddBalance (m_From msg) (rem' * m_GasPrice msg) db)).
Proof.
  intros Hdb Hq Hrem Hgp Hmax. unfold MaxUint64 in *. pose proof (GetRefund_u64 db Hdb) as Hr. unfold is_u64 in Hr.
  set (used := init - rem). set (refund := if GetRefund db <? used / q then GetRefund db else used / q).
  assert (Hd : 0 ≤ used / q ≤ used) by (split; [apply Z.div_pos; lia|apply Z.div_le_upper_bound; nia]).
  assert (Hrf : 0 ≤ refund ≤ used) by (unfold refund; case_if; lia).
  exists (rem + refund). split; [lia|].
  assert (Eu : gasUsed (mkST gp rem init db) = used) by (unfold gasUsed; cbn; apply u64_small; unfold is_u64; lia).
  unfold refundGas, mbind, trans_bind, gets, lift, modify. rewrite Eu. cbn. fold refund. rewrite u64_small by (unfold is_u64; lia).
  unfold AddGas, MaxUint64. rewrite (proj2 (Z.ltb_ge _ gp)) by lia. cbn. rewrite u64_small by (unfold is_u64; lia). done.
Qed.

Lemma execute_spec gp g init db : good db → 0 ≤ g →
  ∃ r db', execute env msg (mkST gp g init db) = (Ok r, mkST gp (v_gas r) init db') ∧ 0 ≤ v_gas r ≤ g ∧ good db' ∧ supply db' ≤ supply db.
Proof.
  intros Hdb Hg. pose proof (mo_value _ Hmsg) as Hv. unfold execute, run_evm. destruct (m_To msg) as [to|].
  - unfold mbind, trans_bind, modify, with_db. cbn. set (db1 := SetNonce _ _ db).
    assert (Hdb1 : good db1) by (by apply good_SetNonce).
    pose proof (Call_gas env (m_From msg) to (m_Data msg) g (m_Value msg) db1 (proj1 Hdb1) Hg) as H1.
    destruct (Call_sim env (m_From msg) to (m_Data msg) g (m_Value msg) db1 db1 (proj1 Hdb1)) as [_ H2].
    destruct (Call_supply env (m_From msg) to (m_Data msg) g (m_Value msg) db1 Hdb1 Hv) as [H3 H4].
    destruct (evm_Call env (m_From msg) to (m_Data msg) g (m_Value msg) db1) as [r db']. exists r, db'.
    split; [done|]. unfold db1 in H4. rewrite supply_SetNonce in H4 by apply Hdb. done.
  - cbn. pose proof (Create_gas env (m_From msg) (m_Data msg) g (m_Value msg) db (proj1 Hdb) Hg) as H1.
    destruct (Create_sim env (m_From msg) (m_Data msg) g (m_Value msg) db db (proj1 Hdb)) as [_ H2].
    destruct (Create_supply env (m_From msg) (m_Data msg) g (m_Value msg) db Hdb Hv) as [H3 H4].
    destruct (evm_Create env (m_From msg) (m_Data msg) g (m_Value msg) db) as [r db']. by exists r, db'.
Qed.

Definition effective_tip : Z :=
  if london then BigMin (m_GasTipCap msg) (m_GasFeeCap msg - default 0 (bc_BaseFee (e_block env))) else m_GasPrice msg.

(** What a transition does to the gas pool and to the balances. *)
Definition transition_ok (gp : Z) (db : DB) (res : outcome coreError ExecutionResult * ST DB) : Prop :=
  match res with
  | (Ok r, st') => 0 ≤ UsedGas r ≤ m_GasLimit msg ∧ m_GasLimit msg ≤ gp ∧ st_gp st' = gp - UsedGas r ∧
      (e_NoBaseFee env = false →
         good (st_state st') ∧ supply (st_state st') ≤ supply db - UsedGas r * (m_GasPrice msg - effective_tip))
  | (Err _, st') => 0 ≤ st_gp st' ≤ gp ∧ (st_state st' = db ∨ ∃ n, st_state st' = SubBalance (m_From msg) n db)
  | (Panic, _) => False
  end.

Lemma modify_bind {A} f (k : unit → trans DB A) st : (modify f ≫= k) st = k tt (f st).
Proof. done. Qed.
Lemma gets_bind {A B} (f : ST DB → A) (k : A → trans DB B) st : (gets f ≫= k) st = k (f st) st.
Proof. done. Qed.

Lemma guard_ok {A} b e (k : trans DB A) st (P : outcome coreError A * ST DB → Prop) :
  (∀ e, P (Err e, st)) → (b = false → P (k st)) → P ((_ ← lift (guard_err b e); k) st).
Proof. intros He Hk. unfold mbind, trans_bind, lift, guard_err. destruct b; cbn; auto. Qed.

(** After execution: the refund, the fee of the coinbase and the result. *)
Lemma settle_spec gp0 db0 gp rem db q r : is_u64 gp0 → m_GasLimit msg ≤ gp0 → gp = gp0 - m_GasLimit msg →
  0 < q → 0 ≤ rem ≤ m_GasLimit msg → (london = true → bc_BaseFee (e_block env) ≠ None) → fee_covered → good db →
  supply db ≤ supply db0 - m_GasLimit msg * m_GasPrice msg →
  transition_ok gp0 db0 ((_ ← refundGas msg q;
    effectiveTip ← lift (if london then baseFee ← deref (bc_BaseFee (e_block env));
                                         Ok (BigMin (m_GasTipCap msg) (m_GasFeeCap msg - baseFee))
                         else Ok (m_GasPrice msg));
    used ← gets gasUsed;
    _ ← (if e_NoBaseFee env && (m_GasFeeCap msg =? 0) && (m_GasTipCap msg =? 0) then mret tt
         else modify (with_db (AddBalance (bc_Coinbase (e_block env)) (used * effectiveTip))));
    used ← gets gasUsed;
    mret (mkExec used (v_failed r) (v_ret r))) (mkST gp rem (m_GasLimit msg) db)).
Proof.
  intros Hgp0 Hle -> Hq Hrem Hbf Hcov Hdb Hs. pose proof Hmsg as [Hlimit Hval Hprice Htip]. unfold is_u64 in *.
  destruct (refundGas_spec q (gp0 - m_GasLimit msg) rem (m_GasLimit msg) db) as (rem' & Hrem' & E); [apply Hdb|done|done|lia|unfold MaxUint64; lia|].
  unfold mbind at 1, trans_bind at 1. rewrite E. set (st1 := mkST _ rem' _ _).
  assert (Eu : ∀ db : DB, gasUsed (mkST (gp0 - m_GasLimit msg + rem') rem' (m_GasLimit msg) db) = m_GasLimit msg - rem')
    by (intros; unfold gasUsed; cbn; apply u64_small; unfold is_u64; lia).
  assert (Et : (if london then baseFee ← deref (bc_BaseFee (e_block env)); Ok (BigMin (m_GasTipCap msg) (m_GasFeeCap msg - baseFee))
               else Ok (m_GasPrice msg)) = (Ok effective_tip : outcome coreError Z)).
  { unfold effective_tip. destruct london; [|done]. specialize (Hbf eq_refl). by destruct (bc_BaseFee (e_block env)). }
  assert (Hdb1 : good (AddBalance (m_From msg) (rem' * m_GasPrice msg) db)) by (apply good_Add; [nia|done]).
  rewrite Et. unfold mbind, trans_bind, lift, gets, modify, mret, trans_ret.
  unfold st1. rewrite Eu. destruct (e_NoBaseFee env) eqn:En.
  - case_if; unfold with_db; cbn; rewrite ?Eu; cbn; split_and!; (lia || (intros; congruence)).
  - assert (Htip' : 0 ≤ effective_tip).
    { unfold fee_covered in Hcov. unfold effective_tip, BigMin. destruct london; [|lia]. specialize (Hcov eq_refl En). case_if; lia. }
    unfold with_db. cbn. rewrite Eu. cbn. split_and!; try lia. intros _. split; [apply good_Add; [nia|done]|].
    rewrite supply_Add by apply Hdb1. rewrite supply_Add by apply Hdb. nia.
Qed.

Lemma TransitionDb_spec gp db : good db → is_u64 gp → (london = true → bc_BaseFee (e_block env) ≠ None) →
  transition_ok gp db (TransitionDb EmptyCodeHash env msg (mkST gp 0 0 db)).
Proof.
  intros Hdb Hgp Hbf. pose proof Hmsg as [Hlimit Hval Hprice Htip]. unfold TransitionDb. unfold mbind at 1, trans_bind at 1.
  assert (Herr : ∀ e, transition_ok gp db (Err e, mkST gp 0 0 db)) by (intros; cbn; unfold is_u64 in Hgp; split; [lia|by left]).
  destruct (preCheck_spec (mkST gp 0 0 db) Hbf) as [[e ->]|[-> Hcov]]; [apply Herr|].
  destruct (buyGas_spec gp db Hgp) as [[e ->]|(Hle & Hbal & ->)]; [apply Herr|]. clear Herr.
  set (db1 := SubBalance _ _ db). set (rules := Rules _ _ _ _). unfold is_u64 in *.
  assert (Hdb1 : good db1) by (apply good_Sub; [nia|done]).
  assert (Herr : ∀ e g, transition_ok gp db (Err e, mkST (gp - m_GasLimit msg) g (m_GasLimit msg) db1))
    by (intros; cbn; split; [lia|right; by eexists]).
  unfold mbind at 1, trans_bind at 1. unfold lift at 1.
  destruct (IntrinsicGas _ _ _ _ _ _) as [g|e|] eqn:Eg; [|apply Herr|by apply IntrinsicGas_no_panic in Eg].
  apply IntrinsicGas_u64 in Eg. unfold is_u64 in Eg. rewrite gets_bind. cbn [gasRemaining].
  apply guard_ok; [intros; apply Herr|]. intros Hg. zbool.
  rewrite modify_bind. unfold with_gas at 1. cbn [st_gp initialGas st_state].
  rewrite u64_small by (unfold is_u64; lia). rewrite gets_bind.
  apply guard_ok; [intros; apply Herr|]. intros _. apply guard_ok; [intros; apply Herr|]. intros _.
  rewrite modify_bind. unfold with_db at 2. cbn [st_gp gasRemaining initialGas st_state].
  set (db2 := Prepare _ _ _ _ _ db1). assert (Hdb2 : good db2) by (by apply good_Prepare). unfold mbind at 1, trans_bind at 1.
  destruct (execute_spec (gp - m_GasLimit msg) (m_GasLimit msg - g) (m_GasLimit msg) db2 Hdb2 ltac:(lia)) as (r & db' & -> & Hr & Hdb' & Hs).
  apply (settle_spec gp db (gp - m_GasLimit msg) (v_gas r) db'); [done|done|done| |lia|done|done|done|].
  - unfold RefundQuotient, RefundQuotientEIP3529. case_if; lia.
  - unfold db2 in Hs. rewrite supply_Prepare in Hs by apply Hdb1. unfold db1 in Hs. rewrite supply_Sub in Hs by apply Hdb. lia.
Qed.
End TransitionLemmas.

Section ApplyLemmas.
Context {DB : Type} `{SDB : !StateDB DB} `{VM : !EVM DB} `{SL : !StateDBLaws DB} `{VL : !EVMLaws DB}.
Context (keccak : bytes → Z) (Ecrecover : bytes → bytes → outcome signError bytes).
Context (EmptyCodeHash : Z).

(** The fee per gas that leaves the supply. *)
Definition burn (config : ChainConfig) (header : Header) : Z :=
  if IsLondon config (Number header) then default 0 (BaseFee header) else 0.

(** A header the miner or the verifier has accepted. *)
Record header_ok (config : ChainConfig) (header : Header) : Prop := {
  ho_number : Number header ≠ None;
  ho_difficulty : Difficulty header ≠ None;
  ho_basefee : IsLondon config (Number header) = true → BaseFee header ≠ None;
  ho_fee b : BaseFee header = Some b → 0 ≤ b
}.

(** A transaction with amounts of the right sign and a gas limit of 64 bits. *)
Record priced (tx : TxData) : Prop := {
  pr_gas : is_u64 (gas tx);
  pr_value : 0 ≤ tx_value tx;
  pr_price : 0 ≤ gasPrice tx;
  pr_tip : 0 ≤ gasTipCap tx
}.

(** One applied transaction: gas, receipt and supply. *)
Definition applied (config : ChainConfig) (header : Header) (tx : TxData) (s s' : apply_state DB) (r : Receipt) : Prop :=
  0 ≤ r_GasUsed r ≤ gas tx ∧ gas tx ≤ a_gp s ∧ a_gp s' = a_gp s - r_GasUsed r ∧
  a_usedGas s' = u64 (a_usedGas s + r_GasUsed r) ∧ r_CumulativeGasUsed r = a_usedGas s' ∧
  r_Type r = txType tx ∧ r_TxHash r = tx_Hash keccak tx ∧ r_Bloom r = LogsBloom keccak (r_Logs r) ∧
  good (a_db s') ∧ supply (a_db s') ≤ supply (a_db s) - r_GasUsed r * burn config header.

Lemma message_ok sender tx baseFee msg : priced tx → (∀ b, baseFee = Some b → 0 ≤ b) →
  TransactionToMessage sender tx baseFee = Ok msg → msg_ok msg.
Proof.
  intros [H1 H2 H3 H4] Hb. unfold TransactionToMessage. destruct (sender tx); try done. intros [= <-]. split; cbn; try done.
  unfold gasFeeCap, BigMin. destruct baseFee as [b|]; [|lia]. specialize (Hb b eq_refl). case_if; lia.
Qed.

Lemma price_tip tip cap b : BigMin (tip + b) cap - BigMin tip (cap - b) = b.
Proof. unfold BigMin. case_if; case_if; lia. Qed.

Lemma CreateBloom_single r : CreateBloom keccak [r] = LogsBloom keccak (r_Logs r).
Proof. done. Qed.

(** What is left of a transaction that failed: at most the gas was bought. *)
Definition failed (s s' : apply_state DB) : Prop :=
  0 ≤ a_gp s' ≤ a_gp s ∧ a_usedGas s' = a_usedGas s ∧ (a_db s' = a_db s ∨ ∃ a n, a_db s' = SubBalance a n (a_db s)).

Lemma applyTransaction_spec config header tx msg block s : header_ok config header →
  TransactionToMessage (sender_of keccak Ecrecover config header) tx (BaseFee header) = Ok msg →
  Some (bc_BlockNumber block) = Number header → bc_BaseFee block = BaseFee header → priced tx → is_u64 (a_gp s) → good (a_db s) →
  match applyTransaction keccak EmptyCodeHash msg config (bc_BlockNumber block) (Header_Hash keccak header) tx block false s with
  | (Ok r, s') => applied config header tx s s' r
  | (Err _, s') => failed s s'
  | (Panic, _) => False
  end.
Proof.
  intros [_ _ Hbf Hfee] Hm Hnum Hbase Htx Hgp Hdb0. pose proof (message_ok _ _ _ _ Htx Hfee Hm) as Hmsg. unfold TransactionToMessage in Hm.
  destruct (sender_of _ _ _ _ tx) as [from| |]; try done. injection Hm as <-.
  unfold applyTransaction, ApplyMessage. set (msg := mkMessage _ _ _ _ _ _ _ _ _ _ _) in *. set (env := mkEvmEnv _ _ _ _ _).
  pose proof (TransitionDb_spec EmptyCodeHash env msg Hmsg (a_gp s) (a_db s) Hdb0 Hgp) as Ht.
  cbn [env e_config e_block] in Ht. rewrite Hnum, Hbase in Ht. specialize (Ht Hbf).
  destruct (TransitionDb EmptyCodeHash env msg _) as [[r|e|] st]; cbn [transition_ok] in Ht;
    [|destruct Ht as (? & [?|(n & ?)]); (split; [done|]; split; [done|]; eauto)|done].
  destruct Ht as (Hu & Hle & Hg & Hs). destruct (Hs eq_refl) as [Hst Hs']. clear Hs.
  assert (Hburn : m_GasPrice msg - effective_tip env msg = burn config header).
  { unfold effective_tip, burn. cbn [env e_config e_block]. rewrite Hnum, Hbase. destruct (IsLondon config (Number header)); [|cbn; lia].
    specialize (Hbf eq_refl). cbn. destruct (BaseFee header) as [b|]; [|done]. apply price_tip. }
  rewrite Hburn in Hs'.
  assert (Hdb : ∃ root db, (if IsByzantium config (Some (bc_BlockNumber block)) then ([], Finalise true (st_state st))
      else let '(root, db) := IntermediateRoot (IsEIP158 config (Some (bc_BlockNumber block))) (st_state st) in (be_bytes 32 root, db))
      = (root, db) ∧ good db ∧ supply db ≤ supply (st_state st)).
  { destruct (IsByzantium config (Some (bc_BlockNumber block))).
    - eexists _, _. split; [reflexivity|]. split; [by apply good_Finalise|by apply supply_Finalise; apply Hst].
    - pose proof (supply_IntermediateRoot (IsEIP158 config (Some (bc_BlockNumber block))) (st_state st) (proj1 Hst) (proj2 Hst)) as Hir.
      pose proof (good_IntermediateRoot (IsEIP158 config (Some (bc_BlockNumber block))) (st_state st) Hst) as Hgir.
      destruct (IntermediateRoot _ _) as [root db]. eexists _, _. by split. }
  destruct Hdb as (root & db & -> & Hgood & Hdb).
  pose proof (GetLogs_keeps db (tx_Hash keccak tx) (big_Uint64 (bc_BlockNumber block)) (Header_Hash keccak header) (proj1 Hgood)) as Hlog.
  destruct (GetLogs _ _ _ _) as [logs db2]. cbn [snd] in Hlog. pose proof (good_sim _ _ Hgood Hlog) as Hgood2. apply supply_sim in Hlog.
  unfold applied. cbn [r_GasUsed r_CumulativeGasUsed r_Type r_TxHash r_Bloom r_Logs a_gp a_usedGas a_db].
  rewrite CreateBloom_single. cbn [r_Logs]. split; [exact Hu|]. split; [exact Hle|]. split; [exact Hg|]. do 5 (split; [reflexivity|]).
  split; [done|]. lia.
Qed.

(** The cumulative gas of a list of receipts, from [used] on. *)
Fixpoint cumulative (used : Z) (rs : list Receipt) : Prop :=
  match rs with
  | [] => True
  | r :: rs' => 0 ≤ r_GasUsed r ∧ r_CumulativeGasUsed r = used + r_GasUsed r ∧ cumulative (used + r_GasUsed r) rs'
  end.
Definition total_gas (rs : list Receipt) : Z := foldr (fun r acc => r_GasUsed r + acc) 0 rs.

Lemma total_gas_nonneg n rs : cumulative n rs → 0 ≤ total_gas rs.
Proof.
  revert n. induction rs as [|r rs IH]; intros n; [done|]. cbn [cumulative total_gas foldr]. fold (total_gas rs).
  intros (? & _ & H%IH). lia.
Qed.

Lemma process_loop_spec config header block txs i s rs s' : header_ok config header →
  Some (bc_BlockNumber block) = Number header → bc_BaseFee block = BaseFee header →
  Forall priced txs → 0 ≤ a_gp s → 0 ≤ a_usedGas s → a_gp s + a_usedGas s ≤ MaxUint64 → good (a_db s) →
  process_loop keccak Ecrecover EmptyCodeHash config header block false i txs s = (Ok rs, s') →
  0 ≤ a_gp s' ∧ a_gp s' = a_gp s - total_gas rs ∧ a_usedGas s' = a_usedGas s + total_gas rs ∧ cumulative (a_usedGas s) rs ∧
  map r_TxHash rs = map (tx_Hash keccak) txs ∧
  good (a_db s') ∧ supply (a_db s') ≤ supply (a_db s) - total_gas rs * burn config header.
Proof.
  intros Hh Hnum Hbase Hgas. revert i s rs s'. unfold MaxUint64.
  induction Hgas as [|tx txs Hg _ IH]; intros i s rs s' Hgp Hused Hmax Hdb.
  { intros [= <- <-]. cbn. split_and!; try done; lia. }
  cbn [process_loop].
  destruct (TransactionToMessage _ tx (BaseFee header)) as [msg| |] eqn:Em; [|done|done].
  set (s1 := mkApply (a_gp s) (a_usedGas s) _).
  pose proof (applyTransaction_spec config header tx msg block s1 Hh Em Hnum Hbase Hg) as Hap.
  cbn [s1 a_gp a_usedGas a_db] in Hap. specialize (Hap ltac:(unfold is_u64; lia) (good_SetTxContext _ _ _ Hdb)).
  destruct (applyTransaction _ _ _ _ _ _ _ _ _ s1) as [[r| |] s2]; [|done|done].
  destruct Hap as (Hu & Hle & Hg2 & Hu2 & Hc & _ & Hth & _ & Hd2 & Hs2). cbn [s1 a_gp a_usedGas a_db] in *. rewrite supply_SetTxContext in Hs2 by apply Hdb.
  rewrite u64_small in Hu2 by (unfold is_u64; lia).
  destruct (process_loop _ _ _ _ _ _ _ _ txs s2) as [[rs'| |] s3] eqn:El; [|done|done]. intros [= <- <-].
  apply IH in El as (H1 & H2 & H3 & H4 & H5 & H6 & H7); [|lia|lia|lia|done]. cbn [total_gas foldr cumulative map]. fold (total_gas rs').
  rewrite Hu2 in *. split_and!; try lia; [done| |done]. by rewrite Hth, H5.
Qed.
End ApplyLemmas.

(** ** The hashes of earlier blocks *)

Section HashLookup.
Context {E : Type} (chain : ChainContext E).

Lemma GetHashFn_ctx h h' : Number h = Number h' → ParentHash h = ParentHash h' → GetHashFn h chain = GetHashFn h' chain.
Proof. intros En Ep. unfold GetHashFn, GetHash_call. by rewrite En, Ep. Qed.

(** The hashes of the blocks [k], [k - 1], ... under a block [hash] of number
    [k], as far as the chain has the headers. *)
Fixpoint parent_hashes (k : nat) (hash : Z) : list Z :=
  hash :: match k with
          | O => []
          | S k' => match chain_GetHeader chain hash (Z.of_nat k) with
                    | Some h => parent_hashes k' (ParentHash h)
                    | None => []
                    end
          end.

(** What BLOCKHASH shall see from block [ref]: the hash of its ancestor with
    number [n], zero when there is none or a header on the way is missing. *)
Definition ancestor_hash (ref : Header) (n : Z) : Z :=
  let number := default 0 (Number ref) in
  if number <=? n then 0
  else default 0 (parent_hashes (Z.to_nat (number - 1)) (ParentHash ref) !! Z.to_nat (number - 1 - n)).

(** "The header corresponding to the hash/number argument pair". *)
Class ChainLaws : Prop := {
  chain_number hash n h : chain_GetHeader chain hash n = Some h → Number h = Some n
}.
Context `{!ChainLaws}.

Lemma parent_hashes_split k hash i x : parent_hashes k hash !! i = Some x →
  (i ≤ k)%nat ∧ parent_hashes k hash = take i (parent_hashes k hash) ++ parent_hashes (k - i) x.
Proof.
  revert hash i. induction k as [|k IH]; intros hash [|i] Hi; cbn in Hi; simplify_eq; try (split; [lia|done]).
  cbn [parent_hashes]. change (Z.pos (Pos.of_succ_nat k)) with (Z.of_nat (S k)) in Hi.
  destruct (chain_GetHeader chain hash (Z.of_nat (S k))) as [h|]; [|done].
  destruct (IH _ _ Hi) as [Hle E']. split; [lia|]. cbn [take Nat.sub app]. f_equal. exact E'.
Qed.

(** The loop extends the cache along the ancestors and finds the block asked
    for, with one unit of fuel for each header between them. *)
Lemma GetHash_loop_ok n m : ∀ fuel A pre hash k, 0 ≤ n < Z.of_nat m → Z.of_nat m < 2 ^ 64 → (m - Z.to_nat n ≤ fuel)%nat →
  A = pre ++ parent_hashes m hash → k = (length pre + m)%nat →
  ∃ cache, GetHash_loop chain fuel n hash (Z.of_nat m) (pre ++ [hash]) = Some (Ok (default 0 (A !! (k - Z.to_nat n)%nat), cache)) ∧
    cache `prefix_of` A ∧ cache ≠ [].
Proof.
  induction m as [|m IH]; intros fuel A pre hash k Hn Hm Hf HA Hk; [lia|]. destruct fuel as [|fuel]; [lia|].
  cbn [GetHash_loop]. cbn [parent_hashes] in HA. destruct (chain_GetHeader chain hash (Z.of_nat (S m))) as [h|] eqn:Eg.
  - rewrite (chain_number _ _ _ Eg). rewrite big_Uint64_small by (unfold is_u64; lia).
    replace (u64 (Z.of_nat (S m) - 1)) with (Z.of_nat m) by (rewrite u64_small; unfold is_u64; lia). cbv zeta.
    assert (HA' : A = (pre ++ [hash]) ++ parent_hashes m (ParentHash h)) by (rewrite <- app_assoc; exact HA).
    case_if; zbool.
    + exists ((pre ++ [hash]) ++ [ParentHash h]). split; [|split; [|by destruct pre]].
      * do 3 f_equal. rewrite HA'. rewrite lookup_app_r by (rewrite length_app; cbn; lia).
        replace (k - Z.to_nat n - length (pre ++ [hash]))%nat with 0%nat by (rewrite length_app; cbn; lia).
        by destruct m.
      * rewrite HA'. apply prefix_app. destruct m; cbn [parent_hashes]; by eexists.
    + apply IH; try done; try lia. rewrite length_app. cbn. lia.
  - exists (pre ++ [hash]). split; [|split; [by rewrite HA|by destruct pre]]. do 3 f_equal.
    rewrite HA, lookup_ge_None_2; [done|]. rewrite length_app. cbn. lia.
Qed.

(** A call answers from the cache, which stays a part of the ancestors. *)
Lemma GetHash_call_ok ref number n cache : Number ref = Some number → is_u64 number → is_u64 n →
  (n < number → cache `prefix_of` parent_hashes (Z.to_nat (number - 1)) (ParentHash ref)) →
  ∃ cache', GetHash_call ref chain n cache = Some (Ok (ancestor_hash ref n, cache')) ∧
    (cache = cache' ∨ cache' `prefix_of` parent_hashes (Z.to_nat (number - 1)) (ParentHash ref)).
Proof.
  intros Hr Hnum Hn Hc. unfold GetHash_call, ancestor_hash. rewrite Hr. cbn [default from_option id].
  rewrite (big_Uint64_small number) by done. unfold is_u64 in *. case_if; zbool; [by eauto|].
  specialize (Hc ltac:(lia)). set (k := Z.to_nat (number - 1)) in *. set (A := parent_hashes k (ParentHash ref)) in *. cbv zeta.
  set (c := match cache with [] => [ParentHash ref] | _ => cache end).
  assert (Hp : c `prefix_of` A ∧ c ≠ []).
  { unfold c. destruct cache; [|done]. split; [|done]. unfold A. destruct k; cbn [parent_hashes]; by eexists. }
  clearbody c. destruct Hp as [Hp Hne].
  rewrite (u64_small (number - n)) by (unfold is_u64; lia). rewrite u64_small by (unfold is_u64; lia).
  replace (Z.to_nat (number - n - 1)) with (k - Z.to_nat n)%nat by lia.
  replace (Z.to_nat (number - 1 - n)) with (k - Z.to_nat n)%nat by lia. unfold zlen. case_if; zbool.
  - destruct (lookup_lt_is_Some_2 c (k - Z.to_nat n)%nat) as [x Hx]; [lia|]. rewrite Hx. exists c.
    rewrite (prefix_lookup_Some _ _ _ _ Hx Hp). auto.
  - destruct (exists_last Hne) as (pre & hash & ->). rewrite last_snoc. cbn [default from_option id].
    rewrite length_app in *. cbn [length] in *.
    assert (Hx : A !! length pre = Some hash) by (eapply prefix_lookup_Some; [|exact Hp]; by rewrite list_lookup_middle).
    destruct (parent_hashes_split _ _ _ _ Hx) as [Hle HA]. fold A in HA.
    assert (Et : take (length pre) A = pre) by (destruct Hp as [rest ->]; by rewrite <- app_assoc, take_app_length).
    rewrite Et in HA. replace (u64 (number - Z.of_nat (length pre + 1))) with (Z.of_nat (k - length pre)) by (rewrite u64_small; unfold is_u64; lia).
    destruct (GetHash_loop_ok n (k - length pre) (Z.to_nat (number - n)) A pre hash k) as (c' & -> & Hc' & _); try done; try lia.
    eauto.
Qed.

(** The calls [ns] of one closure, one after the other. *)
Fixpoint GetHash_calls (ref : Header) (ns : list Z) (cache : list Z) : option (list Z) :=
  match ns with
  | [] => Some []
  | n :: ns => match GetHash_call ref chain n cache with
               | Some (Ok (h, cache)) => hs ← GetHash_calls ref ns cache; Some (h :: hs)
               | _ => None
               end
  end.

Lemma GetHash_calls_ok ref number : Number ref = Some number → is_u64 number → ∀ ns cache, Forall is_u64 ns →
  cache = [] ∨ cache `prefix_of` parent_hashes (Z.to_nat (number - 1)) (ParentHash ref) →
  GetHash_calls ref ns cache = Some (map (ancestor_hash ref) ns).
Proof.
  intros Hr Hnum. induction ns as [|n ns IH]; intros cache Hns Hc; [done|]. apply Forall_cons in Hns as [Hn Hns].
  destruct (GetHash_call_ok ref number n cache Hr Hnum Hn) as (cache' & E1 & Hc').
  { intros _. destruct Hc as [->|]; [apply prefix_nil|done]. }
  cbn [GetHash_calls map]. rewrite E1, IH; [done|done|]. destruct Hc' as [<-|]; auto.
Qed.
End HashLookup.

(** ** Properties *)

Section ApplyProperties.
Context {DB : Type} `{SDB : !StateDB DB} `{VM : !EVM DB} `{SL : !StateDBLaws DB} `{VL : !EVMLaws DB}.
Context (keccak : bytes → Z) (Ecrecover : bytes → bytes → outcome signError bytes).
Context (EmptyCodeHash : Z) {E : Type} (chain : ChainContext E).

Lemma NewEVMBlockContext_ok config header author : header_ok config header →
  ∃ block, NewEVMBlockContext header chain author = Ok block ∧ Some (bc_BlockNumber block) = Number header ∧
    bc_BaseFee block = BaseFee header.
Proof.
  intros [Hn Hd _ _]. unfold NewEVMBlockContext.
  destruct (Difficulty header) as [d|]; [|done]. destruct (Number header) as [n|]; [|done]. cbn. eauto.
Qed.

(** Accounting of one transaction: when [ApplyTransaction] succeeds, the
    gas used is at most the transaction's limit, which was available in the
    pool; the pool and the block's gas counter move by exactly this amount,
    the receipt's cumulative gas is the counter, its bloom is that of its
    logs, no account is in debt, and the base fee of the gas used has left
    the supply (no ether is created).  When it fails, no gas is added to the
    counter and the state differs at most by the gas that was bought; it never
    panics. *)
Theorem ApplyTransaction_accounting (config : ChainConfig) (author : option Z) (header : Header) (tx : TxData) (s : apply_state DB) :
  header_ok config header → priced tx → is_u64 (a_gp s) → good (a_db s) → sender_of keccak Ecrecover config header tx ≠ Panic →
  match ApplyTransaction keccak Ecrecover EmptyCodeHash chain config author header tx false s with
  | (Ok r, s') => applied keccak config header tx s s' r
  | (Err _, s') => failed s s'
  | (Panic, _) => False
  end.
Proof.
  intros Hh Hg Hgp Hdb Hp. destruct (NewEVMBlockContext_ok config header author Hh) as (block & Eb & Hnum & Hbase).
  unfold ApplyTransaction. rewrite Eb.
  destruct (TransactionToMessage _ tx (BaseFee header)) as [msg|e|] eqn:Em; cbn [mbind outcome_bind].
  - by apply (applyTransaction_spec keccak Ecrecover).
  - unfold is_u64 in Hgp. split; [lia|auto].
  - unfold TransactionToMessage in Em. by destruct (sender_of _ _ _ _ tx).
Qed.

Context {Wd : Type} (ApplyDAOHardFork : DB → DB) (Finalize : Header → list TxData → list Header → list Wd → DB → DB).

(** C17. Accounting of a block: when [Process] accepts a block, there is one
    receipt per transaction, in order; the receipts' cumulative gas is the
    running sum of their gas, the gas used is the total and within the
    block's limit, the logs are those of the receipts, and before the engine
    finalises, no account is in debt and the base fee of all gas used has left
    the supply. *)
Theorem Process_accounting (config : ChainConfig) (block : Block TxData Wd) (db db' : DB) (receipts : list Receipt) (logs : list Log) (used : Z) :
  header_ok config (Block_Header block) → is_u64 (GasLimit (Block_Header block)) →
  Forall priced (b_transactions block) → good db → (∀ d, good d → good (ApplyDAOHardFork d) ∧ supply (ApplyDAOHardFork d) = supply d) →
  Process keccak Ecrecover EmptyCodeHash chain ApplyDAOHardFork Finalize config block false db = (Ok (receipts, logs, used), db') →
  map r_TxHash receipts = map (tx_Hash keccak) (b_transactions block) ∧ cumulative 0 receipts ∧
  used = total_gas receipts ∧ 0 ≤ used ≤ GasLimit (Block_Header block) ∧ logs = concat (map r_Logs receipts) ∧
  ∃ db1, db' = Finalize (Block_Header block) (b_transactions block) (b_uncles block) (default [] (b_withdrawals block)) db1 ∧
    solvent db1 ∧ supply db1 ≤ supply db - used * burn config (Block_Header block).
Proof.
  intros Hh Hl Hg Hdb Hdao. unfold Process. unfold AddGas, MaxUint64. unfold is_u64 in Hl.
  rewrite (proj2 (Z.ltb_ge _ 0)) by lia. rewrite u64_small by (unfold is_u64; lia). cbn [mbind outcome_bind].
  destruct (NewEVMBlockContext_ok config _ None Hh) as (ctx & -> & Hnum & Hbase). cbn [mbind outcome_bind].
  set (db0 := if DAOForkSupport config && _ then ApplyDAOHardFork db else db).
  assert (Hdb0 : good db0 ∧ supply db0 = supply db) by (unfold db0; case_if; auto). destruct Hdb0 as [Hgood0 Hdb0].
  destruct (process_loop _ _ _ _ _ _ _ _ _ _) as [[rs| |] s] eqn:El; [|done|done].
  apply process_loop_spec in El as (H1 & H2 & H3 & H4 & H5 & H7 & H6); cbn [a_gp a_usedGas a_db] in *; try done; [|lia|unfold MaxUint64; lia].
  case_if; [done|]. intros [= <- <- <- <-]. rewrite Z.add_0_l in H3. rewrite Z.add_0_l in H2.
  pose proof (total_gas_nonneg _ _ H4).
  split_and!; try done; try lia. eexists. split; [done|]. split; [apply H7|]. rewrite H3, <- Hdb0. done.
Qed.
End ApplyProperties.

(** C37. BLOCKHASH sees the block's own ancestors: whatever numbers the
    programs of a block ask the closure of [GetHashFn] for, in whatever order
    and as often as they like, every call returns (the walk back ends, and no
    header is without number) and answers with the hash of the ancestor of
    that number, found by following the parent hashes from the block, or zero
    when the number is not below the block's or a header on the way is
    missing; the cache is not observable, so the function in the block's
    context is that of a single call. *)
Theorem GetHashFn_correct {E : Type} (chain : ChainContext E) (ref : Header) (author : option Z) (block : BlockContext) (ns : list Z) :
  ChainLaws chain → NewEVMBlockContext ref chain author = Ok block → is_u64 (bc_BlockNumber block) → Forall is_u64 ns →
  GetHash_calls chain ref ns [] = Some (map (ancestor_hash chain ref) ns) ∧
  map (bc_GetHash block) ns = map (ancestor_hash chain ref) ns.
Proof.
  intros HL Hb Hu Hns. unfold NewEVMBlockContext in Hb. destruct (Difficulty ref), (Number ref) as [number|] eqn:En; try done.
  injection Hb as <-. cbn [bc_BlockNumber bc_GetHash] in *. split; [eapply GetHash_calls_ok; eauto|].
  apply map_ext_in. intros n Hin. rewrite Forall_forall in Hns.
  destruct (GetHash_call_ok chain ref number n [] En Hu) as (c & E1 & _).
  - apply Hns. by apply list_elem_of_In.
  - intros _. apply prefix_nil.
  - unfold GetHashFn. by rewrite E1.
Qed.

(** The price a transaction is charged is the price its receipt reports:
    the message carries [effectiveGasPrice] of the transaction, split between
    the base fee and the tip that [EffectiveGasTip] announced to the miner,
    and the balance required up front covers every amount the transaction can
    be charged ([Cost], for the types without blobs). *)
Theorem message_price (sender : TxData → outcome signError Z) (tx : TxData) (baseFee : option Z) (msg : Message) :
  (∀ b, baseFee = Some b → 0 ≤ b) → wf_tx tx → txType tx ≠ BlobTxType → TransactionToMessage sender tx baseFee = Ok msg →
  m_GasPrice msg = effectiveGasPrice tx baseFee ∧
  (∀ b, baseFee = Some b → m_GasPrice msg = b + (EffectiveGasTip tx baseFee).1) ∧
  m_GasPrice msg ≤ gasFeeCap tx ∧
  m_GasLimit msg * m_GasFeeCap msg + m_Value msg = Cost tx ∧ m_GasLimit msg * m_GasPrice msg + m_Value msg ≤ Cost tx.
Proof.
  intros Hb Hwf Hty Hmsg. pose proof (wt_gas tx Hwf) as Hg. unfold is_u64 in Hg.
  unfold TransactionToMessage in Hmsg. destruct (sender tx) as [from| |]; try done. injection Hmsg as <-.
  cbn [m_GasPrice m_GasLimit m_GasFeeCap m_Value]. unfold Cost. rewrite (proj2 (Z.eqb_neq (txType tx) BlobTxType)) by done.
  set (price := match baseFee with Some baseFee => BigMin (gasTipCap tx + baseFee) (gasFeeCap tx) | None => gasPrice tx end).
  assert (Hle : price ≤ gasFeeCap tx) by (unfold price, gasFeeCap, BigMin; destruct baseFee; [case_if; lia|lia]).
  split_and!; try done; try (unfold gasFeeCap in *; nia).
  - unfold price, effectiveGasPrice, BigMin. destruct baseFee as [b|]; [specialize (Hb b eq_refl)|by destruct tx].
    destruct tx; cbn; repeat case_if; lia.
  - intros b ->. unfold price. cbn. pose proof (price_tip (gasTipCap tx) (gasFeeCap tx) b). lia.
Qed.

(** ** Witnesses: a state of balances and nonces *)

Record ToyDB := mkToyDB { td_balance : gmap Z Z; td_nonce : gmap Z Z; td_index : Z; td_saved : gmap Z Z * gmap Z Z }.

Definition toy_balance (a : Z) (n : Z) (db : ToyDB) : ToyDB :=
  mkToyDB (<[a := default 0 (td_balance db !! a) + n]> (td_balance db)) (td_nonce db) (td_index db) (td_saved db).

#[global] Instance toy_statedb : StateDB ToyDB := {
  GetBalance db a := default 0 (td_balance db !! a);
  AddBalance a n db := toy_balance a n db;
  SubBalance a n db := toy_balance a (- n) db;
  GetNonce db a := default 0 (td_nonce db !! a);
  SetNonce a n db := mkToyDB (td_balance db) (<[a := n]> (td_nonce db)) (td_index db) (td_saved db);
  GetCodeHash db a := 0;
  GetRefund db := 0;
  Prepare _ _ _ _ _ db := db;
  SetTxContext _ i db := mkToyDB (td_balance db) (td_nonce db) i (td_saved db);
  TxIndex db := td_index db;
  GetLogs db h n bh := ([mkLog 5 [h] [] n h 0 bh 0 false], db);
  Finalise _ db := db;
  IntermediateRoot _ db := (0, db);
  Snapshot db := (0, mkToyDB (td_balance db) (td_nonce db) (td_index db) (td_balance db, td_nonce db));
  RevertToSnapshot _ db := mkToyDB (td_saved db).1 (td_saved db).2 (td_index db) (td_saved db)
}.

Definition sum_balances (m : gmap Z Z) : Z := map_fold (fun _ v acc => v + acc) 0 m.

Lemma sum_balances_insert m a n : m !! a = None → sum_balances (<[a := n]> m) = n + sum_balances m.
Proof. intros Ha. unfold sum_balances. rewrite map_fold_insert_L; [done| |done]. intros. lia. Qed.
Lemma sum_balances_add m a n : sum_balances (<[a := default 0 (m !! a) + n]> m) = sum_balances m + n.
Proof.
  rewrite <- insert_delete_eq, sum_balances_insert by apply lookup_delete_eq.
  destruct (m !! a) as [v|] eqn:E; cbn.
  - rewrite <- (insert_id m a v E) at 2. rewrite <- insert_delete_eq, sum_balances_insert by apply lookup_delete_eq. lia.
  - rewrite delete_id by done. lia.
Qed.

(** Only the last snapshot is kept, and it is not looked at. *)
Definition toy_sim (db db' : ToyDB) : Prop := td_balance db = td_balance db' ∧ td_nonce db = td_nonce db' ∧ td_index db = td_index db'.
#[global] Instance toy_statedb_laws : StateDBLaws ToyDB.
Proof.
  refine {| sim := toy_sim; supply := fun db => sum_balances (td_balance db) |}; unfold toy_sim; cbn; try done;
    try (intros; destruct_and?; split_and?; congruence); intros; auto.
  - case_if; [subst; by rewrite lookup_insert_eq|]. rewrite lookup_insert_ne by done. lia.
  - case_if; [subst; rewrite lookup_insert_eq; cbn; unfold id; lia|]. rewrite lookup_insert_ne by done. lia.
  - apply sum_balances_add.
  - rewrite sum_balances_add. lia.
Defined.

(** An interpreter that moves the value, if there is enough, and keeps half of
    the gas. *)
Definition toy_move (f t v : Z) (db : ToyDB) : ToyDB :=
  if v <=? GetBalance db f then toy_balance t v (toy_balance f (- v) db) else db.
#[global] Instance toy_evm : EVM ToyDB := {
  evm_Create env f d g v db := (mkVm [] (g / 2) false, toy_move f 99 v db);
  evm_Call env f t d g v db := (mkVm [] (g / 2) false, toy_move f t v db)
}.
Lemma toy_move_ok f t v db : good db → 0 ≤ v → solvent (toy_move f t v db) ∧ supply (toy_move f t v db) ≤ supply db.
Proof.
  intros Hdb Hv. unfold toy_move. case_if; [|split; [apply Hdb|lia]].
  change (toy_balance t v (toy_balance f (- v) db)) with (AddBalance t v (SubBalance f v db)).
  assert (H1 : good (SubBalance f v db)) by (by apply good_Sub). split; [by apply good_Add|].
  rewrite supply_Add, supply_Sub by done. lia.
Qed.
#[global] Instance toy_evm_laws : EVMLaws ToyDB.
Proof.
  assert (Hsim : ∀ f t v db db', toy_sim db db' → toy_sim (toy_move f t v db) (toy_move f t v db')).
  { intros f t v db db' (H1 & H2 & H3). unfold toy_move, toy_balance, toy_sim. cbn. rewrite H1. by case_if. }
  split; cbn [evm_Create evm_Call toy_evm v_gas fst snd]; intros; try (by apply toy_move_ok);
    try (split; [done|by apply Hsim]); (split; [apply Z.div_pos; lia|apply Z.div_le_upper_bound; lia]).
Qed.

Definition toy_config : ChainConfig := AllForksAtZero None None.
Definition toy_header : Header :=
  mkHeader 1 2 3 4 5 6 7 (Some 2) (Some 8) 1000000 0 1700000000 [] 0 0 (Some 7) None None.
Definition toy_tx1 : TxData :=
  DynamicFeeTx (default 0 (ChainID toy_config)) 4 2 100 60000 (Some 77) 1000 [z2b 1; z2b 0] [] (mkSig 1 1 7).
Definition toy_db : ToyDB := mkToyDB {[ 1 := 10 ^ 18 ]} {[ 1 := 4 ]} 0 (∅, ∅).
Definition toy_bc : ChainContext unit := mkChainContext (fun h => Ok (Coinbase h)) (fun _ _ => None).
Definition toy_apply : outcome coreError Receipt * apply_state ToyDB :=
  ApplyTransaction toy_digest toy_recover 0 toy_bc toy_config (Some 3) toy_header toy_tx1 false
    (mkApply 1000000 0 toy_db).

Lemma toy_header_ok : header_ok toy_config toy_header.
Proof. split; try discriminate. intros b [= <-]. lia. Qed.
Lemma toy_tx1_priced : priced toy_tx1.
Proof. split; unfold is_u64; cbn; lia. Qed.
Lemma toy_db_good : good toy_db.
Proof. split; [done|]. intros a. cbn. destruct (decide (1 = a)) as [<-|]; [by rewrite lookup_singleton_eq|]. by rewrite lookup_singleton_ne. Qed.

(** A chain of three blocks on which number 1 has the hash 22. *)
Definition toy_ancestry : ChainContext unit :=
  mkChainContext (fun h => Ok (Coinbase h)) (fun hash n =>
    if (hash =? 23) && (n =? 2) then Some (mkHeader 22 2 3 4 5 6 7 (Some 2) (Some 2) 1000000 0 1700000000 [] 0 0 (Some 7) None None)
    else if (hash =? 22) && (n =? 1) then Some (mkHeader 21 2 3 4 5 6 7 (Some 2) (Some 1) 1000000 0 1700000000 [] 0 0 (Some 7) None None)
    else None).
Definition toy_child : Header := mkHeader 23 2 3 4 5 6 7 (Some 2) (Some 3) 1000000 0 1700000000 [] 0 0 (Some 7) None None.

#[global] Instance toy_ancestry_laws : ChainLaws toy_ancestry.
Proof.
  split. intros hash n h. cbn.
  destruct (Z.eqb_spec hash 23), (Z.eqb_spec n 2); cbn; [intros [= <-]; by subst|..];
    destruct (Z.eqb_spec hash 22), (Z.eqb_spec n 1); cbn; try done; intros [= <-]; by subst.
Qed.

Lemma GetHashFn_correct_witness : GetHash_calls toy_ancestry toy_child [1; 3; 0; 2; 1] [] = Some [22; 0; 21; 23; 22].
Proof.
  destruct (NewEVMBlockContext toy_child toy_ancestry (Some 3)) as [block|e|] eqn:Eb; [|discriminate Eb|discriminate Eb].
  refine (eq_trans (proj1 (GetHashFn_correct toy_ancestry toy_child (Some 3) block [1; 3; 0; 2; 1] toy_ancestry_laws Eb _ _)) _).
  - injection Eb as <-. split; [discriminate|reflexivity].
  - repeat constructor; discriminate.
  - reflexivity.
Defined.

Lemma IntrinsicGas_exact_witness : IntrinsicGas [z2b 1; z2b 0] [mkTuple 7 [1; 2]] false true true true = Ok (21000 + 16 + 4 + 2400 + 3800).
Proof. rewrite (IntrinsicGas_exact [z2b 1; z2b 0] [mkTuple 7 [1; 2]] false true true true); [vm_compute; reflexivity|vm_compute; reflexivity]. Defined.

Lemma toy_apply_ok : toy_apply.1 = Ok (from_ok zero_receipt toy_apply.1) ∧ r_GasUsed (from_ok zero_receipt toy_apply.1) = 40510.
Proof. vm_compute. split; reflexivity. Qed.

Lemma toy_tx1_wf : wf_tx toy_tx1.
Proof. split; unfold is_u64, sig_ok; cbn -[Z.pow Z.mul]; try lia; try discriminate; [unfold array_ok; lia|constructor]. Qed.

Lemma message_price_witness : ∃ msg,
  TransactionToMessage (fun _ => Ok 1) toy_tx1 (Some 7) = Ok msg ∧ m_GasPrice msg = 9 ∧ m_GasLimit msg * m_GasPrice msg + m_Value msg ≤ Cost toy_tx1.
Proof.
  eexists. split; [reflexivity|]. split; [reflexivity|].
  apply (message_price (fun _ => Ok 1) toy_tx1 (Some 7)); [intros b H; injection H as <-; discriminate|exact toy_tx1_wf|discriminate|reflexivity].
Defined.

Lemma ApplyTransaction_accounting_witness :
  ∃ r s', toy_apply = (Ok r, s') ∧ applied toy_digest toy_config toy_header toy_tx1 (mkApply 1000000 0 toy_db) s' r.
Proof.
  assert (H := ApplyTransaction_accounting toy_digest toy_recover 0 toy_bc toy_config (Some 3)
    toy_header toy_tx1 (mkApply 1000000 0 toy_db) toy_header_ok toy_tx1_priced
    ltac:(split; [discriminate|reflexivity]) toy_db_good).
  fold toy_apply in H. pose proof (proj1 toy_apply_ok) as E. destruct toy_apply as [[r|e|] s'].
  - exists r, s'. split; [reflexivity|]. apply H. vm_compute. discriminate.
  - discriminate E.
  - discriminate E.
Defined.

Definition toy_block : Block TxData unit := mkBlock toy_header [] [toy_tx1; toy_tx1] None.
Definition toy_block1 : Block TxData unit := mkBlock toy_header [] [toy_tx1] None.
Definition toy_process (b : Block TxData unit) : outcome coreError (list Receipt * list Log * Z) * ToyDB :=
  Process toy_digest toy_recover 0 toy_bc (fun db => db) (fun _ _ _ _ db => db)
    toy_config b false toy_db.

(** The second copy of the transaction is refused for its nonce. *)
Lemma toy_process_ok : (toy_process toy_block).1 = Err ErrNonceTooLow ∧
  (toy_process toy_block1).1 = Ok (from_ok ([], [], 0) (toy_process toy_block1).1) ∧ (from_ok ([], [], 0) (toy_process toy_block1).1).2 = 40510.
Proof. vm_compute. split_and!; reflexivity. Qed.

Lemma Process_accounting_witness :
  ∃ receipts logs db', toy_process toy_block1 = (Ok (receipts, logs, 40510), db') ∧ 40510 = total_gas receipts.
Proof.
  assert (H := fun db' receipts logs used => Process_accounting toy_digest toy_recover 0 toy_bc
    (fun db => db) (fun _ _ _ _ db => db) toy_config toy_block1 toy_db db' receipts logs used toy_header_ok
    ltac:(split; [discriminate|reflexivity])
    ltac:(constructor; [exact toy_tx1_priced|constructor]) toy_db_good ltac:(intros d Hd; split; [exact Hd|reflexivity])).
  fold (toy_process toy_block1) in H. destruct toy_process_ok as (_ & E & Eu).
  destruct (toy_process toy_block1) as [[[[receipts logs] used]|e|] db'].
  - cbn [fst snd from_ok] in Eu. subst used. exists receipts, logs, db'. split; [reflexivity|].
    apply (H db' receipts logs 40510 eq_refl).
  - discriminate E.
  - discriminate E.
Defined.
