(* ===== verification/ApplySim.v ===== *)
(** Executing the same transaction twice: the state transition, the receipts
    and the loop over a block depend on the state database only through what
    can be read of it.  The lemmas are proved against the interfaces of
    [StateTransition.v]; with them [Fill.v] shows that a block the worker has
    filled can be executed again by the processor. *)

From S2P Require Import Prelude RLP RLPDecode Types HeaderRLP Receipts Config Fees Transactions Signing StateTransition.

(** ** The transition on indistinguishable states *)

Create HintDb simdb.

Section TransSim.
Context {DB : Type} `{SDB : !StateDB DB} `{VM : !EVM DB} `{SL : !StateDBLaws DB} `{VL : !EVMLaws DB}.

Record st_sim (st st' : ST DB) : Prop := {
  ss_gp : st_gp st = st_gp st';
  ss_gas : gasRemaining st = gasRemaining st';
  ss_initial : initialGas st = initialGas st';
  ss_db : sim (st_state st) (st_state st')
}.
Definition trans_sim {A} (m : trans DB A) : Prop := ∀ st st', st_sim st st' → (m st).1 = (m st').1 ∧ st_sim (m st).2 (m st').2.

Lemma ret_sim {A} (a : A) : trans_sim (mret a).
Proof. intros st st' H. by split. Qed.
Lemma lift_sim {A} (o : outcome coreError A) : trans_sim (lift o).
Proof. intros st st' H. by split. Qed.
Lemma gets_sim {A} (f : ST DB → A) : (∀ st st', st_sim st st' → f st = f st') → trans_sim (gets f).
Proof. intros Hf st st' H. split; [cbn; by rewrite (Hf st st')|done]. Qed.
Lemma modify_sim f : (∀ st st', st_sim st st' → st_sim (f st) (f st')) → trans_sim (modify f).
Proof. intros Hf st st' H. split; [done|by apply Hf]. Qed.
Lemma bind_sim {A B} (m : trans DB A) (k : A → trans DB B) : trans_sim m → (∀ a, trans_sim (k a)) → trans_sim (m ≫= k).
Proof.
  intros Hm Hk st st' H. unfold mbind, trans_bind. destruct (Hm st st' H) as [E Hs].
  destruct (m st) as [o s], (m st') as [o' s']. cbn in E, Hs. subst o'. destruct o as [a|e|]; cbn; [by apply Hk|done..].
Qed.
Lemma if_sim {A} (b : bool) (m m' : trans DB A) : trans_sim m → trans_sim m' → trans_sim (if b then m else m').
Proof. by destruct b. Qed.

Lemma db_sim (f : DB → DB) : (∀ db db', sim db db' → sim (f db) (f db')) → trans_sim (modify (with_db f)).
Proof. intros Hf. apply modify_sim. intros st st' []. split; cbn; auto. Qed.
Lemma gp_sim gp : trans_sim (modify (with_gp gp)).
Proof. apply modify_sim. by intros st st' []. Qed.
Lemma gas_sim g : trans_sim (modify (with_gas g)).
Proof. apply modify_sim. by intros st st' []. Qed.
Lemma initial_sim g : trans_sim (modify (with_initial g)).
Proof. apply modify_sim. by intros st st' []. Qed.

Lemma run_evm_sim (f : Z → DB → vmResult * DB) :
  (∀ g db db', sim db db' → (f g db).1 = (f g db').1 ∧ sim (f g db).2 (f g db').2) → trans_sim (run_evm f).
Proof.
  intros Hf st st' [H1 H2 H3 H4]. unfold run_evm. rewrite H2. destruct (Hf (gasRemaining st') _ _ H4) as [E Hs].
  destruct (f _ (st_state st)) as [r db], (f _ (st_state st')) as [r' db']. cbn in E, Hs. subst r'. split; [done|]. by split.
Qed.

#[local] Hint Resolve ret_sim lift_sim gp_sim gas_sim initial_sim : simdb.
#[local] Hint Extern 1 (trans_sim (gets _)) => (apply gets_sim; intros st st' []; first [done | by apply sim_GetBalance | by apply sim_GetNonce
  | by apply sim_GetCodeHash | by apply sim_GetRefund]) : simdb.
#[local] Hint Extern 2 (trans_sim (_ ≫= _)) => (apply bind_sim; [|intros]) : simdb.
#[local] Hint Extern 2 (trans_sim (if _ then _ else _)) => apply if_sim : simdb.

Context (EmptyCodeHash : Z) (env : evmEnv) (msg : Message).

Lemma buyGas_sim : trans_sim (buyGas msg).
Proof. unfold buyGas. cbv zeta. auto 20 using db_sim, sim_SubBalance with simdb. Qed.

Lemma preCheck_sim : trans_sim (preCheck EmptyCodeHash env msg).
Proof. unfold preCheck. auto 20 using buyGas_sim with simdb. Qed.

Lemma gasUsed_sim : trans_sim (gets (@gasUsed DB)).
Proof. apply gets_sim. intros st st' []. unfold gasUsed. congruence. Qed.

Lemma refundGas_sim q : trans_sim (refundGas msg q).
Proof. unfold refundGas. auto 20 using db_sim, sim_AddBalance, gasUsed_sim with simdb. Qed.

Lemma execute_sim : trans_sim (execute env msg).
Proof.
  unfold execute. destruct (m_To msg) as [to|].
  - apply bind_sim; [|intros; apply run_evm_sim; intros; by apply Call_sim].
    apply db_sim. intros db db' H. rewrite (sim_GetNonce _ _ (m_From msg) H). by apply sim_SetNonce.
  - apply run_evm_sim. intros. by apply Create_sim.
Qed.

Lemma TransitionDb_sim : trans_sim (TransitionDb EmptyCodeHash env msg).
Proof.
  assert (Hcan : trans_sim (gets (fun st : ST DB => CanTransfer (st_state st) (m_From msg) (m_Value msg)))).
  { apply gets_sim. intros st st' []. unfold CanTransfer. by rewrite (sim_GetBalance _ _ (m_From msg) ss_db0). }
  unfold TransitionDb. cbv zeta. apply bind_sim; [apply preCheck_sim|intros _].
  apply bind_sim; [auto with simdb|intros gas]. apply bind_sim; [auto with simdb|intros remaining].
  do 5 (apply bind_sim; [auto using db_sim, sim_Prepare with simdb|intros ?]).
  apply bind_sim; [auto using db_sim, sim_Prepare with simdb|intros ?].
  apply bind_sim; [apply execute_sim|intros r]. apply bind_sim; [apply refundGas_sim|intros ?].
  apply bind_sim; [auto with simdb|intros tip]. apply bind_sim; [apply gasUsed_sim|intros used].
  apply bind_sim; [auto using db_sim, sim_AddBalance with simdb|intros _]. apply bind_sim; [apply gasUsed_sim|auto with simdb].
Qed.
End TransSim.

(** ** Receipts that differ in the block they name *)

Definition relocate (n bh : Z) (r : Receipt) : Receipt :=
  mkReceipt (r_Type r) (r_PostState r) (r_Status r) (r_CumulativeGasUsed r) (r_Bloom r) (map (locate n bh) (r_Logs r)) (r_TxHash r)
    (r_ContractAddress r) (r_GasUsed r) (r_EffectiveGasPrice r) bh (r_BlockNumber r) (r_TransactionIndex r).

Lemma LogsBloom_located keccak n bh logs : LogsBloom keccak (map (locate n bh) logs) = LogsBloom keccak logs.
Proof.
  unfold LogsBloom. generalize empty_bloom. induction logs as [|l logs IH]; intros b; [done|]. cbn [map foldl]. apply IH.
Qed.

Section Again.
Context {DB : Type} `{SDB : !StateDB DB} `{VM : !EVM DB} `{SL : !StateDBLaws DB} `{VL : !EVMLaws DB}.
Context (keccak : bytes → Z) (Ecrecover : bytes → bytes → outcome signError bytes).
Context (EmptyCodeHash : Z).

Record apply_sim (s s' : apply_state DB) : Prop := {
  as_gp : a_gp s = a_gp s';
  as_used : a_usedGas s = a_usedGas s';
  as_db : sim (a_db s) (a_db s')
}.

(** The same transaction in blocks with different hashes, from the Byzantium
    fork on (before it the receipt holds a state root). *)
Lemma applyTransaction_sim msg config number bh bh' tx block s s' :
  IsByzantium config (Some number) = true → apply_sim s s' →
  match applyTransaction keccak EmptyCodeHash msg config number bh tx block false s,
        applyTransaction keccak EmptyCodeHash msg config number bh' tx block false s' with
  | (Ok r, t), (Ok r', t') => r' = relocate (big_Uint64 number) bh' r ∧ apply_sim t t'
  | (Err e, t), (Err e', t') => e = e' ∧ apply_sim t t'
  | (Panic, _), (Panic, _) => True
  | _, _ => False
  end.
Proof.
  intros Hbyz [H1 H2 H3]. unfold applyTransaction, ApplyMessage. set (env := mkEvmEnv _ _ _ _ _).
  destruct (TransitionDb_sim EmptyCodeHash env msg (mkST (a_gp s) 0 0 (a_db s)) (mkST (a_gp s') 0 0 (a_db s'))) as [E [S1 _ _ S4]]; [by split|].
  destruct (TransitionDb EmptyCodeHash env msg (mkST (a_gp s) 0 0 (a_db s))) as [o st],
    (TransitionDb EmptyCodeHash env msg (mkST (a_gp s') 0 0 (a_db s'))) as [o' st']. cbn [fst snd] in *. subst o'.
  destruct o as [r|e|]; [|by split|done]. rewrite Hbyz.
  pose proof (sim_Finalise true _ _ S4) as Hf. set (h := tx_Hash keccak tx).
  pose proof (sim_left _ _ Hf) as Hf1. pose proof (sim_left _ _ (sim_sym _ _ Hf)) as Hf2.
  pose proof (GetLogs_keeps _ h (big_Uint64 number) bh Hf1) as K1. pose proof (GetLogs_keeps _ h (big_Uint64 number) bh' Hf2) as K2.
  pose proof (GetLogs_located _ h (big_Uint64 number) bh (big_Uint64 number) bh' Hf1) as L1. rewrite (sim_GetLogs _ _ h (big_Uint64 number) bh' Hf) in L1.
  assert (Hd : sim (GetLogs (Finalise true (st_state st)) h (big_Uint64 number) bh).2 (GetLogs (Finalise true (st_state st')) h (big_Uint64 number) bh').2).
  { eapply sim_trans; [exact K1|]. eapply sim_trans; [exact Hf|]. by apply sim_sym. }
  pose proof (sim_TxIndex _ _ Hd) as Et.
  destruct (GetLogs (Finalise true (st_state st)) h _ bh) as [lg db1], (GetLogs (Finalise true (st_state st')) h _ bh') as [lg' db1'].
  cbn [fst snd] in *. subst lg'. rewrite !CreateBloom_single. cbn [r_Logs]. split; [|split; cbn; congruence].
  unfold relocate. cbn. by rewrite LogsBloom_located, Et, H2.
Qed.

(** The loop of [Process], one transaction at a time from the end. *)
Lemma process_loop_snoc config header block i txs tx s rs s1 :
  process_loop keccak Ecrecover EmptyCodeHash config header block false i txs s = (Ok rs, s1) →
  process_loop keccak Ecrecover EmptyCodeHash config header block false i (txs ++ [tx]) s =
  match process_loop keccak Ecrecover EmptyCodeHash config header block false (i + zlen txs) [tx] s1 with
  | (Ok rs', s2) => (Ok (rs ++ rs'), s2)
  | (Err e, s2) => (Err e, s2)
  | (Panic, s2) => (Panic, s2)
  end.
Proof.
  revert i s rs. induction txs as [|x txs IH]; intros i s rs.
  - intros [= <- <-]. rewrite Z.add_0_r. cbn [app].
    by destruct (process_loop _ _ _ _ _ _ _ _ [tx] s) as [[| |] ?].
  - cbn [app process_loop] in *. destruct (TransactionToMessage _ x _) as [msg| |]; [|done..].
    destruct (applyTransaction _ _ _ _ _ _ _ _ _ _) as [[r| |] s2]; [|done..].
    destruct (process_loop _ _ _ _ _ _ _ (i + 1) txs s2) as [[rs'| |] s3] eqn:E; [|done..]. intros [= <- <-].
    rewrite (IH _ _ _ E). replace (i + zlen (x :: txs)) with (i + 1 + zlen txs) by (rewrite zlen_cons; lia).
    cbn [process_loop]. destruct (TransactionToMessage _ tx _) as [msg'| |]; [|done..].
    by destruct (applyTransaction _ _ _ _ _ _ _ _ _ _) as [[r'| |] s4].
Qed.
End Again.
