(* ===== verification/Fill.v ===== *)
(** Filling a block with transactions: [commitTransaction],
    [commitTransactions], [fillTransactions], [signalToErr] and [totalFees] of
    [src/go-ethereum/miner/worker.go].

    The order comes from [TxOrder.v], the execution from
    [StateTransition.v].  The interrupt flag is set by other goroutines: it is
    a function from the number of the load to the signal it reads.  The loop
    of [commitTransactions] is given one step more than there are transactions
    in the set, which is enough since every turn removes one. *)

From S2P Require Import Prelude RLP RLPDecode Types HeaderRLP Receipts Config Fees Transactions Signing Heap TxOrder Assemble StateTransition ApplySim.

(** ** Interrupts *)

Inductive fillError := errBlockInterruptedByNewHead | errBlockInterruptedByRecommit | errBlockInterruptedByTimeout.

Definition commitInterruptNone : Z := 0.
Definition commitInterruptNewHead : Z := 1.
Definition commitInterruptResubmit : Z := 2.
Definition commitInterruptTimeout : Z := 3.

Definition signalToErr {A} (signal : Z) : outcome fillError A :=
  if signal =? commitInterruptNewHead then Err errBlockInterruptedByNewHead
  else if signal =? commitInterruptResubmit then Err errBlockInterruptedByRecommit
  else if signal =? commitInterruptTimeout then Err errBlockInterruptedByTimeout
  else Panic.

(** ** Committing transactions *)

Definition set_GasUsed (v : Z) (h : Header) : Header :=
  let '(mkHeader a b c d e f g i j k _ l m n o p q r) := h in mkHeader a b c d e f g i j k v l m n o p q r.

Section Fill.
Context {DB : Type} `{SDB : !StateDB DB} `{VM : !EVM DB}.
Context (keccak : bytes → Z) (Ecrecover : bytes → bytes → outcome signError bytes).
Context (EmptyCodeHash : Z) {E : Type} (chain : ChainContext E).
Context (chainConfig : ChainConfig) (noBaseFee : bool).

Abbreviation Env := (environment Transaction DB Signer).

Definition set_exec (db : DB) (gp : Z) (gasUsed : Z) (env : Env) : Env :=
  mkEnv (env_signer env) db (ancestors env) (family env) (tcount env) (Some gp) (env_coinbase env)
    (set_GasUsed gasUsed (env_header env)) (env_txs env) (env_receipts env) (env_uncles env).
Definition add_tx (tx : Transaction) (r : Receipt) (env : Env) : Env :=
  mkEnv (env_signer env) (env_state env) (ancestors env) (family env) (tcount env) (gasPool env) (env_coinbase env)
    (env_header env) (env_txs env ++ [tx]) (env_receipts env ++ [r]) (env_uncles env).
Definition set_state (db : DB) (env : Env) : Env :=
  mkEnv (env_signer env) db (ancestors env) (family env) (tcount env) (gasPool env) (env_coinbase env)
    (env_header env) (env_txs env) (env_receipts env) (env_uncles env).
Definition set_gasPool (gp : Z) (env : Env) : Env :=
  mkEnv (env_signer env) (env_state env) (ancestors env) (family env) (tcount env) (Some gp) (env_coinbase env)
    (env_header env) (env_txs env) (env_receipts env) (env_uncles env).
Definition incr_tcount (env : Env) : Env :=
  mkEnv (env_signer env) (env_state env) (ancestors env) (family env) (tcount env + 1) (gasPool env) (env_coinbase env)
    (env_header env) (env_txs env) (env_receipts env) (env_uncles env).

(** On an error the state and the gas pool are reverted. *)
Definition commitTransaction (env : Env) (tx : Transaction) : outcome coreError (list Log) * Env :=
  match gasPool env with
  | None => (Panic, env)
  | Some gp =>
      let '(snap, db) := Snapshot (env_state env) in
      match ApplyTransaction keccak Ecrecover EmptyCodeHash chain chainConfig (Some (env_coinbase env)) (env_header env)
              (inner tx) noBaseFee (mkApply gp (GasUsed (env_header env)) db) with
      | (Ok receipt, s) => (Ok (r_Logs receipt), add_tx tx receipt (set_exec (a_db s) (a_gp s) (a_usedGas s) env))
      | (Err e, s) => (Err e, set_exec (RevertToSnapshot snap (a_db s)) gp (a_usedGas s) env)
      | (Panic, s) => (Panic, set_exec (a_db s) (a_gp s) (a_usedGas s) env)
      end
  end.

(** [Sender] for the ordering, the zero address on an error. *)
Definition tx_sender (signer : Signer) (tx : Transaction) : Z := from_ok 0 (Signer_Sender keccak Ecrecover signer (inner tx)).

(** The loop; [i] counts the loads of the interrupt flag.  [None] is the end
    of the fuel. *)
Fixpoint commit_loop (fuel : nat) (interrupt : option (nat → Z)) (i : nat) (env : Env) (txs : TransactionsByPriceAndNonce)
    (coalescedLogs : list Log) : option (outcome fillError (list Log) * Env) :=
  match fuel with
  | O => None
  | S fuel =>
      let shift := TxOrder.Shift (tx_sender (env_signer env)) (BaseFee (env_header env)) in
      let signal := match interrupt with Some f => f i | None => commitInterruptNone end in
      if negb (signal =? commitInterruptNone) then Some (signalToErr signal, env) else
      match gasPool env with
      | None => Some (Panic, env)
      | Some gp =>
      if gp <? TxGas then Some (Ok coalescedLogs, env) else
      match Peek txs with
      | None => Some (Ok coalescedLogs, env)
      | Some tx =>
          if Protected tx && negb (IsEIP155 chainConfig (Number (env_header env))) then
            match TxOrder.Pop txs with
            | Ok txs => commit_loop fuel interrupt (S i) env txs coalescedLogs
            | _ => Some (Panic, env)
            end
          else
            let env := set_state (SetTxContext (tx_Hash keccak (inner tx)) (tcount env) (env_state env)) env in
            match commitTransaction env tx with
            | (Ok logs, env) =>
                match shift txs with
                | Ok txs => commit_loop fuel interrupt (S i) (incr_tcount env) txs (coalescedLogs ++ logs)
                | _ => Some (Panic, env)
                end
            | (Err ErrNonceTooLow, env) =>
                match shift txs with
                | Ok txs => commit_loop fuel interrupt (S i) env txs coalescedLogs
                | _ => Some (Panic, env)
                end
            | (Err _, env) =>
                match TxOrder.Pop txs with
                | Ok txs => commit_loop fuel interrupt (S i) env txs coalescedLogs
                | _ => Some (Panic, env)
                end
            | (Panic, env) => Some (Panic, env)
            end
      end
      end
  end.

(** The number of transactions left in a set. *)
Definition set_size (txs : TransactionsByPriceAndNonce) : nat := length (t_heads txs) + total (t_txs txs).

(** The logs, for the pending-logs event. *)
Definition commitTransactions (interrupt : option (nat → Z)) (env : Env) (txs : TransactionsByPriceAndNonce)
    : outcome fillError (list Log) * Env :=
  match (match gasPool env with
         | None => AddGas 0 (GasLimit (env_header env))
         | Some gp => Ok gp
         end) with
  | Ok gp => default (Panic, env) (commit_loop (S (set_size txs)) interrupt 0 (set_gasPool gp env) txs [])
  | _ => (Panic, env)
  end.

(** ** fillTransactions *)

(** The split into local and remote transactions. *)
Definition split_step (s : gmap Z (list Transaction) * gmap Z (list Transaction)) (account : Z)
    : gmap Z (list Transaction) * gmap Z (list Transaction) :=
  match s.2 !! account with
  | Some (tx :: txs) => (<[account := tx :: txs]> s.1, delete account s.2)
  | _ => s
  end.
Definition split_locals (locals : list Z) (pending : gmap Z (list Transaction)) : gmap Z (list Transaction) * gmap Z (list Transaction) :=
  foldl split_step (∅, pending) locals.

(** One of the two rounds; [range] is the order in which the map is ranged
    over. *)
Definition fill_round (interrupt : option (nat → Z)) (range : gmap Z (list Transaction) → list (Z * list Transaction))
    (txs : gmap Z (list Transaction)) (env : Env) : outcome fillError unit * Env :=
  if (base.size txs =? 0)%nat then (Ok tt, env) else
  match NewTransactionsByPriceAndNonce (tx_sender (env_signer env)) (BaseFee (env_header env)) txs (range txs) with
  | Ok t => let '(r, env) := commitTransactions interrupt env t in (_ ← r; Ok tt, env)
  | _ => (Panic, env)
  end.

Definition fillTransactions (interrupt1 interrupt2 : option (nat → Z)) (range : gmap Z (list Transaction) → list (Z * list Transaction))
    (pending : gmap Z (list Transaction)) (locals : list Z) (env : Env) : outcome fillError unit * Env :=
  let '(localTxs, remoteTxs) := split_locals locals pending in
  match fill_round interrupt1 range localTxs env with
  | (Ok _, env) => fill_round interrupt2 range remoteTxs env
  | (Err e, env) => (Err e, env)
  | (Panic, env) => (Panic, env)
  end.
End Fill.

(** [totalFees]: the tips of a block. *)
Fixpoint totalFees (baseFee : option Z) (txs : list TxData) (receipts : list Receipt) : outcome fillError Z :=
  match txs, receipts with
  | [], _ => Ok 0
  | tx :: txs', r :: receipts' => rest ← totalFees baseFee txs' receipts'; Ok (r_GasUsed r * (EffectiveGasTip tx baseFee).1 + rest)
  | _ :: _, [] => Panic
  end.

(** ** Lemmas *)

(** The fields of a header that execution reads. *)
Record same_ctx (h h' : Header) : Prop := {
  sc_number : Number h = Number h';
  sc_time : Time h = Time h';
  sc_fee : BaseFee h = BaseFee h';
  sc_difficulty : Difficulty h = Difficulty h';
  sc_limit : GasLimit h = GasLimit h';
  sc_mix : MixDigest h = MixDigest h';
  sc_parent : ParentHash h = ParentHash h'
}.
#[export] Instance same_ctx_equiv : Equivalence same_ctx.
Proof.
  split; [done|by intros h h' []|]. intros x y z [] []. split; congruence.
Qed.
Lemma set_GasUsed_ctx v h : same_ctx (set_GasUsed v h) h.
Proof. by destruct h. Qed.
Lemma set_GasUsed_eq v h : GasUsed (set_GasUsed v h) = v.
Proof. by destruct h. Qed.

Lemma total_gas_app rs r : total_gas (rs ++ [r]) = total_gas rs + r_GasUsed r.
Proof.
  induction rs as [|x rs IH]; [cbn; lia|]. change (r_GasUsed x + total_gas (rs ++ [r]) = r_GasUsed x + total_gas rs + r_GasUsed r). lia.
Qed.
Lemma cumulative_app n rs r : cumulative n rs → 0 ≤ r_GasUsed r → r_CumulativeGasUsed r = n + total_gas rs + r_GasUsed r →
  cumulative n (rs ++ [r]).
Proof.
  revert n. induction rs as [|x rs IH]; intros n; cbn [app cumulative total_gas foldr]; [|fold (total_gas rs)].
  - intros _ H1 H2. split_and!; [done|lia|done].
  - intros (H1 & H2 & H3) H4 H5. split_and!; [done|done|]. apply IH; [done|done|lia].
Qed.

Section FillLemmas.
Context {DB : Type} `{SDB : !StateDB DB} `{VM : !EVM DB} `{SL : !StateDBLaws DB} `{VL : !EVMLaws DB}.
Context (keccak : bytes → Z) (Ecrecover : bytes → bytes → outcome signError bytes).
Context (EmptyCodeHash : Z) {E : Type} (chain : ChainContext E).
Context (chainConfig : ChainConfig).
Context (Hrecover : ∀ h sig, Ecrecover h sig ≠ Panic).

#[local] Abbreviation Env := (environment Transaction DB Signer).

(** The gas and the receipts of a block under construction. *)
Record env_ok (env : Env) : Prop := {
  eo_header : header_ok chainConfig (env_header env);
  eo_limit : is_u64 (GasLimit (env_header env));
  eo_gas : match gasPool env with
           | None => GasUsed (env_header env) = 0
           | Some gp => 0 ≤ gp ∧ gp + GasUsed (env_header env) = GasLimit (env_header env)
           end;
  eo_used : GasUsed (env_header env) = total_gas (env_receipts env);
  eo_cumulative : cumulative 0 (env_receipts env);
  eo_hashes : map r_TxHash (env_receipts env) = map (fun tx => tx_Hash keccak (inner tx)) (env_txs env);
  eo_count : tcount env = zlen (env_txs env);
  eo_state : good (env_state env)
}.

(** What filling leaves as it is. *)
Definition same_env (env env' : Env) : Prop :=
  env_signer env' = env_signer env ∧ same_ctx (env_header env') (env_header env) ∧
  env_coinbase env' = env_coinbase env ∧ env_uncles env' = env_uncles env.

#[export] Instance same_env_preorder : PreOrder same_env.
Proof.
  split; [done|]. intros x y z (A1 & A2 & A3 & A4) (B1 & B2 & B3 & B4). unfold same_env. split_and!; try congruence. by etrans.
Qed.

Lemma header_ok_ctx h h' : same_ctx h h' → header_ok chainConfig h' → header_ok chainConfig h.
Proof. intros [E1 E2 E3 E4 E5 E6] []. split; rewrite ?E1, ?E3, ?E4; done. Qed.
Lemma env_ok_limit env : env_ok env → match gasPool env with None => True | Some gp => is_u64 gp end.
Proof.
  intros [Hh Hl Hg Hu Hc Hx Ht Hs]. pose proof (total_gas_nonneg _ _ Hc). unfold is_u64 in *. destruct (gasPool env); [lia|done].
Qed.

(** The environment of an attempt: the context of the transaction is set. *)
Definition attempt (env : Env) (tx : Transaction) : Env :=
  set_state (SetTxContext (tx_Hash keccak (inner tx)) (tcount env) (env_state env)) env.
Lemma attempt_ok env tx : env_ok env → env_ok (attempt env tx).
Proof. intros []. split; try done. by apply good_SetTxContext. Qed.

Definition commit (env : Env) (tx : Transaction) : outcome coreError (list Log) * Env :=
  commitTransaction keccak Ecrecover EmptyCodeHash chain chainConfig false env tx.

(** [commitTransaction] in terms of [applyTransaction]. *)
Lemma commit_cases env tx gp : env_ok env → gasPool env = Some gp → priced (inner tx) →
  let db := (Snapshot (env_state env)).2 in let snap := (Snapshot (env_state env)).1 in
  let s0 := mkApply gp (GasUsed (env_header env)) db in
  (∃ msg ctx r s, TransactionToMessage (sender_of keccak Ecrecover chainConfig (env_header env)) (inner tx) (BaseFee (env_header env)) = Ok msg ∧
     NewEVMBlockContext (env_header env) chain (Some (env_coinbase env)) = Ok ctx ∧ Some (bc_BlockNumber ctx) = Number (env_header env) ∧
     applyTransaction keccak EmptyCodeHash msg chainConfig (bc_BlockNumber ctx) (Header_Hash keccak (env_header env)) (inner tx) ctx false s0 = (Ok r, s) ∧
     applied keccak chainConfig (env_header env) (inner tx) s0 s r ∧
     commit env tx = (Ok (r_Logs r), add_tx tx r (set_exec (a_db s) (a_gp s) (a_usedGas s) env))) ∨
  (∃ e s, failed s0 s ∧ commit env tx = (Err e, set_exec (RevertToSnapshot snap (a_db s)) gp (GasUsed (env_header env)) env)).
Proof.
  intros Hok Egp Htx. pose proof (env_ok_limit _ Hok) as Hgp. rewrite Egp in Hgp. pose proof Hok as [Hh Hl Hg Hu Hc Hx Ht Hs]. cbv zeta.
  unfold commit, commitTransaction. rewrite Egp.
  assert (Hsn : good (Snapshot (env_state env)).2) by (eapply good_sim; [exact Hs|]; apply Snapshot_keeps, Hs).
  destruct (Snapshot (env_state env)) as [snap db]. cbn [fst snd] in *. unfold ApplyTransaction.
  destruct (NewEVMBlockContext_ok chain chainConfig (env_header env) (Some (env_coinbase env)) Hh) as (ctx & Eb & Hnum & Hbase). rewrite Eb.
  destruct (TransactionToMessage _ (inner tx) (BaseFee (env_header env))) as [msg|e|] eqn:Em; cbn [mbind outcome_bind].
  - pose proof (applyTransaction_spec keccak Ecrecover EmptyCodeHash chainConfig (env_header env) (inner tx) msg ctx
      (mkApply gp (GasUsed (env_header env)) db) Hh Em Hnum Hbase Htx Hgp Hsn) as Hap.
    destruct (applyTransaction _ _ _ _ _ _ _ _ _ _) as [[r|e|] s] eqn:Ea; [| |done].
    + left. exists msg, ctx, r, s. done.
    + right. exists e, s. split; [done|]. destruct Hap as (_ & E1 & _). cbn [a_usedGas] in E1. by rewrite E1.
  - right. exists e, (mkApply gp (GasUsed (env_header env)) db). split; [|done]. split; [cbn; unfold is_u64 in Hgp; lia|auto].
  - unfold TransactionToMessage in Em. destruct (sender_of _ _ _ _ (inner tx)) eqn:Es; try done. by apply Sender_no_panic in Es.
Qed.

(** A failed transaction leaves a state nobody can tell from the one before. *)
Lemma failed_reverts (db : DB) gp used s : sim db db → failed (mkApply gp used (Snapshot db).2) s →
  sim (RevertToSnapshot (Snapshot db).1 (a_db s)) db.
Proof. intros Hdb (_ & _ & [Ed|(a & n & Ed)]); rewrite Ed; [by apply Revert_nothing|by apply Revert_SubBalance]. Qed.

Lemma commitTransaction_ok env tx gp : env_ok env → gasPool env = Some gp → priced (inner tx) →
  match commit env tx with
  | (Ok logs, env') => env_ok (incr_tcount env') ∧ env_txs env' = env_txs env ++ [tx] ∧ same_env env env' ∧ is_Some (gasPool env')
  | (Err _, env') => env_ok env' ∧ env_txs env' = env_txs env ∧ same_env env env' ∧ is_Some (gasPool env')
  | (Panic, _) => False
  end.
Proof.
  intros Hok Egp Htx. pose proof (commit_cases env tx gp Hok Egp Htx) as Hc. cbv zeta in Hc.
  pose proof Hok as [Hh Hl Hg Hu Hcu Hx Ht Hs]. pose proof (total_gas_nonneg _ _ Hcu). rewrite Egp in Hg. destruct Hg as [Hgp Hsum]. unfold is_u64 in Hl.
  destruct Hc as [(msg & ctx & r & s & _ & _ & _ & _ & Hap & ->)|(e & s & Hf & ->)].
  - destruct Hap as (Hr & Hle & Eg & Eu & Ec & _ & Eh & _ & Hd & _). cbn [a_gp a_usedGas a_db] in *.
    rewrite u64_small in Eu by (unfold is_u64; lia). rewrite Eu in *.
    pose proof (set_GasUsed_ctx (GasUsed (env_header env) + r_GasUsed r) (env_header env)) as Hctx.
    pose proof (set_GasUsed_eq (GasUsed (env_header env) + r_GasUsed r) (env_header env)) as F1. pose proof (sc_limit _ _ Hctx) as F2.
    split; [|split; [done|split; [done|by eexists]]]. split; cbn; rewrite ?F1, ?F2; try done.
    + by eapply header_ok_ctx.
    + lia.
    + rewrite total_gas_app. lia.
    + apply cumulative_app; [done|lia|lia].
    + rewrite !map_app, Hx. f_equal. cbn [map]. by rewrite Eh.
    + rewrite zlen_app. unfold zlen at 2. cbn. lia.
  - pose proof (set_GasUsed_ctx (GasUsed (env_header env)) (env_header env)) as Hctx.
    pose proof (set_GasUsed_eq (GasUsed (env_header env)) (env_header env)) as F1. pose proof (sc_limit _ _ Hctx) as F2.
    split; [|split; [done|split; [done|by eexists]]]. split; cbn; rewrite ?F1, ?F2; try done.
    + by eapply header_ok_ctx.
    + eapply good_sim; [exact Hs|]. eapply failed_reverts; [apply Hs|exact Hf].
Qed.

(** *** Executing the block again *)

(** The processor, given the transactions of the block so far and the state
    [db0], reproduces the receipts, the gas and the state. *)
Definition replays (db0 : DB) (final : Header) (ctx : BlockContext) (env : Env) : Prop :=
  ∃ s, process_loop keccak Ecrecover EmptyCodeHash chainConfig final ctx false 0 (map inner (env_txs env)) (mkApply (GasLimit final) 0 db0)
         = (Ok (map (relocate (big_Uint64 (bc_BlockNumber ctx)) (Header_Hash keccak final)) (env_receipts env)), s) ∧
       a_gp s = default (GasLimit final) (gasPool env) ∧ a_usedGas s = GasUsed (env_header env) ∧
       ∀ h i, sim (SetTxContext h i (a_db s)) (SetTxContext h i (env_state env)).
Definition keeps_replay (env env' : Env) : Prop := ∀ db0 final ctx,
  same_ctx final (env_header env) → NewEVMBlockContext final chain (Some (env_coinbase env)) = Ok ctx →
  IsByzantium chainConfig (Number final) = true → replays db0 final ctx env → replays db0 final ctx env'.

Lemma NewEVMBlockContext_ctx h h' author : same_ctx h h' →
  NewEVMBlockContext h chain (Some author) = NewEVMBlockContext h' chain (Some author).
Proof. intros [E1 E2 E3 E4 E5 E6 E7]. unfold NewEVMBlockContext. by rewrite (GetHashFn_ctx chain _ _ E1 E7), E1, E2, E3, E4, E5, E6. Qed.
Lemma keeps_trans env env1 env2 : same_env env env1 → keeps_replay env env1 → keeps_replay env1 env2 → keeps_replay env env2.
Proof.
  intros (_ & Hc & Hcb & _) H1 H2 db0 final ctx Hf Hn Hb Hr. apply H2; [by etrans; [|symmetry]|by rewrite Hcb|done|]. by apply H1.
Qed.

Lemma commit_replays env tx gp : env_ok env → gasPool env = Some gp → priced (inner tx) →
  keeps_replay env (commit (attempt env tx) tx).2.
Proof.
  intros Hok Egp Htx db0 final ctx Hctx Hn Hb (s & Hp & Hgp & Hused & Hdb).
  pose proof (commit_cases (attempt env tx) tx gp (attempt_ok env tx Hok) Egp Htx) as Hc. cbv zeta in Hc. cbn [attempt set_state env_state env_header env_coinbase] in Hc.
  set (h := tx_Hash keccak (inner tx)) in *.
  assert (Hat : sim (SetTxContext h (tcount env) (env_state env)) (SetTxContext h (tcount env) (env_state env))) by (apply sim_SetTxContext, Hok).
  destruct Hc as [(msg & ctx' & r & t & Em & En & Hnum & Ea & Hap & ->)|(e & t & Hf & ->)].
  - rewrite <- (NewEVMBlockContext_ctx _ _ _ Hctx), Hn in En. injection En as <-.
    assert (Hs : apply_sim (mkApply gp (GasUsed (env_header env)) (Snapshot (SetTxContext h (tcount env) (env_state env))).2)
                           (mkApply (a_gp s) (a_usedGas s) (SetTxContext h (tcount env) (a_db s)))).
    { split; cbn; [by rewrite Hgp, Egp|done|]. eapply sim_trans; [by apply Snapshot_keeps|]. apply sim_sym, Hdb. }
    pose proof (applyTransaction_sim keccak EmptyCodeHash msg chainConfig (bc_BlockNumber ctx) (Header_Hash keccak (env_header env))
      (Header_Hash keccak final) (inner tx) ctx _ _ ltac:(rewrite Hnum, <- (sc_number _ _ Hctx); exact Hb) Hs) as Hsim.
    rewrite Ea in Hsim. destruct (applyTransaction _ _ _ _ _ (Header_Hash keccak final) _ _ _ _) as [[r'| |] t'] eqn:Ea'; [|done..].
    destruct Hsim as [Er [T1 T2 T3]]. exists t'. cbn [snd].
    assert (Em' : TransactionToMessage (sender_of keccak Ecrecover chainConfig final) (inner tx) (BaseFee final) = Ok msg).
    { unfold sender_of. by rewrite (sc_number _ _ Hctx), (sc_time _ _ Hctx), (sc_fee _ _ Hctx). }
    split; [|split; [cbn; congruence|split; [|intros; by apply sim_SetTxContext, sim_sym]]].
    + cbn [env_txs env_receipts add_tx set_exec attempt set_state]. rewrite !map_app. cbn [map].
      rewrite (process_loop_snoc _ _ _ _ _ _ _ _ _ _ _ _ Hp). cbn [process_loop]. rewrite Em'. fold h.
      rewrite Z.add_0_l. replace (zlen (map inner (env_txs env))) with (tcount env) by (rewrite (eo_count _ Hok); unfold zlen; by rewrite length_map).
      rewrite Ea'. by rewrite Er.
    + cbn [env_header add_tx set_exec]. rewrite set_GasUsed_eq. congruence.
  - exists s. cbn [snd]. split; [done|]. split; [cbn; by rewrite Hgp, Egp|]. split; [cbn [env_header set_exec]; by rewrite set_GasUsed_eq|].
    intros h' i'. eapply sim_trans; [apply Hdb|]. apply sim_sym. cbn [env_state set_exec].
    eapply sim_trans; [apply sim_SetTxContext, (failed_reverts _ _ _ _ Hat Hf)|]. apply SetTxContext_twice, Hok.
Qed.

(** Signals the flag may hold. *)
Definition valid_signal (f : nat → Z) : Prop := ∀ i, 0 ≤ f i ≤ 3.
Lemma signalToErr_ok {A} z : 0 ≤ z ≤ 3 → z ≠ 0 → (signalToErr z : outcome fillError A) ≠ Panic.
Proof.
  intros Hz Hn. unfold signalToErr, commitInterruptNewHead, commitInterruptResubmit, commitInterruptTimeout.
  assert (z = 1 ∨ z = 2 ∨ z = 3) as [-> | [-> | ->]] by lia; done.
Qed.

#[local] Abbreviation loop := (commit_loop keccak Ecrecover EmptyCodeHash chain chainConfig false).
#[local] Abbreviation from signer := (tx_sender keccak Ecrecover signer).

(** What one account contributes: transactions of its queue, in order. *)
Definition in_order (sender : Transaction → Z) (Q : gmap Z (list Transaction)) (new : list Transaction) : Prop :=
  ∀ a, filter (fun x => sender x = a) new `sublist_of` default [] (Q !! a).

Lemma abs_next_sublist sender bf o x q Q a : Q !! sender x = Some (x :: q) →
  default [] (abs_next sender bf o x q Q !! a) `sublist_of` if decide (a = sender x) then q else default [] (Q !! a).
Proof.
  intros Hx. rewrite abs_next_lookup. case_decide; [|done]. destruct o; cbn; [|apply sublist_nil_l].
  destruct (next_queue bf q) as [q'|] eqn:En; [|apply sublist_nil_l]. by apply next_queue_some in En as [-> _].
Qed.

Lemma in_order_skip sender bf o x q Q new : Q !! sender x = Some (x :: q) →
  in_order sender (abs_next sender bf o x q Q) new → in_order sender Q new.
Proof.
  intros Hx H a. etrans; [apply H|]. etrans; [by apply abs_next_sublist|]. case_decide; [|done].
  subst a. rewrite Hx. cbn. by apply sublist_cons.
Qed.
Lemma in_order_take sender bf o x q Q new : Q !! sender x = Some (x :: q) →
  in_order sender (abs_next sender bf o x q Q) new → in_order sender Q (x :: new).
Proof.
  intros Hx H a. rewrite filter_cons. specialize (H a).
  pose proof (abs_next_sublist sender bf o x q Q a Hx) as Ha. destruct (decide (a = sender x)) as [->|Hd].
  - rewrite decide_True by done. rewrite Hx. cbn. apply sublist_skip. by etrans.
  - rewrite decide_False by congruence. by etrans.
Qed.

Definition queues_priced (Q : gmap Z (list Transaction)) : Prop :=
  ∀ a q, Q !! a = Some q → Forall (fun tx => priced (inner tx)) q.
Lemma abs_next_priced sender bf o x q Q : Q !! sender x = Some (x :: q) → queues_priced Q → queues_priced (abs_next sender bf o x q Q).
Proof.
  intros Hx HQ a q'. rewrite abs_next_lookup. case_decide; [|apply HQ]. destruct o; [|done].
  intros Hn. apply next_queue_some in Hn as [-> _]. apply HQ in Hx. by apply Forall_cons in Hx as [_ ?].
Qed.

(** The outcome of filling from queues [Q]: no panic, consistent accounting,
    the new transactions in order, and a block that can be executed again if
    the old one could. *)
Record filled {A} (sender : Transaction → Z) (Q : gmap Z (list Transaction)) (env : Env) (res : outcome fillError A * Env) : Prop := {
  fi_returns : res.1 ≠ Panic;
  fi_ok : env_ok res.2;
  fi_same : same_env env res.2;
  fi_order : ∃ new, env_txs res.2 = env_txs env ++ new ∧ in_order sender Q new;
  fi_replay : keeps_replay env res.2
}.

Lemma filled_here {A} sender Q env (r : outcome fillError A) : r ≠ Panic → env_ok env → filled sender Q env (r, env).
Proof.
  intros. split; try done; [|by intros ???]. exists []. rewrite app_nil_r. split; [done|]. intros a. apply sublist_nil_l.
Qed.

(** From a later environment, with what was added in between. *)
Lemma filled_after {A} sender Q Q1 env env1 new1 (res : outcome fillError A * Env) : same_env env env1 → keeps_replay env env1 →
  env_txs env1 = env_txs env ++ new1 → (∀ new, in_order sender Q1 new → in_order sender Q (new1 ++ new)) →
  filled sender Q1 env1 res → filled sender Q env res.
Proof.
  intros Hs Hk Ht Ho [F1 F2 F3 (new & F4 & F5) F6]. split; [done|done|by etrans| |by eapply keeps_trans].
  exists (new1 ++ new). split; [by rewrite F4, Ht, app_assoc|by apply Ho].
Qed.

Lemma loop_ok fuel interrupt i env t logs signer bf :
  (∀ f, interrupt = Some f → valid_signal f) → env_ok env → is_Some (gasPool env) →
  env_signer env = signer → BaseFee (env_header env) = bf → set_ok (from signer) bf t → queues_priced (queues (from signer) t) →
  (total (queues (from signer) t) < fuel)%nat →
  ∃ res, loop fuel interrupt i env t logs = Some res ∧ filled (from signer) (queues (from signer) t) env res.
Proof.
  intros Hint. revert i env t logs. induction fuel as [|fuel IH]; intros i env t logs Henv Hgp Es Eb Hok Hgas Hf; [lia|].
  cbn [commit_loop]. rewrite Es, Eb.
  destruct (negb _) eqn:Esig.
  { eexists. split; [reflexivity|]. apply filled_here; [|done]. destruct interrupt as [f|]; [|done].
    apply signalToErr_ok; [by apply (Hint f)|]. unfold commitInterruptNone in Esig. zbool. done. }
  destruct Hgp as [gp Egp]. rewrite Egp.
  case_if; [eexists; split; [reflexivity|]; by apply filled_here|].
  pose proof (Peek_ok (from signer) bf t Hok) as Hpk. destruct (Peek t) as [tx|] eqn:Ep; [|eexists; split; [reflexivity|]; by apply filled_here].
  destruct Hpk as (_ & (q & Hq & _) & _).
  assert (Hnext : ∀ o env1 logs1, env_ok env1 → is_Some (gasPool env1) → same_env env env1 →
    ∃ t1 res, do_op (from signer) bf o t = Ok t1 ∧ loop fuel interrupt (S i) env1 t1 logs1 = Some res ∧
      filled (from signer) (abs_next (from signer) bf o tx q (queues (from signer) t)) env1 res).
  { intros o env1 logs1 He1 Hg1 (Hs1 & Hs2 & _).
    destruct (do_op_ok (from signer) bf o t tx q) as (t1 & E1 & Hok1 & Eq1); [done..|]. exists t1.
    destruct (IH (S i) env1 t1 logs1) as (res & Er & Hres); try done; [congruence|by rewrite (sc_fee _ _ Hs2)| | |].
    - rewrite Eq1. by apply abs_next_priced.
    - rewrite Eq1. pose proof (total_next (from signer) bf o tx q _ Hq). lia.
    - exists res. rewrite <- Eq1. done. }
  assert (Hskip : ∀ o env1 logs1, env_ok env1 → is_Some (gasPool env1) → same_env env env1 → env_txs env1 = env_txs env → keeps_replay env env1 →
    ∃ t1 res, do_op (from signer) bf o t = Ok t1 ∧ loop fuel interrupt (S i) env1 t1 logs1 = Some res ∧
      filled (from signer) (queues (from signer) t) env res).
  { intros o env1 logs1 He1 Hg1 Hs1 Ht1 Hk1. destruct (Hnext o env1 logs1 He1 Hg1 Hs1) as (t1 & res & E1 & Er & Hres).
    exists t1, res. split; [done|]. split; [done|]. eapply (filled_after _ _ _ env env1 []); [done|done|by rewrite app_nil_r| |exact Hres].
    intros new Hnew. by eapply in_order_skip. }
  case_if.
  { destruct (Hskip OPop env logs) as (t1 & res & E1 & Er & Hres); [done|by exists gp|done|done|by intros ???|]. cbn [do_op] in E1. rewrite E1. by exists res. }
  assert (Hgtx : priced (inner tx)). { specialize (Hgas _ _ Hq). by apply Forall_cons in Hgas as [? _]. }
  fold (attempt env tx). fold (commit (attempt env tx) tx).
  pose proof (commitTransaction_ok (attempt env tx) tx gp (attempt_ok env tx Henv) Egp Hgtx) as Hc.
  pose proof (commit_replays env tx gp Henv Egp Hgtx) as Hr.
  destruct (commit (attempt env tx) tx) as [[lg|e|] env1]; [| |done]; destruct Hc as (H1 & H2 & H3 & H4); cbn [snd] in Hr.
  - destruct (Hnext OShift (incr_tcount env1) (logs ++ lg)) as (t1 & res & E1 & Er & Hres); [done..|]. cbn [do_op] in E1. rewrite E1.
    exists res. split; [done|]. eapply (filled_after _ _ _ env (incr_tcount env1) [tx]); [done|exact Hr|done| |exact Hres].
    intros new Hnew. by eapply in_order_take.
  - destruct (Hskip (if decide (e = ErrNonceTooLow) then OShift else OPop) env1 logs) as (t1 & res & E1 & Er & Hres); try done.
    exists res. split; [|done]. destruct e; cbn [do_op decide] in E1; try (rewrite decide_True in E1 by done; cbn in E1);
      try (rewrite decide_False in E1 by done; cbn in E1); rewrite E1; done.
Qed.

(** The gas pool starts with the gas limit. *)
Lemma fill_start_ok env : env_ok env →
  ∃ gp, (match gasPool env with None => AddGas 0 (GasLimit (env_header env)) | Some gp => Ok gp end) = Ok gp ∧
    env_ok (set_gasPool gp env) ∧ keeps_replay env (set_gasPool gp env).
Proof.
  intros Henv. pose proof Henv as [Hh Hl Hg Hu Hc Hx Ht Hs]. unfold is_u64 in Hl. destruct (gasPool env) as [gp|] eqn:Eg.
  - exists gp. split; [done|]. split; [by split|]. intros db0 final ctx _ _ _ (s & H1 & H2 & H3). exists s. rewrite Eg in H2. done.
  - exists (GasLimit (env_header env)). unfold AddGas, MaxUint64. rewrite (proj2 (Z.ltb_ge _ 0)) by lia.
    rewrite u64_small by (unfold is_u64; lia). split; [done|]. split; [split; try done; cbn; lia|].
    intros db0 final ctx Hctx _ _ (s & H1 & H2 & H3). exists s. rewrite Eg in H2. split; [done|]. split; [|done].
    cbn in *. by rewrite H2, (sc_limit _ _ Hctx).
Qed.

Lemma commitTransactions_ok interrupt env t : (∀ f, interrupt = Some f → valid_signal f) → env_ok env →
  set_ok (from (env_signer env)) (BaseFee (env_header env)) t → queues_priced (queues (from (env_signer env)) t) →
  filled (from (env_signer env)) (queues (from (env_signer env)) t) env
    (commitTransactions keccak Ecrecover EmptyCodeHash chain chainConfig false interrupt env t).
Proof.
  intros Hint Henv Hok Hgas. unfold commitTransactions. destruct (fill_start_ok env Henv) as (gp & -> & Hgp & Hk).
  destruct (loop_ok (S (set_size t)) interrupt 0 (set_gasPool gp env) t [] (env_signer env) (BaseFee (env_header env)))
    as (res & -> & Hres); try done.
  - pose proof (total_queues (from (env_signer env)) (BaseFee (env_header env)) t Hok). unfold set_size. lia.
  - eapply (filled_after _ _ _ env (set_gasPool gp env) []); [done|done|by rewrite app_nil_r|done|exact Hres].
Qed.

(** *** The two rounds *)

(** The pending transactions: per account, of one sender, with a gas limit of
    64 bits. *)
Record pending_ok (sender : Transaction → Z) (m : gmap Z (list Transaction)) : Prop := {
  po_nonempty : ∀ a, m !! a ≠ Some [];
  po_sender : ∀ a l, m !! a = Some l → one_sender sender l;
  po_priced : queues_priced m
}.

Context (range : gmap Z (list Transaction) → list (Z * list Transaction)) (Hrange : ∀ m, range m ≡ₚ map_to_list m).

Lemma fill_round_ok interrupt m env : (∀ f, interrupt = Some f → valid_signal f) → env_ok env →
  pending_ok (from (env_signer env)) m →
  filled (from (env_signer env)) m env (fill_round keccak Ecrecover EmptyCodeHash chain chainConfig false interrupt range m env).
Proof.
  intros Hint Henv [Hne Hs Hg]. unfold fill_round. case_if; [by apply filled_here|].
  destruct (New_ok (from (env_signer env)) (BaseFee (env_header env)) m (range m)) as (t & -> & Hok & Eq); [by split|].
  assert (Hstart : ∀ a, default [] (queues (from (env_signer env)) t !! a) `sublist_of` default [] (m !! a)).
  { intros a. rewrite Eq, start_lookup. destruct (m !! a) as [[|x l]|]; cbn; [done| |done]. case_if; [done|apply sublist_nil_l]. }
  assert (Hqg : queues_priced (queues (from (env_signer env)) t)).
  { intros a q. rewrite Eq, map_lookup_imap. destruct (m !! a) as [[|x l]|] eqn:Em; cbn; [done| |done]. case_if; [|done].
    intros [= <-]. by apply (Hg a). }
  pose proof (commitTransactions_ok interrupt env t Hint Henv Hok Hqg) as [H1 H2 H3 (new & H4 & H5) H6].
  destruct (commitTransactions _ _ _ _ _ _ _ env t) as [r env']. cbn in *. split; cbn; try done; [by destruct r|].
  exists new. split; [done|]. intros a. etrans; [apply H5|apply Hstart].
Qed.

Lemma split_locals_spec locals pending a :
  let s := split_locals locals pending in
  (s.1 !! a = None ∧ s.2 !! a = pending !! a) ∨ (s.1 !! a = pending !! a ∧ s.2 !! a = None).
Proof.
  unfold split_locals. cbv zeta.
  assert (H : ∀ s, (s.1 !! a = None ∧ s.2 !! a = pending !! a) ∨ (s.1 !! a = pending !! a ∧ s.2 !! a = None) →
    let s := foldl split_step s locals in
    (s.1 !! a = None ∧ s.2 !! a = pending !! a) ∨ (s.1 !! a = pending !! a ∧ s.2 !! a = None));
    [|apply H; left; split; [apply lookup_empty|done]].
  induction locals as [|x ls IH]; intros s Hi; [done|]. cbn [foldl]. apply IH. unfold split_step.
  destruct (s.2 !! x) as [[|tx txs]|] eqn:Er; [done| |done]. cbn [fst snd]. destruct (decide (a = x)) as [->|Hne].
  - rewrite lookup_insert_eq, lookup_delete_eq. right. split; [|done]. destruct Hi as [[_ Hi]|[_ Hi]]; congruence.
  - by rewrite lookup_insert_ne, lookup_delete_ne.
Qed.

Lemma fill_ok interrupt1 interrupt2 pending locals env :
  (∀ f, interrupt1 = Some f ∨ interrupt2 = Some f → valid_signal f) → env_ok env → pending_ok (from (env_signer env)) pending →
  filled (from (env_signer env)) pending env
    (fillTransactions keccak Ecrecover EmptyCodeHash chain chainConfig false interrupt1 interrupt2 range pending locals env).
Proof.
  intros Hint Henv [Hne Hs Hg]. unfold fillTransactions.
  pose proof (split_locals_spec locals pending) as Hsp. destruct (split_locals locals pending) as [l r]. cbn [fst snd] in Hsp.
  assert (Hl : pending_ok (from (env_signer env)) l).
  { split; intros a; destruct (Hsp a) as [[E1 _]|[E1 _]]; rewrite E1; try done; first [exact (Hs a)|exact (Hg a)]. }
  assert (Hr : pending_ok (from (env_signer env)) r).
  { split; intros a; destruct (Hsp a) as [[_ E1]|[_ E1]]; rewrite E1; try done; first [exact (Hs a)|exact (Hg a)]. }
  pose proof (fill_round_ok interrupt1 l env ltac:(naive_solver) Henv Hl) as [H1 H2 H3 (new1 & H4 & H5) H6].
  assert (Hsub : ∀ a, default [] (l !! a) ++ default [] (r !! a) = default [] (pending !! a)).
  { intros a. destruct (Hsp a) as [[-> ->]|[-> ->]]; cbn; by rewrite ?app_nil_r. }
  destruct (fill_round _ _ _ _ _ _ interrupt1 range l env) as [r1 env1]; cbn [fst snd] in *.
  assert (Hdone : ∀ e : fillError, filled (from (env_signer env)) pending env (Err e : outcome fillError unit, env1)).
  { intros e. split; try done. exists new1. split; [done|]. intros a. rewrite <- Hsub. etrans; [apply H5|]. by apply sublist_inserts_r. }
  destruct r1 as [[]|e|]; [|by apply Hdone|done].
  pose proof (proj1 H3) as Esig. rewrite <- Esig in Hr.
  pose proof (fill_round_ok interrupt2 r env1 ltac:(naive_solver) H2 Hr) as HR. rewrite Esig in HR.
  eapply (filled_after _ _ _ env env1 new1); [done|done|done| |exact HR].
  intros new Hnew a. rewrite filter_app, <- Hsub. by apply sublist_app.
Qed.

(** C4. Filling a block keeps its books and terminates: from a consistent
    environment, [fillTransactions] returns (possibly interrupted, never
    panicking) with an environment in which the gas pool and the header's gas
    used add up to the gas limit, the gas used is the sum over the receipts,
    the receipts belong to the transactions one by one with the running sum
    as cumulative gas, and no account is in debt; and of every account the
    transactions added are, in order, among its pending ones, none twice. *)
Theorem fillTransactions_accounting (interrupt1 interrupt2 : option (nat → Z)) (pending : gmap Z (list Transaction)) (locals : list Z) (env : Env) :
  (∀ f, interrupt1 = Some f ∨ interrupt2 = Some f → valid_signal f) → env_ok env → pending_ok (from (env_signer env)) pending →
  let res := fillTransactions keccak Ecrecover EmptyCodeHash chain chainConfig false interrupt1 interrupt2 range pending locals env in
  res.1 ≠ Panic ∧ env_ok res.2 ∧ same_env env res.2 ∧
  ∃ new, env_txs res.2 = env_txs env ++ new ∧ in_order (from (env_signer env)) pending new.
Proof. intros Hint Henv Hp. by destruct (fill_ok interrupt1 interrupt2 pending locals env Hint Henv Hp). Qed.

Lemma env_ok_empty env : env_ok env → env_txs env = [] → env_receipts env = [] ∧ GasUsed (env_header env) = 0.
Proof.
  intros [Hh Hl Hg Hu Hc Hx Ht Hs] Htx. rewrite Htx in Hx. apply map_eq_nil in Hx. by rewrite Hu, Hx.
Qed.
Lemma NewEVMBlockContext_author h a : Engine_Author chain h = Ok a → NewEVMBlockContext h chain None = NewEVMBlockContext h chain (Some a).
Proof. intros Ha. unfold NewEVMBlockContext. by rewrite Ha. Qed.

Context {Wd : Type} (ApplyDAOHardFork : DB → DB) (Finalize : Header → list TxData → list Header → list Wd → DB → DB).

(** C3. What the worker fills, every node can execute: take a fresh block
    environment, fill it (even if interrupted), and put the transactions into
    a block without withdrawals whose header agrees on parent, number, time,
    fees, limit, difficulty and mix digest, and whose author is the coinbase
    the worker used.  From the Byzantium fork on, outside the DAO fork block,
    [Process] run on the state the worker started from accepts the block: it
    returns the worker's
    receipts (with the new block hash written into them), exactly the gas used
    of the worker's header, and hands the engine a state that cannot be told
    from the worker's; the transactions that failed on the way left no
    trace. *)
Theorem fill_then_process (interrupt1 interrupt2 : option (nat → Z)) (pending : gmap Z (list Transaction)) (locals : list Z) (env : Env)
    (block : Block TxData Wd) :
  (∀ f, interrupt1 = Some f ∨ interrupt2 = Some f → valid_signal f) → env_ok env → pending_ok (from (env_signer env)) pending →
  gasPool env = None → env_txs env = [] →
  let filledEnv := (fillTransactions keccak Ecrecover EmptyCodeHash chain chainConfig false interrupt1 interrupt2 range pending locals env).2 in
  let header := Block_Header block in
  same_ctx header (env_header env) → Engine_Author chain header = Ok (env_coinbase env) → IsByzantium chainConfig (Number header) = true →
  DAOForkSupport chainConfig && bool_decide (DAOForkBlock chainConfig = Number header) = false →
  b_transactions block = map inner (env_txs filledEnv) → default [] (b_withdrawals block) = [] →
  ∃ receipts db1,
    Process keccak Ecrecover EmptyCodeHash chain ApplyDAOHardFork Finalize chainConfig block false (env_state env) =
      (Ok (receipts, concat (map r_Logs receipts), GasUsed (env_header filledEnv)),
       Finalize header (b_transactions block) (b_uncles block) [] db1) ∧
    receipts = map (relocate (big_Uint64 (default 0 (Number header))) (Header_Hash keccak header)) (env_receipts filledEnv) ∧
    ∀ h i, sim (SetTxContext h i db1) (SetTxContext h i (env_state filledEnv)).
Proof.
  intros Hint Henv Hp Hgp Htxs. cbv zeta. intros Hctx Hauth Hbyz Hdao Hb Hw.
  destruct (fill_ok interrupt1 interrupt2 pending locals env Hint Henv Hp) as [_ Hok' (_ & Hc' & _) _ Hk].
  set (env' := (fillTransactions _ _ _ _ _ _ _ _ _ _ _ env).2) in *.
  destruct (NewEVMBlockContext_ok chain chainConfig (Block_Header block) (Some (env_coinbase env))) as (ctx & Ec & Hnum & _).
  { eapply header_ok_ctx; [exact Hctx|apply Henv]. }
  pose proof (env_ok_empty env Henv Htxs) as [Hr0 Hu0].
  destruct (Hk (env_state env) (Block_Header block) ctx Hctx Ec Hbyz) as (s & Hl & _ & Hu & Hs).
  { exists (mkApply (GasLimit (Block_Header block)) 0 (env_state env)). rewrite Htxs, Hr0, Hgp, Hu0. split_and!; try done.
    intros. apply sim_SetTxContext, Henv. }
  assert (Hlim : is_u64 (GasLimit (Block_Header block))) by (rewrite (sc_limit _ _ Hctx); apply Henv). unfold is_u64 in Hlim.
  unfold Process. rewrite Hb. unfold AddGas, MaxUint64. rewrite (proj2 (Z.ltb_ge _ 0)) by lia. rewrite u64_small by (unfold is_u64; lia).
  rewrite (NewEVMBlockContext_author _ _ Hauth), Ec. cbn [mbind outcome_bind]. rewrite Hnum, Hdao.
  rewrite Z.add_0_l, Hl, Hw. cbn [zlen length].
  eexists _, (a_db s). rewrite <- Hnum, <- Hu. split; [reflexivity|]. split; [done|exact Hs].
Qed.
End FillLemmas.

(** ** Witness: the block of the toy state *)

Definition toy_signer : Signer := londonSigner 1337.
Definition toy_pool : gmap Z (list Transaction) := {[ 1 := [mkTransaction toy_tx1 5; mkTransaction toy_tx1 6] ]}.
Definition toy_env : environment Transaction ToyDB Signer :=
  mkEnv toy_signer toy_db ∅ ∅ 0 None 3 toy_header [] [] ∅.
Definition toy_fill : outcome fillError unit * environment Transaction ToyDB Signer :=
  fillTransactions toy_digest toy_recover 0 toy_bc toy_config false None (Some (fun _ => 0))
    map_to_list toy_pool [] toy_env.

Lemma toy_pool_ok : pending_ok (tx_sender toy_digest toy_recover toy_signer) toy_pool.
Proof.
  split; intros a; unfold toy_pool.
  - rewrite lookup_singleton_Some. intros [_ H]. done.
  - intros l. rewrite lookup_singleton_Some. intros [_ <-] x y. rewrite !elem_of_cons, !elem_of_nil. intros [-> | [-> |[]]] [-> | [-> |[]]]; reflexivity.
  - intros l. rewrite lookup_singleton_Some. intros [_ <-]. repeat constructor; cbn; try lia; unfold is_u64; lia.
Qed.

Lemma toy_env_ok : env_ok toy_digest toy_config toy_env.
Proof. split; try (apply toy_header_ok); try (apply toy_db_good); try (split; [discriminate|reflexivity]); try reflexivity. Qed.

Lemma toy_fill_txs : map inner (env_txs toy_fill.2) = [toy_tx1].
Proof. vm_compute. reflexivity. Qed.

Lemma fillTransactions_accounting_witness :
  map inner (env_txs toy_fill.2) = [toy_tx1] ∧ toy_fill.1 ≠ Panic ∧ env_ok toy_digest toy_config toy_fill.2.
Proof.
  split; [exact toy_fill_txs|].
  destruct (fillTransactions_accounting toy_digest toy_recover 0 toy_bc toy_config
    ltac:(discriminate) map_to_list ltac:(reflexivity) None (Some (fun _ => 0)) toy_pool [] toy_env) as (H1 & H2 & _).
  - intros f [H|H]; [discriminate H|]. injection H as <-. intros i. split; discriminate.
  - exact toy_env_ok.
  - exact toy_pool_ok.
  - split; [exact H1|exact H2].
Defined.

Definition toy_filled_block : Block TxData unit := mkBlock toy_header [] (map inner (env_txs toy_fill.2)) None.
Lemma fill_then_process_witness :
  ∃ receipts db1,
    Process toy_digest toy_recover 0 toy_bc (fun db => db) (fun _ _ _ _ db => db)
      toy_config toy_filled_block false toy_db = (Ok (receipts, concat (map r_Logs receipts), 40510), db1) ∧ length receipts = 1%nat.
Proof.
  destruct (fill_then_process toy_digest toy_recover 0 toy_bc toy_config
    ltac:(discriminate) map_to_list ltac:(reflexivity) (fun db => db) (fun _ _ _ _ db => db) None (Some (fun _ => 0)) toy_pool [] toy_env toy_filled_block)
    as (receipts & db1 & H1 & H2 & _).
  - intros f [H|H]; [discriminate H|]. injection H as <-. intros i. split; discriminate.
  - exact toy_env_ok.
  - exact toy_pool_ok.
  - reflexivity.
  - reflexivity.
  - reflexivity.
  - reflexivity.
  - vm_compute. reflexivity.
  - reflexivity.
  - reflexivity.
  - reflexivity.
  - exists receipts, db1. split; [|rewrite H2; vm_compute; reflexivity].
    assert (E : GasUsed (env_header toy_fill.2) = 40510) by (vm_compute; reflexivity). rewrite <- E. exact H1.
Defined.
