(* ===== verification/TxList.v ===== *)
(** The transactions of one account in the pool: [sortedMap] and [list] of
    [src/go-ethereum/core/txpool/list.go].

    A [sortedMap] keeps a map from nonces to transactions, a heap of the nonces
    and a cache of the sorted transactions; a [list] adds the running cost and
    the caps that let [Filter] return early.  The heap is Go's ([Heap.v]).  Go
    visits a map in an unspecified order, here the argument [range].  A
    transaction read from a map may be nil, so the operations that collect
    transactions by their nonce return options.

    The abstract view of both is the list of the transactions in the order of
    their nonces. *)

From S2P Require Import Prelude RLP Types Receipts Fees Transactions Heap.

Abbreviation tx_nonce tx := (nonce (inner tx)).
Abbreviation tx_cost tx := (Cost (inner tx)).
Abbreviation tx_gas tx := (gas (inner tx)).

(** ** The sorted map *)

Record sortedMap := mkSorted {
  sm_items : gmap Z Transaction;
  sm_index : list Z;
  sm_cache : option (list Transaction)
}.

Definition newSortedMap : sortedMap := mkSorted ∅ [] None.

Definition by_nonce (a b : Transaction) : Prop := tx_nonce a ≤ tx_nonce b.
#[global] Instance by_nonce_dec : RelDecision by_nonce.
Proof. intros a b. unfold by_nonce. apply _. Defined.

Section SortedMap.
Context (range : gmap Z Transaction → list (Z * Transaction)).

Definition sm_Get (n : Z) (m : sortedMap) : option Transaction := sm_items m !! n.

Definition sm_Put (tx : Transaction) (m : sortedMap) : sortedMap :=
  let index := match sm_items m !! tx_nonce tx with
               | None => Push Z.ltb (sm_index m) (tx_nonce tx)
               | Some _ => sm_index m
               end in
  mkSorted (<[tx_nonce tx := tx]> (sm_items m)) index None.

(** The loop pops a nonce per turn; the length of the index bounds it. *)
Fixpoint forward_loop (fuel : nat) (threshold : Z) (items : gmap Z Transaction) (index : list Z)
    (removed : list (option Transaction)) : outcome Empty_set (list (option Transaction) * gmap Z Transaction * list Z) :=
  match fuel, index with
  | S fuel, top :: _ =>
      if top <? threshold then
        '(nonce, index) ← deref (Pop Z.ltb index);
        forward_loop fuel threshold (delete nonce items) index (removed ++ [items !! nonce])
      else Ok (removed, items, index)
  | _, _ => Ok (removed, items, index)
  end.
Definition sm_Forward (threshold : Z) (m : sortedMap) : outcome Empty_set (list (option Transaction) * sortedMap) :=
  '(removed, items, index) ← forward_loop (length (sm_index m)) threshold (sm_items m) (sm_index m) [];
  match sm_cache m with
  | None => Ok (removed, mkSorted items index None)
  | Some cache =>
      if (length cache <? length removed)%nat then Panic
      else Ok (removed, mkSorted items index (Some (drop (length removed) cache)))
  end.

Definition sm_reheap (m : sortedMap) : sortedMap :=
  mkSorted (sm_items m) (Init Z.ltb (map fst (range (sm_items m)))) None.

(** The lower-case [filter] leaves the heap as it is. *)
Definition filter_step (f : Transaction → bool) (s : list Transaction * gmap Z Transaction) (kv : Z * Transaction)
    : list Transaction * gmap Z Transaction :=
  if f kv.2 then (s.1 ++ [kv.2], delete kv.1 s.2) else s.
Definition sm_filter (f : Transaction → bool) (m : sortedMap) : list Transaction * sortedMap :=
  let '(removed, items) := foldl (filter_step f) ([], sm_items m) (range (sm_items m)) in
  (removed, mkSorted items (sm_index m) (if (0 <? length removed)%nat then None else sm_cache m)).
Definition sm_Filter (f : Transaction → bool) (m : sortedMap) : list Transaction * sortedMap :=
  let '(removed, m) := sm_filter f m in
  (removed, if (0 <? length removed)%nat then sm_reheap m else m).

Fixpoint cap_loop (n : nat) (size : Z) (index : list Z) (items : gmap Z Transaction) (drops : list (option Transaction))
    : outcome Empty_set (list (option Transaction) * gmap Z Transaction) :=
  match n with
  | O => Ok (drops, items)
  | S n =>
      if size <? 1 then Panic else
      nonce ← deref (index !! Z.to_nat (size - 1));
      cap_loop n (size - 1) index (delete nonce items) (drops ++ [items !! nonce])
  end.
Definition sm_Cap (threshold : Z) (m : sortedMap) : outcome Empty_set (list (option Transaction) * sortedMap) :=
  let size := Z.of_nat (base.size (sm_items m)) in
  if size <=? threshold then Ok ([], m) else
  let index := merge_sort Z.le (sm_index m) in
  '(drops, items) ← cap_loop (Z.to_nat (size - threshold)) size index (sm_items m) [];
  let index := Init Z.ltb (take (Z.to_nat threshold) index) in
  match sm_cache m with
  | None => Ok (drops, mkSorted items index None)
  | Some cache =>
      if (length cache <? length drops)%nat then Panic
      else Ok (drops, mkSorted items index (Some (take (length cache - length drops) cache)))
  end.

Definition sm_Remove (n : Z) (m : sortedMap) : outcome Empty_set (bool * sortedMap) :=
  match sm_items m !! n with
  | None => Ok (false, m)
  | Some _ =>
      index ← match list_find (n =.) (sm_index m) with
              | Some (i, _) => '(_, index) ← deref (Heap.Remove Z.ltb (sm_index m) i); Ok index
              | None => Ok (sm_index m)
              end;
      Ok (true, mkSorted (delete n (sm_items m)) index None)
  end.

Fixpoint ready_loop (fuel : nat) (next : Z) (items : gmap Z Transaction) (index : list Z) (ready : list (option Transaction))
    : outcome Empty_set (list (option Transaction) * gmap Z Transaction * list Z) :=
  match fuel, index with
  | S fuel, top :: _ =>
      if top =? next then
        '(_, index) ← deref (Pop Z.ltb index);
        ready_loop fuel (u64 (next + 1)) (delete next items) index (ready ++ [items !! next])
      else Ok (ready, items, index)
  | _, _ => Ok (ready, items, index)
  end.
Definition sm_Ready (start : Z) (m : sortedMap) : outcome Empty_set (list (option Transaction) * sortedMap) :=
  match sm_index m with
  | [] => Ok ([], m)
  | top :: _ =>
      if start <? top then Ok ([], m) else
      '(ready, items, index) ← ready_loop (length (sm_index m)) top (sm_items m) (sm_index m) [];
      Ok (ready, mkSorted items index None)
  end.

Definition sm_Len (m : sortedMap) : Z := Z.of_nat (base.size (sm_items m)).

(** [flatten], [Flatten] (which copies the cache) and [LastElement]. *)
Definition sm_flatten (m : sortedMap) : list Transaction * sortedMap :=
  match sm_cache m with
  | Some cache => (cache, m)
  | None =>
      let cache := merge_sort by_nonce (map snd (range (sm_items m))) in
      (cache, mkSorted (sm_items m) (sm_index m) (Some cache))
  end.
Definition sm_Flatten (m : sortedMap) : list Transaction * sortedMap := sm_flatten m.
Definition sm_LastElement (m : sortedMap) : outcome Empty_set (Transaction * sortedMap) :=
  let '(cache, m) := sm_flatten m in
  tx ← deref (list.last cache); Ok (tx, m).
End SortedMap.

(** ** The list *)

Record txlist := mkList {
  strict : bool;
  txs : sortedMap;
  costcap : Z;
  gascap : Z;
  totalcost : Z
}.

Definition newList (strict : bool) : txlist := mkList strict newSortedMap 0 0 0.
Definition set_txs (m : sortedMap) (l : txlist) : txlist := mkList (strict l) m (costcap l) (gascap l) (totalcost l).

(** [subTotalCost] reads the cost through each pointer. *)
Fixpoint subTotalCost (removed : list (option Transaction)) (l : txlist) : outcome Empty_set txlist :=
  match removed with
  | [] => Ok l
  | tx :: removed =>
      tx ← deref tx;
      subTotalCost removed (mkList (strict l) (txs l) (costcap l) (gascap l) (totalcost l - tx_cost tx))
  end.

Section List.
Context (range : gmap Z Transaction → list (Z * Transaction)).

Definition list_Contains (n : Z) (l : txlist) : bool := bool_decide (is_Some (sm_Get n (txs l))).

(** The thresholds a replacement has to reach. *)
Definition bumped (priceBump price : Z) : Z := Z.div (i64 (100 + i64 priceBump) * price) 100.

Definition list_Add (tx : Transaction) (priceBump : Z) (l : txlist) : outcome Empty_set (bool * option Transaction * txlist) :=
  let old := sm_Get (tx_nonce tx) (txs l) in
  let accept l :=
    let cost := tx_cost tx in
    let gas := tx_gas tx in
    Ok (true, old, mkList (strict l) (sm_Put tx (txs l)) (if costcap l <? cost then cost else costcap l)
                     (if gascap l <? gas then gas else gascap l) (totalcost l + cost)) in
  match old with
  | None => accept l
  | Some old =>
      if (gasFeeCap (inner tx) <=? gasFeeCap (inner old)) || (gasTipCap (inner tx) <=? gasTipCap (inner old))
      then Ok (false, None, l)
      else if (gasFeeCap (inner tx) <? bumped priceBump (gasFeeCap (inner old)))
              || (gasTipCap (inner tx) <? bumped priceBump (gasTipCap (inner old)))
      then Ok (false, None, l)
      else l ← subTotalCost [Some old] l; accept l
  end.

Definition list_Forward (threshold : Z) (l : txlist) : outcome Empty_set (list (option Transaction) * txlist) :=
  '(removed, m) ← sm_Forward threshold (txs l);
  l ← subTotalCost removed (set_txs m l);
  Ok (removed, l).

Definition list_Filter (costLimit gasLimit : Z) (l : txlist) : outcome Empty_set (list Transaction * list Transaction * txlist) :=
  if (costcap l <=? costLimit) && (gascap l <=? gasLimit) then Ok ([], [], l) else
  let l := mkList (strict l) (txs l) costLimit gasLimit (totalcost l) in
  let '(removed, m) := sm_Filter range (fun tx => (gasLimit <? tx_gas tx) || (costLimit <? tx_cost tx)) (txs l) in
  match removed with
  | [] => Ok ([], [], set_txs m l)
  | _ =>
      let lowest := foldl (fun lowest tx => if tx_nonce tx <? lowest then tx_nonce tx else lowest) MaxUint64 removed in
      let '(invalids, m) := if strict l then sm_filter range (fun tx => lowest <? tx_nonce tx) m else ([], m) in
      l ← subTotalCost (map Some removed) (set_txs m l);
      l ← subTotalCost (map Some invalids) l;
      Ok (removed, invalids, set_txs (sm_reheap range (txs l)) l)
  end.

Definition list_Cap (threshold : Z) (l : txlist) : outcome Empty_set (list (option Transaction) * txlist) :=
  '(drops, m) ← sm_Cap threshold (txs l);
  l ← subTotalCost drops (set_txs m l);
  Ok (drops, l).

Definition list_Remove (tx : Transaction) (l : txlist) : outcome Empty_set (bool * list Transaction * txlist) :=
  '(removed, m) ← sm_Remove (tx_nonce tx) (txs l);
  if negb removed then Ok (false, [], l) else
  l ← subTotalCost [Some tx] (set_txs m l);
  if strict l then
    let '(invalids, m) := sm_Filter range (fun t => tx_nonce tx <? tx_nonce t) (txs l) in
    l ← subTotalCost (map Some invalids) (set_txs m l);
    Ok (true, invalids, l)
  else Ok (true, [], l).

Definition list_Ready (start : Z) (l : txlist) : outcome Empty_set (list (option Transaction) * txlist) :=
  '(ready, m) ← sm_Ready start (txs l);
  l ← subTotalCost ready (set_txs m l);
  Ok (ready, l).

Definition list_Len (l : txlist) : Z := sm_Len (txs l).
Definition list_Empty (l : txlist) : bool := list_Len l =? 0.
Definition list_Flatten (l : txlist) : list Transaction * txlist :=
  let '(r, m) := sm_Flatten range (txs l) in (r, set_txs m l).
Definition list_LastElement (l : txlist) : outcome Empty_set (Transaction * txlist) :=
  '(tx, m) ← sm_LastElement range (txs l); Ok (tx, set_txs m l).
End List.

(** ** Sorted lists of transactions *)

Definition lt_nonce (a b : Transaction) : Prop := tx_nonce a < tx_nonce b.
Abbreviation nonce_sorted := (StronglySorted lt_nonce).

(** The map a sorted list stands for. *)
Definition keyed (l : list Transaction) : list (Z * Transaction) := map (fun tx => (tx_nonce tx, tx)) l.
Definition tx_map (l : list Transaction) : gmap Z Transaction := list_to_map (keyed l).

Lemma Zltb_order : order_ok Z.ltb.
Proof. split; intros; zbool; lia. Qed.

Lemma keyed_fst l : (keyed l).*1 = map (fun tx => tx_nonce tx) l.
Proof. unfold keyed. induction l as [|x l IH]; cbn; [done|]. by f_equal. Qed.
Lemma keyed_snd l : map snd (keyed l) = l.
Proof. unfold keyed. rewrite map_map. apply map_id. Qed.

Lemma nonce_sorted_cons x l : nonce_sorted (x :: l) ↔ (∀ y, y ∈ l → tx_nonce x < tx_nonce y) ∧ nonce_sorted l.
Proof.
  rewrite StronglySorted_cons. unfold lt_nonce. by rewrite Forall_forall.
Qed.

Lemma sorted_nodup l : nonce_sorted l → NoDup (map (fun tx => tx_nonce tx) l).
Proof.
  induction l as [|x l IH]; cbn; [constructor|]. intros [Hx Hl]%nonce_sorted_cons. constructor; [|auto].
  intros (y & Hy & Hin)%list_elem_of_fmap. specialize (Hx y Hin). lia.
Qed.

Lemma tx_map_lookup l n tx : nonce_sorted l → tx_map l !! n = Some tx ↔ tx ∈ l ∧ tx_nonce tx = n.
Proof.
  intros Hs. unfold tx_map. rewrite <- elem_of_list_to_map by (rewrite keyed_fst; by apply sorted_nodup).
  unfold keyed. rewrite list_elem_of_fmap. naive_solver.
Qed.

Lemma tx_map_perm l : nonce_sorted l → map_to_list (tx_map l) ≡ₚ keyed l.
Proof. intros Hs. unfold tx_map. apply map_to_list_to_map. rewrite keyed_fst. by apply sorted_nodup. Qed.

Lemma tx_map_size l : nonce_sorted l → base.size (tx_map l) = length l.
Proof. intros Hs. rewrite <- length_map_to_list, tx_map_perm by done. unfold keyed. by rewrite length_map. Qed.

(** A sorted list is determined by its map. *)
Lemma tx_map_elem l l' : nonce_sorted l → nonce_sorted l' → (∀ tx, tx ∈ l ↔ tx ∈ l') → l = l'.
Proof.
  intros Hl Hl' He. apply (StronglySorted_unique_strong lt_nonce); [|done|done|].
  - intros x y _ _ Hxy Hyx. unfold lt_nonce in *. lia.
  - apply NoDup_Permutation; [apply (NoDup_fmap_1 (fun tx => tx_nonce tx)); by apply sorted_nodup..|done].
Qed.

Lemma sorted_filter (P : Transaction → Prop) `{!∀ x, Decision (P x)} l : nonce_sorted l → nonce_sorted (base.filter P l).
Proof.
  induction l as [|x l IH]; [done|]. intros [Hx Hl]%nonce_sorted_cons. rewrite filter_cons.
  destruct (decide (P x)); [|auto]. apply nonce_sorted_cons. split; [|auto].
  intros y [_ Hy]%list_elem_of_filter. auto.
Qed.

Lemma tx_map_filter (P : Transaction → Prop) `{!∀ x, Decision (P x)} l : nonce_sorted l →
  tx_map (base.filter P l) = base.filter (fun kv => P kv.2) (tx_map l).
Proof.
  intros Hs. apply map_eq. intros n. apply option_eq. intros tx.
  rewrite map_lookup_filter_Some, !tx_map_lookup by auto using sorted_filter. rewrite list_elem_of_filter. naive_solver.
Qed.

Lemma tx_map_delete n l : nonce_sorted l → delete n (tx_map l) = tx_map (base.filter (fun tx => tx_nonce tx ≠ n) l).
Proof.
  intros Hs. apply map_eq. intros k. apply option_eq. intros tx.
  rewrite lookup_delete_Some, !tx_map_lookup by auto using sorted_filter. rewrite list_elem_of_filter. naive_solver.
Qed.

Lemma filter_all {A} (P : A → Prop) `{!∀ x, Decision (P x)} (l : list A) : (∀ x, x ∈ l → P x) → base.filter P l = l.
Proof.
  induction l as [|x l IH]; [done|]. intros HP. rewrite filter_cons_True by (apply HP; by left). f_equal.
  apply IH. intros. apply HP. by right.
Qed.

Lemma tx_map_tail x l : nonce_sorted (x :: l) → delete (tx_nonce x) (tx_map (x :: l)) = tx_map l.
Proof.
  intros Hs. rewrite tx_map_delete by done. apply nonce_sorted_cons in Hs as [Hx Hl].
  rewrite filter_cons_False by (intros H; by apply H). rewrite filter_all; [done|]. intros y Hy. specialize (Hx y Hy). lia.
Qed.

(** Insertion, replacing a transaction with the same nonce. *)
Fixpoint ins (tx : Transaction) (l : list Transaction) : list Transaction :=
  match l with
  | [] => [tx]
  | y :: l' =>
      if tx_nonce tx <? tx_nonce y then tx :: y :: l'
      else if tx_nonce tx =? tx_nonce y then tx :: l'
      else y :: ins tx l'
  end.
(** The transaction with a nonce. *)
Definition at_nonce (n : Z) (l : list Transaction) : option Transaction := snd <$> list_find (fun tx => tx_nonce tx = n) l.
Definition without (n : Z) (l : list Transaction) : list Transaction := base.filter (fun tx => tx_nonce tx ≠ n) l.
Definition total (l : list Transaction) : Z := foldr (fun tx s => tx_cost tx + s) 0 l.

Lemma ins_elem tx l y : nonce_sorted l → y ∈ ins tx l ↔ y = tx ∨ (y ∈ l ∧ tx_nonce y ≠ tx_nonce tx).
Proof.
  induction l as [|x l IH]; cbn [ins]; [set_solver|]. intros [Hx Hl]%nonce_sorted_cons.
  destruct (tx_nonce tx <? tx_nonce x) eqn:E1; zbool.
  { rewrite elem_of_cons. split; [intros [->|Hy]; [auto|right; split; [done|]]|naive_solver].
    apply elem_of_cons in Hy as [->|Hy]; [lia|]. specialize (Hx y Hy). lia. }
  destruct (tx_nonce tx =? tx_nonce x) eqn:E2; zbool.
  { rewrite !elem_of_cons. split; [intros [->|Hy]; [auto|right; split; [auto|]]; specialize (Hx y Hy); lia|].
    intros [->|[[->|Hy] Hn]]; [auto|lia|auto]. }
  rewrite !elem_of_cons, IH by done. split; [intros [->|[->|[Hy Hn]]]; auto with lia|naive_solver].
Qed.

Lemma ins_sorted tx l : nonce_sorted l → nonce_sorted (ins tx l).
Proof.
  induction l as [|x l IH]; cbn [ins]; [intros _; repeat constructor|]. intros Hs. pose proof Hs as [Hx Hl]%nonce_sorted_cons.
  destruct (tx_nonce tx <? tx_nonce x) eqn:E1; zbool.
  { apply nonce_sorted_cons. split; [|done]. intros y [->|Hy]%elem_of_cons; [done|]. specialize (Hx y Hy). lia. }
  destruct (tx_nonce tx =? tx_nonce x) eqn:E2; zbool.
  { apply nonce_sorted_cons. split; [|done]. intros y Hy. specialize (Hx y Hy). lia. }
  apply nonce_sorted_cons. split; [|auto]. intros y [->|[Hy _]]%ins_elem; [lia|auto|done].
Qed.

Lemma ins_map tx l : nonce_sorted l → tx_map (ins tx l) = <[tx_nonce tx := tx]> (tx_map l).
Proof.
  intros Hs. apply map_eq. intros n. apply option_eq. intros y.
  rewrite lookup_insert_Some, !tx_map_lookup by auto using ins_sorted. rewrite ins_elem by done. naive_solver.
Qed.

Lemma at_nonce_map n l : nonce_sorted l → at_nonce n l = tx_map l !! n.
Proof.
  intros Hs. unfold at_nonce. destruct (list_find _ l) as [[i tx]|] eqn:E; cbn.
  - apply list_find_Some in E as (Hi & Hn & _). symmetry. apply tx_map_lookup; [done|]. split; [|done].
    by eapply list_elem_of_lookup_2.
  - symmetry. apply eq_None_not_Some. intros [tx [Hin Hn]%tx_map_lookup]; [|done].
    apply list_find_None in E. rewrite Forall_forall in E. by apply (E tx).
Qed.

Lemma total_perm l l' : l ≡ₚ l' → total l = total l'.
Proof. unfold total. induction 1; cbn; lia. Qed.
Lemma total_app l l' : total (l ++ l') = total l + total l'.
Proof. unfold total. induction l; cbn; [done|]. fold total in *. lia. Qed.

Lemma ins_perm tx l : nonce_sorted l → ins tx l ≡ₚ tx :: without (tx_nonce tx) l.
Proof.
  intros Hs. apply NoDup_Permutation.
  - apply (NoDup_fmap_1 (fun tx => tx_nonce tx)), sorted_nodup. by apply ins_sorted.
  - constructor; [unfold without; rewrite list_elem_of_filter; naive_solver|].
    apply NoDup_filter, (NoDup_fmap_1 (fun tx => tx_nonce tx)). by apply sorted_nodup.
  - intros y. rewrite ins_elem, elem_of_cons by done. unfold without. rewrite list_elem_of_filter. naive_solver.
Qed.

Lemma without_some n l tx : nonce_sorted l → at_nonce n l = Some tx → l ≡ₚ tx :: without n l.
Proof.
  intros Hs Ht. rewrite at_nonce_map, tx_map_lookup in Ht by done. destruct Ht as [Hin Hn].
  apply NoDup_Permutation.
  - apply (NoDup_fmap_1 (fun tx => tx_nonce tx)). by apply sorted_nodup.
  - constructor; [unfold without; rewrite list_elem_of_filter; naive_solver|].
    apply NoDup_filter, (NoDup_fmap_1 (fun tx => tx_nonce tx)). by apply sorted_nodup.
  - intros y. rewrite elem_of_cons. unfold without. rewrite list_elem_of_filter. split; [|naive_solver].
    intros Hy. destruct (decide (tx_nonce y = n)) as [Hyn|]; [left|auto].
    assert (tx_map l !! n = Some y ∧ tx_map l !! n = Some tx) as [? ?] by (rewrite !tx_map_lookup by done; done). congruence.
Qed.

Lemma without_none n l : nonce_sorted l → at_nonce n l = None → without n l = l.
Proof.
  intros Hs Ht. rewrite at_nonce_map in Ht by done. apply filter_all. intros x Hx Hn.
  assert (tx_map l !! n = Some x) by (by apply tx_map_lookup). congruence.
Qed.

(** ** The sorted map implements the sorted list *)

Record core (items : gmap Z Transaction) (index : list Z) (l : list Transaction) : Prop := {
  core_sorted : nonce_sorted l;
  core_u64 : ∀ tx, tx ∈ l → is_u64 (tx_nonce tx);
  core_items : items = tx_map l;
  core_heap : is_heap Z.ltb index;
  core_index : index ≡ₚ map (fun tx => tx_nonce tx) l
}.
Definition sm_rep (m : sortedMap) (l : list Transaction) : Prop :=
  core (sm_items m) (sm_index m) l ∧ ∀ c, sm_cache m = Some c → c = l.

Lemma core_length items index l : core items index l → length index = length l.
Proof. intros H. rewrite (core_index _ _ _ H). by rewrite length_map. Qed.

Lemma core_pop items index x l : core items index (x :: l) →
  head index = Some (tx_nonce x) ∧ items !! tx_nonce x = Some x ∧
  ∃ index', Pop Z.ltb index = Some (tx_nonce x, index') ∧ core (delete (tx_nonce x) items) index' l.
Proof.
  intros [Hs Hu -> Hh Hi]. pose proof Hs as [Hx Hl]%nonce_sorted_cons.
  assert (Ht : head index = Some (tx_nonce x)).
  { destruct index as [|t index]; [by apply Permutation_nil_cons in Hi|]. cbn. f_equal.
    assert (Hm : ∀ n, n ∈ map (fun tx => tx_nonce tx) (x :: l) → t ≤ n).
    { intros n Hn. rewrite <- Hi in Hn. pose proof (heap_head Z.ltb Zltb_order (t :: index) t Hh eq_refl n Hn). zbool. lia. }
    assert (Ht : t ∈ map (fun tx => tx_nonce tx) (x :: l)) by (rewrite <- Hi; by left).
    specialize (Hm (tx_nonce x) ltac:(by left)). cbn in Ht. apply elem_of_cons in Ht as [->|Ht]; [done|].
    apply list_elem_of_fmap in Ht as (y & -> & Hy). specialize (Hx y Hy). lia. }
  split; [done|]. split; [apply tx_map_lookup; [done|]; split; [by left|done]|].
  destruct (Pop_ok Z.ltb Zltb_order index _ Hh Ht) as (index' & Hp & Hh' & Hperm & _). exists index'. split; [done|].
  rewrite tx_map_tail by done. split; try done; [intros; apply Hu; by right|].
  rewrite Hi in Hperm. cbn in Hperm. by apply Permutation_cons_inv in Hperm.
Qed.

Lemma core_nil items index : core items index [] → index = [].
Proof. intros [_ _ _ _ Hi]. cbn in Hi. by apply Permutation_nil_r in Hi. Qed.

(** Rebuilding the heap from the keys of the map. *)
Lemma core_init items index l : nonce_sorted l → (∀ tx, tx ∈ l → is_u64 (tx_nonce tx)) → items = tx_map l →
  index ≡ₚ map (fun tx => tx_nonce tx) l → core items (Init Z.ltb index) l.
Proof. intros Hs Hu -> Hi. destruct (Init_ok Z.ltb Zltb_order index) as [Hh Hp]. split; try done. by rewrite Hp. Qed.

Lemma newSortedMap_rep : sm_rep newSortedMap [].
Proof.
  split; [|done]. split; cbn; [constructor| |done| |done].
  - intros tx Htx. by apply elem_of_nil in Htx.
  - intros i k _ _ Hk. cbn in Hk. lia.
Qed.

Lemma sm_Get_rep m l n : sm_rep m l → sm_Get n m = at_nonce n l.
Proof. intros [H _]. unfold sm_Get. rewrite (core_items _ _ _ H), at_nonce_map; [done|apply H]. Qed.

Lemma sm_Len_rep m l : sm_rep m l → sm_Len m = zlen l.
Proof. intros [H _]. unfold sm_Len, zlen. rewrite (core_items _ _ _ H), tx_map_size; [done|apply H]. Qed.

Lemma sm_Put_rep m l tx : is_u64 (tx_nonce tx) → sm_rep m l → sm_rep (sm_Put tx m) (ins tx l).
Proof.
  intros Htx [[Hs Hu Hit Hh Hi] _]. split; [|done]. unfold sm_Put. cbn. split.
  - by apply ins_sorted.
  - intros y [->|[Hy _]]%ins_elem; auto.
  - by rewrite ins_map, Hit.
  - destruct (sm_items m !! _); [done|]. by apply (Push_ok Z.ltb Zltb_order).
  - rewrite ins_perm by done. cbn. rewrite Hit, <- at_nonce_map by done.
    destruct (at_nonce (tx_nonce tx) l) as [t|] eqn:E.
    + rewrite Hi. pose proof E as Et. rewrite at_nonce_map, tx_map_lookup in Et by done. destruct Et as [_ Et].
      pose proof (without_some _ _ _ Hs E) as E'.
      apply (Permutation_map (fun tx => tx_nonce tx)) in E'. cbn [map] in E'. by rewrite Et in E'.
    + rewrite without_none by done. destruct (Push_ok Z.ltb Zltb_order (sm_index m) (tx_nonce tx) Hh) as [_ ->]. by rewrite Hi.
Qed.

(** The transactions below a nonce, the run of consecutive nonces. *)
Fixpoint below (t : Z) (l : list Transaction) : list Transaction * list Transaction :=
  match l with
  | x :: l' => if tx_nonce x <? t then let '(a, b) := below t l' in (x :: a, b) else ([], l)
  | [] => ([], [])
  end.
Fixpoint run_from (n : Z) (l : list Transaction) : list Transaction * list Transaction :=
  match l with
  | x :: l' => if tx_nonce x =? n then let '(a, b) := run_from (n + 1) l' in (x :: a, b) else ([], l)
  | [] => ([], [])
  end.

Lemma below_app t l : l = (below t l).1 ++ (below t l).2.
Proof. induction l as [|x l IH]; cbn; [done|]. destruct (_ <? _); [|done]. destruct (below t l). cbn in *. by f_equal. Qed.
Lemma run_from_app l : ∀ n, l = (run_from n l).1 ++ (run_from n l).2.
Proof.
  induction l as [|x l IH]; intros n; cbn; [done|]. destruct (_ =? _); [|done].
  specialize (IH (n + 1)). destruct (run_from (n + 1) l). cbn in *. by f_equal.
Qed.

Lemma forward_loop_rep l : ∀ fuel t items index acc, core items index l → (length l ≤ fuel)%nat →
  ∃ items' index', forward_loop fuel t items index acc = Ok (acc ++ map Some (below t l).1, items', index') ∧
    core items' index' (below t l).2.
Proof.
  induction l as [|x l IH]; intros fuel t items index acc Hc Hf.
  { pose proof (core_nil _ _ Hc) as ->. cbn. rewrite app_nil_r. exists items, []. by destruct fuel. }
  cbn in Hf. destruct fuel as [|fuel]; [lia|]. destruct (core_pop _ _ _ _ Hc) as (Ht & Hx & index' & Hp & Hc').
  destruct index as [|top index]; [done|]. cbn in Ht. injection Ht as ->. cbn [forward_loop below].
  destruct (tx_nonce x <? t).
  - rewrite Hp. cbn [deref mbind outcome_bind]. destruct (IH fuel t _ _ (acc ++ [items !! tx_nonce x]) Hc' ltac:(lia)) as (i & j & -> & Hcj).
    exists i, j. rewrite Hx. destruct (below t l). cbn in *. by rewrite <- app_assoc.
  - cbn. rewrite app_nil_r. by exists items, (tx_nonce x :: index).
Qed.

Lemma sm_Forward_rep m l t : sm_rep m l →
  ∃ m', sm_Forward t m = Ok (map Some (below t l).1, m') ∧ sm_rep m' (below t l).2.
Proof.
  intros [Hc Hk]. unfold sm_Forward.
  destruct (forward_loop_rep l (length (sm_index m)) t _ _ [] Hc ltac:(by rewrite (core_length _ _ _ Hc))) as (i & j & -> & Hc').
  cbn [mbind outcome_bind app]. destruct (sm_cache m) as [c|]; [|eexists; split; [done|]; by split].
  specialize (Hk c eq_refl) as ->. pose proof (below_app t l) as E. rewrite length_map.
  rewrite (proj2 (Nat.ltb_ge _ _)) by (rewrite E at 2; rewrite length_app; lia).
  eexists. split; [done|]. split; [done|]. cbn. intros c [= <-]. rewrite E at 2. apply drop_app_length.
Qed.

Lemma ready_loop_rep l : ∀ fuel next items index acc, core items index l → (length l ≤ fuel)%nat → is_u64 next →
  ∃ items' index', ready_loop fuel next items index acc = Ok (acc ++ map Some (run_from next l).1, items', index') ∧
    core items' index' (run_from next l).2.
Proof.
  induction l as [|x l IH]; intros fuel next items index acc Hc Hf Hn.
  { pose proof (core_nil _ _ Hc) as ->. cbn. rewrite app_nil_r. exists items, []. by destruct fuel. }
  cbn in Hf. destruct fuel as [|fuel]; [lia|]. destruct (core_pop _ _ _ _ Hc) as (Ht & Hx & index' & Hp & Hc').
  destruct index as [|top index]; [done|]. cbn in Ht. injection Ht as ->. cbn [ready_loop run_from].
  destruct (tx_nonce x =? next) eqn:E; zbool; [subst next|by rewrite app_nil_r; exists items, (tx_nonce x :: index)].
  rewrite Hp. cbn [deref mbind outcome_bind].
  destruct (IH fuel (u64 (tx_nonce x + 1)) _ _ (acc ++ [items !! tx_nonce x]) Hc' ltac:(lia) (u64_range _)) as (i & j & -> & Hcj).
  exists i, j. rewrite Hx.
  assert (Er : run_from (u64 (tx_nonce x + 1)) l = run_from (tx_nonce x + 1) l).
  { destruct l as [|y l]; [done|]. pose proof (core_sorted _ _ _ Hc) as [Hxy _]%nonce_sorted_cons.
    specialize (Hxy y ltac:(by left)). pose proof (core_u64 _ _ _ Hc y ltac:(right; by left)).
    unfold is_u64 in *. by rewrite u64_small by (unfold is_u64; lia). }
  rewrite Er in *. destruct (run_from (tx_nonce x + 1) l). cbn in *. by rewrite <- app_assoc.
Qed.

(** What [Ready] returns and leaves. *)
Definition ready_split (start : Z) (l : list Transaction) : list Transaction * list Transaction :=
  match l with
  | x :: _ => if start <? tx_nonce x then ([], l) else run_from (tx_nonce x) l
  | [] => ([], [])
  end.

Lemma sm_Ready_rep m l s : sm_rep m l →
  ∃ m', sm_Ready s m = Ok (map Some (ready_split s l).1, m') ∧ sm_rep m' (ready_split s l).2.
Proof.
  intros [Hc Hk]. unfold sm_Ready. destruct l as [|x l].
  { rewrite (core_nil _ _ Hc). exists m. split; [done|by split]. }
  destruct (core_pop _ _ _ _ Hc) as (Ht & _). destruct (sm_index m) as [|top index] eqn:Ei; [done|]. cbn in Ht. injection Ht as ->.
  cbn [ready_split]. destruct (s <? tx_nonce x); [exists m; split; [done|split; [by rewrite Ei|done]]|].
  destruct (ready_loop_rep (x :: l) (length (tx_nonce x :: index)) (tx_nonce x) _ _ [] Hc) as (i & j & -> & Hc').
  - by rewrite (core_length _ _ _ Hc).
  - apply (core_u64 _ _ _ Hc). by left.
  - cbn [mbind outcome_bind app]. eexists. split; [done|]. by split.
Qed.

Lemma core_sub items index l (P : Transaction → Prop) `{!∀ x, Decision (P x)} : core items index l →
  nonce_sorted (base.filter P l) ∧ ∀ tx, tx ∈ base.filter P l → is_u64 (tx_nonce tx).
Proof.
  intros Hc. split; [by apply sorted_filter, Hc|]. intros tx [_ Htx]%list_elem_of_filter. by apply (core_u64 _ _ _ Hc).
Qed.

(** Removing from the map while ranging over it. *)
Lemma filter_fold (f : Transaction → bool) kvs : ∀ r m0,
  let '(r1, m1) := foldl (filter_step f) (r, m0) kvs in
  r1 = r ++ base.filter (fun tx => f tx = true) (map snd kvs) ∧
  ∀ (n : Z) tx, m1 !! n = Some tx ↔ m0 !! n = Some tx ∧ ¬ ∃ t, (n, t) ∈ kvs ∧ f t = true.
Proof.
  induction kvs as [|[k t] kvs IH]; intros r m0; cbn [foldl map].
  { split; [by rewrite app_nil_r|]. intros n tx. split; [|naive_solver]. intros H. split; [done|]. intros (? & []%elem_of_nil & _). }
  rewrite filter_cons. unfold filter_step at 2. cbn [fst snd]. destruct (f t) eqn:Ef.
  - specialize (IH (r ++ [t]) (delete k m0)). destruct (foldl _ _ kvs) as [r1 m1]. destruct IH as [-> IH].
    rewrite decide_True by done. split; [by rewrite <- app_assoc|]. intros n tx. rewrite IH, lookup_delete_Some.
    split.
    + intros [[Hk Hm] Hn]. split; [done|]. intros (t' & [[= -> ->]|Ht']%elem_of_cons & Hf); [done|]. naive_solver.
    + intros [Hm Hn]. split; [split; [|done]|]; [intros ->; apply Hn; exists t; split; [by left|done]|].
      intros (t' & Ht' & Hf). apply Hn. exists t'. split; [by right|done].
  - specialize (IH r m0). destruct (foldl _ _ kvs) as [r1 m1]. destruct IH as [-> IH].
    rewrite decide_False by congruence. split; [done|]. intros n tx. rewrite IH. split.
    + intros [Hm Hn]. split; [done|]. intros (t' & [[= -> ->]|Ht']%elem_of_cons & Hf); [congruence|]. naive_solver.
    + intros [Hm Hn]. split; [done|]. intros (t' & Ht' & Hf). apply Hn. exists t'. split; [by right|done].
Qed.

Section Rep.
Context (range : gmap Z Transaction → list (Z * Transaction)) (Hrange : ∀ m, range m ≡ₚ map_to_list m).

Lemma range_perm l : nonce_sorted l → range (tx_map l) ≡ₚ keyed l.
Proof. intros. by rewrite Hrange, tx_map_perm. Qed.

Abbreviation hit f l := (base.filter (fun tx => f tx = true) l).
Abbreviation keep f l := (base.filter (fun tx => f tx = false) l).

Lemma hit_keep (f : Transaction → bool) l : l ≡ₚ hit f l ++ keep f l.
Proof.
  induction l as [|x l IH]; [done|]. rewrite !filter_cons.
  destruct (f x); [rewrite decide_True, decide_False by done|rewrite decide_False, decide_True by done].
  - cbn. by rewrite <- IH.
  - rewrite <- Permutation_middle. by rewrite <- IH.
Qed.

Lemma sm_filter_rep (f : Transaction → bool) m l index : nonce_sorted l → sm_items m = tx_map l → sm_index m = index →
  (∀ c, sm_cache m = Some c → c = l) →
  ∃ removed cache, sm_filter range f m = (removed, mkSorted (tx_map (keep f l)) index cache) ∧
    removed ≡ₚ hit f l ∧ (∀ c, cache = Some c → c = keep f l).
Proof.
  intros Hs Hit Hix Hk. unfold sm_filter. rewrite Hit.
  pose proof (filter_fold f (range (tx_map l)) [] (tx_map l)) as HF.
  destruct (foldl _ _ _) as [r1 m1]. destruct HF as [Hr Hm]. exists r1. eexists. split.
  { f_equal. f_equal; [|exact Hix].
    apply map_eq. intros n. apply option_eq. intros tx. rewrite Hm, !tx_map_lookup by auto using sorted_filter.
    rewrite list_elem_of_filter. split.
    - intros [[Hin <-] Hn]. split; [|done]. split; [|done]. apply not_true_is_false. intros Hf. apply Hn. exists tx.
      split; [|done]. rewrite range_perm by done. unfold keyed. apply list_elem_of_fmap. eauto.
    - intros [[Hf Hin] <-]. split; [done|]. intros (t & Ht & Hft). rewrite range_perm in Ht by done.
      unfold keyed in Ht. apply list_elem_of_fmap in Ht as (t' & [= Hn ->] & Ht').
      assert (Some t' = Some tx); [|congruence].
      transitivity (tx_map l !! tx_nonce tx); [symmetry|]; by apply tx_map_lookup. }
  cbn [app] in Hr. subst r1.
  assert (Hp : hit f (map snd (range (tx_map l))) ≡ₚ hit f l).
  { rewrite <- (keyed_snd l) at 2. by rewrite range_perm. }
  split; [exact Hp|]. intros c. case_if; [done|]. intros Hc. apply Hk in Hc as ->. symmetry. apply filter_all.
  intros x Hx. apply not_true_is_false. intros Hf.
  match goal with E : (_ <? _)%nat = false |- _ => apply Nat.ltb_ge in E; rewrite Hp in E; rename E into El end.
  assert (x ∈ hit f l) as Hxx by (by apply list_elem_of_filter). destruct (hit f l); [by apply elem_of_nil in Hxx|cbn in El; lia].
Qed.

Lemma sm_reheap_rep m l : nonce_sorted l → (∀ tx, tx ∈ l → is_u64 (tx_nonce tx)) → sm_items m = tx_map l →
  sm_rep (sm_reheap range m) l.
Proof.
  intros Hs Hu Hit. split; [|done]. unfold sm_reheap. cbn. apply core_init; try done. rewrite Hit, <- keyed_fst.
  by rewrite range_perm.
Qed.

Lemma sm_Filter_rep (f : Transaction → bool) m l : sm_rep m l →
  ∃ removed m', sm_Filter range f m = (removed, m') ∧ removed ≡ₚ hit f l ∧ sm_rep m' (keep f l).
Proof.
  intros [Hc Hk]. destruct (sm_filter_rep f m l (sm_index m)) as (r & cache & E & Hp & Hk'); try done; [apply Hc..|].
  unfold sm_Filter. rewrite E. destruct (core_sub _ _ _ (fun tx => f tx = false) Hc) as [Hs Hu]. exists r.
  destruct r as [|t r]; cbn [length Nat.ltb Nat.leb].
  - eexists. split; [done|]. split; [done|]. split; cbn; [|done].
    assert (keep f l = l) as ->; [|destruct Hc; by split].
    apply filter_all. intros x Hx. apply not_true_is_false. intros Hf.
    assert (x ∈ hit f l) as Hxx by (by apply list_elem_of_filter). rewrite <- Hp in Hxx. by apply elem_of_nil in Hxx.
  - eexists. split; [done|]. split; [done|]. by apply sm_reheap_rep.
Qed.

Lemma map_sorted l : nonce_sorted l → StronglySorted Z.le (map (fun tx => tx_nonce tx) l).
Proof.
  induction l as [|x l IH]; cbn; [constructor|]. intros [Hx Hl]%nonce_sorted_cons. constructor; [auto|].
  apply Forall_forall. intros n (y & -> & Hy)%list_elem_of_fmap. specialize (Hx y Hy). lia.
Qed.

Lemma index_sorted items index l : core items index l → merge_sort Z.le index = map (fun tx => tx_nonce tx) l.
Proof.
  intros H. apply (StronglySorted_unique Z.le); [apply StronglySorted_merge_sort; apply _|apply map_sorted, H|].
  rewrite merge_sort_Permutation. apply H.
Qed.

Lemma nonce_sorted_app l1 l2 : nonce_sorted (l1 ++ l2) → nonce_sorted l1 ∧ nonce_sorted l2 ∧
  ∀ x y, x ∈ l1 → y ∈ l2 → tx_nonce x < tx_nonce y.
Proof. intros H. apply StronglySorted_app in H as (H & H1 & H2). split_and!; try done. Qed.

Lemma tx_map_snoc l x : nonce_sorted (l ++ [x]) →
  tx_map (l ++ [x]) !! tx_nonce x = Some x ∧ delete (tx_nonce x) (tx_map (l ++ [x])) = tx_map l.
Proof.
  intros Hs. split.
  - apply tx_map_lookup; [done|]. split; [|done]. apply elem_of_app. right. by left.
  - rewrite tx_map_delete, filter_app by done. rewrite filter_cons_False by (intros H; by apply H).
    rewrite app_nil_r, filter_all; [done|]. intros y Hy. apply nonce_sorted_app in Hs as (_ & _ & Hs).
    specialize (Hs y x Hy ltac:(by left)). lia.
Qed.

Lemma cap_loop_rep n : ∀ l suffix acc, nonce_sorted l → (n ≤ length l)%nat →
  cap_loop n (zlen l) (map (fun tx => tx_nonce tx) (l ++ suffix)) (tx_map l) acc =
  Ok (acc ++ map Some (reverse (drop (length l - n) l)), tx_map (take (length l - n) l)).
Proof.
  induction n as [|n IH]; intros l suffix acc Hs Hn; cbn [cap_loop].
  { rewrite Nat.sub_0_r, take_ge, drop_ge by lia. cbn. by rewrite app_nil_r. }
  destruct l as [|x l] using rev_ind; [cbn in Hn; lia|]. clear IHl. rewrite length_app in *. cbn in Hn.
  destruct (tx_map_snoc l x Hs) as [Hx Hd]. apply nonce_sorted_app in Hs as (Hl & _ & _).
  rewrite zlen_app, zlen_cons, zlen_nil. pose proof (zlen_nonneg l). destruct (_ <? 1) eqn:E; zbool; [lia|].
  replace (zlen l + (0 + 1) - 1) with (zlen l) by lia.
  assert (Ei : map (fun tx => tx_nonce tx) ((l ++ [x]) ++ suffix) !! Z.to_nat (zlen l) = Some (tx_nonce x)).
  { unfold zlen. rewrite Nat2Z.id, <- app_assoc, map_app, lookup_app_r; rewrite length_map; [|done].
    by rewrite Nat.sub_diag. }
  rewrite Ei. cbn [deref mbind outcome_bind]. rewrite Hx, Hd, <- app_assoc. cbn [app].
  rewrite IH by (done || lia). cbn [length]. replace (length l + 1 - S n)%nat with (length l - n)%nat by lia.
  rewrite drop_app_le, take_app_le by lia. rewrite reverse_app. cbn. by rewrite <- app_assoc.
Qed.

Lemma sm_Cap_rep m l k : 0 ≤ k → sm_rep m l →
  ∃ m', sm_Cap k m = Ok (map Some (reverse (drop (Z.to_nat k) l)), m') ∧ sm_rep m' (take (Z.to_nat k) l).
Proof.
  intros Hk [Hc Hca]. pose proof Hc as [Hs Hu Hit _ _]. unfold sm_Cap.
  rewrite Hit, tx_map_size by done. case_if.
  { exists m. rewrite drop_ge, take_ge by lia. done. }
  rewrite (index_sorted _ _ _ Hc).
  pose proof (cap_loop_rep (Z.to_nat (Z.of_nat (length l) - k)) l [] [] Hs ltac:(lia)) as E.
  rewrite app_nil_r in E. unfold zlen in E. rewrite E. cbn [mbind outcome_bind app].
  replace (length l - Z.to_nat (Z.of_nat (length l) - k))%nat with (Z.to_nat k) by lia.
  assert (Hrep : core (tx_map (take (Z.to_nat k) l)) (Init Z.ltb (take (Z.to_nat k) (map (fun tx => tx_nonce tx) l))) (take (Z.to_nat k) l)).
  { rewrite <- (take_drop (Z.to_nat k) l) in Hs. apply nonce_sorted_app in Hs as (Hs & _ & _).
    apply core_init; try done; [|by rewrite <- firstn_map]. intros tx Htx. apply Hu. by eapply elem_of_take in Htx as (? & ? & _); eapply list_elem_of_lookup_2. }
  destruct (sm_cache m) as [c|]; [|by eexists].
  specialize (Hca c eq_refl) as ->. rewrite length_map, length_reverse, length_drop.
  destruct (_ <? _)%nat eqn:El; [apply Nat.ltb_lt in El; lia|]. eexists. split; [done|]. split; [done|]. cbn.
  intros c [= <-]. f_equal. lia.
Qed.

Lemma sm_Remove_rep m l n : sm_rep m l →
  ∃ m', sm_Remove n m = Ok (bool_decide (is_Some (at_nonce n l)), m') ∧ sm_rep m' (without n l).
Proof.
  intros [Hc Hk]. pose proof Hc as [Hs Hu Hit Hh Hi]. unfold sm_Remove. rewrite Hit, <- at_nonce_map by done.
  destruct (at_nonce n l) as [t|] eqn:E.
  2:{ exists m. rewrite without_none by done. done. }
  assert (Hin : n ∈ sm_index m).
  { rewrite Hi. rewrite at_nonce_map, tx_map_lookup in E by done. destruct E as [Ht <-]. apply list_elem_of_fmap. eauto. }
  destruct (list_find _ _) as [[i x]|] eqn:Ef.
  2:{ apply list_find_None in Ef. rewrite Forall_forall in Ef. by destruct (Ef n Hin). }
  apply list_find_Some in Ef as (Hi' & <- & _). destruct (Remove_ok Z.ltb Zltb_order (sm_index m) i n Hh Hi') as (index' & -> & Hh' & Hp).
  cbn. eexists. split; [done|]. split; [|done]. cbn. destruct (core_sub _ _ _ (fun tx => tx_nonce tx ≠ n) Hc) as [Hs' Hu'].
  split; try done; [by apply tx_map_delete|]. pose proof (without_some _ _ _ Hs E) as Hw.
  apply (Permutation_map (fun tx => tx_nonce tx)) in Hw. rewrite <- Hi, Hp in Hw. cbn in Hw.
  rewrite at_nonce_map, tx_map_lookup in E by done. destruct E as [_ E]. rewrite E in Hw. by apply Permutation_cons_inv in Hw.
Qed.

#[local] Instance by_nonce_total : Total by_nonce.
Proof. intros a b. unfold by_nonce. lia. Qed.
#[local] Instance by_nonce_trans : Transitive by_nonce.
Proof. intros a b c. unfold by_nonce. lia. Qed.

Lemma sm_flatten_rep m l : sm_rep m l → ∃ m', sm_flatten range m = (l, m') ∧ sm_rep m' l.
Proof.
  intros [Hc Hk]. pose proof Hc as [Hs Hu Hit Hh Hi]. unfold sm_flatten. destruct (sm_cache m) as [c|] eqn:Ec.
  { specialize (Hk c eq_refl) as ->. exists m. split; [done|]. split; [done|]. congruence. }
  assert (Hp : map snd (range (sm_items m)) ≡ₚ l).
  { rewrite Hit. rewrite <- (keyed_snd l) at 2. by rewrite range_perm. }
  assert (E : merge_sort by_nonce (map snd (range (sm_items m))) = l).
  { apply (StronglySorted_unique_strong by_nonce); [..|by rewrite merge_sort_Permutation].
    - intros x y Hx Hy Hxy Hyx. rewrite merge_sort_Permutation, Hp in Hx. unfold by_nonce in *. apply (inj Some).
      transitivity (tx_map l !! tx_nonce x); [symmetry|]; apply tx_map_lookup; try done. split; [done|lia].
    - apply StronglySorted_merge_sort; apply _.
    - clear -Hs. induction l as [|x l IH]; [constructor|]. apply nonce_sorted_cons in Hs as [Hx Hl]. constructor; [auto|].
      apply Forall_forall. intros y Hy. specialize (Hx y Hy). unfold by_nonce. lia. }
  rewrite E. eexists. split; [done|]. split; [done|]. cbn. by intros c [= <-].
Qed.
End Rep.

(** ** The operations of a list and their specification *)

Inductive list_op :=
| OpContains (n : Z)
| OpAdd (tx : Transaction) (priceBump : Z)
| OpForward (threshold : Z)
| OpFilter (costLimit gasLimit : Z)
| OpCap (threshold : Z)
| OpRemove (tx : Transaction)
| OpReady (start : Z)
| OpLen
| OpFlatten
| OpLastElement.

Inductive list_ans :=
| AnsFound (b : bool)
| AnsAdded (b : bool) (old : option Transaction)
| AnsTxs (l : list (option Transaction))
| AnsFiltered (removed invalids : list Transaction)
| AnsRemoved (b : bool) (invalids : list Transaction)
| AnsLen (n : Z)
| AnsTx (tx : Transaction).

Definition exec_op (op : list_op) (range : gmap Z Transaction → list (Z * Transaction)) (l : txlist)
    : outcome Empty_set (list_ans * txlist) :=
  match op with
  | OpContains n => Ok (AnsFound (list_Contains n l), l)
  | OpAdd tx bump => '(b, old, l) ← list_Add tx bump l; Ok (AnsAdded b old, l)
  | OpForward t => '(r, l) ← list_Forward t l; Ok (AnsTxs r, l)
  | OpFilter c g => '(r, i, l) ← list_Filter range c g l; Ok (AnsFiltered r i, l)
  | OpCap k => '(r, l) ← list_Cap k l; Ok (AnsTxs r, l)
  | OpRemove tx => '(b, i, l) ← list_Remove range tx l; Ok (AnsRemoved b i, l)
  | OpReady s => '(r, l) ← list_Ready s l; Ok (AnsTxs r, l)
  | OpLen => Ok (AnsLen (list_Len l), l)
  | OpFlatten => let '(r, l) := list_Flatten range l in Ok (AnsTxs (map Some r), l)
  | OpLastElement => '(tx, l) ← list_LastElement range l; Ok (AnsTx tx, l)
  end.

(** A replacement must pay more, by the price bump in per cent. *)
Definition replaces (bump : Z) (old tx : Transaction) : bool :=
  (gasFeeCap (inner old) <? gasFeeCap (inner tx)) && (gasTipCap (inner old) <? gasTipCap (inner tx)) &&
  (bumped bump (gasFeeCap (inner old)) <=? gasFeeCap (inner tx)) && (bumped bump (gasTipCap (inner old)) <=? gasTipCap (inner tx)).
Definition exceeds (costLimit gasLimit : Z) (tx : Transaction) : bool := (gasLimit <? tx_gas tx) || (costLimit <? tx_cost tx).
(** The longest prefix without a transaction that satisfies [f], and the rest. *)
Fixpoint before (f : Transaction → bool) (l : list Transaction) : list Transaction * list Transaction :=
  match l with
  | x :: l' => if f x then ([], l) else let '(a, b) := before f l' in (x :: a, b)
  | [] => ([], [])
  end.
Abbreviation hits f l := (base.filter (fun tx => f tx = true) l).
Abbreviation keeps f l := (base.filter (fun tx => f tx = false) l).

Definition spec_op (strict : bool) (op : list_op) (l : list Transaction) : list_ans * list Transaction :=
  match op with
  | OpContains n => (AnsFound (bool_decide (is_Some (at_nonce n l))), l)
  | OpAdd tx bump =>
      match at_nonce (tx_nonce tx) l with
      | None => (AnsAdded true None, ins tx l)
      | Some old => if replaces bump old tx then (AnsAdded true (Some old), ins tx l) else (AnsAdded false None, l)
      end
  | OpForward t => (AnsTxs (map Some (below t l).1), (below t l).2)
  | OpFilter c g =>
      let f := exceeds c g in
      if strict then (AnsFiltered (hits f l) (keeps f (before f l).2), (before f l).1)
      else (AnsFiltered (hits f l) [], keeps f l)
  | OpCap k => (AnsTxs (map Some (reverse (drop (Z.to_nat k) l))), take (Z.to_nat k) l)
  | OpRemove tx =>
      match at_nonce (tx_nonce tx) l with
      | None => (AnsRemoved false [], l)
      | Some _ =>
          if strict then (AnsRemoved true (hits (fun t => tx_nonce tx <? tx_nonce t) l), (below (tx_nonce tx) l).1)
          else (AnsRemoved true [], without (tx_nonce tx) l)
      end
  | OpReady s => (AnsTxs (map Some (ready_split s l).1), (ready_split s l).2)
  | OpLen => (AnsLen (zlen l), l)
  | OpFlatten => (AnsTxs (map Some l), l)
  | OpLastElement => (AnsTx (default (mkTransaction (LegacyTx 0 0 0 None 0 [] (mkSig 0 0 0)) 0) (list.last l)), l)
  end.

(** What a caller must respect: transactions have 64-bit nonces and are not
    cheaper than nothing, [Cap] gets a size, [Remove] is given the transaction
    that is stored, and [LastElement] is not called on an empty list. *)
Definition op_pre (l : list Transaction) (op : list_op) : Prop :=
  match op with
  | OpAdd tx _ => is_u64 (tx_nonce tx)
  | OpCap k => 0 ≤ k
  | OpRemove tx => ∀ t, at_nonce (tx_nonce tx) l = Some t → t = tx
  | OpLastElement => l ≠ []
  | _ => True
  end.

(** Answers are the same up to the order in which [Filter] and [Remove] report. *)
Definition ans_equiv (a b : list_ans) : Prop :=
  match a, b with
  | AnsFiltered r i, AnsFiltered r' i' => r ≡ₚ r' ∧ i ≡ₚ i'
  | AnsRemoved x i, AnsRemoved x' i' => x = x' ∧ i ≡ₚ i'
  | _, _ => a = b
  end.

Record list_rep (L : txlist) (l : list Transaction) : Prop := {
  lr_txs : sm_rep (txs L) l;
  lr_total : totalcost L = total l;
  lr_caps : ∀ tx, tx ∈ l → tx_cost tx ≤ costcap L ∧ tx_gas tx ≤ gascap L
}.

Lemma subTotalCost_ok r : ∀ L, subTotalCost (map Some r) L =
  Ok (mkList (strict L) (txs L) (costcap L) (gascap L) (totalcost L - total r)).
Proof.
  induction r as [|x r IH]; intros L; cbn [map subTotalCost deref mbind outcome_bind].
  { destruct L. cbn. by rewrite Z.sub_0_r. }
  rewrite IH. cbn. do 2 f_equal. unfold total. lia.
Qed.

Lemma subTotalCost_one x L : subTotalCost [Some x] L =
  Ok (mkList (strict L) (txs L) (costcap L) (gascap L) (totalcost L - tx_cost x)).
Proof. done. Qed.

Lemma before_app f l : l = (before f l).1 ++ (before f l).2.
Proof. induction l as [|x l IH]; cbn; [done|]. destruct (f x); [done|]. destruct (before f l). cbn in *. by f_equal. Qed.
Lemma before_keep f l : ∀ x, x ∈ (before f l).1 → f x = false.
Proof.
  induction l as [|y l IH]; cbn; [by intros x []%elem_of_nil|]. destruct (f y) eqn:E; [by intros x []%elem_of_nil|].
  destruct (before f l). cbn in *. intros x [->|Hx]%elem_of_cons; auto.
Qed.
Lemma before_next f l : match (before f l).2 with x :: _ => f x = true | [] => True end.
Proof. induction l as [|y l IH]; cbn; [done|]. destruct (f y) eqn:E; [done|]. by destruct (before f l). Qed.

(** The smallest nonce of a list of transactions, in whatever order. *)
Lemma lowest_fold r : ∀ m, foldl (fun lowest tx => if tx_nonce tx <? lowest then tx_nonce tx else lowest) m r =
  foldr (fun tx m => Z.min (tx_nonce tx) m) m r.
Proof.
  assert (G : ∀ r m x, foldr (fun tx m => Z.min (tx_nonce tx) m) (Z.min x m) r = Z.min x (foldr (fun tx m => Z.min (tx_nonce tx) m) m r)).
  { clear. induction r as [|y r IH]; intros; cbn; [done|]. rewrite IH. lia. }
  induction r as [|x r IH]; intros m; cbn; [done|]. rewrite IH, <- G. f_equal. destruct (_ <? _) eqn:E; zbool; lia.
Qed.
Lemma lowest_of r l x b : r ≡ₚ x :: l → b = MaxUint64 → (∀ y, y ∈ l → tx_nonce x ≤ tx_nonce y) → is_u64 (tx_nonce x) →
  foldl (fun lowest tx => if tx_nonce tx <? lowest then tx_nonce tx else lowest) b r = tx_nonce x.
Proof.
  intros Hp -> Hl Hx. rewrite lowest_fold.
  assert (E : foldr (fun tx m => Z.min (tx_nonce tx) m) MaxUint64 r = foldr (fun tx m => Z.min (tx_nonce tx) m) MaxUint64 (x :: l)).
  { clear -Hp. induction Hp; cbn; lia. }
  rewrite E. cbn. apply Z.min_l. clear -Hl Hx. unfold is_u64, MaxUint64 in *. induction l as [|y l IH]; cbn; [lia|].
  pose proof (Hl y ltac:(by left)). specialize (IH ltac:(intros z Hz; apply Hl; by right)). lia.
Qed.

Lemma rep_shrink L l l' r m : list_rep L l → l ≡ₚ r ++ l' → sm_rep m l' →
  list_rep (mkList (strict L) m (costcap L) (gascap L) (totalcost L - total r)) l'.
Proof.
  intros [_ Ht Hc] Hp Hm. split; cbn; [done| |].
  - rewrite Ht, (total_perm _ _ Hp), total_app. lia.
  - intros tx Htx. apply Hc. rewrite Hp. apply elem_of_app. by right.
Qed.

Lemma none_hit (f : Transaction → bool) l : (∀ x, x ∈ l → f x = false) → hits f l = [] ∧ keeps f l = l ∧ before f l = (l, []).
Proof.
  induction l as [|x l IH]; [done|]. intros H. pose proof (H x ltac:(by left)) as Hx.
  destruct IH as (H1 & H2 & H3); [intros; apply H; by right|].
  rewrite filter_cons_False by congruence. rewrite filter_cons_True by done. cbn [before]. rewrite Hx, H1, H2, H3. done.
Qed.
Lemma hits_nil (f : Transaction → bool) l : hits f l = [] → ∀ x, x ∈ l → f x = false.
Proof.
  intros H x Hx. apply not_true_is_false. intros Hf. assert (Hin : x ∈ hits f l) by (by apply list_elem_of_filter).
  rewrite H in Hin. by apply elem_of_nil in Hin.
Qed.
Lemma all_hit (f : Transaction → bool) l : (∀ x, x ∈ l → f x = true) → hits f l = l ∧ keeps f l = [].
Proof.
  induction l as [|x l IH]; [done|]. intros H. pose proof (H x ltac:(by left)) as Hx.
  destruct IH as (H1 & H2); [intros; apply H; by right|].
  rewrite filter_cons_True by done. rewrite filter_cons_False by congruence. by rewrite H1, H2.
Qed.

Lemma exceeds_false c g tx : exceeds c g tx = false ↔ tx_cost tx ≤ c ∧ tx_gas tx ≤ g.
Proof. unfold exceeds. rewrite orb_false_iff, !Z.ltb_ge. tauto. Qed.

(** In a sorted list the first transaction that satisfies [f] has the lowest nonce. *)
Lemma strict_split (f : Transaction → bool) l r : nonce_sorted l → (∀ tx, tx ∈ l → is_u64 (tx_nonce tx)) → r ≡ₚ hits f l → r ≠ [] →
  let lowest := foldl (fun lowest tx => if tx_nonce tx <? lowest then tx_nonce tx else lowest) MaxUint64 r in
  let over tx := lowest <? tx_nonce tx in
  hits over (keeps f l) = keeps f (before f l).2 ∧ keeps over (keeps f l) = (before f l).1.
Proof.
  intros Hs Hu Hp Hr. cbv zeta. pose proof (before_app f l) as El. pose proof (before_keep f l) as Hk. pose proof (before_next f l) as Hn.
  destruct (before f l) as [a b]. cbn [fst snd] in *. subst l. destruct (none_hit f a Hk) as (Ha1 & Ha2 & _).
  rewrite filter_app, Ha1 in Hp. rewrite filter_app, Ha2. cbn [app] in Hp.
  destruct b as [|x b]; [by apply Permutation_nil_r in Hp|]. rewrite filter_cons_True in Hp by done.
  apply nonce_sorted_app in Hs as (_ & [Hx _]%nonce_sorted_cons & Hab).
  rewrite (lowest_of r (hits f b) x MaxUint64); [|done|done| |apply Hu; apply elem_of_app; right; by left].
  2:{ intros y [_ Hy]%list_elem_of_filter. specialize (Hx y Hy). lia. }
  rewrite filter_cons_False by congruence.
  destruct (none_hit (fun tx => tx_nonce x <? tx_nonce tx) a) as (Hna & Hka & _).
  { intros y Hy. apply Z.ltb_ge. specialize (Hab y x Hy ltac:(by left)). lia. }
  destruct (all_hit (fun tx => tx_nonce x <? tx_nonce tx) (keeps f b)) as (Hnb & Hkb).
  { intros y [_ Hy]%list_elem_of_filter. apply Z.ltb_lt. auto. }
  rewrite !filter_app, Hna, Hka, Hnb, Hkb. by rewrite app_nil_r.
Qed.

Lemma replaces_code bump old tx : replaces bump old tx =
  negb ((gasFeeCap (inner tx) <=? gasFeeCap (inner old)) || (gasTipCap (inner tx) <=? gasTipCap (inner old))) &&
  negb ((gasFeeCap (inner tx) <? bumped bump (gasFeeCap (inner old))) || (gasTipCap (inner tx) <? bumped bump (gasTipCap (inner old)))).
Proof.
  unfold replaces. apply eq_true_iff_eq.
  rewrite !andb_true_iff, !negb_true_iff, !orb_false_iff, !Z.ltb_lt, !Z.leb_le, !Z.leb_gt, !Z.ltb_ge. tauto.
Qed.

Lemma filter_none {A} (P : A → Prop) `{!∀ x, Decision (P x)} (l : list A) : (∀ x, x ∈ l → ¬ P x) → base.filter P l = [].
Proof.
  induction l as [|x l IH]; [done|]. intros HP. rewrite filter_cons_False by (apply HP; by left). apply IH.
  intros. apply HP. by right.
Qed.

Section ListRep.
Context (range : gmap Z Transaction → list (Z * Transaction)) (Hrange : ∀ m, range m ≡ₚ map_to_list m).

(** One operation: no panic, the specified answer, the specified list. *)
Definition refined (op : list_op) (L : txlist) (l : list Transaction) : Prop :=
  ∃ a L', exec_op op range L = Ok (a, L') ∧ ans_equiv a (spec_op (strict L) op l).1 ∧
    strict L' = strict L ∧ list_rep L' (spec_op (strict L) op l).2.

Lemma refined_Add L l tx bump : list_rep L l → is_u64 (tx_nonce tx) → refined (OpAdd tx bump) L l.
Proof.
  intros HL Hu. pose proof HL as [Hm Ht Hc]. pose proof (core_sorted _ _ _ (proj1 Hm)) as Hs.
  unfold refined. cbn [exec_op spec_op]. unfold list_Add. rewrite (sm_Get_rep _ _ _ Hm).
  assert (Hcap : ∀ t, t ∈ ins tx l → tx_cost t ≤ (if costcap L <? tx_cost tx then tx_cost tx else costcap L) ∧
                                     tx_gas t ≤ (if gascap L <? tx_gas tx then tx_gas tx else gascap L)).
  { intros t Hin. apply ins_elem in Hin; [|done]. destruct Hin as [->|[Hin _]]; [|specialize (Hc t Hin)]; split; case_if; lia. }
  destruct (at_nonce (tx_nonce tx) l) as [old|] eqn:E.
  - rewrite replaces_code.
    destruct ((gasFeeCap (inner tx) <=? _) || _); cbn [andb negb mbind outcome_bind]; [by eexists _, _|].
    destruct ((gasFeeCap (inner tx) <? _) || _); cbn [negb mbind outcome_bind]; [by eexists _, _|].
    rewrite subTotalCost_one. cbn [mbind outcome_bind strict txs costcap gascap totalcost].
    eexists _, _. split; [done|]. split; [done|]. split; [done|]. split; cbn [txs totalcost costcap gascap snd]; [by apply sm_Put_rep| |done].
    rewrite Ht, (total_perm _ _ (ins_perm tx l Hs)). rewrite (total_perm _ _ (without_some _ _ _ Hs E)). unfold total. cbn. lia.
  - cbn [mbind outcome_bind]. eexists _, _. split; [done|]. split; [done|]. split; [done|]. split; cbn [txs totalcost costcap gascap snd]; [by apply sm_Put_rep| |done].
    rewrite Ht, (total_perm _ _ (ins_perm tx l Hs)), without_none by done. unfold total. cbn. lia.
Qed.

Lemma refined_Forward L l t : list_rep L l → refined (OpForward t) L l.
Proof.
  intros HL. destruct (sm_Forward_rep _ _ t (lr_txs _ _ HL)) as (m & E & Hm). unfold refined. cbn [exec_op spec_op]. unfold list_Forward.
  rewrite E. cbn [mbind outcome_bind]. rewrite subTotalCost_ok. cbn. eexists _, _. do 3 (split; [done|]).
  eapply rep_shrink; [done| |done]. by rewrite <- below_app.
Qed.

Lemma refined_Ready L l s : list_rep L l → refined (OpReady s) L l.
Proof.
  intros HL. destruct (sm_Ready_rep _ _ s (lr_txs _ _ HL)) as (m & E & Hm). unfold refined. cbn [exec_op spec_op]. unfold list_Ready.
  rewrite E. cbn [mbind outcome_bind]. rewrite subTotalCost_ok. cbn. eexists _, _. do 3 (split; [done|]).
  eapply rep_shrink; [done| |done]. unfold ready_split. destruct l as [|x l]; [done|]. case_if; [done|]. by rewrite <- run_from_app.
Qed.

Lemma refined_Cap L l k : list_rep L l → 0 ≤ k → refined (OpCap k) L l.
Proof.
  intros HL Hk. destruct (sm_Cap_rep _ _ k Hk (lr_txs _ _ HL)) as (m & E & Hm). unfold refined. cbn [exec_op spec_op]. unfold list_Cap.
  rewrite E. cbn [mbind outcome_bind]. rewrite subTotalCost_ok. cbn. eexists _, _. do 3 (split; [done|]).
  eapply rep_shrink; [done| |done]. rewrite reverse_Permutation. rewrite Permutation_app_comm. by rewrite take_drop.
Qed.

Lemma refined_Remove L l tx : list_rep L l → (∀ t, at_nonce (tx_nonce tx) l = Some t → t = tx) → refined (OpRemove tx) L l.
Proof.
  intros HL Hpre. pose proof HL as [Hm Ht Hc]. pose proof (core_sorted _ _ _ (proj1 Hm)) as Hs.
  unfold refined. cbn [exec_op spec_op]. unfold list_Remove.
  destruct (sm_Remove_rep (txs L) l (tx_nonce tx) Hm) as (m & E & Hm'). rewrite E. cbn [mbind outcome_bind].
  destruct (at_nonce (tx_nonce tx) l) as [t|] eqn:Et.
  2:{ rewrite bool_decide_false by (by intros [? ?]). cbn. eexists _, _. split; [done|]. split; [by split|]. done. }
  specialize (Hpre t eq_refl) as ->. rewrite bool_decide_true by eauto. cbn [negb]. rewrite subTotalCost_one.
  cbn [mbind outcome_bind strict txs set_txs costcap gascap totalcost].
  pose proof (without_some _ _ _ Hs Et) as Hw.
  assert (HL1 : list_rep (mkList (strict L) m (costcap L) (gascap L) (totalcost L - total [tx])) (without (tx_nonce tx) l)).
  { by eapply rep_shrink. }
  unfold total in HL1 at 1. cbn [foldr] in HL1. rewrite Z.add_0_r in HL1.
  destruct (strict L) eqn:Est.
  2:{ eexists _, _. split; [done|]. split; [by split|]. done. }
  set (f := fun t => tx_nonce tx <? tx_nonce t).
  destruct (sm_Filter_rep range Hrange f m _ Hm') as (r & m2 & E2 & Hp & Hm2). rewrite E2.
  rewrite subTotalCost_ok. cbn [mbind outcome_bind strict txs set_txs costcap gascap totalcost].
  assert (Hk : keeps f (without (tx_nonce tx) l) = (below (tx_nonce tx) l).1 ∧ hits f (without (tx_nonce tx) l) = hits f l).
  { clear -Hs. unfold without, f. rewrite !list_filter_filter. split.
    - induction l as [|x l IH]; [done|]. apply nonce_sorted_cons in Hs as [Hx Hl]. rewrite filter_cons. cbn [below].
      destruct (tx_nonce x <? tx_nonce tx) eqn:E; zbool.
      + rewrite decide_True by (split; [apply Z.ltb_ge|]; lia). specialize (IH Hl). destruct (below (tx_nonce tx) l). cbn in *. by rewrite IH.
      + rewrite decide_False by (intros [H1 H2]; zbool; lia). cbn.
        apply filter_none. intros y Hy [H1 H2]. specialize (Hx y Hy). zbool. lia.
    - apply list_filter_iff. intros x. rewrite Z.ltb_lt. lia. }
  destruct Hk as [Hk1 Hk2]. rewrite Hk1 in Hm2. rewrite Hk2 in Hp.
  eexists _, _. split; [done|]. split; [by split|]. split; [done|].
  apply (rep_shrink _ _ (below (tx_nonce tx) l).1 r m2) in HL1; [done| |done].
  rewrite (hit_keep f), Hk1, Hk2. by rewrite Hp.
Qed.

Lemma caps_kept L c g l' m : (∀ x, x ∈ l' → exceeds c g x = false) → sm_rep m l' → totalcost L = total l' →
  list_rep (mkList (strict L) m c g (totalcost L)) l'.
Proof. intros Hx Hm Ht. split; cbn; [done|done|]. intros tx Htx. by apply exceeds_false, Hx. Qed.

Lemma refined_Filter L l c g : list_rep L l → refined (OpFilter c g) L l.
Proof.
  intros HL. pose proof HL as [Hm Ht Hc]. pose proof (proj1 Hm) as Hcore. unfold refined. cbn [exec_op spec_op]. unfold list_Filter.
  set (f := exceeds c g).
  assert (Hnone : (∀ x, x ∈ l → f x = false) → ∀ L', strict L' = strict L → list_rep L' l →
    ∃ a L1, (Ok (AnsFiltered [] [], L') : outcome Empty_set _) = Ok (a, L1) ∧
      ans_equiv a (if strict L then (AnsFiltered (hits f l) (keeps f (before f l).2), (before f l).1) else (AnsFiltered (hits f l) [], keeps f l)).1 ∧
      strict L1 = strict L ∧
      list_rep L1 (if strict L then (AnsFiltered (hits f l) (keeps f (before f l).2), (before f l).1) else (AnsFiltered (hits f l) [], keeps f l)).2).
  { intros Hf L' Hs' HL'. destruct (none_hit f l Hf) as (H1 & H2 & H3). rewrite H1, H2, H3. eexists _, _. split; [reflexivity|].
    destruct (strict L); done. }
  destruct ((_ <=? _) && _) eqn:Ecap; zbool.
  { apply Hnone; [|done|done]. intros x Hx. apply exceeds_false. specialize (Hc x Hx). lia. }
  cbn [txs strict set_txs totalcost costcap gascap].
  destruct (sm_Filter_rep range Hrange f (txs L) l Hm) as (r & m & Er & Hp & Hm'). unfold f, exceeds in Er. rewrite Er. fold f in Hp, Hm'.
  destruct r as [|t r].
  { apply Permutation_nil_l in Hp. symmetry in Hp. pose proof (hits_nil f l Hp) as Hf. cbn [mbind outcome_bind].
    apply Hnone; [done|done|]. destruct (none_hit f l Hf) as (_ & H2 & _). rewrite H2 in Hm'.
    apply caps_kept; [done|done|done]. }
  set (r' := t :: r) in *. cbv zeta. destruct (core_sub _ _ _ (fun tx => f tx = false) Hcore) as [Hsk Huk].
  assert (Hkeep : ∀ x, x ∈ keeps f l → f x = false) by (intros x Hx; by apply list_elem_of_filter in Hx as [? _]).
  pose proof (hit_keep f l) as Hhk. rewrite <- Hp in Hhk.
  destruct (strict L) eqn:Est; cbn [mbind outcome_bind].
  - destruct (strict_split f l r' (core_sorted _ _ _ Hcore) (core_u64 _ _ _ Hcore) Hp ltac:(done)) as [Hh Hk].
    set (over := fun tx => _ <? tx_nonce tx) in |- *.
    change (hits over (keeps f l) = keeps f (before f l).2) in Hh. change (keeps over (keeps f l) = (before f l).1) in Hk.
    destruct (sm_filter_rep range Hrange over m (keeps f l) (sm_index m)) as (i & cache & -> & Hi & _); [done|apply Hm'|done|apply Hm'|].
    rewrite subTotalCost_ok. cbn [mbind outcome_bind]. rewrite subTotalCost_ok. cbn [mbind outcome_bind strict txs set_txs costcap gascap totalcost].
    eexists _, _. split; [reflexivity|]. cbn [fst snd ans_equiv]. rewrite Hh in Hi. split; [done|]. split; [done|].
    pose proof (hit_keep over (keeps f l)) as Hsum. rewrite Hh, Hk, <- Hi in Hsum.
    assert (Hrep : sm_rep (sm_reheap range (mkSorted (tx_map (keeps over (keeps f l))) (sm_index m) cache)) (keeps over (keeps f l))).
    { apply sm_reheap_rep; [done|by apply sorted_filter| |done]. intros tx [_ Htx]%list_elem_of_filter. auto. }
    rewrite Hk in Hrep |- *.
    split; cbn [strict txs set_txs costcap gascap totalcost]; [done| |].
    + rewrite Ht, (total_perm _ _ Hhk), total_app, (total_perm _ _ Hsum), total_app. lia.
    + intros tx Htx. apply exceeds_false, Hkeep. rewrite <- Hk in Htx. by apply list_elem_of_filter in Htx as [_ ?].
  - cbn [map subTotalCost]. rewrite subTotalCost_ok. cbn [mbind outcome_bind strict txs set_txs costcap gascap totalcost].
    eexists _, _. split; [reflexivity|]. split; [done|]. split; [done|]. cbn [snd].
    split; cbn [strict txs set_txs costcap gascap totalcost].
    + apply sm_reheap_rep; [done..|apply Hm'].
    + rewrite Ht, (total_perm _ _ Hhk), total_app. lia.
    + intros tx Htx. by apply exceeds_false, Hkeep.
Qed.

Lemma rep_same L l m : list_rep L l → sm_rep m l → list_rep (set_txs m L) l.
Proof. intros [_ Ht Hc] Hm. by split. Qed.

Lemma op_refined op L l : list_rep L l → op_pre l op → refined op L l.
Proof.
  intros HL Hpre. destruct op; cbn [op_pre] in Hpre.
  - eexists _, _. split; [reflexivity|]. cbn. unfold list_Contains. by rewrite (sm_Get_rep _ _ _ (lr_txs _ _ HL)).
  - by apply refined_Add.
  - by apply refined_Forward.
  - by apply refined_Filter.
  - by apply refined_Cap.
  - by apply refined_Remove.
  - by apply refined_Ready.
  - eexists _, _. split; [reflexivity|]. cbn. unfold list_Len. by rewrite (sm_Len_rep _ _ (lr_txs _ _ HL)).
  - unfold refined. cbn [exec_op spec_op]. unfold list_Flatten, sm_Flatten.
    destruct (sm_flatten_rep range Hrange _ _ (lr_txs _ _ HL)) as (m & -> & Hm). eexists _, _. split; [reflexivity|].
    do 2 (split; [done|]). by apply rep_same.
  - unfold refined. cbn [exec_op spec_op]. unfold list_LastElement, sm_LastElement.
    destruct (sm_flatten_rep range Hrange _ _ (lr_txs _ _ HL)) as (m & -> & Hm).
    destruct (list.last l) as [tx|] eqn:El; [|by apply last_None in El].
    cbn [deref mbind outcome_bind]. eexists _, _. split; [reflexivity|]. do 2 (split; [done|]). by apply rep_same.
Qed.
End ListRep.

(** A run of operations, each with its own order of ranging over the map. *)
Abbreviation ordering := (gmap Z Transaction → list (Z * Transaction)).
Fixpoint run_list (ops : list (list_op * ordering)) (L : txlist) : outcome Empty_set (list list_ans * txlist) :=
  match ops with
  | [] => Ok ([], L)
  | (op, range) :: ops =>
      '(a, L) ← exec_op op range L;
      '(answers, L) ← run_list ops L;
      Ok (a :: answers, L)
  end.
Fixpoint spec_run (strict : bool) (ops : list (list_op * ordering)) (l : list Transaction) : list list_ans * list Transaction :=
  match ops with
  | [] => ([], l)
  | (op, _) :: ops =>
      let '(a, l) := spec_op strict op l in
      let '(answers, l) := spec_run strict ops l in (a :: answers, l)
  end.
Fixpoint admissible (strict : bool) (ops : list (list_op * ordering)) (l : list Transaction) : Prop :=
  match ops with
  | [] => True
  | (op, range) :: ops => op_pre l op ∧ (∀ m, range m ≡ₚ map_to_list m) ∧ admissible strict ops (spec_op strict op l).2
  end.

Lemma run_refined ops : ∀ L l, list_rep L l → admissible (strict L) ops l →
  ∃ answers L', run_list ops L = Ok (answers, L') ∧ Forall2 ans_equiv answers (spec_run (strict L) ops l).1 ∧
    strict L' = strict L ∧ list_rep L' (spec_run (strict L) ops l).2.
Proof.
  induction ops as [|[op range] ops IH]; intros L l HL Hadm; cbn [run_list spec_run admissible] in *.
  { eexists _, _. split; [reflexivity|]. done. }
  destruct Hadm as (Hpre & Hr & Hadm). destruct (op_refined range Hr op L l HL Hpre) as (a & L1 & -> & Ha & Hs1 & HL1).
  cbn [mbind outcome_bind]. destruct (spec_op (strict L) op l) as [a' l1]. cbn [fst snd] in *. rewrite <- Hs1 in Hadm |- *.
  destruct (IH L1 l1 HL1 Hadm) as (as' & L2 & -> & Has & Hs2 & HL2). cbn [mbind outcome_bind].
  destruct (spec_run (strict L1) ops l1) as [bs l2]. cbn [fst snd] in *.
  eexists _, _. split; [reflexivity|]. split; [by constructor|]. split; [congruence|done].
Qed.

(** C12. The transactions of an account. A list of the pool, strict or not,
    behaves under every admissible sequence of calls as a list of
    transactions sorted by nonce, whatever the order in which Go ranges over
    its map: no call panics and each returns what the specification returns
    ([Filter] and [Remove] up to order). In strict mode [Filter] keeps the
    longest prefix within the limits, and [Remove] the transactions before the
    removed one. The running total is the sum of the costs of the transactions
    that are left, and the caps, which let [Filter] return early, bound them. *)
Theorem list_refines (b : bool) (ops : list (list_op * ordering)) : admissible b ops [] →
  ∃ answers L, run_list ops (newList b) = Ok (answers, L) ∧ Forall2 ans_equiv answers (spec_run b ops []).1 ∧
    let l := (spec_run b ops []).2 in
    totalcost L = total l ∧ (∀ tx, tx ∈ l → tx_cost tx ≤ costcap L ∧ tx_gas tx ≤ gascap L) ∧ list_Len L = zlen l ∧
    ∀ n, list_Contains n L = bool_decide (is_Some (at_nonce n l)).
Proof.
  intros Hadm. destruct (run_refined ops (newList b) []) as (as' & L & E & Has & _ & HL); [|done|].
  { split; cbn; [apply newSortedMap_rep|done|]. by intros tx []%elem_of_nil. }
  exists as', L. split; [done|]. split; [done|]. cbv zeta. split; [apply HL|]. split; [apply HL|]. split.
  - unfold list_Len. by rewrite (sm_Len_rep _ _ (lr_txs _ _ HL)).
  - intros n. unfold list_Contains. by rewrite (sm_Get_rep _ _ _ (lr_txs _ _ HL)).
Qed.

(** ** Strict lists have no gaps *)

Definition contiguous (l : list Transaction) : Prop := ∃ n, map (fun tx => tx_nonce tx) l = seqZ n (zlen l).
(** An [Add] that leaves no gap: into an empty list, in place of a
    transaction, or at the end. *)
Definition extends (l : list Transaction) (op : list_op) : Prop :=
  match op with
  | OpAdd tx _ => l = [] ∨ is_Some (at_nonce (tx_nonce tx) l) ∨ ∃ y, list.last l = Some y ∧ tx_nonce tx = tx_nonce y + 1
  | _ => True
  end.
Fixpoint gapless (ops : list (list_op * ordering)) (l : list Transaction) : Prop :=
  match ops with
  | [] => True
  | (op, _) :: ops => extends l op ∧ gapless ops (spec_op true op l).2
  end.

Lemma contiguous_infix a b c : contiguous (a ++ b ++ c) → contiguous b.
Proof.
  intros [n Hn]. exists (n + zlen a). rewrite !map_app, !zlen_app in Hn. unfold zlen in *.
  rewrite !seqZ_app in Hn by lia. apply app_inj_1 in Hn as [_ Hn]; [|rewrite length_map, length_seqZ; lia].
  by apply app_inj_1 in Hn as [Hn _]; [|rewrite length_map, length_seqZ; lia].
Qed.
Lemma contiguous_prefix a b : contiguous (a ++ b) → contiguous a.
Proof. apply (contiguous_infix [] a b). Qed.
Lemma contiguous_suffix a b : contiguous (a ++ b) → contiguous b.
Proof. intros H. apply (contiguous_infix a b []). by rewrite app_nil_r. Qed.

Lemma contiguous_sorted l : contiguous l → nonce_sorted l.
Proof.
  induction l as [|x l IH]; [constructor|]. intros Hc. apply nonce_sorted_cons. split; [|by apply IH, (contiguous_suffix [x])].
  destruct Hc as [n Hn]. cbn [map] in Hn. rewrite zlen_cons, seqZ_cons in Hn by (pose proof (zlen_nonneg l); lia).
  injection Hn as Hx Hl. intros y Hy. assert (Hin : tx_nonce y ∈ map (fun tx => tx_nonce tx) l) by (apply list_elem_of_fmap; eauto).
  rewrite Hl in Hin. apply elem_of_seqZ in Hin. lia.
Qed.

Lemma ins_nonces tx l t : nonce_sorted l → at_nonce (tx_nonce tx) l = Some t →
  map (fun tx => tx_nonce tx) (ins tx l) = map (fun tx => tx_nonce tx) l.
Proof.
  intros Hs Ht. apply (StronglySorted_unique Z.le); [apply map_sorted; by auto using ins_sorted..|].
  pose proof (Permutation_map (fun tx => tx_nonce tx) (ins_perm tx l Hs)) as H1.
  pose proof (Permutation_map (fun tx => tx_nonce tx) (without_some _ _ _ Hs Ht)) as H2.
  rewrite at_nonce_map, tx_map_lookup in Ht by done. destruct Ht as [_ Ht]. cbn [map] in H1, H2. rewrite Ht in H2. by rewrite H1, H2.
Qed.

Lemma ins_last tx l y : nonce_sorted l → list.last l = Some y → tx_nonce y < tx_nonce tx → ins tx l = l ++ [tx].
Proof.
  intros Hs Hl Hy. apply last_Some in Hl as [l' ->]. apply nonce_sorted_app in Hs as (_ & _ & Hs).
  assert (H : ∀ x, x ∈ l' ++ [y] → tx_nonce x < tx_nonce tx).
  { intros x [Hx|Hx]%elem_of_app; [specialize (Hs x y Hx ltac:(by left)); lia|]. by apply list_elem_of_singleton in Hx as ->. }
  clear -H. induction (l' ++ [y]) as [|x l IH]; [done|]. cbn [ins app]. pose proof (H x ltac:(by left)).
  rewrite (proj2 (Z.ltb_ge _ _)), (proj2 (Z.eqb_neq _ _)) by lia. rewrite IH; [done|]. intros. apply H. by right.
Qed.

Lemma spec_contiguous op l : contiguous l → extends l op → contiguous (spec_op true op l).2.
Proof.
  intros Hc Hx. pose proof (contiguous_sorted l Hc) as Hs. destruct op; cbn [spec_op snd]; try done.
  - destruct (at_nonce _ l) as [old|] eqn:E.
    + case_if; [|done]. destruct Hc as [n Hn]. exists n. cbn [snd]. rewrite (ins_nonces _ _ _ Hs E), Hn. f_equal.
      unfold zlen. rewrite (Permutation_length (ins_perm tx l Hs)), (Permutation_length (without_some _ _ _ Hs E)). done.
    + cbn [snd]. destruct Hx as [->|[[? ?]|(y & Hy & Hn)]]; [|congruence|]; [exists (tx_nonce tx); done|].
      rewrite (ins_last tx l y) by (done || lia). apply last_Some in Hy as [l' ->]. destruct Hc as [n Hc].
      exists n. rewrite map_app, zlen_app, seqZ_app, Hc by (unfold zlen; lia). f_equal.
      rewrite map_app, zlen_app, seqZ_app in Hc by (unfold zlen; lia). apply app_inj_2 in Hc as [_ Hc]; [|done].
      cbn in Hc. injection Hc as Hc. rewrite zlen_app. cbn [map]. rewrite Hn, Hc.
      change (zlen [tx]) with 1. change (zlen [y]) with 1. rewrite seqZ_cons, seqZ_nil by lia. f_equal. lia.
  - rewrite (below_app threshold l) in Hc. by apply contiguous_suffix in Hc.
  - rewrite (before_app (exceeds costLimit gasLimit) l) in Hc. by apply contiguous_prefix in Hc.
  - rewrite <- (take_drop (Z.to_nat threshold) l) in Hc. by apply contiguous_prefix in Hc.
  - destruct (at_nonce _ l); [|done]. rewrite (below_app (tx_nonce tx) l) in Hc. by apply contiguous_prefix in Hc.
  - unfold ready_split. destruct l as [|x l]; [done|]. case_if; [done|].
    rewrite (run_from_app (x :: l) (tx_nonce x)) in Hc. by apply contiguous_suffix in Hc.
Qed.

Lemma run_contiguous ops : ∀ l, contiguous l → gapless ops l → contiguous (spec_run true ops l).2.
Proof.
  induction ops as [|[op range] ops IH]; intros l Hc Hg; cbn [spec_run gapless] in *; [done|]. destruct Hg as [Hx Hg].
  pose proof (spec_contiguous op l Hc Hx) as Hc1. destruct (spec_op true op l) as [a l1]. cbn [snd] in *.
  specialize (IH l1 Hc1 Hg). by destruct (spec_run true ops l1).
Qed.

(** C34. Strict lists have no gaps: after any admissible sequence of calls in
    which [Add] replaces a transaction or appends the next nonce, the
    transactions a strict list holds have consecutive nonces; so [Forward],
    [Filter], [Cap], [Remove] and [Ready] never leave a transaction behind a
    hole. *)
Theorem strict_contiguous (ops : list (list_op * ordering)) : admissible true ops [] → gapless ops [] →
  ∃ answers L n, run_list ops (newList true) = Ok (answers, L) ∧
    map (fun tx => tx_nonce tx) (list_Flatten map_to_list L).1 = seqZ n (list_Len L).
Proof.
  intros Hadm Hg. destruct (run_refined ops (newList true) []) as (as' & L & E & _ & _ & HL); [|done|].
  { split; cbn; [apply newSortedMap_rep|done|]. by intros tx []%elem_of_nil. }
  destruct (run_contiguous ops [] ltac:(by exists 0) Hg) as [n Hn]. exists as', L, n. split; [done|].
  unfold list_Flatten, sm_Flatten, list_Len. rewrite (sm_Len_rep _ _ (lr_txs _ _ HL)).
  destruct (sm_flatten_rep map_to_list ltac:(done) _ _ (lr_txs _ _ HL)) as (m & -> & _). exact Hn.
Qed.

(** A run: four transactions, one replaced, one over the limits. *)
Definition toy_tx (n price gas : Z) : Transaction := mkTransaction (LegacyTx n price gas None 0 [] (mkSig 0 0 0)) 0.
Definition toy_ops : list (list_op * ordering) :=
  map (fun op => (op, map_to_list))
    [OpAdd (toy_tx 5 10 21000) 10; OpAdd (toy_tx 6 10 21000) 10; OpAdd (toy_tx 6 11 21000) 10; OpAdd (toy_tx 6 11 21000) 10;
     OpAdd (toy_tx 7 10 50000) 10; OpAdd (toy_tx 8 10 21000) 10; OpFilter 1000000 30000; OpForward 6; OpReady 6; OpLen].

Lemma toy_ops_admissible b : admissible b toy_ops [].
Proof. destruct b; cbn; repeat (split; [done || (unfold is_u64; lia)|]); done. Qed.

Lemma list_refines_witness : ∃ answers L, run_list toy_ops (newList true) = Ok (answers, L) ∧
  Forall2 ans_equiv answers (spec_run true toy_ops []).1 ∧ list_Len L = 0.
Proof.
  destruct (list_refines true toy_ops (toy_ops_admissible true)) as (a & L & E & Ha & _ & _ & Hl & _).
  exists a, L. split; [exact E|]. split; [exact Ha|]. rewrite Hl. reflexivity.
Defined.

Definition toy_short : list (list_op * ordering) := take 8 toy_ops.
Lemma strict_contiguous_witness : ∃ answers L n, run_list toy_short (newList true) = Ok (answers, L) ∧
  map (fun tx => tx_nonce tx) (list_Flatten map_to_list L).1 = seqZ n (list_Len L).
Proof.
  apply strict_contiguous.
  - cbn. repeat (split; [done || (unfold is_u64; lia)|]). done.
  - cbn. split; [by left|]. split; [right; right; eexists; split; [reflexivity|reflexivity]|].
    split; [right; left; eexists; reflexivity|]. split; [right; left; eexists; reflexivity|].
    split; [right; right; eexists; split; [reflexivity|reflexivity]|]. split; [right; right; eexists; split; [reflexivity|reflexivity]|]. done.
Defined.
