(* ===== verification/TxLookup.v ===== *)
(** Three tables of the transaction pool: [lookup] and [accountSet] of
    [src/go-ethereum/core/txpool/txpool.go] and [noncer] of [noncer.go].

    [lookup] holds every transaction of the pool by its hash, those of local
    accounts apart, and counts the slots they take; [accountSet] is a set of
    accounts with a cached listing; [noncer] overlays nonces on a state.  Go
    visits a map in an unspecified order, here the argument [range].  Hash,
    size and sender of a transaction are arguments; the pool passes those of
    [Transactions.v] and [Signing.v]. *)

From S2P Require Import Prelude RLP Types Receipts Config Fees Transactions Signing StateTransition Heap TxList.

(** ** Accounts *)

Record accountSet := mkAccounts { accounts : gmap Z (); as_cache : option (list Z) }.
Definition newAccountSet : accountSet := mkAccounts ∅ None.
Definition as_contains (addr : Z) (s : accountSet) : bool := bool_decide (is_Some (accounts s !! addr)).
Definition as_add (addr : Z) (s : accountSet) : accountSet := mkAccounts (<[addr := ()]> (accounts s)) None.
Definition as_merge (other s : accountSet) : accountSet := mkAccounts (accounts other ∪ accounts s) None.
Definition as_flatten (range : gmap Z () → list (Z * ())) (s : accountSet) : list Z * accountSet :=
  match as_cache s with
  | Some l => (l, s)
  | None => let l := map fst (range (accounts s)) in (l, mkAccounts (accounts s) (Some l))
  end.
Section Senders.
Context {E : Type} (Sender : Transaction → outcome E Z).
Definition as_containsTx (tx : Transaction) (s : accountSet) : bool :=
  match Sender tx with Ok addr => as_contains addr s | _ => false end.
Definition as_addTx (tx : Transaction) (s : accountSet) : accountSet :=
  match Sender tx with Ok addr => as_add addr s | _ => s end.
End Senders.

(** ** Nonces *)

Section Noncer.
Context {DB : Type} `{!StateDB DB}.
Record noncer := mkNoncer { fallback : DB; nonces : gmap Z Z }.
Definition newNoncer (statedb : DB) : noncer := mkNoncer statedb ∅.
(** A nonce is kept once it was read, unless it is zero. *)
Definition nn_load (addr : Z) (n : noncer) : noncer :=
  match nonces n !! addr with
  | Some _ => n
  | None => let v := GetNonce (fallback n) addr in if negb (v =? 0) then mkNoncer (fallback n) (<[addr := v]> (nonces n)) else n
  end.
Definition nn_get (addr : Z) (n : noncer) : Z * noncer :=
  let n := nn_load addr n in (default 0 (nonces n !! addr), n).
Definition nn_set (addr v : Z) (n : noncer) : noncer := mkNoncer (fallback n) (<[addr := v]> (nonces n)).
Definition nn_setIfLower (addr v : Z) (n : noncer) : noncer :=
  let n := nn_load addr n in
  if default 0 (nonces n !! addr) <=? v then n else nn_set addr v n.
Definition nn_setAll (all : gmap Z Z) (n : noncer) : noncer := mkNoncer (fallback n) all.

(** What [get] returns. *)
Definition nonce_at (n : noncer) (addr : Z) : Z := default (GetNonce (fallback n) addr) (nonces n !! addr).
Lemma nn_load_at a n b : nonce_at (nn_load a n) b = nonce_at n b.
Proof.
  unfold nn_load, nonce_at. destruct (nonces n !! a) eqn:E; [done|]. case_if; [|done]. cbn.
  destruct (decide (a = b)) as [->|Hne]; [by rewrite lookup_insert_eq, E|by rewrite lookup_insert_ne].
Qed.
Lemma nn_get_ok a n : nn_get a n = (nonce_at n a, nn_load a n).
Proof.
  unfold nn_get, nn_load, nonce_at. destruct (nonces n !! a) eqn:E; [by rewrite E|]. case_if; cbn.
  - by rewrite lookup_insert_eq.
  - rewrite E. cbn. f_equal. zbool. lia.
Qed.
Lemma nn_set_at a v n b : nonce_at (nn_set a v n) b = if decide (b = a) then v else nonce_at n b.
Proof. unfold nonce_at, nn_set. cbn. case_decide as H; [subst; by rewrite lookup_insert_eq|by rewrite lookup_insert_ne]. Qed.
End Noncer.
Arguments noncer : clear implicits.


(** ** All transactions *)

Record lookup := mkLookup { lk_slots : Z; lk_locals : gmap Z Transaction; lk_remotes : gmap Z Transaction }.
Definition newLookup : lookup := mkLookup 0 ∅ ∅.
Definition txSlotSize : Z := 32 * 1024.
Definition txMaxSize : Z := 4 * txSlotSize.

Definition lk_Get (hash : Z) (t : lookup) : option Transaction :=
  match lk_locals t !! hash with Some tx => Some tx | None => lk_remotes t !! hash end.
Definition lk_GetLocal (hash : Z) (t : lookup) : option Transaction := lk_locals t !! hash.
Definition lk_GetRemote (hash : Z) (t : lookup) : option Transaction := lk_remotes t !! hash.
Definition lk_LocalCount (t : lookup) : Z := Z.of_nat (base.size (lk_locals t)).
Definition lk_RemoteCount (t : lookup) : Z := Z.of_nat (base.size (lk_remotes t)).
Definition lk_Count (t : lookup) : Z := lk_LocalCount t + lk_RemoteCount t.

Section Lookup.
Context (hash size : Transaction → Z) {E : Type} (Sender : Transaction → outcome E Z).
Context (range : gmap Z Transaction → list (Z * Transaction)).

Definition numSlots (tx : Transaction) : Z := i64 (u64 (size tx + txSlotSize - 1) / txSlotSize).
Definition lk_Add (tx : Transaction) (local : bool) (t : lookup) : lookup :=
  let slots := lk_slots t + numSlots tx in
  if local then mkLookup slots (<[hash tx := tx]> (lk_locals t)) (lk_remotes t)
  else mkLookup slots (lk_locals t) (<[hash tx := tx]> (lk_remotes t)).
Definition lk_Remove (h : Z) (t : lookup) : lookup :=
  match lk_Get h t with
  | None => t
  | Some tx => mkLookup (lk_slots t - numSlots tx) (delete h (lk_locals t)) (delete h (lk_remotes t))
  end.
(** Whether a transaction is local is asked for each of the remote ones. *)
Definition migrate_step (accounts : accountSet) (s : lookup * Z) (kv : Z * Transaction) : lookup * Z :=
  let '(t, migrated) := s in
  if as_containsTx Sender kv.2 accounts
  then (mkLookup (lk_slots t) (<[kv.1 := kv.2]> (lk_locals t)) (delete kv.1 (lk_remotes t)), migrated + 1)
  else (t, migrated).
Definition lk_RemoteToLocals (accounts : accountSet) (t : lookup) : Z * lookup :=
  let '(t', migrated) := foldl (migrate_step accounts) (t, 0) (range (lk_remotes t)) in (migrated, t').
(** [Range] over the remote ones that collects. *)
Definition lk_Remotes (t : lookup) : list Transaction := map snd (range (lk_remotes t)).
Definition lk_RemotesBelowTip (threshold : Z) (t : lookup) : list Transaction :=
  base.filter (fun tx => gasTipCap (inner tx) < threshold) (lk_Remotes t).

(** ** What the lookup holds *)

(** [t] holds the transactions [l], by their hashes, and counts their slots. *)
Record lk_ok (t : lookup) (l : list Transaction) : Prop := {
  lo_disjoint : lk_locals t ##ₘ lk_remotes t;
  lo_content : map snd (map_to_list (lk_locals t ∪ lk_remotes t)) ≡ₚ l;
  lo_key h tx : lk_Get h t = Some tx → hash tx = h;
  lo_slots : lk_slots t = foldr (fun tx n => numSlots tx + n) 0 l
}.
Lemma lk_Get_union h t : lk_Get h t = (lk_locals t ∪ lk_remotes t) !! h.
Proof. unfold lk_Get. rewrite lookup_union. by destruct (lk_locals t !! h), (lk_remotes t !! h). Qed.
Lemma lk_Get_iff t l h tx : lk_ok t l → lk_Get h t = Some tx ↔ tx ∈ l ∧ hash tx = h.
Proof.
  intros [Hd Hc Hk _]. rewrite <- Hc. rewrite list_elem_of_fmap. split.
  - intros H. split; [|by apply Hk]. exists (h, tx). split; [done|]. apply elem_of_map_to_list. by rewrite <- lk_Get_union.
  - intros [([k x] & -> & Hin%elem_of_map_to_list) <-]. cbn. rewrite <- lk_Get_union in Hin. by rewrite (Hk _ _ Hin).
Qed.
Lemma lk_Get_hash t l tx : lk_ok t l → tx ∈ l → lk_Get (hash tx) t = Some tx.
Proof. intros Ht Hin. by apply (lk_Get_iff t l). Qed.
Lemma lk_Get_none t l tx : lk_ok t l → lk_Get (hash tx) t = None → tx ∉ l.
Proof. intros Ht Hn Hin. by rewrite (lk_Get_hash t l tx Ht Hin) in Hn. Qed.
Lemma slots_perm l l' : l ≡ₚ l' → foldr (fun tx n => numSlots tx + n) 0 l = foldr (fun tx n => numSlots tx + n) 0 l'.
Proof. induction 1; cbn; lia. Qed.
Lemma lk_ok_perm t l l' : l ≡ₚ l' → lk_ok t l → lk_ok t l'.
Proof. intros Hp [Hd Hc Hk Hs]. split; [done|by rewrite Hc|done|]. by rewrite Hs, (slots_perm _ _ Hp). Qed.
#[global] Instance lk_ok_proper t : Proper ((≡ₚ) ==> iff) (lk_ok t).
Proof. intros l l' Hp. split; apply lk_ok_perm; done. Qed.

Lemma newLookup_ok : lk_ok newLookup [].
Proof. split; [by apply map_disjoint_empty_l|reflexivity|done|done]. Qed.

Lemma union_insert_values (m : gmap Z Transaction) h tx : m !! h = None → map snd (map_to_list (<[h := tx]> m)) ≡ₚ tx :: map snd (map_to_list m).
Proof. intros H. by rewrite map_to_list_insert. Qed.
Lemma lk_Add_ok t l tx local : lk_ok t l → lk_Get (hash tx) t = None → lk_ok (lk_Add tx local t) (tx :: l).
Proof.
  intros Ht Hn. pose proof Ht as [Hd Hc Hk Hs]. rewrite lk_Get_union in Hn. apply lookup_union_None in Hn as [H1 H2]. unfold lk_Add.
  assert (Hu : ∀ a b, lk_locals t ∪ lk_remotes t = a ∪ b → map snd (map_to_list (<[hash tx := tx]> (a ∪ b))) ≡ₚ tx :: l).
  { intros a b <-. rewrite union_insert_values; [by rewrite Hc|]. by apply lookup_union_None. }
  destruct local; (split; cbn [lk_locals lk_remotes lk_slots foldr]).
  - by apply map_disjoint_insert_l_2.
  - rewrite <- insert_union_l. by apply Hu.
  - intros h x. unfold lk_Get. cbn. destruct (decide (hash tx = h)) as [<-|Hne]; [rewrite lookup_insert_eq; by intros [= <-]|]. rewrite lookup_insert_ne by done. apply Hk.
  - lia.
  - by apply map_disjoint_insert_r_2.
  - rewrite <- insert_union_r by done. by apply Hu.
  - intros h x. unfold lk_Get. cbn. destruct (decide (hash tx = h)) as [<-|Hne]; [rewrite H1, lookup_insert_eq; by intros [= <-]|]. rewrite lookup_insert_ne by done. apply Hk.
  - lia.
Qed.
Lemma lk_Remove_ok t l tx : lk_ok t (tx :: l) → lk_ok (lk_Remove (hash tx) t) l.
Proof.
  intros Ht. pose proof (lk_Get_hash t _ tx Ht ltac:(by left)) as Hg. pose proof Ht as [Hd Hc Hk Hs]. unfold lk_Remove. rewrite Hg. split; cbn [lk_locals lk_remotes lk_slots foldr].
  - apply map_disjoint_delete_l. by apply map_disjoint_delete_r.
  - rewrite <- delete_union. apply (Permutation_cons_inv (a := tx)). rewrite <- Hc. rewrite lk_Get_union in Hg.
    rewrite <- (map_to_list_delete _ _ _ Hg). done.
  - intros h x. unfold lk_Get. cbn. destruct (decide (hash tx = h)) as [<-|Hne]; [by rewrite !lookup_delete_eq|]. rewrite !lookup_delete_ne by done. apply Hk.
  - cbn in Hs. lia.
Qed.
Lemma lk_Remove_remotes h t : lk_remotes (lk_Remove h t) ⊆ lk_remotes t.
Proof. unfold lk_Remove. destruct (lk_Get h t); [|done]. apply delete_subseteq. Qed.

Context (Hrange : ∀ m, range m ≡ₚ map_to_list m).
Lemma lk_Remotes_elem t tx l : lk_ok t l → tx ∈ lk_Remotes t ↔ lk_GetRemote (hash tx) t = Some tx.
Proof.
  intros [Hd Hc Hk _]. unfold lk_Remotes, lk_GetRemote. rewrite list_elem_of_fmap. setoid_rewrite Hrange. split.
  - intros ([k x] & -> & Hin%elem_of_map_to_list). cbn. assert (Hl : lk_locals t !! k = None) by (by eapply map_disjoint_Some_r).
    rewrite (Hk k x); [done|]. unfold lk_Get. by rewrite Hl.
  - intros H. exists (hash tx, tx). split; [done|]. by apply elem_of_map_to_list.
Qed.
(** Moving transactions between the two maps keeps the content. *)
Lemma migrate_ok accounts t l kvs : ∀ n t', lk_ok t' l → NoDup kvs.*1 → lk_remotes t' ⊆ lk_remotes t → (∀ k x, (k, x) ∈ kvs → lk_remotes t' !! k = Some x) →
  let r := (foldl (migrate_step accounts) (t', n) kvs).1 in lk_ok r l ∧ lk_remotes r ⊆ lk_remotes t.
Proof.
  induction kvs as [|[k x] kvs IH]; intros n t' Ht Hnd Hsub Hin; [done|]. cbn [foldl migrate_step fst snd]. apply NoDup_cons in Hnd as [Hk Hnd].
  case_match; [|apply IH; try done; intros; apply Hin; by right].
  pose proof (Hin k x ltac:(by left)) as Hx. apply IH; cbn [lk_remotes lk_locals lk_slots]; [|done| |].
  - destruct Ht as [Hd Hc Hky Hs]. split; cbn [lk_remotes lk_locals lk_slots].
    + apply map_disjoint_insert_l_2; [by rewrite lookup_delete_eq|]. by apply map_disjoint_delete_r.
    + rewrite <- Hc. apply Permutation_map. replace (<[k := x]> (lk_locals t') ∪ delete k (lk_remotes t')) with (lk_locals t' ∪ lk_remotes t'); [done|].
      apply map_eq. intros j. rewrite !lookup_union. destruct (decide (k = j)) as [<-|Hne].
      * rewrite lookup_insert_eq, lookup_delete_eq, Hx. assert (lk_locals t' !! k = None) as -> by (by eapply map_disjoint_Some_r). done.
      * by rewrite lookup_insert_ne, lookup_delete_ne.
    + intros h y. unfold lk_Get. cbn. destruct (decide (k = h)) as [<-|Hne].
      * rewrite lookup_insert_eq. intros [= <-]. apply (Hky k x). unfold lk_Get. assert (lk_locals t' !! k = None) as -> by (by eapply map_disjoint_Some_r). done.
      * rewrite lookup_insert_ne, lookup_delete_ne by done. apply Hky.
    + done.
  - etrans; [apply delete_subseteq|done].
  - intros j y Hj. rewrite lookup_delete_ne; [apply Hin; by right|]. intros <-. apply Hk. apply list_elem_of_fmap. by exists (k, y).
Qed.
Lemma lk_RemoteToLocals_ok accounts t l : lk_ok t l → lk_ok (lk_RemoteToLocals accounts t).2 l ∧ lk_remotes (lk_RemoteToLocals accounts t).2 ⊆ lk_remotes t.
Proof.
  intros Ht. unfold lk_RemoteToLocals. pose proof (migrate_ok accounts t l (range (lk_remotes t)) 0 t Ht) as H. destruct (foldl _ _ _) as [t' n]. cbn in *. apply H; [|done|].
  - rewrite Hrange. apply NoDup_fst_map_to_list.
  - intros k x. rewrite Hrange. apply elem_of_map_to_list.
Qed.
End Lookup.
