(* ===== verification/TxPriced.v ===== *)
(** The remote transactions of the pool by price: [priceHeap] and [pricedList]
    of [src/go-ethereum/core/txpool/list.go].

    Two heaps hold the transactions that can be evicted, cheapest first: the
    urgent one by the tip of the next block, the floating one by the fee cap.
    Transactions that left the pool stay in the heaps and are only counted
    ([stales]); they are dropped when they come to the top, or when the heaps
    are built again from the lookup.  The list points to the pool's lookup, an
    argument here.  [range] is the order in which Go visits it. *)

From S2P Require Import Prelude RLP Types Receipts Config Fees Transactions Signing StateTransition Heap TxList TxLookup.

Record priceHeap := mkPrices { ph_baseFee : option Z; ph_list : list Transaction }.
Definition ph_cmp (baseFee : option Z) (a b : Transaction) : comparison :=
  match (match baseFee with Some _ => EffectiveGasTipCmp (inner a) (inner b) baseFee | None => Eq end) with
  | Eq =>
      match gasFeeCap (inner a) ?= gasFeeCap (inner b) with
      | Eq => gasTipCap (inner a) ?= gasTipCap (inner b)
      | c => c
      end
  | c => c
  end.
Definition ph_Less (baseFee : option Z) (a b : Transaction) : bool :=
  match ph_cmp baseFee a b with
  | Lt => true
  | Gt => false
  | Eq => tx_nonce b <? tx_nonce a
  end.
Definition ph_Push (tx : Transaction) (h : priceHeap) : priceHeap := mkPrices (ph_baseFee h) (Push (ph_Less (ph_baseFee h)) (ph_list h) tx).
Definition ph_Pop (h : priceHeap) : outcome Empty_set (Transaction * priceHeap) :=
  '(tx, l) ← deref (Pop (ph_Less (ph_baseFee h)) (ph_list h)); Ok (tx, mkPrices (ph_baseFee h) l).
Definition ph_Init (h : priceHeap) : priceHeap := mkPrices (ph_baseFee h) (Init (ph_Less (ph_baseFee h)) (ph_list h)).
Abbreviation ph_Len h := (zlen (ph_list h)).

Record pricedList := mkPriced { stales : Z; urgent : priceHeap; floating : priceHeap }.
Definition newPricedList : pricedList := mkPriced 0 (mkPrices None []) (mkPrices None []).
Definition urgentRatio : Z := 4.
Definition floatingRatio : Z := 1.

(** ** The order *)

Definition ph_tip (baseFee : option Z) (tx : Transaction) : Z := match baseFee with Some _ => EffectiveGasTipValue (inner tx) baseFee | None => 0 end.
Lemma ph_Less_lex f a b : ph_Less f a b = true ↔
  ph_tip f a < ph_tip f b ∨ (ph_tip f a = ph_tip f b ∧
    (gasFeeCap (inner a) < gasFeeCap (inner b) ∨ (gasFeeCap (inner a) = gasFeeCap (inner b) ∧
      (gasTipCap (inner a) < gasTipCap (inner b) ∨ (gasTipCap (inner a) = gasTipCap (inner b) ∧ tx_nonce b < tx_nonce a))))).
Proof.
  unfold ph_Less, ph_cmp. assert (He : (match f with Some _ => EffectiveGasTipCmp (inner a) (inner b) f | None => Eq end) = (ph_tip f a ?= ph_tip f b)).
  { unfold ph_tip, EffectiveGasTipCmp. by destruct f. }
  rewrite He. destruct (Z.compare_spec (ph_tip f a) (ph_tip f b)); [|intuition lia..].
  destruct (Z.compare_spec (gasFeeCap (inner a)) (gasFeeCap (inner b))); [|intuition lia..].
  destruct (Z.compare_spec (gasTipCap (inner a)) (gasTipCap (inner b))); [|intuition lia..]. rewrite Z.ltb_lt. intuition lia.
Qed.
Lemma ph_order f : order_ok (ph_Less f).
Proof.
  split.
  - intros x y H%ph_Less_lex. destruct (ph_Less f y x) eqn:E; [|done]. apply ph_Less_lex in E. lia.
  - intros x y z H1 H2. destruct (ph_Less f z x) eqn:E; [|done]. apply ph_Less_lex in E.
    assert (¬ ph_Less f y x = true) as N1 by (by rewrite H1). assert (¬ ph_Less f z y = true) as N2 by (by rewrite H2). rewrite ph_Less_lex in N1, N2. lia.
Qed.
Definition ph_ok (h : priceHeap) : Prop := is_heap (ph_Less (ph_baseFee h)) (ph_list h).
Lemma ph_Push_ok tx h : ph_ok h → ph_ok (ph_Push tx h) ∧ ph_list (ph_Push tx h) ≡ₚ tx :: ph_list h.
Proof. intros H. apply Push_ok; [apply ph_order|done]. Qed.
Lemma ph_Init_ok h : ph_ok (ph_Init h) ∧ ph_list (ph_Init h) ≡ₚ ph_list h.
Proof. apply Init_ok, ph_order. Qed.
(** [heap.Pop] takes a cheapest entry. *)
Lemma ph_Pop_ok h x l : ph_ok h → ph_list h = x :: l → ∃ h', ph_Pop h = Ok (x, h') ∧ ph_ok h' ∧ ph_baseFee h' = ph_baseFee h ∧ ph_list h ≡ₚ x :: ph_list h' ∧
  ∀ y, y ∈ ph_list h' → ph_Less (ph_baseFee h) y x = false.
Proof.
  intros H E. destruct (Pop_ok _ (ph_order (ph_baseFee h)) (ph_list h) x H) as (h' & Ep & Hh & Hp & Hm); [by rewrite E|].
  exists (mkPrices (ph_baseFee h) h'). unfold ph_Pop. rewrite Ep. by split_and!.
Qed.

Section Priced.
Context (hash size : Transaction → Z) (range : gmap Z Transaction → list (Z * Transaction)).
#[local] Abbreviation remote tx all := (lk_GetRemote (hash tx) all).

Definition pl_Put (tx : Transaction) (local : bool) (l : pricedList) : pricedList :=
  if local then l else mkPriced (stales l) (ph_Push tx (urgent l)) (floating l).

(** [floating.list[i] = heap.Pop(&urgent)] for the first [n] indices. *)
Fixpoint move_cheapest (n : nat) (u : priceHeap) (moved : list Transaction) : outcome Empty_set (priceHeap * list Transaction) :=
  match n with
  | O => Ok (u, moved)
  | S n => '(tx, u) ← ph_Pop u; move_cheapest n u (moved ++ [tx])
  end.
Definition pl_Reheap (all : lookup) (l : pricedList) : outcome Empty_set pricedList :=
  let u := ph_Init (mkPrices (ph_baseFee (urgent l)) (lk_Remotes range all)) in
  let floatingCount := ph_Len u * floatingRatio / (urgentRatio + floatingRatio) in
  '(u, moved) ← move_cheapest (Z.to_nat floatingCount) u [];
  Ok (mkPriced 0 u (ph_Init (mkPrices (ph_baseFee (floating l)) moved))).

Definition pl_Removed (count : Z) (all : lookup) (l : pricedList) : outcome Empty_set pricedList :=
  let s := i64 (stales l + count) in
  if s <=? (ph_Len (urgent l) + ph_Len (floating l)) / 4 then Ok (mkPriced s (urgent l) (floating l))
  else pl_Reheap all (mkPriced s (urgent l) (floating l)).

(** Stale entries at the top are dropped; the length bounds the loop. *)
Fixpoint drop_stale (fuel : nat) (all : lookup) (s : Z) (h : priceHeap) : outcome Empty_set (Z * priceHeap) :=
  match fuel, ph_list h with
  | S fuel, head :: _ =>
      match remote head all with
      | None => '(_, h) ← ph_Pop h; drop_stale fuel all (i64 (s - 1)) h
      | Some _ => Ok (s, h)
      end
  | _, _ => Ok (s, h)
  end.
Definition pl_underpricedFor (all : lookup) (s : Z) (h : priceHeap) (tx : Transaction) : outcome Empty_set (bool * Z * priceHeap) :=
  '(s, h) ← drop_stale (length (ph_list h)) all s h;
  match ph_list h with
  | [] => Ok (false, s, h)
  | head :: _ => Ok (match ph_cmp (ph_baseFee h) head tx with Lt => false | _ => true end, s, h)
  end.
Definition pl_Underpriced (tx : Transaction) (all : lookup) (l : pricedList) : outcome Empty_set (bool * pricedList) :=
  '(under, s, u) ← pl_underpricedFor all (stales l) (urgent l) tx;
  if negb (under || (ph_Len u =? 0)) then Ok (false, mkPriced s u (floating l)) else
  '(under, s, f) ← pl_underpricedFor all s (floating l) tx;
  if negb (under || (ph_Len f =? 0)) then Ok (false, mkPriced s u f) else
  Ok (negb (ph_Len u =? 0) || negb (ph_Len f =? 0), mkPriced s u f).

(** A turn takes an entry off a heap or moves it to the other one, so twice the
    urgent and once the floating entries bound the loop. *)
Fixpoint discard_loop (fuel : nat) (all : lookup) (slots : Z) (drop : list Transaction) (l : pricedList)
    : outcome Empty_set (Z * list Transaction * pricedList) :=
  match fuel with
  | O => Ok (slots, drop, l)
  | S fuel =>
      if slots <=? 0 then Ok (slots, drop, l) else
      if (ph_Len (floating l) * urgentRatio <? ph_Len (urgent l) * floatingRatio) || (floatingRatio =? 0) then
        '(tx, u) ← ph_Pop (urgent l);
        match remote tx all with
        | None => discard_loop fuel all slots drop (mkPriced (i64 (stales l - 1)) u (floating l))
        | Some _ => discard_loop fuel all slots drop (mkPriced (stales l) u (ph_Push tx (floating l)))
        end
      else if ph_Len (floating l) =? 0 then Ok (slots, drop, l) else
        '(tx, f) ← ph_Pop (floating l);
        match remote tx all with
        | None => discard_loop fuel all slots drop (mkPriced (i64 (stales l - 1)) (urgent l) f)
        | Some _ => discard_loop fuel all (slots - numSlots size tx) (drop ++ [tx]) (mkPriced (stales l) (urgent l) f)
        end
  end.
(** [make(types.Transactions, 0, slots)] panics for a negative capacity. *)
Definition pl_Discard (slots : Z) (force : bool) (all : lookup) (l : pricedList) : outcome Empty_set (list Transaction * bool * pricedList) :=
  if slots <? 0 then Panic else
  '(slots, drop, l) ← discard_loop (2 * length (ph_list (urgent l)) + length (ph_list (floating l)) + 1) all slots [] l;
  if (0 <? slots) && negb force
  then Ok ([], false, mkPriced (stales l) (foldl (fun h tx => ph_Push tx h) (urgent l) drop) (floating l))
  else Ok (drop, true, l).

Definition pl_SetBaseFee (baseFee : option Z) (all : lookup) (l : pricedList) : outcome Empty_set pricedList :=
  pl_Reheap all (mkPriced (stales l) (mkPrices baseFee (ph_list (urgent l))) (floating l)).

(** ** The heaps hold every remote transaction *)

Context (Hrange : ∀ m, range m ≡ₚ map_to_list m).
Definition pl_entries (l : pricedList) : list Transaction := ph_list (urgent l) ++ ph_list (floating l).
Definition pl_heaps (l : pricedList) : Prop := ph_ok (urgent l) ∧ ph_ok (floating l).
(** [extra] are entries that were taken out for a while. *)
Definition tracks (all : lookup) (l : pricedList) (extra : list Transaction) : Prop :=
  ∀ h tx, lk_GetRemote h all = Some tx → h ∈ map hash (pl_entries l ++ extra).
Definition pl_ok (all : lookup) (l : pricedList) : Prop := pl_heaps l ∧ tracks all l [].

Lemma tracks_perm all l l' e e' : pl_entries l ++ e ≡ₚ pl_entries l' ++ e' → tracks all l e → tracks all l' e'.
Proof. intros Hp H h tx Hg. rewrite <- Hp. by eapply H. Qed.
Lemma tracks_shrink all all' l e : lk_remotes all' ⊆ lk_remotes all → tracks all l e → tracks all' l e.
Proof. intros Hs H h tx Hg. eapply H. unfold lk_GetRemote in *. by eapply lookup_weaken. Qed.
(** An entry that is not in the lookup can go. *)
Lemma tracks_drop all l l' e e' x : pl_entries l ++ e ≡ₚ x :: pl_entries l' ++ e' → lk_GetRemote (hash x) all = None → tracks all l e → tracks all l' e'.
Proof.
  intros Hp Hn H h tx Hg. pose proof (H h tx Hg) as Hin. rewrite Hp in Hin. cbn in Hin. apply elem_of_cons in Hin as [->|Hin]; [by rewrite Hg in Hn|done].
Qed.

Lemma pl_Put_ok all l tx local : pl_ok all l → pl_heaps (pl_Put tx local l) ∧ tracks all (pl_Put tx local l) [] ∧ (local = false → hash tx ∈ map hash (pl_entries (pl_Put tx local l))).
Proof.
  intros [[Hu Hf] Ht]. unfold pl_Put. destruct local; [done|]. destruct (ph_Push_ok tx (urgent l) Hu) as [H1 H2]. split; [by split|]. unfold tracks, pl_entries. cbn [urgent floating].
  assert (Hp : ph_list (ph_Push tx (urgent l)) ++ ph_list (floating l) ≡ₚ tx :: pl_entries l) by (by rewrite H2). split.
  - intros h x Hg. rewrite app_nil_r, Hp. cbn. right. pose proof (Ht h x Hg) as Hin. by rewrite app_nil_r in Hin.
  - intros _. rewrite Hp. by left.
Qed.

Lemma move_cheapest_ok n : ∀ u moved, ph_ok u → (n ≤ length (ph_list u))%nat →
  ∃ u' moved', move_cheapest n u moved = Ok (u', moved') ∧ ph_ok u' ∧ ph_baseFee u' = ph_baseFee u ∧ ph_list u' ++ moved' ≡ₚ ph_list u ++ moved.
Proof.
  induction n as [|n IH]; intros u moved Hu Hn; [by exists u, moved|]. destruct (ph_list u) as [|x l] eqn:E; [cbn in Hn; lia|].
  destruct (ph_Pop_ok u x l Hu E) as (u' & Ep & Hu' & Hb & Hp & _). cbn [move_cheapest]. rewrite Ep. cbn [mbind outcome_bind].
  destruct (IH u' (moved ++ [x]) Hu') as (u2 & m2 & E2 & H2 & Hb2 & Hp2); [apply Permutation_length in Hp; rewrite E in Hp; cbn in *; lia|].
  exists u2, m2. split; [done|]. split; [done|]. split; [congruence|]. rewrite Hp2. rewrite <- E, Hp. rewrite app_assoc, (Permutation_app_comm _ [x]). done.
Qed.
Lemma pl_Reheap_ok all txs l : lk_ok hash size all txs → ∃ l', pl_Reheap all l = Ok l' ∧ pl_ok all l' ∧ ph_baseFee (urgent l') = ph_baseFee (urgent l).
Proof.
  intros Hall. unfold pl_Reheap. set (u := ph_Init _). destruct (ph_Init_ok (mkPrices (ph_baseFee (urgent l)) (lk_Remotes range all))) as [Hu Hp]. fold u in Hu, Hp.
  assert (Hbu : ph_baseFee u = ph_baseFee (urgent l)) by done. clearbody u. cbn [ph_list] in Hp.
  destruct (move_cheapest_ok (Z.to_nat (ph_Len u * floatingRatio / (urgentRatio + floatingRatio))) u [] Hu) as (u' & m & E & Hu' & Hb & Hm).
  { unfold floatingRatio, urgentRatio, zlen. pose proof (Z.div_le_upper_bound (Z.of_nat (length (ph_list u)) * 1) (4 + 1) (Z.of_nat (length (ph_list u)))). lia. }
  rewrite E. cbn [mbind outcome_bind]. eexists. split; [reflexivity|]. destruct (ph_Init_ok (mkPrices (ph_baseFee (floating l)) m)) as [Hf Hpf]. cbn [ph_list] in Hpf. split; [split|by cbn; rewrite Hb].
  - by split.
  - intros h tx Hg. unfold pl_entries. cbn [urgent floating]. rewrite app_nil_r, Hpf, Hm, app_nil_r, Hp.
    assert (Hk : hash tx = h). { apply (lo_key _ _ _ _ Hall h). unfold lk_Get. assert (lk_locals all !! h = None) as -> by (by eapply map_disjoint_Some_r; [apply Hall|]). done. }
    subst h. apply list_elem_of_fmap_2. by apply (lk_Remotes_elem _ _ _ Hrange _ _ _ Hall).
Qed.
Lemma pl_Removed_ok all txs l n : lk_ok hash size all txs → pl_ok all l → ∃ l', pl_Removed n all l = Ok l' ∧ pl_ok all l'.
Proof.
  intros Hall [Hh Ht]. unfold pl_Removed. case_if; [by eexists|]. destruct (pl_Reheap_ok all txs (mkPriced (i64 (stales l + n)) (urgent l) (floating l)) Hall) as (l' & E & H & _). by exists l'.
Qed.
Lemma pl_SetBaseFee_ok all txs l f : lk_ok hash size all txs → ∃ l', pl_SetBaseFee f all l = Ok l' ∧ pl_ok all l'.
Proof. intros Hall. unfold pl_SetBaseFee. destruct (pl_Reheap_ok all txs (mkPriced (stales l) (mkPrices f (ph_list (urgent l))) (floating l)) Hall) as (l' & E & H & _). by exists l'. Qed.

(** ** Cheapest first *)

Definition live (all : lookup) (tx : Transaction) : Prop := is_Some (remote tx all).
#[local] Instance live_dec all tx : Decision (live all tx) := _.
Lemma tracks_gone all l l' e e' gone : pl_entries l ++ e ≡ₚ gone ++ pl_entries l' ++ e' → Forall (fun x => ¬ live all x) gone → tracks all l e → tracks all l' e'.
Proof.
  intros Hp Hg H h tx Hr. pose proof (H h tx Hr) as Hin. rewrite Hp, map_app in Hin. apply elem_of_app in Hin as [(x & -> & Hx)%list_elem_of_fmap|Hin]; [|done].
  rewrite Forall_forall in Hg. destruct (Hg x Hx). by exists tx.
Qed.

Lemma drop_stale_ok fuel all : ∀ s h, ph_ok h → (length (ph_list h) ≤ fuel)%nat → ∃ s' h' gone, drop_stale fuel all s h = Ok (s', h') ∧ ph_ok h' ∧ ph_baseFee h' = ph_baseFee h ∧
  ph_list h ≡ₚ gone ++ ph_list h' ∧ Forall (fun x => ¬ live all x) gone ∧ match ph_list h' with x :: _ => live all x | [] => True end.
Proof.
  induction fuel as [|fuel IH]; intros s h Hh Hl.
  { destruct h as [f [|x l]]; [|cbn in Hl; lia]. exists s, (mkPrices f []), []. by split_and!. }
  cbn [drop_stale]. destruct (ph_list h) as [|x l] eqn:E; [exists s, h, []; rewrite E; by split_and!|].
  destruct (remote x all) as [y|] eqn:Ex; [exists s, h, []; rewrite E; split_and!; try done; by exists y|].
  destruct (ph_Pop_ok h x l Hh E) as (h1 & Ep & Hh1 & Hb1 & Hp1 & _). rewrite Ep. cbn [mbind outcome_bind].
  destruct (IH (i64 (s - 1)) h1 Hh1) as (s2 & h2 & g & E2 & Hh2 & Hb2 & Hp2 & Hg & Hd); [apply Permutation_length in Hp1; rewrite E in Hp1; cbn in *; lia|].
  exists s2, h2, (x :: g). split; [done|]. split; [done|]. split; [congruence|]. split; [by rewrite <- E, Hp1, Hp2|]. split; [|done].
  constructor; [|done]. unfold live. rewrite Ex. by intros [? ?].
Qed.

(** The top of a heap is cheapest. *)
Lemma ph_min h x l y : ph_ok h → ph_list h = x :: l → y ∈ ph_list h → ph_cmp (ph_baseFee h) y x ≠ Lt.
Proof.
  intros Hh E Hy Hc. pose proof (heap_head _ (ph_order (ph_baseFee h)) (ph_list h) x Hh ltac:(by rewrite E) y Hy) as Hm. unfold ph_Less in Hm. by rewrite Hc in Hm.
Qed.
Lemma ph_cmp_le f x y tx : ph_cmp f y x ≠ Lt → ph_cmp f x tx ≠ Lt → ph_cmp f y tx ≠ Lt.
Proof.
  clear Hrange range hash size. assert (Hlex : ∀ a b, ph_cmp f a b = Lt ↔ ph_tip f a < ph_tip f b ∨ (ph_tip f a = ph_tip f b ∧
    (gasFeeCap (inner a) < gasFeeCap (inner b) ∨ (gasFeeCap (inner a) = gasFeeCap (inner b) ∧ gasTipCap (inner a) < gasTipCap (inner b))))).
  { intros a b. unfold ph_cmp. assert (He : (match f with Some _ => EffectiveGasTipCmp (inner a) (inner b) f | None => Eq end) = (ph_tip f a ?= ph_tip f b)) by (by destruct f).
    rewrite He. destruct (Z.compare_spec (ph_tip f a) (ph_tip f b)); [|naive_solver lia..].
    destruct (Z.compare_spec (gasFeeCap (inner a)) (gasFeeCap (inner b))); [|naive_solver lia..].
    destruct (Z.compare_spec (gasTipCap (inner a)) (gasTipCap (inner b))); naive_solver lia. }
  rewrite !Hlex. lia.
Qed.

(** The transaction is no better than any live entry of the heap. *)
Definition no_better (all : lookup) (h : priceHeap) (tx : Transaction) : Prop := ∀ y, y ∈ ph_list h → live all y → ph_cmp (ph_baseFee h) y tx ≠ Lt.
Lemma pl_underpricedFor_ok all s h tx : ph_ok h → ∃ b s' h' gone, pl_underpricedFor all s h tx = Ok (b, s', h') ∧ ph_ok h' ∧ ph_baseFee h' = ph_baseFee h ∧
  ph_list h ≡ₚ gone ++ ph_list h' ∧ Forall (fun x => ¬ live all x) gone ∧ (ph_list h' = [] ↔ ¬ ∃ y, y ∈ ph_list h ∧ live all y) ∧
  (b = true ↔ ph_list h' ≠ [] ∧ no_better all h tx).
Proof.
  clear Hrange range size. intros Hh. destruct (drop_stale_ok (length (ph_list h)) all s h Hh ltac:(done)) as (s' & h' & g & E & Hh' & Hb & Hp & Hg & Hd). unfold pl_underpricedFor. rewrite E. cbn [mbind outcome_bind].
  assert (Hlive : ∀ y, y ∈ ph_list h → live all y → y ∈ ph_list h').
  { intros y Hy Hl. rewrite Hp in Hy. apply elem_of_app in Hy as [Hy|Hy]; [|done]. rewrite Forall_forall in Hg. by destruct (Hg y Hy). }
  destruct (ph_list h') as [|x l] eqn:El.
  - exists false, s', h', g. rewrite El. split_and!; try done; [|naive_solver]. split; [|done]. intros _ (y & Hy & Hl). pose proof (Hlive y Hy Hl). set_solver.
  - eexists _, s', h', g. rewrite El. split_and!; try done.
    + split; [done|]. intros []. exists x. split; [|done]. rewrite Hp. apply elem_of_app. right. by left.
    + rewrite Hb. split.
      * intros Hc. split; [done|]. intros y Hy Hl. apply (ph_cmp_le _ x); [|by destruct (ph_cmp _ x tx)]. rewrite <- Hb. apply (ph_min h' x l y); [done|done|]. rewrite El. auto.
      * intros [_ Hn]. assert (Hx : ph_cmp (ph_baseFee h) x tx ≠ Lt) by (apply Hn; [|done]; rewrite Hp; apply elem_of_app; right; by left). by destruct (ph_cmp _ x tx).
Qed.
(** [Underpriced]: there are remote transactions, and this one is no better
    than the cheapest of them in both heaps. *)
Lemma pl_Underpriced_ok all l tx : pl_ok all l → ∃ b l', pl_Underpriced tx all l = Ok (b, l') ∧ pl_ok all l' ∧
  (b = true ↔ (∃ y, y ∈ pl_entries l ∧ live all y) ∧ no_better all (urgent l) tx ∧ no_better all (floating l) tx).
Proof.
  intros [[Hu Hf] Ht]. unfold pl_Underpriced. destruct (pl_underpricedFor_ok all (stales l) (urgent l) tx Hu) as (b1 & s1 & u & g1 & E1 & Hu' & Hbu & Hp1 & Hg1 & He1 & Hi1). rewrite E1. cbn [mbind outcome_bind].
  assert (Hzu : (ph_Len u =? 0) = bool_decide (ph_list u = [])) by (unfold zlen; by destruct (ph_list u)). rewrite Hzu.
  destruct (negb (b1 || bool_decide (ph_list u = []))) eqn:N1.
  - eexists _, _. split; [reflexivity|]. apply negb_true_iff, orb_false_iff in N1 as [-> N1]. apply bool_decide_eq_false in N1. split.
    + split; [by split|]. eapply (tracks_gone all l); [|exact Hg1|done]. unfold pl_entries. cbn. by rewrite Hp1, <- !app_assoc.
    + split; [done|]. intros (_ & Hn & _). by apply Hi1.
  - apply negb_false_iff, orb_true_iff in N1. assert (Hnu : no_better all (urgent l) tx).
    { destruct N1 as [->|N1]; [by apply Hi1|]. apply bool_decide_eq_true in N1. intros y Hy Hl. exfalso. by apply (proj1 He1 N1); exists y. }
    destruct (pl_underpricedFor_ok all s1 (floating l) tx Hf) as (b2 & s2 & f & g2 & E2 & Hf' & Hbf & Hp2 & Hg2 & He2 & Hi2). rewrite E2. cbn [mbind outcome_bind].
    assert (Hzf : (ph_Len f =? 0) = bool_decide (ph_list f = [])) by (unfold zlen; by destruct (ph_list f)). rewrite Hzf.
    assert (Hok : pl_ok all (mkPriced s2 u f)).
    { split; [by split|]. eapply (tracks_gone all l _ [] [] (g1 ++ g2)); [|by apply Forall_app|done]. unfold pl_entries. cbn. rewrite Hp1, Hp2, !app_nil_r. solve_Permutation. }
    destruct (negb (b2 || bool_decide (ph_list f = []))) eqn:N2.
    + eexists _, _. split; [reflexivity|]. split; [done|]. apply negb_true_iff, orb_false_iff in N2 as [-> N2]. apply bool_decide_eq_false in N2. split; [done|]. intros (_ & _ & Hn). by apply Hi2.
    + eexists _, _. split; [reflexivity|]. split; [done|]. apply negb_false_iff, orb_true_iff in N2. assert (Hnf : no_better all (floating l) tx).
      { destruct N2 as [->|N2]; [by apply Hi2|]. apply bool_decide_eq_true in N2. intros y Hy Hl. exfalso. by apply (proj1 He2 N2); exists y. }
      rewrite orb_true_iff, !negb_true_iff, !bool_decide_eq_false. unfold pl_entries. split.
      * intros H. split; [|done]. destruct H as [H|H]; [destruct (decide (Exists (live all) (ph_list (urgent l)))) as [Hx|Hx]|destruct (decide (Exists (live all) (ph_list (floating l)))) as [Hx|Hx]];
          rewrite Exists_exists in Hx; try (destruct Hx as (y & Hy & Hl); exists y; split; [apply elem_of_app; auto|done]); exfalso; [by apply H, He1|by apply H, He2].
      * intros [(y & Hy%elem_of_app & Hl) _]. destruct Hy as [Hy|Hy]; [left|right]; intros En; [by apply (proj1 He1 En); exists y|by apply (proj1 He2 En); exists y].
Qed.

Definition slots_of (l : list Transaction) : Z := foldr (fun tx n => numSlots size tx + n) 0 l.
(** What was discarded, and what was found to be stale, is no longer tracked. *)
Lemma discard_loop_ok fuel all : ∀ slots drop l, pl_heaps l → (2 * length (ph_list (urgent l)) + length (ph_list (floating l)) < fuel)%nat →
  ∃ slots' more l' gone, discard_loop fuel all slots drop l = Ok (slots', drop ++ more, l') ∧ pl_heaps l' ∧ pl_entries l ≡ₚ gone ++ more ++ pl_entries l' ∧
    Forall (fun x => ¬ live all x) gone ∧ Forall (live all) more ∧ slots' = slots - slots_of more ∧ (0 < slots' → pl_entries l' = []).
Proof.
  induction fuel as [|fuel IH]; intros slots drop l [Hu Hf] Hfuel; [lia|]. cbn [discard_loop]. destruct (slots <=? 0) eqn:Es.
  { exists slots, [], l, []. rewrite app_nil_r. split_and!; try done; unfold slots_of; cbn; zbool; lia. }
  rewrite orb_false_r. unfold urgentRatio, floatingRatio, zlen. case_if.
  - destruct (ph_list (urgent l)) as [|x r] eqn:El; [cbn in *; zbool; lia|]. destruct (ph_Pop_ok (urgent l) x r Hu El) as (u & Ep & Hu' & Hbu & Hp & _). rewrite Ep. cbn [mbind outcome_bind].
    pose proof (Permutation_length Hp) as Hlen. rewrite El in Hlen. cbn [length] in Hlen, Hfuel.
    destruct (remote x all) as [y|] eqn:Ex.
    + destruct (ph_Push_ok x (floating l) Hf) as [Hf' Hpf]. pose proof (Permutation_length Hpf) as Hlf. cbn [length] in Hlf.
      destruct (IH slots drop (mkPriced (stales l) u (ph_Push x (floating l)))) as (s' & m & l' & g & E & Hh & He & H1 & H2 & H3 & H4); [by split|cbn [urgent floating]; lia|].
      exists s', m, l', g. split; [done|]. split; [done|]. split; [|done]. rewrite <- He. unfold pl_entries. cbn [urgent floating]. rewrite Hp, Hpf. solve_Permutation.
    + destruct (IH slots drop (mkPriced (i64 (stales l - 1)) u (floating l))) as (s' & m & l' & g & E & Hh & He & H1 & H2 & H3 & H4); [by split|cbn [urgent floating]; lia|].
      exists s', m, l', (x :: g). split; [done|]. split; [done|]. split; [|split; [constructor; [|done]; unfold live; rewrite Ex; by intros [? ?]|done]].
      cbn. rewrite <- He. unfold pl_entries. cbn [urgent floating]. by rewrite Hp.
  - case_if.
    { exists slots, [], l, []. rewrite app_nil_r. split_and!; try done; [unfold slots_of; cbn; lia|]. intros _. unfold pl_entries. destruct (ph_list (floating l)); [|cbn in *; zbool; lia].
      destruct (ph_list (urgent l)); [done|]. cbn in *. zbool. lia. }
    destruct (ph_list (floating l)) as [|x r] eqn:El; [done|]. destruct (ph_Pop_ok (floating l) x r Hf El) as (f & Ep & Hf' & Hbf & Hp & _). rewrite Ep. cbn [mbind outcome_bind].
    pose proof (Permutation_length Hp) as Hlen. rewrite El in Hlen. cbn [length] in Hlen, Hfuel.
    destruct (remote x all) as [y|] eqn:Ex.
    + destruct (IH (slots - numSlots size x) (drop ++ [x]) (mkPriced (stales l) (urgent l) f)) as (s' & m & l' & g & E & Hh & He & H1 & H2 & H3 & H4); [by split|cbn [urgent floating]; lia|].
      exists s', (x :: m), l', g. rewrite E, <- app_assoc. split; [done|]. split; [done|]. split; [|split; [done|split; [constructor; [by exists y|done]|]]].
      * assert (Hq : pl_entries l ≡ₚ x :: pl_entries (mkPriced (stales l) (urgent l) f)) by (unfold pl_entries; cbn [urgent floating]; rewrite Hp; solve_Permutation). rewrite Hq, He. solve_Permutation.
      * split; [|done]. unfold slots_of in *. cbn. lia.
    + destruct (IH slots drop (mkPriced (i64 (stales l - 1)) (urgent l) f)) as (s' & m & l' & g & E & Hh & He & H1 & H2 & H3 & H4); [by split|cbn [urgent floating]; lia|].
      exists s', m, l', (x :: g). split; [done|]. split; [done|]. split; [|split; [constructor; [|done]; unfold live; rewrite Ex; by intros [? ?]|done]].
      assert (Hq : pl_entries l ≡ₚ x :: pl_entries (mkPriced (i64 (stales l - 1)) (urgent l) f)) by (unfold pl_entries; cbn [urgent floating]; rewrite Hp; solve_Permutation). rewrite Hq, He. solve_Permutation.
Qed.

Lemma push_all_ok xs : ∀ h, ph_ok h → ph_ok (foldl (fun h tx => ph_Push tx h) h xs) ∧ ph_list (foldl (fun h tx => ph_Push tx h) h xs) ≡ₚ xs ++ ph_list h.
Proof.
  induction xs as [|x xs IH]; intros h Hh; [done|]. destruct (ph_Push_ok x h Hh) as [H1 H2]. destruct (IH _ H1) as [H3 H4]. split; [done|]. cbn. rewrite H4, H2. by rewrite Permutation_middle.
Qed.
Lemma pl_Discard_ok all l n force : pl_ok all l → 0 ≤ n → ∃ drop ok l', pl_Discard n force all l = Ok (drop, ok, l') ∧ pl_heaps l' ∧ tracks all l' drop ∧ Forall (live all) drop ∧
  (if ok : bool then force = true ∨ n ≤ slots_of drop else drop = [] ∧ force = false).
Proof.
  intros [Hh Ht] Hn. unfold pl_Discard. destruct (n <? 0) eqn:En; [zbool; lia|].
  destruct (discard_loop_ok (2 * length (ph_list (urgent l)) + length (ph_list (floating l)) + 1) all n [] l Hh ltac:(lia)) as (s & d & l' & g & E & [Hu Hf] & Hp & Hg & Hd & Hs & He).
  rewrite E. cbn [mbind outcome_bind app]. assert (Htr : tracks all l' d) by (eapply (tracks_gone all l l' [] d g); [rewrite Hp; solve_Permutation|done|done]).
  destruct ((0 <? s) && negb force) eqn:Ef.
  - destruct (push_all_ok d (urgent l') Hu) as [H1 H2]. eexists [], false, _. split; [reflexivity|]. split; [by split|]. split; [|split; [done|split; [done|by destruct force, (0 <? s)]]].
    eapply tracks_perm; [|exact Htr]. unfold pl_entries. cbn [urgent floating]. rewrite H2. solve_Permutation.
  - exists d, true, l'. split; [done|]. split; [done|]. split; [done|]. split; [done|]. destruct force; [by left|]. right. rewrite andb_true_r in Ef. zbool. lia.
Qed.
End Priced.
