(* ===== verification/TxPool.v ===== *)
(** The transaction pool, [src/go-ethereum/core/txpool/txpool.go].

    Each definition is what its Go method does while it holds the pool's lock.
    The methods change the pool and return a value or an error, which is the
    monad [stm pool].  A map that Go visits in an unspecified order is visited
    in the order [order n], and the clock shows [Now n], where [n] counts these
    choices; so a statement about every [order] and [Now] is one about every
    run.  The sender of a transaction is [Signer_Sender] of [Signing.v] with the
    latest signer; the chain and the state of its head are parameters.

    Left out: the journal of local transactions on disk, the announcements of
    new transactions, metrics and logs, and the goroutines that collect requests
    ([scheduleReorgLoop]) before [runReorg] serves them. *)

From S2P Require Import Prelude RLP Types Receipts Config Fees Transactions Signing StateTransition Heap TxList TxLookup TxPriced.

(** ** Configuration *)

Record poolConfig := mkPoolConfig {
  c_Locals : list Z;
  NoLocals : bool;
  Rejournal : Z;
  PriceLimit : Z;
  PriceBump : Z;
  AccountSlots : Z;
  GlobalSlots : Z;
  AccountQueue : Z;
  GlobalQueue : Z;
  Lifetime : Z
}.
Definition DefaultConfig : poolConfig := mkPoolConfig [] false (3600 * 10 ^ 9) 1 10 16 (4096 + 1024) 64 1024 (3 * 3600 * 10 ^ 9).
Definition sanitize (c : poolConfig) : poolConfig :=
  let at_least low v d := if v <? low then d else v in
  mkPoolConfig (c_Locals c) (NoLocals c) (at_least (10 ^ 9) (Rejournal c) (10 ^ 9)) (at_least 1 (PriceLimit c) (PriceLimit DefaultConfig))
    (at_least 1 (PriceBump c) (PriceBump DefaultConfig)) (at_least 1 (AccountSlots c) (AccountSlots DefaultConfig))
    (at_least 1 (GlobalSlots c) (GlobalSlots DefaultConfig)) (at_least 1 (AccountQueue c) (AccountQueue DefaultConfig))
    (at_least 1 (GlobalQueue c) (GlobalQueue DefaultConfig)) (at_least 1 (Lifetime c) (Lifetime DefaultConfig)).

Inductive txpoolError :=
| ErrAlreadyKnown | ErrInvalidSender | ErrUnderpriced | ErrTxPoolOverflow | ErrReplaceUnderpriced | ErrGasLimit | ErrNegativeValue
| ErrOversizedData | ErrFutureReplacePending | ErrOverdraft
| ErrTxTypeNotSupported | ErrInitCodeTooLarge | ErrFeeCapTooLarge | ErrTipTooLarge | ErrTipOverFeeCap | ErrIntrinsic (e : option coreError)
| ErrNonceLow | ErrFundsLow.

(** ** The pool *)

Section Pool.
Context {DB : Type} `{Db : !StateDB DB} {Wd : Type} (keccak : bytes → Z).
Context (Ecrecover : bytes → bytes → outcome signError bytes).
Context (config : poolConfig) (chainconfig : ChainConfig).
Context (order : nat → ∀ V, gmap Z V → list (Z * V)) (Now : nat → Z).
Context (GetBlock : Z → Z → option (Block Transaction Wd)) (StateAt : Z → option DB) (CurrentBlock : Header).

Definition tx_hash (tx : Transaction) : Z := tx_Hash keccak (inner tx).
Definition tx_size (tx : Transaction) : Z := tx_Size (inner tx).
Definition pool_signer : Signer := LatestSigner chainconfig.
Definition tx_Sender (tx : Transaction) : outcome signError Z := Signer_Sender keccak Ecrecover pool_signer (inner tx).
(** [from, _ := types.Sender(pool.signer, tx)]. *)
Definition sender (tx : Transaction) : Z := from_ok 0 (tx_Sender tx).
#[local] Abbreviation slots_of_tx tx := (numSlots tx_size tx).

Record pool := mkPool {
  gasPrice : Z;
  istanbul : bool;
  eip2718 : bool;
  eip1559 : bool;
  shanghai : bool;
  currentState : DB;
  pendingNonces : noncer DB;
  currentMaxGas : Z;
  locals : accountSet;
  pending : gmap Z txlist;
  queue : gmap Z txlist;
  beats : gmap Z Z;
  all : lookup;
  priced : pricedList;
  changesSinceReorg : Z;
  ticks : nat
}.
Definition set_gasPrice v p := mkPool v (istanbul p) (eip2718 p) (eip1559 p) (shanghai p) (currentState p) (pendingNonces p) (currentMaxGas p) (locals p) (pending p) (queue p) (beats p) (all p) (priced p) (changesSinceReorg p) (ticks p).
Definition set_forks a b c d p := mkPool (gasPrice p) a b c d (currentState p) (pendingNonces p) (currentMaxGas p) (locals p) (pending p) (queue p) (beats p) (all p) (priced p) (changesSinceReorg p) (ticks p).
Definition set_head s n g p := mkPool (gasPrice p) (istanbul p) (eip2718 p) (eip1559 p) (shanghai p) s n g (locals p) (pending p) (queue p) (beats p) (all p) (priced p) (changesSinceReorg p) (ticks p).
Definition set_nonces v p := mkPool (gasPrice p) (istanbul p) (eip2718 p) (eip1559 p) (shanghai p) (currentState p) v (currentMaxGas p) (locals p) (pending p) (queue p) (beats p) (all p) (priced p) (changesSinceReorg p) (ticks p).
Definition set_locals v p := mkPool (gasPrice p) (istanbul p) (eip2718 p) (eip1559 p) (shanghai p) (currentState p) (pendingNonces p) (currentMaxGas p) v (pending p) (queue p) (beats p) (all p) (priced p) (changesSinceReorg p) (ticks p).
Definition set_pending v p := mkPool (gasPrice p) (istanbul p) (eip2718 p) (eip1559 p) (shanghai p) (currentState p) (pendingNonces p) (currentMaxGas p) (locals p) v (queue p) (beats p) (all p) (priced p) (changesSinceReorg p) (ticks p).
Definition set_queue v p := mkPool (gasPrice p) (istanbul p) (eip2718 p) (eip1559 p) (shanghai p) (currentState p) (pendingNonces p) (currentMaxGas p) (locals p) (pending p) v (beats p) (all p) (priced p) (changesSinceReorg p) (ticks p).
Definition set_beats v p := mkPool (gasPrice p) (istanbul p) (eip2718 p) (eip1559 p) (shanghai p) (currentState p) (pendingNonces p) (currentMaxGas p) (locals p) (pending p) (queue p) v (all p) (priced p) (changesSinceReorg p) (ticks p).
Definition set_all v p := mkPool (gasPrice p) (istanbul p) (eip2718 p) (eip1559 p) (shanghai p) (currentState p) (pendingNonces p) (currentMaxGas p) (locals p) (pending p) (queue p) (beats p) v (priced p) (changesSinceReorg p) (ticks p).
Definition set_priced v p := mkPool (gasPrice p) (istanbul p) (eip2718 p) (eip1559 p) (shanghai p) (currentState p) (pendingNonces p) (currentMaxGas p) (locals p) (pending p) (queue p) (beats p) (all p) v (changesSinceReorg p) (ticks p).
Definition set_changes v p := mkPool (gasPrice p) (istanbul p) (eip2718 p) (eip1559 p) (shanghai p) (currentState p) (pendingNonces p) (currentMaxGas p) (locals p) (pending p) (queue p) (beats p) (all p) (priced p) v (ticks p).
Definition set_ticks v p := mkPool (gasPrice p) (istanbul p) (eip2718 p) (eip1559 p) (shanghai p) (currentState p) (pendingNonces p) (currentMaxGas p) (locals p) (pending p) (queue p) (beats p) (all p) (priced p) (changesSinceReorg p) v.

#[local] Abbreviation stm := (stm pool).
Definition asks {E A} (f : pool → A) : stm E A := fun p => (Ok (f p), p).
Definition mods {E} (f : pool → pool) : stm E unit := fun p => (Ok tt, f p).
Definition fails {E A} (e : E) : stm E A := fun p => (Err e, p).
Definition sure {E A} (m : outcome Empty_set A) : stm E A := fun p => (never m, p).
(** A call whose error is ignored. *)
Definition ignoring {E E'} {A} (m : stm E A) : stm E' unit := fun p => match m p with (Panic, p) => (Panic, p) | (_, p) => (Ok tt, p) end.
Definition tick {E} : stm E nat := fun p => (Ok (ticks p), set_ticks (S (ticks p)) p).
(** [for _, x := range xs]. *)
Fixpoint each {E A} (f : A → stm E unit) (xs : list A) : stm E unit :=
  match xs with [] => mret tt | x :: xs => _ ← f x; each f xs end.
(** Reading a list through its pointer, and writing it back. *)
Definition with_pending {E A} (addr : Z) (f : txlist → outcome Empty_set (A * txlist)) : stm E A :=
  l ← asks (fun p => pending p !! addr);
  l ← pure_out (deref l);
  '(a, l) ← sure (f l);
  _ ← mods (fun p => set_pending (<[addr := l]> (pending p)) p);
  mret a.
Definition with_queue {E A} (addr : Z) (f : txlist → outcome Empty_set (A * txlist)) : stm E A :=
  l ← asks (fun p => queue p !! addr);
  l ← pure_out (deref l);
  '(a, l) ← sure (f l);
  _ ← mods (fun p => set_queue (<[addr := l]> (queue p)) p);
  mret a.
(** [tx.Hash()] of a nil pointer panics. *)
Definition present {E} (l : list (option Transaction)) : stm E (list Transaction) := pure_out (mapM deref l).

(** The parts the pool points to. *)
Definition all_Remove {E} (hash : Z) : stm E unit := mods (fun p => set_all (lk_Remove tx_size hash (all p)) p).
Definition all_Add {E} (tx : Transaction) (local : bool) : stm E unit := mods (fun p => set_all (lk_Add tx_hash tx_size tx local (all p)) p).
Definition priced_Put {E} (tx : Transaction) (local : bool) : stm E unit := mods (fun p => set_priced (pl_Put tx local (priced p)) p).
Definition priced_Removed {E} (count : Z) : stm E unit :=
  n ← tick; p ← asks id;
  l ← sure (pl_Removed (order n Transaction) count (all p) (priced p));
  mods (set_priced l).
Definition next_nonce {E} (addr : Z) : stm E Z := fun p => let '(v, n) := nn_get addr (pendingNonces p) in (Ok v, set_nonces n p).
Definition lower_nonce {E} (addr v : Z) : stm E unit := mods (fun p => set_nonces (nn_setIfLower addr v (pendingNonces p)) p).
Definition beat {E} (addr : Z) : stm E unit := n ← tick; mods (fun p => set_beats (<[addr := Now n]> (beats p)) p).
Definition is_local (addr : Z) (p : pool) : bool := as_contains addr (locals p).

(** ** Validation *)

Definition check (b : bool) (e : txpoolError) : outcome txpoolError unit := if b then Err e else Ok tt.
Definition validateTxBasics (tx : Transaction) (local : bool) (p : pool) : outcome txpoolError unit :=
  let d := inner tx in
  _ ← check (negb (eip2718 p) && negb (txType d =? LegacyTxType)) ErrTxTypeNotSupported;
  _ ← check (negb (eip1559 p) && (txType d =? DynamicFeeTxType)) ErrTxTypeNotSupported;
  _ ← check (txType d =? BlobTxType) ErrTxTypeNotSupported;
  _ ← check (txMaxSize <? tx_size tx) ErrOversizedData;
  _ ← check (shanghai p && bool_decide (tx_to d = None) && (MaxInitCodeSize <? zlen (tx_data d))) ErrInitCodeTooLarge;
  _ ← check (tx_value d <? 0) ErrNegativeValue;
  _ ← check (currentMaxGas p <? gas d) ErrGasLimit;
  _ ← check (2 ^ 256 <=? Z.abs (gasFeeCap d)) ErrFeeCapTooLarge;
  _ ← check (2 ^ 256 <=? Z.abs (gasTipCap d)) ErrTipTooLarge;
  _ ← check (gasFeeCap d <? gasTipCap d) ErrTipOverFeeCap;
  _ ← (match tx_Sender tx with Ok _ => Ok tt | Err _ => Err ErrInvalidSender | Panic => Panic end);
  _ ← check (negb local && (gasTipCap d <? gasPrice p)) ErrUnderpriced;
  intrGas ← (match IntrinsicGas (tx_data d) (accessList d) (bool_decide (tx_to d = None)) true (istanbul p) (shanghai p) with
             | Ok g => Ok g | Err e => Err (ErrIntrinsic (Some e)) | Panic => Panic end);
  check (gas d <? intrGas) (ErrIntrinsic None).

Definition validateTx (tx : Transaction) (p : pool) : outcome txpoolError unit :=
  let from := sender tx in
  _ ← check (tx_nonce tx <? GetNonce (currentState p) from) ErrNonceLow;
  let balance := GetBalance (currentState p) from in
  _ ← check (balance <? tx_cost tx) ErrFundsLow;
  match pending p !! from with
  | None => Ok tt
  | Some list =>
      let sum := tx_cost tx + totalcost list in
      let sum := match sm_Get (tx_nonce tx) (txs list) with Some repl => sum - tx_cost repl | None => sum end in
      check (balance <? sum) ErrOverdraft
  end.

(** ** Adding *)

Definition isGapped {E} (from : Z) (tx : Transaction) : stm E bool :=
  next ← next_nonce from;
  if tx_nonce tx =? next then mret false else
  q ← asks (fun p => queue p !! from);
  match q with
  | None => mret true
  | Some q => mret (negb (forallb (fun n => list_Contains n q) (seqZ next (tx_nonce tx - next))))
  end.

Definition enqueueTx (tx : Transaction) (local addAll : bool) : stm txpoolError bool :=
  let from := sender tx in
  _ ← mods (fun p => match queue p !! from with Some _ => p | None => set_queue (<[from := newList false]> (queue p)) p end);
  '(inserted, old) ← with_queue from (list_Add tx (PriceBump config));
  if negb inserted then fails ErrReplaceUnderpriced else
  _ ← (match old with Some old => _ ← all_Remove (tx_hash old); priced_Removed 1 | None => mret tt end);
  _ ← (if addAll then _ ← all_Add tx local; priced_Put tx local else mret tt);
  b ← asks (fun p => beats p !! from);
  _ ← (match b with Some _ => mret tt | None => beat from end);
  mret (bool_decide (is_Some old)).

Definition promoteTx {E} (addr hash : Z) (tx : Transaction) : stm E bool :=
  _ ← mods (fun p => match pending p !! addr with Some _ => p | None => set_pending (<[addr := newList true]> (pending p)) p end);
  '(inserted, old) ← with_pending addr (list_Add tx (PriceBump config));
  if negb inserted then
    _ ← all_Remove hash; _ ← priced_Removed 1; mret false
  else
  _ ← (match old with Some old => _ ← all_Remove (tx_hash old); priced_Removed 1 | None => mret tt end);
  _ ← mods (fun p => set_nonces (nn_set addr (u64 (tx_nonce tx + 1)) (pendingNonces p)) p);
  _ ← beat addr;
  mret true.

Definition removeTx {E} (hash : Z) (outofbound : bool) : stm E Z :=
  tx ← asks (fun p => lk_Get hash (all p));
  match tx with
  | None => mret 0
  | Some tx =>
      let addr := sender tx in
      _ ← all_Remove hash;
      _ ← (if outofbound then priced_Removed 1 else mret tt);
      pend ← asks (fun p => pending p !! addr);
      '(removed, invalids) ← (match pend with
                              | None => mret (false, [])
                              | Some _ => n ← tick; with_pending addr (list_Remove (order n Transaction) tx)
                              end);
      if removed : bool then
        _ ← mods (fun p => match pending p !! addr with
                           | Some l => if list_Empty l then set_pending (delete addr (pending p)) p else p
                           | None => p end);
        _ ← each (fun tx => ignoring (enqueueTx tx false false)) invalids;
        _ ← lower_nonce addr (tx_nonce tx);
        mret (1 + zlen invalids)
      else
        future ← asks (fun p => queue p !! addr);
        match future with
        | None => mret 0
        | Some _ =>
            n ← tick;
            _ ← with_queue addr (list_Remove (order n Transaction) tx);
            _ ← mods (fun p => match queue p !! addr with
                               | Some l => if list_Empty l then set_beats (delete addr (beats p)) (set_queue (delete addr (queue p)) p) else p
                               | None => p end);
            mret 0
        end
  end.

(** Whether one of the dropped transactions is pending. *)
Definition drops_pending (drop : list Transaction) (p : pool) : bool :=
  existsb (fun tx => match pending p !! sender tx with Some l => list_Contains (tx_nonce tx) l | None => false end) drop.
Definition make_room (from : Z) (tx : Transaction) (isLocal : bool) : stm txpoolError unit :=
  underpriced ← (if isLocal then mret false else
    p ← asks id; '(b, l) ← sure (pl_Underpriced tx_hash tx (all p) (priced p)); _ ← mods (set_priced l); mret b);
  if underpriced : bool then fails ErrUnderpriced else
  p ← asks id;
  if GlobalSlots config / 4 <? changesSinceReorg p then fails ErrTxPoolOverflow else
  '(drop, success, l) ← sure (pl_Discard tx_hash tx_size
      (lk_slots (all p) - i64 (u64 (GlobalSlots config + GlobalQueue config)) + slots_of_tx tx) isLocal (all p) (priced p));
  _ ← mods (set_priced l);
  if negb isLocal && negb success then fails ErrTxPoolOverflow else
  gapped ← (if isLocal then mret false else isGapped from tx);
  p ← asks id;
  if gapped && drops_pending drop p then
    _ ← each (fun tx => priced_Put tx false) drop; fails ErrFutureReplacePending
  else
  each (fun tx =>
    dropped ← removeTx (tx_hash tx) false;
    mods (fun p => set_changes (changesSinceReorg p + dropped) p)) drop.

(** A transaction with a nonce that is pending replaces it. *)
Definition replace_pending (from : Z) (tx : Transaction) (isLocal : bool) : stm txpoolError bool :=
  '(inserted, old) ← with_pending from (list_Add tx (PriceBump config));
  if negb inserted then fails ErrReplaceUnderpriced else
  _ ← (match old with Some old => _ ← all_Remove (tx_hash old); priced_Removed 1 | None => mret tt end);
  _ ← all_Add tx isLocal;
  _ ← priced_Put tx isLocal;
  _ ← beat from;
  mret (bool_decide (is_Some old)).

Definition add (tx : Transaction) (local : bool) : stm txpoolError bool :=
  p ← asks id;
  if bool_decide (is_Some (lk_Get (tx_hash tx) (all p))) then fails ErrAlreadyKnown else
  let isLocal := local || as_containsTx tx_Sender tx (locals p) in
  _ ← pure_out (validateTx tx p);
  let from := sender tx in
  _ ← (if u64 (GlobalSlots config + GlobalQueue config) <? u64 (lk_slots (all p) + slots_of_tx tx) then make_room from tx isLocal else mret tt);
  pend ← asks (fun p => pending p !! from);
  if (match pend with Some l => list_Contains (tx_nonce tx) l | None => false end) then replace_pending from tx isLocal else
  replaced ← enqueueTx tx isLocal true;
  known ← asks (is_local from);
  _ ← (if local && negb known then
         _ ← mods (fun p => set_locals (as_add from (locals p)) p);
         n ← tick; p ← asks id;
         let '(migrated, t) := lk_RemoteToLocals tx_Sender (order n Transaction) (locals p) (all p) in
         _ ← mods (set_all t);
         priced_Removed migrated
       else mret tt);
  mret replaced.

(** The errors, in the order of the transactions, and the accounts to promote. *)
Fixpoint addTxsLocked {E} (txs : list Transaction) (local : bool) (dirty : accountSet) : stm E (list (option txpoolError) * accountSet) :=
  match txs with
  | [] => mret ([], dirty)
  | tx :: txs =>
      '(err, dirty) ← (fun p => match add tx local p with
                                | (Ok replaced, p) => (Ok (None, if replaced : bool then dirty else as_addTx tx_Sender tx dirty), p)
                                | (Err e, p) => (Ok (Some e, dirty), p)
                                | (Panic, p) => (Panic, p)
                                end);
      '(errs, dirty) ← addTxsLocked txs local dirty;
      mret (err :: errs, dirty)
  end.

(** [addTxs] before it takes the lock: known and invalid transactions are sorted
    out; [None] marks those that are left. *)
Definition prefilter (txs : list Transaction) (local : bool) (p : pool) : outcome txpoolError (list (option txpoolError)) :=
  mapM (fun tx =>
    if bool_decide (is_Some (lk_Get (tx_hash tx) (all p))) then Ok (Some ErrAlreadyKnown) else
    match validateTxBasics tx local p with Ok _ => Ok None | Err e => Ok (Some e) | Panic => Panic end) txs.
(** The errors of the new ones go to the free places. *)
Fixpoint merge_errs {E} (errs news : list (option txpoolError)) : outcome E (list (option txpoolError)) :=
  match errs, news with
  | _, [] => Ok errs
  | [], _ :: _ => Panic
  | Some e :: errs, _ => r ← merge_errs errs news; Ok (Some e :: r)
  | None :: errs, n :: news => r ← merge_errs errs news; Ok (n :: r)
  end.
Definition addTxs (txs : list Transaction) (local : bool) : stm txpoolError (list (option txpoolError) * option accountSet) :=
  p ← asks id;
  errs ← pure_out (prefilter txs local p);
  let news := map fst (base.filter (fun te => te.2 = None) (zip txs errs)) in
  match news with
  | [] => mret (errs, None)
  | _ =>
      '(newErrs, dirty) ← addTxsLocked news local newAccountSet;
      errs ← pure_out (merge_errs errs newErrs);
      mret (errs, Some dirty)
  end.
Definition AddLocals (txs : list Transaction) : stm txpoolError (list (option txpoolError) * option accountSet) := addTxs txs (negb (NoLocals config)).
Definition AddRemotes (txs : list Transaction) : stm txpoolError (list (option txpoolError) * option accountSet) := addTxs txs false.

(** ** Reorganisation *)

Definition drop_known {E} (txs : list Transaction) : stm E unit := each (fun tx => all_Remove (tx_hash tx)) txs.
Fixpoint promote_all {E} (addr : Z) (txs : list Transaction) : stm E (list Transaction) :=
  match txs with
  | [] => mret []
  | tx :: txs =>
      ok ← promoteTx addr (tx_hash tx) tx;
      promoted ← promote_all addr txs;
      mret (if ok : bool then tx :: promoted else promoted)
  end.
Definition promote_account {E} (addr : Z) : stm E (list Transaction) :=
  l ← asks (fun p => queue p !! addr);
  match l with
  | None => mret []
  | Some _ =>
      p ← asks id;
      forwards ← with_queue addr (list_Forward (GetNonce (currentState p) addr));
      forwards ← present forwards;
      _ ← drop_known forwards;
      n ← tick;
      '(drops, _) ← with_queue addr (list_Filter (order n Transaction) (GetBalance (currentState p) addr) (currentMaxGas p));
      _ ← drop_known drops;
      next ← next_nonce addr;
      readies ← with_queue addr (list_Ready next);
      readies ← present readies;
      promoted ← promote_all addr readies;
      local ← asks (is_local addr);
      caps ← (if local : bool then mret [] else
                caps ← with_queue addr (list_Cap (i64 (AccountQueue config))); caps ← present caps; _ ← drop_known caps; mret caps);
      _ ← priced_Removed (zlen forwards + zlen drops + zlen caps);
      _ ← mods (fun p => match queue p !! addr with
                         | Some l => if list_Empty l then set_beats (delete addr (beats p)) (set_queue (delete addr (queue p)) p) else p
                         | None => p end);
      mret promoted
  end.
Fixpoint promoteExecutables {E} (accounts : list Z) : stm E (list Transaction) :=
  match accounts with
  | [] => mret []
  | addr :: accounts => a ← promote_account addr; b ← promoteExecutables accounts; mret (a ++ b)
  end.

Definition demote_account {E} (addr : Z) : stm E unit :=
  p ← asks id;
  let nonce := GetNonce (currentState p) addr in
  olds ← with_pending addr (list_Forward nonce);
  olds ← present olds;
  _ ← drop_known olds;
  n ← tick;
  '(drops, invalids) ← with_pending addr (list_Filter (order n Transaction) (GetBalance (currentState p) addr) (currentMaxGas p));
  _ ← drop_known drops;
  _ ← each (fun tx => ignoring (enqueueTx tx false false)) invalids;
  l ← asks (fun p => pending p !! addr);
  l ← pure_out (deref l);
  _ ← (if (0 <? list_Len l) && bool_decide (sm_Get nonce (txs l) = None) then
         gapped ← with_pending addr (list_Cap 0);
         gapped ← present gapped;
         each (fun tx => ignoring (enqueueTx tx false false)) gapped
       else mret tt);
  mods (fun p => match pending p !! addr with
                 | Some l => if list_Empty l then set_pending (delete addr (pending p)) p else p
                 | None => p end).
Definition demoteUnexecutables {E} : stm E unit :=
  n ← tick;
  m ← asks pending;
  each (fun kv : Z * txlist => demote_account kv.1) (order n txlist m).

(** *** Limits *)

Definition lengths (m : gmap Z txlist) : Z := foldr (fun kv n => list_Len kv.2 + n) 0 (map_to_list m).
Definition count_lists (m : gmap Z txlist) : Z := u64 (lengths m).
(** [prque]: the account with most transactions first. *)
Definition more_txs (a b : Z * Z) : bool := b.2 <? a.2.
(** The last transaction of an account goes. *)
Definition cap_last {E} (addr : Z) : stm E unit :=
  l ← asks (fun p => pending p !! addr);
  l ← pure_out (deref l);
  caps ← with_pending addr (list_Cap (list_Len l - 1));
  caps ← present caps;
  _ ← each (fun tx => _ ← all_Remove (tx_hash tx); lower_nonce addr (tx_nonce tx)) caps;
  priced_Removed (zlen caps).
Definition pending_Len {E} (addr : Z) : stm E Z :=
  l ← asks (fun p => pending p !! addr);
  l ← pure_out (deref l);
  mret (list_Len l).
(** One transaction of each of [offenders] per turn, while [pending] is too
    large and the account [probe] has more than [threshold]. *)
Fixpoint reduce {E} (fuel : nat) (offenders : list Z) (probe threshold pending : Z) : stm E Z :=
  match fuel with
  | O => mret pending
  | S fuel =>
      len ← pending_Len probe;
      if negb ((GlobalSlots config <? pending) && (threshold <? len)) then mret pending else
      _ ← each cap_last offenders;
      reduce fuel offenders probe threshold (u64 (pending - zlen offenders))
  end.
Fixpoint equalize {E} (fuel : nat) (spammers : list (Z * Z)) (offenders : list Z) (pending : Z) : stm E (list Z * Z) :=
  match fuel with
  | O => mret (offenders, pending)
  | S fuel =>
      if negb ((GlobalSlots config <? pending) && negb (zlen spammers =? 0)) then mret (offenders, pending) else
      '(offender, spammers) ← pure_out (deref (Pop more_txs spammers));
      pending ← (match list.last offenders with
                 | None => mret pending
                 | Some probe =>
                     threshold ← pending_Len offender.1;
                     len ← pending_Len probe;
                     reduce (S (Z.to_nat len)) offenders probe threshold pending
                 end);
      equalize fuel spammers (offenders ++ [offender.1]) pending
  end.
Definition truncatePending {E} : stm E unit :=
  m ← asks pending;
  let count := count_lists m in
  if count <=? GlobalSlots config then mret tt else
  n ← tick;
  p ← asks id;
  let spammers := foldl (fun h kv => if negb (is_local kv.1 p) && (AccountSlots config <? list_Len kv.2) then Push more_txs h (kv.1, list_Len kv.2) else h)
                    [] (order n txlist m) in
  '(offenders, count) ← equalize (S (length spammers)) spammers [] count;
  match list.last offenders with
  | None => mret tt
  | Some probe =>
      len ← pending_Len probe;
      _ ← reduce (S (Z.to_nat len)) offenders probe (AccountSlots config) count;
      mret tt
  end.

Definition heartbeat (p : pool) (addr : Z) : Z := default (-62135596800 * 10 ^ 9) (beats p !! addr).
Definition later_beat (a b : Z * Z) : Prop := b.2 ≤ a.2.
#[local] Instance later_beat_dec : RelDecision later_beat.
Proof. intros a b. unfold later_beat. apply _. Defined.
Fixpoint truncate_loop {E} (addresses : list Z) (drop : Z) : stm E unit :=
  match addresses with
  | [] => mret tt
  | addr :: addresses =>
      if drop <=? 0 then mret tt else
      l ← asks (fun p => queue p !! addr);
      l ← pure_out (deref l);
      let size := list_Len l in
      n ← tick;
      txs ← with_queue addr (fun l => Ok (list_Flatten (order n Transaction) l));
      if size <=? drop then
        _ ← each (fun tx => _ ← removeTx (tx_hash tx) true; mret tt) txs;
        truncate_loop addresses (drop - size)
      else
        let last := take (Z.to_nat drop) (reverse txs) in
        _ ← each (fun tx => _ ← removeTx (tx_hash tx) true; mret tt) last;
        truncate_loop addresses (drop - zlen last)
  end.
Definition truncateQueue {E} : stm E unit :=
  m ← asks queue;
  let queued := count_lists m in
  if queued <=? GlobalQueue config then mret tt else
  n ← tick;
  p ← asks id;
  let addresses := map (fun kv => (kv.1, heartbeat p kv.1)) (base.filter (fun kv => is_local kv.1 p = false) (order n txlist m)) in
  let sorted := merge_sort later_beat addresses in
  truncate_loop (map fst (reverse sorted)) (queued - GlobalQueue config).

(** *** A new head *)

(** [float64] of an integer: 53 significant bits, ties to even. *)
Definition float64 (z : Z) : Z :=
  let a := Z.abs z in
  if a <? 2 ^ 53 then z else
  let e := Z.log2 a - 52 in
  let q := a / 2 ^ e in
  let r := a mod 2 ^ e in
  let half := 2 ^ (e - 1) in
  let q := if (half <? r) || ((r =? half) && Z.odd q) then q + 1 else q in
  Z.sgn z * (q * 2 ^ e).
Definition reorg_depth (oldNum newNum : Z) : Z := Z.abs (float64 (float64 oldNum - float64 newNum)).

Definition parent_of (b : Block Transaction Wd) (number : Z) : option (Block Transaction Wd) := GetBlock (ParentHash (b_header b)) (u64 (number - 1)).
(** Down to the height [low]; [None] when a block is missing. *)
Fixpoint descend {E} (fuel : nat) (b : Block Transaction Wd) (low : Z) (txs : list Transaction) : outcome E (option (Block Transaction Wd * list Transaction)) :=
  match fuel with
  | O => Panic
  | S fuel =>
      n ← NumberU64 b;
      if n <=? low then Ok (Some (b, txs)) else
      match parent_of b n with None => Ok None | Some b' => descend fuel b' low (txs ++ b_transactions b) end
  end.
(** Both down to the common ancestor. *)
Fixpoint common {E} (fuel : nat) (rem add : Block Transaction Wd) (discarded included : list Transaction) : outcome E (option (list Transaction * list Transaction)) :=
  match fuel with
  | O => Panic
  | S fuel =>
      if Block_Hash keccak rem =? Block_Hash keccak add then Ok (Some (discarded, included)) else
      n ← NumberU64 rem;
      match parent_of rem n with
      | None => Ok None
      | Some rem' =>
          k ← NumberU64 add;
          match parent_of add k with
          | None => Ok None
          | Some add' => common fuel rem' add' (discarded ++ b_transactions rem) (included ++ b_transactions add)
          end
      end
  end.
(** The transactions of the old chain that the new one does not have; [None]
    when the reset is given up. *)
Definition reinjected {E} (oldHead newHead : Header) : outcome E (option (list Transaction)) :=
  oldNum ← deref (Number oldHead);
  newNum ← deref (Number newHead);
  let oldNum := big_Uint64 oldNum in
  let newNum := big_Uint64 newNum in
  if 64 <? reorg_depth oldNum newNum then Ok (Some []) else
  match GetBlock (Header_Hash keccak oldHead) oldNum with
  | None => if oldNum <=? newNum then Ok None else Ok (Some [])
  | Some rem =>
      add ← deref (GetBlock (Header_Hash keccak newHead) newNum);
      r ← NumberU64 rem;
      a ← NumberU64 add;
      x ← descend (S (Z.to_nat r)) rem a [];
      match x with
      | None => Ok None
      | Some (rem, discarded) =>
          r ← NumberU64 rem;
          y ← descend (S (Z.to_nat a)) add r [];
          match y with
          | None => Ok None
          | Some (add, included) =>
              z ← common (S (S (Z.to_nat r))) rem add discarded included;
              match z with
              | None => Ok None
              | Some (discarded, included) =>
                  let d := TxDifference keccak (map inner discarded) (map inner included) in
                  Ok (Some (base.filter (fun tx => inner tx ∈ d) discarded))
              end
          end
      end
  end.
Definition reset {E} (oldHead newHead : option Header) : stm E unit :=
  reinject ← pure_out (match oldHead with
    | None => Ok (Some [])
    | Some old =>
        new ← deref newHead;
        if Header_Hash keccak old =? ParentHash new then Ok (Some []) else reinjected old new
    end);
  match reinject with
  | None => mret tt
  | Some reinject =>
      let newHead := default CurrentBlock newHead in
      match StateAt (Root newHead) with
      | None => mret tt
      | Some statedb =>
          _ ← mods (set_head statedb (newNoncer statedb) (GasLimit newHead));
          _ ← addTxsLocked reinject false newAccountSet;
          number ← pure_out (deref (Number newHead));
          let next := Some (number + 1) in
          n ← tick;
          mods (set_forks (IsIstanbul chainconfig next) (IsBerlin chainconfig next) (IsLondon chainconfig next)
                  (IsShanghai chainconfig (u64 (Now n / 10 ^ 9))))
      end
  end.

Fixpoint last_nonces {E} (addrs : list Z) (nonces : gmap Z Z) : stm E (gmap Z Z) :=
  match addrs with
  | [] => mret nonces
  | addr :: addrs =>
      n ← tick;
      highest ← with_pending addr (list_LastElement (order n Transaction));
      last_nonces addrs (<[addr := u64 (tx_nonce highest + 1)]> nonces)
  end.
Definition set_base_fee {E} (newHead : option Header) : stm E unit :=
  match newHead with
  | None => mret tt
  | Some h =>
      number ← pure_out (deref (Number h));
      if negb (IsLondon chainconfig (Some (number + 1))) then mret tt else
      fee ← pure_out (match CalcBaseFee chainconfig h with Ok f => Ok f | _ => Panic end);
      n ← tick; p ← asks id;
      l ← sure (pl_SetBaseFee (order n Transaction) (Some fee) (all p) (priced p));
      mods (set_priced l)
  end.
(** A request to reset names the old and the new head. *)
Definition runReorg {E} (resets : option (option Header * option Header)) (dirtyAccounts : option accountSet) : stm E (list Transaction) :=
  n ← tick;
  promoteAddrs ← (match resets with
    | None => mret (match dirtyAccounts with Some s => (as_flatten (order n ()) s).1 | None => [] end)
    | Some (oldHead, newHead) =>
        _ ← reset oldHead newHead;
        n ← tick;
        q ← asks queue;
        mret (map fst (order n txlist q))
    end);
  promoted ← promoteExecutables promoteAddrs;
  _ ← (match resets with
       | None => mret tt
       | Some (_, newHead) =>
           _ ← demoteUnexecutables;
           _ ← set_base_fee newHead;
           n ← tick;
           m ← asks pending;
           nonces ← last_nonces (map fst (order n txlist m)) ∅;
           mods (fun p => set_nonces (nn_setAll nonces (pendingNonces p)) p)
       end);
  _ ← truncatePending;
  _ ← truncateQueue;
  _ ← mods (set_changes 0);
  mret promoted.

(** ** Other operations *)

Definition SetGasPrice {E} (price : Z) : stm E unit :=
  old ← asks gasPrice;
  _ ← mods (set_gasPrice price);
  if old <? price then
    n ← tick;
    drop ← asks (fun p => lk_RemotesBelowTip (order n Transaction) price (all p));
    _ ← each (fun tx => _ ← removeTx (tx_hash tx) false; mret tt) drop;
    priced_Removed (zlen drop)
  else mret tt.

(** The eviction of the main loop: old queues of remote accounts. *)
Definition evict_account {E} (addr : Z) : stm E unit :=
  p ← asks id;
  n ← tick;
  if is_local addr p then mret tt else
  if Lifetime config <? Z.min (Now n - heartbeat p addr) (2 ^ 63 - 1) then
    n ← tick;
    txs ← with_queue addr (fun l => Ok (list_Flatten (order n Transaction) l));
    each (fun tx => _ ← removeTx (tx_hash tx) true; mret tt) txs
  else mret tt.
Definition evict {E} : stm E unit :=
  n ← tick;
  m ← asks queue;
  each (fun kv : Z * txlist => evict_account kv.1) (order n txlist m).

Definition EffectiveGasTipIntCmp (d : TxData) (other : Z) (baseFee : option Z) : comparison :=
  match baseFee with None => gasTipCap d ?= other | Some _ => EffectiveGasTipValue d baseFee ?= other end.
Fixpoint take_paying (p : pool) (txs : list Transaction) : list Transaction :=
  match txs with
  | [] => []
  | tx :: txs =>
      match EffectiveGasTipIntCmp (inner tx) (gasPrice p) (ph_baseFee (urgent (priced p))) with
      | Lt => []
      | _ => tx :: take_paying p txs
      end
  end.
Fixpoint pending_loop {E} (enforceTips : bool) (addrs : list Z) (r : gmap Z (list Transaction)) : stm E (gmap Z (list Transaction)) :=
  match addrs with
  | [] => mret r
  | addr :: addrs =>
      n ← tick;
      txs ← with_pending addr (fun l => Ok (list_Flatten (order n Transaction) l));
      p ← asks id;
      let txs := if enforceTips && negb (is_local addr p) then take_paying p txs else txs in
      pending_loop enforceTips addrs (if 0 <? zlen txs then <[addr := txs]> r else r)
  end.
Definition Pending {E} (enforceTips : bool) : stm E (gmap Z (list Transaction)) :=
  n ← tick;
  m ← asks pending;
  pending_loop enforceTips (map fst (order n txlist m)) ∅.

Inductive TxStatus := TxStatusUnknown | TxStatusQueued | TxStatusPending | TxStatusIncluded.
Definition Status (hash : Z) (p : pool) : TxStatus :=
  match lk_Get hash (all p) with
  | None => TxStatusUnknown
  | Some tx =>
      let has (m : gmap Z txlist) := match m !! sender tx with Some l => list_Contains (tx_nonce tx) l | None => false end in
      if has (pending p) then TxStatusPending else if has (queue p) then TxStatusQueued else TxStatusUnknown
  end.
Definition stats (p : pool) : Z * Z := (i64 (lengths (pending p)), i64 (lengths (queue p))).
Definition pool_Get (hash : Z) (p : pool) : option Transaction := lk_Get hash (all p).
Definition Has (hash : Z) (p : pool) : bool := bool_decide (is_Some (lk_Get hash (all p))).
Definition Nonce {E} (addr : Z) : stm E Z := next_nonce addr.
Definition Locals {E} : stm E (list Z) :=
  n ← tick;
  s ← asks locals;
  let '(l, s) := as_flatten (order n ()) s in
  _ ← mods (set_locals s);
  mret l.
(** Reading a list of either kind. *)
Definition flat_pending {E} (addr : Z) : stm E (list Transaction) := n ← tick; with_pending addr (fun l => Ok (list_Flatten (order n Transaction) l)).
Definition flat_queue {E} (addr : Z) : stm E (list Transaction) := n ← tick; with_queue addr (fun l => Ok (list_Flatten (order n Transaction) l)).
Fixpoint content_loop {E} (read : Z → stm E (list Transaction)) (addrs : list Z) (r : gmap Z (list Transaction)) : stm E (gmap Z (list Transaction)) :=
  match addrs with
  | [] => mret r
  | addr :: addrs => txs ← read addr; content_loop read addrs (<[addr := txs]> r)
  end.
Definition Content {E} : stm E (gmap Z (list Transaction) * gmap Z (list Transaction)) :=
  n ← tick;
  m ← asks pending;
  pend ← content_loop flat_pending (map fst (order n txlist m)) ∅;
  n ← tick;
  m ← asks queue;
  queued ← content_loop flat_queue (map fst (order n txlist m)) ∅;
  mret (pend, queued).
Definition ContentFrom {E} (addr : Z) : stm E (list Transaction * list Transaction) :=
  l ← asks (fun p => pending p !! addr);
  pend ← (match l with Some _ => flat_pending addr | None => mret [] end);
  l ← asks (fun p => queue p !! addr);
  queued ← (match l with Some _ => flat_queue addr | None => mret [] end);
  mret (pend, queued).

(** The pool before its first reset has no state, which [nil] stands for. *)
Definition emptyPool (nil : DB) : pool :=
  mkPool (PriceLimit config) false false false false nil (newNoncer nil) 0 (foldl (fun s a => as_add a s) newAccountSet (c_Locals config))
    ∅ ∅ ∅ newLookup newPricedList 0 0.
Definition NewTxPool (nil : DB) : outcome Empty_set unit * pool := reset None (Some CurrentBlock) (emptyPool nil).
End Pool.
