(* ===== verification/TxPoolInv.v ===== *)
(** The invariant of the transaction pool and that every operation keeps it.

    The lookup holds exactly the transactions of the pending and the queued
    lists, and no two of them have the same sender and nonce.  While an
    operation moves transactions between lists, some are in none of them; they
    are the list [X] below. *)

From S2P Require Import Prelude RLP Types Receipts Config Fees Transactions Signing StateTransition Heap TxList TxLookup TxPriced TxPool.

(** ** Contents of lists *)

Definition items_of (L : txlist) : list Transaction := map snd (map_to_list (sm_items (txs L))).
Definition contents (m : gmap Z txlist) : list Transaction := concat (map (fun kv => items_of kv.2) (map_to_list m)).

Lemma items_rep L l : list_rep L l → items_of L ≡ₚ l.
Proof.
  intros [[[Hs Hu Hi _ _] _] _ _]. unfold items_of. rewrite Hi, tx_map_perm by done. by rewrite keyed_snd.
Qed.
Lemma newList_rep b : list_rep (newList b) [].
Proof. split; [apply newSortedMap_rep|done|set_solver]. Qed.

Lemma contents_empty : contents ∅ = [].
Proof. unfold contents. by rewrite map_to_list_empty. Qed.
Lemma contents_insert m a L : m !! a = None → contents (<[a := L]> m) ≡ₚ items_of L ++ contents m.
Proof. intros H. unfold contents. by rewrite (map_to_list_insert m a L H). Qed.
Lemma contents_delete m a L : m !! a = Some L → contents m ≡ₚ items_of L ++ contents (delete a m).
Proof. intros H. unfold contents. by rewrite <- (map_to_list_delete m a L H). Qed.
Lemma contents_update m a L L' : m !! a = Some L → contents (<[a := L']> m) ≡ₚ items_of L' ++ contents (delete a m).
Proof. intros H. rewrite <- insert_delete_eq. apply contents_insert. by rewrite lookup_delete_eq. Qed.
Lemma contents_elem m tx : tx ∈ contents m ↔ ∃ a L, m !! a = Some L ∧ tx ∈ items_of L.
Proof.
  unfold contents. rewrite <- flat_map_concat_map, list_elem_of_In, in_flat_map. setoid_rewrite <- list_elem_of_In. split.
  - intros ([a L] & H%elem_of_map_to_list & Hx). eauto.
  - intros (a & L & H & Hx). exists (a, L). by rewrite elem_of_map_to_list.
Qed.


(** ** What the operations of a list give away *)

Section Lists.
Context (range : gmap Z Transaction → list (Z * Transaction)) (Hrange : ∀ m, range m ≡ₚ map_to_list m).
Implicit Types (L : txlist) (l : list Transaction) (tx : Transaction).

Lemma list_Add_new L l tx bump : list_rep L l → is_u64 (tx_nonce tx) → at_nonce (tx_nonce tx) l = None →
  ∃ L', list_Add tx bump L = Ok (true, None, L') ∧ strict L' = strict L ∧ list_rep L' (ins tx l) ∧ items_of L' ≡ₚ tx :: items_of L.
Proof.
  intros HL Hu Hn. destruct (refined_Add range L l tx bump HL Hu) as (a & L' & E & Ha & Hs & HL'). cbn in E, Ha, HL'. rewrite Hn in Ha, HL'.
  destruct (list_Add tx bump L) as [[[b o] L1]| |]; cbn in E; try done. injection E as <- <-. cbn in Ha. injection Ha as -> ->. exists L1. split_and!; try done.
  rewrite (items_rep _ _ HL'), (items_rep _ _ HL). pose proof (core_sorted _ _ _ (proj1 (lr_txs _ _ HL))) as Hsort. by rewrite ins_perm, without_none.
Qed.
Lemma list_Add_old L l tx bump old : list_rep L l → is_u64 (tx_nonce tx) → at_nonce (tx_nonce tx) l = Some old → ∃ L',
  strict L' = strict L ∧
  ((list_Add tx bump L = Ok (true, Some old, L') ∧ list_rep L' (ins tx l) ∧ ∃ rest, items_of L ≡ₚ old :: rest ∧ items_of L' ≡ₚ tx :: rest) ∨
   (list_Add tx bump L = Ok (false, None, L') ∧ list_rep L' l)).
Proof.
  intros HL Hu Hn. destruct (refined_Add range L l tx bump HL Hu) as (a & L' & E & Ha & Hs & HL'). cbn in E, Ha, HL'. rewrite Hn in Ha, HL'.
  destruct (list_Add tx bump L) as [[[b o] L1]| |]; cbn in E; try done. injection E as <- <-. exists L1. split; [done|].
  pose proof (core_sorted _ _ _ (proj1 (lr_txs _ _ HL))) as Hsort. destruct (replaces bump old tx); cbn in Ha; injection Ha as -> ->; [left|by right]. split_and!; try done.
  exists (without (tx_nonce tx) l). rewrite (items_rep _ _ HL'), (items_rep _ _ HL). split; [by apply without_some|by apply ins_perm].
Qed.
Lemma list_Forward_spec L l t : list_rep L l → ∃ L', list_Forward t L = Ok (map Some (below t l).1, L') ∧ strict L' = strict L ∧ list_rep L' (below t l).2 ∧
  items_of L ≡ₚ (below t l).1 ++ items_of L'.
Proof.
  intros HL. destruct (refined_Forward range L l t HL) as (a & L' & E & Ha & Hs & HL'). cbn in E, Ha, HL'.
  destruct (list_Forward t L) as [[r L1]| |]; cbn in E; try done. injection E as <- <-. cbn in Ha. injection Ha as ->. exists L1. split_and!; try done.
  rewrite (items_rep _ _ HL'), (items_rep _ _ HL). by rewrite <- below_app.
Qed.
Lemma ready_app s l : (ready_split s l).1 ++ (ready_split s l).2 = l.
Proof. unfold ready_split. destruct l as [|x l]; [done|]. case_if; [done|]. by rewrite <- run_from_app. Qed.
Lemma list_Ready_spec L l t : list_rep L l → ∃ L', list_Ready t L = Ok (map Some (ready_split t l).1, L') ∧ strict L' = strict L ∧ list_rep L' (ready_split t l).2 ∧
  items_of L ≡ₚ (ready_split t l).1 ++ items_of L'.
Proof.
  intros HL. destruct (refined_Ready range L l t HL) as (a & L' & E & Ha & Hs & HL'). cbn in E, Ha, HL'.
  destruct (list_Ready t L) as [[r L1]| |]; cbn in E; try done. injection E as <- <-. cbn in Ha. injection Ha as ->. exists L1. split_and!; try done.
  rewrite (items_rep _ _ HL'), (items_rep _ _ HL). by rewrite ready_app.
Qed.
Lemma list_Cap_spec L l k : list_rep L l → 0 ≤ k → ∃ L', list_Cap k L = Ok (map Some (reverse (drop (Z.to_nat k) l)), L') ∧ strict L' = strict L ∧
  list_rep L' (take (Z.to_nat k) l) ∧ items_of L ≡ₚ reverse (drop (Z.to_nat k) l) ++ items_of L'.
Proof.
  intros HL Hk. destruct (refined_Cap range L l k HL Hk) as (a & L' & E & Ha & Hs & HL'). cbn in E, Ha, HL'.
  destruct (list_Cap k L) as [[r L1]| |]; cbn in E; try done. injection E as <- <-. cbn in Ha. injection Ha as ->. exists L1. split_and!; try done.
  rewrite (items_rep _ _ HL'), (items_rep _ _ HL). rewrite reverse_Permutation, Permutation_app_comm. by rewrite take_drop.
Qed.
Lemma before_perm (f : Transaction → bool) l : l ≡ₚ hits f l ++ keeps f (before f l).2 ++ (before f l).1.
Proof.
  assert (Hk : keeps f l ≡ₚ keeps f (before f l).2 ++ (before f l).1).
  { rewrite (before_app f l) at 1. rewrite filter_app, (proj1 (proj2 (none_hit f (before f l).1 (before_keep f l)))). apply Permutation_app_comm. }
  rewrite <- Hk. apply hit_keep.
Qed.
Lemma list_Filter_spec L l c g : list_rep L l → ∃ r i L' l', list_Filter range c g L = Ok (r, i, L') ∧ strict L' = strict L ∧ list_rep L' l' ∧
  items_of L ≡ₚ (r ++ i) ++ items_of L' ∧ l' = (if strict L then (before (exceeds c g) l).1 else keeps (exceeds c g) l) ∧ (strict L = false → i = []).
Proof.
  intros HL. destruct (refined_Filter range Hrange L l c g HL) as (a & L' & E & Ha & Hs & HL'). cbn in E, Ha, HL'.
  destruct (list_Filter range c g L) as [[[r i] L1]| |]; cbn in E; try done. injection E as <- <-.
  destruct (strict L) eqn:Hst; cbn in Ha, HL'; destruct Ha as [Hr Hi]; eexists r, i, L1, _; (split_and!; [done|done|exact HL'| |done|]).
  - rewrite (items_rep _ _ HL'), (items_rep _ _ HL). rewrite Hr, Hi, <- app_assoc. apply before_perm.
  - done.
  - apply Permutation_nil_r in Hi as ->. rewrite (items_rep _ _ HL'), (items_rep _ _ HL). rewrite Hr, app_nil_r. apply hit_keep.
  - intros _. by apply Permutation_nil_r.
Qed.
Lemma split_at l n tx : nonce_sorted l → at_nonce n l = Some tx → l ≡ₚ tx :: hits (fun t => n <? tx_nonce t) l ++ (below n l).1.
Proof.
  unfold at_nonce. intros Hs. induction l as [|x l IH]; [done|]. apply nonce_sorted_cons in Hs as [Hx Hs]. cbn [list_find below].
  destruct (decide (tx_nonce x = n)) as [<-|Hne].
  - intros [= <-]. rewrite Z.ltb_irrefl, filter_cons_False by (rewrite Z.ltb_irrefl; done). cbn. rewrite app_nil_r.
    rewrite (proj1 (all_hit (fun t => tx_nonce x <? tx_nonce t) l (fun y Hy => proj2 (Z.ltb_lt _ _) (Hx y Hy)))). done.
  - intros H. destruct (list_find (fun t => tx_nonce t = n) l) as [[i t]|] eqn:El; [|done]. cbn in H. injection H as ->.
    specialize (IH Hs eq_refl). assert (Hlt : tx_nonce x < n).
    { apply list_find_Some in El as (Hi & <- & _). apply Hx. by eapply list_elem_of_lookup_2. }
    rewrite (proj2 (Z.ltb_lt _ _) Hlt), filter_cons_False by (rewrite Z.ltb_lt; lia). destruct (below n l) as [a b]. cbn in *. rewrite IH at 1. solve_Permutation.
Qed.
(** [Remove] of a transaction that is in the list, or whose nonce is not. *)
Lemma list_Remove_in L l tx : list_rep L l → at_nonce (tx_nonce tx) l = Some tx → ∃ i L', list_Remove range tx L = Ok (true, i, L') ∧ strict L' = strict L ∧
  list_rep L' (if strict L then (below (tx_nonce tx) l).1 else without (tx_nonce tx) l) ∧ items_of L ≡ₚ tx :: i ++ items_of L' ∧ (strict L = false → i = []).
Proof.
  intros HL Hn. pose proof (core_sorted _ _ _ (proj1 (lr_txs _ _ HL))) as Hsort.
  destruct (refined_Remove range Hrange L l tx HL) as (a & L' & E & Ha & Hs & HL'); [intros t Ht; congruence|]. cbn in E, Ha, HL'. rewrite Hn in Ha, HL'.
  destruct (list_Remove range tx L) as [[[b i] L1]| |]; cbn in E; try done. injection E as <- <-. exists i, L1.
  destruct (strict L) eqn:Hst; cbn in Ha, HL'; destruct Ha as [-> Hi]; (split_and!; [done|done|exact HL'| |]).
  - rewrite (items_rep _ _ HL'), (items_rep _ _ HL), Hi. by apply split_at.
  - done.
  - apply Permutation_nil_r in Hi as ->. rewrite (items_rep _ _ HL'), (items_rep _ _ HL). cbn. by apply without_some.
  - intros _. by apply Permutation_nil_r.
Qed.
Lemma list_Remove_out L l tx : list_rep L l → at_nonce (tx_nonce tx) l = None → ∃ L', list_Remove range tx L = Ok (false, [], L') ∧ strict L' = strict L ∧ list_rep L' l.
Proof.
  intros HL Hn. destruct (refined_Remove range Hrange L l tx HL) as (a & L' & E & Ha & Hs & HL'); [intros t Ht; congruence|]. cbn in E, Ha, HL'. rewrite Hn in Ha, HL'.
  destruct (list_Remove range tx L) as [[[b i] L1]| |]; cbn in E; try done. injection E as <- <-. destruct Ha as [-> Hi]. apply Permutation_nil_r in Hi as ->. by exists L1.
Qed.
Lemma list_Flatten_spec L l : list_rep L l → ∃ L', list_Flatten range L = (l, L') ∧ strict L' = strict L ∧ list_rep L' l.
Proof.
  intros HL. unfold list_Flatten, sm_Flatten. destruct (sm_flatten_rep range Hrange _ _ (lr_txs _ _ HL)) as (m & -> & Hm). eexists. split; [reflexivity|]. split; [done|]. by apply rep_same.
Qed.
End Lists.

(** ** The invariant *)

Section Inv.
Context {DB : Type} `{Db : !StateDB DB} {Wd : Type} (keccak : bytes → Z).
Context (Ecrecover : bytes → bytes → outcome signError bytes).
Context (config : poolConfig) (chainconfig : ChainConfig).
Context (order : nat → ∀ V, gmap Z V → list (Z * V)) (Now : nat → Z).
Context (GetBlock : Z → Z → option (Block Transaction Wd)) (StateAt : Z → option DB) (CurrentBlock : Header).
Context (Horder : ∀ n V (m : gmap Z V), order n V m ≡ₚ map_to_list m).
#[local] Abbreviation pool := (@pool DB).
#[local] Abbreviation hash := (tx_hash keccak).
#[local] Abbreviation size := (tx_size).
#[local] Abbreviation from := (sender keccak Ecrecover chainconfig).
#[local] Abbreviation lk_ok := (lk_ok hash size).
Implicit Types (p : pool) (tx : Transaction) (X D : list Transaction).

Definition cell tx : Z * Z := (from tx, tx_nonce tx).
(** The lists of one kind: sorted by nonce with the right totals, each with the
    transactions of its account. *)
Definition lists_ok (b : bool) (m : gmap Z txlist) : Prop :=
  ∀ a L, m !! a = Some L → (∃ l, list_rep L l) ∧ strict L = b ∧ Forall (fun tx => from tx = a) (items_of L).
Definition nonempty (m : gmap Z txlist) : Prop := ∀ a L, m !! a = Some L → items_of L ≠ [].
Definition side (b : bool) p : gmap Z txlist := if b then pending p else queue p.
Definition set_side (b : bool) (m : gmap Z txlist) p : pool := if b then set_pending m p else set_queue m p.
Definition held p X : list Transaction := contents (pending p) ++ contents (queue p) ++ X.
(** [X] are in the lookup but in no list; [D] are out of the price heaps. *)
Record inv p X D : Prop := {
  iv_pending : lists_ok true (pending p);
  iv_queue : lists_ok false (queue p);
  iv_all : lk_ok (all p) (held p X);
  iv_cells : NoDup (map cell (held p X));
  iv_u64 : Forall (fun tx => is_u64 (tx_nonce tx)) X;
  iv_heaps : pl_heaps (priced p);
  iv_tracks : tracks hash (all p) (priced p) D
}.
(** What only a new head or the owner changes. *)
Definition static p := (gasPrice p, currentState p, currentMaxGas p, locals p).

Lemma inv_perm p X X' D : X ≡ₚ X' → inv p X D → inv p X' D.
Proof. intros Hp [H1 H2 H3 H4 H5 H6 H7]. unfold held in *. split; unfold held; try done; by rewrite <- Hp. Qed.
#[local] Instance inv_proper p : Proper ((≡ₚ) ==> eq ==> iff) (inv p).
Proof. intros X X' HX D D' <-. split; by apply inv_perm. Qed.

(** ** Rules for the operations of the monad *)

Section Rules.
Context {E : Type}.
Implicit Types (QE : E → pool → Prop).
Lemma wp_asks {A} (f : pool → A) Q QE p : Q (f p) p → wp (asks f) Q QE p.
Proof. done. Qed.
Lemma wp_mods f Q QE p : Q tt (f p) → wp (mods f) Q QE p.
Proof. done. Qed.
Lemma wp_fails {A} e (Q : A → pool → Prop) QE p : QE e p → wp (fails e) Q QE p.
Proof. done. Qed.
Lemma wp_sure {A} (o : outcome Empty_set A) a Q QE p : o = Ok a → Q a p → wp (sure o) Q QE p.
Proof. by intros ->. Qed.
Lemma wp_tick Q QE p : Q (ticks p) (set_ticks (S (ticks p)) p) → wp tick Q QE p.
Proof. done. Qed.
Lemma wp_each {A} (f : A → stm pool E unit) (I : list A → pool → Prop) QE xs : ∀ p,
  (∀ x xs p, I (x :: xs) p → wp (f x) (fun _ => I xs) QE p) → I xs p → wp (each f xs) (fun _ => I []) QE p.
Proof.
  induction xs as [|x xs IH]; intros p Hf Hi; [done|]. cbn [each]. apply wp_bind. eapply wp_mono; [by apply Hf| |done]. intros [] p' Hp'. by apply IH.
Qed.
Lemma wp_ignoring {E' A} (m : stm pool E' A) Q QE p : wp m (fun _ => Q tt) (fun _ => Q tt) p → wp (ignoring m) Q QE p.
Proof. unfold wp, ignoring. by destruct (m p) as [[]]. Qed.
Lemma wp_present l Q QE p : Q l p → wp (present (map Some l)) Q QE p.
Proof.
  intros H. apply (wp_pure_ok _ l); [|done]. clear H. induction l as [|x l IH]; [done|]. cbn in *. by rewrite IH.
Qed.
Lemma wp_with_pending {A} a L (f : txlist → outcome Empty_set (A * txlist)) r L' Q QE p : pending p !! a = Some L → f L = Ok (r, L') →
  Q r (set_pending (<[a := L']> (pending p)) p) → wp (with_pending a f) Q QE p.
Proof. intros HL Hf HQ. unfold with_pending, wp, asks, sure, mods, pure_out, mbind, stm_bind, deref. rewrite HL. cbn. by rewrite Hf. Qed.
Lemma wp_with_queue {A} a L (f : txlist → outcome Empty_set (A * txlist)) r L' Q QE p : queue p !! a = Some L → f L = Ok (r, L') →
  Q r (set_queue (<[a := L']> (queue p)) p) → wp (with_queue a f) Q QE p.
Proof. intros HL Hf HQ. unfold with_queue, wp, asks, sure, mods, pure_out, mbind, stm_bind, deref. rewrite HL. cbn. by rewrite Hf. Qed.
End Rules.
Ltac step := first
  [ match goal with |- wp (_ ≫= _) _ _ _ => apply wp_bind end
  | match goal with |- wp (mret _) _ _ _ => apply wp_ret end
  | match goal with |- wp (asks _) _ _ _ => apply wp_asks end
  | match goal with |- wp (mods _) _ _ _ => apply wp_mods end
  | match goal with |- wp tick _ _ _ => apply wp_tick end
  | match goal with |- wp (fails _) _ _ _ => apply wp_fails end ].
Ltac steps := cbn beta iota; repeat (step; cbn beta iota).

(** ** The lookup and the prices *)

Lemma wp_priced_Removed {E} n c p (Q : unit → pool → Prop) (QE : E → pool → Prop) : lk_ok (all p) c → pl_ok hash (all p) (priced p) →
  (∀ l k, pl_ok hash (all p) l → Q tt (set_priced l (set_ticks k p))) → wp (priced_Removed order n) Q QE p.
Proof.
  intros Hc Hp HQ. unfold priced_Removed. steps. destruct (pl_Removed_ok hash size (order (ticks p) Transaction) (Horder _ _) (all p) c (priced p) n Hc Hp) as (l & El & Hl).
  eapply wp_sure; [exact El|]. steps. by apply HQ.
Qed.
(** Only the lists, the lookup and the prices matter. *)
Lemma inv_ext p p' X D D' : inv p X D → pending p' = pending p → queue p' = queue p → all p' = all p → pl_heaps (priced p') → tracks hash (all p) (priced p') D' → inv p' X D'.
Proof.
  intros [H1 H2 H3 H4 H5 H6 H7] Ep Eq Ea Hh Ht. unfold held in *. split; unfold held; rewrite ?Ep, ?Eq, ?Ea; done.
Qed.
Lemma inv_same p p' X D : inv p X D → pending p' = pending p → queue p' = queue p → all p' = all p → priced p' = priced p → inv p' X D.
Proof. intros Hi Ep Eq Ea Epr. apply (inv_ext p p' X D D); try done; rewrite Epr; apply Hi. Qed.
Lemma inv_priced p l k X : inv p X [] → pl_ok hash (all p) l → inv (set_priced l (set_ticks k p)) X [].
Proof. intros Hi [Hh Ht]. by apply (inv_ext p _ X [] []). Qed.

Lemma lk_Remove_tracks p h D : tracks hash (all p) (priced p) D → tracks hash (lk_Remove size h (all p)) (priced p) D.
Proof. apply tracks_shrink. apply lk_Remove_remotes. Qed.
Lemma inv_Remove p tx X D : inv p (tx :: X) D → inv (set_all (lk_Remove size (hash tx) (all p)) p) X D.
Proof.
  intros [H1 H2 H3 H4 H5 H6 H7]. unfold held in *. assert (Hp : contents (pending p) ++ contents (queue p) ++ tx :: X ≡ₚ tx :: contents (pending p) ++ contents (queue p) ++ X) by solve_Permutation.
  rewrite Hp in H3, H4. apply NoDup_cons in H4 as [_ H4]. apply Forall_cons in H5 as [_ H5]. split; unfold held; try done; [by apply lk_Remove_ok|exact (lk_Remove_tracks p (hash tx) D H7)].
Qed.
(** Nothing new in the lookup. *)
Definition lk_sub (t' t : lookup) : Prop := ∀ h tx, lk_Get h t' = Some tx → lk_Get h t = Some tx.
#[local] Instance lk_sub_refl : Reflexive lk_sub.
Proof. by intros t h tx. Qed.
#[local] Instance lk_sub_trans : Transitive lk_sub.
Proof. intros t1 t2 t3 H1 H2 h tx Hg. by apply H2, H1. Qed.
Lemma lk_Remove_get h h' t : lk_Get h (lk_Remove size h' t) = if decide (h = h') then None else lk_Get h t.
Proof.
  unfold lk_Remove. destruct (lk_Get h' t) eqn:E; [|by destruct (decide (h = h')) as [->|]]. unfold lk_Get. cbn.
  destruct (decide (h = h')) as [->|Hn]; [by rewrite !lookup_delete_eq|by rewrite !lookup_delete_ne].
Qed.
Lemma lk_Remove_sub h t : lk_sub (lk_Remove size h t) t.
Proof. intros h' tx. rewrite lk_Remove_get. by destruct (decide _). Qed.
Lemma wp_drop_known {E} txs p X D (Q : unit → pool → Prop) (QE : E → pool → Prop) : inv p (txs ++ X) D →
  (∀ t, inv (set_all t p) X D → lk_sub t (all p) → Q tt (set_all t p)) → wp (drop_known keccak txs) Q QE p.
Proof.
  intros Hi HQ. unfold drop_known. eapply wp_mono; [apply (wp_each _ (fun xs p' => ∃ t, p' = set_all t p ∧ inv (set_all t p) (xs ++ X) D ∧ lk_sub t (all p)))| |done].
  - intros x xs p' (t & -> & Hx & Hs). apply wp_mods. eexists. split; [reflexivity|]. split; [exact (inv_Remove (set_all t p) x (xs ++ X) D Hx)|].
    etrans; [apply lk_Remove_sub|done].
  - exists (all p). split; [by destruct p|]. split; [by destruct p|done].
  - intros [] p' (t & -> & Hx & Hs). by apply HQ.
Qed.

(** ** Lists *)

Lemma lists_insert b m a L : lists_ok b m → (∃ l, list_rep L l) → strict L = b → Forall (fun tx => from tx = a) (items_of L) → lists_ok b (<[a := L]> m).
Proof. intros Hm HL Hs Hf a' L' H. apply lookup_insert_Some in H as [[<- <-]|[_ H]]; [done|by apply Hm]. Qed.
Lemma lists_delete b m a : lists_ok b m → lists_ok b (delete a m).
Proof. intros Hm a' L' [_ H]%lookup_delete_Some. by apply Hm. Qed.
Lemma nonempty_insert m a L : nonempty (delete a m) → items_of L ≠ [] → nonempty (<[a := L]> m).
Proof. intros Hm HL a' L' H. apply lookup_insert_Some in H as [[<- <-]|[Hne H]]; [done|]. apply (Hm a'). by rewrite lookup_delete_ne. Qed.
Lemma nonempty_delete m a : nonempty m → nonempty (delete a m).
Proof. intros Hm a' L' [_ H]%lookup_delete_Some. by apply (Hm a'). Qed.

(** The pending lists are [side true], the queued ones [side false]. *)
Lemma inv_side p X D b : inv p X D → lists_ok b (side b p).
Proof. intros H. destruct b; apply H. Qed.
Lemma held_side p X b : held p X ≡ₚ contents (side b p) ++ contents (side (negb b) p) ++ X.
Proof. unfold held. destruct b; cbn; solve_Permutation. Qed.
Lemma side_set b m p : side b (set_side b m p) = m.
Proof. by destruct b. Qed.
Lemma side_other b m p : side (negb b) (set_side b m p) = side (negb b) p.
Proof. by destruct b. Qed.
(** Lists of one kind change, and with them what is in no list. *)
Lemma inv_set_side p X X' D b m : inv p X D → lists_ok b m → contents m ++ X' ≡ₚ contents (side b p) ++ X → Forall (fun tx => is_u64 (tx_nonce tx)) X' → inv (set_side b m p) X' D.
Proof.
  intros [H1 H2 H3 H4 H5 H6 H7] Hm Hp Hu. assert (Hh : held (set_side b m p) X' ≡ₚ held p X).
  { rewrite !(held_side _ _ b), side_set, side_other. etrans; [|etrans; [apply (Permutation_app_head (contents (side (negb b) p))), Hp|]]; solve_Permutation. }
  destruct b; (split; [try exact Hm|try exact Hm| | | | |]; rewrite ?Hh; try done).
Qed.
(** A list gave some transactions away, or took one. *)
Lemma side_take p X D b a L L' out : inv p X D → side b p !! a = Some L → items_of L ≡ₚ out ++ items_of L' → (∃ l, list_rep L' l) → strict L' = b →
  inv (set_side b (<[a := L']> (side b p)) p) (out ++ X) D.
Proof.
  intros Hi HL Ho Hr Hs. destruct (inv_side _ _ _ b Hi a L HL) as ((l & Hl) & _ & Hf). rewrite Ho, Forall_app in Hf. apply (inv_set_side p X); try done.
  - apply lists_insert; try done; [by apply (inv_side _ X D)|apply Hf].
  - rewrite (contents_update _ _ _ L' HL), (contents_delete _ _ _ HL), Ho. solve_Permutation.
  - apply Forall_app. split; [|apply Hi]. apply Forall_forall. intros x Hx. apply (core_u64 _ _ _ (proj1 (lr_txs _ _ Hl))). rewrite <- (items_rep L l Hl), Ho. apply elem_of_app. by left.
Qed.
Lemma side_put p X D b a L L' tx : inv p (tx :: X) D → side b p !! a = Some L → from tx = a → items_of L' ≡ₚ tx :: items_of L → (∃ l, list_rep L' l) → strict L' = b →
  inv (set_side b (<[a := L']> (side b p)) p) X D.
Proof.
  intros Hi HL Hx Ho Hr Hs. destruct (inv_side _ _ _ b Hi a L HL) as (_ & _ & Hf). pose proof (iv_u64 _ _ _ Hi) as [_ Hu]%Forall_cons. apply (inv_set_side p (tx :: X)); try done.
  - apply lists_insert; try done; [by apply (inv_side _ (tx :: X) D)|]. rewrite Ho. by constructor.
  - rewrite (contents_update _ _ _ L' HL), (contents_delete _ _ _ HL), Ho. solve_Permutation.
Qed.
(** A fresh list changes nothing, and an empty list can go. *)
Lemma side_new p X D b a : inv p X D → side b p !! a = None → inv (set_side b (<[a := newList b]> (side b p)) p) X D.
Proof.
  intros Hi HL. apply (inv_set_side p X); [done| |by rewrite contents_insert|apply Hi]. apply lists_insert; try done; [by apply (inv_side _ X D)|]. exists []. apply newList_rep.
Qed.
Lemma side_gone p X D b a L : inv p X D → side b p !! a = Some L → items_of L = [] → inv (set_side b (delete a (side b p)) p) X D.
Proof.
  intros Hi HL He. apply (inv_set_side p X); [done| |by rewrite (contents_delete _ _ _ HL), He|apply Hi]. apply lists_delete. by apply (inv_side _ X D).
Qed.
Lemma list_Empty_items L l : list_rep L l → list_Empty L = bool_decide (items_of L = []).
Proof.
  intros Hl. unfold list_Empty, list_Len. rewrite (sm_Len_rep _ _ (lr_txs _ _ Hl)). pose proof (Permutation_length (items_rep L l Hl)) as He. unfold zlen.
  destruct (items_of L); cbn in *; [|by rewrite <- He]. rewrite <- He. done.
Qed.

(** ** One cell, one transaction *)

Definition items_at (m : gmap Z txlist) (a : Z) : list Transaction := from_option items_of [] (m !! a).
Lemma at_nonce_elem n l t : at_nonce n l = Some t → t ∈ l ∧ tx_nonce t = n.
Proof.
  unfold at_nonce. destruct (list_find _ l) as [[i x]|] eqn:E; [|done]. intros [= <-]. apply list_find_Some in E as (Hi & Hn & _). split; [by eapply list_elem_of_lookup_2|done].
Qed.
Lemma at_nonce_in l t : nonce_sorted l → t ∈ l → at_nonce (tx_nonce t) l = Some t.
Proof. intros Hs Ht. rewrite at_nonce_map by done. by apply tx_map_lookup. Qed.
Lemma rep_sorted L l : list_rep L l → nonce_sorted l.
Proof. intros Hl. apply (core_sorted _ _ _ (proj1 (lr_txs _ _ Hl))). Qed.
Lemma held_distinct p X D tx rest : inv p X D → held p X ≡ₚ tx :: rest → cell tx ∉ map cell rest.
Proof. intros Hi Hp. pose proof (iv_cells _ _ _ Hi) as Hn. rewrite Hp in Hn. cbn in Hn. by apply NoDup_cons in Hn as [Hn _]. Qed.
Lemma cell_side p X D b L l n t : inv p X D → ∀ a, side b p !! a = Some L → list_rep L l → at_nonce n l = Some t → (t ∈ contents (side b p)) ∧ cell t = (a, n).
Proof.
  intros Hi a HL Hl [Ht Hn]%at_nonce_elem. destruct (inv_side _ _ _ b Hi a L HL) as (_ & _ & Hf). rewrite <- (items_rep _ _ Hl) in Ht.
  split; [apply contents_elem; eauto|]. rewrite Forall_forall in Hf. unfold cell. by rewrite (Hf t Ht), Hn.
Qed.
(** What is in no list has its cell for itself. *)
Lemma cell_free p X D b tx L l : inv p (tx :: X) D → side b p !! from tx = Some L → list_rep L l → at_nonce (tx_nonce tx) l = None.
Proof.
  intros Hi HL Hl. destruct (at_nonce _ l) as [t|] eqn:Hn; [|done]. exfalso. destruct (cell_side _ _ _ b L l _ t Hi _ HL Hl Hn) as [Ht Hc].
  apply (held_distinct p (tx :: X) D tx (contents (side b p) ++ contents (side (negb b) p) ++ X) Hi); [rewrite (held_side _ _ b); solve_Permutation|].
  apply list_elem_of_fmap. exists t. split; [done|]. apply elem_of_app. by left.
Qed.

(** ** Adding to a list *)

(** What [enqueueTx] of a known transaction leaves alone. *)
Definition rest p := (static p, pending p, all p, priced p, pendingNonces p, changesSinceReorg p).
Lemma side_ensure b p X D a : inv p X D → ∃ L, inv (set_side b (<[a := L]> (side b p)) p) X D ∧ items_of L = items_at (side b p) a ∧
  match side b p !! a with Some _ => p | None => set_side b (<[a := newList b]> (side b p)) p end = set_side b (<[a := L]> (side b p)) p.
Proof.
  intros Hi. unfold items_at. destruct (side b p !! a) as [L|] eqn:HL; cbn.
  - exists L. assert (E : p = set_side b (<[a := L]> (side b p)) p) by (rewrite insert_id by done; by destruct b, p). by rewrite <- E.
  - exists (newList b). split; [by apply side_new|done].
Qed.
#[local] Abbreviation enqueueTx := (enqueueTx keccak Ecrecover config chainconfig order Now).
Lemma enqueue_back tx local p X D : inv p (tx :: X) D →
  wp (enqueueTx tx local false) (fun _ p' => ∃ L', inv p' X D ∧ queue p' = <[from tx := L']> (queue p) ∧ items_of L' ≡ₚ tx :: items_at (queue p) (from tx) ∧ rest p' = rest p) (fun _ _ => False) p.
Proof.
  intros Hi. unfold TxPool.enqueueTx. steps. destruct (side_ensure false p (tx :: X) D (from tx) Hi) as (L & HiL & HL & E). cbn [side set_side] in *. rewrite E. clear E.
  pose proof (lookup_insert_eq (queue p) (from tx) L) as Hq. destruct (inv_side _ _ _ false HiL (from tx) L Hq) as ((l & Hl) & Hst & _).
  destruct (list_Add_new (order 0%nat Transaction) L l tx (PriceBump config) Hl) as (L' & EL & Hs & Hr & Hit).
  { by pose proof (iv_u64 _ _ _ Hi) as [Hu _]%Forall_cons. } { by apply (cell_free _ X D false tx L l HiL). }
  eapply wp_with_queue; [exact Hq|exact EL|]. cbn [negb]. steps.
  assert (Hp : inv (set_queue (<[from tx := L']> (queue p)) p) X D).
  { pose proof (side_put _ X D false (from tx) L L' tx HiL Hq eq_refl Hit ltac:(eauto) ltac:(congruence)) as H. cbn [side set_side queue set_queue] in H. rewrite insert_insert_eq in H. exact H. }
  cbn [queue set_queue]. rewrite insert_insert_eq. rewrite HL in Hit. destruct (beats _ !! _); steps; eexists; (split; [by eapply inv_same|done]).
Qed.
Lemma nonempty_put m a L tx l : nonempty m → items_of L ≡ₚ tx :: l → nonempty (<[a := L]> m).
Proof. intros Hm HL. apply nonempty_insert; [by apply nonempty_delete|]. intros He. rewrite He in HL. by apply Permutation_nil_cons in HL. Qed.
Lemma enqueue_all {E} a xs p X D (QE : E → pool → Prop) : inv p (xs ++ X) D → Forall (fun tx => from tx = a) xs →
  wp (each (fun tx => ignoring (enqueueTx tx false false)) xs)
    (fun _ p' => inv p' X D ∧ rest p' = rest p ∧ (nonempty (queue p) → nonempty (queue p')) ∧ ∀ b, b ≠ a → queue p' !! b = queue p !! b) QE p.
Proof.
  intros Hi Hf. eapply wp_mono; [apply (wp_each _ (fun xs p' => inv p' (xs ++ X) D ∧ Forall (fun tx => from tx = a) xs ∧ rest p' = rest p ∧
    (nonempty (queue p) → nonempty (queue p')) ∧ ∀ b, b ≠ a → queue p' !! b = queue p !! b))| |done].
  - intros x ys p' (Hx & Hf' & Hr & Hn & Hq). apply Forall_cons in Hf' as [Ha Hf']. apply wp_ignoring. eapply wp_mono; [by apply enqueue_back| |by intros ? ? []].
    intros _ p2 (L' & H1 & H2 & H3 & H4). split_and!; try done; [congruence| |].
    + rewrite H2. intros Hne. by eapply nonempty_put; [apply Hn|].
    + intros b Hb. rewrite H2, Ha, lookup_insert_ne by done. by apply Hq.
  - done.
  - intros _ p' (H1 & _ & H2 & H3 & H4). done.
Qed.

(** ** Promotion *)

#[local] Abbreviation promoteTx := (promoteTx keccak config order Now).
Lemma promote_back {E} tx p X D (QE : E → pool → Prop) : inv p (tx :: X) D →
  wp (promoteTx (from tx) (hash tx) tx) (fun r p' => r = true ∧ ∃ L', inv p' X D ∧ pending p' = <[from tx := L']> (pending p) ∧ items_of L' ≡ₚ tx :: items_at (pending p) (from tx) ∧
    (static p', queue p', all p', priced p') = (static p, queue p, all p, priced p)) QE p.
Proof.
  intros Hi. unfold TxPool.promoteTx. steps. destruct (side_ensure true p (tx :: X) D (from tx) Hi) as (L & HiL & HL & E0). cbn [side set_side] in *. rewrite E0. clear E0.
  pose proof (lookup_insert_eq (pending p) (from tx) L) as Hq. destruct (inv_side _ _ _ true HiL (from tx) L Hq) as ((l & Hl) & Hst & _).
  destruct (list_Add_new (order 0%nat Transaction) L l tx (PriceBump config) Hl) as (L' & EL & Hs & Hr & Hit).
  { by pose proof (iv_u64 _ _ _ Hi) as [Hu _]%Forall_cons. } { by apply (cell_free _ X D true tx L l HiL). }
  eapply wp_with_pending; [exact Hq|exact EL|]. cbn [negb]. unfold beat. steps. split; [done|].
  assert (Hp : inv (set_pending (<[from tx := L']> (pending p)) p) X D).
  { pose proof (side_put _ X D true (from tx) L L' tx HiL Hq eq_refl Hit ltac:(eauto) ltac:(congruence)) as H. cbn [side set_side pending set_pending] in H. rewrite insert_insert_eq in H. exact H. }
  cbn [pending set_pending]. rewrite insert_insert_eq. rewrite HL in Hit. eexists. split; [by eapply inv_same|done].
Qed.
Lemma promote_all_ok {E} a xs (QE : E → pool → Prop) X D : ∀ p, inv p (xs ++ X) D → Forall (fun tx => from tx = a) xs →
  wp (promote_all keccak config order Now a xs)
    (fun r p' => r = xs ∧ inv p' X D ∧ (static p', queue p', all p', priced p') = (static p, queue p, all p, priced p) ∧ (nonempty (pending p) → nonempty (pending p')) ∧
       ∀ b, b ≠ a → pending p' !! b = pending p !! b) QE p.
Proof.
  induction xs as [|x xs IH]; intros p Hi Hf; [done|]. apply Forall_cons in Hf as [Ha Hf]. cbn [promote_all]. steps. eapply wp_mono; [rewrite <- Ha; by apply promote_back| |done].
  intros r p' (-> & L' & H1 & H2 & H3 & H4). steps. eapply wp_mono; [by apply IH| |done]. intros r2 p2 (-> & G1 & G2 & G3 & G4). steps.
  split_and!; try done; [congruence| |].
  - intros Hne. apply G3. rewrite H2. by eapply nonempty_put.
  - intros b Hb. rewrite G4, H2, Ha by done. by apply lookup_insert_ne.
Qed.

(** A list gives transactions away. *)
Section Take.
Context {E : Type} (a : Z) (X D : list Transaction).
Lemma wp_take_queue {A} (f : txlist → outcome Empty_set (A * txlist)) r L L' l' out p Q (QE : E → pool → Prop) : inv p X D → queue p !! a = Some L → f L = Ok (r, L') →
  items_of L ≡ₚ out ++ items_of L' → list_rep L' l' → strict L' = strict L →
  (Forall (fun tx => from tx = a) out → inv (set_queue (<[a := L']> (queue p)) p) (out ++ X) D → Q r (set_queue (<[a := L']> (queue p)) p)) → wp (with_queue a f) Q QE p.
Proof.
  intros Hi HL Hf Ho Hr Hs HQ. eapply wp_with_queue; [done|done|]. destruct (inv_side _ _ _ false Hi a L HL) as (_ & Hst & Hfr). rewrite Ho, Forall_app in Hfr.
  apply HQ; [apply Hfr|]. exact (side_take p X D false a L L' out Hi HL Ho ltac:(eauto) ltac:(congruence)).
Qed.
Lemma wp_take_pending {A} (f : txlist → outcome Empty_set (A * txlist)) r L L' l' out p Q (QE : E → pool → Prop) : inv p X D → pending p !! a = Some L → f L = Ok (r, L') →
  items_of L ≡ₚ out ++ items_of L' → list_rep L' l' → strict L' = strict L →
  (Forall (fun tx => from tx = a) out → inv (set_pending (<[a := L']> (pending p)) p) (out ++ X) D → Q r (set_pending (<[a := L']> (pending p)) p)) → wp (with_pending a f) Q QE p.
Proof.
  intros Hi HL Hf Ho Hr Hs HQ. eapply wp_with_pending; [done|done|]. destruct (inv_side _ _ _ true Hi a L HL) as (_ & Hst & Hfr). rewrite Ho, Forall_app in Hfr.
  apply HQ; [apply Hfr|]. exact (side_take p X D true a L L' out Hi HL Ho ltac:(eauto) ltac:(congruence)).
Qed.
End Take.
(** What only the lists of the account [a], the lookup, prices, nonces and beats can change. *)
Definition calm p p' : Prop := static p' = static p ∧ lk_sub (all p') (all p).
#[local] Instance calm_refl : Reflexive calm.
Proof. done. Qed.
#[local] Instance calm_trans : Transitive calm.
Proof. intros p1 p2 p3 [H1 H2] [G1 G2]. split; [congruence|by etrans]. Qed.
Definition frame (a : Z) p p' : Prop := calm p p' ∧ ∀ b, b ≠ a → pending p' !! b = pending p !! b ∧ queue p' !! b = queue p !! b.
Lemma frame_refl a p : frame a p p.
Proof. done. Qed.
Lemma frame_trans a p p1 p2 : frame a p p1 → frame a p1 p2 → frame a p p2.
Proof. intros [H1 H2] [G1 G2]. split; [by etrans|]. intros b Hb. destruct (H2 b Hb) as [<- <-]. by apply G2. Qed.
Lemma frame_queue a p L : frame a p (set_queue (<[a := L]> (queue p)) p).
Proof. split; [done|]. intros b Hb. cbn [pending queue set_queue]. by rewrite lookup_insert_ne. Qed.
Lemma frame_pending a p L : frame a p (set_pending (<[a := L]> (pending p)) p).
Proof. split; [done|]. intros b Hb. cbn [pending queue set_pending]. by rewrite lookup_insert_ne. Qed.
Lemma frame_same a p p' : static p' = static p → pending p' = pending p → queue p' = queue p → lk_sub (all p') (all p) → frame a p p'.
Proof. intros Hs Hp Hq Ha. split; [done|]. intros b Hb. by rewrite Hp, Hq. Qed.

(** The end of an account's turn: an empty list goes. *)
Definition gone_if_empty (b : bool) (a : Z) X D p p' : Prop :=
  inv p' X D ∧ frame a p p' ∧ side (negb b) p' = side (negb b) p ∧ nonempty (side b p') ∧ side b p' ⊆ side b p.
Lemma queue_clean a X D p : inv p X D → nonempty (delete a (queue p)) →
  gone_if_empty false a X D p (match queue p !! a with
    | Some l => if list_Empty l then set_beats (delete a (beats p)) (set_queue (delete a (queue p)) p) else p
    | None => p end).
Proof.
  intros Hi Hn. unfold gone_if_empty. destruct (queue p !! a) as [L|] eqn:HL; [|split_and!; try done; cbn; by rewrite <- (delete_id (queue p) a HL)].
  destruct (inv_side _ _ _ false Hi a L HL) as ((l & Hl) & _). rewrite (list_Empty_items _ _ Hl). case_bool_decide as He.
  - split_and!; try done; [|by split; [|cbn; intros b Hb; rewrite lookup_delete_ne]|by apply delete_subseteq]. pose proof (side_gone p X D false a L Hi HL He) as H. by eapply inv_same.
  - split_and!; try done. cbn. rewrite <- (insert_id (queue p) a L HL). by apply nonempty_insert.
Qed.
Lemma pending_clean a X D p : inv p X D → nonempty (delete a (pending p)) →
  gone_if_empty true a X D p (match pending p !! a with
    | Some l => if list_Empty l then set_pending (delete a (pending p)) p else p
    | None => p end).
Proof.
  intros Hi Hn. unfold gone_if_empty. destruct (pending p !! a) as [L|] eqn:HL; [|split_and!; try done; cbn; by rewrite <- (delete_id (pending p) a HL)].
  destruct (inv_side _ _ _ true Hi a L HL) as ((l & Hl) & _). rewrite (list_Empty_items _ _ Hl). case_bool_decide as He.
  - split_and!; try done; [|by split; [|cbn; intros b Hb; rewrite lookup_delete_ne]|by apply delete_subseteq]. exact (side_gone p X D true a L Hi HL He).
  - split_and!; try done. cbn. rewrite <- (insert_id (pending p) a L HL). by apply nonempty_insert.
Qed.

Record good p : Prop := { g_inv : inv p [] []; g_pending : nonempty (pending p); g_queue : nonempty (queue p) }.
Record config_ok : Prop := { co_AccountSlots : 1 ≤ AccountSlots config; co_GlobalSlots : 1 ≤ GlobalSlots config; co_AccountQueue : 0 ≤ i64 (AccountQueue config);
  co_slots : 0 ≤ GlobalSlots config + GlobalQueue config < 2 ^ 63 }.
Context (Hcfg : config_ok).
Lemma wp_next_nonce {E} a p (Q : Z → pool → Prop) (QE : E → pool → Prop) : (∀ n, Q (nonce_at (pendingNonces p) a) (set_nonces n p)) → wp (next_nonce a) Q QE p.
Proof. intros H. unfold next_nonce, wp. rewrite nn_get_ok. apply H. Qed.

#[local] Abbreviation promote_account := (promote_account keccak config order Now).
(** Transactions that a list gives away and that leave the pool. *)
Definition stage (a : Z) p p' L' : Prop := inv p' [] [] ∧ frame a p p' ∧ pending p' = pending p ∧ queue p' !! a = Some L'.
Lemma wp_take_drop {E} {B} a f L L' l' out p (k : list Transaction → stm pool E B) Q (QE : E → pool → Prop) : inv p [] [] → queue p !! a = Some L → f L = Ok (map Some out, L') →
  items_of L ≡ₚ out ++ items_of L' → list_rep L' l' → strict L' = strict L → (∀ p', stage a p p' L' → wp (k out) Q QE p') →
  wp (with_queue a f) (fun r => wp (r ← present r; _ ← drop_known keccak r; k r) Q QE) QE p.
Proof.
  intros Hi HL Hf Ho Hr Hs Hk. eapply wp_take_queue; [exact Hi|exact HL|exact Hf|exact Ho|exact Hr|exact Hs|]. intros _ H1. step. apply wp_present. step.
  eapply wp_drop_known; [exact H1|]. intros t Ht Hsub. apply Hk. split_and!; [done| |done|by apply (lookup_insert_eq (queue p) a L')].
  eapply frame_trans; [apply (frame_queue a p L')|by apply frame_same].
Qed.
Lemma nonempty_others a m m' : nonempty m → (∀ b, b ≠ a → m' !! b = m !! b) → nonempty (delete a m').
Proof. intros Hm H b L [Hb HL]%lookup_delete_Some. apply (Hm b). by rewrite <- H. Qed.
Lemma promote_end {E} a p p4 n (r : list Transaction) (QE : E → pool → Prop) : inv p4 [] [] → frame a p p4 → nonempty (pending p4) → nonempty (queue p) →
  wp (priced_Removed order n) (fun _ => wp (_ ← mods (fun p => match queue p !! a with
      | Some l => if list_Empty l then set_beats (delete a (beats p)) (set_queue (delete a (queue p)) p) else p | None => p end); mret r)
    (fun _ p' => good p' ∧ frame a p p') QE) QE p4.
Proof.
  intros Hi4 F4 Hp Hq. eapply wp_priced_Removed; [apply Hi4|by split; apply Hi4|]. intros pl k Hpl. steps.
  set (p5 := set_priced _ _). assert (F5 : frame a p p5) by (eapply frame_trans; [exact F4|by apply frame_same]).
  destruct (queue_clean a [] [] p5) as (G1 & G2 & G3 & G4 & _); [by apply inv_priced|exact (nonempty_others a (queue p) _ Hq (fun b Hb => proj2 (proj2 F5 b Hb)))|].
  split; [split; [done| |done]|by eapply frame_trans]. cbn [side negb] in G3. by rewrite G3.
Qed.
Lemma promote_account_ok {E} a p (QE : E → pool → Prop) : good p → wp (promote_account a) (fun _ p' => good p' ∧ frame a p p') QE p.
Proof.
  intros [Hi Hnp Hnq]. unfold TxPool.promote_account. steps. destruct (queue p !! a) as [L|] eqn:HL; [|steps; split; [done|apply frame_refl]]. steps.
  destruct (inv_side _ _ _ false Hi a L HL) as ((l & Hl) & Hst & _).
  destruct (list_Forward_spec (order 0%nat Transaction) L l (GetNonce (currentState p) a) Hl) as (L1 & E1 & S1 & R1 & I1).
  eapply wp_take_drop; [done|exact HL|exact E1|exact I1|exact R1|exact S1|]. intros p1 (Hi1 & F1 & P1 & HL1). steps.
  set (n1 := ticks p1). set (p1' := set_ticks _ p1). assert (Hi1' : inv p1' [] []) by (by apply (inv_same p1)).
  destruct (list_Filter_spec (order n1 Transaction) (Horder n1 _) L1 _ (GetBalance (currentState p) a) (currentMaxGas p) R1) as (r & i & L2 & l2 & E2 & S2 & R2 & I2 & _ & Hnil).
  rewrite (Hnil ltac:(congruence)), app_nil_r in I2.
  eapply wp_take_queue; [exact Hi1'|exact HL1|exact E2|exact I2|exact R2|exact S2|]. intros _ H2. steps. eapply wp_drop_known; [exact H2|]. intros t2 Hi2 Hsub2. steps. apply wp_next_nonce. intros nn. steps.
  set (p2 := set_nonces _ _). assert (Hi2' : inv p2 [] []) by (by eapply inv_same). assert (F2 : frame a p p2).
  { eapply frame_trans; [exact F1|]. apply (frame_trans a _ (set_queue (<[a := L2]> (queue p1)) p1)); [apply frame_queue|by apply frame_same]. }
  assert (P2 : pending p2 = pending p) by done. assert (HL2 : queue p2 !! a = Some L2) by apply lookup_insert_eq. clearbody p2.
  destruct (list_Ready_spec (order 0%nat Transaction) L2 l2 (nonce_at (pendingNonces (set_all t2 (set_queue (<[a := L2]> (queue p1')) p1'))) a) R2) as (L3 & E3 & S3 & R3 & I3).
  eapply wp_take_queue; [exact Hi2'|exact HL2|exact E3|exact I3|exact R3|exact S3|]. intros Hfr H3. steps. apply wp_present. steps.
  eapply wp_mono; [by apply promote_all_ok| |done]. intros r3 p3 (-> & Hi3 & Er & Hne3 & Ho3). steps.
  pose proof (f_equal (fun x => x.1.1.2) Er : queue p3 = <[a := L3]> (queue p2)) as Eq3. pose proof (f_equal (fun x => x.1.1.1) Er : static p3 = static p2) as Es3. pose proof (f_equal (fun x => x.1.2) Er : all p3 = all p2) as Ea3. assert (HL3 : queue p3 !! a = Some L3) by (rewrite Eq3; apply lookup_insert_eq). assert (F3 : frame a p p3).
  { eapply frame_trans; [exact F2|]. eapply frame_trans; [apply (frame_queue a p2 L3)|]. split; [split; [done|by rewrite Ea3]|]. intros b Hb. by rewrite Eq3, Ho3. }
  assert (Hn3 : nonempty (pending p3)) by (apply Hne3; cbn [pending set_queue]; by rewrite P2).
  destruct (is_local a p3); [steps; by apply (promote_end a p p3)|].
  destruct (list_Cap_spec (order 0%nat Transaction) L3 _ (i64 (AccountQueue config)) R3 (co_AccountQueue Hcfg)) as (L4 & E4 & S4 & R4 & I4).
  steps. eapply wp_take_drop; [exact Hi3|exact HL3|exact E4|exact I4|exact R4|exact S4|]. intros p4 (Hi4 & F4 & P4 & _). steps. apply (promote_end a p p4); try done; [by eapply frame_trans|by rewrite P4].
Qed.
Lemma promoteExecutables_ok {E} accounts (QE : E → pool → Prop) : ∀ p, good p →
  wp (promoteExecutables keccak config order Now accounts) (fun _ p' => good p' ∧ calm p p') QE p.
Proof.
  induction accounts as [|a accounts IH]; intros p Hg; [done|]. cbn [promoteExecutables]. step. eapply wp_mono; [by apply promote_account_ok| |done]. intros r p' [Hg' [Hs _]].
  step. eapply wp_mono; [by apply IH| |done]. intros r2 p2 [Hg2 Hs2]. steps. split; [done|by etrans].
Qed.

(** ** Demotion *)

(** The list [L] of [a] starts with the account's nonce, and each transaction
    can be paid and fits into a block. *)
Definition payable p a tx : Prop := GetNonce (currentState p) a ≤ tx_nonce tx ∧ tx_cost tx ≤ GetBalance (currentState p) a ∧ tx_gas tx ≤ currentMaxGas p.
Definition executable p a L : Prop := (∃ tx, tx ∈ items_of L ∧ tx_nonce tx = GetNonce (currentState p) a) ∧ ∀ tx, tx ∈ items_of L → payable p a tx.
Lemma below_ge t l : nonce_sorted l → ∀ x, x ∈ (below t l).2 → t ≤ tx_nonce x.
Proof.
  induction l as [|y l IH]; intros Hs x; cbn; [by intros ?%elem_of_nil|]. apply nonce_sorted_cons in Hs as [Hy Hs]. destruct (_ <? _) eqn:E; [destruct (below t l); by apply IH|].
  apply Z.ltb_ge in E. cbn. intros [->|Hx]%elem_of_cons; [done|]. specialize (Hy x Hx). lia.
Qed.
Lemma filtered_payable p a l tx : nonce_sorted l → tx ∈ (before (exceeds (GetBalance (currentState p) a) (currentMaxGas p)) (below (GetNonce (currentState p) a) l).2).1 → payable p a tx.
Proof.
  intros Hs Hx. pose proof (before_keep _ _ _ Hx) as He%exceeds_false. split; [|done]. apply (below_ge _ l Hs). rewrite (before_app (exceeds (GetBalance (currentState p) a) (currentMaxGas p)) _). apply elem_of_app. by left.
Qed.
#[local] Abbreviation demote_account := (demote_account keccak Ecrecover config chainconfig order Now).
Lemma rest_frame a p p' : rest p' = rest p → (∀ b, b ≠ a → queue p' !! b = queue p !! b) → frame a p p' ∧ pending p' = pending p ∧ priced p' = priced p ∧ all p' = all p.
Proof.
  intros Hr Hq. pose proof (f_equal (fun x => x.1.1.1.1.1) Hr : static p' = static p) as H1. pose proof (f_equal (fun x => x.1.1.1.1.2) Hr : pending p' = pending p) as H2.
  pose proof (f_equal (fun x => x.1.1.2) Hr : priced p' = priced p) as H3. pose proof (f_equal (fun x => x.1.1.1.2) Hr : all p' = all p) as H4.
  split; [split; [split; [done|by rewrite H4]|]|done]. intros b Hb. by rewrite H2, Hq.
Qed.
(** A list without the account's nonce goes back to the queue. *)
Lemma demote_gap {E} a nonce p L l (QE : E → pool → Prop) : inv p [] [] → nonempty (queue p) → pending p !! a = Some L → list_rep L l →
  wp (if (0 <? list_Len L) && bool_decide (sm_Get nonce (txs L) = None) then
        gapped ← with_pending a (list_Cap 0); gapped ← present gapped; each (fun tx => ignoring (enqueueTx tx false false)) gapped
      else mret tt)
    (fun _ p' => inv p' [] [] ∧ frame a p p' ∧ nonempty (queue p') ∧
       ∃ L', pending p' !! a = Some L' ∧ (items_of L' = [] ∨ L' = L ∧ ∃ tx, tx ∈ items_of L ∧ tx_nonce tx = nonce)) QE p.
Proof.
  intros Hi Hn HL Hl. unfold list_Len. rewrite (sm_Len_rep _ _ (lr_txs _ _ Hl)), (sm_Get_rep _ _ _ (lr_txs _ _ Hl)). destruct (0 <? zlen l) eqn:El; cbn [andb].
  2:{ steps. split_and!; try done. exists L. split; [done|]. left. apply Z.ltb_ge in El. apply Permutation_nil_r. rewrite (items_rep _ _ Hl). destruct l; [done|]. unfold zlen in El. cbn in El. lia. }
  case_bool_decide as Hg.
  - destruct (list_Cap_spec (order 0%nat Transaction) L l 0 Hl ltac:(lia)) as (L' & EL & Hs & Hr & Hit). step.
    eapply wp_take_pending; [exact Hi|exact HL|exact EL|exact Hit|exact Hr|exact Hs|]. intros Hfr H1. step. apply wp_present.
    eapply wp_mono; [by apply (enqueue_all a)| |done]. intros _ p' (G1 & G2 & G3 & G4). destruct (rest_frame a _ _ G2 G4) as (F & P & _). split_and!; [done| |by apply G3|].
    + eapply frame_trans; [apply frame_pending|exact F].
    + exists L'. rewrite P. split; [apply lookup_insert_eq|]. left. apply Permutation_nil_r. by rewrite (items_rep _ _ Hr).
  - steps. split_and!; try done. exists L. split; [done|]. right. split; [done|]. destruct (at_nonce nonce l) as [tx|] eqn:Et; [|done]. exists tx. rewrite (items_rep _ _ Hl). by apply at_nonce_elem.
Qed.
Lemma demote_account_ok {E} a p (QE : E → pool → Prop) : good p → is_Some (pending p !! a) →
  wp (demote_account a) (fun _ p' => good p' ∧ frame a p p' ∧ ∀ L, pending p' !! a = Some L → executable p a L) QE p.
Proof.
  intros [Hi Hnp Hnq] [L HL]. unfold TxPool.demote_account. steps. unfold id. destruct (inv_side _ _ _ true Hi a L HL) as ((l & Hl) & Hst & _).
  destruct (list_Forward_spec (order 0%nat Transaction) L l (GetNonce (currentState p) a) Hl) as (L1 & E1 & S1 & R1 & I1).
  eapply wp_take_pending; [exact Hi|exact HL|exact E1|exact I1|exact R1|exact S1|]. intros _ H1. steps. apply wp_present. steps. eapply wp_drop_known; [exact H1|]. intros t1 Hi1 Hsub1. steps.
  set (p1 := set_ticks _ _). assert (Hi1' : inv p1 [] []) by (by eapply inv_same). assert (F1 : frame a p p1) by (eapply frame_trans; [apply (frame_pending a p L1)|by apply frame_same]).
  assert (HL1 : pending p1 !! a = Some L1) by apply lookup_insert_eq. assert (Hq1 : queue p1 = queue p) by done. clearbody p1.
  match goal with |- context [order ?n Transaction] => set (n1 := n) end.
  destruct (list_Filter_spec (order n1 Transaction) (Horder n1 _) L1 _ (GetBalance (currentState p) a) (currentMaxGas p) R1) as (r & i & L2 & l2 & E2 & S2 & R2 & I2 & El2 & _).
  rewrite S1, Hst in El2.
  eapply wp_take_pending; [exact Hi1'|exact HL1|exact E2|exact I2|exact R2|exact S2|]. intros Hfr H2. apply Forall_app in Hfr as [_ Hfr]. steps.
  eapply wp_drop_known; [rewrite <- app_assoc in H2; exact H2|]. intros t2 Hi2 Hsub2. steps. eapply wp_mono; [by apply (enqueue_all a)| |done].
  intros _ p3 (Hi3 & Hr3 & Hne3 & Ho3). steps. destruct (rest_frame a _ _ Hr3 Ho3) as (F3 & P3 & _).
  assert (F3' : frame a p p3). { eapply frame_trans; [exact F1|]. eapply frame_trans; [apply (frame_pending a p1 L2)|]. eapply frame_trans; [|exact F3]. by apply frame_same. }
  assert (HL3 : pending p3 !! a = Some L2) by (rewrite P3; apply lookup_insert_eq). rewrite HL3. cbn [deref]. apply (wp_pure_ok _ L2); [done|]. steps.
  eapply wp_mono; [apply (demote_gap a (GetNonce (currentState p) a) p3 L2 l2); try done|..]; [| |done].
  { apply Hne3. cbn [queue set_all set_pending]. by rewrite Hq1. }
  intros _ p4 (Hi4 & F4 & Hne4 & L' & HL' & Hcase). steps. assert (F4' : frame a p p4) by (by eapply frame_trans).
  destruct (pending_clean a [] [] p4) as (G1 & G2 & G3 & G4 & G5); [done|exact (nonempty_others a (pending p) _ Hnp (fun b Hb => proj1 (proj2 F4' b Hb)))|].
  cbn [side negb] in G3, G4, G5. split_and!; [split; [done|done|by rewrite G3]|by eapply frame_trans|].
  intros L0 HL0. pose proof (lookup_weaken _ _ _ _ HL0 G5) as E0. rewrite HL' in E0. injection E0 as <-. destruct Hcase as [He|[-> Htx]]; [by destruct (G4 a L')|].
  split; [done|]. intros tx Hx. rewrite (items_rep _ _ R2), El2 in Hx. eapply filtered_payable; [by apply (rep_sorted L)|exact Hx].
Qed.

(** *** Every account *)

Definition all_executable p : Prop := ∀ a L, pending p !! a = Some L → executable p a L.
Lemma executable_static p p' a L : static p' = static p → executable p a L → executable p' a L.
Proof. intros Hs. pose proof (f_equal (fun x => x.1.1.2) Hs : currentState p' = _) as H1. pose proof (f_equal (fun x => x.1.2) Hs : currentMaxGas p' = _) as H2. unfold executable, payable. by rewrite H1, H2. Qed.
Lemma executable_perm p a L L' : items_of L' ≡ₚ items_of L → executable p a L → executable p a L'.
Proof. intros Hp [(tx & Hx & Hn) Ha]. split; [exists tx; by rewrite Hp|]. intros y Hy. apply Ha. by rewrite <- Hp. Qed.
Lemma order_elem n V (m : gmap Z V) a : a ∈ map fst (order n V m) ↔ is_Some (m !! a).
Proof.
  rewrite Horder. rewrite list_elem_of_fmap. split; [intros ([k v] & -> & H%elem_of_map_to_list); by exists v|]. intros [v Hv]. exists (a, v). by rewrite elem_of_map_to_list.
Qed.
Lemma order_nodup n V (m : gmap Z V) : NoDup (map fst (order n V m)).
Proof. rewrite Horder. apply NoDup_fst_map_to_list. Qed.

#[local] Abbreviation demoteUnexecutables := (demoteUnexecutables keccak Ecrecover config chainconfig order Now).
Lemma demoteUnexecutables_ok {E} p (QE : E → pool → Prop) : good p →
  wp demoteUnexecutables (fun _ p' => good p' ∧ calm p p' ∧ all_executable p') QE p.
Proof.
  intros Hg. unfold TxPool.demoteUnexecutables. steps. set (p0 := set_ticks _ p). set (kvs := order _ txlist _).
  eapply wp_mono; [apply (wp_each _ (fun kvs p' => good p' ∧ calm p p' ∧ NoDup (map fst kvs) ∧ (∀ a, a ∈ map fst kvs → is_Some (pending p' !! a)) ∧
    ∀ a L, pending p' !! a = Some L → a ∈ map fst kvs ∨ executable p a L))| |done].
  - intros [a L0] kvs' p' (Hg' & Hs & [Ha Hnd]%NoDup_cons & Hin & Hex). cbn [fst map] in *. eapply wp_mono; [apply (demote_account_ok a p' QE Hg'), Hin; by left| |done].
    intros _ p2 (Hg2 & [Hs2 F2] & Hex2). split_and!; [done|by etrans|done| |].
    + intros b Hb. assert (b ≠ a) as Hne by (by intros ->). rewrite (proj1 (F2 b Hne)). apply Hin. by right.
    + intros b L HL. destruct (decide (b = a)) as [->|Hne]; [right; apply (executable_static p'); [symmetry; apply Hs|by apply Hex2]|].
      rewrite (proj1 (F2 b Hne)) in HL. destruct (Hex b L HL) as [[->|Hb]%elem_of_cons|Hb]; [done|by left|by right].
  - subst kvs. split_and!; [|done|apply order_nodup|intros a Ha; by apply order_elem in Ha|intros a L HL; left; apply order_elem; by exists L]. destruct Hg as [H1 H2 H3]. split; [by eapply inv_same|done|done].
  - intros _ p' (Hg' & Hs & _ & _ & Hex). split_and!; [done|done|]. intros a L HL. destruct (Hex a L HL) as [[]%elem_of_nil|H]. eapply executable_static; [apply Hs|done].
Qed.

(** ** Reading a list may fill its cache *)

Definition same_items (m m' : gmap Z txlist) : Prop := ∀ a, match m !! a, m' !! a with
  | Some L, Some L' => items_of L' ≡ₚ items_of L
  | None, None => True
  | _, _ => False
  end.
#[local] Instance same_items_refl : Reflexive same_items.
Proof. intros m a. by destruct (m !! a). Qed.
#[local] Instance same_items_trans : Transitive same_items.
Proof. intros m1 m2 m3 H1 H2 a. specialize (H1 a). specialize (H2 a). destruct (m1 !! a), (m2 !! a), (m3 !! a); try done. by rewrite H2. Qed.
Lemma same_items_insert m a L L' : m !! a = Some L → items_of L' ≡ₚ items_of L → same_items m (<[a := L']> m).
Proof. intros HL Hp b. destruct (decide (b = a)) as [->|Hb]; [by rewrite HL, lookup_insert_eq|]. rewrite lookup_insert_ne by done. by destruct (m !! b). Qed.
Lemma same_items_some m m' a L' : same_items m m' → m' !! a = Some L' → ∃ L, m !! a = Some L ∧ items_of L' ≡ₚ items_of L.
Proof. intros H HL. specialize (H a). rewrite HL in H. destruct (m !! a) as [L|]; [by exists L|done]. Qed.
Lemma nonempty_same m m' : same_items m m' → nonempty m → nonempty m'.
Proof. intros Hs Hm a L' HL He. destruct (same_items_some _ _ _ _ Hs HL) as (L & H & Hp). apply (Hm a L H). apply Permutation_nil_r. by rewrite <- Hp, He. Qed.
Lemma list_LastElement_spec n L l : list_rep L l → l ≠ [] → ∃ tx L', list_LastElement (order n Transaction) L = Ok (tx, L') ∧ strict L' = strict L ∧ list_rep L' l ∧ list.last l = Some tx.
Proof.
  intros HL Hne. unfold list_LastElement, sm_LastElement. destruct (sm_flatten_rep (order n Transaction) (Horder n _) _ _ (lr_txs _ _ HL)) as (m & -> & Hm).
  destruct (list.last l) as [tx|] eqn:El; [|by apply last_None in El]. eexists _, _. split; [reflexivity|]. split_and!; try done. by apply rep_same.
Qed.
Lemma last_nonces_ok {E} (QE : E → pool → Prop) addrs : ∀ nonces p, good p → (∀ a, a ∈ addrs → is_Some (pending p !! a)) →
  wp (last_nonces order addrs nonces) (fun _ p' => good p' ∧ calm p p' ∧ queue p' = queue p ∧ same_items (pending p) (pending p')) QE p.
Proof.
  induction addrs as [|a addrs IH]; intros nonces p Hg Ha; [done|]. cbn [last_nonces]. steps. destruct (Ha a ltac:(by left)) as [L HL]. destruct Hg as [Hi Hp Hq].
  destruct (inv_side _ _ _ true Hi a L HL) as ((l & Hl) & Hst & _). destruct (list_LastElement_spec (ticks p) L l Hl) as (tx & L' & EL & Hs & Hr & _).
  { intros ->. apply (Hp a L HL), Permutation_nil_r. by rewrite (items_rep _ _ Hl). }
  assert (Hit : items_of L' ≡ₚ items_of L) by (by rewrite (items_rep _ _ Hl), (items_rep _ _ Hr)). pose proof (same_items_insert (pending p) a L L' HL Hit) as Hsame.
  eapply (wp_take_pending a [] [] _ tx L L' l []); [by apply (inv_same p)|exact HL|exact EL|by rewrite Hit|exact Hr|exact Hs|]. intros _ H1.
  eapply wp_mono; [apply IH| |done].
  - split; [exact H1|by apply (nonempty_same (pending p))|done].
  - intros b Hb. cbn [pending set_pending set_ticks]. destruct (decide (b = a)) as [->|Hne]; [rewrite lookup_insert_eq; eauto|]. rewrite lookup_insert_ne by done. apply Ha. by right.
  - intros r p' (G1 & G2 & G3 & G4). split_and!; try done. by etrans.
Qed.

(** ** Limits of the pending lists *)

Definition total (m : gmap Z txlist) : Z := zlen (contents m).
Lemma list_Len_items L l : list_rep L l → list_Len L = zlen (items_of L).
Proof. intros Hl. unfold list_Len, zlen. rewrite (sm_Len_rep _ _ (lr_txs _ _ Hl)). unfold zlen. f_equal. symmetry. apply Permutation_length, (items_rep L l Hl). Qed.
Lemma good_rep p b a L : inv p [] [] → side b p !! a = Some L → ∃ l, list_rep L l ∧ strict L = b ∧ list_Len L = zlen (items_of L).
Proof. intros Hi HL. destruct (inv_side _ _ _ b Hi a L HL) as ((l & Hl) & Hst & _). exists l. split_and!; [done|done|]. by apply (list_Len_items L l). Qed.

(** [L'] is a beginning of [L]. *)
Definition trims (L L' : txlist) : Prop := items_of L' ≠ [] ∧
  ∃ out, items_of L ≡ₚ items_of L' ++ out ∧ ∀ x y, x ∈ items_of L' → y ∈ out → tx_nonce x < tx_nonce y.
Lemma trims_refl L : items_of L ≠ [] → trims L L.
Proof. intros H. split; [done|]. exists []. split; [by rewrite app_nil_r|]. by intros x y _ ?%elem_of_nil. Qed.
#[local] Instance trims_trans : Transitive trims.
Proof.
  intros L1 L2 L3 [_ (o1 & P1 & H1)] [N2 (o2 & P2 & H2)]. split; [done|]. exists (o2 ++ o1). split; [by rewrite P1, P2, app_assoc|].
  intros x y Hx [Hy|Hy]%elem_of_app; [by apply H2|]. apply H1; [|done]. rewrite P2. apply elem_of_app. by left.
Qed.
Lemma executable_trims p a L L' : trims L L' → executable p a L → executable p a L'.
Proof.
  intros [Hne (out & Hp & Ho)] [(tx & Hx & Hn) Ha]. assert (Ha' : ∀ y, y ∈ items_of L' → payable p a y) by (intros y Hy; apply Ha; rewrite Hp; apply elem_of_app; by left).
  split; [|done]. rewrite Hp in Hx. apply elem_of_app in Hx as [Hx|Hx]; [by exists tx|]. exfalso. destruct (items_of L') as [|y l] eqn:E; [done|].
  assert (y ∈ y :: l) as Hy by (by left). pose proof (Ho y tx Hy Hx) as Hlt. destruct (Ha' y Hy) as [Hge _]. lia.
Qed.
Definition trimmed p p' : Prop := calm p p' ∧ queue p' = queue p ∧ ∀ a, match pending p !! a, pending p' !! a with
  | Some L, Some L' => trims L L'
  | None, None => True
  | _, _ => False
  end.
Lemma trimmed_refl p : nonempty (pending p) → trimmed p p.
Proof. intros Hn. split_and!; [done|done|]. intros a. destruct (pending p !! a) eqn:E; [|done]. by eapply trims_refl, Hn. Qed.
#[local] Instance trimmed_trans : Transitive trimmed.
Proof.
  intros p1 p2 p3 (A1 & A2 & A3) (B1 & B2 & B3). split_and!; [by etrans|congruence|]. intros a. specialize (A3 a). specialize (B3 a). destruct (pending p1 !! a), (pending p2 !! a), (pending p3 !! a); try done. by etrans.
Qed.
Lemma total_update m a L L' : m !! a = Some L → total (<[a := L']> m) = total m - zlen (items_of L) + zlen (items_of L').
Proof.
  intros HL. unfold total, zlen. rewrite (Permutation_length (contents_update m a L L' HL)), (Permutation_length (contents_delete m a L HL)), !length_app. lia.
Qed.

Lemma cap_each {E} a xs p X D (QE : E → pool → Prop) Q : inv p (xs ++ X) D →
  (∀ t n, inv (set_nonces n (set_all t p)) X D → lk_sub t (all p) → Q tt (set_nonces n (set_all t p))) →
  wp (each (fun tx => _ ← all_Remove (hash tx); lower_nonce a (tx_nonce tx)) xs) Q QE p.
Proof.
  intros Hi HQ. eapply wp_mono; [apply (wp_each _ (fun xs p' => ∃ t n, p' = set_nonces n (set_all t p) ∧ inv (set_nonces n (set_all t p)) (xs ++ X) D ∧ lk_sub t (all p)))| |done].
  - intros x ys p' (t & n & -> & Hx & Hs). unfold all_Remove, lower_nonce. steps. eexists _, _. split; [reflexivity|]. split; [|etrans; [apply lk_Remove_sub|done]].
    eapply inv_same; [exact (inv_Remove (set_nonces n (set_all t p)) x (ys ++ X) D Hx)|done..].
  - exists (all p), (pendingNonces p). split; [by destruct p|]. split; [by destruct p|done].
  - intros [] p' (t & n & -> & Hx & Hs). by apply HQ.
Qed.
Lemma cap_last_ok {E} a p L (QE : E → pool → Prop) : good p → pending p !! a = Some L → 2 ≤ zlen (items_of L) →
  wp (cap_last keccak order a)
    (fun _ p' => good p' ∧ trimmed p p' ∧ ∃ L', pending p' = <[a := L']> (pending p) ∧ zlen (items_of L') = zlen (items_of L) - 1) QE p.
Proof.
  intros [Hi Hp Hq] HL Hlen. unfold cap_last. steps. rewrite HL. apply (wp_pure_ok _ L); [done|]. steps. destruct (good_rep p true a L Hi HL) as (l & Hl & Hst & ELen). rewrite ELen.
  pose proof (Permutation_length (items_rep L l Hl)) as Hpl. unfold zlen in *.
  destruct (list_Cap_spec (order 0%nat Transaction) L l (Z.of_nat (length (items_of L)) - 1) Hl ltac:(lia)) as (L' & E1 & S1 & R1 & I1).
  replace (Z.to_nat _) with (length l - 1)%nat in * by lia. pose proof (Permutation_length (items_rep L' _ R1)) as Hpl'. rewrite length_take in Hpl'.
  eapply wp_take_pending; [exact Hi|exact HL|exact E1|exact I1|exact R1|exact S1|]. intros _ H1. steps. apply wp_present. steps. eapply cap_each; [exact H1|]. intros t n H2 Hs2.
  eapply wp_priced_Removed; [apply H2|split; apply H2|]. intros pl k Hpl2. assert (Hne : items_of L' ≠ []) by (intros E0; rewrite E0 in Hpl'; cbn in Hpl'; lia).
  split; [split; [by apply inv_priced|apply nonempty_insert; [by apply nonempty_delete|done]|done]|]. split; [|exists L'; split; [done|lia]].
  split_and!; [done|done|]. intros b. cbn [pending set_priced set_ticks set_nonces set_all set_pending]. destruct (decide (b = a)) as [->|Hb].
  - rewrite HL, lookup_insert_eq. split; [done|]. exists (drop (length l - 1) l). rewrite (items_rep _ _ R1), (items_rep _ _ Hl), take_drop. split; [done|].
    intros x y Hx Hy. rewrite (items_rep _ _ R1) in Hx. pose proof (rep_sorted _ _ Hl) as Hsort. rewrite <- (take_drop (length l - 1) l) in Hsort. apply nonce_sorted_app in Hsort as (_ & _ & H). by apply H.
  - rewrite lookup_insert_ne by done. destruct (pending p !! b) as [Lb|] eqn:Eb; [|done]. by eapply trims_refl, Hp.
Qed.

Definition len_at p a : Z := zlen (items_at (pending p) a).
Lemma len_at_some p a n : len_at p a = n → 1 ≤ n → ∃ L, pending p !! a = Some L ∧ zlen (items_of L) = n.
Proof. unfold len_at, items_at. destruct (pending p !! a) as [L|]; cbn; intros H1 H2; [by exists L|]. unfold zlen in H1. cbn in H1. lia. Qed.
Lemma len_at_same p p' a : pending p' !! a = pending p !! a → len_at p' a = len_at p a.
Proof. unfold len_at, items_at. by intros ->. Qed.
#[local] Abbreviation cap_last := (cap_last keccak order).
(** One turn over the offenders. *)
Lemma round_ok {E} O m p (QE : E → pool → Prop) : good p → NoDup O → (∀ a, a ∈ O → len_at p a = m) → 2 ≤ m →
  wp (each cap_last O) (fun _ p' => good p' ∧ trimmed p p' ∧ (∀ a, a ∈ O → len_at p' a = m - 1) ∧ (∀ a, a ∉ O → pending p' !! a = pending p !! a) ∧
    total (pending p') = total (pending p) - zlen O) QE p.
Proof.
  intros Hg Hnd Hlen Hm. eapply wp_mono; [apply (wp_each _ (fun xs p' => ∃ ys, O = ys ++ xs ∧ good p' ∧ trimmed p p' ∧ (∀ a, a ∈ ys → len_at p' a = m - 1) ∧
    (∀ a, a ∉ ys → pending p' !! a = pending p !! a) ∧ total (pending p') = total (pending p) - zlen ys))| |done].
  - intros a xs p' (ys & EO & Hg' & Ht & Hys & Hout & Htot). rewrite EO in Hnd. apply NoDup_app in Hnd as (_ & Hdis & _). assert (Ha : a ∉ ys) by (intros Hin; apply (Hdis a Hin); by left).
    destruct (len_at_some p' a m) as (L & HL & HlenL); [rewrite (len_at_same p) by (by apply Hout); apply Hlen; rewrite EO; apply elem_of_app; right; by left|lia|].
    eapply wp_mono; [apply (cap_last_ok a p' L); [done|done|lia]| |done]. intros _ p2 (Hg2 & Ht2 & L' & E2 & Hl2). exists (ys ++ [a]). rewrite <- app_assoc. split_and!; [done|done|by etrans| | |].
    + intros b Hb. rewrite elem_of_app, list_elem_of_singleton in Hb. destruct Hb as [Hb| ->].
      * rewrite (len_at_same p'); [by apply Hys|]. rewrite E2. apply lookup_insert_ne. by intros ->.
      * unfold len_at, items_at. rewrite E2, lookup_insert_eq. cbn. lia.
    + intros b Hb. rewrite not_elem_of_app, list_elem_of_singleton in Hb. rewrite E2, lookup_insert_ne by naive_solver. apply Hout. naive_solver.
    + rewrite E2, (total_update _ _ L) by done. unfold zlen in *. rewrite length_app. cbn [length]. lia.
  - exists []. split_and!; try done; [by apply trimmed_refl, Hg|by intros a ?%elem_of_nil|unfold zlen; cbn [length]; lia].
  - intros _ p' (ys & EO & H). rewrite app_nil_r in EO. by subst ys.
Qed.
Lemma reduce_ok {E} O probe threshold (QE : E → pool → Prop) fuel : NoDup O → probe ∈ O → 1 ≤ threshold → ∀ m p c, good p → (∀ a, a ∈ O → len_at p a = m) → threshold ≤ m →
  m - threshold < Z.of_nat fuel → c = total (pending p) → c < 2 ^ 64 →
  wp (reduce keccak config order fuel O probe threshold c)
    (fun c' p' => good p' ∧ trimmed p p' ∧ (∀ a, a ∉ O → pending p' !! a = pending p !! a) ∧ c' = total (pending p') ∧ c' ≤ c ∧
       ∃ m', (∀ a, a ∈ O → len_at p' a = m') ∧ threshold ≤ m' ∧ (c' ≤ GlobalSlots config ∨ m' = threshold)) QE p.
Proof.
  intros Hnd Hprobe Hth. induction fuel as [|fuel IH]; intros m p c Hg Hlen Hm Hf Hc Hc64; [lia|]. cbn [reduce]. unfold pending_Len. steps.
  destruct (len_at_some p probe m) as (L & HL & HlenL); [by apply Hlen|lia|]. rewrite HL. apply (wp_pure_ok _ L); [done|]. steps.
  destruct (good_rep p true probe L (g_inv _ Hg) HL) as (l & _ & _ & ->). rewrite HlenL. destruct (GlobalSlots config <? c) eqn:E1; cbn [andb negb].
  2:{ steps. apply Z.ltb_ge in E1. split_and!; try done; [by apply trimmed_refl, Hg|]. exists m. split_and!; try done. by left. }
  destruct (threshold <? m) eqn:E2; cbn [negb].
  2:{ steps. apply Z.ltb_ge in E2. split_and!; try done; [by apply trimmed_refl, Hg|]. exists m. split_and!; try done. right. lia. }
  apply Z.ltb_lt in E1, E2. steps. eapply wp_mono; [apply (round_ok O m p); try done; lia| |done]. intros _ p2 (Hg2 & Ht2 & Hl2 & Ho2 & Htot).
  assert (Ec : u64 (c - zlen O) = total (pending p2)).
  { rewrite Htot, Hc. apply Z.mod_small. rewrite <- Htot. split; [unfold total, zlen; lia|]. rewrite Htot. unfold zlen. lia. }
  rewrite Ec. unfold zlen in Htot. eapply wp_mono; [apply (IH (m - 1) p2); try done; lia| |done].
  intros c' p3 (G1 & G2 & G3 & G4 & G5 & m' & G6 & G7 & G8). split_and!; [done|by etrans| |done| |by exists m'].
  - intros a Ha. rewrite G3, Ho2 by done. done.
  - lia.
Qed.

Lemma more_order : order_ok more_txs.
Proof. split; unfold more_txs; intros; rewrite ?Z.ltb_lt, ?Z.ltb_ge in *; lia. Qed.
(** The largest accounts come first; while the pool is too large, those seen
    have the same length, which no other exceeds. *)
Record equalizing p (S : list (Z * Z)) (O : list Z) (c : Z) : Prop := {
  eq_good : good p;
  eq_count : c = total (pending p);
  eq_heap : is_heap more_txs S;
  eq_distinct : NoDup (O ++ map fst S);
  eq_spammers x : x ∈ S → len_at p x.1 = x.2 ∧ AccountSlots config < x.2;
  eq_seen a : a ∈ O → is_Some (pending p !! a);
  eq_level : c ≤ GlobalSlots config ∨ ∃ m, AccountSlots config < m ∧ (∀ a, a ∈ O → len_at p a = m) ∧ (O ≠ [] → ∀ x, x ∈ S → x.2 ≤ m)
}.
Lemma equalize_turn {E} O x m p c (QE : E → pool → Prop) : good p → NoDup (O ++ [x.1]) → (∀ a, a ∈ O → len_at p a = m) → (O ≠ [] → x.2 ≤ m) → len_at p x.1 = x.2 → AccountSlots config < x.2 →
  c = total (pending p) → c < 2 ^ 64 →
  wp (match list.last O with
      | None => mret c
      | Some probe => threshold ← pending_Len x.1; len ← pending_Len probe; reduce keccak config order (S (Z.to_nat len)) O probe threshold c
      end)
    (fun c' p' => good p' ∧ trimmed p p' ∧ (∀ a, a ∉ O → pending p' !! a = pending p !! a) ∧ c' = total (pending p') ∧ c' ≤ c ∧
       (c' ≤ GlobalSlots config ∨ ∀ a, a ∈ O → len_at p' a = x.2)) QE p.
Proof.
  pose proof (co_AccountSlots Hcfg) as Hslots. intros Hg Hnd Hlen Hmax Hx Hx2 Hc Hc64. apply NoDup_app in Hnd as (HO & _ & _).
  destruct (list.last O) as [probe|] eqn:El.
  2:{ apply last_None in El as ->. steps. split_and!; try done; [by apply trimmed_refl, Hg|]. right. by intros a ?%elem_of_nil. }
  assert (Hin : probe ∈ O) by (apply last_Some_elem_of in El; done). assert (Hm : x.2 ≤ m) by (apply Hmax; by intros ->).
  assert (Hpl : ∀ b n (Q : Z → pool → Prop), len_at p b = n → 1 ≤ n → Q n p → wp (E := E) (pending_Len b) Q QE p).
  { intros b n Q Hb Hn HQ. unfold pending_Len. steps. destruct (len_at_some p b n Hb Hn) as (L & HL & HlenL). rewrite HL. apply (wp_pure_ok _ L); [done|]. steps.
    destruct (good_rep p true b L (g_inv _ Hg) HL) as (l & _ & _ & ->). by rewrite HlenL. }
  steps. apply (Hpl x.1 x.2); [done|lia|]. steps. apply (Hpl probe m); [by apply Hlen|lia|].
  eapply wp_mono; [apply (reduce_ok O probe x.2 QE _ HO Hin ltac:(lia) m p c); try done; lia| |done].
  intros c' p' (G1 & G2 & G3 & G4 & G5 & m' & G6 & G7 & G8). split_and!; try done. destruct G8 as [G8| ->]; [by left|by right].
Qed.
Lemma equalize_ok {E} (QE : E → pool → Prop) fuel : ∀ p S O c, equalizing p S O c → c < 2 ^ 64 → (length S < fuel)%nat →
  wp (equalize keccak config order fuel S O c)
    (fun r p' => ∃ S', equalizing p' S' r.1 r.2 ∧ trimmed p p' ∧ r.2 ≤ c ∧ r.1 ++ map fst S' ≡ₚ O ++ map fst S ∧ (r.2 ≤ GlobalSlots config ∨ S' = []) ∧ (∀ a, a ∈ O → a ∈ r.1) ∧
       ∀ a, a ∉ r.1 → pending p' !! a = pending p !! a) QE p.
Proof.
  pose proof (co_AccountSlots Hcfg) as Hslots. induction fuel as [|fuel IH]; intros p S O c He Hc Hf; [lia|]. cbn [equalize]. destruct (GlobalSlots config <? c) eqn:E1; cbn [andb negb].
  2:{ steps. apply Z.ltb_ge in E1. exists S. split_and!; try done; [by apply trimmed_refl, He|by left]. }
  apply Z.ltb_lt in E1. destruct He as [Hg Hcnt Hh Hnd Hsp Hseen [Hle|(m & Hm & Hlen & Hmax)]]; [lia|]. destruct S as [|x S0] eqn:ES.
  { unfold zlen. cbn. steps. exists []. split_and!; try done; [split; try done; right; by exists m|by apply trimmed_refl, Hg|by right]. }
  rewrite <- ES in *. replace (zlen S =? 0) with false by (subst S; unfold zlen; cbn; symmetry; apply Z.eqb_neq; lia). cbn [negb].
  destruct (Pop_ok _ more_order S x Hh) as (S1 & EP & Hh1 & Hp1 & Hm1); [by rewrite ES|]. rewrite EP. steps. apply (wp_pure_ok _ (x, S1)); [done|]. steps.
  destruct (Hsp x) as [Hx1 Hx2]; [rewrite Hp1; by left|]. assert (Hperm : (O ++ [x.1]) ++ map fst S1 ≡ₚ O ++ map fst S) by (rewrite Hp1, <- app_assoc; done).
  assert (Hf1 : (length S1 < fuel)%nat) by (apply Permutation_length in Hp1; cbn in Hp1; lia).
  assert (Hx1O : x.1 ∉ O) by (rewrite <- Hperm in Hnd; rewrite <- app_assoc in Hnd; apply NoDup_app in Hnd as (_ & Hd & _); intros Hin; apply (Hd x.1 Hin); by left).
  assert (Hout : ∀ y, y ∈ S → y.1 ∉ O) by (intros y Hy Hin; apply NoDup_app in Hnd as (_ & Hd & _); apply (Hd y.1 Hin), list_elem_of_fmap; eauto).
  assert (Hsub : ∀ y, y ∈ S1 → y ∈ S) by (intros y Hy; rewrite Hp1; by right).
  eapply wp_mono; [apply (equalize_turn O x m p c); try done; [rewrite <- Hperm in Hnd; by apply NoDup_app in Hnd as (Hnd' & _ & _)|intros HO; apply Hmax; [done|rewrite Hp1; by left]]| |done].
  intros c1 p1 (Hg1 & Ht1 & Ho1 & Hc1 & Hle1 & Hlvl). eapply wp_mono; [apply (IH p1 S1 (O ++ [x.1]) c1); [|lia|done]| |done].
  - split; try done.
    + by rewrite Hperm.
    + intros y Hy. rewrite (len_at_same p) by (apply Ho1, Hout; auto). auto.
    + intros a Ha. rewrite elem_of_app, list_elem_of_singleton in Ha. assert (His : is_Some (pending p !! a)).
      { destruct Ha as [Ha| ->]; [by apply Hseen|]. destruct (len_at_some p x.1 x.2 Hx1 ltac:(lia)) as (L & HL & _). eauto. }
      destruct Ht1 as (_ & _ & Ht1). specialize (Ht1 a). destruct His as [L HL]. rewrite HL in Ht1. destruct (pending p1 !! a); [eauto|done].
    + destruct Hlvl as [Hlvl|Hlvl]; [by left|right]. exists x.2. split_and!; [done| |].
      * intros a Ha. rewrite elem_of_app, list_elem_of_singleton in Ha. destruct Ha as [Ha| ->]; [by apply Hlvl|]. by rewrite (len_at_same p) by (by apply Ho1).
      * intros _ y Hy. pose proof (Hm1 y Hy) as Hle2. unfold more_txs in Hle2. by apply Z.ltb_ge in Hle2.
  - intros [O2 c2] p2 (S2 & G1 & G2 & G3 & G4 & G5 & G6 & G7). cbn [fst snd] in *. exists S2. split_and!; [done|by etrans|lia|by rewrite G4|done| |].
    + intros a Ha. apply G6, elem_of_app. by left.
    + intros a Ha. rewrite (G7 a Ha). apply Ho1. intros HaO. apply Ha, G6, elem_of_app. by left.
Qed.

Lemma count_total b m : lists_ok b m → count_lists m = u64 (total m).
Proof.
  intros Hm. unfold count_lists, lengths, total, contents. f_equal. assert (Hall : ∀ kv, kv ∈ map_to_list m → list_Len kv.2 = zlen (items_of kv.2)).
  { intros [a L] HL%elem_of_map_to_list. destruct (Hm a L HL) as ((l & Hl) & _). by apply (list_Len_items L l). }
  induction (map_to_list m) as [|kv kvs IH]; [done|]. cbn. rewrite Hall by (by left). rewrite IH by (intros; apply Hall; by right). unfold zlen. rewrite length_app. lia.
Qed.
Definition spams p (kv : Z * txlist) : bool := negb (is_local kv.1 p) && (AccountSlots config <? list_Len kv.2).
Lemma spammers_ok p kvs : ∀ h, is_heap more_txs h → let S := foldl (fun h kv => if spams p kv then Push more_txs h (kv.1, list_Len kv.2) else h) h kvs in
  is_heap more_txs S ∧ S ≡ₚ map (fun kv => (kv.1, list_Len kv.2)) (base.filter (fun kv => spams p kv = true) kvs) ++ h.
Proof.
  induction kvs as [|kv kvs IH]; intros h Hh; [done|]. cbn [foldl]. rewrite filter_cons. destruct (spams p kv) eqn:Es; [|by apply IH].
  destruct (Push_ok _ more_order h (kv.1, list_Len kv.2) Hh) as [H1 H2]. destruct (IH _ H1) as [G1 G2]. split; [done|]. rewrite G2, H2. cbn. solve_Permutation.
Qed.
Definition pending_limited p : Prop := total (pending p) ≤ GlobalSlots config ∨ ∀ a L, pending p !! a = Some L → is_local a p = false → zlen (items_of L) ≤ AccountSlots config.
Lemma static_local p p' a : static p' = static p → is_local a p' = is_local a p.
Proof. intros Hs. unfold is_local. by rewrite (f_equal snd Hs : locals p' = locals p). Qed.
#[local] Abbreviation truncatePending := (truncatePending keccak config order).
Lemma spammers_equalizing p n : good p → GlobalSlots config < total (pending p) → ∃ S, equalizing p S [] (total (pending p)) ∧
  foldl (fun h kv => if negb (is_local kv.1 p) && (AccountSlots config <? list_Len kv.2) then Push more_txs h (kv.1, list_Len kv.2) else h) [] (order n txlist (pending p)) = S ∧
  ∀ a L, pending p !! a = Some L → is_local a p = false → a ∉ map fst S → zlen (items_of L) ≤ AccountSlots config.
Proof.
  intros Hg Hc. destruct (spammers_ok p (order n txlist (pending p)) []) as [Hh HS]; [by intros i k Hi Hk Hlt; cbn in Hlt; lia|]. set (S := foldl _ _ _) in *. exists S. rewrite app_nil_r in HS.
  assert (Hel : ∀ x, x ∈ S ↔ ∃ L, pending p !! x.1 = Some L ∧ x.2 = zlen (items_of L) ∧ is_local x.1 p = false ∧ AccountSlots config < x.2).
  { intros [a k]. rewrite HS, list_elem_of_fmap. setoid_rewrite list_elem_of_filter. setoid_rewrite Horder. cbn [fst snd]. split.
    - intros ([b L] & [= -> ->] & Hs & HL%elem_of_map_to_list). exists L. cbn [fst snd]. unfold spams in Hs. cbn [fst snd] in Hs. apply andb_true_iff in Hs as [Hs1%negb_true_iff Hs2%Z.ltb_lt].
      by destruct (good_rep p true b L (g_inv _ Hg) HL) as (l & _ & _ & <-).
    - intros (L & HL & -> & Hl & Hk). exists (a, L). destruct (good_rep p true a L (g_inv _ Hg) HL) as (l & _ & _ & Hlen). cbn [fst snd]. rewrite Hlen. split; [done|].
      unfold spams. cbn [fst snd]. rewrite Hl, Hlen, (proj2 (Z.ltb_lt _ _) Hk). by rewrite elem_of_map_to_list. }
  split_and!; [split; try done|done|].
  - rewrite HS. cbn [app]. rewrite map_map. cbn. eapply (sublist_NoDup _ (map fst (order n txlist (pending p)))); [apply order_nodup|]. apply (fmap_sublist fst), sublist_filter.
  - intros x Hx. apply Hel in Hx as (L & HL & Hk & _ & Hk2). split; [|done]. unfold len_at, items_at. by rewrite HL.
  - by intros a ?%elem_of_nil.
  - right. exists (AccountSlots config + 1). split_and!; [lia|by intros a ?%elem_of_nil|done].
  - intros a L HL Hl Ha. apply Z.nlt_ge. intros Hlt. apply Ha, list_elem_of_fmap. exists (a, zlen (items_of L)). split; [done|]. apply Hel. cbn. eauto.
Qed.
Lemma truncate_tail {E} p S O c (QE : E → pool → Prop) : equalizing p S O c → c < 2 ^ 64 → (c ≤ GlobalSlots config ∨ S = []) →
  wp (match list.last O with
      | None => mret tt
      | Some probe => len ← pending_Len probe; _ ← reduce keccak config order (Datatypes.S (Z.to_nat len)) O probe (AccountSlots config) c; mret tt
      end)
    (fun _ p' => good p' ∧ trimmed p p' ∧ (∀ a, a ∉ O → pending p' !! a = pending p !! a) ∧ (total (pending p') ≤ GlobalSlots config ∨ S = [] ∧ ∀ a, a ∈ O → len_at p' a ≤ AccountSlots config)) QE p.
Proof.
  pose proof (co_AccountSlots Hcfg) as Hslots. intros [Hg Hcnt Hh Hnd Hsp Hseen Hlvl] Hc Hstop. destruct (list.last O) as [probe|] eqn:El.
  2:{ apply last_None in El as ->. steps. split_and!; try done; [by apply trimmed_refl, Hg|]. rewrite <- Hcnt. destruct Hstop as [Hle|Hs]; [by left|right]. split; [done|]. by intros a ?%elem_of_nil. }
  assert (Hin : probe ∈ O) by (by apply last_Some_elem_of in El). destruct (Hseen probe Hin) as [L HL]. unfold pending_Len. steps. rewrite HL. apply (wp_pure_ok _ L); [done|]. steps.
  destruct (good_rep p true probe L (g_inv _ Hg) HL) as (l & _ & _ & ->). destruct Hlvl as [Hle|(m & Hm & Hlen & _)].
  - cbn [reduce]. unfold pending_Len. steps. rewrite HL. apply (wp_pure_ok _ L); [done|]. steps. rewrite (proj2 (Z.ltb_ge _ _) Hle). cbn [andb negb]. steps. split_and!; try done; [by apply trimmed_refl, Hg|left; lia].
  - assert (Em : zlen (items_of L) = m) by (rewrite <- (Hlen probe Hin); unfold len_at, items_at; by rewrite HL). rewrite Em. apply NoDup_app in Hnd as (HO & _ & _).
    eapply wp_mono; [apply (reduce_ok O probe (AccountSlots config) QE _ HO Hin Hslots m p c); try done; lia| |done].
    intros c' p' (G1 & G2 & G3 & G4 & G5 & m' & G6 & G7 & G8). steps. split_and!; try done. destruct G8 as [G8| ->]; [left; lia|]. destruct Hstop as [Hstop|Hs]; [left; lia|right]. split; [done|]. intros a Ha. by rewrite G6.
Qed.
Lemma truncatePending_ok {E} p (QE : E → pool → Prop) : good p → total (pending p) < 2 ^ 64 → wp truncatePending (fun _ p' => good p' ∧ trimmed p p' ∧ pending_limited p') QE p.
Proof.
  intros Hg H64. unfold TxPool.truncatePending. steps. rewrite (count_total true) by apply Hg. assert (Hnn : 0 ≤ total (pending p)) by (unfold total, zlen; lia). rewrite (Z.mod_small _ _ (conj Hnn H64) : u64 _ = _).
  destruct (total (pending p) <=? GlobalSlots config) eqn:Ec; [apply Z.leb_le in Ec; steps; split_and!; [done|by apply trimmed_refl, Hg|by left]|]. apply Z.leb_gt in Ec. steps.
  set (p0 := set_ticks _ p). assert (Hg0 : good p0) by (destruct Hg as [H1 H2 H3]; split; [by eapply inv_same|done|done]).
  destruct (spammers_equalizing p0 (ticks p) Hg0 Ec) as (S & HS & ES & Hothers). change (id p0) with p0. change (pending p0) with (pending p) in *. rewrite ES.
  eapply wp_mono; [apply (equalize_ok QE _ p0 S []); [done|done|lia]| |done]. intros [O c] p1 (S1 & He1 & Ht1 & Hc1 & Hperm & Hstop & _ & Hout). cbn [fst snd] in *. steps.
  eapply wp_mono; [apply (truncate_tail p1 S1 O c); [done|lia|done]| |done]. intros _ p2 (G1 & G2 & G3 & G4).
  assert (Ht0 : trimmed p0 p2) by (etrans; [exact Ht1|exact G2]). assert (Ht : trimmed p p2) by exact Ht0. split_and!; [done|done|]. destruct G4 as [G4|[-> G4]]; [by left|right].
  intros a L HL Hl. rewrite (static_local p) in Hl by apply Ht. destruct (decide (a ∈ O)) as [Ha|Ha]; [specialize (G4 a Ha); unfold len_at, items_at in G4; by rewrite HL in G4|].
  apply (Hothers a); [|done|]; [rewrite <- HL, G3, Hout by done; done|]. cbn [map app] in Hperm. rewrite app_nil_r in Hperm. by rewrite <- Hperm.
Qed.

(** ** Removal *)

#[local] Abbreviation removeTx := (removeTx keccak Ecrecover config chainconfig order Now).
(** Out of the lookup, and the price list may hear of it. *)
Lemma wp_forget {E B} h ob c p D (k : stm pool E B) Q (QE : E → pool → Prop) : lk_ok (lk_Remove size h (all p)) c → pl_heaps (priced p) → tracks hash (all p) (priced p) D → (ob = true → D = []) →
  (∀ pl n, pl_heaps pl → tracks hash (lk_Remove size h (all p)) pl D → wp k Q QE (set_priced pl (set_ticks n (set_all (lk_Remove size h (all p)) p)))) →
  wp (all_Remove h) (fun _ => wp (_ ← (if ob then priced_Removed order 1 else mret tt); k) Q QE) QE p.
Proof.
  intros Hc Hh Ht HD Hk. apply wp_mods. pose proof (lk_Remove_tracks p h D Ht) as Ht'. destruct ob; steps.
  - rewrite (HD eq_refl) in *. eapply wp_priced_Removed; [exact Hc|by split|]. intros pl n [H1 H2]. by apply Hk.
  - specialize (Hk (priced p) (ticks p) Hh Ht'). by destruct p.
Qed.
Lemma held_in p D b a L tx : inv p [] D → side b p !! a = Some L → tx ∈ items_of L → from tx = a ∧ tx ∈ held p [] ∧ lk_Get (hash tx) (all p) = Some tx ∧
  ∃ rest, held p [] ≡ₚ tx :: rest ∧ lk_ok (lk_Remove size (hash tx) (all p)) rest.
Proof.
  intros Hi HL Hx. destruct (inv_side _ _ _ b Hi a L HL) as (_ & _ & Hf). rewrite Forall_forall in Hf. assert (Hh : tx ∈ held p []).
  { rewrite (held_side p [] b). apply elem_of_app. left. apply contents_elem. eauto. }
  split_and!; [by apply Hf|done|by eapply lk_Get_hash; [apply Hi|]|]. apply elem_of_Permutation in Hh as [l Hl]. exists l. split; [done|]. apply lk_Remove_ok. rewrite <- Hl. apply Hi.
Qed.
(** A nonce that is queued is not pending. *)
Lemma other_side p D b a L tx L' l' : inv p [] D → side b p !! a = Some L → tx ∈ items_of L → side (negb b) p !! a = Some L' → list_rep L' l' → at_nonce (tx_nonce tx) l' = None.
Proof.
  intros Hi HL Hx HL' Hl'. destruct (at_nonce _ l') as [t|] eqn:Hn; [|done]. exfalso. destruct (held_in p D b a L tx Hi HL Hx) as (Ha & _).
  destruct (cell_side _ _ _ (negb b) L' l' _ t Hi _ HL' Hl' Hn) as [Ht Hc].
  assert (Hin : tx ∈ contents (side b p)) by (apply contents_elem; eauto). apply elem_of_Permutation in Hin as [k Hk].
  apply (held_distinct p [] D tx (k ++ contents (side (negb b) p)) Hi); [rewrite (held_side p [] b), Hk; solve_Permutation|].
  apply list_elem_of_fmap. exists t. rewrite Hc. split; [by unfold cell; rewrite Ha|]. apply elem_of_app. by right.
Qed.
Definition removed_queue a L tx D p p' : Prop :=
  inv p' [] D ∧ calm p p' ∧ lk_Get (hash tx) (all p') = None ∧ same_items (pending p) (pending p') ∧
  ((∃ L', queue p' = <[a := L']> (queue p) ∧ items_of L ≡ₚ tx :: items_of L' ∧ items_of L' ≠ []) ∨ (queue p' = delete a (queue p) ∧ items_of L ≡ₚ [tx])).
Lemma removeTx_queue {E} a L tx ob D p (QE : E → pool → Prop) : inv p [] D → (ob = true → D = []) → queue p !! a = Some L → tx ∈ items_of L →
  wp (removeTx (hash tx) ob) (fun _ p' => removed_queue a L tx D p p') QE p.
Proof.
  intros Hi HD HL Hx. destruct (held_in p D false a L tx Hi HL Hx) as (Ha & _ & Hget & l0 & _ & Hlk). unfold TxPool.removeTx. steps. rewrite Hget. rewrite Ha. steps.
  eapply wp_forget; [exact Hlk|apply Hi|apply Hi|exact HD|]. intros pl n Hpl Htr. steps. set (p1 := set_priced pl _).
  destruct (inv_side _ _ _ false Hi a L HL) as ((l & Hl) & Hst & _).
  assert (Hpend : wp (E := E) (match pending p !! a with None => mret (false, []) | Some _ => n ← tick; with_pending a (list_Remove (order n Transaction) tx) end)
    (fun r p2 => r = (false, []) ∧ same_items (pending p) (pending p2) ∧ inv (set_pending (pending p2) p) [] D ∧ ∃ k, p2 = set_pending (pending p2) (set_ticks k p1)) QE p1).
  { destruct (pending p !! a) as [Lp|] eqn:HLp; steps.
    - destruct (inv_side _ _ _ true Hi a Lp HLp) as ((lp & Hlp) & Hsp & _).
      destruct (list_Remove_out (order (ticks p1) Transaction) (Horder _ _) Lp lp tx Hlp (other_side p D false a L tx Lp lp Hi HL Hx HLp Hlp)) as (L' & E1 & S1 & R1).
      assert (Hit : items_of L' ≡ₚ items_of Lp) by (by rewrite (items_rep _ _ Hlp), (items_rep _ _ R1)).
      eapply wp_with_pending; [exact HLp|exact E1|]. split_and!; [done|by eapply same_items_insert| |by eexists].
      apply (side_take p [] D true a Lp L' []); [done|done|by rewrite Hit|by exists lp|congruence].
    - split_and!; [done|done|by destruct p|]. exists (ticks p1). by destruct p. }
  eapply wp_mono; [exact Hpend| |done]. intros r p2 (-> & Hsame & Hi2 & k & Ep2). steps. rewrite Ep2. set (m := pending p2) in *. clearbody m. clear Hpend. cbn [queue set_pending set_ticks p1 set_priced set_all]. rewrite HL. steps.
  destruct (list_Remove_in (order (ticks (set_pending m (set_ticks k p1))) Transaction) (Horder _ _) L l tx Hl) as (i & L' & E1 & S1 & R1 & I1 & Hnil).
  { apply at_nonce_in; [by eapply rep_sorted|]. by rewrite <- (items_rep _ _ Hl). }
  rewrite (Hnil Hst) in *. cbn [app] in I1. eapply wp_with_queue; [exact HL|exact E1|]. steps. cbn [queue set_queue set_pending set_ticks p1 set_priced set_all].
  set (p3 := set_queue _ _).
  assert (Hi3 : inv p3 [] D).
  { pose proof (side_take _ [] D false a L L' [tx] Hi2 HL ltac:(done) ltac:(eauto) ltac:(congruence)) as H3. apply inv_Remove in H3. by eapply inv_ext; [exact H3|..]. }
  assert (Hnone : lk_Get (hash tx) (lk_Remove size (hash tx) (all p)) = None) by (rewrite lk_Remove_get; by case_decide). pose proof (lk_Remove_sub (hash tx) (all p)) as Hsub.
  rewrite lookup_insert_eq, (list_Empty_items _ _ R1). case_bool_decide as He; (split_and!; [|done|done|done|]).
  - eapply inv_same; [apply (side_gone p3 [] D false a L' Hi3); [apply lookup_insert_eq|done]|done..].
  - right. cbn [queue set_beats set_queue]. rewrite delete_insert_eq. split; [done|]. by rewrite I1, He.
  - done.
  - left. exists L'. done.
Qed.
(** The state between operations, while [D] are out of the price heaps. *)
Record settled p D : Prop := { st_inv : inv p [] D; st_pending : nonempty (pending p); st_queue : nonempty (queue p) }.
Lemma settled_good p : settled p [] ↔ good p.
Proof. split; intros []; by split. Qed.
Lemma removeTx_pending {E} a L tx ob D p (QE : E → pool → Prop) : settled p D → (ob = true → D = []) → pending p !! a = Some L → tx ∈ items_of L →
  wp (removeTx (hash tx) ob) (fun _ p' => settled p' D ∧ calm p p' ∧ lk_Get (hash tx) (all p') = None) QE p.
Proof.
  intros [Hi Hnp Hnq] HD HL Hx. destruct (held_in p D true a L tx Hi HL Hx) as (Ha & _ & Hget & l0 & _ & Hlk). unfold TxPool.removeTx. steps. rewrite Hget. rewrite Ha. steps.
  eapply wp_forget; [exact Hlk|apply Hi|apply Hi|exact HD|]. intros pl n Hpl Htr. steps. set (p1 := set_priced pl _). cbn [pending set_priced set_ticks set_all p1]. rewrite HL. steps.
  destruct (inv_side _ _ _ true Hi a L HL) as ((l & Hl) & Hst & Hfr).
  destruct (list_Remove_in (order (ticks p1) Transaction) (Horder _ _) L l tx Hl) as (i & L' & E1 & S1 & R1 & I1 & _).
  { apply at_nonce_in; [by eapply rep_sorted|]. by rewrite <- (items_rep _ _ Hl). }
  eapply wp_with_pending; [exact HL|exact E1|]. steps. set (p2 := set_pending _ _).
  assert (Hi2 : inv p2 i D).
  { pose proof (side_take _ [] D true a L L' (tx :: i) Hi HL I1 ltac:(eauto) ltac:(congruence)) as H3. rewrite app_nil_r in H3. apply inv_Remove in H3. by eapply inv_ext; [exact H3|..]. }
  assert (F2 : frame a p p2). { eapply frame_trans; [apply (frame_pending a p L')|]. apply frame_same; try done. apply lk_Remove_sub. }
  destruct (pending_clean a i D p2 Hi2) as (G1 & G2 & G3 & G4 & _); [exact (nonempty_others a (pending p) _ Hnp (fun b Hb => proj1 (proj2 F2 b Hb)))|].
  assert (Hall : all (match pending p2 !! a with Some l => if list_Empty l then set_pending (delete a (pending p2)) p2 else p2 | None => p2 end) = lk_Remove size (hash tx) (all p)) by (destruct (pending p2 !! a) as [x|]; [by destruct (list_Empty x)|done]).
  set (p3 := match pending p2 !! a with Some _ => _ | None => _ end) in *. clearbody p3. cbn [side negb] in G3, G4.
  eapply wp_mono; [apply (enqueue_all a i p3 [] D); [by rewrite app_nil_r|rewrite I1 in Hfr; by apply Forall_cons in Hfr as [_ [Hfr _]%Forall_app]]| |done].
  intros _ p4 (H1 & H2 & H3 & H4). unfold lower_nonce. steps. destruct (rest_frame a _ _ H2 H4) as (F4 & P4 & _ & A4). split_and!.
  - split; [by eapply inv_same|cbn [pending set_nonces]; by rewrite P4|]. apply H3. by rewrite G3.
  - assert (Hc : calm p p4); [|done]. etrans; [apply F2|]. etrans; [apply G2|apply F4].
  - cbn [all set_nonces]. rewrite A4, Hall, lk_Remove_get. by case_decide.
Qed.
Lemma removeTx_ok {E} h ob D p (QE : E → pool → Prop) : settled p D → (ob = true → D = []) →
  wp (removeTx h ob) (fun _ p' => settled p' D ∧ calm p p' ∧ lk_Get h (all p') = None) QE p.
Proof.
  intros Hs HD. destruct (lk_Get h (all p)) as [tx|] eqn:Hget; [|unfold TxPool.removeTx; steps; rewrite Hget; by steps].
  apply (lk_Get_iff hash size) with (l := held p []) in Hget as [Hin <-]; [|apply Hs]. unfold held in Hin. rewrite app_nil_r, elem_of_app, !contents_elem in Hin. destruct Hin as [(a & L & HL & Hx)|(a & L & HL & Hx)].
  - by eapply removeTx_pending.
  - eapply wp_mono; [apply (removeTx_queue a L tx ob D p); [apply Hs|done|done|done]| |done]. intros _ p' (G1 & G2 & G3 & G4 & G5). split_and!; [|done|done].
    split; [done|eapply nonempty_same; [done|apply Hs]|]. destruct Hs as [_ _ Hq]. destruct G5 as [(L' & -> & _ & Hne)|[-> _]]; [|by apply nonempty_delete]. apply nonempty_insert; [by apply nonempty_delete|done].
Qed.

(** ** Limits of the queued lists *)

Lemma total_gone m a L : m !! a = Some L → total (delete a m) = total m - zlen (items_of L).
Proof. intros HL. unfold total, zlen. rewrite (Permutation_length (contents_delete m a L HL)), length_app. lia. Qed.
(** Removals from the queue of [a]. *)
Definition unqueued (a : Z) p p' : Prop := good p' ∧ calm p p' ∧ same_items (pending p) (pending p') ∧ ∀ b, b ≠ a → queue p' !! b = queue p !! b.
Lemma unqueued_trans a p1 p2 p3 : unqueued a p1 p2 → unqueued a p2 p3 → unqueued a p1 p3.
Proof. intros (_ & A2 & A3 & A4) (B1 & B2 & B3 & B4). split_and!; [done|by etrans|by etrans|]. intros b Hb. by rewrite B4, A4. Qed.
Lemma remove_each {E} a keep xs p (QE : E → pool → Prop) : good p → items_at (queue p) a ≡ₚ xs ++ keep →
  wp (each (fun tx => _ ← removeTx (hash tx) true; mret tt) xs)
    (fun _ p' => unqueued a p p' ∧ items_at (queue p') a ≡ₚ keep ∧ total (queue p') = total (queue p) - zlen xs) QE p.
Proof.
  intros Hg Hit. eapply wp_mono; [apply (wp_each _ (fun ys p' => unqueued a p p' ∧ items_at (queue p') a ≡ₚ ys ++ keep ∧ total (queue p') = total (queue p) - zlen xs + zlen ys))| |done].
  - intros x ys p' (Hu & Hx & Ht). unfold items_at in Hx. destruct (queue p' !! a) as [L|] eqn:HL; [|by apply Permutation_nil_cons in Hx]. cbn [from_option] in Hx. step.
    eapply wp_mono; [apply (removeTx_queue a L x true [] p'); [apply Hu|done|done|rewrite Hx; by left]| |done]. intros _ p2 (G1 & G2 & G3 & G4 & G5). steps.
    assert (Hg2 : good p2). { destruct Hu as ([_ Hp Hq] & _). split; [done|by eapply nonempty_same|]. destruct G5 as [(L' & -> & _ & Hne)|[-> _]]; [apply nonempty_insert; [by apply nonempty_delete|done]|by apply nonempty_delete]. }
    split_and!.
    + eapply unqueued_trans; [exact Hu|]. split_and!; [done|done|done|]. intros b Hb. destruct G5 as [(L' & -> & _)|[-> _]]; [by rewrite lookup_insert_ne|by rewrite lookup_delete_ne].
    + unfold items_at. destruct G5 as [(L' & -> & Hi & _)|[-> Hi]]; rewrite Hi in Hx; cbn [app] in Hx.
      * rewrite lookup_insert_eq. cbn. by apply Permutation_cons_inv in Hx.
      * rewrite lookup_delete_eq. cbn. by apply Permutation_cons_inv in Hx.
    + destruct G5 as [(L' & -> & Hi & _)|[-> Hi]]; [rewrite (total_update _ _ L) by done|rewrite (total_gone _ _ L) by done]; apply Permutation_length in Hi; cbn [length] in Hi; unfold zlen in *; cbn [length] in *; lia.
  - split_and!; try done. unfold zlen. lia.
  - intros _ p' (H1 & H2 & H3). split_and!; try done. unfold zlen in *. cbn [length] in H3. lia.
Qed.
Lemma items_at_nil m a : nonempty m → items_at m a ≡ₚ [] → m !! a = None.
Proof. unfold items_at. intros Hm. destruct (m !! a) as [L|] eqn:HL; [|done]. cbn. intros H%Permutation_nil_r. by destruct (Hm a L HL). Qed.
(** Reading the queue of an account. *)
Lemma wp_flatten_queue {E} n a p L Q (QE : E → pool → Prop) : good p → queue p !! a = Some L →
  (∀ l p', unqueued a p p' → items_at (queue p') a ≡ₚ l → total (queue p') = total (queue p) → zlen l = list_Len L → Q l p') →
  wp (with_queue a (fun l => Ok (list_Flatten (order n Transaction) l))) Q QE p.
Proof.
  intros [Hi Hp Hq] HL HQ. destruct (good_rep p false a L Hi HL) as (l & Hl & Hst & Hlen). destruct (list_Flatten_spec (order n Transaction) (Horder n _) L l Hl) as (L' & E1 & S1 & R1).
  assert (Hit : items_of L' ≡ₚ items_of L) by (by rewrite (items_rep _ _ Hl), (items_rep _ _ R1)).
  eapply (wp_take_queue a [] [] _ l L L' l []); [exact Hi|exact HL|by rewrite E1|by rewrite Hit|exact R1|exact S1|]. intros _ H1. apply HQ.
  - split_and!; [split; [exact H1|done|]|done|done|intros b Hb; by apply lookup_insert_ne]. by eapply nonempty_same, Hq; apply same_items_insert with L.
  - unfold items_at. cbn [queue set_queue]. rewrite lookup_insert_eq. cbn. by apply items_rep.
  - cbn [queue set_queue]. rewrite (total_update _ _ L) by done. apply Permutation_length in Hit. unfold zlen. lia.
  - rewrite Hlen. unfold zlen. f_equal. symmetry. by apply Permutation_length, items_rep.
Qed.
#[local] Abbreviation truncate_loop := (truncate_loop keccak Ecrecover config chainconfig order Now).
Lemma truncate_loop_ok {E} (QE : E → pool → Prop) addresses : ∀ drop p, good p → 0 ≤ drop → NoDup addresses → (∀ a, a ∈ addresses → is_Some (queue p !! a)) →
  wp (truncate_loop addresses drop) (fun _ p' => good p' ∧ calm p p' ∧ same_items (pending p) (pending p') ∧
    (total (queue p') = total (queue p) - drop ∨ 0 < drop ∧ ∀ a, a ∈ addresses → queue p' !! a = None) ∧ ∀ a, a ∉ addresses → queue p' !! a = queue p !! a) QE p.
Proof.
  induction addresses as [|a addresses IH]; intros drop p Hg Hd Hnd Hin; cbn [TxPool.truncate_loop].
  { steps. split_and!; try done. destruct (decide (0 < drop)) as [Hlt|Hge]; [right; split; [done|]; by intros a ?%elem_of_nil|left; lia]. }
  destruct (drop <=? 0) eqn:Ed; [apply Z.leb_le in Ed; steps; split_and!; try done; left; lia|]. steps. destruct (Hin a ltac:(by left)) as [L HL]. rewrite HL. apply (wp_pure_ok _ L); [done|]. steps.
  apply NoDup_cons in Hnd as [Ha Hnd]. set (p0 := set_ticks _ p). assert (Hg0 : good p0) by (destruct Hg as [H1 H2 H3]; split; [by eapply inv_same|done|done]).
  eapply (wp_flatten_queue _ a p0 L); [exact Hg0|exact HL|]. intros l p1 Hu1 Hit1 Ht1 Hlen. change (queue p0) with (queue p) in Ht1.
  assert (Hrest : ∀ p2, unqueued a p1 p2 → ∀ b, b ≠ a → queue p2 !! b = queue p !! b).
  { intros p2 Hu2 b Hb. destruct (unqueued_trans a _ _ _ Hu1 Hu2) as (_ & _ & _ & H). by apply H. }
  assert (Hnext : ∀ p2 drop', unqueued a p1 p2 → 0 ≤ drop' → (drop' = 0 ∨ queue p2 !! a = None) → total (queue p2) - drop' = total (queue p) - drop →
    wp (E := E) (truncate_loop addresses drop') (fun _ p' => good p' ∧ calm p p' ∧ same_items (pending p) (pending p') ∧
      (total (queue p') = total (queue p) - drop ∨ 0 < drop ∧ ∀ a0, a0 ∈ a :: addresses → queue p' !! a0 = None) ∧ ∀ a0, a0 ∉ a :: addresses → queue p' !! a0 = queue p !! a0) QE p2).
  { intros p2 drop' Hu2 Hd' Hcase Htot. pose proof (unqueued_trans a _ _ _ Hu1 Hu2) as (U1 & U2 & U3 & _).
    eapply wp_mono; [apply (IH drop' p2 U1 Hd' Hnd)| |done]; [intros b Hb; rewrite (Hrest p2 Hu2) by (by intros ->); apply Hin; by right|].
    intros _ p3 (G1 & G2 & G3 & G4 & G5). split_and!; [done|by etrans; [exact U2|]|by etrans; [exact U3|]| |].
    - destruct G4 as [G4|[Hlt G4]]; [left; lia|]. destruct Hcase as [-> |Hnone]; [lia|]. right. split; [lia|]. intros b [->|Hb]%elem_of_cons; [by rewrite G5|by apply G4].
    - intros b Hb. apply not_elem_of_cons in Hb as [Hba Hb]. rewrite G5 by done. by apply Hrest. }
  unfold zlen in Hlen. rewrite <- Hlen. apply Z.leb_gt in Ed. destruct (Z.of_nat (length l) <=? drop) eqn:Es.
  - apply Z.leb_le in Es. steps. eapply wp_mono; [apply (remove_each a [] l p1); [apply Hu1|by rewrite app_nil_r]| |done]. intros _ p2 (Hu2 & Hit2 & Ht2). unfold zlen in Ht2.
    apply Hnext; [done|lia| |lia]. right. apply items_at_nil; [apply Hu2|done].
  - apply Z.leb_gt in Es. steps. set (last := take (Z.to_nat drop) (reverse l)). assert (Hll : zlen last = drop) by (unfold zlen, last; rewrite length_take, length_reverse; lia).
    eapply wp_mono; [apply (remove_each a (list.drop (Z.to_nat drop) (reverse l)) last p1); [apply Hu1|unfold last; rewrite take_drop; by rewrite Hit1, reverse_Permutation]| |done].
    intros _ p2 (Hu2 & _ & Ht2). apply Hnext; [done|lia|left; lia|lia].
Qed.
Definition queue_limited p : Prop := total (queue p) ≤ GlobalQueue config ∨ ∀ a L, queue p !! a = Some L → is_local a p = true.
#[local] Abbreviation truncateQueue := (truncateQueue keccak Ecrecover config chainconfig order Now).
Lemma truncateQueue_ok {E} p (QE : E → pool → Prop) : good p → total (queue p) < 2 ^ 64 →
  wp truncateQueue (fun _ p' => good p' ∧ calm p p' ∧ same_items (pending p) (pending p') ∧ queue_limited p') QE p.
Proof.
  intros Hg H64. unfold TxPool.truncateQueue. steps. rewrite (count_total false) by apply Hg. assert (Hnn : 0 ≤ total (queue p)) by (unfold total, zlen; lia). rewrite (Z.mod_small _ _ (conj Hnn H64) : u64 _ = _).
  destruct (total (queue p) <=? GlobalQueue config) eqn:Ec; [apply Z.leb_le in Ec; steps; split_and!; try done; by left|]. apply Z.leb_gt in Ec. steps.
  set (p0 := set_ticks _ p). assert (Hg0 : good p0) by (destruct Hg as [H1 H2 H3]; split; [by eapply inv_same|done|done]). change (id p0) with p0.
  set (remote := base.filter _ _). set (addresses := map fst (reverse _)).
  assert (Hperm : addresses ≡ₚ map fst remote).
  { unfold addresses. rewrite reverse_Permutation, merge_sort_Permutation, map_map. done. }
  assert (Hrem : ∀ a, a ∈ addresses ↔ is_Some (queue p !! a) ∧ is_local a p = false).
  { intros a. rewrite Hperm. unfold remote. rewrite list_elem_of_fmap. setoid_rewrite list_elem_of_filter. setoid_rewrite Horder. split.
    - intros ([b L] & -> & Hl & HL%elem_of_map_to_list). split; [by exists L|done].
    - intros [[L HL] Hl]. exists (a, L). by rewrite elem_of_map_to_list. }
  eapply wp_mono; [apply (truncate_loop_ok QE addresses); [done|lia| |intros a Ha; by apply Hrem in Ha as [Ha _]]| |done].
  - rewrite Hperm. eapply (sublist_NoDup _ (map fst (order (ticks p) txlist (queue p)))); [apply order_nodup|]. apply (fmap_sublist fst), sublist_filter.
  - intros _ p' (G1 & G2 & G3 & G4 & G5). split_and!; [done|done|done|]. change (queue p0) with (queue p) in *. destruct G4 as [G4|[_ G4]]; [left; lia|right].
    intros a L HL. rewrite (static_local p) by apply G2. destruct (is_local a p) eqn:Hl; [done|]. exfalso. destruct (decide (a ∈ addresses)) as [Ha|Ha]; [by rewrite G4 in HL|].
    apply Ha, Hrem. split; [|done]. rewrite G5 in HL by done. by exists L.
Qed.

(** ** Addition *)

Lemma settled_same p p' D : settled p D → pending p' = pending p → queue p' = queue p → all p' = all p → priced p' = priced p → settled p' D.
Proof. intros [Hi H1 H2] Ep Eq Ea Epr. split; [by eapply inv_same|by rewrite Ep|by rewrite Eq]. Qed.
Lemma good_same p p' : good p → pending p' = pending p → queue p' = queue p → all p' = all p → priced p' = priced p → good p'.
Proof. rewrite <- !settled_good. apply settled_same. Qed.
Lemma settled_priced p l D : settled p D → ∀ D', pl_heaps l → tracks hash (all p) l D' → settled (set_priced l p) D'.
Proof. intros [Hi H1 H2] D' Hh Ht. split; [by eapply (inv_ext p)|done|done]. Qed.
Lemma settled_forget p x D : settled p (x :: D) → lk_Get (hash x) (all p) = None → settled p D.
Proof.
  intros [Hi H1 H2] Hn. split; [|done|done]. eapply (inv_ext p); [exact Hi|done|done|done|apply Hi|]. eapply (tracks_drop hash); [|unfold lk_GetRemote|apply Hi].
  - rewrite <- Permutation_middle. done.
  - unfold lk_Get in Hn. by destruct (lk_locals (all p) !! hash x).
Qed.
Lemma settled_put p x D : settled p (x :: D) → settled (set_priced (pl_Put x false (priced p)) p) D.
Proof.
  intros Hs. destruct (st_inv _ _ Hs) as [_ _ _ _ _ [Hu Hf] Ht]. destruct (ph_Push_ok x (urgent (priced p)) Hu) as [H1 H2]. eapply (settled_priced p _ (x :: D) Hs); [by split|].
  eapply (tracks_perm hash); [|exact Ht]. unfold pl_entries, pl_Put. cbn. rewrite H2. solve_Permutation.
Qed.
Lemma numSlots_pos tx : 0 ≤ numSlots size tx.
Proof.
  unfold numSlots. pose proof (u64_range (size tx + txSlotSize - 1)) as [Hb1 Hb2]. set (u := u64 _) in *. clearbody u. unfold txSlotSize.
  assert (Hq : 0 ≤ u / (32 * 1024) < 2 ^ 63) by (split; [apply Z.div_pos; lia|apply Z.div_lt_upper_bound; lia]). rewrite i64_small; lia.
Qed.
Lemma slots_pos p X D : inv p X D → 0 ≤ lk_slots (all p).
Proof. intros Hi. rewrite (lo_slots _ _ _ _ (iv_all _ _ _ Hi)). induction (held p X) as [|x l IH]; cbn; [lia|]. pose proof (numSlots_pos x). lia. Qed.
#[local] Abbreviation make_room := (make_room keccak Ecrecover config chainconfig order Now).
Lemma wp_isGapped {E} a tx p (Q : bool → pool → Prop) (QE : E → pool → Prop) : (∀ b n, Q b (set_nonces n p)) → wp (isGapped a tx) Q QE p.
Proof. intros HQ. unfold isGapped. steps. apply wp_next_nonce. intros n. destruct (_ =? _); steps; [done|]. destruct (queue _ !! a); by steps. Qed.
Lemma wp_put_back {E} drop p (QE : E → pool → Prop) : settled p drop → wp (each (fun tx => priced_Put tx false) drop) (fun _ p' => good p' ∧ calm p p') QE p.
Proof.
  intros Hs. eapply wp_mono; [apply (wp_each _ (fun D p' => settled p' D ∧ calm p p'))| |done]; [|done|].
  - intros x D p' [H1 H2]. apply wp_mods. split; [by apply settled_put|done].
  - intros _ p' [H1 H2]. by rewrite <- settled_good.
Qed.
Lemma wp_remove_all {E} drop p (QE : E → pool → Prop) : settled p drop →
  wp (each (fun tx => dropped ← removeTx (hash tx) false; mods (fun p => set_changes (changesSinceReorg p + dropped) p)) drop) (fun _ p' => good p' ∧ calm p p') QE p.
Proof.
  intros Hs. eapply wp_mono; [apply (wp_each _ (fun D p' => settled p' D ∧ calm p p'))| |done]; [|done|].
  - intros x D p' [H1 H2]. step. eapply wp_mono; [by apply (removeTx_ok (hash x) false (x :: D) p')| |done]. intros n p2 (G1 & G2 & G3). steps. split; [|by etrans].
    eapply settled_same; [by apply (settled_forget p2 x)|done..].
  - intros _ p' [H1 H2]. by rewrite <- settled_good.
Qed.
Lemma make_room_ok a tx isLocal p : good p → u64 (GlobalSlots config + GlobalQueue config) < u64 (lk_slots (all p) + numSlots size tx) →
  wp (make_room a tx isLocal) (fun _ p' => good p' ∧ calm p p') (fun _ p' => good p' ∧ calm p p') p.
Proof.
  intros Hg Hfull. unfold TxPool.make_room. step.
  assert (Hunder : wp (E := txpoolError) (if isLocal then mret false else p ← asks id; '(b, l) ← sure (pl_Underpriced hash tx (all p) (priced p)); _ ← mods (set_priced l); mret b)
    (fun _ p' => good p' ∧ calm p p' ∧ all p' = all p) (fun _ _ => False) p).
  { destruct isLocal; steps; [done|]. unfold id. destruct (pl_Underpriced_ok hash (all p) (priced p) tx) as (b & l & E1 & [H1 H2] & _); [split; apply Hg|].
    eapply wp_sure; [exact E1|]. steps. split_and!; try done. apply settled_good, (settled_priced p l []); [by apply settled_good|done|done]. }
  eapply wp_mono; [exact Hunder| |done]. intros under p1 (Hg1 & Hc1 & Ha1). destruct under; [by steps|]. steps. unfold id. destruct (_ <? _); [by steps|]. steps.
  destruct (co_slots Hcfg) as [Hs1 Hs2]. rewrite u64_small in Hfull by (unfold is_u64; lia).
  destruct (pl_Discard_ok hash size (all p1) (priced p1) (lk_slots (all p1) - i64 (u64 (GlobalSlots config + GlobalQueue config)) + numSlots size tx) isLocal) as (drop & ok & l & E1 & H1 & H2 & _ & Hok); [split; apply Hg1| |].
  { rewrite u64_small by (unfold is_u64; lia). rewrite i64_small by lia. rewrite Ha1. pose proof (slots_pos p [] [] (g_inv _ Hg)). pose proof (numSlots_pos tx).
    assert (u64 (lk_slots (all p) + numSlots size tx) ≤ lk_slots (all p) + numSlots size tx) by (apply Z.mod_le; lia). lia. }
  eapply wp_sure; [exact E1|]. steps. set (p2 := set_priced l p1). assert (Hs : settled p2 drop) by (apply (settled_priced p1 l []); [by apply settled_good|done|done]). assert (Hc2 : calm p p2) by done.
  clearbody p2. destruct (negb isLocal && negb ok) eqn:Eok.
  { steps. split; [|done]. apply andb_true_iff in Eok as [_ Eok%negb_true_iff]. subst ok. destruct Hok as [-> _]. by apply settled_good. }
  steps. assert (Hgap : wp (E := txpoolError) (if isLocal then mret false else isGapped a tx) (fun _ p' => settled p' drop ∧ calm p p') (fun _ _ => False) p2).
  { destruct isLocal; steps; [done|]. apply wp_isGapped. intros b n. split; [by eapply settled_same|done]. }
  eapply wp_mono; [exact Hgap| |done]. intros gapped p3 [Hs3 Hc3]. steps. unfold id. destruct (gapped && _).
  - steps. eapply wp_mono; [by apply (wp_put_back drop p3 (fun _ _ => False))| |done]. intros _ p4 [H3 H4]. steps. split; [done|by etrans].
  - eapply wp_mono; [by apply (wp_remove_all drop p3 (fun _ _ => False))| |done]. intros _ p4 [H3 H4]. split; [done|by etrans].
Qed.

(** A new transaction in the lookup and among the prices. *)
Definition fixed p := (gasPrice p, currentState p, currentMaxGas p).
Definition grown tx p p' : Prop := good p' ∧ fixed p' = fixed p ∧ ∀ h t, lk_Get h (all p') = Some t → t = tx ∨ lk_Get h (all p) = Some t.
Lemma calm_fixed p p' : calm p p' → fixed p' = fixed p.
Proof. intros [Hs _]. exact (f_equal fst Hs). Qed.
Lemma lk_Add_grow tx local t h t' : lk_Get h (lk_Add hash size tx local t) = Some t' → t' = tx ∨ lk_Get h t = Some t'.
Proof.
  unfold lk_Add, lk_Get. destruct local; cbn; (destruct (decide (h = hash tx)) as [->|Hne]; [rewrite lookup_insert_eq|rewrite lookup_insert_ne by done; by right]).
  - intros [= <-]. by left.
  - destruct (lk_locals t !! hash tx); intros [= <-]; [by right|by left].
Qed.
Lemma pl_Add_Put t l tx local : pl_ok hash t l → lk_Get (hash tx) t = None → pl_ok hash (lk_Add hash size tx local t) (pl_Put tx local l).
Proof.
  intros Hok Hn. destruct (pl_Put_ok hash t l tx local Hok) as (H1 & H2 & H3). split; [done|]. intros h t'. unfold lk_Add, lk_GetRemote. destruct local; cbn; [apply H2|].
  destruct (decide (h = hash tx)) as [->|Hne]; [rewrite lookup_insert_eq; intros _; rewrite app_nil_r; by apply H3|]. rewrite lookup_insert_ne by done. apply H2.
Qed.
(** The lists hold [tx] and what the lookup held before it. *)
Lemma inv_added q t tx local R : lists_ok true (pending q) → lists_ok false (queue q) → lk_ok t R → lk_Get (hash tx) t = None → all q = lk_Add hash size tx local t →
  held q [] ≡ₚ tx :: R → cell tx ∉ map cell R → NoDup (map cell R) → pl_ok hash (all q) (priced q) → inv q [] [].
Proof.
  intros H1 H2 Ht Hn Ha Hh Hc Hnd [H3 H4]. split; try done.
  - rewrite Ha, Hh. by apply lk_Add_ok.
  - rewrite Hh. cbn. by constructor.
Qed.
Section Insert.
Context (p : pool) (b : bool) (a : Z) (L L' : txlist) (tx : Transaction) (local : bool).
Context (Hi : inv p [] []) (HL : side b p !! a = Some L) (Ha : from tx = a) (Hr : ∃ l, list_rep L' l) (Hs : strict L' = b) (Hnew : lk_Get (hash tx) (all p) = None).
Lemma side_lists q rest : side b q = <[a := L']> (side b p) → side (negb b) q = side (negb b) p → items_of L' ≡ₚ tx :: rest → (∀ x, x ∈ rest → x ∈ items_of L) → lists_ok true (pending q) ∧ lists_ok false (queue q).
Proof using Type*.
  intros Eb En Hit Hrest. destruct (inv_side _ _ _ b Hi a L HL) as (_ & _ & Hf). assert (Hq : lists_ok b (side b q)).
  { rewrite Eb. apply lists_insert; try done; [by apply (inv_side _ [] [])|]. rewrite Hit. constructor; [done|]. rewrite Forall_forall in *. auto. }
  assert (Hq' : lists_ok (negb b) (side (negb b) q)) by (rewrite En; by apply (inv_side _ [] [])). by destruct b.
Qed.
(** In the place of an old transaction. *)
Lemma inv_swap q old rest : items_of L ≡ₚ old :: rest → items_of L' ≡ₚ tx :: rest → tx_nonce tx = tx_nonce old → side b q = <[a := L']> (side b p) → side (negb b) q = side (negb b) p →
  all q = lk_Add hash size tx local (lk_Remove size (hash old) (all p)) → pl_ok hash (all q) (priced q) → inv q [] [].
Proof using Type*.
  intros Hold Hit Hn Eb En Eq Hpl. destruct (side_lists q rest Eb En Hit) as [H1 H2]; [intros x Hx; rewrite Hold; by right|].
  set (R := rest ++ contents (delete a (side b p)) ++ contents (side (negb b) p)).
  assert (HP : held p [] ≡ₚ old :: R) by (rewrite (held_side p [] b), (contents_delete _ _ _ HL), Hold; unfold R; solve_Permutation).
  assert (HQ : held q [] ≡ₚ tx :: R) by (rewrite (held_side q [] b), Eb, En, (contents_update _ _ _ L' HL), Hit; unfold R; solve_Permutation).
  assert (Ec : cell tx = cell old). { unfold cell. rewrite Hn, Ha. destruct (inv_side _ _ _ b Hi a L HL) as (_ & _ & Hf). rewrite Hold in Hf. apply Forall_cons in Hf as [-> _]. done. }
  pose proof (iv_cells _ _ _ Hi) as Hnd. rewrite HP in Hnd. cbn [map] in Hnd. apply NoDup_cons in Hnd as [Hnd1 Hnd2].
  apply (inv_added q (lk_Remove size (hash old) (all p)) tx local R); try done; [apply lk_Remove_ok; rewrite <- HP; apply Hi|rewrite lk_Remove_get; by destruct (decide _)|by rewrite Ec].
Qed.
(** In a place of its own. *)
Lemma inv_fresh q : items_of L' ≡ₚ tx :: items_of L → cell tx ∉ map cell (held p []) → side b q = <[a := L']> (side b p) → side (negb b) q = side (negb b) p →
  all q = lk_Add hash size tx local (all p) → pl_ok hash (all q) (priced q) → inv q [] [].
Proof using Type*.
  intros Hit Hc Eb En Eq Hpl. destruct (side_lists q (items_of L) Eb En Hit) as [H1 H2]; [done|].
  apply (inv_added q (all p) tx local (held p [])); try done; [apply Hi| |apply Hi].
  rewrite (held_side q [] b), (held_side p [] b), Eb, En, (contents_update _ _ _ L' HL), (contents_delete _ _ _ HL), Hit. solve_Permutation.
Qed.
End Insert.

Lemma grown_calm tx p p' : good p' → calm p p' → grown tx p p'.
Proof. intros Hg Hc. split_and!; [done|by apply calm_fixed|]. intros h t Ht. right. by apply Hc. Qed.
Lemma calm_grown tx p p1 p2 : calm p p1 → grown tx p1 p2 → grown tx p p2.
Proof. intros Hc (G1 & G2 & G3). split_and!; [done|rewrite G2; by apply calm_fixed|]. intros h t Ht. destruct (G3 h t Ht) as [->|H]; [by left|right; by apply Hc]. Qed.
Lemma Contains_rep n L l : list_rep L l → list_Contains n L = bool_decide (is_Some (at_nonce n l)).
Proof. intros Hl. unfold list_Contains. rewrite (sm_Get_rep _ _ _ (lr_txs _ _ Hl)). by destruct (at_nonce n l). Qed.
(** The old transaction leaves the lookup, which the prices hear of. *)
Lemma wp_unlist {E} old p c Q (QE : E → pool → Prop) : lk_ok (lk_Remove size (hash old) (all p)) c → pl_ok hash (all p) (priced p) →
  (∀ n pl, pl_ok hash (lk_Remove size (hash old) (all p)) pl → Q tt (set_priced pl (set_ticks n (set_all (lk_Remove size (hash old) (all p)) p)))) →
  wp (all_Remove (hash old)) (fun _ => wp (priced_Removed order 1) Q QE) QE p.
Proof.
  intros Hc Hpl HQ. apply wp_mods. eapply wp_priced_Removed; [exact Hc|split; [apply Hpl|exact (lk_Remove_tracks p (hash old) [] (proj2 Hpl))]|]. intros l n Hl. by apply HQ.
Qed.
Lemma pl_exchange t l tx local old : pl_ok hash (lk_Remove size (hash old) t) l → lk_Get (hash tx) t = None →
  pl_ok hash (lk_Add hash size tx local (lk_Remove size (hash old) t)) (pl_Put tx local l).
Proof. intros Hl Hn. apply pl_Add_Put; [done|]. rewrite lk_Remove_get. by destruct (decide _). Qed.
Lemma exchange_grow tx local old t h x : lk_Get h (lk_Add hash size tx local (lk_Remove size (hash old) t)) = Some x → x = tx ∨ lk_Get h t = Some x.
Proof. intros [->|Hx]%lk_Add_grow; [by left|right; by apply lk_Remove_sub in Hx]. Qed.
#[local] Abbreviation replace_pending := (replace_pending keccak config order Now).
Lemma replace_pending_ok tx local p L l : good p → pending p !! from tx = Some L → list_rep L l → is_Some (at_nonce (tx_nonce tx) l) → is_u64 (tx_nonce tx) → lk_Get (hash tx) (all p) = None →
  wp (replace_pending (from tx) tx local) (fun _ => grown tx p) (fun _ => grown tx p) p.
Proof.
  intros Hg HL Hl [old Hold] Hu Hnew. pose proof Hg as [Hi Hnp Hnq]. destruct (inv_side _ _ _ true Hi _ L HL) as (_ & Hst & _). unfold TxPool.replace_pending. steps.
  pose proof (at_nonce_elem _ _ _ Hold) as [Hin Hon]. rewrite <- (items_rep _ _ Hl) in Hin. destruct (held_in p [] true _ L old Hi HL Hin) as (_ & _ & _ & c & _ & Hc).
  destruct (list_Add_old (order 0%nat Transaction) L l tx (PriceBump config) old Hl Hu Hold) as (L' & Hs & [(E1 & Hr & rest & I1 & I2)|(E1 & Hr)]); (eapply wp_with_pending; [exact HL|exact E1|]); cbn [negb].
  - steps. eapply wp_unlist; [exact Hc|split; apply Hi|]. intros n pl Hpl. unfold all_Add, priced_Put, beat. steps. split_and!; [split|done|intros h x; apply exchange_grow].
    + eapply (inv_swap p true (from tx) L L' tx local Hi HL eq_refl); try done; [by exists (ins tx l)|congruence|by apply pl_exchange].
    + eapply nonempty_put; [exact Hnp|exact I2].
    + done.
  - steps. apply grown_calm; [split|done]; [|apply (nonempty_same (pending p)); [|done]; apply same_items_insert with L; [done|by rewrite (items_rep _ _ Hl), (items_rep _ _ Hr)]|done].
    apply (side_take p [] [] true (from tx) L L' []); [done|done|by rewrite (items_rep _ _ Hl), (items_rep _ _ Hr)|by exists l|congruence].
Qed.
Lemma wp_beat_once {E} a (o : option Z) p Q (QE : E → pool → Prop) : (∀ n bs, Q tt (set_beats bs (set_ticks n p))) → wp (match o with Some _ => mret tt | None => beat Now a end) Q QE p.
Proof. intros HQ. destruct o; unfold beat; steps; [|done]. specialize (HQ (ticks p) (beats p)). by destruct p. Qed.
Lemma cell_fresh p D tx : inv p [] D → (∀ b L, side b p !! from tx = Some L → ∃ l, list_rep L l ∧ at_nonce (tx_nonce tx) l = None) → cell tx ∉ map cell (held p []).
Proof.
  intros Hi Hn (t & Hc & Ht)%list_elem_of_fmap. unfold held in Ht. rewrite app_nil_r, elem_of_app in Ht. assert (Hb : ∃ b, t ∈ contents (side b p)) by (destruct Ht; [by exists true|by exists false]).
  destruct Hb as (b & (a & L & HL & Hx)%contents_elem). destruct (inv_side _ _ _ b Hi a L HL) as (_ & _ & Hf). rewrite Forall_forall in Hf. pose proof (Hf t Hx) as Hta. injection Hc as Hc1 Hc2.
  rewrite <- Hta, <- Hc1 in HL. destruct (Hn b L HL) as (l & Hl & Hnone). rewrite (items_rep _ _ Hl) in Hx. rewrite Hc2, (at_nonce_in l t (rep_sorted _ _ Hl) Hx) in Hnone. done.
Qed.
(** The queue has nothing at the nonce, or replaces it, or refuses. *)
Lemma enqueue_new tx local p : good p → (∀ L l, pending p !! from tx = Some L → list_rep L l → at_nonce (tx_nonce tx) l = None) → is_u64 (tx_nonce tx) → lk_Get (hash tx) (all p) = None →
  wp (enqueueTx tx local true) (fun _ p' => grown tx p p' ∧ locals p' = locals p) (fun _ => grown tx p) p.
Proof.
  intros [Hi Hnp Hnq] Hpend Hu Hnew. unfold TxPool.enqueueTx. steps. destruct (side_ensure false p [] [] (from tx) Hi) as (L & HiL & HitL & E0). cbn [side set_side] in *. rewrite E0. clear E0.
  set (p1 := set_queue _ p) in *. assert (Hq : queue p1 !! from tx = Some L) by apply lookup_insert_eq. destruct (inv_side _ _ _ false HiL _ L Hq) as ((l & Hl) & Hst & _).
  assert (Hne : nonempty (delete (from tx) (queue p1))) by (apply (nonempty_others (from tx) (queue p)); [done|]; intros b Hb; by apply lookup_insert_ne).
  assert (Hadd : ∀ L' t pl q old, items_of L' ≡ₚ tx :: old → inv q [] [] → pending q = pending p → queue q = <[from tx := L']> (queue p1) → lk_sub t (all p) → all q = lk_Add hash size tx local t →
    fixed q = fixed p → priced q = pl → grown tx p q).
  { intros L' t pl q old HI Hq' Ep Eq Hsub Ea Ef _. split_and!; [split; [done|by rewrite Ep|]|done|].
    - rewrite Eq. apply nonempty_insert; [done|]. intros He. rewrite He in HI. by apply Permutation_nil_cons in HI.
    - rewrite Ea. intros h x [->|Hx]%lk_Add_grow; [by left|right; by apply Hsub]. }
  destruct (at_nonce (tx_nonce tx) l) as [old|] eqn:Hold.
  - pose proof (at_nonce_elem _ _ _ Hold) as [Hin Hon]. rewrite <- (items_rep _ _ Hl) in Hin. destruct (held_in p1 [] false _ L old HiL Hq Hin) as (_ & _ & _ & c & _ & Hc).
    destruct (list_Add_old (order 0%nat Transaction) L l tx (PriceBump config) old Hl Hu Hold) as (L' & Hs & [(E1 & Hr & rest & I1 & I2)|(E1 & Hr)]); (eapply wp_with_queue; [exact Hq|exact E1|]); cbn [negb].
    + steps. eapply wp_unlist; [exact Hc|split; apply Hi|]. intros n pl Hpl. unfold all_Add, priced_Put. steps. apply wp_beat_once. intros n' bs. steps. split; [|done].
      eapply (Hadd L' (lk_Remove size (hash old) (all p)) _ _ rest I2); try done; [|apply lk_Remove_sub].
      eapply (inv_swap p1 false (from tx) L L' tx local HiL Hq eq_refl); try done; [by exists (ins tx l)|congruence|by apply pl_exchange].
    + steps. apply grown_calm; [|done]. assert (Hi' : items_of L' ≡ₚ items_of L) by (by rewrite (items_rep _ _ Hl), (items_rep _ _ Hr)).
      split; [apply (side_take p1 [] [] false (from tx) L L' []); [done|done|by rewrite Hi'|by exists l|congruence]|done|].
      apply nonempty_insert; [done|]. intros He. rewrite He in Hi'. symmetry in Hi'. apply Permutation_nil_r in Hi'. rewrite Hi' in Hin. by apply elem_of_nil in Hin.
  - destruct (list_Add_new (order 0%nat Transaction) L l tx (PriceBump config) Hl Hu Hold) as (L' & E1 & Hs & Hr & I1). eapply wp_with_queue; [exact Hq|exact E1|]. cbn [negb]. steps. unfold all_Add, priced_Put. steps.
    apply wp_beat_once. intros n bs. steps. split; [|done]. eapply (Hadd L' (all p) _ _ (items_of L) I1); try done.
    eapply (inv_fresh p1 false (from tx) L L' tx local HiL Hq eq_refl); try done; [by exists (ins tx l)|congruence| |apply pl_Add_Put; [split; apply Hi|done]].
    apply (cell_fresh p1 [] tx HiL). intros [] L2 HL2; cbn [side] in HL2; [|rewrite Hq in HL2; injection HL2 as <-; by exists l].
    destruct (inv_side _ _ _ true Hi _ L2 HL2) as ((l2 & Hl2) & _). exists l2. split; [done|by eapply Hpend].
Qed.

#[local] Abbreviation add := (add keccak Ecrecover config chainconfig order Now).
#[local] Abbreviation validateTx := (validateTx keccak Ecrecover chainconfig).
Lemma wp_pure_out {E A} (o : outcome E A) p (Q : A → pool → Prop) (QE : E → pool → Prop) : o ≠ Panic → (∀ a, Q a p) → (∀ e, QE e p) → wp (pure_out o) Q QE p.
Proof. intros Hp HQ HE. unfold wp, pure_out. destruct o; [apply HQ|apply HE|done]. Qed.
Lemma validateTx_total tx p : validateTx tx p ≠ Panic.
Proof.
  unfold TxPool.validateTx, check. cbv [mbind outcome_bind]. by repeat case_match; simplify_eq.
Qed.
Lemma inv_all p t X D : inv p X D → lk_ok t (held p X) → lk_remotes t ⊆ lk_remotes (all p) → inv (set_all t p) X D.
Proof. intros [H1 H2 H3 H4 H5 H6 H7] Ht Hs. split; try done. by eapply tracks_shrink. Qed.
(** The sender of a local transaction becomes local, with what it has. *)
Lemma make_local tx p p1 a replaced : grown tx p p1 →
  wp (E := txpoolError) (_ ← mods (fun p => set_locals (as_add a (locals p)) p); n ← tick; p ← asks id;
      let '(migrated, t) := lk_RemoteToLocals (tx_Sender keccak Ecrecover chainconfig) (order n Transaction) (locals p) (all p) in
      _ ← mods (set_all t); priced_Removed order migrated)
    (fun _ => wp (E := txpoolError) (mret replaced) (fun (_ : bool) => grown tx p) (fun _ => grown tx p)) (fun _ => grown tx p) p1.
Proof.
  intros (Hg & Hf & Hgr). steps. unfold id. set (p2 := set_ticks _ _).
  destruct (lk_RemoteToLocals_ok hash size (tx_Sender keccak Ecrecover chainconfig) (order (ticks p1) Transaction) (Horder _ _) (locals p2) (all p2) (held p1 []) (iv_all _ _ _ (g_inv _ Hg))) as [Ht Hs].
  change (ticks (set_locals (as_add a (locals p1)) p1)) with (ticks p1). destruct (lk_RemoteToLocals _ _ _ _) as [migrated t]. cbn [snd] in *. steps.
  assert (Hi2 : inv (set_all t p2) [] []). { apply inv_all; [eapply inv_same; [apply Hg|done..]|done|done]. }
  eapply wp_priced_Removed; [apply Hi2|split; apply Hi2|]. intros l k Hl. steps. split_and!; [split; [by apply inv_priced|apply Hg|apply Hg]|done|].
  intros h x Hx. apply Hgr. cbn [all set_priced set_ticks set_all] in Hx. apply (lk_Get_iff hash size t (held p1 []) h x Ht) in Hx. by apply (lk_Get_iff hash size (all p1) (held p1 []) h x (iv_all _ _ _ (g_inv _ Hg))).
Qed.
Lemma add_ok tx local p : good p → is_u64 (tx_nonce tx) → wp (add tx local) (fun _ => grown tx p) (fun _ => grown tx p) p.
Proof.
  intros Hg Hu. unfold TxPool.add. steps. unfold id. case_bool_decide as Hknown; [steps; by apply grown_calm|]. assert (Hnone : lk_Get (hash tx) (all p) = None) by (by destruct (lk_Get (hash tx) (all p)); [destruct Hknown|]).
  steps. apply wp_pure_out; [apply validateTx_total| |intros _; by apply grown_calm]. intros _. steps. set (isLocal := local || _).
  eapply (wp_mono _ (fun _ p1 => good p1 ∧ calm p p1) _ (fun _ p1 => good p1 ∧ calm p p1)); [| |intros e p1 [H1 H2]; by apply grown_calm].
  { destruct (_ <? _) eqn:Efull; [apply Z.ltb_lt in Efull; by apply make_room_ok|by steps]. }
  intros _ p1 [Hg1 Hc1]. assert (Hnone1 : lk_Get (hash tx) (all p1) = None).
  { destruct (lk_Get (hash tx) (all p1)) as [t|] eqn:Et; [|done]. apply Hc1 in Et. congruence. }
  steps. eapply (wp_mono _ (fun _ => grown tx p1) _ (fun _ => grown tx p1)); [|intros b p2; by apply calm_grown|intros e p2; by apply calm_grown].
  destruct (match pending p1 !! from tx with Some l => list_Contains (tx_nonce tx) l | None => false end) eqn:Epend.
  - destruct (pending p1 !! from tx) as [L|] eqn:HL; [|done]. destruct (inv_side _ _ _ true (g_inv _ Hg1) _ L HL) as ((l & Hl) & _).
    rewrite (Contains_rep _ _ _ Hl) in Epend. apply bool_decide_eq_true in Epend. by eapply replace_pending_ok.
  - steps. eapply wp_mono; [apply enqueue_new; try done| |done].
    { intros L l HL Hl. rewrite HL, (Contains_rep _ _ _ Hl) in Epend. apply bool_decide_eq_false in Epend. by destruct (at_nonce _ l); [destruct Epend|]. }
    intros replaced p2 [Hgr Hloc]. steps. destruct (local && _); [|by steps]. by apply make_local.
Qed.

(** ** Batches *)

Definition known p : Z := zlen (held p []).
Lemma held_nodup p : good p → NoDup (held p []).
Proof. intros Hg. apply (NoDup_fmap_1 cell). apply (iv_cells _ _ _ (g_inv _ Hg)). Qed.
Lemma known_sub p p' l : good p' → (∀ t, t ∈ held p' [] → t ∈ l) → known p' ≤ zlen l.
Proof. intros Hg Hs. unfold known, zlen. apply inj_le. apply submseteq_length, NoDup_submseteq; [by apply held_nodup|done]. Qed.
Lemma known_calm p p' : good p → good p' → calm p p' → known p' ≤ known p.
Proof.
  intros Hg Hg' [_ Hs]. apply (known_sub p); [done|]. intros t Ht. apply (lk_Get_hash hash size (all p')) in Ht; [|apply Hg']. apply Hs in Ht. by apply (lk_Get_iff hash size _ (held p [])) in Ht as [Ht _]; [|apply Hg].
Qed.
Lemma known_grown tx p p' : good p → grown tx p p' → known p' ≤ known p + 1.
Proof.
  intros Hg (Hg' & _ & Hs). etrans; [apply (known_sub p p' (tx :: held p []) Hg')|unfold known, zlen; cbn [length]; lia].
  intros t Ht. apply (lk_Get_hash hash size (all p')) in Ht; [|apply Hg']. apply Hs in Ht as [->|Ht]; [by left|right]. by apply (lk_Get_iff hash size _ (held p [])) in Ht as [Ht _]; [|apply Hg].
Qed.
#[local] Abbreviation addTxsLocked := (addTxsLocked keccak Ecrecover config chainconfig order Now).
Definition nonces_ok (txs : list Transaction) : Prop := Forall (fun tx => is_u64 (tx_nonce tx)) txs.
Lemma addTxsLocked_ok {E} (QE : E → pool → Prop) local txs : ∀ dirty p, good p → nonces_ok txs →
  wp (addTxsLocked txs local dirty) (fun r p' => good p' ∧ fixed p' = fixed p ∧ known p' ≤ known p + zlen txs ∧ length r.1 = length txs) QE p.
Proof.
  induction txs as [|tx txs IH]; intros dirty p Hg Hu; cbn [TxPool.addTxsLocked]; [steps; split_and!; try done; unfold zlen; cbn; lia|]. apply Forall_cons in Hu as [Hu1 Hu]. step.
  pose proof (add_ok tx local p Hg Hu1) as Hadd. assert (Hone : ∀ dirty, wp (E := E) (fun p => match add tx local p with
      | (Ok replaced, p) => (Ok (None, if replaced : bool then dirty else as_addTx (tx_Sender keccak Ecrecover chainconfig) tx dirty), p)
      | (Err e, p) => (Ok (Some e, dirty), p) | (Panic, p) => (Panic, p) end) (fun _ => grown tx p) QE p).
  { intros d. unfold wp in *. destruct (add tx local p) as [[r|e|] p1]; done. }
  eapply wp_mono; [apply Hone| |done]. intros [err d] p1 Hgr. cbn beta iota. step. eapply wp_mono; [apply IH; [apply Hgr|done]| |done]. intros [errs d2] p2 (G1 & G2 & G3 & G4). steps. cbn [fst] in *.
  pose proof (known_grown tx p p1 Hg Hgr). destruct Hgr as (_ & Hf & _). split_and!; [done|congruence|unfold zlen in *; cbn [length]; lia|cbn; lia].
Qed.
Lemma merge_errs_ok {E} errs : ∀ news, length news = length (base.filter (fun e => e = None) errs) → ∃ r, merge_errs (E := E) errs news = Ok r.
Proof.
  induction errs as [|e errs IH]; intros news Hl; [destruct news; [by exists []|done]|]. rewrite filter_cons in Hl. destruct e as [e|]; cbn [decide] in Hl.
  - destruct news as [|n news]; [by eexists|]. rewrite decide_False in Hl by done. destruct (IH _ Hl) as [r Hr]. exists (Some e :: r). cbn. by rewrite Hr.
  - rewrite decide_True in Hl by done. destruct news as [|n news]; [done|]. cbn in Hl. destruct (IH news ltac:(lia)) as [r Hr]. exists (n :: r). cbn. by rewrite Hr.
Qed.

Context (Hrecover : ∀ h sig, Ecrecover h sig ≠ Panic).
Lemma bind_total {E A B} (o : outcome E A) (f : A → outcome E B) : o ≠ Panic → (∀ a, f a ≠ Panic) → (o ≫= f) ≠ Panic.
Proof. intros Ho Hf. by destruct o; [apply Hf|..]. Qed.
Lemma check_total b e : check b e ≠ Panic.
Proof. by destruct b. Qed.
Lemma validateTxBasics_total tx local p : validateTxBasics keccak Ecrecover chainconfig tx local p ≠ Panic.
Proof.
  pose proof (Sender_no_panic keccak Ecrecover (pool_signer chainconfig) (inner tx) Hrecover) as Hs. unfold validateTxBasics.
  do 10 (apply bind_total; [apply check_total|intros _]). apply bind_total; [unfold tx_Sender; by destruct (Signer_Sender _ _ _ _)|intros _]. apply bind_total; [apply check_total|intros _].
  apply bind_total; [|intros g; apply check_total].
  match goal with |- context [IntrinsicGas ?a ?b ?c ?d ?e ?f] => pose proof (IntrinsicGas_no_panic a b c d e f); by destruct (IntrinsicGas a b c d e f) end.
Qed.
Lemma prefilter_ok txs local p : ∃ errs, prefilter keccak Ecrecover chainconfig txs local p = Ok errs ∧ length errs = length txs.
Proof.
  unfold prefilter. induction txs as [|tx txs (errs & IH & Hl)]; [by exists []|]. cbn [mapM]. case_bool_decide.
  - exists (Some ErrAlreadyKnown :: errs). cbn [mbind outcome_bind length]. rewrite IH. cbn. by rewrite Hl.
  - pose proof (validateTxBasics_total tx local p) as Hv. destruct (validateTxBasics _ _ _ tx local p) as [[]|e|] eqn:E; [exists (None :: errs)|exists (Some e :: errs)|done]; cbn [mbind outcome_bind length]; rewrite IH; cbn; by rewrite Hl.
Qed.
Lemma news_length (txs : list Transaction) : ∀ errs : list (option txpoolError), length errs = length txs → length (map fst (base.filter (fun te => te.2 = None) (zip txs errs))) = length (base.filter (fun e => e = None) errs).
Proof.
  induction txs as [|tx txs IH]; intros [|e errs] Hl; try done. cbn [zip zip_with]. rewrite !filter_cons. cbn [snd]. case_decide; cbn; rewrite IH; auto.
Qed.
Lemma addTxs_ok txs local p : good p → nonces_ok txs →
  wp (addTxs keccak Ecrecover config chainconfig order Now txs local) (fun _ p' => good p' ∧ fixed p' = fixed p ∧ known p' ≤ known p + zlen txs) (fun _ _ => False) p.
Proof.
  intros Hg Hu. unfold addTxs. steps. unfold id. destruct (prefilter_ok txs local p) as (errs & E1 & Hl). rewrite E1. apply (wp_pure_ok _ errs); [done|]. set (news := map fst _). assert (Hlen : (length news ≤ length txs)%nat).
  { unfold news. rewrite length_map. etrans; [apply length_filter|]. rewrite length_zip_with. lia. }
  pose proof (news_length txs errs Hl) as Hn. fold news in Hn. assert (Hnews : nonces_ok news).
  { unfold news, nonces_ok in *. rewrite Forall_forall in *. intros x ([y e] & -> & [_ Hy]%list_elem_of_filter)%list_elem_of_fmap. apply Hu. cbn. by apply elem_of_zip_l in Hy. }
  clearbody news. destruct news as [|n l] eqn:En; [steps; split_and!; [done|done|unfold zlen; lia]|]. rewrite <- En in *. step.
  eapply wp_mono; [by apply (addTxsLocked_ok (fun _ _ => False))| |done]. intros [errs2 dirty] p2 (G1 & G2 & G3 & G4). steps. destruct (merge_errs_ok (E := txpoolError) errs errs2) as [r Hr]; [cbn in G4; lia|].
  rewrite Hr. apply (wp_pure_ok _ r); [done|]. steps. split_and!; [done|done|unfold zlen in *; lia].
Qed.

(** ** A new head *)

(** What the pool relies on the chain for: a block that is found under a number
    has it, numbers end before the last 64-bit one, and nonces have 64 bits. *)
Record chain_ok : Prop := {
  ch_number h n b : GetBlock h n = Some b → Number (b_header b) = Some n ∧ 0 ≤ n < 2 ^ 64 - 1;
  ch_nonces h n b : GetBlock h n = Some b → nonces_ok (b_transactions b)
}.
Context (Hchain : chain_ok).
Definition block_at (n : Z) (b : Block Transaction Wd) : Prop := Number (b_header b) = Some n ∧ 0 ≤ n < 2 ^ 64 - 1 ∧ nonces_ok (b_transactions b).
Lemma found_block h n b : GetBlock h n = Some b → block_at n b.
Proof. intros H. destruct (ch_number Hchain h n b H). split_and!; try done; try lia. by apply (ch_nonces Hchain h n). Qed.
Lemma block_NumberU64 {E} n b : block_at n b → NumberU64 (E := E) b = Ok n.
Proof. intros (H1 & H2 & _). unfold NumberU64, Number_Uint64. rewrite H1. cbn. f_equal. unfold big_Uint64. rewrite Z.abs_eq, Z.mod_small; lia. Qed.
Lemma parent_block n b b' : 1 ≤ n → block_at n b → parent_of GetBlock b n = Some b' → block_at (n - 1) b'.
Proof. intros Hn (_ & H2 & _) H. unfold parent_of in H. rewrite u64_small in H by (unfold is_u64; lia). by apply found_block in H. Qed.
Lemma genesis_parent b b' : parent_of GetBlock b 0 = Some b' → False.
Proof. intros H. unfold parent_of in H. apply found_block in H as (_ & H & _). change (u64 (0 - 1)) with (2 ^ 64 - 1) in H. lia. Qed.
Lemma nonces_app l l' : nonces_ok l → nonces_ok l' → nonces_ok (l ++ l').
Proof. intros H1 H2. by apply Forall_app. Qed.
Lemma descend_ok {E} fuel : ∀ n b low txs, block_at n b → 0 ≤ low → nonces_ok txs → Z.max 0 (n - low) < Z.of_nat fuel →
  ∃ r, descend (E := E) GetBlock fuel b low txs = Ok r ∧ ∀ b' txs', r = Some (b', txs') → block_at (Z.min n low) b' ∧ nonces_ok txs'.
Proof.
  induction fuel as [|fuel IH]; intros n b low txs Hb Hlow Htx Hf; [lia|]. cbn [descend]. rewrite (block_NumberU64 n b Hb). cbn [mbind outcome_bind]. destruct (Z.leb_spec n low) as [Hle|Hgt].
  - eexists. split; [reflexivity|]. intros b' txs' [= <- <-]. by rewrite Z.min_l.
  - destruct (parent_of GetBlock b n) as [b1|] eqn:Ep; [|by eexists]. pose proof (parent_block n b b1 ltac:(lia) Hb Ep) as Hb1.
    destruct (IH (n - 1) b1 low (txs ++ b_transactions b) Hb1 Hlow) as (r & Hr & Hres); [apply nonces_app; [done|apply Hb]|lia|]. exists r. split; [done|].
    intros b' txs' E0. destruct (Hres b' txs' E0) as [H1 H2]. split; [|done]. by replace (Z.min n low) with (Z.min (n - 1) low) by lia.
Qed.
Lemma common_ok {E} fuel : ∀ n rem add d i, block_at n rem → block_at n add → nonces_ok d → n + 1 < Z.of_nat fuel →
  ∃ r, common (E := E) keccak GetBlock fuel rem add d i = Ok r ∧ ∀ d' i', r = Some (d', i') → nonces_ok d'.
Proof.
  induction fuel as [|fuel IH]; intros n rem add d i Hr Ha Hd Hf; [destruct Hr as (_ & Hr & _); lia|]. cbn [common]. destruct (_ =? _); [eexists; split; [reflexivity|]; by intros d' i' [= <- <-]|].
  rewrite (block_NumberU64 n rem Hr). cbn [mbind outcome_bind]. destruct (parent_of GetBlock rem n) as [rem'|] eqn:Er; [|by eexists].
  rewrite (block_NumberU64 n add Ha). cbn [mbind outcome_bind]. destruct (parent_of GetBlock add n) as [add'|] eqn:Ea; [|by eexists].
  assert (Hn : 1 ≤ n). { destruct (decide (n = 0)) as [->|]; [by apply genesis_parent in Er|]. destruct Hr as (_ & Hr & _). lia. }
  apply (IH (n - 1)); [by apply (parent_block n rem)|by apply (parent_block n add)|apply nonces_app; [done|apply Hr]|lia].
Qed.
(** The new head is a block of the chain and its successor has a base fee. *)
Record head_ok (h : Header) : Prop := {
  hd_number : is_Some (Number h);
  hd_block n : Number h = Some n → is_Some (GetBlock (Header_Hash keccak h) (big_Uint64 n));
  hd_fee n : Number h = Some n → IsLondon chainconfig (Some (n + 1)) = true → ∃ f, CalcBaseFee chainconfig h = Ok f
}.
Definition request_ok (oldHead newHead : option Header) : Prop := (∀ old, oldHead = Some old → is_Some (Number old)) ∧ ∃ new, newHead = Some new ∧ head_ok new.
Lemma reinjected_ok {E} old new : is_Some (Number old) → head_ok new →
  ∃ r, reinjected (E := E) keccak GetBlock old new = Ok r ∧ ∀ txs, r = Some txs → nonces_ok txs.
Proof.
  intros [on Hon] [[nn Hnn] Hblock _]. unfold reinjected. rewrite Hon, Hnn. cbn [deref mbind outcome_bind]. destruct (64 <? _); [eexists; split; [reflexivity|]; intros txs [= <-]; constructor|].
  destruct (GetBlock (Header_Hash keccak old) (big_Uint64 on)) as [rem|] eqn:Er; [|destruct (_ <=? _); eexists; (split; [reflexivity|]); [done|intros txs [= <-]; constructor]].
  destruct (Hblock nn Hnn) as [add Ea]. rewrite Ea. cbn [deref mbind outcome_bind]. apply found_block in Er, Ea. set (r := big_Uint64 on) in *. set (a := big_Uint64 nn) in *.
  rewrite (block_NumberU64 r rem Er), (block_NumberU64 a add Ea). cbn [mbind outcome_bind]. pose proof Er as (_ & Hr0 & _). pose proof Ea as (_ & Ha0 & _).
  destruct (descend_ok (E := E) (S (Z.to_nat r)) r rem a [] Er ltac:(lia) ltac:(constructor) ltac:(lia)) as ([[rem1 d1]|] & -> & H1); cbn [mbind outcome_bind]; [|by eexists].
  destruct (H1 _ _ eq_refl) as [Hb1 Hd1]. rewrite (block_NumberU64 _ rem1 Hb1). cbn [mbind outcome_bind].
  destruct (descend_ok (E := E) (S (Z.to_nat a)) a add (Z.min r a) [] Ea ltac:(lia) ltac:(constructor) ltac:(lia)) as ([[add1 i1]|] & -> & H2); cbn [mbind outcome_bind]; [|by eexists].
  destruct (H2 _ _ eq_refl) as [Hb2 _]. replace (Z.min a (Z.min r a)) with (Z.min r a) in Hb2 by lia.
  destruct (common_ok (E := E) (S (S (Z.to_nat (Z.min r a)))) (Z.min r a) rem1 add1 d1 i1 Hb1 Hb2 Hd1 ltac:(lia)) as ([[d2 i2]|] & -> & H3); cbn [mbind outcome_bind]; [|by eexists].
  eexists. split; [reflexivity|]. intros txs [= <-]. specialize (H3 _ _ eq_refl). unfold nonces_ok in *. rewrite Forall_forall in *. intros x [_ Hx]%list_elem_of_filter. by apply H3.
Qed.
(** The transactions that a reset brings back. *)
Definition returned {E} (oldHead newHead : option Header) : list Transaction :=
  match oldHead, newHead with
  | Some old, Some new => if Header_Hash keccak old =? ParentHash new then [] else match reinjected (E := E) keccak GetBlock old new with Ok (Some txs) => txs | _ => [] end
  | _, _ => []
  end.
(** The two branches of a reset: the new head continues the old one, or there is
    no old head, or every block that the search for a common ancestor asks for
    is found (or it is not made, for a reorganisation of more than 64 blocks or
    one to a lower block after the old head is gone). *)
Definition branches_found {E} (oldHead : option Header) (new : Header) : Prop :=
  ∀ old, oldHead = Some old → Header_Hash keccak old = ParentHash new ∨ reinjected (E := E) keccak GetBlock old new ≠ Ok None.
(** Where the pool stands after a reset: at the state and the gas limit of the
    new head, or where it stood when a block or the state is missing. *)
Definition moved {E} (oldHead : option Header) (new : Header) p p' : Prop :=
  (branches_found (E := E) oldHead new → ∀ st, StateAt (Root new) = Some st → currentState p' = st ∧ currentMaxGas p' = GasLimit new) ∧
  (¬ branches_found (E := E) oldHead new ∨ StateAt (Root new) = None → currentState p' = currentState p ∧ currentMaxGas p' = currentMaxGas p).
Lemma moved_fixed {E} o h p p1 p2 : fixed p2 = fixed p1 → moved (E := E) o h p p1 → moved (E := E) o h p p2.
Proof. intros Hf [H1 H2]. pose proof (f_equal (fun x => x.1.2) Hf : currentState p2 = _) as E1. pose proof (f_equal snd Hf : currentMaxGas p2 = _) as E2. unfold moved. by rewrite E1, E2. Qed.
#[local] Abbreviation reset := (reset keccak Ecrecover config chainconfig order Now GetBlock StateAt CurrentBlock).
Lemma reset_ok {E} oldHead newHead p (QE : E → pool → Prop) : good p → request_ok oldHead newHead →
  wp (reset oldHead newHead) (fun _ p' => good p' ∧ known p' ≤ known p + zlen (returned (E := E) oldHead newHead) ∧ ∀ h, newHead = Some h → moved (E := E) oldHead h p p') QE p.
Proof.
  intros Hg (Hold & new & -> & Hnew). unfold TxPool.reset. step.
  assert (Hre : ∃ r, (match oldHead with None => Ok (Some []) | Some old => new ← deref (Some new); if Header_Hash keccak old =? ParentHash new then Ok (Some []) else reinjected keccak GetBlock old new end) = Ok (E := E) r ∧
    (∀ txs, r = Some txs → nonces_ok txs ∧ txs = returned (E := E) oldHead (Some new)) ∧ (r = None ↔ ¬ branches_found (E := E) oldHead new)).
  { unfold branches_found. destruct oldHead as [old|]; cbn; [|exists (Some []); split; [done|]; split; [by intros txs [= <-]; split; [constructor|]|split; [done|intros []; by intros]]].
    destruct (Z.eqb_spec (Header_Hash keccak old) (ParentHash new)) as [Eh|Eh]; [exists (Some []); split; [done|]; split; [by intros txs [= <-]; split; [constructor|]|split; [done|intros []; intros ? [= <-]; by left]]|].
    destruct (reinjected_ok (E := E) old new (Hold old eq_refl) Hnew) as (r & Hr & Htx). exists r. split; [done|]. split; [intros txs ->; rewrite Hr; split; [by apply Htx|done]|].
    split; [intros -> Hb; destruct (Hb old eq_refl) as [|Hx]; [done|by rewrite Hr in Hx]|]. intros Hb. destruct r; [|done]. destruct Hb. intros ? [= <-]. right. by rewrite Hr. }
  destruct Hre as (r & Hr & Htx & Hnone). apply (wp_pure_ok _ r); [done|].
  destruct r as [txs|]; [|steps; split; [done|split; [unfold zlen; lia|intros h [= <-]; split; [intros Hb; by apply (proj1 Hnone) in Hb|done]]]]. destruct (Htx txs eq_refl) as [Hn ->]. change (default CurrentBlock (Some new)) with new.
  destruct (StateAt (Root new)) as [statedb|] eqn:Est; [|steps; split; [done|split; [unfold zlen; lia|intros h [= <-]; split; [by rewrite Est|done]]]]. steps. set (p1 := set_head _ _ _ p). assert (Hg1 : good p1) by (by apply (good_same p)).
  eapply wp_mono; [by apply addTxsLocked_ok| |done]. intros [errs d] p2 (G1 & G2 & G3 & _). steps. destruct Hnew as [[n Hnum] _ _]. rewrite Hnum. apply (wp_pure_ok _ n); [done|]. steps.
  split; [by apply (good_same p2)|]. split; [exact G3|]. intros h [= <-]. apply (moved_fixed _ _ _ p1); [exact G2|]. split; [intros _ st Hst; rewrite Est in Hst; by injection Hst as <-|].
  intros [Hb|Hb]; [by apply (proj2 Hnone) in Hb|by rewrite Est in Hb].
Qed.
(** The new head has to be a block of the chain: when the old head is one and is
    neither its parent nor more than 64 numbers away, and the new one is not
    found, [reset] dereferences the missing block. *)
Theorem reset_missing_head {E} (old new : Header) (on nn : Z) (b : Block Transaction Wd) p :
  Number old = Some on → Number new = Some nn → Header_Hash keccak old ≠ ParentHash new → reorg_depth (big_Uint64 on) (big_Uint64 nn) ≤ 64 →
  GetBlock (Header_Hash keccak old) (big_Uint64 on) = Some b → GetBlock (Header_Hash keccak new) (big_Uint64 nn) = None →
  (reset (Some old) (Some new) p).1 = Panic (E := E).
Proof.
  intros H1 H2 H3 H4 H5 H6. unfold TxPool.reset, pure_out. cbn [deref mbind outcome_bind]. rewrite (proj2 (Z.eqb_neq _ _) H3). unfold reinjected. rewrite H1, H2. cbn [deref mbind outcome_bind].
  rewrite (proj2 (Z.ltb_ge _ _) H4), H5, H6. done.
Qed.
Lemma set_base_fee_ok {E} new p (QE : E → pool → Prop) : good p → head_ok new →
  wp (set_base_fee chainconfig order (Some new)) (fun _ p' => good p' ∧ calm p p' ∧ pending p' = pending p ∧ queue p' = queue p) QE p.
Proof.
  intros Hg [[n Hn] _ Hfee]. unfold set_base_fee. steps. rewrite Hn. apply (wp_pure_ok _ n); [done|]. destruct (IsLondon chainconfig (Some (n + 1))) eqn:El; cbn [negb]; [|by steps].
  destruct (Hfee n Hn El) as [f Hf]. rewrite Hf. steps. apply (wp_pure_ok _ f); [done|]. steps. unfold id.
  match goal with |- context [pl_SetBaseFee (order ?k _) _ _ _] => destruct (pl_SetBaseFee_ok hash size (order k Transaction) (Horder k _) (all p) (held p []) (priced p) (Some f) (iv_all _ _ _ (g_inv _ Hg))) as (l & El2 & Hl) end.
  eapply wp_sure; [exact El2|]. steps. split_and!; try done. apply settled_good, (settled_priced _ l []); [|apply Hl|apply Hl]. apply settled_good. by apply (good_same p).
Qed.
#[local] Abbreviation runReorg := (runReorg keccak Ecrecover config chainconfig order Now GetBlock StateAt CurrentBlock).
Definition reorg_txs {E} (resets : option (option Header * option Header)) : list Transaction := match resets with Some (o, n) => returned (E := E) o n | None => [] end.
Definition reorg_ok (resets : option (option Header * option Header)) : Prop := match resets with Some (o, n) => request_ok o n | None => True end.
Definition reorg_moved {E} (resets : option (option Header * option Header)) p p' : Prop := ∀ o h, resets = Some (o, Some h) → moved (E := E) o h p p'.
(** What the reset brings, then who is to be promoted. *)
Lemma reorg_reset {E} resets dirty n p (QE : E → pool → Prop) : good p → reorg_ok resets →
  wp (match resets with
      | None => mret (match dirty with Some s => (as_flatten (order n ()) s).1 | None => [] end)
      | Some (oldHead, newHead) => _ ← reset oldHead newHead; n ← tick; q ← asks queue; mret (map fst (order n txlist q))
      end) (fun _ p' => good p' ∧ known p' ≤ known p + zlen (reorg_txs (E := E) resets) ∧ reorg_moved (E := E) resets p p') QE p.
Proof.
  intros Hg Hr. destruct resets as [[o h]|]; steps; [|split; [done|split; [unfold zlen; cbn; lia|by intros ? ? [=]]]].
  eapply wp_mono; [by apply reset_ok| |done]. intros _ p1 (H1 & H2 & H3). steps. split; [by apply (good_same p1)|split; [exact H2|]]. intros ? ? [= <- ->]. apply (moved_fixed _ _ _ p1); [done|by apply H3].
Qed.
(** After a reset the pending lists fit the new state. *)
Lemma reorg_demote {E} resets p (QE : E → pool → Prop) : good p → reorg_ok resets →
  wp (match resets with
      | None => mret tt
      | Some (_, newHead) =>
          _ ← demoteUnexecutables; _ ← set_base_fee chainconfig order newHead; n ← tick; m ← asks pending; nonces ← last_nonces order (map fst (order n txlist m)) ∅;
          mods (fun p => set_nonces (nn_setAll nonces (pendingNonces p)) p)
      end) (fun _ p' => good p' ∧ calm p p' ∧ (resets ≠ None → all_executable p')) QE p.
Proof.
  intros Hg Hr. destruct resets as [[o new]|]; steps; [|done]. destruct Hr as (_ & h & -> & Hh). eapply wp_mono; [by apply demoteUnexecutables_ok| |done]. intros _ p1 (H1 & H2 & H3). steps.
  eapply wp_mono; [by apply set_base_fee_ok| |done]. intros _ p2 (G1 & G2 & G3 & G4). steps. eapply wp_mono; [apply last_nonces_ok; [by apply (good_same p2)|intros a Ha; by apply order_elem in Ha]| |done].
  intros nonces p3 (K1 & K2 & K3 & K4). steps. assert (Hc : calm p2 p3) by exact K2. split_and!; [by apply (good_same p3)|exact (transitivity H2 (transitivity G2 Hc))|]. intros _ a L HL.
  destruct (same_items_some _ _ _ _ K4 HL) as (L0 & HL0 & Hp). eapply executable_perm; [exact Hp|]. apply (executable_static p1); [exact (proj1 (transitivity G2 Hc : calm p1 p3))|]. apply H3. by rewrite <- G3.
Qed.
Lemma total_known p : total (pending p) + total (queue p) = known p.
Proof. unfold total, known, held, zlen. rewrite app_nil_r, length_app. lia. Qed.
Lemma same_total m m' : same_items m m' → total m' = total m.
Proof.
  unfold total, zlen. revert m'. induction m as [|a L m Hm IH] using map_ind; intros m' Hs.
  - assert (m' = ∅) as ->; [|done]. apply map_empty. intros a. specialize (Hs a). rewrite lookup_empty in Hs. by destruct (m' !! a).
  - pose proof (Hs a) as Ha. rewrite lookup_insert_eq in Ha. destruct (m' !! a) as [L'|] eqn:E'; [|done]. rewrite (Permutation_length (contents_delete m' a L' E')), (Permutation_length (contents_insert m a L Hm)), !length_app.
    pose proof (Permutation_length Ha). rewrite (Nat2Z.inj_add (length (items_of L'))), (IH (delete a m')); [lia|]. intros b. destruct (decide (b = a)) as [->|Hb]; [by rewrite lookup_delete_eq, Hm|].
    specialize (Hs b). rewrite lookup_insert_ne in Hs by done. by rewrite lookup_delete_ne.
Qed.
Lemma limited_same p p' : calm p p' → same_items (pending p) (pending p') → pending_limited p → pending_limited p'.
Proof.
  intros Hc Hs [H|H]; [left; by rewrite (same_total _ _ Hs)|right]. intros a L' HL Hl. destruct (same_items_some _ _ _ _ Hs HL) as (L & HL0 & Hp). rewrite (static_local p) in Hl by apply Hc.
  unfold zlen. rewrite (Permutation_length Hp). by apply (H a L).
Qed.
Lemma runReorg_ok {E} resets dirty p (QE : E → pool → Prop) : good p → reorg_ok resets → known p + zlen (reorg_txs (E := E) resets) < 2 ^ 64 →
  wp (runReorg resets dirty) (fun _ p' => good p' ∧ known p' ≤ known p + zlen (reorg_txs (E := E) resets) ∧ pending_limited p' ∧ queue_limited p' ∧ (resets ≠ None → all_executable p') ∧ reorg_moved (E := E) resets p p') QE p.
Proof.
  intros Hg Hr H64. unfold TxPool.runReorg. steps. set (p0 := set_ticks _ p). assert (Hg0 : good p0) by (by apply (good_same p)). eapply wp_mono; [by apply reorg_reset| |done].
  intros addrs p1 (H1 & K1 & M1). change (known p0) with (known p) in K1. steps. eapply wp_mono; [by apply promoteExecutables_ok| |done]. intros promoted p2 [H2 C2]. steps.
  eapply wp_mono; [by apply reorg_demote| |done]. intros _ p3 (H3 & C3 & X3). steps. pose proof (known_calm p1 p2 H1 H2 C2) as K2. pose proof (known_calm p2 p3 H2 H3 C3) as K3.
  pose proof (total_known p3) as T3. assert (Hnn : ∀ m, 0 ≤ total m) by (intros m; unfold total, zlen; lia). pose proof (Hnn (pending p3)) as N1. pose proof (Hnn (queue p3)) as N2.
  eapply wp_mono; [apply truncatePending_ok; [done|lia]| |done]. intros _ p4 (H4 & C4 & L4). steps. pose proof (known_calm p3 p4 H3 H4 (proj1 C4)) as K4. pose proof (total_known p4) as T4. pose proof (Hnn (pending p4)) as N3.
  eapply wp_mono; [apply truncateQueue_ok; [done|lia]| |done]. intros _ p5 (H5 & C5 & S5 & L5). steps. pose proof (known_calm p4 p5 H4 H5 C5) as K5. split_and!.
  - by apply (good_same p5).
  - change (known (set_changes 0 p5)) with (known p5). lia.
  - exact (limited_same p4 p5 C5 S5 L4).
  - exact L5.
  - intros Hne a L HL. destruct (same_items_some _ _ _ _ S5 HL) as (L4' & HL4 & Hp). destruct C4 as (C4 & _ & Ht). specialize (Ht a). rewrite HL4 in Ht. destruct (pending p3 !! a) as [L3|] eqn:HL3; [|done].
    eapply executable_perm; [exact Hp|]. eapply executable_trims; [exact Ht|]. apply (executable_static p3); [exact (proj1 (transitivity C4 C5))|]. by apply X3.
  - intros o h Eo. apply (moved_fixed _ _ _ p1); [|by apply (M1 o h)]. exact (calm_fixed p1 p5 (transitivity C2 (transitivity C3 (transitivity (proj1 C4) C5)))).
Qed.

(** ** Other operations *)

#[local] Abbreviation SetGasPrice := (SetGasPrice keccak Ecrecover config chainconfig order Now).
Lemma SetGasPrice_ok {E} price p (QE : E → pool → Prop) : good p → wp (SetGasPrice price) (fun _ p' => good p' ∧ known p' ≤ known p) QE p.
Proof.
  intros Hg. unfold TxPool.SetGasPrice. steps. destruct (_ <? _); [|steps; split; [by apply (good_same p)|done]]. steps. set (p1 := set_ticks _ _). set (drop := lk_RemotesBelowTip _ _ _). assert (Hg1 : good p1) by (by apply (good_same p)).
  eapply wp_mono; [apply (wp_each _ (fun _ p' => good p' ∧ calm p1 p') QE drop p1)| |done]; [|done|].
  - intros x xs p' [H1 H2]. step. eapply wp_mono; [apply (removeTx_ok (hash x) false [] p'); [by apply settled_good|done]| |done]. intros n p2 (G1%settled_good & G2 & _). steps. split; [done|by etrans].
  - intros _ p2 [H1 H2]. cbn beta. eapply wp_priced_Removed; [apply H1|split; apply H1|]. intros l k Hl. assert (Hg2 : good (set_priced l (set_ticks k p2))) by (split; [apply inv_priced; [apply H1|done]|apply H1|apply H1]). split; [done|].
    exact (known_calm p1 _ Hg1 Hg2 H2).
Qed.
#[local] Abbreviation evict_account := (evict_account keccak Ecrecover config chainconfig order Now).
Lemma evict_account_ok {E} a p (QE : E → pool → Prop) : good p → is_Some (queue p !! a) → wp (evict_account a) (fun _ p' => unqueued a p p') QE p.
Proof.
  intros Hg [L HL]. unfold TxPool.evict_account. steps. unfold id. assert (Hu : ∀ n, unqueued a p (set_ticks n p)) by (intros n; split_and!; try done; by apply (good_same p)).
  destruct (is_local a p); [by steps|]. destruct (_ <? _); [|by steps]. steps. eapply (wp_flatten_queue _ a _ L); [by apply (good_same p)|exact HL|]. intros l p1 Hu1 Hit _ _.
  eapply wp_mono; [apply (remove_each a [] l p1); [apply Hu1|by rewrite app_nil_r]| |done]. intros _ p2 (Hu2 & _). eapply unqueued_trans; [apply Hu|]. eapply unqueued_trans; [exact Hu1|exact Hu2].
Qed.
#[local] Abbreviation evict := (evict keccak Ecrecover config chainconfig order Now).
Lemma evict_ok {E} p (QE : E → pool → Prop) : good p → wp evict (fun _ p' => good p' ∧ calm p p') QE p.
Proof.
  intros Hg. unfold TxPool.evict. steps. set (p0 := set_ticks _ p). set (kvs := order _ txlist _).
  eapply wp_mono; [apply (wp_each _ (fun kvs p' => good p' ∧ calm p p' ∧ NoDup (map fst kvs) ∧ ∀ a, a ∈ map fst kvs → is_Some (queue p' !! a)))| |done].
  - intros [a L0] kvs' p' (Hg' & Hc & [Ha Hnd]%NoDup_cons & Hin). cbn [fst map] in *. eapply wp_mono; [apply (evict_account_ok a p' QE Hg'), Hin; by left| |done].
    intros _ p2 (Hg2 & Hc2 & _ & Ho). split_and!; [done|by etrans|done|]. intros b Hb. rewrite Ho by (by intros ->). apply Hin. by right.
  - split_and!; [by apply (good_same p)|done|apply order_nodup|]. intros a Ha. by apply order_elem in Ha.
  - intros _ p' (H1 & H2 & _). done.
Qed.
Lemma emptyPool_good nil : good (emptyPool config nil).
Proof.
  assert (Hn : ∀ a L, (∅ : gmap Z txlist) !! a = Some L → False) by (intros a L H; by rewrite lookup_empty in H).
  split; [|intros a L H; by destruct (Hn a L H)..]. split; [intros a L H; by destruct (Hn a L H)..| | | | |].
  - unfold held. cbn. rewrite contents_empty. apply newLookup_ok.
  - unfold held. cbn. rewrite contents_empty. constructor.
  - constructor.
  - split; intros i k Hi Hk Hlt; cbn in Hlt; lia.
  - intros h tx Hh. unfold lk_GetRemote in Hh. cbn in Hh. by rewrite lookup_empty in Hh.
Qed.

Lemma take_paying_ext p p' txs : gasPrice p' = gasPrice p → priced p' = priced p → take_paying p' txs = take_paying p txs.
Proof. intros Hg Hp. induction txs as [|x txs IH]; [done|]. cbn [take_paying]. by rewrite Hg, Hp, IH. Qed.
(** What [Pending] gives for each account. *)
Definition offered_list (enforceTips : bool) p a (l : list Transaction) : option (list Transaction) :=
  let l := if enforceTips && negb (is_local a p) then take_paying p l else l in
  if 0 <? zlen l then Some l else None.
Definition offers_list (enforceTips : bool) p (r : gmap Z (list Transaction)) a : Prop :=
  match pending p !! a with Some L => ∃ l, list_rep L l ∧ r !! a = offered_list enforceTips p a l | None => r !! a = None end.
Lemma pending_loop_ok {E} enforceTips p0 (QE : E → pool → Prop) addrs : ∀ r p, good p → static p = static p0 → priced p = priced p0 → NoDup addrs →
  (∀ a, a ∈ addrs → pending p !! a = pending p0 !! a ∧ is_Some (pending p !! a) ∧ r !! a = None) → (∀ a, a ∉ addrs → offers_list enforceTips p0 r a) → same_items (pending p0) (pending p) →
  wp (pending_loop order enforceTips addrs r) (fun r' p' => good p' ∧ calm p p' ∧ queue p' = queue p ∧ same_items (pending p0) (pending p') ∧ ∀ a, offers_list enforceTips p0 r' a) QE p.
Proof.
  induction addrs as [|a addrs IH]; intros r p Hg Hst Hpr Hnd Hin Hout Hsame; cbn [pending_loop]; [steps; split_and!; try done; intros a; apply Hout; by intros ?%elem_of_nil|].
  apply NoDup_cons in Hnd as [Ha Hnd]. destruct (Hin a ltac:(by left)) as (E0 & [L HL] & Hr). destruct Hg as [Hi Hp Hq]. destruct (inv_side _ _ _ true Hi a L HL) as ((l & Hl) & Hs & _). steps.
  destruct (list_Flatten_spec (order (ticks p) Transaction) (Horder _ _) L l Hl) as (L' & E1 & S1 & R1). assert (Hit : items_of L' ≡ₚ items_of L) by (by rewrite (items_rep _ _ Hl), (items_rep _ _ R1)).
  eapply (wp_take_pending a [] [] _ l L L' l []); [by apply (inv_same p)|exact HL|by rewrite E1|by rewrite Hit|exact R1|exact S1|]. intros _ H1. steps. unfold id. set (p1 := set_pending _ _) in *.
  assert (Hsame1 : same_items (pending p) (pending p1)) by (by apply (same_items_insert _ a L L')).
  set (l' := if _ : bool then _ else l). set (r' := if 0 <? zlen l' then _ else r).
  assert (El : offered_list enforceTips p0 a l = if 0 <? zlen l' then Some l' else None).
  { unfold offered_list, l'. rewrite (static_local p0 p1) by exact Hst. rewrite (take_paying_ext p0 p1); [done| |exact Hpr]. exact (f_equal (fun x => x.1.1.1) Hst). }
  assert (Hother : ∀ b, b ≠ a → r' !! b = r !! b) by (intros b Hb; unfold r'; destruct (0 <? zlen l'); [by apply lookup_insert_ne|done]).
  eapply wp_mono; [apply (IH r' p1)| |done].
  - split; [exact H1|by eapply nonempty_same|done].
  - exact Hst.
  - exact Hpr.
  - done.
  - intros b Hb. assert (Hne : b ≠ a) by (by intros ->). destruct (Hin b ltac:(by right)) as (G1 & G2 & G3). rewrite Hother by done. change (pending p1) with (<[a := L']> (pending p)). by rewrite lookup_insert_ne.
  - intros b Hb. destruct (decide (b = a)) as [->|Hne].
    + unfold offers_list. rewrite <- E0, HL. exists l. split; [done|]. rewrite El. unfold r'. destruct (0 <? zlen l'); [by rewrite lookup_insert_eq|done].
    + assert (Ho : offers_list enforceTips p0 r b) by (apply Hout; by intros [?|?]%elem_of_cons). unfold offers_list in *. by rewrite Hother.
  - by etrans.
  - intros r2 p2 (G1 & G2 & G3 & G4 & G5). done.
Qed.
Lemma Pending_ok {E} enforceTips p (QE : E → pool → Prop) : good p →
  wp (Pending order enforceTips) (fun r p' => good p' ∧ calm p p' ∧ queue p' = queue p ∧ same_items (pending p) (pending p') ∧ ∀ a, offers_list enforceTips p r a) QE p.
Proof.
  intros Hg. unfold Pending. steps. set (p0 := set_ticks _ p). eapply wp_mono; [apply (pending_loop_ok enforceTips p0 QE); try done| |done].
  - by apply (good_same p).
  - apply order_nodup.
  - intros a Ha. apply order_elem in Ha. by rewrite lookup_empty.
  - intros a Ha. unfold offers_list. destruct (pending p0 !! a) as [L|] eqn:HL; [|by rewrite lookup_empty]. destruct Ha. apply order_elem. by exists L.
  - intros r p' (G1 & G2 & G3 & G4 & G5). split_and!; try done. intros a. specialize (G5 a). unfold offers_list in *. change (pending p0) with (pending p) in G5. destruct (pending p !! a); [|done].
    destruct G5 as (l & H1 & H2). exists l. split; [done|]. rewrite H2. unfold offered_list. by rewrite (take_paying_ext p p0).
Qed.

(** The tip that the pool expects a transaction to leave, and the beginning of a
    list that pays. *)
Definition tip_at p tx : Z := match ph_baseFee (urgent (priced p)) with None => gasTipCap (inner tx) | Some fee => Z.min (gasTipCap (inner tx)) (gasFeeCap (inner tx) - fee) end.
Definition offered (enforceTips : bool) p a (l : list Transaction) (r : option (list Transaction)) : Prop :=
  ∃ l' rest, l = l' ++ rest ∧ r = (if bool_decide (l' = []) then None else Some l') ∧
    if enforceTips && negb (is_local a p) then Forall (fun tx => gasPrice p ≤ tip_at p tx) l' ∧ match rest with tx :: _ => tip_at p tx < gasPrice p | [] => True end else rest = [].
Definition offers (enforceTips : bool) p (r : gmap Z (list Transaction)) a : Prop :=
  match pending p !! a with Some L => ∃ l, list_rep L l ∧ offered enforceTips p a l (r !! a) | None => r !! a = None end.
Lemma take_paying_spec p l : ∃ rest, l = take_paying p l ++ rest ∧ Forall (fun tx => gasPrice p ≤ tip_at p tx) (take_paying p l) ∧ match rest with tx :: _ => tip_at p tx < gasPrice p | [] => True end.
Proof.
  induction l as [|tx l (rest & IH1 & IH2 & IH3)]; [by exists []|]. cbn [take_paying]. assert (Hc : EffectiveGasTipIntCmp (inner tx) (gasPrice p) (ph_baseFee (urgent (priced p))) = (tip_at p tx ?= gasPrice p)).
  { unfold EffectiveGasTipIntCmp, tip_at. destruct (ph_baseFee (urgent (priced p))) as [fee|]; [|done]. f_equal. unfold EffectiveGasTipValue, EffectiveGasTip, BigMin. cbn [fst]. case_if; zbool; lia. }
  rewrite Hc. destruct (Z.compare_spec (tip_at p tx) (gasPrice p)) as [He|Hlt|Hgt]; [|by exists (tx :: l)|]; (exists rest; split; [by rewrite IH1 at 1|split; [constructor; [lia|done]|done]]).
Qed.
Lemma offers_list_spec enforceTips p r a : offers_list enforceTips p r a → offers enforceTips p r a.
Proof.
  unfold offers_list, offers. destruct (pending p !! a) as [L|]; [|done]. intros (l & Hl & ->). exists l. split; [done|]. unfold offered, offered_list.
  assert (Hz : ∀ k : list Transaction, (if 0 <? zlen k then Some k else None) = if bool_decide (k = []) then None else Some k) by (intros [|x k]; [done|]; unfold zlen; cbn [length]; by rewrite (proj2 (Z.ltb_lt _ _)) by lia).
  destruct (enforceTips && negb (is_local a p)).
  - destruct (take_paying_spec p l) as (rest & H1 & H2 & H3). exists (take_paying p l), rest. by rewrite Hz.
  - exists l, []. by rewrite Hz, app_nil_r.
Qed.
Lemma flat_ok {E} b a p (QE : E → pool → Prop) : good p → is_Some (side b p !! a) →
  wp (if b then flat_pending order a else flat_queue order a) (fun _ p' => good p' ∧ calm p p' ∧ ∀ c k, is_Some (side c p !! k) → is_Some (side c p' !! k)) QE p.
Proof.
  intros [Hi Hp Hq] [L HL]. destruct (good_rep p b a L Hi HL) as (l & Hl & Hst & _). destruct (list_Flatten_spec (order (ticks p) Transaction) (Horder _ _) L l Hl) as (L' & E1 & S1 & R1).
  assert (Hit : items_of L' ≡ₚ items_of L) by (by rewrite (items_rep _ _ Hl), (items_rep _ _ R1)). set (p0 := set_ticks (S (ticks p)) p). assert (Hi0 : inv p0 [] []) by (by apply (inv_same p)).
  pose proof (same_items_insert _ a L L' HL Hit) as Hsame. assert (His : ∀ k, is_Some (side b p !! k) → is_Some (<[a := L']> (side b p) !! k)) by (intros k Hk; apply lookup_insert_is_Some'; by right).
  destruct b; unfold flat_pending, flat_queue; steps.
  - eapply (wp_take_pending a [] [] _ l L L' l []); [exact Hi0|exact HL|by rewrite E1|by rewrite Hit|exact R1|exact S1|]. intros _ H1. split_and!; [split; [exact H1|by eapply nonempty_same|done]|done|]. intros []; [exact His|done].
  - eapply (wp_take_queue a [] [] _ l L L' l []); [exact Hi0|exact HL|by rewrite E1|by rewrite Hit|exact R1|exact S1|]. intros _ H1. split_and!; [split; [exact H1|done|by eapply nonempty_same]|done|]. intros []; [done|exact His].
Qed.
Lemma content_loop_ok {E} b (QE : E → pool → Prop) addrs : ∀ r p, good p → (∀ a, a ∈ addrs → is_Some (side b p !! a)) →
  wp (content_loop (if b then flat_pending order else flat_queue order) addrs r) (fun _ p' => good p' ∧ calm p p') QE p.
Proof.
  induction addrs as [|a addrs IH]; intros r p Hg Hin; cbn [content_loop]; [by steps|]. step. eapply wp_mono; [pose proof (flat_ok b a p QE Hg (Hin a ltac:(by left))) as H; destruct b; exact H| |done].
  intros txs p1 (H1 & H2 & H3). eapply wp_mono; [apply IH; [done|]| |done].
  - intros c Hc. apply H3, Hin. by right.
  - intros _ p2 [G1 G2]. split; [done|by etrans].
Qed.
Lemma Content_ok {E} p (QE : E → pool → Prop) : good p → wp (Content order) (fun _ p' => good p' ∧ calm p p') QE p.
Proof.
  intros Hg. unfold Content. steps. eapply wp_mono; [apply (content_loop_ok true); [by apply (good_same p)|intros a Ha; by apply order_elem in Ha]| |done]. intros pend p1 [H1 H2]. steps.
  eapply wp_mono; [apply (content_loop_ok false); [by apply (good_same p1)|intros a Ha; by apply order_elem in Ha]| |done]. intros queued p2 [H3 H4]. steps. split; [done|]. exact (transitivity (H2 : calm p p1) (H4 : calm p1 p2)).
Qed.
Lemma ContentFrom_ok {E} a p (QE : E → pool → Prop) : good p → wp (ContentFrom order a) (fun _ p' => good p' ∧ calm p p') QE p.
Proof.
  intros Hg. unfold ContentFrom. steps. eapply (wp_mono _ (fun _ p' => good p' ∧ calm p p')); [|intros pend p1 [H1 H2]|done].
  - destruct (pending p !! a) as [L|] eqn:HL; [|by steps]. eapply wp_mono; [apply (flat_ok true); [done|by exists L]| |done]. by intros _ p1 (H1 & H2 & _).
  - steps. eapply (wp_mono _ (fun _ p' => good p' ∧ calm p p')); [|intros queued p2 [H3 H4]; by steps|done].
    destruct (queue p1 !! a) as [L|] eqn:HL; [|by steps]. eapply wp_mono; [apply (flat_ok false); [done|by exists L]| |done]. intros _ p2 (H3 & H4 & _). split; [done|by etrans].
Qed.

(** ** Runs of the pool *)

(** What is asked of the pool while it runs. *)
Inductive pool_op :=
| OpAddLocals (txs : list Transaction)
| OpAddRemotes (txs : list Transaction)
| OpReorg (resets : option (option Header * option Header)) (dirty : option accountSet)
| OpSetGasPrice (price : Z)
| OpEvict
| OpPending (enforceTips : bool)
| OpContent
| OpContentFrom (addr : Z)
| OpNonce (addr : Z)
| OpLocals.
Definition pool_exec (op : pool_op) : stm pool txpoolError unit :=
  match op with
  | OpAddLocals txs => _ ← AddLocals keccak Ecrecover config chainconfig order Now txs; mret tt
  | OpAddRemotes txs => _ ← AddRemotes keccak Ecrecover config chainconfig order Now txs; mret tt
  | OpReorg resets dirty => _ ← runReorg resets dirty; mret tt
  | OpSetGasPrice price => SetGasPrice price
  | OpEvict => evict
  | OpPending enforceTips => _ ← Pending order enforceTips; mret tt
  | OpContent => _ ← Content order; mret tt
  | OpContentFrom addr => _ ← ContentFrom order addr; mret tt
  | OpNonce addr => _ ← Nonce addr; mret tt
  | OpLocals => _ ← Locals order; mret tt
  end.
(** Nonces have 64 bits and heads are blocks of the chain. *)
Definition op_ok (op : pool_op) : Prop :=
  match op with OpAddLocals txs | OpAddRemotes txs => nonces_ok txs | OpReorg resets _ => reorg_ok resets | _ => True end.
(** How many transactions an operation can bring. *)
Definition op_size (op : pool_op) : Z :=
  match op with OpAddLocals txs | OpAddRemotes txs => zlen txs | OpReorg resets _ => zlen (reorg_txs (E := txpoolError) resets) | _ => 0 end.
Definition ops_size (ops : list pool_op) : Z := foldr (fun op n => op_size op + n) 0 ops.
Lemma op_size_pos op : 0 ≤ op_size op.
Proof. destruct op; cbn; unfold zlen; lia. Qed.
Lemma ops_size_pos ops : 0 ≤ ops_size ops.
Proof. induction ops as [|op ops IH]; cbn; [lia|]. pose proof (op_size_pos op). unfold ops_size in IH. lia. Qed.
Lemma pool_exec_ok op p : good p → op_ok op → known p + op_size op < 2 ^ 64 → wp (pool_exec op) (fun _ p' => good p' ∧ known p' ≤ known p + op_size op) (fun _ _ => False) p.
Proof.
  intros Hg Hok H64. destruct op as [txs|txs|resets dirty|price| |b| |a|a|]; cbn [pool_exec op_ok op_size] in *.
  - step. eapply wp_mono; [by apply addTxs_ok| |done]. intros _ p' (H1 & _ & H2). by steps.
  - step. eapply wp_mono; [by apply addTxs_ok| |done]. intros _ p' (H1 & _ & H2). by steps.
  - step. eapply wp_mono; [by apply (runReorg_ok resets dirty p (fun _ _ => False))| |done]. intros _ p' (H1 & H2 & _). by steps.
  - eapply wp_mono; [by apply (SetGasPrice_ok price p (fun _ _ => False))| |done]. intros _ p' (H1 & H2). split; [done|lia].
  - eapply wp_mono; [by apply (evict_ok p (fun _ _ => False))| |done]. intros _ p' (H1 & H2). split; [done|]. pose proof (known_calm p p' Hg H1 H2). lia.
  - step. eapply wp_mono; [by apply (Pending_ok b p (fun _ _ => False))| |done]. intros _ p' (H1 & H2 & _). steps. split; [done|]. pose proof (known_calm p p' Hg H1 H2). lia.
  - step. eapply wp_mono; [by apply (Content_ok p (fun _ _ => False))| |done]. intros _ p' (H1 & H2). steps. split; [done|]. pose proof (known_calm p p' Hg H1 H2). lia.
  - step. eapply wp_mono; [by apply (ContentFrom_ok a p (fun _ _ => False))| |done]. intros _ p' (H1 & H2). steps. split; [done|]. pose proof (known_calm p p' Hg H1 H2). lia.
  - steps. apply wp_next_nonce. intros n. steps. split; [by apply (good_same p)|change (known (set_nonces n p)) with (known p); lia].
  - unfold Locals. steps. destruct (as_flatten _ _) as [l set]. steps. split; [by apply (good_same p)|change (known p ≤ known p + 0); lia].
Qed.
Lemma pool_runs ops : ∀ p, good p → Forall op_ok ops → known p + ops_size ops < 2 ^ 64 → wp (each pool_exec ops) (fun _ p' => good p' ∧ known p' ≤ known p + ops_size ops) (fun _ _ => False) p.
Proof.
  induction ops as [|op ops IH]; intros p Hg Hok H64; [split; [done|cbn; lia]|]. apply Forall_cons in Hok as [Ho Hok]. cbn [each]. step. cbn [ops_size foldr] in H64. fold (ops_size ops) in H64. pose proof (ops_size_pos ops).
  eapply wp_mono; [apply pool_exec_ok; [done|done|lia]| |done]. intros _ p' [H1 H2].
  eapply wp_mono; [apply IH; [done|done|lia]| |done]. intros _ p2 [H3 H4]. split; [done|]. cbn [ops_size foldr]. fold (ops_size ops). lia.
Qed.
Lemma wp_result {A} (m : stm pool txpoolError A) (Q : A → pool → Prop) p : wp m Q (fun _ _ => False) p → ∃ a p', m p = (Ok a, p') ∧ Q a p'.
Proof. unfold wp. destruct (m p) as [[a|e|] p']; [eauto|done|done]. Qed.
Lemma NewTxPool_ok nil : head_ok CurrentBlock →
  ∃ p, NewTxPool keccak Ecrecover config chainconfig order Now GetBlock StateAt CurrentBlock nil = (Ok tt, p) ∧ good p ∧ known p = 0.
Proof.
  intros Hh. assert (Hreq : request_ok None (Some CurrentBlock)) by (split; [done|by eexists]).
  pose proof (reset_ok (E := Empty_set) None (Some CurrentBlock) (emptyPool config nil) (fun _ _ => False) (emptyPool_good nil) Hreq) as H. unfold NewTxPool, wp in *.
  destruct (reset None (Some CurrentBlock) (emptyPool config nil)) as [[[]|e|] p]; [|done..]. destruct H as (H1 & H2 & _). exists p. split_and!; [done|done|].
  change (zlen (returned None (Some CurrentBlock))) with 0 in H2. change (known (emptyPool config nil)) with 0 in H2. assert (0 ≤ known p) by (unfold known, zlen; lia). lia.
Qed.

(** C7. After a reorganisation the pending transactions are at most
    [GlobalSlots], or each account that is not local has at most
    [AccountSlots]; and the queued ones are at most [GlobalQueue], or only local
    accounts have some. *)
Theorem runReorg_limits resets dirty p : good p → reorg_ok resets → known p + zlen (reorg_txs (E := txpoolError) resets) < 2 ^ 64 →
  ∃ promoted p', runReorg resets dirty p = (Ok (E := txpoolError) promoted, p') ∧ pending_limited p' ∧ queue_limited p'.
Proof.
  intros Hg Hr H64. destruct (wp_result _ _ _ (runReorg_ok resets dirty p (fun _ _ => False) Hg Hr H64)) as (r & p' & E & _ & _ & H1 & H2 & _). eauto.
Qed.
(** C13. After a new head each pending list starts with the nonce that its
    account has in the state of the pool, and the account can pay for each of
    its transactions, which fit into a block.  This state is the one the chain
    has for the root of the new head, with the head's gas limit; it is the old
    one, with the old limit, exactly when the chain does not have the new state
    or a block of the two branches is missing, where the code gives up.  As in
    [pool_invariant], the new head is a block that the chain finds and its
    successor has a base fee ([request_ok]). *)
Theorem runReorg_executable oldHead new dirty p : good p → request_ok oldHead (Some new) → known p + zlen (returned (E := txpoolError) oldHead (Some new)) < 2 ^ 64 →
  ∃ promoted p', runReorg (Some (oldHead, Some new)) dirty p = (Ok (E := txpoolError) promoted, p') ∧ all_executable p' ∧
    (branches_found (E := txpoolError) oldHead new → ∀ st, StateAt (Root new) = Some st → currentState p' = st ∧ currentMaxGas p' = GasLimit new) ∧
    (¬ branches_found (E := txpoolError) oldHead new ∨ StateAt (Root new) = None → currentState p' = currentState p ∧ currentMaxGas p' = currentMaxGas p).
Proof.
  intros Hg Hr H64. destruct (wp_result _ _ _ (runReorg_ok (Some (oldHead, Some new)) dirty p (fun _ _ => False) Hg Hr H64)) as (r & p' & E & _ & _ & _ & _ & H & Hm).
  exists r, p'. split; [done|]. split; [by apply H|]. by apply (Hm oldHead new).
Qed.
(** C18. [Pending] changes nothing but the caches of the lists, and gives for
    each account with pending transactions all of them in the order of their
    nonces, or, when tips are enforced and the account is not local, those
    before the first that pays less than the minimal tip. *)
Theorem Pending_offers enforceTips p : good p → ∃ r p', Pending (E := txpoolError) order enforceTips p = (Ok r, p') ∧ (∀ a, offers enforceTips p r a) ∧ same_items (pending p) (pending p') ∧ queue p' = queue p.
Proof.
  intros Hg. destruct (wp_result _ _ _ (Pending_ok enforceTips p (fun _ _ => False) Hg)) as (r & p' & E & _ & _ & H1 & H2 & H3). exists r, p'. split_and!; [done| |done|done]. intros a. by apply offers_list_spec.
Qed.
Lemma nodup_map_inj {A B} (f : A → B) l x y : NoDup (map f l) → x ∈ l → y ∈ l → f x = f y → x = y.
Proof.
  intros Hn [i Hi]%list_elem_of_lookup [j Hj]%list_elem_of_lookup Hf. assert (i = j) as ->; [|congruence].
  eapply (NoDup_lookup _ _ _ (f x) Hn); [by apply list_lookup_fmap_Some_2|rewrite Hf; by apply list_lookup_fmap_Some_2].
Qed.
Lemma side_contains p b tx : good p → tx ∈ held p [] →
  match side b p !! from tx with Some l => list_Contains (tx_nonce tx) l | None => false end = bool_decide (tx ∈ contents (side b p)).
Proof.
  intros Hg Hin. symmetry. destruct (side b p !! from tx) as [L|] eqn:HL.
  - destruct (inv_side _ _ _ b (g_inv _ Hg) _ L HL) as ((l & Hl) & _). rewrite (Contains_rep _ _ _ Hl). apply bool_decide_ext. split.
    + intros (a & L' & HL' & Hx)%contents_elem. destruct (inv_side _ _ _ b (g_inv _ Hg) _ L' HL') as (_ & _ & Hf). rewrite Forall_forall in Hf. rewrite <- (Hf tx Hx), HL in HL'. injection HL' as <-.
      exists tx. apply at_nonce_in; [by eapply rep_sorted|]. by rewrite <- (items_rep _ _ Hl).
    + intros [t Ht]. destruct (cell_side _ _ _ b L l _ t (g_inv _ Hg) _ HL Hl Ht) as [Hc He].
      assert (t = tx) as <-; [|done]. apply (nodup_map_inj cell (held p []) t tx (iv_cells _ _ _ (g_inv _ Hg))); [rewrite (held_side p [] b); apply elem_of_app; by left|done|done].
  - apply bool_decide_eq_false. intros (a & L' & HL' & Hx)%contents_elem. destruct (inv_side _ _ _ b (g_inv _ Hg) _ L' HL') as (_ & _ & Hf). rewrite Forall_forall in Hf. rewrite <- (Hf tx Hx), HL in HL'. done.
Qed.
(** [Status] tells where a transaction is: pending when a pending list has
    it, queued when a queued list has it, and unknown when no list has it. *)
Theorem Status_sound h p : good p →
  match Status keccak Ecrecover chainconfig h p with
  | TxStatusPending => ∃ tx, hash tx = h ∧ tx ∈ contents (pending p)
  | TxStatusQueued => ∃ tx, hash tx = h ∧ tx ∈ contents (queue p)
  | TxStatusUnknown => ∀ tx, hash tx = h → (tx ∉ contents (pending p)) ∧ (tx ∉ contents (queue p))
  | TxStatusIncluded => False
  end.
Proof.
  intros Hg. pose proof (iv_all _ _ _ (g_inv _ Hg)) as Hall. unfold Status. destruct (lk_Get h (all p)) as [tx|] eqn:Hget.
  - apply (lk_Get_iff hash size _ _ _ _ Hall) in Hget as [Hin <-]. pose proof (side_contains p true tx Hg Hin) as E1. pose proof (side_contains p false tx Hg Hin) as E2. cbn [side] in E1, E2. rewrite E1, E2.
    case_bool_decide as H2; case_bool_decide as H1; cbn beta iota; try (by exists tx). exfalso. unfold held in Hin. rewrite app_nil_r, elem_of_app in Hin. by destruct Hin.
  - intros tx <-. pose proof (lk_Get_none hash size _ _ tx Hall Hget) as Hn. unfold held in Hn. rewrite app_nil_r, not_elem_of_app in Hn. done.
Qed.
End Inv.

(** ** A run *)

Lemma sanitize_ok c : is_u64 (AccountSlots c) → is_u64 (GlobalSlots c) → 0 ≤ AccountQueue c < 2 ^ 63 → is_u64 (GlobalQueue c) → GlobalSlots c + GlobalQueue c < 2 ^ 62 → config_ok (sanitize c).
Proof.
  unfold is_u64. intros H1 H2 H3 H4 H5. split; cbn; try (case_if; zbool; lia).
  - rewrite i64_small; case_if; zbool; lia.
  - repeat case_if; zbool; lia.
Qed.

(** A chain of two blocks, of heights 7 and 8. *)
Definition toy_head (number nonce : Z) : Header := mkHeader 1 2 3 4 5 6 7 (Some 2) (Some number) 1000000 0 1700000000 [] 0 nonce (Some 7) None None.
Definition toy_transfer (n s : Z) : Transaction := mkTransaction (DynamicFeeTx 1337 n 2 100 60000 (Some 77) 1000 [z2b 1; z2b 0] [] (mkSig 1 1 s)) 5.
Definition toy_old : Header := toy_head 7 1.
Definition toy_new : Header := toy_head 8 2.
Definition toy_blocks : list (Block Transaction unit) := [mkBlock toy_old [] [] None; mkBlock toy_new [] [toy_transfer 4 7] None].
Definition toy_GetBlock (h n : Z) : option (Block Transaction unit) := List.find (fun b => bool_decide (Number (b_header b) = Some n)) toy_blocks.
Definition toy_order (n : nat) (V : Type) (m : gmap Z V) : list (Z * V) := map_to_list m.
#[local] Abbreviation toy_exec := (pool_exec toy_digest toy_recover DefaultConfig toy_config toy_order Z.of_nat toy_GetBlock (fun _ => Some toy_db) toy_old).
#[local] Abbreviation toy_start := (NewTxPool toy_digest toy_recover DefaultConfig toy_config toy_order Z.of_nat toy_GetBlock (fun _ => Some toy_db) toy_old toy_db).
Definition toy_requests : list pool_op :=
  [OpAddRemotes [toy_transfer 5 8; toy_transfer 7 9]; OpReorg None (Some (as_add 1 newAccountSet)); OpReorg (Some (None, Some toy_new)) None; OpAddLocals [toy_transfer 6 10];
   OpReorg None (Some (as_add 1 newAccountSet)); OpEvict; OpPending true; OpContent; OpNonce 1; OpLocals].
Lemma toy_found h n b : toy_GetBlock h n = Some b → In b toy_blocks ∧ Number (b_header b) = Some n.
Proof. unfold toy_GetBlock. intros [H1 H2]%find_some. by apply bool_decide_eq_true in H2. Qed.
Lemma toy_chain_ok : chain_ok toy_GetBlock.
Proof.
  split; intros h n b [Hin Hn]%toy_found; [split; [done|]|]; destruct Hin as [<-|[<-|[]]]; try (injection Hn as <-; lia); repeat constructor; cbn; unfold is_u64; lia.
Qed.
Lemma toy_head_ok h : h = toy_old ∨ h = toy_new → head_ok toy_digest toy_config toy_GetBlock h.
Proof.
  intros [->| ->]; (split; [by eexists|intros n [= <-]; by eexists|intros n _ _; eexists; reflexivity]).
Qed.
Lemma toy_config_ok : config_ok DefaultConfig.
Proof. change DefaultConfig with (sanitize DefaultConfig). apply sanitize_ok; vm_compute; intuition congruence. Qed.
Lemma toy_requests_ok : Forall (op_ok toy_digest toy_config toy_GetBlock) toy_requests.
Proof.
  assert (Hnew : head_ok toy_digest toy_config toy_GetBlock toy_new) by (apply toy_head_ok; by right).
  repeat constructor; cbn; try (unfold is_u64; lia); [done|by exists toy_new].
Qed.

(** The pool after the first five requests. *)
Definition toy_state : pool := (each toy_exec (take 5 toy_requests) (toy_start).2).2.
Lemma toy_state_good : good toy_digest toy_recover toy_config toy_state ∧ known toy_state ≤ 3.
Proof.
  destruct (NewTxPool_ok toy_digest toy_recover DefaultConfig toy_config toy_order Z.of_nat toy_GetBlock (fun _ => Some toy_db) toy_old ltac:(done) toy_config_ok toy_chain_ok toy_db (toy_head_ok _ (or_introl eq_refl))) as (p & Ep & Hg & Hk).
  assert (Hops : Forall (op_ok toy_digest toy_config toy_GetBlock) (take 5 toy_requests)) by (apply Forall_take, toy_requests_ok).
  assert (Hsize : ops_size toy_digest toy_GetBlock (take 5 toy_requests) = 3) by reflexivity.
  pose proof (pool_runs toy_digest toy_recover DefaultConfig toy_config toy_order Z.of_nat toy_GetBlock (fun _ => Some toy_db) toy_old ltac:(done) toy_config_ok ltac:(done) toy_chain_ok (take 5 toy_requests) p Hg Hops ltac:(lia)) as Hrun.
  unfold toy_state. rewrite Ep. cbn [snd]. unfold wp in Hrun. generalize dependent (each toy_exec (take 5 toy_requests) p). intros [[u|e|] q] Hrun; [|destruct Hrun..]. cbn [snd]. destruct Hrun as [H1 H2]. split; [exact H1|lia].
Qed.
Lemma toy_room resets n : zlen (reorg_txs (E := txpoolError) toy_digest toy_GetBlock resets) = n → n < 2 ^ 63 → known toy_state + zlen (reorg_txs (E := txpoolError) toy_digest toy_GetBlock resets) < 2 ^ 64.
Proof. intros -> Hn. pose proof (proj2 toy_state_good). lia. Qed.
#[local] Abbreviation toy_reorg := (runReorg toy_digest toy_recover DefaultConfig toy_config toy_order Z.of_nat toy_GetBlock (fun _ => Some toy_db) toy_old).
Lemma runReorg_limits_witness : ∃ promoted p', toy_reorg None None toy_state = (Ok (E := txpoolError) promoted, p') ∧ pending_limited DefaultConfig p' ∧ queue_limited DefaultConfig p'.
Proof.
  apply runReorg_limits; [done|exact toy_config_ok|exact toy_chain_ok|apply toy_state_good|done|by apply (toy_room None 0)].
Defined.
Lemma runReorg_executable_witness : ∃ promoted p', toy_reorg (Some (None, Some toy_new)) None toy_state = (Ok (E := txpoolError) promoted, p') ∧ all_executable p' ∧
  currentState p' = toy_db ∧ currentMaxGas p' = GasLimit toy_new.
Proof.
  destruct (runReorg_executable toy_digest toy_recover DefaultConfig toy_config toy_order Z.of_nat toy_GetBlock (fun _ => Some toy_db) toy_old ltac:(done) toy_config_ok toy_chain_ok None toy_new None toy_state) as (r & p' & E & H1 & H2 & _).
  - apply toy_state_good.
  - split; [done|]. exists toy_new. split; [done|]. apply toy_head_ok. by right.
  - by apply (toy_room (Some (None, Some toy_new)) 0).
  - exists r, p'. split; [exact E|]. split; [exact H1|]. by apply H2.
Defined.
Lemma Pending_offers_witness : ∃ r p', Pending toy_order true toy_state = (Ok (E := txpoolError) r, p') ∧ (∀ a, offers true toy_state r a) ∧ same_items (pending toy_state) (pending p') ∧ queue p' = queue toy_state.
Proof. apply (Pending_offers toy_digest toy_recover toy_config); [done|apply toy_state_good]. Defined.
(** The same run with a short digest, evaluated: the transactions of account 1
    arrive out of order and end up pending. *)
Definition short_digest (b : bytes) : Z := be_value (drop (length b - 2) b).
Example toy_run_pending :
  let exec := pool_exec short_digest toy_recover DefaultConfig toy_config toy_order Z.of_nat toy_GetBlock (fun _ => Some toy_db) toy_old in
  let start := NewTxPool short_digest toy_recover DefaultConfig toy_config toy_order Z.of_nat toy_GetBlock (fun _ => Some toy_db) toy_old toy_db in
  let p := (each exec [OpAddRemotes [toy_transfer 5 8]; OpAddRemotes [toy_transfer 4 9]; OpReorg None (Some (as_add 1 newAccountSet))] start.2).2 in
  map (fun tx => tx_nonce tx) (contents (pending p)) = [5; 4] ∧ queue p = ∅ ∧ Status short_digest toy_recover toy_config (tx_hash short_digest (toy_transfer 4 9)) p = TxStatusPending.
Proof. vm_compute. repeat split; reflexivity. Qed.
