(* ===== verification/State.v ===== *)
(** The state database: [journal.go], [state_object.go], [statedb.go],
    [access_list.go] and [transient_storage.go] of
    [src/go-ethereum/core/state].

    A [stateDB] holds the accounts touched by a block as live objects on top of
    the account trie (or the snapshot layer, when there is one); every change
    within a transaction appends a journal entry that knows how to undo it.
    The tries, the snapshot layer and the code database are parameters
    ([Tries], [snapshotLayer]); a read that fails is [None] and is remembered
    in [dbErr].  The trie prefetcher and the caches that only [Commit] reads
    are left out.

    Live objects are pointers in Go.  An object is reached through
    [stateObjects] or, when it was replaced, through the journal entry that
    keeps it, and no one writes to a replaced object; so objects are values
    here, and a write puts the new value back under its address. *)

From S2P Require Import Prelude RLP Types Receipts Config Transactions.

(** ** Accounts and what is below *)

Record StateAccount := mkAccount { ac_Nonce : Z; ac_Balance : Z; ac_Root : Z; ac_CodeHash : Z }.
(** An account as it is loaded or as the zero value leaves it: the balance and
    the code hash may be nil. *)
Record rawAccount := mkRaw { ra_Nonce : Z; ra_Balance : option Z; ra_Root : Z; ra_CodeHash : option Z }.
(** The account of a snapshot layer: empty root and code hash are left out. *)
Record slimAccount := mkSlim { sl_Nonce : Z; sl_Balance : Z; sl_Root : option Z; sl_CodeHash : option Z }.

Record snapshotLayer := mkLayer {
  snap_Account : Z → option (option slimAccount);
  snap_Storage : Z → Z → option bytes
}.

Class Tries (T S : Type) := {
  GetAccount : T → Z → option (option rawAccount);
  UpdateAccount : Z → StateAccount → T → option T;
  DeleteAccount : Z → T → option T;
  trie_Hash : T → Z;
  OpenStorageTrie : Z → Z → Z → option S;
  GetStorage : S → Z → Z → option bytes;
  UpdateStorage : Z → Z → bytes → S → option S;
  DeleteStorage : Z → Z → S → option S;
  storage_Hash : S → Z;
  ContractCode : Z → Z → option bytes;
  ContractCodeSize : Z → Z → Z * bool
}.

Definition ripemd : Z := 3.

(** ** The access list *)

Record accessListT := mkAL { al_addresses : gmap Z Z; al_slots : list (gset Z) }.

Definition newAccessList : accessListT := mkAL ∅ [].

Definition ContainsAddress (a : Z) (al : accessListT) : bool := bool_decide (is_Some (al_addresses al !! a)).

Definition Contains (a slot : Z) (al : accessListT) : outcome Empty_set (bool * bool) :=
  match al_addresses al !! a with
  | None => Ok (false, false)
  | Some idx =>
      if idx =? -1 then Ok (true, false)
      else slotmap ← deref (al_slots al !! Z.to_nat idx : option (gset Z));
           Ok (true, bool_decide (slot ∈ slotmap))
  end.

Definition AddAddress (a : Z) (al : accessListT) : bool * accessListT :=
  if ContainsAddress a al then (false, al) else (true, mkAL (<[a := -1]> (al_addresses al)) (al_slots al)).

Definition AddSlot (a slot : Z) (al : accessListT) : outcome Empty_set (bool * bool * accessListT) :=
  let fresh addrPresent :=
    Ok (negb addrPresent, true, mkAL (<[a := zlen (al_slots al)]> (al_addresses al)) (al_slots al ++ [{[ slot ]}])) in
  match al_addresses al !! a with
  | None => fresh false
  | Some idx =>
      if idx =? -1 then fresh true else
      slotmap ← deref (al_slots al !! Z.to_nat idx : option (gset Z));
      if bool_decide (slot ∈ slotmap) then Ok (false, false, al)
      else Ok (false, true, mkAL (al_addresses al) (<[Z.to_nat idx := {[ slot ]} ∪ slotmap]> (al_slots al)))
  end.

Definition DeleteSlot (a slot : Z) (al : accessListT) : outcome Empty_set accessListT :=
  idx ← deref (al_addresses al !! a);
  if idx <? 0 then Panic else
  slotmap ← deref (al_slots al !! Z.to_nat idx : option (gset Z));
  let slotmap : gset Z := slotmap ∖ {[ slot ]} in
  if bool_decide (slotmap = ∅) then Ok (mkAL (<[a := -1]> (al_addresses al)) (take (Z.to_nat idx) (al_slots al)))
  else Ok (mkAL (al_addresses al) (<[Z.to_nat idx := slotmap]> (al_slots al))).

Definition DeleteAddress (a : Z) (al : accessListT) : accessListT := mkAL (delete a (al_addresses al)) (al_slots al).

(** ** Transient storage *)

Definition transientStorageT : Type := gmap Z (gmap Z Z).
Definition ts_Set (a key value : Z) (t : transientStorageT) : transientStorageT :=
  <[a := <[key := value]> (default ∅ (t !! a))]> t.
Definition ts_Get (a key : Z) (t : transientStorageT) : Z :=
  match t !! a with None => 0 | Some st => default 0 (st !! key) end.

Section State.
Context {T S : Type} `{Trie : !Tries T S} (keccak : bytes → Z).

Definition EmptyCodeHash : Z := keccak [].

(** ** State objects *)

Record stateObject := mkObj {
  so_address : Z;
  so_data : StateAccount;
  so_trie : option S;
  so_code : option bytes;
  originStorage : gmap Z Z;
  pendingStorage : gmap Z Z;
  dirtyStorage : gmap Z Z;
  dirtyCode : bool;
  suicided : bool;
  deleted : bool
}.

Definition so_addrHash (o : stateObject) : Z := keccak (be_bytes 20 (so_address o)).
Definition so_Nonce (o : stateObject) : Z := ac_Nonce (so_data o).
Definition so_Balance (o : stateObject) : Z := ac_Balance (so_data o).
Definition so_CodeHash (o : stateObject) : Z := ac_CodeHash (so_data o).

Definition so_empty (o : stateObject) : bool :=
  (so_Nonce o =? 0) && (so_Balance o =? 0) && (so_CodeHash o =? EmptyCodeHash).

Definition newObject (address : Z) (d : rawAccount) : stateObject :=
  mkObj address (mkAccount (ra_Nonce d) (default 0 (ra_Balance d)) (if ra_Root d =? 0 then EmptyRootHash else ra_Root d)
                   (default EmptyCodeHash (ra_CodeHash d)))
    None None ∅ ∅ ∅ false false false.

Definition set_data (d : StateAccount) (o : stateObject) : stateObject :=
  mkObj (so_address o) d (so_trie o) (so_code o) (originStorage o) (pendingStorage o) (dirtyStorage o) (dirtyCode o) (suicided o) (deleted o).
Definition so_setBalance (amount : Z) (o : stateObject) : stateObject :=
  set_data (mkAccount (so_Nonce o) amount (ac_Root (so_data o)) (so_CodeHash o)) o.
Definition so_setNonce (nonce : Z) (o : stateObject) : stateObject :=
  set_data (mkAccount nonce (so_Balance o) (ac_Root (so_data o)) (so_CodeHash o)) o.
Definition so_setRoot (root : Z) (o : stateObject) : stateObject :=
  set_data (mkAccount (so_Nonce o) (so_Balance o) root (so_CodeHash o)) o.
Definition so_setCode (codeHash : Z) (code : option bytes) (o : stateObject) : stateObject :=
  mkObj (so_address o) (mkAccount (so_Nonce o) (so_Balance o) (ac_Root (so_data o)) codeHash) (so_trie o) code
    (originStorage o) (pendingStorage o) (dirtyStorage o) true (suicided o) (deleted o).
Definition so_cacheCode (code : option bytes) (o : stateObject) : stateObject :=
  mkObj (so_address o) (so_data o) (so_trie o) code (originStorage o) (pendingStorage o) (dirtyStorage o) (dirtyCode o) (suicided o) (deleted o).
Definition so_setState (key value : Z) (o : stateObject) : stateObject :=
  mkObj (so_address o) (so_data o) (so_trie o) (so_code o) (originStorage o) (pendingStorage o) (<[key := value]> (dirtyStorage o))
    (dirtyCode o) (suicided o) (deleted o).
Definition so_setSuicided (b : bool) (o : stateObject) : stateObject :=
  mkObj (so_address o) (so_data o) (so_trie o) (so_code o) (originStorage o) (pendingStorage o) (dirtyStorage o) (dirtyCode o) b (deleted o).
Definition so_setDeleted (o : stateObject) : stateObject :=
  mkObj (so_address o) (so_data o) (so_trie o) (so_code o) (originStorage o) (pendingStorage o) (dirtyStorage o) (dirtyCode o) (suicided o) true.
Definition so_setTrie (t : S) (o : stateObject) : stateObject :=
  mkObj (so_address o) (so_data o) (Some t) (so_code o) (originStorage o) (pendingStorage o) (dirtyStorage o) (dirtyCode o) (suicided o) (deleted o).
Definition so_cacheSlot (key value : Z) (o : stateObject) : stateObject :=
  mkObj (so_address o) (so_data o) (so_trie o) (so_code o) (<[key := value]> (originStorage o)) (pendingStorage o) (dirtyStorage o)
    (dirtyCode o) (suicided o) (deleted o).

(** [finalise]: the dirty slots become pending. *)
Definition so_finalise (o : stateObject) : stateObject :=
  mkObj (so_address o) (so_data o) (so_trie o) (so_code o) (originStorage o) (dirtyStorage o ∪ pendingStorage o) ∅
    (dirtyCode o) (suicided o) (deleted o).

(** ** The journal and the database *)

Inductive journalEntry :=
| createObjectChange (account : Z)
| resetObjectChange (prev : stateObject) (prevdestruct : bool)
| suicideChange (account : Z) (prev : bool) (prevbalance : Z)
| balanceChange (account prev : Z)
| nonceChange (account prev : Z)
| storageChange (account key prevalue : Z)
| codeChange (account : Z) (prevcode : option bytes) (prevhash : Z)
| refundChange (prev : Z)
| addLogChange (txhash : Z)
| addPreimageChange (hash : Z)
| touchChange (account : Z)
| accessListAddAccountChange (address : Z)
| accessListAddSlotChange (address slot : Z)
| transientStorageChange (account key prevalue : Z).

Definition dirtied (e : journalEntry) : option Z :=
  match e with
  | createObjectChange a | suicideChange a _ _ | balanceChange a _ | nonceChange a _ | storageChange a _ _
  | codeChange a _ _ | touchChange a => Some a
  | _ => None
  end.

Record stateDB := mkState {
  sd_trie : T;
  originalRoot : Z;
  snap : option snapshotLayer;
  stateObjects : gmap Z stateObject;
  stateObjectsPending : gset Z;
  stateObjectsDirty : gset Z;
  stateObjectsDestruct : gset Z;
  dbErr : bool;
  refund : Z;
  thash : Z;
  txIndex : Z;
  logs : gmap Z (list Log);
  logSize : Z;
  preimages : gmap Z bytes;
  accessListOf : accessListT;
  transientOf : transientStorageT;
  entries : list journalEntry;
  dirties : gmap Z Z;
  validRevisions : list (Z * nat);
  nextRevisionId : Z
}.

(** [New], with the trie opened at the root. *)
Definition New (t : T) (root : Z) (layer : option snapshotLayer) : stateDB :=
  mkState t root layer ∅ ∅ ∅ ∅ false 0 0 0 ∅ 0 ∅ newAccessList ∅ [] ∅ [] 0.

(** Field updates. *)
Definition set_objects (v : gmap Z stateObject) (s : stateDB) : stateDB :=
  mkState (sd_trie s) (originalRoot s) (snap s) v (stateObjectsPending s) (stateObjectsDirty s) (stateObjectsDestruct s) (dbErr s)
    (refund s) (thash s) (txIndex s) (logs s) (logSize s) (preimages s) (accessListOf s) (transientOf s) (entries s) (dirties s)
    (validRevisions s) (nextRevisionId s).
Definition set_sets (pending dirty destruct : gset Z) (s : stateDB) : stateDB :=
  mkState (sd_trie s) (originalRoot s) (snap s) (stateObjects s) pending dirty destruct (dbErr s)
    (refund s) (thash s) (txIndex s) (logs s) (logSize s) (preimages s) (accessListOf s) (transientOf s) (entries s) (dirties s)
    (validRevisions s) (nextRevisionId s).
Definition set_trie (t : T) (s : stateDB) : stateDB :=
  mkState t (originalRoot s) (snap s) (stateObjects s) (stateObjectsPending s) (stateObjectsDirty s) (stateObjectsDestruct s) (dbErr s)
    (refund s) (thash s) (txIndex s) (logs s) (logSize s) (preimages s) (accessListOf s) (transientOf s) (entries s) (dirties s)
    (validRevisions s) (nextRevisionId s).
Definition setError (s : stateDB) : stateDB :=
  mkState (sd_trie s) (originalRoot s) (snap s) (stateObjects s) (stateObjectsPending s) (stateObjectsDirty s) (stateObjectsDestruct s) true
    (refund s) (thash s) (txIndex s) (logs s) (logSize s) (preimages s) (accessListOf s) (transientOf s) (entries s) (dirties s)
    (validRevisions s) (nextRevisionId s).
Definition set_refund (v : Z) (s : stateDB) : stateDB :=
  mkState (sd_trie s) (originalRoot s) (snap s) (stateObjects s) (stateObjectsPending s) (stateObjectsDirty s) (stateObjectsDestruct s) (dbErr s)
    v (thash s) (txIndex s) (logs s) (logSize s) (preimages s) (accessListOf s) (transientOf s) (entries s) (dirties s)
    (validRevisions s) (nextRevisionId s).
Definition SetTxContext (hash ti : Z) (s : stateDB) : stateDB :=
  mkState (sd_trie s) (originalRoot s) (snap s) (stateObjects s) (stateObjectsPending s) (stateObjectsDirty s) (stateObjectsDestruct s) (dbErr s)
    (refund s) hash ti (logs s) (logSize s) (preimages s) (accessListOf s) (transientOf s) (entries s) (dirties s)
    (validRevisions s) (nextRevisionId s).
Definition set_logs (v : gmap Z (list Log)) (n : Z) (s : stateDB) : stateDB :=
  mkState (sd_trie s) (originalRoot s) (snap s) (stateObjects s) (stateObjectsPending s) (stateObjectsDirty s) (stateObjectsDestruct s) (dbErr s)
    (refund s) (thash s) (txIndex s) v n (preimages s) (accessListOf s) (transientOf s) (entries s) (dirties s)
    (validRevisions s) (nextRevisionId s).
Definition set_preimages (v : gmap Z bytes) (s : stateDB) : stateDB :=
  mkState (sd_trie s) (originalRoot s) (snap s) (stateObjects s) (stateObjectsPending s) (stateObjectsDirty s) (stateObjectsDestruct s) (dbErr s)
    (refund s) (thash s) (txIndex s) (logs s) (logSize s) v (accessListOf s) (transientOf s) (entries s) (dirties s)
    (validRevisions s) (nextRevisionId s).
Definition set_access (v : accessListT) (t : transientStorageT) (s : stateDB) : stateDB :=
  mkState (sd_trie s) (originalRoot s) (snap s) (stateObjects s) (stateObjectsPending s) (stateObjectsDirty s) (stateObjectsDestruct s) (dbErr s)
    (refund s) (thash s) (txIndex s) (logs s) (logSize s) (preimages s) v t (entries s) (dirties s)
    (validRevisions s) (nextRevisionId s).
Definition set_journal (es : list journalEntry) (d : gmap Z Z) (s : stateDB) : stateDB :=
  mkState (sd_trie s) (originalRoot s) (snap s) (stateObjects s) (stateObjectsPending s) (stateObjectsDirty s) (stateObjectsDestruct s) (dbErr s)
    (refund s) (thash s) (txIndex s) (logs s) (logSize s) (preimages s) (accessListOf s) (transientOf s) es d
    (validRevisions s) (nextRevisionId s).
Definition set_revisions (v : list (Z * nat)) (n : Z) (s : stateDB) : stateDB :=
  mkState (sd_trie s) (originalRoot s) (snap s) (stateObjects s) (stateObjectsPending s) (stateObjectsDirty s) (stateObjectsDestruct s) (dbErr s)
    (refund s) (thash s) (txIndex s) (logs s) (logSize s) (preimages s) (accessListOf s) (transientOf s) (entries s) (dirties s) v n.

(** ** Journal operations *)

Definition bump (a : Z) (d : gmap Z Z) : gmap Z Z := <[a := default 0 (d !! a) + 1]> d.
Definition drop_one (a : Z) (d : gmap Z Z) : gmap Z Z :=
  let n := default 0 (d !! a) - 1 in if n =? 0 then delete a d else <[a := n]> d.

Definition append (e : journalEntry) (s : stateDB) : stateDB :=
  set_journal (entries s ++ [e]) (match dirtied e with Some a => bump a (dirties s) | None => dirties s end) s.
(** [journal.dirty]. *)
Definition mark_dirty (a : Z) (s : stateDB) : stateDB := set_journal (entries s) (bump a (dirties s)) s.

(** ** Finding objects *)

Definition setStateObject (o : stateObject) (s : stateDB) : stateDB := set_objects (<[so_address o := o]> (stateObjects s)) s.

(** The account below the live objects, and whether reading it failed. *)
Definition read_account (s : stateDB) (a : Z) : option rawAccount * bool :=
  let from_trie := match GetAccount (sd_trie s) a with Some d => (d, false) | None => (None, true) end in
  match snap s with
  | Some layer =>
      match snap_Account layer (keccak (be_bytes 20 a)) with
      | Some None => (None, false)
      | Some (Some acc) =>
          (Some (mkRaw (sl_Nonce acc) (Some (sl_Balance acc)) (match sl_Root acc with Some r => if r =? 0 then EmptyRootHash else r | None => EmptyRootHash end)
                   (Some (default EmptyCodeHash (sl_CodeHash acc)))), false)
      | None => from_trie
      end
  | None => from_trie
  end.

Definition getDeletedStateObject (a : Z) (s : stateDB) : option stateObject * stateDB :=
  match stateObjects s !! a with
  | Some o => (Some o, s)
  | None =>
      let '(data, err) := read_account s a in
      let s := if err : bool then setError s else s in
      match data with
      | None => (None, s)
      | Some d => let o := newObject a d in (Some o, setStateObject o s)
      end
  end.

Definition getStateObject (a : Z) (s : stateDB) : option stateObject * stateDB :=
  let '(o, s) := getDeletedStateObject a s in
  (match o with Some o => if deleted o then None else Some o | None => None end, s).

(** The new object and the one it replaced, if that was not deleted. *)
Definition createObject (a : Z) (s : stateDB) : stateObject * option stateObject * stateDB :=
  let '(prev, s) := getDeletedStateObject a s in
  let newobj := newObject a (mkRaw 0 None 0 None) in
  match prev with
  | None => (newobj, None, setStateObject newobj (append (createObjectChange a) s))
  | Some prev =>
      let prevdestruct := bool_decide (so_address prev ∈ stateObjectsDestruct s) in
      let s := if prevdestruct then s
               else set_sets (stateObjectsPending s) (stateObjectsDirty s) ({[ so_address prev ]} ∪ stateObjectsDestruct s) s in
      let s := setStateObject newobj (append (resetObjectChange prev prevdestruct) s) in
      (newobj, if deleted prev then None else Some prev, s)
  end.

Definition GetOrNewStateObject (a : Z) (s : stateDB) : stateObject * stateDB :=
  match getStateObject a s with
  | (Some o, s) => (o, s)
  | (None, s) => let '(o, _, s) := createObject a s in (o, s)
  end.

Definition CreateAccount (a : Z) (s : stateDB) : stateDB :=
  let '(newobj, prev, s) := createObject a s in
  match prev with
  | Some prev => setStateObject (so_setBalance (so_Balance prev) newobj) s
  | None => s
  end.

(** ** Storage of an object *)

(** [value.SetBytes]: the last 32 bytes. *)
Definition hash_of_bytes (b : bytes) : Z := be_value (drop (length b - 32) b).
(** The value of an encoded slot, and whether it could not be decoded. *)
Definition slot_value (enc : bytes) : Z * bool :=
  if 0 <? zlen enc then
    match Split enc with
    | Ok (_, content, _) => (hash_of_bytes content, false)
    | _ => (0, true)
    end
  else (0, false).

Definition getTrie (s : stateDB) (o : stateObject) : option S :=
  match so_trie o with
  | Some t => Some t
  | None => OpenStorageTrie (originalRoot s) (so_addrHash o) (ac_Root (so_data o))
  end.

(** Reading a slot below the caches of the object: the encoding, the storage
    trie if it was needed, [None] on an error. *)
Definition read_slot (s : stateDB) (o : stateObject) (key : Z) : option bytes * option S :=
  let from_trie :=
    match getTrie s o with
    | None => (None, None)
    | Some t => (GetStorage t (so_address o) key, Some t)
    end in
  match snap s with
  | Some layer =>
      match snap_Storage layer (so_addrHash o) (keccak (be_bytes 32 key)) with
      | Some enc => (Some enc, None)
      | None => from_trie
      end
  | None => from_trie
  end.

Definition so_GetCommittedState (key : Z) (o : stateObject) (s : stateDB) : Z * stateObject * stateDB :=
  match pendingStorage o !! key with
  | Some v => (v, o, s)
  | None =>
      match originStorage o !! key with
      | Some v => (v, o, s)
      | None =>
          if bool_decide (so_address o ∈ stateObjectsDestruct s) then (0, o, s) else
          let '(enc, t) := read_slot s o key in
          let o := match t with Some t => so_setTrie t o | None => o end in
          match enc with
          | None => (0, o, setError s)
          | Some enc =>
              let '(v, err) := slot_value enc in
              (v, so_cacheSlot key v o, if err : bool then setError s else s)
          end
      end
  end.

Definition so_GetState (key : Z) (o : stateObject) (s : stateDB) : Z * stateObject * stateDB :=
  match dirtyStorage o !! key with
  | Some v => (v, o, s)
  | None => so_GetCommittedState key o s
  end.

(** [Code] of an object. *)
Definition so_Code (o : stateObject) (s : stateDB) : option bytes * stateObject * stateDB :=
  match so_code o with
  | Some c => (Some c, o, s)
  | None =>
      if so_CodeHash o =? EmptyCodeHash then (None, o, s)
      else match ContractCode (so_addrHash o) (so_CodeHash o) with
           | Some c => (Some c, so_cacheCode (Some c) o, s)
           | None => (None, so_cacheCode None o, setError s)
           end
  end.

(** The database may know the size without loading the code. *)
Definition so_CodeSize (o : stateObject) (s : stateDB) : Z * stateDB :=
  match so_code o with
  | Some c => (zlen c, s)
  | None =>
      if so_CodeHash o =? EmptyCodeHash then (0, s)
      else let '(size, err) := ContractCodeSize (so_addrHash o) (so_CodeHash o) in (size, if err : bool then setError s else s)
  end.

(** ** Setters of an object: the change goes to the journal first *)

Definition touch (o : stateObject) (s : stateDB) : stateDB :=
  let s := append (touchChange (so_address o)) s in
  if so_address o =? ripemd then mark_dirty (so_address o) s else s.

Definition so_SetBalance (amount : Z) (o : stateObject) (s : stateDB) : stateDB :=
  setStateObject (so_setBalance amount o) (append (balanceChange (so_address o) (so_Balance o)) s).
Definition so_AddBalance (amount : Z) (o : stateObject) (s : stateDB) : stateDB :=
  if amount =? 0 then (if so_empty o then touch o s else s)
  else so_SetBalance (so_Balance o + amount) o s.
Definition so_SubBalance (amount : Z) (o : stateObject) (s : stateDB) : stateDB :=
  if amount =? 0 then s else so_SetBalance (so_Balance o - amount) o s.
Definition so_SetNonce (nonce : Z) (o : stateObject) (s : stateDB) : stateDB :=
  setStateObject (so_setNonce nonce o) (append (nonceChange (so_address o) (so_Nonce o)) s).
Definition so_SetCode (codeHash : Z) (code : option bytes) (o : stateObject) (s : stateDB) : stateDB :=
  let '(prevcode, o, s) := so_Code o s in
  setStateObject (so_setCode codeHash code o) (append (codeChange (so_address o) prevcode (so_CodeHash o)) s).
Definition so_SetState (key value : Z) (o : stateObject) (s : stateDB) : stateDB :=
  let '(prev, o, s) := so_GetState key o s in
  let s := setStateObject o s in
  if prev =? value then s
  else setStateObject (so_setState key value o) (append (storageChange (so_address o) key prev) s).

(** ** Reading the state *)

Definition with_object {A} (a : Z) (s : stateDB) (missing : A) (f : stateObject → A) : A * stateDB :=
  let '(o, s) := getStateObject a s in (match o with Some o => f o | None => missing end, s).

Definition Exist (a : Z) (s : stateDB) : bool * stateDB := with_object a s false (fun _ => true).
Definition Empty (a : Z) (s : stateDB) : bool * stateDB := with_object a s true so_empty.
Definition GetBalance (a : Z) (s : stateDB) : Z * stateDB := with_object a s 0 so_Balance.
Definition GetNonce (a : Z) (s : stateDB) : Z * stateDB := with_object a s 0 so_Nonce.
Definition GetCodeHash (a : Z) (s : stateDB) : Z * stateDB := with_object a s 0 so_CodeHash.
Definition HasSuicided (a : Z) (s : stateDB) : bool * stateDB := with_object a s false suicided.

Definition GetCode (a : Z) (s : stateDB) : option bytes * stateDB :=
  match getStateObject a s with
  | (None, s) => (None, s)
  | (Some o, s) => let '(c, o, s) := so_Code o s in (c, setStateObject o s)
  end.
Definition GetCodeSize (a : Z) (s : stateDB) : Z * stateDB :=
  match getStateObject a s with (None, s) => (0, s) | (Some o, s) => so_CodeSize o s end.
Definition GetState (a key : Z) (s : stateDB) : Z * stateDB :=
  match getStateObject a s with
  | (None, s) => (0, s)
  | (Some o, s) => let '(v, o, s) := so_GetState key o s in (v, setStateObject o s)
  end.
Definition GetCommittedState (a key : Z) (s : stateDB) : Z * stateDB :=
  match getStateObject a s with
  | (None, s) => (0, s)
  | (Some o, s) => let '(v, o, s) := so_GetCommittedState key o s in (v, setStateObject o s)
  end.
Definition GetTransientState (a key : Z) (s : stateDB) : Z := ts_Get a key (transientOf s).
Definition GetRefund (s : stateDB) : Z := refund s.
Definition TxIndex (s : stateDB) : Z := txIndex s.

(** [GetLogs] writes the block's number and hash into the logs it returns. *)
Definition GetLogs (hash blockNumber blockHash : Z) (s : stateDB) : list Log * stateDB :=
  match logs s !! hash with
  | None => ([], s)
  | Some ls => let ls := map (locate blockNumber blockHash) ls in (ls, set_logs (<[hash := ls]> (logs s)) (logSize s) s)
  end.

(** ** Changing the state *)

Definition AddBalance (a amount : Z) (s : stateDB) : stateDB :=
  let '(o, s) := GetOrNewStateObject a s in so_AddBalance amount o s.
Definition SubBalance (a amount : Z) (s : stateDB) : stateDB :=
  let '(o, s) := GetOrNewStateObject a s in so_SubBalance amount o s.
Definition SetBalance (a amount : Z) (s : stateDB) : stateDB :=
  let '(o, s) := GetOrNewStateObject a s in so_SetBalance amount o s.
Definition SetNonce (a nonce : Z) (s : stateDB) : stateDB :=
  let '(o, s) := GetOrNewStateObject a s in so_SetNonce nonce o s.
Definition SetCode (a : Z) (code : option bytes) (s : stateDB) : stateDB :=
  let '(o, s) := GetOrNewStateObject a s in so_SetCode (keccak (default [] code)) code o s.
Definition SetState (a key value : Z) (s : stateDB) : stateDB :=
  let '(o, s) := GetOrNewStateObject a s in so_SetState key value o s.

Definition Suicide (a : Z) (s : stateDB) : bool * stateDB :=
  match getStateObject a s with
  | (None, s) => (false, s)
  | (Some o, s) =>
      let s := append (suicideChange a (suicided o) (so_Balance o)) s in
      (true, setStateObject (so_setBalance 0 (so_setSuicided true o)) s)
  end.

Definition setTransientState (a key value : Z) (s : stateDB) : stateDB :=
  set_access (accessListOf s) (ts_Set a key value (transientOf s)) s.
Definition SetTransientState (a key value : Z) (s : stateDB) : stateDB :=
  let prev := GetTransientState a key s in
  if prev =? value then s else setTransientState a key value (append (transientStorageChange a key prev) s).

Definition AddRefund (gas : Z) (s : stateDB) : stateDB :=
  set_refund (u64 (refund s + gas)) (append (refundChange (refund s)) s).
(** [SubRefund] panics when the counter would become negative. *)
Definition SubRefund (gas : Z) (s : stateDB) : outcome Empty_set stateDB :=
  let s := append (refundChange (refund s)) s in
  if refund s <? gas then Panic else Ok (set_refund (refund s - gas) s).

Definition AddLog (l : Log) (s : stateDB) : stateDB :=
  let s := append (addLogChange (thash s)) s in
  let l := mkLog (l_Address l) (l_Topics l) (l_Data l) (l_BlockNumber l) (thash s) (txIndex s) (l_BlockHash l) (logSize s) (l_Removed l) in
  set_logs (<[thash s := default [] (logs s !! thash s) ++ [l]]> (logs s)) (logSize s + 1) s.

Definition AddPreimage (hash : Z) (preimage : bytes) (s : stateDB) : stateDB :=
  match preimages s !! hash with
  | Some _ => s
  | None => let s := append (addPreimageChange hash) s in set_preimages (<[hash := preimage]> (preimages s)) s
  end.

Definition AddAddressToAccessList (a : Z) (s : stateDB) : stateDB :=
  let '(added, al) := AddAddress a (accessListOf s) in
  let s := set_access al (transientOf s) s in
  if added : bool then append (accessListAddAccountChange a) s else s.
Definition AddSlotToAccessList (a slot : Z) (s : stateDB) : outcome Empty_set stateDB :=
  '(addrMod, slotMod, al) ← AddSlot a slot (accessListOf s);
  let s := set_access al (transientOf s) s in
  let s := if addrMod : bool then append (accessListAddAccountChange a) s else s in
  Ok (if slotMod : bool then append (accessListAddSlotChange a slot) s else s).

Definition AddressInAccessList (a : Z) (s : stateDB) : bool := ContainsAddress a (accessListOf s).
Definition SlotInAccessList (a slot : Z) (s : stateDB) : outcome Empty_set (bool * bool) := Contains a slot (accessListOf s).

(** The precompiled contracts are at the addresses 1 to 4, 8 and 9. *)
Definition ActivePrecompiles (rules : RulesT) : list Z :=
  if r_IsBerlin rules then seqZ 1 9
  else if r_IsIstanbul rules then seqZ 1 9
  else if r_IsByzantium rules then seqZ 1 8
  else seqZ 1 4.

(** [Prepare] starts a fresh access list; nothing of it is journalled. *)
Definition prepare_tuple (al : outcome Empty_set accessListT) (el : AccessTuple) : outcome Empty_set accessListT :=
  al ← al;
  foldl (fun al key => al ← al; '(_, _, al) ← AddSlot (at_Address el) key al; Ok al)
    (Ok (AddAddress (at_Address el) al).2) (at_StorageKeys el).
Definition Prepare (rules : RulesT) (sender coinbase : Z) (dst : option Z) (precompiles : list Z) (list : list AccessTuple) (s : stateDB)
    : outcome Empty_set stateDB :=
  al ← (if r_IsBerlin rules then
          let al := (AddAddress sender newAccessList).2 in
          let al := match dst with Some d => (AddAddress d al).2 | None => al end in
          let al := foldl (fun al a => (AddAddress a al).2) al precompiles in
          al ← foldl prepare_tuple (Ok al) list;
          Ok (if r_IsShanghai rules then (AddAddress coinbase al).2 else al)
        else Ok (accessListOf s));
  Ok (set_access al ∅ s).

(** ** Undoing *)

(** [revert] of an entry. An object that is gone is a nil dereference, but for
    [suicideChange]. *)
Definition on_object (a : Z) (f : stateObject → stateObject) (s : stateDB) : outcome Empty_set stateDB :=
  let '(o, s) := getStateObject a s in
  o ← deref o; Ok (setStateObject (f o) s).
Definition revert_entry (e : journalEntry) (s : stateDB) : outcome Empty_set stateDB :=
  match e with
  | createObjectChange a =>
      Ok (set_objects (delete a (stateObjects s))
            (set_sets (stateObjectsPending s) (stateObjectsDirty s ∖ {[ a ]}) (stateObjectsDestruct s) s))
  | resetObjectChange prev prevdestruct =>
      let s := setStateObject prev s in
      Ok (if prevdestruct : bool then s
          else set_sets (stateObjectsPending s) (stateObjectsDirty s) (stateObjectsDestruct s ∖ {[ so_address prev ]}) s)
  | suicideChange a prev prevbalance =>
      let '(o, s) := getStateObject a s in
      Ok (match o with Some o => setStateObject (so_setBalance prevbalance (so_setSuicided prev o)) s | None => s end)
  | balanceChange a prev => on_object a (so_setBalance prev) s
  | nonceChange a prev => on_object a (so_setNonce prev) s
  | storageChange a key prevalue => on_object a (so_setState key prevalue) s
  | codeChange a prevcode prevhash => on_object a (so_setCode prevhash prevcode) s
  | refundChange prev => Ok (set_refund prev s)
  | addLogChange txhash =>
      let ls := default [] (logs s !! txhash) in
      if (length ls =? 1)%nat then Ok (set_logs (delete txhash (logs s)) (logSize s - 1) s)
      else if (length ls =? 0)%nat then Panic
      else Ok (set_logs (<[txhash := take (length ls - 1) ls]> (logs s)) (logSize s - 1) s)
  | addPreimageChange hash => Ok (set_preimages (delete hash (preimages s)) s)
  | touchChange _ => Ok s
  | accessListAddAccountChange a => Ok (set_access (DeleteAddress a (accessListOf s)) (transientOf s) s)
  | accessListAddSlotChange a slot => al ← DeleteSlot a slot (accessListOf s); Ok (set_access al (transientOf s) s)
  | transientStorageChange a key prevalue => Ok (setTransientState a key prevalue s)
  end.

(** [journal.revert]: the last [n] entries, newest first, each with its mark in
    [dirties]. *)
Fixpoint revert_loop (rev_entries : list journalEntry) (s : stateDB) : outcome Empty_set stateDB :=
  match rev_entries with
  | [] => Ok s
  | e :: es =>
      s ← revert_entry e s;
      revert_loop es (set_journal (entries s) (match dirtied e with Some a => drop_one a (dirties s) | None => dirties s end) s)
  end.
Definition journal_revert (snapshot : nat) (s : stateDB) : outcome Empty_set stateDB :=
  s ← revert_loop (reverse (drop snapshot (entries s))) s;
  Ok (set_journal (take snapshot (entries s)) (dirties s) s).

Definition Snapshot (s : stateDB) : Z * stateDB :=
  (nextRevisionId s, set_revisions (validRevisions s ++ [(nextRevisionId s, length (entries s))]) (nextRevisionId s + 1) s).

(** [sort.Search] returns the first index at which the (monotone) test holds. *)
Definition RevertToSnapshot (revid : Z) (s : stateDB) : outcome Empty_set stateDB :=
  match list_find (fun r => revid ≤ r.1) (validRevisions s) with
  | Some (idx, (id, snapshot)) =>
      if id =? revid then
        s ← journal_revert snapshot s;
        Ok (set_revisions (take idx (validRevisions s)) (nextRevisionId s) s)
      else Panic
  | None => Panic
  end.

(** ** The end of a transaction *)

Definition clearJournalAndRefund (s : stateDB) : stateDB :=
  let s := if (0 <? length (entries s))%nat then set_refund 0 (set_journal [] ∅ s) else s in
  set_revisions [] (nextRevisionId s) s.

(** One dirty account; the accounts are independent of each other, so the order
    in which the map is ranged over does not matter. *)
Definition finalise_one (deleteEmptyObjects : bool) (s : stateDB) (a : Z) : stateDB :=
  match stateObjects s !! a with
  | None => s
  | Some o =>
      if suicided o || (deleteEmptyObjects && so_empty o) then
        set_sets ({[ a ]} ∪ stateObjectsPending s) ({[ a ]} ∪ stateObjectsDirty s) ({[ so_address o ]} ∪ stateObjectsDestruct s)
          (set_objects (<[a := so_setDeleted o]> (stateObjects s)) s)
      else
        set_sets ({[ a ]} ∪ stateObjectsPending s) ({[ a ]} ∪ stateObjectsDirty s) (stateObjectsDestruct s)
          (set_objects (<[a := so_finalise o]> (stateObjects s)) s)
  end.
Definition Finalise (deleteEmptyObjects : bool) (s : stateDB) : stateDB :=
  clearJournalAndRefund (foldl (finalise_one deleteEmptyObjects) s (map_to_list (dirties s)).*1).

(** ** Writing to the tries *)

Definition so_setOrigin (origin : gmap Z Z) (o : stateObject) : stateObject :=
  mkObj (so_address o) (so_data o) (so_trie o) (so_code o) origin (pendingStorage o) (dirtyStorage o) (dirtyCode o) (suicided o) (deleted o).
Definition so_clearPending (o : stateObject) : stateObject :=
  mkObj (so_address o) (so_data o) (so_trie o) (so_code o) (originStorage o) ∅ (dirtyStorage o) (dirtyCode o) (suicided o) (deleted o).

(** [common.TrimLeftZeroes]. *)
Fixpoint TrimLeftZeroes (b : bytes) : bytes :=
  match b with
  | x :: b' => if b2z x =? 0 then TrimLeftZeroes b' else b
  | [] => []
  end.

(** One pending slot: the storage trie and the clean values after it, and
    whether it was written. Slots are independent of each other. *)
Definition write_slot (address : Z) (st : S * gmap Z Z * bool) (kv : Z * Z) : S * gmap Z Z * bool :=
  let '(t, origin, ok) := st in
  if ok : bool then
    if kv.2 =? default 0 (origin !! kv.1) then st else
    let origin := <[kv.1 := kv.2]> origin in
    match (if kv.2 =? 0 then DeleteStorage address kv.1 t
           else UpdateStorage address kv.1 (from_ok [] (EncodeToBytes (VBytes (Some (TrimLeftZeroes (be_bytes 32 kv.2)))))) t) with
    | Some t => (t, origin, true)
    | None => (t, origin, false)
    end
  else st.

(** [updateTrie] and [updateRoot]; the flag tells whether an error was met. *)
Definition updateTrie (s : stateDB) (o : stateObject) : stateObject * bool :=
  let o := so_finalise o in
  if bool_decide (pendingStorage o = ∅) then (o, true) else
  match getTrie s o with
  | None => (o, false)
  | Some t =>
      let '(t, origin, ok) := foldl (write_slot (so_address o)) (t, originStorage o, true) (map_to_list (pendingStorage o)) in
      let o := so_setOrigin origin (so_setTrie t o) in
      (if ok then so_clearPending o else o, ok)
  end.
Definition updateRoot (s : stateDB) (o : stateObject) : stateObject * bool :=
  let '(o, ok) := updateTrie s o in
  (if ok then match so_trie o with Some t => so_setRoot (storage_Hash t) o | None => o end else o, ok).

(** The two loops of [IntermediateRoot] over the pending accounts. *)
Definition root_one (s : outcome Empty_set stateDB) (a : Z) : outcome Empty_set stateDB :=
  s ← s;
  o ← deref (stateObjects s !! a);
  if deleted o then Ok s else
  let '(o, ok) := updateRoot s o in
  let s := set_objects (<[a := o]> (stateObjects s)) s in
  Ok (if ok : bool then s else setError s).
Definition account_one (s : outcome Empty_set stateDB) (a : Z) : outcome Empty_set stateDB :=
  s ← s;
  o ← deref (stateObjects s !! a);
  Ok (match (if deleted o then DeleteAccount (so_address o) (sd_trie s) else UpdateAccount (so_address o) (so_data o) (sd_trie s)) with
      | Some t => set_trie t s
      | None => setError s
      end).
Definition IntermediateRoot (deleteEmptyObjects : bool) (s : stateDB) : outcome Empty_set (Z * stateDB) :=
  let s := Finalise deleteEmptyObjects s in
  let pending := elements (stateObjectsPending s) in
  s ← foldl root_one (Ok s) pending;
  s ← foldl account_one (Ok s) pending;
  let s := set_sets ∅ (stateObjectsDirty s) (stateObjectsDestruct s) s in
  Ok (trie_Hash (sd_trie s), s).

(** ** Copies *)

(** [Copy] keeps the objects that may differ from the trie, and starts an empty
    journal.  The dirty accounts become pending. *)
Definition deepCopy (o : stateObject) : stateObject :=
  let d := so_data o in
  set_data (mkAccount (ac_Nonce d) (ac_Balance d) (if ac_Root d =? 0 then EmptyRootHash else ac_Root d) (ac_CodeHash d)) o.
Definition Copy (s : stateDB) : outcome Empty_set stateDB :=
  let dirtied := base.filter (fun a => is_Some (stateObjects s !! a)) (dom (dirties s)) in
  let kept := dirtied ∪ stateObjectsPending s ∪ stateObjectsDirty s in
  if bool_decide (kept ⊆ dom (stateObjects s)) then
    Ok (mkState (sd_trie s) (originalRoot s) (snap s)
          (deepCopy <$> base.filter (fun kv => kv.1 ∈ kept) (stateObjects s))
          (dirtied ∪ stateObjectsPending s) (dirtied ∪ stateObjectsDirty s) (stateObjectsDestruct s) false (refund s) 0 0
          (logs s) (logSize s) (preimages s) (accessListOf s) (transientOf s) [] ∅ [] 0)
  else Panic.
End State.

Arguments stateDB : clear implicits.
Arguments stateObject : clear implicits.
Arguments journalEntry : clear implicits.
