(* ===== verification/StateJournal.v ===== *)
(** The journal of the state database undoes what it recorded.

    Two states are equivalent ([eqv]) when nobody can tell them apart by
    reading: they sit on the same tries, their accounts show the same data,
    code and storage, and the other fields agree.  They may differ in what
    has been cached, in slots rewritten with the value they had, and in the
    memo of database errors.  Each change of the state is a sequence of
    primitive steps ([good_step]): a silent one that keeps the state
    equivalent, or one that appends a journal entry whose undoing leads back
    to an equivalent state.

    The accounts in [X] are exempt from the comparison of the dirty counters:
    touching the RIPEMD precompile marks it twice and undoing unmarks it
    once, a deviation the code keeps for the sake of old blocks. *)

From S2P Require Import Prelude RLP Types Receipts Config Transactions State.

(** ** What can be observed of an object *)

Section Views.
Context {T S : Type} `{Trie : !Tries T S} (keccak : bytes → Z).
Implicit Types (s : stateDB T S) (o : stateObject S).

Definition load s (a : Z) : option (stateObject S) := newObject keccak a <$> (read_account keccak s a).1.
Definition view s (a : Z) : option (stateObject S) :=
  match stateObjects s !! a with Some o => Some o | None => load s a end.

(** Adding an element and taking it out again. *)
Lemma union_minus (x : Z) (D : gset Z) : x ∉ D → ({[ x ]} ∪ D) ∖ {[ x ]} = D.
Proof. intros Hx. apply leibniz_equiv. intros y. rewrite elem_of_difference, elem_of_union, elem_of_singleton. naive_solver. Qed.

(** Where an object reads its storage. *)
Definition same_base s s' : Prop := sd_trie s = sd_trie s' ∧ originalRoot s = originalRoot s' ∧ snap s = snap s'.

Definition committed s o (key : Z) : Z :=
  match pendingStorage o !! key with
  | Some v => v
  | None =>
      match originStorage o !! key with
      | Some v => v
      | None =>
          if bool_decide (so_address o ∈ stateObjectsDestruct s) then 0
          else match (read_slot keccak s o key).1 with Some enc => (slot_value enc).1 | None => 0 end
      end
  end.
Definition slot s o (key : Z) : Z := match dirtyStorage o !! key with Some v => v | None => committed s o key end.
Definition code o : option bytes :=
  match so_code o with
  | Some c => Some c
  | None => if so_CodeHash o =? EmptyCodeHash keccak then None else ContractCode (so_addrHash keccak o) (so_CodeHash o)
  end.

Record obj_eq s o o' : Prop := {
  oe_address : so_address o = so_address o';
  oe_data : so_data o = so_data o';
  oe_suicided : suicided o = suicided o';
  oe_deleted : deleted o = deleted o';
  oe_code : code o = code o';
  oe_committed k : deleted o = false → committed s o k = committed s o' k;
  oe_slot k : deleted o = false → slot s o k = slot s o' k
}.

Lemma committed_spec s o k : (so_GetCommittedState keccak k o s).1.1 = committed s o k.
Proof.
  unfold so_GetCommittedState, committed. destruct (pendingStorage o !! k); [done|]. destruct (originStorage o !! k); [done|].
  case_bool_decide; [done|]. destruct (read_slot keccak s o k) as [[enc|] t]; cbn; [|done]. by destruct (slot_value enc).
Qed.
Lemma slot_spec s o k : (so_GetState keccak k o s).1.1 = slot s o k.
Proof. unfold so_GetState, slot. destruct (dirtyStorage o !! k); [done|]. apply committed_spec. Qed.
Lemma code_spec s o : (so_Code keccak o s).1.1 = code o.
Proof. unfold so_Code, code. destruct (so_code o); [done|]. destruct (_ =? _); [done|]. by destruct (ContractCode _ _). Qed.

#[global] Instance obj_eq_equiv s : Equivalence (obj_eq s).
Proof.
  split.
  - by intros o.
  - intros o o' [H1 H2 H3 H4 H5 H6 H7]. split; try congruence; intros k Hd; symmetry; [apply H6|apply H7]; congruence.
  - intros o1 o2 o3 [H1 H2 H3 H4 H5 H6 H7] [G1 G2 G3 G4 G5 G6 G7].
    split; try congruence; intros k Hd; [rewrite H6 by done; apply G6|rewrite H7 by done; apply G7]; congruence.
Qed.

(** ** Equivalent states *)

(** The logs without the block they are in, which is written by whoever reads
    them. *)
Definition bare (m : gmap Z (list Log)) : gmap Z (list Log) := map (locate 0 0) <$> m.
Lemma bare_lookup m m' h : bare m = bare m' → map (locate 0 0) (default [] (m !! h)) = map (locate 0 0) (default [] (m' !! h)) ∧ (m !! h = None ↔ m' !! h = None).
Proof.
  intros E. apply (f_equal (lookup h)) in E. unfold bare in E. rewrite !lookup_fmap in E.
  by destruct (m !! h), (m' !! h); simplify_eq/=.
Qed.
Lemma bare_length m m' h : bare m = bare m' → length (default [] (m !! h)) = length (default [] (m' !! h)).
Proof. intros E. destruct (bare_lookup m m' h E) as [H _]. apply (f_equal length) in H. by rewrite !length_map in H. Qed.

Context (X : gset Z).
Definition dirt_eq (d d' : gmap Z Z) : Prop := ∀ a, a ∉ X → d !! a = d' !! a.

Record eqv s s' : Prop := {
  eq_base : same_base s s';
  eq_view a : option_Forall2 (obj_eq s) (view s a) (view s' a);
  eq_pending : stateObjectsPending s = stateObjectsPending s';
  eq_dirty : stateObjectsDirty s = stateObjectsDirty s';
  eq_destruct : stateObjectsDestruct s = stateObjectsDestruct s';
  eq_refund : refund s = refund s';
  eq_thash : thash s = thash s';
  eq_txIndex : txIndex s = txIndex s';
  eq_logs : bare (logs s) = bare (logs s');
  eq_logSize : logSize s = logSize s';
  eq_preimages : preimages s = preimages s';
  eq_access : accessListOf s = accessListOf s';
  eq_transient a k : ts_Get a k (transientOf s) = ts_Get a k (transientOf s');
  eq_dirties : dirt_eq (dirties s) (dirties s')
}.

(** Objects are compared below the same tries and destruct set. *)
Lemma committed_ext s s' o k : originalRoot s = originalRoot s' → snap s = snap s' →
  (so_address o ∈ stateObjectsDestruct s ↔ so_address o ∈ stateObjectsDestruct s') → committed s o k = committed s' o k.
Proof.
  intros Hr Hs Hd. unfold committed. rewrite (bool_decide_ext _ _ Hd). unfold read_slot, getTrie. by rewrite Hr, Hs.
Qed.
Lemma slot_ext s s' o k : originalRoot s = originalRoot s' → snap s = snap s' →
  (so_address o ∈ stateObjectsDestruct s ↔ so_address o ∈ stateObjectsDestruct s') → slot s o k = slot s' o k.
Proof. intros. unfold slot. by rewrite (committed_ext s s'). Qed.
Lemma obj_eq_ext s s' o o' : originalRoot s = originalRoot s' → snap s = snap s' →
  (so_address o ∈ stateObjectsDestruct s ↔ so_address o ∈ stateObjectsDestruct s') → obj_eq s o o' → obj_eq s' o o'.
Proof.
  intros Hr Hs Hd [Ha H1 H2 H3 H4 H5 H6]. split; try done; intros k Hk.
  - rewrite <- !(committed_ext s s') by (done || by rewrite <- Ha). by apply H5.
  - rewrite <- !(slot_ext s s') by (done || by rewrite <- Ha). by apply H6.
Qed.

Lemma opt_obj_ext s s' (x y : option (stateObject S)) : originalRoot s = originalRoot s' → snap s = snap s' →
  stateObjectsDestruct s = stateObjectsDestruct s' → option_Forall2 (obj_eq s) x y → option_Forall2 (obj_eq s') x y.
Proof. intros Hr Hs Hd [o o' Ho|]; constructor. apply (obj_eq_ext s); [done|done|by rewrite Hd|done]. Qed.

Lemma read_account_ext s s' a : same_base s s' → read_account keccak s a = read_account keccak s' a.
Proof. intros (H1 & _ & H3). unfold read_account. by rewrite H1, H3. Qed.
Lemma load_ext s s' a : same_base s s' → load s a = load s' a.
Proof. intros. unfold load. by rewrite (read_account_ext s s'). Qed.

#[global] Instance eqv_equiv : Equivalence eqv.
Proof.
  split.
  - intros s. by split.
  - intros s s' [(Hb1 & Hb2 & Hb3) Hv H3 H4 H5 H6 H7 H8 H9 H10 H11 H12 H13 H14]. split; try done; [|intros a Ha; symmetry; by apply H14].
    intros a. specialize (Hv a). destruct Hv as [o o' Ho|]; constructor. symmetry.
    apply (obj_eq_ext s); [done|done| |done]. by rewrite H5.
  - intros s1 s2 s3 [(Hb1 & Hb2 & Hb3) Hv H3 H4 H5 H6 H7 H8 H9 H10 H11 H12 H13 H14]
      [(Gb1 & Gb2 & Gb3) Gv G3 G4 G5 G6 G7 G8 G9 G10 G11 G12 G13 G14].
    split; try (intros; congruence); [by split_and!; etrans| |intros a Ha; rewrite H14 by done; by apply G14].
    intros a. specialize (Hv a). specialize (Gv a). destruct Hv as [o1 o2 Ho|]; [|inversion Gv; constructor].
    inversion Gv as [? o3 Ho'|]; subst. constructor. etrans; [exact Ho|]. apply (obj_eq_ext s2); [done|done|by rewrite H5|done].
Qed.

(** ** Well-formed states *)

Definition al_ok (al : accessListT) : Prop :=
  (∀ a idx, al_addresses al !! a = Some idx → idx = -1 ∨ (0 ≤ idx < zlen (al_slots al))) ∧
  (∀ st : gset Z, st ∈ al_slots al → st ≠ ∅).

Definition addr_ok s : Prop := ∀ a o, stateObjects s !! a = Some o → so_address o = a.

Record wf s : Prop := {
  wf_addr : addr_ok s;
  wf_written a : a ∈ stateObjectsDirty s ∪ stateObjectsPending s → is_Some (view s a);
  wf_logs h ls : logs s !! h = Some ls → ls ≠ [];
  wf_access : al_ok (accessListOf s);
  wf_dirties a n : a ∉ X → dirties s !! a = Some n → 0 < n
}.

Lemma view_addr s a o : addr_ok s → view s a = Some o → so_address o = a.
Proof.
  intros Hwf. unfold view. destruct (stateObjects s !! a) eqn:E; [intros [= <-]; eauto|].
  unfold load. destruct (read_account keccak s a).1; [|done]. by intros [= <-].
Qed.

Lemma wf_eqv s s' : eqv s s' → wf s → addr_ok s' → wf s'.
Proof.
  intros He [H1 H2 H3 H4 H5] Ha. split; [done|..].
  - intros a Hin. rewrite <- (eq_dirty _ _ He), <- (eq_pending _ _ He) in Hin. apply H2 in Hin as [o Ho].
    pose proof (eq_view _ _ He a) as Hv. rewrite Ho in Hv. inversion Hv; subst. eauto.
  - intros h ls Hl ->. destruct (bare_lookup _ _ h (eq_logs _ _ He)) as [E En]. rewrite Hl in E, En. cbn in E.
    destruct (logs s !! h) as [ls|] eqn:Es; [|by destruct En as [En _]; specialize (En eq_refl)]. cbn in E. apply H3 in Es. by destruct ls.
  - by rewrite <- (eq_access _ _ He).
  - intros a n HX. rewrite <- (eq_dirties _ _ He a HX). by apply H5.
Qed.

(** A step that changes only caches. *)
Record silent s s1 : Prop := {
  si_eqv : eqv s1 s;
  si_entries : entries s1 = entries s;
  si_dirties : dirties s1 = dirties s;
  si_revisions : validRevisions s1 = validRevisions s;
  si_next : nextRevisionId s1 = nextRevisionId s;
  si_addr : addr_ok s → addr_ok s1
}.
#[global] Instance silent_preorder : PreOrder silent.
Proof.
  split.
  - intros s. split; [reflexivity|done..].
  - intros s1 s2 s3 [] []. split; [etrans; eauto|congruence..|auto].
Qed.

Lemma view_put s o a : view (setStateObject o s) a = if decide (a = so_address o) then Some o else view s a.
Proof.
  unfold view, setStateObject. cbn. destruct (decide (a = so_address o)) as [->|]; [by rewrite lookup_insert_eq|].
  by rewrite lookup_insert_ne.
Qed.

Lemma put_addr s o : addr_ok s → addr_ok (setStateObject o s).
Proof. intros H a o'. cbn. intros [[<- <-]|[_ Ho]]%lookup_insert_Some; [done|eauto]. Qed.

Lemma eqv_put s s' o o' : eqv s s' → obj_eq s o o' → eqv (setStateObject o s) (setStateObject o' s').
Proof.
  intros [H1 H2 H3 H4 H5 H6 H7 H8 H9 H10 H11 H12 H13 H14] Ho. split; try done.
  intros a. rewrite !view_put, <- (oe_address _ _ _ Ho). 
  apply (opt_obj_ext s); try done. destruct (decide (a = so_address o)); [by constructor|apply H2].
Qed.

(** Putting back an object that looks the same. *)
Lemma silent_put s o o' : view s (so_address o) = Some o → obj_eq s o o' → silent s (setStateObject o' s).
Proof.
  intros Hv Ho. split; try done; [|apply put_addr]. split; try done.
  intros a. rewrite view_put, <- (oe_address _ _ _ Ho). 
  apply (opt_obj_ext s); try done. destruct (decide (a = so_address o)) as [->|]; [|reflexivity].
  rewrite Hv. constructor. by symmetry.
Qed.

Lemma silent_error s : silent s (setError s).
Proof. by split. Qed.

Lemma get_deleted a s : ∃ s1, getDeletedStateObject keccak a s = (view s a, s1) ∧ silent s s1 ∧
  ∀ o, view s a = Some o → stateObjects s1 !! a = Some o.
Proof.
  unfold getDeletedStateObject, view. destruct (stateObjects s !! a) as [o|] eqn:E.
  { exists s. split; [done|]. split; [reflexivity|]. by intros ? [= <-]. }
  unfold load. destruct (read_account keccak s a) as [[d|] err] eqn:Er; cbn.
  2:{ exists (if err : bool then setError s else s). split; [done|]. split; [|done]. destruct err; [apply silent_error|reflexivity]. }
  set (o := newObject keccak a d). set (s0 := if err : bool then setError s else s).
  assert (H0 : silent s s0) by (unfold s0; destruct err; [apply silent_error|reflexivity]).
  assert (Hv : view s0 a = Some o).
  { assert (stateObjects s0 !! a = None) as Hn by (unfold s0; by destruct err). unfold view. rewrite Hn.
    rewrite (load_ext s0 s) by apply H0. unfold load. by rewrite Er. }
  exists (setStateObject o s0). split; [done|]. split; [|intros ? [= <-]; apply lookup_insert_eq].
  etrans; [exact H0|]. by apply (silent_put s0 o).
Qed.

(** Looking up an object that is not deleted. *)
Definition alive s (a : Z) : option (stateObject S) :=
  match view s a with Some o => if deleted o then None else Some o | None => None end.
Lemma get_object a s : ∃ s1, getStateObject keccak a s = (alive s a, s1) ∧ silent s s1 ∧
  ∀ o, view s a = Some o → stateObjects s1 !! a = Some o.
Proof. destruct (get_deleted a s) as (s1 & E & Hs & Ho). unfold getStateObject, alive. rewrite E. eauto. Qed.

Lemma alive_view s a o : alive s a = Some o → view s a = Some o ∧ deleted o = false.
Proof. unfold alive. destruct (view s a) as [o'|]; [|done]. destruct (deleted o') eqn:E; [done|]. by intros [= <-]. Qed.

Lemma alive_eqv s s' a : eqv s s' → option_Forall2 (obj_eq s) (alive s a) (alive s' a).
Proof.
  intros He. pose proof (eq_view _ _ He a) as Hv. unfold alive. destruct Hv as [o o' Ho|]; [|constructor].
  rewrite <- (oe_deleted _ _ _ Ho). destruct (deleted o); by constructor.
Qed.

(** ** Writing to an object *)

Definition respects (f : stateObject S → stateObject S) : Prop :=
  (∀ o, so_address (f o) = so_address o) ∧ ∀ s o o', obj_eq s o o' → obj_eq s (f o) (f o').

Lemma respects_setBalance n : respects (so_setBalance n).
Proof.
  split; [done|]. intros s o o' [H1 H2 H3 H4 H5 H6 H7]. split; try done. cbn. unfold so_Nonce, so_CodeHash. by rewrite H2.
Qed.
Lemma respects_setNonce n : respects (so_setNonce n).
Proof.
  split; [done|]. intros s o o' [H1 H2 H3 H4 H5 H6 H7]. split; try done. cbn. unfold so_Balance, so_CodeHash. by rewrite H2.
Qed.
Lemma respects_setSuicided b : respects (so_setSuicided b).
Proof. split; [done|]. intros s o o' [H1 H2 H3 H4 H5 H6 H7]. by split. Qed.
Lemma respects_setState k v : respects (so_setState k v).
Proof.
  split; [done|]. intros s o o' [H1 H2 H3 H4 H5 H6 H7]. split; try done. intros k' Hd. unfold slot. cbn.
  destruct (decide (k = k')) as [->|]; [by rewrite !lookup_insert_eq|]. rewrite !lookup_insert_ne by done. by apply H7.
Qed.
Lemma respects_setCode h c : respects (so_setCode h c).
Proof.
  split; [done|]. intros s o o' [H1 H2 H3 H4 H5 H6 H7]. split; try done; cbn.
  - unfold so_Nonce, so_Balance. by rewrite H2.
  - unfold code. cbn. unfold so_addrHash, so_CodeHash. cbn. by rewrite H1.
Qed.
Lemma respects_compose f g : respects f → respects g → respects (fun o => f (g o)).
Proof. intros [H1 H2] [H3 H4]. split; [intros; by rewrite H1, H3|auto]. Qed.

Lemma on_object_eqv a f s s' t : respects f → eqv s s' → on_object keccak a f s = Ok t →
  ∃ t', on_object keccak a f s' = Ok t' ∧ eqv t t'.
Proof.
  intros [_ Hf] He. unfold on_object. destruct (get_object a s) as (s1 & -> & [H1 _ _ _ _ _] & _), (get_object a s') as (s1' & -> & [H1' _ _ _ _ _] & _).
  pose proof (alive_eqv s s' a He) as Ha. destruct Ha as [o o' Ho|]; cbn; [|done]. intros [= <-]. eexists. split; [done|].
  apply eqv_put; [etrans; [exact H1|]; etrans; [exact He|]; by symmetry|]. apply Hf.
  apply (obj_eq_ext s); [..|exact Ho]; [symmetry; apply H1|symmetry; apply H1|by rewrite (eq_destruct _ _ H1)].
Qed.

(** ** Undoing one entry *)

Definition unmark (e : journalEntry S) (d : gmap Z Z) : gmap Z Z :=
  match dirtied e with Some a => drop_one a d | None => d end.
Definition revert1 (e : journalEntry S) s : outcome Empty_set (stateDB T S) :=
  s ← revert_entry keccak e s; Ok (set_journal (entries s) (unmark e (dirties s)) s).

Lemma revert_loop_cons e es s : revert_loop keccak (e :: es) s = (s ← revert1 e s; revert_loop keccak es s).
Proof. cbn [revert_loop]. unfold revert1, unmark. by destruct (revert_entry keccak e s). Qed.

Lemma revert_loop_app es es' s : revert_loop keccak (es ++ es') s = (s ← revert_loop keccak es s; revert_loop keccak es' s).
Proof.
  revert s. induction es as [|e es IH]; intros s; [done|]. cbn [app]. rewrite !revert_loop_cons.
  destruct (revert1 e s) as [u| |]; [apply IH|done..].
Qed.

Lemma drop_one_eq a d d' : dirt_eq d d' → dirt_eq (drop_one a d) (drop_one a d').
Proof.
  intros H b Hb. unfold drop_one. destruct (decide (a = b)) as [->|Hne].
  - rewrite (H b Hb). case_if; [by rewrite !lookup_delete_eq|by rewrite !lookup_insert_eq].
  - repeat case_if; rewrite ?lookup_delete_ne, ?lookup_insert_ne by done; by apply H.
Qed.
Lemma unmark_eq e d d' : dirt_eq d d' → dirt_eq (unmark e d) (unmark e d').
Proof. unfold unmark. destruct (dirtied e); [apply drop_one_eq|done]. Qed.
Lemma unbump a d : (∀ n, a ∉ X → d !! a = Some n → 0 < n) → dirt_eq (drop_one a (bump a d)) d.
Proof.
  intros H b Hb. unfold drop_one, bump. rewrite lookup_insert_eq. cbn [from_option]. unfold id.
  replace (default 0 (d !! a) + 1 - 1) with (default 0 (d !! a)) by lia. destruct (decide (a = b)) as [->|Hne].
  - destruct (d !! b) as [n|] eqn:E; cbn [from_option]; unfold id.
    + pose proof (H n Hb eq_refl). rewrite (proj2 (Z.eqb_neq n 0)) by lia. by rewrite lookup_insert_eq.
    + cbn. by rewrite lookup_delete_eq.
  - case_if; rewrite ?lookup_delete_ne, ?lookup_insert_ne by done; by rewrite ?lookup_insert_ne by done.
Qed.

(** Changes of one field keep states equivalent. *)
Lemma eqv_forget s s' a P D : eqv s s' →
  eqv (set_objects (delete a (stateObjects s)) (set_sets P D (stateObjectsDestruct s) s))
      (set_objects (delete a (stateObjects s')) (set_sets P D (stateObjectsDestruct s') s')).
Proof.
  intros [H1 H2 H3 H4 H5 H6 H7 H8 H9 H10 H11 H12 H13 H14]. split; try done. intros b.
  apply (opt_obj_ext s); try done. specialize (H2 b). unfold view in *. cbn in *. destruct (decide (a = b)) as [->|Hne].
  - rewrite !lookup_delete_eq. rewrite (load_ext _ s') by done. reflexivity.
  - rewrite !lookup_delete_ne by done. exact H2.
Qed.
Ltac frame_eqv s :=
  split; try done; intros ?; apply (opt_obj_ext s); [done|done|done|match goal with H : ∀ a : Z, option_Forall2 _ _ _ |- _ => apply H end].
Lemma eqv_journal s s' es es' d d' : eqv s s' → dirt_eq d d' → eqv (set_journal es d s) (set_journal es' d' s').
Proof. intros [] ?. frame_eqv s. Qed.
Lemma eqv_marks s es d : dirt_eq d (dirties s) → eqv (set_journal es d s) s.
Proof. intros H. by split. Qed.
Lemma eqv_refund s s' v : eqv s s' → eqv (set_refund v s) (set_refund v s').
Proof. intros []. frame_eqv s. Qed.
Lemma eqv_logs s s' v v' n : eqv s s' → bare v = bare v' → eqv (set_logs v n s) (set_logs v' n s').
Proof. intros [] ?. frame_eqv s. Qed.
Lemma eqv_preimages s s' v : eqv s s' → eqv (set_preimages v s) (set_preimages v s').
Proof. intros []. frame_eqv s. Qed.
Lemma eqv_access s s' al t t' : eqv s s' → (∀ a k, ts_Get a k t = ts_Get a k t') → eqv (set_access al t s) (set_access al t' s').
Proof. intros [] ?. frame_eqv s. Qed.
Lemma eqv_revisions s s' v v' n n' : eqv s s' → eqv (set_revisions v n s) (set_revisions v' n' s').
Proof. intros []. frame_eqv s. Qed.

Lemma ts_Get_Set a k v t a' k' : ts_Get a' k' (ts_Set a k v t) = if decide (a' = a ∧ k' = k) then v else ts_Get a' k' t.
Proof.
  unfold ts_Get, ts_Set, transientStorageT in *. destruct (decide (a' = a)) as [->|Ha].
  - rewrite lookup_insert_eq. cbn beta iota. destruct (decide (k' = k)) as [->|Hk].
    + by rewrite lookup_insert_eq, decide_True.
    + rewrite lookup_insert_ne by done. rewrite decide_False by naive_solver. by destruct (t !! a).
  - rewrite lookup_insert_ne by done. by rewrite decide_False by naive_solver.
Qed.

(** The destruct set may differ where the replaced object is the same. *)
Lemma eqv_reset s s' prev D : addr_ok s → eqv s s' → (∀ a, a ≠ so_address prev → a ∈ D ↔ a ∈ stateObjectsDestruct s) →
  eqv (set_sets (stateObjectsPending s) (stateObjectsDirty s) D (setStateObject prev s))
      (set_sets (stateObjectsPending s') (stateObjectsDirty s') D (setStateObject prev s')).
Proof.
  intros Ha [H1 H2 H3 H4 H5 H6 H7 H8 H9 H10 H11 H12 H13 H14] HD. split; try done. intros a.
  change (view (set_sets ?p ?d ?D ?x) a) with (view x a). rewrite !view_put.
  destruct (decide (a = so_address prev)) as [->|Hne]; [by constructor|]. specialize (H2 a).
  destruct (view s a) as [o|] eqn:E; inversion H2 as [? o' Ho|]; subst; constructor.
  apply (obj_eq_ext s); [done|done| |done]. cbn. rewrite (view_addr s a o Ha E). by rewrite HD.
Qed.

Lemma on_object_addr a f s t : respects f → addr_ok s → on_object keccak a f s = Ok t → addr_ok t.
Proof.
  intros [Hf _] Ha. unfold on_object. destruct (get_object a s) as (s1 & -> & [_ _ _ _ _ H1] & _).
  destruct (alive s a) as [o|]; cbn; [|done]. intros [= <-]. apply put_addr. auto.
Qed.

Lemma eqv_suicide a f s s' : respects f → eqv s s' →
  let r s := let '(o, s) := getStateObject keccak a s in match o with Some o => setStateObject (f o) s | None => s end in eqv (r s) (r s').
Proof.
  intros [_ Hf] He. cbn zeta.
  destruct (get_object a s) as (s1 & -> & [H1 _ _ _ _ _] & _), (get_object a s') as (s1' & -> & [H1' _ _ _ _ _] & _).
  assert (He1 : eqv s1 s1') by (etrans; [exact H1|]; etrans; [exact He|by symmetry]).
  pose proof (alive_eqv s s' a He) as Ha. destruct Ha as [o o' Ho|]; [|done].
  apply eqv_put; [done|]. apply Hf.
  apply (obj_eq_ext s); [..|exact Ho]; [symmetry; apply H1|symmetry; apply H1|by rewrite (eq_destruct _ _ H1)].
Qed.

#[local] Hint Resolve respects_setBalance respects_setNonce respects_setSuicided respects_setState respects_setCode respects_compose : core.

Lemma revert_entry_eqv e s s' t : addr_ok s → eqv s s' → revert_entry keccak e s = Ok t →
  ∃ t', revert_entry keccak e s' = Ok t' ∧ eqv t t'.
Proof.
  intros Ha He Hr. destruct e; cbn [revert_entry] in *.
  - injection Hr as <-. eexists. split; [done|]. rewrite <- (eq_pending _ _ He), <- (eq_dirty _ _ He). by apply eqv_forget.
  - injection Hr as <-. eexists. split; [done|]. cbn.
    destruct prevdestruct; [by apply eqv_put|]. rewrite <- (eq_destruct _ _ He). apply eqv_reset; [done..|]. set_solver.
  - pose proof (eqv_suicide account (fun o => so_setBalance prevbalance (so_setSuicided prev o)) s s' ltac:(auto) He) as H.
    cbn beta zeta in H. destruct (getStateObject keccak account s), (getStateObject keccak account s').
    injection Hr as <-. eexists. split; [reflexivity|exact H].
  - eapply on_object_eqv; eauto.
  - eapply on_object_eqv; eauto.
  - eapply on_object_eqv; eauto.
  - eapply on_object_eqv; eauto.
  - injection Hr as <-. eexists. split; [done|]. by apply eqv_refund.
  - pose proof (eq_logs _ _ He) as El. rewrite <- (bare_length _ _ txhash El), <- (eq_logSize _ _ He).
    repeat case_if in Hr; simplify_eq; eexists; (split; [done|]); (apply eqv_logs; [done|]); unfold bare in *.
    + by rewrite !fmap_delete, El.
    + rewrite !fmap_insert, El. f_equal. rewrite <- !firstn_map. f_equal. by apply bare_lookup.
  - injection Hr as <-. eexists. split; [done|]. rewrite (eq_preimages _ _ He). by apply eqv_preimages.
  - injection Hr as <-. eauto.
  - injection Hr as <-. eexists. split; [done|]. rewrite (eq_access _ _ He). apply eqv_access, (eq_transient _ _ He); done.
  - rewrite <- (eq_access _ _ He). destruct (DeleteSlot address slot0 (accessListOf s)) as [al| |]; simplify_eq/=.
    eexists. split; [done|]. apply eqv_access, (eq_transient _ _ He); done.
  - injection Hr as <-. eexists. split; [done|]. unfold setTransientState. rewrite (eq_access _ _ He). apply eqv_access; [done|].
    intros. rewrite !ts_Get_Set. by rewrite (eq_transient _ _ He).
Qed.

Lemma revert1_eqv e s s' t : addr_ok s → eqv s s' → revert1 e s = Ok t → ∃ t', revert1 e s' = Ok t' ∧ eqv t t'.
Proof.
  intros Ha He. unfold revert1. destruct (revert_entry keccak e s) as [u| |] eqn:E; cbn; [|done..]. intros [= <-].
  apply (revert_entry_eqv e s s') in E as (u' & -> & Hu); [|done..]. eexists. split; [done|].
  apply eqv_journal; [done|]. apply unmark_eq, Hu.
Qed.

Lemma revert1_addr e s t : addr_ok s → revert1 e s = Ok t → addr_ok t.
Proof.
  intros Ha. unfold revert1. destruct (revert_entry keccak e s) as [u| |] eqn:E; cbn; [|done..]. intros [= <-].
  enough (addr_ok u) by done. revert E. destruct e; cbn [revert_entry];
    try (intros [= <-]; done); try (apply on_object_addr; [auto|done]).
  - intros [= <-] b o. cbn. intros [_ Hb]%lookup_delete_Some. eauto.
  - intros [= <-]. pose proof (put_addr s prev Ha). by destruct prevdestruct.
  - destruct (get_object account s) as (s1 & -> & [_ _ _ _ _ H1] & _). destruct (alive s account); intros [= <-]; [|auto].
    apply put_addr. auto.
  - repeat case_if; by intros [= <-].
  - destruct (DeleteSlot _ _ _); by intros [= <-].
Qed.

Lemma revert1_frame e s t : revert1 e s = Ok t →
  entries t = entries s ∧ validRevisions t = validRevisions s ∧ nextRevisionId t = nextRevisionId s.
Proof.
  unfold revert1. destruct (revert_entry keccak e s) as [u| |] eqn:E; cbn; [|done..]. intros [= <-]. cbn.
  enough (entries u = entries s ∧ validRevisions u = validRevisions s ∧ nextRevisionId u = nextRevisionId s) by done.
  assert (Hon : ∀ a f, on_object keccak a f s = Ok u →
    entries u = entries s ∧ validRevisions u = validRevisions s ∧ nextRevisionId u = nextRevisionId s).
  { intros a f. unfold on_object. destruct (get_object a s) as (s1 & -> & [_ H1 _ H2 H3 _] & _).
    destruct (alive s a); cbn; [|done]. by intros [= <-]. }
  revert E. destruct e; cbn [revert_entry]; try (intros [= <-]; done); try (apply Hon).
  - intros [= <-]. by destruct prevdestruct.
  - destruct (get_object account s) as (s1 & -> & [_ H1 _ H2 H3 _] & _). by destruct (alive s account); intros [= <-].
  - repeat case_if; by intros [= <-].
  - destruct (DeleteSlot _ _ _); by intros [= <-].
Qed.

(** ** Journalled steps *)

(** [undoable es s s0]: undoing [es], newest first, leads from [s] to a state
    equivalent to [s0], through well-formed states. *)
Fixpoint undoable (es : list (journalEntry S)) s s0 : Prop :=
  wf s ∧ match es with
         | [] => eqv s s0
         | e :: es => ∃ u, revert1 e s = Ok u ∧ undoable es u s0
         end.

Lemma undoable_wf es s s0 : undoable es s s0 → wf s.
Proof. by destruct es; intros []. Qed.

Lemma undoable_eqv es s s' s0 : undoable es s s0 → eqv s s' → addr_ok s' → undoable es s' s0.
Proof.
  revert s s'. induction es as [|e es IH]; intros s s' [Hwf H] He Ha; (split; [by eapply wf_eqv|]).
  - etrans; [by symmetry|done].
  - destruct H as (u & Hu & Hr). destruct (revert1_eqv e s s' u) as (u' & Hu' & He'); [apply Hwf|done..|].
    exists u'. split; [done|]. eapply IH; [done..|]. by eapply revert1_addr.
Qed.

Lemma undoable_loop es s s0 : undoable es s s0 →
  ∃ t, revert_loop keccak es s = Ok t ∧ eqv t s0 ∧ wf t ∧ entries t = entries s ∧
       validRevisions t = validRevisions s ∧ nextRevisionId t = nextRevisionId s.
Proof.
  revert s. induction es as [|e es IH]; intros s [Hwf H]; [by exists s|]. destruct H as (u & Hu & Hr).
  apply IH in Hr as (t & Ht & ? & ? & Hf1 & Hf2 & Hf3). apply revert1_frame in Hu as Hf. destruct Hf as (? & ? & ?).
  exists t. rewrite revert_loop_cons, Hu. cbn. split_and!; congruence || done.
Qed.

Lemma undoable_app es es' s s0 : undoable (es ++ es') s s0 →
  ∃ t, revert_loop keccak es s = Ok t ∧ undoable es' t s0 ∧ entries t = entries s ∧
       validRevisions t = validRevisions s ∧ nextRevisionId t = nextRevisionId s.
Proof.
  revert s. induction es as [|e es IH]; intros s H; [by exists s|]. destruct H as (Hwf & u & Hu & Hr).
  apply IH in Hr as (t & Ht & ? & Hf1 & Hf2 & Hf3). apply revert1_frame in Hu as Hf. destruct Hf as (? & ? & ?).
  exists t. rewrite revert_loop_cons, Hu. cbn. split_and!; congruence || done.
Qed.

Record logged (e : journalEntry S) s s' : Prop := {
  lo_entries : entries s' = entries s ++ [e];
  lo_revisions : validRevisions s' = validRevisions s;
  lo_next : nextRevisionId s' = nextRevisionId s;
  lo_wf : wf s';
  lo_undo : ∃ u, revert1 e s' = Ok u ∧ eqv u s
}.
Definition good_step s s' : Prop := wf s → silent s s' ∨ ∃ e, logged e s s'.
Definition steps : relation (stateDB T S) := rtc good_step.

Lemma silent_wf s s' : silent s s' → wf s → wf s'.
Proof. intros Hs Hw. eapply wf_eqv; [symmetry; apply Hs|done|]. apply Hs, Hw. Qed.

(** What a sequence of steps adds to the journal can be undone. *)
Lemma steps_undoable s s' es s0 : steps s s' → undoable es s s0 →
  ∃ es', undoable (es' ++ es) s' s0 ∧ entries s' = entries s ++ reverse es' ∧
         validRevisions s' = validRevisions s ∧ nextRevisionId s' = nextRevisionId s.
Proof.
  intros Hst. revert es. induction Hst as [s|s s1 s' H1 _ IH]; intros es Hu.
  { exists []. by rewrite app_nil_r. }
  pose proof (undoable_wf _ _ _ Hu) as Hwf. destruct (H1 Hwf) as [Hs|(e & [L1 L2 L3 L4 (u & Hr & He)])].
  - destruct (IH es) as (es' & ? & ? & ? & ?).
    { eapply undoable_eqv; [done|symmetry; apply Hs|]. apply Hs, Hwf. }
    destruct Hs. exists es'. split_and!; congruence || done.
  - destruct (IH (e :: es)) as (es' & Hu' & ? & ? & ?).
    { split; [done|]. exists u. split; [done|]. eapply undoable_eqv; [done|by symmetry|]. eapply revert1_addr; [apply L4|done]. }
    exists (es' ++ [e]). rewrite <- app_assoc, reverse_app, reverse_singleton. split_and!; [done|..|congruence|congruence].
    rewrite app_assoc, <- L1. done.
Qed.

Lemma steps_silent s s' : silent s s' → steps s s'.
Proof. intros H. apply rtc_once. intros _. by left. Qed.
Lemma steps_logged e s s' : (wf s → logged e s s') → steps s s'.
Proof. intros H. apply rtc_once. intros ?. right. eauto. Qed.
Lemma steps_wf s s' : steps s s' → wf s → wf s'.
Proof.
  induction 1 as [|s s1 s' H1 _ IH]; [done|]. intros Hwf. apply IH. destruct (H1 Hwf) as [Hs|(e & [])]; [by eapply silent_wf|done].
Qed.

Lemma wf_append e s : wf s → wf (append e s).
Proof.
  intros [H1 H2 H3 H4 H5]. split; try done. intros a n Ha. cbn. destruct (dirtied e) as [b|]; [|by apply H5].
  unfold bump. intros [[-> <-]|[_ ?]]%lookup_insert_Some; [|by eapply H5].
  destruct (dirties s !! a) as [m|] eqn:E; cbn; [apply H5 in E|]; unfold id; lia || done.
Qed.
Lemma wf_put o s : wf s → wf (setStateObject o s).
Proof.
  intros [H1 H2 H3 H4 H5]. split; try done; [by apply put_addr|]. intros a Ha. rewrite view_put. case_decide; [done|]. by apply H2.
Qed.
Lemma unmark_append e s : wf s → dirt_eq (unmark e (dirties (append e s))) (dirties s).
Proof. intros Hwf. unfold unmark, append. cbn. destruct (dirtied e) as [a|]; [|done]. apply unbump, Hwf. Qed.

Lemma eqv_back s o o1 o' es es' d d' : view s (so_address o') = Some o → obj_eq s o' o → so_address o1 = so_address o' → dirt_eq d (dirties s) →
  eqv (set_journal es d (setStateObject o' (setStateObject o1 (set_journal es' d' s)))) s.
Proof.
  intros Hv Ho Ha Hd. split; try done. intros b. apply (opt_obj_ext s); [done..|].
  change (view (set_journal ?x ?y ?z) b) with (view z b). rewrite !view_put, Ha. case_decide; [|reflexivity]. subst. rewrite Hv. by constructor.
Qed.

(** An entry that changes one object. *)
Lemma write_logged s o f g e : view s (so_address o) = Some o → (∀ o, so_address (f o) = so_address o) → (∀ o, so_address (g o) = so_address o) →
  obj_eq s (g (f o)) o →
  (∀ s1, stateObjects s1 !! so_address o = Some (f o) → revert_entry keccak e s1 = Ok (setStateObject (g (f o)) s1)) →
  wf s → logged e s (setStateObject (f o) (append e s)).
Proof.
  intros Hv Hf Hg Ho Hr Hwf. split; try done; [by apply wf_put, wf_append|]. unfold revert1.
  rewrite Hr by (cbn; by rewrite Hf, lookup_insert_eq). eexists. split; [done|].
  apply (eqv_back s o); [by rewrite Hg, Hf|done|by rewrite Hg|by apply unmark_append].
Qed.

Lemma get_here a s o : stateObjects s !! a = Some o → deleted o = false → getStateObject keccak a s = (Some o, s).
Proof. intros H Hd. unfold getStateObject, getDeletedStateObject. by rewrite H, Hd. Qed.
Lemma on_object_here a g s o : stateObjects s !! a = Some o → deleted o = false → on_object keccak a g s = Ok (setStateObject (g o) s).
Proof. intros H Hd. unfold on_object. by rewrite (get_here a s o). Qed.

(** ** Creating and finding objects *)

Lemma create_logged a s o : wf s → view s a = None → so_address o = a →
  logged (createObjectChange a) s (setStateObject o (append (createObjectChange a) s)).
Proof.
  intros Hwf Hv Ho. split; try done; [by apply wf_put, wf_append|]. eexists. split; [reflexivity|].
  assert (Hn : stateObjects s !! a = None) by (unfold view in Hv; by destruct (stateObjects s !! a)).
  assert (Hd : a ∉ stateObjectsDirty s).
  { intros Hin. destruct (wf_written _ Hwf a) as [? Ho']; [set_solver|congruence]. }
  split; try done.
  - intros b. apply (opt_obj_ext s); [done..|]. unfold view. cbn. rewrite Ho, delete_insert_id by done. change (load _ b) with (load s b). reflexivity.
  - cbn. set_solver.
  - by apply unmark_append.
Qed.

Lemma reset_logged s prev o (pd := bool_decide (so_address prev ∈ stateObjectsDestruct s)) :
  wf s → stateObjects s !! so_address prev = Some prev → so_address o = so_address prev →
  logged (resetObjectChange prev pd) s
    (setStateObject o (append (resetObjectChange prev pd)
       (if pd then s else set_sets (stateObjectsPending s) (stateObjectsDirty s) ({[ so_address prev ]} ∪ stateObjectsDestruct s) s))).
Proof.
  intros Hwf Hp Ho. destruct pd eqn:Epd; unfold pd in Epd; zbool.
  - split; try done; [by apply wf_put, wf_append|]. eexists. split; [reflexivity|].
    apply (eqv_back s prev); [|reflexivity|done|done]. unfold view. by rewrite Hp.
  - split; try done.
    { apply wf_put, wf_append. destruct Hwf. split; try done. }
    eexists. split; [reflexivity|]. split; try done; [|cbn; set_solver].
    pose proof (union_minus _ _ Epd) as HD.
    intros b. apply (opt_obj_ext s); [done|done|by cbn; rewrite HD|]. unfold view. cbn. rewrite Ho, insert_insert_eq.
    destruct (decide (b = so_address prev)) as [->|Hne]; [by rewrite lookup_insert_eq, Hp|]. rewrite lookup_insert_ne by done.
    change (load _ b) with (load s b). reflexivity.
Qed.

Lemma silent_view s s1 a : silent s s1 → view s a = None → view s1 a = None.
Proof. intros Hs H. pose proof (eq_view _ _ (si_eqv _ _ Hs) a) as Hv. rewrite H in Hv. by inversion Hv. Qed.
Lemma view_here s a o : stateObjects s !! a = Some o → view s a = Some o.
Proof. intros H. unfold view. by rewrite H. Qed.
Lemma view_put_eq s o : view (setStateObject o s) (so_address o) = Some o.
Proof. rewrite view_put. by rewrite decide_True. Qed.

Definition fresh (a : Z) : stateObject S := newObject keccak a (mkRaw 0 None 0 None).

Lemma put_put o o' s : so_address o = so_address o' → setStateObject o (setStateObject o' s) = setStateObject o s.
Proof. intros Ha. unfold setStateObject, set_objects. cbn. by rewrite Ha, insert_insert_eq. Qed.

(** A new object, or an object with the same address put in its place. *)
Lemma create_steps a s : addr_ok s →
  ∃ s1, createObject keccak a s = (fresh a, alive s a, s1) ∧ stateObjects s1 !! a = Some (fresh a) ∧ steps s s1 ∧
        ∀ o, so_address o = a → steps s (setStateObject o s1).
Proof.
  intros Ha. unfold createObject. destruct (get_deleted a s) as (s0 & -> & Hs & Hh). unfold alive.
  destruct (view s a) as [prev|] eqn:Ev; (eexists; split; [try reflexivity; by destruct (deleted prev)|]; split; [apply lookup_insert_eq|]).
  - pose proof (view_addr s a prev Ha Ev) as Hpa. specialize (Hh _ eq_refl). rewrite <- Hpa in Hh.
    assert (Hany : ∀ o, so_address o = a → steps s (setStateObject o (setStateObject (fresh a) (append (resetObjectChange prev (bool_decide (so_address prev ∈ stateObjectsDestruct s0)))
       (if bool_decide (so_address prev ∈ stateObjectsDestruct s0) then s0 else set_sets (stateObjectsPending s0) (stateObjectsDirty s0) ({[ so_address prev ]} ∪ stateObjectsDestruct s0) s0))))).
    { intros o Ho. rewrite put_put by done. trans s0; [by apply steps_silent|]. eapply steps_logged. intros Hwf. apply reset_logged; congruence. }
    split; [|exact Hany]. specialize (Hany (fresh a) eq_refl). by rewrite put_put in Hany.
  - assert (Hany : ∀ o, so_address o = a → steps s (setStateObject o (setStateObject (fresh a) (append (createObjectChange a) s0)))).
    { intros o Ho. rewrite put_put by done. trans s0; [by apply steps_silent|]. eapply steps_logged. intros Hwf.
      apply create_logged; [done| |done]. by eapply silent_view. }
    split; [|exact Hany]. specialize (Hany (fresh a) eq_refl). by rewrite put_put in Hany.
Qed.

Lemma get_or_new a s : addr_ok s →
  ∃ o s1, GetOrNewStateObject keccak a s = (o, s1) ∧ steps s s1 ∧ stateObjects s1 !! a = Some o ∧ so_address o = a ∧ deleted o = false.
Proof.
  intros Ha. unfold GetOrNewStateObject. destruct (get_object a s) as (s0 & -> & Hs & Hh). destruct (alive s a) as [o|] eqn:Ea.
  - apply alive_view in Ea as [Ev Hd]. exists o, s0. split_and!; [done|by apply steps_silent|auto|by eapply view_addr|done].
  - destruct (create_steps a s0) as (s1 & -> & H1 & H2 & _); [by apply Hs|]. exists (fresh a), s1. split_and!; try done.
    trans s0; [by apply steps_silent|done].
Qed.

Lemma CreateAccount_steps a s : addr_ok s → steps s (CreateAccount keccak a s).
Proof.
  intros Ha. unfold CreateAccount. destruct (create_steps a s Ha) as (s1 & -> & _ & H1 & H2). destruct (alive s a); [by apply H2|done].
Qed.

(** ** Caching what was read *)

(** Storing what was read of an object changes nothing that can be seen. *)
Lemma cached_code s o o' s' c : so_Code keccak o s = (c, o', s') →
  c = code o ∧ obj_eq s o o' ∧ (s' = s ∨ s' = setError s) ∧ so_address o' = so_address o ∧ so_CodeHash o' = so_CodeHash o ∧ deleted o' = deleted o.
Proof.
  unfold so_Code, code. destruct (so_code o) eqn:E; [intros [= <- <- <-]; by split_and!; auto|].
  case_if; [intros [= <- <- <-]; by split_and!; auto|].
  destruct (ContractCode _ _) as [c'|] eqn:Ec; intros [= <- <- <-]; (split_and!; auto); split; try done; unfold code; cbn.
  - rewrite E. change (so_CodeHash (so_cacheCode (Some c') o)) with (so_CodeHash o). by rewrite (proj2 (Z.eqb_neq _ _)), Ec.
  - by rewrite E.
Qed.

Lemma read_slot_trie s o k enc t : read_slot keccak s o k = (enc, Some t) → getTrie keccak s o = Some t.
Proof.
  unfold read_slot. destruct (getTrie keccak s o) as [t'|]; [|by destruct (snap s) as [l|]; [destruct (snap_Storage l _ _)|]].
  destruct (snap s) as [l|]; [destruct (snap_Storage l _ _)|]; by intros [= _ <-].
Qed.
Lemma committed_trie s o t k : getTrie keccak s o = Some t → committed s o k = committed s (so_setTrie t o) k.
Proof. intros Ht. unfold committed. cbn. unfold read_slot. by rewrite Ht. Qed.
Lemma obj_eq_trie s o t : getTrie keccak s o = Some t → obj_eq s o (so_setTrie t o).
Proof.
  intros Ht. split; try done; intros k _; [by apply committed_trie|]. unfold slot. cbn. by rewrite (committed_trie s o t).
Qed.
Lemma obj_eq_slot s o k : pendingStorage o !! k = None → obj_eq s o (so_cacheSlot k (committed s o k) o).
Proof.
  intros Hp. assert (Hc : ∀ k', committed s o k' = committed s (so_cacheSlot k (committed s o k) o) k').
  { intros k'. destruct (decide (k' = k)) as [->|Hne].
    - unfold committed at 2. cbn. by rewrite Hp, lookup_insert_eq.
    - unfold committed at 2. cbn. by rewrite lookup_insert_ne. }
  split; try done. intros k' _. unfold slot. cbn. by rewrite Hc.
Qed.

Lemma cached_committed s o k v o' s' : so_GetCommittedState keccak k o s = (v, o', s') →
  v = committed s o k ∧ obj_eq s o o' ∧ (s' = s ∨ s' = setError s).
Proof.
  intros E. assert (Hv : v = committed s o k) by (by rewrite <- committed_spec, E). split; [done|]. revert E Hv. unfold so_GetCommittedState.
  destruct (pendingStorage o !! k) eqn:Ep; [intros [= <- <- <-] _; by split; [|left]|].
  destruct (originStorage o !! k) eqn:Eo; [intros [= <- <- <-] _; by split; [|left]|].
  case_bool_decide as Hd; [intros [= <- <- <-] _; by split; [|left]|].
  destruct (read_slot keccak s o k) as [enc t] eqn:Er. set (o1 := match t with Some t => so_setTrie t o | None => o end).
  assert (Ho1 : obj_eq s o o1 ∧ committed s o k = committed s o1 k).
  { unfold o1. destruct t as [t|]; [|done]. apply read_slot_trie in Er. by split; [apply obj_eq_trie|apply committed_trie]. }
  destruct Ho1 as [Ho1 Ec1].
  destruct enc as [enc|]; [|intros [= <- <- <-] _; by split; [|right]]. destruct (slot_value enc) as [v' err]. intros [= <- <- <-] ->.
  split; [|destruct err; auto]. rewrite Ec1. etrans; [exact Ho1|]. apply obj_eq_slot. unfold o1. by destruct t.
Qed.
Lemma cached_slot s o k v o' s' : so_GetState keccak k o s = (v, o', s') →
  v = slot s o k ∧ obj_eq s o o' ∧ (s' = s ∨ s' = setError s).
Proof.
  unfold so_GetState, slot. destruct (dirtyStorage o !! k); [intros [= <- <- <-]; split_and!; [done..|by left]|]. apply cached_committed.
Qed.

(** Reading and putting the object back is silent. *)
Lemma silent_cache s s' o o' : view s (so_address o) = Some o → obj_eq s o o' → (s' = s ∨ s' = setError s) → silent s (setStateObject o' s').
Proof.
  intros Hv Ho [->| ->]; [by eapply silent_put|]. trans (setError s); [apply silent_error|].
  apply (silent_put _ o); [done|]. by apply (obj_eq_ext s).
Qed.

(** ** Every operation is made of such steps *)

(** A journalled write to an object that is in place. *)
Lemma write_steps s o f g e : stateObjects s !! so_address o = Some o → deleted o = false → respects f → respects g → deleted (f o) = deleted o →
  obj_eq s (g (f o)) o → (∀ s1, revert_entry keccak e s1 = on_object keccak (so_address o) g s1) →
  steps s (setStateObject (f o) (append e s)).
Proof.
  intros Hh Hd [Hf _] [Hg _] Hdf Ho Hr. apply (steps_logged e). apply (write_logged s o f g); try done; [by apply view_here|].
  intros s1 H1. rewrite Hr. apply on_object_here; congruence.
Qed.

Lemma SetBalance_steps n o s : stateObjects s !! so_address o = Some o → deleted o = false → steps s (so_SetBalance n o s).
Proof.
  intros. apply (write_steps s o (so_setBalance n) (so_setBalance (so_Balance o))); auto. destruct o as [? [] ? ? ? ? ? ? ? ?]. reflexivity.
Qed.
Lemma SetNonce_steps n o s : stateObjects s !! so_address o = Some o → deleted o = false → steps s (so_SetNonce n o s).
Proof.
  intros. apply (write_steps s o (so_setNonce n) (so_setNonce (so_Nonce o))); auto. destruct o as [? [] ? ? ? ? ? ? ? ?]. reflexivity.
Qed.

Lemma touch_steps o s : so_address o ≠ ripemd ∨ ripemd ∈ X → steps s (touch o s).
Proof.
  intros HX. apply (steps_logged (touchChange (so_address o))). intros Hwf. unfold touch. set (e := touchChange (so_address o)).
  destruct (so_address o =? ripemd) eqn:E; zbool.
  - assert (HinX : so_address o ∈ X) by (destruct HX; congruence). split; try done.
    + pose proof (wf_append e s Hwf) as [H1 H2 H3 H4 H5]. split; try done. intros a n Ha. cbn. unfold bump at 1.
      rewrite lookup_insert_ne by set_solver. by apply H5.
    + eexists. split; [reflexivity|]. refine (eqv_marks s _ _ _). intros b Hb. unfold unmark. cbn. unfold drop_one, bump.
      case_if; rewrite ?lookup_delete_ne, ?lookup_insert_ne by set_solver; rewrite ?lookup_insert_ne by set_solver; done.
  - split; try done; [by apply wf_append|]. eexists. split; [reflexivity|]. refine (eqv_marks s _ _ _). by apply unmark_append.
Qed.

Lemma so_AddBalance_steps n o s : ripemd ∈ X → stateObjects s !! so_address o = Some o → deleted o = false → steps s (so_AddBalance keccak n o s).
Proof.
  intros HX Hh Hd. unfold so_AddBalance. case_if; [|by apply SetBalance_steps]. case_if; [|reflexivity]. apply touch_steps. auto.
Qed.
Lemma so_SubBalance_steps n o s : stateObjects s !! so_address o = Some o → deleted o = false → steps s (so_SubBalance n o s).
Proof. intros Hh Hd. unfold so_SubBalance. case_if; [reflexivity|by apply SetBalance_steps]. Qed.

(** The cached object, then the journalled write of it. *)
Lemma cached_write_steps s s' o o' f g e : stateObjects s !! so_address o = Some o → deleted o = false → obj_eq s o o' → (s' = s ∨ s' = setError s) →
  respects f → respects g → deleted (f o') = deleted o' → obj_eq s (g (f o')) o' →
  (∀ s1, revert_entry keccak e s1 = on_object keccak (so_address o) g s1) →
  steps s (setStateObject (f o') (append e s')).
Proof.
  intros Hh Hd Ho Hs Hf Hg Hdf Hgf Hr. pose proof (oe_address _ _ _ Ho) as Ha.
  assert (Hb : originalRoot s = originalRoot s' ∧ snap s = snap s' ∧ stateObjectsDestruct s = stateObjectsDestruct s') by (by destruct Hs as [->| ->]).
  trans (setStateObject o' s'); [eapply steps_silent, (silent_cache s s' o); [by apply view_here|done..]|].
  replace (setStateObject (f o') (append e s')) with (setStateObject (f o') (append e (setStateObject o' s'))).
  - apply (write_steps _ o' f g); try done; [by cbn; rewrite lookup_insert_eq|by rewrite <- (oe_deleted _ _ _ Ho)|..].
    + destruct Hb as (? & ? & HD). apply (obj_eq_ext s); try done. by cbn; rewrite HD.
    + intros. rewrite Hr. by rewrite Ha.
  - change (append e (setStateObject o' s')) with (setStateObject o' (append e s')). apply put_put. by apply Hf.
Qed.

Lemma so_SetCode_steps h c o s : stateObjects s !! so_address o = Some o → deleted o = false → steps s (so_SetCode keccak h c o s).
Proof.
  intros Hh Hd. unfold so_SetCode. destruct (so_Code keccak o s) as [[pc o'] s'] eqn:E.
  apply cached_code in E as (-> & Ho & Hs & Ha & Hc & Hd').
  apply (cached_write_steps s s' o o' (so_setCode h c) (so_setCode (so_CodeHash o') (code o))); auto; [|by rewrite Ha].
  rewrite (oe_code _ _ _ Ho). split; try done; [by destruct o' as [? [] ? ? ? ? ? ? ? ?]|].
  unfold code at 1. cbn. destruct (code o') as [c'|] eqn:Ec; [done|]. revert Ec. unfold code. by destruct (so_code o').
Qed.

Lemma so_SetState_steps k v o s : stateObjects s !! so_address o = Some o → deleted o = false → steps s (so_SetState keccak k v o s).
Proof.
  intros Hh Hd. unfold so_SetState. destruct (so_GetState keccak k o s) as [[pv o'] s'] eqn:E. apply cached_slot in E as (-> & Ho & Hs).
  case_if; [eapply steps_silent, silent_cache; [by apply view_here|done..]|].
  change (append ?e (setStateObject o' s')) with (setStateObject o' (append e s')). rewrite put_put by done.
  apply (cached_write_steps s s' o o' (so_setState k v) (so_setState k (slot s o k))); auto; [|by rewrite (oe_address _ _ _ Ho)].
  split; try done. intros k' _. unfold slot at 1. cbn. destruct (decide (k' = k)) as [->|Hne].
  - rewrite lookup_insert_eq. by apply Ho.
  - by rewrite !lookup_insert_ne.
Qed.

Lemma Suicide_steps a s : addr_ok s → steps s (Suicide keccak a s).2.
Proof.
  intros Ha. unfold Suicide. destruct (get_object a s) as (s0 & -> & Hs & Hh). destruct (alive s a) as [o|] eqn:Ea; [|by apply steps_silent].
  apply alive_view in Ea as [Ev Hd]. specialize (Hh _ Ev). pose proof (view_addr s a o Ha Ev) as <-. cbn [snd].
  trans s0; [by apply steps_silent|]. eapply steps_logged.
  apply (write_logged s0 o (fun o => so_setBalance 0 (so_setSuicided true o)) (fun o' => so_setBalance (so_Balance o) (so_setSuicided (suicided o) o'))); try done.
  - by apply view_here.
  - by destruct o as [? [] ? ? ? ? ? ? ? ?].
  - intros s1 H1. cbn [revert_entry]. by rewrite (get_here _ _ _ H1 Hd).
Qed.

(** The other fields do not matter to well-formedness. *)
Ltac wf_frame := match goal with |- context [append ?e ?s] => match goal with H : wf s |- _ => destruct (wf_append e s H); by split end end.

Lemma SetTransientState_steps a k v s : steps s (SetTransientState a k v s).
Proof.
  unfold SetTransientState. case_if; [reflexivity|]. eapply steps_logged. intros Hwf. split; try done; [wf_frame|].
  eexists. split; [reflexivity|]. split; try done. intros a' k'. cbn. rewrite !ts_Get_Set. by case_decide as Hak; [destruct Hak as [-> ->]|].
Qed.

Lemma refund_steps v s : steps s (set_refund v (append (refundChange (refund s)) s)).
Proof. eapply steps_logged. intros Hwf. split; try done; [wf_frame|]. eexists. split; [reflexivity|]. by split. Qed.
Lemma AddRefund_steps gas s : steps s (AddRefund gas s).
Proof. apply refund_steps. Qed.
Lemma SubRefund_steps gas s s' : SubRefund gas s = Ok s' → steps s s'.
Proof. unfold SubRefund. case_if; [done|]. intros [= <-]. apply refund_steps. Qed.

Lemma AddPreimage_steps h b s : steps s (AddPreimage h b s).
Proof.
  unfold AddPreimage. destruct (preimages s !! h) eqn:E; [reflexivity|]. eapply steps_logged. intros Hwf.
  split; try done; [wf_frame|]. eexists. split; [reflexivity|]. split; try done. cbn. by rewrite delete_insert_id.
Qed.

Lemma AddLog_steps l s : steps s (AddLog l s).
Proof.
  unfold AddLog. eapply steps_logged. intros Hwf. set (e := addLogChange (thash s)). split; try done.
  - pose proof (wf_append e s Hwf) as [H1 H2 H3 H4 H5]. split; try done. cbn. intros h ls [[<- <-]|[_ ?]]%lookup_insert_Some; [|by eapply H3].
    by destruct (default [] _).
  - unfold revert1, e. cbn [revert_entry logs set_logs logSize thash append set_journal].
    rewrite lookup_insert_eq. cbn [from_option]. unfold id. rewrite length_app. cbn [length].
    destruct (logs s !! thash s) as [ls|] eqn:E; cbn [from_option]; unfold id.
    + pose proof (wf_logs _ Hwf _ _ E) as Hne. assert (length ls ≠ 0%nat) by (by destruct ls).
      rewrite (proj2 (Nat.eqb_neq (length ls + 1) 1)) by lia. rewrite (proj2 (Nat.eqb_neq (length ls + 1) 0)) by lia. cbn.
      eexists. split; [reflexivity|]. split; try done; cbn; [|lia].
      rewrite Nat.add_sub, take_app_length, insert_insert_eq. by rewrite insert_id.
    + eexists. split; [reflexivity|]. split; try done; cbn; [|lia]. by rewrite delete_insert_id.
Qed.

(** ** The access list *)

Lemma AddAddress_ok a al : al_ok al → al_ok (AddAddress a al).2.
Proof.
  intros [H1 H2]. unfold AddAddress. case_if; [done|]. split; [|done]. cbn. intros b idx [[_ <-]|[_ ?]]%lookup_insert_Some; [by left|eauto].
Qed.
Lemma AddAddress_undo a al : (AddAddress a al).1 = true → DeleteAddress a (AddAddress a al).2 = al.
Proof.
  unfold AddAddress, ContainsAddress. case_bool_decide as Hin; [done|]. intros _. destruct al as [m sl]. unfold DeleteAddress. cbn in *.
  f_equal. apply delete_insert_id. by apply eq_None_not_Some.
Qed.

(** Adding a slot to an account that is on the list. *)
Lemma AddSlot_ok a k al x y al' : al_ok al → AddSlot a k al = Ok (x, y, al') → al_ok al'.
Proof.
  intros [H1 H2]. unfold AddSlot. 
  assert (Hf : al_ok (mkAL (<[a := zlen (al_slots al)]> (al_addresses al)) (al_slots al ++ [{[ k ]}]))).
  { split; cbn.
    - intros b idx Hb. unfold zlen in *. rewrite length_app. cbn [length].
      apply lookup_insert_Some in Hb as [[_ <-]|[_ Hb]]; [right; lia|]. apply H1 in Hb as [?|?]; [by left|right; unfold zlen in *; lia].
    - intros st [?|?%list_elem_of_singleton]%elem_of_app; [eauto|]. subst. set_solver. }
  destruct (al_addresses al !! a) as [idx|] eqn:E; [|by intros [= _ _ <-]]. case_if; [by intros [= _ _ <-]|].
  destruct (al_slots al !! Z.to_nat idx) as [sm|] eqn:Es; [|done]. cbn [deref mbind outcome_bind]. case_bool_decide; intros [= _ _ <-]; [done|]. split; cbn.
  - intros b i Hb. unfold zlen. rewrite length_insert. eauto.
  - intros st (i & Hi)%list_elem_of_lookup. apply list_lookup_insert_Some in Hi as [(_ & <- & _)|[_ Hi]]; [set_solver|].
    apply H2. by eapply list_elem_of_lookup_2.
Qed.

Lemma AddSlot_total a k al : al_ok al → ∃ r, AddSlot a k al = Ok r.
Proof.
  intros [H1 _]. unfold AddSlot. destruct (al_addresses al !! a) as [idx|] eqn:E; [|eauto]. case_if; [eauto|].
  destruct (H1 _ _ E) as [?|Hi]; [done|]. destruct (lookup_lt_is_Some_2 (al_slots al) (Z.to_nat idx)) as [sm ->]; [unfold zlen in Hi; lia|].
  cbn [deref mbind outcome_bind]. case_bool_decide; eauto.
Qed.

Lemma AddSlot_undo a k al al' : al_ok al → AddSlot a k al = Ok (false, true, al') → DeleteSlot a k al' = Ok al.
Proof.
  intros [H1 H2]. unfold AddSlot, DeleteSlot. destruct al as [m sl]; cbn [al_addresses al_slots] in *.
  destruct (m !! a) as [idx|] eqn:E; [|done]. case_if.
  - subst idx. intros [= <-]. cbn [al_addresses al_slots]. rewrite lookup_insert_eq. cbn [deref mbind outcome_bind]. unfold zlen.
    rewrite (proj2 (Z.ltb_ge _ _)) by lia. rewrite Nat2Z.id, list_lookup_middle by done. cbn [deref mbind outcome_bind].
    rewrite bool_decide_true by set_solver. by rewrite take_app_length, insert_insert_eq, insert_id.
  - destruct (H1 _ _ E) as [?|Hi]; [done|].
    destruct (sl !! Z.to_nat idx) as [sm|] eqn:Es; [|done]. cbn [deref mbind outcome_bind]. case_bool_decide as Hk; [done|]. intros [= <-]. cbn [al_addresses al_slots]. rewrite E. cbn [deref mbind outcome_bind].
    rewrite (proj2 (Z.ltb_ge _ _)) by lia. rewrite list_lookup_insert_eq by (by eapply lookup_lt_Some). cbn [deref mbind outcome_bind].
    pose proof (H2 sm ltac:(by eapply list_elem_of_lookup_2)). rewrite (union_minus k sm Hk).
    rewrite bool_decide_false by done. by rewrite list_insert_insert_eq, list_insert_id.
Qed.

Lemma set_access_id s : set_access (accessListOf s) (transientOf s) s = s.
Proof. by destruct s. Qed.

Lemma AddAddress_steps a s : steps s (AddAddressToAccessList a s).
Proof.
  unfold AddAddressToAccessList. pose proof (AddAddress_ok a (accessListOf s)) as Hok. pose proof (AddAddress_undo a (accessListOf s)) as Hundo.
  destruct (AddAddress a (accessListOf s)) as [added al] eqn:E. cbn [fst snd] in *. destruct added.
  - eapply steps_logged. intros Hwf. split; try done.
    + destruct (wf_append (accessListAddAccountChange a) s Hwf). split; try done. by apply Hok.
    + eexists. split; [reflexivity|]. split; try done. cbn. by rewrite Hundo.
  - unfold AddAddress in E. case_if in E; simplify_eq. by rewrite set_access_id.
Qed.

(** A slot of an account that is on the list. *)
Lemma slot_logged a k s al : wf s → AddSlot a k (accessListOf s) = Ok (false, true, al) →
  logged (accessListAddSlotChange a k) s (append (accessListAddSlotChange a k) (set_access al (transientOf s) s)).
Proof.
  intros Hwf E. split; try done.
  - destruct (wf_append (accessListAddSlotChange a k) s Hwf). split; try done. eapply AddSlot_ok; [apply Hwf|done].
  - unfold revert1. cbn [revert_entry accessListOf append set_journal set_access]. rewrite (AddSlot_undo _ _ _ _ (wf_access _ Hwf) E).
    eexists. split; [reflexivity|]. by split.
Qed.

(** A new account takes two steps, a slot that is on the list takes none. *)
Lemma AddSlot_cases a k al x y al' : AddSlot a k al = Ok (x, y, al') →
  (x = true ∧ y = true ∧ ∃ al1, AddAddress a al = (true, al1) ∧ AddSlot a k al1 = Ok (false, true, al')) ∨
  (x = false ∧ y = true) ∨ (x = false ∧ y = false ∧ al' = al).
Proof.
  unfold AddSlot at 1, AddAddress, ContainsAddress. destruct (al_addresses al !! a) as [idx|] eqn:Ea.
  - case_if; [intros [= <- <- <-]; auto|]. destruct (al_slots al !! Z.to_nat idx); [|done]. cbn [deref mbind outcome_bind].
    case_bool_decide; intros [= <- <- <-]; auto.
  - intros [= <- <- <-]. left. split_and!; [done..|]. rewrite bool_decide_false by (by intros []). eexists. split; [done|].
    unfold AddSlot. cbn [al_addresses al_slots]. rewrite lookup_insert_eq. cbn. by rewrite insert_insert_eq.
Qed.

Lemma AddSlot_steps a k s s' : AddSlotToAccessList a k s = Ok s' → steps s s'.
Proof.
  unfold AddSlotToAccessList. destruct (AddSlot a k (accessListOf s)) as [[[x y] al]| |] eqn:E; cbn [mbind outcome_bind]; [|done..].
  intros [= <-]. destruct (AddSlot_cases _ _ _ _ _ _ E) as [(-> & -> & al1 & E1 & E2)|[[-> ->]|(-> & -> & ->)]].
  - trans (AddAddressToAccessList a s); [apply AddAddress_steps|]. apply (steps_logged (accessListAddSlotChange a k)). intros Hwf.
    unfold AddAddressToAccessList in *. rewrite E1 in *. apply (slot_logged a k _ al) in Hwf; [exact Hwf|done].
  - eapply steps_logged. intros Hwf. by apply slot_logged.
  - by rewrite set_access_id.
Qed.

(** ** Programs over the state *)

Inductive sop :=
| op_AddBalance (a v : Z) | op_SubBalance (a v : Z) | op_SetBalance (a v : Z) | op_SetNonce (a v : Z)
| op_SetCode (a : Z) (c : option bytes) | op_SetState (a k v : Z) | op_SetTransientState (a k v : Z)
| op_CreateAccount (a : Z) | op_Suicide (a : Z)
| op_AddRefund (v : Z) | op_SubRefund (v : Z) | op_AddLog (l : Log) | op_AddPreimage (h : Z) (b : bytes)
| op_AddAddress (a : Z) | op_AddSlot (a k : Z)
| op_GetBalance (a : Z) | op_GetNonce (a : Z) | op_GetCode (a : Z) | op_GetCodeHash (a : Z)
| op_GetState (a k : Z) | op_GetCommittedState (a k : Z) | op_Exist (a : Z) | op_Empty (a : Z) | op_HasSuicided (a : Z)
| op_Snapshot | op_Revert (id : Z).

Definition run_sop (op : sop) s : outcome Empty_set (stateDB T S) :=
  match op with
  | op_AddBalance a v => Ok (AddBalance keccak a v s)
  | op_SubBalance a v => Ok (SubBalance keccak a v s)
  | op_SetBalance a v => Ok (SetBalance keccak a v s)
  | op_SetNonce a v => Ok (SetNonce keccak a v s)
  | op_SetCode a c => Ok (SetCode keccak a c s)
  | op_SetState a k v => Ok (SetState keccak a k v s)
  | op_SetTransientState a k v => Ok (SetTransientState a k v s)
  | op_CreateAccount a => Ok (CreateAccount keccak a s)
  | op_Suicide a => Ok (Suicide keccak a s).2
  | op_AddRefund v => Ok (AddRefund v s)
  | op_SubRefund v => SubRefund v s
  | op_AddLog l => Ok (AddLog l s)
  | op_AddPreimage h b => Ok (AddPreimage h b s)
  | op_AddAddress a => Ok (AddAddressToAccessList a s)
  | op_AddSlot a k => AddSlotToAccessList a k s
  | op_GetBalance a => Ok (GetBalance keccak a s).2
  | op_GetNonce a => Ok (GetNonce keccak a s).2
  | op_GetCode a => Ok (GetCode keccak a s).2
  | op_GetCodeHash a => Ok (GetCodeHash keccak a s).2
  | op_GetState a k => Ok (GetState keccak a k s).2
  | op_GetCommittedState a k => Ok (GetCommittedState keccak a k s).2
  | op_Exist a => Ok (Exist keccak a s).2
  | op_Empty a => Ok (Empty keccak a s).2
  | op_HasSuicided a => Ok (HasSuicided keccak a s).2
  | op_Snapshot => Ok (Snapshot s).2
  | op_Revert id => RevertToSnapshot keccak id s
  end.
Fixpoint run_sops (ops : list sop) s : outcome Empty_set (stateDB T S) :=
  match ops with [] => Ok s | op :: ops => s ← run_sop op s; run_sops ops s end.

(** Reverting only to snapshots younger than [id]. *)
Definition above (id : Z) (op : sop) : bool := match op with op_Revert id' => id <? id' | _ => true end.

Lemma with_object_steps {A} a s (m : A) f : steps s (with_object keccak a s m f).2.
Proof. unfold with_object. destruct (get_object a s) as (s1 & -> & Hs & _). by apply steps_silent. Qed.

Lemma on_new_steps a s (f : stateObject S → stateDB T S → stateDB T S) :
  (∀ o s, stateObjects s !! so_address o = Some o → deleted o = false → steps s (f o s)) → addr_ok s →
  steps s (let '(o, s) := GetOrNewStateObject keccak a s in f o s).
Proof.
  intros Hf Ha. destruct (get_or_new a s Ha) as (o & s1 & -> & H1 & H2 & <- & H4). trans s1; [done|]. by apply Hf.
Qed.

Lemma reader_steps {A} a s (f : stateObject S → stateDB T S → A * stateObject S * stateDB T S) (z : A) :
  (∀ o s v o' s', f o s = (v, o', s') → obj_eq s o o' ∧ (s' = s ∨ s' = setError s)) → addr_ok s →
  steps s (match getStateObject keccak a s with (None, s) => (z, s) | (Some o, s) => let '(c, o, s) := f o s in (c, setStateObject o s) end).2.
Proof.
  intros Hf Ha. destruct (get_object a s) as (s1 & -> & Hs & Hh). destruct (alive s a) as [o|] eqn:E; [|by apply steps_silent].
  apply alive_view in E as [Ev _]. pose proof (view_addr s a o Ha Ev) as <-. destruct (f o s1) as [[c o'] s'] eqn:E. cbn [snd].
  destruct (Hf _ _ _ _ _ E). trans s1; [by apply steps_silent|]. eapply steps_silent, silent_cache; [apply view_here; auto|done..].
Qed.

Lemma run_sop_steps op s s' : ripemd ∈ X → wf s → (match op with op_Snapshot | op_Revert _ => False | _ => True end) →
  run_sop op s = Ok s' → steps s s'.
Proof.
  intros HX Hwf Hop. pose proof (wf_addr _ Hwf) as Ha.
  destruct op; cbn [run_sop]; try done; try (intros [= <-]); try apply with_object_steps.
  - apply on_new_steps; [|done]. intros. by apply so_AddBalance_steps.
  - apply on_new_steps; [|done]. intros. by apply so_SubBalance_steps.
  - apply on_new_steps; [|done]. intros. by apply SetBalance_steps.
  - apply on_new_steps; [|done]. intros. by apply SetNonce_steps.
  - apply on_new_steps; [|done]. intros. by apply so_SetCode_steps.
  - apply on_new_steps; [|done]. intros. by apply so_SetState_steps.
  - apply SetTransientState_steps.
  - by apply CreateAccount_steps.
  - by apply Suicide_steps.
  - apply AddRefund_steps.
  - apply SubRefund_steps.
  - apply AddLog_steps.
  - apply AddPreimage_steps.
  - apply AddAddress_steps.
  - apply AddSlot_steps.
  - apply reader_steps; [|done]. intros o s0 v o' s1 E. by apply cached_code in E as (_ & ? & ? & _).
  - apply reader_steps; [|done]. intros o s0 v o' s1 E. by apply cached_slot in E as (_ & ? & ?).
  - apply reader_steps; [|done]. intros o s0 v o' s1 E. by apply cached_committed in E as (_ & ? & ?).
Qed.

(** ** Snapshots *)

(** The ids of the revisions were handed out by the counter. *)
Definition revisions_ok s : Prop := Forall (fun r => r.1 < nextRevisionId s) (validRevisions s).

(** [s] came from the snapshot [id] taken at [s0]. *)
Record since s0 (id : Z) s : Prop := {
  sn_log : ∃ l, entries s = entries s0 ++ l ∧ undoable (reverse l) s s0;
  sn_revisions : ∃ later, validRevisions s = validRevisions s0 ++ (id, length (entries s0)) :: later ∧
                   Forall (fun r => id < r.1 < nextRevisionId s ∧ (length (entries s0) ≤ r.2)%nat) later;
  sn_next : id < nextRevisionId s
}.

Lemma eqv_revs s v n : eqv (set_revisions v n s) s.
Proof. by split. Qed.
Lemma undoable_revs es s s0 v n : undoable es s s0 → undoable es (set_revisions v n s) s0.
Proof. intros H. eapply undoable_eqv; [done|symmetry; apply eqv_revs|]. by apply undoable_wf in H as []. Qed.
Lemma undoable_journal es s s0 l : undoable es s s0 → undoable es (set_journal l (dirties s) s) s0.
Proof. intros H. eapply undoable_eqv; [done|symmetry; by apply eqv_marks|]. by apply undoable_wf in H as []. Qed.

Lemma since_snapshot s : wf s → since s (nextRevisionId s) (Snapshot s).2.
Proof.
  intros Hwf. split; cbn; [|by exists []|lia]. exists []. rewrite app_nil_r. split; [done|]. apply undoable_revs. by split.
Qed.

Lemma since_steps s0 id s s' : since s0 id s → steps s s' → since s0 id s'.
Proof.
  intros [(l & Hl & Hu) (later & Hv & Hf) Hn] Hst. destruct (steps_undoable _ _ _ _ Hst Hu) as (es' & Hu' & E1 & E2 & E3).
  split; [|exists later; by rewrite E2, E3|by rewrite E3]. exists (l ++ reverse es'). split; [by rewrite E1, Hl, app_assoc|].
  by rewrite reverse_app, reverse_involutive.
Qed.

(** Undoing back to a point of the journal after the snapshot. *)
Lemma since_journal s0 l s n : entries s = entries s0 ++ l → undoable (reverse l) s s0 → (length (entries s0) ≤ n)%nat →
  ∃ t l', journal_revert keccak n s = Ok t ∧ entries t = entries s0 ++ l' ∧ undoable (reverse l') t s0 ∧
    validRevisions t = validRevisions s ∧ nextRevisionId t = nextRevisionId s ∧ (n = length (entries s0) → l' = []).
Proof.
  intros Hl Hu Hn. set (k := (n - length (entries s0))%nat).
  assert (Hd : drop n (entries s) = drop k l) by (rewrite Hl; by apply drop_app_ge).
  rewrite <- (take_drop k l), reverse_app in Hu. apply undoable_app in Hu as (t & Ht & Hu & E1 & E2 & E3).
  eexists _, (take k l). unfold journal_revert. rewrite Hd, Ht. cbn. split; [done|]. split.
  { rewrite E1, Hl, take_app_ge by done. done. }
  split; [by apply undoable_journal|]. split_and!; [done..|]. intros ->. unfold k. by rewrite Nat.sub_diag.
Qed.

(** The revision a revert finds. *)
Lemma find_revision (vr later : list (Z * nat)) r id' : Forall (fun x => x.1 < id') vr →
  list_find (fun x => id' ≤ x.1) (vr ++ r :: later) =
  if decide (id' ≤ r.1) then Some (length vr, r)
  else (fun x => (Datatypes.S (length vr + x.1), x.2)) <$> list_find (fun x => id' ≤ x.1) later.
Proof.
  intros Hlt. assert (Hno : list_find (fun x : Z * nat => id' ≤ x.1) vr = None).
  { apply list_find_None. eapply Forall_impl; [done|]. cbn. intros. lia. }
  rewrite list_find_app_r by done. cbn [list_find]. case_decide; [done|].
  destruct (list_find _ later) as [[i x]|]; [|done]. cbn. do 2 f_equal. lia.
Qed.

Lemma since_revert s0 id s id' s' : revisions_ok s0 → id = nextRevisionId s0 → id < id' → since s0 id s → RevertToSnapshot keccak id' s = Ok s' → since s0 id s'.
Proof.
  intros Hok -> Hid [(l & Hl & Hu) (later & Hv & Hf) Hn]. unfold RevertToSnapshot. rewrite Hv, find_revision.
  2:{ eapply Forall_impl; [exact Hok|]. cbn. intros. lia. }
  rewrite decide_False by (cbn; lia). destruct (list_find _ later) as [[i [id1 n]]|] eqn:E; [|done]. cbn.
  apply list_find_Some in E as (Hi & _ & _). rewrite Forall_lookup in Hf. destruct (Hf _ _ Hi) as [_ Hle]. cbn in Hle.
  case_if; [|done]. destruct (since_journal s0 l s n) as (t & l' & -> & E1 & Hu' & E2 & E3 & _); [done..|]. cbn. intros [= <-].
  split; cbn; [|..|by rewrite E3].
  - exists l'. split; [done|]. by apply undoable_revs.
  - exists (take i later). rewrite E2, Hv. split.
    + rewrite take_app_ge by lia. f_equal. by replace (Datatypes.S (length (validRevisions s0) + i) - length (validRevisions s0))%nat with (Datatypes.S i) by lia.
    + apply Forall_take, Forall_lookup. intros j x Hj. rewrite E3. by apply (Hf j).
Qed.

Lemma since_sop s0 op s s' : ripemd ∈ X → revisions_ok s0 → above (nextRevisionId s0) op = true →
  since s0 (nextRevisionId s0) s → run_sop op s = Ok s' → since s0 (nextRevisionId s0) s'.
Proof.
  intros HX Hok Hab Hs. pose proof Hs as [(l & Hl & Hu) (later & Hv & Hf) Hn].
  assert (Hwf : wf s) by (by eapply undoable_wf).
  destruct op; try (intros Hrun; eapply since_steps, run_sop_steps; [done..| |exact Hrun]; exact I).
  - cbn. intros [= <-]. split; cbn; [|..|lia].
    + exists l. split; [done|]. by apply undoable_revs.
    + exists (later ++ [(nextRevisionId s, length (entries s))]). rewrite Hv, <- app_assoc. split; [done|].
      apply Forall_app_2; [eapply Forall_impl; [exact Hf|]; cbn; intros; lia|]. apply Forall_singleton. cbn. rewrite Hl, length_app. cbn. lia.
  - cbn in *. zbool. by apply since_revert.
Qed.

Lemma since_sops s0 ops s s' : ripemd ∈ X → revisions_ok s0 → forallb (above (nextRevisionId s0)) ops = true →
  since s0 (nextRevisionId s0) s → run_sops ops s = Ok s' → since s0 (nextRevisionId s0) s'.
Proof.
  intros HX Hok. revert s. induction ops as [|op ops IH]; cbn [run_sops forallb]; intros s Hab Hs; [by intros [= <-]|].
  apply andb_true_iff in Hab as [H1 H2]. destruct (run_sop op s) as [s1| |] eqn:E; [|done..]. apply IH; [done|]. by eapply since_sop.
Qed.

Lemma since_revisions s0 s : revisions_ok s0 → since s0 (nextRevisionId s0) s → revisions_ok s.
Proof.
  intros Hok [_ (later & Hv & Hf) Hn]. unfold revisions_ok. rewrite Hv. apply Forall_app. split.
  - eapply Forall_impl; [exact Hok|]. cbn. intros. lia.
  - constructor; [done|]. eapply Forall_impl; [exact Hf|]. cbn. intros. lia.
Qed.

(** Reverting to the snapshot itself. *)
Lemma since_back s0 s : revisions_ok s0 → since s0 (nextRevisionId s0) s →
  ∃ t, RevertToSnapshot keccak (nextRevisionId s0) s = Ok t ∧ eqv t s0 ∧ wf t ∧ entries t = entries s0 ∧
       validRevisions t = validRevisions s0 ∧ nextRevisionId t = nextRevisionId s.
Proof.
  intros Hok [(l & Hl & Hu) (later & Hv & Hf) Hn]. unfold RevertToSnapshot. rewrite Hv, find_revision by done.
  rewrite decide_True by (cbn; lia). rewrite Z.eqb_refl.
  destruct (since_journal s0 l s (length (entries s0))) as (t & l' & -> & E1 & Hu' & E2 & E3 & E4); [done..|].
  rewrite (E4 eq_refl) in *. cbn. eexists. split; [done|]. destruct Hu' as [Hwf He]. split_and!.
  - etrans; [apply eqv_revs|done].
  - eapply wf_eqv; [symmetry; apply eqv_revs|done|apply Hwf].
  - cbn. by rewrite E1, app_nil_r.
  - cbn. by rewrite E2, Hv, take_app_length.
  - done.
Qed.

(** ** What readers see *)

Record same_reads s s' : Prop := {
  sr_balance a : (GetBalance keccak a s).1 = (GetBalance keccak a s').1;
  sr_nonce a : (GetNonce keccak a s).1 = (GetNonce keccak a s').1;
  sr_code a : (GetCode keccak a s).1 = (GetCode keccak a s').1;
  sr_codeHash a : (GetCodeHash keccak a s).1 = (GetCodeHash keccak a s').1;
  sr_state a k : (GetState keccak a k s).1 = (GetState keccak a k s').1;
  sr_committed a k : (GetCommittedState keccak a k s).1 = (GetCommittedState keccak a k s').1;
  sr_exist a : (Exist keccak a s).1 = (Exist keccak a s').1;
  sr_empty a : (Empty keccak a s).1 = (Empty keccak a s').1;
  sr_suicided a : (HasSuicided keccak a s).1 = (HasSuicided keccak a s').1;
  sr_transient a k : GetTransientState a k s = GetTransientState a k s';
  sr_refund : GetRefund s = GetRefund s';
  sr_logs h n bh : (GetLogs h n bh s).1 = (GetLogs h n bh s').1;
  sr_logSize : logSize s = logSize s';
  sr_preimages : preimages s = preimages s';
  sr_access : accessListOf s = accessListOf s'
}.

Lemma eqv_with_object {A} a s s' (m : A) f : eqv s s' → (∀ o o', obj_eq s o o' → f o = f o') →
  (with_object keccak a s m f).1 = (with_object keccak a s' m f).1.
Proof.
  intros He Hf. unfold with_object. destruct (get_object a s) as (s1 & -> & _), (get_object a s') as (s1' & -> & _). cbn [fst].
  destruct (alive_eqv s s' a He); [|done]. auto.
Qed.

Lemma silent_obj s s1 o o' : silent s s1 → obj_eq s o o' → obj_eq s1 o o'.
Proof.
  intros [H _ _ _ _ _]. apply obj_eq_ext; [symmetry; apply H|symmetry; apply H|by rewrite (eq_destruct _ _ H)].
Qed.
Lemma slot_silent s s1 o k : silent s s1 → slot s1 o k = slot s o k ∧ committed s1 o k = committed s o k.
Proof. intros [H _ _ _ _ _]. split; [apply slot_ext|apply committed_ext]; try apply H; by rewrite (eq_destruct _ _ H). Qed.

Lemma eqv_reader {A} a s s' (z : A) (f : stateObject S → stateDB T S → A * stateObject S * stateDB T S) (v : stateDB T S → stateObject S → A) :
  (∀ o s, (f o s).1.1 = v s o) → (∀ s s1 o, silent s s1 → v s1 o = v s o) → (∀ o o', deleted o = false → obj_eq s o o' → v s o = v s' o') → eqv s s' →
  (match getStateObject keccak a s with (None, s) => (z, s) | (Some o, s) => let '(c, o, s) := f o s in (c, setStateObject o s) end).1 =
  (match getStateObject keccak a s' with (None, s) => (z, s) | (Some o, s) => let '(c, o, s) := f o s in (c, setStateObject o s) end).1.
Proof.
  intros Hf Hsil Hv He. destruct (get_object a s) as (s1 & -> & Hs & _), (get_object a s') as (s1' & -> & Hs' & _).
  pose proof (alive_view s a) as Hal. destruct (alive_eqv s s' a He) as [o o' Ho|]; [|done].
  destruct (Hal o eq_refl) as [_ Hd]. pose proof (Hf o s1) as E. pose proof (Hf o' s1') as E'. destruct (f o s1) as [[c ?] ?], (f o' s1') as [[c' ?] ?]. cbn in *. subst.
  rewrite (Hsil s s1 o Hs), (Hsil s' s1' o' Hs'). by apply Hv.
Qed.

Lemma locate_bare n bh l l' : map (locate 0 0) l = map (locate 0 0) l' → map (locate n bh) l = map (locate n bh) l'.
Proof.
  intros E. apply (f_equal (map (locate n bh))) in E. rewrite !map_map in E. done.
Qed.

Lemma eqv_reads s s' : eqv s s' → same_reads s s'.
Proof.
  intros He. pose proof (eq_base _ _ He) as (_ & Hr & Hsn). split; intros; try apply (eqv_with_object _ _ _ _ _ He).
  - intros o o' Ho. unfold so_Balance. by rewrite (oe_data _ _ _ Ho).
  - intros o o' Ho. unfold so_Nonce. by rewrite (oe_data _ _ _ Ho).
  - apply (eqv_reader _ _ _ _ _ (fun _ => code)); [intros; apply code_spec|done| |done]. intros. by apply (oe_code s).
  - intros o o' Ho. unfold so_CodeHash. by rewrite (oe_data _ _ _ Ho).
  - apply (eqv_reader _ _ _ _ _ (fun s o => slot s o k)); [intros; apply slot_spec|intros; by apply slot_silent| |done].
    intros o o' Hd Ho. rewrite (oe_slot _ _ _ Ho) by done. apply slot_ext; [done..|]. by rewrite (eq_destruct _ _ He).
  - apply (eqv_reader _ _ _ _ _ (fun s o => committed s o k)); [intros; apply committed_spec|intros; by apply slot_silent| |done].
    intros o o' Hd Ho. rewrite (oe_committed _ _ _ Ho) by done. apply committed_ext; [done..|]. by rewrite (eq_destruct _ _ He).
  - done.
  - intros o o' Ho. unfold so_empty, so_Nonce, so_Balance, so_CodeHash. by rewrite (oe_data _ _ _ Ho).
  - intros o o' Ho. apply Ho.
  - apply He.
  - apply He.
  - unfold GetLogs. destruct (bare_lookup _ _ h (eq_logs _ _ He)) as [E En].
    destruct (logs s !! h), (logs s' !! h); cbn in *; [|naive_solver..]. by apply locate_bare.
  - apply He.
  - apply He.
  - apply He.
Qed.

End Views.

(** C2. The revert theorem: when a snapshot is taken of a well-formed state, any
    operations are run, reverting at most to younger snapshots, and the
    snapshot is reverted to, the revert does not panic, and the state it leaves
    shows every reader what the state of the snapshot showed; the journal and
    the list of snapshots are those of that state, and so is the set of
    accounts that [Finalise] will visit, but for the RIPEMD precompile. *)
Theorem revert_restores {T S} `{Trie : !Tries T S} (keccak : bytes → Z) (s s2 : stateDB T S) ops :
  wf keccak {[ ripemd ]} s → revisions_ok s →
  forallb (above (Snapshot s).1) ops = true → run_sops keccak ops (Snapshot s).2 = Ok s2 →
  ∃ s3, RevertToSnapshot keccak (Snapshot s).1 s2 = Ok s3 ∧ same_reads keccak s3 s ∧ wf keccak {[ ripemd ]} s3 ∧
        entries s3 = entries s ∧ validRevisions s3 = validRevisions s ∧
        (∀ a, a ≠ ripemd → dirties s3 !! a = dirties s !! a) ∧
        stateObjectsPending s3 = stateObjectsPending s ∧ stateObjectsDirty s3 = stateObjectsDirty s ∧
        stateObjectsDestruct s3 = stateObjectsDestruct s.
Proof.
  intros Hwf Hok Hab Hrun.
  assert (Hs : since keccak {[ ripemd ]} s (nextRevisionId s) s2).
  { eapply since_sops; [set_solver|done|exact Hab| |exact Hrun]. by apply since_snapshot. }
  destruct (since_back keccak {[ ripemd ]} s s2 Hok Hs) as (t & Ht & He & Hwf' & H1 & H2 & _).
  exists t. split_and!; try done; [by eapply eqv_reads|intros a Ha; apply (eq_dirties _ _ _ _ He); set_solver|apply He..].
Qed.

(** A fresh state is well-formed. *)
Lemma New_wf {T S} `{Trie : !Tries T S} (keccak : bytes → Z) X (t : T) root layer : wf keccak X (New (S:=S) t root layer) ∧ revisions_ok (New (S:=S) t root layer).
Proof. split; [|constructor]. split; try done; cbn. split; [done|]. intros st Hst. by apply elem_of_nil in Hst. Qed.

(** Tries over finite maps: accounts by address, slots by key. *)
#[local] Instance mapTries : Tries (gmap Z rawAccount) (gmap Z bytes) := {
  GetAccount t a := Some (t !! a);
  UpdateAccount a d t := Some (<[a := mkRaw (ac_Nonce d) (Some (ac_Balance d)) (ac_Root d) (Some (ac_CodeHash d))]> t);
  DeleteAccount a t := Some (delete a t);
  trie_Hash t := map_fold (fun a d h => h + (a + 1) * (default 0 (ra_Balance d) + 1)) 0 t;
  OpenStorageTrie _ _ _ := Some ∅;
  GetStorage t _ k := Some (default [] (t !! k));
  UpdateStorage _ k v t := Some (<[k := v]> t);
  DeleteStorage _ k t := Some (delete k t);
  storage_Hash t := map_fold (fun k _ h => h + k) 1 t;
  ContractCode _ _ := None;
  ContractCodeSize _ _ := (0, true)
}.
Definition toy_keccak (b : bytes) : Z := be_value b.
Definition toy_state : stateDB (gmap Z rawAccount) (gmap Z bytes) :=
  SetNonce toy_keccak 7 4 (New {[ 7 := mkRaw 3 (Some 100) 0 None ]} 1 None).
Definition toy_ops : list sop :=
  [op_AddBalance 7 5; op_SetState 7 1 9; op_CreateAccount 7; op_AddBalance 8 0; op_Snapshot; op_SetNonce 8 2; op_Suicide 7; op_Revert 1;
   op_AddLog (mkLog 7 [] [] 0 0 0 0 0 false); op_AddSlot 9 1; op_AddRefund 12; op_SubRefund 2; op_AddBalance 3 0; op_SetState 7 2 6].
Lemma revert_restores_witness :
  ∃ s3, RevertToSnapshot toy_keccak 0 (from_ok toy_state (run_sops toy_keccak toy_ops (Snapshot toy_state).2)) = Ok s3 ∧
        same_reads toy_keccak s3 toy_state ∧ entries s3 = entries toy_state.
Proof.
  destruct (revert_restores toy_keccak toy_state (from_ok toy_state (run_sops toy_keccak toy_ops (Snapshot toy_state).2)) toy_ops)
    as (s3 & H1 & H2 & _ & H3 & _).
  - destruct (New_wf (S:=gmap Z bytes) toy_keccak {[ ripemd ]} ({[ 7 := mkRaw 3 (Some 100) 0 None ]} : gmap Z rawAccount) 1 None) as [Hwf _].
    eapply steps_wf; [|exact Hwf]. by apply (run_sop_steps _ _ (op_SetNonce 7 4)); [set_solver|..].
  - constructor.
  - reflexivity.
  - vm_compute. reflexivity.
  - exists s3. by split_and!.
Defined.
