(* ===== verification/StateSim.v ===== *)
(** Operations of the state database on equivalent states.

    The operations that the state transition uses give equivalent states when
    they are applied to equivalent states ([StateJournal.eqv]), they keep a
    database in order ([inv]), and [Finalise] turns dirty objects into pending
    ones on both sides alike.  What a database has cached plays no role. *)

From S2P Require Import Prelude RLP Types Receipts Config Transactions State StateJournal.

Section Sim.
Context {T S : Type} `{Trie : !Tries T S} (keccak : bytes → Z) (X : gset Z).
Implicit Types (s : stateDB T S) (o : stateObject S).
#[local] Abbreviation eqv := (eqv keccak X).
#[local] Abbreviation silent := (silent keccak X).
#[local] Abbreviation obj_eq := (obj_eq keccak).
#[local] Abbreviation view := (view keccak).
#[local] Abbreviation alive := (alive keccak).

Lemma eqv_silent s s' s1 s1' : eqv s s' → silent s s1 → silent s' s1' → eqv s1 s1'.
Proof. intros He H H'. etrans; [apply H|]. etrans; [exact He|]. symmetry. apply H'. Qed.

Lemma bump_eq a d d' : dirt_eq X d d' → dirt_eq X (bump a d) (bump a d').
Proof.
  intros H b Hb. unfold bump. destruct (decide (a = b)) as [->|]; [by rewrite !lookup_insert_eq, (H b)|].
  rewrite !lookup_insert_ne by done. by apply H.
Qed.
Lemma eqv_append e e' s s' : eqv s s' → dirtied e = dirtied e' → eqv (append e s) (append e' s').
Proof. intros He Ed. apply eqv_journal; [done|]. rewrite <- Ed. destruct (dirtied e); [apply bump_eq|]; apply He. Qed.
Lemma eqv_mark a s s' : eqv s s' → eqv (mark_dirty a s) (mark_dirty a s').
Proof. intros He. apply eqv_journal; [done|]. apply bump_eq, He. Qed.

(** ** Creating and finding objects *)

Lemma create_eqv a s s' : addr_ok s → addr_ok s' → eqv s s' →
  ∃ s1 s1', createObject keccak a s = (fresh keccak a, alive s a, s1) ∧ createObject keccak a s' = (fresh keccak a, alive s' a, s1') ∧ eqv s1 s1'.
Proof.
  intros Ha Ha' He.
  unfold createObject. destruct (get_deleted keccak X a s) as (s0 & -> & Hs & _), (get_deleted keccak X a s') as (s0' & -> & Hs' & _).
  pose proof (eqv_silent _ _ _ _ He Hs Hs') as He0. pose proof (eq_view _ _ _ _ He a) as Hv. unfold StateJournal.alive.
  pose proof (view_addr keccak s a) as Hva. destruct Hv as [p p' Hp|].
  - specialize (Hva p Ha eq_refl). pose proof (oe_address _ _ _ _ Hp) as Hpa. rewrite <- Hpa, <- (eq_destruct _ _ _ _ He0).
    eexists _, _. split; [by destruct (deleted p)|]. split; [by destruct (deleted p')|].
    set (pd := bool_decide (so_address p ∈ stateObjectsDestruct s0)).
    assert (HD : ∀ D, (∀ b, b ≠ a → b ∈ D ↔ b ∈ stateObjectsDestruct s0) →
      eqv (setStateObject (fresh keccak a) (append (resetObjectChange p pd) (set_sets (stateObjectsPending s0) (stateObjectsDirty s0) D s0)))
          (setStateObject (fresh keccak a) (append (resetObjectChange p' pd) (set_sets (stateObjectsPending s0') (stateObjectsDirty s0') D s0')))).
    { intros D HD. pose proof (eqv_reset keccak X s0 s0' (fresh keccak a) D ltac:(by apply Hs) He0 HD) as H.
      apply (eqv_append (resetObjectChange p pd) (resetObjectChange p' pd)) in H; [|done]. exact H. }
    destruct pd; [apply eqv_put; [by apply eqv_append|reflexivity]|]. apply HD. set_solver.
  - eexists _, _. split; [done|]. split; [done|]. apply eqv_put; [by apply eqv_append|reflexivity].
Qed.

Lemma get_or_new_eqv a s s' : addr_ok s → addr_ok s' → eqv s s' →
  ∃ o o' s1 s1', GetOrNewStateObject keccak a s = (o, s1) ∧ GetOrNewStateObject keccak a s' = (o', s1') ∧ obj_eq s1 o o' ∧ eqv s1 s1'.
Proof.
  intros Ha Ha' He. unfold GetOrNewStateObject.
  destruct (get_object keccak X a s) as (s0 & -> & Hs & _), (get_object keccak X a s') as (s0' & -> & Hs' & _).
  pose proof (eqv_silent _ _ _ _ He Hs Hs') as He0. destruct (alive_eqv keccak X s s' a He) as [o o' Ho|].
  - exists o, o', s0, s0'. split_and!; [done..| |done]. by eapply silent_obj.
  - destruct (create_eqv a s0 s0') as (s1 & s1' & -> & -> & He1); [by apply Hs|by apply Hs'|done|].
    exists (fresh keccak a), (fresh keccak a), s1, s1'. done.
Qed.

(** ** Writing *)

Lemma write_eqv f e e' s s' o o' : respects keccak f → dirtied e = dirtied e' → obj_eq s o o' → eqv s s' →
  eqv (setStateObject (f o) (append e s)) (setStateObject (f o') (append e' s')).
Proof.
  intros [_ Hf] Hd Ho He. apply eqv_put; [by apply eqv_append|]. apply Hf. by apply (obj_eq_ext keccak s).
Qed.

Lemma so_SetBalance_eqv n s s' o o' : obj_eq s o o' → eqv s s' → eqv (so_SetBalance n o s) (so_SetBalance n o' s').
Proof. intros Ho He. apply (write_eqv (so_setBalance n)); try done; [apply respects_setBalance|]. cbn. by rewrite (oe_address _ _ _ _ Ho). Qed.
Lemma so_SetNonce_eqv n s s' o o' : obj_eq s o o' → eqv s s' → eqv (so_SetNonce n o s) (so_SetNonce n o' s').
Proof. intros Ho He. apply (write_eqv (so_setNonce n)); try done; [apply respects_setNonce|]. cbn. by rewrite (oe_address _ _ _ _ Ho). Qed.
Lemma touch_eqv s s' o o' : obj_eq s o o' → eqv s s' → eqv (touch o s) (touch o' s').
Proof.
  intros Ho He. unfold touch. rewrite <- (oe_address _ _ _ _ Ho). case_if; [apply eqv_mark|]; by apply eqv_append.
Qed.
Lemma so_AddBalance_eqv n s s' o o' : obj_eq s o o' → eqv s s' → eqv (so_AddBalance keccak n o s) (so_AddBalance keccak n o' s').
Proof.
  intros Ho He. unfold so_AddBalance. replace (so_empty keccak o') with (so_empty keccak o).
  2:{ unfold so_empty, so_Nonce, so_Balance, so_CodeHash. by rewrite (oe_data _ _ _ _ Ho). }
  case_if; [case_if; [by apply touch_eqv|done]|]. replace (so_Balance o') with (so_Balance o); [by apply so_SetBalance_eqv|].
  unfold so_Balance. by rewrite (oe_data _ _ _ _ Ho).
Qed.
Lemma so_SubBalance_eqv n s s' o o' : obj_eq s o o' → eqv s s' → eqv (so_SubBalance n o s) (so_SubBalance n o' s').
Proof.
  intros Ho He. unfold so_SubBalance. case_if; [done|]. replace (so_Balance o') with (so_Balance o); [by apply so_SetBalance_eqv|].
  unfold so_Balance. by rewrite (oe_data _ _ _ _ Ho).
Qed.

Lemma on_new_eqv a s s' (f : stateObject S → stateDB T S → stateDB T S) :
  (∀ o o' s s', obj_eq s o o' → eqv s s' → eqv (f o s) (f o' s')) → addr_ok s → addr_ok s' → eqv s s' →
  eqv (let '(o, s) := GetOrNewStateObject keccak a s in f o s) (let '(o, s) := GetOrNewStateObject keccak a s' in f o s).
Proof. intros Hf Ha Ha' He. destruct (get_or_new_eqv a s s' Ha Ha' He) as (o & o' & s1 & s1' & -> & -> & Ho & He1). by apply Hf. Qed.

Lemma AddBalance_eqv a n s s' : addr_ok s → addr_ok s' → eqv s s' → eqv (AddBalance keccak a n s) (AddBalance keccak a n s').
Proof. apply on_new_eqv. intros. by apply so_AddBalance_eqv. Qed.
Lemma SubBalance_eqv a n s s' : addr_ok s → addr_ok s' → eqv s s' → eqv (SubBalance keccak a n s) (SubBalance keccak a n s').
Proof. apply on_new_eqv. intros. by apply so_SubBalance_eqv. Qed.
Lemma SetNonce_eqv a n s s' : addr_ok s → addr_ok s' → eqv s s' → eqv (SetNonce keccak a n s) (SetNonce keccak a n s').
Proof. apply on_new_eqv. intros. by apply so_SetNonce_eqv. Qed.

Lemma SetTxContext_eqv h i s s' : eqv s s' → eqv (SetTxContext h i s) (SetTxContext h i s').
Proof. intros He. pose proof (eq_view _ _ _ _ He). destruct He. split; try done. intros b. apply (opt_obj_ext keccak s); [done..|]. apply eq_view. Qed.

(** ** Finalise *)

(** What [Finalise] makes of a dirty object. *)
Definition dies (d : bool) o : bool := suicided o || (d && so_empty keccak o).
Definition fin (d : bool) o : stateObject S := if dies d o then so_setDeleted o else so_finalise o.

(** The state after the loop: only the objects and the three sets changed. *)
Definition reset_objects s (r : stateDB T S) : stateDB T S :=
  set_objects (stateObjects r) (set_sets (stateObjectsPending r) (stateObjectsDirty r) (stateObjectsDestruct r) s).
Record finalised (d : bool) (ks : list Z) s (r : stateDB T S) : Prop := {
  fd_frame : r = reset_objects s r;
  fd_objects a : stateObjects r !! a = (if decide (a ∈ ks) then fin d else id) <$> (stateObjects s !! a);
  fd_pending a : a ∈ stateObjectsPending r ↔ a ∈ stateObjectsPending s ∨ (a ∈ ks ∧ is_Some (stateObjects s !! a));
  fd_dirty a : a ∈ stateObjectsDirty r ↔ a ∈ stateObjectsDirty s ∨ (a ∈ ks ∧ is_Some (stateObjects s !! a));
  fd_destruct a : a ∈ stateObjectsDestruct r ↔ a ∈ stateObjectsDestruct s ∨ (a ∈ ks ∧ ∃ o, stateObjects s !! a = Some o ∧ dies d o = true)
}.

Lemma finalise_one_spec d s a : addr_ok s → finalised d [a] s (finalise_one keccak d s a).
Proof.
  intros Ha. unfold finalise_one. destruct (stateObjects s !! a) as [o|] eqn:E.
  - pose proof (Ha _ _ E) as Eo. unfold fin. fold (dies d o).
    assert (Hobj : ∀ o1, fin d o = o1 → ∀ b, <[a := o1]> (stateObjects s) !! b = (if decide (b ∈ [a]) then fin d else id) <$> (stateObjects s !! b)).
    { intros o1 <- b. destruct (decide (b = a)) as [->|Hne].
      - by rewrite lookup_insert_eq, E, decide_True by (by apply list_elem_of_singleton).
      - rewrite lookup_insert_ne by done. rewrite decide_False by (by rewrite list_elem_of_singleton). by destruct (stateObjects s !! b). }
    assert (Hset : ∀ (P : gset Z) b, b ∈ {[ a ]} ∪ P ↔ b ∈ P ∨ (b ∈ [a] ∧ is_Some (stateObjects s !! b))).
    { intros P b. rewrite elem_of_union, elem_of_singleton, list_elem_of_singleton. split; [intros [->|?]; eauto|intros [?|[-> _]]; eauto]. }
    unfold fin in Hobj. destruct (dies d o) eqn:Ed; (split; [by destruct s|by apply Hobj|apply Hset|apply Hset|]); intros b; cbn.
    + rewrite Eo, elem_of_union, elem_of_singleton, list_elem_of_singleton. split; [intros [->|?]; eauto|intros [?|[-> _]]; eauto].
    + rewrite list_elem_of_singleton. split; [by left|]. intros [?|[-> (o' & Eo' & ?)]]; [done|congruence].
  - split; [by destruct s|..]; intros b; rewrite ?list_elem_of_singleton.
    + destruct (decide (b ∈ [a])) as [->%list_elem_of_singleton|]; [by rewrite E|by destruct (stateObjects s !! b)].
    + split; [by left|]. intros [?|[-> [? ?]]]; [done|congruence].
    + split; [by left|]. intros [?|[-> [? ?]]]; [done|congruence].
    + split; [by left|]. intros [?|[-> (? & ? & ?)]]; [done|congruence].
Qed.

Lemma finalised_addr d ks s r : finalised d ks s r → addr_ok s → addr_ok r.
Proof.
  intros H Ha a o. rewrite (fd_objects _ _ _ _ H). intros (o' & E & ->)%fmap_Some. apply Ha in E. case_decide; [|done].
  unfold fin. by destruct (dies d o').
Qed.

Lemma finalised_cons d a ks s s1 r : a ∉ ks → finalised d [a] s s1 → finalised d ks s1 r → finalised d (a :: ks) s r.
Proof.
  intros Hn H1 H2.
  assert (Hsame : ∀ b, b ∈ ks → stateObjects s1 !! b = stateObjects s !! b).
  { intros b Hb. rewrite (fd_objects _ _ _ _ H1), decide_False; [by destruct (stateObjects s !! b)|]. rewrite list_elem_of_singleton. by intros ->. }
  split.
  - rewrite (fd_frame _ _ _ _ H2) at 1. rewrite (fd_frame _ _ _ _ H1). done.
  - intros b. rewrite (fd_objects _ _ _ _ H2). destruct (decide (b ∈ ks)) as [Hb|Hb].
    + rewrite (Hsame b Hb). by rewrite decide_True by (by right).
    + rewrite (fd_objects _ _ _ _ H1). destruct (decide (b = a)) as [->|Hne].
      * rewrite !decide_True by (by left). by destruct (stateObjects s !! a).
      * rewrite (decide_False (P := b ∈ [a])) by (by rewrite list_elem_of_singleton).
        rewrite (decide_False (P := b ∈ a :: ks)) by (by rewrite elem_of_cons; intros [|]). by destruct (stateObjects s !! b).
  - intros b. rewrite (fd_pending _ _ _ _ H2), (fd_pending _ _ _ _ H1), list_elem_of_singleton, elem_of_cons.
    destruct (decide (b ∈ ks)) as [Hb|Hb]; [rewrite (Hsame b Hb)|]; naive_solver.
  - intros b. rewrite (fd_dirty _ _ _ _ H2), (fd_dirty _ _ _ _ H1), list_elem_of_singleton, elem_of_cons.
    destruct (decide (b ∈ ks)) as [Hb|Hb]; [rewrite (Hsame b Hb)|]; naive_solver.
  - intros b. rewrite (fd_destruct _ _ _ _ H2), (fd_destruct _ _ _ _ H1), list_elem_of_singleton, elem_of_cons.
    destruct (decide (b ∈ ks)) as [Hb|Hb]; [setoid_rewrite (Hsame b Hb)|]; naive_solver.
Qed.

Lemma finalise_fold d ks s : NoDup ks → addr_ok s → finalised d ks s (foldl (finalise_one keccak d) s ks).
Proof.
  intros Hnd. revert s. induction Hnd as [|a ks Hn _ IH]; intros s Ha; cbn [foldl].
  - split; [by destruct s|..]; intros b; [|set_solver..]. rewrite decide_False by (by intros ?%elem_of_nil). by destruct (stateObjects s !! b).
  - pose proof (finalise_one_spec d s a Ha) as H1. eapply finalised_cons; [done|exact H1|]. apply IH. by eapply finalised_addr.
Qed.

(** The accounts that are finalised have their objects at hand. *)
Definition at_hand s : Prop := ∀ a, a ∈ dom (dirties s) ∪ stateObjectsPending s ∪ stateObjectsDirty s → is_Some (stateObjects s !! a).

Lemma Finalise_spec d s : addr_ok s → ∃ r, finalised d (map_to_list (dirties s)).*1 s r ∧ Finalise keccak d s = clearJournalAndRefund r.
Proof.
  intros Ha. eexists. split; [|reflexivity]. apply finalise_fold; [|done]. apply NoDup_fst_map_to_list.
Qed.
Lemma elem_of_keys (m : gmap Z Z) a : a ∈ (map_to_list m).*1 ↔ a ∈ dom m.
Proof.
  rewrite list_elem_of_fmap, elem_of_dom. split.
  - intros ([k v] & -> & H%elem_of_map_to_list). by eexists.
  - intros [v H%elem_of_map_to_list]. by exists (a, v).
Qed.

(** A finalised object shows the same values as pending ones. *)
Lemma committed_finalise s r o k : originalRoot s = originalRoot r → snap s = snap r →
  (so_address o ∈ stateObjectsDestruct r ↔ so_address o ∈ stateObjectsDestruct s) →
  committed keccak r (so_finalise o) k = slot keccak s o k ∧ slot keccak r (so_finalise o) k = slot keccak s o k.
Proof.
  intros Hr Hsn HD. assert (H : committed keccak r (so_finalise o) k = slot keccak s o k).
  { unfold slot, committed. cbn. rewrite lookup_union. destruct (dirtyStorage o !! k) as [v|]; [by destruct (pendingStorage o !! k)|].
    destruct (pendingStorage o !! k); [done|]. cbn. destruct (originStorage o !! k); [done|]. rewrite (bool_decide_ext _ _ HD).
    unfold read_slot, getTrie. cbn. by rewrite Hr, Hsn. }
  split; [done|]. unfold slot at 1. cbn. by rewrite lookup_empty.
Qed.

Lemma fin_eq d s r o o' : originalRoot s = originalRoot r → snap s = snap r → obj_eq s o o' →
  (dies d o = false → so_address o ∈ stateObjectsDestruct r ↔ so_address o ∈ stateObjectsDestruct s) → obj_eq r (fin d o) (fin d o').
Proof.
  intros Hr Hsn Ho HD. pose proof Ho as [H1 H2 H3 H4 H5 H6 H7].
  assert (Ed : dies d o' = dies d o) by (unfold dies, so_empty, so_Nonce, so_Balance, so_CodeHash; by rewrite H2, H3).
  unfold fin. rewrite Ed. destruct (dies d o) eqn:Ed'; [by split|]. specialize (HD eq_refl). pose proof HD as HD'. rewrite H1 in HD'.
  split; try done; intros k Hdel; destruct (committed_finalise s r o k Hr Hsn HD) as [E1 E2],
    (committed_finalise s r o' k Hr Hsn HD') as [E3 E4]; rewrite ?E1, ?E2, ?E3, ?E4; by apply H7.
Qed.

Lemma finalised_field {A} (f : stateDB T S → A) d ks s r :
  (∀ v p q x s, f (set_objects v (set_sets p q x s)) = f s) → finalised d ks s r → f r = f s.
Proof. intros Hf F. rewrite (fd_frame _ _ _ _ F). apply Hf. Qed.

(** An object that is at hand on both sides. *)
Lemma view_both s s' a o o' : eqv s s' → stateObjects s !! a = Some o → stateObjects s' !! a = Some o' → obj_eq s o o'.
Proof. intros He E E'. pose proof (eq_view _ _ _ _ He a) as Hv. unfold StateJournal.view in Hv. rewrite E, E' in Hv. by inversion Hv. Qed.
Lemma dies_eq d s o o' : obj_eq s o o' → dies d o' = dies d o.
Proof.
  intros Ho. unfold dies, so_empty, so_Nonce, so_Balance, so_CodeHash. by rewrite (oe_data _ _ _ _ Ho), (oe_suicided _ _ _ _ Ho).
Qed.

Section FinalisedEqv.
Context (d : bool) (ks : list Z) (s s' r r' : stateDB T S).
Context (He : eqv s s') (Ha : addr_ok s) (Hk : ∀ a, a ∈ ks → is_Some (stateObjects s !! a) ∧ is_Some (stateObjects s' !! a)).
Context (F : finalised d ks s r) (F' : finalised d ks s' r').

Lemma finalised_sets : stateObjectsPending r = stateObjectsPending r' ∧ stateObjectsDirty r = stateObjectsDirty r' ∧
  stateObjectsDestruct r = stateObjectsDestruct r'.
Proof.
  assert (Hdies : ∀ a, a ∈ ks → (∃ o, stateObjects s !! a = Some o ∧ dies d o = true) ↔ (∃ o, stateObjects s' !! a = Some o ∧ dies d o = true)).
  { intros a Hin. destruct (Hk a Hin) as [[o E] [o' E']]. pose proof (dies_eq d _ _ _ (view_both _ _ _ _ _ He E E')) as Ed. rewrite E, E'.
    split; intros (x & [= <-] & Hx); eexists; (split; [done|]); congruence. }
  split_and!; apply set_eq; intros a.
  - rewrite (fd_pending _ _ _ _ F), (fd_pending _ _ _ _ F'), (eq_pending _ _ _ _ He). naive_solver.
  - rewrite (fd_dirty _ _ _ _ F), (fd_dirty _ _ _ _ F'), (eq_dirty _ _ _ _ He). naive_solver.
  - rewrite (fd_destruct _ _ _ _ F), (fd_destruct _ _ _ _ F'), (eq_destruct _ _ _ _ He). naive_solver.
Qed.

(** The destruct set grew at most by accounts that die. *)
Lemma finalised_destruct a o : view s a = Some o → (a ∈ ks → dies d o = false) →
  so_address o ∈ stateObjectsDestruct r ↔ so_address o ∈ stateObjectsDestruct s.
Proof.
  intros Hv Hl. rewrite (view_addr keccak s a o Ha Hv), (fd_destruct _ _ _ _ F). split; [|by left]. intros [?|[Hin (o' & Eo & Hd)]]; [done|].
  unfold StateJournal.view in Hv. rewrite Eo in Hv. injection Hv as <-. rewrite Hl in Hd; done.
Qed.

Lemma finalised_view a : option_Forall2 (obj_eq r) (view r a) (view r' a).
Proof.
  assert (Hor : originalRoot s = originalRoot r) by (symmetry; by apply (finalised_field _ d ks s)).
  assert (Hsn : snap s = snap r) by (symmetry; by apply (finalised_field _ d ks s)).
  assert (Hl : ∀ a, load keccak r a = load keccak s a).
  { intros b. apply load_ext. split_and!; by apply (finalised_field _ d ks s). }
  assert (Hl' : ∀ a, load keccak r' a = load keccak s' a).
  { intros b. apply load_ext. split_and!; by apply (finalised_field _ d ks s'). }
  pose proof (eq_view _ _ _ _ He a) as Hv. pose proof (finalised_destruct a) as HD. unfold StateJournal.view in *.
  rewrite (fd_objects _ _ _ _ F), (fd_objects _ _ _ _ F'), Hl, Hl'. destruct (decide (a ∈ ks)) as [Hin|Hin].
  - destruct (Hk a Hin) as [[o E] [o' E']]. rewrite E, E' in *. cbn. constructor. inversion Hv; subst.
    apply (fin_eq d s); try done. intros Hd. by apply HD.
  - rewrite !option_fmap_id. destruct (match stateObjects s !! a with Some o => Some o | None => _ end) as [o|] eqn:E; inversion Hv as [? o' Ho Ex Ey|]; subst.
    + constructor. apply (obj_eq_ext keccak s); [done|done| |done]. symmetry. by apply HD.
    + constructor.
Qed.

Lemma finalised_eqv : eqv r r'.
Proof.
  destruct finalised_sets as (HP & HY & HD). pose proof (eq_base _ _ _ _ He) as (B1 & B2 & B3).
  assert (Fld : ∀ A (f : stateDB T S → A), (∀ v p q x s, f (set_objects v (set_sets p q x s)) = f s) → f s = f s' → f r = f r').
  { intros A f Hf E. by rewrite (finalised_field f d ks s r Hf F), (finalised_field f d ks s' r' Hf F'). }
  split; try done.
  - split_and!; [by apply (Fld _ sd_trie)|by apply (Fld _ originalRoot)|by apply (Fld _ snap)].
  - apply finalised_view.
  - apply (Fld _ refund); [done|apply He].
  - apply (Fld _ thash); [done|apply He].
  - apply (Fld _ txIndex); [done|apply He].
  - apply (Fld _ (fun s => bare (logs s))); [done|apply He].
  - apply (Fld _ logSize); [done|apply He].
  - apply (Fld _ preimages); [done|apply He].
  - apply (Fld _ accessListOf); [done|apply He].
  - intros a k. apply (Fld _ (fun s => ts_Get a k (transientOf s))); [done|apply He].
  - intros a Hx. apply (Fld _ (fun s => dirties s !! a)); [done|]. by apply He.
Qed.
End FinalisedEqv.

(** ** Databases in order *)

(** An empty journal means that nothing happened. *)
Definition journal_ok s : Prop := entries s = [] → refund s = 0 ∧ dirties s = ∅.

Record inv s : Prop := {
  in_wf : wf keccak X s;
  in_revisions : revisions_ok s;
  in_hand : at_hand s;
  in_journal : journal_ok s;
  in_refund : is_u64 (refund s)
}.

(** Going forward: objects and marks are added, nothing is taken away. *)
Record grows s s1 : Prop := {
  gr_base : same_base s s1;
  gr_addr : addr_ok s → addr_ok s1;
  gr_objects a : is_Some (stateObjects s !! a) → is_Some (stateObjects s1 !! a);
  gr_pending : stateObjectsPending s1 = stateObjectsPending s;
  gr_dirty : stateObjectsDirty s1 = stateObjectsDirty s;
  gr_refund : refund s1 = refund s;
  gr_logs : logs s1 = logs s;
  gr_access : accessListOf s1 = accessListOf s;
  gr_revisions : validRevisions s1 = validRevisions s;
  gr_next : nextRevisionId s1 = nextRevisionId s;
  gr_dirties a : dirties s1 !! a = dirties s !! a ∨
    (is_Some (stateObjects s1 !! a) ∧ ∃ n, dirties s1 !! a = Some n ∧ default 0 (dirties s !! a) < n);
  gr_entries : ∃ l, entries s1 = entries s ++ l ∧ (l = [] → dirties s1 = dirties s) ∧
                 ∀ b, createObjectChange b ∈ l → stateObjects s !! b = None
}.
#[export] Instance grows_preorder : PreOrder grows.
Proof.
  split.
  - intros s. split; try done; [by left|]. exists []. rewrite app_nil_r. split_and!; try done. by intros b ?%elem_of_nil.
  - intros s1 s2 s3 H1 H2. split; try (etrans; [apply H2|apply H1]).
    + destruct (gr_base _ _ H1) as (? & ? & ?), (gr_base _ _ H2) as (? & ? & ?). split_and!; congruence.
    + intros. by apply H2, H1.
    + intros. by apply H2, H1.
    + intros a. destruct (gr_dirties _ _ H2 a) as [E|(Ho & n & E & Hn)].
      * destruct (gr_dirties _ _ H1 a) as [E1|(Ho & n & E1 & Hn)]; [left; congruence|right]. split; [by apply H2|]. exists n. by rewrite E.
      * right. split; [done|]. exists n. split; [done|].
        destruct (gr_dirties _ _ H1 a) as [E1|(_ & m & E1 & Hm)]; [congruence|]. rewrite E1 in Hn. cbn in Hn. unfold id in Hn. lia.
    + destruct (gr_entries _ _ H1) as (l1 & E1 & D1 & C1), (gr_entries _ _ H2) as (l2 & E2 & D2 & C2).
      exists (l1 ++ l2). split; [by rewrite E2, E1, app_assoc|]. split.
      * intros [-> ->]%app_eq_nil. rewrite D2, D1; done.
      * intros b [?|Hb]%elem_of_app; [by apply C1|]. apply C2 in Hb. destruct (stateObjects s1 !! b) eqn:E; [|done].
        destruct (gr_objects _ _ H1 b) as [? ?]; [by eexists|congruence].
Qed.

Lemma grows_inv s s1 : grows s s1 → inv s → inv s1.
Proof.
  intros G [[W1 W2 W3 W4 W5] H2 H3 H4 H5].
  assert (Hpos : ∀ a n, a ∉ X → dirties s1 !! a = Some n → 0 < n).
  { intros a n Hx E. destruct (gr_dirties _ _ G a) as [E'|(_ & m & E' & Hm)]; [apply (W5 a); congruence|].
    destruct (dirties s !! a) as [k|] eqn:Ek; cbn in Hm; unfold id in Hm; [apply (W5 a) in Ek; [|done]|]; assert (n = m) by congruence; lia. }
  split.
  - split; [by apply G| |by rewrite (gr_logs _ _ G)|by rewrite (gr_access _ _ G)|done].
    intros a. rewrite (gr_dirty _ _ G), (gr_pending _ _ G). intros Hin. destruct (H3 a) as [o Ho]; [set_solver|].
    destruct (gr_objects _ _ G a) as [o1 Ho1]; [by eexists|]. unfold StateJournal.view. rewrite Ho1. by eexists.
  - unfold revisions_ok. by rewrite (gr_revisions _ _ G), (gr_next _ _ G).
  - intros a. rewrite (gr_pending _ _ G), (gr_dirty _ _ G), !elem_of_union, elem_of_dom. intros [[[n E]|Hin]|Hin].
    + destruct (gr_dirties _ _ G a) as [E'|(Ho & _)]; [|done]. apply G, H3. rewrite !elem_of_union, elem_of_dom. left; left. exists n. congruence.
    + apply G, H3. set_solver.
    + apply G, H3. set_solver.
  - intros E. destruct (gr_entries _ _ G) as (l & El & Dl & _). rewrite E in El. symmetry in El. apply app_eq_nil in El as [E0 ->].
    rewrite (gr_refund _ _ G), (Dl eq_refl). by apply H4.
  - by rewrite (gr_refund _ _ G).
Qed.

(** Steps that only go forward. *)
Lemma grows_put s o : grows s (setStateObject o s).
Proof.
  split; try done; [apply put_addr|intros a [x E]; cbn; destruct (decide (so_address o = a)) as [<-|]; [by rewrite lookup_insert_eq|rewrite lookup_insert_ne by done; by eexists]|by left|].
  exists []. rewrite app_nil_r. split_and!; try done. by intros b ?%elem_of_nil.
Qed.
Lemma grows_error s : grows s (setError s).
Proof. split; try done; [by left|]. exists []. rewrite app_nil_r. split_and!; try done. by intros b ?%elem_of_nil. Qed.
Lemma grows_destruct s D : grows s (set_sets (stateObjectsPending s) (stateObjectsDirty s) D s).
Proof. split; try done; [by left|]. exists []. rewrite app_nil_r. split_and!; try done. by intros b ?%elem_of_nil. Qed.

(** A journalled change of an object that is put in place. *)
Lemma grows_write s o e : (∀ a, dirtied e = Some a → a = so_address o) → (∀ b, e = createObjectChange b → stateObjects s !! b = None) →
  grows s (setStateObject o (append e s)).
Proof.
  intros He Hc. pose proof (grows_put s o) as G. split; try apply G.
  - intros a. cbn. destruct (dirtied e) as [b|] eqn:Eb; [|by left]. specialize (He b eq_refl) as ->. unfold bump.
    destruct (decide (so_address o = a)) as [<-|Hne]; [right|left; by rewrite lookup_insert_ne].
    rewrite !lookup_insert_eq. split; [by eexists|]. eexists. split; [done|]. lia.
  - exists [e]. split; [done|]. split; [done|]. intros b Hb%list_elem_of_singleton. by apply Hc.
Qed.
(** The same when the object is there already. *)
Lemma grows_mark s a o : stateObjects s !! a = Some o → grows s (append (touchChange a) s) ∧ grows s (mark_dirty a (append (touchChange a) s)).
Proof.
  intros Ho. assert (Hb : ∀ d b, is_Some (stateObjects s !! b) ∧ (∃ n, bump a d !! b = Some n ∧ default 0 (d !! b) < n) ∨ bump a d !! b = d !! b).
  { intros d b. unfold bump. destruct (decide (a = b)) as [<-|]; [left|right; by rewrite lookup_insert_ne].
    rewrite lookup_insert_eq. split; [by eexists|]. eexists. split; [done|]. lia. }
  split; (split; try done; [|exists [touchChange a]; split_and!; try done; by intros b ?%list_elem_of_singleton]); intros b; cbn.
  - destruct (Hb (dirties s) b); auto.
  - destruct (Hb (dirties s) b) as [[H1 (n & E & Hn)]|E]; destruct (Hb (bump a (dirties s)) b) as [[H2 (m & E' & Hm)]|E'].
    + right. split; [done|]. exists m. split; [done|]. rewrite E in Hm. cbn in Hm. unfold id in Hm. lia.
    + right. split; [done|]. exists n. by rewrite E'.
    + right. split; [done|]. exists m. split; [done|]. by rewrite E in Hm.
    + left. by rewrite E', E.
Qed.

(** Finding or creating an object, and the operations built on it. *)
Lemma grows_deleted a s : grows s (getDeletedStateObject keccak a s).2.
Proof.
  unfold getDeletedStateObject. destruct (stateObjects s !! a); [done|]. destruct (read_account keccak s a) as [[d|] err]; cbn [snd].
  - etrans; [|apply grows_put]. destruct err; [apply grows_error|done].
  - destruct err; [apply grows_error|done].
Qed.
Lemma grows_object a s : grows s (getStateObject keccak a s).2.
Proof. unfold getStateObject. pose proof (grows_deleted a s). by destruct (getDeletedStateObject keccak a s). Qed.

Lemma grows_create a s : addr_ok s → grows s (createObject keccak a s).2.
Proof.
  intros Ha. unfold createObject. destruct (get_deleted keccak X a s) as (s0 & E & Hs & Hh). pose proof (grows_deleted a s) as G.
  rewrite E in *. cbn [snd] in G. destruct (view s a) as [prev|] eqn:Ev.
  - pose proof (view_addr keccak s a prev Ha Ev) as Hp. cbn [snd]. etrans; [exact G|].
    destruct (bool_decide _); [by apply grows_write|]. etrans; [apply (grows_destruct _ ({[so_address prev]} ∪ stateObjectsDestruct s0))|]. by apply grows_write.
  - cbn [snd]. etrans; [exact G|]. apply grows_write; [by intros b [= <-]|]. intros b [= <-].
    pose proof (silent_view keccak X s s0 a Hs Ev) as Hn. unfold StateJournal.view in Hn. by destruct (stateObjects s0 !! a).
Qed.

Lemma grows_new a s (f : stateObject S → stateDB T S → stateDB T S) : (∀ o s, stateObjects s !! so_address o = Some o → grows s (f o s)) → addr_ok s →
  grows s (let '(o, s) := GetOrNewStateObject keccak a s in f o s).
Proof.
  intros Hf Ha. destruct (get_or_new keccak X a s Ha) as (o & s1 & E & _ & Ho & <- & _). rewrite E. etrans; [|by apply Hf].
  unfold GetOrNewStateObject in E. pose proof (grows_object (so_address o) s) as G.
  destruct (getStateObject keccak (so_address o) s) as [[o1|] s0]; cbn [snd] in G; [by injection E as <- <-|].
  pose proof (grows_create (so_address o) s0 (gr_addr _ _ G Ha)) as G1. destruct (createObject _ _ s0) as [[o1 p] s2]. injection E as <- <-. by etrans.
Qed.

Lemma grows_AddBalance a n s : addr_ok s → grows s (AddBalance keccak a n s).
Proof.
  apply grows_new. intros o s0 Ho. unfold so_AddBalance. case_if; [|by apply grows_write; [intros b [= <-]|]]. case_if; [|done].
  unfold touch. destruct (grows_mark s0 (so_address o) o Ho). by case_if.
Qed.
Lemma grows_SubBalance a n s : addr_ok s → grows s (SubBalance keccak a n s).
Proof. apply grows_new. intros o s0 Ho. unfold so_SubBalance. case_if; [done|]. by apply grows_write; [intros b [= <-]|]. Qed.
Lemma grows_SetNonce a n s : addr_ok s → grows s (SetNonce keccak a n s).
Proof. apply grows_new. intros o s0 Ho. by apply grows_write; [intros b [= <-]|]. Qed.

(** ** Finalise keeps databases in order and equivalent *)

Lemma clear_spec s : journal_ok s → clearJournalAndRefund s = set_revisions [] (nextRevisionId s) (set_refund 0 (set_journal [] ∅ s)).
Proof.
  intros Hj. unfold clearJournalAndRefund. destruct (entries s) as [|e es] eqn:E; [|done]. destruct (Hj E) as [Hr Hd]. cbn. destruct s. cbn in *. by subst.
Qed.

Lemma finalised_journal d ks s r : finalised d ks s r → journal_ok s → journal_ok r.
Proof.
  intros F Hj. unfold journal_ok. rewrite (finalised_field entries d ks s r), (finalised_field refund d ks s r), (finalised_field dirties d ks s r); done.
Qed.

Lemma Finalise_eqv d s s' : inv s → inv s' → dirties s = dirties s' → eqv s s' → eqv (Finalise keccak d s) (Finalise keccak d s').
Proof.
  intros Hi Hi' Ed He. destruct (Finalise_spec d s (wf_addr _ _ _ (in_wf _ Hi))) as (r & F & ->).
  destruct (Finalise_spec d s' (wf_addr _ _ _ (in_wf _ Hi'))) as (r' & F' & ->). rewrite <- Ed in F'.
  rewrite !clear_spec by (eapply finalised_journal; [done|apply in_journal; done]).
  apply eqv_revisions, eqv_refund, eqv_journal; [|done]. eapply finalised_eqv; try done; [apply Hi|].
  intros a Hin%elem_of_keys. split; apply in_hand; try done; [|rewrite <- Ed]; set_solver.
Qed.

Lemma Finalise_inv d s : inv s → inv (Finalise keccak d s).
Proof.
  intros Hi. pose proof (wf_addr _ _ _ (in_wf _ Hi)) as Ha. destruct (Finalise_spec d s Ha) as (r & F & ->).
  rewrite clear_spec by (eapply finalised_journal; [done|apply Hi]).
  assert (Hh : ∀ a, a ∈ stateObjectsPending r ∪ stateObjectsDirty r → is_Some (stateObjects r !! a)).
  { intros a. rewrite elem_of_union, (fd_pending _ _ _ _ F), (fd_dirty _ _ _ _ F), (fd_objects _ _ _ _ F), fmap_is_Some.
    intros [[H|[_ H]]|[H|[_ H]]]; try done; apply (in_hand _ Hi); set_solver. }
  split; [split|..]; cbn.
  - intros a o. cbn. by apply (finalised_addr d _ s r F Ha).
  - intros a Hin. cbn in Hin. destruct (Hh a) as [o E]; [set_solver|]. exists o. unfold StateJournal.view. cbn. by rewrite E.
  - rewrite (finalised_field logs d _ s r (fun _ _ _ _ _ => eq_refl) F). apply Hi.
  - rewrite (finalised_field accessListOf d _ s r (fun _ _ _ _ _ => eq_refl) F). apply Hi.
  - done.
  - constructor.
  - intros a Hin. cbn in *. apply Hh. set_solver.
  - done.
  - done.
Qed.

(** ** Contexts, access lists, logs *)

Lemma SetTxContext_inv h i s : inv s → inv (SetTxContext h i s).
Proof. intros [[] H2 H3 H4 H5]. by split. Qed.

Lemma Snapshot_inv s : inv s → inv (Snapshot s).2.
Proof.
  intros [[] H2 H3 H4 H5]. split; try done. unfold revisions_ok in *. cbn. apply Forall_app. split; [|constructor; [cbn; lia|done]].
  eapply Forall_impl; [exact H2|]. cbn. intros. lia.
Qed.

Lemma prepare_tuple_ok al el : al_ok al → ∃ al', prepare_tuple (Ok al) el = Ok al' ∧ al_ok al'.
Proof.
  intros Hal. unfold prepare_tuple. cbn [mbind outcome_bind].
  assert (H : ∀ ks al, al_ok al → ∃ al', foldl (fun al key => al ← al; '(_, _, al) ← AddSlot (at_Address el) key al; Ok al) (Ok al) ks = Ok al' ∧ al_ok al').
  { induction ks as [|k ks IH]; intros al0 H0; cbn [foldl]; [eauto|]. cbn [mbind outcome_bind].
    destruct (AddSlot_total (at_Address el) k al0 H0) as [[[x y] al1] E]. rewrite E. cbn [mbind outcome_bind]. apply IH. by eapply AddSlot_ok. }
  apply H. by apply AddAddress_ok.
Qed.
Lemma prepare_list_ok l al : al_ok al → ∃ al', foldl prepare_tuple (Ok al) l = Ok al' ∧ al_ok al'.
Proof.
  revert al. induction l as [|el l IH]; intros al Hal; cbn [foldl]; [eauto|].
  destruct (prepare_tuple_ok al el Hal) as (al' & -> & H). by apply IH.
Qed.
Lemma newAccessList_ok : al_ok newAccessList.
Proof. split; [done|]. intros st H. by apply elem_of_nil in H. Qed.
Lemma add_all_ok l al : al_ok al → al_ok (foldl (fun al a => (AddAddress a al).2) al l).
Proof. revert al. induction l as [|a l IH]; intros al H; cbn [foldl]; [done|]. apply IH. by apply AddAddress_ok. Qed.

(** [Prepare] does not panic; the new list depends on the old one only. *)
Lemma Prepare_spec rules sender coinbase dst pre list s : al_ok (accessListOf s) →
  ∃ al, al_ok al ∧ ∀ s', accessListOf s' = accessListOf s → Prepare rules sender coinbase dst pre list s' = Ok (set_access al ∅ s').
Proof.
  intros Hal. unfold Prepare. destruct (r_IsBerlin rules); [|exists (accessListOf s); split; [done|]; intros s' ->; done].
  set (al0 := match dst with Some d => _ | None => _ end).
  assert (H0 : al_ok al0) by (unfold al0; destruct dst; repeat apply AddAddress_ok; apply newAccessList_ok).
  destruct (prepare_list_ok list _ (add_all_ok pre al0 H0)) as (al & -> & H). cbn [mbind outcome_bind].
  eexists. split; [|by intros s' _]. case_if; [by apply AddAddress_ok|done].
Qed.

Lemma Prepare_eqv al s s' : eqv s s' → eqv (set_access al ∅ s) (set_access al ∅ s').
Proof. intros He. by apply eqv_access. Qed.
Lemma Prepare_inv al s : al_ok al → inv s → inv (set_access al ∅ s).
Proof. intros Hal [[] H2 H3 H4 H5]. by split. Qed.

Lemma GetLogs_eqv h n bh s : eqv (GetLogs h n bh s).2 s.
Proof.
  unfold GetLogs. destruct (logs s !! h) as [ls|] eqn:E; [|done]. cbn [snd]. destruct s. split; try done. cbn in *.
  unfold bare. rewrite fmap_insert, map_map. rewrite <- (insert_id logs h ls E) at 2. by rewrite fmap_insert.
Qed.
Lemma GetLogs_inv h n bh s : inv s → inv (GetLogs h n bh s).2.
Proof.
  intros [[W1 W2 W3 W4 W5] H2 H3 H4 H5]. unfold GetLogs. destruct (logs s !! h) as [ls|] eqn:E; [|by split]. cbn [snd]. split; try done.
  split; try done. cbn. intros h' l [[<- <-]|[_ H]]%lookup_insert_Some; [|by eapply W3]. apply W3 in E. by destruct ls.
Qed.

(** ** Reverting *)

(** Undoing takes away only objects that were created. *)
Lemma revert1_objects e s t a : revert1 keccak e s = Ok t → is_Some (stateObjects s !! a) → e ≠ createObjectChange a → is_Some (stateObjects t !! a).
Proof.
  unfold revert1. destruct (revert_entry keccak e s) as [u| |] eqn:E; cbn; [|done..]. intros [= <-] Ha He. cbn.
  assert (Hput : ∀ o s1, is_Some (stateObjects s1 !! a) → is_Some (stateObjects (setStateObject o s1) !! a)) by (intros; by apply grows_put).
  assert (Hon : ∀ b f, on_object keccak b f s = Ok u → is_Some (stateObjects u !! a)).
  { intros b f. unfold on_object. pose proof (gr_objects _ _ (grows_object b s) a Ha) as H1. destruct (getStateObject keccak b s) as [[o|] s1]; cbn; [|done].
    intros [= <-]. by apply Hput. }
  revert E. destruct e; cbn [revert_entry]; try (intros [= <-]; done); try (apply Hon).
  - intros [= <-]. cbn. rewrite lookup_delete_ne; [done|]. by intros ->.
  - intros [= <-]. pose proof (Hput prev s Ha). by destruct prevdestruct.
  - pose proof (gr_objects _ _ (grows_object account s) a Ha) as H1. destruct (getStateObject keccak account s) as [[o|] s1]; intros [= <-]; [by apply Hput|done].
  - repeat case_if; by intros [= <-].
  - destruct (DeleteSlot _ _ _); by intros [= <-].
Qed.
Lemma revert_loop_objects es s t a : revert_loop keccak es s = Ok t → is_Some (stateObjects s !! a) → createObjectChange a ∉ es → is_Some (stateObjects t !! a).
Proof.
  revert s. induction es as [|e es IH]; intros s; [by intros [= <-]|]. rewrite revert_loop_cons.
  destruct (revert1 keccak e s) as [u| |] eqn:E; [|done..]. intros Ht Ha Hn. rewrite not_elem_of_cons in Hn. destruct Hn as [Hn1 Hn2].
  apply (IH u); [done| |done]. by eapply revert1_objects.
Qed.

(** Back to a snapshot from a state that came forward from it. *)
Lemma revert_forward s s2 : X = ∅ → inv s → grows (Snapshot s).2 s2 → steps keccak X (Snapshot s).2 s2 →
  ∃ t, RevertToSnapshot keccak (Snapshot s).1 s2 = Ok t ∧ eqv t s ∧ inv t.
Proof.
  intros HX Hi G Hst. pose proof Hi as [Hwf Hrev Hh Hj Hu].
  pose proof (since_steps keccak X s _ _ s2 (since_snapshot keccak X s Hwf) Hst) as Hs.
  destruct (since_back keccak X s s2 Hrev Hs) as (t & Ht & He & Hwt & E1 & E2 & E3). exists t. split; [exact Ht|]. split; [done|].
  assert (Hd : dirties t = dirties s) by (apply map_eq; intros a; apply (eq_dirties _ _ _ _ He); set_solver).
  assert (Hobj : ∀ a, is_Some (stateObjects s !! a) → is_Some (stateObjects t !! a)).
  { intros a Ha. destruct (gr_entries _ _ G) as (l & El & _ & Hl). cbn in El. revert Ht. unfold RevertToSnapshot.
    rewrite (gr_revisions _ _ G). cbn [Snapshot fst snd validRevisions set_revisions]. rewrite find_revision by done.
    rewrite decide_True by (cbn; lia). rewrite Z.eqb_refl. unfold journal_revert. rewrite El, drop_app_length.
    destruct (revert_loop keccak (reverse l) s2) as [u| |] eqn:Eu; cbn; [|done..]. intros [= <-]. cbn.
    eapply revert_loop_objects; [exact Eu|by apply (gr_objects _ _ G)|]. rewrite elem_of_reverse. intros Hin%Hl. cbn in Hin. destruct Ha; congruence. }
  split; [done|..].
  - unfold revisions_ok. rewrite E2, E3, (gr_next _ _ G). cbn. eapply Forall_impl; [exact Hrev|]. cbn. intros. lia.
  - intros a. rewrite Hd, (eq_pending _ _ _ _ He), (eq_dirty _ _ _ _ He). intros Hin. by apply Hobj, Hh.
  - unfold journal_ok. rewrite E1, Hd, (eq_refund _ _ _ _ He). done.
  - by rewrite (eq_refund _ _ _ _ He).
Qed.

Lemma revert_nothing s : X = ∅ → inv s → ∃ t, RevertToSnapshot keccak (Snapshot s).1 (Snapshot s).2 = Ok t ∧ eqv t s ∧ inv t.
Proof. intros HX Hi. by apply revert_forward. Qed.
Lemma revert_SubBalance a n s : X = ∅ → inv s → ∃ t, RevertToSnapshot keccak (Snapshot s).1 (SubBalance keccak a n (Snapshot s).2) = Ok t ∧ eqv t s ∧ inv t.
Proof.
  intros HX Hi. pose proof (wf_addr _ _ _ (in_wf _ Hi)) as Ha. apply revert_forward; [done|done|by apply grows_SubBalance|].
  apply on_new_steps; [|done]. intros. by apply so_SubBalance_steps.
Qed.

End Sim.
