(* ===== verification/StateInstance.v ===== *)
(** The state database keeps the promises of the interface.

    [StateTransition.StateDBLaws] lists what the state transition, the block
    processor and the worker rely on; here the database of [State.v] is shown
    to keep every one of these promises, over any tries whose account reads
    succeed ([TriesLaws]) and without a snapshot layer.  Reading fills caches
    in Go; the interface's readers drop the filled caches, which is sound since
    databases that differ in them are related by [sim]. *)

From S2P Require Import Prelude RLP RLPDecode Types HeaderRLP Receipts Config Fees Transactions Signing StateTransition State StateJournal StateSim.

(** ** What is relied on of the account trie *)

Class TriesLaws (T S : Type) `{!Tries T S} := {
  accounts : T → gmap Z rawAccount;
  GetAccount_reads t a : GetAccount t a = Some (accounts t !! a);
  UpdateAccount_other a d t t' b : UpdateAccount a d t = Some t' → b ≠ a → accounts t' !! b = accounts t !! b;
  DeleteAccount_other a t t' b : DeleteAccount a t = Some t' → b ≠ a → accounts t' !! b = accounts t !! b
}.

Section Instance.
Context {T S : Type} `{Trie : !Tries T S} `{TL : !TriesLaws T S} (keccak : bytes → Z).
Implicit Types (s : stateDB T S) (o : stateObject S).

(** ** Writing to the tries *)

(** Objects that differ in what the tries hold only. *)
Definition same_account o o' : Prop :=
  so_address o = so_address o' ∧ so_Balance o = so_Balance o' ∧ deleted o = deleted o'.
Record written s r : Prop := {
  wr_objects a : option_Forall2 same_account (stateObjects s !! a) (stateObjects r !! a);
  wr_accounts b : stateObjects s !! b = None → accounts (sd_trie r) !! b = accounts (sd_trie s) !! b;
  wr_snap : snap r = snap s;
  wr_sets : stateObjectsPending r = stateObjectsPending s ∧ stateObjectsDirty r = stateObjectsDirty s;
  wr_journal : entries r = entries s ∧ dirties r = dirties s ∧ refund r = refund s;
  wr_logs : logs r = logs s ∧ accessListOf r = accessListOf s;
  wr_revisions : validRevisions r = validRevisions s ∧ nextRevisionId r = nextRevisionId s
}.
#[local] Instance same_account_equiv : Equivalence same_account.
Proof. split; [done|by intros o o' (? & ? & ?)|]. intros o1 o2 o3 (? & ? & ?) (? & ? & ?). unfold same_account. split_and!; congruence. Qed.
#[local] Instance written_preorder : PreOrder written.
Proof.
  split.
  - intros s. by split.
  - intros s1 s2 s3 [A1 A2 A3 (? & ?) (? & ? & ?) (? & ?) (? & ?)] [B1 B2 B3 (? & ?) (? & ? & ?) (? & ?) (? & ?)]. split; try (split_and!; congruence).
    + intros a. etrans; [apply A1|apply B1].
    + intros b Hb. rewrite B2; [by apply A2|]. specialize (A1 b). rewrite Hb in A1. by inversion A1.
    + congruence.
Qed.

Lemma updateTrie_account s o : same_account o (updateTrie keccak s o).1.
Proof.
  unfold updateTrie. case_if; [done|]. destruct (getTrie _ _ _); [|done].
  destruct (foldl _ _ _) as [[t origin] ok]. by destruct ok.
Qed.
Lemma updateRoot_account s o : same_account o (updateRoot keccak s o).1.
Proof.
  unfold updateRoot. pose proof (updateTrie_account s o) as H. destruct (updateTrie keccak s o) as [o1 ok]. cbn [fst] in *.
  destruct ok; [|done]. destruct (so_trie o1); [|done]. by etrans.
Qed.

Lemma root_one_spec s a : is_Some (stateObjects s !! a) → ∃ r, root_one keccak (Ok s) a = Ok r ∧ written s r.
Proof.
  intros [o Ho]. unfold root_one. cbn [mbind outcome_bind]. rewrite Ho. cbn [deref mbind outcome_bind]. case_if; [by exists s|].
  pose proof (updateRoot_account s o) as Hacc. destruct (updateRoot keccak s o) as [o1 ok]. cbn [fst] in Hacc.
  eexists. split; [reflexivity|].
  assert (Hw : written s (set_objects (<[a := o1]> (stateObjects s)) s)).
  { split; try done. intros b. cbn. destruct (decide (a = b)) as [<-|]; [rewrite lookup_insert_eq, Ho; by constructor|by rewrite lookup_insert_ne]. }
  destruct ok; [done|]. etrans; [exact Hw|]. by split.
Qed.

Lemma account_one_spec s a : addr_ok s → is_Some (stateObjects s !! a) → ∃ r, account_one (Ok s) a = Ok r ∧ written s r.
Proof.
  intros Ha [o Ho]. unfold account_one. cbn [mbind outcome_bind]. rewrite Ho. cbn [deref mbind outcome_bind]. eexists. split; [reflexivity|].
  rewrite (Ha _ _ Ho).
  assert (Hset : ∀ t, (∀ b, b ≠ a → accounts t !! b = accounts (sd_trie s) !! b) → written s (set_trie t s)).
  { intros t Ht. split; try done. intros b Hb. apply Ht. congruence. }
  case_if; [destruct (DeleteAccount _ _) eqn:E|destruct (UpdateAccount _ _ _) eqn:E]; try by split.
  - apply Hset. intros b Hb. by eapply DeleteAccount_other.
  - apply Hset. intros b Hb. by eapply UpdateAccount_other.
Qed.

Lemma written_addr s r : written s r → addr_ok s → addr_ok r.
Proof.
  intros W Ha a o E. pose proof (wr_objects _ _ W a) as H. rewrite E in H. inversion H as [o' ? (E1 & _) E2|]; subst. rewrite <- E1. by apply Ha.
Qed.
Lemma written_some s r a : written s r → is_Some (stateObjects s !! a) → is_Some (stateObjects r !! a).
Proof. intros W [o E]. pose proof (wr_objects _ _ W a) as H. rewrite E in H. inversion H. by eexists. Qed.

Lemma fold_written (f : outcome Empty_set (stateDB T S) → Z → outcome Empty_set (stateDB T S)) l s :
  (∀ s a, addr_ok s → is_Some (stateObjects s !! a) → ∃ r, f (Ok s) a = Ok r ∧ written s r) → addr_ok s →
  (∀ a, a ∈ l → is_Some (stateObjects s !! a)) → ∃ r, foldl f (Ok s) l = Ok r ∧ written s r.
Proof.
  intros Hf. revert s. induction l as [|a l IH]; intros s Ha Hl; cbn [foldl]; [by exists s|].
  destruct (Hf s a) as (r & -> & W); [done|apply Hl; by left|].
  destruct (IH r) as (r' & E & W'); [by eapply written_addr|intros b Hb; eapply written_some; [done|]; apply Hl; by right|].
  exists r'. split; [done|by etrans].
Qed.

Lemma IntermediateRoot_written d s (r := Finalise keccak d s) : inv keccak ∅ s →
  ∃ z r', IntermediateRoot keccak d s = Ok (z, set_sets ∅ (stateObjectsDirty r') (stateObjectsDestruct r') r') ∧ written r r'.
Proof.
  intros Hi. unfold IntermediateRoot. fold r. assert (Hr : inv keccak ∅ r) by (by apply Finalise_inv).
  assert (Hp : ∀ a, a ∈ elements (stateObjectsPending r) → is_Some (stateObjects r !! a)).
  { intros a Hin%elem_of_elements. apply (in_hand _ _ _ Hr). set_solver. }
  pose proof (wf_addr _ _ _ (in_wf _ _ _ Hr)) as Ha.
  destruct (fold_written (root_one keccak) (elements (stateObjectsPending r)) r) as (r1 & -> & W1); [intros; by apply root_one_spec|done|done|].
  cbn [mbind outcome_bind].
  destruct (fold_written account_one (elements (stateObjectsPending r)) r1) as (r2 & -> & W2); [intros; by apply account_one_spec|by eapply written_addr| |].
  { intros a Hin. eapply written_some; [done|]. by apply Hp. }
  cbn [mbind outcome_bind]. eexists _, r2. split; [done|]. by etrans.
Qed.

Lemma written_inv s r : written s r → inv keccak ∅ s → inv keccak ∅ (set_sets ∅ (stateObjectsDirty r) (stateObjectsDestruct r) r).
Proof.
  intros W [[W1 W2 W3 W4 W5] H2 H3 H4 H5]. destruct (wr_journal _ _ W) as (E1 & E2 & E3), (wr_logs _ _ W) as [E4 E5],
    (wr_revisions _ _ W) as [E6 E7], (wr_sets _ _ W) as [E8 E9].
  assert (Hh : ∀ a, a ∈ dom (dirties r) ∪ stateObjectsDirty r → is_Some (stateObjects r !! a)).
  { intros a. rewrite E2, E9. intros Hin. eapply written_some; [done|]. apply H3. set_solver. }
  split; [split|..]; cbn.
  - intros a o. cbn. by apply (written_addr _ _ W).
  - intros a Hin. cbn in Hin. destruct (Hh a) as [o Ho]; [set_solver|]. exists o. by apply view_here.
  - by rewrite E4.
  - by rewrite E5.
  - by rewrite E2.
  - unfold revisions_ok. cbn. by rewrite E6, E7.
  - intros a Hin. cbn in *. apply Hh. set_solver.
  - unfold journal_ok. cbn. by rewrite E1, E2, E3.
  - by rewrite E3.
Qed.

(** ** The balances *)

(** The balances of the accounts that exist. *)
Definition live s : gmap Z Z :=
  (so_Balance <$> base.filter (fun kv => deleted kv.2 = false) (stateObjects s)) ∪
  ((fun d => default 0 (ra_Balance d)) <$> base.filter (fun kv => stateObjects s !! kv.1 = None) (accounts (sd_trie s))).

Lemma live_here s a o : stateObjects s !! a = Some o → live s !! a = if deleted o then None else Some (so_Balance o).
Proof.
  intros E. unfold live. rewrite lookup_union, !lookup_fmap, !map_lookup_filter, E. cbn. destruct (accounts (sd_trie s) !! a); cbn.
  - destruct (deleted o) eqn:Ed; cbn.
    + rewrite option_guard_False by done. cbn. rewrite option_guard_False by (cbn; congruence). done.
    + rewrite option_guard_True by done. cbn. by destruct (guard _ ≫= _).
  - destruct (deleted o); [by rewrite option_guard_False|by rewrite option_guard_True].
Qed.
Lemma live_below s a : stateObjects s !! a = None → live s !! a = (fun d => default 0 (ra_Balance d)) <$> (accounts (sd_trie s) !! a).
Proof.
  intros E. unfold live. rewrite lookup_union, !lookup_fmap, !map_lookup_filter, E. cbn. destruct (accounts (sd_trie s) !! a); cbn; [|done].
  by rewrite option_guard_True.
Qed.

(** They are the balances of the objects that can be found. *)
Lemma live_alive s a : snap s = None → live s !! a = so_Balance <$> alive keccak s a.
Proof.
  intros Hsn. unfold alive, view. destruct (stateObjects s !! a) as [o|] eqn:E; [rewrite (live_here s a o E); by destruct (deleted o)|].
  rewrite live_below by done. unfold load, read_account. rewrite Hsn, GetAccount_reads. by destruct (accounts (sd_trie s) !! a).
Qed.
Lemma live_eqv X s s' : snap s = None → eqv keccak X s s' → live s = live s'.
Proof.
  intros Hsn He. assert (Hsn' : snap s' = None) by (by destruct (eq_base _ _ _ _ He) as (_ & _ & <-)).
  apply map_eq. intros a. rewrite !live_alive by done. destruct (alive_eqv keccak X s s' a He) as [o o' Ho|]; [|done].
  cbn. unfold so_Balance. by rewrite (oe_data _ _ _ _ Ho).
Qed.
Lemma GetBalance_live s a : snap s = None → (GetBalance keccak a s).1 = default 0 (live s !! a).
Proof.
  intros Hsn. unfold GetBalance, with_object. destruct (get_object keccak ∅ a s) as (s1 & -> & _). cbn [fst]. rewrite live_alive by done.
  by destruct (alive keccak s a).
Qed.

Lemma live_put s o : live (setStateObject o s) = if deleted o then delete (so_address o) (live s) else <[so_address o := so_Balance o]> (live s).
Proof.
  apply map_eq. intros a. destruct (decide (a = so_address o)) as [->|Hne].
  - rewrite (live_here _ _ o) by apply lookup_insert_eq. destruct (deleted o); [by rewrite lookup_delete_eq|by rewrite lookup_insert_eq].
  - assert (E : live (setStateObject o s) !! a = live s !! a).
    { assert (Eo : stateObjects (setStateObject o s) !! a = stateObjects s !! a) by (by apply lookup_insert_ne).
      destruct (stateObjects s !! a) as [x|] eqn:Ex; [by rewrite !(live_here _ _ x)|by rewrite !live_below]. }
    rewrite E. destruct (deleted o); [by rewrite lookup_delete_ne|by rewrite lookup_insert_ne].
Qed.
Lemma live_objects s s1 : stateObjects s1 = stateObjects s → sd_trie s1 = sd_trie s → live s1 = live s.
Proof. intros E1 E2. unfold live. by rewrite E1, E2. Qed.

Lemma live_silent s s1 : snap s = None → silent keccak ∅ s s1 → live s1 = live s.
Proof. intros Hsn Hs. symmetry. apply (live_eqv ∅); [done|symmetry; apply Hs]. Qed.
Lemma silent_snap s s1 : silent keccak ∅ s s1 → snap s = None → snap s1 = None.
Proof. intros Hs H. destruct (eq_base _ _ _ _ (si_eqv _ _ _ _ Hs)) as (_ & _ & E). congruence. Qed.

Lemma live_create a s : snap s = None → live (createObject keccak a s).2 = <[a := 0]> (live s).
Proof.
  intros Hsn. unfold createObject. destruct (get_deleted keccak ∅ a s) as (s0 & -> & Hs & _).
  rewrite <- (live_silent s s0 Hsn Hs). destruct (view keccak s a) as [prev|]; cbn [snd]; rewrite live_put; cbn [so_address newObject deleted].
  - rewrite (live_objects s0); [done|by destruct (bool_decide _)..].
  - by rewrite (live_objects s0).
Qed.

(** Finding an account creates it with no balance if it is not there. *)
Lemma live_new a s : addr_ok s → snap s = None → ∃ o s1, GetOrNewStateObject keccak a s = (o, s1) ∧ so_address o = a ∧ deleted o = false ∧
  so_Balance o = default 0 (live s !! a) ∧ live s1 = <[a := so_Balance o]> (live s).
Proof.
  intros Ha Hsn. destruct (get_or_new keccak ∅ a s Ha) as (o & s1 & E & _ & H1 & H2 & H3). exists o, s1. split; [done|].
  split; [done|]. split; [done|]. unfold GetOrNewStateObject in E.
  destruct (get_object keccak ∅ a s) as (s0 & E0 & Hs & Hh). rewrite E0 in E.
  pose proof (live_silent s s0 Hsn Hs) as Hl0. pose proof (live_alive s a Hsn) as Hl. destruct (alive keccak s a) as [o1|] eqn:Ea.
  - injection E as -> ->. rewrite Hl. cbn. split; [done|]. rewrite <- Hl0. symmetry. apply insert_id. by rewrite Hl0, Hl.
  - pose proof (live_create a s0 (silent_snap s s0 Hs Hsn)) as Hc. destruct (createObject keccak a s0) as [[o1 p] s2]. injection E as -> ->.
    cbn [snd] in Hc. pose proof (live_here s1 a o H1) as Ho. rewrite H3, Hc, lookup_insert_eq in Ho. injection Ho as Ho.
    rewrite Hl, Hc, Hl0, <- Ho. done.
Qed.

(** What writing does to the balances. *)
Lemma live_write f e o s : so_address (f o) = so_address o → deleted (f o) = false →
  live (setStateObject (f o) (append e s)) = <[so_address o := so_Balance (f o)]> (live s).
Proof. intros E Ed. by rewrite live_put, Ed, E. Qed.

Lemma live_AddBalance a n s : addr_ok s → snap s = None → live (AddBalance keccak a n s) = <[a := default 0 (live s !! a) + n]> (live s).
Proof.
  intros Ha Hsn. unfold AddBalance. destruct (live_new a s Ha Hsn) as (o & s1 & -> & <- & Hd & Hb & Hl). rewrite <- Hb.
  unfold so_AddBalance. case_if.
  - subst n. rewrite Z.add_0_r. case_if; [|done]. rewrite <- Hl. unfold touch. case_if; by apply live_objects.
  - unfold so_SetBalance. rewrite (live_write (so_setBalance _)) by done. rewrite Hl, insert_insert_eq. done.
Qed.
Lemma live_SubBalance a n s : addr_ok s → snap s = None → live (SubBalance keccak a n s) = <[a := default 0 (live s !! a) + - n]> (live s).
Proof.
  intros Ha Hsn. unfold SubBalance. destruct (live_new a s Ha Hsn) as (o & s1 & -> & <- & Hd & Hb & Hl). rewrite <- Hb.
  unfold so_SubBalance. case_if.
  - subst n. by rewrite Z.add_0_r.
  - unfold so_SetBalance. rewrite (live_write (so_setBalance _)) by done. rewrite Hl, insert_insert_eq. done.
Qed.
Lemma live_SetNonce a n s : addr_ok s → snap s = None → live (SetNonce keccak a n s) = <[a := default 0 (live s !! a)]> (live s).
Proof.
  intros Ha Hsn. unfold SetNonce. destruct (live_new a s Ha Hsn) as (o & s1 & -> & <- & Hd & Hb & Hl). rewrite <- Hb.
  unfold so_SetNonce. rewrite (live_write (so_setNonce _)) by done. rewrite Hl, insert_insert_eq. done.
Qed.

(** Finalising takes accounts away. *)
Lemma live_Finalise d s a : inv keccak ∅ s → live (Finalise keccak d s) !! a = live s !! a ∨ live (Finalise keccak d s) !! a = None.
Proof.
  intros Hi. destruct (Finalise_spec keccak d s (wf_addr _ _ _ (in_wf _ _ _ Hi))) as (r & F & ->).
  assert (E : live (clearJournalAndRefund r) = live r) by (apply live_objects; unfold clearJournalAndRefund; by case_if).
  rewrite E. assert (Et : sd_trie r = sd_trie s) by exact (finalised_field keccak sd_trie d _ s r (fun _ _ _ _ _ => eq_refl) F).
  pose proof (fd_objects _ _ _ _ _ F a) as Ho. destruct (stateObjects s !! a) as [o|] eqn:Eo; cbn in Ho.
  - rewrite (live_here _ _ _ Ho), (live_here _ _ _ Eo). case_decide; [|by left]. unfold fin. destruct (dies keccak d o); [by right|by left].
  - left. by rewrite !live_below, Et.
Qed.
Lemma live_written s r : written s r → live (set_sets ∅ (stateObjectsDirty r) (stateObjectsDestruct r) r) = live s.
Proof.
  intros W. apply map_eq. intros a. rewrite (live_objects r) by done. pose proof (wr_objects _ _ W a) as H.
  destruct (stateObjects s !! a) as [o|] eqn:E; inversion H as [? o' (_ & Hb & Hd) Ex Ey|]; subst.
  - rewrite (live_here s a o E), (live_here r a o') by done. by rewrite Hb, Hd.
  - rewrite !live_below by done. by rewrite (wr_accounts _ _ W).
Qed.

(** ** The interface *)

Definition state_db : StateDB (stateDB T S) := {|
  StateTransition.GetBalance db a := (GetBalance keccak a db).1;
  StateTransition.AddBalance a n db := AddBalance keccak a n db;
  StateTransition.SubBalance a n db := SubBalance keccak a n db;
  StateTransition.GetNonce db a := (GetNonce keccak a db).1;
  StateTransition.SetNonce a n db := SetNonce keccak a n db;
  StateTransition.GetCodeHash db a := (GetCodeHash keccak a db).1;
  StateTransition.GetRefund db := GetRefund db;
  StateTransition.Prepare r f c t al db := from_ok db (Prepare r f c t (ActivePrecompiles r) al db);
  StateTransition.SetTxContext h i db := SetTxContext h i db;
  StateTransition.TxIndex db := TxIndex db;
  StateTransition.GetLogs db h n bh := GetLogs h n bh db;
  StateTransition.Finalise b db := Finalise keccak b db;
  StateTransition.IntermediateRoot b db := from_ok (0, db) (IntermediateRoot keccak b db);
  StateTransition.Snapshot db := Snapshot db;
  StateTransition.RevertToSnapshot id db := from_ok db (RevertToSnapshot keccak id db)
|}.
#[local] Existing Instance state_db.

Definition db_inv s : Prop := inv keccak ∅ s ∧ snap s = None.
Definition state_sim s s' : Prop := eqv keccak ∅ s s' ∧ db_inv s ∧ db_inv s'.

Lemma db_addr s : db_inv s → addr_ok s.
Proof. intros [Hi _]. apply (wf_addr _ _ _ (in_wf _ _ _ Hi)). Qed.
Lemma grows_db s s1 : grows s s1 → db_inv s → db_inv s1.
Proof. intros G [Hi Hs]. split; [by eapply grows_inv|]. destruct (gr_base _ _ G) as (_ & _ & E). congruence. Qed.
Lemma eqv_dirties s s' : eqv keccak ∅ s s' → dirties s = dirties s'.
Proof. intros He. apply map_eq. intros a. apply (eq_dirties _ _ _ _ He). set_solver. Qed.
Lemma Finalise_base d s : addr_ok s → snap (Finalise keccak d s) = snap s.
Proof.
  intros Ha. destruct (Finalise_spec keccak d s Ha) as (r & F & ->).
  assert (E : snap (clearJournalAndRefund r) = snap r) by (unfold clearJournalAndRefund; by case_if). rewrite E.
  exact (finalised_field keccak snap d _ s r (fun _ _ _ _ _ => eq_refl) F).
Qed.
Lemma Finalise_db d s : db_inv s → db_inv (Finalise keccak d s).
Proof. intros H. split; [apply Finalise_inv, H|]. rewrite Finalise_base by (by apply db_addr). apply H. Qed.

Lemma IntermediateRoot_db d s : db_inv s →
  ∃ z r, IntermediateRoot keccak d s = Ok (z, r) ∧ db_inv r ∧ live r = live (Finalise keccak d s).
Proof.
  intros H. destruct (IntermediateRoot_written d s (proj1 H)) as (z & r & E & W). eexists z, _. split; [exact E|].
  split; [|by apply live_written]. split; [eapply written_inv; [exact W|]; apply Finalise_inv, H|].
  cbn. rewrite (wr_snap _ _ W), Finalise_base by (by apply db_addr). apply H.
Qed.

Lemma Prepare_db r f c t al s : db_inv s → ∃ l, al_ok l ∧
  ∀ s', accessListOf s' = accessListOf s → from_ok s' (Prepare r f c t (ActivePrecompiles r) al s') = set_access l ∅ s'.
Proof.
  intros [Hi _]. destruct (Prepare_spec r f c t (ActivePrecompiles r) al s) as (l & Hl & H); [apply Hi|].
  exists l. split; [done|]. intros s' E. by rewrite (H s' E).
Qed.

Lemma revert_db s s2 : db_inv s → (∃ t, RevertToSnapshot keccak (Snapshot s).1 s2 = Ok t ∧ eqv keccak ∅ t s ∧ inv keccak ∅ t) →
  state_sim (from_ok s2 (RevertToSnapshot keccak (Snapshot s).1 s2)) s.
Proof.
  intros H (t & -> & He & Hi). cbn. split; [done|]. split; [|done]. split; [done|]. destruct (eq_base _ _ _ _ He) as (_ & _ & E). rewrite E. apply H.
Qed.

Lemma sum_balances_le (m m' : gmap Z Z) : (∀ a, m' !! a = m !! a ∨ m' !! a = None) → (∀ a v, m !! a = Some v → 0 ≤ v) → sum_balances m' ≤ sum_balances m.
Proof.
  revert m'. induction m as [|a v m Ha IH] using map_ind; intros m' Hm Hpos.
  - replace m' with (∅ : gmap Z Z); [done|]. apply map_eq. intros a. specialize (Hm a). rewrite !lookup_empty in *. naive_solver.
  - assert (Hv : 0 ≤ v) by (apply (Hpos a); by rewrite lookup_insert_eq). rewrite sum_balances_insert by done.
    assert (Hpos' : ∀ b x, m !! b = Some x → 0 ≤ x) by (intros b x E; apply (Hpos b); rewrite lookup_insert_ne; [done|intros <-; congruence]).
    destruct (m' !! a) as [v'|] eqn:E'.
    + assert (v' = v) as -> by (destruct (Hm a) as [E|E]; rewrite E' in E; [by rewrite lookup_insert_eq in E; injection E|done]).
      rewrite <- (insert_id m' a v E'), <- insert_delete_eq, sum_balances_insert by apply lookup_delete_eq.
      enough (sum_balances (delete a m') ≤ sum_balances m) by lia. apply IH; [|done]. intros b. destruct (decide (a = b)) as [<-|Hne].
      * right. apply lookup_delete_eq.
      * rewrite lookup_delete_ne by done. specialize (Hm b). by rewrite lookup_insert_ne in Hm.
    + enough (sum_balances m' ≤ sum_balances m) by lia. apply IH; [|done]. intros b. destruct (decide (a = b)) as [<-|Hne]; [by right|].
      specialize (Hm b). by rewrite lookup_insert_ne in Hm.
Qed.

(** *** The promises, one by one *)

Lemma sim_grows (f : stateDB T S → stateDB T S) s s' :
  (∀ s, addr_ok s → grows s (f s)) → (∀ s s', addr_ok s → addr_ok s' → eqv keccak ∅ s s' → eqv keccak ∅ (f s) (f s')) →
  state_sim s s' → state_sim (f s) (f s').
Proof.
  intros Hg He (H1 & H2 & H3). pose proof (db_addr _ H2). pose proof (db_addr _ H3).
  split; [by apply He|]. split; (eapply grows_db; [by apply Hg|done]).
Qed.

Lemma sim_here s : db_inv s → state_sim s s.
Proof. by intros H. Qed.
Lemma sim_keeps s s' : db_inv s' → eqv keccak ∅ s s' → inv keccak ∅ s → state_sim s s'.
Proof. intros H He Hi. split; [done|]. split; [|done]. split; [done|]. destruct (eq_base _ _ _ _ He) as (_ & _ & E). rewrite E. apply H. Qed.

Lemma sim_Prepare_state r f c t al s s' : state_sim s s' →
  state_sim (StateTransition.Prepare r f c t al s) (StateTransition.Prepare r f c t al s').
Proof.
  intros (He & Hs & Hs'). destruct (Prepare_db r f c t al s Hs) as (l & Hl & E). cbn. rewrite !E by (done || symmetry; apply He).
  split; [by apply Prepare_eqv|]. split; (split; [apply Prepare_inv; [done|]|]); apply Hs || apply Hs'.
Qed.
Lemma sim_Finalise_state d s s' : state_sim s s' → state_sim (Finalise keccak d s) (Finalise keccak d s').
Proof.
  intros (He & Hs & Hs'). split; [|split; by apply Finalise_db]. apply Finalise_eqv; [apply Hs|apply Hs'|by apply eqv_dirties|done].
Qed.

Lemma live_Prepare r f c t al s : db_inv s → live (StateTransition.Prepare r f c t al s) = live s.
Proof. intros Hs. destruct (Prepare_db r f c t al s Hs) as (l & Hl & E). cbn. rewrite E by done. by apply live_objects. Qed.

Lemma solvent_live s : db_inv s → solvent s → ∀ a v, live s !! a = Some v → 0 ≤ v.
Proof. intros Hs H a v E. specialize (H a). cbn in H. rewrite GetBalance_live in H by apply Hs. by rewrite E in H. Qed.

Lemma balance_insert s s1 a n b : snap s = None → snap s1 = None → live s1 = <[a := default 0 (live s !! a) + n]> (live s) →
  (GetBalance keccak b s1).1 = (GetBalance keccak b s).1 + (if b =? a then n else 0).
Proof.
  intros Hs Hs1 El. rewrite !GetBalance_live, El by done. case_if; [subst; by rewrite lookup_insert_eq|]. rewrite lookup_insert_ne by done. lia.
Qed.
Lemma balance_some s s1 b : snap s = None → snap s1 = None → live s1 !! b = live s !! b ∨ live s1 !! b = None →
  (GetBalance keccak b s1).1 = (GetBalance keccak b s).1 ∨ (GetBalance keccak b s1).1 = 0.
Proof. intros Hs Hs1 [E|E]; rewrite !GetBalance_live, E by done; auto. Qed.

Lemma snap_AddBalance a n s : addr_ok s → snap (AddBalance keccak a n s) = snap s.
Proof. intros Ha. by destruct (gr_base _ _ (grows_AddBalance keccak ∅ a n s Ha)) as (_ & _ & E). Qed.
Lemma snap_SubBalance a n s : addr_ok s → snap (SubBalance keccak a n s) = snap s.
Proof. intros Ha. by destruct (gr_base _ _ (grows_SubBalance keccak ∅ a n s Ha)) as (_ & _ & E). Qed.
Lemma snap_SetNonce a n s : addr_ok s → snap (SetNonce keccak a n s) = snap s.
Proof. intros Ha. by destruct (gr_base _ _ (grows_SetNonce keccak ∅ a n s Ha)) as (_ & _ & E). Qed.

Definition state_laws : StateDBLaws (stateDB T S).
Proof.
  refine {| sim := state_sim; supply := fun s => sum_balances (live s) |}.
  - intros s s' (H1 & H2 & H3). by split; [symmetry|].
  - intros s1 s2 s3 (H1 & H2 & H3) (G1 & G2 & G3). by split; [etrans|].
  - intros s s' a (H & _). apply (eqv_reads _ _ _ _ H).
  - intros s s' a (H & _). apply (eqv_reads _ _ _ _ H).
  - intros s s' a (H & _). apply (eqv_reads _ _ _ _ H).
  - intros s s' (H & _). apply (eqv_reads _ _ _ _ H).
  - intros s s' (H & _). apply H.
  - intros s s' h n bh (H & _). apply (eqv_reads _ _ _ _ H).
  - intros a n s s'. apply (sim_grows (AddBalance keccak a n)); [intros; by eapply (grows_AddBalance keccak ∅)|intros; by apply AddBalance_eqv].
  - intros a n s s'. apply (sim_grows (SubBalance keccak a n)); [intros; by eapply (grows_SubBalance keccak ∅)|intros; by apply SubBalance_eqv].
  - intros a n s s'. apply (sim_grows (SetNonce keccak a n)); [intros; by eapply (grows_SetNonce keccak ∅)|intros; by apply SetNonce_eqv].
  - apply sim_Prepare_state.
  - intros h i s s' (H1 & H2 & H3). split; [by apply SetTxContext_eqv|]. split; (split; [apply SetTxContext_inv; apply H2 || apply H3|]); apply H2 || apply H3.
  - apply sim_Finalise_state.
  - intros d s (_ & H & _). cbn. destruct (IntermediateRoot_db d s H) as (z & r & -> & Hr & _). by apply sim_here.
  - intros h i h' i' s (_ & H & _). apply sim_here. split; [apply SetTxContext_inv|]; apply H.
  - intros s h n bh (_ & H & _). apply sim_keeps; [done|apply GetLogs_eqv|apply GetLogs_inv, H].
  - intros s h n bh n' bh' _. cbn. unfold GetLogs. destruct (logs s !! h); cbn; [|done]. by rewrite map_map.
  - intros s (_ & H & _). apply sim_keeps; [done|apply eqv_revs|apply Snapshot_inv, H].
  - intros s (_ & H & _). apply revert_db; [done|]. apply revert_nothing; [done|apply H].
  - intros a n s (_ & H & _). apply revert_db; [done|]. apply revert_SubBalance; [done|apply H].
  - intros s (_ & H & _). apply H.
  - intros a n s b (_ & H & _). pose proof (db_addr _ H). destruct H as [_ H].
    apply balance_insert; [done|cbn; by rewrite snap_AddBalance|by apply live_AddBalance].
  - intros a n s b (_ & H & _). pose proof (db_addr _ H). destruct H as [_ H]. cbn.
    rewrite (balance_insert s _ a (- n) b); [case_if; lia|done|by rewrite snap_SubBalance|by apply live_SubBalance].
  - intros a n s b (_ & H & _). pose proof (db_addr _ H). destruct H as [_ H]. cbn.
    rewrite (balance_insert s _ a 0 b); [case_if; lia|done|by rewrite snap_SetNonce|rewrite Z.add_0_r; by apply live_SetNonce].
  - intros r f c t al s b (_ & H & _). pose proof (live_Prepare r f c t al s H) as E. destruct (Prepare_db r f c t al s H) as (l & _ & El). cbn in *.
    rewrite !GetBalance_live, E; [done|apply H|rewrite El by done; apply H].
  - intros h i s b (_ & H & _). cbn. rewrite !GetBalance_live by apply H. done.
  - intros d s b (_ & H & _). apply balance_some; [apply H|apply Finalise_db, H|]. apply live_Finalise, H.
  - intros d s b (_ & H & _). cbn. destruct (IntermediateRoot_db d s H) as (z & r & -> & Hr & El). cbn.
    apply balance_some; [apply H|apply Hr|]. rewrite El. apply live_Finalise, H.
  - intros s s' (He & H & _). by rewrite (live_eqv ∅ s s') by apply H || done.
  - intros a n s (_ & H & _). cbn. rewrite live_AddBalance by (apply db_addr, H || apply H). apply sum_balances_add.
  - intros a n s (_ & H & _). cbn. rewrite live_SubBalance by (apply db_addr, H || apply H). rewrite sum_balances_add. lia.
  - intros a n s (_ & H & _). cbn. rewrite live_SetNonce by (apply db_addr, H || apply H).
    rewrite <- (Z.add_0_r (default 0 (live s !! a))), sum_balances_add. lia.
  - intros r f c t al s (_ & H & _). by rewrite live_Prepare.
  - intros h i s (_ & H & _). done.
  - intros d s (_ & H & _) Hs. apply sum_balances_le; [intros; apply live_Finalise, H|by apply solvent_live].
  - intros d s (_ & H & _) Hs. cbn. destruct (IntermediateRoot_db d s H) as (z & r & -> & Hr & El). cbn. rewrite El.
    apply sum_balances_le; [intros; apply live_Finalise, H|by apply solvent_live].
Defined.

End Instance.
