(* ===== verification/StateEffects.v ===== *)
(** What the operations of the state database do to the rest of a running
    transaction: which earlier snapshots they keep ([ext]), what they leave of
    the storage, of the access list and of the refund counter, and which of
    them do not write at all ([pure]).  [dbstep] puts these together; the call
    frames of [Evm.v] and the interpreter are proved to be such steps. *)

From S2P Require Import Prelude RLP Types Receipts Config Transactions State StateJournal.

Section Effects.
Context {T S : Type} `{Trie : !Tries T S} (keccak : bytes → Z).
Implicit Types (s : stateDB T S) (o : stateObject S).
Abbreviation X := ({[ ripemd ]} : gset Z).

Definition db_ok s : Prop := wf keccak X s ∧ revisions_ok s.
(** [s] was reached after a snapshot taken at [s0]. *)
Abbreviation inside s0 := (since keccak X s0 (nextRevisionId s0)).

(** ** Keeping snapshots *)

Record ext s s' : Prop := {
  ex_inside s0 : revisions_ok s0 → inside s0 s → inside s0 s';
  ex_ok : db_ok s → db_ok s'
}.
#[global] Instance ext_preorder : PreOrder ext.
Proof. split; [by split|]. intros s1 s2 s3 [H1 H2] [H3 H4]. split; auto. Qed.

Lemma inside_ok s s1 : revisions_ok s → inside s s1 → db_ok s1.
Proof. intros Hr Hi. split; [|by eapply since_revisions]. destruct Hi as [(l & _ & Hu) _ _]. by eapply undoable_wf. Qed.
Lemma ext_steps s s' : steps keccak X s s' → ext s s'.
Proof.
  intros Hst. split.
  - intros s0 _ Hi. by eapply since_steps.
  - intros [Hw Hr]. split; [by eapply steps_wf|].
    destruct (steps_undoable keccak X s s' [] s Hst) as (es & _ & _ & E1 & E2); [by split|]. unfold revisions_ok. by rewrite E1, E2.
Qed.
Lemma ext_silent s s' : silent keccak X s s' → ext s s'.
Proof. intros H. by apply ext_steps, steps_silent. Qed.
Lemma ext_op op s s' : db_ok s → (match op with op_Snapshot | op_Revert _ => False | _ => True end) → run_sop keccak op s = Ok s' → ext s s'.
Proof. intros [Hw _] Hop E. eapply ext_steps, run_sop_steps; [set_solver|done|exact Hop|exact E]. Qed.

Lemma snapshot_inside s : db_ok s → inside s (Snapshot s).2.
Proof. intros [H _]. by apply since_snapshot. Qed.
Lemma ext_snapshot s : ext s (Snapshot s).2.
Proof.
  split.
  - intros s0 Hr Hi. eapply (since_sop keccak X s0 op_Snapshot); [set_solver|done|done|exact Hi|done].
  - intros [Hw Hr]. split; [eapply wf_eqv; [symmetry; apply eqv_revs|done|apply Hw]|]. unfold revisions_ok, Snapshot. cbn.
    apply Forall_app. split; [eapply Forall_impl; [exact Hr|]; cbn; intros; lia|]. repeat constructor. cbn. lia.
Qed.
(** Going back to a snapshot taken at [s]. *)
Lemma ext_revert s s1 : db_ok s → inside s s1 → ∃ t, RevertToSnapshot keccak (nextRevisionId s) s1 = Ok t ∧ eqv keccak X t s ∧ db_ok t ∧
  (∀ s0, revisions_ok s0 → inside s0 s → inside s0 s1 → inside s0 t).
Proof.
  intros [Hw Hr] Hi. destruct (since_back keccak X s s1 Hr Hi) as (t & Et & He & Hwt & _ & E2 & E3).
  exists t. split; [done|]. split; [done|]. split.
  - split; [done|]. unfold revisions_ok. rewrite E2, E3. pose proof (sn_next _ _ _ _ _ Hi). eapply Forall_impl; [exact Hr|]. cbn. intros. lia.
  - intros s0 Hr0 H0 H1. eapply (since_sop keccak X s0 (op_Revert (nextRevisionId s))); [set_solver|done| |exact H1|exact Et].
    cbn. apply Z.ltb_lt. apply (sn_next _ _ _ _ _ H0).
Qed.

(** ** Storage *)

(** The values of a slot before the transaction and now. *)
Definition original s (a k : Z) : Z := match alive keccak s a with Some o => committed keccak s o k | None => 0 end.
Definition current s (a k : Z) : Z := match alive keccak s a with Some o => slot keccak s o k | None => 0 end.

(** Accounts stay, and either keep their storage or start without changes. *)
Definition storage_kept s s' : Prop := ∀ a,
  (is_Some (alive keccak s a) → is_Some (alive keccak s' a)) ∧
  ((∀ k, original s' a k = original s a k ∧ current s' a k = current s a k) ∨ (∀ k, current s' a k = original s' a k)).
#[global] Instance storage_kept_preorder : PreOrder storage_kept.
Proof.
  split; [intros s a; by split; [|left]|]. intros s1 s2 s3 H1 H2 a. destruct (H1 a) as [A1 H1'], (H2 a) as [A2 H2']. split; [auto|].
  destruct H2' as [H|H]; [|by right].
  destruct H1' as [H'|H']; [left|right]; intros k; destruct (H k) as [E1 E2]; rewrite E1, E2; [apply H'|apply H'].
Qed.

Lemma eqv_alive s s' a : eqv keccak X s s' → alive keccak s a = None ↔ alive keccak s' a = None.
Proof. intros He. by destruct (alive_eqv keccak X s s' a He). Qed.
Lemma eqv_object s s' a o : eqv keccak X s s' → alive keccak s a = Some o → ∃ o', alive keccak s' a = Some o' ∧ obj_eq keccak s o o' ∧
  (∀ k, committed keccak s' o' k = committed keccak s o k) ∧ (∀ k, slot keccak s' o' k = slot keccak s o k).
Proof.
  intros He Ha. pose proof (alive_eqv keccak X s s' a He) as H. rewrite Ha in H. inversion H as [? o' Ho|]; subst. exists o'.
  destruct (alive_view keccak s a o Ha) as [_ Hd]. destruct (eq_base _ _ _ _ He) as (_ & Hr & Hs). split_and!; try done; intros k.
  - rewrite (oe_committed _ _ _ _ Ho) by done. symmetry. by apply committed_ext; [..|rewrite (eq_destruct _ _ _ _ He)].
  - rewrite (oe_slot _ _ _ _ Ho) by done. symmetry. by apply slot_ext; [..|rewrite (eq_destruct _ _ _ _ He)].
Qed.
Lemma eqv_storage s s' : eqv keccak X s s' → ∀ a k, original s' a k = original s a k ∧ current s' a k = current s a k.
Proof.
  intros He a k. unfold original, current. destruct (alive keccak s a) as [o|] eqn:Ea.
  - by destruct (eqv_object s s' a o He Ea) as (o' & -> & _ & -> & ->).
  - by rewrite (proj1 (eqv_alive s s' a He) Ea).
Qed.
Lemma eqv_kept s s' : eqv keccak X s s' → storage_kept s s'.
Proof.
  intros He a. split; [|left; intros k; by apply eqv_storage]. intros [o Ho]. destruct (eqv_object s s' a o He Ho) as (o' & E & _). by exists o'.
Qed.

Lemma GetState_spec a k s v s1 : addr_ok s → GetState keccak a k s = (v, s1) → v = current s a k ∧ silent keccak X s s1.
Proof.
  intros Ha. unfold GetState, current. destruct (get_object keccak X a s) as (s0 & -> & Hs & Hh). destruct (alive keccak s a) as [o|] eqn:Eo.
  - destruct (so_GetState keccak k o s0) as [[w o'] s'] eqn:E. intros [= <- <-]. apply cached_slot in E as (-> & Ho & Hs').
    split; [apply (slot_silent _ _ _ _ _ _ Hs)|]. apply alive_view in Eo as [Ev _]. pose proof (view_addr _ _ _ _ Ha Ev) as <-.
    etrans; [exact Hs|]. apply (silent_cache _ _ s0 s' o o'); [apply view_here; auto|done|done].
  - by intros [= <- <-].
Qed.
Lemma GetCommittedState_spec a k s v s1 : addr_ok s → GetCommittedState keccak a k s = (v, s1) → v = original s a k ∧ silent keccak X s s1.
Proof.
  intros Ha. unfold GetCommittedState, original. destruct (get_object keccak X a s) as (s0 & -> & Hs & Hh). destruct (alive keccak s a) as [o|] eqn:Eo.
  - destruct (so_GetCommittedState keccak k o s0) as [[w o'] s'] eqn:E. intros [= <- <-]. apply cached_committed in E as (-> & Ho & Hs').
    split; [apply (slot_silent _ _ _ _ _ _ Hs)|]. apply alive_view in Eo as [Ev _]. pose proof (view_addr _ _ _ _ Ha Ev) as <-.
    etrans; [exact Hs|]. apply (silent_cache _ _ s0 s' o o'); [apply view_here; auto|done|done].
  - by intros [= <- <-].
Qed.

(** ** Refunds for cleared slots *)

(** A slot that held a value before the transaction and was cleared in it. *)
Definition cleared s (a k : Z) : Prop := original s a k ≠ 0 ∧ current s a k = 0.
(** The refund counter holds [R] for each of them. *)
Definition covers (R : Z) s : Prop := ∀ l : list (Z * Z), NoDup l → (∀ a k, (a, k) ∈ l → cleared s a k) → R * zlen l ≤ refund s.

Lemma covers_mono R s s' : (∀ a k, cleared s' a k → cleared s a k) → refund s ≤ refund s' → covers R s → covers R s'.
Proof. intros Hc Hr H l Hn Hl. etrans; [apply (H l Hn); auto|done]. Qed.
Lemma kept_cleared s s' a k : storage_kept s s' → cleared s' a k → cleared s a k.
Proof. intros Hk [H1 H2]. destruct (Hk a) as [_ [H|H]]; [destruct (H k) as [E1 E2]; by rewrite E1, E2 in *|]. rewrite H in H2. congruence. Qed.
Lemma covers_kept R s s' : storage_kept s s' → refund s ≤ refund s' → covers R s → covers R s'.
Proof. intros Hk. apply covers_mono. intros a k. by apply kept_cleared. Qed.
Lemma covers_one R s a k : covers R s → cleared s a k → R ≤ refund s.
Proof.
  intros H Hc. specialize (H [(a, k)]). cbn in H. enough (R * 1 ≤ refund s) by lia. apply H; [apply NoDup_singleton|].
  intros b j [= -> ->]%list_elem_of_singleton. done.
Qed.
Lemma covers_nonneg R s : covers R s → 0 ≤ refund s.
Proof. intros H. specialize (H [] (NoDup_nil_2)). cbn in H. enough (R * 0 ≤ refund s) by lia. apply H. intros a k []%not_elem_of_nil. Qed.

(** Writing one slot moves the counter by one refund at most. *)
Lemma covers_write R s s' a k : 0 ≤ R → (∀ b j, (b, j) ≠ (a, k) → cleared s' b j → cleared s b j) →
  (cleared s' a k → ¬ cleared s a k → refund s + R ≤ refund s') → (cleared s' a k → cleared s a k → refund s ≤ refund s') →
  (¬ cleared s' a k → cleared s a k → refund s - R ≤ refund s') → (¬ cleared s' a k → ¬ cleared s a k → refund s ≤ refund s') →
  covers R s → covers R s'.
Proof.
  intros HR Hother H1 H2 H3 H4 H l Hn Hl. destruct (decide ((a, k) ∈ l)) as [Hin|Hin].
  - apply elem_of_Permutation in Hin as (l' & Hp). assert (Hn' : NoDup ((a, k) :: l')) by (by rewrite <- Hp). apply NoDup_cons in Hn' as [Hni Hn'].
    assert (Hc' : cleared s' a k) by (apply Hl; rewrite Hp; set_solver).
    assert (Hl' : ∀ b j, (b, j) ∈ l' → cleared s b j).
    { intros b j Hb. apply Hother; [congruence|]. apply Hl. rewrite Hp. set_solver. }
    assert (El : zlen l = zlen l' + 1) by (unfold zlen; rewrite Hp; cbn; lia).
    assert (Hd : cleared s a k ∨ ¬ cleared s a k) by (unfold cleared; destruct (decide (original s a k = 0)), (decide (current s a k = 0)); naive_solver).
    destruct Hd as [Hc|Hc].
    + etrans; [apply (H l Hn)|by apply H2]. intros b j Hb. rewrite Hp in Hb. apply elem_of_cons in Hb as [[= -> ->]|Hb]; auto.
    + specialize (H1 Hc' Hc). specialize (H l' Hn' Hl'). lia.
  - assert (Hl' : ∀ b j, (b, j) ∈ l → cleared s b j) by (intros b j Hb; apply Hother; [congruence|auto]).
    assert (Hd : ∀ t, cleared t a k ∨ ¬ cleared t a k) by (intros t; unfold cleared; destruct (decide (original t a k = 0)), (decide (current t a k = 0)); naive_solver).
    specialize (H l Hn Hl') as Hlen. destruct (Hd s) as [Hc|Hc], (Hd s') as [Hc'|Hc']; try (by etrans; [exact Hlen|auto]).
    + assert (Hlen' : R * zlen ((a, k) :: l) ≤ refund s).
      { apply H; [by constructor|]. intros b j [[= -> ->]|Hb]%elem_of_cons; auto. }
      rewrite zlen_cons in Hlen'. specialize (H3 Hc' Hc). lia.
    + specialize (H1 Hc' Hc). lia.
Qed.

(** ** Objects after a write *)

Lemma alive_put s o a : alive keccak (setStateObject o s) a = if decide (a = so_address o) then (if deleted o then None else Some o) else alive keccak s a.
Proof. unfold alive. rewrite view_put. by case_decide. Qed.

(** The state below is the same, up to what is destructed of [a] itself. *)
Record base_kept (a : Z) s s' : Prop := {
  bk_base : same_base s s';
  bk_view b : b ≠ a → view keccak s' b = view keccak s b;
  bk_destruct b : b ≠ a → b ∈ stateObjectsDestruct s' ↔ b ∈ stateObjectsDestruct s
}.
Lemma alive_addr s a o : addr_ok s → alive keccak s a = Some o → so_address o = a.
Proof. intros Ha H. apply alive_view in H as [Hv _]. by eapply view_addr. Qed.
Lemma base_alive a s s' b : base_kept a s s' → b ≠ a → alive keccak s' b = alive keccak s b.
Proof. intros H Hb. unfold alive. by rewrite (bk_view _ _ _ H). Qed.
Lemma base_storage a s s' b k : addr_ok s → base_kept a s s' → b ≠ a → original s' b k = original s b k ∧ current s' b k = current s b k.
Proof.
  intros Ha H Hb. unfold original, current. rewrite (base_alive a s) by done. destruct (alive keccak s b) as [o|] eqn:E; [|done].
  pose proof (alive_addr s b o Ha E) as Eo. destruct (bk_base _ _ _ H) as (_ & Hr & Hs).
  split; symmetry; [apply committed_ext|apply slot_ext]; try done; rewrite Eo; symmetry; by apply (bk_destruct _ _ _ H).
Qed.

(** *** One object is written; its storage is as before or has no changes. *)
Lemma kept_one a s s' : addr_ok s → base_kept a s s' → is_Some (alive keccak s' a) →
  ((∀ k, original s' a k = original s a k ∧ current s' a k = current s a k) ∨ (∀ k, current s' a k = original s' a k)) → storage_kept s s'.
Proof.
  intros Ha H Hal Hone b. destruct (decide (b = a)) as [->|Hb]; [done|]. rewrite (base_alive a s s') by done. split; [done|].
  left. intros k. by apply (base_storage a).
Qed.

(** What else a transaction keeps. *)
Record rest_kept s s' : Prop := {
  rk_refund : refund s' = refund s;
  rk_access : accessListOf s' = accessListOf s;
  rk_transient a k : ts_Get a k (transientOf s') = ts_Get a k (transientOf s);
  rk_logs : bare (logs s') = bare (logs s);
  rk_logSize : logSize s' = logSize s
}.
#[global] Instance rest_kept_preorder : PreOrder rest_kept.
Proof. split; [by split|]. intros s1 s2 s3 [] []. split; try (intros; congruence). Qed.
Lemma eqv_rest s s' : eqv keccak X s' s → rest_kept s s'.
Proof. intros []. by split. Qed.

(** ** Operations that write to one account *)

Record obj_write o s s' : Prop := {
  ow_base : base_kept (so_address o) s s';
  ow_object : ∃ o', alive keccak s' (so_address o) = Some o' ∧ ∀ k, committed keccak s' o' k = committed keccak s o k ∧ slot keccak s' o' k = slot keccak s o k;
  ow_rest : rest_kept s s'
}.

Lemma alive_here s a o : stateObjects s !! a = Some o → deleted o = false → alive keccak s a = Some o.
Proof. intros H Hd. unfold alive. by rewrite (view_here _ _ _ _ H), Hd. Qed.

(** An object with the same storage takes its place. *)
Lemma put_write s s1 o o' : stateObjects s !! so_address o = Some o → so_address o' = so_address o → deleted o' = false →
  stateObjects s1 = stateObjects s → sd_trie s1 = sd_trie s → originalRoot s1 = originalRoot s → snap s1 = snap s → stateObjectsDestruct s1 = stateObjectsDestruct s →
  rest_kept s s1 → (∀ k, committed keccak s o' k = committed keccak s o k ∧ slot keccak s o' k = slot keccak s o k) →
  obj_write o s (setStateObject o' s1).
Proof.
  intros Hh Ha Hd E1 E2 E3 E4 E5 Hr Hst. split; [split|..|by destruct Hr; split].
  - by split_and!.
  - intros b Hb. rewrite view_put, decide_False by congruence. unfold view. rewrite E1. destruct (stateObjects s !! b); [done|].
    apply load_ext. by split_and!.
  - intros b _. cbn. by rewrite E5.
  - exists o'. rewrite alive_put, Ha, decide_True, Hd by done. split; [done|]. intros k. destruct (Hst k) as [<- <-].
    split; [apply committed_ext|apply slot_ext]; cbn; by rewrite ?E3, ?E4, ?E5.
Qed.
Lemma rest_append e s : rest_kept s (append e s).
Proof. by split. Qed.
Lemma obj_write_refl o s : stateObjects s !! so_address o = Some o → deleted o = false → obj_write o s s.
Proof. intros Hh Hd. split; [by split|exists o; split; [by apply alive_here|done]|done]. Qed.

Lemma so_SetBalance_write n o s : stateObjects s !! so_address o = Some o → deleted o = false → obj_write o s (so_SetBalance n o s).
Proof. intros Hh Hd. by apply put_write. Qed.
Lemma touch_write o s : stateObjects s !! so_address o = Some o → deleted o = false → obj_write o s (touch o s).
Proof. intros Hh Hd. unfold touch. case_if; (split; [by split|exists o; split; [by apply alive_here|done]|by split]). Qed.
Lemma so_AddBalance_write n o s : stateObjects s !! so_address o = Some o → deleted o = false → obj_write o s (so_AddBalance keccak n o s).
Proof. intros Hh Hd. unfold so_AddBalance. case_if; [case_if; [by apply touch_write|by apply obj_write_refl]|by apply so_SetBalance_write]. Qed.
Lemma so_SubBalance_write n o s : stateObjects s !! so_address o = Some o → deleted o = false → obj_write o s (so_SubBalance n o s).
Proof. intros Hh Hd. unfold so_SubBalance. case_if; [by apply obj_write_refl|by apply so_SetBalance_write]. Qed.
Lemma so_SetNonce_write n o s : stateObjects s !! so_address o = Some o → deleted o = false → obj_write o s (so_SetNonce n o s).
Proof. intros Hh Hd. by apply put_write. Qed.
Lemma so_SetCode_write h c o s : stateObjects s !! so_address o = Some o → deleted o = false → obj_write o s (so_SetCode keccak h c o s).
Proof.
  intros Hh Hd. unfold so_SetCode. destruct (so_Code keccak o s) as [[pc o'] s'] eqn:E. apply cached_code in E as (_ & Ho & Hs & Ha & _ & Hd').
  apply put_write; try done; try (by destruct Hs as [->| ->]).
  - cbn. congruence.
  - intros k. change (committed keccak s (so_setCode h c o') k) with (committed keccak s o' k). change (slot keccak s (so_setCode h c o') k) with (slot keccak s o' k).
    by rewrite <- (oe_committed _ _ _ _ Ho), <- (oe_slot _ _ _ _ Ho).
Qed.

(** The account to write to: found, or new and empty. *)
Lemma create_effect a s : addr_ok s → ∃ s1, createObject keccak a s = (fresh keccak a, alive keccak s a, s1) ∧
  stateObjects s1 !! a = Some (fresh keccak a) ∧ base_kept a s s1 ∧ rest_kept s s1.
Proof.
  intros Ha. unfold createObject. destruct (get_deleted keccak X a s) as (s0 & E0 & Hs & Hh). rewrite E0.
  assert (Hb : base_kept a s s0).
  { destruct (eq_base _ _ _ _ (si_eqv _ _ _ _ Hs)) as (Q1 & Q2 & Q3). split; [by split_and!| |].
    - intros b Hb. apply (f_equal snd) in E0. cbn [snd] in E0. subst s0. unfold getDeletedStateObject, view. destruct (stateObjects s !! a) eqn:Ea; [done|].
      destruct (read_account keccak s a) as [[d|] err]; cbn; [rewrite lookup_insert_ne by done|]; destruct err; cbn; done.
    - intros b _. by rewrite (eq_destruct _ _ _ _ (si_eqv _ _ _ _ Hs)). }
  assert (Hr : rest_kept s s0) by (apply eqv_rest, Hs).
  destruct Hb as [B1 B2 B3]. unfold alive. destruct (view keccak s a) as [prev|] eqn:Ev.
  - pose proof (view_addr keccak s a prev Ha Ev) as Hpa. eexists. split; [by destruct (deleted prev)|]. split; [apply lookup_insert_eq|]. split.
    + split; [by case_bool_decide| |].
      * intros b Hb. rewrite <- B2 by done. rewrite view_put, decide_False by done. by case_bool_decide.
      * intros b Hb. rewrite <- B3 by done. case_bool_decide; cbn; set_solver.
    + etrans; [exact Hr|]. by case_bool_decide.
  - eexists. split; [done|]. split; [apply lookup_insert_eq|]. split; [|by etrans; [exact Hr|]]. split; [done| |done].
    intros b Hb. rewrite <- B2 by done. by rewrite view_put, decide_False.
Qed.

Lemma fresh_storage s a k : alive keccak s a = Some (fresh keccak a) → current s a k = original s a k.
Proof. intros H. unfold current, original. by rewrite H. Qed.
Lemma silent_base a s s1 : silent keccak X s s1 → (∀ b, b ≠ a → view keccak s1 b = view keccak s b) → base_kept a s s1.
Proof.
  intros Hs Hv. destruct (eq_base _ _ _ _ (si_eqv _ _ _ _ Hs)) as (Q1 & Q2 & Q3). split; [by split_and!|done|].
  intros b _. by rewrite (eq_destruct _ _ _ _ (si_eqv _ _ _ _ Hs)).
Qed.

(** Looking for an account leaves its storage, or starts it. *)
Lemma get_or_new_effect a s : addr_ok s → ∃ o s1, GetOrNewStateObject keccak a s = (o, s1) ∧ stateObjects s1 !! a = Some o ∧ so_address o = a ∧
  deleted o = false ∧ storage_kept s s1 ∧ rest_kept s s1 ∧ addr_ok s1.
Proof.
  intros Ha. unfold GetOrNewStateObject. destruct (get_object keccak X a s) as (s0 & -> & Hs & Hh). destruct (alive keccak s a) as [o|] eqn:Ea.
  - destruct (alive_view _ _ _ _ Ea) as [Ev Hd]. exists o, s0. split_and!; [done|auto|by eapply view_addr|done|..|by apply Hs].
    + apply eqv_kept. symmetry. apply Hs.
    + apply eqv_rest, Hs.
  - assert (Ha0 : addr_ok s0) by (by apply Hs). destruct (create_effect a s0 Ha0) as (s1 & -> & H1 & H2 & H3). exists (fresh keccak a), s1.
    split_and!; try done.
    + etrans; [apply eqv_kept; symmetry; apply Hs|]. pose proof (alive_here _ _ _ H1 eq_refl) as E1. apply (kept_one a); [done|done|by eexists|]. right. intros k. by apply fresh_storage.
    + etrans; [apply eqv_rest, Hs|done].
    + intros b o Hb. destruct (decide (b = a)) as [->|Hne]; [rewrite H1 in Hb; by injection Hb as <-|].
      apply (view_addr keccak s0 b o Ha0). rewrite <- (bk_view _ _ _ H2 b Hne). by apply view_here.
Qed.

Lemma on_new_effect a s (f : stateObject S → stateDB T S → stateDB T S) :
  (∀ o s, stateObjects s !! so_address o = Some o → deleted o = false → obj_write o s (f o s)) → addr_ok s →
  storage_kept s (let '(o, s) := GetOrNewStateObject keccak a s in f o s) ∧ rest_kept s (let '(o, s) := GetOrNewStateObject keccak a s in f o s).
Proof.
  intros Hf Ha. destruct (get_or_new_effect a s Ha) as (o & s1 & -> & Hh & <- & Hd & Hk & Hr & Ha1).
  destruct (Hf o s1 Hh Hd) as [B (o' & Eo & Hst) R]. split; [|by etrans]. etrans; [exact Hk|].
  apply (kept_one (so_address o)); [done|done|by eexists|]. left. intros k. unfold original, current. rewrite Eo, (alive_here _ _ _ Hh Hd). apply Hst.
Qed.

(** ** Steps of a transaction *)

(** Nothing was written: accounts read as before, and what is new is empty. *)
Record pure s s' : Prop := {
  pu_alive a o : alive keccak s a = Some o → ∃ o', alive keccak s' a = Some o' ∧ so_data o' = so_data o ∧ suicided o' = suicided o ∧
    code keccak o' = code keccak o ∧ ∀ k, committed keccak s' o' k = committed keccak s o k ∧ slot keccak s' o' k = slot keccak s o k;
  pu_new a o : alive keccak s a = None → alive keccak s' a = Some o → so_empty keccak o = true;
  pu_refund : refund s' = refund s;
  pu_transient a k : ts_Get a k (transientOf s') = ts_Get a k (transientOf s);
  pu_logs : bare (logs s') = bare (logs s);
  pu_logSize : logSize s' = logSize s
}.
Lemma data_empty o o' : so_data o' = so_data o → so_empty keccak o' = so_empty keccak o.
Proof. intros E. unfold so_empty, so_Nonce, so_Balance, so_CodeHash. by rewrite E. Qed.
#[global] Instance pure_preorder : PreOrder pure.
Proof.
  split.
  - intros s. split; try done; [eauto 10|congruence].
  - intros s1 s2 s3 [H1 H2 H3 H4 H5 H6] [G1 G2 G3 G4 G5 G6]. split; try (intros; congruence).
    + intros a o Ho. destruct (H1 a o Ho) as (o2 & E2 & D2 & S2 & C2 & K2). destruct (G1 a o2 E2) as (o3 & E3 & D3 & S3 & C3 & K3).
      exists o3. split_and!; try congruence. intros k. destruct (K2 k), (K3 k). split; congruence.
    + intros a o Hn Ho. destruct (alive keccak s2 a) as [o2|] eqn:E2; [|by eapply G2]. destruct (G1 a o2 E2) as (o3 & E3 & D3 & _).
      rewrite E3 in Ho. injection Ho as <-. rewrite (data_empty _ _ D3). by eapply H2.
Qed.
Lemma eqv_pure s s' : eqv keccak X s' s → pure s s'.
Proof.
  intros He. destruct (eqv_rest _ _ He). split; try done.
  - intros a o Ho. destruct (eqv_object s s' a o (symmetry He) Ho) as (o' & E & [] & Hc & Hk). exists o'. split_and!; try done; naive_solver.
  - intros a o Hn. by rewrite (proj1 (eqv_alive s s' a (symmetry He)) Hn).
Qed.

Context (R : Z).
Record dbstep (ro : bool) (d : Z) s s' : Prop := {
  ds_ext : ext s s';
  ds_alive a : is_Some (alive keccak s a) → is_Some (alive keccak s' a);
  ds_warm a : AddressInAccessList a s = true → AddressInAccessList a s' = true;
  ds_refund : refund s' ≤ refund s + d;
  ds_covers : covers R s → covers R s';
  ds_pure : ro = true → pure s s'
}.
Lemma dbstep_refl ro s : dbstep ro 0 s s.
Proof. split; try done. lia. Qed.
Lemma dbstep_trans ro d1 d2 s1 s2 s3 : dbstep ro d1 s1 s2 → dbstep ro d2 s2 s3 → dbstep ro (d1 + d2) s1 s3.
Proof. intros [H1 H0 H2 H3 H4 H5] [G1 G0 G2 G3 G4 G5]. split; auto; [by etrans|lia|]. intros Hro. etrans; auto. Qed.
Lemma dbstep_then ro s1 s2 s3 : dbstep ro 0 s1 s2 → dbstep ro 0 s2 s3 → dbstep ro 0 s1 s3.
Proof. intros H1 H2. rewrite <- (Z.add_0_r 0). by eapply dbstep_trans. Qed.
Lemma dbstep_weaken ro d d' s s' : d ≤ d' → dbstep ro d s s' → dbstep ro d' s s'.
Proof. intros Hd []. split; auto. lia. Qed.
Lemma dbstep_eqv ro s s' : ext s s' → eqv keccak X s' s → dbstep ro 0 s s'.
Proof.
  intros Hx He. destruct (eqv_rest _ _ He) as [H1 H2 _ _ _]. split; try done.
  - intros a. by apply (eqv_kept _ _ (symmetry He)).
  - unfold AddressInAccessList. by rewrite H2.
  - lia.
  - apply covers_kept; [by apply eqv_kept|lia].
  - intros _. by apply eqv_pure.
Qed.
Lemma dbstep_silent ro s s' : silent keccak X s s' → dbstep ro 0 s s'.
Proof. intros Hs. apply dbstep_eqv; [by apply ext_silent|apply Hs]. Qed.
(** A write. *)
Lemma dbstep_write s s' : ext s s' → storage_kept s s' ∧ rest_kept s s' → dbstep false 0 s s'.
Proof.
  intros Hx [Hk [H1 H2 _ _ _]]. split; try done; [intros a; apply Hk|unfold AddressInAccessList; by rewrite H2|lia|]. apply covers_kept; [done|lia].
Qed.

(** *** The operations *)

Lemma db_addr_ok s : db_ok s → addr_ok s.
Proof. intros [[H _] _]. exact H. Qed.

Lemma step_with_object {A} ro a s (m : A) f v s' : with_object keccak a s m f = (v, s') → dbstep ro 0 s s'.
Proof. unfold with_object. destruct (get_object keccak X a s) as (s0 & -> & Hs & _). intros [= _ <-]. by apply dbstep_silent. Qed.
Lemma step_GetCode ro a s v s' : db_ok s → GetCode keccak a s = (v, s') → dbstep ro 0 s s'.
Proof.
  intros Hok. pose proof (db_addr_ok s Hok) as Ha. unfold GetCode. destruct (get_object keccak X a s) as (s0 & -> & Hs & Hh). destruct (alive keccak s a) as [o|] eqn:Eo.
  - destruct (so_Code keccak o s0) as [[c o'] s1] eqn:E. intros [= _ <-]. apply cached_code in E as (_ & Ho & Hs' & _).
    apply alive_view in Eo as [Ev _]. pose proof (view_addr _ _ _ _ Ha Ev) as <-.
    apply dbstep_silent. etrans; [exact Hs|]. apply (silent_cache _ _ s0 s1 o o'); [apply view_here; auto|done|done].
  - intros [= _ <-]. by apply dbstep_silent.
Qed.
Lemma step_GetCodeSize ro a s v s' : GetCodeSize keccak a s = (v, s') → dbstep ro 0 s s'.
Proof.
  unfold GetCodeSize. destruct (get_object keccak X a s) as (s0 & -> & Hs & _). destruct (alive keccak s a) as [o|].
  - unfold so_CodeSize. destruct (so_code o); [intros [= _ <-]; by apply dbstep_silent|]. case_if; [intros [= _ <-]; by apply dbstep_silent|].
    destruct (ContractCodeSize _ _) as [n err]. intros [= _ <-]. apply dbstep_silent. etrans; [exact Hs|]. destruct err; [apply silent_error|done].
  - intros [= _ <-]. by apply dbstep_silent.
Qed.
Lemma step_GetState ro a k s v s' : db_ok s → GetState keccak a k s = (v, s') → v = current s a k ∧ silent keccak X s s' ∧ dbstep ro 0 s s'.
Proof. intros Hok E. apply GetState_spec in E as [Hv Hs]; [|by apply db_addr_ok]. split_and!; [done..|]. by apply dbstep_silent. Qed.
Lemma step_GetCommittedState ro a k s v s' : db_ok s → GetCommittedState keccak a k s = (v, s') → v = original s a k ∧ silent keccak X s s' ∧ dbstep ro 0 s s'.
Proof. intros Hok E. apply GetCommittedState_spec in E as [Hv Hs]; [|by apply db_addr_ok]. split_and!; [done..|]. by apply dbstep_silent. Qed.

Lemma step_AddBalance a n s : db_ok s → dbstep false 0 s (AddBalance keccak a n s).
Proof.
  intros Hok. apply dbstep_write; [by apply (ext_op (op_AddBalance a n))|]. apply on_new_effect; [|by apply db_addr_ok]. intros. by apply so_AddBalance_write.
Qed.
Lemma step_SubBalance a n s : db_ok s → dbstep false 0 s (SubBalance keccak a n s).
Proof.
  intros Hok. apply dbstep_write; [by apply (ext_op (op_SubBalance a n))|]. apply on_new_effect; [|by apply db_addr_ok]. intros. by apply so_SubBalance_write.
Qed.
Lemma step_SetNonce a n s : db_ok s → dbstep false 0 s (SetNonce keccak a n s).
Proof.
  intros Hok. apply dbstep_write; [by apply (ext_op (op_SetNonce a n))|]. apply on_new_effect; [|by apply db_addr_ok]. intros. by apply so_SetNonce_write.
Qed.
Lemma step_SetCode a c s : db_ok s → dbstep false 0 s (SetCode keccak a c s).
Proof.
  intros Hok. apply dbstep_write; [by apply (ext_op (op_SetCode a c))|]. apply on_new_effect; [|by apply db_addr_ok]. intros. by apply so_SetCode_write.
Qed.
Lemma step_Suicide a s : db_ok s → dbstep false 0 s (Suicide keccak a s).2.
Proof.
  intros Hok. apply dbstep_write; [by apply (ext_op (op_Suicide a))|]. pose proof (db_addr_ok s Hok) as Ha.
  unfold Suicide. destruct (get_object keccak X a s) as (s0 & -> & Hs & Hh). assert (Ha0 : addr_ok s0) by (by apply Hs).
  assert (H0 : storage_kept s s0 ∧ rest_kept s s0) by (split; [apply eqv_kept; symmetry; apply Hs|apply eqv_rest, Hs]).
  destruct (alive keccak s a) as [o|] eqn:Eo; [|done]. cbn [snd].
  destruct (alive_view _ _ _ _ Eo) as [Ev Hd]. pose proof (view_addr _ _ _ _ Ha Ev) as <-. specialize (Hh _ Ev).
  assert (Hw : obj_write o s0 (setStateObject (so_setBalance 0 (so_setSuicided true o)) (append (suicideChange (so_address o) (suicided o) (so_Balance o)) s0))) by (by apply put_write).
  destruct Hw as [B (o' & Eo' & Hst) Rk]. split; [|by etrans; [apply H0|]]. etrans; [apply H0|].
  apply (kept_one (so_address o)); [done|done|by eexists|]. left. intros k. unfold original, current. rewrite Eo', (alive_here _ _ _ Hh Hd). apply Hst.
Qed.

(** Creating an account: over an existing one its storage is gone. *)
Lemma create_account_effect a s : addr_ok s → base_kept a s (CreateAccount keccak a s) ∧ rest_kept s (CreateAccount keccak a s) ∧
  ∃ o, alive keccak (CreateAccount keccak a s) a = Some o ∧ (∀ k, current (CreateAccount keccak a s) a k = original (CreateAccount keccak a s) a k) ∧
       (alive keccak s a = None → so_empty keccak o = true).
Proof.
  intros Ha. unfold CreateAccount. destruct (create_effect a s Ha) as (s1 & -> & H1 & H2 & H3). destruct (alive keccak s a) as [prev|] eqn:Ea.
  - assert (Hw : obj_write (fresh keccak a) s1 (setStateObject (so_setBalance (so_Balance prev) (fresh keccak a)) s1)) by (by apply put_write).
    destruct Hw as [[B1 B2 B3] (o' & Eo & Hst) Rk]. destruct H2 as [C1 C2 C3]. split_and!; [split| |].
    + destruct C1 as (? & ? & ?), B1 as (? & ? & ?). split_and!; congruence.
    + intros b Hb. by rewrite B2, C2.
    + intros b Hb. rewrite B3 by done. by apply C3.
    + by etrans.
    + exists o'. split; [done|]. split; [|done]. intros k. unfold current, original. change (so_address (fresh keccak a)) with a in Eo. rewrite Eo.
      destruct (Hst k) as [-> ->]. done.
  - split_and!; [done|done|]. exists (fresh keccak a). pose proof (alive_here _ _ _ H1 eq_refl) as E1. split_and!; [done| |].
    + intros k. by apply fresh_storage.
    + intros _. unfold so_empty. cbn. by rewrite Z.eqb_refl.
Qed.
Lemma step_CreateAccount a s : db_ok s → dbstep false 0 s (CreateAccount keccak a s).
Proof.
  intros Hok. apply dbstep_write; [by apply (ext_op (op_CreateAccount a))|].
  destruct (create_account_effect a s (db_addr_ok s Hok)) as (H1 & H2 & o & Eo & H3 & _). split; [|done].
  apply (kept_one a); [by apply db_addr_ok|done|by eexists|]. by right.
Qed.
(** A new account is not a write that can be read. *)
Lemma base_pure a s s' : addr_ok s → base_kept a s s' → rest_kept s s' → alive keccak s a = None →
  (∀ o, alive keccak s' a = Some o → so_empty keccak o = true) → pure s s'.
Proof.
  intros Ha Hb [H1 H2 H3 H4 H5] Hn He. split; try done.
  - intros b o Ho. destruct (decide (b = a)) as [->|Hne]; [congruence|]. exists o. rewrite (base_alive a s) by done. split_and!; try done.
    intros k. pose proof (base_storage a s s' b k Ha Hb Hne) as [E1 E2]. unfold original, current in E1, E2. by rewrite (base_alive a s), Ho in E1, E2.
  - intros b o Hb0 Ho. destruct (decide (b = a)) as [->|Hne]; [by apply He|]. rewrite (base_alive a s) in Ho by done. congruence.
Qed.
Lemma step_CreateAccount_new ro a s : db_ok s → alive keccak s a = None → dbstep ro 0 s (CreateAccount keccak a s).
Proof.
  intros Hok Hn. destruct (step_CreateAccount a s Hok) as [H1 H0 H2 H3 H4 _]. split; try done. intros _.
  destruct (create_account_effect a s (db_addr_ok s Hok)) as (B1 & B2 & o & Eo & _ & He).
  apply (base_pure a); [by apply db_addr_ok|done|done|done|]. intros o' Eo'. rewrite Eo in Eo'. injection Eo' as <-. auto.
Qed.

(** *** Operations that do not touch accounts *)

Record same_objects s s' : Prop := {
  so_objects : stateObjects s' = stateObjects s;
  so_below : same_base s s';
  so_destruct : stateObjectsDestruct s' = stateObjectsDestruct s
}.
Lemma same_alive s s' a : same_objects s s' → alive keccak s' a = alive keccak s a.
Proof.
  intros [H1 H2 _]. unfold alive, view. rewrite H1, (load_ext _ s' s); [done|]. destruct H2 as (? & ? & ?). by split_and!.
Qed.
Lemma same_storage s s' o k : same_objects s s' → committed keccak s' o k = committed keccak s o k ∧ slot keccak s' o k = slot keccak s o k.
Proof. intros [_ (_ & H2 & H3) H4]. split; [apply committed_ext|apply slot_ext]; try done; by rewrite H4. Qed.
Lemma same_kept s s' : same_objects s s' → storage_kept s s'.
Proof.
  intros H a. rewrite (same_alive s s') by done. split; [done|]. left. intros k. unfold original, current.
  rewrite (same_alive s s') by done. destruct (alive keccak s a); [by apply same_storage|done].
Qed.
Lemma same_pure s s' : same_objects s s' → refund s' = refund s → transientOf s' = transientOf s → logs s' = logs s → logSize s' = logSize s → pure s s'.
Proof.
  intros H E1 E2 E3 E4. split; try congruence.
  - intros a o Ho. exists o. rewrite (same_alive s) by done. split_and!; try done. intros k. by apply same_storage.
  - intros a o Hn. rewrite (same_alive s) by done. congruence.
Qed.

Lemma step_free ro s s' : ext s s' → same_objects s s' → (∀ a, AddressInAccessList a s = true → AddressInAccessList a s' = true) → refund s' = refund s →
  (ro = true → transientOf s' = transientOf s ∧ logs s' = logs s ∧ logSize s' = logSize s) → dbstep ro 0 s s'.
Proof.
  intros Hx Hs Hw Hr Hp. split; try done; [intros a; by apply same_kept|lia|apply covers_kept; [by apply same_kept|lia]|]. intros Hro. destruct (Hp Hro) as (? & ? & ?). by apply same_pure.
Qed.
Lemma AddAddress_warm a b (al : accessListT) : ContainsAddress b al = true → ContainsAddress b (AddAddress a al).2 = true.
Proof.
  unfold AddAddress. case_if; [done|]. unfold ContainsAddress. cbn. rewrite !bool_decide_eq_true. intros [i Hi].
  destruct (decide (b = a)) as [->|]; [by rewrite lookup_insert_eq; eexists|]. rewrite lookup_insert_ne by done. by eexists.
Qed.
Lemma step_AddAddress ro a s : db_ok s → dbstep ro 0 s (AddAddressToAccessList a s) ∧ AddressInAccessList a (AddAddressToAccessList a s) = true.
Proof.
  intros Hok. assert (Hx : ext s (AddAddressToAccessList a s)) by (by apply (ext_op (op_AddAddress a))).
  pose proof (AddAddress_warm a) as Hw. unfold AddAddressToAccessList in *. destruct (AddAddress a (accessListOf s)) as [added al] eqn:E.
  split; [destruct added; (apply step_free; [done|by split|..|done|done]); intros b Hb; specialize (Hw b _ Hb); by rewrite E in Hw|].
  unfold AddAddress in E. revert E. case_if; intros [= <- <-]; unfold AddressInAccessList; cbn; [done|].
  unfold ContainsAddress. cbn. rewrite bool_decide_eq_true, lookup_insert_eq. by eexists.
Qed.
Lemma AddSlot_warm a k b (al : accessListT) x y al' : AddSlot a k al = Ok (x, y, al') → ContainsAddress b al = true → ContainsAddress b al' = true.
Proof.
  unfold ContainsAddress. intros E. rewrite !bool_decide_eq_true. intros [i Hi].
  assert (Hins : ∀ v, is_Some ((<[a := v]> (al_addresses al) : gmap Z Z) !! b)).
  { intros v. destruct (decide (b = a)) as [->|]; [by rewrite lookup_insert_eq; eexists|]. rewrite lookup_insert_ne by done. by eexists. }
  revert E. unfold AddSlot. destruct (al_addresses al !! a) as [idx|]; [|intros [= <- <- <-]; apply Hins].
  case_if; [intros [= <- <- <-]; apply Hins|]. destruct (al_slots al !! Z.to_nat idx) as [st|]; [|done]. cbn [deref mbind outcome_bind].
  case_if; intros [= <- <- <-]; by eexists.
Qed.
Lemma step_AddSlot ro a k s : db_ok s → ∃ s', AddSlotToAccessList a k s = Ok s' ∧ dbstep ro 0 s s'.
Proof.
  intros Hok. destruct (AddSlot_total a k (accessListOf s)) as ([[x y] al] & E); [apply Hok|].
  assert (HE : ∃ s', AddSlotToAccessList a k s = Ok s') by (unfold AddSlotToAccessList; rewrite E; by eexists). destruct HE as (s' & Es').
  exists s'. split; [done|]. assert (Hx : ext s s') by (by apply (ext_op (op_AddSlot a k))). revert Es'. unfold AddSlotToAccessList. rewrite E. cbn. intros [= <-].
  assert (Hw : ∀ b, AddressInAccessList b s = true → ContainsAddress b al = true) by (intros b Hb; by eapply AddSlot_warm).
  destruct x, y; (apply step_free; [done|by split|done|done|done]).
Qed.
Lemma step_AddPreimage ro h b s : db_ok s → dbstep ro 0 s (AddPreimage h b s).
Proof.
  intros Hok. assert (Hx : ext s (AddPreimage h b s)) by (by apply (ext_op (op_AddPreimage h b))). unfold AddPreimage in *.
  destruct (preimages s !! h); [apply dbstep_refl|]. by apply step_free.
Qed.
Lemma step_AddLog l s : db_ok s → dbstep false 0 s (AddLog l s).
Proof. intros Hok. by apply step_free; [apply (ext_op (op_AddLog l))|..]. Qed.
Lemma step_SetTransientState a k v s : db_ok s → dbstep false 0 s (SetTransientState a k v s).
Proof.
  intros Hok. assert (Hx : ext s (SetTransientState a k v s)) by (by apply (ext_op (op_SetTransientState a k v))). unfold SetTransientState in *.
  case_if; [apply dbstep_refl|]. by apply step_free.
Qed.
Lemma SlotIn_total a k s : db_ok s → ∃ x y, SlotInAccessList a k s = Ok (x, y) ∧ x = AddressInAccessList a s.
Proof.
  intros [Hw _]. unfold SlotInAccessList, Contains, AddressInAccessList, ContainsAddress. destruct (al_addresses (accessListOf s) !! a) as [idx|] eqn:E.
  - rewrite bool_decide_true by (by eexists). case_if; [by eexists _, _|].
    destruct (wf_access _ _ _ Hw) as [Hi _]. destruct (Hi _ _ E) as [?|Hr]; [lia|].
    destruct (lookup_lt_is_Some_2 (al_slots (accessListOf s)) (Z.to_nat idx)) as (st & ->); [unfold zlen in Hr; lia|]. by eexists _, _.
  - rewrite bool_decide_false by (intros [? [=]]). by eexists _, _.
Qed.

(** Paying an account nothing. *)
Lemma get_or_new_pure a s : addr_ok s → pure s (GetOrNewStateObject keccak a s).2.
Proof.
  intros Ha. unfold GetOrNewStateObject. destruct (get_object keccak X a s) as (s0 & -> & Hs & Hh). destruct (alive keccak s a) as [o|] eqn:Ea.
  - apply eqv_pure, Hs.
  - etrans; [apply eqv_pure, Hs|]. assert (Ha0 : addr_ok s0) by (by apply Hs). destruct (create_effect a s0 Ha0) as (s1 & -> & H1 & H2 & H3). cbn [snd].
    apply (base_pure a); [done|done|done|by apply (eqv_alive s s0 a (symmetry (si_eqv _ _ _ _ Hs)))|].
    intros o. rewrite (alive_here _ _ _ H1) by done. intros [= <-]. unfold so_empty. cbn. by rewrite Z.eqb_refl.
Qed.
Lemma step_AddBalance_0 ro a s : db_ok s → dbstep ro 0 s (AddBalance keccak a 0 s).
Proof.
  intros Hok. destruct (step_AddBalance a 0 s Hok) as [H1 H0 H2 H3 H4 _]. split; try done. intros _.
  pose proof (get_or_new_pure a s (db_addr_ok s Hok)) as Hp. unfold AddBalance. destruct (GetOrNewStateObject keccak a s) as [o s1]. cbn [snd] in Hp.
  etrans; [exact Hp|]. unfold so_AddBalance. cbn [Z.eqb]. case_if; [|done]. unfold touch. case_if; by apply same_pure.
Qed.
Lemma step_SubBalance_0 ro a s : db_ok s → dbstep ro 0 s (SubBalance keccak a 0 s).
Proof.
  intros Hok. destruct (step_SubBalance a 0 s Hok) as [H1 H0 H2 H3 H4 _]. split; try done. intros _.
  pose proof (get_or_new_pure a s (db_addr_ok s Hok)) as Hp. unfold SubBalance. by destruct (GetOrNewStateObject keccak a s) as [o s1].
Qed.

(** *** Refunds and storage *)

Lemma step_AddRefund v s : db_ok s → 0 ≤ v → is_u64 (refund s + v) → dbstep false v s (AddRefund v s) ∧ refund (AddRefund v s) = refund s + v.
Proof.
  intros Hok Hv Hu. assert (E : refund (AddRefund v s) = refund s + v) by (cbn; by apply u64_small). split; [|done].
  assert (Hs : same_objects s (AddRefund v s)) by (by split). split; try done.
  - by apply (ext_op (op_AddRefund v)).
  - lia.
  - apply covers_kept; [by apply same_kept|lia].
Qed.
Lemma SubRefund_ok v s : v ≤ refund s → ∃ s', SubRefund v s = Ok s' ∧ refund s' = refund s - v ∧ same_objects s s' ∧ accessListOf s' = accessListOf s ∧ (db_ok s → ext s s').
Proof.
  intros Hv. destruct (SubRefund v s) as [s'|e|] eqn:E.
  - exists s'. split; [done|]. split_and!; [..|by intros Hok; apply (ext_op (op_SubRefund v))]; revert E; unfold SubRefund; cbn; (case_if; [lia|]); by intros [= <-].
  - by destruct e.
  - revert E. unfold SubRefund. cbn. case_if; [lia|done].
Qed.

(** Writing a slot of an account that exists. *)
Lemma SetState_effect a k v s : db_ok s → is_Some (alive keccak s a) → let s' := SetState keccak a k v s in
  ext s s' ∧ rest_kept s s' ∧ (∀ b, is_Some (alive keccak s b) → is_Some (alive keccak s' b)) ∧
  (∀ b j, original s' b j = original s b j) ∧ (∀ b j, current s' b j = if decide ((b, j) = (a, k)) then v else current s b j).
Proof.
  intros Hok [o Ho] s'. assert (Hx : ext s s') by (by apply (ext_op (op_SetState a k v))). split; [done|].
  pose proof (db_addr_ok s Hok) as Ha. revert Hx. unfold s', SetState, GetOrNewStateObject.
  destruct (get_object keccak X a s) as (s0 & E0 & Hs & Hh). rewrite E0, Ho. intros Hx.
  destruct (alive_view _ _ _ _ Ho) as [Ev Hd]. pose proof (view_addr _ _ _ _ Ha Ev) as <-. specialize (Hh _ Ev). assert (Ha0 : addr_ok s0) by (by apply Hs).
  unfold so_SetState. destruct (so_GetState keccak k o s0) as [[pv o'] s1] eqn:Eg. apply cached_slot in Eg as (-> & Hoo & Hs1).
  set (a := so_address o) in *.
  assert (Hsil : silent keccak X s (setStateObject o' s1)).
  { etrans; [exact Hs|]. apply (silent_cache _ _ s0 s1 o o'); [by apply view_here|done|done]. }
  assert (Hst0 : ∀ b j, original s0 b j = original s b j ∧ current s0 b j = current s b j) by (intros; apply eqv_storage; symmetry; apply Hs).
  assert (Ho0 : alive keccak s0 a = Some o) by (by apply alive_here).
  case_if.
  - split_and!.
    + apply eqv_rest, Hsil.
    + intros b. apply (eqv_kept s). symmetry. apply Hsil.
    + intros b j. apply eqv_storage. symmetry. apply Hsil.
    + intros b j. case_decide as Hbj; [|apply eqv_storage; symmetry; apply Hsil]. injection Hbj as -> ->.
      destruct (eqv_storage s _ (symmetry (si_eqv _ _ _ _ Hsil)) a k) as [_ ->]. destruct (Hst0 a k) as [_ <-]. unfold current. by rewrite Ho0.
  - set (s2 := setStateObject (so_setState k v o') _).
    assert (Ea : so_address o' = a) by (symmetry; apply Hoo). assert (Hd' : deleted o' = false) by (rewrite <- (oe_deleted _ _ _ _ Hoo); done).
    assert (Hb : base_kept a s0 s2).
    { split.
      - by destruct Hs1 as [->| ->].
      - intros b Hb. unfold s2. rewrite view_put, decide_False by (cbn; congruence). change (view keccak (append ?e ?t) b) with (view keccak t b).
        rewrite view_put, decide_False by congruence. by destruct Hs1 as [->| ->].
      - intros b _. by destruct Hs1 as [->| ->]. }
    assert (E2 : alive keccak s2 a = Some (so_setState k v o')) by (unfold s2; rewrite alive_put, decide_True by (cbn; congruence); cbn; by rewrite Hd').
    assert (Hc : ∀ j, committed keccak s2 (so_setState k v o') j = committed keccak s0 o j).
    { intros j. rewrite (oe_committed _ _ _ _ Hoo) by done. change (committed keccak s2 (so_setState k v o') j) with (committed keccak s2 o' j).
      by destruct Hs1 as [->| ->]; apply committed_ext. }
    split_and!.
    + etrans; [apply eqv_rest, Hs|]. by destruct Hs1 as [->| ->].
    + intros b [ob Hob]. destruct (decide (b = a)) as [->|Hne]; [by eexists|]. rewrite (base_alive a s0) by done.
      apply (eqv_kept s s0 (symmetry (si_eqv _ _ _ _ Hs))). by eexists.
    + intros b j. destruct (Hst0 b j) as [<- _]. destruct (decide (b = a)) as [->|Hne]; [|by apply (base_storage a)].
      unfold original. by rewrite E2, Ho0, Hc.
    + intros b j. destruct (Hst0 b j) as [_ <-]. destruct (decide (b = a)) as [->|Hne].
      * unfold current. rewrite E2, Ho0. unfold slot at 1. cbn. case_decide as Hj; [injection Hj as ->; by rewrite lookup_insert_eq|].
        rewrite lookup_insert_ne by congruence. rewrite (oe_slot _ _ _ _ Hoo) by done. unfold slot. destruct (dirtyStorage o' !! j); [done|].
        rewrite Hc. by apply (oe_committed _ _ _ _ Hoo).
      * rewrite decide_False by congruence. by apply (base_storage a).
Qed.

(** The slot is written and the counter moved: by one refund up when the slot
    is cleared now, by at most one down when it was before. *)
Lemma step_store a k v d s s1 : 0 ≤ R → db_ok s → is_Some (alive keccak s a) → ext s s1 → same_objects s s1 →
  (∀ b, AddressInAccessList b s = true → AddressInAccessList b s1 = true) → refund s1 ≤ refund s + d →
  (v = 0 → original s a k ≠ 0 → current s a k ≠ 0 → refund s + R ≤ refund s1) →
  (current s a k = 0 → original s a k ≠ 0 → v ≠ 0 → refund s - R ≤ refund s1) →
  (current s a k = 0 ∧ v ≠ 0 ∧ original s a k ≠ 0 ∨ refund s ≤ refund s1) →
  dbstep false d s (SetState keccak a k v s1).
Proof.
  intros HR Hok Ha Hx Hs Hw Hd H1 H2 H3. assert (Ha1 : is_Some (alive keccak s1 a)) by (by apply same_kept with (s := s)).
  destruct (SetState_effect a k v s1) as (X1 & [Rr Ra _ _ _] & X2 & X3 & X4); [by apply Hx|done|]. set (s2 := SetState keccak a k v s1) in *.
  assert (Hst : ∀ b j, original s1 b j = original s b j ∧ current s1 b j = current s b j).
  { intros b j. unfold original, current. rewrite (same_alive s s1) by done. destruct (alive keccak s b); [by apply same_storage|done]. }
  split; [by etrans| |..|lia| |done].
  - intros b Hb. apply X2. by apply same_kept with (s := s).
  - intros b Hb. unfold AddressInAccessList. rewrite Ra. by apply Hw.
  - apply (covers_write R s s2 a k HR).
    + intros b j Hne [C1 C2]. rewrite X3 in C1. rewrite X4, decide_False in C2 by done. destruct (Hst b j) as [E1 E2]. split; congruence.
    + intros [C1 C2] Hn. rewrite X3 in C1. rewrite X4, decide_True in C2 by done. destruct (Hst a k) as [E1 E2]. rewrite Rr. apply H1; [done|congruence|].
      intros E. apply Hn. split; congruence.
    + intros [C1 C2] [D1 D2]. rewrite X4, decide_True in C2 by done. rewrite Rr. destruct H3 as [(? & ? & ?)|?]; [congruence|done].
    + intros Hn [D1 D2]. rewrite Rr. destruct H3 as [(? & ? & ?)|?]; [by apply H2|]. lia.
    + intros Hn Hn'. rewrite Rr. destruct H3 as [(E1 & E2 & E3)|?]; [|done]. exfalso. by apply Hn'.
Qed.
End Effects.
