(* ===== verification/Jumpdest.v ===== *)
(** Jump destinations: the analysis of [src/go-ethereum/core/vm/analysis.go],
    which marks the bytes of a program that are data of a PUSH, and its use by
    [validJumpdest] and [isCode] of [contract.go] with the two caches.

    A bit vector is a list of bytes as numbers; writing or reading behind its
    end panics.  Positions are unbounded: a program is shorter than [2^63]
    bytes, so [pc], at most 33 behind its end, does not wrap. *)

From S2P Require Import Prelude.

Abbreviation bitvec := (list Z).

(** ** The analysis *)

Definition PUSH1 : Z := 0x60.
Definition JUMPDEST : Z := 0x5b.

Definition or_byte (i v : Z) (bits : bitvec) : outcome Empty_set bitvec :=
  b ← deref (bits !! Z.to_nat i); Ok (<[Z.to_nat i := Z.lor b v]> bits).
Definition put_byte (i v : Z) (bits : bitvec) : outcome Empty_set bitvec :=
  _ ← deref (bits !! Z.to_nat i); Ok (<[Z.to_nat i := v]> bits).

Definition set1 (pos : Z) (bits : bitvec) : outcome Empty_set bitvec :=
  or_byte (pos / 8) (Z.shiftl 1 (pos mod 8)) bits.

Definition setN (flag pos : Z) (bits : bitvec) : outcome Empty_set bitvec :=
  let a := Z.shiftl flag (pos mod 8) mod 2 ^ 16 in
  bits ← or_byte (pos / 8) (a mod 256) bits;
  let b := Z.shiftr a 8 in
  if negb (b =? 0) then put_byte (pos / 8 + 1) b bits else Ok bits.

Definition set8 (pos : Z) (bits : bitvec) : outcome Empty_set bitvec :=
  let a := Z.shiftl 0xFF (pos mod 8) mod 256 in
  bits ← or_byte (pos / 8) a bits;
  put_byte (pos / 8 + 1) (Z.lxor a 0xFF) bits.

Definition set16 (pos : Z) (bits : bitvec) : outcome Empty_set bitvec :=
  let a := Z.shiftl 0xFF (pos mod 8) mod 256 in
  bits ← or_byte (pos / 8) a bits;
  bits ← put_byte (pos / 8 + 1) 0xFF bits;
  put_byte (pos / 8 + 2) (Z.lxor a 0xFF) bits.

Definition codeSegment (pos : Z) (bits : bitvec) : outcome Empty_set bool :=
  b ← deref (bits !! Z.to_nat (pos / 8));
  Ok (Z.land (Z.shiftr b (pos mod 8)) 1 =? 0).

(** [for ; numbits >= k; numbits -= k { set(pc); pc += k }]; a PUSH has at most
    32 bytes of data, so four rounds are enough. *)
Fixpoint set_loop (fuel : nat) (k : Z) (set : Z → bitvec → outcome Empty_set bitvec) (numbits pc : Z) (bits : bitvec)
    : outcome Empty_set (Z * Z * bitvec) :=
  match fuel with
  | O => Panic
  | S fuel => if k <=? numbits then bits ← set pc bits; set_loop fuel k set (numbits - k) (pc + k) bits else Ok (numbits, pc, bits)
  end.

(** The data of one PUSH. *)
Definition mark_push (numbits pc : Z) (bits : bitvec) : outcome Empty_set (Z * bitvec) :=
  '(numbits, pc, bits) ← (if 8 <=? numbits then
      '(numbits, pc, bits) ← set_loop 4 16 set16 numbits pc bits;
      set_loop 4 8 set8 numbits pc bits
    else Ok (numbits, pc, bits));
  match numbits with
  | 1 => bits ← set1 pc bits; Ok (pc + 1, bits)
  | 2 => bits ← setN 3 pc bits; Ok (pc + 2, bits)
  | 3 => bits ← setN 7 pc bits; Ok (pc + 3, bits)
  | 4 => bits ← setN 15 pc bits; Ok (pc + 4, bits)
  | 5 => bits ← setN 31 pc bits; Ok (pc + 5, bits)
  | 6 => bits ← setN 63 pc bits; Ok (pc + 6, bits)
  | 7 => bits ← setN 127 pc bits; Ok (pc + 7, bits)
  | _ => Ok (pc, bits)
  end.

(** The byte as a signed number. *)
Definition int8 (b : Z) : Z := if b <? 128 then b else b - 256.

(** The loop; each round moves [pc], so the length of the code is enough
    fuel. *)
Fixpoint bitmap_loop (fuel : nat) (code : bytes) (pc : Z) (bits : bitvec) : outcome Empty_set bitvec :=
  match fuel with
  | O => Panic
  | S fuel =>
      if zlen code <=? pc then Ok bits else
      op ← deref (code !! Z.to_nat pc);
      let pc := pc + 1 in
      if int8 (b2z op) <? int8 PUSH1 then bitmap_loop fuel code pc bits else
      '(pc, bits) ← mark_push (b2z op - PUSH1 + 1) pc bits;
      bitmap_loop fuel code pc bits
  end.
Definition codeBitmapInternal (code : bytes) (bits : bitvec) : outcome Empty_set bitvec := bitmap_loop (S (length code)) code 0 bits.

Definition codeBitmap (code : bytes) : outcome Empty_set bitvec :=
  codeBitmapInternal code (replicate (Z.to_nat (zlen code / 8 + 1 + 4)) 0).

(** ** The caches of a contract *)

(** The analysis a contract keeps for itself, and the one it shares with its
    callers, by code hash. *)
Record jumpCache := mkCache { analysis : option bitvec; jumpdests : gmap Z bitvec }.

Definition isCode (code : bytes) (codeHash udest : Z) (c : jumpCache) : outcome Empty_set (bool * jumpCache) :=
  match analysis c with
  | Some a => r ← codeSegment udest a; Ok (r, c)
  | None =>
      if negb (codeHash =? 0) then
        '(a, shared) ← (match jumpdests c !! codeHash with
                        | Some a => Ok (a, jumpdests c)
                        | None => a ← codeBitmap code; Ok (a, <[codeHash := a]> (jumpdests c))
                        end);
        r ← codeSegment udest a; Ok (r, mkCache (Some a) shared)
      else
        a ← codeBitmap code;
        r ← codeSegment udest a; Ok (r, mkCache (Some a) (jumpdests c))
  end.

(** [dest] is a 256-bit word. *)
Definition validJumpdest (code : bytes) (codeHash dest : Z) (c : jumpCache) : outcome Empty_set (bool * jumpCache) :=
  if (2 ^ 64 <=? dest) || (zlen code <=? dest) then Ok (false, c) else
  op ← deref (code !! Z.to_nat dest);
  if negb (b2z op =? JUMPDEST) then Ok (false, c) else isCode code codeHash dest c.

(** ** Reference: reading the program from the left *)

Definition push_size (b : byte) : nat := if (PUSH1 <=? b2z b) && (b2z b <? PUSH1 + 32) then Z.to_nat (b2z b - PUSH1 + 1) else 0%nat.

(** Which bytes are data, when the next [skip] ones are. *)
Fixpoint data_mask (skip : nat) (code : bytes) : list bool :=
  match code with
  | [] => []
  | b :: code => match skip with S skip => true :: data_mask skip code | O => false :: data_mask (push_size b) code end
  end.

(** A jump may go to a JUMPDEST that is not data. *)
Definition jump_target (code : bytes) (dest : Z) : bool :=
  bool_decide (0 ≤ dest) && bool_decide (b2z <$> code !! Z.to_nat dest = Some JUMPDEST) && bool_decide (data_mask 0 code !! Z.to_nat dest = Some false).

(** ** Bits *)

Definition bit (bits : bitvec) (i : Z) : bool := Z.testbit (default 0 (bits !! Z.to_nat (i / 8))) (i mod 8).
Definition bytes_ok (bits : bitvec) : Prop := Forall (fun b => 0 ≤ b < 256) bits.
(** [bits'] is [bits] with the [n] bits from [pos] set. *)
Record marked (pos n : Z) (bits bits' : bitvec) : Prop := {
  mk_length : length bits' = length bits;
  mk_bits i : 0 ≤ i → bit bits' i = bit bits i || ((pos <=? i) && (i <? pos + n))
}.
(** Nothing is set from [pos] on. *)
Definition clear_from (pos : Z) (bits : bitvec) : Prop := ∀ i, pos ≤ i → bit bits i = false.

Lemma marked_clear pos n bits bits' : 0 ≤ pos → 0 ≤ n → clear_from pos bits → marked pos n bits bits' → clear_from (pos + n) bits'.
Proof.
  intros Hp Hn Hc [_ H] i Hi. rewrite H, Hc by lia. cbn. apply andb_false_iff. right. apply Z.ltb_ge. lia.
Qed.
Lemma marked_trans pos n k bits bits1 bits2 : 0 ≤ n → 0 ≤ k → marked pos n bits bits1 → marked (pos + n) k bits1 bits2 → marked pos (n + k) bits bits2.
Proof.
  intros Hn Hk [H1 H2] [H3 H4]. split; [congruence|]. intros i Hi. rewrite H4, H2, <- orb_assoc by lia. f_equal.
  destruct (Z.leb_spec pos i), (Z.ltb_spec i (pos + n)), (Z.leb_spec (pos + n) i), (Z.ltb_spec i (pos + n + k)), (Z.ltb_spec i (pos + (n + k)));
    cbn; lia || done.
Qed.

(** Bit [i] after byte [j] was written. *)
Lemma bit_insert bits j v i : 0 ≤ j → 0 ≤ i → (Z.to_nat j < length bits)%nat →
  bit (<[Z.to_nat j := v]> bits) i = if i / 8 =? j then Z.testbit v (i mod 8) else bit bits i.
Proof.
  intros Hj Hi Hl. unfold bit. assert (0 ≤ i / 8) by (apply Z.div_pos; lia). case_if.
  - subst j. by rewrite list_lookup_insert_eq by done.
  - rewrite list_lookup_insert_ne; [done|lia].
Qed.
Lemma lookup_byte (bits : bitvec) j : (Z.to_nat j < length bits)%nat → ∃ b, bits !! Z.to_nat j = Some b.
Proof. intros H. apply lookup_lt_is_Some in H. done. Qed.
Lemma or_byte_ok j v bits : 0 ≤ j → (Z.to_nat j < length bits)%nat →
  ∃ bits', or_byte j v bits = Ok bits' ∧ length bits' = length bits ∧
    ∀ i, 0 ≤ i → bit bits' i = if i / 8 =? j then bit bits i || Z.testbit v (i mod 8) else bit bits i.
Proof.
  intros Hj Hl. unfold or_byte. destruct (lookup_byte bits j Hl) as (b & Eb). rewrite Eb. cbn. eexists. split; [done|].
  split; [apply length_insert|]. intros i Hi. rewrite bit_insert by done. case_if; [|done]. rewrite Z.lor_spec. f_equal.
  unfold bit. subst j. by rewrite Eb.
Qed.
Lemma put_byte_ok j v bits : 0 ≤ j → (Z.to_nat j < length bits)%nat →
  ∃ bits', put_byte j v bits = Ok bits' ∧ length bits' = length bits ∧
    ∀ i, 0 ≤ i → bit bits' i = if i / 8 =? j then Z.testbit v (i mod 8) else bit bits i.
Proof.
  intros Hj Hl. unfold put_byte. destruct (lookup_byte bits j Hl) as (b & ->). cbn. eexists. split; [done|].
  split; [apply length_insert|]. intros i Hi. by rewrite bit_insert.
Qed.

(** Bytes, by computation: there are eight positions in a byte. *)
Ltac each_bit k :=
  let H := fresh in assert (k = 0 ∨ k = 1 ∨ k = 2 ∨ k = 3 ∨ k = 4 ∨ k = 5 ∨ k = 6 ∨ k = 7) as H by lia;
  destruct H as [-> | [-> | [-> | [-> | [-> | [-> | [-> | ->]]]]]]].
Lemma ff_low k j : 0 ≤ k < 8 → 0 ≤ j < 8 → Z.testbit (Z.shiftl 255 k mod 256) j = (k <=? j).
Proof. intros Hk Hj. by each_bit k; each_bit j. Qed.
Lemma ff_high k j : 0 ≤ k < 8 → 0 ≤ j < 8 → Z.testbit (Z.lxor (Z.shiftl 255 k mod 256) 255) j = (j <? k).
Proof. intros Hk Hj. by each_bit k; each_bit j. Qed.
Lemma ff_all j : 0 ≤ j < 8 → Z.testbit 255 j = true.
Proof. intros Hj. by each_bit j. Qed.

(** A word of [n] ones, at most seven, shifted into two bytes. *)
Definition ones (n : Z) : Z := 2 ^ n - 1.
Lemma ones_low n k j : 0 ≤ n < 8 → 0 ≤ k < 8 → 0 ≤ j < 8 → Z.testbit (Z.shiftl (ones n) k mod 2 ^ 16 mod 256) j = (k <=? j) && (j <? k + n).
Proof. intros Hn Hk Hj. by each_bit n; each_bit k; each_bit j. Qed.
Lemma ones_high n k j : 0 ≤ n < 8 → 0 ≤ k < 8 → 0 ≤ j < 8 → Z.testbit (Z.shiftr (Z.shiftl (ones n) k mod 2 ^ 16) 8) j = (j + 8 <? k + n).
Proof. intros Hn Hk Hj. by each_bit n; each_bit k; each_bit j. Qed.

(** Positions by byte and bit. *)
Lemma pos_split i : 0 ≤ i → i = 8 * (i / 8) + i mod 8 ∧ 0 ≤ i mod 8 < 8 ∧ 0 ≤ i / 8.
Proof. intros. split; [apply Z.div_mod; lia|]. split; [apply Z.mod_pos_bound; lia|apply Z.div_pos; lia]. Qed.

Ltac split_pos i Hi := destruct (pos_split i Hi) as (? & ? & ?).
(** Compare the comparisons on both sides by arithmetic on bytes and bits. *)
Ltac cmp_bits := repeat match goal with |- context [?a <=? ?b] => destruct (Z.leb_spec a b) | |- context [?a <? ?b] => destruct (Z.ltb_spec a b)
                 | |- context [?a =? ?b] => destruct (Z.eqb_spec a b) end; cbn [andb orb]; try lia; try done.

Section Sets.
Context (pos : Z) (bits : bitvec) (Hpos : 0 ≤ pos) (Hclear : clear_from pos bits).

(** Writing the bits of the byte of [pos], then of later bytes, which are
    still clear. *)
Lemma set1_ok : (Z.to_nat (pos / 8) < length bits)%nat → ∃ bits', set1 pos bits = Ok bits' ∧ marked pos 1 bits bits'.
Proof.
  intros Hl. split_pos pos Hpos. unfold set1.
  destruct (or_byte_ok (pos / 8) (Z.shiftl 1 (pos mod 8)) bits) as (bits' & E & El & Hb); [lia|done|].
  exists bits'. split; [done|]. split; [done|]. intros i Hi. rewrite Hb by done. split_pos i Hi.
  assert (Ht : Z.testbit (Z.shiftl 1 (pos mod 8)) (i mod 8) = (i mod 8 =? pos mod 8)).
  { rewrite Z.shiftl_1_l, Z.pow2_bits_eqb by lia. apply Z.eqb_sym. }
  rewrite Ht. destruct (bit bits i); cmp_bits.
Qed.

Lemma setN_ok n : 0 ≤ n < 8 → (Z.to_nat (pos / 8 + 1) < length bits)%nat → ∃ bits', setN (ones n) pos bits = Ok bits' ∧ marked pos n bits bits'.
Proof.
  intros Hn Hl. split_pos pos Hpos. unfold setN.
  destruct (or_byte_ok (pos / 8) (Z.shiftl (ones n) (pos mod 8) mod 2 ^ 16 mod 256) bits) as (bits1 & E1 & El1 & Hb1); [lia|lia|].
  rewrite E1. cbn [mbind outcome_bind]. set (hi := Z.shiftr _ 8).
  assert (Hhi : ∀ j, 0 ≤ j < 8 → Z.testbit hi j = (j + 8 <? pos mod 8 + n)) by (intros; by apply ones_high).
  destruct (put_byte_ok (pos / 8 + 1) hi bits1) as (bits2 & E2 & El2 & Hb2); [lia|congruence|].
  destruct (hi =? 0) eqn:Ez; cbn [negb]; zbool.
  - exists bits1. split; [done|]. split; [done|]. intros i Hi. rewrite Hb1 by done. split_pos i Hi. rewrite ones_low by lia.
    pose proof (Hhi 0 ltac:(lia)) as Hz. rewrite Ez, Z.testbit_0_l in Hz. symmetry in Hz. apply Z.ltb_ge in Hz. destruct (bit bits i); cmp_bits.
  - exists bits2. split; [done|]. split; [congruence|]. intros i Hi. rewrite Hb2, Hb1 by done. split_pos i Hi. rewrite ones_low, Hhi by lia.
    destruct (i / 8 =? pos / 8 + 1) eqn:E; zbool; [rewrite Hclear by lia|destruct (bit bits i)]; cmp_bits.
Qed.

Lemma set8_ok : (Z.to_nat (pos / 8 + 1) < length bits)%nat → ∃ bits', set8 pos bits = Ok bits' ∧ marked pos 8 bits bits'.
Proof.
  intros Hl. split_pos pos Hpos. unfold set8.
  destruct (or_byte_ok (pos / 8) (Z.shiftl 255 (pos mod 8) mod 256) bits) as (bits1 & E1 & El1 & Hb1); [lia|lia|].
  rewrite E1. cbn [mbind outcome_bind].
  destruct (put_byte_ok (pos / 8 + 1) (Z.lxor (Z.shiftl 255 (pos mod 8) mod 256) 255) bits1) as (bits2 & E2 & El2 & Hb2); [lia|congruence|].
  exists bits2. split; [done|]. split; [congruence|]. intros i Hi. rewrite Hb2, Hb1 by done. split_pos i Hi. rewrite ff_low, ff_high by lia.
  destruct (i / 8 =? pos / 8 + 1) eqn:E; zbool; [rewrite Hclear by lia|destruct (bit bits i)]; cmp_bits.
Qed.

Lemma set16_ok : (Z.to_nat (pos / 8 + 2) < length bits)%nat → ∃ bits', set16 pos bits = Ok bits' ∧ marked pos 16 bits bits'.
Proof.
  intros Hl. split_pos pos Hpos. unfold set16.
  destruct (or_byte_ok (pos / 8) (Z.shiftl 255 (pos mod 8) mod 256) bits) as (bits1 & E1 & El1 & Hb1); [lia|lia|].
  rewrite E1. cbn [mbind outcome_bind].
  destruct (put_byte_ok (pos / 8 + 1) 255 bits1) as (bits2 & E2 & El2 & Hb2); [lia|lia|]. rewrite E2. cbn [mbind outcome_bind].
  destruct (put_byte_ok (pos / 8 + 2) (Z.lxor (Z.shiftl 255 (pos mod 8) mod 256) 255) bits2) as (bits3 & E3 & El3 & Hb3); [lia|lia|].
  exists bits3. split; [done|]. split; [congruence|]. intros i Hi. rewrite Hb3, Hb2, Hb1 by done. split_pos i Hi. rewrite ff_low, ff_high, ff_all by lia.
  destruct (i / 8 =? pos / 8 + 2) eqn:E; zbool; [rewrite Hclear by lia; cmp_bits|].
  destruct (i / 8 =? pos / 8 + 1) eqn:E'; zbool; [rewrite Hclear by lia|destruct (bit bits i)]; cmp_bits.
Qed.
End Sets.

Lemma set_loop_ok fuel k set numbits pc bits : 0 < k → 0 ≤ pc → 0 ≤ numbits → numbits / k < Z.of_nat fuel → clear_from pc bits →
  (∀ pos bits', pc ≤ pos → pos + k ≤ pc + numbits → clear_from pos bits' → length bits' = length bits →
     ∃ bits'', set pos bits' = Ok bits'' ∧ marked pos k bits' bits'') →
  ∃ bits', set_loop fuel k set numbits pc bits = Ok (numbits mod k, pc + (numbits - numbits mod k), bits') ∧ marked pc (numbits - numbits mod k) bits bits'.
Proof.
  intros Hk. revert numbits pc bits. induction fuel as [|fuel IH]; intros numbits pc bits Hpc Hn Hf Hc Hset.
  { pose proof (Z.div_pos numbits k). lia. }
  cbn [set_loop]. destruct (Z.leb_spec k numbits).
  - destruct (Hset pc bits) as (bits1 & E1 & M1); [lia|lia|done|done|]. rewrite E1. cbn [mbind outcome_bind].
    assert (Ed : numbits / k = (numbits - k) / k + 1) by (rewrite <- Z.div_add by lia; f_equal; lia).
    assert (Em : numbits mod k = (numbits - k) mod k) by (rewrite <- (Z.mod_add (numbits - k) 1 k) by lia; f_equal; lia).
    destruct (IH (numbits - k) (pc + k) bits1) as (bits2 & E2 & M2).
    + lia.
    + lia.
    + lia.
    + apply (marked_clear pc k bits); [lia|lia|done|done].
    + intros pos bits' H1 H2 H3 H4. apply Hset; [lia|lia|done|]. by rewrite H4, (mk_length _ _ _ _ M1).
    + exists bits2. rewrite E2, Em.
      pose proof (Z.mod_le (numbits - k) k ltac:(lia) ltac:(lia)). split; [f_equal; f_equal; f_equal; lia|].
      replace (numbits - (numbits - k) mod k) with (k + (numbits - k - (numbits - k) mod k)) by lia.
      apply (marked_trans pc k _ bits bits1); [lia|lia|done|done].
  - rewrite Z.mod_small by lia. exists bits. rewrite Z.sub_diag, Z.add_0_r. split; [done|]. split; [done|]. intros i Hi.
    destruct (bit bits i); cmp_bits.
Qed.

Lemma mark_rest n pc bits : 0 ≤ n < 8 → 0 ≤ pc → clear_from pc bits → (n ≠ 0 → (Z.to_nat (pc / 8 + 1) < length bits)%nat) →
  ∃ bits', match n with
    | 1 => bits ← set1 pc bits; Ok (pc + 1, bits) | 2 => bits ← setN 3 pc bits; Ok (pc + 2, bits)
    | 3 => bits ← setN 7 pc bits; Ok (pc + 3, bits) | 4 => bits ← setN 15 pc bits; Ok (pc + 4, bits)
    | 5 => bits ← setN 31 pc bits; Ok (pc + 5, bits) | 6 => bits ← setN 63 pc bits; Ok (pc + 6, bits)
    | 7 => bits ← setN 127 pc bits; Ok (pc + 7, bits) | _ => Ok (pc, bits) end = Ok (pc + n, bits') ∧ marked pc n bits bits'.
Proof.
  intros Hn Hpc Hc Hl. assert (Hd : 0 ≤ pc / 8) by (apply Z.div_pos; lia). destruct (decide (n = 0)) as [->|Hn0].
  { exists bits. rewrite Z.add_0_r. split; [done|]. split; [done|]. intros i Hi. destruct (bit bits i); cmp_bits. }
  specialize (Hl Hn0). destruct (setN_ok pc bits Hpc Hc n Hn Hl) as (bits' & E & M).
  each_bit n; try done; try (change (ones _) with 3 in E || change (ones _) with 7 in E || change (ones _) with 15 in E || change (ones _) with 31 in E
    || change (ones _) with 63 in E || change (ones _) with 127 in E; rewrite E; by exists bits').
  destruct (set1_ok pc bits Hpc) as (b1 & E1 & M1); [lia|]. rewrite E1. by exists b1.
Qed.

Lemma mark_push_ok n pc bits : 1 ≤ n ≤ 32 → 0 ≤ pc → clear_from pc bits → (Z.to_nat ((pc + 32) / 8) < length bits)%nat →
  ∃ bits', mark_push n pc bits = Ok (pc + n, bits') ∧ marked pc n bits bits'.
Proof.
  intros Hn Hpc Hc Hl. unfold mark_push. assert (Hd : ∀ p q, p ≤ q → p / 8 ≤ q / 8) by (intros; apply Z.div_le_mono; lia).
  assert (H0 : ∀ p, 0 ≤ p → 0 ≤ p / 8) by (intros; apply Z.div_pos; lia).
  assert (H8 : ∀ p k, (p + k * 8) / 8 = p / 8 + k) by (intros; apply Z.div_add; lia).
  case_if.
  2:{ cbn [mbind outcome_bind]. apply mark_rest; [lia|done|done|]. pose proof (H8 pc 1). pose proof (Hd (pc + 1 * 8) (pc + 32)). specialize (H0 pc). lia. }
  destruct (set_loop_ok 4 16 set16 n pc bits) as (b1 & E1 & M1); [lia|done|lia|apply Z.div_lt_upper_bound; lia|done| |].
  { intros pos bits' H1 H2 H3 H4. apply set16_ok; [lia|done|]. pose proof (H8 pos 2). pose proof (Hd (pos + 2 * 8) (pc + 32)). specialize (H0 pos). lia. }
  rewrite E1. cbn [mbind outcome_bind]. pose proof (Z.mod_pos_bound n 16 ltac:(lia)) as Hm. pose proof (Z.mod_le n 16 ltac:(lia) ltac:(lia)).
  set (m := n mod 16) in *. set (p1 := pc + (n - m)) in *.
  assert (C1 : clear_from p1 b1) by (apply (marked_clear pc _ bits); [lia|lia|done|done]).
  destruct (set_loop_ok 4 8 set8 m p1 b1) as (b2 & E2 & M2); [lia|lia|lia|apply Z.div_lt_upper_bound; lia|done| |].
  { intros pos bits' H1 H2 H3 H4. apply set8_ok; [lia|done|]. pose proof (H8 pos 1). pose proof (Hd (pos + 1 * 8) (pc + 32)). specialize (H0 pos).
    rewrite H4, (mk_length _ _ _ _ M1). lia. }
  rewrite E2. cbn [mbind outcome_bind]. pose proof (Z.mod_pos_bound m 8 ltac:(lia)) as Hr. pose proof (Z.mod_le m 8 ltac:(lia) ltac:(lia)).
  set (r := m mod 8) in *. set (p2 := p1 + (m - r)) in *.
  assert (C2 : clear_from p2 b2) by (apply (marked_clear p1 _ b1); [lia|lia|done|done]).
  assert (Hle : r ≠ 0 → p2 ≤ pc + 24).
  { intros Hr0. unfold p2, p1 in *. pose proof (Z.div_mod n 16 ltac:(lia)) as Hq. pose proof (Z.div_mod m 8 ltac:(lia)) as Ht. fold m in Hq. fold r in Ht.
    assert (n / 16 ≤ 2) by (apply Z.div_le_upper_bound; lia). assert (m / 8 < 2) by (apply Z.div_lt_upper_bound; lia). lia. }
  destruct (mark_rest r p2 b2) as (b3 & E3 & M3); [lia|lia|done| |].
  { intros Hr0. rewrite (mk_length _ _ _ _ M2), (mk_length _ _ _ _ M1). pose proof (H8 p2 1). pose proof (Hd (p2 + 1 * 8) (pc + 32)).
    specialize (Hle Hr0). specialize (H0 p2). lia. }
  exists b3. rewrite E3. split; [f_equal; f_equal; lia|].
  replace n with ((n - m) + ((m - r) + r)) by lia.
  apply (marked_trans pc _ _ bits b1); [lia|lia|done|]. by apply (marked_trans p1 _ _ b1 b2); [lia|lia|..].
Qed.

(** ** The analysis agrees with reading from the left *)

Lemma length_data_mask skip code : length (data_mask skip code) = length code.
Proof. revert skip. induction code as [|b code IH]; intros [|skip]; cbn; by rewrite ?IH. Qed.
Lemma data_mask_skip skip code i : (i < skip)%nat → (i < length code)%nat → data_mask skip code !! i = Some true.
Proof. revert skip i. induction code as [|b code IH]; intros [|skip] [|i] Hi Hl; cbn in *; try lia; [done|]. apply IH; lia. Qed.
Lemma data_mask_drop skip code i : data_mask skip code !! (skip + i)%nat = data_mask 0 (drop skip code) !! i.
Proof.
  revert code. induction skip as [|skip IH]; intros code; [done|]. destruct code as [|b code]; cbn [data_mask drop]; [by rewrite !lookup_nil|].
  cbn [Nat.add lookup list_lookup]. apply IH.
Qed.
Lemma push_size_spec b : (int8 (b2z b) <? int8 PUSH1) = false → Z.of_nat (push_size b) = b2z b - PUSH1 + 1 ∧ 1 ≤ b2z b - PUSH1 + 1 ≤ 32.
Proof.
  pose proof (b2z_range b) as Hb. unfold int8, push_size, PUSH1. intros H.
  destruct (Z.ltb_spec (b2z b) 128); cbn in H; apply Z.ltb_ge in H; [|lia].
  rewrite (proj2 (Z.leb_le _ _)), (proj2 (Z.ltb_lt _ _)) by lia. cbn [andb]. lia.
Qed.
Lemma push_size_none b : (int8 (b2z b) <? int8 PUSH1) = true → push_size b = 0%nat.
Proof.
  pose proof (b2z_range b) as Hb. unfold int8, push_size, PUSH1. intros H.
  destruct (Z.ltb_spec (b2z b) 128); cbn in H; apply Z.ltb_lt in H; [rewrite (proj2 (Z.leb_gt _ _)) by lia; done|].
  rewrite (proj2 (Z.ltb_ge _ (96 + 32))) by lia. by rewrite andb_false_r.
Qed.

(** What is left from [pc] on is analysed as a program of its own. *)
Lemma bitmap_loop_ok fuel code pc bits : 0 ≤ pc → (0 < fuel)%nat → (length code < fuel + Z.to_nat pc)%nat → clear_from pc bits →
  (Z.to_nat ((zlen code + 32) / 8) < length bits)%nat →
  ∃ bits', bitmap_loop fuel code pc bits = Ok bits' ∧ length bits' = length bits ∧
    (∀ i, 0 ≤ i < pc → bit bits' i = bit bits i) ∧
    (∀ i, pc ≤ i < zlen code → Some (bit bits' i) = data_mask 0 (drop (Z.to_nat pc) code) !! Z.to_nat (i - pc)).
Proof.
  revert pc bits. induction fuel as [|fuel IH]; intros pc bits Hpc Hf0 Hf Hc Hl; cbn [bitmap_loop].
  { lia. }
  destruct (Z.leb_spec (zlen code) pc) as [Hd|Hd]; [by exists bits; split_and!; [..|lia]|].
  destruct (lookup_lt_is_Some_2 code (Z.to_nat pc)) as (op & Eop); [unfold zlen in Hd; lia|]. rewrite Eop. cbn [deref mbind outcome_bind].
  rewrite (drop_S _ _ _ Eop). cbn [data_mask].
  assert (Hrec : ∀ n bits1, 0 ≤ n → push_size op = Z.to_nat n → marked (pc + 1) n bits bits1 →
    ∃ bits', bitmap_loop fuel code (pc + 1 + n) bits1 = Ok bits' ∧ length bits' = length bits ∧ (∀ i, 0 ≤ i < pc → bit bits' i = bit bits i) ∧
      (∀ i, pc ≤ i < zlen code → Some (bit bits' i) = (false :: data_mask (push_size op) (drop (S (Z.to_nat pc)) code)) !! Z.to_nat (i - pc))).
  { intros n bits1 Hn Hsize M. destruct (IH (pc + 1 + n) bits1) as (bits' & E & El & Hlow & Hhigh).
    - lia.
    - unfold zlen in Hd. lia.
    - lia.
    - apply (marked_clear (pc + 1) n bits); [lia|lia| |done]. intros i Hi. apply Hc. lia.
    - by rewrite (mk_length _ _ _ _ M).
    - exists bits'. split; [done|]. split; [by rewrite El, (mk_length _ _ _ _ M)|].
      assert (Hb : ∀ i, 0 ≤ i < pc + 1 + n → bit bits' i = bit bits i || ((pc + 1 <=? i) && (i <? pc + 1 + n))) by (intros i Hi; rewrite Hlow, (mk_bits _ _ _ _ M) by lia; done).
      split.
      + intros i Hi. rewrite Hb by lia. destruct (bit bits i); cmp_bits.
      + intros i Hi. unfold zlen in Hi. destruct (decide (i = pc)) as [->|Hne].
        { rewrite Z.sub_diag, Hb, (Hc pc) by lia. cbn. f_equal. cmp_bits. }
        replace (Z.to_nat (i - pc)) with (S (Z.to_nat (i - pc - 1))) by lia. cbn [lookup list_lookup].
        destruct (decide (i < pc + 1 + n)) as [Hlt|Hge].
        * rewrite Hb, (Hc i) by lia. rewrite data_mask_skip; [f_equal; cmp_bits|lia|rewrite length_drop; lia].
        * rewrite Hhigh by (unfold zlen; lia). rewrite Hsize. replace (Z.to_nat (i - pc - 1)) with (Z.to_nat n + Z.to_nat (i - (pc + 1 + n)))%nat by lia.
          rewrite data_mask_drop, drop_drop. by replace (Z.to_nat (pc + 1 + n)) with (S (Z.to_nat pc) + Z.to_nat n)%nat by lia. }
  destruct (int8 (b2z op) <? int8 PUSH1) eqn:Ei.
  - rewrite <- (Z.add_0_r (pc + 1)). apply (Hrec 0 bits); [lia|by apply push_size_none|]. split; [done|]. intros i Hi. destruct (bit bits i); cmp_bits.
  - apply push_size_spec in Ei as [Es Er]. destruct (mark_push_ok (b2z op - PUSH1 + 1) (pc + 1) bits) as (bits1 & E1 & M1); [done|lia| | |].
    + intros i Hi. apply Hc. lia.
    + unfold zlen in *. pose proof (Z.div_le_mono (pc + 1 + 32) (Z.of_nat (length code) + 32) 8). pose proof (Z.div_pos (pc + 1 + 32) 8). lia.
    + rewrite E1. cbn [mbind outcome_bind]. apply Hrec; [lia|lia|done].
Qed.

Lemma codeBitmap_ok code : ∃ bits, codeBitmap code = Ok bits ∧ ∀ pos, 0 ≤ pos < zlen code →
  ∃ b, data_mask 0 code !! Z.to_nat pos = Some b ∧ codeSegment pos bits = Ok (negb b).
Proof.
  unfold codeBitmap, codeBitmapInternal. set (bits0 := replicate _ 0). pose proof (zlen_nonneg code) as Hz.
  assert (Hd : (zlen code + 32) / 8 = zlen code / 8 + 4) by (rewrite <- Z.div_add by lia; f_equal; lia).
  assert (0 ≤ zlen code / 8) by (apply Z.div_pos; lia).
  destruct (bitmap_loop_ok (S (length code)) code 0 bits0) as (bits & E & El & _ & Hb).
  - lia.
  - lia.
  - lia.
  - intros i Hi. unfold bit, bits0. destruct (replicate _ 0 !! _) as [x|] eqn:Ex; cbn; [|apply Z.testbit_0_l].
    apply lookup_replicate in Ex as [-> _]. apply Z.testbit_0_l.
  - unfold bits0. rewrite length_replicate. lia.
  - exists bits. split; [done|]. intros pos Hp. specialize (Hb pos ltac:(lia)). rewrite drop_0, Z.sub_0_r in Hb. exists (bit bits pos). split; [done|].
    unfold codeSegment, bit. destruct (lookup_lt_is_Some_2 bits (Z.to_nat (pos / 8))) as (b & Eb).
    { rewrite El. unfold bits0. rewrite length_replicate. pose proof (Z.div_le_mono pos (zlen code) 8). lia. }
    rewrite Eb. cbn. f_equal. pose proof (Z.mod_pos_bound pos 8 ltac:(lia)) as Hm. change 1 with (Z.ones 1). rewrite Z.land_ones by lia.
    rewrite <- Z.bit0_mod, Z.shiftr_spec, Z.add_0_l by lia. by destruct (Z.testbit b (pos mod 8)).
Qed.

(** ** Properties *)

(** C39. The jump-destination analysis is exact: for every program it returns a
    bit vector (no write falls behind its end, even when the program ends
    within a PUSH32), and the bit of a position of the program is clear exactly
    when reading the program from the left finds an instruction there rather
    than data of a PUSH. *)
Theorem codeBitmap_exact (code : bytes) : ∃ bits, codeBitmap code = Ok bits ∧
  ∀ pos, 0 ≤ pos < zlen code → ∃ data, data_mask 0 code !! Z.to_nat pos = Some data ∧ codeSegment pos bits = Ok (negb data).
Proof. apply codeBitmap_ok. Qed.

(** What the caches hold was computed from the right code; [codes] is the code
    of a hash. *)
Record cache_ok (codes : Z → bytes) (code : bytes) (c : jumpCache) : Prop := {
  ca_own bits : analysis c = Some bits → codeBitmap code = Ok bits;
  ca_shared h bits : jumpdests c !! h = Some bits → codeBitmap (codes h) = Ok bits
}.

Lemma isCode_ok codes code hash dest c : cache_ok codes code c → (hash ≠ 0 → codes hash = code) → 0 ≤ dest < zlen code →
  ∃ c', isCode code hash dest c = Ok (bool_decide (data_mask 0 code !! Z.to_nat dest = Some false), c') ∧ cache_ok codes code c'.
Proof.
  intros [Ho Hs] Hh Hd. destruct (codeBitmap_ok code) as (bits & E & Hb). destruct (Hb dest Hd) as (data & Em & Es).
  assert (Er : negb data = bool_decide (data_mask 0 code !! Z.to_nat dest = Some false)) by (rewrite Em; by destruct data). rewrite Er in Es.
  unfold isCode. destruct (analysis c) as [a|] eqn:Ea.
  { rewrite (Ho a eq_refl) in E. injection E as ->. rewrite Es. cbn. exists c. split; [done|]. split; [|done]. by rewrite Ea. }
  case_if.
  - specialize (Hh ltac:(done)). destruct (jumpdests c !! hash) as [a|] eqn:Ej.
    + pose proof (Hs _ _ Ej) as E'. rewrite Hh, E in E'. injection E' as <-. cbn. rewrite Es. cbn. eexists. split; [done|]. split; [by intros ? [= <-]|done].
    + rewrite E. cbn. rewrite Es. cbn. eexists. split; [done|]. split; [by intros ? [= <-]|].
      intros h b. cbn. intros [[<- <-]|[_ Hl]]%lookup_insert_Some; [by rewrite Hh|by apply Hs].
  - rewrite E. cbn. rewrite Es. cbn. eexists. split; [done|]. split; [by intros ? [= <-]|done].
Qed.

(** [validJumpdest] accepts exactly the jump targets: for every 256-bit
    destination the answer is whether the destination is a JUMPDEST of the
    program that is not data of a PUSH, however the analysis is found (kept by
    the contract, shared under the code hash, or computed now), and the caches
    stay right for the next question. *)
Theorem validJumpdest_exact (codes : Z → bytes) (code : bytes) (hash dest : Z) (c : jumpCache) :
  cache_ok codes code c → (hash ≠ 0 → codes hash = code) → 0 ≤ dest < 2 ^ 256 → zlen code < 2 ^ 63 →
  ∃ c', validJumpdest code hash dest c = Ok (jump_target code dest, c') ∧ cache_ok codes code c'.
Proof.
  intros Hc Hh Hd Hl. unfold validJumpdest, jump_target. rewrite (bool_decide_true (0 ≤ dest)) by lia. cbn [andb].
  destruct (Z.leb_spec (zlen code) dest) as [Hb|Hb].
  { rewrite orb_true_r, (lookup_ge_None_2 code) by (unfold zlen in Hb; lia). by exists c. }
  rewrite (proj2 (Z.leb_gt _ _)) by lia. cbn [orb]. destruct (lookup_lt_is_Some_2 code (Z.to_nat dest)) as (op & Eop); [unfold zlen in Hb; lia|].
  rewrite Eop. cbn. destruct (Z.eqb_spec (b2z op) JUMPDEST) as [Eo|Eo]; cbn [negb].
  - rewrite (bool_decide_true (Some (b2z op) = _)) by congruence. cbn [andb]. apply isCode_ok; [done|done|lia].
  - rewrite (bool_decide_false (Some (b2z op) = _)) by congruence. by exists c.
Qed.

(** PUSH1 JUMPDEST JUMPDEST: the first JUMPDEST is data. *)
Definition toy_code : bytes := map z2b [0x60; 0x5b; 0x5b].
Lemma validJumpdest_exact_witness : ∃ c c',
  validJumpdest toy_code 5 1 (mkCache None ∅) = Ok (false, c) ∧ validJumpdest toy_code 5 2 c = Ok (true, c').
Proof.
  destruct (validJumpdest_exact (fun _ => toy_code) toy_code 5 1 (mkCache None ∅)) as (c & E & Hc); [by split|done|done|done|].
  destruct (validJumpdest_exact (fun _ => toy_code) toy_code 5 2 c Hc) as (c' & E' & _); [done|done|done|].
  exists c, c'. split; [exact E|exact E'].
Defined.
