(* ===== verification/Evm.v ===== *)
(** Call frames: [Call], [CallCode], [DelegateCall], [StaticCall] and [create]
    of [src/go-ethereum/core/vm/evm.go], with the contract objects of
    [contract.go] and [RunPrecompiledContract] of [contracts.go].

    The interpreter is a parameter here; [Interpreter.v] ties the knot.  It may
    run out of the fuel that bounds its loops.  The tracer is left out, and so
    are the tables of jump destinations that contracts share (see
    [Jumpdest.v]). *)

From S2P Require Import Prelude RLP Types Receipts Config Transactions StateTransition State StateJournal StateEffects.

(** ** Contracts *)

(** The errors, and those of precompiled contracts. *)
Inductive vmError :=
| ErrOutOfGas | ErrCodeStoreOutOfGas | ErrDepth | ErrInsufficientBalance | ErrContractAddressCollision | ErrExecutionReverted
| ErrMaxInitCodeSizeExceeded | ErrMaxCodeSizeExceeded | ErrInvalidJump | ErrWriteProtection | ErrReturnDataOutOfBounds | ErrGasUintOverflow | ErrInvalidCode
| ErrNonceUintOverflow | ErrStackUnderflow (stackLen required : Z) | ErrStackOverflow (stackLen limit : Z) | ErrInvalidOpCode (opcode : Z)
| errReentrancySentry | errPrecompiled (n : Z).
#[global] Instance vmError_eq_dec : EqDecision vmError.
Proof. solve_decision. Defined.

Definition CallCreateDepth : Z := 1024.
Definition CreateDataGas : Z := 200.
Definition MaxCodeSize : Z := 24576.

Record Contract := mkContract {
  CallerAddress : Z;
  c_self : Z;
  c_Code : bytes;
  c_CodeHash : Z;
  c_CodeAddr : Z;
  c_Gas : Z;
  c_value : option Z
}.

(** A caller is an account or a contract that is being executed. *)
Inductive ContractRef := AccountRef (a : Z) | OfContract (c : Contract).
Definition ref_Address (r : ContractRef) : Z := match r with AccountRef a => a | OfContract c => c_self c end.

Definition NewContract (caller : ContractRef) (object : Z) (value : option Z) (gas : Z) : Contract :=
  mkContract (ref_Address caller) object [] 0 0 gas value.
(** [AsDelegate] panics when the caller is not a contract. *)
Definition AsDelegate (caller : ContractRef) (c : Contract) : outcome Empty_set Contract :=
  match caller with
  | OfContract parent => Ok (mkContract (CallerAddress parent) (c_self c) (c_Code c) (c_CodeHash c) (c_CodeAddr c) (c_Gas c) (c_value parent))
  | AccountRef _ => Panic
  end.
Definition SetCallCode (addr hash : Z) (code : bytes) (c : Contract) : Contract :=
  mkContract (CallerAddress c) (c_self c) code hash addr (c_Gas c) (c_value c).
(** [UseGas]: the gas left and whether there was enough. *)
Definition UseGas (gas amount : Z) : Z * bool := if gas <? amount then (gas, false) else (gas - amount, true).

(** ** Frames *)

(** The bound on the number of steps was too low. *)
Inductive stuck := OutOfFuel.

Section Frames.
Context {T S : Type} `{Trie : !Tries T S} (keccak : bytes → Z).
Implicit Types (s : stateDB T S).

(** Returned data, gas left and error. *)
Definition callResult : Type := bytes * Z * option vmError.
#[local] Abbreviation frame := (outcome stuck (callResult * stateDB T S)).

Context (Run : Contract → bytes → bool → stateDB T S → frame).
Context (RequiredGas : RulesT → Z → bytes → Z) (precompiled_Run : RulesT → Z → bytes → bytes * option vmError).
Context (rules : RulesT) (depth : Z).

Definition precompile (addr : Z) : bool := bool_decide (addr ∈ ActivePrecompiles rules).
Definition RunPrecompiledContract (addr : Z) (input : bytes) (suppliedGas : Z) : callResult :=
  let gasCost := RequiredGas rules addr input in
  if suppliedGas <? gasCost then ([], 0, Some ErrOutOfGas)
  else let '(output, err) := precompiled_Run rules addr input in (output, suppliedGas - gasCost, err).

Definition Transfer (sender recipient amount : Z) s : stateDB T S := AddBalance keccak recipient amount (SubBalance keccak sender amount s).

(** The end of a frame: after an error the state is reverted, and the gas is
    gone unless the contract asked for it. *)
Definition settle (snapshot : Z) (r : callResult) s : frame :=
  let '(ret, gas, err) := r in
  match err with
  | None => Ok (r, s)
  | Some e => s ← never (RevertToSnapshot keccak snapshot s); Ok (ret, if bool_decide (e = ErrExecutionReverted) then gas else 0, err, s)
  end.

Definition Call (caller : ContractRef) (addr : Z) (input : bytes) (gas value : Z) s : frame :=
  if CallCreateDepth <? depth then Ok ([], gas, Some ErrDepth, s) else
  let '(poor, s) := if negb (value =? 0) then let '(b, s) := GetBalance keccak (ref_Address caller) s in (b <? value, s) else (false, s) in
  if poor then Ok ([], gas, Some ErrInsufficientBalance, s) else
  let '(snapshot, s) := Snapshot s in
  let '(exists_, s) := Exist keccak addr s in
  if negb exists_ && negb (precompile addr) && r_IsEIP158 rules && (value =? 0) then Ok ([], gas, None, s) else
  let s := if exists_ then s else CreateAccount keccak addr s in
  let s := Transfer (ref_Address caller) addr value s in
  '(r, s) ← (if precompile addr then Ok (RunPrecompiledContract addr input gas, s) else
             let '(code, s) := GetCode keccak addr s in
             let code := default [] code in
             if zlen code =? 0 then Ok ([], gas, None, s) else
             let '(hash, s) := GetCodeHash keccak addr s in
             Run (SetCallCode addr hash code (NewContract caller addr (Some value) gas)) input false s);
  settle snapshot r s.

(** The code of an account and its hash, for a contract. *)
Definition load_code (addr : Z) (c : Contract) s : Contract * stateDB T S :=
  let '(hash, s) := GetCodeHash keccak addr s in
  let '(code, s) := GetCode keccak addr s in
  (SetCallCode addr hash (default [] code) c, s).

Definition CallCode (caller : ContractRef) (addr : Z) (input : bytes) (gas value : Z) s : frame :=
  if CallCreateDepth <? depth then Ok ([], gas, Some ErrDepth, s) else
  let '(b, s) := GetBalance keccak (ref_Address caller) s in
  if b <? value then Ok ([], gas, Some ErrInsufficientBalance, s) else
  let '(snapshot, s) := Snapshot s in
  '(r, s) ← (if precompile addr then Ok (RunPrecompiledContract addr input gas, s) else
             let '(contract, s) := load_code addr (NewContract caller (ref_Address caller) (Some value) gas) s in
             Run contract input false s);
  settle snapshot r s.

Definition DelegateCall (caller : ContractRef) (addr : Z) (input : bytes) (gas : Z) s : frame :=
  if CallCreateDepth <? depth then Ok ([], gas, Some ErrDepth, s) else
  let '(snapshot, s) := Snapshot s in
  '(r, s) ← (if precompile addr then Ok (RunPrecompiledContract addr input gas, s) else
             contract ← never (AsDelegate caller (NewContract caller (ref_Address caller) None gas));
             let '(contract, s) := load_code addr contract s in
             Run contract input false s);
  settle snapshot r s.

Definition StaticCall (caller : ContractRef) (addr : Z) (input : bytes) (gas : Z) s : frame :=
  if CallCreateDepth <? depth then Ok ([], gas, Some ErrDepth, s) else
  let '(snapshot, s) := Snapshot s in
  let s := AddBalance keccak addr 0 s in
  '(r, s) ← (if precompile addr then Ok (RunPrecompiledContract addr input gas, s) else
             let '(contract, s) := load_code addr (NewContract caller addr (Some 0) gas) s in
             Run contract input true s);
  settle snapshot r s.

(** The deployed code is checked and paid for. *)
Definition deploy (address : Z) (r : callResult) s : callResult * stateDB T S :=
  let '(ret, gas, err) := r in
  let err := if bool_decide (err = None) && r_IsEIP158 rules && (MaxCodeSize <? zlen ret) then Some ErrMaxCodeSizeExceeded else err in
  let err := if bool_decide (err = None) && bool_decide (head ret = Some (z2b 239)) && r_IsLondon rules then Some ErrInvalidCode else err in
  match err with
  | None =>
      let '(gas, ok) := UseGas gas (u64 (zlen ret * CreateDataGas)) in
      if ok then (ret, gas, None, SetCode keccak address (Some ret) s) else (ret, gas, Some ErrCodeStoreOutOfGas, s)
  | Some _ => (ret, gas, err, s)
  end.
(** Before Homestead a contract whose code could not be paid for stays,
    without code. *)
Definition settle_create (snapshot : Z) (r : callResult) s : frame :=
  let '(ret, gas, err) := r in
  match err with
  | Some e =>
      if r_IsHomestead rules || negb (bool_decide (e = ErrCodeStoreOutOfGas)) then
        s ← never (RevertToSnapshot keccak snapshot s); Ok (ret, if bool_decide (e = ErrExecutionReverted) then gas else 0, err, s)
      else Ok (r, s)
  | None => Ok (r, s)
  end.

(** [create]: the address of the contract, zero when it was not tried. *)
Definition create (caller : ContractRef) (code : bytes) (hash : Z) (gas value address : Z) s : outcome stuck (Z * callResult * stateDB T S) :=
  let caller_addr := ref_Address caller in
  if CallCreateDepth <? depth then Ok (0, ([], gas, Some ErrDepth), s) else
  let '(b, s) := GetBalance keccak caller_addr s in
  if b <? value then Ok (0, ([], gas, Some ErrInsufficientBalance), s) else
  let '(nonce, s) := GetNonce keccak caller_addr s in
  if u64 (nonce + 1) <? nonce then Ok (0, ([], gas, Some ErrNonceUintOverflow), s) else
  let s := SetNonce keccak caller_addr (u64 (nonce + 1)) s in
  let s := if r_IsBerlin rules then AddAddressToAccessList address s else s in
  let '(contractHash, s) := GetCodeHash keccak address s in
  let '(n, s) := GetNonce keccak address s in
  if negb (n =? 0) || (negb (contractHash =? 0) && negb (contractHash =? EmptyCodeHash keccak))
  then Ok (0, ([], 0, Some ErrContractAddressCollision), s) else
  let '(snapshot, s) := Snapshot s in
  let s := CreateAccount keccak address s in
  let s := if r_IsEIP158 rules then SetNonce keccak address 1 s else s in
  let s := Transfer caller_addr address value s in
  let contract := SetCallCode address hash code (NewContract caller address (Some value) gas) in
  '(r, s) ← Run contract [] false s;
  let '(r, s) := deploy address r s in
  '(r, s) ← settle_create snapshot r s;
  Ok (address, r, s).

Definition Create (caller : ContractRef) (code : bytes) (gas value : Z) s : outcome stuck (Z * callResult * stateDB T S) :=
  let '(nonce, s) := GetNonce keccak (ref_Address caller) s in
  create caller code 0 gas value (CreateAddress keccak (ref_Address caller) nonce) s.

(** [crypto.CreateAddress2]. *)
Definition CreateAddress2 (b : Z) (salt inithash : Z) : Z :=
  be_value (drop 12 (be_bytes 32 (keccak (z2b 255 :: be_bytes 20 b ++ be_bytes 32 salt ++ be_bytes 32 inithash)))).
Definition Create2 (caller : ContractRef) (code : bytes) (gas endowment salt : Z) s : outcome stuck (Z * callResult * stateDB T S) :=
  let hash := keccak code in
  create caller code hash gas endowment (CreateAddress2 (ref_Address caller) salt hash) s.
End Frames.

(** ** What frames rely on and promise *)

Section FrameLemmas.
Context {T S : Type} `{Trie : !Tries T S} (keccak : bytes → Z).
Implicit Types (s : stateDB T S).
Context (Run : Contract → bytes → bool → stateDB T S → outcome stuck (callResult * stateDB T S)).
Context (RequiredGas : RulesT → Z → bytes → Z) (precompiled_Run : RulesT → Z → bytes → bytes * option vmError).
Context (rules : RulesT) (depth : Z) (R : Z).
#[local] Abbreviation dbstep := (dbstep keccak R).
#[local] Abbreviation X := ({[ ripemd ]} : gset Z).

(** Each unit of gas pays for [rate] units of refund at most, apart from the
    refund of one SELFDESTRUCT that ends a frame, and a call costs enough for
    that one. *)
Definition rate : Z := 600.
Definition slack : Z := 24000.
Definition warm s (a : Z) : Prop := r_IsBerlin rules = true → AddressInAccessList a s = true.

(** A state in which [gas] can be spent. *)
Record state_ok s (gas : Z) : Prop := {
  sk_db : db_ok keccak s;
  sk_covers : covers keccak R s;
  sk_gas : 0 ≤ gas;
  sk_refund : refund s + rate * gas + slack < 2 ^ 64
}.
(** The code runs on an account that exists and, from Berlin on, is on the
    access list. *)
Record run_ok s (c : Contract) : Prop := {
  ro_state : state_ok s (c_Gas c);
  ro_self : is_Some (alive keccak s (c_self c));
  ro_warm : warm s (c_self c);
  ro_value : is_Some (c_value c)
}.
(** The gas left, the state after it, and what may be kept of it. *)
Definition spent (ro : bool) s (gas left : Z) s' : Prop := ∃ d, dbstep ro d s s' ∧ d + rate * left ≤ rate * gas + slack.

(** Inside a static frame every frame is static. *)
Context (ro0 : bool) (limit : Z).
Definition runs_ok : Prop := ∀ c input ro s, run_ok s c → c_Gas c < limit → ∃ ret left err s', Run c input ro s = Ok (ret, left, err, s') ∧
  0 ≤ left ≤ c_Gas c ∧ ext keccak s s' ∧ err ≠ Some ErrCodeStoreOutOfGas ∧ (err = None → spent (ro0 || ro) s (c_Gas c) left s').
Context (Hrun : runs_ok) (Hgas : ∀ r a i, 0 ≤ RequiredGas r a i).

(** What a frame promises: it returns, with at most the gas it had; after an
    error everything reads as before, and the gas is gone unless the error is
    one of the early ones or asked for the rest. *)
Definition refused (e : vmError) : bool :=
  bool_decide (e = ErrDepth) || bool_decide (e = ErrInsufficientBalance) || bool_decide (e = ErrNonceUintOverflow) || bool_decide (e = ErrExecutionReverted).
Definition frame_ok (ro : bool) s (gas : Z) (res : outcome stuck (callResult * stateDB T S)) : Prop := ∃ ret left err s',
  res = Ok (ret, left, err, s') ∧ 0 ≤ left ≤ gas ∧ spent ro s gas left s' ∧
  ∀ e, err = Some e → eqv keccak X s' s ∧ (refused e = false → left = 0).

Lemma spent_step ro s s' gas left : dbstep ro 0 s s' → 0 ≤ left ≤ gas → spent ro s gas left s'.
Proof. intros H Hl. exists 0. split; [done|]. unfold slack, rate. lia. Qed.
Lemma spent_after ro s s1 s2 gas left : dbstep ro 0 s s1 → spent ro s1 gas left s2 → spent ro s gas left s2.
Proof. intros H1 (d & H2 & Hd). exists d. split; [|done]. rewrite <- (Z.add_0_l d). by eapply dbstep_trans. Qed.
Lemma spent_then ro s s1 s2 gas left : spent ro s gas left s1 → dbstep ro 0 s1 s2 → spent ro s gas left s2.
Proof. intros (d & H1 & Hd) H2. exists d. split; [|done]. rewrite <- (Z.add_0_r d). by eapply dbstep_trans. Qed.
Lemma spent_ro ro s s' gas left : spent true s gas left s' → spent ro s gas left s'.
Proof. intros (d & [] & Hd). exists d. split; [|done]. by split; auto. Qed.
Lemma spent_less ro s s' gas left left' : left' ≤ left → spent ro s gas left s' → spent ro s gas left' s'.
Proof. intros Hl (d & H & Hd). exists d. split; [done|]. unfold rate in *. lia. Qed.

Lemma frame_early ro s gas e : 0 ≤ gas → refused e = true → frame_ok ro s gas (Ok ([], gas, Some e, s)).
Proof.
  intros Hg He. eexists _, _, _, _. split; [done|]. split; [lia|]. split; [apply spent_step; [apply dbstep_refl|lia]|].
  intros e' [= <-]. split; [done|]. congruence.
Qed.
Lemma frame_silent ro s s1 gas res : silent keccak X s s1 → frame_ok ro s1 gas res → frame_ok ro s gas res.
Proof.
  intros Hs (ret & left & err & s' & E & H1 & H2 & H3). exists ret, left, err, s'. split_and!; try done; [lia|lia|..].
  - by eapply spent_after; [apply dbstep_silent|].
  - intros e He. destruct (H3 e He) as [H4 H5]. split; [|done]. etrans; [exact H4|]. apply Hs.
Qed.
Lemma state_ok_step ro s s' gas : dbstep ro 0 s s' → state_ok s gas → state_ok s' gas.
Proof. intros [H1 _ _ H3 H4 _] [G1 G2 G3 G4]. split; auto; [by apply H1|lia]. Qed.
Lemma step_Snapshot ro s : dbstep ro 0 s (Snapshot s).2.
Proof. apply dbstep_eqv; [apply ext_snapshot|apply eqv_revs]. Qed.
Lemma warm_step ro d s s' a : dbstep ro d s s' → warm s a → warm s' a.
Proof. intros [_ _ H _ _ _] Hw Hb. auto. Qed.

(** The end of a frame. *)
Lemma revert_step ro s s2 : db_ok keccak s → ext keccak (Snapshot s).2 s2 →
  ∃ t, RevertToSnapshot keccak (nextRevisionId s) s2 = Ok t ∧ eqv keccak X t s ∧ dbstep ro 0 s t.
Proof.
  intros Hs Hx. destruct (ext_revert keccak s s2 Hs) as (t & Et & He & Hok & Hi).
  { apply Hx; [apply Hs|by apply snapshot_inside]. }
  exists t. split; [done|]. split; [done|]. apply dbstep_eqv; [|done]. split; [|done]. intros s0 Hr H0. apply (Hi s0 Hr H0).
  apply Hx; [done|]. by apply ext_snapshot.
Qed.
Lemma settle_ok ro s s2 r gas : db_ok keccak s → ext keccak (Snapshot s).2 s2 → 0 ≤ r.1.2 ≤ gas → (r.2 = None → spent ro s gas r.1.2 s2) →
  frame_ok ro s gas (settle keccak (nextRevisionId s) r s2).
Proof.
  intros Hs Hx Hg Hsp. destruct r as [[ret left] err]. cbn [fst snd] in *. unfold settle. destruct err as [e|].
  - destruct (revert_step ro s s2 Hs Hx) as (t & -> & He & Ht). cbn. eexists _, _, _, _. split; [done|]. split; [case_if; lia|].
    split; [apply spent_step; [done|case_if; lia]|]. intros e' [= <-]. split; [done|]. unfold refused. by repeat case_bool_decide.
  - eexists _, _, _, _. split; [done|]. split; [done|]. split; [by apply Hsp|done].
Qed.

(** The body of a frame that runs a precompiled contract or a program. *)
Lemma precompiled_ok ro s s1 gas addr input : db_ok keccak s → ext keccak (Snapshot s).2 s1 → dbstep ro 0 s s1 → 0 ≤ gas →
  frame_ok ro s gas (settle keccak (nextRevisionId s) (RunPrecompiledContract RequiredGas precompiled_Run rules addr input gas) s1).
Proof.
  intros Hs Hx Hd Hg. specialize (Hgas rules addr input).
  assert (Hb : 0 ≤ (RunPrecompiledContract RequiredGas precompiled_Run rules addr input gas).1.2 ≤ gas).
  { unfold RunPrecompiledContract. case_if; [cbn; lia|]. destruct (precompiled_Run rules addr input). cbn. lia. }
  apply settle_ok; try done. intros _. by apply spent_step.
Qed.
Lemma program_ok ro (ro1 : bool) s s1 gas c input : db_ok keccak s → ext keccak (Snapshot s).2 s1 → dbstep ro 0 s s1 → run_ok s1 c → c_Gas c = gas →
  gas < limit → (ro = true → ro0 || ro1 = true) →
  frame_ok ro s gas ('(r, s') ← Run c input ro1 s1; settle keccak (nextRevisionId s) r s').
Proof.
  intros Hs Hx Hd Hc Hg Hl Hro. destruct (Hrun c input ro1 s1 Hc) as (ret & left & err & s2 & E & Hb & Hx2 & _ & Hsp); [lia|]. rewrite E. cbn [mbind outcome_bind].
  apply settle_ok; [done|by etrans|cbn; lia|]. cbn. intros He. eapply spent_after; [exact Hd|]. rewrite <- Hg. destruct (Hsp He) as (d & Hstep & Hd2).
  exists d. split; [|done]. destruct Hstep as [A1 A2 A3 A4 A5 A6]. split; auto.
Qed.

Lemma load_code_step ro addr c s c' s' : db_ok keccak s → load_code keccak addr c s = (c', s') →
  dbstep ro 0 s s' ∧ c_Gas c' = c_Gas c ∧ c_self c' = c_self c ∧ c_value c' = c_value c.
Proof.
  intros Hs. unfold load_code. destruct (GetCodeHash keccak addr s) as [h s1] eqn:E1, (GetCode keccak addr s1) as [code s2] eqn:E2.
  intros [= <- <-]. split; [|done]. pose proof (step_with_object keccak R ro _ _ _ _ _ _ E1) as H1. eapply dbstep_then; [exact H1|].
  eapply step_GetCode; [|exact E2]. by apply H1.
Qed.

Lemma alive_AddBalance a n s : db_ok keccak s → is_Some (alive keccak (AddBalance keccak a n s) a).
Proof.
  intros Hs. unfold AddBalance. destruct (get_or_new_effect keccak a s) as (o & s1 & -> & Hh & <- & Hd & _); [by apply (db_addr_ok keccak)|].
  destruct (so_AddBalance_write keccak n o s1 Hh Hd) as [_ (o' & E & _) _]. by eexists.
Qed.

(** *** The four calls *)

Context (caller : Contract).
Abbreviation ref := (OfContract caller).

Lemma StaticCall_ok addr input gas s : state_ok s gas → gas < limit → warm s addr →
  frame_ok true s gas (StaticCall keccak Run RequiredGas precompiled_Run rules depth ref addr input gas s).
Proof.
  intros Hs Hl Hw. pose proof (sk_db _ _ Hs) as Hok. pose proof (sk_gas _ _ Hs) as Hg. unfold StaticCall. case_if; [by apply frame_early|].
  rewrite (surjective_pairing (Snapshot s)). change (Snapshot s).1 with (nextRevisionId s).
  pose proof (step_Snapshot true s) as H0. assert (Hok0 : db_ok keccak (Snapshot s).2) by (by apply H0).
  set (s1 := AddBalance keccak addr 0 (Snapshot s).2). assert (H1 : dbstep true 0 (Snapshot s).2 s1) by (by apply step_AddBalance_0).
  assert (Hok1 : db_ok keccak s1) by (by apply H1).
  destruct (precompile rules addr).
  { cbn [mbind outcome_bind]. apply precompiled_ok; [done|apply H1|by eapply dbstep_then|done]. }
  destruct (load_code keccak addr _ s1) as [c s2] eqn:E. pose proof (load_code_step true _ _ _ _ _ Hok1 E) as (H2 & Ec1 & Ec2 & Ec3).
  apply program_ok; try done.
  - etrans; [apply H1|apply H2].
  - eapply dbstep_then; [by eapply dbstep_then|done].
  - split.
    + rewrite Ec1. eapply state_ok_step; [exact H2|]. eapply state_ok_step; [exact H1|]. by eapply state_ok_step.
    + rewrite Ec2. apply H2. by apply alive_AddBalance.
    + rewrite Ec2. eapply warm_step; [exact H2|]. eapply warm_step; [exact H1|]. by eapply warm_step.
    + rewrite Ec3. by eexists.
  - intros _. apply orb_true_r.
Qed.

(** The calls that run on the caller's own account. *)
Lemma own_account s s' : dbstep ro0 0 s s' → is_Some (alive keccak s (c_self caller)) → warm s (c_self caller) →
  is_Some (alive keccak s' (c_self caller)) ∧ warm s' (c_self caller).
Proof. intros H Ha Hw. split; [by apply H|by eapply warm_step]. Qed.

Lemma DelegateCall_ok addr input gas s : state_ok s gas → gas < limit → is_Some (alive keccak s (c_self caller)) → warm s (c_self caller) →
  is_Some (c_value caller) →
  frame_ok ro0 s gas (DelegateCall keccak Run RequiredGas precompiled_Run rules depth ref addr input gas s).
Proof.
  intros Hs Hl Ha Hw Hv. pose proof (sk_db _ _ Hs) as Hok. pose proof (sk_gas _ _ Hs) as Hg. unfold DelegateCall. case_if; [by apply frame_early|].
  rewrite (surjective_pairing (Snapshot s)). change (Snapshot s).1 with (nextRevisionId s).
  pose proof (step_Snapshot ro0 s) as H0. assert (Hok0 : db_ok keccak (Snapshot s).2) by (by apply H0).
  destruct (precompile rules addr).
  { cbn [mbind outcome_bind]. by apply precompiled_ok. }
  cbn [AsDelegate never mbind outcome_bind].
  destruct (load_code keccak addr _ _) as [c s2] eqn:E. pose proof (load_code_step ro0 _ _ _ _ _ Hok0 E) as (H2 & Ec1 & Ec2 & Ec3).
  assert (H02 : dbstep ro0 0 s s2) by (by eapply dbstep_then). destruct (own_account s s2 H02 Ha Hw) as [Ha2 Hw2].
  apply program_ok; try done.
  - apply H2.
  - split; [rewrite Ec1; by eapply state_ok_step|by rewrite Ec2|by rewrite Ec2|by rewrite Ec3].
  - intros ->. done.
Qed.

Lemma CallCode_ok addr input gas value s : state_ok s gas → gas < limit → is_Some (alive keccak s (c_self caller)) → warm s (c_self caller) →
  frame_ok ro0 s gas (CallCode keccak Run RequiredGas precompiled_Run rules depth ref addr input gas value s).
Proof.
  intros Hs Hl Ha Hw. pose proof (sk_gas _ _ Hs) as Hg. unfold CallCode. case_if; [by apply frame_early|].
  destruct (GetBalance keccak (ref_Address ref) s) as [b s0] eqn:Eb.
  assert (Hsil : silent keccak X s s0) by (revert Eb; unfold GetBalance, with_object; destruct (get_object keccak X (ref_Address ref) s) as (t & -> & Ht & _); by intros [= _ <-]).
  apply (frame_silent ro0 s s0); [done|]. assert (Hs0 : dbstep ro0 0 s s0) by (by apply dbstep_silent). destruct (own_account s s0 Hs0 Ha Hw) as [Ha0 Hw0].
  apply (state_ok_step ro0 s s0) in Hs; [|done]. pose proof (sk_db _ _ Hs) as Hok. case_if; [by apply frame_early|].
  rewrite (surjective_pairing (Snapshot s0)). change (Snapshot s0).1 with (nextRevisionId s0).
  pose proof (step_Snapshot ro0 s0) as H0. assert (Hok0 : db_ok keccak (Snapshot s0).2) by (by apply H0).
  destruct (precompile rules addr).
  { cbn [mbind outcome_bind]. by apply precompiled_ok. }
  destruct (load_code keccak addr _ _) as [c s2] eqn:E. pose proof (load_code_step ro0 _ _ _ _ _ Hok0 E) as (H2 & Ec1 & Ec2 & Ec3).
  assert (H02 : dbstep ro0 0 s0 s2) by (by eapply dbstep_then). destruct (own_account s0 s2 H02 Ha0 Hw0) as [Ha2 Hw2].
  apply program_ok; try done.
  - apply H2.
  - split; [rewrite Ec1; by eapply state_ok_step|by rewrite Ec2|by rewrite Ec2|rewrite Ec3; by eexists].
  - intros ->. done.
Qed.

(** In a static frame a call carries no value. *)
Lemma step_Transfer ro sender recipient amount s : db_ok keccak s → (ro = true → amount = 0) → dbstep ro 0 s (Transfer keccak sender recipient amount s).
Proof.
  intros Hs Hro. unfold Transfer. assert (H1 : dbstep ro 0 s (SubBalance keccak sender amount s)).
  { destruct ro; [rewrite Hro by done; by apply step_SubBalance_0|by apply step_SubBalance]. }
  eapply dbstep_then; [exact H1|]. assert (Hs1 : db_ok keccak (SubBalance keccak sender amount s)) by (by apply H1).
  destruct ro; [rewrite Hro in * by done; by apply step_AddBalance_0|by apply step_AddBalance].
Qed.

Lemma Call_ok (from : ContractRef) addr input gas value s : state_ok s gas → gas < limit → warm s addr → (ro0 = true → value = 0) →
  frame_ok ro0 s gas (Call keccak Run RequiredGas precompiled_Run rules depth from addr input gas value s).
Proof.
  intros Hs Hl Hw Hro. pose proof (sk_gas _ _ Hs) as Hg. unfold Call. case_if; [by apply frame_early|].
  assert (Hp : ∃ poor s0, (if negb (value =? 0) then let '(b, s) := GetBalance keccak (ref_Address from) s in (b <? value, s) else (false, s)) = (poor, s0) ∧
    silent keccak X s s0).
  { destruct (negb (value =? 0)); [|by exists false, s]. unfold GetBalance, with_object. destruct (get_object keccak X (ref_Address from) s) as (t & -> & Ht & _). by eexists _, _. }
  destruct Hp as (poor & s0 & -> & Hsil). apply (frame_silent ro0 s s0); [done|]. assert (Hd0 : dbstep ro0 0 s s0) by (by apply dbstep_silent).
  apply (state_ok_step ro0 s s0) in Hs; [|done]. apply (warm_step ro0 0 s s0) in Hw; [|done]. pose proof (sk_db _ _ Hs) as Hok.
  destruct poor; [by apply frame_early|]. rewrite (surjective_pairing (Snapshot s0)). change (Snapshot s0).1 with (nextRevisionId s0).
  pose proof (step_Snapshot ro0 s0) as H1. assert (Hok1 : db_ok keccak (Snapshot s0).2) by (by apply H1).
  destruct (Exist keccak addr (Snapshot s0).2) as [ex s2] eqn:Ee. pose proof (step_with_object keccak R ro0 _ _ _ _ _ _ Ee) as H2.
  assert (H02 : dbstep ro0 0 s0 s2) by (by eapply dbstep_then).
  case_if. { eexists _, _, _, _. split; [done|]. split; [lia|]. split; [apply spent_step; [done|lia]|done]. }
  assert (Hok2 : db_ok keccak s2) by (by apply H2).
  set (s3 := if ex then s2 else CreateAccount keccak addr s2). assert (H3 : dbstep ro0 0 s2 s3).
  { unfold s3. destruct ex; [apply dbstep_refl|]. apply step_CreateAccount_new; [done|].
    revert Ee. unfold Exist, with_object. destruct (get_object keccak X addr (Snapshot s0).2) as (t & -> & Ht & _). intros [= Eb <-].
    apply (eqv_alive keccak _ _ addr (si_eqv _ _ _ _ Ht)). revert Eb. change (set_revisions _ _ s0) with (Snapshot s0).2. by destruct (alive keccak (Snapshot s0).2 addr). }
  assert (Hok3 : db_ok keccak s3) by (by apply H3). set (s4 := Transfer keccak (ref_Address from) addr value s3).
  assert (H4 : dbstep ro0 0 s3 s4) by (by apply step_Transfer). assert (H04 : dbstep ro0 0 s0 s4) by (eapply dbstep_then; [done|by eapply dbstep_then]).
  assert (Hx4 : ext keccak (Snapshot s0).2 s4) by (etrans; [apply H2|etrans; [apply H3|apply H4]]). assert (Hok4 : db_ok keccak s4) by (by apply H4).
  assert (Ha4 : is_Some (alive keccak s4 addr)).
  { apply alive_AddBalance. by apply (step_SubBalance keccak R (ref_Address from) value s3 Hok3). }
  destruct (precompile rules addr).
  { cbn [mbind outcome_bind]. by apply precompiled_ok. }
  destruct (GetCode keccak addr s4) as [code s5] eqn:Ec. pose proof (step_GetCode keccak R ro0 _ _ _ _ Hok4 Ec) as H5.
  case_if. { cbn [mbind outcome_bind]. apply settle_ok; [done|etrans; [exact Hx4|apply H5]|cbn; lia|]. intros _. apply spent_step; [by eapply dbstep_then|cbn; lia]. }
  destruct (GetCodeHash keccak addr s5) as [h s6] eqn:Eh. pose proof (step_with_object keccak R ro0 _ _ _ _ _ _ Eh) as H6.
  assert (H46 : dbstep ro0 0 s4 s6) by (by eapply dbstep_then). assert (H06 : dbstep ro0 0 s0 s6) by (by eapply dbstep_then).
  apply program_ok; try done.
  - etrans; [exact Hx4|apply H46].
  - split; cbn; [by eapply state_ok_step|by apply H46|by eapply warm_step|by eexists].
  - intros ->. done.
Qed.

(** *** Creating contracts *)

(** The state in which a contract is created: the nonce of the creator has
    moved on, and the address is on the access list. *)
Definition prepared (from address : Z) s : stateDB T S :=
  let '(nonce, s) := GetNonce keccak from (GetBalance keccak from s).2 in
  let s := SetNonce keccak from (u64 (nonce + 1)) s in
  if r_IsBerlin rules then AddAddressToAccessList address s else s.

Definition create_ok s (from address gas : Z) (res : outcome stuck (Z * callResult * stateDB T S)) : Prop := ∃ a ret left err s',
  res = Ok (a, (ret, left, err), s') ∧ 0 ≤ left ≤ gas ∧ spent false s gas left s' ∧
  ∀ e, err = Some e →
    (a = 0 ∧ (e = ErrDepth ∨ e = ErrInsufficientBalance ∨ e = ErrNonceUintOverflow) ∧ eqv keccak X s' s ∧ left = gas) ∨
    (r_IsHomestead rules = true ∨ e ≠ ErrCodeStoreOutOfGas → eqv keccak X s' (prepared from address s) ∧ (e ≠ ErrExecutionReverted → left = 0)).

Lemma deploy_ok address r s : db_ok keccak s → 0 ≤ r.1.2 → r.2 ≠ Some ErrCodeStoreOutOfGas →
  ∃ r' s', deploy keccak rules address r s = (r', s') ∧ dbstep false 0 s s' ∧ 0 ≤ r'.1.2 ≤ r.1.2 ∧
  (r'.2 = None ∨ r'.2 = Some ErrCodeStoreOutOfGas → r.2 = None).
Proof.
  intros Hs Hg Hne. destruct r as [[ret g] err]. cbn [fst snd] in *. unfold deploy.
  set (e1 := if bool_decide (err = None) && _ && _ then _ else err). set (e2 := if bool_decide (e1 = None) && _ && _ then _ else e1).
  assert (H1 : e2 = None ∨ e2 = Some ErrCodeStoreOutOfGas → err = None).
  { unfold e2, e1. clear -Hne. repeat case_bool_decide; cbn; repeat case_if; naive_solver. }
  destruct e2 as [e|]; [eexists _, _; split; [done|]; split; [apply dbstep_refl|]; split; [cbn; lia|done]|].
  unfold UseGas. assert (0 ≤ u64 (zlen ret * CreateDataGas)) by apply u64_range.
  case_if; cbn; eexists _, _; (split; [done|]); (split; [|split; [cbn; lia|intros _; apply H1; by left]]); [apply dbstep_refl|by apply step_SetCode].
Qed.

Lemma settle_create_ok s s2 (r : callResult) (gas : Z) : db_ok keccak s → ext keccak (Snapshot s).2 s2 → 0 ≤ r.1.2 ≤ gas →
  (r.2 = None ∨ r.2 = Some ErrCodeStoreOutOfGas → spent false s gas r.1.2 s2) →
  ∃ left s', settle_create keccak rules (nextRevisionId s) r s2 = Ok (r.1.1, left, r.2, s') ∧ 0 ≤ left ≤ gas ∧ spent false s gas left s' ∧
    ∀ e, r.2 = Some e → (r_IsHomestead rules = true ∨ e ≠ ErrCodeStoreOutOfGas) → eqv keccak X s' s ∧ (e ≠ ErrExecutionReverted → left = 0).
Proof.
  intros Hs Hx Hg Hsp. destruct r as [[ret left] err]. cbn [fst snd] in *. unfold settle_create. destruct err as [e|].
  - destruct (r_IsHomestead rules || _) eqn:Eh.
    + destruct (revert_step false s s2 Hs Hx) as (t & -> & He & Ht). cbn. eexists _, _. split; [done|]. split; [case_if; lia|].
      split; [apply spent_step; [done|case_if; lia]|]. intros e' [= <-] _. split; [done|]. intros Hne. by rewrite bool_decide_false.
    + apply orb_false_iff in Eh as [E1 E2]. zbool. eexists _, _. split; [done|]. split; [done|].
      split; [apply Hsp; right; f_equal; by destruct (bool_decide_reflect (e = ErrCodeStoreOutOfGas))|].
      intros e' [= <-] [?|?]; [congruence|]. by destruct (bool_decide_reflect (e = ErrCodeStoreOutOfGas)).
  - eexists _, _. split; [done|]. split; [done|]. split; [apply Hsp; by left|done].
Qed.

Lemma prepared_step from address s : db_ok keccak s → dbstep false 0 s (prepared from address s) ∧ warm (prepared from address s) address.
Proof.
  intros Hs. unfold prepared. destruct (GetBalance keccak from s) as [b s0] eqn:Eb. cbn [snd].
  pose proof (step_with_object keccak R false _ _ _ _ _ _ Eb) as H0. destruct (GetNonce keccak from s0) as [n s1] eqn:En.
  pose proof (step_with_object keccak R false _ _ _ _ _ _ En) as H1. assert (H01 : dbstep false 0 s s1) by (by eapply dbstep_then).
  assert (Hs1 : db_ok keccak s1) by (by apply H01). pose proof (step_SetNonce keccak R from (u64 (n + 1)) s1 Hs1) as H2.
  set (s2 := SetNonce keccak from (u64 (n + 1)) s1) in *. assert (H02 : dbstep false 0 s s2) by (by eapply dbstep_then). unfold warm.
  destruct (r_IsBerlin rules); [|done]. destruct (step_AddAddress keccak R false address s2) as [H3 H4]; [by apply H02|].
  split; [by eapply dbstep_then|done].
Qed.

Lemma with_object_silent {A} a s (m : A) f v s1 : with_object keccak a s m f = (v, s1) → silent keccak X s s1.
Proof. unfold with_object. destruct (get_object keccak X a s) as (s0 & -> & Hs & _). by intros [= _ <-]. Qed.

(** What is done before the program of the new contract runs. *)
Lemma create_start from address value s : db_ok keccak s → warm s address →
  let s1 := CreateAccount keccak address s in
  let s2 := if r_IsEIP158 rules then SetNonce keccak address 1 s1 else s1 in
  let s3 := Transfer keccak from address value s2 in
  dbstep false 0 s s3 ∧ is_Some (alive keccak s3 address) ∧ warm s3 address.
Proof.
  intros Hs Hw s1 s2 s3. assert (H1 : dbstep false 0 s s1) by (by apply step_CreateAccount). assert (Hs1 : db_ok keccak s1) by (by apply H1).
  assert (H2 : dbstep false 0 s1 s2) by (unfold s2; case_if; [by apply step_SetNonce|apply dbstep_refl]). assert (Hs2 : db_ok keccak s2) by (by apply H2).
  assert (H3 : dbstep false 0 s2 s3) by (by apply step_Transfer). assert (H03 : dbstep false 0 s s3) by (eapply dbstep_then; [done|by eapply dbstep_then]).
  split; [done|]. split; [|by eapply warm_step]. apply alive_AddBalance. by apply (step_SubBalance keccak R from value s2 Hs2).
Qed.

Lemma create_spec (from : ContractRef) code hash gas value address s : state_ok s gas → gas < limit → ro0 = false →
  create_ok s (ref_Address from) address gas (create keccak Run rules depth from code hash gas value address s).
Proof.
  intros Hs Hl Hro. pose proof (sk_gas _ _ Hs) as Hg. pose proof (sk_db _ _ Hs) as Hok. unfold create. set (ca := ref_Address from).
  assert (Hearly : ∀ e s0, silent keccak X s s0 → e = ErrDepth ∨ e = ErrInsufficientBalance ∨ e = ErrNonceUintOverflow →
    create_ok s ca address gas (Ok (0, ([], gas, Some e), s0))).
  { intros e s0 H0 He. eexists _, _, _, _, _. split; [done|]. split; [lia|]. split; [apply spent_step; [by apply dbstep_silent|lia]|].
    intros e' [= <-]. left. split_and!; try done. apply H0. }
  case_if; [apply Hearly; [done|auto]|]. destruct (prepared_step ca address s Hok) as [HP HPw]. unfold create_ok, prepared in *.
  destruct (GetBalance keccak ca s) as [b s0] eqn:Eb. cbn [snd] in *. apply with_object_silent in Eb.
  case_if; [apply Hearly; [done|auto]|]. destruct (GetNonce keccak ca s0) as [n s1] eqn:En. apply with_object_silent in En.
  case_if; [apply Hearly; [by etrans|auto]|].
  set (s2 := if r_IsBerlin rules then _ else SetNonce _ _ _ s1) in *.
  destruct (GetCodeHash keccak address s2) as [h s3] eqn:Eh. apply with_object_silent in Eh.
  destruct (GetNonce keccak address s3) as [n' s4] eqn:En'. apply with_object_silent in En'.
  assert (H24 : silent keccak X s2 s4) by (by etrans). assert (H04 : dbstep false 0 s s4) by (eapply dbstep_then; [exact HP|by apply dbstep_silent]).
  assert (Hok4 : db_ok keccak s4) by (by apply H04). assert (Hw4 : warm s4 address) by (eapply (warm_step false 0); [by apply dbstep_silent|done]).
  case_if.
  { eexists _, _, _, _, _. split; [done|]. split; [lia|]. split; [apply spent_step; [done|lia]|]. intros e [= <-]. right. intros _. split; [apply H24|done]. }
  rewrite (surjective_pairing (Snapshot s4)). change (Snapshot s4).1 with (nextRevisionId s4). pose proof (step_Snapshot false s4) as H5.
  assert (Hok5 : db_ok keccak (Snapshot s4).2) by (by apply H5).
  destruct (create_start ca address value (Snapshot s4).2 Hok5) as (H7 & Ha7 & Hw7); [by eapply warm_step|].
  set (s7 := Transfer keccak ca address value _) in *. assert (H47 : dbstep false 0 s4 s7) by (by eapply dbstep_then).
  assert (Hc : run_ok s7 (SetCallCode address hash code (NewContract from address (Some value) gas))).
  { split; cbn; [|done|done|by eexists]. eapply state_ok_step; [exact H47|]. by eapply state_ok_step. }
  destruct (Hrun _ [] false s7 Hc) as (ret & left & err & s8 & E8 & Hb & Hx8 & Hne & Hsp); [done|]. rewrite E8. cbn [mbind outcome_bind].
  assert (Hok8 : db_ok keccak s8) by (by apply Hx8, H47). cbn in Hb, Hsp. rewrite Hro in Hsp.
  destruct (deploy_ok address (ret, left, err) s8 Hok8) as (r' & s9 & E9 & H9 & Hb9 & Hr9); [cbn; lia|done|]. cbn [fst snd] in Hb9, Hr9. rewrite E9.
  assert (Hsp9 : r'.2 = None ∨ r'.2 = Some ErrCodeStoreOutOfGas → spent false s4 gas r'.1.2 s9).
  { intros Hr. eapply spent_less; [apply Hb9|]. eapply spent_then; [|exact H9]. eapply spent_after; [exact H47|]. auto. }
  destruct (settle_create_ok s4 s9 r' gas Hok4) as (left' & s' & E & H1 & H2 & H3); [etrans; [apply H7|etrans; [exact Hx8|apply H9]]|lia|done|].
  rewrite E. cbn [mbind outcome_bind]. eexists _, _, _, _, _. split; [done|]. split; [done|]. split; [by eapply spent_after|].
  intros e He. right. intros Hh. destruct (H3 e He Hh) as [H10 H11]. split; [|done]. etrans; [exact H10|]. apply H24.
Qed.
End FrameLemmas.
