(* ===== verification/Vm.v ===== *)
(** The data of the interpreter: 256-bit words, memory, stack and the state of
    a running program, with the gas and memory-size functions of
    [src/go-ethereum/core/vm]: [memory.go], [stack.go], [common.go], [gas.go],
    [gas_table.go], [memory_table.go] and [operations_acl.go].

    Words are numbers; the package [uint256] is the class [Uint256] with the
    laws the interpreter relies on.  A program's state is threaded through a
    state-and-error monad ([Prelude.stm]); a stack is a list with its top
    first.  Slices that point into memory are copied: a callee has memory of
    its own, and what a program returned is not written again. *)

From S2P Require Import Prelude RLP Types Receipts Config Transactions StateTransition State StateJournal StateEffects Evm Jumpdest.

(** ** Words *)

Inductive binary := uAdd | uSub | uMul | uDiv | uSDiv | uMod | uSMod | uExp | uExtendSign | uAnd | uOr | uXor | uByte | uLsh | uRsh | uSRsh.
Inductive compare := uLt | uGt | uSlt | uSgt | uEq.

Class Uint256 := {
  u_binary : binary → Z → Z → Z;
  u_compare : compare → Z → Z → bool;
  u_AddMod : Z → Z → Z → Z;
  u_MulMod : Z → Z → Z → Z;
  u_Not : Z → Z;
  u_AllOne : Z;
  u_IsZero : Z → bool;
  u_Sign : Z → Z;
  u_BitLen : Z → Z;
  u_LtUint64 : Z → Z → bool;
  u_GtUint64 : Z → Z → bool;
  u_Uint64 : Z → Z;
  u_IsUint64 : Z → bool;
  u_Uint64WithOverflow : Z → Z * bool;
  u_SetUint64 : Z → Z;
  u_FromBig : Z → Z;
  u_ToBig : Z → Z;
  u_SetBytes : bytes → Z;
  u_Bytes32 : Z → bytes;
  u_Bytes20 : Z → bytes
}.

Definition is_word (x : Z) : Prop := 0 ≤ x < 2 ^ 256.
Class Uint256Laws `{!Uint256} : Prop := {
  w_binary o x y : is_word x → is_word y → is_word (u_binary o x y);
  w_Add x y : is_word x → is_word y → u_binary uAdd x y = (x + y) mod 2 ^ 256;
  w_AddMod x y z : is_word x → is_word y → is_word z → is_word (u_AddMod x y z);
  w_MulMod x y z : is_word x → is_word y → is_word z → is_word (u_MulMod x y z);
  w_Not x : is_word x → is_word (u_Not x);
  w_AllOne : is_word u_AllOne;
  w_IsZero x : is_word x → u_IsZero x = (x =? 0);
  w_Sign x : is_word x → u_Sign x = 0 ↔ x = 0;
  w_BitLen x : is_word x → 0 ≤ u_BitLen x ≤ 256;
  w_Uint64 x : is_word x → u_Uint64 x = x mod 2 ^ 64;
  w_IsUint64 x : is_word x → u_IsUint64 x = (x <? 2 ^ 64);
  w_Uint64WithOverflow x : is_word x → u_Uint64WithOverflow x = (x mod 2 ^ 64, 2 ^ 64 <=? x);
  w_SetUint64 n : is_u64 n → u_SetUint64 n = n;
  w_FromBig n : is_word (u_FromBig n);
  w_SetBytes b : is_word (u_SetBytes b);
  w_Bytes32 x : is_word x → u_Bytes32 x = be_bytes 32 x
}.

(** ** Parameters of the protocol *)

Definition CallValueTransferGas : Z := 9000.
Definition CallNewAccountGas : Z := 25000.
Definition QuadCoeffDiv : Z := 512.
Definition LogDataGas : Z := 8.
Definition CallStipend : Z := 2300.
Definition Keccak256Gas : Z := 30.
Definition Keccak256WordGas : Z := 6.
Definition SstoreSetGas : Z := 20000.
Definition SstoreResetGas : Z := 5000.
Definition SstoreClearGas : Z := 5000.
Definition SstoreRefundGas : Z := 15000.
Definition NetSstoreNoopGas : Z := 200.
Definition NetSstoreInitGas : Z := 20000.
Definition NetSstoreCleanGas : Z := 5000.
Definition NetSstoreDirtyGas : Z := 200.
Definition NetSstoreClearRefund : Z := 15000.
Definition NetSstoreResetRefund : Z := 4800.
Definition NetSstoreResetClearRefund : Z := 19800.
Definition SstoreSentryGasEIP2200 : Z := 2300.
Definition SstoreSetGasEIP2200 : Z := 20000.
Definition SstoreResetGasEIP2200 : Z := 5000.
Definition SstoreClearsScheduleRefundEIP2200 : Z := 15000.
Definition ColdAccountAccessCostEIP2929 : Z := 2600.
Definition ColdSloadCostEIP2929 : Z := 2100.
Definition WarmStorageReadCostEIP2929 : Z := 100.
Definition SstoreClearsScheduleRefundEIP3529 : Z := SstoreResetGasEIP2200 - ColdSloadCostEIP2929 + TxAccessListStorageKeyGas.
Definition JumpdestGas : Z := 1.
Definition ExpGas : Z := 10.
Definition LogGas : Z := 375.
Definition CopyGas : Z := 3.
Definition StackLimit : Z := 1024.
Definition LogTopicGas : Z := 375.
Definition CreateGas : Z := 32000.
Definition Create2Gas : Z := 32000.
Definition SelfdestructRefundGas : Z := 24000.
Definition MemoryGas : Z := 3.
Definition CallGasFrontier : Z := 40.
Definition CallGasEIP150 : Z := 700.
Definition BalanceGasFrontier : Z := 20.
Definition BalanceGasEIP150 : Z := 400.
Definition BalanceGasEIP1884 : Z := 700.
Definition ExtcodeSizeGasFrontier : Z := 20.
Definition ExtcodeSizeGasEIP150 : Z := 700.
Definition SloadGasFrontier : Z := 50.
Definition SloadGasEIP150 : Z := 200.
Definition SloadGasEIP1884 : Z := 800.
Definition SloadGasEIP2200 : Z := 800.
Definition ExtcodeHashGasConstantinople : Z := 400.
Definition ExtcodeHashGasEIP1884 : Z := 700.
Definition SelfdestructGasEIP150 : Z := 5000.
Definition ExpByteFrontier : Z := 10.
Definition ExpByteEIP158 : Z := 50.
Definition ExtcodeCopyBaseFrontier : Z := 20.
Definition ExtcodeCopyBaseEIP150 : Z := 700.
Definition CreateBySelfdestructGas : Z := 25000.
Definition GasQuickStep : Z := 2.
Definition GasFastestStep : Z := 3.
Definition GasFastStep : Z := 5.
Definition GasMidStep : Z := 8.
Definition GasSlowStep : Z := 10.
Definition GasExtStep : Z := 20.

(** ** Arithmetic and slices *)

(** The result and whether it overflowed. *)
Definition SafeAdd (x y : Z) : Z * bool := (u64 (x + y), 2 ^ 64 <=? x + y).
Definition SafeMul (x y : Z) : Z * bool := (u64 (x * y), 2 ^ 64 <=? x * y).

Definition vm_toWordSize (size : Z) : Z := if MaxUint64 - 31 <? size then MaxUint64 / 32 + 1 else (size + 31) / 32.

Definition RightPadBytes (slice : bytes) (l : Z) : bytes :=
  if l <=? zlen slice then slice else slice ++ replicate (Z.to_nat (l - zlen slice)) (z2b 0).

(** [len] is an [int]; no slice of Go is longer than that. *)
Definition go_len (b : bytes) : Z := Z.min (zlen b) (2 ^ 63 - 1).

Definition getData {E} (data : bytes) (start size : Z) : outcome E bytes :=
  let length := go_len data in
  let start := if length <? start then length else start in
  let end_ := u64 (start + size) in
  let end_ := if length <? end_ then length else end_ in
  d ← slice data start end_;
  Ok (RightPadBytes d (i64 size)).

(** ** Memory *)

Record Memory := mkMemory { store : bytes; lastGasCost : Z }.
Definition NewMemory : Memory := mkMemory [] 0.
Definition mem_Len (m : Memory) : Z := zlen (store m).

(** [copy] of [value] over [size] bytes from [offset], which are there. *)
Definition overwrite (offset size : Z) (value b : bytes) : bytes :=
  let v := take (Z.to_nat size) value in take (Z.to_nat offset) b ++ v ++ drop (Z.to_nat offset + length v) b.

Definition mem_Set {E} (offset size : Z) (value : bytes) (m : Memory) : outcome E Memory :=
  if 0 <? size then
    if zlen (store m) <? u64 (offset + size) then Panic else
    _ ← slice (store m) offset (u64 (offset + size));
    Ok (mkMemory (overwrite offset size value (store m)) (lastGasCost m))
  else Ok m.

Definition mem_Set32 {E} `{!Uint256} (offset val : Z) (m : Memory) : outcome E Memory :=
  if zlen (store m) <? u64 (offset + 32) then Panic else
  _ ← slice (store m) offset (zlen (store m));
  Ok (mkMemory (overwrite offset (zlen (store m) - offset) (u_Bytes32 val) (store m)) (lastGasCost m)).

Definition mem_Resize (size : Z) (m : Memory) : Memory :=
  if mem_Len m <? size then mkMemory (store m ++ replicate (Z.to_nat (size - mem_Len m)) (z2b 0)) (lastGasCost m) else m.

(** [GetCopy] and [GetPtr] take signed numbers; beyond the length of the store
    Go would look at the capacity, here it panics. *)
Definition mem_GetPtr {E} (offset size : Z) (m : Memory) : outcome E bytes :=
  if size =? 0 then Ok [] else
  if offset <? zlen (store m) then slice (store m) offset (offset + size) else Ok [].
Definition mem_GetCopy {E} (offset size : Z) (m : Memory) : outcome E bytes :=
  if size =? 0 then Ok [] else
  if offset <? zlen (store m) then
    if size <? 0 then Panic else d ← slice (store m) offset (offset + size); Ok (take (Z.to_nat size) d)
  else Ok [].

(** ** The running program *)

Section Machine.
Context {T S : Type} `{Trie : !Tries T S} `{W : !Uint256} (keccak : bytes → Z).

(** [pc], [ScopeContext], the interpreter's return data, the EVM's
    [callGasTemp] and the state database.  Return data and [callGasTemp] belong
    to the interpreter, but a program only reads what itself wrote there: they
    are set after each call and before it. *)
Record machine := mkMachine {
  m_pc : Z;
  m_stack : list Z;
  m_memory : Memory;
  m_contract : Contract;
  m_input : bytes;
  m_returnData : bytes;
  m_callGasTemp : Z;
  m_db : stateDB T S
}.
Definition set_pc (v : Z) (m : machine) : machine := mkMachine v (m_stack m) (m_memory m) (m_contract m) (m_input m) (m_returnData m) (m_callGasTemp m) (m_db m).
Definition set_stack (v : list Z) (m : machine) : machine := mkMachine (m_pc m) v (m_memory m) (m_contract m) (m_input m) (m_returnData m) (m_callGasTemp m) (m_db m).
Definition set_memory (v : Memory) (m : machine) : machine := mkMachine (m_pc m) (m_stack m) v (m_contract m) (m_input m) (m_returnData m) (m_callGasTemp m) (m_db m).
Definition set_contract (v : Contract) (m : machine) : machine := mkMachine (m_pc m) (m_stack m) (m_memory m) v (m_input m) (m_returnData m) (m_callGasTemp m) (m_db m).
Definition set_returnData (v : bytes) (m : machine) : machine := mkMachine (m_pc m) (m_stack m) (m_memory m) (m_contract m) (m_input m) v (m_callGasTemp m) (m_db m).
Definition set_callGasTemp (v : Z) (m : machine) : machine := mkMachine (m_pc m) (m_stack m) (m_memory m) (m_contract m) (m_input m) (m_returnData m) v (m_db m).
Definition set_db (v : stateDB T S) (m : machine) : machine := mkMachine (m_pc m) (m_stack m) (m_memory m) (m_contract m) (m_input m) (m_returnData m) (m_callGasTemp m) v.
Definition set_gas (v : Z) (m : machine) : machine :=
  let c := m_contract m in set_contract (mkContract (CallerAddress c) (c_self c) (c_Code c) (c_CodeHash c) (c_CodeAddr c) v (c_value c)) m.
Definition m_gas (m : machine) : Z := c_Gas (m_contract m).

Definition self (m : machine) : Z := c_self (m_contract m).

(** *** Steps on it *)

Definition gets_m {E A} (f : machine → A) : stm machine E A := fun m => (Ok (f m), m).
Definition mod_m {E} (f : machine → machine) : stm machine E unit := fun m => (Ok tt, f m).
Definition raise {E A} (e : E) : stm machine E A := fun m => (Err e, m).
Definition on_db {E A} (f : stateDB T S → A * stateDB T S) : stm machine E A := fun m => let '(a, s) := f (m_db m) in (Ok a, set_db s m).
Definition put_db {E} (f : stateDB T S → stateDB T S) : stm machine E unit := fun m => (Ok tt, set_db (f (m_db m)) m).
(** An operation of the state database that may panic. *)
Definition try_db {E} (f : stateDB T S → outcome Empty_set (stateDB T S)) : stm machine E unit := fun m =>
  match never (f (m_db m)) with Ok s => (Ok tt, set_db s m) | Err e => (Err e, m) | Panic => (Panic, m) end.
Definition need {E A} (o : option A) : stm machine E A := pure_out (deref o).
Definition when {E} (b : bool) (i : stm machine E unit) : stm machine E unit := if b then i else mret tt.

Definition pop {E} : stm machine E Z := fun m => match m_stack m with [] => (Panic, m) | x :: r => (Ok x, set_stack r m) end.
Definition push {E} (x : Z) : stm machine E unit := mod_m (fun m => set_stack (x :: m_stack m) m).
Definition Back {E} (n : nat) : stm machine E Z := fun m => match m_stack m !! n with Some x => (Ok x, m) | None => (Panic, m) end.
Definition peek {E} : stm machine E Z := Back 0.
(** Writing to the word [peek] points to. *)
Definition set_top {E} (x : Z) : stm machine E unit := fun m => match m_stack m with [] => (Panic, m) | _ :: r => (Ok tt, set_stack (x :: r) m) end.
Definition dup {E} (n : nat) : stm machine E unit := x ← Back (n - 1); push x.
Definition swap {E} (n : nat) : stm machine E unit := fun m =>
  match m_stack m !! 0%nat, m_stack m !! (n - 1)%nat with
  | Some x, Some y => (Ok tt, set_stack (<[0%nat := y]> (<[(n - 1)%nat := x]> (m_stack m))) m)
  | _, _ => (Panic, m)
  end.

(** An address and a hash on the stack. *)
Definition toAddress (x : Z) : Z := be_value (u_Bytes20 x).
Definition toHash (x : Z) : Z := be_value (u_Bytes32 x).

(** ** Gas *)

Definition gasM := stm machine vmError.
Definition safe_add (x y : Z) : gasM Z := let '(r, overflow) := SafeAdd x y in if overflow : bool then raise ErrGasUintOverflow else mret r.
Definition safe_mul (x y : Z) : gasM Z := let '(r, overflow) := SafeMul x y in if overflow : bool then raise ErrGasUintOverflow else mret r.
(** A word as a number, or the error of gas arithmetic. *)
Definition word64 (x : Z) : gasM Z := let '(r, overflow) := u_Uint64WithOverflow x in if overflow : bool then raise ErrGasUintOverflow else mret r.

Definition callGas (isEip150 : bool) (availableGas base callCost : Z) : outcome vmError Z :=
  let gas := let a := u64 (availableGas - base) in u64 (a - a / 64) in
  if isEip150 && (negb (u_IsUint64 callCost) || (gas <? u_Uint64 callCost)) then Ok gas
  else if negb (u_IsUint64 callCost) then Err ErrGasUintOverflow
  else Ok (u_Uint64 callCost).

Definition memoryGasCost (newMemSize : Z) : gasM Z :=
  if newMemSize =? 0 then mret 0 else
  if 0x1FFFFFFFE0 <? newMemSize then raise ErrGasUintOverflow else
  let newMemSizeWords := vm_toWordSize newMemSize in
  let newMemSize := u64 (newMemSizeWords * 32) in
  mem ← gets_m m_memory;
  if mem_Len mem <? newMemSize then
    let square := u64 (newMemSizeWords * newMemSizeWords) in
    let linCoef := u64 (newMemSizeWords * MemoryGas) in
    let quadCoef := square / QuadCoeffDiv in
    let newTotalFee := u64 (linCoef + quadCoef) in
    let fee := u64 (newTotalFee - lastGasCost mem) in
    _ ← mod_m (set_memory (mkMemory (store mem) newTotalFee));
    mret fee
  else mret 0.

Definition memoryCopierGas (stackpos : nat) (memorySize : Z) : gasM Z :=
  gas ← memoryGasCost memorySize;
  x ← Back stackpos;
  words ← word64 x;
  words ← safe_mul (vm_toWordSize words) CopyGas;
  safe_add gas words.

Context (rules : RulesT).

(** *** Storage *)

(** The refunds of EIP-1283 and EIP-2200 for a slot that was written before. *)
Definition dirty_refund (original current value clear reset_zero reset_value : Z) : gasM unit :=
  _ ← when (negb (original =? 0))
        (if current =? 0 then try_db (SubRefund clear)
         else when (value =? 0) (put_db (AddRefund clear)));
  when (original =? value)
    (if original =? 0 then put_db (AddRefund reset_zero) else put_db (AddRefund reset_value)).

Definition gasSStore (memorySize : Z) : gasM Z :=
  y ← Back 1; x ← Back 0;
  a ← gets_m self;
  current ← on_db (GetState keccak a (toHash x));
  if r_IsPetersburg rules || negb (r_IsConstantinople rules) then
    if (current =? 0) && negb (u_Sign y =? 0) then mret SstoreSetGas
    else if negb (current =? 0) && (u_Sign y =? 0) then _ ← put_db (AddRefund SstoreRefundGas); mret SstoreClearGas
    else mret SstoreResetGas
  else
  let value := toHash y in
  if current =? value then mret NetSstoreNoopGas else
  original ← on_db (GetCommittedState keccak a (toHash x));
  if original =? current then
    if original =? 0 then mret NetSstoreInitGas else
    _ ← when (value =? 0) (put_db (AddRefund NetSstoreClearRefund));
    mret NetSstoreCleanGas
  else
  _ ← dirty_refund original current value NetSstoreClearRefund NetSstoreResetClearRefund NetSstoreResetRefund;
  mret NetSstoreDirtyGas.

Definition gasSStoreEIP2200 (memorySize : Z) : gasM Z :=
  gas ← gets_m m_gas;
  if gas <=? SstoreSentryGasEIP2200 then raise errReentrancySentry else
  y ← Back 1; x ← Back 0;
  a ← gets_m self;
  current ← on_db (GetState keccak a (toHash x));
  let value := toHash y in
  if current =? value then mret SloadGasEIP2200 else
  original ← on_db (GetCommittedState keccak a (toHash x));
  if original =? current then
    if original =? 0 then mret SstoreSetGasEIP2200 else
    _ ← when (value =? 0) (put_db (AddRefund SstoreClearsScheduleRefundEIP2200));
    mret SstoreResetGasEIP2200
  else
  _ ← dirty_refund original current value SstoreClearsScheduleRefundEIP2200 (SstoreSetGasEIP2200 - SloadGasEIP2200)
        (SstoreResetGasEIP2200 - SloadGasEIP2200);
  mret SloadGasEIP2200.

(** From Berlin on; the address of the running contract is on the access list,
    the code panics otherwise. *)
Definition makeGasSStoreFunc (clearingRefund : Z) (memorySize : Z) : gasM Z :=
  gas ← gets_m m_gas;
  if gas <=? SstoreSentryGasEIP2200 then raise errReentrancySentry else
  y ← Back 1; x ← peek;
  let slot := toHash x in
  a ← gets_m self;
  current ← on_db (GetState keccak a slot);
  s ← gets_m m_db;
  '(addrPresent, slotPresent) ← pure_out (never (SlotInAccessList a slot s));
  cost ← (if negb slotPresent then
            _ ← try_db (AddSlotToAccessList a slot);
            if negb addrPresent then pure_out Panic else mret ColdSloadCostEIP2929
          else mret 0);
  let value := toHash y in
  if current =? value then mret (u64 (cost + WarmStorageReadCostEIP2929)) else
  original ← on_db (GetCommittedState keccak a (toHash x));
  if original =? current then
    if original =? 0 then mret (u64 (cost + SstoreSetGasEIP2200)) else
    _ ← when (value =? 0) (put_db (AddRefund clearingRefund));
    mret (u64 (cost + (SstoreResetGasEIP2200 - ColdSloadCostEIP2929)))
  else
  _ ← dirty_refund original current value clearingRefund (SstoreSetGasEIP2200 - WarmStorageReadCostEIP2929)
        (SstoreResetGasEIP2200 - ColdSloadCostEIP2929 - WarmStorageReadCostEIP2929);
  mret (u64 (cost + WarmStorageReadCostEIP2929)).
Definition gasSStoreEIP2929 : Z → gasM Z := makeGasSStoreFunc SstoreClearsScheduleRefundEIP2200.
Definition gasSStoreEIP3529 : Z → gasM Z := makeGasSStoreFunc SstoreClearsScheduleRefundEIP3529.

Definition gasSLoadEIP2929 (memorySize : Z) : gasM Z :=
  x ← peek;
  let slot := toHash x in
  a ← gets_m self;
  s ← gets_m m_db;
  '(_, slotPresent) ← pure_out (never (SlotInAccessList a slot s));
  if negb slotPresent then _ ← try_db (AddSlotToAccessList a slot); mret ColdSloadCostEIP2929
  else mret WarmStorageReadCostEIP2929.

(** *** Logs, hashing, creation, exponentiation *)

Definition makeGasLog (n memorySize : Z) : gasM Z :=
  x ← Back 1;
  requestedSize ← word64 x;
  gas ← memoryGasCost memorySize;
  gas ← safe_add gas LogGas;
  gas ← safe_add gas (u64 (n * LogTopicGas));
  memorySizeGas ← safe_mul requestedSize LogDataGas;
  safe_add gas memorySizeGas.

Definition gasKeccak256 (memorySize : Z) : gasM Z :=
  gas ← memoryGasCost memorySize;
  x ← Back 1;
  wordGas ← word64 x;
  wordGas ← safe_mul (vm_toWordSize wordGas) Keccak256WordGas;
  safe_add gas wordGas.

Definition pureMemoryGascost (memorySize : Z) : gasM Z := memoryGasCost memorySize.

Definition gasCreate2 (memorySize : Z) : gasM Z :=
  gas ← memoryGasCost memorySize;
  x ← Back 2;
  wordGas ← word64 x;
  wordGas ← safe_mul (vm_toWordSize wordGas) Keccak256WordGas;
  safe_add gas wordGas.

Definition gasCreateEip3860 (memorySize : Z) : gasM Z :=
  gas ← memoryGasCost memorySize;
  x ← Back 2;
  let '(size, overflow) := u_Uint64WithOverflow x in
  if overflow || (MaxInitCodeSize <? size) then raise ErrGasUintOverflow else
  let moreGas := u64 (InitCodeWordGas * (u64 (size + 31) / 32)) in
  safe_add gas moreGas.
Definition gasCreate2Eip3860 (memorySize : Z) : gasM Z :=
  gas ← memoryGasCost memorySize;
  x ← Back 2;
  let '(size, overflow) := u_Uint64WithOverflow x in
  if overflow || (MaxInitCodeSize <? size) then raise ErrGasUintOverflow else
  let moreGas := u64 ((InitCodeWordGas + Keccak256WordGas) * (u64 (size + 31) / 32)) in
  safe_add gas moreGas.

(** The exponent is the second word of the stack. *)
Definition gas_exp (byteGas : Z) : gasM Z :=
  x ← Back 1;
  let expByteLen := (u_BitLen x + 7) / 8 in
  safe_add (u64 (expByteLen * byteGas)) ExpGas.
Definition gasExpFrontier (memorySize : Z) : gasM Z := gas_exp ExpByteFrontier.
Definition gasExpEIP158 (memorySize : Z) : gasM Z := gas_exp ExpByteEIP158.

(** *** Calls *)

(** The gas for the callee goes to [callGasTemp] and is part of the cost. *)
Definition charge_callee (gas : Z) : gasM Z :=
  available ← gets_m m_gas;
  x ← Back 0;
  t ← pure_out (callGas (r_IsEIP150 rules) available gas x);
  _ ← mod_m (set_callGasTemp t);
  safe_add gas t.

Definition gasCall (memorySize : Z) : gasM Z :=
  v ← Back 2;
  let transfersValue := negb (u_IsZero v) in
  x ← Back 1;
  let address := toAddress x in
  fresh ← (if r_IsEIP158 rules then
             (if transfersValue then on_db (Empty keccak address) else mret false)
           else e ← on_db (Exist keccak address); mret (negb e));
  let gas := if fresh : bool then CallNewAccountGas else 0 in
  let gas := if transfersValue then u64 (gas + CallValueTransferGas) else gas in
  memoryGas ← memoryGasCost memorySize;
  gas ← safe_add gas memoryGas;
  charge_callee gas.
Definition gasCallCode (memorySize : Z) : gasM Z :=
  memoryGas ← memoryGasCost memorySize;
  v ← Back 2;
  let gas := if negb (u_Sign v =? 0) then CallValueTransferGas else 0 in
  gas ← safe_add gas memoryGas;
  charge_callee gas.
Definition gasDelegateCall (memorySize : Z) : gasM Z :=
  gas ← memoryGasCost memorySize;
  charge_callee gas.
Definition gasStaticCall (memorySize : Z) : gasM Z :=
  gas ← memoryGasCost memorySize;
  charge_callee gas.

Definition makeCallVariantGasCallEIP2929 (oldCalculator : Z → gasM Z) (memorySize : Z) : gasM Z :=
  x ← Back 1;
  let addr := toAddress x in
  warmAccess ← gets_m (fun m => AddressInAccessList addr (m_db m));
  let coldCost := ColdAccountAccessCostEIP2929 - WarmStorageReadCostEIP2929 in
  _ ← when (negb warmAccess)
        (_ ← put_db (AddAddressToAccessList addr);
         have ← gets_m m_gas;
         if have <? coldCost then raise ErrOutOfGas else mod_m (set_gas (have - coldCost)));
  gas ← oldCalculator memorySize;
  if warmAccess : bool then mret gas else
  _ ← mod_m (fun m => set_gas (u64 (m_gas m + coldCost)) m);
  mret (u64 (gas + coldCost)).
Definition gasCallEIP2929 : Z → gasM Z := makeCallVariantGasCallEIP2929 gasCall.
Definition gasDelegateCallEIP2929 : Z → gasM Z := makeCallVariantGasCallEIP2929 gasDelegateCall.
Definition gasStaticCallEIP2929 : Z → gasM Z := makeCallVariantGasCallEIP2929 gasStaticCall.
Definition gasCallCodeEIP2929 : Z → gasM Z := makeCallVariantGasCallEIP2929 gasCallCode.

(** *** Accounts *)

Definition gasEip2929AccountCheck (memorySize : Z) : gasM Z :=
  x ← peek;
  let addr := toAddress x in
  warmAccess ← gets_m (fun m => AddressInAccessList addr (m_db m));
  if negb warmAccess then
    _ ← put_db (AddAddressToAccessList addr);
    mret (ColdAccountAccessCostEIP2929 - WarmStorageReadCostEIP2929)
  else mret 0.

Definition gasExtCodeCopyEIP2929 (memorySize : Z) : gasM Z :=
  gas ← memoryCopierGas 3 memorySize;
  x ← peek;
  let addr := toAddress x in
  warmAccess ← gets_m (fun m => AddressInAccessList addr (m_db m));
  if negb warmAccess then
    _ ← put_db (AddAddressToAccessList addr);
    safe_add gas (ColdAccountAccessCostEIP2929 - WarmStorageReadCostEIP2929)
  else mret gas.

Definition gasSelfdestruct (memorySize : Z) : gasM Z :=
  a ← gets_m self;
  gas ← (if r_IsEIP150 rules then
           x ← Back 0;
           let address := toAddress x in
           if r_IsEIP158 rules then
             empty ← on_db (Empty keccak address);
             balance ← (if empty : bool then on_db (GetBalance keccak a) else mret 0);
             mret (if empty && negb (balance =? 0) then u64 (SelfdestructGasEIP150 + CreateBySelfdestructGas) else SelfdestructGasEIP150)
           else
             e ← on_db (Exist keccak address);
             mret (if negb e then u64 (SelfdestructGasEIP150 + CreateBySelfdestructGas) else SelfdestructGasEIP150)
         else mret 0);
  dead ← on_db (HasSuicided keccak a);
  _ ← when (negb dead) (put_db (AddRefund SelfdestructRefundGas));
  mret gas.

Definition makeSelfdestructGasFn (refundsEnabled : bool) (memorySize : Z) : gasM Z :=
  a ← gets_m self;
  x ← peek;
  let address := toAddress x in
  warmAccess ← gets_m (fun m => AddressInAccessList address (m_db m));
  gas ← (if negb warmAccess then _ ← put_db (AddAddressToAccessList address); mret ColdAccountAccessCostEIP2929 else mret 0);
  empty ← on_db (Empty keccak address);
  balance ← (if empty : bool then on_db (GetBalance keccak a) else mret 0);
  let gas := if empty && negb (balance =? 0) then u64 (gas + CreateBySelfdestructGas) else gas in
  dead ← (if refundsEnabled then on_db (HasSuicided keccak a) else mret true);
  _ ← when (refundsEnabled && negb dead) (put_db (AddRefund SelfdestructRefundGas));
  mret gas.
Definition gasSelfdestructEIP2929 : Z → gasM Z := makeSelfdestructGasFn true.
Definition gasSelfdestructEIP3529 : Z → gasM Z := makeSelfdestructGasFn false.

(** ** Memory sizes *)

Definition calcMemSize64WithUint (off length64 : Z) : Z * bool :=
  if length64 =? 0 then (0, false) else
  let '(offset64, overflow) := u_Uint64WithOverflow off in
  if overflow : bool then (0, true) else
  let val := u64 (offset64 + length64) in (val, val <? offset64).
Definition calcMemSize64 (off l : Z) : Z * bool := if negb (u_IsUint64 l) then (0, true) else calcMemSize64WithUint off (u_Uint64 l).

(** The memory from one word of the stack for the length another tells. *)
Definition memory_at {E} (off len : nat) : stm machine E (Z * bool) := x ← Back off; l ← Back len; mret (calcMemSize64 x l).
Definition memoryKeccak256 {E} : stm machine E (Z * bool) := memory_at 0 1.
Definition memoryCallDataCopy {E} : stm machine E (Z * bool) := memory_at 0 2.
Definition memoryReturnDataCopy {E} : stm machine E (Z * bool) := memory_at 0 2.
Definition memoryCodeCopy {E} : stm machine E (Z * bool) := memory_at 0 2.
Definition memoryExtCodeCopy {E} : stm machine E (Z * bool) := memory_at 1 3.
Definition memoryMLoad {E} : stm machine E (Z * bool) := x ← Back 0; mret (calcMemSize64WithUint x 32).
Definition memoryMStore8 {E} : stm machine E (Z * bool) := x ← Back 0; mret (calcMemSize64WithUint x 1).
Definition memoryMStore {E} : stm machine E (Z * bool) := x ← Back 0; mret (calcMemSize64WithUint x 32).
Definition memoryCreate {E} : stm machine E (Z * bool) := memory_at 1 2.
Definition memoryCreate2 {E} : stm machine E (Z * bool) := memory_at 1 2.
(** The larger of input and output. *)
Definition memory_both {E} (ret_off ret_len in_off in_len : nat) : stm machine E (Z * bool) :=
  '(x, overflow) ← memory_at ret_off ret_len;
  if overflow : bool then mret (0, true) else
  '(y, overflow) ← memory_at in_off in_len;
  if overflow : bool then mret (0, true) else
  mret (if y <? x then x else y, false).
Definition memoryCall {E} : stm machine E (Z * bool) := memory_both 5 6 3 4.
Definition memoryDelegateCall {E} : stm machine E (Z * bool) := memory_both 4 5 2 3.
Definition memoryStaticCall {E} : stm machine E (Z * bool) := memory_both 4 5 2 3.
Definition memoryReturn {E} : stm machine E (Z * bool) := memory_at 0 1.
Definition memoryRevert {E} : stm machine E (Z * bool) := memory_at 0 1.
Definition memoryLog {E} : stm machine E (Z * bool) := memory_at 0 1.
End Machine.
Arguments machine : clear implicits.
