(* ===== verification/VmSafe.v ===== *)
(** What the interpreter keeps: the invariant of a running program, and how the
    gas and memory-size functions of [Vm.v] behave under it.  None of them
    panics, an error changes no more than the journal can undo, and what they
    charge is at least what memory and refunds cost. *)

From S2P Require Import Prelude RLP Types Receipts Config Transactions StateTransition State StateJournal StateEffects Evm Jumpdest Vm.

(** ** Weakest preconditions *)

Lemma wp_gets {T S E A} (f : machine T S → A) m Q (QE : E → machine T S → Prop) : Q (f m) m → wp (gets_m f) Q QE m.
Proof. done. Qed.
Lemma wp_mod {T S E} f m (Q : unit → machine T S → Prop) (QE : E → machine T S → Prop) : Q tt (f m) → wp (mod_m f) Q QE m.
Proof. done. Qed.
Lemma wp_put {T S E} f m (Q : unit → machine T S → Prop) (QE : E → machine T S → Prop) : Q tt (set_db (f (m_db m)) m) → wp (put_db f) Q QE m.
Proof. done. Qed.

(** Goes through the binds of a program. *)
Ltac wp_step := first
  [ match goal with |- wp (_ ≫= _) _ _ _ => apply wp_bind end
  | match goal with |- wp (mret _) _ _ _ => apply wp_ret end
  | match goal with |- wp (if ?b then _ else _) _ _ _ => destruct b eqn:?; zbool end
  | match goal with |- wp (when ?b _) _ _ _ => unfold when; destruct b eqn:?; zbool end
  | match goal with |- wp (gets_m _) _ _ _ => apply wp_gets end
  | match goal with |- wp (mod_m _) _ _ _ => apply wp_mod end
  | match goal with |- wp (put_db _) _ _ _ => apply wp_put end ].

(** ** The invariant *)

Section Invariant.
Context {T S : Type} `{Trie : !Tries T S} `{W : !Uint256} `{WL : !Uint256Laws} (keccak : bytes → Z).
Context (rules : RulesT) (R : Z).
#[local] Abbreviation machine := (machine T S).
Implicit Types (m : machine).

(** The price of [w] words of memory. *)
Definition memory_price (w : Z) : Z := w * MemoryGas + w * w / QuadCoeffDiv.
Definition max_words : Z := 0xFFFFFFFF.
(** Memory has whole words, and they are paid for. *)
Definition mem_ok (mem : Memory) : Prop := ∃ w, 0 ≤ w ≤ max_words ∧ zlen (store mem) = 32 * w ∧ lastGasCost mem = memory_price w.
(** The memory has [len] bytes from [off]. *)
Definition holds (mem : Memory) (r : Z * Z) : Prop := r.2 = 0 ∨ r.1 + r.2 ≤ zlen (store mem).

Record machine_ok m : Prop := {
  k_state : state_ok keccak R (m_db m) (m_gas m);
  k_self : is_Some (alive keccak (m_db m) (self m));
  k_warm : warm rules (m_db m) (self m);
  k_value : is_Some (c_value (m_contract m));
  k_words : Forall is_word (m_stack m);
  k_depth : zlen (m_stack m) ≤ StackLimit;
  k_mem : mem_ok (m_memory m);
  k_pc : is_u64 (m_pc m)
}.

Lemma gas_u64 m : machine_ok m → is_u64 (m_gas m).
Proof.
  intros [[_ Hc Hg Hr] _ _ _ _ _ _ _]. pose proof (covers_nonneg _ _ _ Hc). unfold rate, slack in Hr. split; lia.
Qed.

Lemma price_mono v w : 0 ≤ v ≤ w → memory_price v ≤ memory_price w.
Proof. intros H. unfold memory_price, MemoryGas, QuadCoeffDiv. assert (v * v / 512 ≤ w * w / 512) by (apply Z.div_le_mono; nia). lia. Qed.
Lemma price_bounds w : 0 ≤ w ≤ max_words → 0 ≤ memory_price w ≤ 2 ^ 56.
Proof.
  unfold max_words. intros H. assert (w * w ≤ 0xFFFFFFFF * 0xFFFFFFFF) by nia. unfold memory_price, MemoryGas, QuadCoeffDiv.
  assert (w * w / 512 ≤ 0xFFFFFFFF * 0xFFFFFFFF / 512) as Hd by (apply Z.div_le_mono; lia). change (0xFFFFFFFF * 0xFFFFFFFF / 512) with 36028797002186752 in Hd.
  assert (0 ≤ w * w / 512) by (apply Z.div_pos; nia). lia.
Qed.

Lemma mem_ok_new : mem_ok NewMemory.
Proof. exists 0. by unfold max_words. Qed.
Lemma mem_bound mem : mem_ok mem → 0 ≤ zlen (store mem) ≤ 0x1FFFFFFFE0.
Proof. intros (w & Hw & -> & _). unfold max_words in Hw. lia. Qed.

Lemma toWordSize_exact size : is_u64 size → vm_toWordSize size = (size + 31) / 32.
Proof. unfold vm_toWordSize, is_u64, MaxUint64. intros H. case_if; [|done]. change ((2 ^ 64 - 1) / 32 + 1) with (2 ^ 59). apply Z.div_unique with (size + 31 - 32 * 2 ^ 59); lia. Qed.

(** The fee is what the price of memory grows by, and the memory can be grown. *)
Lemma memoryGasCost_ok m ms Q QE : mem_ok (m_memory m) → is_u64 ms → (32 | ms) →
  (∀ fee mem, 0 ≤ fee ≤ 2 ^ 56 → mem_ok (mem_Resize ms mem) → ms ≤ zlen (store (mem_Resize ms mem)) → store mem = store (m_memory m) →
     lastGasCost mem = lastGasCost (m_memory m) + fee → Q fee (set_memory mem m)) →
  (∀ e, QE e m) → wp (memoryGasCost ms) Q QE m.
Proof.
  intros (w & Hw & El & Ep) Hms [v Ev] HQ HE. assert (Hm : set_memory (m_memory m) m = m) by (by destruct m).
  assert (Hsame : ms ≤ 32 * w → Q 0 m).
  { intros Hle. rewrite <- Hm. assert (Er : mem_Resize ms (m_memory m) = m_memory m) by (unfold mem_Resize, mem_Len; by rewrite El, (proj2 (Z.ltb_ge _ _)) by lia).
    apply HQ; rewrite ?Er; [lia|by exists w|lia|done|lia]. }
  unfold memoryGasCost. wp_step; [apply Hsame; lia|]. wp_step; [apply HE|]. unfold max_words in Hw. unfold is_u64 in Hms.
  rewrite toWordSize_exact by done. replace ((ms + 31) / 32) with v by (apply Z.div_unique with 31; lia).
  rewrite (u64_small (v * 32)) by (unfold is_u64; lia). do 2 wp_step. unfold mem_Len. rewrite El. wp_step; [|apply Hsame; lia].
  assert (Hv : 0 ≤ v ≤ max_words) by (unfold max_words; lia). pose proof (price_bounds v Hv) as Hb.
  assert (Hsq : 0 ≤ v * v < 2 ^ 64) by (unfold max_words in Hv; nia). assert (Hv' : 0 ≤ v ≤ 0xFFFFFFFF) by done.
  rewrite (u64_small (v * v)), (u64_small (v * MemoryGas)) by (unfold is_u64, MemoryGas; lia). change (v * MemoryGas + v * v / QuadCoeffDiv) with (memory_price v).
  rewrite (u64_small (memory_price v)) by (unfold is_u64; lia). pose proof (price_mono w v ltac:(lia)) as Hp. pose proof (price_bounds w Hw) as Hbw.
  rewrite Ep, (u64_small (memory_price v - memory_price w)) by (unfold is_u64; lia). do 2 wp_step.
  assert (Hr : zlen (store (mem_Resize ms (mkMemory (store (m_memory m)) (memory_price v)))) = ms).
  { unfold mem_Resize, mem_Len. cbn [store]. rewrite El, (proj2 (Z.ltb_lt _ _)) by lia. cbn [store]. rewrite zlen_app, El. unfold zlen. rewrite length_replicate. lia. }
  apply wp_ret, HQ; [lia|exists v|rewrite Hr; lia|done|cbn; lia].
  rewrite Hr. split; [done|]. split; [lia|]. unfold mem_Resize. by case_if.
Qed.

(** ** Reading the stack *)

Lemma wp_Back {E} n m (Q : Z → machine → Prop) (QE : E → machine → Prop) : Forall is_word (m_stack m) → Z.of_nat n < zlen (m_stack m) →
  (∀ x, m_stack m !! n = Some x → is_word x → Q x m) → wp (Back n) Q QE m.
Proof.
  intros Hw Hn HQ. destruct (lookup_lt_is_Some_2 (m_stack m) n) as [x Hx]; [unfold zlen in Hn; lia|].
  unfold wp, Back. rewrite Hx. apply HQ; [done|]. rewrite Forall_lookup in Hw. by eapply Hw.
Qed.
Lemma wp_safe_add x y m (Q : Z → machine → Prop) QE : 0 ≤ x → 0 ≤ y → (x + y < 2 ^ 64 → Q (x + y) m) → (∀ e, QE e m) → wp (safe_add x y) Q QE m.
Proof. intros Hx Hy HQ HE. unfold safe_add, SafeAdd. case_if; [apply HE|]. rewrite u64_small by (unfold is_u64; lia). by apply wp_ret, HQ. Qed.
Lemma wp_safe_mul x y m (Q : Z → machine → Prop) QE : 0 ≤ x → 0 ≤ y → (x * y < 2 ^ 64 → Q (x * y) m) → (∀ e, QE e m) → wp (safe_mul x y) Q QE m.
Proof. intros Hx Hy HQ HE. unfold safe_mul, SafeMul. case_if; [apply HE|]. rewrite u64_small by (unfold is_u64; nia). by apply wp_ret, HQ. Qed.
Lemma wp_word64 x m (Q : Z → machine → Prop) QE : is_word x → (x < 2 ^ 64 → Q x m) → (∀ e, QE e m) → wp (word64 x) Q QE m.
Proof.
  intros Hx HQ HE. unfold word64. rewrite w_Uint64WithOverflow by done. case_if; [apply HE|]. unfold is_word in Hx. rewrite Z.mod_small by lia. by apply wp_ret, HQ.
Qed.
Lemma toWordSize_range x : is_u64 x → 0 ≤ vm_toWordSize x.
Proof. intros Hx. rewrite toWordSize_exact by done. unfold is_u64 in Hx. apply Z.div_pos; lia. Qed.

(** ** Gas functions *)

Context (ro : bool).
#[local] Abbreviation dbstep := (dbstep keccak R).

Record same_run m m' : Prop := {
  sr_stack : m_stack m' = m_stack m;
  sr_contract : m_contract m' = m_contract m;
  sr_pc : m_pc m' = m_pc m
}.
(** What a gas function may do before the cost is paid. *)
Record charged_ok (ms : Z) m m' : Prop := {
  co_run : same_run m m';
  co_db : dbstep ro 0 (m_db m) (m_db m');
  co_mem : mem_ok (mem_Resize ms (m_memory m'));
  co_size : ms ≤ zlen (store (mem_Resize ms (m_memory m')))
}.
Record failed_ok m m' : Prop := { fo_ext : ext keccak (m_db m) (m_db m'); fo_gas : 0 ≤ m_gas m' ≤ m_gas m }.
Definition metered (pops : Z) (uses_memory : bool) (P : machine → Z → machine → Prop) (f : Z → gasM Z) : Prop :=
  ∀ m ms, machine_ok m → pops ≤ zlen (m_stack m) → is_u64 ms → (32 | ms) → (uses_memory = false → ms = 0) →
  wp (f ms) (fun cost m' => P m cost m' ∧ charged_ok ms m m') (fun _ m' => failed_ok m m') m.
Definition at_least (low : Z) : machine → Z → machine → Prop := fun _ cost _ => low ≤ cost.

Lemma failed_refl m : machine_ok m → failed_ok m m.
Proof. intros [[_ _ Hg _] _ _ _ _ _ _ _]. split; [done|lia]. Qed.
Lemma charged_memory m ms mem : mem_ok (mem_Resize ms mem) → ms ≤ zlen (store (mem_Resize ms mem)) → charged_ok ms m (set_memory mem m).
Proof. intros H1 H2. split; [by split|apply dbstep_refl|done|done]. Qed.
Lemma charged_db m s : mem_ok (m_memory m) → dbstep ro 0 (m_db m) s → charged_ok 0 m (set_db s m).
Proof.
  intros Hm Hs. pose proof (mem_bound _ Hm). assert (E : mem_Resize 0 (m_memory m) = m_memory m) by (unfold mem_Resize, mem_Len; by rewrite (proj2 (Z.ltb_ge _ _)) by lia).
  split; [by split|done|..]; cbn; rewrite E; [done|lia].
Qed.

(** A memory fee and then a computation that changes nothing. *)
Lemma metered_memory pops low f (g : Z → gasM Z) : 
  (∀ m mem fee, machine_ok m → pops ≤ zlen (m_stack m) → 0 ≤ fee ≤ 2 ^ 56 →
     wp (g fee) (fun cost m' => low ≤ cost ∧ m' = set_memory mem m) (fun _ m' => m' = set_memory mem m) (set_memory mem m)) →
  (∀ ms, f ms = (gas ← memoryGasCost ms; g gas)) → metered pops true (at_least low) f.
Proof.
  intros Hg Ef m ms Hm Hp Hms Hd _. rewrite Ef. apply wp_bind. apply memoryGasCost_ok; [apply Hm|done|done|..].
  - intros fee mem Hfee H1 H2 _ _. eapply wp_mono; [by apply Hg|..].
    + intros cost m' [Hc ->]. split; [done|]. by apply charged_memory.
    + intros e m' ->. split; [done|]. pose proof (gas_u64 m Hm) as Hu. unfold is_u64 in Hu. change (m_gas (set_memory mem m)) with (m_gas m). lia.
  - intros e. by apply failed_refl.
Qed.

(** *** Gas that only depends on the stack and the memory *)

Lemma metered_pure pops : metered pops true (at_least 0) pureMemoryGascost.
Proof.
  intros m ms Hm _ Hms Hd _. apply memoryGasCost_ok; [apply Hm|done|done|..]; [|intros; by apply failed_refl].
  intros fee mem Hf H1 H2 _ _. split; [unfold at_least; lia|by apply charged_memory].
Qed.

Lemma metered_words pops price n : 0 ≤ price → Z.of_nat n < pops →
  metered pops true (at_least 0) (fun ms => gas ← memoryGasCost ms; x ← Back n; words ← word64 x; words ← safe_mul (vm_toWordSize words) price; safe_add gas words).
Proof.
  intros Hp Hn. eapply metered_memory; [|done]. cbv beta. intros m mem fee Hm Hlen Hf. apply wp_bind, wp_Back; [apply Hm|cbn; lia|]. intros x _ Hx.
  apply wp_bind, wp_word64; [done| |done]. intros Hx'. assert (Hu : is_u64 x) by (unfold is_u64, is_word in *; lia). pose proof (toWordSize_range x Hu) as Ht.
  apply wp_bind, wp_safe_mul; [done|done| |done]. intros _. apply wp_safe_add; [lia|nia| |done]. intros _. split; [nia|done].
Qed.
Lemma metered_copier pops n : Z.of_nat n < pops → metered pops true (at_least 0) (memoryCopierGas n).
Proof. intros. by apply metered_words. Qed.
Lemma metered_keccak : metered 2 true (at_least 0) gasKeccak256.
Proof. by apply metered_words. Qed.
Lemma metered_create2 : metered 4 true (at_least 0) gasCreate2.
Proof. by apply metered_words. Qed.

Lemma metered_initcode price pops f : 0 ≤ price ≤ 8 → 3 ≤ pops →
  (∀ ms, f ms = (gas ← memoryGasCost ms; x ← Back 2;
     let '(size, overflow) := u_Uint64WithOverflow x in
     if overflow || (MaxInitCodeSize <? size) then raise ErrGasUintOverflow else safe_add gas (u64 (price * (u64 (size + 31) / 32))))) →
  metered pops true (at_least 0) f.
Proof.
  intros Hp Hn. apply metered_memory. cbv beta. intros m mem fee Hm Hlen Hf. apply wp_bind, wp_Back; [apply Hm|cbn; lia|]. intros x _ Hx.
  destruct (u_Uint64WithOverflow x) as [size overflow]. wp_step; [done|]. apply wp_safe_add; [lia|apply u64_range| |done].
  intros _. split; [pose proof (u64_range (price * (u64 (size + 31) / 32))) as Hu; unfold is_u64 in Hu; lia|done].
Qed.
Lemma metered_create3860 : metered 3 true (at_least 0) gasCreateEip3860.
Proof. by apply (metered_initcode InitCodeWordGas). Qed.
Lemma metered_create2_3860 : metered 4 true (at_least 0) gasCreate2Eip3860.
Proof. by apply (metered_initcode (InitCodeWordGas + Keccak256WordGas)). Qed.

Lemma metered_log n pops : 0 ≤ n ≤ 4 → 2 ≤ pops → metered pops true (at_least LogGas) (makeGasLog n).
Proof.
  intros Hn Hp m ms Hm Hlen Hms Hd _. unfold makeGasLog. apply wp_bind, wp_Back; [apply Hm|lia|]. intros x _ Hx.
  apply wp_bind, wp_word64; [done| |intros; by apply failed_refl]. intros Hx'.
  apply wp_bind, memoryGasCost_ok; [apply Hm|done|done| |intros; by apply failed_refl]. intros fee mem Hf H1 H2 _ _.
  assert (Hfail : ∀ e : vmError, (fun (_ : vmError) m' => failed_ok m m') e (set_memory mem m)) by (intros _; destruct (failed_refl m Hm); by split).
  apply wp_bind, wp_safe_add; [lia|by unfold LogGas|intros _|done]. assert (Hu := u64_range (n * LogTopicGas)). unfold is_u64 in Hu.
  apply wp_bind, wp_safe_add; [unfold LogGas; lia|lia|intros _|done].
  apply wp_bind, wp_safe_mul; [apply Hx|by unfold LogDataGas|intros _|done]. unfold is_word in Hx.
  apply wp_safe_add; [unfold LogGas; lia|unfold LogDataGas; lia|intros _|done].
  split; [unfold at_least, LogGas, LogDataGas; lia|by apply charged_memory].
Qed.

(** *** Gas without memory *)

Lemma charged_refl m : mem_ok (m_memory m) → charged_ok 0 m m.
Proof. intros Hm. destruct m. apply (charged_db (mkMachine _ _ _ _ _ _ _ _)); [done|]. apply dbstep_refl. Qed.

Lemma metered_exp price : 0 ≤ price → metered 2 false (at_least ExpGas) (fun _ => gas_exp price).
Proof.
  intros Hp m ms Hm Hlen _ _ ->; [|done]. unfold gas_exp. apply wp_bind, wp_Back; [apply Hm|lia|]. intros x _ Hx.
  set (g := u64 ((u_BitLen x + 7) / 8 * price)). pose proof (u64_range ((u_BitLen x + 7) / 8 * price)) as Hu. fold g in Hu. unfold is_u64 in Hu.
  apply wp_safe_add; [lia|by unfold ExpGas| |intros; by apply failed_refl]. intros _. split; [unfold at_least; lia|apply charged_refl, Hm].
Qed.

(** An account is put on the access list. *)
Lemma metered_account : metered 1 false (at_least 0) gasEip2929AccountCheck.
Proof.
  intros m ms Hm Hlen _ _ ->; [|done]. unfold gasEip2929AccountCheck. apply wp_bind, wp_Back; [apply Hm|lia|]. intros x _ Hx. do 2 wp_step. wp_step.
  - apply wp_bind, wp_put. apply wp_ret. split; [unfold at_least, ColdAccountAccessCostEIP2929, WarmStorageReadCostEIP2929; lia|].
    apply charged_db; [apply Hm|]. apply step_AddAddress, Hm.
  - apply wp_ret. split; [unfold at_least; lia|]. apply charged_refl, Hm.
Qed.

Lemma wp_slot {A E} a k m (f : bool → stm machine E A) Q QE : db_ok keccak (m_db m) →
  (∀ present, wp (f present) Q QE m) →
  wp (s ← gets_m m_db; '(_, present) ← pure_out (never (SlotInAccessList a k s)); f present) Q QE m.
Proof.
  intros Hok Hf. do 2 wp_step. destruct (SlotIn_total keccak a k (m_db m) Hok) as (x & y & Exy & _). apply wp_bind. eapply wp_pure_ok; [by rewrite Exy|]. cbn. apply Hf.
Qed.
Lemma wp_AddSlot {E} a k m (Q : unit → machine → Prop) (QE : E → machine → Prop) : db_ok keccak (m_db m) →
  (∀ s, dbstep ro 0 (m_db m) s → Q tt (set_db s m)) → wp (try_db (AddSlotToAccessList a k)) Q QE m.
Proof. intros Hok HQ. destruct (step_AddSlot keccak R ro a k (m_db m) Hok) as (s & Es & Hs). unfold wp, try_db. rewrite Es. by apply HQ. Qed.
Lemma machine_db m : machine_ok m → db_ok keccak (m_db m).
Proof. intros Hm. apply Hm. Qed.

Lemma metered_sload : metered 1 false (at_least WarmStorageReadCostEIP2929) gasSLoadEIP2929.
Proof.
  intros m ms Hm Hlen _ _ ->; [|done]. unfold gasSLoadEIP2929. apply wp_bind, wp_Back; [apply Hm|lia|]. intros x _ Hx. do 2 wp_step.
  apply wp_slot; [by apply machine_db|]. intros present. wp_step.
  - apply wp_bind, wp_AddSlot; [by apply machine_db|]. intros s Hs. apply wp_ret. split; [done|]. apply charged_db; [apply Hm|done].
  - apply wp_ret. split; [unfold at_least; lia|]. apply charged_refl, Hm.
Qed.

Lemma metered_extcodecopy : metered 4 true (at_least 0) gasExtCodeCopyEIP2929.
Proof.
  intros m ms Hm Hlen Hms Hd Hu. unfold gasExtCodeCopyEIP2929. apply wp_bind. eapply wp_mono; [by apply (metered_copier 4 3)| |done].
  intros cost m' [Hc Hco]. destruct Hco as [[S1 S2 S3] Hdb Hmem Hsz]. unfold at_least in Hc. rewrite <- S1 in Hlen.
  apply wp_bind, wp_Back; [rewrite S1; apply Hm|lia|]. intros x _ Hx. do 2 wp_step. wp_step.
  - apply wp_bind, wp_put. assert (H1 : dbstep ro 0 (m_db m') (AddAddressToAccessList (toAddress x) (m_db m'))) by (apply step_AddAddress, Hdb, Hm).
    assert (H2 : dbstep ro 0 (m_db m) (AddAddressToAccessList (toAddress x) (m_db m'))) by (by eapply dbstep_then).
    apply wp_safe_add; [lia|done|intros _|]; [split; [unfold at_least, ColdAccountAccessCostEIP2929, WarmStorageReadCostEIP2929; lia|by split]|].
    intros _. destruct (failed_refl m Hm) as [_ Hg]. split; [apply H2|]. unfold m_gas in *. cbn. by rewrite S2.
  - apply wp_ret. split; [unfold at_least; lia|by split].
Qed.

(** *** Calls *)

(** The gas for the callee is part of the cost, together with the price of a
    transfer; from EIP 150 on the cost is far from the end of the range. *)
Definition transfer_price (has_value : bool) m : Z :=
  if has_value then (match m_stack m !! 2%nat with Some v => if v =? 0 then 0 else CallValueTransferGas | None => 0 end) else 0.
Definition call_paid (has_value : bool) m (cost : Z) m' : Prop :=
  0 ≤ m_callGasTemp m' ∧ m_callGasTemp m' + transfer_price has_value m ≤ cost ∧ (r_IsEIP150 rules = true → cost + 2500 < 2 ^ 64).

Lemma charge_callee_ok m b Q QE : Forall is_word (m_stack m) → is_u64 (m_gas m) → 1 ≤ zlen (m_stack m) → 0 ≤ b ≤ 2 ^ 57 →
  (∀ t, 0 ≤ t → (r_IsEIP150 rules = true → b + t + 2500 < 2 ^ 64) → Q (b + t) (set_callGasTemp t m)) →
  (∀ e, QE e m) → (∀ e t, QE e (set_callGasTemp t m)) → wp (charge_callee rules b) Q QE m.
Proof.
  intros Hw Hg Hlen Hb HQ HE HE'. unfold charge_callee. do 2 wp_step. apply wp_bind, wp_Back; [done|lia|]. intros x _ Hx. apply wp_bind. unfold callGas. rewrite w_IsUint64, w_Uint64 by done.
  set (a := u64 (m_gas m - b)). assert (Ha : is_u64 a) by apply u64_range. unfold is_u64, is_word in *.
  assert (Hd : 0 ≤ a / 64 ≤ a ∧ a < 64 * (a / 64) + 64) by (pose proof (Z.div_mod a 64); pose proof (Z.mod_pos_bound a 64); assert (0 ≤ a / 64) by (apply Z.div_pos; lia); lia).
  rewrite (u64_small (a - a / 64)) by (unfold is_u64; lia).
  assert (Hgo : ∀ t, 0 ≤ t → (r_IsEIP150 rules = true → t ≤ a - a / 64) → wp (_ ← mod_m (set_callGasTemp t); safe_add b t) Q QE m).
  { intros t Ht Ht'. do 2 wp_step. apply wp_safe_add; [lia|lia| |done]. intros _. apply HQ; [done|]. intros E. specialize (Ht' E). lia. }
  destruct (r_IsEIP150 rules && _) eqn:Ec; [eapply wp_pure_ok; [done|]; apply Hgo; lia|]. destruct (negb (x <? 2 ^ 64)) eqn:Ex; [apply HE|]. zbool.
  eapply wp_pure_ok; [done|]. rewrite Z.mod_small in * by lia. apply Hgo; [lia|]. intros E. rewrite E in Ec. cbn in Ec. zbool. lia.
Qed.

Lemma wp_look {A E} (f : stateDB T S → A * stateDB T S) m (Q : A → machine → Prop) (QE : E → machine → Prop) :
  (∀ s v s', f s = (v, s') → dbstep ro 0 s s') → (∀ v s', dbstep ro 0 (m_db m) s' → Q v (set_db s' m)) → wp (on_db f) Q QE m.
Proof. intros Hf HQ. unfold wp, on_db. destruct (f (m_db m)) as [v s'] eqn:E0. apply HQ. by eapply Hf. Qed.

(** The fee for memory and the gas for the callee, when the rest costs [b]. *)
Lemma call_tail m s' b ms has_value (k : Z → gasM Z) : machine_ok m → 1 ≤ zlen (m_stack m) → is_u64 ms → (32 | ms) → dbstep ro 0 (m_db m) s' → 0 ≤ b ≤ 2 ^ 56 →
  transfer_price has_value m ≤ b →
  (∀ fee mem (Q : Z → machine → Prop) QE, 0 ≤ fee → let m1 := set_memory mem (set_db s' m) in (∀ e, QE e m1) →
     wp (charge_callee rules (b + fee)) Q QE m1 → wp (k fee) Q QE m1) →
  wp (fee ← memoryGasCost ms; k fee) (fun cost m' => call_paid has_value m cost m' ∧ charged_ok ms m m') (fun _ m' => failed_ok m m') (set_db s' m).
Proof.
  intros Hm Hlen Hms Hd Hs Hb Ht Hk. destruct (failed_refl m Hm) as [_ Hg]. apply wp_bind, memoryGasCost_ok; [apply Hm|done|done| |by intros _; split; [apply Hs|]].
  intros fee mem Hfee H1 H2 _ _. apply Hk; [lia|by intros _; split; [apply Hs|]|].
  apply charge_callee_ok; [apply Hm|by apply (gas_u64 m)|done|lia| |by intros _; split; [apply Hs|]|by intros _ t; split; [apply Hs|]].
  intros t Ht' Hr. split; [split; [done|]; split; [cbn; lia|done]|]. by split; [split|..].
Qed.

Lemma metered_call : metered 7 true (call_paid true) (gasCall keccak rules).
Proof.
  intros m ms Hm Hlen Hms Hd _. unfold gasCall. apply wp_bind, wp_Back; [apply Hm|lia|]. intros v Ev Hv. apply wp_bind, wp_Back; [apply Hm|lia|]. intros x _ Hx.
  assert (Htail : ∀ (fresh : bool) s', dbstep ro 0 (m_db m) s' →
    wp (memoryGas ← memoryGasCost ms;
        gas ← safe_add (if negb (u_IsZero v) then u64 ((if fresh then CallNewAccountGas else 0) + CallValueTransferGas) else if fresh then CallNewAccountGas else 0) memoryGas;
        charge_callee rules gas)
      (fun cost m' => call_paid true m cost m' ∧ charged_ok ms m m') (fun _ m' => failed_ok m m') (set_db s' m)).
  { intros fresh s' Hs. set (b := if negb (u_IsZero v) then _ else _).
    assert (0 ≤ b ≤ 2 ^ 56 ∧ transfer_price true m ≤ b) as [Hb Ht].
    { unfold b, transfer_price. rewrite Ev, w_IsZero by done. destruct (v =? 0), fresh; cbn; unfold CallNewAccountGas, CallValueTransferGas; rewrite ?u64_small by (unfold is_u64; lia); lia. }
    apply (call_tail m s' b); try done; [lia|]. intros fee mem Q QE Hfee m1 HE H1. apply wp_bind, wp_safe_add; [lia|lia|by intros _|done]. }
  assert (Hm0 : set_db (m_db m) m = m) by (by destruct m).
  apply wp_bind. wp_step; [wp_step|].
  - apply wp_look; [intros; by eapply step_with_object|]. intros e s' Hs. by apply Htail.
  - apply wp_ret. specialize (Htail false (m_db m) ltac:(apply dbstep_refl)). by rewrite Hm0 in Htail.
  - apply wp_bind, wp_look; [intros; by eapply step_with_object|]. intros e s' Hs. apply wp_ret. by apply Htail.
Qed.
Lemma metered_callcode : metered 7 true (call_paid true) (gasCallCode rules).
Proof.
  intros m ms Hm Hlen Hms Hd _. unfold gasCallCode. assert (Hm0 : set_db (m_db m) m = m) by (by destruct m).
  destruct (lookup_lt_is_Some_2 (m_stack m) 2) as [v Ev]; [unfold zlen in Hlen; lia|]. assert (Hv : is_word v) by (pose proof (k_words _ Hm) as Hw; rewrite Forall_lookup in Hw; by eapply Hw).
  assert (Hsg : (u_Sign v =? 0) = (v =? 0)) by (pose proof (w_Sign v Hv) as Hs; destruct (Z.eqb_spec (u_Sign v) 0), (Z.eqb_spec v 0); tauto).
  set (b := if negb (v =? 0) then CallValueTransferGas else 0). pose proof (call_tail m (m_db m) b ms true) as Ht. rewrite Hm0 in Ht.
  apply Ht; try done; [lia|apply dbstep_refl|unfold b, CallValueTransferGas; case_if; lia|unfold transfer_price, b; rewrite Ev; by destruct (v =? 0)|].
  intros fee mem Q QE Hfee m1 HE H1. apply wp_bind. unfold wp at 1, Back. cbn [m1 m_stack set_memory]. rewrite Ev. cbv zeta. rewrite Hsg. fold b.
  apply wp_bind, wp_safe_add; [unfold b, CallValueTransferGas; case_if; lia|lia|by intros _|done].
Qed.
Lemma metered_plain_call f : (∀ ms, f ms = (gas ← memoryGasCost ms; charge_callee rules gas)) → metered 6 true (call_paid false) f.
Proof.
  intros Ef m ms Hm Hlen Hms Hd _. rewrite Ef. assert (Hm0 : set_db (m_db m) m = m) by (by destruct m). pose proof (call_tail m (m_db m) 0 ms false) as Ht. rewrite Hm0 in Ht.
  apply Ht; try done; [lia|apply dbstep_refl].
Qed.
Lemma metered_delegatecall : metered 6 true (call_paid false) (gasDelegateCall rules).
Proof. by apply metered_plain_call. Qed.
Lemma metered_staticcall : metered 6 true (call_paid false) (gasStaticCall rules).
Proof. by apply metered_plain_call. Qed.

(** The invariant after steps that were paid for. *)
Lemma machine_ok_after d m m' : machine_ok m → dbstep ro d (m_db m) (m_db m') → 0 ≤ m_gas m' → d + rate * m_gas m' ≤ rate * m_gas m →
  self m' = self m → is_Some (c_value (m_contract m')) → Forall is_word (m_stack m') → zlen (m_stack m') ≤ StackLimit → mem_ok (m_memory m') → is_u64 (m_pc m') →
  machine_ok m'.
Proof.
  intros [[G1 G2 G3 G4] Ha Hw _ _ _ _ _] Hs Hg Hd Es Hv Hst Hl Hme Hp. split; try done; rewrite ?Es; [|by apply Hs|intros Hb; apply Hs; auto].
  pose proof (ds_refund _ _ _ _ _ _ Hs). split; [by apply Hs|by apply Hs|done|lia].
Qed.

(** A call whose callee is on the access list by now. *)
Definition call_ready (has_value : bool) m (cost : Z) m' : Prop :=
  0 ≤ m_callGasTemp m' ∧ m_callGasTemp m' + transfer_price has_value m ≤ cost ∧ ∀ x, m_stack m !! 1%nat = Some x → warm rules (m_db m') (toAddress x).

Lemma set_gas_back g (c : machine) m : m_contract m = m_contract (set_gas g c) → m_contract (set_gas (m_gas c) m) = m_contract c.
Proof. destruct c as [? ? ? [] ? ? ? ?], m. cbn. by intros ->. Qed.

Lemma metered_variant has_value pops old : r_IsEIP150 rules = true → 2 ≤ pops → metered pops true (call_paid has_value) old →
  metered pops true (call_ready has_value) (makeCallVariantGasCallEIP2929 old).
Proof.
  intros Hr Hp Hold m ms Hm Hlen Hms Hd _. unfold makeCallVariantGasCallEIP2929. apply wp_bind, wp_Back; [apply Hm|lia|]. intros x Ex Hx. do 2 wp_step.
  destruct (AddressInAccessList (toAddress x) (m_db m)) eqn:Ew; cbn [negb when].
  - apply wp_bind, wp_ret, wp_bind. eapply wp_mono; [by apply Hold| |done]. intros cost m' [(P1 & P2 & _) Hco]. apply wp_ret. split; [|done]. split; [done|]. split; [done|].
    rewrite Ex. intros y [= <-] _. by apply (co_db _ _ _ Hco).
  - destruct (step_AddAddress keccak R ro (toAddress x) (m_db m)) as [Hs Hw]; [by apply machine_db|]. set (s1 := AddAddressToAccessList (toAddress x) (m_db m)) in *.
    pose proof (gas_u64 m Hm) as Hg. unfold is_u64 in Hg. change (ColdAccountAccessCostEIP2929 - WarmStorageReadCostEIP2929) with 2500.
    apply wp_bind, wp_bind, wp_put. do 2 wp_step. change (m_gas (set_db _ m)) with (m_gas m). wp_step; [split; [apply Hs|change (m_gas (set_db _ m)) with (m_gas m); lia]|]. apply wp_mod.
    set (m1 := set_gas (m_gas m - 2500) (set_db s1 m)).
    assert (Hm1 : machine_ok m1) by (apply (machine_ok_after 0 m); try done; [cbn; lia|cbn; unfold rate; lia|apply Hm..]).
    apply wp_bind. eapply wp_mono; [by apply Hold|..].
    + intros cost m2 [(P1 & P2 & P3) [[S1 S2 S3] Hdb Hme Hsz]]. specialize (P3 Hr). change (transfer_price has_value _) with (transfer_price has_value m) in P2.
      assert (Htp : 0 ≤ transfer_price has_value m) by (unfold transfer_price, CallValueTransferGas; destruct has_value; [|done]; destruct (m_stack m !! 2%nat); [case_if|]; lia).
      do 2 wp_step. apply wp_ret. assert (E2 : m_gas m2 = m_gas m - 2500) by (unfold m_gas at 1; by rewrite S2). rewrite E2, (u64_small (m_gas m - 2500 + 2500)), (u64_small (cost + 2500)) by (unfold is_u64; lia).
      replace (m_gas m - 2500 + 2500) with (m_gas m) by lia. split; [split; [done|]; split; [cbn; lia|]|].
      * rewrite Ex. intros y [= <-] _. cbn. by apply Hdb.
      * split; [split; try done|..|done|done]; [|by eapply dbstep_then]. by eapply (set_gas_back (m_gas m - 2500) m).
    + intros e m2 [F1 F2]. split; [etrans; [apply Hs|done]|]. cbn in F2. lia.
Qed.

(** ** Memory sizes *)

Definition word_at (st : list Z) (i : nat) : Z := default 0 (st !! i).
Definition region (off len : nat) (st : list Z) : Z * Z := (word_at st off, word_at st len).
Definition within (sz : Z) (r : Z * Z) : Prop := r.2 = 0 ∨ r.1 + r.2 ≤ sz.
(** The size covers the regions the instruction uses. *)
Definition sized {E} (pops : Z) (regions : list Z → list (Z * Z)) (f : stm machine E (Z * bool)) : Prop :=
  ∀ m, Forall is_word (m_stack m) → pops ≤ zlen (m_stack m) →
  ∃ sz overflow, f m = (Ok (sz, overflow), m) ∧ is_u64 sz ∧ (overflow = false → Forall (within sz) (regions (m_stack m))).

Lemma calcMemSize64WithUint_ok off len : is_word off → is_u64 len → ∃ sz overflow, calcMemSize64WithUint off len = (sz, overflow) ∧ is_u64 sz ∧
  (overflow = false → within sz (off, len)).
Proof.
  unfold is_word, is_u64, calcMemSize64WithUint, within. intros Ho Hl. case_if; [eexists _, _; split; [done|]; split; [lia|by left]|].
  rewrite w_Uint64WithOverflow by done. case_if; [eexists _, _; split; [done|]; split; [lia|done]|]. rewrite Z.mod_small by lia.
  eexists _, _. split; [done|]. split; [apply u64_range|]. intros Hb. zbool. right. cbn. destruct (Z_lt_le_dec (off + len) (2 ^ 64)); [by rewrite u64_small by (unfold is_u64; lia)|].
  exfalso. unfold u64 in Hb. rewrite <- (Z_mod_plus _ (-1)), Z.mod_small in Hb by lia. lia.
Qed.
Lemma calcMemSize64_ok off len : is_word off → is_word len → ∃ sz overflow, calcMemSize64 off len = (sz, overflow) ∧ is_u64 sz ∧
  (overflow = false → within sz (off, len)).
Proof.
  intros Ho Hl. unfold calcMemSize64. rewrite w_IsUint64, w_Uint64 by done. case_if; [eexists _, _; split; [done|]; split; [by unfold is_u64|done]|].
  unfold is_word in Hl. rewrite Z.mod_small by lia. apply calcMemSize64WithUint_ok; [done|unfold is_u64; lia].
Qed.

Lemma stack_word m i : Forall is_word (m_stack m) → Z.of_nat i < zlen (m_stack m) → ∃ x, m_stack m !! i = Some x ∧ is_word x ∧ word_at (m_stack m) i = x.
Proof.
  intros Hw Hi. destruct (lookup_lt_is_Some_2 (m_stack m) i) as [x Hx]; [unfold zlen in Hi; lia|]. exists x. split; [done|]. unfold word_at. rewrite Hx.
  split; [|done]. rewrite Forall_lookup in Hw. by eapply Hw.
Qed.

Lemma sized_at {E} pops off len : Z.of_nat off < pops → Z.of_nat len < pops → sized (E := E) pops (fun st => [region off len st]) (memory_at off len).
Proof.
  intros Ho Hl m Hw Hp. destruct (stack_word m off Hw) as (x & Ex & Hx & Ex'); [lia|]. destruct (stack_word m len Hw) as (l & El & Hl' & El'); [lia|].
  destruct (calcMemSize64_ok x l Hx Hl') as (sz & ov & Ec & Hsz & Hin). exists sz, ov. split; [|split; [done|]].
  - unfold memory_at, mbind, stm_bind, Back. rewrite Ex, El. cbn. by rewrite Ec.
  - intros Eo. constructor; [|done]. unfold region. rewrite Ex', El'. by apply Hin.
Qed.
Lemma sized_const {E} pops (n : Z) (f : stm machine E (Z * bool)) : 1 ≤ pops → is_u64 n → f = (x ← Back 0; mret (calcMemSize64WithUint x n)) →
  sized pops (fun st => [(word_at st 0, n)]) f.
Proof.
  intros Hp Hn -> m Hw Hl. destruct (stack_word m 0 Hw) as (x & Ex & Hx & Ex'); [lia|]. destruct (calcMemSize64WithUint_ok x n Hx Hn) as (sz & ov & Ec & Hsz & Hin).
  exists sz, ov. split; [|split; [done|]].
  - unfold mbind, stm_bind, Back. rewrite Ex. cbn. by rewrite Ec.
  - intros Eo. constructor; [|done]. rewrite Ex'. by apply Hin.
Qed.
Lemma sized_both {E} pops a b c d : Z.of_nat a < pops → Z.of_nat b < pops → Z.of_nat c < pops → Z.of_nat d < pops →
  sized (E := E) pops (fun st => [region a b st; region c d st]) (memory_both a b c d).
Proof.
  intros Ha Hb Hc Hd m Hw Hl. destruct (sized_at (E := E) pops a b Ha Hb m Hw Hl) as (x & o1 & E1 & Hx & H1), (sized_at (E := E) pops c d Hc Hd m Hw Hl) as (y & o2 & E2 & Hy & H2).
  unfold memory_both, mbind, stm_bind at 1. rewrite E1. destruct o1; [by eexists _, _|]. unfold stm_bind. rewrite E2. destruct o2; [by eexists _, _|].
  eexists _, _. split; [done|]. split; [by case_if|]. intros _. specialize (H1 eq_refl). specialize (H2 eq_refl).
  inversion H1 as [|? ? Hr1 _]; inversion H2 as [|? ? Hr2 _]; subst.
  constructor; [|constructor; [|done]]; unfold within in *; case_if; lia.
Qed.

(** ** Reading and writing memory *)

Lemma getData_ok {E} data start size : 0 ≤ start → 0 ≤ size < 2 ^ 63 → ∃ d, getData (E := E) data start size = Ok d.
Proof.
  intros Hs Hz. unfold getData. set (l := go_len data). assert (Hl : 0 ≤ l < 2 ^ 63 ∧ l ≤ zlen data) by (unfold l, go_len, zlen; lia).
  set (a := if l <? start then l else start). assert (Ha : 0 ≤ a ≤ l) by (unfold a; case_if; lia). rewrite (u64_small (a + size)) by (unfold is_u64; lia).
  set (b := if l <? a + size then l else a + size). assert (Hb : a ≤ b ≤ l) by (unfold b; case_if; lia).
  unfold slice. rewrite (proj2 (Z.leb_le 0 a)), (proj2 (Z.leb_le a b)), (proj2 (Z.leb_le b _)) by lia. by eexists.
Qed.

Lemma overwrite_length off size v b : 0 ≤ off → 0 ≤ size → off + size ≤ zlen b → zlen (overwrite off size v b) = zlen b.
Proof. intros Ho Hs Hb. unfold overwrite, zlen in *. rewrite !length_app, length_take, length_drop, length_take. lia. Qed.

Lemma mem_ok_store mem b : mem_ok mem → zlen b = zlen (store mem) → mem_ok (mkMemory b (lastGasCost mem)).
Proof. intros (w & H1 & H2 & H3) E. exists w. cbn. split; [done|]. split; [lia|done]. Qed.
(** The offset and the length of a region that is held, as the code computes
    with them. *)
Lemma holds_words mem off len : mem_ok mem → is_word off → is_word len → holds mem (off, len) → len ≠ 0 →
  u_Uint64 off = off ∧ u_Uint64 len = len ∧ i64 off = off ∧ i64 len = len ∧ 0 ≤ off ∧ 0 < len ∧ off + len ≤ zlen (store mem) ∧ zlen (store mem) < 2 ^ 40.
Proof.
  intros Hm Ho Hl [?|Hh] Hne; [done|]. pose proof (mem_bound _ Hm). cbn in Hh. unfold is_word in *. rewrite !w_Uint64 by done. rewrite !Z.mod_small by lia.
  rewrite !i64_small by lia. lia.
Qed.
Lemma Uint64_0 : u_Uint64 0 = 0.
Proof. by rewrite w_Uint64. Qed.
Lemma mem_Set_ok {E} mem off len v : mem_ok mem → is_word off → is_word len → holds mem (off, len) →
  ∃ mem', mem_Set (E := E) (u_Uint64 off) (u_Uint64 len) v mem = Ok mem' ∧ mem_ok mem'.
Proof.
  intros Hm Ho Hl Hh. destruct (decide (len = 0)) as [->|Hne]; [rewrite Uint64_0; by exists mem|].
  destruct (holds_words mem off len Hm Ho Hl Hh Hne) as (-> & -> & _ & _ & H1 & H2 & H3 & H4). unfold mem_Set. rewrite (proj2 (Z.ltb_lt 0 len)) by lia.
  rewrite !(u64_small (off + len)) by (unfold is_u64; lia). rewrite (proj2 (Z.ltb_ge _ _)) by lia. unfold slice.
  rewrite (proj2 (Z.leb_le 0 off)), (proj2 (Z.leb_le off _)), (proj2 (Z.leb_le _ (zlen _))) by lia. cbn. eexists. split; [done|].
  apply mem_ok_store; [done|]. apply overwrite_length; lia.
Qed.
Lemma mem_GetPtr_ok {E} mem off len : mem_ok mem → is_word off → is_word len → holds mem (off, len) →
  ∃ d, mem_GetPtr (E := E) (i64 (u_Uint64 off)) (i64 (u_Uint64 len)) mem = Ok d.
Proof.
  intros Hm Ho Hl Hh. destruct (decide (len = 0)) as [->|Hne]; [rewrite Uint64_0; by eexists|].
  destruct (holds_words mem off len Hm Ho Hl Hh Hne) as (-> & -> & -> & -> & H1 & H2 & H3 & H4). unfold mem_GetPtr, slice.
  rewrite (proj2 (Z.eqb_neq len 0)), (proj2 (Z.ltb_lt off _)), (proj2 (Z.leb_le 0 off)), (proj2 (Z.leb_le off _)), (proj2 (Z.leb_le _ (zlen _))) by lia. by eexists.
Qed.
Lemma mem_GetCopy_ok {E} mem off len : mem_ok mem → is_word off → is_word len → holds mem (off, len) →
  ∃ d, mem_GetCopy (E := E) (i64 (u_Uint64 off)) (i64 (u_Uint64 len)) mem = Ok d.
Proof.
  intros Hm Ho Hl Hh. destruct (decide (len = 0)) as [->|Hne]; [rewrite Uint64_0; by eexists|].
  destruct (holds_words mem off len Hm Ho Hl Hh Hne) as (-> & -> & -> & -> & H1 & H2 & H3 & H4). unfold mem_GetCopy, slice.
  rewrite (proj2 (Z.eqb_neq len 0)), (proj2 (Z.ltb_lt off _)), (proj2 (Z.ltb_ge len 0)), (proj2 (Z.leb_le 0 off)), (proj2 (Z.leb_le off _)), (proj2 (Z.leb_le _ (zlen _))) by lia.
  by eexists.
Qed.
Lemma mem_Set32_ok {E} mem off v : mem_ok mem → is_word off → is_word v → holds mem (off, 32) →
  ∃ mem', mem_Set32 (E := E) (u_Uint64 off) v mem = Ok mem' ∧ mem_ok mem'.
Proof.
  intros Hm Ho Hv Hh. destruct (holds_words mem off 32 Hm Ho) as (-> & _ & _ & _ & H1 & _ & H3 & H4); [done|done|done|]. unfold mem_Set32.
  rewrite !(u64_small (off + 32)) by (unfold is_u64; lia). rewrite (proj2 (Z.ltb_ge _ _)) by lia. unfold slice.
  rewrite (proj2 (Z.leb_le 0 off)), (proj2 (Z.leb_le off _)), (proj2 (Z.leb_le _ (zlen _))) by lia. cbn. eexists. split; [done|].
  apply mem_ok_store; [done|]. apply overwrite_length; lia.
Qed.
End Invariant.
