(* ===== verification/StorageGas.v ===== *)
(** The gas functions that move the refund counter: SSTORE under its four
    schedules ([gas_table.go], [operations_acl.go] of
    [src/go-ethereum/core/vm]) and SELFDESTRUCT.

    The refund counter holds the refund of each slot that is cleared, so taking
    a refund back cannot fail, and what is added is bounded by what the
    instruction costs. *)

From S2P Require Import Prelude RLP Types Receipts Config Transactions StateTransition State StateJournal StateEffects Evm Jumpdest Vm VmSafe.

Section StorageGas.
Context {T S : Type} `{Trie : !Tries T S} `{W : !Uint256} `{WL : !Uint256Laws} (keccak : bytes → Z).
Context (rules : RulesT) (R : Z).
#[local] Abbreviation machine := (machine T S).
#[local] Abbreviation machine_ok := (machine_ok keccak rules R).
#[local] Abbreviation dbstep := (dbstep keccak R).
#[local] Abbreviation X := ({[ ripemd ]} : gset Z).
Implicit Types (m : machine) (s : stateDB T S).

(** ** The counter *)

(** Only the counter and the journal differ. *)
Record counted s s' : Prop := { ct_objects : same_objects s s'; ct_access : accessListOf s' = accessListOf s; ct_ext : ext keccak s s' }.
#[local] Instance counted_preorder : PreOrder counted.
Proof.
  split; [intros s; by split; [split|..]|]. intros s1 s2 s3 [[A1 A2 A3] A4 A5] [[B1 B2 B3] B4 B5]. split; [split|..]; try congruence; [|by etrans].
  destruct A2 as (? & ? & ?), B2 as (? & ? & ?). split_and!; congruence.
Qed.
Lemma AddRefund_counted v s : db_ok keccak s → counted s (AddRefund v s).
Proof. intros Hok. split; [by split|done|]. by apply (ext_op keccak (op_AddRefund v)). Qed.

(** How far the refunds of a slot that was written before move the counter. *)
Definition dirty_delta (original current value clear reset_zero reset_value : Z) : Z :=
  (if original =? 0 then 0 else if current =? 0 then - clear else if value =? 0 then clear else 0) +
  (if original =? value then (if original =? 0 then reset_zero else reset_value) else 0).
Lemma wp_dirty_refund original current value clear rz rv m (Q : unit → machine → Prop) QE : db_ok keccak (m_db m) → (original ≠ 0 → current = 0 → clear ≤ refund (m_db m)) →
  0 ≤ refund (m_db m) → 0 ≤ clear → 0 ≤ rz → 0 ≤ rv →
  (∀ s, counted (m_db m) s → (refund (m_db m) + clear + rz + rv < 2 ^ 64 → refund s = refund (m_db m) + dirty_delta original current value clear rz rv) → Q tt (set_db s m)) →
  wp (dirty_refund original current value clear rz rv) Q QE m.
Proof.
  intros Hok Hsub Href Hcl Hrz Hrv HQ. unfold dirty_refund, dirty_delta in *.
  assert (Hlast : ∀ s d, counted (m_db m) s → (refund (m_db m) + clear + rz + rv < 2 ^ 64 → refund s = refund (m_db m) + d ∧ d ≤ clear ∧ 0 ≤ refund s) →
    d = (if original =? 0 then 0 else if current =? 0 then - clear else if value =? 0 then clear else 0) →
    wp (when (original =? value) (if original =? 0 then put_db (AddRefund rz) else put_db (AddRefund rv))) Q QE (set_db s m)).
  { intros s d Hc Hr ->. assert (Hoks : db_ok keccak s) by (by apply Hc). assert (Hadd : ∀ v, counted (m_db m) (AddRefund v s)) by (intros v; etrans; [exact Hc|by apply AddRefund_counted]).
    unfold when. destruct (original =? value); [|by apply HQ; [done|]; intros H; destruct (Hr H) as [-> _]; lia].
    destruct (original =? 0); (apply wp_put, (HQ (AddRefund _ s)); [done|]; intros H; destruct (Hr H) as (E & Hd & Hn); cbn; rewrite u64_small by (unfold is_u64; lia); lia). }
  apply wp_bind. unfold when at 1. destruct (Z.eqb_spec original 0) as [E0|E0]; cbn [negb].
  - apply wp_ret. specialize (Hlast (m_db m) 0). replace (set_db (m_db m) m) with m in Hlast by (by destruct m). apply Hlast; [done|lia|done].
  - destruct (Z.eqb_spec current 0) as [E1|E1].
    + destruct (SubRefund_ok keccak clear (m_db m)) as (s & Es & Er & H1 & H2 & H3); [by apply Hsub|]. unfold wp at 1, try_db. rewrite Es. cbn [never].
      apply (Hlast s (- clear)); [by split; [..|auto]|lia|done].
    + unfold when at 1. destruct (value =? 0) eqn:Ev.
      * apply wp_put. apply (Hlast (AddRefund clear (m_db m)) clear); [by apply AddRefund_counted|intros H; cbn; rewrite u64_small by (unfold is_u64; lia); lia|done].
      * apply wp_ret. specialize (Hlast (m_db m) 0). replace (set_db (m_db m) m) with m in Hlast by (by destruct m). apply Hlast; [done|lia|done].
Qed.

(** ** Looking at slots *)

Record looked s s' : Prop := {
  lk_step ro : dbstep ro 0 s s';
  lk_storage a k : original keccak s' a k = original keccak s a k ∧ current keccak s' a k = current keccak s a k
}.
#[local] Instance looked_preorder : PreOrder looked.
Proof.
  split; [intros s; split; [intros; apply dbstep_refl|done]|]. intros s1 s2 s3 [A1 A2] [B1 B2].
  split; [intros ro; by eapply dbstep_then|]. intros a k. destruct (A2 a k), (B2 a k). split; congruence.
Qed.
Lemma looked_silent s s' : silent keccak X s s' → looked s s'.
Proof. intros H. split; [intros; by apply dbstep_silent|]. apply eqv_storage. symmetry. apply H. Qed.
Lemma looked_slot a k s s' : db_ok keccak s → AddSlotToAccessList a k s = Ok s' → looked s s'.
Proof.
  intros Hok E. split.
  - intros ro. destruct (step_AddSlot keccak R ro a k s Hok) as (s1 & E1 & H1). rewrite E in E1. by injection E1 as <-.
  - assert (Hs : same_objects s s').
    { revert E. unfold AddSlotToAccessList. destruct (AddSlot a k (accessListOf s)) as [[[x y] al]|e|]; [|done|done]. cbn. intros [= <-]. by destruct x, y. }
    intros b j. unfold original, current. rewrite (same_alive keccak s s') by done. destruct (alive keccak s b); [by apply same_storage|done].
Qed.

(** ** SSTORE *)

(** After this charge the slot can be written. *)
Record sstore_paid m (cost : Z) m' : Prop := {
  sp_run : same_run m m';
  sp_memory : m_memory m' = m_memory m;
  sp_ext : ext keccak (m_db m) (m_db m');
  sp_cost : 1 ≤ cost;
  sp_write x y : cost ≤ m_gas m → m_stack m !! 0%nat = Some x → m_stack m !! 1%nat = Some y →
    ∃ d, d ≤ rate * cost ∧ dbstep false d (m_db m) (SetState keccak (self m) (toHash x) (toHash y) (m_db m'))
}.

(** The counter moves as the slot does. *)
Record moves (orig cur v r r' : Z) : Prop := {
  mv_clear : v = 0 → orig ≠ 0 → cur ≠ 0 → r + R ≤ r';
  mv_back : cur = 0 → orig ≠ 0 → v ≠ 0 → r - R ≤ r';
  mv_keep : cur = 0 ∧ v ≠ 0 ∧ orig ≠ 0 ∨ r ≤ r'
}.

Lemma store_done m s2 s3 cost x y : 0 ≤ R → machine_ok m → m_stack m !! 0%nat = Some x → m_stack m !! 1%nat = Some y → looked (m_db m) s2 → counted s2 s3 → 1 ≤ cost →
  (cost ≤ m_gas m → refund s3 ≤ refund s2 + rate * cost ∧
     moves (original keccak (m_db m) (self m) (toHash x)) (current keccak (m_db m) (self m) (toHash x)) (toHash y) (refund s2) (refund s3)) →
  sstore_paid m cost (set_db s3 m).
Proof.
  intros HR Hm Ex Ey Hl [H1 H2 H3] Hc Hmv. pose proof (lk_step _ _ Hl false) as Hd. split; [by split|done|etrans; [apply Hd|done]|done|].
  rewrite Ex, Ey. intros x' y' Hle [= <-] [= <-]. destruct (Hmv Hle) as [Hr [M1 M2 M3]]. exists (rate * cost). split; [done|].
  destruct (lk_storage _ _ Hl (self m) (toHash x)) as [<- <-] in M1, M2, M3. rewrite <- (Z.add_0_l (rate * cost)). eapply dbstep_trans; [exact Hd|].
  eapply step_store; [done|by apply Hd, Hm|apply Hd, Hm|done|done|cbn; unfold AddressInAccessList; by rewrite H2|done|done|done|done].
Qed.

Lemma toHash_word x : is_word x → toHash x = x.
Proof. intros Hx. unfold toHash. rewrite w_Bytes32, be_value_be_bytes by done. apply Z.mod_small, Hx. Qed.

Lemma wp_GetState {E} a k m (Q : Z → machine → Prop) (QE : E → machine → Prop) : db_ok keccak (m_db m) →
  (∀ s, looked (m_db m) s → Q (current keccak (m_db m) a k) (set_db s m)) → wp (on_db (GetState keccak a k)) Q QE m.
Proof.
  intros Hok HQ. unfold wp, on_db. destruct (GetState keccak a k (m_db m)) as [v s] eqn:Eg. destruct (step_GetState keccak R false a k _ _ _ Hok Eg) as (-> & Hs & _). by apply HQ, looked_silent.
Qed.
Lemma wp_GetCommittedState {E} a k m (Q : Z → machine → Prop) (QE : E → machine → Prop) : db_ok keccak (m_db m) →
  (∀ s, looked (m_db m) s → Q (original keccak (m_db m) a k) (set_db s m)) → wp (on_db (GetCommittedState keccak a k)) Q QE m.
Proof.
  intros Hok HQ. unfold wp, on_db. destruct (GetCommittedState keccak a k (m_db m)) as [v s] eqn:Eg. destruct (step_GetCommittedState keccak R false a k _ _ _ Hok Eg) as (-> & Hs & _). by apply HQ, looked_silent.
Qed.

(** The part of the net-metered schedules that is the same: the slot is looked
    up, and the counter follows it. *)
Definition net_metered (clear reset_zero reset_value init clean dirty : Z) (current value a k : Z) : gasM Z :=
  original ← on_db (GetCommittedState keccak a k);
  if original =? current then
    if original =? 0 then mret init else
    _ ← when (value =? 0) (put_db (AddRefund clear));
    mret clean
  else
  _ ← dirty_refund original current value clear reset_zero reset_value;
  mret dirty.

(** Enough gas for the refunds. *)
Lemma refund_room m s cost : machine_ok m → refund s ≤ refund (m_db m) → 100 ≤ cost → cost ≤ m_gas m → refund s + 60000 < 2 ^ 64.
Proof. intros [[_ _ _ Hb] _ _ _ _ _ _ _] Hr Hc Hg. unfold rate, slack in Hb. lia. Qed.

Lemma net_metered_ok clear rz rv init clean dirty m s1 x y : clear = R → 0 ≤ R ≤ 15000 → 0 ≤ rz ≤ 20000 → 0 ≤ rv ≤ 5000 → 100 ≤ init → 100 ≤ clean → 100 ≤ dirty → machine_ok m →
  m_stack m !! 0%nat = Some x → m_stack m !! 1%nat = Some y → looked (m_db m) s1 → current keccak (m_db m) (self m) (toHash x) ≠ toHash y →
  wp (net_metered clear rz rv init clean dirty (current keccak (m_db m) (self m) (toHash x)) (toHash y) (self m) (toHash x))
    (sstore_paid m) (fun _ => failed_ok keccak m) (set_db s1 m).
Proof.
  intros -> HR Hrz Hrv Hi Hcl Hdi Hm Ex Ey Hl Hne. set (a := self m). set (k := toHash x). set (v := toHash y) in *. fold a k in Hne.
  assert (Hok1 : db_ok keccak s1) by (by apply (lk_step _ _ Hl false), Hm). unfold net_metered. apply wp_bind, wp_GetCommittedState; [done|]. intros s2 Hl2.
  change (m_db (set_db s1 m)) with s1 in *. change (set_db s2 (set_db s1 m)) with (set_db s2 m). destruct (lk_storage _ _ Hl a k) as [-> _].
  assert (Hl' : looked (m_db m) s2) by (by etrans). pose proof (lk_step _ _ Hl' false) as Hd. assert (Hok2 : db_ok keccak s2) by (by apply Hd, Hm).
  assert (Hcov : covers keccak R s2) by (by apply Hd, Hm). pose proof (covers_nonneg _ _ _ Hcov) as Hpos. pose proof (ds_refund _ _ _ _ _ _ Hd) as Hr2.
  set (orig := original keccak (m_db m) a k) in *. set (cur := current keccak (m_db m) a k) in *.
  assert (Hdone : ∀ s3 cost, counted s2 s3 → 100 ≤ cost → (cost ≤ m_gas m → refund s3 ≤ refund s2 + 60000 ∧ moves orig cur v (refund s2) (refund s3)) → sstore_paid m cost (set_db s3 m)).
  { intros s3 cost Hc Hco Hmv. apply (store_done m s2 s3 cost x y); try done; [lia|lia|]. intros Hle. destruct (Hmv Hle). split; [unfold rate; lia|done]. }
  assert (Hroom : ∀ cost, 100 ≤ cost → cost ≤ m_gas m → refund s2 + 60000 < 2 ^ 64) by (intros cost H1 H2; eapply refund_room; [exact Hm|lia|exact H1|exact H2]).
  destruct (Z.eqb_spec orig cur) as [Eo|Eo].
  - destruct (Z.eqb_spec orig 0) as [E0|E0]; [apply wp_ret, Hdone; [done|done|]; intros _; split; [lia|]; split; lia|].
    apply wp_bind. unfold when. destruct (Z.eqb_spec v 0) as [Ev|Ev].
    + apply wp_put, wp_ret. apply Hdone; [by apply AddRefund_counted|done|]. intros Hle. specialize (Hroom _ Hcl Hle). cbn. rewrite u64_small by (unfold is_u64; lia). split; [lia|]. split; lia.
    + apply wp_ret, wp_ret, Hdone; [done|done|]. intros _. split; [lia|]. split; lia.
  - apply wp_bind, wp_dirty_refund; try lia; try done.
    + intros H1 H2. apply (covers_one _ _ _ a k Hcov). destruct (lk_storage _ _ Hl' a k) as [E1 E2]. split; [by rewrite E1|by rewrite E2].
    + intros s3 Hc Hr. apply wp_ret, (Hdone s3); [done|done|]. intros Hle. specialize (Hroom _ Hdi Hle). cbn in Hr. rewrite Hr by lia. unfold dirty_delta.
      destruct (Z.eqb_spec orig 0), (Z.eqb_spec cur 0), (Z.eqb_spec v 0), (Z.eqb_spec orig v); (split; [lia|split; lia]).
Qed.

(** *** The schedules *)

Definition charges_store (f : Z → gasM Z) : Prop := ∀ m, machine_ok m → 2 ≤ zlen (m_stack m) → wp (f 0) (sstore_paid m) (fun _ => failed_ok keccak m) m.

(** A slot that keeps its value. *)
Lemma store_same m s1 cost x y : 0 ≤ R → 1 ≤ cost → machine_ok m → m_stack m !! 0%nat = Some x → m_stack m !! 1%nat = Some y → looked (m_db m) s1 →
  current keccak (m_db m) (self m) (toHash x) = toHash y → sstore_paid m cost (set_db s1 m).
Proof.
  intros HR Hc Hm Ex Ey Hl E. apply (store_done m s1 s1 cost x y); try done. intros _. split; [unfold rate; lia|]. split; lia.
Qed.

Lemma legacy_store m s1 x y : 0 ≤ R ≤ 15000 → machine_ok m → m_stack m !! 0%nat = Some x → m_stack m !! 1%nat = Some y → is_word y → looked (m_db m) s1 →
  let current := current keccak (m_db m) (self m) (toHash x) in
  wp (if (current =? 0) && negb (u_Sign y =? 0) then mret SstoreSetGas
      else if negb (current =? 0) && (u_Sign y =? 0) then _ ← put_db (AddRefund SstoreRefundGas); mret SstoreClearGas
      else mret SstoreResetGas) (sstore_paid m) (fun _ : vmError => failed_ok keccak m) (set_db s1 m).
Proof.
  intros HR Hm Ex Ey Hy Hl cur. pose proof (lk_step _ _ Hl false) as Hd. assert (Hok1 : db_ok keccak s1) by (by apply Hd, Hm). pose proof (ds_refund _ _ _ _ _ _ Hd) as Hr1.
  assert (Hpos : 0 ≤ refund s1) by (apply (covers_nonneg keccak R); by apply Hd, Hm).
  assert (Hv : toHash y = y) by (by apply toHash_word). assert (Hsg : (u_Sign y =? 0) = (y =? 0)) by (pose proof (w_Sign y Hy) as Hs; destruct (Z.eqb_spec (u_Sign y) 0), (Z.eqb_spec y 0); tauto).
  rewrite Hsg. assert (Hdone : ∀ s3 cost, counted s1 s3 → 5000 ≤ cost → (cost ≤ m_gas m → refund s3 ≤ refund s1 + 60000 ∧ moves (original keccak (m_db m) (self m) (toHash x)) cur (toHash y) (refund s1) (refund s3)) → sstore_paid m cost (set_db s3 m)).
  { intros s3 cost Hc Hco Hmv. apply (store_done m s1 s3 cost x y); try done; [lia|lia|]. intros Hle. destruct (Hmv Hle). split; [unfold rate; lia|done]. }
  rewrite Hv in Hdone. destruct (Z.eqb_spec cur 0), (Z.eqb_spec y 0); cbn [andb negb].
  1, 2, 4: apply wp_ret, Hdone; [done|done|]; intros _; split; [lia|split; lia].
  apply wp_bind, wp_put, wp_ret, Hdone; [by apply AddRefund_counted|done|]. intros Hle. assert (refund s1 + 60000 < 2 ^ 64) by (eapply (refund_room m s1 SstoreClearGas); [done|lia|done|done]).
  cbn. unfold SstoreRefundGas in *. rewrite u64_small by (unfold is_u64; lia). split; [lia|split; lia].
Qed.

(** The key and the value are on the stack. *)
Lemma wp_key_value {A E} m (f : Z → Z → stm machine E A) Q QE : machine_ok m → 2 ≤ zlen (m_stack m) →
  (∀ x y, m_stack m !! 0%nat = Some x → m_stack m !! 1%nat = Some y → is_word x → is_word y → wp (f y x) Q QE m) → wp (y ← Back 1; x ← Back 0; f y x) Q QE m.
Proof.
  intros Hm Hlen Hf. apply wp_bind, wp_Back; [apply Hm|lia|]. intros y Ey Hy. apply wp_bind, wp_Back; [apply Hm|lia|]. intros x Ex Hx. by apply Hf.
Qed.

Lemma charges_gasSStore : R = 15000 → charges_store (gasSStore keccak rules).
Proof.
  intros HR m Hm Hlen. unfold gasSStore. apply wp_key_value; [done|done|]. intros x y Ex Ey Hx Hy. apply wp_bind, wp_gets, wp_bind, wp_GetState; [apply Hm|].
  intros s1 Hl. destruct (r_IsPetersburg rules || _); [apply legacy_store; try done; lia|]. cbv zeta. case_if; [apply wp_ret, (store_same m s1 _ x y); done || lia|]. 
  apply (net_metered_ok NetSstoreClearRefund NetSstoreResetClearRefund NetSstoreResetRefund NetSstoreInitGas NetSstoreCleanGas NetSstoreDirtyGas); done || lia.
Qed.
Lemma charges_2200 : R = 15000 → charges_store (gasSStoreEIP2200 keccak).
Proof.
  intros HR m Hm Hlen. unfold gasSStoreEIP2200. apply wp_bind, wp_gets. wp_step; [by eapply failed_refl|]. apply wp_key_value; [done|done|]. intros x y Ex Ey Hx Hy.
  apply wp_bind, wp_gets, wp_bind, wp_GetState; [apply Hm|]. intros s1 Hl. cbv zeta. case_if; [apply wp_ret, (store_same m s1 _ x y); done || lia|].
  apply (net_metered_ok SstoreClearsScheduleRefundEIP2200 (SstoreSetGasEIP2200 - SloadGasEIP2200) (SstoreResetGasEIP2200 - SloadGasEIP2200)
    SstoreSetGasEIP2200 SstoreResetGasEIP2200 SloadGasEIP2200); done || lia.
Qed.
(** From Berlin on, with the running contract on the access list. *)
Lemma charges_2929 clear : r_IsBerlin rules = true → clear = R → 0 ≤ R ≤ 15000 → charges_store (makeGasSStoreFunc keccak clear).
Proof.
  intros Hb Hcl HR m Hm Hlen. unfold makeGasSStoreFunc. apply wp_bind, wp_gets. wp_step; [by eapply failed_refl|]. apply wp_key_value; [done|done|]. intros x y Ex Ey Hx Hy.
  apply wp_bind, wp_gets, wp_bind, wp_GetState; [apply Hm|]. intros s1 Hl. assert (Hok1 : db_ok keccak s1) by (by apply (lk_step _ _ Hl false), Hm). apply wp_bind, wp_gets.
  destruct (SlotIn_total keccak (self m) (toHash x) s1 Hok1) as (present & slot & Es & Ep). apply wp_bind. eapply wp_pure_ok; [cbn; by rewrite Es|]. cbv beta iota.
  assert (Hp : present = true) by (rewrite Ep; apply (lk_step _ _ Hl false); by apply (k_warm _ _ _ _ Hm)).
  assert (Htail : ∀ s2 cost, looked (m_db m) s2 → cost = 0 ∨ cost = ColdSloadCostEIP2929 →
    wp (if current keccak (m_db m) (self m) (toHash x) =? toHash y then mret (u64 (cost + WarmStorageReadCostEIP2929)) else
        net_metered clear (SstoreSetGasEIP2200 - WarmStorageReadCostEIP2929) (SstoreResetGasEIP2200 - ColdSloadCostEIP2929 - WarmStorageReadCostEIP2929)
          (u64 (cost + SstoreSetGasEIP2200)) (u64 (cost + (SstoreResetGasEIP2200 - ColdSloadCostEIP2929))) (u64 (cost + WarmStorageReadCostEIP2929))
          (current keccak (m_db m) (self m) (toHash x)) (toHash y) (self m) (toHash x))
      (sstore_paid m) (fun _ : vmError => failed_ok keccak m) (set_db s2 m)).
  { intros s2 cost Hl2 Hc. unfold ColdSloadCostEIP2929, SstoreSetGasEIP2200, SstoreResetGasEIP2200, WarmStorageReadCostEIP2929 in *. rewrite !u64_small by (unfold is_u64; lia).
    case_if; [apply wp_ret, (store_same m s2 _ x y); done || lia|]. apply net_metered_ok; done || lia. }
  apply wp_bind. destruct slot; cbn [negb].
  - apply wp_ret. apply (Htail s1 0); [done|by left].
  - apply wp_bind. destruct (step_AddSlot keccak R false (self m) (toHash x) s1 Hok1) as (s2 & E2 & _). unfold wp at 1, try_db. cbn [m_db set_db]. rewrite E2. cbn [never]. rewrite Hp. cbn [negb].
    apply wp_ret. apply (Htail s2 ColdSloadCostEIP2929); [etrans; [exact Hl|by eapply looked_slot]|by right].
Qed.

(** ** SELFDESTRUCT *)

(** The refund is within the slack of a frame. *)
Record selfdestruct_paid m (cost : Z) m' : Prop := {
  de_run : same_run m m';
  de_memory : m_memory m' = m_memory m;
  de_cost : 0 ≤ cost;
  de_db : dbstep false slack (m_db m) (m_db m')
}.
Definition charges_end (f : Z → gasM Z) : Prop := ∀ m, machine_ok m → 1 ≤ zlen (m_stack m) → wp (f 0) (selfdestruct_paid m) (fun _ => failed_ok keccak m) m.

Lemma end_paid m s s' cost : machine_ok m → dbstep false 0 (m_db m) s → (s' = s ∨ s' = AddRefund SelfdestructRefundGas s) → 0 ≤ cost → selfdestruct_paid m cost (set_db s' m).
Proof.
  intros Hm Hs Hor Hc. split; [by split|done|done|]. cbn. change slack with (0 + slack). eapply dbstep_trans; [exact Hs|].
  destruct Hor as [->| ->]; [by apply (dbstep_weaken keccak R false 0); [|apply dbstep_refl]|].
  destruct (k_state _ _ _ _ Hm) as [G1 G2 G3 G4]. pose proof (ds_refund _ _ _ _ _ _ Hs). assert (0 ≤ refund s) by (apply (covers_nonneg keccak R); by apply Hs).
  apply step_AddRefund; [by apply Hs|done|]. unfold is_u64, SelfdestructRefundGas, rate, slack in *. lia.
Qed.
(** Reading accounts. *)
Lemma wp_look_db {A E} (f : stateDB T S → A * stateDB T S) m s (Q : A → machine → Prop) (QE : E → machine → Prop) : dbstep false 0 (m_db m) s →
  (∀ s v s', f s = (v, s') → dbstep false 0 s s') → (∀ v s', dbstep false 0 (m_db m) s' → Q v (set_db s' m)) → wp (on_db f) Q QE (set_db s m).
Proof. intros Hs Hf HQ. unfold wp, on_db. cbn [m_db set_db]. destruct (f s) as [v s'] eqn:Ef. apply HQ. eapply dbstep_then; [exact Hs|by eapply Hf]. Qed.

Lemma wp_here {A E} (i : stm machine E A) m Q QE : wp i Q QE (set_db (m_db m) m) → wp i Q QE m.
Proof. by destruct m. Qed.
(** The refund, once for each contract. *)
Lemma wp_end_refund m s cost : machine_ok m → dbstep false 0 (m_db m) s → 0 ≤ cost →
  wp (dead ← on_db (HasSuicided keccak (self m)); _ ← when (negb dead) (put_db (AddRefund SelfdestructRefundGas)); mret cost)
    (selfdestruct_paid m) (fun _ : vmError => failed_ok keccak m) (set_db s m).
Proof.
  intros Hm Hs Hc. apply wp_bind, (wp_look_db _ _ s); [done|intros; by eapply step_with_object|]. intros dead s' Hs'. apply wp_bind. wp_step; [apply wp_put|apply wp_ret]; apply wp_ret.
  - apply (end_paid m s'); auto.
  - apply (end_paid m s'); auto.
Qed.

Lemma charges_selfdestruct : charges_end (gasSelfdestruct keccak rules).
Proof.
  intros m Hm Hlen. unfold gasSelfdestruct. apply wp_bind, wp_gets, wp_bind. pose proof (dbstep_refl keccak R false (m_db m)) as H0.
  destruct (r_IsEIP150 rules); [|apply wp_ret, wp_here; by apply wp_end_refund].
  apply wp_bind, wp_Back; [apply Hm|lia|]. intros x _ Hx. apply wp_here. destruct (r_IsEIP158 rules).
  - apply wp_bind, (wp_look_db _ _ (m_db m)); [done|intros; by eapply step_with_object|]. intros e s1 H1. apply wp_bind. destruct e.
    + apply (wp_look_db _ _ s1); [done|intros; by eapply step_with_object|]. intros b s2 H2. apply wp_ret, wp_end_refund; [done|done|]. case_if; [apply u64_range|done].
    + apply wp_ret, wp_ret, wp_end_refund; [done|done|]. case_if; [apply u64_range|done].
  - apply wp_bind, (wp_look_db _ _ (m_db m)); [done|intros; by eapply step_with_object|]. intros e s1 H1. apply wp_ret, wp_end_refund; [done|done|]. case_if; [apply u64_range|done].
Qed.
Lemma charges_selfdestruct_2929 refunds : charges_end (makeSelfdestructGasFn keccak refunds).
Proof.
  intros m Hm Hlen. unfold makeSelfdestructGasFn. apply wp_bind, wp_gets, wp_bind, wp_Back; [apply Hm|lia|]. intros x _ Hx. apply wp_bind, wp_gets, wp_bind.
  pose proof (dbstep_refl keccak R false (m_db m)) as H0.
  assert (Htail : ∀ s gas, dbstep false 0 (m_db m) s → 0 ≤ gas →
    wp (empty ← on_db (Empty keccak (toAddress x));
        balance ← (if empty : bool then on_db (State.GetBalance keccak (self m)) else mret 0);
        let gas := if empty && negb (balance =? 0) then u64 (gas + CreateBySelfdestructGas) else gas in
        dead ← (if refunds then on_db (HasSuicided keccak (self m)) else mret true);
        _ ← when (refunds && negb dead) (put_db (AddRefund SelfdestructRefundGas));
        mret gas) (selfdestruct_paid m) (fun _ : vmError => failed_ok keccak m) (set_db s m)).
  { intros s gas Hs Hg. apply wp_bind, (wp_look_db _ _ s); [done|intros; by eapply step_with_object|]. intros e s1 H1.
    assert (Hend : ∀ s2 g, dbstep false 0 (m_db m) s2 → 0 ≤ g → wp (dead ← (if refunds then on_db (HasSuicided keccak (self m)) else mret true);
        _ ← when (refunds && negb dead) (put_db (AddRefund SelfdestructRefundGas)); mret g) (selfdestruct_paid m) (fun _ : vmError => failed_ok keccak m) (set_db s2 m)).
    { intros s2 g H2 Hg2. destruct refunds; [by apply wp_end_refund|]. apply wp_bind, wp_ret, wp_bind, wp_ret, wp_ret. apply (end_paid m s2); auto. }
    apply wp_bind. destruct e; [apply (wp_look_db _ _ s1); [done|intros; by eapply step_with_object|]; intros b s2 H2|apply wp_ret]; apply Hend; try done; (case_if; [apply u64_range|done]). }
  apply wp_here. wp_step.
  - apply wp_bind, wp_put, wp_ret. cbn [m_db set_db]. apply (Htail (AddAddressToAccessList (toAddress x) (m_db m))); [|done]. apply step_AddAddress, Hm.
  - apply wp_ret. by apply Htail.
Qed.
End StorageGas.
