(* ===== verification/Interpreter.v ===== *)
(** The interpreter: the instructions of [src/go-ethereum/core/vm] in
    [instructions.go] and [eips.go], the instruction tables of the forks in
    [jump_table.go], and the loop of [interpreter.go].

    An instruction changes the machine, or ends the program with what it
    returns and an error or none.  The loop has fuel for the whole tree of
    calls; it is one unit for each instruction.  [env] is what the program can
    ask of the block and the transaction, the hashes of earlier blocks
    ([bc_GetHash]) included.  Whether the execution was cancelled by the time of a jump is a
    function of the machine, so what is proved holds for every such course of
    events.  Tracers and extra EIPs of the configuration are left out. *)

From S2P Require Import Prelude RLP Types Receipts Config Transactions StateTransition State StateJournal StateEffects Evm Jumpdest Vm.

(** ** Opcodes *)

Definition STOP : Z := 0x0.
Definition ADD : Z := 0x1.
Definition MUL : Z := 0x2.
Definition SUB : Z := 0x3.
Definition DIV : Z := 0x4.
Definition SDIV : Z := 0x5.
Definition MOD : Z := 0x6.
Definition SMOD : Z := 0x7.
Definition ADDMOD : Z := 0x8.
Definition MULMOD : Z := 0x9.
Definition EXP : Z := 0xa.
Definition SIGNEXTEND : Z := 0xb.
Definition LT : Z := 0x10.
Definition GT : Z := 0x11.
Definition SLT : Z := 0x12.
Definition SGT : Z := 0x13.
Definition EQ : Z := 0x14.
Definition ISZERO : Z := 0x15.
Definition AND : Z := 0x16.
Definition OR : Z := 0x17.
Definition XOR : Z := 0x18.
Definition NOT : Z := 0x19.
Definition BYTE : Z := 0x1a.
Definition SHL : Z := 0x1b.
Definition SHR : Z := 0x1c.
Definition SAR : Z := 0x1d.
Definition KECCAK256 : Z := 0x20.
Definition ADDRESS : Z := 0x30.
Definition BALANCE : Z := 0x31.
Definition ORIGIN : Z := 0x32.
Definition CALLER : Z := 0x33.
Definition CALLVALUE : Z := 0x34.
Definition CALLDATALOAD : Z := 0x35.
Definition CALLDATASIZE : Z := 0x36.
Definition CALLDATACOPY : Z := 0x37.
Definition CODESIZE : Z := 0x38.
Definition CODECOPY : Z := 0x39.
Definition GASPRICE : Z := 0x3a.
Definition EXTCODESIZE : Z := 0x3b.
Definition EXTCODECOPY : Z := 0x3c.
Definition RETURNDATASIZE : Z := 0x3d.
Definition RETURNDATACOPY : Z := 0x3e.
Definition EXTCODEHASH : Z := 0x3f.
Definition BLOCKHASH : Z := 0x40.
Definition COINBASE : Z := 0x41.
Definition TIMESTAMP : Z := 0x42.
Definition NUMBER : Z := 0x43.
Definition DIFFICULTY : Z := 0x44.
Definition RANDOM : Z := 0x44.
Definition PREVRANDAO : Z := 0x44.
Definition GASLIMIT : Z := 0x45.
Definition CHAINID : Z := 0x46.
Definition SELFBALANCE : Z := 0x47.
Definition BASEFEE : Z := 0x48.
Definition POP : Z := 0x50.
Definition MLOAD : Z := 0x51.
Definition MSTORE : Z := 0x52.
Definition MSTORE8 : Z := 0x53.
Definition SLOAD : Z := 0x54.
Definition SSTORE : Z := 0x55.
Definition JUMP : Z := 0x56.
Definition JUMPI : Z := 0x57.
Definition PC : Z := 0x58.
Definition MSIZE : Z := 0x59.
Definition GAS : Z := 0x5a.
Definition PUSH0 : Z := 0x5f.
Definition DUP1 : Z := 0x80.
Definition SWAP1 : Z := 0x90.
Definition LOG0 : Z := 0xa0.
Definition LOG1 : Z := 0xa1.
Definition LOG2 : Z := 0xa2.
Definition LOG3 : Z := 0xa3.
Definition LOG4 : Z := 0xa4.
Definition TLOAD : Z := 0xb3.
Definition TSTORE : Z := 0xb4.
Definition CREATE : Z := 0xf0.
Definition CALL : Z := 0xf1.
Definition CALLCODE : Z := 0xf2.
Definition RETURN : Z := 0xf3.
Definition DELEGATECALL : Z := 0xf4.
Definition CREATE2 : Z := 0xf5.
Definition STATICCALL : Z := 0xfa.
Definition REVERT : Z := 0xfd.
Definition INVALID : Z := 0xfe.
Definition SELFDESTRUCT : Z := 0xff.

(** How a program ends: with data and an error or none; [Stuck] is only for
    fuel. *)
Inductive exn := Halted (ret : bytes) (err : option vmError) | Stuck.

Section Instructions.
Context {T S : Type} `{Trie : !Tries T S} `{W : !Uint256} (keccak : bytes → Z).
Context (env : evmEnv) (EnablePreimageRecording : bool) (abort : machine T S → bool).
Context (RequiredGas : RulesT → Z → bytes → Z) (precompiled_Run : RulesT → Z → bytes → bytes * option vmError).
Context (rules : RulesT).
#[local] Abbreviation machine := (machine T S).
#[local] Abbreviation frame := (outcome stuck (callResult * stateDB T S)).
#[local] Abbreviation instr := (stm machine exn).
#[local] Abbreviation gasM := (stm machine vmError).

Section Scope.
(** The depth of the frame, whether it is static, and how a callee runs. *)
Context (depth : Z) (readOnly : bool) (Run : Contract → bytes → bool → stateDB T S → frame).

Definition halt {A} (ret : bytes) (err : option vmError) : instr A := raise (Halted ret err).
Definition stop {A} (ret : bytes) : instr A := halt ret None.
Definition fail {A} (e : vmError) : instr A := halt [] (Some e).
Definition protect : instr unit := when readOnly (fail ErrWriteProtection).

(** ** Arithmetic, comparison and bits *)

Definition arith (o : binary) : instr unit := x ← pop; y ← peek; set_top (u_binary o x y).
Definition opAdd : instr unit := arith uAdd.
Definition opSub : instr unit := arith uSub.
Definition opMul : instr unit := arith uMul.
Definition opDiv : instr unit := arith uDiv.
Definition opSdiv : instr unit := arith uSDiv.
Definition opMod : instr unit := arith uMod.
Definition opSmod : instr unit := arith uSMod.
Definition opExp : instr unit := arith uExp.
Definition opAnd : instr unit := arith uAnd.
Definition opOr : instr unit := arith uOr.
Definition opXor : instr unit := arith uXor.
Definition opSignExtend : instr unit := back ← pop; num ← peek; set_top (u_binary uExtendSign num back).
Definition opByte : instr unit := th ← pop; val ← peek; set_top (u_binary uByte val th).
Definition opNot : instr unit := x ← peek; set_top (u_Not x).

Definition comparison (o : compare) : instr unit := x ← pop; y ← peek; set_top (if u_compare o x y then 1 else 0).
Definition opLt : instr unit := comparison uLt.
Definition opGt : instr unit := comparison uGt.
Definition opSlt : instr unit := comparison uSlt.
Definition opSgt : instr unit := comparison uSgt.
Definition opEq : instr unit := comparison uEq.
Definition opIszero : instr unit := x ← peek; set_top (if u_IsZero x then 1 else 0).

Definition opAddmod : instr unit := x ← pop; y ← pop; z ← peek; set_top (if u_IsZero z then 0 else u_AddMod x y z).
Definition opMulmod : instr unit := x ← pop; y ← pop; z ← peek; set_top (u_MulMod x y z).

Definition shift (o : binary) : instr unit :=
  shift ← pop; value ← peek; set_top (if u_LtUint64 shift 256 then u_binary o value (u_Uint64 shift) else 0).
Definition opSHL : instr unit := shift uLsh.
Definition opSHR : instr unit := shift uRsh.
Definition opSAR : instr unit :=
  shift ← pop; value ← peek;
  set_top (if u_GtUint64 shift 256 then (if 0 <=? u_Sign value then 0 else u_AllOne) else u_binary uSRsh value (u_Uint64 shift)).

Definition opKeccak256 : instr unit :=
  offset ← pop; size ← peek;
  mem ← gets_m m_memory;
  data ← pure_out (mem_GetPtr (i64 (u_Uint64 offset)) (i64 (u_Uint64 size)) mem);
  let hash := keccak data in
  _ ← when EnablePreimageRecording (put_db (AddPreimage hash data));
  set_top (u_SetBytes (be_bytes 32 hash)).

(** ** The context of the call *)

Definition opAddress : instr unit := a ← gets_m self; push (u_SetBytes (be_bytes 20 a)).
Definition opBalance : instr unit := slot ← peek; b ← on_db (State.GetBalance keccak (toAddress slot)); set_top (u_FromBig b).
Definition opOrigin : instr unit := push (u_SetBytes (be_bytes 20 (e_Origin env))).
Definition opCaller : instr unit := a ← gets_m (fun m => CallerAddress (m_contract m)); push (u_SetBytes (be_bytes 20 a)).
Definition opCallValue : instr unit := v ← gets_m (fun m => c_value (m_contract m)); v ← need v; push (u_FromBig v).
Definition opCallDataLoad : instr unit :=
  x ← peek; input ← gets_m m_input;
  let '(offset, overflow) := u_Uint64WithOverflow x in
  if negb overflow then data ← pure_out (getData input offset 32); set_top (u_SetBytes data) else set_top 0.
Definition opCallDataSize : instr unit := input ← gets_m m_input; push (u_SetUint64 (go_len input)).

(** Where copying starts, beyond every end when the word is too large. *)
Definition offset64 (x : Z) : Z := let '(r, overflow) := u_Uint64WithOverflow x in if overflow : bool then MaxUint64 else r.
Definition set_mem (offset size : Z) (value : bytes) : instr unit :=
  mem ← gets_m m_memory;
  mem ← pure_out (mem_Set offset size value mem);
  mod_m (set_memory mem).
Definition copy_to_memory (source : instr bytes) : instr unit :=
  memOffset ← pop; dataOffset ← pop; length ← pop;
  data ← source;
  d ← pure_out (getData data (offset64 dataOffset) (u_Uint64 length));
  set_mem (u_Uint64 memOffset) (u_Uint64 length) d.
Definition opCallDataCopy : instr unit := copy_to_memory (gets_m m_input).
Definition opReturnDataSize : instr unit := r ← gets_m m_returnData; push (u_SetUint64 (go_len r)).
Definition opReturnDataCopy : instr unit :=
  memOffset ← pop; dataOffset ← pop; length ← pop;
  r ← gets_m m_returnData;
  let '(offset64, overflow) := u_Uint64WithOverflow dataOffset in
  if overflow : bool then fail ErrReturnDataOutOfBounds else
  let '(end64, overflow) := u_Uint64WithOverflow (u_binary uAdd dataOffset length) in
  if overflow || (go_len r <? end64) then fail ErrReturnDataOutOfBounds else
  d ← pure_out (slice r offset64 end64);
  set_mem (u_Uint64 memOffset) (u_Uint64 length) d.

Definition opExtCodeSize : instr unit := slot ← peek; n ← on_db (GetCodeSize keccak (toAddress slot)); set_top (u_SetUint64 (u64 n)).
Definition opCodeSize : instr unit := code ← gets_m (fun m => c_Code (m_contract m)); push (u_SetUint64 (go_len code)).
Definition opCodeCopy : instr unit := copy_to_memory (gets_m (fun m => c_Code (m_contract m))).
Definition opExtCodeCopy : instr unit :=
  a ← pop;
  copy_to_memory (code ← on_db (GetCode keccak (toAddress a)); mret (default [] code)).
Definition opExtCodeHash : instr unit :=
  slot ← peek;
  let address := toAddress slot in
  empty ← on_db (Empty keccak address);
  if empty : bool then set_top 0 else hash ← on_db (State.GetCodeHash keccak address); set_top (u_SetBytes (be_bytes 32 hash)).

(** ** The block *)

Definition opGasprice : instr unit := push (u_FromBig (e_GasPrice env)).
Definition opBlockhash : instr unit :=
  num ← peek;
  let '(num64, overflow) := u_Uint64WithOverflow num in
  if overflow : bool then set_top 0 else
  let upper := u64 (bc_BlockNumber (e_block env)) in
  let lower := if upper <? 257 then 0 else upper - 256 in
  if (lower <=? num64) && (num64 <? upper) then set_top (u_SetBytes (be_bytes 32 (bc_GetHash (e_block env) num64))) else set_top 0.
Definition opCoinbase : instr unit := push (u_SetBytes (be_bytes 20 (bc_Coinbase (e_block env)))).
Definition opTimestamp : instr unit := push (u_SetUint64 (bc_Time (e_block env))).
Definition opNumber : instr unit := push (u_FromBig (bc_BlockNumber (e_block env))).
Definition opDifficulty : instr unit := push (u_FromBig (bc_Difficulty (e_block env))).
Definition opRandom : instr unit := r ← need (bc_Random (e_block env)); push (u_SetBytes (be_bytes 32 r)).
Definition opGasLimit : instr unit := push (u_SetUint64 (bc_GasLimit (e_block env))).
Definition opSelfBalance : instr unit := a ← gets_m self; b ← on_db (State.GetBalance keccak a); push (u_FromBig b).
Definition opChainID : instr unit := c ← need (ChainID (e_config env)); push (u_FromBig c).
Definition opBaseFee : instr unit := b ← need (bc_BaseFee (e_block env)); push (u_FromBig b).

(** ** Stack, memory and storage *)

Definition opPop : instr unit := _ ← pop; mret tt.
Definition opMload : instr unit :=
  v ← peek; mem ← gets_m m_memory;
  d ← pure_out (mem_GetPtr (i64 (u_Uint64 v)) 32 mem);
  set_top (u_SetBytes d).
Definition opMstore : instr unit :=
  mStart ← pop; val ← pop; mem ← gets_m m_memory;
  mem ← pure_out (mem_Set32 (u_Uint64 mStart) val mem);
  mod_m (set_memory mem).
Definition opMstore8 : instr unit :=
  off ← pop; val ← pop; mem ← gets_m m_memory;
  let i := u_Uint64 off in
  if zlen (store mem) <=? i then pure_out Panic else
  mod_m (set_memory (mkMemory (<[Z.to_nat i := z2b (u_Uint64 val mod 256)]> (store mem)) (lastGasCost mem))).
Definition opSload : instr unit :=
  loc ← peek; a ← gets_m self;
  val ← on_db (GetState keccak a (toHash loc));
  set_top (u_SetBytes (be_bytes 32 val)).
Definition opSstore : instr unit :=
  _ ← protect;
  loc ← pop; val ← pop; a ← gets_m self;
  put_db (SetState keccak a (toHash loc) (toHash val)).
Definition opTload : instr unit :=
  loc ← peek;
  val ← gets_m (fun m => GetTransientState (self m) (toHash loc) (m_db m));
  set_top (u_SetBytes (be_bytes 32 val)).
Definition opTstore : instr unit :=
  _ ← protect;
  loc ← pop; val ← pop; a ← gets_m self;
  put_db (SetTransientState a (toHash loc) (toHash val)).

(** ** Jumps *)

Definition cancelled : instr unit := b ← gets_m abort; when b (stop []).
(** Each frame starts with no analysis of its code; what is kept is what would
    be computed again. *)
Definition jump_to (pos : Z) : instr unit :=
  c ← gets_m m_contract;
  '(ok, _) ← pure_out (never (validJumpdest (c_Code c) (c_CodeHash c) pos (mkCache None ∅)));
  if negb ok then fail ErrInvalidJump else mod_m (set_pc (u64 (u_Uint64 pos - 1))).
Definition opJump : instr unit := _ ← cancelled; pos ← pop; jump_to pos.
Definition opJumpi : instr unit := _ ← cancelled; pos ← pop; cond ← pop; when (negb (u_IsZero cond)) (jump_to pos).
Definition opJumpdest : instr unit := mret tt.
Definition opPc : instr unit := pc ← gets_m m_pc; push (u_SetUint64 pc).
Definition opMsize : instr unit := mem ← gets_m m_memory; push (u_SetUint64 (mem_Len mem)).
Definition opGas : instr unit := g ← gets_m m_gas; push (u_SetUint64 g).

(** ** Creating and calling *)

(** A frame on the current state. *)
Definition nested {A} (f : stateDB T S → outcome stuck (A * stateDB T S)) : instr A := fun m =>
  match f (m_db m) with
  | Ok (a, s) => (Ok a, set_db s m)
  | Err OutOfFuel => (Err Stuck, m)
  | Panic => (Panic, m)
  end.
Definition read_mem (get : Z → Z → Memory → outcome exn bytes) (offset size : Z) : instr bytes :=
  mem ← gets_m m_memory; pure_out (get (i64 (u_Uint64 offset)) (i64 (u_Uint64 size)) mem).
Definition give_back (gas : Z) : instr unit := mod_m (fun m => set_gas (u64 (m_gas m + gas)) m).
(** What a created contract leaves to its creator. *)
Definition created (word : Z) (res : bytes) (returnGas : Z) (suberr : option vmError) : instr unit :=
  _ ← push word;
  _ ← give_back returnGas;
  mod_m (set_returnData (if bool_decide (suberr = Some ErrExecutionReverted) then res else [])).

Definition opCreate : instr unit :=
  _ ← protect;
  value ← pop; offset ← pop; size ← pop;
  input ← read_mem mem_GetCopy offset size;
  have ← gets_m m_gas;
  let gas := if r_IsEIP150 rules then have - have / 64 else have in
  _ ← mod_m (fun m => set_gas (UseGas have gas).1 m);
  let bigVal := if negb (u_IsZero value) then u_ToBig value else 0 in
  c ← gets_m m_contract;
  '(addr, (res, returnGas, suberr)) ← nested (Create keccak Run rules depth (OfContract c) input gas bigVal);
  let word :=
    if r_IsHomestead rules && bool_decide (suberr = Some ErrCodeStoreOutOfGas) then 0
    else if negb (bool_decide (suberr = None)) && negb (bool_decide (suberr = Some ErrCodeStoreOutOfGas)) then 0
    else u_SetBytes (be_bytes 20 addr) in
  created word res returnGas suberr.

Definition opCreate2 : instr unit :=
  _ ← protect;
  endowment ← pop; offset ← pop; size ← pop; salt ← pop;
  input ← read_mem mem_GetCopy offset size;
  have ← gets_m m_gas;
  let gas := have - have / 64 in
  _ ← mod_m (fun m => set_gas (UseGas have gas).1 m);
  let bigEndowment := if negb (u_IsZero endowment) then u_ToBig endowment else 0 in
  c ← gets_m m_contract;
  '(addr, (res, returnGas, suberr)) ← nested (Create2 keccak Run rules depth (OfContract c) input gas bigEndowment (toHash salt));
  let word := if negb (bool_decide (suberr = None)) then 0 else u_SetBytes (be_bytes 20 addr) in
  created word res returnGas suberr.

(** What a callee leaves to its caller. *)
Definition returned (retOffset retSize : Z) (r : callResult) : instr unit :=
  let '(ret, returnGas, err) := r in
  _ ← push (if bool_decide (err = None) then 1 else 0);
  _ ← when (bool_decide (err = None) || bool_decide (err = Some ErrExecutionReverted)) (set_mem (u_Uint64 retOffset) (u_Uint64 retSize) ret);
  _ ← give_back returnGas;
  mod_m (set_returnData ret).

Definition opCall : instr unit :=
  _ ← pop;
  gas ← gets_m m_callGasTemp;
  addr ← pop; value ← pop; inOffset ← pop; inSize ← pop; retOffset ← pop; retSize ← pop;
  args ← read_mem mem_GetPtr inOffset inSize;
  _ ← when (readOnly && negb (u_IsZero value)) (fail ErrWriteProtection);
  let '(gas, bigVal) := if negb (u_IsZero value) then (u64 (gas + CallStipend), u_ToBig value) else (gas, 0) in
  c ← gets_m m_contract;
  r ← nested (Call keccak Run RequiredGas precompiled_Run rules depth (OfContract c) (toAddress addr) args gas bigVal);
  returned retOffset retSize r.
Definition opCallCode : instr unit :=
  _ ← pop;
  gas ← gets_m m_callGasTemp;
  addr ← pop; value ← pop; inOffset ← pop; inSize ← pop; retOffset ← pop; retSize ← pop;
  args ← read_mem mem_GetPtr inOffset inSize;
  let '(gas, bigVal) := if negb (u_IsZero value) then (u64 (gas + CallStipend), u_ToBig value) else (gas, 0) in
  c ← gets_m m_contract;
  r ← nested (CallCode keccak Run RequiredGas precompiled_Run rules depth (OfContract c) (toAddress addr) args gas bigVal);
  returned retOffset retSize r.
Definition opDelegateCall : instr unit :=
  _ ← pop;
  gas ← gets_m m_callGasTemp;
  addr ← pop; inOffset ← pop; inSize ← pop; retOffset ← pop; retSize ← pop;
  args ← read_mem mem_GetPtr inOffset inSize;
  c ← gets_m m_contract;
  r ← nested (DelegateCall keccak Run RequiredGas precompiled_Run rules depth (OfContract c) (toAddress addr) args gas);
  returned retOffset retSize r.
Definition opStaticCall : instr unit :=
  _ ← pop;
  gas ← gets_m m_callGasTemp;
  addr ← pop; inOffset ← pop; inSize ← pop; retOffset ← pop; retSize ← pop;
  args ← read_mem mem_GetPtr inOffset inSize;
  c ← gets_m m_contract;
  r ← nested (StaticCall keccak Run RequiredGas precompiled_Run rules depth (OfContract c) (toAddress addr) args gas);
  returned retOffset retSize r.

(** ** Ends, logs, pushes *)

Definition opReturn : instr unit := offset ← pop; size ← pop; ret ← read_mem mem_GetPtr offset size; stop ret.
Definition opRevert : instr unit :=
  offset ← pop; size ← pop; ret ← read_mem mem_GetPtr offset size;
  _ ← mod_m (set_returnData ret);
  halt ret (Some ErrExecutionReverted).
Definition opUndefined : instr unit :=
  op ← gets_m (fun m => c_Code (m_contract m) !! Z.to_nat (m_pc m));
  op ← need op;
  fail (ErrInvalidOpCode (b2z op)).
Definition opStop : instr unit := stop [].
Definition opSelfdestruct : instr unit :=
  _ ← protect;
  beneficiary ← pop; a ← gets_m self;
  balance ← on_db (State.GetBalance keccak a);
  _ ← put_db (State.AddBalance keccak (toAddress beneficiary) balance);
  _ ← on_db (Suicide keccak a);
  stop [].

Fixpoint pop_topics (n : nat) : instr (list Z) :=
  match n with O => mret [] | Datatypes.S n => t ← pop; ts ← pop_topics n; mret (toHash t :: ts) end.
Definition makeLog (size : nat) : instr unit :=
  _ ← protect;
  mStart ← pop; mSize ← pop;
  topics ← pop_topics size;
  d ← read_mem mem_GetCopy mStart mSize;
  a ← gets_m self;
  put_db (AddLog (mkLog a topics d (u64 (bc_BlockNumber (e_block env))) 0 0 0 0 false)).

Definition opPush0 : instr unit := push 0.
Definition opPush1 : instr unit :=
  code ← gets_m (fun m => c_Code (m_contract m));
  _ ← mod_m (fun m => set_pc (u64 (m_pc m + 1)) m);
  pc ← gets_m m_pc;
  if pc <? go_len code then b ← need (code !! Z.to_nat pc); push (u_SetUint64 (b2z b)) else push 0.
Definition makePush (size : Z) (pushByteSize : Z) : instr unit :=
  code ← gets_m (fun m => c_Code (m_contract m));
  pc ← gets_m m_pc;
  let codeLen := go_len code in
  let next := i64 (u64 (pc + 1)) in
  let startMin := if next <? codeLen then next else codeLen in
  let endMin := if startMin + pushByteSize <? codeLen then startMin + pushByteSize else codeLen in
  d ← pure_out (slice code startMin endMin);
  _ ← push (u_SetBytes (RightPadBytes d pushByteSize));
  mod_m (set_pc (u64 (pc + size))).
Definition makeDup (size : nat) : instr unit := dup size.
Definition makeSwap (size : nat) : instr unit := swap (size + 1).

(** ** Instruction tables *)

Record operation := mkOperation {
  execute : instr unit;
  constantGas : Z;
  dynamicGas : option (Z → gasM Z);
  minStack : Z;
  maxStack : Z;
  memorySize : option (stm machine exn (Z * bool))
}.
(** An instruction that takes [pops] words and leaves [pushes]. *)
Definition entry (e : instr unit) (gas : Z) (dyn : option (Z → gasM Z)) (pops pushes : Z) (mem : option (stm machine exn (Z * bool))) : operation :=
  mkOperation e gas dyn pops (StackLimit + pops - pushes) mem.
Definition plain (e : instr unit) (gas pops pushes : Z) : operation := entry e gas None pops pushes None.
Definition with_constantGas (gas : Z) (o : operation) : operation := mkOperation (execute o) gas (dynamicGas o) (minStack o) (maxStack o) (memorySize o).
Definition with_dynamicGas (dyn : Z → gasM Z) (o : operation) : operation := mkOperation (execute o) (constantGas o) (Some dyn) (minStack o) (maxStack o) (memorySize o).

(** A table has an entry for each byte. *)
Definition JumpTable : Type := Z → operation.
Definition set_op (k : Z) (o : operation) (jt : JumpTable) : JumpTable := fun i => if i =? k then o else jt i.
Definition reprice (k gas : Z) (jt : JumpTable) : JumpTable := set_op k (with_constantGas gas (jt k)) jt.
Definition remeter (k : Z) (dyn : Z → gasM Z) (jt : JumpTable) : JumpTable := set_op k (with_dynamicGas dyn (jt k)) jt.

Definition gasCallDataCopy : Z → gasM Z := memoryCopierGas 2.
Definition gasCodeCopy : Z → gasM Z := memoryCopierGas 2.
Definition gasExtCodeCopy : Z → gasM Z := memoryCopierGas 3.
Definition gasReturnDataCopy : Z → gasM Z := memoryCopierGas 2.
Definition gasReturn : Z → gasM Z := pureMemoryGascost.
Definition gasRevert : Z → gasM Z := pureMemoryGascost.
Definition gasMLoad : Z → gasM Z := pureMemoryGascost.
Definition gasMStore8 : Z → gasM Z := pureMemoryGascost.
Definition gasMStore : Z → gasM Z := pureMemoryGascost.
Definition gasCreate : Z → gasM Z := pureMemoryGascost.

(** The first table, by the rows of the source. *)
Definition frontier_arithmetic : list (Z * operation) :=
  [(STOP, plain opStop 0 0 0);
   (ADD, plain opAdd GasFastestStep 2 1);
   (MUL, plain opMul GasFastStep 2 1);
   (SUB, plain opSub GasFastestStep 2 1);
   (DIV, plain opDiv GasFastStep 2 1);
   (SDIV, plain opSdiv GasFastStep 2 1);
   (MOD, plain opMod GasFastStep 2 1);
   (SMOD, plain opSmod GasFastStep 2 1);
   (ADDMOD, plain opAddmod GasMidStep 3 1);
   (MULMOD, plain opMulmod GasMidStep 3 1);
   (EXP, entry opExp 0 (Some gasExpFrontier) 2 1 None);
   (SIGNEXTEND, plain opSignExtend GasFastStep 2 1)].
Definition frontier_comparison : list (Z * operation) :=
  [(LT, plain opLt GasFastestStep 2 1);
   (GT, plain opGt GasFastestStep 2 1);
   (SLT, plain opSlt GasFastestStep 2 1);
   (SGT, plain opSgt GasFastestStep 2 1);
   (EQ, plain opEq GasFastestStep 2 1);
   (ISZERO, plain opIszero GasFastestStep 1 1);
   (AND, plain opAnd GasFastestStep 2 1);
   (XOR, plain opXor GasFastestStep 2 1);
   (OR, plain opOr GasFastestStep 2 1);
   (NOT, plain opNot GasFastestStep 1 1);
   (BYTE, plain opByte GasFastestStep 2 1)].
Definition frontier_context : list (Z * operation) :=
  [(KECCAK256, entry opKeccak256 Keccak256Gas (Some gasKeccak256) 2 1 (Some memoryKeccak256));
   (ADDRESS, plain opAddress GasQuickStep 0 1);
   (BALANCE, plain opBalance BalanceGasFrontier 1 1);
   (ORIGIN, plain opOrigin GasQuickStep 0 1);
   (CALLER, plain opCaller GasQuickStep 0 1);
   (CALLVALUE, plain opCallValue GasQuickStep 0 1);
   (CALLDATALOAD, plain opCallDataLoad GasFastestStep 1 1);
   (CALLDATASIZE, plain opCallDataSize GasQuickStep 0 1);
   (CALLDATACOPY, entry opCallDataCopy GasFastestStep (Some gasCallDataCopy) 3 0 (Some memoryCallDataCopy));
   (CODESIZE, plain opCodeSize GasQuickStep 0 1);
   (CODECOPY, entry opCodeCopy GasFastestStep (Some gasCodeCopy) 3 0 (Some memoryCodeCopy));
   (GASPRICE, plain opGasprice GasQuickStep 0 1);
   (EXTCODESIZE, plain opExtCodeSize ExtcodeSizeGasFrontier 1 1);
   (EXTCODECOPY, entry opExtCodeCopy ExtcodeCopyBaseFrontier (Some gasExtCodeCopy) 4 0 (Some memoryExtCodeCopy))].
Definition frontier_block : list (Z * operation) :=
  [(BLOCKHASH, plain opBlockhash GasExtStep 1 1);
   (COINBASE, plain opCoinbase GasQuickStep 0 1);
   (TIMESTAMP, plain opTimestamp GasQuickStep 0 1);
   (NUMBER, plain opNumber GasQuickStep 0 1);
   (DIFFICULTY, plain opDifficulty GasQuickStep 0 1);
   (GASLIMIT, plain opGasLimit GasQuickStep 0 1)].
Definition frontier_storage : list (Z * operation) :=
  [(POP, plain opPop GasQuickStep 1 0);
   (MLOAD, entry opMload GasFastestStep (Some gasMLoad) 1 1 (Some memoryMLoad));
   (MSTORE, entry opMstore GasFastestStep (Some gasMStore) 2 0 (Some memoryMStore));
   (MSTORE8, entry opMstore8 GasFastestStep (Some gasMStore8) 2 0 (Some memoryMStore8));
   (SLOAD, plain opSload SloadGasFrontier 1 1);
   (SSTORE, entry opSstore 0 (Some (gasSStore keccak rules)) 2 0 None);
   (JUMP, plain opJump GasMidStep 1 0);
   (JUMPI, plain opJumpi GasSlowStep 2 0);
   (PC, plain opPc GasQuickStep 0 1);
   (MSIZE, plain opMsize GasQuickStep 0 1);
   (GAS, plain opGas GasQuickStep 0 1);
   (JUMPDEST, plain opJumpdest JumpdestGas 0 0)].
Definition frontier_push : list (Z * operation) :=
  (PUSH1, plain opPush1 GasFastestStep 0 1) ::
  map (fun n => (PUSH1 + n - 1, plain (makePush n n) GasFastestStep 0 1)) (seqZ 2 31).
Definition frontier_dup : list (Z * operation) :=
  map (fun n => (DUP1 + n - 1, plain (makeDup (Z.to_nat n)) GasFastestStep n (n + 1))) (seqZ 1 16).
Definition frontier_swap : list (Z * operation) :=
  map (fun n => (SWAP1 + n - 1, plain (makeSwap (Z.to_nat n)) GasFastestStep (n + 1) (n + 1))) (seqZ 1 16).
Definition frontier_system : list (Z * operation) :=
  [(LOG0, entry (makeLog 0) 0 (Some (makeGasLog 0)) 2 0 (Some memoryLog));
   (LOG1, entry (makeLog 1) 0 (Some (makeGasLog 1)) 3 0 (Some memoryLog));
   (LOG2, entry (makeLog 2) 0 (Some (makeGasLog 2)) 4 0 (Some memoryLog));
   (LOG3, entry (makeLog 3) 0 (Some (makeGasLog 3)) 5 0 (Some memoryLog));
   (LOG4, entry (makeLog 4) 0 (Some (makeGasLog 4)) 6 0 (Some memoryLog));
   (CREATE, entry opCreate CreateGas (Some gasCreate) 3 1 (Some memoryCreate));
   (CALL, entry opCall CallGasFrontier (Some (gasCall keccak rules)) 7 1 (Some memoryCall));
   (CALLCODE, entry opCallCode CallGasFrontier (Some (gasCallCode rules)) 7 1 (Some memoryCall));
   (RETURN, entry opReturn 0 (Some gasReturn) 2 0 (Some memoryReturn));
   (SELFDESTRUCT, entry opSelfdestruct 0 (Some (gasSelfdestruct keccak rules)) 1 0 None)].
Definition frontier_rows : list (Z * operation) :=
  frontier_arithmetic ++ frontier_comparison ++ frontier_context ++ frontier_block ++ frontier_storage ++ frontier_push ++
  frontier_dup ++ frontier_swap ++ frontier_system.
(** Unassigned bytes are undefined instructions. *)
Definition newFrontierInstructionSet : JumpTable :=
  foldr (fun '(k, o) jt => set_op k o jt) (fun _ => mkOperation opUndefined 0 None 0 StackLimit None) frontier_rows.

Definition newHomesteadInstructionSet : JumpTable :=
  set_op DELEGATECALL (entry opDelegateCall CallGasFrontier (Some (gasDelegateCall rules)) 6 1 (Some memoryDelegateCall)) newFrontierInstructionSet.
(** EIP 150. *)
Definition newTangerineWhistleInstructionSet : JumpTable :=
  reprice DELEGATECALL CallGasEIP150 $ reprice CALLCODE CallGasEIP150 $ reprice CALL CallGasEIP150 $
  reprice EXTCODECOPY ExtcodeCopyBaseEIP150 $ reprice SLOAD SloadGasEIP150 $ reprice EXTCODESIZE ExtcodeSizeGasEIP150 $
  reprice BALANCE BalanceGasEIP150 newHomesteadInstructionSet.
(** EIP 158. *)
Definition newSpuriousDragonInstructionSet : JumpTable := remeter EXP gasExpEIP158 newTangerineWhistleInstructionSet.
Definition newByzantiumInstructionSet : JumpTable :=
  set_op REVERT (entry opRevert 0 (Some gasRevert) 2 0 (Some memoryRevert)) $
  set_op RETURNDATACOPY (entry opReturnDataCopy GasFastestStep (Some gasReturnDataCopy) 3 0 (Some memoryReturnDataCopy)) $
  set_op RETURNDATASIZE (plain opReturnDataSize GasQuickStep 0 1) $
  set_op STATICCALL (entry opStaticCall CallGasEIP150 (Some (gasStaticCall rules)) 6 1 (Some memoryStaticCall)) newSpuriousDragonInstructionSet.
Definition newConstantinopleInstructionSet : JumpTable :=
  set_op CREATE2 (entry opCreate2 Create2Gas (Some gasCreate2) 4 1 (Some memoryCreate2)) $
  set_op EXTCODEHASH (plain opExtCodeHash ExtcodeHashGasConstantinople 1 1) $
  set_op SAR (plain opSAR GasFastestStep 2 1) $
  set_op SHR (plain opSHR GasFastestStep 2 1) $
  set_op SHL (plain opSHL GasFastestStep 2 1) newByzantiumInstructionSet.

Definition enable1344 (jt : JumpTable) : JumpTable := set_op CHAINID (plain opChainID GasQuickStep 0 1) jt.
Definition enable1884 (jt : JumpTable) : JumpTable :=
  set_op SELFBALANCE (plain opSelfBalance GasFastStep 0 1) $
  reprice EXTCODEHASH ExtcodeHashGasEIP1884 $ reprice BALANCE BalanceGasEIP1884 $ reprice SLOAD SloadGasEIP1884 jt.
Definition enable2200 (jt : JumpTable) : JumpTable := remeter SSTORE (gasSStoreEIP2200 keccak) $ reprice SLOAD SloadGasEIP2200 jt.
Definition newIstanbulInstructionSet : JumpTable := enable2200 (enable1884 (enable1344 newConstantinopleInstructionSet)).

(** An instruction whose access to state is metered. *)
Definition access (k gas : Z) (dyn : Z → gasM Z) (jt : JumpTable) : JumpTable := remeter k dyn (reprice k gas jt).
Definition enable2929 (jt : JumpTable) : JumpTable :=
  access SELFDESTRUCT SelfdestructGasEIP150 (gasSelfdestructEIP2929 keccak) $
  access DELEGATECALL WarmStorageReadCostEIP2929 (gasDelegateCallEIP2929 rules) $
  access STATICCALL WarmStorageReadCostEIP2929 (gasStaticCallEIP2929 rules) $
  access CALLCODE WarmStorageReadCostEIP2929 (gasCallCodeEIP2929 rules) $
  access CALL WarmStorageReadCostEIP2929 (gasCallEIP2929 keccak rules) $
  access BALANCE WarmStorageReadCostEIP2929 gasEip2929AccountCheck $
  access EXTCODEHASH WarmStorageReadCostEIP2929 gasEip2929AccountCheck $
  access EXTCODESIZE WarmStorageReadCostEIP2929 gasEip2929AccountCheck $
  access EXTCODECOPY WarmStorageReadCostEIP2929 gasExtCodeCopyEIP2929 $
  access SLOAD 0 gasSLoadEIP2929 $
  remeter SSTORE (gasSStoreEIP2929 keccak) jt.
Definition newBerlinInstructionSet : JumpTable := enable2929 newIstanbulInstructionSet.

Definition enable3529 (jt : JumpTable) : JumpTable :=
  remeter SELFDESTRUCT (gasSelfdestructEIP3529 keccak) $ remeter SSTORE (gasSStoreEIP3529 keccak) jt.
Definition enable3198 (jt : JumpTable) : JumpTable := set_op BASEFEE (plain opBaseFee GasQuickStep 0 1) jt.
Definition newLondonInstructionSet : JumpTable := enable3198 (enable3529 newBerlinInstructionSet).
Definition newMergeInstructionSet : JumpTable := set_op PREVRANDAO (plain opRandom GasQuickStep 0 1) newLondonInstructionSet.
Definition enable3855 (jt : JumpTable) : JumpTable := set_op PUSH0 (plain opPush0 GasQuickStep 0 1) jt.
Definition enable3860 (jt : JumpTable) : JumpTable := remeter CREATE2 gasCreate2Eip3860 $ remeter CREATE gasCreateEip3860 jt.
Definition newShanghaiInstructionSet : JumpTable := enable3860 (enable3855 newMergeInstructionSet).
(** Only by configuration. *)
Definition enable1153 (jt : JumpTable) : JumpTable :=
  set_op TSTORE (plain opTstore WarmStorageReadCostEIP2929 2 0) $ set_op TLOAD (plain opTload WarmStorageReadCostEIP2929 1 1) jt.

(** Memory use implies a gas function. *)
Definition validate (jt : JumpTable) : bool :=
  forallb (fun i => match memorySize (jt i), dynamicGas (jt i) with Some _, None => false | _, _ => true end) (seqZ 0 256).

(** [NewEVMInterpreter]. *)
Definition NewEVMInterpreter : JumpTable :=
  if r_IsShanghai rules then newShanghaiInstructionSet
  else if r_IsMerge rules then newMergeInstructionSet
  else if r_IsLondon rules then newLondonInstructionSet
  else if r_IsBerlin rules then newBerlinInstructionSet
  else if r_IsIstanbul rules then newIstanbulInstructionSet
  else if r_IsConstantinople rules then newConstantinopleInstructionSet
  else if r_IsByzantium rules then newByzantiumInstructionSet
  else if r_IsEIP158 rules then newSpuriousDragonInstructionSet
  else if r_IsEIP150 rules then newTangerineWhistleInstructionSet
  else if r_IsHomestead rules then newHomesteadInstructionSet
  else newFrontierInstructionSet.

(** ** One turn of the loop *)

Definition GetOp (c : Contract) (n : Z) : Z :=
  if n <? go_len (c_Code c) then (match c_Code c !! Z.to_nat n with Some b => b2z b | None => STOP end) else STOP.
Definition use_gas (cost : Z) : instr unit :=
  g ← gets_m m_gas;
  let '(g, ok) := UseGas g cost in
  if ok : bool then mod_m (set_gas g) else fail ErrOutOfGas.
(** Every error of a gas function ends the program for lack of gas. *)
Definition charged (f : gasM Z) : instr Z := fun m =>
  match f m with
  | (Ok cost, m) => (Ok cost, m)
  | (Err _, m) => (Err (Halted [] (Some ErrOutOfGas)), m)
  | (Panic, m) => (Panic, m)
  end.
Definition memory_size (f : option (instr (Z * bool))) : instr Z :=
  match f with
  | None => mret 0
  | Some f =>
      '(memSize, overflow) ← f;
      if overflow : bool then fail ErrGasUintOverflow else
      let '(memorySize, overflow) := SafeMul (vm_toWordSize memSize) 32 in
      if overflow : bool then fail ErrGasUintOverflow else mret memorySize
  end.
Definition charge_dynamic (dyn : Z → gasM Z) (mem : option (instr (Z * bool))) : instr unit :=
  memorySize ← memory_size mem;
  dynamicCost ← charged (dyn memorySize);
  _ ← use_gas dynamicCost;
  when (0 <? memorySize) (mod_m (fun m => set_memory (mem_Resize memorySize (m_memory m)) m)).
Definition perform (o : operation) : instr unit :=
  sLen ← gets_m (fun m => zlen (m_stack m));
  if sLen <? minStack o then fail (ErrStackUnderflow sLen (minStack o)) else
  if maxStack o <? sLen then fail (ErrStackOverflow sLen (maxStack o)) else
  _ ← use_gas (constantGas o);
  _ ← (match dynamicGas o with Some dyn => charge_dynamic dyn (memorySize o) | None => mret tt end);
  execute o.
Definition step : instr unit :=
  op ← gets_m (fun m => GetOp (m_contract m) (m_pc m));
  _ ← perform (NewEVMInterpreter op);
  mod_m (fun m => set_pc (u64 (m_pc m + 1)) m).
End Scope.

(** ** The loop and the program *)

(** [Run] of a callee is [Run] of the interpreter, one frame deeper. *)
Definition start (c : Contract) (input : bytes) (s : stateDB T S) : machine := mkMachine 0 [] NewMemory c input [] 0 s.
Definition exit (m : machine) (ret : bytes) (err : option vmError) : callResult * stateDB T S := (ret, m_gas m, err, m_db m).
Fixpoint loop (fuel : nat) (depth : Z) (readOnly : bool) (m : machine) : frame :=
  match fuel with
  | O => Err OutOfFuel
  | Datatypes.S fuel =>
      let callee c input ro s :=
        if zlen (c_Code c) =? 0 then Ok ([], c_Gas c, None, s) else loop fuel (depth + 1) (readOnly || ro) (start c input s) in
      match step depth readOnly callee m with
      | (Ok _, m) => loop fuel depth readOnly m
      | (Err (Halted ret err), m) => Ok (exit m ret err)
      | (Err Stuck, _) => Err OutOfFuel
      | (Panic, _) => Panic
      end
  end.
(** [depth] is that of the caller. *)
Definition Run (fuel : nat) (depth : Z) (readOnly : bool) (c : Contract) (input : bytes) (ro : bool) (s : stateDB T S) : frame :=
  if zlen (c_Code c) =? 0 then Ok ([], c_Gas c, None, s) else loop fuel (depth + 1) (readOnly || ro) (start c input s).
End Instructions.
