(* ===== verification/InterpreterSafe.v ===== *)
(** Every instruction of every fork keeps the invariant of [VmSafe.v] and pays
    for what it does; so the interpreter always returns, and what it promises is
    what frames rely on ([Evm.runs_ok]). *)

From S2P Require Import Prelude RLP Types Receipts Config Transactions StateTransition State StateJournal StateEffects Evm Jumpdest Vm VmSafe StorageGas Interpreter.

#[local] Arguments mem_GetPtr : simpl never.
#[local] Arguments mem_GetCopy : simpl never.
#[local] Arguments mem_Set : simpl never.
#[local] Arguments mem_Set32 : simpl never.

Section Safe.
Context {T S : Type} `{Trie : !Tries T S} `{W : !Uint256} `{WL : !Uint256Laws} (keccak : bytes → Z).
Context (env : evmEnv) (EnablePreimageRecording : bool) (abort : machine T S → bool).
Context (RequiredGas : RulesT → Z → bytes → Z) (precompiled_Run : RulesT → Z → bytes → bytes * option vmError).
Context (rules : RulesT) (R : Z).
Context (depth : Z) (ro : bool) (callee : Contract → bytes → bool → stateDB T S → outcome stuck (callResult * stateDB T S)) (limit : Z).
Context (Hrun : runs_ok keccak callee rules R ro limit) (Hgas : ∀ r a i, 0 ≤ RequiredGas r a i).
(** The numbers of a block that are 64 bits wide. *)
Context (Htime : is_u64 (bc_Time (e_block env))) (Hlimit : is_u64 (bc_GasLimit (e_block env))).
#[local] Abbreviation machine := (machine T S).
#[local] Abbreviation machine_ok := (machine_ok keccak rules R).
#[local] Abbreviation dbstep := (dbstep keccak R).
#[local] Abbreviation instr := (stm machine exn).
Implicit Types (m : machine).

(** ** What an instruction does *)

(** From the state [s0] with the gas [g0] the program goes on, or ends. *)
Record next_ok (s0 : stateDB T S) (g0 : Z) m : Prop := {
  nx_machine : machine_ok m;
  nx_gas : m_gas m < g0;
  nx_paid : ∃ d, dbstep ro d s0 (m_db m) ∧ d + rate * m_gas m ≤ rate * g0
}.
Definition done_ok (s0 : stateDB T S) (g0 : Z) (e : exn) m : Prop :=
  match e with
  | Stuck => False
  | Halted ret err => 0 ≤ m_gas m ≤ g0 ∧ ext keccak s0 (m_db m) ∧ err ≠ Some ErrCodeStoreOutOfGas ∧ (err = None → spent keccak R ro s0 g0 (m_gas m) (m_db m))
  end.
Definition goes (s0 : stateDB T S) (g0 : Z) (i : instr unit) m : Prop := wp i (fun _ => next_ok s0 g0) (done_ok s0 g0) m.

(** The gas is paid and the memory is there. *)
Record ready (s0 : stateDB T S) (g0 : Z) m : Prop := {
  rd_state : state_ok keccak R s0 g0;
  rd_limit : g0 ≤ limit;
  rd_machine : machine_ok m;
  rd_gas : m_gas m ≤ g0;
  rd_db : dbstep ro 0 s0 (m_db m)
}.

Lemma next_quiet s0 g0 m m' : ready s0 g0 m → m_gas m < g0 → m_contract m' = m_contract m → dbstep ro 0 (m_db m) (m_db m') →
  Forall is_word (m_stack m') → zlen (m_stack m') ≤ StackLimit → mem_ok (m_memory m') → is_u64 (m_pc m') → next_ok s0 g0 m'.
Proof.
  intros [_ _ Hm Hg Hd] Hlt Ec Hs Hw Hl Hme Hp. pose proof (k_value _ _ _ _ Hm) as Hv. assert (Eg : m_gas m' = m_gas m) by (unfold m_gas; by rewrite Ec).
  pose proof (sk_gas _ _ _ _ (k_state _ _ _ _ Hm)). split; [|lia|exists 0; split; [by eapply dbstep_then|unfold rate; lia]].
  apply (machine_ok_after keccak rules R ro 0 m); try done; [lia|lia|unfold self; by rewrite Ec|by rewrite Ec].
Qed.
Lemma done_quiet s0 g0 m m' ret err : ready s0 g0 m → m_gas m' = m_gas m → ext keccak (m_db m) (m_db m') → err ≠ Some ErrCodeStoreOutOfGas →
  (err = None → dbstep ro 0 (m_db m) (m_db m')) → done_ok s0 g0 (Halted ret err) m'.
Proof.
  intros [_ _ Hm Hg Hd] Eg Hx He Hn. pose proof (sk_gas _ _ _ _ (k_state _ _ _ _ Hm)). cbn. rewrite Eg. split; [lia|]. split; [etrans; [apply Hd|done]|]. split; [done|].
  intros E. apply spent_step; [eapply dbstep_then; [exact Hd|by apply Hn]|lia].
Qed.

(** An instruction on a stack with [pops] words that leaves [pushes], which
    uses [regions] of the memory. *)
Definition fits (pops pushes : Z) m : Prop := pops ≤ zlen (m_stack m) ∧ zlen (m_stack m) + pushes - pops ≤ StackLimit.
Definition in_code m : Prop := 0 ≤ m_pc m < go_len (c_Code (m_contract m)).
Definition does (pops pushes : Z) (regions : list Z → list (Z * Z)) (i : instr unit) : Prop := ∀ s0 g0 m,
  ready s0 g0 m → m_gas m < g0 → fits pops pushes m → in_code m → Forall (holds (m_memory m)) (regions (m_stack m)) → goes s0 g0 i m.
Definition no_memory : list Z → list (Z * Z) := fun _ => [].

(** Opens an instruction on a stack of [n] words. *)
Tactic Notation "open_op" int_or_var(n) :=
  let Hl := fresh "Hl" in let Hl' := fresh "Hl'" in let Hw := fresh "Hw" in let HM := fresh "HM" in
  intros s0 g0 m Hr Hg [Hl Hl'] Hc Hh; pose proof (rd_machine _ _ _ Hr) as HM; pose proof (k_words _ _ _ _ HM) as Hw;
  pose proof (k_mem _ _ _ _ HM) as Hmem; pose proof (k_pc _ _ _ _ HM) as Hpc; pose proof (machine_db _ _ _ _ HM) as Hok;
  destruct m as [pc st mem c inp rd cg db]; cbn [m_stack m_memory m_contract m_pc m_db m_input m_returnData] in *;
  do n (let x := fresh "x" in destruct st as [|x st]; [exfalso; revert Hl; unfold zlen; cbn [length]; lia|]);
  repeat match goal with H : Forall is_word (_ :: _) |- _ => apply Forall_cons in H; destruct H end.
(** The stack after it. *)
Ltac close_op := eapply next_quiet; [eassumption|assumption|reflexivity|first [apply dbstep_refl|assumption]|cbn; repeat (apply Forall_cons; split); try assumption|
  cbn; unfold zlen in *; cbn [length] in *; lia|first [assumption|cbn; try assumption]|first [assumption|cbn; try apply u64_range]].

Lemma does_arith o : does 2 1 no_memory (arith o).
Proof. open_op 2. close_op. by apply w_binary. Qed.
Lemma word_bit (b : bool) : is_word (if b then 1 else 0).
Proof. by destruct b. Qed.
Lemma word_u64 x : is_word x → is_word (u_Uint64 x).
Proof. intros Hx. rewrite w_Uint64 by done. pose proof (Z.mod_pos_bound x (2 ^ 64)). unfold is_word. lia. Qed.
Lemma word_of_u64 n : is_u64 n → is_word (u_SetUint64 n).
Proof. intros Hn. rewrite w_SetUint64 by done. unfold is_word, is_u64 in *. lia. Qed.
Lemma word_0 : is_word 0.
Proof. done. Qed.
Create HintDb words.
#[local] Hint Resolve word_bit word_u64 word_of_u64 word_0 w_binary w_AddMod w_MulMod w_Not w_AllOne w_FromBig w_SetBytes : words.

Lemma does_comparison o : does 2 1 no_memory (comparison o).
Proof. open_op 2. close_op. auto with words. Qed.
Lemma does_signextend : does 2 1 no_memory opSignExtend.
Proof. open_op 2. close_op. auto with words. Qed.
Lemma does_byte : does 2 1 no_memory opByte.
Proof. open_op 2. close_op. auto with words. Qed.
Lemma does_not : does 1 1 no_memory opNot.
Proof. open_op 1. close_op. auto with words. Qed.
Lemma does_iszero : does 1 1 no_memory opIszero.
Proof. open_op 1. close_op. auto with words. Qed.
Lemma does_addmod : does 3 1 no_memory opAddmod.
Proof. open_op 3. close_op. case_if; auto with words. Qed.
Lemma does_mulmod : does 3 1 no_memory opMulmod.
Proof. open_op 3. close_op. auto with words. Qed.
Lemma does_shift o : does 2 1 no_memory (shift o).
Proof. open_op 2. close_op. case_if; auto with words. Qed.
Lemma does_sar : does 2 1 no_memory opSAR.
Proof. open_op 2. close_op. repeat case_if; auto with words. Qed.

(** *** Pushing one word *)
Lemma does_push x : is_word x → does 0 1 no_memory (push x).
Proof. intros Hx. open_op 0. by close_op. Qed.
Lemma does_read (f : machine → Z) : (∀ m, machine_ok m → is_word (f m)) → does 0 1 no_memory (x ← gets_m f; push x).
Proof. intros Hf. open_op 0. close_op. by apply Hf. Qed.
Lemma does_address : does 0 1 no_memory opAddress.
Proof. open_op 0. close_op. auto with words. Qed.
Lemma does_caller : does 0 1 no_memory opCaller.
Proof. open_op 0. close_op. auto with words. Qed.
Lemma does_callvalue : does 0 1 no_memory opCallValue.
Proof.
  open_op 0. destruct (k_value _ _ _ _ HM) as [v Ev]. cbn in Ev. unfold goes, wp, opCallValue, gets_m, need, pure_out, mbind, stm_bind. cbn. rewrite Ev. cbn. close_op. auto with words.
Qed.
Lemma does_need (o : option Z) (f : Z → Z) : is_Some o → (∀ x, is_word (f x)) → does 0 1 no_memory (r ← need o; push (f r)).
Proof. intros [x ->] Hf. open_op 0. by close_op. Qed.
Lemma go_len_range b : is_u64 (go_len b).
Proof. unfold go_len, is_u64, zlen. lia. Qed.
Lemma does_len (f : machine → bytes) : does 0 1 no_memory (b ← gets_m f; push (u_SetUint64 (go_len b))).
Proof. open_op 0. close_op. apply word_of_u64, go_len_range. Qed.
Lemma does_pc : does 0 1 no_memory opPc.
Proof. open_op 0. close_op. by apply word_of_u64. Qed.
Lemma does_msize : does 0 1 no_memory opMsize.
Proof. open_op 0. close_op. apply word_of_u64. pose proof (mem_bound _ Hmem). unfold is_u64, mem_Len. lia. Qed.
Lemma does_gas : does 0 1 no_memory opGas.
Proof. open_op 0. close_op. apply word_of_u64. by apply (gas_u64 keccak rules R) in HM. Qed.
Lemma does_pop : does 1 0 no_memory opPop.
Proof. open_op 1. by close_op. Qed.
Lemma does_jumpdest : does 0 0 no_memory opJumpdest.
Proof. open_op 0. by close_op. Qed.

(** *** Reading the state *)
Lemma does_look {A} (f : Z → stateDB T S → A * stateDB T S) (g : A → Z) :
  (∀ x s v s', db_ok keccak s → f x s = (v, s') → dbstep ro 0 s s') → (∀ v, is_word (g v)) → does 1 1 no_memory (x ← peek; v ← on_db (f x); set_top (g v)).
Proof.
  intros Hf Hv. open_op 1. unfold goes, wp, peek, Back, on_db, mbind, stm_bind. cbn. destruct (f x db) as [v s'] eqn:E. assert (Hs : dbstep ro 0 db s') by (by eapply Hf). cbn. by close_op.
Qed.
Lemma does_balance : does 1 1 no_memory (opBalance keccak).
Proof. apply (does_look (fun x => State.GetBalance keccak (toAddress x)) u_FromBig); [intros; by eapply step_with_object|auto with words]. Qed.
Lemma does_extcodesize : does 1 1 no_memory (opExtCodeSize keccak).
Proof.
  apply (does_look (fun x => GetCodeSize keccak (toAddress x)) (fun n => u_SetUint64 (u64 n))); [intros; by eapply step_GetCodeSize|]. intros. apply word_of_u64, u64_range.
Qed.
Lemma does_extcodehash : does 1 1 no_memory (opExtCodeHash keccak).
Proof.
  open_op 1. unfold goes, wp, opExtCodeHash, peek, Back, on_db, mbind, stm_bind. cbn. destruct (Empty keccak (toAddress x) db) as [e s1] eqn:E1.
  pose proof (step_with_object keccak R ro _ _ _ _ _ _ E1) as H1. destruct e; cbn; [by close_op|]. destruct (State.GetCodeHash keccak (toAddress x) s1) as [h s2] eqn:E2.
  pose proof (step_with_object keccak R ro _ _ _ _ _ _ E2) as H2. assert (Hs : dbstep ro 0 db s2) by (by eapply dbstep_then). cbn. close_op. auto with words.
Qed.
Lemma does_selfbalance : does 0 1 no_memory (opSelfBalance keccak).
Proof.
  open_op 0. unfold goes, wp, opSelfBalance, gets_m, on_db, mbind, stm_bind. cbn. destruct (State.GetBalance keccak _ db) as [b s1] eqn:E1.
  pose proof (step_with_object keccak R ro _ _ _ _ _ _ E1) as H1'. cbn. close_op. auto with words.
Qed.
Lemma does_sload : does 1 1 no_memory (opSload keccak).
Proof.
  open_op 1. unfold goes, wp, opSload, peek, Back, gets_m, on_db, mbind, stm_bind. cbn. destruct (GetState keccak _ (toHash x) db) as [v s1] eqn:E1.
  destruct (step_GetState keccak R ro _ _ _ _ _ Hok E1) as (_ & _ & H1'). cbn. close_op. auto with words.
Qed.
Lemma does_tload : does 1 1 no_memory opTload.
Proof. open_op 1. close_op. auto with words. Qed.
Lemma does_blockhash : does 1 1 no_memory (opBlockhash env).
Proof.
  open_op 1. unfold goes, wp, opBlockhash, peek, Back, mbind, stm_bind. cbn. destruct (u_Uint64WithOverflow x) as [n o].
  destruct o; [by close_op|]. case_if; cbn; close_op; auto with words.
Qed.

(** *** Memory *)

Lemma does_calldataload : does 1 1 no_memory opCallDataLoad.
Proof.
  open_op 1. unfold goes, wp, opCallDataLoad, peek, Back, gets_m, pure_out, mbind, stm_bind. cbn [m_stack m_input lookup list_lookup]. rewrite w_Uint64WithOverflow by done.
  destruct (2 ^ 64 <=? x); cbn [negb]; [by close_op|]. destruct (getData_ok (E := exn) inp (x mod 2 ^ 64) 32) as (d & Ed); [pose proof (Z.mod_pos_bound x (2 ^ 64)); lia|done|].
  rewrite Ed. close_op. auto with words.
Qed.
Definition held (off len : nat) : list Z → list (Z * Z) := fun st => [region off len st].
Ltac open_mem H := match goal with Hh : Forall (holds _) _ |- _ => apply Forall_cons in Hh as [H _]; unfold held, region, word_at in H; cbn in H end.

Lemma does_keccak : does 2 1 (held 0 1) (opKeccak256 keccak EnablePreimageRecording).
Proof.
  open_op 2. open_mem Hin. destruct (mem_GetPtr_ok (E := exn) mem x x0) as (d & Ed); try done.
  unfold goes, wp, opKeccak256, pop, peek, Back, gets_m, pure_out, mbind, stm_bind. cbn. rewrite Ed. destruct EnablePreimageRecording; cbn.
  - assert (Hs : dbstep ro 0 db (AddPreimage (keccak d) d db)) by (by apply step_AddPreimage). close_op. auto with words.
  - close_op. auto with words.
Qed.
Lemma does_mload : does 1 1 (fun st => [(word_at st 0, 32)]) opMload.
Proof.
  open_op 1. apply Forall_cons in Hh as [Hin _]. unfold word_at in Hin. cbn in Hin. destruct (mem_GetPtr_ok (E := exn) mem x 32) as (d & Ed); try done.
  rewrite (w_Uint64 32) in Ed by done. unfold goes, wp, opMload, peek, Back, gets_m, pure_out, mbind, stm_bind. cbn. change (i64 (32 mod 2 ^ 64)) with 32 in Ed. rewrite Ed. close_op. auto with words.
Qed.
Lemma does_mstore : does 2 0 (fun st => [(word_at st 0, 32)]) opMstore.
Proof.
  open_op 2. apply Forall_cons in Hh as [Hin _]. unfold word_at in Hin. cbn in Hin. destruct (mem_Set32_ok (E := exn) mem x x0) as (mem' & Em & Hm'); try done.
  unfold goes, wp, opMstore, pop, gets_m, pure_out, mod_m, mbind, stm_bind. cbn. rewrite Em. by close_op.
Qed.
Lemma does_mstore8 : does 2 0 (fun st => [(word_at st 0, 1)]) opMstore8.
Proof.
  open_op 2. apply Forall_cons in Hh as [Hin _]. unfold word_at in Hin. cbn in Hin.
  destruct (holds_words mem x 1) as (E1 & _ & _ & _ & H2 & _ & H3 & H4); try done. unfold goes, wp, opMstore8, pop, gets_m, pure_out, mod_m, mbind, stm_bind. cbn. rewrite E1.
  rewrite (proj2 (Z.leb_gt _ _)) by lia. close_op. apply mem_ok_store; [done|]. unfold zlen. by rewrite length_insert.
Qed.

Lemma wp_set_mem off len v m (Q : unit → machine → Prop) QE : mem_ok (m_memory m) → is_word off → is_word len → holds (m_memory m) (off, len) →
  (∀ mem', mem_ok mem' → Q tt (set_memory mem' m)) → wp (set_mem (u_Uint64 off) (u_Uint64 len) v) Q QE m.
Proof.
  intros Hm Ho Hl Hh HQ. destruct (mem_Set_ok (E := exn) (m_memory m) off len v) as (mem' & E & Hm'); try done.
  unfold set_mem. do 2 wp_step. apply wp_bind. eapply wp_pure_ok; [exact E|]. apply wp_mod. by apply HQ.
Qed.
(** Data from elsewhere; looking at the source does not write. *)
Lemma copy_ok s0 g0 m (source : instr bytes) off data len st : ready s0 g0 m → m_gas m < g0 → m_stack m = off :: data :: len :: st → Forall is_word (m_stack m) →
  holds (m_memory m) (off, len) → (∀ m (Q : bytes → machine → Prop) QE, db_ok keccak (m_db m) → (∀ d s, dbstep ro 0 (m_db m) s → Q d (set_db s m)) → wp source Q QE m) →
  goes s0 g0 (copy_to_memory source) m.
Proof.
  intros Hr Hg Est Hw Hh Hsrc. pose proof (rd_machine _ _ _ Hr) as HM. rewrite Est in Hw. apply Forall_cons in Hw as [Ho Hw]. apply Forall_cons in Hw as [Hd Hw]. apply Forall_cons in Hw as [Hl Hw].
  pose proof (k_depth _ _ _ _ HM) as Hlen. pose proof (k_mem _ _ _ _ HM) as Hmem. pose proof (k_pc _ _ _ _ HM) as Hpc. pose proof (machine_db _ _ _ _ HM) as Hok.
  destruct m as [pc ? mem c inp rd cg db]. cbn in *. subst. unfold goes, copy_to_memory. do 3 (apply wp_bind; unfold wp at 1, pop; cbn [m_stack set_stack]).
  apply wp_bind, Hsrc; [done|]. intros d s Hs. cbn in Hs.
  assert (Hsz : 0 ≤ u_Uint64 len < 2 ^ 63).
  { destruct (decide (len = 0)) as [->|Hne]; [by rewrite Uint64_0|]. destruct (holds_words mem off len) as (_ & -> & _ & _ & ? & ? & ? & ?); try done. lia. }
  destruct (getData_ok (E := exn) d (offset64 data) (u_Uint64 len)) as (b & Eb); [|done|].
  { unfold offset64. rewrite w_Uint64WithOverflow by done. unfold is_word in Hd. pose proof (Z.mod_pos_bound data (2 ^ 64)). case_if; unfold MaxUint64; lia. }
  apply wp_bind. eapply wp_pure_ok; [exact Eb|]. apply wp_set_mem; try done. intros mem' Hm'.
  eapply next_quiet; [exact Hr|done|done|done|done|cbn; unfold zlen in *; cbn in Hlen; lia|done|done].
Qed.
Lemma does_copy (f : machine → bytes) : does 3 0 (held 0 2) (copy_to_memory (gets_m f)).
Proof.
  open_op 3. open_mem Hin. eapply copy_ok; [eassumption|done|reflexivity|by repeat (apply Forall_cons; split)|done|].
  intros m Q QE _ HQ. apply wp_gets. replace m with (set_db (m_db m) m) at 2 by (by destruct m). apply HQ, dbstep_refl.
Qed.
Lemma does_extcodecopy : does 4 0 (held 1 3) (opExtCodeCopy keccak).
Proof.
  open_op 4. open_mem Hin. unfold goes, opExtCodeCopy. apply wp_bind. unfold wp at 1, pop. cbn [m_stack set_stack].
  set (m1 := set_stack _ _). assert (Hr1 : ready s0 g0 m1).
  { destruct Hr as [? ? Hr1 Hr2 Hr3]. split; [done|done| |done|done]. apply (machine_ok_after keccak rules R ro 0 _ m1 Hr1); try done; [apply dbstep_refl|apply Hr1|apply Hr1|by repeat (apply Forall_cons; split)|].
    cbn. pose proof (k_depth _ _ _ _ Hr1) as Hd. unfold zlen in *. cbn in *. lia. }
  eapply copy_ok; [exact Hr1|done|reflexivity|by repeat (apply Forall_cons; split)|done|].
  intros m Q QE Hk HQ. apply wp_bind. unfold wp at 1, on_db. destruct (GetCode keccak (toAddress x) (m_db m)) as [code s] eqn:Ec. apply wp_ret, HQ. by eapply step_GetCode.
Qed.

Lemma does_returndatacopy : does 3 0 (held 0 2) opReturnDataCopy.
Proof.
  open_op 3. open_mem Hin. unfold goes, opReturnDataCopy. do 3 (apply wp_bind; unfold wp at 1, pop; cbn [m_stack set_stack]). do 2 wp_step. cbn [m_returnData set_stack].
  assert (Hfail : ∀ m', m_gas m' = c_Gas c → m_db m' = db → done_ok s0 g0 (Halted [] (Some ErrReturnDataOutOfBounds)) m').
  { intros m' E1 E2. eapply done_quiet; [exact Hr|done|by rewrite E2|done|done]. }
  rewrite w_Uint64WithOverflow by done. case_if; [by apply Hfail|]. rewrite w_Uint64WithOverflow by auto with words. rewrite w_Add by done. case_if; [by apply Hfail|]. zbool.
  unfold is_word in *. rewrite !(Z.mod_small x0) by lia.
  assert (Hsm : x1 = 0 ∨ x1 < 2 ^ 40) by (destruct (decide (x1 = 0)) as [|Hne]; [by left|right]; destruct (holds_words mem x x1) as (_ & _ & _ & _ & ? & ? & ? & ?); done || lia).
  rewrite (Z.mod_small (x0 + x1)) in * by lia. rewrite Z.mod_small in * by lia. apply wp_bind. eapply wp_pure_ok.
  { unfold slice. unfold go_len in *. rewrite (proj2 (Z.leb_le 0 x0)), (proj2 (Z.leb_le x0 _)), (proj2 (Z.leb_le _ (zlen _))) by lia. reflexivity. }
  apply wp_set_mem; try done. intros mem' Hm'. eapply next_quiet; [exact Hr|done|done|apply dbstep_refl|done|cbn; unfold zlen in *; cbn in *; lia|done|done].
Qed.

(** *** Jumps and pushes *)

Lemma validJumpdest_total code hash dest : 0 ≤ dest → ∃ r, validJumpdest code hash dest (mkCache None ∅) = Ok r.
Proof.
  intros Hd. unfold validJumpdest. case_if; [by eexists|]. zbool. destruct (lookup_lt_is_Some_2 code (Z.to_nat dest)) as (op & ->); [unfold zlen in *; lia|]. cbn [deref mbind outcome_bind].
  case_if; [by eexists|]. destruct (isCode_ok (fun _ => code) code hash dest (mkCache None ∅)) as (c' & -> & _); [by split|done|lia|by eexists].
Qed.
Lemma jump_ok s0 g0 m m1 pos : ready s0 g0 m → m_gas m < g0 → is_word pos → m_contract m1 = m_contract m → m_db m1 = m_db m → m_memory m1 = m_memory m →
  Forall is_word (m_stack m1) → zlen (m_stack m1) ≤ StackLimit → goes s0 g0 (jump_to pos) m1.
Proof.
  intros Hr Hg Hp E1 E2 E3 Hw Hl. unfold goes, jump_to. do 2 wp_step. destruct (validJumpdest_total (c_Code (m_contract m1)) (c_CodeHash (m_contract m1)) pos) as ([ok c'] & E); [apply Hp|].
  apply wp_bind. eapply wp_pure_ok; [by rewrite E|]. cbv beta iota. wp_step.
  - eapply done_quiet; [exact Hr|unfold m_gas; by rewrite E1|by rewrite E2|done|done].
  - apply wp_mod. eapply next_quiet; [exact Hr|done|done|cbn; rewrite E2; apply dbstep_refl|done|done|cbn; rewrite E3; eapply k_mem, Hr|apply u64_range].
Qed.
Lemma cancelled_ok s0 g0 m (i : instr unit) : ready s0 g0 m → goes s0 g0 i m → goes s0 g0 (_ ← cancelled abort; i) m.
Proof.
  intros Hr Hi. unfold goes, cancelled. do 3 wp_step. wp_step; [|done]. eapply done_quiet; [exact Hr|done|done|done|]. intros _. apply dbstep_refl.
Qed.
Lemma does_jump : does 1 0 no_memory (opJump abort).
Proof.
  open_op 1. apply cancelled_ok; [done|]. apply wp_bind. unfold wp at 1, pop. cbn [m_stack set_stack]. eapply jump_ok; [exact Hr|done|done|done|done|done|done|].
  cbn. unfold zlen in *. cbn in *. lia.
Qed.
Lemma does_jumpi : does 2 0 no_memory (opJumpi abort).
Proof.
  open_op 2. apply cancelled_ok; [done|]. do 2 (apply wp_bind; unfold wp at 1, pop; cbn [m_stack set_stack]). wp_step; [|by close_op].
  eapply jump_ok; [exact Hr|done|done|done|done|done|done|]. cbn. unfold zlen in *. cbn in *. lia.
Qed.

Lemma does_push1 : does 0 1 no_memory opPush1.
Proof.
  open_op 0. unfold goes, wp, opPush1, gets_m, mod_m, need, pure_out, mbind, stm_bind. cbn [m_contract m_pc set_pc m_stack]. case_if; [|close_op; auto with words].
  pose proof (u64_range (pc + 1)) as Hu. destruct (lookup_lt_is_Some_2 (c_Code c) (Z.to_nat (u64 (pc + 1)))) as (b & ->); [unfold go_len, zlen, is_u64 in *; lia|].
  cbn. close_op. apply word_of_u64. pose proof (b2z_range b). unfold is_u64. lia.
Qed.
Lemma does_pushn size n : 0 ≤ n → does 0 1 no_memory (makePush size n).
Proof.
  intros Hn. open_op 0. unfold goes, makePush. do 4 wp_step. cbn [m_contract m_pc]. set (l := go_len (c_Code c)). destruct Hc as [Hc1 Hc2]. cbn in Hc1, Hc2. fold l in Hc2.
  assert (Hl2 : 0 ≤ l < 2 ^ 63 ∧ l ≤ zlen (c_Code c)) by (unfold l, go_len, zlen; lia). rewrite (u64_small (pc + 1)) by (unfold is_u64; lia). 
  assert (En : (if i64 (pc + 1) <? l then i64 (pc + 1) else l) = pc + 1).
  { destruct (decide (pc + 1 = 2 ^ 63)) as [E|]; [lia|]. rewrite i64_small by lia. case_if; lia. }
  rewrite En. set (e := if pc + 1 + n <? l then pc + 1 + n else l). assert (He : pc + 1 ≤ e ≤ l) by (unfold e; case_if; lia).
  apply wp_bind. eapply wp_pure_ok. { unfold slice. rewrite (proj2 (Z.leb_le 0 _)), (proj2 (Z.leb_le (pc + 1) _)), (proj2 (Z.leb_le _ (zlen _))) by lia. reflexivity. }
  apply wp_bind, wp_mod, wp_mod. close_op. auto with words.
Qed.
Lemma does_dup n : (1 ≤ n)%nat → does (Z.of_nat n) (Z.of_nat n + 1) no_memory (makeDup n).
Proof.
  intros Hn. open_op 0. unfold goes, makeDup, dup. apply wp_bind. apply wp_Back; [done|cbn; lia|]. intros x Ex Hx. apply wp_mod. by close_op.
Qed.
Lemma does_swap n : does (Z.of_nat n + 1) (Z.of_nat n + 1) no_memory (makeSwap n).
Proof.
  open_op 0. destruct (lookup_lt_is_Some_2 st 0) as (x & Ex); [unfold zlen in *; lia|]. destruct (lookup_lt_is_Some_2 st (n + 1 - 1)) as (y & Ey); [unfold zlen in *; lia|].
  unfold goes, wp, makeSwap, swap. cbn [m_stack]. rewrite Ex, Ey. rewrite Forall_lookup in Hw. pose proof (Hw _ _ Ex). pose proof (Hw _ _ Ey).
  eapply next_quiet; [exact Hr|done|done|apply dbstep_refl|..|done|done]; cbn.
  - apply Forall_insert; [|done]. apply Forall_insert; [|done]. by apply Forall_lookup.
  - unfold zlen in *. rewrite !length_insert. lia.
Qed.

(** ** Instructions that write *)

Lemma protect_ok s0 g0 m (i : instr unit) : ready s0 g0 m → (ro = false → goes s0 g0 i m) → goes s0 g0 (_ ← protect ro; i) m.
Proof. intros Hr Hi. unfold goes, protect. wp_step. destruct ro eqn:E; [|by apply Hi]. eapply done_quiet; [exact Hr|done|done|done|done]. Qed.

Lemma does_tstore : does 2 0 no_memory (opTstore ro).
Proof.
  open_op 2. apply protect_ok; [done|]. intros Hro. assert (Hs : dbstep ro 0 db (SetTransientState (c_self c) (toHash x) (toHash x0) db)) by (rewrite Hro; by apply step_SetTransientState).
  close_op.
Qed.

Lemma wp_pop_topics n m (Q : list Z → machine → Prop) QE : Z.of_nat n ≤ zlen (m_stack m) → (∀ ts, Q ts (set_stack (drop n (m_stack m)) m)) → wp (pop_topics n) Q QE m.
Proof.
  revert m Q. induction n as [|n IH]; intros m Q Hl HQ.
  - apply wp_ret. replace m with (set_stack (drop 0 (m_stack m)) m) by (by destruct m). apply HQ.
  - cbn [pop_topics]. apply wp_bind. destruct m as [pc st mem c inp rd cg db]. cbn in *. destruct st as [|x st]; [unfold zlen in Hl; cbn in Hl; lia|].
    unfold wp at 1, pop. cbn. apply wp_bind, IH; [unfold zlen in *; cbn in *; lia|]. intros ts. apply wp_ret, HQ.
Qed.
Lemma does_log n pops : pops = Z.of_nat n + 2 → does pops 0 (held 0 1) (makeLog env ro n).
Proof.
  intros ->. open_op 2. open_mem Hin. apply protect_ok; [done|]. intros Hro. do 2 (apply wp_bind; unfold wp at 1, pop; cbn [m_stack set_stack]).
  apply wp_bind, wp_pop_topics; [cbn; unfold zlen in *; cbn in *; lia|]. intros ts. cbn [m_stack set_stack].
  unfold read_mem. apply wp_bind. do 2 wp_step. cbn [m_memory set_stack]. destruct (mem_GetCopy_ok (E := exn) mem x x0) as (d & Ed); try done. eapply wp_pure_ok; [exact Ed|].
  do 2 wp_step. apply wp_put. eapply next_quiet; [exact Hr|done|done|cbn; rewrite Hro; by apply step_AddLog|cbn; by apply Forall_drop|cbn; unfold zlen in *; rewrite length_drop; cbn in *; lia|done|done].
Qed.

(** *** Ends *)

Definition ends (pops : Z) (regions : list Z → list (Z * Z)) (i : instr unit) : Prop := ∀ s0 g0 m,
  ready s0 g0 m → fits pops 0 m → Forall (holds (m_memory m)) (regions (m_stack m)) → goes s0 g0 i m.
Lemma ends_stop : ends 0 no_memory opStop.
Proof. intros s0 g0 m Hr _ _. eapply done_quiet; [exact Hr|done|done|done|intros _; apply dbstep_refl]. Qed.
Lemma ends_return : ends 2 (held 0 1) opReturn.
Proof.
  intros s0 g0 m Hr [Hl _] Hh. pose proof (rd_machine _ _ _ Hr) as HM. pose proof (k_words _ _ _ _ HM) as Hw. pose proof (k_mem _ _ _ _ HM) as Hmem. destruct m as [pc st mem c inp rd cg db]. cbn in *.
  do 2 (destruct st as [|? st]; [exfalso; revert Hl; unfold zlen; cbn; lia|]). open_mem Hin. do 2 (apply Forall_cons in Hw as [? Hw]).
  destruct (mem_GetPtr_ok (E := exn) mem z z0) as (d & Ed); try done. unfold goes, wp, opReturn, read_mem, pop, gets_m, pure_out, mbind, stm_bind. cbn. rewrite Ed.
  eapply (done_quiet _ _ _ (mkMachine _ _ _ _ _ _ _ _)); [exact Hr|done|done|done|intros _; apply dbstep_refl].
Qed.
Lemma ends_revert : ends 2 (held 0 1) opRevert.
Proof.
  intros s0 g0 m Hr [Hl _] Hh. pose proof (rd_machine _ _ _ Hr) as HM. pose proof (k_words _ _ _ _ HM) as Hw. pose proof (k_mem _ _ _ _ HM) as Hmem. destruct m as [pc st mem c inp rd cg db]. cbn in *.
  do 2 (destruct st as [|? st]; [exfalso; revert Hl; unfold zlen; cbn; lia|]). open_mem Hin. do 2 (apply Forall_cons in Hw as [? Hw]).
  destruct (mem_GetPtr_ok (E := exn) mem z z0) as (d & Ed); try done. unfold goes, wp, opRevert, read_mem, pop, gets_m, pure_out, mbind, stm_bind. cbn. rewrite Ed.
  eapply (done_quiet _ _ _ (mkMachine _ _ _ _ _ _ _ _)); [exact Hr|done|done|done|done].
Qed.
Lemma undefined_ok s0 g0 m : ready s0 g0 m → in_code m → goes s0 g0 opUndefined m.
Proof.
  intros Hr Hc. unfold goes, opUndefined. do 2 wp_step. unfold in_code, go_len in Hc. destruct (lookup_lt_is_Some_2 (c_Code (m_contract m)) (Z.to_nat (m_pc m))) as (b & ->); [unfold zlen in *; lia|].
  apply wp_bind. eapply wp_pure_ok; [done|]. eapply done_quiet; [exact Hr|done|done|done|done].
Qed.

(** ** Calling *)

(** The program goes on after something that was paid for at the start. *)
Lemma next_paid d s0 g0 m m' : ready s0 g0 m → dbstep ro d (m_db m) (m_db m') → 0 ≤ m_gas m' < g0 → d + rate * m_gas m' ≤ rate * g0 →
  self m' = self m → c_value (m_contract m') = c_value (m_contract m) → Forall is_word (m_stack m') → zlen (m_stack m') ≤ StackLimit → mem_ok (m_memory m') → is_u64 (m_pc m') →
  next_ok s0 g0 m'.
Proof.
  intros [Hs Hlim Hm Hg H0] Hd Hg' Hp Es Ev Hw Hl Hme Hpc. assert (H1 : dbstep ro d s0 (m_db m')) by (rewrite <- (Z.add_0_l d); by eapply dbstep_trans).
  split; [|lia|by exists d]. destruct Hs as [G1 G2 G3 G4]. pose proof (ds_refund _ _ _ _ _ _ H1). split; try done; rewrite ?Es, ?Ev.
  - split; [by apply H1|by apply H1|lia|lia].
  - apply Hd. apply Hm.
  - intros Hb. apply Hd. by apply (k_warm _ _ _ _ Hm).
  - apply Hm.
Qed.
(** What can be given to a callee. *)
Lemma callee_state s0 g0 m gas : ready s0 g0 m → 0 ≤ gas ≤ g0 → state_ok keccak R (m_db m) gas.
Proof.
  intros [[G1 G2 G3 G4] _ _ _ Hd] Hg. pose proof (ds_refund _ _ _ _ _ _ Hd). split; [by apply Hd|by apply Hd|lia|unfold rate in *; lia].
Qed.

Lemma set_gas_self g m : self (set_gas g m) = self m.
Proof. done. Qed.
Lemma call_ok s0 g0 m st (f : stateDB T S → outcome stuck (callResult * stateDB T S)) gas off len : ready s0 g0 m → 0 ≤ gas → gas + m_gas m + 40 ≤ g0 →
  frame_ok keccak R ro (m_db m) gas (f (m_db m)) → Forall is_word st → zlen st + 1 ≤ StackLimit → is_word off → is_word len → holds (m_memory m) (off, len) →
  goes s0 g0 (r ← nested f; returned off len r) (set_stack st m).
Proof.
  intros Hr Hg Hpay (ret & left & err & s' & Ef & Hleft & (d & Hd & Hcost) & _) Hw Hl Ho Hn Hh. pose proof (rd_machine _ _ _ Hr) as HM.
  pose proof (k_mem _ _ _ _ HM) as Hmem. pose proof (gas_u64 _ _ _ _ HM) as Hu. destruct (rd_state _ _ _ Hr) as [_ Hcov _ Hbig]. pose proof (covers_nonneg _ _ _ Hcov).
  unfold is_u64, slack, rate in *. unfold goes. apply wp_bind. unfold wp at 1, nested. cbn [m_db set_stack]. rewrite Ef. unfold returned.
  apply wp_bind, wp_mod. set (m1 := set_stack _ _).
  assert (Hend : ∀ mem', mem_ok mem' → goes s0 g0 (_ ← give_back left; mod_m (set_returnData ret)) (set_memory mem' m1)).
  { intros mem' Hm'. unfold goes, give_back. apply wp_bind, wp_mod, wp_mod. change (m_gas (set_memory mem' m1)) with (m_gas m). rewrite u64_small by (unfold is_u64; lia).
    eapply (next_paid d); [exact Hr|done|cbn; lia|cbn; unfold rate; lia|done|done|cbn; apply Forall_cons; split; [apply word_bit|done]|cbn; rewrite zlen_cons; lia|done|apply (k_pc _ _ _ _ HM)]. }
  apply wp_bind. wp_step.
  - apply wp_set_mem; [done|done|done|done|]. intros mem' Hm'. by apply Hend.
  - apply wp_ret. specialize (Hend (m_memory m) Hmem). by replace (set_memory (m_memory m) m1) with m1 in Hend by (by destruct m).
Qed.

(** The gas, the memory and the callee of a call are in order. *)
Record calling (has_value : bool) (regions : list Z → list (Z * Z)) (s0 : stateDB T S) (g0 : Z) m : Prop := {
  cl_ready : ready s0 g0 m;
  cl_gas : 0 ≤ m_callGasTemp m;
  cl_paid : m_gas m + m_callGasTemp m + transfer_price has_value m + 40 ≤ g0;
  cl_mem : Forall (holds (m_memory m)) (regions (m_stack m))
}.
Definition warm_callee m : Prop := ∀ x, m_stack m !! 1%nat = Some x → warm rules (m_db m) (toAddress x).
Definition call_regions : list Z → list (Z * Z) := fun st => [region 5 6 st; region 3 4 st].
Definition plain_regions : list Z → list (Z * Z) := fun st => [region 4 5 st; region 2 3 st].

Tactic Notation "open_call" int_or_var(n) :=
  intros s0 g0 m [Hr Hcg Hpaid Hh] [Hl Hl'] Hwarm; pose proof (rd_machine _ _ _ Hr) as HM; pose proof (k_words _ _ _ _ HM) as Hw;
  pose proof (k_mem _ _ _ _ HM) as Hmem; pose proof (k_self _ _ _ _ HM) as Hself; pose proof (k_warm _ _ _ _ HM) as Hown; pose proof (gas_u64 _ _ _ _ HM) as Hu;
  pose proof (k_value _ _ _ _ HM) as Hval; pose proof (rd_limit _ _ _ Hr) as Hlim;
  destruct m as [pc st mem c inp rd cg db]; cbn [m_stack m_memory m_contract m_pc m_db m_input m_returnData m_callGasTemp] in *;
  do n (let x := fresh "x" in destruct st as [|x st]; [exfalso; revert Hl; unfold zlen; cbn [length]; lia|]);
  unfold call_regions, plain_regions, region, word_at in Hh; cbn [lookup list_lookup default] in Hh;
  repeat match goal with H : Forall _ (_ :: _) |- _ => apply Forall_cons in H; destruct H end;
  unfold goes; do n (apply wp_bind; first [unfold wp at 1, pop; cbn [m_stack set_stack]|fail]; try (apply wp_bind, wp_gets; cbn [m_callGasTemp set_stack])).

Lemma static_frame s gas res : frame_ok keccak R true s gas res → frame_ok keccak R ro s gas res.
Proof. intros (ret & left & err & s' & E & H1 & H2 & H3). exists ret, left, err, s'. split_and!; try done; [lia|lia|by apply spent_ro]. Qed.

Lemma wp_read_ptr off len m (Q : bytes → machine → Prop) QE : mem_ok (m_memory m) → is_word off → is_word len → holds (m_memory m) (off, len) →
  (∀ d, Q d m) → wp (read_mem mem_GetPtr off len) Q QE m.
Proof.
  intros Hm Ho Hl Hh HQ. destruct (mem_GetPtr_ok (E := exn) (m_memory m) off len) as (d & Ed); try done. unfold read_mem. do 2 wp_step. by eapply wp_pure_ok.
Qed.
Ltac call_frame m0 g := apply wp_read_ptr; [done|done|done|done|]; intros args; repeat (apply wp_bind, wp_gets); cbn [m_contract set_stack];
  eapply (call_ok _ _ m0 _ _ g); [eassumption| | | |done|unfold zlen in *; cbn [length] in *; lia|done|done|done].

Lemma calls_static s0 g0 m : calling false plain_regions s0 g0 m → fits 6 1 m → warm_callee m →
  goes s0 g0 (opStaticCall keccak RequiredGas precompiled_Run rules depth callee) m.
Proof.
  revert s0 g0 m. open_call 6. apply wp_bind. set (m0 := mkMachine _ _ _ _ _ _ _ _) in *. cbn in Hpaid, Hu. unfold is_u64 in Hu. call_frame m0 cg; [done|cbn; lia|].
  apply static_frame. eapply StaticCall_ok; [exact Hrun|done|by eapply callee_state; [exact Hr|lia]|lia|]. by apply (Hwarm x0).
Qed.
Lemma calls_delegate s0 g0 m : calling false plain_regions s0 g0 m → fits 6 1 m → True →
  goes s0 g0 (opDelegateCall keccak RequiredGas precompiled_Run rules depth callee) m.
Proof.
  revert s0 g0 m. open_call 6. apply wp_bind. set (m0 := mkMachine _ _ _ _ _ _ _ _) in *. cbn in Hpaid, Hu. unfold is_u64 in Hu. call_frame m0 cg; [done|cbn; lia|].
  eapply DelegateCall_ok; [exact Hrun|done|by eapply callee_state; [exact Hr|lia]|lia|done|done|done].
Qed.

(** The gas of the callee with its stipend. *)
Lemma stipend_ok g0 cg v m : is_word v → m_stack m !! 2%nat = Some v → is_u64 g0 → 0 ≤ m_gas m → 0 ≤ cg → m_gas m + cg + transfer_price true m + 40 ≤ g0 →
  let gas := if negb (u_IsZero v) then u64 (cg + CallStipend) else cg in 0 ≤ gas ∧ gas + m_gas m + 40 ≤ g0.
Proof.
  intros Hv Ev Hg Hm Hc Hp. unfold transfer_price in Hp. rewrite Ev in Hp. rewrite w_IsZero by done. unfold is_u64, CallStipend, CallValueTransferGas in *.
  destruct (v =? 0); cbn in *; [lia|]. rewrite u64_small by (unfold is_u64; lia). lia.
Qed.
Lemma start_u64 s0 g0 m : ready s0 g0 m → is_u64 g0.
Proof. intros [[_ Hc Hg Hb] _ _ _ _]. pose proof (covers_nonneg _ _ _ Hc). unfold is_u64, rate, slack in *. lia. Qed.

Lemma calls_code s0 g0 m : calling true call_regions s0 g0 m → fits 7 1 m → True →
  goes s0 g0 (opCallCode keccak RequiredGas precompiled_Run rules depth callee) m.
Proof.
  revert s0 g0 m. open_call 7. apply wp_bind. set (m0 := mkMachine _ _ _ _ _ _ _ _) in *. assert (Hu' := Hu). cbn in Hu. unfold is_u64 in Hu.
  destruct (stipend_ok g0 cg x1 m0) as [S1 S2]; [done|done|by eapply start_u64|apply Hu'|done|done|]. set (gas := if negb _ then _ else _) in *.
  apply wp_read_ptr; [done|done|done|done|]. intros args.
  replace (if negb (u_IsZero x1) then (u64 (cg + CallStipend), u_ToBig x1) else (cg, 0)) with (gas, if negb (u_IsZero x1) then u_ToBig x1 else 0) by (unfold gas; by destruct (negb _)).
  apply wp_bind, wp_gets. cbn [m_contract set_stack]. eapply (call_ok _ _ m0 _ _ gas); [exact Hr|done|done| |done|unfold zlen in *; cbn [length] in *; lia|done|done|done].
  eapply CallCode_ok; [exact Hrun|done|eapply callee_state; [exact Hr|cbn in S2; lia]|cbn in S2; lia|done|done].
Qed.
Lemma calls_call s0 g0 m : calling true call_regions s0 g0 m → fits 7 1 m → warm_callee m →
  goes s0 g0 (opCall keccak RequiredGas precompiled_Run rules depth ro callee) m.
Proof.
  revert s0 g0 m. open_call 7. apply wp_bind. set (m0 := mkMachine _ _ _ _ _ _ _ _) in *. assert (Hu' := Hu). cbn in Hu. unfold is_u64 in Hu.
  destruct (stipend_ok g0 cg x1 m0) as [S1 S2]; [done|done|by eapply start_u64|apply Hu'|done|done|]. set (gas := if negb _ then _ else _) in *.
  apply wp_read_ptr; [done|done|done|done|]. intros args. apply wp_bind. wp_step; [eapply done_quiet; [exact Hr|done|done|done|done]|]. apply wp_ret.
  replace (if negb (u_IsZero x1) then (u64 (cg + CallStipend), u_ToBig x1) else (cg, 0)) with (gas, if negb (u_IsZero x1) then u_ToBig x1 else 0) by (unfold gas; by destruct (negb _)).
  apply wp_bind, wp_gets. cbn [m_contract set_stack]. eapply (call_ok _ _ m0 _ _ gas); [exact Hr|done|done| |done|unfold zlen in *; cbn [length] in *; lia|done|done|done].
  eapply Call_ok; [exact Hrun|done|eapply callee_state; [exact Hr|cbn in S2; lia]|cbn in S2; lia|by apply (Hwarm x0)|].
  intros Hro. destruct (u_IsZero x1); [done|]. by rewrite Hro in *.
Qed.

(** ** Creating *)

Definition made (s : stateDB T S) (gas : Z) (res : outcome stuck (Z * callResult * stateDB T S)) : Prop := ∃ a ret left err s',
  res = Ok (a, (ret, left, err), s') ∧ 0 ≤ left ≤ gas ∧ spent keccak R ro s gas left s'.
Lemma create_made from code hash gas value address s : state_ok keccak R s gas → gas < limit → ro = false →
  made s gas (create keccak callee rules depth from code hash gas value address s).
Proof.
  intros Hs Hl Hro. destruct (create_spec keccak callee rules depth R ro limit Hrun from code hash gas value address s Hs Hl Hro) as (a & ret & left & err & s' & E & H1 & H2 & _).
  exists a, ret, left, err, s'. by rewrite Hro.
Qed.
Lemma made_after s s1 gas res : dbstep ro 0 s s1 → made s1 gas res → made s gas res.
Proof. intros Hd (a & ret & left & err & s' & E & H1 & H2). exists a, ret, left, err, s'. split; [done|]. split; [done|]. by eapply spent_after. Qed.

Lemma create_ok_op s0 g0 m st gas (f : stateDB T S → outcome stuck (Z * callResult * stateDB T S)) (word : Z → option vmError → Z) :
  ready s0 g0 m → 0 ≤ gas ≤ m_gas m → m_gas m + 40 ≤ g0 → made (m_db m) gas (f (m_db m)) → (∀ a e, is_word (word a e)) → Forall is_word st → zlen st + 1 ≤ StackLimit →
  goes s0 g0 ('(a, (res, returnGas, suberr)) ← nested f; created (word a suberr) res returnGas suberr) (set_gas (m_gas m - gas) (set_stack st m)).
Proof.
  intros Hr Hg Hpay (a & ret & left & err & s' & Ef & Hleft & d & Hd & Hcost) Hword Hw Hl. pose proof (rd_machine _ _ _ Hr) as HM. pose proof (start_u64 _ _ _ Hr) as Hu.
  unfold is_u64, slack, rate in *. unfold goes. apply wp_bind. unfold wp at 1, nested. cbn [m_db set_stack set_gas set_contract]. rewrite Ef. unfold created, give_back.
  apply wp_bind, wp_mod, wp_bind, wp_mod, wp_mod. match goal with |- next_ok _ _ (set_returnData _ (set_gas (u64 (m_gas ?m1 + _)) _)) => change (m_gas m1) with (m_gas m - gas) end.
  rewrite u64_small by (unfold is_u64; lia).
  eapply (next_paid d); [exact Hr|done|cbn; lia|cbn; unfold rate; lia|done|done|by apply Forall_cons|cbn; rewrite zlen_cons; lia|apply (k_mem _ _ _ _ HM)|apply (k_pc _ _ _ _ HM)].
Qed.

Lemma part_gas g : 0 ≤ g → 0 ≤ g - g / 64 ≤ g.
Proof. intros H. pose proof (Z.div_pos g 64). pose proof (Z.div_le_upper_bound g 64 g). lia. Qed.
Lemma UseGas_all g amount : amount ≤ g → (UseGas g amount).1 = g - amount.
Proof. intros H. unfold UseGas. case_if; [lia|done]. Qed.

Definition creates (pops : Z) (i : instr unit) : Prop := ∀ s0 g0 m,
  ready s0 g0 m → m_gas m + 40 ≤ g0 → fits pops 1 m → Forall (holds (m_memory m)) (held 1 2 (m_stack m)) → goes s0 g0 i m.
Tactic Notation "open_create" int_or_var(n) :=
  intros s0 g0 m Hr Hpaid [Hl Hl'] Hh; apply protect_ok; [done|]; intros Hro; pose proof (rd_machine _ _ _ Hr) as HM; pose proof (k_words _ _ _ _ HM) as Hw;
  pose proof (k_mem _ _ _ _ HM) as Hmem; pose proof (gas_u64 _ _ _ _ HM) as Hu; pose proof (rd_limit _ _ _ Hr) as Hlim; unfold is_u64 in Hu;
  destruct m as [pc st mem c inp rd cg db]; cbn [m_stack m_memory m_contract m_pc m_db m_input m_returnData m_callGasTemp] in *;
  do n (let x := fresh "x" in destruct st as [|x st]; [exfalso; revert Hl; unfold zlen; cbn [length]; lia|]);
  let Hin := fresh "Hin" in apply Forall_cons in Hh as [Hin _]; unfold held, region, word_at in Hin; cbn in Hin;
  repeat match goal with H : Forall _ (_ :: _) |- _ => apply Forall_cons in H; destruct H end;
  unfold goes; do n (apply wp_bind; unfold wp at 1, pop; cbn [m_stack set_stack]).
Lemma wp_read_copy off len m (Q : bytes → machine → Prop) QE : mem_ok (m_memory m) → is_word off → is_word len → holds (m_memory m) (off, len) →
  (∀ d, Q d m) → wp (read_mem mem_GetCopy off len) Q QE m.
Proof.
  intros Hm Ho Hl Hh HQ. destruct (mem_GetCopy_ok (E := exn) (m_memory m) off len) as (d & Ed); try done. unfold read_mem. do 2 wp_step. by eapply wp_pure_ok.
Qed.

Lemma creates_create : creates 3 (opCreate keccak rules depth ro callee).
Proof.
  open_create 3. apply wp_bind, wp_read_copy; [done..|]. intros input. apply wp_bind, wp_gets. set (m0 := mkMachine _ _ _ _ _ _ _ _) in *. change (m_gas _) with (m_gas m0).
  set (gas := if r_IsEIP150 rules then _ else _). pose proof (part_gas (m_gas m0) ltac:(lia)) as Hp. assert (Hg : 0 ≤ gas ≤ m_gas m0) by (unfold gas; case_if; lia).
  rewrite UseGas_all by lia. apply wp_bind, wp_mod, wp_bind, wp_gets.
  apply (create_ok_op s0 g0 m0 st gas _ (fun addr suberr => if r_IsHomestead rules && bool_decide (suberr = Some ErrCodeStoreOutOfGas) then 0
    else if negb (bool_decide (suberr = None)) && negb (bool_decide (suberr = Some ErrCodeStoreOutOfGas)) then 0 else u_SetBytes (be_bytes 20 addr)) Hr Hg Hpaid);
    [|intros; repeat case_if; auto with words|done|unfold zlen in *; cbn in *; lia].
  unfold Create. destruct (State.GetNonce keccak _ (m_db m0)) as [nonce s1] eqn:En. pose proof (step_with_object keccak R ro _ _ _ _ _ _ En) as H1'. eapply made_after; [exact H1'|].
  apply create_made; [|lia|done]. eapply state_ok_step; [exact H1'|]. eapply callee_state; [exact Hr|lia].
Qed.
Lemma creates_create2 : creates 4 (opCreate2 keccak rules depth ro callee).
Proof.
  open_create 4. apply wp_bind, wp_read_copy; [done..|]. intros input. apply wp_bind, wp_gets. set (m0 := mkMachine _ _ _ _ _ _ _ _) in *. change (m_gas _) with (m_gas m0).
  set (gas := m_gas m0 - _). assert (Hg : 0 ≤ gas ≤ m_gas m0) by (apply part_gas; lia).
  rewrite UseGas_all by lia. apply wp_bind, wp_mod, wp_bind, wp_gets.
  apply (create_ok_op s0 g0 m0 st gas _ (fun addr suberr => if negb (bool_decide (suberr = None)) then 0 else u_SetBytes (be_bytes 20 addr)) Hr Hg Hpaid);
    [|intros; repeat case_if; auto with words|done|unfold zlen in *; cbn in *; lia].
  unfold Create2. apply create_made; [|lia|done]. eapply callee_state; [exact Hr|lia].
Qed.

(** ** Paying *)

(** What holds of an entry of the table, for the byte [k]. *)
Definition op_ok (k : Z) (o : operation (T := T) (S := S)) : Prop := ∀ m, machine_ok m → m_gas m ≤ limit → (k ≠ STOP → in_code m) → goes (m_db m) (m_gas m) (perform o) m.

Lemma ready_start m : machine_ok m → m_gas m ≤ limit → ready (m_db m) (m_gas m) m.
Proof. intros Hm Hl. split; [apply Hm|done|done|lia|apply dbstep_refl]. Qed.
Lemma ready_gas s0 g0 m g : ready s0 g0 m → 0 ≤ g ≤ m_gas m → ready s0 g0 (set_gas g m).
Proof.
  intros [H1 H2 H3 H4 H5] Hg. split; try done; [|cbn; lia]. apply (machine_ok_after keccak rules R ro 0 m); try done; try apply H3; [apply dbstep_refl|cbn; lia|cbn; unfold rate; lia].
Qed.
Lemma wp_use_gas s0 g0 m cost (Q : unit → machine → Prop) : ready s0 g0 m → (cost ≤ m_gas m → Q tt (set_gas (m_gas m - cost) m)) → wp (use_gas cost) Q (done_ok s0 g0) m.
Proof.
  intros Hr HQ. unfold use_gas. do 2 wp_step. unfold UseGas. case_if; [|apply wp_mod; auto]. eapply done_quiet; [exact Hr|done|done|done|done].
Qed.

Lemma perform_ok k o pops pushes : minStack o = pops → maxStack o = StackLimit + pops - pushes → 0 ≤ constantGas o →
  (∀ m, machine_ok m → m_gas m ≤ limit → (k ≠ STOP → in_code m) → fits pops pushes m → constantGas o ≤ m_gas m →
     let m1 := set_gas (m_gas m - constantGas o) m in ready (m_db m) (m_gas m) m1 →
     goes (m_db m) (m_gas m) (_ ← (match dynamicGas o with Some dyn => charge_dynamic dyn (memorySize o) | None => mret tt end); execute o) m1) →
  op_ok k o.
Proof.
  intros E1 E2 Hc H m Hm Hl Hk. pose proof (ready_start m Hm Hl) as Hr. unfold goes, perform. do 2 wp_step. wp_step; [eapply done_quiet; [exact Hr|done..]|].
  wp_step; [eapply done_quiet; [exact Hr|done..]|]. apply wp_bind. eapply wp_use_gas; [exact Hr|]. intros Hle. apply H; try done; [unfold fits; lia|]. apply ready_gas; [done|lia].
Qed.
Lemma plain_ok k e gas pops pushes : k ≠ STOP → 1 ≤ gas → does pops pushes no_memory e → op_ok k (plain e gas pops pushes).
Proof.
  intros Hk Hg He. apply (perform_ok k _ pops pushes); [done|done|cbn; lia|]. intros m Hm Hl Hc Hf Hle m1 Hr. apply wp_bind, wp_ret. apply He; [done|cbn in *; lia|done|by apply Hc|done].
Qed.

(** The memory function fits the regions. *)
Definition memory_of (pops : Z) (regions : list Z → list (Z * Z)) (mem : option (instr (Z * bool))) : Prop :=
  match mem with Some f => sized pops regions f | None => regions = no_memory end.
Definition uses {A} (o : option A) : bool := match o with Some _ => true | None => false end.

Lemma wp_memory_size s0 g0 m pops regions mem (Q : Z → machine → Prop) : ready s0 g0 m → pops ≤ zlen (m_stack m) → memory_of pops regions mem →
  (∀ ms, is_u64 ms → (32 | ms) → (uses mem = false → ms = 0) → Forall (within ms) (regions (m_stack m)) → Q ms m) → wp (memory_size mem) Q (done_ok s0 g0) m.
Proof.
  intros Hr Hl Hmem HQ. assert (Hfail : done_ok s0 g0 (Halted [] (Some ErrGasUintOverflow)) m) by (by eapply done_quiet; [exact Hr|..]).
  destruct mem as [f|]; cbn in Hmem; [|subst; apply wp_ret, HQ; [done|apply Z.divide_0_r|done|done]].
  destruct (Hmem m) as (sz & ov & E & Hsz & Hin); [apply Hr|done|]. cbn. apply wp_bind. unfold wp at 1. rewrite E. destruct ov; [done|].
  rewrite toWordSize_exact by done. unfold SafeMul. case_if; [done|]. set (w := (sz + 31) / 32) in *.
  assert (Hw : sz ≤ w * 32 ∧ 0 ≤ w) by (subst w; unfold is_u64 in Hsz; pose proof (Z.div_mod (sz + 31) 32); pose proof (Z.mod_pos_bound (sz + 31) 32); lia).
  rewrite u64_small by (unfold is_u64; lia). apply wp_ret, HQ; [unfold is_u64; lia|by exists w|done|].
  eapply Forall_impl; [by apply Hin|]. intros r [?|?]; [by left|right; lia].
Qed.

Lemma entry_ok k e gas dyn pops pushes mem regions P : k ≠ STOP → 0 ≤ gas → metered keccak rules R ro pops (uses mem) P dyn → memory_of pops regions mem → (∀ m c m', P m c m' → 0 ≤ c) →
  (∀ m cost m' m2, P (set_gas (m_gas m - gas) m) cost m' → ready (m_db m) (m_gas m) m2 → m_stack m2 = m_stack m → m_callGasTemp m2 = m_callGasTemp m' → m_db m2 = m_db m' →
     m_gas m2 + gas + cost ≤ m_gas m → fits pops pushes m2 → in_code m2 → Forall (holds (m_memory m2)) (regions (m_stack m2)) → goes (m_db m) (m_gas m) e m2) →
  op_ok k (entry e gas (Some dyn) pops pushes mem).
Proof.
  intros Hk Hg Hdyn Hmem HP He. apply (perform_ok k _ pops pushes); [done|done|done|]. intros m Hm Hl Hc Hf Hle m1 Hr. cbn [entry dynamicGas memorySize execute constantGas] in *.
  unfold goes, charge_dynamic. apply wp_bind, wp_bind. eapply wp_memory_size; [exact Hr|apply Hf|done|]. intros ms Hms Hdiv Hu Hin. apply wp_bind.
  pose proof (Hdyn m1 ms (rd_machine _ _ _ Hr) ltac:(apply Hf) Hms Hdiv Hu) as Hw. unfold wp in Hw. unfold wp at 1, charged. destruct (dyn ms m1) as [[cost|e1|] m'] eqn:Ed; [|..|done].
  - destruct Hw as [HPm [[C1 C2 C3] Hdb Hme Hsz]]. specialize (HP _ _ _ HPm). pose proof (rd_machine _ _ _ Hr) as Hm1. pose proof (rd_gas _ _ _ Hr) as Hle1.
    assert (Eg : m_gas m' = m_gas m1) by (unfold m_gas; by rewrite C2). pose proof (gas_u64 _ _ _ _ Hm1) as Hgu. unfold is_u64 in Hgu.
    change (m_gas m1) with (m_gas m - gas) in Eg, Hgu, Hle1. apply wp_bind. unfold use_gas. do 2 wp_step. unfold UseGas. case_if; [by cbn; split_and!; [lia|lia|apply Hdb|..]|]. apply wp_mod.
    set (m2 := set_memory (mem_Resize ms (m_memory m')) (set_gas (m_gas m' - cost) m')).
    assert (Hr2 : ready (m_db m) (m_gas m) m2).
    { split; [apply Hr|done| |cbn; lia|exact Hdb]. apply (machine_ok_after keccak rules R ro 0 m1); cbn; try done; rewrite ?C1, ?C2, ?C3; try apply Hm1; [lia|unfold rate; lia|done]. }
    assert (Hgo : goes (m_db m) (m_gas m) e m2).
    { apply (He m cost m'); try done; [cbn in *; lia|by unfold fits; cbn; rewrite C1|unfold in_code; cbn; rewrite C2, C3; by apply Hc|]. cbn. rewrite C1. eapply Forall_impl; [exact Hin|].
      intros r [?|?]; [by left|right; cbn; lia]. }
    unfold when. case_if; [by apply wp_mod|]. apply wp_ret. replace (set_gas (m_gas m' - cost) m') with m2; [done|]. unfold m2, mem_Resize, mem_Len.
    rewrite (proj2 (Z.ltb_ge _ _)) by (unfold zlen; lia). by destruct m'.
  - destruct Hw as [F1 F2]. change (m_gas m1) with (m_gas m - gas) in F2. cbn. split_and!; [lia|lia|exact F1|done|done].
Qed.
Lemma metered_does k e gas dyn pops pushes mem regions low : k ≠ STOP → 0 ≤ gas → 0 ≤ low → 1 ≤ gas + low → metered keccak rules R ro pops (uses mem) (at_least low) dyn →
  memory_of pops regions mem → does pops pushes regions e → op_ok k (entry e gas (Some dyn) pops pushes mem).
Proof.
  intros Hk Hg Hlow Hpos Hdyn Hmem He. eapply entry_ok; [done|done|exact Hdyn|exact Hmem|unfold at_least; intros; lia|]. unfold at_least.
  intros m cost m' m2 HP Hr E1 _ _ Hp Hf Hc Hh. apply He; try done. lia.
Qed.
Lemma metered_ends k e gas dyn pops mem regions : k ≠ STOP → 0 ≤ gas → metered keccak rules R ro pops (uses mem) (at_least 0) dyn →
  memory_of pops regions mem → ends pops regions e → op_ok k (entry e gas (Some dyn) pops 0 mem).
Proof. intros Hk Hg Hdyn Hmem He. eapply entry_ok; [done|done|exact Hdyn|exact Hmem|by unfold at_least|]. intros. by apply He. Qed.
Lemma metered_creates k e gas dyn pops mem : k ≠ STOP → 40 ≤ gas → metered keccak rules R ro pops (uses mem) (at_least 0) dyn →
  memory_of pops (held 1 2) mem → creates pops e → op_ok k (entry e gas (Some dyn) pops 1 mem).
Proof.
  intros Hk Hg Hdyn Hmem He. eapply entry_ok; [done|lia|exact Hdyn|exact Hmem|by unfold at_least|]. unfold at_least. intros m cost m' m2 HP Hr E1 _ _ Hp Hf Hc Hh. apply He; try done. lia.
Qed.

Lemma calls_ok k e gas dyn pops mem hv regions P (warm_needed : Prop) : k ≠ STOP → 40 ≤ gas → metered keccak rules R ro pops (uses mem) P dyn → memory_of pops regions mem →
  (∀ m c m', P m c m' → 0 ≤ m_callGasTemp m' ∧ m_callGasTemp m' + transfer_price hv m ≤ c) → (∀ m c m' m2, P m c m' → m_stack m2 = m_stack m → m_db m2 = m_db m' → (warm_needed → warm_callee m2)) →
  (∀ s0 g0 m, calling hv regions s0 g0 m → fits pops 1 m → (warm_needed → warm_callee m) → goes s0 g0 e m) →
  op_ok k (entry e gas (Some dyn) pops 1 mem).
Proof.
  intros Hk Hg Hdyn Hmem HP Hwarm He. assert (Htp : ∀ m, 0 ≤ transfer_price hv m).
  { intros m. unfold transfer_price, CallValueTransferGas. destruct hv; [|done]. destruct (m_stack m !! 2%nat); [case_if|]; lia. }
  eapply entry_ok; [done|lia|exact Hdyn|exact Hmem|intros m c m' H; destruct (HP _ _ _ H); specialize (Htp m); lia|].
  intros m cost m' m2 H Hr E1 E2 E3 Hpay Hf _ Hh. destruct (HP _ _ _ H) as [P1 P2]. apply He; [|done|by eapply Hwarm]. split; [done|by rewrite E2| |done].
  rewrite E2. unfold transfer_price in *. rewrite E1. cbn in P2. lia.
Qed.
Lemma paid_calls k e gas dyn pops mem hv regions : k ≠ STOP → 40 ≤ gas → metered keccak rules R ro pops (uses mem) (call_paid rules hv) dyn → memory_of pops regions mem →
  (∀ s0 g0 m, calling hv regions s0 g0 m → fits pops 1 m → True → goes s0 g0 e m) → op_ok k (entry e gas (Some dyn) pops 1 mem).
Proof.
  intros Hk Hg Hdyn Hmem He. eapply (calls_ok _ _ _ _ _ _ hv regions _ False); [done|done|exact Hdyn|done|unfold call_paid; intros; lia|done|auto].
Qed.
Lemma cold_calls k e gas dyn pops mem hv regions : r_IsBerlin rules = false → k ≠ STOP → 40 ≤ gas → metered keccak rules R ro pops (uses mem) (call_paid rules hv) dyn →
  memory_of pops regions mem → (∀ s0 g0 m, calling hv regions s0 g0 m → fits pops 1 m → warm_callee m → goes s0 g0 e m) → op_ok k (entry e gas (Some dyn) pops 1 mem).
Proof.
  intros Hb Hk Hg Hdyn Hmem He. eapply (calls_ok _ _ _ _ _ _ hv regions _ True); [done|done|exact Hdyn|done|unfold call_paid; intros; lia| |auto].
  intros m c m' m2 _ _ _ _ x _. unfold warm. congruence.
Qed.
Lemma warm_calls k e gas dyn pops mem hv regions : k ≠ STOP → 40 ≤ gas → metered keccak rules R ro pops (uses mem) (call_ready rules hv) dyn →
  memory_of pops regions mem → (∀ s0 g0 m, calling hv regions s0 g0 m → fits pops 1 m → warm_callee m → goes s0 g0 e m) → op_ok k (entry e gas (Some dyn) pops 1 mem).
Proof.
  intros Hk Hg Hdyn Hmem He. eapply (calls_ok _ _ _ _ _ _ hv regions _ True); [done|done|exact Hdyn|done|unfold call_ready; intros; lia| |auto].
  intros m c m' m2 (_ & _ & Hw) E1 E2 _ x Hx. rewrite E2. apply Hw. by rewrite <- E1.
Qed.

(** ** SSTORE and SELFDESTRUCT *)

(** A gas function that may move the counter, and then the instruction. *)
Lemma counter_op k e gas dyn pops (P : machine → Z → machine → Prop) : k ≠ STOP → 0 ≤ gas → 
  (∀ m, machine_ok m → pops ≤ zlen (m_stack m) → wp (dyn 0) (P m) (fun _ => failed_ok keccak m) m) →
  (∀ m c m', P m c m' → same_run m m' ∧ ext keccak (m_db m) (m_db m')) →
  (∀ m m1 cost m', machine_ok m → ready (m_db m) (m_gas m) m1 → m_db m1 = m_db m → m_stack m1 = m_stack m → P m1 cost m' → fits pops 0 m → cost ≤ m_gas m1 →
     goes (m_db m) (m_gas m) e (set_gas (m_gas m1 - cost) m')) →
  op_ok k (entry e gas (Some dyn) pops 0 None).
Proof.
  intros Hk Hg Hdyn HP He. apply (perform_ok k _ pops 0); [done|done|done|]. intros m Hm Hl Hc Hf Hle m1 Hr. cbn [entry dynamicGas memorySize execute constantGas] in *.
  pose proof (rd_machine _ _ _ Hr) as Hm1. pose proof (rd_gas _ _ _ Hr) as Hle1. pose proof (gas_u64 _ _ _ _ Hm1) as Hgu. unfold is_u64 in Hgu.
  unfold goes, charge_dynamic. apply wp_bind, wp_bind, wp_ret, wp_bind. pose proof (Hdyn m1 Hm1 ltac:(apply Hf)) as Hw. unfold wp in Hw. unfold wp at 1, charged.
  destruct (dyn 0 m1) as [[cost|e1|] m'] eqn:Ed; [|..|done].
  - destruct (HP _ _ _ Hw) as [[C1 C2 C3] Hx]. assert (Eg : m_gas m' = m_gas m1) by (unfold m_gas; by rewrite C2).
    apply wp_bind. unfold use_gas. do 2 wp_step. unfold UseGas. rewrite Eg. case_if; [cbn; rewrite Eg; by split_and!; [lia|lia|exact Hx|..]|]. apply wp_mod, wp_ret.
    by apply (He m m1 cost m').
  - destruct Hw as [F1 F2]. cbn. split_and!; [lia|lia|exact F1|done|done].
Qed.

Lemma sstore_ok gas dyn : 0 ≤ gas → charges_store keccak rules R dyn → op_ok SSTORE (entry (opSstore keccak ro) gas (Some dyn) 2 0 None).
Proof.
  intros Hg Hdyn. apply (counter_op _ _ _ _ _ (sstore_paid keccak R)); [done|done|done|by intros m c m' []|].
  intros m m1 cost m' Hm Hr Edb Est [[C1 C2 C3] Emem Hx Hc Hwr] [Hf1 Hf2] Hle. pose proof (rd_machine _ _ _ Hr) as Hm1. pose proof (rd_gas _ _ _ Hr) as Hle1.
  destruct (stack_word m1 0 (k_words _ _ _ _ Hm1)) as (x & Ex & Hwx & _); [rewrite Est; lia|]. destruct (stack_word m1 1 (k_words _ _ _ _ Hm1)) as (y & Ey & Hwy & _); [rewrite Est; lia|].
  destruct (Hwr x y Hle Ex Ey) as (d & Hd & Hs). pose proof (gas_u64 _ _ _ _ Hm1) as Hgu. unfold is_u64 in Hgu. set (m2 := set_gas _ m'). unfold goes, opSstore, protect. apply wp_bind.
  unfold when. destruct ro eqn:Ero.
  { cbn. split_and!; [lia|lia|rewrite <- Edb; exact Hx|done|done]. }
  apply wp_ret. assert (E2 : m_stack m2 = x :: y :: drop 2 (m_stack m1)).
  { cbn. rewrite C1. clear -Ex Ey. destruct (m_stack m1) as [|a [|b l]]; [done|done|]. injection Ex as ->. injection Ey as ->. done. }
  apply wp_bind. unfold wp at 1, pop. rewrite E2. apply wp_bind. unfold wp at 1, pop. cbn [m_stack set_stack]. apply wp_bind, wp_gets, wp_put.
  pose proof (k_words _ _ _ _ Hm1) as Hws. pose proof (k_depth _ _ _ _ Hm1) as Hdp.
  match goal with |- next_ok _ _ ?m3 => apply (next_paid d (m_db m) (m_gas m) m1 m3) end; try done; cbn; rewrite ?C2, ?C3, ?Emem; try done.
  - rewrite Ero. exact Hs.
  - lia.
  - unfold rate in *. lia.
  - by apply Forall_drop.
  - unfold zlen in *. rewrite length_drop. lia.
  - apply Hm1.
  - apply Hm1.
Qed.
Lemma selfdestruct_ok gas dyn : 0 ≤ gas → charges_end keccak rules R dyn → op_ok SELFDESTRUCT (entry (opSelfdestruct keccak ro) gas (Some dyn) 1 0 None).
Proof.
  intros Hg Hdyn. apply (counter_op _ _ _ _ _ (selfdestruct_paid keccak R)); [done|done|done|intros m c m' []; split; [done|by apply de_db]|].
  intros m m1 cost m' Hm Hr Edb Est [[C1 C2 C3] Emem Hc Hs] [Hf1 Hf2] Hle. pose proof (rd_machine _ _ _ Hr) as Hm1. pose proof (rd_gas _ _ _ Hr) as Hle1.
  pose proof (gas_u64 _ _ _ _ Hm1) as Hgu. unfold is_u64 in Hgu. set (m2 := set_gas _ m'). unfold goes, opSelfdestruct, protect. apply wp_bind. unfold when. destruct ro eqn:Ero.
  { cbn. split_and!; [lia|lia|rewrite <- Edb; apply Hs|done|done]. }
  apply wp_ret. destruct (stack_word m1 0 (k_words _ _ _ _ Hm1)) as (x & Ex & Hwx & _); [rewrite Est; lia|].
  assert (E2 : ∃ l, m_stack m2 = x :: l) by (cbn; rewrite C1; clear -Ex; destruct (m_stack m1) as [|a l]; [done|]; injection Ex as ->; by exists l). destruct E2 as [l E2].
  apply wp_bind. unfold wp at 1, pop. rewrite E2. apply wp_bind, wp_gets, wp_bind. unfold wp at 1, on_db. cbn [m_db set_stack].
  destruct (State.GetBalance keccak _ (m_db m2)) as [b s1] eqn:E1. pose proof (step_with_object keccak R false _ _ _ _ _ _ E1) as H1.
  apply wp_bind, wp_put, wp_bind. unfold wp at 1, on_db. cbn [m_db set_db set_stack]. rewrite Edb in Hs.
  assert (H01 : dbstep false slack (m_db m) s1) by (rewrite <- (Z.add_0_r slack); by eapply dbstep_trans). assert (Hok1 : db_ok keccak s1) by (by apply H01, Hm).
  pose proof (step_AddBalance keccak R (toAddress x) b s1 Hok1) as H2. set (s2 := State.AddBalance _ _ _ s1) in *. assert (Hok2 : db_ok keccak s2) by (by apply H2).
  match goal with |- context [Suicide keccak ?a s2] => pose proof (step_Suicide keccak R a s2 Hok2) as H3; destruct (Suicide keccak a s2) as [b' s3] end. cbn [snd] in H3.
  assert (H03 : dbstep false slack (m_db m) s3) by (rewrite <- (Z.add_0_r slack); eapply dbstep_trans; [exact H01|by eapply dbstep_then]).
  cbn. split_and!; [lia|lia|apply H03|done|]. intros _. exists slack. split; [by rewrite Ero|]. unfold rate, slack in *. lia.
Qed.

(** ** The tables *)

#[local] Abbreviation JumpTable := (JumpTable (T := T) (S := S)).
(** Entries are right but for the bytes [bad], which later forks replace. *)
Definition entries_ok (bad : list Z) (jt : JumpTable) : Prop := ∀ k, k ∉ bad → op_ok k (jt k).
Lemma set_op_ok bad k o jt : entries_ok bad jt → (k ∈ bad ∨ op_ok k o) → entries_ok bad (set_op k o jt).
Proof. intros H Ho i Hi. unfold set_op. destruct (Z.eqb_spec i k) as [->|]; [|by apply H]. by destruct Ho. Qed.
Lemma fix_ok bad k o jt : entries_ok (k :: bad) jt → op_ok k o → entries_ok bad (set_op k o jt).
Proof. intros H Ho i Hi. unfold set_op. destruct (Z.eqb_spec i k) as [->|]; [done|]. apply H. by intros [->|]%elem_of_cons. Qed.
Lemma rows_ok bad rows jt : entries_ok bad jt → Forall (fun r => r.1 ∈ bad ∨ op_ok r.1 r.2) rows → entries_ok bad (foldr (fun '(k, o) jt => set_op k o jt) jt rows).
Proof. intros H. induction 1 as [|[k o] rows Ho _ IH]; [done|]. cbn. by apply set_op_ok. Qed.

Lemma undefined_entry k : k ≠ STOP → op_ok k (mkOperation opUndefined 0 None 0 StackLimit None).
Proof.
  intros Hk. apply (perform_ok k _ 0 0); [done|done|done|]. intros m Hm Hl Hc Hf Hle m1 Hr. apply wp_bind, wp_ret. apply undefined_ok; [done|]. by apply Hc.
Qed.
Lemma stop_entry : op_ok STOP (plain opStop 0 0 0).
Proof. apply (perform_ok STOP _ 0 0); [done|done|done|]. intros m Hm Hl Hc Hf Hle m1 Hr. apply wp_bind, wp_ret. apply ends_stop; [done| |done]. done. Qed.

(** What writes without a gas function of its own, or needs the access list, is
    for later. *)
Definition later : list Z := [SSTORE; CALL; STATICCALL].
Ltac plain_row := right; apply plain_ok; [discriminate|first [done|cbn; lia]|].

Lemma frontier_arithmetic_ok : Forall (fun r => r.1 ∈ later ∨ op_ok r.1 r.2) (tail frontier_arithmetic).
Proof.
  unfold frontier_arithmetic. cbn [tail]. repeat (apply Forall_cons; split); [..|constructor]; cbn [fst snd].
  all: try (plain_row; first [apply does_arith|apply does_addmod|apply does_mulmod|apply does_signextend]).
  right. eapply (metered_does _ _ _ _ _ _ _ no_memory ExpGas); [discriminate|done|done|done|by apply metered_exp|done|apply does_arith].
Qed.
Lemma frontier_comparison_ok : Forall (fun r => r.1 ∈ later ∨ op_ok r.1 r.2) frontier_comparison.
Proof.
  repeat (apply Forall_cons; split); [..|constructor]; cbn [fst snd].
  all: plain_row; first [apply does_comparison|apply does_arith|apply does_iszero|apply does_not|apply does_byte].
Qed.

(** A row with a gas function, for the bound [low] and the regions [reg]. *)
Ltac gas_row low reg := right; eapply (metered_does _ _ _ _ _ _ _ reg low); [discriminate|done|done|done|..].
Lemma sized_held {E} pops off len : Z.of_nat off < pops → Z.of_nat len < pops → sized (T := T) (S := S) (E := E) pops (held off len) (memory_at off len).
Proof. apply sized_at. Qed.

Lemma frontier_context_ok : Forall (fun r => r.1 ∈ later ∨ op_ok r.1 r.2) (frontier_context keccak env EnablePreimageRecording).
Proof.
  repeat (apply Forall_cons; split); [..|constructor]; cbn [fst snd].
  all: try (plain_row; first [apply does_address|apply does_balance|apply does_caller|apply does_callvalue|apply (does_len m_input)|apply (does_len (fun m => c_Code (m_contract m)))|apply does_extcodesize]; fail).
  - gas_row 0 (held 0 1); [apply metered_keccak|by apply sized_held|apply does_keccak].
  - plain_row. apply does_push. auto with words.
  - plain_row. apply does_calldataload.
  - gas_row 0 (held 0 2); [by apply metered_copier|by apply sized_held|apply does_copy].
  - gas_row 0 (held 0 2); [by apply metered_copier|by apply sized_held|apply does_copy].
  - plain_row. apply does_push. auto with words.
  - gas_row 0 (held 1 3); [by apply metered_copier|by apply sized_held|apply does_extcodecopy].
Qed.
Lemma frontier_block_ok : Forall (fun r => r.1 ∈ later ∨ op_ok r.1 r.2) (frontier_block env).
Proof.
  repeat (apply Forall_cons; split); [..|constructor]; cbn [fst snd].
  all: plain_row; first [apply does_blockhash|apply does_push; auto with words].
Qed.
Lemma frontier_storage_ok : Forall (fun r => r.1 ∈ later ∨ op_ok r.1 r.2) (frontier_storage keccak abort rules ro).
Proof.
  repeat (apply Forall_cons; split); [..|constructor]; cbn [fst snd].
  all: try (plain_row; first [apply does_pop|apply does_sload|apply does_jump|apply does_jumpi|apply does_pc|apply does_msize|apply does_gas|apply does_jumpdest]; fail).
  - gas_row 0 (fun st => [(word_at st 0, 32)]); [apply metered_pure|by apply sized_const|apply does_mload].
  - gas_row 0 (fun st => [(word_at st 0, 32)]); [apply metered_pure|by apply sized_const|apply does_mstore].
  - gas_row 0 (fun st => [(word_at st 0, 1)]); [apply metered_pure|by apply sized_const|apply does_mstore8].
  - left. set_solver.
Qed.
Lemma Forall_seqZ (P : Z → Prop) (lo n : Z) : (∀ i, lo ≤ i < lo + n → P i) → Forall P (seqZ lo n).
Proof. intros H. apply Forall_forall. intros i Hi%elem_of_seqZ. by apply H. Qed.
Lemma frontier_stack_ok : Forall (fun r => r.1 ∈ later ∨ op_ok r.1 r.2) (frontier_push (T := T) (S := S) ++ frontier_dup ++ frontier_swap).
Proof.
  apply Forall_app_2; [apply Forall_cons; split; [plain_row; apply does_push1|]|apply Forall_app_2]; apply Forall_fmap, Forall_seqZ; intros n Hn; cbn; right.
  - apply plain_ok; [unfold PUSH1, STOP; lia|done|]. apply does_pushn. lia.
  - apply plain_ok; [unfold DUP1, STOP; lia|done|]. pose proof (does_dup (Z.to_nat n)) as H. rewrite Z2Nat.id in H by lia. apply H. lia.
  - apply plain_ok; [unfold SWAP1, STOP; lia|done|]. pose proof (does_swap (Z.to_nat n)) as H. by rewrite Z2Nat.id in H by lia.
Qed.
Lemma sized_call {E} : sized (T := T) (S := S) (E := E) 7 call_regions memoryCall.
Proof. by apply sized_both. Qed.
Lemma sized_plain_call {E} : sized (T := T) (S := S) (E := E) 6 plain_regions memoryDelegateCall.
Proof. by apply sized_both. Qed.
Lemma ok_callcode gas : 40 ≤ gas → op_ok CALLCODE (entry (opCallCode keccak RequiredGas precompiled_Run rules depth callee) gas (Some (gasCallCode rules)) 7 1 (Some memoryCall)).
Proof. intros Hg. eapply (paid_calls _ _ _ _ _ _ true call_regions); [discriminate|done|apply metered_callcode|apply sized_call|]. intros. by apply calls_code. Qed.
Lemma frontier_system_ok : Forall (fun r => r.1 ∈ later ∨ op_ok r.1 r.2) (frontier_system keccak env RequiredGas precompiled_Run rules depth ro callee).
Proof.
  repeat (apply Forall_cons; split); [..|constructor]; cbn [fst snd].
  1-5: gas_row LogGas (held 0 1); [by apply metered_log|by apply sized_held|by apply does_log].
  - right. eapply metered_creates; [discriminate|done|apply metered_pure|by apply sized_held|apply creates_create].
  - left. set_solver.
  - right. by apply ok_callcode.
  - right. eapply (metered_ends _ _ _ _ _ _ (held 0 1)); [discriminate|done|apply metered_pure|by apply sized_held|apply ends_return].
  - right. apply selfdestruct_ok; [done|apply charges_selfdestruct].
Qed.

(** *** From fork to fork *)

#[local] Abbreviation frontier := (newFrontierInstructionSet keccak env EnablePreimageRecording abort RequiredGas precompiled_Run rules depth ro callee).
#[local] Abbreviation homestead := (newHomesteadInstructionSet keccak env EnablePreimageRecording abort RequiredGas precompiled_Run rules depth ro callee).
#[local] Abbreviation tangerine := (newTangerineWhistleInstructionSet keccak env EnablePreimageRecording abort RequiredGas precompiled_Run rules depth ro callee).
#[local] Abbreviation spurious := (newSpuriousDragonInstructionSet keccak env EnablePreimageRecording abort RequiredGas precompiled_Run rules depth ro callee).
#[local] Abbreviation byzantium := (newByzantiumInstructionSet keccak env EnablePreimageRecording abort RequiredGas precompiled_Run rules depth ro callee).
#[local] Abbreviation constantinople := (newConstantinopleInstructionSet keccak env EnablePreimageRecording abort RequiredGas precompiled_Run rules depth ro callee).
#[local] Abbreviation istanbul := (newIstanbulInstructionSet keccak env EnablePreimageRecording abort RequiredGas precompiled_Run rules depth ro callee).
#[local] Abbreviation berlin := (newBerlinInstructionSet keccak env EnablePreimageRecording abort RequiredGas precompiled_Run rules depth ro callee).
#[local] Abbreviation london := (newLondonInstructionSet keccak env EnablePreimageRecording abort RequiredGas precompiled_Run rules depth ro callee).
#[local] Abbreviation merge := (newMergeInstructionSet keccak env EnablePreimageRecording abort RequiredGas precompiled_Run rules depth ro callee).
#[local] Abbreviation shanghai := (newShanghaiInstructionSet keccak env EnablePreimageRecording abort RequiredGas precompiled_Run rules depth ro callee).

Lemma frontier_ok : entries_ok later frontier.
Proof.
  unfold newFrontierInstructionSet, frontier_rows, frontier_arithmetic. cbn [app foldr]. apply fix_ok; [|apply stop_entry].
  assert (Hrows : Forall (fun r => r.1 ∈ STOP :: later ∨ op_ok r.1 r.2) (tail (frontier_rows keccak env EnablePreimageRecording abort RequiredGas precompiled_Run rules depth ro callee))).
  { apply (Forall_impl (fun r => r.1 ∈ later ∨ op_ok r.1 r.2)); [|intros r [H|H]; [left; by apply elem_of_cons; right|by right]].
    change (Forall (fun r => r.1 ∈ later ∨ op_ok r.1 r.2) (tail frontier_arithmetic ++ frontier_comparison ++ frontier_context keccak env EnablePreimageRecording ++ frontier_block env ++
      frontier_storage keccak abort rules ro ++ frontier_push ++ frontier_dup ++ frontier_swap ++ frontier_system keccak env RequiredGas precompiled_Run rules depth ro callee)).
    pose proof frontier_stack_ok as Hs. apply Forall_app in Hs as [Hs1 Hs]. apply Forall_app in Hs as [Hs2 Hs3].
    repeat apply Forall_app_2; auto using frontier_arithmetic_ok, frontier_comparison_ok, frontier_context_ok, frontier_block_ok, frontier_storage_ok, frontier_system_ok. }
  refine (rows_ok (STOP :: later) _ _ _ Hrows). intros i Hi. apply undefined_entry. set_solver.
Qed.

Lemma reprice_ok bad k gas jt e g dyn pops pushes mem : entries_ok bad jt → jt k = entry e g dyn pops pushes mem → (k ∈ bad ∨ op_ok k (entry e gas dyn pops pushes mem)) → entries_ok bad (reprice k gas jt).
Proof. intros H E Ho. apply set_op_ok; [done|]. by rewrite E. Qed.
Lemma remeter_ok bad k dyn jt e g d0 pops pushes mem : entries_ok bad jt → jt k = entry e g d0 pops pushes mem → (k ∈ bad ∨ op_ok k (entry e g (Some dyn) pops pushes mem)) → entries_ok bad (remeter k dyn jt).
Proof. intros H E Ho. apply set_op_ok; [done|]. by rewrite E. Qed.

Lemma ok_delegatecall gas : 40 ≤ gas →
  op_ok DELEGATECALL (entry (opDelegateCall keccak RequiredGas precompiled_Run rules depth callee) gas (Some (gasDelegateCall rules)) 6 1 (Some memoryDelegateCall)).
Proof. intros Hg. eapply (paid_calls _ _ _ _ _ _ false plain_regions); [discriminate|done|apply metered_delegatecall|apply sized_plain_call|]. intros. by apply calls_delegate. Qed.
Lemma homestead_ok : entries_ok later homestead.
Proof. apply set_op_ok; [apply frontier_ok|]. right. by apply ok_delegatecall. Qed.
Lemma tangerine_ok : entries_ok later tangerine.
Proof.
  unfold newTangerineWhistleInstructionSet.
  eapply reprice_ok; [|reflexivity|right; by apply ok_delegatecall]. eapply reprice_ok; [|reflexivity|right; by apply ok_callcode].
  eapply reprice_ok; [|reflexivity|left; set_solver].
  eapply reprice_ok; [|reflexivity|gas_row 0 (held 1 3); [by apply metered_copier|by apply sized_held|apply does_extcodecopy]].
  eapply reprice_ok; [|reflexivity|plain_row; apply does_sload]. eapply reprice_ok; [|reflexivity|plain_row; apply does_extcodesize].
  eapply reprice_ok; [|reflexivity|plain_row; apply does_balance]. apply homestead_ok.
Qed.
Lemma spurious_ok : entries_ok later spurious.
Proof. eapply remeter_ok; [apply tangerine_ok|reflexivity|gas_row ExpGas no_memory; [by apply metered_exp|done|apply does_arith]]. Qed.
Lemma byzantium_ok : entries_ok later byzantium.
Proof.
  unfold newByzantiumInstructionSet.
  apply set_op_ok; [|right; eapply (metered_ends _ _ _ _ _ _ (held 0 1)); [discriminate|done|apply metered_pure|by apply sized_held|apply ends_revert]].
  apply set_op_ok; [|gas_row 0 (held 0 2); [by apply metered_copier|by apply sized_held|apply does_returndatacopy]].
  apply set_op_ok; [|plain_row; apply (does_len m_returnData)]. apply set_op_ok; [apply spurious_ok|left; set_solver].
Qed.
Lemma constantinople_ok : entries_ok later constantinople.
Proof.
  unfold newConstantinopleInstructionSet.
  apply set_op_ok; [|right; eapply metered_creates; [discriminate|done|apply metered_create2|by apply sized_held|apply creates_create2]].
  apply set_op_ok; [|plain_row; apply does_extcodehash]. apply set_op_ok; [|plain_row; apply does_sar]. apply set_op_ok; [|plain_row; apply does_shift].
  apply set_op_ok; [apply byzantium_ok|plain_row; apply does_shift].
Qed.

(** The chain has an identifier, a base fee and a random value when the table
    has instructions for them. *)
Lemma chainid_ok : is_Some (ChainID (e_config env)) → op_ok CHAINID (plain (opChainID env) GasQuickStep 0 1).
Proof. intros Hs. apply plain_ok; [discriminate|done|]. apply does_need; [done|auto with words]. Qed.
Lemma istanbul_ok : is_Some (ChainID (e_config env)) → entries_ok later istanbul.
Proof.
  intros Hs. unfold newIstanbulInstructionSet, enable2200, enable1884, enable1344.
  eapply remeter_ok; [|reflexivity|left; set_solver]. eapply reprice_ok; [|reflexivity|plain_row; apply does_sload].
  apply set_op_ok; [|plain_row; apply does_selfbalance]. eapply reprice_ok; [|reflexivity|plain_row; apply does_extcodehash].
  eapply reprice_ok; [|reflexivity|plain_row; apply does_balance]. eapply reprice_ok; [|reflexivity|plain_row; apply does_sload].
  apply set_op_ok; [apply constantinople_ok|right; by apply chainid_ok].
Qed.

(** Before Berlin nothing is missing. *)
Lemma complete jt : entries_ok later jt → op_ok SSTORE (jt SSTORE) → op_ok CALL (jt CALL) → op_ok STATICCALL (jt STATICCALL) → ∀ k, op_ok k (jt k).
Proof.
  intros H H1 H2 H3 k. destruct (decide (k ∈ later)) as [Hk|Hk]; [|by apply H]. unfold later in Hk. rewrite !elem_of_cons, elem_of_nil in Hk. destruct Hk as [->|[->|[->|[]]]]; done.
Qed.
Lemma ok_call gas : r_IsBerlin rules = false → 40 ≤ gas →
  op_ok CALL (entry (opCall keccak RequiredGas precompiled_Run rules depth ro callee) gas (Some (gasCall keccak rules)) 7 1 (Some memoryCall)).
Proof. intros Hb Hg. eapply (cold_calls _ _ _ _ _ _ true call_regions); [done|discriminate|done|apply metered_call|apply sized_call|]. apply calls_call. Qed.
Lemma ok_staticcall gas : r_IsBerlin rules = false → 40 ≤ gas →
  op_ok STATICCALL (entry (opStaticCall keccak RequiredGas precompiled_Run rules depth callee) gas (Some (gasStaticCall rules)) 6 1 (Some memoryStaticCall)).
Proof. intros Hb Hg. eapply (cold_calls _ _ _ _ _ _ false plain_regions); [done|discriminate|done|apply metered_staticcall|apply sized_plain_call|]. apply calls_static. Qed.

Lemma before_berlin : r_IsBerlin rules = false → R = 15000 →
  (∀ k, op_ok k (frontier k)) ∧ (∀ k, op_ok k (homestead k)) ∧ (∀ k, op_ok k (tangerine k)) ∧ (∀ k, op_ok k (spurious k)) ∧ (∀ k, op_ok k (byzantium k)) ∧
  (∀ k, op_ok k (constantinople k)) ∧ (is_Some (ChainID (e_config env)) → ∀ k, op_ok k (istanbul k)).
Proof.
  intros Hb HR. assert (Hs : op_ok SSTORE (entry (opSstore keccak ro) 0 (Some (gasSStore keccak rules)) 2 0 None)) by (apply sstore_ok; [done|by apply charges_gasSStore]).
  assert (Hs' : op_ok SSTORE (entry (opSstore keccak ro) 0 (Some (gasSStoreEIP2200 keccak)) 2 0 None)) by (apply sstore_ok; [done|by apply charges_2200]).
  pose proof (ok_call CallGasFrontier Hb ltac:(done)) as Hc. pose proof (ok_call CallGasEIP150 Hb ltac:(done)) as Hc'. pose proof (ok_staticcall CallGasEIP150 Hb ltac:(done)) as Ht.
  pose proof (undefined_entry STATICCALL ltac:(discriminate)) as Hu.
  split_and!; [apply complete; [apply frontier_ok|..]|apply complete; [apply homestead_ok|..]|apply complete; [apply tangerine_ok|..]|apply complete; [apply spurious_ok|..]|
    apply complete; [apply byzantium_ok|..]|apply complete; [apply constantinople_ok|..]|intros; apply complete; [by apply istanbul_ok|..]]; assumption.
Qed.

(** *** From Berlin on *)

Lemma access_ok bad k gas dyn jt e g d0 pops pushes mem : entries_ok bad jt → jt k = entry e g d0 pops pushes mem → (k ∈ bad ∨ op_ok k (entry e gas (Some dyn) pops pushes mem)) →
  entries_ok bad (access k gas dyn jt).
Proof.
  intros H E Ho i Hi. unfold access, remeter, reprice, set_op. destruct (Z.eqb_spec i k) as [->|]; [|by apply H]. rewrite Z.eqb_refl, E. by destruct Ho.
Qed.
Context (Heip150 : r_IsEIP150 rules = true).

Lemma berlin_ok : is_Some (ChainID (e_config env)) → entries_ok later berlin.
Proof.
  intros Hs. unfold newBerlinInstructionSet, enable2929.
  eapply access_ok; [|reflexivity|right; apply selfdestruct_ok; [done|apply charges_selfdestruct_2929]].
  eapply access_ok; [|reflexivity|right; eapply (calls_ok _ _ _ _ _ _ false plain_regions _ False); [discriminate|done|apply metered_variant; [done|done|apply metered_delegatecall]|apply sized_plain_call|unfold call_ready; intros; lia|done|]];
    [|intros; by apply calls_delegate].
  eapply access_ok; [|reflexivity|left; set_solver].
  eapply access_ok; [|reflexivity|right; eapply (calls_ok _ _ _ _ _ _ true call_regions _ False); [discriminate|done|apply metered_variant; [done|done|apply metered_callcode]|apply sized_call|unfold call_ready; intros; lia|done|]];
    [|intros; by apply calls_code].
  eapply access_ok; [|reflexivity|left; set_solver].
  eapply access_ok; [|reflexivity|gas_row 0 no_memory; [apply metered_account|done|apply does_balance]].
  eapply access_ok; [|reflexivity|gas_row 0 no_memory; [apply metered_account|done|apply does_extcodehash]].
  eapply access_ok; [|reflexivity|gas_row 0 no_memory; [apply metered_account|done|apply does_extcodesize]].
  eapply access_ok; [|reflexivity|gas_row 0 (held 1 3); [apply metered_extcodecopy|by apply sized_held|apply does_extcodecopy]].
  eapply access_ok; [|reflexivity|gas_row WarmStorageReadCostEIP2929 no_memory; [apply metered_sload|done|apply does_sload]].
  eapply remeter_ok; [by apply istanbul_ok|reflexivity|left; set_solver].
Qed.
Lemma london_ok : is_Some (ChainID (e_config env)) → is_Some (bc_BaseFee (e_block env)) → entries_ok later london.
Proof.
  intros Hs Hf. unfold newLondonInstructionSet, enable3198, enable3529. apply set_op_ok; [|plain_row; apply does_need; [done|auto with words]].
  eapply remeter_ok; [|reflexivity|right; apply selfdestruct_ok; [done|apply charges_selfdestruct_2929]]. eapply remeter_ok; [by apply berlin_ok|reflexivity|left; set_solver].
Qed.
Lemma merge_ok : is_Some (ChainID (e_config env)) → is_Some (bc_BaseFee (e_block env)) → is_Some (bc_Random (e_block env)) → entries_ok later merge.
Proof. intros Hs Hf Hr. apply set_op_ok; [by apply london_ok|]. plain_row. apply does_need; [done|auto with words]. Qed.
Lemma shanghai_ok : is_Some (ChainID (e_config env)) → is_Some (bc_BaseFee (e_block env)) → is_Some (bc_Random (e_block env)) → entries_ok later shanghai.
Proof.
  intros Hs Hf Hr. unfold newShanghaiInstructionSet, enable3860, enable3855.
  eapply remeter_ok; [|reflexivity|right; eapply metered_creates; [discriminate|done|apply metered_create2_3860|by apply sized_held|apply creates_create2]].
  eapply remeter_ok; [|reflexivity|right; eapply metered_creates; [discriminate|done|apply metered_create3860|by apply sized_held|apply creates_create]].
  apply set_op_ok; [by apply merge_ok|]. plain_row. by apply does_push.
Qed.

Lemma after_berlin jt clear : r_IsBerlin rules = true → clear = R → 0 ≤ R ≤ 15000 → entries_ok later jt →
  jt SSTORE = entry (opSstore keccak ro) 0 (Some (makeGasSStoreFunc keccak clear)) 2 0 None →
  jt CALL = entry (opCall keccak RequiredGas precompiled_Run rules depth ro callee) WarmStorageReadCostEIP2929 (Some (gasCallEIP2929 keccak rules)) 7 1 (Some memoryCall) →
  jt STATICCALL = entry (opStaticCall keccak RequiredGas precompiled_Run rules depth callee) WarmStorageReadCostEIP2929 (Some (gasStaticCallEIP2929 rules)) 6 1 (Some memoryStaticCall) →
  ∀ k, op_ok k (jt k).
Proof.
  intros Hb Hc HR Hj E1 E2 E3. apply complete; [done|rewrite E1|rewrite E2|rewrite E3].
  - apply sstore_ok; [done|by apply charges_2929].
  - eapply (warm_calls _ _ _ _ _ _ true call_regions); [discriminate|done|apply metered_variant; [done|done|apply metered_call]|apply sized_call|apply calls_call].
  - eapply (warm_calls _ _ _ _ _ _ false plain_regions); [discriminate|done|apply metered_variant; [done|done|apply metered_staticcall]|apply sized_plain_call|apply calls_static].
Qed.
End Safe.
