(* ===== verification/Execution.v ===== *)
(** Programs return: the loop of [Interpreter.v] under the invariant, and what
    follows for calls, for the creation of contracts and for static calls.

    The fuel of the loop is one unit for each instruction, also of callees;
    each instruction that does not end its program costs gas, so more fuel than
    gas is enough. *)

From S2P Require Import Prelude RLP Types Receipts Config Transactions StateTransition State StateJournal StateEffects Evm Jumpdest Vm VmSafe StorageGas Interpreter InterpreterSafe.

(** ** What the chain provides *)

Definition has_london (r : RulesT) : bool := r_IsShanghai r || r_IsMerge r || r_IsLondon r.
Definition has_berlin (r : RulesT) : bool := has_london r || r_IsBerlin r.
(** Forks come in order, and a block has the values its table can ask for. *)
Record context_ok (env : evmEnv) (r : RulesT) : Prop := {
  cx_berlin : has_berlin r = true → r_IsBerlin r = true ∧ r_IsEIP150 r = true;
  cx_chain : has_berlin r = true ∨ r_IsIstanbul r = true → is_Some (ChainID (e_config env));
  cx_fee : has_london r = true → is_Some (bc_BaseFee (e_block env));
  cx_random : r_IsShanghai r = true ∨ r_IsMerge r = true → is_Some (bc_Random (e_block env));
  cx_time : is_u64 (bc_Time (e_block env));
  cx_limit : is_u64 (bc_GasLimit (e_block env))
}.
(** The refund of a cleared slot. *)
Definition slot_refund (r : RulesT) : Z := if has_london r then SstoreClearsScheduleRefundEIP3529 else SstoreClearsScheduleRefundEIP2200.

Section Execution.
Context {T S : Type} `{Trie : !Tries T S} `{W : !Uint256} `{WL : !Uint256Laws} (keccak : bytes → Z).
Context (env : evmEnv) (EnablePreimageRecording : bool) (abort : machine T S → bool).
Context (RequiredGas : RulesT → Z → bytes → Z) (precompiled_Run : RulesT → Z → bytes → bytes * option vmError).
Context (rules : RulesT).
Context (Hctx : context_ok env rules) (Hgas : ∀ r a i, 0 ≤ RequiredGas r a i).
#[local] Abbreviation R := (slot_refund rules).
#[local] Abbreviation machine_ok := (machine_ok keccak rules R).
#[local] Abbreviation dbstep := (dbstep keccak R).
#[local] Abbreviation table := (NewEVMInterpreter keccak env EnablePreimageRecording abort RequiredGas precompiled_Run rules).
#[local] Abbreviation loop := (loop keccak env EnablePreimageRecording abort RequiredGas precompiled_Run rules).
#[local] Abbreviation step := (step keccak env EnablePreimageRecording abort RequiredGas precompiled_Run rules).
#[local] Abbreviation Run := (Run keccak env EnablePreimageRecording abort RequiredGas precompiled_Run rules).
Implicit Types (m : machine T S) (s : stateDB T S).

(** Every entry of the table of the rules is right. *)
Lemma table_ok depth ro callee limit k : runs_ok keccak callee rules R ro limit → op_ok keccak rules R ro limit k (table depth ro callee k).
Proof.
  intros Hrun. destruct Hctx as [Hb Hc Hf Hr Ht Hl]. unfold NewEVMInterpreter. unfold slot_refund in *. unfold has_berlin, has_london in *.
  destruct (r_IsShanghai rules) eqn:E1; [|destruct (r_IsMerge rules) eqn:E2; [|destruct (r_IsLondon rules) eqn:E3; [|destruct (r_IsBerlin rules) eqn:E4]]]; cbn [orb] in *.
  1-4: destruct (Hb eq_refl) as [Hb1 Hb2]; eapply (after_berlin keccak RequiredGas precompiled_Run rules _ depth ro callee limit Hrun Hgas Hb2); [done|reflexivity|done| |reflexivity|reflexivity|reflexivity].
  - apply shanghai_ok; auto.
  - apply merge_ok; auto.
  - apply london_ok; auto.
  - apply berlin_ok; auto.
  - destruct (before_berlin keccak env EnablePreimageRecording abort RequiredGas precompiled_Run rules SstoreClearsScheduleRefundEIP2200 depth ro callee limit Hrun Hgas Ht Hl E4 eq_refl)
      as (H1 & H2 & H3 & H4 & H5 & H6 & H7).
    case_if; [apply H7; auto|]. case_if; [apply H6|]. case_if; [apply H5|]. case_if; [apply H4|]. case_if; [apply H3|]. case_if; [apply H2|apply H1].
Qed.

(** No table panics when it is made: an instruction that uses memory has a gas
    function, which is where the loop grows the memory. *)
Lemma table_valid depth ro callee : validate (table depth ro callee) = true.
Proof. unfold NewEVMInterpreter. repeat case_if; reflexivity. Qed.

(** ** The loop *)

Definition run_result ro s (gas : Z) (res : outcome stuck (callResult * stateDB T S)) : Prop := ∃ ret left err s', res = Ok (ret, left, err, s') ∧
  0 ≤ left ≤ gas ∧ ext keccak s s' ∧ err ≠ Some ErrCodeStoreOutOfGas ∧ (err = None → spent keccak R ro s gas left s').

Lemma machine_start s c input : run_ok keccak rules R s c → machine_ok (start c input s).
Proof. intros [H1 H2 H3 H4]. split; try done. apply mem_ok_new. Qed.

Lemma GetOp_code m : is_u64 (m_pc m) → GetOp (m_contract m) (m_pc m) ≠ STOP → in_code m.
Proof. unfold GetOp, in_code, is_u64. intros Hp. case_if; [lia|done]. Qed.

Lemma step_ok depth ro callee limit m : runs_ok keccak callee rules R ro limit → machine_ok m → m_gas m ≤ limit →
  wp (step depth ro callee) (fun _ => next_ok keccak rules R ro (m_db m) (m_gas m)) (done_ok keccak R ro (m_db m) (m_gas m)) m.
Proof.
  intros Hrun Hm Hl. unfold Interpreter.step. apply wp_bind, wp_gets, wp_bind. pose proof (k_pc _ _ _ _ Hm) as Hpc.
  eapply wp_mono; [apply (table_ok depth ro callee limit _ Hrun m Hm Hl); intros Hk; by apply GetOp_code| |done].
  intros [] m' [[] Hg Hp]. apply wp_mod. split; [split; try done; apply u64_range|done|done].
Qed.

Lemma loop_total fuel : ∀ depth ro m, machine_ok m → m_gas m < Z.of_nat fuel → run_result ro (m_db m) (m_gas m) (loop fuel depth ro m).
Proof.
  induction fuel as [|fuel IH]; intros depth ro m Hm Hg.
  - pose proof (gas_u64 _ _ _ _ Hm) as Hu. unfold is_u64 in Hu. lia.
  - cbn [Interpreter.loop]. set (callee := fun c input r s => _).
    assert (Hrun : runs_ok keccak callee rules R ro (Z.of_nat fuel)).
    { intros c input r s Hc Hcg. unfold callee. case_if.
      - exists [], (c_Gas c), None, s. pose proof (sk_gas _ _ _ _ (ro_state _ _ _ _ _ Hc)). split_and!; try done. intros _. apply spent_step; [apply dbstep_refl|lia].
      - apply IH; [by apply machine_start|done]. }
    pose proof (step_ok depth ro callee (Z.of_nat fuel) m Hrun Hm ltac:(lia)) as Hs. unfold wp in Hs. destruct (step depth ro callee m) as [[[]|e|] m']; [|destruct e as [ret err|]; [|done]|done].
    + destruct Hs as [Hm' Hlt (d & Hd & Hp)]. destruct (IH depth ro m' Hm') as (ret & left & err & s' & E & Hb & Hx & He & Hsp); [lia|]. exists ret, left, err, s'. rewrite E.
      split_and!; [done|lia|lia|etrans; [apply Hd|done]|done|]. intros Hn. destruct (Hsp Hn) as (d' & Hd' & Hp'). exists (d + d'). split; [by eapply dbstep_trans|lia].
    + destruct Hs as (Hb & Hx & He & Hsp). exists ret, (m_gas m'), err, (m_db m'). done.
Qed.

(** The interpreter promises what frames rely on. *)
Lemma Run_runs fuel depth ro : runs_ok keccak (Run fuel depth ro) rules R ro (Z.of_nat fuel).
Proof.
  intros c input r s Hc Hcg. unfold Interpreter.Run. case_if.
  - exists [], (c_Gas c), None, s. pose proof (sk_gas _ _ _ _ (ro_state _ _ _ _ _ Hc)). split_and!; try done. intros _. apply spent_step; [apply dbstep_refl|lia].
  - apply loop_total; [by apply machine_start|done].
Qed.

(** ** What a program does *)

(** C9. The interpreter always returns.  Under every rule set whose forks come
    in order and for every program, on a state in which the running account
    exists, more fuel than gas is enough: the loop ends, with the frames below
    it, and never panics (no stack or memory access out of range, no refund
    taken back that is not there, no storage charge of a contract that is off
    the access list, no [nil] of the block's context).  It returns at most the
    gas it was given; every snapshot that was there before it is still there,
    so that reverting to it restores what every reader saw when it was taken;
    and after a success the refund counter grew by a bounded amount for each
    unit of gas and still covers every cleared slot. *)
Theorem Run_total fuel depth readOnly c input static s : run_ok keccak rules (slot_refund rules) s c → c_Gas c < Z.of_nat fuel →
  ∃ ret left err s', Run fuel depth readOnly c input static s = Ok (ret, left, err, s') ∧ 0 ≤ left ≤ c_Gas c ∧ db_ok keccak s' ∧
    (∀ s0, revisions_ok s0 → since keccak {[ ripemd ]} s0 (Snapshot s0).1 s → ∃ t, RevertToSnapshot keccak (Snapshot s0).1 s' = Ok t ∧ same_reads keccak t s0) ∧
    (err = None → covers keccak (slot_refund rules) s' ∧ refund s' ≤ refund s + 600 * (c_Gas c - left) + 24000).
Proof.
  intros Hc Hg. destruct (Run_runs fuel depth readOnly c input static s Hc Hg) as (ret & left & err & s' & E & Hb & Hx & _ & Hsp). exists ret, left, err, s'.
  destruct (ro_state _ _ _ _ _ Hc) as [Hok Hcov _ _]. split; [done|]. split; [done|]. split; [by apply Hx|].
  split; [intros s0 Hr H0; destruct (since_back keccak {[ ripemd ]} s0 s' Hr (ex_inside _ _ _ Hx s0 Hr H0)) as (t & Et & He & _); exists t; split; [exact Et|by eapply eqv_reads]|].
  intros He. destruct (Hsp He) as (d & Hd & Hcost). pose proof (ds_refund _ _ _ _ _ _ Hd). unfold rate, slack in Hcost. split; [by apply Hd|lia].
Qed.

(** The four ways to call, from a contract. *)
Inductive callKind := KCall (value : Z) | KCallCode (value : Z) | KDelegateCall | KStaticCall.
Definition call_frame (fuel : nat) (depth : Z) (readOnly : bool) (kind : callKind) (caller : Contract) (addr : Z) (input : bytes) (gas : Z) s
  : outcome stuck (callResult * stateDB T S) :=
  let run := Run fuel depth readOnly in
  match kind with
  | KCall value => Call keccak run RequiredGas precompiled_Run rules depth (OfContract caller) addr input gas value s
  | KCallCode value => CallCode keccak run RequiredGas precompiled_Run rules depth (OfContract caller) addr input gas value s
  | KDelegateCall => DelegateCall keccak run RequiredGas precompiled_Run rules depth (OfContract caller) addr input gas s
  | KStaticCall => StaticCall keccak run RequiredGas precompiled_Run rules depth (OfContract caller) addr input gas s
  end.
(** The caller runs, and the callee is on the access list from Berlin on; in a
    static frame no value is sent. *)
Record call_allowed (readOnly : bool) (kind : callKind) (caller : Contract) (addr gas : Z) s : Prop := {
  ca_state : state_ok keccak (slot_refund rules) s gas;
  ca_self : is_Some (alive keccak s (c_self caller));
  ca_value : is_Some (c_value caller);
  ca_warm : r_IsBerlin rules = true → AddressInAccessList (c_self caller) s = true ∧ AddressInAccessList addr s = true;
  ca_static v : readOnly = true → kind = KCall v → v = 0
}.

Lemma call_frame_ok fuel depth readOnly kind caller addr input gas s : call_allowed readOnly kind caller addr gas s → gas < Z.of_nat fuel →
  frame_ok keccak R (match kind with KStaticCall => true | _ => readOnly end) s gas (call_frame fuel depth readOnly kind caller addr input gas s).
Proof.
  intros [H1 H2 H3 H4 H5] Hg. pose proof (Run_runs fuel depth readOnly) as Hrun. assert (Hw : warm rules s (c_self caller)) by (intros Hb; by apply H4). assert (Hw' : warm rules s addr) by (intros Hb; by apply H4).
  destruct kind; cbn [call_frame].
  - eapply Call_ok; [exact Hrun|done..|]. intros Hro. by apply (H5 value).
  - by eapply CallCode_ok.
  - by eapply DelegateCall_ok.
  - by eapply StaticCall_ok.
Qed.

(** C11. A call that fails leaves no trace: whatever the callee's program and
    the programs it calls do, the frame returns without a panic and with at
    most the gas it was given; when it returns an error, every reader of the
    state sees what it saw before the call, the marks of dirty accounts are the
    old ones but for the RIPEMD precompile, and unless the call was refused up
    front or the program reverted, the gas is used up. *)
Theorem call_reverts fuel depth readOnly kind caller addr input gas s : call_allowed readOnly kind caller addr gas s → gas < Z.of_nat fuel →
  ∃ ret left err s', call_frame fuel depth readOnly kind caller addr input gas s = Ok (ret, left, err, s') ∧ db_ok keccak s' ∧ 0 ≤ left ≤ gas ∧
    ∀ e, err = Some e → same_reads keccak s' s ∧ (∀ a, a ≠ ripemd → dirties s' !! a = dirties s !! a) ∧ (refused e = false → left = 0).
Proof.
  intros Ha Hg. destruct (call_frame_ok fuel depth readOnly kind caller addr input gas s Ha Hg) as (ret & left & err & s' & E & Hb & (d & Hd & _) & He).
  exists ret, left, err, s'. split; [done|]. split; [apply Hd, (ca_state _ _ _ _ _ _ Ha)|]. split; [done|]. intros e Ee. destruct (He e Ee) as [Hq Hl].
  split; [by eapply eqv_reads|]. split; [|done]. intros a Hne. apply (eq_dirties _ _ _ _ Hq). set_solver.
Qed.

(** C10. A static call writes nothing: whatever program it runs and whatever that
    program calls, every account that was there keeps its data, code, storage
    and mark of destruction, accounts that are new are empty, and the refund
    counter, the logs and the transient storage are the same; this also holds
    of every call made from a static frame. *)
Theorem static_pure fuel depth readOnly kind caller addr input gas s : call_allowed readOnly kind caller addr gas s → gas < Z.of_nat fuel →
  readOnly = true ∨ kind = KStaticCall →
  ∃ r s', call_frame fuel depth readOnly kind caller addr input gas s = Ok (r, s') ∧ pure keccak s s'.
Proof.
  intros Ha Hg Hro. destruct (call_frame_ok fuel depth readOnly kind caller addr input gas s Ha Hg) as (ret & left & err & s' & E & Hb & (d & Hd & _) & He).
  exists (ret, left, err), s'. split; [done|]. apply Hd. destruct Hro as [->| ->]; [by destruct kind|done].
Qed.

(** C24. A contract creation that fails costs the creator a nonce and nothing
    else: it does not panic and returns at most the gas it was given; when it
    is refused for depth, funds or nonce, the state reads as before and the gas
    is returned; when it fails later (collision, failing or too large code,
    unpaid code from Homestead on), the state reads as the one in which only the
    creator's nonce was increased and, from Berlin on, the address put on the
    access list. *)
Theorem create_reverts fuel depth caller code hash gas value address s : state_ok keccak (slot_refund rules) s gas → gas < Z.of_nat fuel →
  ∃ a ret left err s', create keccak (Run fuel depth false) rules depth caller code hash gas value address s = Ok (a, (ret, left, err), s') ∧ db_ok keccak s' ∧ 0 ≤ left ≤ gas ∧
    ∀ e, err = Some e →
      (a = 0 ∧ (e = ErrDepth ∨ e = ErrInsufficientBalance ∨ e = ErrNonceUintOverflow) ∧ same_reads keccak s' s ∧ left = gas) ∨
      (r_IsHomestead rules = true ∨ e ≠ ErrCodeStoreOutOfGas →
         same_reads keccak s' (prepared keccak rules (ref_Address caller) address s) ∧ (e ≠ ErrExecutionReverted → left = 0)).
Proof.
  intros Hs Hg. destruct (create_spec keccak (Run fuel depth false) rules depth R false (Z.of_nat fuel) (Run_runs fuel depth false) caller code hash gas value address s Hs Hg eq_refl)
    as (a & ret & left & err & s' & E & Hb & (d & Hd & _) & He).
  exists a, ret, left, err, s'. split; [done|]. split; [apply Hd, Hs|]. split; [done|]. intros e Ee. destruct (He e Ee) as [(Ha & Hk & Hq & Hl)|Hq].
  - left. split; [done|]. split; [done|]. split; [by eapply eqv_reads|done].
  - right. intros Hh. destruct (Hq Hh) as [Hq1 Hq2]. split; [by eapply eqv_reads|done].
Qed.
End Execution.

(** ** Witnesses *)

(** Words as the documentation of the package describes them. *)
Definition word_mod : Z := 2 ^ 256.
Definition signed (x : Z) : Z := if x <? 2 ^ 255 then x else x - word_mod.
Definition exact_binary (o : binary) (x y : Z) : Z :=
  match o with
  | uAdd => x + y
  | uSub => x - y
  | uMul => x * y
  | uDiv => if y =? 0 then 0 else x / y
  | uSDiv => if y =? 0 then 0 else Z.quot (signed x) (signed y)
  | uMod => if y =? 0 then 0 else x mod y
  | uSMod => if y =? 0 then 0 else Z.rem (signed x) (signed y)
  | uExp => x ^ y
  | uExtendSign => if 30 <? y then x else let b := 8 * y + 7 in let low := x mod 2 ^ (b + 1) in if Z.testbit x b then low - 2 ^ (b + 1) else low
  | uAnd => Z.land x y
  | uOr => Z.lor x y
  | uXor => Z.lxor x y
  | uByte => if 31 <? y then 0 else Z.shiftr x (8 * (31 - y)) mod 256
  | uLsh => Z.shiftl x y
  | uRsh => Z.shiftr x y
  | uSRsh => Z.shiftr (signed x) y
  end.
#[local] Instance exactWords : Uint256 := {
  u_binary o x y := exact_binary o x y mod word_mod;
  u_compare o x y := match o with uLt => x <? y | uGt => y <? x | uSlt => signed x <? signed y | uSgt => signed y <? signed x | uEq => x =? y end;
  u_AddMod x y z := if z =? 0 then 0 else (x + y) mod z;
  u_MulMod x y z := if z =? 0 then 0 else (x * y) mod z;
  u_Not x := word_mod - 1 - x;
  u_AllOne := word_mod - 1;
  u_IsZero x := x =? 0;
  u_Sign x := if x =? 0 then 0 else if x <? 2 ^ 255 then 1 else -1;
  u_BitLen x := if x =? 0 then 0 else Z.log2 x + 1;
  u_LtUint64 x n := x <? n;
  u_GtUint64 x n := n <? x;
  u_Uint64 x := x mod 2 ^ 64;
  u_IsUint64 x := x <? 2 ^ 64;
  u_Uint64WithOverflow x := (x mod 2 ^ 64, 2 ^ 64 <=? x);
  u_SetUint64 n := n;
  u_FromBig n := n mod word_mod;
  u_ToBig x := x;
  u_SetBytes b := be_value b mod word_mod;
  u_Bytes32 x := be_bytes 32 x;
  u_Bytes20 x := be_bytes 20 x
}.
#[local] Instance exactLaws : Uint256Laws.
Proof.
  assert (Hmod : ∀ z, is_word (z mod word_mod)) by (intros z; apply Z.mod_pos_bound; done).
  assert (Hrem : ∀ a z, is_word z → is_word (if z =? 0 then 0 else a mod z)).
  { intros a z Hz. unfold is_word in *. case_if; [lia|]. pose proof (Z.mod_pos_bound a z). lia. }
  split; cbn; try done; intros; auto.
  - unfold is_word, word_mod in *. lia.
  - unfold is_word in *. repeat case_if; lia.
  - unfold is_word in *. case_if; [lia|]. pose proof (Z.log2_nonneg x). assert (Z.log2 x < 256) by (apply Z.log2_lt_pow2; lia). lia.
Qed.
#[local] Existing Instance mapTries.

(** A state that was just opened has no cleared slots. *)
Lemma covers_New {T S} `{!Tries T S} keccak R (t : T) root snap : covers keccak R (New (S := S) t root snap).
Proof.
  intros l _ Hl. destruct l as [|[a k] l]; [unfold zlen; cbn; lia|]. exfalso. destruct (Hl a k) as [H1 H2]; [set_solver|]. apply H1. rewrite <- H2. unfold original, current, alive, view.
  cbn [stateObjects New]. rewrite lookup_empty. unfold load. destruct (read_account keccak _ a).1; [|done]. cbn. unfold slot. cbn. by rewrite lookup_empty.
Qed.

Definition toy_rules : RulesT := Rules toy_config (Some 1) true 1700000000.
Definition toy_chain : evmEnv := mkEvmEnv toy_config (mkBlockContext (fun n => n) 3 1 1700000000 0 (Some 7) 30000000 (Some 5)) 7 9 false.
(** PUSH1 5, PUSH1 1, SSTORE, PUSH1 0, PUSH1 0, REVERT. *)
Definition toy_revert : bytes := map z2b [0x60; 5; 0x60; 1; 0x55; 0x60; 0; 0x60; 0; 0xfd].
(** PUSH1 1, SLOAD, PUSH1 0, MSTORE, PUSH1 32, PUSH1 0, RETURN. *)
Definition toy_reader : bytes := map z2b [0x60; 1; 0x54; 0x60; 0; 0x52; 0x60; 32; 0x60; 0; 0xf3].
Definition toy_world : stateDB (gmap Z rawAccount) (gmap Z bytes) :=
  AddAddressToAccessList 20 (AddAddressToAccessList 21 (AddAddressToAccessList 7 (SetCode toy_keccak 21 (Some toy_reader) (SetCode toy_keccak 20 (Some toy_revert) toy_state)))).
Definition toy_caller : Contract := mkContract 1 7 [] 0 7 50000 (Some 0).

Lemma toy_context : context_ok toy_chain toy_rules.
Proof. split; [done|by eexists|by eexists|by eexists|done|done]. Qed.
Lemma toy_step s s' : (db_ok toy_keccak s ∧ covers toy_keccak (slot_refund toy_rules) s) → (db_ok toy_keccak s → dbstep toy_keccak (slot_refund toy_rules) false 0 s s') →
  db_ok toy_keccak s' ∧ covers toy_keccak (slot_refund toy_rules) s'.
Proof. intros [H1 H2] H. destruct (H H1) as [Hx _ _ _ Hc _]. split; [by apply Hx|auto]. Qed.
Lemma toy_world_ok : db_ok toy_keccak toy_world ∧ covers toy_keccak (slot_refund toy_rules) toy_world.
Proof.
  destruct (New_wf (S:=gmap Z bytes) toy_keccak {[ ripemd ]} ({[ 7 := mkRaw 3 (Some 100) 0 None ]} : gmap Z rawAccount) 1 None) as [Hwf _].
  do 3 (eapply toy_step; [|intros; by apply step_AddAddress]). do 2 (eapply toy_step; [|intros; by apply step_SetCode]).
  eapply toy_step; [|intros; by apply step_SetNonce]. split; [by split; [|constructor]|]. apply covers_New.
Qed.
Lemma toy_allowed kind addr : addr = 20 ∨ addr = 21 → call_allowed toy_keccak toy_rules false kind toy_caller addr 50000 toy_world.
Proof.
  intros Ha. destruct toy_world_ok as [H1 H2]. split; [by split|by eexists|by eexists| |done]. intros _. split; [done|]. by destruct Ha as [->| ->].
Qed.

#[local] Abbreviation toy_frame kind addr := (call_frame toy_keccak toy_chain false (fun _ => false) (fun _ _ _ => 0) (fun _ _ _ => ([], None)) toy_rules
  (Z.to_nat 50001) 0 false kind toy_caller addr [] 50000 toy_world).
(** The program wrote a slot and reverted; the rest of its gas is returned. *)
Lemma call_reverts_witness : ∃ s', toy_frame (KCall 10) 20 = Ok ([], 27888, Some ErrExecutionReverted, s') ∧ same_reads toy_keccak s' toy_world.
Proof.
  destruct (call_reverts toy_keccak toy_chain false (fun _ => false) (fun _ _ _ => 0) (fun _ _ _ => ([], None)) toy_rules toy_context (fun _ _ _ => Z.le_refl 0)
    (Z.to_nat 50001) 0 false (KCall 10) toy_caller 20 [] 50000 toy_world) as (ret & left & err & s' & E & _ & _ & H).
  - apply toy_allowed. by left.
  - done.
  - assert (Ev : from_ok ([], 0, None) ('(r, _) ← toy_frame (KCall 10) 20; Ok r) = ([], 27888, Some ErrExecutionReverted)) by (vm_compute; reflexivity).
    rewrite E in Ev |- *. cbn in Ev. injection Ev as -> -> ->. exists s'. split; [reflexivity|]. exact (proj1 (H ErrExecutionReverted eq_refl)).
Defined.

(** A static call that reads a slot and returns it. *)
Lemma static_pure_witness : ∃ left s', toy_frame KStaticCall 21 = Ok (replicate 32 (z2b 0), left, None, s') ∧ pure toy_keccak toy_world s'.
Proof.
  destruct (static_pure toy_keccak toy_chain false (fun _ => false) (fun _ _ _ => 0) (fun _ _ _ => ([], None)) toy_rules toy_context (fun _ _ _ => Z.le_refl 0)
    (Z.to_nat 50001) 0 false KStaticCall toy_caller 21 [] 50000 toy_world) as (r & s' & E & H).
  - apply toy_allowed. by right.
  - done.
  - by right.
  - assert (Ev : from_ok ([], 0, None) ('(r, _) ← toy_frame KStaticCall 21; Ok r) = (replicate 32 (z2b 0), 47882, None)) by (vm_compute; reflexivity).
    rewrite E in Ev |- *. cbn in Ev. subst r. exists 47882, s'. split; [reflexivity|exact H].
Defined.
(** Code that runs into an undefined instruction. *)
Lemma create_reverts_witness : ∃ s',
  create toy_keccak (Run toy_keccak toy_chain false (fun _ => false) (fun _ _ _ => 0) (fun _ _ _ => ([], None)) toy_rules (Z.to_nat 1001) 0 false) toy_rules 0
    (OfContract toy_caller) [z2b 0xfe] 0 1000 10 77 toy_world = Ok (77, ([], 0, Some (ErrInvalidOpCode 0xfe)), s') ∧
  same_reads toy_keccak s' (prepared toy_keccak toy_rules 7 77 toy_world).
Proof.
  destruct (create_reverts toy_keccak toy_chain false (fun _ => false) (fun _ _ _ => 0) (fun _ _ _ => ([], None)) toy_rules toy_context (fun _ _ _ => Z.le_refl 0)
    (Z.to_nat 1001) 0 (OfContract toy_caller) [z2b 0xfe] 0 1000 10 77 toy_world) as (a & ret & left & err & s' & E & _ & _ & H).
  - destruct toy_world_ok. by split.
  - done.
  - assert (Ev : from_ok (0, ([], 0, None)) ('(a, r, _) ← create toy_keccak (Run toy_keccak toy_chain false (fun _ => false) (fun _ _ _ => 0) (fun _ _ _ => ([], None)) toy_rules (Z.to_nat 1001) 0 false) toy_rules 0
      (OfContract toy_caller) [z2b 0xfe] 0 1000 10 77 toy_world; Ok (a, r)) = (77, ([], 0, Some (ErrInvalidOpCode 0xfe)))) by (vm_compute; reflexivity).
    rewrite E in Ev |- *. cbn in Ev. injection Ev as -> -> -> ->. exists s'. split; [reflexivity|].
    destruct (H (ErrInvalidOpCode 0xfe) eq_refl) as [(? & [?|[?|?]] & _)|Hq]; [done|done|done|]. apply Hq. by left.
Defined.
(** JUMPDEST, PUSH1 0, JUMP: a loop, until the gas is gone. *)
Definition toy_spin : Contract := mkContract 1 7 (map z2b [0x5b; 0x60; 0; 0x56]) 0 7 1000 (Some 0).
Lemma Run_total_witness : ∃ ret left s' t,
  Run toy_keccak toy_chain false (fun _ => false) (fun _ _ _ => 0) (fun _ _ _ => ([], None)) toy_rules (Z.to_nat 1001) 0 false toy_spin [] false (Snapshot toy_world).2 =
    Ok (ret, left, Some ErrOutOfGas, s') ∧ 0 ≤ left ≤ 1000 ∧ RevertToSnapshot toy_keccak (Snapshot toy_world).1 s' = Ok t ∧ same_reads toy_keccak t toy_world.
Proof.
  destruct toy_world_ok as [Hw Hc]. pose proof (snapshot_inside toy_keccak toy_world Hw) as Hin.
  destruct (Run_total toy_keccak toy_chain false (fun _ => false) (fun _ _ _ => 0) (fun _ _ _ => ([], None)) toy_rules toy_context (fun _ _ _ => Z.le_refl 0)
    (Z.to_nat 1001) 0 false toy_spin [] false (Snapshot toy_world).2) as (ret & left & err & s' & E & Hb & _ & Hrev & _).
  - split; [split; [exact (inside_ok toy_keccak _ _ (proj2 Hw) Hin)|exact Hc|done|done]|by eexists|done|by eexists].
  - done.
  - destruct (Hrev toy_world (proj2 Hw) Hin) as (t & Et & Hsame).
    assert (Ev : from_ok None ('(r, _) ← Run toy_keccak toy_chain false (fun _ => false) (fun _ _ _ => 0) (fun _ _ _ => ([], None)) toy_rules (Z.to_nat 1001) 0 false toy_spin [] false (Snapshot toy_world).2; Ok r.2)
      = Some ErrOutOfGas) by (vm_compute; reflexivity).
    rewrite E in Ev |- *. cbn in Ev. subst err. exists ret, left, s', t. split; [reflexivity|]. split; [exact Hb|]. split; [exact Et|exact Hsame].
Defined.
