(* ===== verification/Fuel.v ===== *)
(** The fuel of [Interpreter.loop] is only a bound: a run that ends gives the
    same result with more fuel.  Whatever is built from a callee that answers
    less is stuck or gives the same answer. *)

From S2P Require Import Prelude RLP Types Receipts Config Transactions StateTransition State StateJournal StateEffects Evm Jumpdest Vm VmSafe StorageGas Interpreter InterpreterSafe Execution.

(** ** Approximation *)

Definition below {A} (o o' : outcome stuck A) : Prop := o = Err OutOfFuel ∨ o = o'.
#[global] Instance below_refl {A} : Reflexive (@below A).
Proof. intros o. by right. Qed.
Lemma below_bind {A B} (o o' : outcome stuck A) (f g : A → outcome stuck B) : below o o' → (∀ a, below (f a) (g a)) → below (o ≫= f) (o' ≫= g).
Proof. intros [->| ->] H; [by left|]. destruct o' as [a|[]|]; cbn; [apply H|by left|by right]. Qed.

Section Fuel.
Context {T S : Type} `{Trie : !Tries T S} `{W : !Uint256} (keccak : bytes → Z).
#[local] Abbreviation machine := (machine T S).
#[local] Abbreviation instr := (stm machine exn).

Definition approx {A} (i i' : instr A) : Prop := ∀ m, (∃ m', i m = (Err Stuck, m')) ∨ i m = i' m.
#[local] Instance approx_refl {A} : Reflexive (@approx A).
Proof. intros i m. by right. Qed.
Lemma approx_bind {A B} (i i' : instr A) (f g : A → instr B) : approx i i' → (∀ a, approx (f a) (g a)) → approx (i ≫= f) (i' ≫= g).
Proof.
  intros Hi Hf m. unfold mbind, stm_bind. destruct (Hi m) as [[m' ->]| ->]; [left; by exists m'|]. destruct (i' m) as [[a|e|] m']; [apply Hf|by right|by right].
Qed.
Lemma approx_nested {A} (f g : stateDB T S → outcome stuck (A * stateDB T S)) : (∀ s, below (f s) (g s)) → approx (nested f) (nested g).
Proof. intros H m. unfold nested. destruct (H (m_db m)) as [->| ->]; [left; by eexists|by right]. Qed.

(** ** Frames *)

Context (run run' : Contract → bytes → bool → stateDB T S → outcome stuck (callResult * stateDB T S)).
Context (Hrun : ∀ c input ro s, below (run c input ro s) (run' c input ro s)).
Context (RequiredGas : RulesT → Z → bytes → Z) (precompiled_Run : RulesT → Z → bytes → bytes * option vmError).
Context (rules : RulesT) (depth : Z).

Ltac below_frame := repeat match goal with
  | |- below (if _ then _ else _) (if _ then _ else _) => case_if
  | |- below (let '(_, _) := ?x in _) _ => destruct x
  | |- below (_ ≫= _) (_ ≫= _) => apply below_bind; [|intros]
  | |- below (run _ _ _ _) _ => apply Hrun
  | |- below ?o ?o => reflexivity
  | |- below (match ?o with _ => _ end) _ => destruct o
  end.

Lemma Call_below from addr input gas value s :
  below (Call keccak run RequiredGas precompiled_Run rules depth from addr input gas value s) (Call keccak run' RequiredGas precompiled_Run rules depth from addr input gas value s).
Proof. unfold Call. below_frame. Qed.
Lemma CallCode_below from addr input gas value s :
  below (CallCode keccak run RequiredGas precompiled_Run rules depth from addr input gas value s) (CallCode keccak run' RequiredGas precompiled_Run rules depth from addr input gas value s).
Proof. unfold CallCode. below_frame. Qed.
Lemma DelegateCall_below from addr input gas s :
  below (DelegateCall keccak run RequiredGas precompiled_Run rules depth from addr input gas s) (DelegateCall keccak run' RequiredGas precompiled_Run rules depth from addr input gas s).
Proof. unfold DelegateCall. below_frame. Qed.
Lemma StaticCall_below from addr input gas s :
  below (StaticCall keccak run RequiredGas precompiled_Run rules depth from addr input gas s) (StaticCall keccak run' RequiredGas precompiled_Run rules depth from addr input gas s).
Proof. unfold StaticCall. below_frame. Qed.
Lemma create_below from code hash gas value address s :
  below (create keccak run rules depth from code hash gas value address s) (create keccak run' rules depth from code hash gas value address s).
Proof. unfold create. below_frame. Qed.

(** ** Instructions *)

Context (ro : bool).
Ltac approx_op := repeat match goal with
  | |- approx ?i ?i => reflexivity
  | |- approx (_ ≫= _) (_ ≫= _) => apply approx_bind; [|intros]
  | |- approx (let '(_, _) := ?x in _) _ => destruct x
  | |- approx (nested _) (nested _) => apply approx_nested; intros
  end.
Lemma opCall_approx : approx (opCall keccak RequiredGas precompiled_Run rules depth ro run) (opCall keccak RequiredGas precompiled_Run rules depth ro run').
Proof. unfold opCall. approx_op. apply Call_below. Qed.
Lemma opCallCode_approx : approx (opCallCode keccak RequiredGas precompiled_Run rules depth run) (opCallCode keccak RequiredGas precompiled_Run rules depth run').
Proof. unfold opCallCode. approx_op. apply CallCode_below. Qed.
Lemma opDelegateCall_approx : approx (opDelegateCall keccak RequiredGas precompiled_Run rules depth run) (opDelegateCall keccak RequiredGas precompiled_Run rules depth run').
Proof. unfold opDelegateCall. approx_op. apply DelegateCall_below. Qed.
Lemma opStaticCall_approx : approx (opStaticCall keccak RequiredGas precompiled_Run rules depth run) (opStaticCall keccak RequiredGas precompiled_Run rules depth run').
Proof. unfold opStaticCall. approx_op. apply StaticCall_below. Qed.
Lemma opCreate_approx : approx (opCreate keccak rules depth ro run) (opCreate keccak rules depth ro run').
Proof. unfold opCreate. approx_op. unfold Create. destruct (State.GetNonce _ _ _). apply create_below. Qed.
Lemma opCreate2_approx : approx (opCreate2 keccak rules depth ro run) (opCreate2 keccak rules depth ro run').
Proof. unfold opCreate2. approx_op. unfold Create2. apply create_below. Qed.

(** ** Tables *)

Record op_approx (o o' : operation (T := T) (S := S)) : Prop := {
  oa_execute : approx (execute o) (execute o');
  oa_constant : constantGas o = constantGas o';
  oa_dynamic : dynamicGas o = dynamicGas o';
  oa_min : minStack o = minStack o';
  oa_max : maxStack o = maxStack o';
  oa_memory : memorySize o = memorySize o'
}.
#[local] Instance op_approx_refl : Reflexive op_approx.
Proof. intros o. by split. Qed.
Lemma entry_approx e e' gas dyn pops pushes mem : approx e e' → op_approx (entry e gas dyn pops pushes mem) (entry e' gas dyn pops pushes mem).
Proof. intros H. by split. Qed.
Lemma perform_approx o o' : op_approx o o' → approx (perform o) (perform o').
Proof.
  destruct o as [e1 c1 d1 n1 x1 s1], o' as [e2 c2 d2 n2 x2 s2]. intros [H1 H2 H3 H4 H5 H6]. cbn in *. subst. unfold perform. cbn [minStack maxStack constantGas dynamicGas memorySize execute].
  apply approx_bind; [done|]. intros n. case_if; [done|]. case_if; [done|]. apply approx_bind; [done|]. intros _. by apply approx_bind.
Qed.

Definition jt_approx (jt jt' : JumpTable (T := T) (S := S)) : Prop := ∀ k, op_approx (jt k) (jt' k).
#[local] Instance jt_approx_refl : Reflexive jt_approx.
Proof. intros jt k. done. Qed.
Lemma set_approx k o o' jt jt' : op_approx o o' → jt_approx jt jt' → jt_approx (set_op k o jt) (set_op k o' jt').
Proof. intros Ho H i. unfold set_op. case_if; [done|apply H]. Qed.
Lemma reprice_approx k gas jt jt' : jt_approx jt jt' → jt_approx (reprice k gas jt) (reprice k gas jt').
Proof. intros H. apply set_approx; [|done]. destruct (H k). by split. Qed.
Lemma remeter_approx k dyn jt jt' : jt_approx jt jt' → jt_approx (remeter k dyn jt) (remeter k dyn jt').
Proof. intros H. apply set_approx; [|done]. destruct (H k). by split. Qed.
Lemma access_approx k gas dyn jt jt' : jt_approx jt jt' → jt_approx (access k gas dyn jt) (access k gas dyn jt').
Proof. intros H. apply remeter_approx. by apply reprice_approx. Qed.
Definition same_rows (rows rows' : list (Z * operation (T := T) (S := S))) : Prop := Forall2 (fun r r' => r.1 = r'.1 ∧ op_approx r.2 r'.2) rows rows'.
Lemma rows_refl rows : same_rows rows rows.
Proof. induction rows as [|r rows IH]; constructor; [by split|done]. Qed.
Lemma same_row k e e' gas dyn pops pushes mem rows rows' : approx e e' → same_rows rows rows' →
  same_rows ((k, entry e gas dyn pops pushes mem) :: rows) ((k, entry e' gas dyn pops pushes mem) :: rows').
Proof. intros He H. constructor; [|exact H]. split; [reflexivity|]. by apply entry_approx. Qed.
Lemma fold_approx rows rows' jt : same_rows rows rows' → jt_approx (foldr (fun '(k, o) jt => set_op k o jt) jt rows) (foldr (fun '(k, o) jt => set_op k o jt) jt rows').
Proof. induction 1 as [|[k o] [k' o'] rows rows' [E Ho] _ IH]; [done|]. cbn in *. subst. by apply set_approx. Qed.

Context (env : evmEnv) (EnablePreimageRecording : bool) (abort : machine → bool).
#[local] Abbreviation table f := (f keccak env EnablePreimageRecording abort RequiredGas precompiled_Run rules depth ro).

Lemma frontier_approx : jt_approx (table newFrontierInstructionSet run) (table newFrontierInstructionSet run').
Proof.
  apply fold_approx. unfold frontier_rows. do 8 (apply Forall2_app; [apply rows_refl|]). unfold frontier_system.
  do 5 (apply same_row; [reflexivity|]). apply same_row; [apply opCreate_approx|]. apply same_row; [apply opCall_approx|]. apply same_row; [apply opCallCode_approx|]. apply rows_refl.
Qed.
Ltac table_approx := repeat match goal with
  | |- jt_approx (set_op DELEGATECALL _ _) _ => apply set_approx; [apply entry_approx, opDelegateCall_approx|]
  | |- jt_approx (set_op STATICCALL _ _) _ => apply set_approx; [apply entry_approx, opStaticCall_approx|]
  | |- jt_approx (set_op CREATE2 _ _) _ => apply set_approx; [apply entry_approx, opCreate2_approx|]
  | |- jt_approx (set_op _ _ _) _ => apply set_approx; [apply op_approx_refl|]
  | |- jt_approx (reprice _ _ _) _ => apply reprice_approx
  | |- jt_approx (remeter _ _ _) _ => apply remeter_approx
  | |- jt_approx (access _ _ _ _) _ => apply access_approx
  end.
Lemma homestead_approx : jt_approx (table newHomesteadInstructionSet run) (table newHomesteadInstructionSet run').
Proof. unfold newHomesteadInstructionSet. table_approx. apply frontier_approx. Qed.
Lemma tangerine_approx : jt_approx (table newTangerineWhistleInstructionSet run) (table newTangerineWhistleInstructionSet run').
Proof. unfold newTangerineWhistleInstructionSet. table_approx. apply homestead_approx. Qed.
Lemma spurious_approx : jt_approx (table newSpuriousDragonInstructionSet run) (table newSpuriousDragonInstructionSet run').
Proof. unfold newSpuriousDragonInstructionSet. table_approx. apply tangerine_approx. Qed.
Lemma byzantium_approx : jt_approx (table newByzantiumInstructionSet run) (table newByzantiumInstructionSet run').
Proof. unfold newByzantiumInstructionSet. table_approx. apply spurious_approx. Qed.
Lemma constantinople_approx : jt_approx (table newConstantinopleInstructionSet run) (table newConstantinopleInstructionSet run').
Proof. unfold newConstantinopleInstructionSet. table_approx. apply byzantium_approx. Qed.
Lemma istanbul_approx : jt_approx (table newIstanbulInstructionSet run) (table newIstanbulInstructionSet run').
Proof. unfold newIstanbulInstructionSet, enable2200, enable1884, enable1344. table_approx. apply constantinople_approx. Qed.
Lemma berlin_approx : jt_approx (table newBerlinInstructionSet run) (table newBerlinInstructionSet run').
Proof. unfold newBerlinInstructionSet, enable2929. table_approx. apply istanbul_approx. Qed.
Lemma london_approx : jt_approx (table newLondonInstructionSet run) (table newLondonInstructionSet run').
Proof. unfold newLondonInstructionSet, enable3198, enable3529. table_approx. apply berlin_approx. Qed.
Lemma merge_approx : jt_approx (table newMergeInstructionSet run) (table newMergeInstructionSet run').
Proof. unfold newMergeInstructionSet. table_approx. apply london_approx. Qed.
Lemma shanghai_approx : jt_approx (table newShanghaiInstructionSet run) (table newShanghaiInstructionSet run').
Proof. unfold newShanghaiInstructionSet, enable3860, enable3855. table_approx. apply merge_approx. Qed.

Lemma step_approx : approx (table step run) (table step run').
Proof.
  unfold step. apply approx_bind; [done|]. intros k. apply approx_bind; [|done]. apply perform_approx. unfold NewEVMInterpreter.
  case_if; [apply shanghai_approx|]. case_if; [apply merge_approx|]. case_if; [apply london_approx|]. case_if; [apply berlin_approx|]. case_if; [apply istanbul_approx|].
  case_if; [apply constantinople_approx|]. case_if; [apply byzantium_approx|]. case_if; [apply spurious_approx|]. case_if; [apply tangerine_approx|]. case_if; [apply homestead_approx|apply frontier_approx].
Qed.
End Fuel.

(** ** Programs *)

Section Programs.
Context {T S : Type} `{Trie : !Tries T S} `{W : !Uint256} `{WL : !Uint256Laws} (keccak : bytes → Z).
Context (env : evmEnv) (EnablePreimageRecording : bool) (abort : machine T S → bool).
Context (RequiredGas : RulesT → Z → bytes → Z) (precompiled_Run : RulesT → Z → bytes → bytes * option vmError).
Context (rules : RulesT).
#[local] Abbreviation loop := (loop keccak env EnablePreimageRecording abort RequiredGas precompiled_Run rules).
#[local] Abbreviation Run := (Run keccak env EnablePreimageRecording abort RequiredGas precompiled_Run rules).

Lemma loop_S fuel depth ro m : loop (Datatypes.S fuel) depth ro m =
  match step keccak env EnablePreimageRecording abort RequiredGas precompiled_Run rules depth ro (Run fuel depth ro) m with
  | (Ok _, m) => loop fuel depth ro m
  | (Err (Halted ret err), m) => Ok (exit m ret err)
  | (Err Stuck, _) => Err OutOfFuel
  | (Panic, _) => Panic
  end.
Proof. reflexivity. Qed.
Lemma loop_more fuel : ∀ depth ro m, below (loop fuel depth ro m) (loop (Datatypes.S fuel) depth ro m).
Proof.
  induction fuel as [|fuel IH]; intros depth ro m; [by left|]. rewrite 2!loop_S.
  assert (H : ∀ c input r s, below (Run fuel depth ro c input r s) (Run (Datatypes.S fuel) depth ro c input r s)).
  { intros c input r s. unfold Interpreter.Run. case_if; [reflexivity|apply IH]. }
  destruct (step_approx keccak _ _ H RequiredGas precompiled_Run rules depth ro env EnablePreimageRecording abort m) as [[m' ->]| ->]; [by left|].
  destruct (step _ _ _ _ _ _ _ _ _ _ m) as [[[]|[ret err|]|] m']; try reflexivity. apply IH.
Qed.
Lemma loop_most fuel more depth ro m : below (loop fuel depth ro m) (loop (fuel + more) depth ro m).
Proof.
  induction more as [|more IH]; [by rewrite Nat.add_0_r|]. rewrite Nat.add_succ_r. destruct IH as [H| ->]; [by left|]. apply loop_more.
Qed.
Lemma Run_most fuel fuel' depth ro c input r s : (fuel ≤ fuel')%nat → below (Run fuel depth ro c input r s) (Run fuel' depth ro c input r s).
Proof.
  intros H. unfold Interpreter.Run. case_if; [reflexivity|]. replace fuel' with (fuel + (fuel' - fuel))%nat by lia. apply loop_most.
Qed.

(** The result of a program does not depend on the fuel: with more fuel than
    gas the interpreter gives one answer, whatever the fuel is, and a run with
    less either stops for lack of fuel or gives that answer too.  So the bound
    of the model stands for the unbounded loop of the source. *)
Theorem Run_fuel fuel fuel' depth readOnly c input static s : context_ok env rules → (∀ r a i, 0 ≤ RequiredGas r a i) →
  run_ok keccak rules (slot_refund rules) s c → c_Gas c < Z.of_nat fuel →
  (Run fuel' depth readOnly c input static s = Err OutOfFuel ∧ Z.of_nat fuel' ≤ c_Gas c) ∨
  Run fuel' depth readOnly c input static s = Run fuel depth readOnly c input static s.
Proof.
  intros Hctx Hgas Hc Hf.
  assert (Hend : ∀ n, c_Gas c < Z.of_nat n → Run n depth readOnly c input static s ≠ Err OutOfFuel).
  { intros n Hn E. destruct (Run_runs keccak env EnablePreimageRecording abort RequiredGas precompiled_Run rules Hctx Hgas n depth readOnly c input static s Hc Hn) as (? & ? & ? & ? & E' & _).
    by rewrite E in E'. }
  destruct (decide (fuel ≤ fuel')%nat) as [Hle|Hle].
  - right. destruct (Run_most fuel fuel' depth readOnly c input static s Hle) as [E| ->]; [by destruct (Hend fuel Hf)|done].
  - destruct (Run_most fuel' fuel depth readOnly c input static s ltac:(lia)) as [E| ->]; [|by right]. left. split; [done|].
    destruct (Z.le_gt_cases (Z.of_nat fuel') (c_Gas c)) as [H|H]; [done|]. by destruct (Hend fuel' H).
Qed.
End Programs.

(** The loop of [toy_spin] takes three instructions for each twelve units of gas. *)
#[local] Existing Instances exactWords exactLaws mapTries.
#[local] Abbreviation toy_run fuel := (Run toy_keccak toy_chain false (fun _ => false) (fun _ _ _ => 0) (fun _ _ _ => ([], None)) toy_rules fuel 0 false toy_spin [] false toy_world).
Lemma Run_fuel_witness : toy_run 200%nat = Err OutOfFuel ∧ toy_run 400%nat = toy_run (Z.to_nat 1001).
Proof.
  split; [vm_compute; reflexivity|].
  destruct (Run_fuel toy_keccak toy_chain false (fun _ => false) (fun _ _ _ => 0) (fun _ _ _ => ([], None)) toy_rules
    (Z.to_nat 1001) 400 0 false toy_spin [] false toy_world toy_context (fun _ _ _ => Z.le_refl 0)) as [[E _]|E].
  - destruct toy_world_ok. split; [by split|by eexists|done|by eexists].
  - done.
  - exfalso. assert (Ev : from_ok true ('(_, _) ← toy_run 400%nat; Ok false) = false) by (vm_compute; reflexivity). rewrite E in Ev. discriminate Ev.
  - exact E.
Defined.
